(* ===== verification/_CoqProject ===== *)
-Q . S2P
Prelude.v
Bytes.v
Skey.v
SkeyRoundtrip.v
SkeyOrder.v
SkeyVar.v
SkeyTyped.v
Keys.v
KeyScan.v
Domain.v
Kv.v
Rows.v
RowsFacts.v
Changeset.v
Scans.v
Tx.v
Sample.v
TxKeys.v
TxInv.v
TxReads.v
TxScans.v
TxListings.v
TxNames.v
TxSync.v
TxOrder.v
Announce.v
Store.v
StoreGc.v
Refine.v
Repl.v
ReplFacts.v
ReplServe.v
ReplPull.v
ReplRound.v
Peers.v
Drain.v
DrainFacts.v
Apply.v
Server.v
ServerFacts.v
Mailbox.v
MailboxFacts.v
MailboxRead.v
MailboxSend.v
MailboxEvents.v
Client.v
ClientFacts.v
MailboxDrain.v
Supervision.v
SupervisionFacts.v
Hygiene.v
LeaseFacts.v
HygieneFacts.v
WatchFacts.v
RestartFacts.v
SupervisionLoop.v
Skew.v
SpawnTree.v
Generations.v
Placement.v
PlacementFacts.v
PlacementLife.v
Exec.v
ExecFacts.v
Text.v
Signal.v
Board.v
Pipeline.v
PipelineFacts.v
Codegen.v
CodegenFacts.v
SourceTask.v
SourceTaskFacts.v
SourceTypes.v
SinkTask.v
CodegenValues.v
Float.v
Steps.v
Outputs.v
Drivers.v
