(* ===== verification/Prelude.v ===== *)
(** * Myrmic: the replicated store of the swarm, its cells and its signal layer

    Myrmic runs cells (small WebAssembly programs) on a swarm of nodes, which
    share their state through a database.  Every node holds part of it in an
    embedded ordered key-value engine; the parts are kept together by a
    replication protocol over a publish/subscribe network.  This development
    models that database, from the bytes of its keys to the exchange of its
    rows between nodes and the requests its clients make, with the mailboxes
    of cells as such a client; and the supervision of the cells, which keeps
    its own rows in the database and decides on what it reads of them.  Nodes
    with sensors and actuators run pipelines, from which a generator makes the
    code of tasks that sample drivers, process values and hand them to cells;
    this signal layer is modelled from the files it is configured by to the
    registers of the sensors.  The development proves what makes the three
    correct.

    ** The program and its model

    - _Keys as bytes_ ([src/swarm/skey], [src/swarm/skey-macros]).  Keys are
      encoded so that the byte order of the encodings is the order of the
      values.  [Bytes] has the byte strings; [Skey] the encoder ([Enc], one
      definition per [serialize_*] method of [encode.rs]) and the decoder
      ([Dec], one per [deserialize_*] method of [decode.rs], over the bytes
      left to read); [Keys] the [StoreKey] trait, its instances, and the
      functions of the [keys!] and derive macros that decide what the bytes
      of a key are.
    - _The schema_ ([db/src/domain.rs], [db-commons/src/models.rs]).  [Domain]
      has the keys of the database as terms of the schema language of [Keys],
      scopes, sync points, subjects and the rendezvous hash.
    - _The engine and the serialisation of values_ are libraries.  [Kv] states
      what the store relies on as the classes [Kv]/[KvLaws] (an ordered
      key-value map with own-write reads and sorted range iterators) and
      [Postcard]/[PostcardLaws] (a value reads back from its serialised
      form); [Sample] and the end of [Kv] have instances, on which the
      definitions are evaluated.
    - _Versioned rows and transactions_ ([db/src/store/fjall/tx.rs]).  [Rows]
      has the layout of rows, the version index, reads and scans; [Tx] the
      transactions over them, in a state and error monad [TX] whose state is
      the record [Transaction]: scope tracking, sync points, changesets,
      commit, snapshots, and the operations on keys, tables, measurements
      and blobs.  A write made before an error stays in the transaction, as
      in the code.
    - _The store_ ([db/src/store/fjall.rs]).  [Store] has the record [Store]
      of an open database with its remote transactions, replicators, drains
      and peers, and its operations in the monad [SM]: beginning and
      committing, expiry of idle transactions, garbage collection, release
      of a scope, the view of the peers.  The clock and the engine's answers
      to each call come from an environment [Env].
    - _Replication_ ([db/src/replication.rs],
      [db-commons/src/models/replication.rs]).  [Announce] has the messages
      and the pure part: frontiers, announces with a fingerprint of what they
      leave out, catch-up plans.  [Repl] has the replicator: a [Node] (store
      and replicator state, published messages in order), the handlers of all
      messages, pulls and coverage checks, in the monad [RM].
    - _Drains_ ([swarm/src/plugins/db.rs], [cell-protocol/src/replication.rs]).
      [Drain] has the loop by which a node hands over a scope it does not
      replicate, as steps between which messages and writes may come, and the
      custody rows it keeps.
    - _Requests_ ([swarm/src/plugins/db/apply.rs], [plugins/db/handler.rs]).
      [Apply] has the operations of a request applied to a transaction, which
      also records the tables it inserted into (the monad [AM]); [Server] the
      handlers: where a routed write may land, applications that commit, roll
      back or stay open, table reads, and what a commit sets going, which a
      [Server] records in order (the monad [HM]).
    - _Clients_ ([src/swarm/db-client]).  [Client] has the choice of the node
      a request goes to, the retries of refused requests, transactions that
      run a function, and applications, which buffer operations; over a
      record [Net] of calls on a state of the world.
    - _Mailboxes_ ([src/swarm/cell-mailbox]).  [Mailbox] has the streams of
      commands and events of a cell and the sending of both, [MailboxDrain]
      the clearing of a mailbox.  The database is a record [Db] of answers by the number of
      the call, so that each may come from another node; theorems instantiate
      it with [Server]s.
    - _Supervision decisions_ ([src/swarm/cell-protocol]).  [Supervision] has
      the records of cells, the fencing verdicts a host reaches on its reads
      and the staleness of leases; [Supervision] also, and [Skew], have the parts of
      [sorg-common/src/supervision.rs] that put them on a clock: timing, the
      lease tracker, gates, the budget of restarts, the watch over a node's own
      clock.
    - _The orchestrator_ ([sorg-orchestration/src/supervision]).  [Hygiene] has
      the pass of its leader: what it plans from the silence of nodes, how it
      carries the plan out, and the restarts of roots.  A pass takes what its
      scans answer and returns its calls in order with their success;
      [SupervisionLoop] closes the loop over the rows it changes.
    - _The rows of cells_ ([sorg-common/src/cells], [cell-protocol/src/generations.rs]).
      [Generations] has the keys of placements and instances and the newest
      row of a cell; [Placement] claiming, publishing and removing them in
      transactions on one scope, whose states form a history; [SpawnTree] the
      spawn gate and the tree of cells.
    - _The execution runtime_ ([src/swarm/sorg-execution]).  [Exec] has the
      event loop of a runtime as far as it supervises: which cells it hosts,
      its verification pass, its sweeps and owed cleanups.
    - _Signal slots_ ([sdk/signal-layer/signal-layer-core]).  [Signal] has the
      retained, batch and event slots through which tasks and cells exchange
      values, their byte interfaces, and the registries of taps and outlets;
      [Text] the text functions of the standard library.
    - _Boards and pipelines_ ([pipeline-backend-api], [pipeline-codegen],
      [esp-codegen/src/backend.rs]).  [Board] has the manifest of a board, its
      two checks and the pins left to cells; [Pipeline] the pipeline file, the
      descriptors of drivers and steps and the validation of a pipeline.
      Errors are data; YAML values, Unicode classes and Rust's identifiers are
      the classes [Yaml], [Unicode] and [Syn], [IdentLaws] saying that plain
      ASCII identifiers are identifiers.
    - _The code generator_ ([pipeline-codegen/src/emit]).  [Codegen] has what
      is emitted, as data: statics, registrations, tasks and their spawning;
      its errors have the panics on a text that is no identifier and on a float
      that is not finite.
      [SourceTask] and [SinkTask] run the emitted tasks, on the outcomes of a
      driver and between the writes of cells.
    - _Signal modules_ ([src/signal-modules]).  [Float] has IEEE numbers;
      [Steps] the seven processing steps; [Outputs] the drivers of relays and
      PWM channels; [Drivers] the nine sensor drivers as methods over a bus
      that answers each transaction as it likes; integer operations, slices and
      copies are checked, with a panic as an outcome.

    The layers use each other as in the code: [Tx] encodes keys with [Keys]
    and [Domain] and reads through [Rows]; [Store] runs transactions; [Repl]
    runs store operations and transactions; [Drain] runs replicator and store
    operations; [Server] runs transactions of the store with [Apply] and
    starts drains; [Client] sends requests, and [ClientFacts] joins it with
    nodes that are [Server]s; [Mailbox] and [MailboxDrain] build the requests
    they send.  [Hygiene] and [Exec] run the decisions of [Supervision]
    and [Skew], and [ExecFacts] joins a restarting runtime
    with the orchestrator's passes.  [Codegen] emits for pipelines [Pipeline]
    accepts on boards [Board] accepts; [SourceTask] runs what it emits on the
    slots of [Signal] with the steps of a class [Steps], which [Steps] the file
    instantiates; [Outputs] joins a relay with the sink task.  Clients are proved against interfaces: all of the store
    against [Kv] and [Postcard], all keys against [StoreKey] and its laws, the
    rows of cells against [Kv], [Postcard], [SriText] (how an identifier prints)
    and [CommitCheck] (when the engine refuses a commit).

    ** What is shown

    - [SkeyRoundtrip], [SkeyOrder], [SkeyVar], [SkeyTyped]: every value the
      encoder accepts reads back, whatever follows it; encodings sort as the
      values do; the same for variable-length integers, with their lengths;
      what the decoder returns is always of the type asked for.  Where the
      codec departs from its documentation (sequences, byte slices), a theorem
      says how.
    - [Keys], [KeyScan], [Domain]: keys of any schema round trip and sort by
      their fields; a scan over a partly filled key finds the keys that
      extend it and no others; alias resolution ends; the same for the
      concrete schema.
    - [RowsFacts], [Scans], [Changeset]: reads and scans against an abstract
      verdict per key and version; the version index; the rows of one version.
    - [TxKeys], [TxInv]: the invariant of the rows, kept by every operation,
      also by those that fail half-way.
    - [TxReads], [TxScans], [TxListings], [TxNames]: the last writer of a key
      decides; listings return the page of the live entries their cursor,
      order, window and limit describe.
    - [TxSync], [TxOrder]: what a commit adds; that changesets
      are idempotent, transfer what a version says of every key, and commute
      when their versions differ, so that replicas converge; and that those
      of one version do not.
    - [Refine]: clients of the store cannot tell it from a log of versioned
      writes to which each transaction adds all of its writes or none.
    - [StoreGc]: garbage collection purges the expired versions and nothing
      else.
    - [Announce], [Peers]: catch-up plans ask for what is missing; differences
      in what an announce leaves out are noticed; the view of the peers.
    - [ReplFacts], [ReplServe], [ReplPull], [ReplRound]: a holder
      serves what the cursor leaves, in bounded pages; a pull ends with
      everything; a replica that probes for a scope, and is answered, has every
      version of it the other replica holds, with the rows of those it lacked.
    - [ReplPull], [DrainFacts]: a coverage check answers exactly what it is
      asked; in every interleaving of a drain with messages and writes, it
      lets go only of versions another node vouched for; and a race by which
      a node that has just become a replica lets go of its rows.
    - [ServerFacts]: an application takes effect as a whole or not at all,
      events included, but that a failed one may have started a drain; after a commit, this node replicates or drains every
      scope it wrote to.
    - [Client], [ClientFacts]: a request goes to the best holder, whatever
      the order of the answers; over a network that loses requests and
      replies, an application is committed by one node, once and as a whole,
      or not at all, and the client learns which unless a call was lost.
    - [MailboxFacts], [MailboxRead], [MailboxSend], [MailboxEvents]: a command
      is not handed out again while its holder works on it, in every run of a
      stream; a read hands out the head of the mailbox and finds a command if
      there is one in its windows; a command that was sent is handed out;
      events come once and in order.
    - [MailboxDrain]: clearing a mailbox returns what it held and leaves
      nothing when it succeeds; and a failure that loses commands.
    - [SupervisionFacts], [LeaseFacts]: verdicts and lease staleness are those
      of a reference decision on the history of reads, so that a cell dies on
      affirmative evidence only.
    - [HygieneFacts], [WatchFacts]: the order of a hygiene pass; a node that
      renews its lease loses nothing to any pass.
    - [RestartFacts], [SupervisionLoop]: a placed root is left alone, a crash
      loop is bounded by its policy while the drop of its spec takes effect, a
      root lost with its node is redeployed; and that it is given up when the
      record of its death fails, and its budget refilled when the drop of its spec
      fails.
    - [Skew]: a report of skew is true of the node's clock.
    - [SpawnTree]: the walk below a cell returns its attached descendants, once
      each, and does not end on a registry with a cycle.
    - [PlacementFacts], [PlacementLife]: in every history of concurrent claims,
      publications and removals on a node a cell is placed once at most; a
      publication is of the current life; a removal for an earlier life is
      unseen; an insertion leaves no older life behind, and loses the one there
      was when it fails half-way.
    - [ExecFacts]: a pass of a runtime decides each cell by its own history and
      removes no row of a cell it hosts; and a root swept when its node restarts
      is given up.
    - [Signal]: what slots hold and lose under any interleaving of writers and
      readers; bytes written are read back.
    - [Board]: cells get exactly the exported pins, none of them in use; and a
      clash of pins the checks do not see.
    - [PipelineFacts], [CodegenFacts], [CodegenValues]: the search for cycles
      is exact; generating from an accepted pipeline fails only for listed
      reasons, registers everything, passes config values and pins as written;
      and what validation lets through: colliding names, dangling steps, names
      and floats on which the generator panics.
    - [SourceTaskFacts], [SourceTypes], [SinkTask]: a tick computes the graph of
      the file, in the types it declares; a faulty source holds no value; the
      latest command is applied, unless it shares its time with the one before.
    - [Steps], [Outputs]: each step against a direct description of its output;
      a relay is not switched faster than its interval; and a command lost
      within it.
    - [Drivers]: no driver panics, whatever its bus answers, and its polls end;
      the integer compensation of the BMP180 is the datasheet's formula; a
      calibration is stored as a whole, as this call read it from the right
      chip, or not at all.

    ** Conventions, bounds and fuel

    Machine integers are [Z] with their ranges as predicates and their
    wrap-around written out.  Results are [res E A]; loops over lists are
    folds.  Loops that are not structural take fuel.  The decoders of
    sequences take one more than the number of bytes left, enough unless the
    elements take no bytes (the predicate [countable]; the code does not
    return there either).  Alias resolution takes one more than the number of
    aliases ([KeyScan.expansion_total]).  UTF-8 validation takes the length of
    the input.  Batches ([chunks]) take the length of the list.  A pull
    takes a bound on the pages it fetches, which the code does not have, and
    [ReplPull] shows that one more than the number of sync points to hand out
    is enough.  The walk below a cell takes a bound on its turns, which the code
    does not have; two more than the number of instances are enough without
    cycles ([SpawnTree]).  A read of a mailbox looks at five windows, as in the code; the
    waiting loops of streams are single turns.  The walk over the steps of a
    pipeline and the search for cycles take one more than the number of steps,
    the type of a producer as many links as the code allows; polls of drivers
    count down the budgets of the code in checked integers, under a fuel of 200
    turns that [Drivers] shows never to run out.  Floating-point numbers are the Standard
    Library's [SpecFloat] at their widths, with one NaN; timer waits of drivers
    are left out.

    Concurrency is interleaving: handlers and transactions run one after the
    other in any order, since the engine isolates transactions and refuses a
    commit that lost a race (an answer of [Env]); the drain loop, which spans
    many of them, is a step relation.  Theorems that use more of the
    serialisation than its round trip name it: [serialises] (metadata within
    its types serialises) and [typed] (what is read back is within its types).

    ** Not modelled

    Of the parts above: parsing of macro input and the tokens around the
    generated code; the semantic (RDF and SPARQL) operations, which run on a
    third-party query engine; opening the engine and reopening it after a
    failure; background tasks, waits and pacing, which change no state of
    their own; the merge of the writes of a transaction with those committed
    since it began, and so, in the histories of [Placement], that a row written by
    a transaction begun later stays above one of a transaction begun before.  Of the rest of the repository: the replica-set
    declarations and liveliness handling of the database plugin; the sessions
    and encodings under its clients; of the orchestration and execution of
    cells, the choice of a runtime, deployments, leadership, the renewal of
    leases and the WebAssembly runtime; the SDK; onboarding and its cryptography; the gateway, telemetry and
    introspection services; network adapters; command-line and build tools;
    of the signal layer, the transport of slots between processes, the edits
    of Cargo files, the text of the generated tokens with what the two backends
    contribute to it, and the Linux runtime; the firmware.  These are I/O,
    wiring of services, or systems of their own beside the database. *)

From Stdlib Require Import ZArith Lia Strings.Byte.
From stdpp Require Import base list option sets countable sorting.

Local Open Scope Z_scope.

(** ** Results: Rust's [Result<T, E>] with the [?] operator as monadic bind *)

Inductive res (E A : Type) : Type :=
  | Ok (a : A)
  | Err (e : E).
Arguments Ok {E A} a.
Arguments Err {E A} e.

#[export] Instance res_ret {E} : MRet (res E) := fun A a => Ok a.
#[export] Instance res_bind {E} : MBind (res E) := fun A B f r =>
  match r with Ok a => f a | Err e => Err e end.
#[export] Instance res_fmap {E} : FMap (res E) := fun A B f r =>
  match r with Ok a => Ok (f a) | Err e => Err e end.

Definition ok_or {E A} (e : E) (o : option A) : res E A :=
  match o with Some a => Ok a | None => Err e end.

Definition map_err {E F A} (f : E -> F) (r : res E A) : res F A :=
  match r with Ok a => Ok a | Err e => Err (f e) end.

Definition is_ok {E A} (r : res E A) : bool :=
  match r with Ok _ => true | Err _ => false end.

(** [for x in l { s = f(s, x)?; }] *)
Fixpoint foldM {E S A} (f : S -> A -> res E S) (l : list A) (s : S) : res E S :=
  match l with
  | [] => Ok s
  | x :: l => s' ← f s x; foldM f l s'
  end.

(** [iter.map(f).collect::<Result<Vec<_>, _>>()] *)
Fixpoint mapM_res {E A B} (f : A -> res E B) (l : list A) : res E (list B) :=
  match l with
  | [] => Ok []
  | x :: l => y ← f x; ys ← mapM_res f l; Ok (y :: ys)
  end.

(** Case analysis on the innermost [match] of a hypothesis or of the goal,
    keeping the equation, and discharging the contradictory branches. *)
Ltac step_match :=
  match goal with
  | H : context [match ?x with _ => _ end] |- _ =>
      lazymatch x with context [match _ with _ => _ end] => fail | _ => idtac end;
      destruct x eqn:?; simplify_eq/=
  | |- context [match ?x with _ => _ end] =>
      lazymatch x with context [match _ with _ => _ end] => fail | _ => idtac end;
      destruct x eqn:?; simplify_eq/=
  end.

(** Destructs conjunctions and existentials of the context. *)
Ltac deex :=
  repeat match goal with
  | H : exists (x : _), _ |- _ => let x' := fresh x in destruct H as [x' H]
  | H : _ /\ _ |- _ => destruct H
  end.

(** Linear arithmetic with division and modulo by constants. *)
Ltac dlia := Z.to_euclidean_division_equations; lia.

Create HintDb myrmic discriminated.

Lemma res_bind_ok {E A B} (r : res E A) (f : A -> res E B) b :
  (r ≫= f) = Ok b <-> exists a, r = Ok a /\ f a = Ok b.
Proof.
  destruct r as [a|e]; cbn; split.
  - eauto.
  - by intros (? & [= <-] & ?).
  - done.
  - by intros (? & ? & ?).
Qed.

Lemma Ok_inj {E A} (a b : A) : @Ok E A a = Ok b -> a = b.
Proof. by intros [=]. Qed.

Lemma mapM_res_ok {E A B} (f : A -> res E B) l ys :
  mapM_res f l = Ok ys <-> Forall2 (fun x y => f x = Ok y) l ys.
Proof.
  revert ys; induction l as [|x l IH]; intros ys; cbn.
  - split; [intros [= <-]; constructor | inversion 1; done].
  - rewrite res_bind_ok. setoid_rewrite res_bind_ok. split.
    + intros (y & Hy & ys' & Hys & [= <-]). constructor; [done|]. by apply IH.
    + inversion 1; subst. eexists; split; [done|]. eexists; split; [by apply IH|done].
Qed.

Lemma mapM_res_map {E A B} (f : A -> res E B) (g : A -> B) l :
  (forall x, x ∈ l -> f x = Ok (g x)) -> mapM_res f l = Ok (map g l).
Proof.
  intros Hf. apply mapM_res_ok. induction l as [|x l IH]; constructor.
  - apply Hf. set_solver.
  - apply IH. intros; apply Hf; set_solver.
Qed.

Lemma foldM_app {E S A} (f : S -> A -> res E S) l1 l2 s :
  foldM f (l1 ++ l2) s = (s' ← foldM f l1 s; foldM f l2 s').
Proof.
  revert s; induction l1 as [|x l1 IH]; intros s; cbn; [done|].
  destruct (f s x); cbn; [apply IH|done].
Qed.

(** An invariant kept by each step is kept by the whole loop. *)
Lemma foldM_inv {E S A} (f : S -> A -> res E S) (P : S -> Prop) l s s' :
  (forall a b x, x ∈ l -> P a -> f a x = Ok b -> P b) ->
  P s -> foldM f l s = Ok s' -> P s'.
Proof.
  revert s; induction l as [|x l IH]; intros s Hstep Hs; cbn.
  - by intros [= <-].
  - intros (b & Hb & Hrest)%res_bind_ok. eapply IH; [|eapply Hstep; [|exact Hs|exact Hb]|exact Hrest]; [|set_solver].
    intros; eapply Hstep; [|done|done]; set_solver.
Qed.

(** ** Unsigned machine integers *)

Definition u8_max : Z := 255.
Definition u32_max : Z := 2 ^ 32 - 1.
Definition u64_max : Z := 2 ^ 64 - 1.
(** [u64::saturating_add] and [u64::saturating_sub] *)
Definition saturating_add (a b : Z) : Z := Z.min (a + b) u64_max.
Definition saturating_sub (a b : Z) : Z := Z.max 0 (a - b).

Definition is_u8 (z : Z) : Prop := 0 <= z < 2 ^ 8.
Definition is_u16 (z : Z) : Prop := 0 <= z < 2 ^ 16.
Definition is_u32 (z : Z) : Prop := 0 <= z < 2 ^ 32.
Definition is_u64 (z : Z) : Prop := 0 <= z < 2 ^ 64.

(** [as uN] on a value of a wider type *)
Definition wrap (n : Z) (z : Z) : Z := z mod 2 ^ n.

(** A two's-complement reading of an n-bit value ([cast_signed]). *)
Definition to_signed (n : Z) (z : Z) : Z :=
  if z <? 2 ^ (n - 1) then z else z - 2 ^ n.

Lemma to_signed_wrap n v :
  0 < n -> - 2 ^ (n - 1) <= v < 2 ^ (n - 1) -> to_signed n (wrap n v) = v.
Proof.
  intros Hn Hv. unfold to_signed, wrap.
  assert (2 ^ n = 2 * 2 ^ (n - 1)) as Hp.
  { rewrite <-Z.pow_succ_r by lia. f_equal; lia. }
  destruct (decide (0 <= v)) as [H0|H0].
  - rewrite Z.mod_small by lia. destruct (Z.ltb_spec v (2 ^ (n - 1))); lia.
  - replace (v mod 2 ^ n) with (v + 2 ^ n).
    + destruct (Z.ltb_spec (v + 2 ^ n) (2 ^ (n - 1))); lia.
    + apply Z.mod_unique with (-1); lia.
Qed.
