(* ===== verification/Bytes.v ===== *)
(** * Byte strings

    Rust's [u8], [Vec<u8>] and [&[u8]]: bytes with their numeric value, the
    lexicographic order slices are compared with (and the key-value store
    iterates in), big-endian integers, prefixes, and UTF-8 validity. *)

From S2P Require Import Prelude.
From Stdlib Require Import ZArith Lia Strings.Byte.
From stdpp Require Import base list option sets countable sorting.

Local Open Scope Z_scope.

Abbreviation bytes := (list byte).

(** ** The numeric value of a byte *)

Definition b2z (b : byte) : Z := Z.of_N (Byte.to_N b).

(** [z as u8] *)
Definition z2b (z : Z) : byte :=
  match Byte.of_N (Z.to_N (z mod 256)) with Some b => b | None => x00 end.

Lemma b2z_range b : 0 <= b2z b < 256.
Proof.
  unfold b2z. pose proof (Byte.to_N_bounded b). lia.
Qed.

Lemma b2z_z2b z : b2z (z2b z) = z mod 256.
Proof.
  unfold b2z, z2b. pose proof (Z.mod_pos_bound z 256 ltac:(lia)) as Hr.
  destruct (Byte.of_N (Z.to_N (z mod 256))) as [b|] eqn:E.
  - apply Byte.to_of_N in E. rewrite E. lia.
  - apply Byte.of_N_None_iff in E. lia.
Qed.

Lemma z2b_b2z b : z2b (b2z b) = b.
Proof.
  unfold z2b. rewrite Z.mod_small by apply b2z_range.
  unfold b2z. rewrite N2Z.id, Byte.of_to_N. done.
Qed.

Lemma b2z_inj a b : b2z a = b2z b -> a = b.
Proof. intros H. by rewrite <-(z2b_b2z a), <-(z2b_b2z b), H. Qed.

Lemma b2z_z2b_small z : 0 <= z < 256 -> b2z (z2b z) = z.
Proof. intros. rewrite b2z_z2b. by apply Z.mod_small. Qed.

#[export] Instance byte_eq_dec : EqDecision byte := Byte.byte_eq_dec.

#[export] Program Instance byte_countable : Countable byte :=
  inj_countable Byte.to_N Byte.of_N _.
Next Obligation. intros b. apply Byte.of_to_N. Qed.

Definition byte_eqb (a b : byte) : bool := bool_decide (a = b).

(** ** Lexicographic order, as [Ord] for slices *)

Fixpoint lex (a b : bytes) : comparison :=
  match a, b with
  | [], [] => Eq
  | [], _ :: _ => Lt
  | _ :: _, [] => Gt
  | x :: a, y :: b =>
      match b2z x ?= b2z y with Eq => lex a b | c => c end
  end.

Definition blt (a b : bytes) : Prop := lex a b = Lt.
Definition ble (a b : bytes) : Prop := lex a b <> Gt.

Definition blt_b (a b : bytes) : bool := match lex a b with Lt => true | _ => false end.
Definition ble_b (a b : bytes) : bool := match lex a b with Gt => false | _ => true end.

Lemma blt_b_spec a b : blt_b a b = true <-> blt a b.
Proof. unfold blt_b, blt. destruct (lex a b); naive_solver. Qed.

Lemma ble_b_spec a b : ble_b a b = true <-> ble a b.
Proof. unfold ble_b, ble. destruct (lex a b); naive_solver. Qed.

Lemma lex_refl a : lex a a = Eq.
Proof. induction a as [|x a IH]; cbn; [done|]. by rewrite Z.compare_refl. Qed.

Lemma lex_eq a b : lex a b = Eq <-> a = b.
Proof.
  split; [|intros ->; apply lex_refl].
  revert b; induction a as [|x a IH]; intros [|y b]; cbn; try done.
  destruct (Z.compare_spec (b2z x) (b2z y)) as [E|E|E]; try done.
  intros H. f_equal; [by apply b2z_inj | by apply IH].
Qed.

Lemma lex_antisym a b : lex b a = CompOpp (lex a b).
Proof.
  revert b; induction a as [|x a IH]; intros [|y b]; cbn; try done.
  rewrite (Z.compare_antisym (b2z x) (b2z y)).
  destruct (b2z x ?= b2z y); cbn; [apply IH|done|done].
Qed.

Lemma blt_trans a b c : blt a b -> blt b c -> blt a c.
Proof.
  unfold blt. revert b c; induction a as [|x a IH]; intros [|y b] [|z c]; cbn; try done.
  destruct (Z.compare_spec (b2z x) (b2z y)), (Z.compare_spec (b2z y) (b2z z)),
    (Z.compare_spec (b2z x) (b2z z)); try done; try lia. apply IH.
Qed.

Lemma blt_irrefl a : ~ blt a a.
Proof. unfold blt. by rewrite lex_refl. Qed.

Lemma ble_cases a b : ble a b <-> blt a b \/ a = b.
Proof.
  unfold ble, blt. rewrite <-lex_eq. destruct (lex a b); naive_solver.
Qed.

Lemma not_blt a b : ~ blt a b <-> ble b a.
Proof.
  unfold ble, blt. rewrite (lex_antisym a b). destruct (lex a b); naive_solver.
Qed.

Lemma not_ble a b : ~ ble a b <-> blt b a.
Proof.
  unfold ble, blt. rewrite (lex_antisym a b). destruct (lex a b); naive_solver.
Qed.

Lemma blt_ble a b : blt a b -> ble a b.
Proof. intros. apply ble_cases. by left. Qed.

Lemma ble_refl a : ble a a.
Proof. apply ble_cases. by right. Qed.

Lemma ble_trans a b c : ble a b -> ble b c -> ble a c.
Proof.
  rewrite !ble_cases. intros [H1| ->] [H2| ->]; eauto using blt_trans.
Qed.

Lemma blt_ble_trans a b c : blt a b -> ble b c -> blt a c.
Proof. rewrite ble_cases. intros H [H2| <-]; eauto using blt_trans. Qed.

Lemma ble_blt_trans a b c : ble a b -> blt b c -> blt a c.
Proof. rewrite ble_cases. intros [H| ->] H2; eauto using blt_trans. Qed.

Lemma ble_antisym a b : ble a b -> ble b a -> a = b.
Proof.
  rewrite !ble_cases. intros [H| ->] [H2|E]; try done.
  exfalso. eapply blt_irrefl, blt_trans; eauto.
Qed.

Lemma blt_total a b : blt a b \/ a = b \/ blt b a.
Proof.
  unfold blt. rewrite <-lex_eq, (lex_antisym a b). destruct (lex a b); naive_solver.
Qed.

#[export] Instance ble_dec a b : Decision (ble a b).
Proof. unfold ble. apply _. Defined.
#[export] Instance blt_dec a b : Decision (blt a b).
Proof. unfold blt. apply _. Defined.

#[export] Hint Resolve blt_trans blt_ble ble_refl blt_ble_trans ble_blt_trans : myrmic.

Lemma lex_app_same p a b : lex (p ++ a) (p ++ b) = lex a b.
Proof. induction p as [|x p IH]; cbn; [done|]. by rewrite Z.compare_refl. Qed.

(** A difference found inside equal-length heads decides the comparison. *)
Lemma lex_app_ne a b ra rb :
  length a = length b -> a <> b -> lex (a ++ ra) (b ++ rb) = lex a b.
Proof.
  revert b; induction a as [|x a IH]; intros [|y b]; cbn; try done.
  intros [= Hl] Hne. destruct (Z.compare_spec (b2z x) (b2z y)) as [E|E|E]; try done.
  apply IH; [done|]. intros ->. apply Hne. f_equal. by apply b2z_inj.
Qed.

(** ** Prefixes *)

Fixpoint starts_with (p k : bytes) : bool :=
  match p, k with
  | [], _ => true
  | _ :: _, [] => false
  | x :: p, y :: k => byte_eqb x y && starts_with p k
  end.

Lemma starts_with_spec p k : starts_with p k = true <-> exists r, k = p ++ r.
Proof.
  revert k; induction p as [|x p IH]; intros k; cbn.
  - split; eauto.
  - destruct k as [|y k]; [split; [done|by intros (?&?)]|].
    unfold byte_eqb. rewrite andb_true_iff, bool_decide_eq_true, IH.
    split; [intros [-> (r & ->)]; by exists r | intros (r & [= -> ->]); eauto].
Qed.

Lemma starts_with_app p r : starts_with p (p ++ r) = true.
Proof. apply starts_with_spec. eauto. Qed.

Lemma starts_with_app_l p a b : starts_with (p ++ a) (p ++ b) = starts_with a b.
Proof. induction p as [|x p IH]; cbn; [done|]. unfold byte_eqb. by rewrite bool_decide_true. Qed.

Lemma ble_prefix p r : ble p (p ++ r).
Proof.
  unfold ble. rewrite <-(app_nil_r p) at 1. rewrite lex_app_same. by destruct r.
Qed.
#[export] Hint Resolve starts_with_app ble_prefix : myrmic.

(** ** Big-endian integers: [to_be_bytes], [from_be_bytes] *)

Fixpoint be (n : nat) (z : Z) : bytes :=
  match n with
  | O => []
  | S m => z2b (z / 256 ^ Z.of_nat m) :: be m z
  end.

Definition of_be (l : bytes) : Z := fold_left (fun acc b => acc * 256 + b2z b) l 0.

Lemma be_length n z : length (be n z) = n.
Proof. induction n; cbn; auto. Qed.

Lemma of_be_acc l acc :
  fold_left (fun acc b => acc * 256 + b2z b) l acc
  = acc * 256 ^ Z.of_nat (length l) + of_be l.
Proof.
  unfold of_be. revert acc; induction l as [|b l IH]; intros acc; cbn [fold_left length].
  - rewrite Z.pow_0_r. lia.
  - rewrite IH, (IH (0 * 256 + b2z b)), Nat2Z.inj_succ, Z.pow_succ_r by lia. lia.
Qed.

Lemma of_be_cons b l : of_be (b :: l) = b2z b * 256 ^ Z.of_nat (length l) + of_be l.
Proof. unfold of_be at 1. cbn [fold_left]. rewrite of_be_acc. lia. Qed.

Lemma of_be_range l : 0 <= of_be l < 256 ^ Z.of_nat (length l).
Proof.
  induction l as [|b l IH]; [cbn; lia|].
  rewrite of_be_cons. cbn [length]. rewrite Nat2Z.inj_succ, Z.pow_succ_r by lia.
  pose proof (b2z_range b). nia.
Qed.

Lemma of_be_be n z : of_be (be n z) = z mod 256 ^ Z.of_nat n.
Proof.
  revert z; induction n as [|n IH]; intros z; [cbn; by rewrite Z.mod_1_r|].
  cbn [be]. rewrite of_be_cons, be_length, IH, b2z_z2b.
  rewrite Nat2Z.inj_succ, Z.pow_succ_r, (Z.mul_comm 256) by lia.
  rewrite (Z.rem_mul_r z (256 ^ Z.of_nat n) 256) by lia. lia.
Qed.

Lemma of_be_be_small n z : 0 <= z < 256 ^ Z.of_nat n -> of_be (be n z) = z.
Proof. intros. rewrite of_be_be. by apply Z.mod_small. Qed.

Lemma of_be_inj a b : length a = length b -> of_be a = of_be b -> a = b.
Proof.
  revert b; induction a as [|x a IH]; intros [|y b]; cbn [length]; try done.
  intros [= Hl]. rewrite !of_be_cons, <-Hl. intros He.
  pose proof (of_be_range a). pose proof (of_be_range b) as Hb. rewrite <-Hl in Hb.
  assert (b2z x = b2z y) by nia.
  f_equal; [by apply b2z_inj | apply IH; [done|lia]].
Qed.

Lemma be_of_be l : be (length l) (of_be l) = l.
Proof.
  apply of_be_inj; [apply be_length|]. rewrite of_be_be.
  apply Z.mod_small, of_be_range.
Qed.

Lemma lex_of_be a b : length a = length b -> lex a b = (of_be a ?= of_be b).
Proof.
  revert b; induction a as [|x a IH]; intros [|y b]; cbn [length]; try done.
  intros [= Hl]. cbn [lex]. rewrite !of_be_cons, <-Hl.
  pose proof (of_be_range a). pose proof (of_be_range b) as Hb. rewrite <-Hl in Hb.
  destruct (Z.compare_spec (b2z x) (b2z y)) as [E|E|E].
  - rewrite E, IH by done. by rewrite Z.add_compare_mono_l.
  - symmetry. apply Z.compare_lt_iff. nia.
  - symmetry. apply Z.compare_gt_iff. nia.
Qed.

(** Fixed-width big-endian integers are compared as integers, then the rest of
    the two strings decides. *)
Lemma lex_be n x y ra rb :
  0 <= x < 256 ^ Z.of_nat n -> 0 <= y < 256 ^ Z.of_nat n ->
  lex (be n x ++ ra) (be n y ++ rb)
  = match x ?= y with Eq => lex ra rb | c => c end.
Proof.
  intros Hx Hy. destruct (Z.compare_spec x y) as [->|Hlt|Hgt].
  - apply lex_app_same.
  - rewrite lex_app_ne, lex_of_be, !of_be_be_small; rewrite ?be_length; try done.
    intros E%(f_equal of_be). rewrite !of_be_be_small in E; lia.
  - rewrite lex_app_ne, lex_of_be, !of_be_be_small; rewrite ?be_length; try done.
    + by apply Z.compare_gt_iff.
    + intros E%(f_equal of_be). rewrite !of_be_be_small in E; lia.
Qed.

Lemma be_inj n x y :
  0 <= x < 256 ^ Z.of_nat n -> 0 <= y < 256 ^ Z.of_nat n -> be n x = be n y -> x = y.
Proof. intros Hx Hy E%(f_equal of_be). rewrite !of_be_be_small in E; done. Qed.

(** ** UTF-8

    Rust's [char] is a Unicode scalar value; [utf8_encode] is what
    [char::to_string] writes and [utf8_first] reads one scalar value the way
    [core::str::from_utf8] validates it (shortest form, no surrogates, at most
    [U+10FFFF]). *)

Definition is_scalar (c : Z) : Prop := 0 <= c < 55296 \/ 57344 <= c < 1114112.

Definition utf8_encode (c : Z) : bytes :=
  if c <? 128 then [z2b c]
  else if c <? 2048 then [z2b (192 + c / 64); z2b (128 + c mod 64)]
  else if c <? 65536 then
    [z2b (224 + c / 4096); z2b (128 + c / 64 mod 64); z2b (128 + c mod 64)]
  else
    [z2b (240 + c / 262144); z2b (128 + c / 4096 mod 64);
     z2b (128 + c / 64 mod 64); z2b (128 + c mod 64)].

Definition in_range (lo hi z : Z) : bool := (lo <=? z) && (z <=? hi).
Definition is_cont (b : byte) : bool := in_range 128 191 (b2z b).

Definition utf8_first (l : bytes) : option (Z * bytes) :=
  match l with
  | [] => None
  | b0 :: r =>
      let x := b2z b0 in
      if x <? 128 then Some (x, r)
      else if in_range 194 223 x then
        match r with
        | b1 :: r =>
            if is_cont b1 then Some ((x - 192) * 64 + (b2z b1 - 128), r) else None
        | _ => None
        end
      else if in_range 224 239 x then
        match r with
        | b1 :: b2 :: r =>
            let lo := if x =? 224 then 160 else 128 in
            let hi := if x =? 237 then 159 else 191 in
            if in_range lo hi (b2z b1) && is_cont b2
            then Some ((x - 224) * 4096 + (b2z b1 - 128) * 64 + (b2z b2 - 128), r)
            else None
        | _ => None
        end
      else if in_range 240 244 x then
        match r with
        | b1 :: b2 :: b3 :: r =>
            let lo := if x =? 240 then 144 else 128 in
            let hi := if x =? 244 then 143 else 191 in
            if in_range lo hi (b2z b1) && is_cont b2 && is_cont b3
            then Some ((x - 240) * 262144 + (b2z b1 - 128) * 4096
                       + (b2z b2 - 128) * 64 + (b2z b3 - 128), r)
            else None
        | _ => None
        end
      else None
  end.

Fixpoint utf8_go (fuel : nat) (l : bytes) : bool :=
  match l, fuel with
  | [], _ => true
  | _, O => false
  | _, S n => match utf8_first l with Some (_, r) => utf8_go n r | None => false end
  end.

(** [str::from_utf8(l).is_ok()]: every scalar takes at least one byte, so the
    length is fuel enough. *)
Definition utf8_valid (l : bytes) : bool := utf8_go (length l) l.

Lemma in_range_true lo hi z : lo <= z <= hi -> in_range lo hi z = true.
Proof. unfold in_range. intros. apply andb_true_intro; lia. Qed.

Lemma in_range_false lo hi z : z < lo \/ hi < z -> in_range lo hi z = false.
Proof. unfold in_range. intros. apply andb_false_iff. lia. Qed.

(** Decides the comparisons of a byte's value with constants. *)
Ltac byte_cases :=
  repeat match goal with
  | |- context [in_range ?a ?b ?c] =>
      first [rewrite (in_range_true a b c) by dlia | rewrite (in_range_false a b c) by dlia]
  | |- context [?a <? ?b] =>
      first [replace (a <? b) with true by (symmetry; apply Z.ltb_lt; dlia)
            |replace (a <? b) with false by (symmetry; apply Z.ltb_ge; dlia)]
  end.

Lemma utf8_first_encode c r : is_scalar c -> utf8_first (utf8_encode c ++ r) = Some (c, r).
Proof.
  intros Hc. unfold is_scalar in Hc. unfold utf8_encode.
  destruct (Z.ltb_spec c 128); [|destruct (Z.ltb_spec c 2048); [|destruct (Z.ltb_spec c 65536)]];
    cbn [app utf8_first]; unfold is_cont.
  - rewrite !b2z_z2b_small by dlia. by byte_cases.
  - rewrite !b2z_z2b_small by dlia. byte_cases. do 2 f_equal. dlia.
  - rewrite !b2z_z2b_small by dlia.
    destruct (Z.eqb_spec (224 + c / 4096) 224); destruct (Z.eqb_spec (224 + c / 4096) 237);
      byte_cases; cbn [andb]; do 2 f_equal; dlia.
  - rewrite !b2z_z2b_small by dlia.
    destruct (Z.eqb_spec (240 + c / 262144) 240); destruct (Z.eqb_spec (240 + c / 262144) 244);
      byte_cases; cbn [andb]; do 2 f_equal; dlia.
Qed.

Lemma utf8_encode_nonempty c : utf8_encode c <> [].
Proof. unfold utf8_encode. by repeat destruct (_ <? _). Qed.

Lemma utf8_valid_encode c : is_scalar c -> utf8_valid (utf8_encode c) = true.
Proof.
  intros Hc. unfold utf8_valid. pose proof (utf8_first_encode c [] Hc) as Hf.
  rewrite app_nil_r in Hf. pose proof (utf8_encode_nonempty c).
  destruct (utf8_encode c) as [|b l]; [done|]. cbn [length utf8_go]. rewrite Hf. by destruct (length l).
Qed.
