(* ===== verification/Skey.v ===== *)
(** * The order-preserving key codec ([swarm/skey])

    [Enc] models [skey/src/encode.rs]: every [serialize_*] method returns the
    bytes it appends to the writer (a [Vec<u8>], so writing itself cannot fail)
    or the error that makes [encode] drop the writer.  [Dec] models
    [skey/src/decode.rs] over [SliceReader]: a method reads from the bytes left
    and returns its result with the bytes left afterwards, also on failure,
    because [deserialize_seq] goes on after one kind of failure. *)

From S2P Require Import Prelude Bytes.
From Stdlib Require Import ZArith Lia Strings.Byte.
From stdpp Require Import base list option strings sets.

Local Open Scope Z_scope.

(** [encode::Error] *)
Inductive ser_error :=
  | SerMessage (m : string)
  | SerIo.

(** [decode::Error]; [DeIo] carries the one [io::ErrorKind] a slice reader
    raises, [UnexpectedEof].  [DePanic] is the arithmetic-overflow panic of an
    unchecked [+=] or [<<] and [DeFuel] marks a model run cut off. *)
Inductive de_error :=
  | DeserializeAnyUnsupported
  | UnexpectedEof
  | InvalidUtf8
  | DeMessage (m : string)
  | DeIo
  | DePanic
  | DeFuel.

(** ** The encoder *)
Module Enc.

Definition write_raw (raw : bytes) : res ser_error bytes := Ok raw.

Definition serialize_var_u64 (val : Z) : res ser_error bytes :=
  Ok (if val <? Z.shiftl 1 4 then be 1 val
      else if val <? Z.shiftl 1 12 then be 2 (Z.lor (wrap 16 val) (Z.shiftl 1 12))
      else if val <? Z.shiftl 1 20 then
        be 1 (Z.lor (wrap 8 (Z.shiftr val 16)) (Z.shiftl 2 4)) ++ be 2 (wrap 16 val)
      else if val <? Z.shiftl 1 28 then be 4 (Z.lor (wrap 32 val) (Z.shiftl 3 28))
      else if val <? Z.shiftl 1 36 then
        be 1 (Z.lor (wrap 8 (Z.shiftr val 32)) (Z.shiftl 4 4)) ++ be 4 (wrap 32 val)
      else if val <? Z.shiftl 1 44 then
        be 2 (Z.lor (wrap 16 (Z.shiftr val 32)) (Z.shiftl 5 12)) ++ be 4 (wrap 32 val)
      else if val <? Z.shiftl 1 52 then
        be 1 (Z.lor (wrap 8 (Z.shiftr val 48)) (Z.shiftl 6 4))
        ++ be 2 (wrap 16 (Z.shiftr val 32)) ++ be 4 (wrap 32 val)
      else if val <? Z.shiftl 1 60 then be 8 (Z.lor val (Z.shiftl 7 60))
      else be 1 (Z.shiftl 8 4) ++ be 8 val).

Definition serialize_var_i64 (v : Z) : res ser_error bytes :=
  let mask := wrap 64 (Z.shiftr v 63) in
  let val := Z.abs v - Z.land 1 mask in
  let masked k s := Z.lxor (Z.lor val (Z.shiftl k s)) mask in
  Ok (if val <? Z.shiftl 1 3 then be 1 (wrap 8 (masked 16 3))
      else if val <? Z.shiftl 1 11 then be 2 (wrap 16 (masked 17 11))
      else if val <? Z.shiftl 1 19 then
        be 1 (wrap 8 (Z.shiftr (masked 18 19) 16)) ++ be 2 (wrap 16 (masked 18 19))
      else if val <? Z.shiftl 1 27 then be 4 (wrap 32 (masked 19 27))
      else if val <? Z.shiftl 1 35 then
        be 1 (wrap 8 (Z.shiftr (masked 20 35) 32)) ++ be 4 (wrap 32 (masked 20 35))
      else if val <? Z.shiftl 1 43 then
        be 2 (wrap 16 (Z.shiftr (masked 21 43) 32)) ++ be 4 (wrap 32 (masked 21 43))
      else if val <? Z.shiftl 1 51 then
        be 1 (wrap 8 (Z.shiftr (masked 22 51) 48))
        ++ be 2 (wrap 16 (Z.shiftr (masked 22 51) 32)) ++ be 4 (wrap 32 (masked 22 51))
      else if val <? Z.shiftl 1 59 then be 8 (masked 23 59)
      else be 1 (Z.lxor (Z.shiftl 24 3) (wrap 8 mask)) ++ be 8 (Z.lxor val mask)).

Definition serialize_bool (v : bool) : res ser_error bytes :=
  Ok (be 1 (if v then 1 else 0)).
Definition serialize_i8 (v : Z) : res ser_error bytes := Ok (be 1 (Z.lxor v (- 2 ^ 7))).
Definition serialize_i16 (v : Z) : res ser_error bytes := Ok (be 2 (Z.lxor v (- 2 ^ 15))).
Definition serialize_i32 (v : Z) : res ser_error bytes := Ok (be 4 (Z.lxor v (- 2 ^ 31))).
Definition serialize_i64 (v : Z) : res ser_error bytes := Ok (be 8 (Z.lxor v (- 2 ^ 63))).
Definition serialize_u8 (v : Z) : res ser_error bytes := Ok (be 1 v).
Definition serialize_u16 (v : Z) : res ser_error bytes := Ok (be 2 v).
Definition serialize_u32 (v : Z) : res ser_error bytes := Ok (be 4 v).
Definition serialize_u64 (v : Z) : res ser_error bytes := Ok (be 8 v).

(** Floats are given by their bits ([to_bits]). *)
Definition serialize_f32 (bits : Z) : res ser_error bytes :=
  let val := to_signed 32 bits in
  let t := Z.lor (Z.shiftr val 31) (- 2 ^ 31) in
  Ok (be 4 (Z.lxor val t)).

Definition serialize_f64 (bits : Z) : res ser_error bytes :=
  let val := to_signed 64 bits in
  let t := Z.lor (Z.shiftr val 63) (- 2 ^ 63) in
  Ok (be 8 (Z.lxor val t)).

Definition contains_nul (v : bytes) : bool := bool_decide (x00 ∈ v).

Definition serialize_str (v : bytes) : res ser_error bytes :=
  if contains_nul v then Err (SerMessage "cannot serialize a str containing NUL")
  else Ok (v ++ [x00]).

Definition serialize_char (v : Z) : res ser_error bytes :=
  if v =? 0 then Err (SerMessage "cannot serialize NUL char")
  else serialize_str (utf8_encode v).

Definition serialize_bytes (v : bytes) : res ser_error bytes :=
  Ok (be 8 (Z.of_nat (length v)) ++ v).

Definition serialize_none : res ser_error bytes := Ok [x00].
Definition serialize_some (inner : res ser_error bytes) : res ser_error bytes :=
  e ← inner; Ok ([x01] ++ e).
Definition serialize_unit : res ser_error bytes := Ok [].
Definition serialize_unit_variant (variant_index : Z) : res ser_error bytes :=
  serialize_u32 variant_index.
Definition serialize_newtype_variant (variant_index : Z) (inner : res ser_error bytes)
  : res ser_error bytes := e ← inner; Ok (be 4 variant_index ++ e).

(** Successive [serialize_element]/[serialize_field]/[serialize_key] and
    [serialize_value] calls on one serializer. *)
Fixpoint serialize_each (l : list (res ser_error bytes)) : res ser_error bytes :=
  match l with
  | [] => Ok []
  | x :: l => a ← x; b ← serialize_each l; Ok (a ++ b)
  end.

(** The compound serializers: what opens them, their elements, [end()]. *)
Definition serialize_seq (l : list (res ser_error bytes)) : res ser_error bytes :=
  e ← serialize_each l; Ok (e ++ [x01]).
Definition serialize_tuple (l : list (res ser_error bytes)) : res ser_error bytes :=
  serialize_each l.
Definition serialize_tuple_struct (l : list (res ser_error bytes)) : res ser_error bytes :=
  serialize_each l.
Definition serialize_tuple_variant (idx : Z) (l : list (res ser_error bytes))
  : res ser_error bytes := e ← serialize_each l; Ok (be 4 idx ++ e).
Definition serialize_map (l : list (res ser_error bytes)) : res ser_error bytes :=
  e ← serialize_each l; Ok (e ++ [x01]).
Definition serialize_struct (l : list (res ser_error bytes)) : res ser_error bytes :=
  serialize_each l.
Definition serialize_struct_variant (idx : Z) (l : list (res ser_error bytes))
  : res ser_error bytes := e ← serialize_each l; Ok (be 4 idx ++ e).

End Enc.

(** ** The decoder *)

Definition dec (A : Type) : Type := bytes -> res de_error A * bytes.

#[export] Instance dec_ret : MRet dec := fun A a s => (Ok a, s).
#[export] Instance dec_bind : MBind dec := fun A B f m s =>
  match m s with
  | (Ok a, s') => f a s'
  | (Err e, s') => (Err e, s')
  end.

Definition dec_err {A} (e : de_error) : dec A := fun s => (Err e, s).

Module Dec.

(** [SliceReader]: [remaining], [read_exact], [fill_buf]/[consume],
    [read_reference], [read_reference_until].  A failed [read_exact] on a
    slice uses up the slice. *)
Definition remaining (s : bytes) : nat := length s.

Definition read_exact (n : nat) : dec bytes := fun s =>
  if decide (n <= length s)%nat then (Ok (take n s), drop n s) else (Err DeIo, []).

Definition read_reference (len : Z) : dec bytes := fun s =>
  if Z.of_nat (length s) <? len then (Err DeIo, s)
  else (Ok (take (Z.to_nat len) s), drop (Z.to_nat len) s).

(** [memchr]: the index of the first occurrence *)
Fixpoint memchr (d : byte) (s : bytes) : option nat :=
  match s with
  | [] => None
  | b :: s => if byte_eqb b d then Some O else S <$> memchr d s
  end.

Definition read_reference_until (delimiter : byte) : dec bytes := fun s =>
  match memchr delimiter s with
  | Some i => (Ok (take i s), drop (S i) s)
  | None => (Err DeIo, s)
  end.

Definition read_uint (n : nat) : dec Z := b ← read_exact n; mret (of_be b).
Definition read_int (n : nat) : dec Z :=
  b ← read_exact n; mret (to_signed (8 * Z.of_nat n) (of_be b)).

Definition move_on : dec bool := fun s =>
  match s with
  | x01 :: r => (Ok true, r)
  | _ => (Ok false, s)
  end.

(** [u64 + u64] and [u64 << u32] with overflow checks on *)
Definition checked_add (a b : Z) : dec Z :=
  if a + b <=? u64_max then mret (a + b) else dec_err DePanic.
Definition checked_shl (a : Z) (s : Z) : dec Z :=
  if s <? 64 then mret (wrap 64 (Z.shiftl a s)) else dec_err DePanic.
(** [overflowing_shl(..).0]: the shift amount is taken modulo 64 *)
Definition overflowing_shl (a : Z) (s : Z) : Z := wrap 64 (Z.shiftl a (s mod 64)).

(** The loop over the trailing bytes, from the [i]-th to the [n]-th. *)
Fixpoint var_loop (flip : Z) (left : nat) (val : Z) : dec Z :=
  match left with
  | O => mret val
  | S m =>
      byte ← read_uint 1;
      sh ← checked_shl (Z.lxor byte flip) (Z.of_nat m * 8);
      val' ← checked_add val sh;
      var_loop flip m val'
  end.

Definition deserialize_var_u64 : dec Z :=
  header ← read_uint 1;
  let n := Z.shiftr header 4 in
  let val := overflowing_shl (Z.land header 15) (n * 8) in
  var_loop 0 (Z.to_nat n) val.

Definition deserialize_var_i64 : dec Z :=
  header ← read_uint 1;
  let mask := wrap 8 (Z.shiftr (to_signed 8 (Z.lxor header 128)) 7) in
  let n := Z.land (Z.lxor (Z.shiftr header 3) mask) 15 in
  let val := overflowing_shl (Z.land (Z.lxor header mask) 7) (n * 8) in
  val ← var_loop mask (Z.to_nat n) val;
  let final_mask := wrap 64 (Z.shiftr (to_signed 64 (wrap 64 (Z.shiftl mask 63))) 63) in
  mret (to_signed 64 (Z.lxor val final_mask)).

Definition deserialize_bool : dec bool := b ← read_uint 1; mret (negb (b =? 0)).
Definition deserialize_i8 : dec Z := i ← read_int 1; mret (Z.lxor i (- 2 ^ 7)).
Definition deserialize_i16 : dec Z := i ← read_int 2; mret (Z.lxor i (- 2 ^ 15)).
Definition deserialize_i32 : dec Z := i ← read_int 4; mret (Z.lxor i (- 2 ^ 31)).
Definition deserialize_i64 : dec Z := i ← read_int 8; mret (Z.lxor i (- 2 ^ 63)).
Definition deserialize_u8 : dec Z := read_uint 1.
Definition deserialize_u16 : dec Z := read_uint 2.
Definition deserialize_u32 : dec Z := read_uint 4.
Definition deserialize_u64 : dec Z := read_uint 8.

Definition deserialize_f32 : dec Z :=
  val ← read_int 4;
  let t := Z.lor (Z.shiftr (Z.lxor val (- 2 ^ 31)) 31) (- 2 ^ 31) in
  mret (wrap 32 (Z.lxor val t)).

Definition deserialize_f64 : dec Z :=
  val ← read_int 8;
  let t := Z.lor (Z.shiftr (Z.lxor val (- 2 ^ 63)) 63) (- 2 ^ 63) in
  mret (wrap 64 (Z.lxor val t)).

Definition deserialize_char : dec Z := fun s =>
  match read_reference_until x00 s with
  | (Ok b, s') =>
      if utf8_valid b then
        match utf8_first b with
        | Some (c, _) => (Ok c, s')
        | None => (Err (DeMessage "expected a single character, found empty input"), s')
        end
      else (Err InvalidUtf8, s')
  | (Err _, s') => (Err UnexpectedEof, s')
  end.

Definition deserialize_str : dec bytes := fun s =>
  match read_reference_until x00 s with
  | (Ok b, s') => if utf8_valid b then (Ok b, s') else (Err InvalidUtf8, s')
  | (Err _, s') => (Err UnexpectedEof, s')
  end.

(** The targets of the store have 64-bit [usize]. *)
Definition usize_max : Z := 2 ^ 64 - 1.

Definition deserialize_bytes : dec bytes :=
  len ← read_uint 8;
  if len <=? usize_max then read_reference len
  else dec_err (DeMessage "byte length exceeds usize range").

Definition deserialize_byte_buf : dec bytes := deserialize_bytes.

Definition deserialize_option {A} (none : A) (some : dec A) : dec A :=
  tag ← read_uint 1;
  if tag =? 0 then mret none
  else if tag =? 1 then some
  else dec_err (DeMessage "expected `0` or `1` for option tag").

Definition deserialize_any {A} : dec A := dec_err DeserializeAnyUnsupported.
Definition deserialize_ignored_any {A} : dec A := dec_err DeserializeAnyUnsupported.
Definition deserialize_identifier {A} : dec A := dec_err DeserializeAnyUnsupported.

(** [SeqAccess::next_element_seed] of a sequence, and [next_key_seed] of a
    map: the terminator ends it, and so does running out of input. *)
Definition next_element {A} (elem : dec A) : dec (option A) := fun s =>
  match move_on s with
  | (Ok true, s') => (Ok None, s')
  | (Ok false, s') =>
      match elem s' with
      | (Ok v, s'') => (Ok (Some v), s'')
      | (Err DeIo, s'') => (Ok None, s'')
      | (Err e, s'') => (Err e, s'')
      end
  | (Err e, s') => (Err e, s')
  end.

(** A visitor that drains the sequence ([Vec]'s): one element per turn. *)
Fixpoint deserialize_seq {A} (fuel : nat) (elem : dec A) : dec (list A) :=
  match fuel with
  | O => dec_err DeFuel
  | S n =>
      o ← next_element elem;
      match o with
      | None => mret []
      | Some v => vs ← deserialize_seq n elem; mret (v :: vs)
      end
  end.

Fixpoint deserialize_map {A B} (fuel : nat) (key : dec A) (value : dec B)
  : dec (list (A * B)) :=
  match fuel with
  | O => dec_err DeFuel
  | S n =>
      o ← next_element key;
      match o with
      | None => mret []
      | Some k => v ← value; kvs ← deserialize_map n key value; mret ((k, v) :: kvs)
      end
  end.

(** [SeqAccess] of a tuple of known length: one element after the other. *)
Fixpoint deserialize_tuple {A} (elems : list (dec A)) : dec (list A) :=
  match elems with
  | [] => mret []
  | d :: elems => v ← d; vs ← deserialize_tuple elems; mret (v :: vs)
  end.
Definition deserialize_tuple_struct {A} (elems : list (dec A)) : dec (list A) :=
  deserialize_tuple elems.
Definition deserialize_struct {A} (fields : list (dec A)) : dec (list A) :=
  deserialize_tuple fields.

(** [EnumAccess::variant_seed] reads the index; the seed (derived code)
    refuses an index no variant has. *)
Definition variant_seed {A} (variants : list (dec A)) : dec A :=
  idx ← deserialize_u32;
  match variants !! Z.to_nat idx with
  | Some d => d
  | None => dec_err (DeMessage "invalid value: variant index")
  end.

End Dec.

(** ** The serde data model *)

Inductive sval :=
  | SBool (b : bool)
  | SI8 (z : Z) | SI16 (z : Z) | SI32 (z : Z) | SI64 (z : Z)
  | SU8 (z : Z) | SU16 (z : Z) | SU32 (z : Z) | SU64 (z : Z)
  | SF32 (bits : Z) | SF64 (bits : Z)
  | SChar (c : Z)
  | SStr (s : bytes)
  | SBytes (b : bytes)
  | SNone | SSome (v : sval)
  | SUnit | SUnitStruct
  | SUnitVariant (idx : Z)
  | SNewtypeStruct (v : sval)
  | SNewtypeVariant (idx : Z) (v : sval)
  | SSeq (l : list sval)
  | STuple (l : list sval)
  | STupleStruct (l : list sval)
  | STupleVariant (idx : Z) (l : list sval)
  | SMap (l : list (sval * sval))
  | SStruct (l : list sval)
  | SStructVariant (idx : Z) (l : list sval).

(** The serializer driven by a value, as [serde::Serialize] drives it. *)
Fixpoint serialize (v : sval) : res ser_error bytes :=
  match v with
  | SBool b => Enc.serialize_bool b
  | SI8 z => Enc.serialize_i8 z
  | SI16 z => Enc.serialize_i16 z
  | SI32 z => Enc.serialize_i32 z
  | SI64 z => Enc.serialize_i64 z
  | SU8 z => Enc.serialize_u8 z
  | SU16 z => Enc.serialize_u16 z
  | SU32 z => Enc.serialize_u32 z
  | SU64 z => Enc.serialize_u64 z
  | SF32 z => Enc.serialize_f32 z
  | SF64 z => Enc.serialize_f64 z
  | SChar c => Enc.serialize_char c
  | SStr s => Enc.serialize_str s
  | SBytes b => Enc.serialize_bytes b
  | SNone => Enc.serialize_none
  | SSome v => Enc.serialize_some (serialize v)
  | SUnit | SUnitStruct => Enc.serialize_unit
  | SUnitVariant i => Enc.serialize_unit_variant i
  | SNewtypeStruct v => serialize v
  | SNewtypeVariant i v => Enc.serialize_newtype_variant i (serialize v)
  | SSeq l => Enc.serialize_seq (map serialize l)
  | STuple l => Enc.serialize_tuple (map serialize l)
  | STupleStruct l => Enc.serialize_tuple_struct (map serialize l)
  | STupleVariant i l => Enc.serialize_tuple_variant i (map serialize l)
  | SMap l =>
      Enc.serialize_map (flat_map (fun kv => [serialize kv.1; serialize kv.2]) l)
  | SStruct l => Enc.serialize_struct (map serialize l)
  | SStructVariant i l => Enc.serialize_struct_variant i (map serialize l)
  end.

(** Types a deserializer is driven by: the shape a [Deserialize] asks for. *)
Inductive vshape := VUnit | VNewtype | VTuple | VStruct.

Inductive sty :=
  | TBool | TI8 | TI16 | TI32 | TI64 | TU8 | TU16 | TU32 | TU64 | TF32 | TF64
  | TChar | TStr | TBytes
  | TOption (t : sty)
  | TUnit | TUnitStruct
  | TNewtypeStruct (t : sty)
  | TSeq (t : sty)
  | TTuple (ts : list sty)
  | TTupleStruct (ts : list sty)
  | TMap (k v : sty)
  | TStruct (ts : list sty)
  | TEnum (vs : list (vshape * list sty)).

Definition dmap {A B} (f : A -> B) (d : dec A) : dec B := a ← d; mret (f a).

(** One variant's content, read after its index. *)
Definition variant_content (idx : Z) (sh : vshape) (ds : list (dec sval)) : dec sval :=
  match sh, ds with
  | VUnit, _ => mret (SUnitVariant idx)
  | VNewtype, d :: _ => dmap (SNewtypeVariant idx) d
  | VNewtype, [] => dec_err (DeMessage "newtype variant without content")
  | VTuple, ds => dmap (STupleVariant idx) (Dec.deserialize_tuple ds)
  | VStruct, ds => dmap (SStructVariant idx) (Dec.deserialize_tuple ds)
  end.

Fixpoint deserialize (t : sty) : dec sval :=
  match t with
  | TBool => dmap SBool Dec.deserialize_bool
  | TI8 => dmap SI8 Dec.deserialize_i8
  | TI16 => dmap SI16 Dec.deserialize_i16
  | TI32 => dmap SI32 Dec.deserialize_i32
  | TI64 => dmap SI64 Dec.deserialize_i64
  | TU8 => dmap SU8 Dec.deserialize_u8
  | TU16 => dmap SU16 Dec.deserialize_u16
  | TU32 => dmap SU32 Dec.deserialize_u32
  | TU64 => dmap SU64 Dec.deserialize_u64
  | TF32 => dmap SF32 Dec.deserialize_f32
  | TF64 => dmap SF64 Dec.deserialize_f64
  | TChar => dmap SChar Dec.deserialize_char
  | TStr => dmap SStr Dec.deserialize_str
  | TBytes => dmap SBytes Dec.deserialize_bytes
  | TOption t => Dec.deserialize_option SNone (dmap SSome (deserialize t))
  | TUnit => mret SUnit
  | TUnitStruct => mret SUnitStruct
  | TNewtypeStruct t => dmap SNewtypeStruct (deserialize t)
  | TSeq t => fun s => dmap SSeq (Dec.deserialize_seq (S (length s)) (deserialize t)) s
  | TTuple ts => dmap STuple (Dec.deserialize_tuple (map deserialize ts))
  | TTupleStruct ts => dmap STupleStruct (Dec.deserialize_tuple_struct (map deserialize ts))
  | TMap k v => fun s =>
      dmap SMap (Dec.deserialize_map (S (length s)) (deserialize k) (deserialize v)) s
  | TStruct ts => dmap SStruct (Dec.deserialize_struct (map deserialize ts))
  | TEnum vs =>
      Dec.variant_seed
        (imap (fun i d => d (Z.of_nat i))
          (map (fun v idx => variant_content idx v.1 (map deserialize v.2)) vs))
  end.
