(* ===== verification/SkeyRoundtrip.v ===== *)
(** * Round trips of the key codec

    Every value the codec encodes is decoded back to itself, whatever follows
    it: the encodings are self-delimiting.  Sequences and maps are the
    exception the predicate [framed] names: their terminator [0x01] is
    confused with an element whose encoding starts with [0x01]. *)

From S2P Require Import Prelude Bytes Skey.
From Stdlib Require Import ZArith Lia Strings.Byte.
From stdpp Require Import base list option strings sets.

Local Open Scope Z_scope.

(** ** Bit-level facts *)

Lemma pow256 n : 256 ^ Z.of_nat n = 2 ^ (8 * Z.of_nat n).
Proof. rewrite Z.pow_mul_r by lia. done. Qed.

Lemma land_neg_pow2 u m : 0 <= m -> 0 <= u < 2 ^ m -> Z.land u (- 2 ^ m) = 0.
Proof.
  intros Hm Hu. replace (- 2 ^ m) with (Z.lnot (Z.ones m)).
  - rewrite <-Z.ldiff_land, Z.ldiff_ones_r by lia.
    rewrite Z.shiftr_div_pow2, Z.div_small by lia. apply Z.shiftl_0_l.
  - rewrite Z.ones_equiv. unfold Z.lnot. lia.
Qed.

(** [v ^ MIN] of an [(m+1)]-bit signed integer *)
Lemma lxor_min m v :
  0 <= m -> - 2 ^ m <= v < 2 ^ m ->
  Z.lxor v (- 2 ^ m) = if v <? 0 then v + 2 ^ m else v - 2 ^ m.
Proof.
  intros Hm Hv. destruct (Z.ltb_spec v 0).
  - replace v with (Z.lxor (v + 2 ^ m) (- 2 ^ m)) at 1.
    + by rewrite Z.lxor_assoc, Z.lxor_nilpotent, Z.lxor_0_r.
    + rewrite <-Z.add_nocarry_lxor by (apply land_neg_pow2; lia). lia.
  - rewrite <-Z.add_nocarry_lxor by (apply land_neg_pow2; lia). lia.
Qed.

Lemma lxor_min_range m v :
  0 <= m -> - 2 ^ m <= v < 2 ^ m -> - 2 ^ m <= Z.lxor v (- 2 ^ m) < 2 ^ m.
Proof. intros Hm Hv. rewrite lxor_min by lia. destruct (Z.ltb_spec v 0); lia. Qed.

Lemma lxor_cancel a b : Z.lxor (Z.lxor a b) b = a.
Proof. by rewrite Z.lxor_assoc, Z.lxor_nilpotent, Z.lxor_0_r. Qed.

Lemma shiftr_sign m v :
  0 <= m -> - 2 ^ m <= v < 2 ^ m -> Z.shiftr v m = if v <? 0 then -1 else 0.
Proof.
  intros Hm Hv. rewrite Z.shiftr_div_pow2 by lia.
  destruct (Z.ltb_spec v 0); [|by apply Z.div_small; lia].
  symmetry. apply Z.div_unique with (v + 2 ^ m); lia.
Qed.

Lemma to_signed_range m z :
  0 <= m -> 0 <= z < 2 ^ (m + 1) -> - 2 ^ m <= to_signed (m + 1) z < 2 ^ m.
Proof.
  intros Hm Hz. unfold to_signed. replace (m + 1 - 1) with m by lia.
  rewrite Z.pow_add_r in Hz |- * by lia. destruct (Z.ltb_spec z (2 ^ m)); lia.
Qed.

Lemma wrap_to_signed m z :
  0 <= m -> 0 <= z < 2 ^ (m + 1) -> wrap (m + 1) (to_signed (m + 1) z) = z.
Proof.
  intros Hm Hz. unfold to_signed, wrap. destruct (Z.ltb_spec z (2 ^ (m + 1 - 1))).
  - apply Z.mod_small; lia.
  - replace (z - 2 ^ (m + 1)) with (z + (-1) * 2 ^ (m + 1)) by lia.
    rewrite Z.mod_add by lia. apply Z.mod_small; lia.
Qed.

(** The mask of the float encodings: [(val >> m) | MIN]. *)
Lemma float_mask m v :
  0 <= m -> - 2 ^ m <= v < 2 ^ m ->
  Z.lor (Z.shiftr v m) (- 2 ^ m) = if v <? 0 then -1 else - 2 ^ m.
Proof.
  intros Hm Hv. rewrite shiftr_sign by lia.
  destruct (v <? 0); [apply Z.lor_m1_l | apply Z.lor_0_l].
Qed.

(** ** Reading back what was written *)

(** Exposes the reader's state threading. *)
Ltac dec_run := cbv [mbind dec_bind mret dec_ret dmap dec_err].

Lemma read_exact_app a r : Dec.read_exact (length a) (a ++ r) = (Ok a, r).
Proof.
  unfold Dec.read_exact. rewrite decide_True by (rewrite length_app; lia).
  by rewrite take_app_length, drop_app_length.
Qed.

Lemma read_exact_app' n a r : length a = n -> Dec.read_exact n (a ++ r) = (Ok a, r).
Proof. intros <-. apply read_exact_app. Qed.

Lemma read_uint_be n z r :
  0 <= z < 256 ^ Z.of_nat n -> Dec.read_uint n (be n z ++ r) = (Ok z, r).
Proof.
  intros Hz. unfold Dec.read_uint; dec_run.
  rewrite read_exact_app' by apply be_length. by rewrite of_be_be_small.
Qed.

Lemma read_uint_cons b r : Dec.read_uint 1 (b :: r) = (Ok (b2z b), r).
Proof.
  change (b :: r) with ([b] ++ r). unfold Dec.read_uint; dec_run.
  rewrite read_exact_app' by done. done.
Qed.

Lemma read_int_be n m z r :
  8 * Z.of_nat n = m + 1 -> 0 <= m -> - 2 ^ m <= z < 2 ^ m ->
  Dec.read_int n (be n z ++ r) = (Ok z, r).
Proof.
  intros Hn Hm Hz. unfold Dec.read_int; dec_run.
  rewrite read_exact_app' by apply be_length.
  rewrite of_be_be, pow256, Hn. do 2 f_equal.
  apply (to_signed_wrap (m + 1)); [lia|]. replace (m + 1 - 1) with m by lia. done.
Qed.

Lemma memchr_first d s r : d ∉ s -> Dec.memchr d (s ++ d :: r) = Some (length s).
Proof.
  induction s as [|b s IH]; intros Hd; cbn; unfold byte_eqb.
  - by rewrite bool_decide_true.
  - rewrite bool_decide_false by set_solver. rewrite IH by set_solver. done.
Qed.

Lemma read_until_app s r :
  x00 ∉ s -> Dec.read_reference_until x00 ((s ++ [x00]) ++ r) = (Ok s, r).
Proof.
  intros Hs. unfold Dec.read_reference_until.
  rewrite <-app_assoc. cbn [app]. rewrite memchr_first by done.
  rewrite take_app_length. f_equal.
  replace (S (length s)) with (length s + 1)%nat by lia. by rewrite drop_app_add.
Qed.

Lemma read_reference_app a r :
  Dec.read_reference (Z.of_nat (length a)) (a ++ r) = (Ok a, r).
Proof.
  unfold Dec.read_reference. rewrite length_app, Nat2Z.id.
  destruct (Z.ltb_spec (Z.of_nat (length a + length r)) (Z.of_nat (length a))); [lia|].
  by rewrite take_app_length, drop_app_length.
Qed.

Lemma contains_nul_false s : Enc.contains_nul s = false <-> x00 ∉ s.
Proof. unfold Enc.contains_nul. apply bool_decide_eq_false. Qed.

Lemma serialize_str_ok s e : Enc.serialize_str s = Ok e -> (x00 ∉ s) /\ e = s ++ [x00].
Proof.
  unfold Enc.serialize_str. destruct (Enc.contains_nul s) eqn:E; [done|].
  apply contains_nul_false in E. by intros [= <-].
Qed.

(** ** Well-typed values *)

Fixpoint all2 {A} (ps : list (A -> Prop)) (l : list A) : Prop :=
  match ps, l with
  | [], [] => True
  | p :: ps, x :: l => p x /\ all2 ps l
  | _, _ => False
  end.

Definition has_variant (idx : Z) (p : vshape * list (sval -> Prop)) (v : sval) : Prop :=
  match p.1, p.2, v with
  | VUnit, _, SUnitVariant i => i = idx
  | VNewtype, q :: _, SNewtypeVariant i v => i = idx /\ q v
  | VTuple, qs, STupleVariant i l => i = idx /\ all2 qs l
  | VStruct, qs, SStructVariant i l => i = idx /\ all2 qs l
  | _, _, _ => False
  end.

Definition svariant_index (v : sval) : option Z :=
  match v with
  | SUnitVariant i | SNewtypeVariant i _ | STupleVariant i _ | SStructVariant i _ => Some i
  | _ => None
  end.

(** The values of a Rust type, integers in range and strings valid UTF-8. *)
Fixpoint has_ty (t : sty) (v : sval) : Prop :=
  match t, v with
  | TBool, SBool _ => True
  | TI8, SI8 z => - 2 ^ 7 <= z < 2 ^ 7
  | TI16, SI16 z => - 2 ^ 15 <= z < 2 ^ 15
  | TI32, SI32 z => - 2 ^ 31 <= z < 2 ^ 31
  | TI64, SI64 z => - 2 ^ 63 <= z < 2 ^ 63
  | TU8, SU8 z => is_u8 z
  | TU16, SU16 z => is_u16 z
  | TU32, SU32 z => is_u32 z
  | TU64, SU64 z => is_u64 z
  | TF32, SF32 z => is_u32 z
  | TF64, SF64 z => is_u64 z
  | TChar, SChar c => is_scalar c
  | TStr, SStr s => utf8_valid s = true
  | TBytes, SBytes b => Z.of_nat (length b) < 2 ^ 64
  | TOption _, SNone => True
  | TOption t, SSome v => has_ty t v
  | TUnit, SUnit => True
  | TUnitStruct, SUnitStruct => True
  | TNewtypeStruct t, SNewtypeStruct v => has_ty t v
  | TSeq t, SSeq l => Forall (has_ty t) l
  | TTuple ts, STuple l => all2 (map has_ty ts) l
  | TTupleStruct ts, STupleStruct l => all2 (map has_ty ts) l
  | TMap k v, SMap l => Forall (fun kv => has_ty k kv.1 /\ has_ty v kv.2) l
  | TStruct ts, SStruct l => all2 (map has_ty ts) l
  | TEnum vs, v =>
      Z.of_nat (length vs) < 2 ^ 32 /\
      exists i, svariant_index v = Some (Z.of_nat i) /\
      match map (fun s => (s.1, map has_ty s.2)) vs !! i with
      | Some p => has_variant (Z.of_nat i) p v
      | None => False
      end
  | _, _ => False
  end.

(** No element of a sequence (no key of a map) has an encoding that is empty or
    starts with the terminator. *)
Definition unlike_end (v : sval) : Prop :=
  match serialize v with
  | Ok (b :: _) => b <> x01
  | Ok [] => False
  | Err _ => True
  end.

Fixpoint framed (v : sval) : Prop :=
  match v with
  | SSome v | SNewtypeStruct v | SNewtypeVariant _ v => framed v
  | SSeq l => Forall unlike_end l /\ Forall id (map framed l)
  | STuple l | STupleStruct l | STupleVariant _ l | SStruct l | SStructVariant _ l =>
      Forall id (map framed l)
  | SMap l =>
      Forall (fun kv => unlike_end kv.1) l /\
      Forall id (map (fun kv => framed kv.1 /\ framed kv.2) l)
  | _ => True
  end.

(** Induction on types, through the nested lists. *)
Section StyInd.
  Context (P : sty -> Prop).
  Hypothesis Hbase : forall t,
    match t with
    | TOption _ | TNewtypeStruct _ | TSeq _ | TTuple _ | TTupleStruct _ | TMap _ _
    | TStruct _ | TEnum _ => True
    | _ => P t
    end.
  Hypothesis Hoption : forall t, P t -> P (TOption t).
  Hypothesis Hnewtype : forall t, P t -> P (TNewtypeStruct t).
  Hypothesis Hseq : forall t, P t -> P (TSeq t).
  Hypothesis Htuple : forall ts, Forall P ts -> P (TTuple ts).
  Hypothesis Htuplestruct : forall ts, Forall P ts -> P (TTupleStruct ts).
  Hypothesis Hmap : forall k v, P k -> P v -> P (TMap k v).
  Hypothesis Hstruct : forall ts, Forall P ts -> P (TStruct ts).
  Hypothesis Henum : forall vs, Forall (fun v => Forall P v.2) vs -> P (TEnum vs).

Fixpoint sty_ind' (t : sty) : P t :=
    let all := fix all (ts : list sty) : Forall P ts :=
      match ts with
      | [] => Forall_nil_2 P
      | t :: ts => Forall_cons_2 P t ts (sty_ind' t) (all ts)
      end in
    match t with
    | TOption t => Hoption t (sty_ind' t)
    | TNewtypeStruct t => Hnewtype t (sty_ind' t)
    | TSeq t => Hseq t (sty_ind' t)
    | TTuple ts => Htuple ts (all ts)
    | TTupleStruct ts => Htuplestruct ts (all ts)
    | TMap k v => Hmap k v (sty_ind' k) (sty_ind' v)
    | TStruct ts => Hstruct ts (all ts)
    | TEnum vs => Henum vs
        ((fix allv (vs : list (vshape * list sty)) : Forall (fun v => Forall P v.2) vs :=
          match vs with
          | [] => Forall_nil_2 _
          | v :: vs => Forall_cons_2 _ v vs (all v.2) (allv vs)
          end) vs)
    | TBool => Hbase TBool
    | TI8 => Hbase TI8
    | TI16 => Hbase TI16
    | TI32 => Hbase TI32
    | TI64 => Hbase TI64
    | TU8 => Hbase TU8
    | TU16 => Hbase TU16
    | TU32 => Hbase TU32
    | TU64 => Hbase TU64
    | TF32 => Hbase TF32
    | TF64 => Hbase TF64
    | TChar => Hbase TChar
    | TStr => Hbase TStr
    | TBytes => Hbase TBytes
    | TUnit => Hbase TUnit
    | TUnitStruct => Hbase TUnitStruct
    end.
End StyInd.

(** ** The round trip *)

(** What a decoder must do with an encoding and anything after it. *)
Definition reads (d : dec sval) (v : sval) : Prop :=
  forall e r, serialize v = Ok e -> d (e ++ r) = (Ok v, r).

Lemma reads_dmap {A} (d : dec A) (f : A -> sval) a s r :
  d s = (Ok a, r) -> dmap f d s = (Ok (f a), r).
Proof. intros H. dec_run. by rewrite H. Qed.

(** The bits of a float as the codec writes them, and the inverse it reads
    them with, for an [(m+1)]-bit pattern read as a signed integer. *)
Definition float_flip (m v : Z) : Z := Z.lxor v (Z.lor (Z.shiftr v m) (- 2 ^ m)).
Definition float_unflip (m w : Z) : Z :=
  Z.lxor w (Z.lor (Z.shiftr (Z.lxor w (- 2 ^ m)) m) (- 2 ^ m)).

Lemma float_flip_value m v :
  0 <= m -> - 2 ^ m <= v < 2 ^ m ->
  float_flip m v = if v <? 0 then - v - 1 else v - 2 ^ m.
Proof.
  intros Hm Hv. unfold float_flip. rewrite float_mask by lia.
  destruct (Z.ltb_spec v 0).
  - rewrite Z.lxor_m1_r. unfold Z.lnot. lia.
  - rewrite lxor_min by lia. by destruct (Z.ltb_spec v 0); [lia|].
Qed.

Lemma float_unflip_flip m v :
  0 <= m -> - 2 ^ m <= v < 2 ^ m -> float_unflip m (float_flip m v) = v.
Proof.
  intros Hm Hv. pose proof (float_flip_value m v Hm Hv) as E.
  assert (- 2 ^ m <= float_flip m v < 2 ^ m) as Hr by (destruct (Z.ltb_spec v 0); lia).
  unfold float_unflip. rewrite float_mask by (auto using lxor_min_range).
  rewrite lxor_min by done. rewrite E.
  destruct (Z.ltb_spec v 0).
  - destruct (Z.ltb_spec (- v - 1) 0); [lia|].
    destruct (Z.ltb_spec (- v - 1 - 2 ^ m) 0); [|lia].
    rewrite Z.lxor_m1_r. unfold Z.lnot. lia.
  - destruct (Z.ltb_spec (v - 2 ^ m) 0); [|lia].
    destruct (Z.ltb_spec (v - 2 ^ m + 2 ^ m) 0); [lia|].
    rewrite lxor_min by lia. destruct (Z.ltb_spec (v - 2 ^ m) 0); lia.
Qed.

Lemma read_float n m bits r :
  8 * Z.of_nat n = m + 1 -> 0 <= m -> 0 <= bits < 2 ^ (m + 1) ->
  (val ← Dec.read_int n; mret (wrap (m + 1) (float_unflip m val)) : dec Z)
    (be n (float_flip m (to_signed (m + 1) bits)) ++ r) = (Ok bits, r).
Proof.
  intros Hn Hm Hb. pose proof (to_signed_range m bits Hm Hb) as Hs.
  pose proof (float_flip_value m _ Hm Hs) as E. dec_run.
  rewrite (read_int_be n m) by (try done; destruct (Z.ltb_spec (to_signed (m + 1) bits) 0); lia).
  by rewrite float_unflip_flip, wrap_to_signed.
Qed.

Lemma read_signed n m v r :
  8 * Z.of_nat n = m + 1 -> 0 <= m -> - 2 ^ m <= v < 2 ^ m ->
  (i ← Dec.read_int n; mret (Z.lxor i (- 2 ^ m)) : dec Z)
    (be n (Z.lxor v (- 2 ^ m)) ++ r) = (Ok v, r).
Proof.
  intros Hn Hm Hv. dec_run.
  rewrite (read_int_be n m) by (auto using lxor_min_range). by rewrite lxor_cancel.
Qed.

Lemma char_roundtrip c e r :
  is_scalar c -> Enc.serialize_char c = Ok e -> Dec.deserialize_char (e ++ r) = (Ok c, r).
Proof.
  intros Hc. unfold Enc.serialize_char. destruct (c =? 0); [done|].
  intros [Hn ->]%serialize_str_ok. unfold Dec.deserialize_char.
  rewrite read_until_app by done. rewrite utf8_valid_encode by done.
  pose proof (utf8_first_encode c [] Hc) as Hf. rewrite app_nil_r in Hf. by rewrite Hf.
Qed.

Lemma str_roundtrip s e r :
  utf8_valid s = true -> Enc.serialize_str s = Ok e ->
  Dec.deserialize_str (e ++ r) = (Ok s, r).
Proof.
  intros Hv [Hn ->]%serialize_str_ok. unfold Dec.deserialize_str.
  rewrite read_until_app by done. by rewrite Hv.
Qed.

Lemma bytes_roundtrip b e r :
  Z.of_nat (length b) < 2 ^ 64 -> Enc.serialize_bytes b = Ok e ->
  Dec.deserialize_bytes (e ++ r) = (Ok b, r).
Proof.
  intros Hl He. apply Ok_inj in He as <-. unfold Dec.deserialize_bytes; dec_run.
  rewrite <-app_assoc, read_uint_be by lia.
  destruct (Z.leb_spec (Z.of_nat (length b)) Dec.usize_max); [|unfold Dec.usize_max in *; lia].
  apply read_reference_app.
Qed.

Lemma serialize_each_cons x l e :
  Enc.serialize_each (x :: l) = Ok e ->
  exists a b, x = Ok a /\ Enc.serialize_each l = Ok b /\ e = a ++ b.
Proof.
  cbn. intros (a & Ha & Hb)%res_bind_ok. apply res_bind_ok in Hb as (b & Hb & [= <-]). eauto.
Qed.

Lemma tuple_roundtrip ts l e r :
  Forall (fun t => forall v, has_ty t v -> framed v -> reads (deserialize t) v) ts ->
  all2 (map has_ty ts) l -> Forall id (map framed l) ->
  Enc.serialize_each (map serialize l) = Ok e ->
  Dec.deserialize_tuple (map deserialize ts) (e ++ r) = (Ok l, r).
Proof.
  intros Hts. revert l e r; induction Hts as [|t ts Ht Hts IH]; intros [|v l] e r; cbn [map all2];
    try done.
  - intros _ _ [= <-]. done.
  - intros [Hv Hl] [Hf Hfl]%Forall_cons Hs.
    apply serialize_each_cons in Hs as (a & b & Ha & Hb & ->).
    cbn [Dec.deserialize_tuple]. dec_run. rewrite <-app_assoc, (Ht v Hv Hf a) by done.
    by rewrite (IH l b r).
Qed.

Lemma unlike_end_read v a r : unlike_end v -> serialize v = Ok a ->
  Dec.move_on (a ++ r) = (Ok false, a ++ r) /\ (0 < length a)%nat.
Proof.
  unfold unlike_end. intros Hu Ha. rewrite Ha in Hu. destruct a as [|b a]; [done|].
  cbn. split; [|lia]. by destruct b.
Qed.

Lemma seq_roundtrip t l e r fuel :
  (forall v, has_ty t v -> framed v -> reads (deserialize t) v) ->
  Forall (has_ty t) l -> Forall unlike_end l -> Forall id (map framed l) ->
  Enc.serialize_each (map serialize l) = Ok e -> (length l < fuel)%nat ->
  Dec.deserialize_seq fuel (deserialize t) ((e ++ [x01]) ++ r) = (Ok l, r).
Proof.
  intros Ht. revert e r fuel; induction l as [|v l IH]; intros e r [|fuel] Hty Hu Hf Hs Hfuel;
    cbn [length] in Hfuel; try lia.
  - cbn in Hs. injection Hs as <-. done.
  - apply Forall_cons in Hty as [Hv Hty]. apply Forall_cons in Hu as [Hu Hul].
    cbn [map] in Hf, Hs. apply Forall_cons in Hf as [Hf Hfl].
    apply serialize_each_cons in Hs as (a & b & Ha & Hb & ->).
    cbn [Dec.deserialize_seq]. unfold Dec.next_element. dec_run. rewrite <-!app_assoc.
    destruct (unlike_end_read v a (b ++ [x01] ++ r) Hu Ha) as [-> _].
    rewrite (Ht v Hv Hf a _ Ha). rewrite app_assoc, (IH b r fuel) by (done || lia). done.
Qed.

Lemma map_roundtrip tk tv l e r fuel :
  (forall v, has_ty tk v -> framed v -> reads (deserialize tk) v) ->
  (forall v, has_ty tv v -> framed v -> reads (deserialize tv) v) ->
  Forall (fun kv => has_ty tk kv.1 /\ has_ty tv kv.2) l ->
  Forall (fun kv => unlike_end kv.1) l ->
  Forall id (map (fun kv => framed kv.1 /\ framed kv.2) l) ->
  Enc.serialize_each (flat_map (fun kv => [serialize kv.1; serialize kv.2]) l) = Ok e ->
  (length l < fuel)%nat ->
  Dec.deserialize_map fuel (deserialize tk) (deserialize tv) ((e ++ [x01]) ++ r) = (Ok l, r).
Proof.
  intros Hk Hv. revert e r fuel; induction l as [|[k v] l IH];
    intros e r [|fuel] Hty Hu Hf Hs Hfuel; cbn [length] in Hfuel; try lia.
  - cbn in Hs. injection Hs as <-. done.
  - apply Forall_cons in Hty as [[Hkt Hvt] Hty]. apply Forall_cons in Hu as [Hu Hul].
    cbn [map flat_map app] in Hf, Hs. apply Forall_cons in Hf as [[Hkf Hvf] Hfl].
    apply serialize_each_cons in Hs as (a & b & Ha & Hs & ->).
    apply serialize_each_cons in Hs as (c & d & Hc & Hd & ->). cbn [fst snd] in *.
    cbn [Dec.deserialize_map]. unfold Dec.next_element. dec_run. rewrite <-!app_assoc.
    destruct (unlike_end_read k a (c ++ d ++ [x01] ++ r) Hu Ha) as [-> _].
    rewrite (Hk k Hkt Hkf a _ Ha), (Hv v Hvt Hvf c _ Hc).
    rewrite app_assoc, (IH d r fuel) by (done || lia). done.
Qed.

(** Each element takes at least one byte. *)
Lemma seq_fuel l e :
  Forall unlike_end l -> Enc.serialize_each (map serialize l) = Ok e ->
  (length l <= length e)%nat.
Proof.
  revert e; induction l as [|v l IH]; intros e Hu Hs; cbn [length]; [lia|].
  apply Forall_cons in Hu as [Hu Hul]. cbn [map] in Hs.
  apply serialize_each_cons in Hs as (a & b & Ha & Hb & ->).
  destruct (unlike_end_read v a [] Hu Ha) as [_ ?]. specialize (IH b Hul Hb).
  rewrite length_app. lia.
Qed.

Lemma map_fuel l e :
  Forall (fun kv => unlike_end kv.1) l ->
  Enc.serialize_each (flat_map (fun kv => [serialize kv.1; serialize kv.2]) l) = Ok e ->
  (length l <= length e)%nat.
Proof.
  revert e; induction l as [|[k v] l IH]; intros e Hu Hs; cbn [length]; [lia|].
  apply Forall_cons in Hu as [Hu Hul]. cbn [flat_map app] in Hs.
  apply serialize_each_cons in Hs as (a & b & Ha & Hs & ->).
  apply serialize_each_cons in Hs as (c & d & Hc & Hd & ->). cbn [fst snd] in *.
  destruct (unlike_end_read k a [] Hu Ha) as [_ ?]. specialize (IH d Hul Hd).
  rewrite !length_app. lia.
Qed.

(** Closes a scalar case: the decoder's first step reads the written integer. *)
Ltac scalar He := apply Ok_inj in He as <-; apply reads_dmap.

Lemma scalar_roundtrip t v :
  match t with
  | TOption _ | TNewtypeStruct _ | TSeq _ | TTuple _ | TTupleStruct _ | TMap _ _
  | TStruct _ | TEnum _ => True
  | _ => has_ty t v -> reads (deserialize t) v
  end.
Proof.
  destruct t; try exact I; intros Hty e r He; destruct v; try done; cbn in Hty; cbn [serialize] in He;
    unfold is_u8, is_u16, is_u32, is_u64 in Hty.
  - scalar He. by destruct b; cbn [app be].
  - scalar He. by apply (read_signed 1 7).
  - scalar He. by apply (read_signed 2 15).
  - scalar He. by apply (read_signed 4 31).
  - scalar He. by apply (read_signed 8 63).
  - scalar He. by apply (read_uint_be 1).
  - scalar He. by apply (read_uint_be 2).
  - scalar He. by apply (read_uint_be 4).
  - scalar He. by apply (read_uint_be 8).
  - scalar He. by apply (read_float 4 31).
  - scalar He. by apply (read_float 8 63).
  - apply reads_dmap. by apply char_roundtrip.
  - apply reads_dmap. by apply str_roundtrip.
  - apply reads_dmap. by apply bytes_roundtrip.
  - by apply Ok_inj in He as <-.
  - by apply Ok_inj in He as <-.
Qed.

Lemma all2_length {A} (ps : list (A -> Prop)) l : all2 ps l -> length ps = length l.
Proof. revert l; induction ps as [|p ps IH]; intros [|x l]; cbn; firstorder. Qed.

(** The content of a variant, after its index. *)
Lemma variant_roundtrip i sh ts v e r :
  Forall (fun t => forall v, has_ty t v -> framed v -> reads (deserialize t) v) ts ->
  has_variant (Z.of_nat i) (sh, map has_ty ts) v -> framed v ->
  serialize v = Ok e ->
  exists e', e = be 4 (Z.of_nat i) ++ e' /\
    variant_content (Z.of_nat i) sh (map deserialize ts) (e' ++ r) = (Ok v, r).
Proof.
  intros Hts Hv Hf He. destruct sh.
  - destruct v; try done. cbn in Hv. subst. apply Ok_inj in He as <-. exists [].
    by rewrite app_nil_r.
  - destruct ts as [|t ts]; [done|]. destruct v; try done. destruct Hv as [-> Hv].
    apply Forall_cons in Hts as [Ht _]. cbn [serialize] in He.
    unfold Enc.serialize_newtype_variant in He. apply res_bind_ok in He as (e' & He' & E).
    apply Ok_inj in E as <-. exists e'. split; [done|]. cbn. apply reads_dmap. by apply Ht.
  - destruct v; try done. destruct Hv as [-> Hv]. cbn [serialize] in He.
    unfold Enc.serialize_tuple_variant in He.
    apply res_bind_ok in He as (e' & He' & E). apply Ok_inj in E as <-.
    exists e'. split; [done|]. apply reads_dmap. by apply tuple_roundtrip.
  - destruct v; try done. destruct Hv as [-> Hv]. cbn [serialize] in He.
    unfold Enc.serialize_struct_variant in He.
    apply res_bind_ok in He as (e' & He' & E). apply Ok_inj in E as <-.
    exists e'. split; [done|]. apply reads_dmap. by apply tuple_roundtrip.
Qed.

Lemma reads_value (t : sty) (v : sval) :
  has_ty t v -> framed v -> reads (deserialize t) v.
Proof.
  revert v.
  pattern t; apply sty_ind'; clear t;
    [intros t|intros t IH|intros t IH|intros t IH|intros ts IH|intros ts IH
    |intros k v IHk IHv|intros ts IH|intros vs IH].
  - pose proof (fun v => scalar_roundtrip t v). destruct t; eauto.
  - intros v Hty Hf e r He. destruct v as [| | | | | | | | | | | | | | |v| | | | | | | | | | | |]; try done.
    + apply Ok_inj in He as <-. done.
    + cbn [serialize] in He. unfold Enc.serialize_some in He.
      apply res_bind_ok in He as (e' & He' & E). apply Ok_inj in E as <-.
      cbn [deserialize app]. unfold Dec.deserialize_option; dec_run.
      rewrite read_uint_cons. cbn [b2z]. change (b2z x01) with 1. cbn [Z.eqb Pos.eqb].
      rewrite (IH v Hty Hf e' r He'). done.
  - intros v Hty Hf e r He. destruct v; try done. apply reads_dmap. by apply IH.
  - intros v Hty Hf e r He. destruct v; try done. cbn [serialize] in He.
    unfold Enc.serialize_seq in He. apply res_bind_ok in He as (e' & He' & E).
    apply Ok_inj in E as <-. destruct Hf as [Hu Hf]. cbn [deserialize]. apply reads_dmap.
    apply seq_roundtrip; try done.
    pose proof (seq_fuel _ _ Hu He'). rewrite !length_app. lia.
  - intros v Hty Hf e r He. destruct v; try done. apply reads_dmap. by apply tuple_roundtrip.
  - intros v Hty Hf e r He. destruct v; try done. apply reads_dmap. by apply tuple_roundtrip.
  - intros w Hty Hf e r He. destruct w; try done. cbn [serialize] in He.
    unfold Enc.serialize_map in He. apply res_bind_ok in He as (e' & He' & E).
    apply Ok_inj in E as <-. destruct Hf as [Hu Hf]. cbn [deserialize]. apply reads_dmap.
    apply map_roundtrip; try done.
    pose proof (map_fuel _ _ Hu He'). rewrite !length_app. lia.
  - intros v Hty Hf e r He. destruct v; try done. apply reads_dmap. by apply tuple_roundtrip.
  - intros v Hty Hf e r He. cbn [has_ty] in Hty. destruct Hty as (Hlen & i & _ & Hv).
    rewrite list_lookup_fmap in Hv.
    destruct (vs !! i) as [[sh ts]|] eqn:Ei; cbn in Hv; [|done].
    pose proof (Forall_lookup_1 _ _ _ _ IH Ei) as Hts. cbn in Hts.
    destruct (variant_roundtrip i sh ts v e r Hts Hv Hf He) as (e' & -> & Hc).
    apply lookup_lt_Some in Ei as Hi. cbn [deserialize].
    unfold Dec.variant_seed, Dec.deserialize_u32; dec_run.
    rewrite <-app_assoc, read_uint_be by (cbn; lia).
    rewrite Nat2Z.id, list_lookup_imap, list_lookup_fmap, Ei. exact Hc.
Qed.

(** C34. Self-delimiting round trip of the codec: for every type of the serde
    data model, a well-typed value whose sequences are framed and which the
    serializer accepts is read back exactly, whatever bytes follow it, and
    exactly its own bytes are consumed. *)
Theorem deserialize_serialize (t : sty) (v : sval) (e r : bytes)
    (Hty : has_ty t v) (Hf : framed v) (He : serialize v = Ok e) :
  deserialize t (e ++ r) = (Ok v, r).
Proof. by apply reads_value. Qed.

Definition sample_ty : sty :=
  TStruct [TU64; TStr; TEnum [(VUnit, []); (VTuple, [TI8; TBool])]; TSeq TU16].
Definition sample_val : sval :=
  SStruct [SU64 7; SStr [x61; x62]; STupleVariant 1 [SI8 (-3); SBool true];
           SSeq [SU16 5; SU16 9]].

Lemma deserialize_serialize_witness :
  deserialize sample_ty
    (be 8 7 ++ [x61; x62; x00] ++ be 4 1 ++ [x7d; x01] ++ [x00; x05; x00; x09; x01] ++ [xff])
  = (Ok sample_val, [xff]).
Proof.
  apply (deserialize_serialize sample_ty sample_val
    (be 8 7 ++ [x61; x62; x00] ++ be 4 1 ++ [x7d; x01] ++ [x00; x05; x00; x09; x01]) [xff]).
  - repeat split; try (cbn; lia); try (vm_compute; done).
    + exists 1%nat. cbn. repeat split; lia.
    + repeat constructor; cbn; lia.
  - cbn. unfold unlike_end; cbn. repeat (constructor || split); done.
  - vm_compute. done.
Defined.
