(* ===== verification/SkeyOrder.v ===== *)
(** * Order preservation of the key codec

    The store sorts keys by their bytes, so the codec must send the order of
    the values to the lexicographic order of the encodings.  [vcmp] is the
    order of the Rust types ([Ord], and [total_cmp] for floats).  Sequences, maps
    and byte slices are left out by [ord_ty], for their encodings do not have
    the order of slices: the terminator of a sequence sorts above some
    elements, and a byte slice begins with its length, so that shorter ones come
    first ([shortlex]). *)

From S2P Require Import Prelude Bytes Skey SkeyRoundtrip.
From Stdlib Require Import ZArith Lia Strings.Byte.
From stdpp Require Import base list option strings sets.

Local Open Scope Z_scope.

(** [c.then(d)] *)
Definition cthen (c d : comparison) : comparison :=
  match c with Eq => d | _ => c end.

Definition cmp_bool (a b : bool) : comparison :=
  match a, b with
  | false, true => Lt
  | true, false => Gt
  | _, _ => Eq
  end.

(** [f32::total_cmp], [f64::total_cmp] on the bits of an [(m+1)]-bit float:
    [left ^= (((left >> m) as unsigned) >> 1) as signed; left.cmp(&right)] *)
Definition total_key (m : Z) (bits : Z) : Z :=
  let left := to_signed (m + 1) bits in
  Z.lxor left (Z.shiftr (wrap (m + 1) (Z.shiftr left m)) 1).
Definition total_cmp (m a b : Z) : comparison := total_key m a ?= total_key m b.

(** The order of the encodings of byte slices: shorter slices first, slices of one
    length lexicographically. *)
Definition shortlex (a b : bytes) : comparison :=
  cthen (Z.of_nat (length a) ?= Z.of_nat (length b)) (lex a b).

Fixpoint cmp_list (cs : list (sval -> sval -> comparison)) (l k : list sval) : comparison :=
  match cs, l, k with
  | c :: cs, x :: l, y :: k => cthen (c x y) (cmp_list cs l k)
  | _, _, _ => Eq
  end.

Definition cmp_content (p : vshape * list (sval -> sval -> comparison)) (v w : sval)
  : comparison :=
  match p.1, p.2, v, w with
  | VNewtype, c :: _, SNewtypeVariant _ v, SNewtypeVariant _ w => c v w
  | VTuple, cs, STupleVariant _ l, STupleVariant _ k => cmp_list cs l k
  | VStruct, cs, SStructVariant _ l, SStructVariant _ k => cmp_list cs l k
  | _, _, _, _ => Eq
  end.

Definition variant_of (v : sval) : Z :=
  match svariant_index v with Some i => i | None => 0 end.

Fixpoint vcmp (t : sty) (v w : sval) : comparison :=
  match t, v, w with
  | TBool, SBool a, SBool b => cmp_bool a b
  | TI8, SI8 a, SI8 b | TI16, SI16 a, SI16 b | TI32, SI32 a, SI32 b | TI64, SI64 a, SI64 b
  | TU8, SU8 a, SU8 b | TU16, SU16 a, SU16 b | TU32, SU32 a, SU32 b | TU64, SU64 a, SU64 b
  | TChar, SChar a, SChar b => a ?= b
  | TF32, SF32 a, SF32 b => total_cmp 31 a b
  | TF64, SF64 a, SF64 b => total_cmp 63 a b
  | TStr, SStr a, SStr b => lex a b
  | TBytes, SBytes a, SBytes b => lex a b
  | TOption _, SNone, SSome _ => Lt
  | TOption _, SSome _, SNone => Gt
  | TOption t, SSome v, SSome w => vcmp t v w
  | TNewtypeStruct t, SNewtypeStruct v, SNewtypeStruct w => vcmp t v w
  | TTuple ts, STuple l, STuple k => cmp_list (map vcmp ts) l k
  | TTupleStruct ts, STupleStruct l, STupleStruct k => cmp_list (map vcmp ts) l k
  | TStruct ts, SStruct l, SStruct k => cmp_list (map vcmp ts) l k
  | TEnum vs, v, w =>
      cthen (variant_of v ?= variant_of w)
        match map (fun s => (s.1, map vcmp s.2)) vs !! Z.to_nat (variant_of v) with
        | Some p => cmp_content p v w
        | None => Eq
        end
  | _, _, _ => Eq
  end.

Fixpoint ord_ty (t : sty) : Prop :=
  match t with
  | TBytes | TSeq _ | TMap _ _ => False
  | TOption t | TNewtypeStruct t => ord_ty t
  | TTuple ts | TTupleStruct ts | TStruct ts => Forall id (map ord_ty ts)
  | TEnum vs => Forall id (map (fun v => Forall id (map ord_ty v.2)) vs)
  | _ => True
  end.

(** ** Scalars *)

Lemma be_mod n z : be n z = be n (z mod 256 ^ Z.of_nat n).
Proof.
  apply of_be_inj; [by rewrite !be_length|].
  rewrite !of_be_be, Z.mod_mod by lia. done.
Qed.

(** Writing [x + c], for a constant [c] that makes it non-negative. *)
Lemma lex_be_shift n m f g x y ra rb :
  8 * Z.of_nat n = m + 1 -> 0 <= m ->
  f mod 2 ^ (m + 1) = x + 2 ^ m -> g mod 2 ^ (m + 1) = y + 2 ^ m ->
  - 2 ^ m <= x < 2 ^ m -> - 2 ^ m <= y < 2 ^ m ->
  lex (be n f ++ ra) (be n g ++ rb) = cthen (x ?= y) (lex ra rb).
Proof.
  intros Hn Hm Hf Hg Hx Hy.
  assert (2 ^ (m + 1) = 2 * 2 ^ m) as Hp by (rewrite Z.pow_add_r by lia; lia).
  rewrite (be_mod n f), (be_mod n g), pow256, Hn, Hf, Hg.
  rewrite lex_be by (rewrite pow256, Hn; lia).
  rewrite (Z.add_comm x), (Z.add_comm y). rewrite Z.add_compare_mono_l. by destruct (x ?= y).
Qed.

Lemma signed_code m v :
  0 <= m -> - 2 ^ m <= v < 2 ^ m -> Z.lxor v (- 2 ^ m) mod 2 ^ (m + 1) = v + 2 ^ m.
Proof.
  intros Hm Hv. rewrite lxor_min by lia.
  assert (2 ^ (m + 1) = 2 * 2 ^ m) as Hp by (rewrite Z.pow_add_r by lia; lia).
  destruct (Z.ltb_spec v 0); [apply Z.mod_small; lia|].
  symmetry. apply Z.mod_unique with (-1); lia.
Qed.

Lemma total_key_value m bits :
  0 <= m -> 0 <= bits < 2 ^ (m + 1) ->
  let v := to_signed (m + 1) bits in
  total_key m bits = if v <? 0 then - v - 1 - 2 ^ m else v.
Proof.
  intros Hm Hb v. pose proof (to_signed_range m bits Hm Hb) as Hv. fold v in Hv.
  unfold total_key. fold v. rewrite (shiftr_sign m v) by lia.
  assert (2 ^ (m + 1) = 2 * 2 ^ m) as Hp by (rewrite Z.pow_add_r by lia; lia).
  destruct (Z.ltb_spec v 0) as [H|H].
  - replace (Z.shiftr (wrap (m + 1) (-1)) 1) with (Z.lnot (- 2 ^ m)).
    + rewrite <-Z.lnot_lxor_r, lxor_min by lia.
      destruct (Z.ltb_spec v 0); [unfold Z.lnot; lia|lia].
    + unfold wrap. replace (-1 mod 2 ^ (m + 1)) with (2 ^ (m + 1) - 1)
        by (apply Z.mod_unique with (-1); lia).
      rewrite Z.shiftr_div_pow2 by lia. unfold Z.lnot.
      apply Z.div_unique with 1; lia.
  - by rewrite Z.lxor_0_r.
Qed.

Lemma float_code m bits :
  0 <= m -> 0 <= bits < 2 ^ (m + 1) ->
  float_flip m (to_signed (m + 1) bits) mod 2 ^ (m + 1) = total_key m bits + 2 ^ m.
Proof.
  intros Hm Hb. pose proof (to_signed_range m bits Hm Hb) as Hv.
  rewrite total_key_value, float_flip_value by lia.
  assert (2 ^ (m + 1) = 2 * 2 ^ m) as Hp by (rewrite Z.pow_add_r by lia; lia).
  destruct (Z.ltb_spec (to_signed (m + 1) bits) 0).
  - rewrite Z.mod_small; lia.
  - symmetry. apply Z.mod_unique with (-1); lia.
Qed.

Lemma total_key_range m bits :
  0 <= m -> 0 <= bits < 2 ^ (m + 1) -> - 2 ^ m <= total_key m bits < 2 ^ m.
Proof.
  intros Hm Hb. pose proof (to_signed_range m bits Hm Hb).
  rewrite total_key_value by lia. destruct (Z.ltb_spec (to_signed (m + 1) bits) 0); lia.
Qed.

(** NUL-terminated strings: NUL is the least byte and occurs in neither. *)
Lemma lex_terminated a b ra rb :
  x00 ∉ a -> x00 ∉ b ->
  lex ((a ++ [x00]) ++ ra) ((b ++ [x00]) ++ rb) = cthen (lex a b) (lex ra rb).
Proof.
  revert b; induction a as [|x a IH]; intros [|y b] Ha Hb; cbn [app lex].
  - done.
  - assert (b2z y <> 0) by (intros E; apply Hb; rewrite (b2z_inj y x00 E); set_solver).
    pose proof (b2z_range y). change (b2z x00) with 0.
    by rewrite (proj2 (Z.compare_lt_iff 0 (b2z y))) by lia.
  - assert (b2z x <> 0) by (intros E; apply Ha; rewrite (b2z_inj x x00 E); set_solver).
    pose proof (b2z_range x). change (b2z x00) with 0.
    by rewrite (proj2 (Z.compare_gt_iff (b2z x) 0)) by lia.
  - destruct (b2z x ?= b2z y); [|done|done]. rewrite IH by set_solver. done.
Qed.

(** UTF-8 keeps the order of the scalar values. *)
Lemma lex_utf8 c d :
  is_scalar c -> is_scalar d -> lex (utf8_encode c) (utf8_encode d) = (c ?= d).
Proof.
  intros Hc Hd. unfold is_scalar in *. unfold utf8_encode.
  destruct (Z.ltb_spec c 128), (Z.ltb_spec d 128), (Z.ltb_spec c 2048), (Z.ltb_spec d 2048),
    (Z.ltb_spec c 65536), (Z.ltb_spec d 65536); try lia;
    cbn [lex]; rewrite !b2z_z2b_small by dlia;
    repeat match goal with
    | |- context [match ?a ?= ?b with _ => _ end] => destruct (Z.compare_spec a b)
    end; destruct (Z.compare_spec c d); try done; exfalso; dlia.
Qed.

Lemma lex_char a b ea eb ra rb :
  is_scalar a -> is_scalar b -> Enc.serialize_char a = Ok ea -> Enc.serialize_char b = Ok eb ->
  lex (ea ++ ra) (eb ++ rb) = cthen (a ?= b) (lex ra rb).
Proof.
  intros Ha Hb. unfold Enc.serialize_char.
  destruct (a =? 0); [done|]. destruct (b =? 0); [done|].
  intros [Hna ->]%serialize_str_ok [Hnb ->]%serialize_str_ok.
  rewrite lex_terminated by done. by rewrite lex_utf8.
Qed.

(** ** Compound values *)

(** What the order of encodings must be, whatever follows them. *)
Definition keeps_order (c : sval -> sval -> comparison) (v w : sval) : Prop :=
  forall a b ra rb, serialize v = Ok a -> serialize w = Ok b ->
  lex (a ++ ra) (b ++ rb) = cthen (c v w) (lex ra rb).

Lemma cthen_assoc a b c : cthen (cthen a b) c = cthen a (cthen b c).
Proof. by destruct a. Qed.

Lemma lex_be_cthen n x y ra rb :
  0 <= x < 256 ^ Z.of_nat n -> 0 <= y < 256 ^ Z.of_nat n ->
  lex (be n x ++ ra) (be n y ++ rb) = cthen (x ?= y) (lex ra rb).
Proof. intros. rewrite lex_be by done. by destruct (x ?= y). Qed.

Lemma lex_bytes a b ra rb :
  Z.of_nat (length a) < 2 ^ 64 -> Z.of_nat (length b) < 2 ^ 64 ->
  lex ((be 8 (Z.of_nat (length a)) ++ a) ++ ra) ((be 8 (Z.of_nat (length b)) ++ b) ++ rb)
  = cthen (shortlex a b) (lex ra rb).
Proof.
  intros Ha Hb. rewrite <-!app_assoc, lex_be_cthen by (cbn; lia).
  unfold shortlex. rewrite cthen_assoc.
  destruct (Z.compare_spec (Z.of_nat (length a)) (Z.of_nat (length b))) as [E|E|E]; cbn; try done.
  destruct (decide (a = b)) as [->|Hne].
  - by rewrite lex_app_same, lex_refl.
  - rewrite lex_app_ne by (done || lia). destruct (lex a b) eqn:El; try done.
    by apply lex_eq in El.
Qed.

Lemma scalar_order t v w :
  match t with
  | TOption _ | TNewtypeStruct _ | TSeq _ | TTuple _ | TTupleStruct _ | TMap _ _
  | TStruct _ | TEnum _ | TBytes => True
  | _ => has_ty t v -> has_ty t w -> keeps_order (vcmp t) v w
  end.
Proof.
  destruct t; try exact I; intros Hv Hw a b ra rb Ha Hb; destruct v; try done; destruct w; try done;
    cbn in Hv, Hw; cbn [serialize] in Ha, Hb; unfold is_u8, is_u16, is_u32, is_u64 in *; cbn [vcmp];
    try (apply Ok_inj in Ha as <-; apply Ok_inj in Hb as <-).
  - by destruct b0, b1.
  - apply (lex_be_shift 1 7); try lia; by apply (signed_code 7).
  - apply (lex_be_shift 2 15); try lia; by apply (signed_code 15).
  - apply (lex_be_shift 4 31); try lia; by apply (signed_code 31).
  - apply (lex_be_shift 8 63); try lia; by apply (signed_code 63).
  - by apply (lex_be_cthen 1).
  - by apply (lex_be_cthen 2).
  - by apply (lex_be_cthen 4).
  - by apply (lex_be_cthen 8).
  - apply (lex_be_shift 4 31); try lia; [by apply (float_code 31)..|by apply (total_key_range 31)|].
    by apply (total_key_range 31).
  - apply (lex_be_shift 8 63); try lia; [by apply (float_code 63)..|by apply (total_key_range 63)|].
    by apply (total_key_range 63).
  - by apply lex_char.
  - apply serialize_str_ok in Ha as [Ha ->]. apply serialize_str_ok in Hb as [Hb ->].
    by apply lex_terminated.
  - done.
  - done.
Qed.

Lemma tuple_order ts l k a b ra rb :
  Forall (fun t => ord_ty t -> forall v w, has_ty t v -> has_ty t w -> keeps_order (vcmp t) v w) ts ->
  Forall id (map ord_ty ts) ->
  all2 (map has_ty ts) l -> all2 (map has_ty ts) k ->
  Enc.serialize_each (map serialize l) = Ok a ->
  Enc.serialize_each (map serialize k) = Ok b ->
  lex (a ++ ra) (b ++ rb) = cthen (cmp_list (map vcmp ts) l k) (lex ra rb).
Proof.
  intros Hts. revert l k a b; induction Hts as [|t ts Ht Hts IH]; intros [|v l] [|w k] a b;
    cbn [map all2]; try done.
  - by intros _ _ _ [= <-] [= <-].
  - intros [Ho Hol]%Forall_cons [Hv Hl] [Hw Hk] Ha Hb.
    apply serialize_each_cons in Ha as (a1 & a2 & Ha1 & Ha2 & ->).
    apply serialize_each_cons in Hb as (b1 & b2 & Hb1 & Hb2 & ->).
    cbn [cmp_list]. rewrite <-!app_assoc, (Ht Ho v w Hv Hw a1 b1) by done.
    by rewrite (IH l k), cthen_assoc.
Qed.

(** A variant's encoding is its index, then its content. *)
Lemma variant_split i p v e :
  has_variant i p v -> serialize v = Ok e ->
  exists e', e = be 4 i ++ e' /\
    match v with
    | SUnitVariant _ => e' = []
    | SNewtypeVariant _ v => serialize v = Ok e'
    | STupleVariant _ l | SStructVariant _ l => Enc.serialize_each (map serialize l) = Ok e'
    | _ => False
    end.
Proof.
  destruct p as [sh qs]. intros Hv He. unfold has_variant in Hv. cbn [fst snd] in Hv.
  destruct v; try (by destruct sh, qs); cbn [serialize] in He.
  - assert (idx = i) as -> by (by destruct sh, qs).
    apply Ok_inj in He as <-. exists []. by rewrite app_nil_r.
  - assert (idx = i) as -> by (destruct sh, qs; naive_solver).
    unfold Enc.serialize_newtype_variant in He. apply res_bind_ok in He as (e' & He' & E).
    apply Ok_inj in E as <-. eauto.
  - assert (idx = i) as -> by (destruct sh, qs; naive_solver).
    unfold Enc.serialize_tuple_variant in He. apply res_bind_ok in He as (e' & He' & E).
    apply Ok_inj in E as <-. eauto.
  - assert (idx = i) as -> by (destruct sh, qs; naive_solver).
    unfold Enc.serialize_struct_variant in He. apply res_bind_ok in He as (e' & He' & E).
    apply Ok_inj in E as <-. eauto.
Qed.

Lemma content_order i sh ts v w a b ra rb :
  Forall (fun t => ord_ty t -> forall v w, has_ty t v -> has_ty t w -> keeps_order (vcmp t) v w) ts ->
  Forall id (map ord_ty ts) ->
  has_variant i (sh, map has_ty ts) v -> has_variant i (sh, map has_ty ts) w ->
  serialize v = Ok (be 4 i ++ a) -> serialize w = Ok (be 4 i ++ b) ->
  lex (a ++ ra) (b ++ rb) = cthen (cmp_content (sh, map vcmp ts) v w) (lex ra rb).
Proof.
  intros Hts Ho Hv Hw Ha Hb.
  destruct (variant_split _ _ _ _ Hv Ha) as (a' & Ea & Hca).
  destruct (variant_split _ _ _ _ Hw Hb) as (b' & Eb & Hcb).
  apply app_inv_head in Ea as <-. apply app_inv_head in Eb as <-.
  destruct sh.
  - destruct v; try done. destruct w; try done. by rewrite Hca, Hcb.
  - destruct ts as [|t ts]; [done|]. destruct v; try done. destruct w; try done.
    destruct Hv as [-> Hv], Hw as [-> Hw]. apply Forall_cons in Hts as [Ht _].
    cbn [map] in Ho. apply Forall_cons in Ho as [Ho _]. by apply Ht.
  - destruct v; try done. destruct w; try done. destruct Hv as [-> Hv], Hw as [-> Hw].
    by apply tuple_order.
  - destruct v; try done. destruct w; try done. destruct Hv as [-> Hv], Hw as [-> Hw].
    by apply tuple_order.
Qed.

Lemma order_value (t : sty) (v w : sval) :
  ord_ty t -> has_ty t v -> has_ty t w -> keeps_order (vcmp t) v w.
Proof.
  intros Ho. revert Ho v w.
  pattern t; apply sty_ind'; clear t;
    [intros t|intros t IH|intros t IH|intros t IH|intros ts IH|intros ts IH
    |intros k v IHk IHv|intros ts IH|intros vs IH]; try done.
  - pose proof (fun v w => scalar_order t v w). destruct t; try done; eauto.
  - intros Ho v w Hv Hw a b ra rb Ha Hb.
    destruct v; try done; destruct w; try done; cbn [serialize] in Ha, Hb.
    + by apply Ok_inj in Ha as <-; apply Ok_inj in Hb as <-.
    + apply Ok_inj in Ha as <-. unfold Enc.serialize_some in Hb.
      apply res_bind_ok in Hb as (b' & _ & E). by apply Ok_inj in E as <-.
    + apply Ok_inj in Hb as <-. unfold Enc.serialize_some in Ha.
      apply res_bind_ok in Ha as (a' & _ & E). by apply Ok_inj in E as <-.
    + unfold Enc.serialize_some in Ha, Hb.
      apply res_bind_ok in Ha as (a' & Ha & E). apply Ok_inj in E as <-.
      apply res_bind_ok in Hb as (b' & Hb & E). apply Ok_inj in E as <-.
      by apply (IH Ho v w Hv Hw a' b').
  - intros Ho v w Hv Hw a b ra rb Ha Hb. destruct v; try done. destruct w; try done.
    by apply (IH Ho v w Hv Hw).
  - intros Ho v w Hv Hw a b ra rb Ha Hb. destruct v; try done. destruct w; try done.
    by apply tuple_order.
  - intros Ho v w Hv Hw a b ra rb Ha Hb. destruct v; try done. destruct w; try done.
    by apply tuple_order.
  - intros Ho v w Hv Hw a b ra rb Ha Hb. destruct v; try done. destruct w; try done.
    by apply tuple_order.
  - intros Ho v w Hv Hw a b ra rb Ha Hb. cbn [has_ty ord_ty] in *.
    destruct Hv as (Hlen & i & Hi & Hv), Hw as (_ & j & Hj & Hw).
    rewrite list_lookup_fmap in Hv, Hw.
    destruct (vs !! i) as [[sh ts]|] eqn:Ei; cbn in Hv; [|done].
    destruct (vs !! j) as [[sh' ts']|] eqn:Ej; cbn in Hw; [|done].
    destruct (variant_split _ _ _ _ Hv Ha) as (a' & -> & _).
    destruct (variant_split _ _ _ _ Hw Hb) as (b' & -> & _).
    pose proof (lookup_lt_Some _ _ _ Ei). pose proof (lookup_lt_Some _ _ _ Ej).
    cbn [vcmp]. unfold variant_of. rewrite Hi, Hj.
    rewrite <-!app_assoc, lex_be_cthen by (cbn; lia). rewrite cthen_assoc.
    destruct (Z.compare_spec (Z.of_nat i) (Z.of_nat j)) as [E|E|E]; cbn [cthen]; try done.
    assert (i = j) as <- by lia. rewrite Ej in Ei. simplify_eq.
    rewrite Nat2Z.id, list_lookup_fmap, Ej. cbn.
    pose proof (Forall_lookup_1 _ _ _ _ IH Ej) as Hts. cbn in Hts.
    eapply content_order; try done.
    rewrite Forall_map in Ho. by apply (Forall_lookup_1 _ _ _ _ Ho Ej).
Qed.

(** C33. Order preservation: for every type without sequences, maps and byte slices, the
    encodings of two values of the type compare as the values do, and when the
    values are equal what follows them decides.  So keys built from several
    fields sort by the first field, then the second, and so on. *)
Theorem serialize_preserves_order (t : sty) (v w : sval) (a b ra rb : bytes)
    (Ho : ord_ty t) (Hv : has_ty t v) (Hw : has_ty t w)
    (Ha : serialize v = Ok a) (Hb : serialize w = Ok b) :
  lex (a ++ ra) (b ++ rb) = cthen (vcmp t v w) (lex ra rb).
Proof. by apply order_value. Qed.

Lemma serialize_preserves_order_witness :
  lex (be 8 7 ++ [x61; x00]) (be 8 7 ++ [x61; x62; x00]) = Lt.
Proof.
  pose proof (serialize_preserves_order (TTuple [TU64; TStr])
    (STuple [SU64 7; SStr [x61]]) (STuple [SU64 7; SStr [x61; x62]])
    (be 8 7 ++ [x61; x00]) (be 8 7 ++ [x61; x62; x00]) [] []) as H.
  rewrite !app_nil_r in H. apply H; try done. repeat constructor.
Defined.

(** ** Where the codec does not do what its documentation says *)

(** What the encoding of sequences does not keep.  Their order is not the order of
    slices: the terminator [0x01] sorts after an element that starts with
    [0x00], so the empty sequence is encoded above the sequence holding a zero,
    although the empty slice is the least one.  And they do not round trip: an
    element whose encoding starts with [0x01] is taken for the end of the
    sequence, and its bytes are left over. *)
Theorem seq_limits :
  (exists a b, serialize (SSeq []) = Ok a /\ serialize (SSeq [SU8 0]) = Ok b /\ blt b a)
  /\ exists e, serialize (SSeq [SU8 1]) = Ok e /\ deserialize (TSeq TU8) e = (Ok (SSeq []), [x01]).
Proof. split; [exists [x01], [x00; x01]|exists [x01; x01]]; done. Qed.

(** Nor do byte slices: their encodings compare by length first, so a longer slice
    is encoded above a shorter one that is greater. *)
Theorem bytes_limits (a b ea eb : bytes) :
  Z.of_nat (length a) < 2 ^ 64 -> Z.of_nat (length b) < 2 ^ 64 ->
  serialize (SBytes a) = Ok ea -> serialize (SBytes b) = Ok eb ->
  lex ea eb = shortlex a b.
Proof.
  intros Ha Hb Hea Heb. cbn [serialize] in Hea, Heb. apply Ok_inj in Hea as <-. apply Ok_inj in Heb as <-.
  pose proof (lex_bytes a b [] [] Ha Hb) as L. rewrite !app_nil_r in L. rewrite L. cbn. by destruct (shortlex a b).
Qed.
