(* ===== verification/SkeyVar.v ===== *)
(** * Variable-length integers of the key codec

    [serialize_var_u64], [serialize_var_i64] and their readers: the written
    form in closed form, the round trips and the order. *)

From S2P Require Import Prelude Bytes Skey SkeyRoundtrip SkeyOrder.
From Stdlib Require Import ZArith Lia Strings.Byte.
From stdpp Require Import base list option strings sets.

Local Open Scope Z_scope.

(** How many bytes follow the header, for an integer whose header carries [o]
    bits of it: the documented size table. *)
Definition var_len (o v : Z) : nat :=
  if v <? 2 ^ o then 0 else if v <? 2 ^ (o + 8) then 1
  else if v <? 2 ^ (o + 16) then 2 else if v <? 2 ^ (o + 24) then 3
  else if v <? 2 ^ (o + 32) then 4 else if v <? 2 ^ (o + 40) then 5
  else if v <? 2 ^ (o + 48) then 6 else if v <? 2 ^ (o + 56) then 7 else 8.

Lemma be_app n m z : be (n + m) z = be n (z / 256 ^ Z.of_nat m) ++ be m z.
Proof.
  induction n as [|n IH]; [done|]. cbn [Nat.add be app]. f_equal; [|done].
  f_equal. rewrite Z.div_div, <-Z.pow_add_r by lia. do 2 f_equal. lia.
Qed.

Lemma lor_shiftl_add x k s :
  0 <= s -> 0 <= x < 2 ^ s -> Z.lor x (Z.shiftl k s) = x + k * 2 ^ s.
Proof.
  intros Hs Hx. rewrite Z.lor_comm, <-Z.shiftl_mul_pow2 by lia.
  rewrite <-Z.lxor_lor.
  - rewrite <-Z.add_nocarry_lxor; [lia|].
    apply Z.bits_inj'. intros i Hi. rewrite Z.land_spec, Z.bits_0.
    destruct (decide (i < s)); [by rewrite Z.shiftl_spec_low|].
    rewrite <-(Z.mod_small x (2 ^ s)) by lia. rewrite Z.mod_pow2_bits_high by lia.
    apply andb_false_r.
  - apply Z.bits_inj'. intros i Hi. rewrite Z.land_spec, Z.bits_0.
    destruct (decide (i < s)); [by rewrite Z.shiftl_spec_low|].
    rewrite <-(Z.mod_small x (2 ^ s)) by lia. rewrite Z.mod_pow2_bits_high by lia.
    apply andb_false_r.
Qed.

(** One byte string for the pieces the encoder writes. *)
Lemma be_pieces n m hi lo z :
  hi mod 256 ^ Z.of_nat n = (z / 256 ^ Z.of_nat m) mod 256 ^ Z.of_nat n ->
  lo mod 256 ^ Z.of_nat m = z mod 256 ^ Z.of_nat m ->
  be n hi ++ be m lo = be (n + m) z.
Proof.
  intros Hh Hl. rewrite be_app, (be_mod n hi), (be_mod m lo), Hh, Hl.
  by rewrite <-(be_mod n), <-(be_mod m).
Qed.

(** Evaluate closed sums and powers. *)
Ltac add_norm :=
  repeat match goal with
  | |- context [Z.pos ?a + Z.pos ?b] => let x := eval cbv in (Z.pos a + Z.pos b) in
      progress change (Z.pos a + Z.pos b) with x
  end.

Ltac pow_norm :=
  repeat match goal with
  | |- context [Z.of_nat ?n] => let x := eval cbv in (Z.of_nat n) in
      progress change (Z.of_nat n) with x
  | |- context [256 ^ ?n] => let x := eval cbv in (256 ^ n) in
      progress change (256 ^ n) with x
  | |- context [2 ^ ?n] => let x := eval cbv in (2 ^ n) in
      progress change (2 ^ n) with x
  end.

Lemma var_u64_form v :
  is_u64 v ->
  Enc.serialize_var_u64 v
  = Ok (be (S (var_len 4 v)) (v + Z.of_nat (var_len 4 v) * 2 ^ (8 * Z.of_nat (var_len 4 v) + 4))).
Proof.
  unfold is_u64. intros Hv. unfold Enc.serialize_var_u64, var_len. f_equal.
  rewrite !Z.shiftl_mul_pow2 with (a := 1) by lia. rewrite !Z.mul_1_l. add_norm.
  destruct (Z.ltb_spec v (2 ^ 4)).
  { f_equal. lia. }
  destruct (Z.ltb_spec v (2 ^ 12)).
  { unfold wrap. rewrite Z.mod_small by lia. f_equal.
    apply (lor_shiftl_add v 1 12); lia. }
  destruct (Z.ltb_spec v (2 ^ 20)).
  { unfold wrap. rewrite Z.shiftr_div_pow2, (Z.mod_small (v / _)) by dlia.
    rewrite lor_shiftl_add by dlia. apply (be_pieces 1 2); pow_norm; dlia. }
  destruct (Z.ltb_spec v (2 ^ 28)).
  { unfold wrap. rewrite Z.mod_small by lia. by rewrite lor_shiftl_add by lia. }
  destruct (Z.ltb_spec v (2 ^ 36)).
  { unfold wrap. rewrite Z.shiftr_div_pow2, (Z.mod_small (v / _)) by dlia.
    rewrite lor_shiftl_add by dlia. apply (be_pieces 1 4); pow_norm; dlia. }
  destruct (Z.ltb_spec v (2 ^ 44)).
  { unfold wrap. rewrite Z.shiftr_div_pow2, (Z.mod_small (v / _)) by dlia.
    rewrite lor_shiftl_add by dlia. apply (be_pieces 2 4); pow_norm; dlia. }
  destruct (Z.ltb_spec v (2 ^ 52)).
  { unfold wrap. rewrite !Z.shiftr_div_pow2, (Z.mod_small (v / 2 ^ 48)) by dlia.
    rewrite lor_shiftl_add by dlia.
    rewrite (be_pieces 2 4 _ _ v) by (pow_norm; dlia).
    apply (be_pieces 1 6); pow_norm; dlia. }
  destruct (Z.ltb_spec v (2 ^ 60)).
  { by rewrite lor_shiftl_add by lia. }
  apply (be_pieces 1 8); pow_norm; [|dlia]. change (Z.shiftl 8 4) with 128. dlia.
Qed.

(** The magnitude the signed form stores and the code it is stored as. *)
Definition var_mag (v : Z) : Z := if v <? 0 then - v - 1 else v.
Definition var_code (v : Z) : Z :=
  let k := Z.of_nat (var_len 3 (var_mag v)) in
  let x := var_mag v + (16 + k) * 2 ^ (8 * k + 3) in
  if v <? 0 then 256 ^ (k + 1) - 1 - x else x.

Lemma lxor_ones y m : 0 <= m -> 0 <= y < 2 ^ m -> Z.lxor y (2 ^ m - 1) = 2 ^ m - 1 - y.
Proof.
  intros Hm Hy. replace (2 ^ m - 1) with (Z.lnot (- 2 ^ m)) at 1 by (unfold Z.lnot; lia).
  rewrite <-Z.lnot_lxor_r, lxor_min by lia.
  destruct (Z.ltb_spec y 0); unfold Z.lnot; lia.
Qed.

(** The masked word of a branch, for either sign. *)
Lemma masked_value (neg : bool) val k s :
  0 <= s -> 0 <= val < 2 ^ s -> 0 <= val + k * 2 ^ s < 2 ^ 64 ->
  Z.lxor (Z.lor val (Z.shiftl k s)) (if neg then 2 ^ 64 - 1 else 0)
  = if neg then 2 ^ 64 - 1 - (val + k * 2 ^ s) else val + k * 2 ^ s.
Proof.
  intros Hs Hv Hx. rewrite lor_shiftl_add by lia.
  destruct neg; [by rewrite (lxor_ones _ 64) by lia | by rewrite Z.lxor_0_r].
Qed.

Lemma var_i64_form v :
  - 2 ^ 63 <= v < 2 ^ 63 ->
  Enc.serialize_var_i64 v = Ok (be (S (var_len 3 (var_mag v))) (var_code v)).
Proof.
  intros Hv. unfold Enc.serialize_var_i64. f_equal.
  rewrite shiftr_sign by lia.
  assert (wrap 64 (if v <? 0 then -1 else 0) = if v <? 0 then 2 ^ 64 - 1 else 0) as -> by
    by destruct (v <? 0).
  assert (Z.abs v - Z.land 1 (if v <? 0 then 2 ^ 64 - 1 else 0) = var_mag v) as ->.
  { unfold var_mag. destruct (Z.ltb_spec v 0); [change (Z.land 1 (2 ^ 64 - 1)) with 1|
      change (Z.land 1 0) with 0]; lia. }
  assert (0 <= var_mag v < 2 ^ 63) as Hm by (unfold var_mag; destruct (Z.ltb_spec v 0); lia).
  unfold var_code, var_len. set (w := var_mag v) in *. clearbody w.
  generalize (v <? 0). clear Hv v. intros neg.
  rewrite !Z.shiftl_mul_pow2 with (a := 1) by lia. rewrite !Z.mul_1_l. add_norm.
  destruct (Z.ltb_spec w (2 ^ 3)).
  { rewrite masked_value by lia. unfold wrap. rewrite (be_mod 1 (_ mod _)), be_mod.
    f_equal. destruct neg; pow_norm; dlia. }
  destruct (Z.ltb_spec w (2 ^ 11)).
  { rewrite masked_value by lia. unfold wrap. rewrite (be_mod 2 (_ mod _)), be_mod.
    f_equal. destruct neg; pow_norm; dlia. }
  destruct (Z.ltb_spec w (2 ^ 19)).
  { rewrite masked_value by lia. unfold wrap. rewrite Z.shiftr_div_pow2 by lia.
    apply (be_pieces 1 2); destruct neg; pow_norm; dlia. }
  destruct (Z.ltb_spec w (2 ^ 27)).
  { rewrite masked_value by lia. unfold wrap. rewrite (be_mod 4 (_ mod _)), be_mod.
    f_equal. destruct neg; pow_norm; dlia. }
  destruct (Z.ltb_spec w (2 ^ 35)).
  { rewrite masked_value by lia. unfold wrap. rewrite Z.shiftr_div_pow2 by lia.
    apply (be_pieces 1 4); destruct neg; pow_norm; dlia. }
  destruct (Z.ltb_spec w (2 ^ 43)).
  { rewrite masked_value by lia. unfold wrap. rewrite Z.shiftr_div_pow2 by lia.
    apply (be_pieces 2 4); destruct neg; pow_norm; dlia. }
  destruct (Z.ltb_spec w (2 ^ 51)).
  { rewrite masked_value by lia. unfold wrap. rewrite !Z.shiftr_div_pow2 by lia.
    rewrite (be_pieces 2 4 _ _ (if neg then 2 ^ 64 - 1 - (w + 22 * 2 ^ 51) else w + 22 * 2 ^ 51))
      by (destruct neg; pow_norm; dlia).
    apply (be_pieces 1 6); destruct neg; pow_norm; dlia. }
  destruct (Z.ltb_spec w (2 ^ 59)).
  { rewrite masked_value by lia. rewrite be_mod. destruct neg; pow_norm; f_equal; dlia. }
  change (Z.shiftl 24 3) with 192. destruct neg.
  - rewrite (lxor_ones _ 64) by lia. change (Z.lxor 192 (wrap 8 (2 ^ 64 - 1))) with 63.
    apply (be_pieces 1 8); pow_norm; dlia.
  - change (Z.lxor 192 (wrap 8 0)) with 192. rewrite Z.lxor_0_r.
    apply (be_pieces 1 8); pow_norm; dlia.
Qed.

(** ** Reading *)

Definition flip (f : Z) (b : byte) : byte := z2b (Z.lxor (b2z b) f).

Lemma lxor_byte b f : (f = 0 \/ f = 255) -> b2z (flip f b) = Z.lxor (b2z b) f.
Proof.
  intros Hf. unfold flip. apply b2z_z2b_small. pose proof (b2z_range b).
  destruct Hf as [->| ->]; [by rewrite Z.lxor_0_r|].
  rewrite (lxor_ones _ 8) by (cbn; lia). lia.
Qed.

Lemma var_loop_app f l val r :
  (f = 0 \/ f = 255) -> (length l <= 8)%nat -> 0 <= val ->
  val + of_be (map (flip f) l) <= u64_max ->
  Dec.var_loop f (length l) val (l ++ r) = (Ok (val + of_be (map (flip f) l)), r).
Proof.
  intros Hf. revert val; induction l as [|b l IH]; intros val Hl Hv Hmax.
  - change (of_be (map (flip f) [])) with 0. by rewrite Z.add_0_r.
  - cbn [length Dec.var_loop app map] in *. dec_run. rewrite read_uint_cons.
    rewrite of_be_cons, length_map in *. rewrite <-lxor_byte by done.
    set (c := b2z (flip f b)) in *. assert (0 <= c < 256) by apply b2z_range.
    pose proof (of_be_range (map (flip f) l)) as Hr. rewrite length_map in Hr.
    assert (256 ^ Z.of_nat (length l) <= 256 ^ 7) by (apply Z.pow_le_mono_r; lia).
    assert (0 < 256 ^ Z.of_nat (length l)) by (apply Z.pow_pos_nonneg; lia).
    unfold Dec.checked_shl. destruct (Z.ltb_spec (Z.of_nat (length l) * 8) 64); [|lia]. dec_run.
    unfold wrap. rewrite Z.shiftl_mul_pow2 by lia.
    rewrite (Z.mul_comm (Z.of_nat (length l))), <-pow256.
    rewrite Z.mod_small by (change (256 ^ 7) with (2 ^ 56) in *; nia).
    unfold Dec.checked_add.
    destruct (Z.leb_spec (val + c * 256 ^ Z.of_nat (length l)) u64_max); [|lia]. dec_run.
    rewrite IH by (nia || lia). do 2 f_equal. lia.
Qed.

Lemma map_flip0 l : map (flip 0) l = l.
Proof.
  induction l as [|b l IH]; [done|]. cbn. rewrite IH. f_equal.
  unfold flip. by rewrite Z.lxor_0_r, z2b_b2z.
Qed.

Lemma of_be_flip255 l : of_be (map (flip 255) l) = 256 ^ Z.of_nat (length l) - 1 - of_be l.
Proof.
  induction l as [|b l IH]; [done|]. cbn [map]. rewrite !of_be_cons, length_map, IH.
  rewrite lxor_byte by auto. pose proof (b2z_range b).
  rewrite (lxor_ones _ 8) by (cbn; lia). cbn [length].
  rewrite Nat2Z.inj_succ, Z.pow_succ_r by lia. lia.
Qed.

(** ** Round trips *)

Lemma var_len_cases o v :
  0 <= o -> 0 <= v ->
  (var_len o v <= 8)%nat
  /\ (v < 2 ^ o * 256 ^ Z.of_nat (var_len o v) \/ var_len o v = 8%nat)
  /\ (var_len o v = 0%nat \/ 2 ^ o * 256 ^ (Z.of_nat (var_len o v) - 1) <= v).
Proof.
  intros Ho Hv. unfold var_len. rewrite !(Z.pow_add_r 2 o) by lia.
  generalize (2 ^ o). intros p.
  change (2 ^ 8) with 256; change (2 ^ 16) with 65536; change (2 ^ 24) with 16777216;
    change (2 ^ 32) with 4294967296; change (2 ^ 40) with 1099511627776;
    change (2 ^ 48) with 281474976710656; change (2 ^ 56) with 72057594037927936.
  repeat match goal with |- context [?a <? ?b] => destruct (Z.ltb_spec a b) end;
    (split; [lia|]); split;
    first [by left | by right | left; cbn -[Z.mul]; lia | right; cbn -[Z.mul]; lia].
Qed.

(** The header byte holds the length above the [o] top bits of the value. *)
Lemma var_header o v c k :
  0 <= o -> 0 <= v -> k = var_len o v -> v < 2 ^ 64 ->
  (v + c * 2 ^ (8 * Z.of_nat k + o)) / 256 ^ Z.of_nat k = v / 256 ^ Z.of_nat k + c * 2 ^ o
  /\ 0 <= v / 256 ^ Z.of_nat k < 2 ^ o
  /\ (k = 8%nat -> v / 256 ^ Z.of_nat k = 0).
Proof.
  intros Ho Hv -> H64. destruct (var_len_cases o v Ho Hv) as (Hk & Hlt & _).
  set (k := var_len o v) in *. assert (0 < 256 ^ Z.of_nat k) by (apply Z.pow_pos_nonneg; lia).
  assert (0 < 2 ^ o) by (apply Z.pow_pos_nonneg; lia).
  repeat split.
  - rewrite Z.pow_add_r, <-pow256 by lia.
    replace (c * (256 ^ Z.of_nat k * 2 ^ o)) with (c * 2 ^ o * 256 ^ Z.of_nat k) by ring.
    rewrite Z.div_add by lia. lia.
  - apply Z.div_pos; lia.
  - destruct Hlt as [Hlt| ->]; [apply Z.div_lt_upper_bound; lia|].
    change (256 ^ Z.of_nat 8) with (2 ^ 64). rewrite Z.div_small; lia.
  - intros ->. change (256 ^ Z.of_nat 8) with (2 ^ 64). apply Z.div_small. lia.
Qed.

Lemma be_S k z : be (S k) z = z2b (z / 256 ^ Z.of_nat k) :: be k z.
Proof. done. Qed.

Lemma var_u64_bytes v :
  is_u64 v ->
  let k := var_len 4 v in
  Enc.serialize_var_u64 v
  = Ok (z2b (v / 256 ^ Z.of_nat k + 16 * Z.of_nat k) :: be k v).
Proof.
  intros Hv k. unfold is_u64 in Hv. rewrite var_u64_form by done. fold k.
  destruct (var_header 4 v (Z.of_nat k) k ltac:(lia) ltac:(lia) eq_refl ltac:(lia)) as (E & _).
  rewrite be_S, E. do 2 f_equal; [f_equal; lia|]. rewrite (be_mod k), (be_mod k v). f_equal.
  rewrite Z.pow_add_r, <-pow256 by lia.
  replace (Z.of_nat k * (256 ^ Z.of_nat k * 2 ^ 4))
    with (Z.of_nat k * 2 ^ 4 * 256 ^ Z.of_nat k) by ring.
  by rewrite Z.mod_add by (apply Z.pow_nonzero; lia).
Qed.

Lemma overflowing_shl_header h k :
  0 <= h < 16 -> (k <= 8)%nat -> (k = 8%nat -> h = 0) ->
  Dec.overflowing_shl h (Z.of_nat k * 8) = h * 256 ^ Z.of_nat k.
Proof.
  intros Hh Hk H8. unfold Dec.overflowing_shl, wrap.
  destruct (decide (k = 8%nat)) as [->|]; [by rewrite H8|].
  rewrite (Z.mod_small (_ * 8)), Z.shiftl_mul_pow2 by lia.
  rewrite (Z.mul_comm (Z.of_nat k) 8), <-pow256. apply Z.mod_small.
  assert (256 ^ Z.of_nat k <= 256 ^ 7) by (apply Z.pow_le_mono_r; lia).
  assert (0 < 256 ^ Z.of_nat k) by (apply Z.pow_pos_nonneg; lia).
  change (256 ^ 7) with (2 ^ 56) in *. nia.
Qed.

Lemma var_u64_read v r :
  is_u64 v -> exists e, Enc.serialize_var_u64 v = Ok e
    /\ Dec.deserialize_var_u64 (e ++ r) = (Ok v, r).
Proof.
  intros Hv. rewrite var_u64_bytes by done. eexists; split; [done|]. unfold is_u64 in Hv.
  destruct (var_header 4 v 0 _ ltac:(lia) ltac:(lia) eq_refl ltac:(lia)) as (_ & Hh & H8).
  destruct (var_len_cases 4 v ltac:(lia) ltac:(lia)) as (Hk & _).
  set (k := var_len 4 v) in *. set (h := v / 256 ^ Z.of_nat k) in *.
  change (2 ^ 4) with 16 in Hh.
  unfold Dec.deserialize_var_u64. dec_run. cbn [app]. rewrite read_uint_cons.
  rewrite b2z_z2b_small by lia.
  assert (Z.shiftr (h + 16 * Z.of_nat k) 4 = Z.of_nat k) as ->.
  { rewrite Z.shiftr_div_pow2 by lia. change (2 ^ 4) with 16. dlia. }
  assert (Z.land (h + 16 * Z.of_nat k) 15 = h) as ->.
  { change 15 with (Z.ones 4). rewrite Z.land_ones by lia. change (2 ^ 4) with 16. dlia. }
  rewrite overflowing_shl_header, Nat2Z.id by (done || lia).
  assert (0 < 256 ^ Z.of_nat k) by (apply Z.pow_pos_nonneg; lia).
  assert (h * 256 ^ Z.of_nat k + of_be (be k v) = v) as E.
  { rewrite of_be_be. unfold h. pose proof (Z.div_mod v (256 ^ Z.of_nat k)). lia. }
  rewrite <-(be_length k v) at 1.
  rewrite var_loop_app; rewrite ?map_flip0, ?be_length, ?E; unfold u64_max; try done; auto; lia.
Qed.

(** Two strings whose headers differ compare as the headers. *)
Lemma lex_header x y a b :
  0 <= x < 256 -> 0 <= y < 256 -> x <> y -> lex (z2b x :: a) (z2b y :: b) = (x ?= y).
Proof.
  intros Hx Hy Hne. cbn [lex]. rewrite !b2z_z2b_small by lia.
  destruct (Z.compare_spec x y); done.
Qed.

Lemma var_len_mono o v w : 0 <= o -> 0 <= v <= w -> (var_len o v <= var_len o w)%nat.
Proof.
  intros Ho Hv. unfold var_len.
  assert (forall a b, 0 <= a <= b -> 2 ^ (o + a) <= 2 ^ (o + b)) as Hp
    by (intros; apply Z.pow_le_mono_r; lia).
  pose proof (Hp 0 8). pose proof (Hp 8 16). pose proof (Hp 16 24). pose proof (Hp 24 32).
  pose proof (Hp 32 40). pose proof (Hp 40 48). pose proof (Hp 48 56). rewrite Z.add_0_r in *.
  repeat match goal with |- context [?a <? ?b] => destruct (Z.ltb_spec a b); try lia end.
Qed.

Lemma lex_be_same n x y :
  0 <= x < 256 ^ Z.of_nat n -> 0 <= y < 256 ^ Z.of_nat n -> lex (be n x) (be n y) = (x ?= y).
Proof. intros. by rewrite lex_of_be, !of_be_be_small by (rewrite ?be_length; done). Qed.

Lemma var_u64_lt v w :
  is_u64 v -> is_u64 w -> v < w ->
  exists a b, Enc.serialize_var_u64 v = Ok a /\ Enc.serialize_var_u64 w = Ok b /\ blt a b.
Proof.
  intros Hv Hw Hlt. pose proof Hv as Hv'. pose proof Hw as Hw'. unfold is_u64 in Hv', Hw'.
  pose proof (var_len_mono 4 v w ltac:(lia) ltac:(lia)) as Hm.
  destruct (decide (var_len 4 v = var_len 4 w)) as [E|E].
  - rewrite !var_u64_form by done. do 2 eexists; split; [done|split; [done|]].
    destruct (var_len_cases 4 w ltac:(lia) ltac:(lia)) as (Hk & Hb & _). rewrite E.
    set (k := var_len 4 w) in *. clearbody k. unfold blt.
    rewrite lex_be_same; [apply Z.compare_lt_iff; lia|..];
    rewrite Z.pow_add_r, <-pow256, Nat2Z.inj_succ, Z.pow_succ_r by lia;
    assert (0 < 256 ^ Z.of_nat k) by (apply Z.pow_pos_nonneg; lia);
    (destruct Hb as [Hb| ->]; [|change (256 ^ Z.of_nat 8) with (2 ^ 64); cbn -[Z.pow]; lia]);
    change (2 ^ 4) with 16 in *; nia.
  - rewrite !var_u64_bytes by done. do 2 eexists; split; [done|split; [done|]].
    destruct (var_header 4 v 0 _ ltac:(lia) ltac:(lia) eq_refl ltac:(lia)) as (_ & Hh & _).
    destruct (var_header 4 w 0 _ ltac:(lia) ltac:(lia) eq_refl ltac:(lia)) as (_ & Hh' & _).
    destruct (var_len_cases 4 w ltac:(lia) ltac:(lia)) as (Hk & _).
    change (2 ^ 4) with 16 in *.
    unfold blt. rewrite lex_header by lia. apply Z.compare_lt_iff. lia.
Qed.

Lemma compl_mod x m : 0 < m -> (- 1 - x) mod m = m - 1 - x mod m.
Proof.
  intros Hm. symmetry. apply Z.mod_unique with (q := - 1 - x / m).
  - left. pose proof (Z.mod_pos_bound x m). lia.
  - pose proof (Z.div_mod x m). lia.
Qed.

Lemma compl_div x m : 0 < m -> (256 * m - 1 - x) / m = 255 - x / m.
Proof.
  intros Hm. symmetry. apply Z.div_unique with (r := m - 1 - x mod m).
  - left. pose proof (Z.mod_pos_bound x m). lia.
  - pose proof (Z.div_mod x m). lia.
Qed.

Lemma var_mag_range v : - 2 ^ 63 <= v < 2 ^ 63 -> 0 <= var_mag v < 2 ^ 63.
Proof. unfold var_mag. destruct (Z.ltb_spec v 0); lia. Qed.

(** The header of the signed form before the sign flips it. *)
Definition var_head (v : Z) : Z :=
  let k := Z.of_nat (var_len 3 (var_mag v)) in var_mag v / 256 ^ k + 8 * (16 + k).

Lemma var_head_range v : - 2 ^ 63 <= v < 2 ^ 63 -> 128 <= var_head v < 200.
Proof.
  intros Hv%var_mag_range. unfold var_head.
  destruct (var_header 3 _ 0 _ ltac:(lia) ltac:(apply Hv) eq_refl ltac:(lia)) as (_ & Hh & H8).
  destruct (var_len_cases 3 (var_mag v) ltac:(lia) ltac:(lia)) as (Hk & _).
  change (2 ^ 3) with 8 in Hh.
  destruct (decide (var_len 3 (var_mag v) = 8%nat)) as [E|]; [rewrite H8 by done|]; lia.
Qed.

Lemma var_i64_bytes v :
  - 2 ^ 63 <= v < 2 ^ 63 ->
  Enc.serialize_var_i64 v
  = Ok (z2b (if v <? 0 then 255 - var_head v else var_head v)
        :: be (var_len 3 (var_mag v)) (if v <? 0 then - 1 - var_mag v else var_mag v)).
Proof.
  intros Hv. rewrite var_i64_form, be_S by done. pose proof (var_mag_range v Hv) as Hm.
  unfold var_code, var_head. set (k := var_len 3 (var_mag v)).
  destruct (var_header 3 _ (16 + Z.of_nat k) k ltac:(lia) ltac:(apply Hm) eq_refl ltac:(lia))
    as (E & _).
  assert (0 < 256 ^ Z.of_nat k) as Hp by (apply Z.pow_pos_nonneg; lia).
  set (x := var_mag v + (16 + Z.of_nat k) * 2 ^ (8 * Z.of_nat k + 3)) in *.
  assert (x mod 256 ^ Z.of_nat k = var_mag v mod 256 ^ Z.of_nat k) as Em.
  { unfold x. rewrite Z.pow_add_r, <-pow256 by lia.
    replace ((16 + Z.of_nat k) * (256 ^ Z.of_nat k * 2 ^ 3))
      with ((16 + Z.of_nat k) * 2 ^ 3 * 256 ^ Z.of_nat k) by ring.
    by rewrite Z.mod_add by lia. }
  rewrite Z.pow_add_r by lia. change (256 ^ 1) with 256. rewrite (Z.mul_comm _ 256).
  change (2 ^ 3) with 8 in E. destruct (v <? 0); do 2 f_equal.
  - rewrite compl_div, E by done. f_equal. lia.
  - rewrite (be_mod k), (be_mod k (-1 - _)). f_equal.
    replace (256 * 256 ^ Z.of_nat k - 1 - x) with (-1 - x + 256 * 256 ^ Z.of_nat k) by lia.
    rewrite Z.mod_add, !compl_mod by lia. lia.
  - rewrite E. f_equal. lia.
  - by rewrite (be_mod k), (be_mod k (var_mag v)), Em.
Qed.

(** What the reader takes from a header byte. *)
Lemma i64_header_fields h :
  0 <= h < 256 ->
  let u := if h <? 128 then 255 - h else h in
  let mask := wrap 8 (Z.shiftr (to_signed 8 (Z.lxor h 128)) 7) in
  mask = (if h <? 128 then 255 else 0)
  /\ Z.land (Z.lxor (Z.shiftr h 3) mask) 15 = (u / 8) mod 16
  /\ Z.land (Z.lxor h mask) 7 = u mod 8.
Proof.
  intros Hh u mask. revert u mask.
  assert (Forall (fun h =>
    let u := if h <? 128 then 255 - h else h in
    let mask := wrap 8 (Z.shiftr (to_signed 8 (Z.lxor h 128)) 7) in
    mask = (if h <? 128 then 255 else 0)
    /\ Z.land (Z.lxor (Z.shiftr h 3) mask) 15 = (u / 8) mod 16
    /\ Z.land (Z.lxor h mask) 7 = u mod 8) (map Z.of_nat (seq 0 256))) as Hall.
  { cbv zeta. apply (bool_decide_unpack _). vm_compute. done. }
  rewrite Forall_forall in Hall. apply Hall. apply list_elem_of_fmap.
  exists (Z.to_nat h). split; [lia|]. apply elem_of_seq. lia.
Qed.

Lemma var_i64_read v r :
  - 2 ^ 63 <= v < 2 ^ 63 -> exists e, Enc.serialize_var_i64 v = Ok e
    /\ Dec.deserialize_var_i64 (e ++ r) = (Ok v, r).
Proof.
  intros Hv. rewrite var_i64_bytes by done. eexists; split; [done|].
  pose proof (var_head_range v Hv) as Hr. pose proof (var_mag_range v Hv) as Hm.
  destruct (var_header 3 _ 0 _ ltac:(lia) ltac:(apply Hm) eq_refl ltac:(lia)) as (_ & Hh & H8).
  destruct (var_len_cases 3 (var_mag v) ltac:(lia) ltac:(lia)) as (Hk & _).
  unfold Dec.deserialize_var_i64. dec_run. cbn [app]. rewrite read_uint_cons.
  set (hb := if v <? 0 then 255 - var_head v else var_head v).
  assert (0 <= hb < 256) by (unfold hb; destruct (v <? 0); lia).
  rewrite b2z_z2b_small by lia.
  destruct (i64_header_fields hb ltac:(lia)) as (-> & Hn & Hl).
  assert ((hb <? 128) = (v <? 0)) as Hneg.
  { unfold hb. destruct (Z.ltb_spec v 0), (Z.ltb_spec hb 128); unfold hb in *; lia. }
  rewrite Hneg in Hn, Hl |- *.
  assert ((if v <? 0 then 255 - hb else hb) = var_head v) as Eu.
  { unfold hb. destruct (v <? 0); lia. }
  rewrite Eu in Hn, Hl. rewrite Hn, Hl. unfold var_head.
  set (k := var_len 3 (var_mag v)) in *. set (h := var_mag v / 256 ^ Z.of_nat k) in *.
  change (2 ^ 3) with 8 in Hh.
  replace ((h + 8 * (16 + Z.of_nat k)) mod 8) with h by dlia.
  replace (((h + 8 * (16 + Z.of_nat k)) / 8) mod 16) with (Z.of_nat k) by dlia.
  rewrite overflowing_shl_header, Nat2Z.id by (done || lia).
  assert (0 < 256 ^ Z.of_nat k) by (apply Z.pow_pos_nonneg; lia).
  set (l := be k (if v <? 0 then - 1 - var_mag v else var_mag v)).
  assert (h * 256 ^ Z.of_nat k + of_be (map (flip (if v <? 0 then 255 else 0)) l) = var_mag v) as E.
  { unfold l, h. pose proof (Z.div_mod (var_mag v) (256 ^ Z.of_nat k)).
    destruct (v <? 0); rewrite ?map_flip0, ?of_be_flip255, ?be_length, of_be_be, ?compl_mod by lia;
      lia. }
  assert (length l = k) as Hlen by apply be_length.
  rewrite <-Hlen at 1.
  rewrite var_loop_app; rewrite ?Hlen, ?E; unfold u64_max; try lia;
    [|destruct (v <? 0); auto].
  dec_run. do 2 f_equal. unfold var_mag in *. destruct (Z.ltb_spec v 0).
  - change (wrap 64 _) with (2 ^ 64 - 1). rewrite (lxor_ones _ 64) by lia.
    etransitivity; [|apply (to_signed_wrap 64 v); lia]. f_equal. unfold wrap. dlia.
  - change (wrap 64 _) with 0. rewrite Z.lxor_0_r.
    etransitivity; [|apply (to_signed_wrap 64 v); lia]. f_equal. unfold wrap. dlia.
Qed.

Lemma var_code_neg_order v w :
  0 <= v < w -> w < 2 ^ 63 -> var_len 3 v = var_len 3 w ->
  let x u := u + (16 + Z.of_nat (var_len 3 w)) * 2 ^ (8 * Z.of_nat (var_len 3 w) + 3) in
  0 <= x v < x w /\ x w < 256 ^ Z.of_nat (S (var_len 3 w)).
Proof.
  intros Hv Hw E x. destruct (var_len_cases 3 w ltac:(lia) ltac:(lia)) as (Hk & Hb & _).
  unfold x. set (k := var_len 3 w) in *. clearbody k. clear x.
  rewrite Z.pow_add_r, <-pow256, Nat2Z.inj_succ, Z.pow_succ_r by lia.
  assert (0 < 256 ^ Z.of_nat k) by (apply Z.pow_pos_nonneg; lia).
  change (2 ^ 3) with 8 in *.
  split; [split; [nia|lia]|].
  destruct Hb as [Hb| ->]; [nia|change (256 ^ Z.of_nat 8) with (2 ^ 64); cbn -[Z.pow]; lia].
Qed.

Lemma var_i64_lt v w :
  - 2 ^ 63 <= v < 2 ^ 63 -> - 2 ^ 63 <= w < 2 ^ 63 -> v < w ->
  exists a b, Enc.serialize_var_i64 v = Ok a /\ Enc.serialize_var_i64 w = Ok b /\ blt a b.
Proof.
  intros Hv Hw Hlt. pose proof (var_head_range v Hv). pose proof (var_head_range w Hw).
  pose proof (var_mag_range v Hv). pose proof (var_mag_range w Hw).
  destruct (decide (v < 0 <= w)) as [Hs|Hs].
  { rewrite !var_i64_bytes by done. do 2 eexists; split; [done|split; [done|]].
    destruct (Z.ltb_spec v 0), (Z.ltb_spec w 0); try lia.
    unfold blt. rewrite lex_header by lia. apply Z.compare_lt_iff. lia. }
  destruct (decide (var_len 3 (var_mag v) = var_len 3 (var_mag w))) as [E|E].
  - rewrite !var_i64_form by done. do 2 eexists; split; [done|split; [done|]].
    unfold blt, var_code. rewrite E.
    replace (Z.of_nat (var_len 3 (var_mag w)) + 1) with (Z.of_nat (S (var_len 3 (var_mag w)))) by lia.
    destruct (Z.ltb_spec v 0), (Z.ltb_spec w 0); try lia.
    + destruct (var_code_neg_order (var_mag w) (var_mag v)) as [Hx Hy];
        [unfold var_mag in *; destruct (Z.ltb_spec v 0), (Z.ltb_spec w 0); lia|lia|done|].
      rewrite E in Hx, Hy. rewrite lex_be_same by lia. apply Z.compare_lt_iff. lia.
    + destruct (var_code_neg_order (var_mag v) (var_mag w)) as [Hx Hy];
        [unfold var_mag in *; destruct (Z.ltb_spec v 0), (Z.ltb_spec w 0); lia|lia|done|].
      rewrite lex_be_same by lia. apply Z.compare_lt_iff. lia.
  - rewrite !var_i64_bytes by done. do 2 eexists; split; [done|split; [done|]].
    destruct (var_header 3 (var_mag v) 0 _ ltac:(lia) ltac:(lia) eq_refl ltac:(lia)) as (_ & Hh & _).
    destruct (var_header 3 (var_mag w) 0 _ ltac:(lia) ltac:(lia) eq_refl ltac:(lia)) as (_ & Hh' & _).
    change (2 ^ 3) with 8 in *.
    destruct (Z.ltb_spec v 0), (Z.ltb_spec w 0); try lia.
    + pose proof (var_len_mono 3 (var_mag w) (var_mag v) ltac:(lia)) as Hmono.
      unfold blt. rewrite lex_header; [apply Z.compare_lt_iff|..]; try lia;
        unfold var_head; unfold var_mag in *; destruct (Z.ltb_spec v 0), (Z.ltb_spec w 0); lia.
    + pose proof (var_len_mono 3 (var_mag v) (var_mag w) ltac:(lia)) as Hmono.
      unfold blt. rewrite lex_header; [apply Z.compare_lt_iff|..]; try lia;
        unfold var_head; unfold var_mag in *; destruct (Z.ltb_spec v 0), (Z.ltb_spec w 0); lia.
Qed.

(** From strict monotonicity to the whole comparison. *)
Lemma lex_of_mono (P : Z -> Prop) (f : Z -> res ser_error bytes) :
  (forall v, P v -> exists e, f v = Ok e) ->
  (forall v w, P v -> P w -> v < w -> exists a b, f v = Ok a /\ f w = Ok b /\ blt a b) ->
  forall v w a b, P v -> P w -> f v = Ok a -> f w = Ok b -> lex a b = (v ?= w).
Proof.
  intros Hok Hlt v w a b Hv Hw Ha Hb. destruct (Z.compare_spec v w) as [->|L|L].
  - rewrite Ha in Hb. apply Ok_inj in Hb as ->. apply lex_refl.
  - destruct (Hlt v w Hv Hw L) as (a' & b' & Ha' & Hb' & Hl).
    rewrite Ha in Ha'. rewrite Hb in Hb'. apply Ok_inj in Ha' as <-. apply Ok_inj in Hb' as <-. done.
  - destruct (Hlt w v Hw Hv L) as (b' & a' & Hb' & Ha' & Hl).
    rewrite Ha in Ha'. rewrite Hb in Hb'. apply Ok_inj in Ha' as <-. apply Ok_inj in Hb' as <-.
    rewrite lex_antisym, Hl. done.
Qed.

(** Variable-length unsigned integers: every [u64] is written, in one header byte
    plus the number of bytes the size table gives; reading the written bytes
    back, whatever follows them, gives the value and leaves the rest; and the
    byte order of two written integers is their numeric order. *)
Lemma var_u64_codec v w r :
  is_u64 v -> is_u64 w ->
  exists a b, Enc.serialize_var_u64 v = Ok a /\ Enc.serialize_var_u64 w = Ok b
    /\ length a = S (var_len 4 v)
    /\ Dec.deserialize_var_u64 (a ++ r) = (Ok v, r)
    /\ lex a b = (v ?= w).
Proof.
  intros Hv Hw. destruct (var_u64_read v r Hv) as (a & Ha & Hd).
  destruct (var_u64_read w r Hw) as (b & Hb & _). exists a, b. repeat split; try done.
  - rewrite var_u64_form in Ha by done. apply Ok_inj in Ha as <-. apply be_length.
  - eapply (lex_of_mono is_u64); try eassumption; [|apply var_u64_lt].
    intros x Hx. destruct (var_u64_read x [] Hx) as (e & ? & _). by exists e.
Qed.

(** Variable-length signed integers: the same for every [i64], negative numbers
    included, whose bytes sort before those of the non-negative ones. *)
Lemma var_i64_codec v w r :
  - 2 ^ 63 <= v < 2 ^ 63 -> - 2 ^ 63 <= w < 2 ^ 63 ->
  exists a b, Enc.serialize_var_i64 v = Ok a /\ Enc.serialize_var_i64 w = Ok b
    /\ length a = S (var_len 3 (var_mag v))
    /\ Dec.deserialize_var_i64 (a ++ r) = (Ok v, r)
    /\ lex a b = (v ?= w).
Proof.
  intros Hv Hw. destruct (var_i64_read v r Hv) as (a & Ha & Hd).
  destruct (var_i64_read w r Hw) as (b & Hb & _). exists a, b. repeat split; try done.
  - rewrite var_i64_form in Ha by done. apply Ok_inj in Ha as <-. apply be_length.
  - eapply (lex_of_mono (fun v => - 2 ^ 63 <= v < 2 ^ 63)); try eassumption; [|apply var_i64_lt].
    intros x Hx. destruct (var_i64_read x [] Hx) as (e & ? & _). by exists e.
Qed.

(** The variable-length integers.  Every [u64] and every [i64] is written, in one
    header byte plus the number of bytes the size table gives; reading the
    written bytes back, whatever follows them, gives the value and leaves the
    rest; and the byte order of two written integers is their numeric order. *)
Theorem var_int_codec (v w x y : Z) (r : bytes)
    (Hv : is_u64 v) (Hw : is_u64 w) (Hx : - 2 ^ 63 <= x < 2 ^ 63) (Hy : - 2 ^ 63 <= y < 2 ^ 63) :
  (exists a b, Enc.serialize_var_u64 v = Ok a /\ Enc.serialize_var_u64 w = Ok b
    /\ length a = S (var_len 4 v)
    /\ Dec.deserialize_var_u64 (a ++ r) = (Ok v, r)
    /\ lex a b = (v ?= w))
  /\ exists a b, Enc.serialize_var_i64 x = Ok a /\ Enc.serialize_var_i64 y = Ok b
    /\ length a = S (var_len 3 (var_mag x))
    /\ Dec.deserialize_var_i64 (a ++ r) = (Ok x, r)
    /\ lex a b = (x ?= y).
Proof. split; [by apply var_u64_codec|by apply var_i64_codec]. Qed.

Lemma var_int_codec_witness :
  exists a b, Enc.serialize_var_i64 (-2049) = Ok a /\ Enc.serialize_var_i64 7 = Ok b
    /\ length a = 3%nat
    /\ Dec.deserialize_var_i64 (a ++ ["255"%byte]) = (Ok (-2049), ["255"%byte])
    /\ lex a b = Lt.
Proof. apply (var_int_codec 4095 4096 (-2049) 7 ["255"%byte]); unfold is_u64; lia. Defined.
