(* ===== verification/SkeyTyped.v ===== *)
(** * Types of decoded values

    Whatever bytes the decoder is given, a value it returns is one of the type
    it was asked for: integers in range, characters scalar values, strings
    UTF-8, tuples and structures with a value for every field, enumerations
    with a variant of theirs. *)

From S2P Require Import Prelude Bytes Skey SkeyRoundtrip.
From Stdlib Require Import ZArith Lia Strings.Byte.
From stdpp Require Import base list option.

Local Open Scope Z_scope.

(** ** Decoders that return what they should *)

Definition yields {A} (d : dec A) (P : A -> Prop) : Prop := forall s a r, d s = (Ok a, r) -> P a.

Lemma yields_ret {A} (a : A) (P : A -> Prop) : P a -> yields (mret a) P.
Proof. intros HP s a' r [= <- _]. done. Qed.

Lemma yields_bind {A B} (P : A -> Prop) (Q : B -> Prop) (d : dec A) (f : A -> dec B) :
  yields d P -> (forall a, P a -> yields (f a) Q) -> yields (d ≫= f) Q.
Proof.
  intros Hd Hf s b r. unfold mbind, dec_bind. destruct (d s) as [[a|e] s'] eqn:E; [|done]. apply Hf. by eapply Hd.
Qed.

Lemma yields_err {A} e (P : A -> Prop) : yields (dec_err e) P.
Proof. by intros s a r. Qed.

Lemma yields_dmap {A B} (P : A -> Prop) (Q : B -> Prop) (d : dec A) (f : A -> B) :
  yields d P -> (forall a, P a -> Q (f a)) -> yields (dmap f d) Q.
Proof. intros Hd Hf. apply (yields_bind P); [done|]. intros a Ha. apply yields_ret. by apply Hf. Qed.

(** ** Scalars *)

Lemma yields_exact n : yields (Dec.read_exact n) (fun b => length b = n).
Proof. intros s b r. unfold Dec.read_exact. case_decide; [|done]. intros [= <- _]. rewrite length_take. lia. Qed.

Lemma yields_uint n : yields (Dec.read_uint n) (fun z => 0 <= z < 2 ^ (8 * Z.of_nat n)).
Proof.
  apply (yields_bind _ _ _ _ (yields_exact n)). intros b <-. apply yields_ret.
  pose proof (of_be_range b) as H. by rewrite Z.pow_mul_r by lia.
Qed.

Lemma yields_int m n : 0 <= m -> 8 * Z.of_nat n = m + 1 ->
  yields (i ← Dec.read_int n; mret (Z.lxor i (- 2 ^ m))) (fun z => - 2 ^ m <= z < 2 ^ m).
Proof.
  intros Hm Hn. apply (yields_bind (fun z => - 2 ^ m <= z < 2 ^ m)).
  - apply (yields_bind _ _ _ _ (yields_exact n)). intros b Hb. apply yields_ret. rewrite Hn. apply to_signed_range; [done|].
    pose proof (of_be_range b) as H. rewrite Hb in H. rewrite <- Hn, Z.pow_mul_r by lia. exact H.
  - intros z Hz. apply yields_ret. by apply lxor_min_range.
Qed.

Lemma utf8_first_scalar l c r : utf8_first l = Some (c, r) -> is_scalar c.
Proof.
  unfold utf8_first, is_cont, in_range, is_scalar. destruct l as [|b0 l]; [done|]. pose proof (b2z_range b0).
  repeat case_match; intros [= <- <-]; try lia;
    repeat match goal with
    | H : (_ && _)%bool = true |- _ => apply andb_true_iff in H as [? ?]
    | H : (_ && _)%bool = false |- _ => clear H
    end; lia.
Qed.

Lemma yields_char : yields Dec.deserialize_char is_scalar.
Proof.
  intros s c r. unfold Dec.deserialize_char. destruct (Dec.read_reference_until x00 s) as [[b|e] s']; [|done].
  destruct (utf8_valid b); [|done]. destruct (utf8_first b) as [[c' l]|] eqn:E; [|done]. intros [= <- _].
  by eapply utf8_first_scalar.
Qed.

Lemma yields_str : yields Dec.deserialize_str (fun s => utf8_valid s = true).
Proof.
  intros s b r. unfold Dec.deserialize_str. destruct (Dec.read_reference_until x00 s) as [[b'|e] s']; [|done].
  destruct (utf8_valid b') eqn:E; [|done]. by intros [= <- _].
Qed.

Lemma yields_bytes : yields Dec.deserialize_bytes (fun b => Z.of_nat (length b) < 2 ^ 64).
Proof.
  apply (yields_bind _ _ _ _ (yields_uint 8)). intros len Hlen. case_match; [|apply yields_err].
  intros s b r. unfold Dec.read_reference. case_match; [done|]. intros [= <- _]. rewrite length_take. lia.
Qed.

(** ** Compound values *)

Lemma yields_next {A} (d : dec A) (P : A -> Prop) : yields d P -> yields (Dec.next_element d) (fun o => forall a, o = Some a -> P a).
Proof.
  intros Hd s o r. unfold Dec.next_element. destruct (Dec.move_on s) as [[[|]|e] s']; [by intros [= <- _]| |done].
  destruct (d s') as [[a|e] s''] eqn:E.
  - intros [= <- _] a' [= <-]. by eapply Hd.
  - destruct e; try done. by intros [= <- _].
Qed.

Lemma yields_seq {A} fuel (d : dec A) (P : A -> Prop) : yields d P -> yields (Dec.deserialize_seq fuel d) (Forall P).
Proof.
  intros Hd. induction fuel as [|fuel IH]; [apply yields_err|]. cbn [Dec.deserialize_seq].
  apply (yields_bind _ _ _ _ (yields_next d P Hd)). intros [a|] Ha; [|by apply yields_ret].
  apply (yields_bind _ _ _ _ IH). intros l Hl. apply yields_ret. constructor; [by apply Ha|done].
Qed.

Lemma yields_map {A B} fuel (k : dec A) (v : dec B) (P : A -> Prop) (Q : B -> Prop) : yields k P -> yields v Q ->
  yields (Dec.deserialize_map fuel k v) (Forall (fun kv => P kv.1 /\ Q kv.2)).
Proof.
  intros Hk Hv. induction fuel as [|fuel IH]; [apply yields_err|]. cbn [Dec.deserialize_map].
  apply (yields_bind _ _ _ _ (yields_next k P Hk)). intros [a|] Ha; [|by apply yields_ret].
  apply (yields_bind _ _ _ _ Hv). intros b Hb.
  apply (yields_bind _ _ _ _ IH). intros l Hl. apply yields_ret. constructor; [split; [by apply Ha|done]|done].
Qed.

Lemma yields_tuple ts : Forall (fun t => yields (deserialize t) (has_ty t)) ts ->
  yields (Dec.deserialize_tuple (map deserialize ts)) (all2 (map has_ty ts)).
Proof.
  induction 1 as [|t ts Ht _ IH]; [by apply yields_ret|]. cbn [map Dec.deserialize_tuple].
  apply (yields_bind _ _ _ _ Ht). intros v Hv. apply (yields_bind _ _ _ _ IH). intros vs Hvs. by apply yields_ret.
Qed.

Lemma yields_variant idx sh ts : Forall (fun t => yields (deserialize t) (has_ty t)) ts ->
  yields (variant_content idx sh (map deserialize ts)) (has_variant idx (sh, map has_ty ts)).
Proof.
  intros Hts. destruct sh; cbn [variant_content].
  - by apply yields_ret.
  - destruct Hts as [|t ts Ht _]; cbn [map]; [apply yields_err|]. by apply (yields_dmap _ _ _ _ Ht).
  - apply (yields_dmap _ _ _ _ (yields_tuple ts Hts)). by intros.
  - apply (yields_dmap _ _ _ _ (yields_tuple ts Hts)). by intros.
Qed.

Lemma variant_index idx p v : has_variant idx p v -> svariant_index v = Some idx.
Proof. destruct p as [[] [|q qs]], v; cbn; naive_solver. Qed.

(** Enumerations have fewer than 2^32 variants, as the compiler demands. *)
Fixpoint countable (t : sty) : Prop :=
  match t with
  | TOption t | TNewtypeStruct t | TSeq t => countable t
  | TTuple ts | TTupleStruct ts | TStruct ts => Forall id (map countable ts)
  | TMap k v => countable k /\ countable v
  | TEnum vs => Z.of_nat (length vs) < 2 ^ 32 /\ Forall id (map (fun v => Forall id (map countable v.2)) vs)
  | _ => True
  end.

Lemma all_yield ts : Forall (fun t => countable t -> yields (deserialize t) (has_ty t)) ts -> Forall id (map countable ts) ->
  Forall (fun t => yields (deserialize t) (has_ty t)) ts.
Proof.
  induction 1 as [|t ts Ht _ IH]; [done|]. cbn [map]. intros Hc. apply Forall_cons_1 in Hc as [Hc Hcs]. constructor; [by apply Ht|by apply IH].
Qed.

Lemma yields_enum vs : Forall (fun v => Forall (fun t => countable t -> yields (deserialize t) (has_ty t)) v.2) vs ->
  countable (TEnum vs) -> yields (deserialize (TEnum vs)) (has_ty (TEnum vs)).
Proof.
  intros Hvs [Hlen Hc]. cbn [deserialize]. unfold Dec.variant_seed.
  apply (yields_bind _ _ _ _ (yields_uint 4 : yields Dec.deserialize_u32 _)). intros idx Hidx.
  rewrite list_lookup_imap, !list_lookup_fmap. destruct (vs !! Z.to_nat idx) as [[sh ts]|] eqn:Ev; cbn; [|apply yields_err].
  assert (yields (variant_content (Z.of_nat (Z.to_nat idx)) sh (map deserialize ts))
    (has_variant (Z.of_nat (Z.to_nat idx)) (sh, map has_ty ts))) as Hy.
  { apply yields_variant, all_yield; [exact (Forall_lookup_1 _ _ _ _ Hvs Ev)|].
    assert (map (fun v : vshape * list sty => Forall id (map countable v.2)) vs !! Z.to_nat idx = Some (Forall id (map countable ts))) as Em
      by (by rewrite list_lookup_fmap, Ev).
    exact (Forall_lookup_1 _ _ _ _ Hc Em). }
  intros s v r E. specialize (Hy s v r E). split; [done|]. exists (Z.to_nat idx). split; [by eapply variant_index|].
  by rewrite list_lookup_fmap, Ev.
Qed.

Definition is_scalar_ty (t : sty) : bool :=
  match t with
  | TOption _ | TNewtypeStruct _ | TSeq _ | TTuple _ | TTupleStruct _ | TMap _ _ | TStruct _ | TEnum _ => false
  | _ => true
  end.

Lemma scalar_yields t : is_scalar_ty t = true -> yields (deserialize t) (has_ty t).
Proof.
  destruct t; try done; intros _; cbn [deserialize].
  - by apply (yields_dmap (fun _ => True)).
  - apply (yields_dmap _ _ _ _ (yields_int 7 1 ltac:(lia) ltac:(lia))). by intros.
  - apply (yields_dmap _ _ _ _ (yields_int 15 2 ltac:(lia) ltac:(lia))). by intros.
  - apply (yields_dmap _ _ _ _ (yields_int 31 4 ltac:(lia) ltac:(lia))). by intros.
  - apply (yields_dmap _ _ _ _ (yields_int 63 8 ltac:(lia) ltac:(lia))). by intros.
  - apply (yields_dmap _ _ _ _ (yields_uint 1)). by intros.
  - apply (yields_dmap _ _ _ _ (yields_uint 2)). by intros.
  - apply (yields_dmap _ _ _ _ (yields_uint 4)). by intros.
  - apply (yields_dmap _ _ _ _ (yields_uint 8)). by intros.
  - apply (yields_dmap is_u32); [|by intros]. apply (yields_bind (fun _ => True)); [done|]. intros z _. apply yields_ret.
    apply Z.mod_pos_bound. lia.
  - apply (yields_dmap is_u64); [|by intros]. apply (yields_bind (fun _ => True)); [done|]. intros z _. apply yields_ret.
    apply Z.mod_pos_bound. lia.
  - apply (yields_dmap _ _ _ _ yields_char). by intros.
  - apply (yields_dmap _ _ _ _ yields_str). by intros.
  - apply (yields_dmap _ _ _ _ yields_bytes). by intros.
  - by apply yields_ret.
  - by apply yields_ret.
Qed.

(** C35. The decoder is sound for types: whatever the input, a value read for a type is a
    value of it. *)
Theorem deserialize_typed (t : sty) (Ht : countable t) (s : bytes) (v : sval) (r : bytes)
    (E : deserialize t s = (Ok v, r)) : has_ty t v.
Proof.
  enough (yields (deserialize t) (has_ty t)) as Hy by (by eapply Hy). clear E s v r. revert Ht.
  apply (sty_ind' (fun t => countable t -> yields (deserialize t) (has_ty t))); clear t.
  { intros []; try done; intros _; by apply scalar_yields. }
  all: cbn [countable].
  - intros t IH Ht. apply (yields_bind (fun _ => True)); [done|]. intros tag _.
    case_match; [by apply yields_ret|]. case_match; [|apply yields_err]. by apply (yields_dmap _ _ _ _ (IH Ht)).
  - intros t IH Ht. by apply (yields_dmap _ _ _ _ (IH Ht)).
  - intros t IH Ht s v r. by apply (yields_dmap _ _ _ _ (yields_seq _ _ _ (IH Ht))).
  - intros ts IH Ht. by apply (yields_dmap _ _ _ _ (yields_tuple ts (all_yield ts IH Ht))).
  - intros ts IH Ht. by apply (yields_dmap _ _ _ _ (yields_tuple ts (all_yield ts IH Ht))).
  - intros k v IHk IHv [Hk Hv] s m r. apply (yields_dmap _ _ _ _ (yields_map _ _ _ _ _ (IHk Hk) (IHv Hv))). by intros.
  - intros ts IH Ht. by apply (yields_dmap _ _ _ _ (yields_tuple ts (all_yield ts IH Ht))).
  - intros vs IH Ht. by apply yields_enum.
Qed.

Lemma deserialize_typed_witness :
  has_ty (TTuple [TI8; TEnum [(VUnit, []); (VNewtype, [TStr])]]) (STuple [SI8 (-128); SNewtypeVariant 1 (SStr [x61])]).
Proof.
  apply (deserialize_typed (TTuple [TI8; TEnum [(VUnit, []); (VNewtype, [TStr])]]) ltac:(repeat constructor)
    [x00; x00; x00; x00; x01; x61; x00; x2a] _ [x2a]). vm_compute. reflexivity.
Defined.
