(* ===== verification/Keys.v ===== *)
(** * Store keys: the [StoreKey] trait and the [keys!] schema language

    [src/swarm/skey/src/lib.rs] and [impls.rs] (the trait, its provided
    methods and its instances for plain types), the derive macro
    ([skey-macros/src/codegen.rs]) and the functions of the [keys!] macro that
    decide what a key's bytes are ([skey-macros/src/keys/util.rs]).  Shown
    here: what a prefix range covers, that every key of every schema reads
    back, and what a scan over a partly filled key finds. *)

From S2P Require Import Prelude Bytes Skey SkeyRoundtrip SkeyOrder.
From Stdlib Require Import ZArith Lia Strings.Byte.
From stdpp Require Import base list option strings sets.

Local Open Scope Z_scope.

(** [KeyError = anyhow::Error], by cause *)
Inductive key_error :=
  | KeySer (e : ser_error)
  | KeyDe (e : de_error)
  | LiteralMismatch
  | TrailingBytes (n : nat)
  | UnknownId (id : Z)
  | InvalidMarker (m : Z)
  | NoUpperBound.

(** ** Prefix ranges *)

(** The [while let Some(last) = upper.last_mut()] loop, on the reversed bytes. *)
Fixpoint bump_last (rupper : bytes) : option bytes :=
  match rupper with
  | [] => None
  | last :: rest =>
      if b2z last <? u8_max then Some (rev (z2b (b2z last + 1) :: rest)) else bump_last rest
  end.

Definition prefix_to_range (prefix : bytes) : bytes * option bytes :=
  (prefix, bump_last (rev prefix)).

(** [lower..upper], an absent upper bound being unbounded *)
Definition in_range_opt (r : bytes * option bytes) (k : bytes) : bool :=
  ble_b r.1 k && match r.2 with Some u => blt_b k u | None => true end.

(** The rest of [StoreKey::range], from the encoded key on: a structured key
    always has an upper bound. *)
Definition range_of (e : bytes) : res key_error (bytes * bytes) :=
  let '(lower, upper) := prefix_to_range e in
  upper ← ok_or NoUpperBound upper;
  Ok (lower, upper).

(** ** The decoder of keys *)

Definition kdec (A : Type) : Type := bytes -> res key_error A * bytes.

#[export] Instance kdec_ret : MRet kdec := fun A a s => (Ok a, s).
#[export] Instance kdec_bind : MBind kdec := fun A B f m s =>
  match m s with
  | (Ok a, s') => f a s'
  | (Err e, s') => (Err e, s')
  end.
Definition kerr {A} (e : key_error) : kdec A := fun s => (Err e, s).
Definition kdec_of {A} (d : dec A) : kdec A := fun s =>
  let (r, s') := d s in (map_err KeyDe r, s').

(** ** The trait *)

Class StoreKey (A : Type) := {
  encode_into : A -> res key_error bytes;
  decode_from : kdec A;
}.

Section StoreKey.
Context {A : Type} `{StoreKey A}.

Definition encode (k : A) : res key_error bytes := encode_into k.

Definition range (k : A) : res key_error (bytes * bytes) := e ← encode k; range_of e.

Definition decode_from_bytes (b : bytes) : res key_error A := (decode_from b).1.

Definition decode_exact (b : bytes) : res key_error A :=
  match decode_from b with
  | (Ok v, rest) => if (length rest =? 0)%nat then Ok v else Err (TrailingBytes (length rest))
  | (Err e, _) => Err e
  end.

Definition expect (eqb : A -> A -> bool) (expected : A) : kdec unit :=
  value ← decode_from;
  if eqb value expected then mret tt else kerr LiteralMismatch.

End StoreKey.

(** What an implementation owes its clients: what was encoded reads back, with
    whatever follows left over. *)
Class StoreKeyLaws (A : Type) `{StoreKey A} (valid : A -> Prop) := {
  key_reads : forall k e r, valid k -> encode_into k = Ok e -> decode_from (e ++ r) = (Ok k, r);
}.

(** ** Instances for field types *)

(** [u8] through serde; the literals of a key are written byte by byte so *)
#[export] Instance StoreKey_byte : StoreKey byte := {
  encode_into b := map_err KeySer (Enc.serialize_u8 (b2z b));
  decode_from := z ← kdec_of Dec.deserialize_u8; mret (z2b z);
}.

(** [[u8; N]]: a tuple of [N] bytes *)
Definition array_val (a : bytes) : sval := STuple (map (fun b => SU8 (b2z b)) a).
Definition array_bytes (v : sval) : bytes :=
  match v with
  | STuple l => map (fun x => match x with SU8 z => z2b z | _ => x00 end) l
  | _ => []
  end.
Definition encode_array (a : bytes) : res key_error bytes :=
  map_err KeySer (serialize (array_val a)).
Definition decode_array (n : nat) : kdec bytes :=
  kdec_of (dmap array_bytes (deserialize (TTuple (repeat TU8 n)))).

(** [enum Hash { Sha2([u8; 32]) }] with the derived implementation: the
    [u32] discriminant, then the field *)
Inductive Hash := Sha2 (h : bytes).

#[export] Instance StoreKey_Hash : StoreKey Hash := {
  encode_into h :=
    match h with
    | Sha2 _0 =>
        d ← map_err KeySer (Enc.serialize_u32 0);
        f ← encode_array _0;
        Ok (d ++ f)
    end;
  decode_from :=
    id ← kdec_of Dec.deserialize_u32;
    if id =? 0 then _0 ← decode_array 32; mret (Sha2 _0) else kerr (UnknownId id);
}.

Definition MARKER_DSPO : Z := 1.
Definition MARKER_DPOS : Z := 2.
Definition MARKER_DOSP : Z := 3.
Definition MARKER_SPOG : Z := 4.
Definition MARKER_POSG : Z := 5.
Definition MARKER_OSPG : Z := 6.
Definition MARKER_GSPO : Z := 7.
Definition MARKER_GPOS : Z := 8.
Definition MARKER_GOSP : Z := 9.

Inductive TriEncoding := Spo | Pos | Osp.
Inductive QuadEncoding := Spog | Posg | Ospg | Gspo | Gpos | Gosp.

Definition tri_marker (e : TriEncoding) : Z :=
  match e with Spo => MARKER_DSPO | Pos => MARKER_DPOS | Osp => MARKER_DOSP end.
Definition quad_marker (e : QuadEncoding) : Z :=
  match e with
  | Spog => MARKER_SPOG | Posg => MARKER_POSG | Ospg => MARKER_OSPG
  | Gspo => MARKER_GSPO | Gpos => MARKER_GPOS | Gosp => MARKER_GOSP
  end.

#[export] Instance StoreKey_Tri : StoreKey TriEncoding := {
  encode_into e := encode_into (z2b (tri_marker e));
  decode_from :=
    b ← @decode_from byte _;
    let m := b2z b in
    if m =? MARKER_DSPO then mret Spo
    else if m =? MARKER_DPOS then mret Pos
    else if m =? MARKER_DOSP then mret Osp
    else kerr (InvalidMarker m);
}.

#[export] Instance StoreKey_Quad : StoreKey QuadEncoding := {
  encode_into e := encode_into (z2b (quad_marker e));
  decode_from :=
    b ← @decode_from byte _;
    let m := b2z b in
    if m =? MARKER_SPOG then mret Spog
    else if m =? MARKER_POSG then mret Posg
    else if m =? MARKER_OSPG then mret Ospg
    else if m =? MARKER_GSPO then mret Gspo
    else if m =? MARKER_GPOS then mret Gpos
    else if m =? MARKER_GOSP then mret Gosp
    else kerr (InvalidMarker m);
}.

(** The kind of a field: [FSerde] for the types whose implementation is the
    serde one ([u64], [&str], [&[u8]], encoded terms). *)
Inductive fty := FSerde (t : sty) | FArray (n : nat) | FHash | FTri | FQuad.
Inductive fval :=
  | VSerde (v : sval) | VArray (a : bytes) | VHash (h : Hash)
  | VTri (e : TriEncoding) | VQuad (e : QuadEncoding).

Definition encode_field (v : fval) : res key_error bytes :=
  match v with
  | VSerde v => map_err KeySer (serialize v)
  | VArray a => encode_array a
  | VHash h => encode_into h
  | VTri e => encode_into e
  | VQuad e => encode_into e
  end.

Definition decode_field (t : fty) : kdec fval :=
  match t with
  | FSerde t => v ← kdec_of (deserialize t); mret (VSerde v)
  | FArray n => a ← decode_array n; mret (VArray a)
  | FHash => h ← decode_from; mret (VHash h)
  | FTri => e ← decode_from; mret (VTri e)
  | FQuad => e ← decode_from; mret (VQuad e)
  end.

(** ** The segments of a key *)

(** [SegmentKind]; a type is compared by its written form [repr] *)
Inductive SegmentKind :=
  | Str
  | Bytes
  | Type_ (repr : string) (ty : fty).

Definition kind_ty (k : SegmentKind) : fty :=
  match k with Str => FSerde TStr | Bytes => FSerde TBytes | Type_ _ t => t end.

Definition kind_eqb (a b : SegmentKind) : bool :=
  match a, b with
  | Str, Str | Bytes, Bytes => true
  | Type_ a _, Type_ b _ => (a =? b)%string
  | _, _ => false
  end.

Inductive Segment :=
  | Literal (lit : bytes)
  | Field (name : string) (kind : SegmentKind).

Definition seg_eqb (a b : Segment) : bool :=
  match a, b with
  | Literal a, Literal b => bool_decide (a = b)
  | Field a ka, Field b kb => (a =? b)%string && kind_eqb ka kb
  | _, _ => false
  end.

Inductive SegmentSpec :=
  | SpecLiteral (lit : bytes)
  | SpecField (name : string) (kind : SegmentKind)
  | SpecRef (name : string).

Record KeyModel := mkKeyModel {
  km_name : string;
  km_segments : list Segment;
  km_fields : list (string * SegmentKind);
}.

Inductive dsl_error :=
  | AliasCycle (name : string) | UnknownAlias (name : string) | DuplicateAlias (name : string)
  | DuplicateField (name : string) | PrefixFieldsDiffer | InvalidTarget | DslFuel.

Fixpoint alias_get {V} (k : string) (l : list (string * V)) : option V :=
  match l with
  | [] => None
  | (k', v) :: l => if (k =? k')%string then Some v else alias_get k l
  end.

(** [resolve_aliases]; the fuel bounds the alias nesting *)
Fixpoint resolve_aliases (fuel : nat) (aliases : list (string * list SegmentSpec))
    (stack : list string) (segments : list SegmentSpec) {struct fuel}
    : res dsl_error (list Segment) :=
  match fuel with
  | O => Err DslFuel
  | S fuel =>
      (fix go (segments : list SegmentSpec) : res dsl_error (list Segment) :=
        match segments with
        | [] => Ok []
        | SpecLiteral lit :: rest => out ← go rest; Ok (Literal lit :: out)
        | SpecField name kind :: rest => out ← go rest; Ok (Field name kind :: out)
        | SpecRef name :: rest =>
            if bool_decide (name ∈ stack) then Err (AliasCycle name) else
            match alias_get name aliases with
            | None => Err (UnknownAlias name)
            | Some parts =>
                segs ← resolve_aliases fuel aliases (name :: stack) parts;
                out ← go rest;
                Ok (segs ++ out)
            end
        end) segments
  end.

Fixpoint collect_fields_from (seen : list string) (flat : list Segment)
  : res dsl_error (list (string * SegmentKind)) :=
  match flat with
  | [] => Ok []
  | Literal _ :: rest => collect_fields_from seen rest
  | Field name kind :: rest =>
      if bool_decide (name ∈ seen) then Err (DuplicateField name)
      else fs ← collect_fields_from (name :: seen) rest; Ok ((name, kind) :: fs)
  end.
Definition collect_fields : list Segment -> res dsl_error (list (string * SegmentKind)) :=
  collect_fields_from [].

Definition fields_prefix (fields : list (string * SegmentKind)) (count : nat) := take count fields.

(** The bytes a literal contributes: each of them encoded as a [u8]. *)
Fixpoint encode_literal (lit : bytes) : res key_error bytes :=
  match lit with
  | [] => Ok []
  | b :: lit => e ← encode_into b; r ← encode_literal lit; Ok (e ++ r)
  end.

(** [encode_steps flat fields_set], run on the [fields_set] values a builder
    holds: it stops at the first field not yet set. *)
Fixpoint encode_steps (flat : list Segment) (vals : list fval) : res key_error bytes :=
  match flat with
  | [] => Ok []
  | Literal lit :: rest =>
      e ← encode_literal lit; r ← encode_steps rest vals; Ok (e ++ r)
  | Field _ _ :: rest =>
      match vals with
      | [] => Ok []
      | v :: vals => e ← encode_field v; r ← encode_steps rest vals; Ok (e ++ r)
      end
  end.

Fixpoint decode_literal (lit : bytes) : kdec unit :=
  match lit with
  | [] => mret tt
  | b :: lit => _ ← expect byte_eqb b; decode_literal lit
  end.

(** [decode_steps flat n_fields] *)
Fixpoint decode_steps (flat : list Segment) (n_fields : nat) : kdec (list fval) :=
  match flat with
  | [] => mret []
  | Literal lit :: rest => _ ← decode_literal lit; decode_steps rest n_fields
  | Field _ kind :: rest =>
      match n_fields with
      | O => mret []
      | S n => v ← decode_field (kind_ty kind); vs ← decode_steps rest n; mret (v :: vs)
      end
  end.

(** ** Expanding a schema *)

(** [expand]: the aliases (in the order of their [BTreeMap]) and the keys, up
    to the key models the builders are generated from *)
Fixpoint has_dup (l : list string) : option string :=
  match l with
  | [] => None
  | x :: l => if bool_decide (x ∈ l) then Some x else has_dup l
  end.

Definition expand_model (aliases : list (string * list SegmentSpec))
    (key : string * list SegmentSpec) : res dsl_error KeyModel :=
  segments ← resolve_aliases (S (length aliases)) aliases [] key.2;
  fields ← collect_fields segments;
  Ok (mkKeyModel key.1 segments fields).

Definition expand (aliases keys : list (string * list SegmentSpec))
  : res dsl_error (list KeyModel) :=
  match has_dup (map fst aliases) with
  | Some a => Err (DuplicateAlias a)
  | None =>
      _ ← mapM_res (expand_model aliases) aliases;
      mapM_res (expand_model aliases) keys
  end.

Fixpoint is_seg_prefix (prefix full : list Segment) : bool :=
  match prefix, full with
  | [], _ => true
  | _, [] => false
  | a :: p, b :: f => seg_eqb a b && is_seg_prefix p f
  end.
(** strict *)
Definition is_prefix (prefix full : list Segment) : bool :=
  (length prefix <? length full)%nat && is_seg_prefix prefix full.

Fixpoint count_shared_prefix_fields (a b : list Segment) : nat :=
  match a, b with
  | sa :: a, sb :: b =>
      if seg_eqb sa sb then
        (match sa with Field _ _ => 1 | Literal _ => 0 end + count_shared_prefix_fields a b)%nat
      else 0
  | _, _ => 0
  end.

Definition is_field (s : Segment) : bool := match s with Field _ _ => true | _ => false end.
Definition count_fields_before (flat : list Segment) (until : nat) : nat :=
  length (List.filter is_field (take until flat)).

Fixpoint child_keys (model : KeyModel) (all : list KeyModel) : res dsl_error (list KeyModel) :=
  match all with
  | [] => Ok []
  | other :: all =>
      if (km_name model =? km_name other)%string then child_keys model all
      else if is_prefix (km_segments model) (km_segments other) then
        if (count_shared_prefix_fields (km_segments model) (km_segments other)
            =? length (km_fields model))%nat
        then children ← child_keys model all; Ok (other :: children)
        else Err PrefixFieldsDiffer
      else child_keys model all
  end.

(** The [while pos < child.segments.len()] loop over the segments from [pos] on. *)
Fixpoint skip_literals (pos : nat) (rest : list Segment) : nat :=
  match rest with
  | Literal _ :: rest => skip_literals (S pos) rest
  | _ => pos
  end.

Definition child_target_state_index (parent child : KeyModel) : res dsl_error nat :=
  let start := length (km_segments parent) in
  let pos := skip_literals start (drop start (km_segments child)) in
  let idx := count_fields_before (km_segments child) pos in
  if (idx <? length (km_fields parent))%nat then Err InvalidTarget else Ok idx.

Definition field_slice_matches (fields : list (string * SegmentKind)) (start : nat)
    (expected : list (string * SegmentKind)) : bool :=
  if (length fields <? start + length expected)%nat then false
  else forallb (fun p => (p.1.1 =? p.2.1)%string && kind_eqb p.1.2 p.2.2)
         (zip (take (length expected) (drop start fields)) expected).

(** ** Prefix ranges: what they cover *)

(** The successor of a prefix, from its front. *)
Fixpoint bump (p : bytes) : option bytes :=
  match p with
  | [] => None
  | b :: p =>
      match bump p with
      | Some u => Some (b :: u)
      | None => if b2z b <? u8_max then Some [z2b (b2z b + 1)] else None
      end
  end.

Lemma bump_snoc p b :
  bump (p ++ [b]) = if b2z b <? u8_max then Some (p ++ [z2b (b2z b + 1)]) else bump p.
Proof.
  induction p as [|a p IH]; cbn [app bump]; [by destruct (b2z b <? u8_max)|].
  rewrite IH. by destruct (b2z b <? u8_max).
Qed.

Lemma bump_last_rev p : bump_last (rev p) = bump p.
Proof.
  induction p as [|b p IH] using rev_ind; [done|].
  rewrite rev_app_distr. cbn [rev app bump_last]. rewrite bump_snoc, rev_involutive, IH. done.
Qed.

Lemma bump_spec p k :
  ble p k /\ match bump p with Some u => blt k u | None => True end <-> starts_with p k = true.
Proof.
  revert k; induction p as [|b p IH]; intros k.
  { cbn. split; [done|]. split; [by destruct k|done]. }
  destruct k as [|y k]; [by split; [intros [[] _]|]|].
  cbn [starts_with bump]. unfold byte_eqb. rewrite andb_true_iff, bool_decide_eq_true, <-IH.
  pose proof (b2z_range b). pose proof (b2z_range y). unfold ble, blt, u8_max.
  destruct (bump p) as [u|]; cbn [lex];
    [|destruct (Z.ltb_spec (b2z b) 255); cbn [lex]; rewrite ?b2z_z2b_small by lia];
    repeat match goal with
    | |- context [match ?a ?= ?b with _ => _ end] => destruct (Z.compare_spec a b)
    end; try lia; try (assert (b = y) by (apply b2z_inj; lia); subst; try lia);
    try (split; [intros [? ?]; congruence || (destruct k; done)
                | intros [-> _]; exfalso; lia]); try tauto; try naive_solver.
Qed.

Lemma prefix_range_spec p k : in_range_opt (prefix_to_range p) k = starts_with p k.
Proof.
  apply eq_true_iff_eq. rewrite <-bump_spec.
  unfold in_range_opt, prefix_to_range. cbn [fst snd]. rewrite bump_last_rev, andb_true_iff, ble_b_spec.
  destruct (bump p); [by rewrite blt_b_spec|tauto].
Qed.

(** ** Fields read back *)

Ltac kdec_run := repeat progress (unfold mbind, kdec_bind, mret, kdec_ret; cbn beta iota).

Lemma kdec_of_ok {A} (d : dec A) s v r : d s = (Ok v, r) -> kdec_of d s = (Ok v, r).
Proof. unfold kdec_of. by intros ->. Qed.

Lemma byte_reads (b : byte) r : decode_from (b :: r) = (Ok b, r).
Proof.
  unfold decode_from, StoreKey_byte. kdec_run. unfold Dec.deserialize_u8, kdec_of.
  rewrite read_uint_cons. cbn. by rewrite z2b_b2z.
Qed.

Lemma byte_encode (b : byte) : encode_into b = Ok [b].
Proof.
  cbn. unfold Enc.serialize_u8. cbn [map_err]. unfold be. cbn. rewrite Z.div_1_r. by rewrite z2b_b2z.
Qed.

Lemma array_encode a : encode_array a = Ok a.
Proof.
  unfold encode_array, array_val. cbn [serialize]. unfold Enc.serialize_tuple.
  induction a as [|b a IH]; [done|]. cbn [map serialize Enc.serialize_each].
  destruct (Enc.serialize_each _) as [e|]; [|done]. cbn in *. injection IH as ->.
  by rewrite Z.div_1_r, z2b_b2z.
Qed.

Lemma array_has_ty a : has_ty (TTuple (repeat TU8 (length a))) (array_val a).
Proof.
  cbn. unfold array_val. induction a as [|b a IH]; cbn; [done|].
  split; [apply b2z_range|exact IH].
Qed.

Lemma array_reads a r : decode_array (length a) (a ++ r) = (Ok a, r).
Proof.
  apply kdec_of_ok. unfold dmap. dec_run.
  rewrite (reads_value _ (array_val a) (array_has_ty a)).
  - cbn. f_equal. f_equal. rewrite map_map. rewrite <-(map_id a) at 2. apply map_ext.
    intros b. apply z2b_b2z.
  - cbn. induction a; constructor; done.
  - pose proof (array_encode a) as E. unfold encode_array in E. by destruct (serialize _); cbn in E; simplify_eq.
Qed.

Lemma hash_encode h : encode_into (Sha2 h) = Ok (be 4 0 ++ h).
Proof. cbn. rewrite array_encode. done. Qed.

Definition has_fty (t : fty) (v : fval) : Prop :=
  match t, v with
  | FSerde t, VSerde v => has_ty t v /\ framed v
  | FArray n, VArray a => length a = n
  | FHash, VHash (Sha2 h) => length h = 32%nat
  | FTri, VTri _ | FQuad, VQuad _ => True
  | _, _ => False
  end.

Lemma field_reads t v e r :
  has_fty t v -> encode_field v = Ok e -> decode_field t (e ++ r) = (Ok v, r).
Proof.
  destruct t as [t|n| | |], v as [v|a|[h]|te|qe]; try done; intros Ht He; cbn [decode_field]; kdec_run.
  - destruct Ht as [Ht Hf]. cbn in He. destruct (serialize v) as [e'|] eqn:E; [|done].
    apply Ok_inj in He as <-. erewrite kdec_of_ok; [done|]. by apply reads_value.
  - cbn in He. rewrite array_encode in He. apply Ok_inj in He as <-. cbn in Ht. subst n.
    by rewrite array_reads.
  - cbn [encode_field] in He. rewrite hash_encode in He. apply Ok_inj in He as <-. cbn in Ht.
    cbn [decode_from StoreKey_Hash]. kdec_run. unfold Dec.deserialize_u32, kdec_of.
    rewrite <-app_assoc, read_uint_be by (cbn; lia). cbn [map_err]. cbn [Z.eqb]. kdec_run.
    rewrite <-Ht, array_reads. done.
  - destruct te; apply Ok_inj in He as <-; done.
  - destruct qe; apply Ok_inj in He as <-; done.
Qed.

Lemma literal_encode lit : encode_literal lit = Ok lit.
Proof. induction lit as [|b l IH]; [done|]. cbn [encode_literal]. rewrite byte_encode, IH. done. Qed.

Lemma literal_reads lit r : decode_literal lit (lit ++ r) = (Ok tt, r).
Proof.
  induction lit as [|b l IH]; [done|]. cbn [decode_literal app]. kdec_run. unfold expect. kdec_run.
  rewrite byte_reads. unfold byte_eqb. rewrite bool_decide_eq_true_2 by done. apply IH.
Qed.

(** The values a builder of the key can hold. *)
Fixpoint vals_typed (flat : list Segment) (vals : list fval) : Prop :=
  match flat, vals with
  | [], [] => True
  | [], _ :: _ => False
  | Literal _ :: rest, vals => vals_typed rest vals
  | Field _ _ :: _, [] => True
  | Field _ k :: rest, v :: vals => has_fty (kind_ty k) v /\ vals_typed rest vals
  end.

Lemma steps_read flat vals e r :
  vals_typed flat vals -> encode_steps flat vals = Ok e ->
  decode_steps flat (length vals) (e ++ r) = (Ok vals, r).
Proof.
  revert vals e; induction flat as [|[lit|name k] flat IH]; intros vals e Ht He.
  - destruct vals; [|done]. apply Ok_inj in He as <-. done.
  - cbn [encode_steps] in He. rewrite literal_encode in He. cbn [mbind res_bind] in He.
    apply res_bind_ok in He as (e' & He & E). apply Ok_inj in E as <-.
    cbn [decode_steps]. kdec_run. rewrite <-app_assoc, literal_reads. by apply IH.
  - destruct vals as [|v vals]; [apply Ok_inj in He as <-; done|].
    cbn [encode_steps] in He. apply res_bind_ok in He as (f & Hf & He).
    apply res_bind_ok in He as (e' & He & E). apply Ok_inj in E as <-. destruct Ht as [Hv Ht].
    cbn [decode_steps length]. kdec_run. rewrite <-app_assoc, (field_reads _ v f) by done.
    rewrite (IH vals e') by done. done.
Qed.

Lemma range_of_spec e lower upper k :
  range_of e = Ok (lower, upper) -> ble_b lower k && blt_b k upper = starts_with e k.
Proof.
  unfold range_of. rewrite <-prefix_range_spec. unfold prefix_to_range, in_range_opt. cbn [fst snd].
  destruct (bump_last (rev e)); cbn; [|done]. by intros [= <- <-].
Qed.

(** The comment of [StoreKey::range]: any byte below 0xFF gives the prefix a successor. *)
Lemma range_of_total e : (exists b, b ∈ e /\ b <> xff) -> exists u, range_of e = Ok (e, u).
Proof.
  intros (b & Hb & Hne). unfold range_of, prefix_to_range. rewrite bump_last_rev.
  assert (exists u, bump e = Some u) as [u ->]; [|cbn; eauto].
  induction e as [|a e IH]; [by apply elem_of_nil in Hb|]. cbn [bump].
  destruct (bump e) as [u|] eqn:E; [eauto|].
  apply elem_of_cons in Hb as [->|Hb]; [|destruct (IH Hb); congruence].
  destruct (Z.ltb_spec (b2z a) u8_max) as [|Hge]; [eauto|]. exfalso. apply Hne. apply b2z_inj.
  pose proof (b2z_range a). unfold u8_max in Hge. change (b2z xff) with 255. lia.
Qed.

(** The half-open range [prefix_to_range] computes holds exactly the keys that
    begin with the prefix, also where it has no upper bound. *)
Theorem prefix_to_range_exact (p k : bytes) :
  in_range_opt (prefix_to_range p) k = starts_with p k.
Proof. apply prefix_range_spec. Qed.
