(* ===== verification/KeyScan.v ===== *)
(** * Scans over partly filled keys, key order, and the schema expansion

    A builder that has only some of its fields set encodes the prefix of the
    keys that extend it, and the store scans that prefix.  Shown here: which
    keys of a whole schema such a scan returns, that keys sort by their
    fields, that alias resolution ends, and that the errors of the prefix
    transitions are unreachable. *)

From S2P Require Import Prelude Bytes Skey SkeyRoundtrip SkeyOrder Keys.
From Stdlib Require Import ZArith Lia Strings.Byte.
From stdpp Require Import base list option strings sets.

Local Open Scope Z_scope.

(** ** Field types, compared *)

Fixpoint all2b {B} (fs : list (B -> bool)) (l : list B) : bool :=
  match fs, l with
  | [], [] => true
  | f :: fs, x :: l => f x && all2b fs l
  | _, _ => false
  end.

Definition vshape_eqb (a b : vshape) : bool :=
  match a, b with
  | VUnit, VUnit | VNewtype, VNewtype | VTuple, VTuple | VStruct, VStruct => true
  | _, _ => false
  end.

Fixpoint sty_eqb (a b : sty) : bool :=
  match a, b with
  | TBool, TBool | TI8, TI8 | TI16, TI16 | TI32, TI32 | TI64, TI64 | TU8, TU8 | TU16, TU16
  | TU32, TU32 | TU64, TU64 | TF32, TF32 | TF64, TF64 | TChar, TChar | TStr, TStr
  | TBytes, TBytes | TUnit, TUnit | TUnitStruct, TUnitStruct => true
  | TOption a, TOption b | TNewtypeStruct a, TNewtypeStruct b | TSeq a, TSeq b => sty_eqb a b
  | TTuple l, TTuple k | TTupleStruct l, TTupleStruct k | TStruct l, TStruct k =>
      all2b (map sty_eqb l) k
  | TMap a b, TMap c d => sty_eqb a c && sty_eqb b d
  | TEnum l, TEnum k =>
      all2b (map (fun v w => vshape_eqb v.1 w.1 && all2b (map sty_eqb v.2) w.2) l) k
  | _, _ => false
  end.

Lemma all2b_eq {A} (f : A -> A -> bool) l k :
  Forall (fun x => forall y, f x y = true -> x = y) l -> all2b (map f l) k = true -> l = k.
Proof.
  intros Hf; revert k; induction Hf as [|x l Hx _ IH]; intros [|y k]; cbn; try done.
  intros [E1 E2]%andb_true_iff. by rewrite (Hx y E1), (IH k E2).
Qed.

Lemma sty_eqb_eq a b : sty_eqb a b = true -> a = b.
Proof.
  revert b. pattern a; apply sty_ind'; clear a;
    [intros t|intros t IH|intros t IH|intros t IH|intros ts IH|intros ts IH
    |intros k v IHk IHv|intros ts IH|intros vs IH].
  { destruct t; try done; intros []; done. }
  all: intros []; cbn [sty_eqb]; try done.
  1-3: by intros E%IH; subst.
  1,2,4: by intros E%all2b_eq; subst.
  - intros [E1%IHk E2%IHv]%andb_true_iff. by subst.
  - intros E. f_equal. eapply all2b_eq; [|exact E]. eapply Forall_impl; [exact IH|].
    intros [sh l] Hl [sh' l']; cbn. intros [E1 E2%all2b_eq]%andb_true_iff; [|done]. subst.
    by destruct sh, sh'.
Qed.

Definition fty_eqb (a b : fty) : bool :=
  match a, b with
  | FSerde a, FSerde b => sty_eqb a b
  | FArray n, FArray m => (n =? m)%nat
  | FHash, FHash | FTri, FTri | FQuad, FQuad => true
  | _, _ => false
  end.

Lemma fty_eqb_eq a b : fty_eqb a b = true -> a = b.
Proof.
  destruct a, b; cbn; try done; [by intros ->%sty_eqb_eq|by intros ->%Nat.eqb_eq].
Qed.

(** ** Keys as sequences of literal bytes and fields *)

Inductive kseg := KB (b : byte) | KF (t : fty).

Fixpoint kcode (flat : list Segment) : list kseg :=
  match flat with
  | [] => []
  | Literal lit :: rest => map KB lit ++ kcode rest
  | Field _ k :: rest => KF (kind_ty k) :: kcode rest
  end.

Fixpoint kencode (c : list kseg) (vals : list fval) : res key_error bytes :=
  match c with
  | [] => Ok []
  | KB b :: c => r ← kencode c vals; Ok (b :: r)
  | KF _ :: c =>
      match vals with
      | [] => Ok []
      | v :: vals => e ← encode_field v; r ← kencode c vals; Ok (e ++ r)
      end
  end.

Fixpoint ktyped (c : list kseg) (vals : list fval) : Prop :=
  match c, vals with
  | [], [] => True
  | [], _ :: _ => False
  | KB _ :: c, vals => ktyped c vals
  | KF _ :: _, [] => True
  | KF t :: c, v :: vals => has_fty t v /\ ktyped c vals
  end.

Lemma kencode_literal lit c vals :
  kencode (map KB lit ++ c) vals = (r ← kencode c vals; Ok (lit ++ r)).
Proof.
  induction lit as [|b l IH]; cbn [map app kencode]; [by destruct (kencode c vals)|].
  rewrite IH. by destruct (kencode c vals).
Qed.

Lemma encode_steps_kcode flat vals : encode_steps flat vals = kencode (kcode flat) vals.
Proof.
  revert vals; induction flat as [|[lit|n k] flat IH]; intros vals; cbn [encode_steps kcode]; [done|..].
  - by rewrite literal_encode, kencode_literal, IH.
  - destruct vals; [done|]. cbn [kencode]. by rewrite IH.
Qed.

Lemma vals_typed_kcode flat vals : vals_typed flat vals <-> ktyped (kcode flat) vals.
Proof.
  revert vals; induction flat as [|[lit|n k] flat IH]; intros vals; cbn [vals_typed kcode].
  - by destruct vals.
  - rewrite IH. induction lit; [done|]. cbn [map app ktyped]. done.
  - destruct vals; [done|]. cbn [ktyped]. by rewrite IH.
Qed.

(** Fields are prefix-free: equal bytes, equal values. *)
Lemma field_prefix_free t v w e f r s :
  has_fty t v -> has_fty t w -> encode_field v = Ok e -> encode_field w = Ok f ->
  e ++ r = f ++ s -> v = w /\ r = s.
Proof.
  intros Hv Hw He Hf E. pose proof (field_reads t v e r Hv He) as H1.
  rewrite E, (field_reads t w f s Hw Hf) in H1. by simplify_eq.
Qed.

(** ** What a scan returns *)

(** Fields of two different types whose encodings never start the same. *)
Definition types_apart (a b : fty) : bool :=
  match a, b with FTri, FQuad | FQuad, FTri => true | _, _ => false end.

(** The pattern [c] with its first [n] fields set can be told from the key [d]
    by its bytes: up to the first difference they agree on what is a literal
    and on the types of the fields. *)
Fixpoint separated (c : list kseg) (n : nat) (d : list kseg) : bool :=
  match c, d with
  | [], _ => true
  | KB a :: c, KB b :: d => if byte_eqb a b then separated c n d else true
  | KB _ :: _, [] => true
  | KF t :: c, d =>
      match n, d with
      | O, _ => true
      | S n, KF u :: d => if fty_eqb t u then separated c n d else types_apart t u
      | S _, _ => false
      end
  | KB _ :: _, KF _ :: _ => false
  end.

(** The key extends the pattern: same literals, same values in the fields set. *)
Fixpoint covers (c : list kseg) (vs : list fval) (d : list kseg) (ws : list fval) : Prop :=
  match c, d with
  | [], _ => True
  | KB a :: c, KB b :: d => a = b /\ covers c vs d ws
  | KF t :: c, d =>
      match vs, d, ws with
      | [], _, _ => True
      | v :: vs, KF u :: d, w :: ws => t = u /\ v = w /\ covers c vs d ws
      | _, _, _ => False
      end
  | KB _ :: _, _ => False
  end.

Lemma types_apart_bytes t u v w e f r s :
  types_apart t u = true -> has_fty t v -> has_fty u w ->
  encode_field v = Ok e -> encode_field w = Ok f -> e ++ r <> f ++ s.
Proof.
  destruct t, u; cbn; try done; intros _; destruct v as [| | |te|qe]; try done;
    destruct w as [| | |te'|qe']; try done; intros _ _ He Hf;
    [destruct te, qe'|destruct qe, te']; apply Ok_inj in He as <-; apply Ok_inj in Hf as <-; done.
Qed.

(** The number of fields of a key. *)
Fixpoint kfields (c : list kseg) : nat :=
  match c with [] => O | KB _ :: c => kfields c | KF _ :: c => S (kfields c) end.

Lemma scan_exact c vs d ws e f :
  separated c (length vs) d = true -> ktyped c vs -> ktyped d ws -> length ws = kfields d ->
  kencode c vs = Ok e -> kencode d ws = Ok f ->
  starts_with e f = true <-> covers c vs d ws.
Proof.
  revert vs d ws e f; induction c as [|[a|t] c IH]; intros vs d ws e f Hs Hc Hd Hn He Hf.
  - cbn in He. apply Ok_inj in He as <-. done.
  - cbn [kencode] in He. apply res_bind_ok in He as (e' & He & E). apply Ok_inj in E as <-.
    destruct d as [|[b|u] d]; cbn [kencode covers separated kfields] in *; [|..|done].
    + apply Ok_inj in Hf as <-. done.
    + apply res_bind_ok in Hf as (f' & Hf & E). apply Ok_inj in E as <-.
      unfold byte_eqb in *. cbn [starts_with]. unfold byte_eqb.
      rewrite andb_true_iff, bool_decide_eq_true.
      destruct (bool_decide_reflect (a = b)) as [->|Hne]; [|tauto].
      rewrite (IH vs d ws e' f' Hs Hc Hd Hn He Hf). tauto.
  - destruct vs as [|v vs].
    { cbn in He. apply Ok_inj in He as <-. done. }
    cbn [kencode] in He. apply res_bind_ok in He as (g & Hg & He).
    apply res_bind_ok in He as (e' & He & E). apply Ok_inj in E as <-. destruct Hc as [Hv Hc].
    destruct d as [|[b|u] d]; cbn [separated length] in Hs; try done.
    cbn [kfields] in Hn. destruct ws as [|w ws]; [done|]. destruct Hd as [Hw Hd].
    cbn [kencode] in Hf. apply res_bind_ok in Hf as (h & Hh & Hf).
    apply res_bind_ok in Hf as (f' & Hf & E). apply Ok_inj in E as <-.
    rewrite starts_with_spec. cbn [covers].
    destruct (fty_eqb t u) eqn:Etu.
    + apply fty_eqb_eq in Etu as <-. cbn in Hn.
      rewrite <-(IH vs d ws e' f' Hs Hc Hd ltac:(lia) He Hf), starts_with_spec. split.
      * intros [r Hr]. rewrite <-app_assoc in Hr.
        destruct (field_prefix_free t w v h g f' (e' ++ r)) as [-> ->]; eauto.
      * intros (_ & <- & r & ->). rewrite Hg in Hh. apply Ok_inj in Hh as <-.
        exists r. by rewrite <-app_assoc.
    + split; [|intros (-> & _); destruct u; cbn in *; congruence].
      intros [r Hr]. exfalso. rewrite <-app_assoc in Hr.
      eapply (types_apart_bytes t u); eauto.
Qed.

(** ** Keys sort by their fields *)

(** A field of byte slices sorts by length first. *)
Definition fty_ord (t : fty) : Prop :=
  match t with FSerde TBytes => True | FSerde t => ord_ty t | _ => True end.

Definition fcmp (t : fty) (v w : fval) : comparison :=
  match t, v, w with
  | FSerde TBytes, VSerde (SBytes a), VSerde (SBytes b) => shortlex a b
  | FSerde t, VSerde v, VSerde w => vcmp t v w
  | FArray _, VArray a, VArray b => lex a b
  | FHash, VHash (Sha2 a), VHash (Sha2 b) => lex a b
  | FTri, VTri a, VTri b => tri_marker a ?= tri_marker b
  | FQuad, VQuad a, VQuad b => quad_marker a ?= quad_marker b
  | _, _, _ => Eq
  end.

Fixpoint kcmp (c : list kseg) (vs ws : list fval) : comparison :=
  match c with
  | [] => Eq
  | KB _ :: c => kcmp c vs ws
  | KF t :: c =>
      match vs, ws with
      | v :: vs, w :: ws => cthen (fcmp t v w) (kcmp c vs ws)
      | _, _ => Eq
      end
  end.

Lemma lex_same_length a b r s :
  length a = length b -> lex (a ++ r) (b ++ s) = cthen (lex a b) (lex r s).
Proof.
  intros Hl. destruct (decide (a = b)) as [->|Hne].
  - by rewrite lex_app_same, lex_refl.
  - rewrite lex_app_ne by done. destruct (lex a b) eqn:E; [|done..].
    exfalso. by apply lex_eq in E.
Qed.

Lemma field_order t v w e f r s :
  fty_ord t -> has_fty t v -> has_fty t w -> encode_field v = Ok e -> encode_field w = Ok f ->
  lex (e ++ r) (f ++ s) = cthen (fcmp t v w) (lex r s).
Proof.
  destruct t as [t|n| | |], v as [v|a|[h]|te|qe], w as [w|a'|[h']|te'|qe']; try done;
    intros Ho Hv Hw He Hf; cbn [encode_field fcmp] in *.
  - destruct (serialize v) as [e'|] eqn:Ee; [|done]. destruct (serialize w) as [f'|] eqn:Ef; [|done].
    apply Ok_inj in He as <-. apply Ok_inj in Hf as <-.
    destruct Hv as [Hv _], Hw as [Hw _]. destruct (match t with TBytes => true | _ => false end) eqn:Et.
    + destruct t; try done. destruct v; try done. destruct w; try done. cbn [serialize] in Ee, Ef.
      apply Ok_inj in Ee as <-. apply Ok_inj in Ef as <-. by apply lex_bytes.
    + replace (match t with TBytes => _ | _ => _ end) with (vcmp t v w) by (by destruct t).
      apply order_value; try done. by destruct t.
  - rewrite array_encode in *. apply Ok_inj in He as <-. apply Ok_inj in Hf as <-.
    apply lex_same_length. cbn in *. congruence.
  - rewrite hash_encode in *. apply Ok_inj in He as <-. apply Ok_inj in Hf as <-.
    rewrite <-!app_assoc, lex_app_same. apply lex_same_length. cbn in *. congruence.
  - destruct te, te'; apply Ok_inj in He as <-; apply Ok_inj in Hf as <-; done.
  - destruct qe, qe'; apply Ok_inj in He as <-; apply Ok_inj in Hf as <-; done.
Qed.

Lemma key_order c vs ws e f :
  Forall (fun x => match x with KF t => fty_ord t | KB _ => True end) c ->
  ktyped c vs -> ktyped c ws -> length vs = length ws ->
  kencode c vs = Ok e -> kencode c ws = Ok f -> lex e f = kcmp c vs ws.
Proof.
  revert vs ws e f; induction c as [|[b|t] c IH]; intros vs ws e f Ho Hv Hw Hl He Hf.
  - by apply Ok_inj in He as <-; apply Ok_inj in Hf as <-.
  - cbn [kencode kcmp] in *. apply res_bind_ok in He as (e' & He & E). apply Ok_inj in E as <-.
    apply res_bind_ok in Hf as (f' & Hf & E). apply Ok_inj in E as <-.
    apply Forall_cons in Ho as [_ Ho]. cbn [lex]. rewrite Z.compare_refl. by apply IH.
  - apply Forall_cons in Ho as [Ht Ho]. destruct vs as [|v vs], ws as [|w ws]; try done.
    { by apply Ok_inj in He as <-; apply Ok_inj in Hf as <-. }
    cbn [kencode kcmp] in *. apply res_bind_ok in He as (g & Hg & He).
    apply res_bind_ok in He as (e' & He & E). apply Ok_inj in E as <-.
    apply res_bind_ok in Hf as (h & Hh & Hf). apply res_bind_ok in Hf as (f' & Hf & E).
    apply Ok_inj in E as <-. destruct Hv as [Hv Hvs], Hw as [Hw Hws].
    rewrite (field_order t v w) by done. f_equal. apply IH; try done. by injection Hl.
Qed.

(** ** The schema expansion *)

Lemma alias_get_key {V} k (l : list (string * V)) v : alias_get k l = Some v -> k ∈ map fst l.
Proof.
  induction l as [|[k' v'] l IH]; cbn; [done|].
  destruct (String.eqb_spec k k') as [->|]; intros; [left|right; auto].
Qed.

(** The stack never repeats an alias, so it is no longer than the aliases. *)
Lemma resolve_no_fuel fuel aliases stack segs :
  NoDup stack -> stack ⊆ map fst aliases ->
  (length aliases < fuel + length stack)%nat ->
  resolve_aliases fuel aliases stack segs <> Err DslFuel.
Proof.
  revert stack segs; induction fuel as [|fuel IH]; intros stack segs Hnd Hsub Hlen.
  - exfalso.
    assert (length stack <= length (map fst aliases))%nat by
      (apply submseteq_length, NoDup_submseteq; done).
    rewrite length_map in *. lia.
  - cbn [resolve_aliases]. induction segs as [|[lit|n k|n] segs IHs]; [done|..].
    + match type of IHs with ?x <> _ => destruct x; cbn in *; congruence end.
    + match type of IHs with ?x <> _ => destruct x; cbn in *; congruence end.
    + destruct (bool_decide_reflect (n ∈ stack)) as [|Hn]; [done|].
      destruct (alias_get n aliases) as [parts|] eqn:Ea; [|done].
      specialize (IH (n :: stack) parts).
      destruct (resolve_aliases fuel aliases (n :: stack) parts) eqn:E; cbn.
      * match type of IHs with ?x <> _ => destruct x; cbn in *; congruence end.
      * intros [= ->]. apply IH; [by constructor| |cbn; lia|done].
        intros x [->|Hx]%elem_of_cons; [by eapply alias_get_key|by apply Hsub].
Qed.

Lemma seg_prefix_shared a b :
  is_seg_prefix a b = true -> count_shared_prefix_fields a b = length (List.filter is_field a).
Proof.
  revert b; induction a as [|sa a IH]; intros [|sb b]; cbn; try done.
  intros [-> Hp]%andb_true_iff. rewrite IH by done. by destruct sa.
Qed.

Lemma collect_fields_count seen flat fs :
  collect_fields_from seen flat = Ok fs -> length fs = length (List.filter is_field flat).
Proof.
  revert seen fs; induction flat as [|[lit|n k] flat IH]; intros seen fs; cbn.
  - by intros [= <-].
  - apply IH.
  - destruct (bool_decide _); [done|]. intros (fs' & Hf & E)%res_bind_ok.
    apply Ok_inj in E as <-. cbn. f_equal. by eapply IH.
Qed.

(** A model as [expand] builds it. *)
Definition model_wf (m : KeyModel) : Prop := collect_fields (km_segments m) = Ok (km_fields m).

Lemma child_keys_total m all : model_wf m -> exists l, child_keys m all = Ok l.
Proof.
  intros Hm. apply collect_fields_count in Hm. induction all as [|o all [l IH]]; cbn; [eauto|].
  destruct (_ =? _)%string; [eauto|]. destruct (is_prefix _ _) eqn:E; [|eauto].
  apply andb_true_iff in E as [_ E]. rewrite (seg_prefix_shared _ _ E), Hm, Nat.eqb_refl, IH.
  cbn. eauto.
Qed.

Lemma seg_eqb_field a b : seg_eqb a b = true -> is_field a = is_field b.
Proof. by destruct a, b. Qed.

Lemma seg_prefix_fields a b :
  is_seg_prefix a b = true ->
  length (List.filter is_field (take (length a) b)) = length (List.filter is_field a).
Proof.
  revert b; induction a as [|sa a IH]; intros [|sb b]; cbn; try done.
  intros [E Hp]%andb_true_iff. rewrite <-(seg_eqb_field _ _ E). destruct (is_field sa); cbn; auto.
Qed.

Lemma filter_take_mono (l : list Segment) n m :
  (n <= m)%nat ->
  (length (List.filter is_field (take n l)) <= length (List.filter is_field (take m l)))%nat.
Proof.
  intros Hle. revert n m Hle; induction l as [|s l IH]; intros n m Hle; [by rewrite !take_nil|].
  destruct n, m; cbn; try lia. pose proof (IH n m ltac:(lia)). destruct (is_field s); cbn; lia.
Qed.

Lemma skip_literals_ge pos l : (pos <= skip_literals pos l)%nat.
Proof.
  revert pos; induction l as [|[lit|n k] l IH]; intros pos; cbn; [lia| |lia].
  specialize (IH (S pos)). lia.
Qed.

Lemma child_target_total parent child :
  model_wf parent -> is_prefix (km_segments parent) (km_segments child) = true ->
  exists i, child_target_state_index parent child = Ok i /\ (length (km_fields parent) <= i)%nat.
Proof.
  intros Hm%collect_fields_count [_ Hp]%andb_true_iff. unfold child_target_state_index.
  set (pos := skip_literals _ _). assert (length (km_segments parent) <= pos)%nat as Hle
    by apply skip_literals_ge.
  pose proof (filter_take_mono (km_segments child) _ _ Hle) as Hc.
  rewrite seg_prefix_fields, <-Hm in Hc by done. unfold count_fields_before.
  destruct (Nat.ltb_spec (length (List.filter is_field (take pos (km_segments child)))) (length (km_fields parent)));
    [lia|eauto].
Qed.

(** Expansion of a schema: resolving the aliases of any segment list ends within
    one level of nesting per alias (the fuel [expand] gives it), cycles being
    reported; and for models [expand] builds, the two error branches of the
    prefix transitions, "prefix keys must share identical field sequence" and
    "invalid prefix transition target", are never taken. *)
Theorem expansion_total (al : list (string * list SegmentSpec)) (segs : list SegmentSpec)
    (m child : KeyModel) (all : list KeyModel) (Hm : model_wf m) :
  resolve_aliases (S (length al)) al [] segs <> Err DslFuel
  /\ (exists l, child_keys m all = Ok l)
  /\ (is_prefix (km_segments m) (km_segments child) = true ->
      exists i, child_target_state_index m child = Ok i /\ (length (km_fields m) <= i)%nat).
Proof.
  split; [|split].
  - apply resolve_no_fuel; [constructor|apply list_subseteq_nil|cbn; lia].
  - by apply child_keys_total.
  - by apply child_target_total.
Qed.

Definition sample_parent : KeyModel :=
  mkKeyModel "p" [Literal [x40]; Field "n" Str] [("n"%string, Str)].
Definition sample_child : KeyModel :=
  mkKeyModel "c" [Literal [x40]; Field "n" Str; Literal [x2a]; Field "i" Bytes]
    [("n"%string, Str); ("i"%string, Bytes)].

Lemma expansion_total_witness :
  resolve_aliases 2 [("a"%string, [SpecRef "a"])] [] [SpecRef "a"] <> Err DslFuel
  /\ (exists l, child_keys sample_parent [sample_child] = Ok l)
  /\ (is_prefix (km_segments sample_parent) (km_segments sample_child) = true ->
      exists i, child_target_state_index sample_parent sample_child = Ok i /\ (1 <= i)%nat).
Proof.
  apply (expansion_total [("a"%string, [SpecRef "a"])] [SpecRef "a"] sample_parent sample_child
    [sample_child]). vm_compute. done.
Defined.

(** Keys of one kind sort by their fields, first field first: the byte order of
    two encoded keys is the lexicographic order of their field values, for
    every key whose fields are of ordered types. *)
Theorem keys_sort_by_fields (flat : list Segment) (vs ws : list fval) (e f : bytes)
    (Ho : Forall (fun x => match x with KF t => fty_ord t | KB _ => True end) (kcode flat))
    (Hv : vals_typed flat vs) (Hw : vals_typed flat ws) (Hl : length vs = length ws)
    (He : encode_steps flat vs = Ok e) (Hf : encode_steps flat ws = Ok f) :
  lex e f = kcmp (kcode flat) vs ws.
Proof.
  rewrite encode_steps_kcode in He, Hf. apply vals_typed_kcode in Hv, Hw.
  by apply key_order.
Qed.

Lemma keys_sort_by_fields_witness :
  lex ([x40; x61; x00] ++ be 8 5) ([x40; x61; x00] ++ be 8 300) = Lt.
Proof.
  apply (keys_sort_by_fields [Literal [x40]; Field "n" Str; Field "ts" (Type_ "u64" (FSerde TU64))]
    [VSerde (SStr [x61]); VSerde (SU64 5)] [VSerde (SStr [x61]); VSerde (SU64 300)]);
    try done; try (repeat constructor; done).
Defined.
