(* ===== verification/Domain.v ===== *)
(** * The key schema of the database

    [src/swarm/db/src/domain.rs]: the keys of the [keys!] block, the scopes
    and sync points built on them; [src/swarm/db-commons/src/models.rs]: node
    and sync-point identifiers, scopes, subjects and the rendezvous hash. *)

From S2P Require Import Prelude Bytes Skey SkeyRoundtrip SkeyOrder Keys KeyScan.
From Stdlib Require Import ZArith Lia Strings.Byte.
From stdpp Require Import base list option strings sets.

Local Open Scope Z_scope.

(** A Rust string: its UTF-8 bytes. *)
Abbreviation str := (list byte) (only parsing).
Definition lit (s : string) : bytes := String.list_byte_of_string s.

(** ** Identifiers *)

Abbreviation NodeId := (list byte) (only parsing).
Abbreviation Version := Z (only parsing).
Abbreviation Epoch := Z (only parsing).

Definition SyncPointId : Type := Epoch * Version * NodeId.
Definition sid_epoch (i : SyncPointId) : Epoch := i.1.1.
Definition sid_version (i : SyncPointId) : Version := i.1.2.
Definition sid_node (i : SyncPointId) : NodeId := i.2.

Record Scope := mkScope { namespace : str; database : str; schema : str }.

#[export] Instance Scope_eq_dec : EqDecision Scope.
Proof. solve_decision. Defined.

(** [impl Default for Scope] of [db-commons] *)
Definition api_scope_default : Scope := mkScope (lit "d") (lit "d") (lit "p").
(** [impl Default for Scope] of the key schema *)
Definition scope_default : Scope := mkScope (lit "p") (lit "p") (lit "d").

(** [str::split_once] *)
Fixpoint split_once (sep : byte) (s : str) : option (str * str) :=
  match s with
  | [] => None
  | b :: s =>
      if byte_eqb b sep then Some ([], s)
      else match split_once sep s with Some (x, y) => Some (b :: x, y) | None => None end
  end.

Definition slash : byte := x2f.

Definition scope_parse (value : str) : Scope :=
  let '(namespace, rest) := default (value, lit "p/d") (split_once slash value) in
  let '(database, schema) := default (value, lit "d") (split_once slash rest) in
  mkScope namespace database schema.

Definition scope_display (s : Scope) : str :=
  namespace s ++ [slash] ++ database s ++ [slash] ++ schema s.

(** The bytes [rendezvous_hash] eats, and FNV-1a over them. *)
Definition rendezvous_input (s : Scope) (node : NodeId) : bytes :=
  namespace s ++ [x00] ++ database s ++ [x00] ++ schema s ++ [x00] ++ node.

Definition fnv_eat (hash : Z) (b : byte) : Z :=
  wrap 64 (Z.lxor hash (b2z b) * 0x100000001b3).
Definition rendezvous_hash (s : Scope) (node : NodeId) : Z :=
  fold_left fnv_eat (rendezvous_input s node) 0xcbf29ce484222325.

Inductive Subject :=
  | SubjNamespace (ns : str)
  | SubjDatabase (ns db : str)
  | SubjScope (s : Scope).

#[export] Instance Subject_eq_dec : EqDecision Subject.
Proof. solve_decision. Defined.

Definition as_keyexprs (s : Subject) : str * str * str :=
  match s with
  | SubjNamespace ns => (ns, lit "*", lit "*")
  | SubjDatabase ns db => (ns, db, lit "*")
  | SubjScope s => (namespace s, database s, schema s)
  end.

Definition subject_contains (sub : Subject) (s : Scope) : bool :=
  match sub with
  | SubjNamespace ns => bool_decide (namespace s = ns)
  | SubjDatabase ns db => bool_decide (namespace s = ns) && bool_decide (database s = db)
  | SubjScope target => bool_decide (s = target)
  end.

(** ** The schema *)

Definition F_u64 : SegmentKind := Type_ "u64" (FSerde TU64).

Definition scope_alias : list SegmentSpec :=
  [SpecLiteral (lit "@"); SpecField "namespace" Str; SpecLiteral (lit "*");
   SpecField "database" Str; SpecLiteral (lit "*"); SpecField "schema" Str; SpecLiteral (lit ":")].

Definition aliases : list (string * list SegmentSpec) := [("scope"%string, scope_alias)].

Definition term_kind (term : sty) : SegmentKind := Type_ "EncodedTerm" (FSerde term).

(** The [key] items, in order; the term type is that of [EncodedTerm]. *)
Definition schema_keys (term : sty) : list (string * list SegmentSpec) :=
  [("scope"%string, [SpecRef "scope"]);
   ("table"%string, [SpecRef "scope"; SpecLiteral (lit "tb"); SpecField "name" Str; SpecField "id" Bytes]);
   ("kv"%string, [SpecRef "scope"; SpecLiteral (lit "kv"); SpecField "key" Str]);
   ("measurement"%string, [SpecRef "scope"; SpecLiteral (lit "ts"); SpecField "measurement" Str;
      SpecLiteral (lit "/"); SpecField "timestamp" (Type_ "Timestamp" (FSerde TU64))]);
   ("blob_id"%string, [SpecRef "scope"; SpecLiteral (lit "fs"); SpecField "hash" (Type_ "Hash" FHash)]);
   ("blob_meta"%string, [SpecRef "scope"; SpecLiteral (lit "fs"); SpecField "hash" (Type_ "Hash" FHash);
      SpecLiteral (lit "$"); SpecField "path" Str]);
   ("path"%string, [SpecRef "scope"; SpecLiteral (lit "fn"); SpecField "path" Str]);
   ("sync_point"%string, [SpecLiteral (lit "#"); SpecRef "scope"; SpecLiteral (lit "sp");
      SpecField "ts" (Type_ "Version" (FSerde TU64)); SpecField "epoch" F_u64;
      SpecField "id" (Type_ "NodeId" (FArray 16))]);
   ("sem_hash"%string, [SpecLiteral (lit "sh"); SpecField "hash" Bytes]);
   ("graph_name"%string, [SpecRef "scope"; SpecLiteral (lit "sg"); SpecField "name" (term_kind term)]);
   ("triple"%string, [SpecRef "scope"; SpecLiteral (lit "sm"); SpecField "encoding" (Type_ "TriEncoding" FTri);
      SpecField "a" (term_kind term); SpecField "b" (term_kind term); SpecField "c" (term_kind term)]);
   ("quad"%string, [SpecRef "scope"; SpecLiteral (lit "sm"); SpecField "encoding" (Type_ "QuadEncoding" FQuad);
      SpecField "a" (term_kind term); SpecField "b" (term_kind term); SpecField "c" (term_kind term);
      SpecField "d" (term_kind term)])].

Definition models (term : sty) : list KeyModel :=
  match expand aliases (schema_keys term) with Ok ms => ms | Err _ => [] end.

(** The segments of the key called [name]. *)
Definition segs_of (term : sty) (name : string) : list Segment :=
  match List.find (fun m => (km_name m =? name)%string) (models term) with
  | Some m => km_segments m
  | None => []
  end.

(** The segments that mention no term. *)
Definition segs (name : string) : list Segment := Eval vm_compute in segs_of TUnit name.

(** ** Generated key types

    A builder state: the segments of its key, the fields it has set, and how
    they are put back into the structure. *)
Record shape (K : Type) := mkShape {
  sh_segs : list Segment;
  sh_count : nat;
  sh_vals : K -> list fval;
  sh_of : list fval -> option K;
}.
Arguments mkShape {K}.
Arguments sh_segs {K}. Arguments sh_count {K}. Arguments sh_vals {K}. Arguments sh_of {K}.

(** The generated [impl StoreKey]; the last branch is not reachable, since the
    decoded fields have the types of the structure's. *)
Definition generated {K} (s : shape K) : StoreKey K := {|
  encode_into k := encode_steps (sh_segs s) (sh_vals s k);
  decode_from :=
    vs ← decode_steps (sh_segs s) (sh_count s);
    match sh_of s vs with Some k => mret k | None => kerr LiteralMismatch end;
|}.

Definition vstr (s : str) : fval := VSerde (SStr s).
Definition vbytes (b : bytes) : fval := VSerde (SBytes b).
Definition vu64 (z : Z) : fval := VSerde (SU64 z).

Definition scope_vals (s : Scope) : list fval :=
  [vstr (namespace s); vstr (database s); vstr (schema s)].

Definition scope_shape : shape Scope := mkShape (segs "scope") 3 scope_vals
  (fun vs => match vs with
   | [VSerde (SStr n); VSerde (SStr d); VSerde (SStr s)] => Some (mkScope n d s)
   | _ => None end).
#[export] Instance StoreKey_Scope : StoreKey Scope := generated scope_shape.

Record UserKey := mkUserKey { uk_scope : Scope; uk_key : str }.
Definition user_key_shape : shape UserKey := mkShape (segs "kv") 4
  (fun k => scope_vals (uk_scope k) ++ [vstr (uk_key k)])
  (fun vs => match vs with
   | [VSerde (SStr n); VSerde (SStr d); VSerde (SStr s); VSerde (SStr k)] =>
       Some (mkUserKey (mkScope n d s) k)
   | _ => None end).
#[export] Instance StoreKey_UserKey : StoreKey UserKey := generated user_key_shape.

(** [TableBuilder4]: the name set, the id not *)
Record Table := mkTable { tb_scope : Scope; tb_name : str }.
Definition table_shape : shape Table := mkShape (segs "table") 4
  (fun k => scope_vals (tb_scope k) ++ [vstr (tb_name k)])
  (fun vs => match vs with
   | [VSerde (SStr n); VSerde (SStr d); VSerde (SStr s); VSerde (SStr k)] =>
       Some (mkTable (mkScope n d s) k)
   | _ => None end).
#[export] Instance StoreKey_Table : StoreKey Table := generated table_shape.

Record Entity := mkEntity { en_table : Table; en_id : bytes }.
Definition entity_shape : shape Entity := mkShape (segs "table") 5
  (fun k => sh_vals table_shape (en_table k) ++ [vbytes (en_id k)])
  (fun vs => match vs with
   | [VSerde (SStr n); VSerde (SStr d); VSerde (SStr s); VSerde (SStr k); VSerde (SBytes i)] =>
       Some (mkEntity (mkTable (mkScope n d s) k) i)
   | _ => None end).
#[export] Instance StoreKey_Entity : StoreKey Entity := generated entity_shape.

Record Measurement := mkMeasurement { ms_scope : Scope; ms_name : str; ms_timestamp : Z }.
Definition measurement_shape : shape Measurement := mkShape (segs "measurement") 5
  (fun k => scope_vals (ms_scope k) ++ [vstr (ms_name k); vu64 (ms_timestamp k)])
  (fun vs => match vs with
   | [VSerde (SStr n); VSerde (SStr d); VSerde (SStr s); VSerde (SStr m); VSerde (SU64 t)] =>
       Some (mkMeasurement (mkScope n d s) m t)
   | _ => None end).
#[export] Instance StoreKey_Measurement : StoreKey Measurement := generated measurement_shape.

Record BlobId := mkBlobId { bi_scope : Scope; bi_hash : Hash }.
Definition blob_id_shape : shape BlobId := mkShape (segs "blob_id") 4
  (fun k => scope_vals (bi_scope k) ++ [VHash (bi_hash k)])
  (fun vs => match vs with
   | [VSerde (SStr n); VSerde (SStr d); VSerde (SStr s); VHash h] =>
       Some (mkBlobId (mkScope n d s) h)
   | _ => None end).
#[export] Instance StoreKey_BlobId : StoreKey BlobId := generated blob_id_shape.

Record BlobMeta := mkBlobMeta { bm_blob : BlobId; bm_path : str }.
Definition blob_meta_shape : shape BlobMeta := mkShape (segs "blob_meta") 5
  (fun k => sh_vals blob_id_shape (bm_blob k) ++ [vstr (bm_path k)])
  (fun vs => match vs with
   | [VSerde (SStr n); VSerde (SStr d); VSerde (SStr s); VHash h; VSerde (SStr p)] =>
       Some (mkBlobMeta (mkBlobId (mkScope n d s) h) p)
   | _ => None end).
#[export] Instance StoreKey_BlobMeta : StoreKey BlobMeta := generated blob_meta_shape.

Record Path := mkPath { pt_scope : Scope; pt_path : str }.
Definition path_shape : shape Path := mkShape (segs "path") 4
  (fun k => scope_vals (pt_scope k) ++ [vstr (pt_path k)])
  (fun vs => match vs with
   | [VSerde (SStr n); VSerde (SStr d); VSerde (SStr s); VSerde (SStr p)] =>
       Some (mkPath (mkScope n d s) p)
   | _ => None end).
#[export] Instance StoreKey_Path : StoreKey Path := generated path_shape.

Record SyncPoint := mkSyncPoint { sp_scope : Scope; sp_ts : Version; sp_epoch : Epoch; sp_id : NodeId }.
Definition sync_point_shape : shape SyncPoint := mkShape (segs "sync_point") 6
  (fun k => scope_vals (sp_scope k) ++ [vu64 (sp_ts k); vu64 (sp_epoch k); VArray (sp_id k)])
  (fun vs => match vs with
   | [VSerde (SStr n); VSerde (SStr d); VSerde (SStr s); VSerde (SU64 t); VSerde (SU64 e); VArray i] =>
       Some (mkSyncPoint (mkScope n d s) t e i)
   | _ => None end).
#[export] Instance StoreKey_SyncPoint : StoreKey SyncPoint := generated sync_point_shape.

Definition with_sp_id (s : Scope) (i : SyncPointId) : SyncPoint :=
  mkSyncPoint s (sid_version i) (sid_epoch i) (sid_node i).
Definition as_id (p : SyncPoint) : SyncPointId := (sp_epoch p, sp_ts p, sp_id p).

(** [range] of a builder with the fields [vals] set *)
Definition partial_range (name : string) (vals : list fval) : res key_error (bytes * bytes) :=
  e ← encode_steps (segs name) vals; range_of e.

Definition range_from_subject (sub : Subject) : res key_error (bytes * bytes) :=
  match sub with
  | SubjNamespace ns => partial_range "sync_point" [vstr ns]
  | SubjDatabase ns db => partial_range "sync_point" [vstr ns; vstr db]
  | SubjScope s => partial_range "sync_point" (scope_vals s)
  end.

(** ** Laws of the generated keys *)

Record shape_ok {K} (s : shape K) (valid : K -> Prop) : Prop := mkShapeOk {
  sho_of : forall k, sh_of s (sh_vals s k) = Some k;
  sho_count : forall k, length (sh_vals s k) = sh_count s;
  sho_typed : forall k, valid k -> vals_typed (sh_segs s) (sh_vals s k);
}.

Lemma generated_reads {K} (s : shape K) valid k e r :
  shape_ok s valid -> valid k -> encode_steps (sh_segs s) (sh_vals s k) = Ok e ->
  @decode_from K (generated s) (e ++ r) = (Ok k, r).
Proof.
  intros [Hof Hc Ht] Hk He. unfold generated, decode_from. kdec_run.
  rewrite <-(Hc k), (steps_read _ _ e r (Ht k Hk) He), Hof. done.
Qed.

Ltac shape_solve := cbn in *; unfold is_u64 in *; repeat split; try done; try lia.

(** Strings as Rust has them, and as a key can hold them. *)
Definition is_str (s : str) : Prop := utf8_valid s = true.
Definition nul_free (s : str) : Prop := x00 ∉ s.

Definition scope_valid (s : Scope) : Prop :=
  is_str (namespace s) /\ is_str (database s) /\ is_str (schema s).
Definition scope_nul_free (s : Scope) : Prop :=
  nul_free (namespace s) /\ nul_free (database s) /\ nul_free (schema s).

Definition sync_point_valid (p : SyncPoint) : Prop :=
  scope_valid (sp_scope p) /\ is_u64 (sp_ts p) /\ is_u64 (sp_epoch p) /\ length (sp_id p) = 16%nat.

Lemma sync_point_shape_ok : shape_ok sync_point_shape sync_point_valid.
Proof.
  split; [by intros [[] ? ? ?]|done|]. intros [[n d s] t e i] ((?&?&?)&?&?&?). shape_solve.
Qed.

Lemma scope_shape_ok : shape_ok scope_shape scope_valid.
Proof. split; [by intros []|done|]. intros [n d s] (?&?&?). shape_solve. Qed.

Lemma user_key_shape_ok :
  shape_ok user_key_shape (fun k => scope_valid (uk_scope k) /\ is_str (uk_key k)).
Proof. split; [by intros [[] ?]|done|]. intros [[n d s] k] ((?&?&?)&?). shape_solve. Qed.

Lemma entity_shape_ok :
  shape_ok entity_shape (fun k => scope_valid (tb_scope (en_table k)) /\ is_str (tb_name (en_table k))
    /\ Z.of_nat (length (en_id k)) < 2 ^ 64).
Proof.
  split; [by intros [[[] ?] ?]|done|]. intros [[[n d s] k] i] ((?&?&?)&?&?). shape_solve.
Qed.

Lemma measurement_shape_ok :
  shape_ok measurement_shape (fun k => scope_valid (ms_scope k) /\ is_str (ms_name k)
    /\ is_u64 (ms_timestamp k)).
Proof. split; [by intros [[] ? ?]|done|]. intros [[n d s] k t] ((?&?&?)&?&?). shape_solve. Qed.

(** ** The schema's keys told apart *)

Lemma all2b_refl {A} (f : A -> A -> bool) l :
  Forall (fun x => f x x = true) l -> all2b (map f l) l = true.
Proof. induction 1; cbn; [done|]. apply andb_true_iff. done. Qed.

Lemma sty_eqb_refl t : sty_eqb t t = true.
Proof.
  pattern t; apply sty_ind'; clear t;
    [intros t|intros t IH|intros t IH|intros t IH|intros ts IH|intros ts IH
    |intros k v IHk IHv|intros ts IH|intros vs IH]; cbn [sty_eqb]; try done.
  - by destruct t.
  - by apply all2b_refl.
  - by apply all2b_refl.
  - by rewrite IHk, IHv.
  - by apply all2b_refl.
  - apply all2b_refl. eapply Forall_impl; [exact IH|]. intros [sh l] Hl. cbn.
    rewrite all2b_refl by done. by destruct sh.
Qed.

Definition schema_separated (term : sty) : bool :=
  forallb (fun m => forallb (fun n => forallb (fun m' =>
    separated (kcode (km_segments m)) n (kcode (km_segments m'))) (models term))
    (seq 0 (S (length (km_fields m))))) (models term).

Lemma schema_is_separated term : schema_separated term = true.
Proof.
  pose proof (sty_eqb_refl term) as E. cbv -[sty_eqb].
  repeat (rewrite E || change (sty_eqb TStr TStr) with true || change (sty_eqb TU64 TU64) with true
    || change (sty_eqb TBytes TBytes) with true || change (sty_eqb TStr TBytes) with false).
  reflexivity.
Qed.

(** ** Properties *)

(** Every generated key reads back: decoding the encoded key with [decode_exact]
    gives the key, and one or more bytes after it are reported as trailing
    instead of being ignored. *)
Theorem generated_key_roundtrip {K} (s : shape K) (valid : K -> Prop) (k : K) (e : bytes)
    (b : byte) (r : bytes)
    (Hs : shape_ok s valid) (Hk : valid k) (He : @encode K (generated s) k = Ok e) :
  @decode_exact K (generated s) e = Ok k
  /\ @decode_exact K (generated s) (e ++ b :: r) = Err (TrailingBytes (S (length r))).
Proof.
  unfold decode_exact. split.
  - rewrite <-(app_nil_r e) at 1. by rewrite (generated_reads s valid k).
  - by rewrite (generated_reads s valid k).
Qed.

Definition sample_scope : Scope := mkScope (lit "acme") (lit "main") (lit "p").
Definition sample_sp : SyncPoint := mkSyncPoint sample_scope 7 2 (repeat x05 16).

Lemma sample_sp_valid : sync_point_valid sample_sp.
Proof. repeat split; cbn; lia. Qed.

Lemma generated_key_roundtrip_witness :
  exists e, encode sample_sp = Ok e /\ decode_exact e = Ok sample_sp
  /\ @decode_exact SyncPoint _ (e ++ [x00]) = Err (TrailingBytes 1).
Proof.
  destruct (encode sample_sp) as [e|] eqn:E; [|vm_compute in E; discriminate].
  exists e. split; [done|].
  apply (generated_key_roundtrip sync_point_shape sync_point_valid sample_sp e x00 []);
    [apply sync_point_shape_ok|apply sample_sp_valid|exact E].
Defined.

Lemma models_separated term m m' n :
  m ∈ models term -> m' ∈ models term -> (n <= length (km_fields m))%nat ->
  separated (kcode (km_segments m)) n (kcode (km_segments m')) = true.
Proof.
  intros Hm Hm' Hn. pose proof (schema_is_separated term) as H. unfold schema_separated in H.
  rewrite forallb_forall in H. specialize (H m ltac:(by apply list_elem_of_In)).
  rewrite forallb_forall in H. specialize (H n ltac:(apply in_seq; lia)).
  rewrite forallb_forall in H. apply H. by apply list_elem_of_In.
Qed.

Lemma models_wf term m : m ∈ models term -> model_wf m.
Proof.
  intros Hm. unfold models in Hm.
  destruct (expand aliases (schema_keys term)) as [ms|] eqn:E; [|by apply elem_of_nil in Hm].
  unfold expand in E. cbn [has_dup aliases map fst] in E.
  destruct (bool_decide _); [done|]. apply res_bind_ok in E as (? & _ & E). apply mapM_res_ok in E.
  apply list_elem_of_lookup in Hm as [i Hi].
  destruct (Forall2_lookup_r _ _ _ _ _ E Hi) as (key & _ & Hk).
  unfold expand_model in Hk. apply res_bind_ok in Hk as (sg & _ & Hk).
  apply res_bind_ok in Hk as (fs & Hf & Hk). apply Ok_inj in Hk as <-. exact Hf.
Qed.

Lemma kfields_count flat : kfields (kcode flat) = length (List.filter is_field flat).
Proof.
  induction flat as [|[l|n k] flat IH]; cbn; [done| |by rewrite IH].
  rewrite <-IH. induction l; cbn; done.
Qed.

Lemma typed_length flat vs : vals_typed flat vs -> (length vs <= length (List.filter is_field flat))%nat.
Proof.
  revert vs; induction flat as [|[l|n k] flat IH]; intros vs; cbn.
  - destruct vs; cbn; [lia|done].
  - apply IH.
  - destruct vs; cbn; [lia|]. intros [_ H]. apply IH in H. lia.
Qed.

(** C32. Scans of the whole schema: a scan of the range of any key with any number of
    leading fields set returns, among the encoded keys of every kind the
    store holds, exactly the ones that extend it: the same literals, and the
    same values in the fields that are set.  No key of another kind, scope or
    table is ever returned by accident. *)
Theorem schema_scan_exact (term : sty) (m m' : KeyModel) (vs ws : list fval) (e f : bytes)
    (Hm : m ∈ models term) (Hm' : m' ∈ models term)
    (Hv : vals_typed (km_segments m) vs) (Hw : vals_typed (km_segments m') ws)
    (Hl : length ws = length (km_fields m'))
    (He : encode_steps (km_segments m) vs = Ok e)
    (Hf : encode_steps (km_segments m') ws = Ok f) :
  in_range_opt (prefix_to_range e) f = true
  <-> covers (kcode (km_segments m)) vs (kcode (km_segments m')) ws.
Proof.
  rewrite prefix_range_spec. rewrite encode_steps_kcode in He, Hf.
  pose proof (models_wf term m Hm) as Hc%collect_fields_count.
  pose proof (models_wf term m' Hm') as Hc'%collect_fields_count.
  apply scan_exact; try done.
  - apply (models_separated term); [done..|]. rewrite Hc. by apply typed_length.
  - by apply vals_typed_kcode.
  - by apply vals_typed_kcode.
  - by rewrite kfields_count, Hl.
Qed.

Definition model_at (i : nat) : KeyModel := default (mkKeyModel "" [] []) (models TUnit !! i).

Lemma schema_scan_exact_witness :
  exists e f, encode_steps (km_segments (model_at 4)) (scope_vals sample_scope) = Ok e
    /\ encode_steps (km_segments (model_at 6)) (scope_vals sample_scope ++ [vstr (lit "f")]) = Ok f
    /\ (in_range_opt (prefix_to_range e) f = true
        <-> covers (kcode (km_segments (model_at 4))) (scope_vals sample_scope)
              (kcode (km_segments (model_at 6))) (scope_vals sample_scope ++ [vstr (lit "f")])).
Proof.
  do 2 eexists. split; [vm_compute; reflexivity|split; [vm_compute; reflexivity|]].
  apply (schema_scan_exact TUnit (model_at 4) (model_at 6)).
  - apply list_elem_of_lookup. exists 4%nat. reflexivity.
  - apply list_elem_of_lookup. exists 6%nat. reflexivity.
  - vm_compute. done.
  - vm_compute. done.
  - reflexivity.
  - vm_compute. reflexivity.
  - vm_compute. reflexivity.
Defined.

(** ** Sync points of a subject *)

Definition sync_point_kcode : list kseg := Eval vm_compute in kcode (segs "sync_point").

Lemma sync_point_subject_covers sub sp vs :
  vs = match sub with
       | SubjNamespace ns => [vstr ns]
       | SubjDatabase ns db => [vstr ns; vstr db]
       | SubjScope s => scope_vals s
       end ->
  covers (kcode (segs "sync_point")) vs (kcode (segs "sync_point")) (sh_vals sync_point_shape sp)
  <-> subject_contains sub (sp_scope sp) = true.
Proof.
  destruct sp as [[n d s] t e i]. change (kcode (segs "sync_point")) with sync_point_kcode.
  destruct sub as [ns|ns db|[n' d' s']]; intros ->; cbn; unfold vstr;
    rewrite ?andb_true_iff, ?bool_decide_eq_true; naive_solver.
Qed.

(** The position of the sync-point model in the schema. *)
Lemma sync_point_model term : exists m, m ∈ models term /\ km_segments m = segs "sync_point"
  /\ length (km_fields m) = 6%nat.
Proof.
  eexists. split; [apply list_elem_of_lookup; exists 7%nat; reflexivity|]. split; reflexivity.
Qed.

Definition subject_vals (sub : Subject) : list fval :=
  match sub with
  | SubjNamespace ns => [vstr ns]
  | SubjDatabase ns db => [vstr ns; vstr db]
  | SubjScope s => scope_vals s
  end.
Definition subject_valid (sub : Subject) : Prop :=
  match sub with
  | SubjNamespace ns => is_str ns
  | SubjDatabase ns db => is_str ns /\ is_str db
  | SubjScope s => scope_valid s
  end.

Lemma range_from_subject_eq sub :
  range_from_subject sub = (e ← encode_steps (segs "sync_point") (subject_vals sub); range_of e).
Proof. by destruct sub. Qed.

Lemma subject_vals_typed sub : subject_valid sub -> vals_typed (segs "sync_point") (subject_vals sub).
Proof. destruct sub as [ns|ns db|[n d s]]; cbn; [|intros [? ?]|intros (?&?&?)]; shape_solve. Qed.

(** The range [SyncPoint::range_from_subject] builds for a subject holds, of all
    sync-point keys, exactly those of the scopes the subject contains. *)
Theorem subject_range_exact (sub : Subject) (sp : SyncPoint) (lo hi f : bytes)
    (Hs : subject_valid sub) (Hsp : sync_point_valid sp)
    (Hr : range_from_subject sub = Ok (lo, hi)) (Hf : encode sp = Ok f) :
  ble_b lo f && blt_b f hi = subject_contains sub (sp_scope sp).
Proof.
  rewrite range_from_subject_eq in Hr. apply res_bind_ok in Hr as (e & He & Hr).
  rewrite (range_of_spec e lo hi f Hr). apply eq_true_iff_eq.
  rewrite <-(sync_point_subject_covers sub sp (subject_vals sub)) by (by destruct sub).
  unfold encode, encode_into, StoreKey_SyncPoint, generated in Hf. cbn [sh_segs sync_point_shape] in Hf.
  rewrite encode_steps_kcode in He, Hf.
  apply scan_exact; try done.
  - destruct (sync_point_model TUnit) as (m & Hm & Es & El). rewrite <-Es.
    apply (models_separated TUnit); [done..|]. rewrite El. destruct sub; cbn; lia.
  - by apply vals_typed_kcode, subject_vals_typed.
  - apply vals_typed_kcode. by apply (sho_typed _ _ sync_point_shape_ok).
Qed.

Lemma subject_range_exact_witness :
  exists lo hi f, range_from_subject (SubjDatabase (lit "acme") (lit "main")) = Ok (lo, hi)
    /\ encode sample_sp = Ok f
    /\ ble_b lo f && blt_b f hi
       = subject_contains (SubjDatabase (lit "acme") (lit "main")) (sp_scope sample_sp).
Proof.
  do 3 eexists. split; [vm_compute; reflexivity|split; [vm_compute; reflexivity|]].
  apply (subject_range_exact (SubjDatabase (lit "acme") (lit "main")) sample_sp);
    [by split|apply sample_sp_valid|vm_compute; reflexivity|vm_compute; reflexivity].
Defined.

(** ** Scopes as text *)

Lemma split_once_app sep a b : sep ∉ a -> split_once sep (a ++ sep :: b) = Some (a, b).
Proof.
  induction a as [|x a IH]; cbn; unfold byte_eqb.
  - intros _. by rewrite bool_decide_eq_true_2.
  - intros Hn. rewrite bool_decide_eq_false_2 by set_solver. rewrite IH by set_solver. done.
Qed.

(** [Scope::parse] reads back what [Display] prints, for scopes whose namespace
    and database hold no slash; but a value with two segments, [ns/db], is
    not read as that namespace and database: the database becomes the whole
    value. *)
Theorem scope_parse_display (s : Scope)
    (Hn : slash ∉ namespace s) (Hd : slash ∉ database s) :
  scope_parse (scope_display s) = s
  /\ (forall ns db, slash ∉ ns -> slash ∉ db ->
      database (scope_parse (ns ++ [slash] ++ db)) = ns ++ [slash] ++ db).
Proof.
  split.
  - unfold scope_parse, scope_display. cbn [app]. rewrite split_once_app by done. cbn [from_option id].
    rewrite split_once_app by done. by destruct s.
  - intros ns db Hns Hdb. unfold scope_parse. cbn [app]. rewrite split_once_app by done. cbn [from_option id].
    assert (split_once slash db = None) as ->; [|done].
    clear -Hdb. induction db as [|b db IH]; [done|]. cbn. unfold byte_eqb.
    rewrite bool_decide_eq_false_2 by set_solver. rewrite IH by set_solver. done.
Qed.

Lemma scope_parse_display_witness :
  scope_parse (lit "acme/main/p") = sample_scope
  /\ (forall ns db, slash ∉ ns -> slash ∉ db ->
      database (scope_parse (ns ++ [slash] ++ db)) = ns ++ [slash] ++ db).
Proof.
  apply (scope_parse_display sample_scope); apply (bool_decide_unpack _); vm_compute; done.
Defined.
