(* ===== verification/Kv.v ===== *)
(** * The ordered key-value store the database runs on

    The store keeps its rows in an embedded ordered key-value engine and its
    values in a binary serialisation; both are libraries the repository
    calls.  They enter the development as the classes [Kv] and [Postcard],
    whose laws state their documented behaviour: reads see the transaction's
    own writes, a range or prefix iterator yields the rows whose key lies in
    it, once each, in ascending byte order, and a value reads back from its
    serialised form.  Finite maps with sorted enumeration are an instance. *)

From S2P Require Import Prelude Bytes.
From Stdlib Require Import ZArith Lia Strings.Byte Sorting.Sorted.
From stdpp Require Import sorting gmap countable.
From stdpp Require Import base list option sets.

Local Open Scope Z_scope.

(** ** The interface *)

(** The operations of an optimistic write transaction on its keyspace; [kv_range]
    is [lower..upper], unbounded above for [None]. *)
Class Kv (S : Type) := {
  kv_get : S -> bytes -> option bytes;
  kv_insert : S -> bytes -> bytes -> S;
  kv_remove : S -> bytes -> S;
  kv_range : S -> bytes -> option bytes -> list (bytes * bytes);
  kv_prefix : S -> bytes -> list (bytes * bytes);
}.

(** [take]: remove, returning what was there *)
Definition kv_take {S} `{Kv S} (s : S) (k : bytes) : option bytes * S :=
  (kv_get s k, kv_remove s k).

Definition below (upper : option bytes) (k : bytes) : Prop :=
  match upper with Some u => blt k u | None => True end.

Class KvLaws (S : Type) `{Kv S} := {
  kv_get_insert : forall s k v k',
    kv_get (kv_insert s k v) k' = if decide (k = k') then Some v else kv_get s k';
  kv_get_remove : forall s k k',
    kv_get (kv_remove s k) k' = if decide (k = k') then None else kv_get s k';
  kv_range_sorted : forall s lo hi, StronglySorted blt (map fst (kv_range s lo hi));
  kv_range_elem : forall s lo hi k v,
    (k, v) ∈ kv_range s lo hi <-> kv_get s k = Some v /\ ble lo k /\ below hi k;
  kv_prefix_sorted : forall s p, StronglySorted blt (map fst (kv_prefix s p));
  kv_prefix_elem : forall s p k v,
    (k, v) ∈ kv_prefix s p <-> kv_get s k = Some v /\ starts_with p k = true;
}.

(** [to_allocvec] and [from_bytes] of the serialisation library *)
Class Postcard (A : Type) := {
  to_allocvec : A -> option bytes;
  from_bytes : bytes -> option A;
}.
Class PostcardLaws (A : Type) `{Postcard A} := {
  from_to : forall a b, to_allocvec a = Some b -> from_bytes b = Some a;
}.

(** ** Sorted lists of rows *)

Lemma sorted_head_lt {V} (r : bytes * V) l :
  StronglySorted blt (map fst (r :: l)) -> forall x, x ∈ l -> blt r.1 x.1.
Proof.
  cbn. intros [_ H]%StronglySorted_inv x Hx. rewrite Forall_forall in H.
  apply H. apply list_elem_of_fmap. eauto.
Qed.

(** A strictly sorted list is determined by its members. *)
Lemma sorted_ext {V} (l k : list (bytes * V)) :
  StronglySorted blt (map fst l) -> StronglySorted blt (map fst k) ->
  (forall x, x ∈ l <-> x ∈ k) -> l = k.
Proof.
  revert k; induction l as [|a l IH]; intros [|b k] Hl Hk He.
  - done.
  - exfalso. assert (b ∈ @nil (bytes * V)) as Hb by (apply He; left). by apply elem_of_nil in Hb.
  - exfalso. assert (a ∈ @nil (bytes * V)) as Ha by (apply He; left). by apply elem_of_nil in Ha.
  - pose proof (sorted_head_lt _ _ Hl) as Ha. pose proof (sorted_head_lt _ _ Hk) as Hb.
    assert (a = b) as ->.
    { assert (a ∈ b :: k) as [->|Hak]%elem_of_cons by (apply He; left); [done|].
      assert (b ∈ a :: l) as [->|Hbl]%elem_of_cons by (apply He; left); [done|].
      exfalso. apply (blt_irrefl a.1). eapply blt_trans; [by apply Ha|by apply Hb]. }
    f_equal. apply IH.
    + by apply StronglySorted_inv in Hl as [? _].
    + by apply StronglySorted_inv in Hk as [? _].
    + intros x. split; intros Hx.
      * assert (x ∈ b :: k) as [->|?]%elem_of_cons by (apply He; by right); [|done].
        exfalso. by apply (blt_irrefl b.1), Ha.
      * assert (x ∈ b :: l) as [->|?]%elem_of_cons by (apply He; by right); [|done].
        exfalso. by apply (blt_irrefl b.1), Hb.
Qed.

Lemma sorted_filter {V} (f : bytes * V -> bool) l :
  StronglySorted blt (map fst l) -> StronglySorted blt (map fst (List.filter f l)).
Proof.
  induction l as [|a l IH]; [done|]. intros Hl. pose proof (sorted_head_lt _ _ Hl) as Ha.
  apply StronglySorted_inv in Hl as [Hl _]. cbn. destruct (f a); [|auto]. cbn. constructor; [auto|].
  apply Forall_forall. intros k (x & -> & Hx)%list_elem_of_fmap. apply Ha.
  apply list_elem_of_In, filter_In in Hx as [Hx _]. by apply list_elem_of_In.
Qed.

Lemma elem_of_filterb {A} (f : A -> bool) l x : x ∈ List.filter f l <-> x ∈ l /\ f x = true.
Proof. by rewrite !list_elem_of_In, filter_In. Qed.

(** ** Laws derived from the interface *)

Section Derived.
Context {S : Type} `{KvLaws S}.

Lemma kv_prefix_get s p k v : (k, v) ∈ kv_prefix s p -> kv_get s k = Some v.
Proof. by intros [? _]%kv_prefix_elem. Qed.

(** Two stores with the same rows give the same iterators. *)
Definition kv_eq (s t : S) : Prop := forall k, kv_get s k = kv_get t k.

Lemma kv_prefix_ext s t p : kv_eq s t -> kv_prefix s p = kv_prefix t p.
Proof.
  intros E. apply sorted_ext; try apply kv_prefix_sorted.
  intros [k v]. by rewrite !kv_prefix_elem, (E k).
Qed.

Lemma kv_range_ext s t lo hi : kv_eq s t -> kv_range s lo hi = kv_range t lo hi.
Proof.
  intros E. apply sorted_ext; try apply kv_range_sorted.
  intros [k v]. by rewrite !kv_range_elem, (E k).
Qed.

Lemma kv_get_insert_eq s k v : kv_get (kv_insert s k v) k = Some v.
Proof. by rewrite kv_get_insert, decide_True. Qed.
Lemma kv_get_insert_ne s k v k' : k <> k' -> kv_get (kv_insert s k v) k' = kv_get s k'.
Proof. intros. by rewrite kv_get_insert, decide_False. Qed.
Lemma kv_get_remove_eq s k : kv_get (kv_remove s k) k = None.
Proof. by rewrite kv_get_remove, decide_True. Qed.
Lemma kv_get_remove_ne s k k' : k <> k' -> kv_get (kv_remove s k) k' = kv_get s k'.
Proof. intros. by rewrite kv_get_remove, decide_False. Qed.

End Derived.

#[export] Instance kv_eq_equiv {S} `{KvLaws S} : Equivalence (@kv_eq S _).
Proof. split; [done|intros s t E k; by rewrite E|intros s t u E F k; by rewrite E, F]. Qed.

#[export] Instance kv_insert_proper {S} `{KvLaws S} : Proper (kv_eq ==> eq ==> eq ==> kv_eq) kv_insert.
Proof. intros s t E k ? <- v ? <- k'. rewrite !kv_get_insert. by rewrite (E k'). Qed.

#[export] Instance kv_remove_proper {S} `{KvLaws S} : Proper (kv_eq ==> eq ==> kv_eq) kv_remove.
Proof. intros s t E k ? <- k'. rewrite !kv_get_remove. by rewrite (E k'). Qed.

(** ** Finite maps are such a store *)

Module MapKv.

Abbreviation store := (gmap bytes bytes).

Definition row_le (a b : bytes * bytes) : Prop := ble a.1 b.1.
#[export] Instance row_le_dec : RelDecision row_le.
Proof. intros a b. unfold row_le. apply _. Defined.

Definition rows (s : store) : list (bytes * bytes) := merge_sort row_le (map_to_list s).

#[export] Instance kv : Kv store := {
  kv_get s k := s !! k;
  kv_insert s k v := <[k := v]> s;
  kv_remove s k := delete k s;
  kv_range s lo hi :=
    List.filter (fun r => ble_b lo r.1 && match hi with Some u => blt_b r.1 u | None => true end) (rows s);
  kv_prefix s p := List.filter (fun r => starts_with p r.1) (rows s);
}.

#[export] Instance row_le_total : Total row_le.
Proof. intros a b. unfold row_le. destruct (blt_total a.1 b.1) as [|[->|]]; auto with myrmic. Qed.
#[export] Instance row_le_trans : Transitive row_le.
Proof. intros a b c. apply ble_trans. Qed.

Lemma rows_elem s k v : (k, v) ∈ rows s <-> s !! k = Some v.
Proof. unfold rows. rewrite merge_sort_Permutation. apply elem_of_map_to_list. Qed.

Lemma rows_nodup s : NoDup (map fst (rows s)).
Proof.
  unfold rows. rewrite merge_sort_Permutation. apply NoDup_fst_map_to_list.
Qed.

Lemma rows_sorted s : StronglySorted blt (map fst (rows s)).
Proof.
  pose proof (rows_nodup s) as Hnd. unfold rows in *.
  pose proof (StronglySorted_merge_sort row_le (map_to_list s)) as Hs.
  induction Hs as [|a l Hs IH Hall]; [constructor|]. cbn in *.
  apply NoDup_cons in Hnd as [Hn Hnd]. constructor; [auto|].
  rewrite Forall_forall in Hall. apply Forall_forall. intros k (x & -> & Hx)%list_elem_of_fmap.
  specialize (Hall x Hx). unfold row_le in Hall. apply ble_cases in Hall as [?|E]; [done|].
  exfalso. apply Hn. rewrite E. apply list_elem_of_fmap. eauto.
Qed.

#[export] Instance kv_laws : KvLaws store.
Proof.
  split.
  - intros s k v k'. cbn [kv_get kv_insert kv]. destruct (decide (k = k')) as [->|]; [apply lookup_insert_eq|].
    by apply lookup_insert_ne.
  - intros s k k'. cbn [kv_get kv_remove kv]. destruct (decide (k = k')) as [->|]; [apply lookup_delete_eq|].
    by apply lookup_delete_ne.
  - intros s lo hi. apply sorted_filter, rows_sorted.
  - intros s lo hi k v. cbn [kv_get kv_range kv]. rewrite elem_of_filterb, rows_elem. cbn [fst].
    rewrite andb_true_iff, ble_b_spec. destruct hi; cbn [below]; [by rewrite blt_b_spec|tauto].
  - intros s p. apply sorted_filter, rows_sorted.
  - intros s p k v. cbn [kv_get kv_prefix kv]. by rewrite elem_of_filterb, rows_elem.
Qed.

End MapKv.
