(* ===== verification/Rows.v ===== *)
(** * Versioned rows

    The low and middle layers of [src/swarm/db/src/store/fjall/tx.rs]: the
    layout of a data row (user key, inverted version, kind), the version
    index, reads at a version, the scans that yield the newest version of
    every key, and the writes.  The store is any [Kv]. *)

From S2P Require Import Prelude Bytes Skey SkeyRoundtrip SkeyOrder Keys KeyScan Domain Kv.
From Stdlib Require Import ZArith Lia Strings.Byte Sorting.Sorted.
From stdpp Require Import base list option strings sets.

Local Open Scope Z_scope.

(** Errors of the store's operations, by cause *)
Inductive tx_error :=
  | ErrKey (e : key_error)
  | ErrKindTooShort
  | ErrTsTooShort
  | ErrIndexTooShort
  | ErrMissingRow
  | ErrPostcard
  | ErrNoBlob
  | ErrConflict
  | ErrUnavailable
  | ErrStore
  | ErrDuplicateHead
  | ErrOutsideSubject
  | ErrKeptConflicting
  | ErrOldDatabase
  | ErrPagesLeft.

Definition lift {A} (r : res key_error A) : res tx_error A := map_err ErrKey r.

(** ** Row keys *)

Inductive KeyKind := Deletion | Insertion.

#[export] Instance KeyKind_eq_dec : EqDecision KeyKind.
Proof. solve_decision. Defined.

Definition kind_tag (k : KeyKind) : Z := match k with Deletion => 5 | Insertion => 10 end.

(** The derived [StoreKey] of [KeyKind], with its explicit discriminants *)
#[export] Instance StoreKey_KeyKind : StoreKey KeyKind := {
  encode_into k := map_err KeySer (Enc.serialize_u32 (kind_tag k));
  decode_from :=
    id ← kdec_of Dec.deserialize_u32;
    if id =? 5 then mret Deletion else if id =? 10 then mret Insertion else kerr (UnknownId id);
}.

Definition encode_row (user_key : bytes) (ts : Version) (kind : KeyKind) : bytes :=
  user_key ++ be 8 (u64_max - ts) ++ be 4 (kind_tag kind).

Definition VERSION_INDEX_TAG : byte := x5e.
Definition VERSION_INDEX_FLAG : bytes := lit "!vidx1".

Definition version_index_key (ts : Version) (data_key : bytes) : bytes :=
  VERSION_INDEX_TAG :: be 8 ts ++ data_key.
Definition version_index_prefix (ts : Version) (scope_raw : bytes) : bytes :=
  version_index_key ts scope_raw.
Definition version_index_data_key (index_key : bytes) : res tx_error bytes :=
  if (9 <=? length index_key)%nat then Ok (drop 9 index_key) else Err ErrIndexTooShort.

(** [usize::checked_sub] then [split_at] *)
Definition split_end (n : nat) (e : tx_error) (data : bytes) : res tx_error (bytes * bytes) :=
  if (n <=? length data)%nat
  then Ok (take (length data - n) data, drop (length data - n) data) else Err e.

Definition decode_u64 (b : bytes) : res tx_error Z :=
  match Dec.deserialize_u64 b with (Ok z, _) => Ok z | (Err e, _) => Err (ErrKey (KeyDe e)) end.

Definition decode (data : bytes) : res tx_error (bytes * Version * KeyKind) :=
  p ← split_end 4 ErrKindTooShort data;
  kind ← lift (@decode_from_bytes KeyKind _ p.2);
  q ← split_end 8 ErrTsTooShort p.1;
  ts ← decode_u64 q.2;
  Ok (q.1, u64_max - ts, kind).

(** ** Reads and writes *)

Section Rows.
Context {S : Type} `{Kv S}.
Implicit Types s : S.

(** The loop of [get_from_raw] over the rows under the key. *)
Fixpoint first_version (key : bytes) (ts : Version) (rows : list (bytes * bytes))
  : res tx_error (option (bytes * bytes)) :=
  match rows with
  | [] => Ok None
  | (k, v) :: rows =>
      d ← decode k;
      let '(user_key, uk_ts, kind) := d in
      if negb (bool_decide (user_key = key)) then first_version key ts rows
      else if ts <? uk_ts then first_version key ts rows
      else match kind with
           | Deletion => Ok None
           | Insertion => Ok (Some (user_key, v))
           end
  end.

Definition get_from_raw s (key : bytes) (ts : Version) : res tx_error (option (bytes * bytes)) :=
  first_version key ts (kv_prefix s key).

Definition insert_at_raw s (key value : bytes) (ts : Version) : S :=
  let key := encode_row key ts Insertion in
  kv_insert (kv_insert s (version_index_key ts key) []) key value.

Definition put_at_raw s (key value : bytes) (ts : Version) : S :=
  let dkey := encode_row key ts Deletion in
  let s := (kv_take s dkey).2 in
  let s := kv_remove s (version_index_key ts dkey) in
  insert_at_raw s key value ts.

Definition erase_at_raw s (key : bytes) (ts : Version) : S :=
  let key := encode_row key ts Deletion in
  kv_insert (kv_insert s (version_index_key ts key) []) key [].

Definition put_if_absent_raw s (key value : bytes) (ts : Version) : res tx_error (bool * S) :=
  r ← get_from_raw s key ts;
  match r with
  | Some _ => Ok (false, s)
  | None => Ok (true, put_at_raw s key value ts)
  end.

(** [filter_map] of the forward scans: the first row of each run of one user
    key decides it.  Errors are yielded in place. *)
Fixpoint latest (prev : option bytes) (rows : list (bytes * bytes))
  : list (res tx_error (bytes * bytes)) :=
  match rows with
  | [] => []
  | (k, v) :: rows =>
      match decode k with
      | Err e => Err e :: latest prev rows
      | Ok (user_key, _, kind) =>
          if bool_decide (prev = Some user_key) then latest prev rows
          else match kind with
               | Deletion => latest (Some user_key) rows
               | Insertion => Ok (user_key, v) :: latest (Some user_key) rows
               end
      end
  end.

(** [from_fn] of the reverse scans: the last row seen of each run decides it,
    and is yielded when the run ends. *)
Fixpoint latest_rev (pending : option (bytes * bytes * KeyKind)) (rows : list (bytes * bytes))
  : list (res tx_error (bytes * bytes)) :=
  match rows with
  | [] => match pending with Some (k, v, Insertion) => [Ok (k, v)] | _ => [] end
  | (k, v) :: rows =>
      match decode k with
      | Err e => Err e :: latest_rev pending rows
      | Ok (user_key, _, kind) =>
          if bool_decide (fst <$> (fst <$> pending) = Some user_key)
          then latest_rev (Some (user_key, v, kind)) rows
          else match pending with
               | Some (fk, fv, Insertion) =>
                   Ok (fk, fv) :: latest_rev (Some (user_key, v, kind)) rows
               | _ => latest_rev (Some (user_key, v, kind)) rows
               end
      end
  end.

Definition prefix_latest s (key : bytes) : list (res tx_error bytes) :=
  map (fmap fst) (latest None (kv_prefix s key)).
Definition prefix_latest_untracked s (key : bytes) : list (res tx_error bytes) :=
  map (fmap fst) (latest None (kv_prefix s key)).
Definition range_latest s (lower upper : bytes) : list (res tx_error bytes) :=
  map (fmap fst) (latest None (kv_range s lower (Some upper))).
Definition range_latest_kv s (lower upper : bytes) : list (res tx_error (bytes * bytes)) :=
  latest None (kv_range s lower (Some upper)).
Definition range_latest_kv_untracked s (lower : bytes) (upper : option bytes)
  : list (res tx_error (bytes * bytes)) := latest None (kv_range s lower upper).
Definition range_latest_kv_untracked_rev s (lower : bytes) (upper : option bytes)
  : list (res tx_error (bytes * bytes)) := latest_rev None (rev (kv_range s lower upper)).
Definition range_latest_kv_rev s (lower upper : bytes) : list (res tx_error (bytes * bytes)) :=
  latest_rev None (rev (kv_range s lower (Some upper))).

(** [delete_version_rows]: collect the index keys, then delete what they point
    at and them; a key too short to point anywhere aborts the loop. *)
Fixpoint delete_index_keys s (index_keys : list bytes) : res tx_error unit * S :=
  match index_keys with
  | [] => (Ok tt, s)
  | ikey :: rest =>
      match version_index_data_key ikey with
      | Err e => (Err e, s)
      | Ok data_key => delete_index_keys (kv_remove (kv_remove s data_key) ikey) rest
      end
  end.

Definition delete_version_rows s (scope_raw : bytes) (ts : Version) : res tx_error nat * S :=
  let index_keys := map fst (kv_prefix s (version_index_prefix ts scope_raw)) in
  match delete_index_keys s index_keys with
  | (Ok _, s) => (Ok (length index_keys), s)
  | (Err e, s) => (Err e, s)
  end.

(** The loop of [changeset_for] over the index rows. *)
Fixpoint changeset_rows s (prev : option bytes) (index : list (bytes * bytes))
  : res tx_error (list (bytes * option bytes)) :=
  match index with
  | [] => Ok []
  | (ikey, _) :: rest =>
      data_key ← version_index_data_key ikey;
      d ← decode data_key;
      let '(user_key, _, kind) := d in
      if bool_decide (prev = Some user_key) then changeset_rows s prev rest
      else
        value ← match kind with
                | Insertion => v ← ok_or ErrMissingRow (kv_get s data_key); Ok (Some v)
                | Deletion => Ok None
                end;
        out ← changeset_rows s (Some user_key) rest;
        Ok ((user_key, value) :: out)
  end.

Definition changeset_at s (scope_raw : bytes) (ts : Version)
  : res tx_error (list (bytes * option bytes)) :=
  changeset_rows s None (kv_prefix s (version_index_prefix ts scope_raw)).

(** The entries of a replicated version, written at its timestamp. *)
Definition write_entry (ts : Version) s (e : bytes * option bytes) : S :=
  match e.2 with
  | Some value => insert_at_raw s e.1 value ts
  | None => erase_at_raw s e.1 ts
  end.
Definition write_entries s (ts : Version) (entries : list (bytes * option bytes)) : S :=
  fold_left (write_entry ts) entries s.

End Rows.
