(* ===== verification/RowsFacts.v ===== *)
(** * Reads, scans and the version index: what they guarantee

    The row codec, the order of the versions of a key, reads at a version
    against an abstract verdict per key and version, the forward and reverse
    scans, and the invariant of the version index. *)

From S2P Require Import Prelude Bytes Skey SkeyRoundtrip SkeyOrder Keys KeyScan Domain Kv Rows.
From Stdlib Require Import ZArith Lia Strings.Byte Sorting.Sorted.
From stdpp Require Import base list option strings sets.

Local Open Scope Z_scope.

(** ** The row codec *)

Lemma split_end_app n e a b : length b = n -> split_end n e (a ++ b) = Ok (a, b).
Proof.
  intros <-. unfold split_end. rewrite length_app.
  destruct (Nat.leb_spec (length b) (length a + length b)); [|lia].
  replace (length a + length b - length b)%nat with (length a) by lia.
  by rewrite take_app_length, drop_app_length.
Qed.

Lemma split_end_ok n e d a b : split_end n e d = Ok (a, b) -> d = a ++ b /\ length b = n.
Proof.
  unfold split_end. destruct (Nat.leb_spec n (length d)); [|done]. intros [= <- <-].
  split; [symmetry; apply take_drop|]. rewrite length_drop. lia.
Qed.

Lemma kind_tag_range k : 0 <= kind_tag k < 2 ^ 32.
Proof. destruct k; cbn; lia. Qed.

Lemma decode_kind k : @decode_from_bytes KeyKind _ (be 4 (kind_tag k)) = Ok k.
Proof. by destruct k. Qed.

Lemma decode_u64_be z : is_u64 z -> decode_u64 (be 8 z) = Ok z.
Proof.
  intros Hz. unfold decode_u64, Dec.deserialize_u64. rewrite <-(app_nil_r (be 8 z)).
  by rewrite read_uint_be.
Qed.

Lemma decode_encode_row k ts kind : is_u64 ts -> decode (encode_row k ts kind) = Ok (k, ts, kind).
Proof.
  intros Hts. unfold decode, encode_row. rewrite app_assoc.
  rewrite split_end_app by apply be_length. cbn [mbind res_bind fst snd].
  rewrite decode_kind. cbn [lift map_err mbind res_bind].
  rewrite split_end_app by apply be_length. cbn [mbind res_bind fst snd].
  rewrite decode_u64_be by (unfold is_u64, u64_max in *; lia). cbn [mbind res_bind].
  do 3 f_equal. lia.
Qed.

Lemma kind_of_bytes b k : length b = 4%nat -> @decode_from_bytes KeyKind _ b = Ok k -> b = be 4 (kind_tag k).
Proof.
  intros Hl. unfold decode_from_bytes. cbn [decode_from StoreKey_KeyKind]. kdec_run.
  unfold Dec.deserialize_u32, kdec_of. rewrite <-(be_of_be b) at 1. rewrite Hl.
  rewrite <-(app_nil_r (be 4 (of_be b))). pose proof (of_be_range b) as Hr. rewrite Hl in Hr.
  rewrite read_uint_be by (cbn in *; lia). cbn [map_err fst].
  assert (forall c, of_be b = c -> b = be 4 c) as Hb by (intros c <-; by rewrite <-Hl, be_of_be).
  destruct (Z.eqb_spec (of_be b) 5) as [E|]; [intros [= <-]; by apply Hb|].
  destruct (Z.eqb_spec (of_be b) 10) as [E|]; [intros [= <-]; by apply Hb|done].
Qed.

Lemma decode_u64_of b z : length b = 8%nat -> decode_u64 b = Ok z -> b = be 8 z /\ is_u64 z.
Proof.
  intros Hl. unfold decode_u64, Dec.deserialize_u64. rewrite <-(be_of_be b) at 1. rewrite Hl.
  rewrite <-(app_nil_r (be 8 (of_be b))). pose proof (of_be_range b) as Hr. rewrite Hl in Hr.
  rewrite read_uint_be by (cbn in *; lia). intros [= <-]. split; [by rewrite <-Hl, be_of_be|].
  exact Hr.
Qed.

Lemma decode_inv d k ts kind :
  decode d = Ok (k, ts, kind) -> d = encode_row k ts kind /\ is_u64 ts.
Proof.
  unfold decode. intros ([d1 kb] & H1%split_end_ok & H)%res_bind_ok.
  apply res_bind_ok in H as (kd & Hk & H). apply res_bind_ok in H as ([uk tb] & H2%split_end_ok & H).
  apply res_bind_ok in H as (z & Hz & E). apply Ok_inj in E. cbn [fst snd] in *. simplify_eq.
  destruct H1 as [-> Hlk], H2 as [-> Hlt].
  unfold lift in Hk. destruct (decode_from_bytes kb) eqn:Ek; [|done]. apply Ok_inj in Hk as ->.
  apply kind_of_bytes in Ek as ->; [|done]. apply decode_u64_of in Hz as [-> Hz]; [|done].
  unfold encode_row, is_u64, u64_max in *. split; [|lia]. rewrite <-app_assoc.
  do 3 f_equal. lia.
Qed.

Lemma encode_row_inj k ts kd k' ts' kd' :
  is_u64 ts -> is_u64 ts' -> encode_row k ts kd = encode_row k' ts' kd' ->
  k = k' /\ ts = ts' /\ kd = kd'.
Proof.
  intros H1 H2 E. pose proof (decode_encode_row k ts kd H1) as D.
  rewrite E, decode_encode_row in D by done. by simplify_eq.
Qed.

(** The versions of one key sort newest first, a deletion before an insertion
    of the same version. *)
Lemma row_order k ts kd ts' kd' :
  is_u64 ts -> is_u64 ts' ->
  lex (encode_row k ts kd) (encode_row k ts' kd')
  = cthen (ts' ?= ts) (kind_tag kd ?= kind_tag kd').
Proof.
  unfold is_u64. intros H1 H2. unfold encode_row. rewrite lex_app_same.
  rewrite lex_be_cthen by (cbn; unfold u64_max; lia).
  rewrite <-(app_nil_r (be 4 (kind_tag kd))), <-(app_nil_r (be 4 (kind_tag kd'))).
  rewrite lex_be_cthen by (pose proof (kind_tag_range kd); pose proof (kind_tag_range kd'); cbn in *; lia).
  assert ((u64_max - ts ?= u64_max - ts') = (ts' ?= ts)) as ->.
  { destruct (Z.compare_spec ts' ts), (Z.compare_spec (u64_max - ts) (u64_max - ts')); lia || done. }
  by destruct (ts' ?= ts), (kind_tag kd ?= kind_tag kd').
Qed.

Lemma starts_with_row k ts kd : starts_with k (encode_row k ts kd) = true.
Proof. apply starts_with_app. Qed.

(** ** Reads at a version *)

Section Reads.
Context {S : Type} `{KvLaws S}.
Implicit Types s : S.

(** What version [ts] says of a key: nothing, deleted, or a value.  A deletion
    row prevails over an insertion row of the same version. *)
Definition verdict s (k : bytes) (ts : Version) : option (option bytes) :=
  match kv_get s (encode_row k ts Deletion), kv_get s (encode_row k ts Insertion) with
  | Some _, _ => Some None
  | None, Some v => Some (Some v)
  | None, None => None
  end.

(** The newest version up to [ts] that says anything of the key is [t]. *)
Definition newest s (k : bytes) (ts t : Version) (o : option bytes) : Prop :=
  is_u64 t /\ t <= ts /\ verdict s k t = Some o
  /\ forall t', is_u64 t' -> t < t' <= ts -> verdict s k t' = None.

(** Every row under the prefix is a data row. *)
Definition decodable s (p : bytes) : Prop :=
  forall d v, kv_get s d = Some v -> starts_with p d = true -> exists x, decode d = Ok x.

Definition hit (key : bytes) (ts : Version) (r : bytes * bytes) : bool :=
  match decode r.1 with
  | Ok (uk, t, _) => bool_decide (uk = key) && (t <=? ts)
  | Err _ => false
  end.

Lemma first_version_find key ts l :
  Forall (fun r => exists x, decode r.1 = Ok x) l ->
  first_version key ts l =
  Ok match List.find (hit key ts) l with
     | Some (d, v) => match decode d with Ok (_, _, Insertion) => Some (key, v) | _ => None end
     | None => None
     end.
Proof.
  induction 1 as [|[d v] l [[[uk t] kd] Hd] _ IH]; cbn; [done|]. cbn in Hd.
  unfold hit at 1. cbn [fst]. rewrite Hd. cbn.
  destruct (bool_decide_reflect (uk = key)) as [->|]; cbn; [|done].
  destruct (Z.ltb_spec ts t), (Z.leb_spec t ts); try lia; [done|]. rewrite Hd. by destruct kd.
Qed.

Lemma find_first {V} (P : bytes * V -> bool) l r :
  StronglySorted blt (map fst l) -> List.find P l = Some r ->
  r ∈ l /\ P r = true /\ forall r', r' ∈ l -> P r' = true -> ble r.1 r'.1.
Proof.
  induction l as [|a l IH]; [done|]. intros Hs. pose proof (sorted_head_lt _ _ Hs) as Ha.
  apply StronglySorted_inv in Hs as [Hs _]. cbn. destruct (P a) eqn:E.
  - intros [= <-]. split; [left|split; [done|]]. intros r' [->|Hr]%elem_of_cons _; [apply ble_refl|].
    apply blt_ble. by apply Ha.
  - intros Hf. destruct (IH Hs Hf) as (Hin & Hp & Hmin). split; [by right|split; [done|]].
    intros r' [->|Hr]%elem_of_cons Hp'; [congruence|auto].
Qed.

Lemma hit_row key ts d v :
  hit key ts (d, v) = true <->
  exists t kd, is_u64 t /\ t <= ts /\ d = encode_row key t kd.
Proof.
  unfold hit. cbn [fst]. split.
  - destruct (decode d) as [[[uk t] kd]|] eqn:E; [|done].
    intros [->%bool_decide_eq_true Hle%Z.leb_le]%andb_true_iff.
    apply decode_inv in E as [-> Ht]. eauto 6.
  - intros (t & kd & Ht & Hle & ->). rewrite decode_encode_row by done.
    rewrite bool_decide_eq_true_2 by done. by apply Z.leb_le.
Qed.

Lemma kv_prefix_decodable s k : decodable s k -> Forall (fun r => exists x, decode r.1 = Ok x) (kv_prefix s k).
Proof.
  intros Hd. apply Forall_forall. intros [d v] [Hg Hp]%kv_prefix_elem. by eapply Hd.
Qed.

Lemma row_in_prefix s k t kd v :
  kv_get s (encode_row k t kd) = Some v -> (encode_row k t kd, v) ∈ kv_prefix s k.
Proof. intros Hg. apply kv_prefix_elem. split; [done|apply starts_with_row]. Qed.

(** The list holds the rows of the key, as the store does. *)
Definition rows_of s (k : bytes) (rows : list (bytes * bytes)) : Prop :=
  forall t kd v, is_u64 t -> kv_get s (encode_row k t kd) = Some v <-> (encode_row k t kd, v) ∈ rows.

Lemma prefix_rows_of s k : rows_of s k (kv_prefix s k).
Proof. intros t kd v Ht. split; [apply row_in_prefix|by intros ?%kv_prefix_get]. Qed.

Lemma get_none s k ts rows :
  rows_of s k rows -> List.find (hit k ts) rows = None ->
  forall t, is_u64 t -> t <= ts -> verdict s k t = None.
Proof.
  intros Hd Hf t Ht Hle. unfold verdict.
  assert (forall kd, kv_get s (encode_row k t kd) = None) as Hn.
  { intros kd. destruct (kv_get s (encode_row k t kd)) as [v|] eqn:E; [|done].
    apply Hd, list_elem_of_In in E; [|done]. pose proof (find_none _ _ Hf _ E) as Hh.
    assert (hit k ts (encode_row k t kd, v) = true) by (apply hit_row; eauto). congruence. }
  by rewrite !Hn.
Qed.

Lemma get_found s k ts rows d v :
  rows_of s k rows -> StronglySorted blt (map fst rows) ->
  List.find (hit k ts) rows = Some (d, v) ->
  exists t kd, d = encode_row k t kd
    /\ newest s k ts t (match kd with Insertion => Some v | Deletion => None end).
Proof.
  intros Hd Hsort Hf. apply find_first in Hf as (Hin & Hh & Hmin); [|done].
  apply hit_row in Hh as (t & kd & Ht & Hle & ->).
  apply Hd in Hin as Hg; [|done]. exists t, kd. split; [done|].
  assert (forall t' kd' v', is_u64 t' -> t' <= ts -> kv_get s (encode_row k t' kd') = Some v' ->
    ble (encode_row k t kd) (encode_row k t' kd')) as Hle'.
  { intros t' kd' v' Ht' Hle' Hg'. apply (Hmin (_, v')); [by apply Hd|].
    apply hit_row; eauto. }
  repeat split; try done; try apply Ht.
  - unfold verdict. destruct kd; [by rewrite Hg|]. rewrite Hg.
    destruct (kv_get s (encode_row k t Deletion)) as [v'|] eqn:E; [|done].
    apply Hle' in E; [|done..]. unfold ble in E. by rewrite row_order, Z.compare_refl in E.
  - intros t' Ht' [Hlt Hle1]. unfold verdict.
    assert (forall kd', kv_get s (encode_row k t' kd') = None) as Hn; [|by rewrite !Hn].
    intros kd'. destruct (kv_get s (encode_row k t' kd')) as [v'|] eqn:E; [|done].
    apply Hle' in E; [|done..]. unfold ble in E. rewrite row_order in E by done.
    apply Z.compare_gt_iff in Hlt. by rewrite Hlt in E.
Qed.

(** A read up to [ts] is decided by the newest version that says anything. *)
Lemma get_from_spec s k ts :
  decodable s k ->
  (exists t o, newest s k ts t o /\ get_from_raw s k ts = Ok ((fun v => (k, v)) <$> o))
  \/ ((forall t, is_u64 t -> t <= ts -> verdict s k t = None) /\ get_from_raw s k ts = Ok None).
Proof.
  intros Hd. unfold get_from_raw. rewrite first_version_find by by apply kv_prefix_decodable.
  destruct (List.find (hit k ts) (kv_prefix s k)) as [[d v]|] eqn:E.
  - left. destruct (get_found _ _ _ _ _ _ (prefix_rows_of s k) (kv_prefix_sorted s k) E)
      as (t & kd & -> & Hn). do 2 eexists. split; [exact Hn|].
    rewrite decode_encode_row by apply Hn. by destruct kd.
  - right. split; [by eapply get_none, E; apply prefix_rows_of|done].
Qed.

Lemma newest_fun s k ts t o t' o' : newest s k ts t o -> newest s k ts t' o' -> t = t' /\ o = o'.
Proof.
  intros (Ht & Hle & Hv & Hn) (Ht' & Hle' & Hv' & Hn').
  assert (t = t') as ->.
  { destruct (Z.lt_trichotomy t t') as [Hlt|[->|Hlt]]; [|done|].
    - rewrite Hn in Hv' by (done || lia). done.
    - rewrite Hn' in Hv by (done || lia). done. }
  split; congruence.
Qed.

Lemma get_newest s k ts t o :
  decodable s k -> newest s k ts t o -> get_from_raw s k ts = Ok ((fun v => (k, v)) <$> o).
Proof.
  intros Hd Hn. destruct (get_from_spec s k ts Hd) as [(t' & o' & Hn' & ->)|[Hnone _]].
  - by destruct (newest_fun _ _ _ _ _ _ _ Hn Hn') as [_ ->].
  - destruct Hn as (Ht & Hle & Hv & _). rewrite Hnone in Hv by done. done.
Qed.

Lemma get_nothing s k ts :
  decodable s k -> (forall t, is_u64 t -> t <= ts -> verdict s k t = None) ->
  get_from_raw s k ts = Ok None.
Proof.
  intros Hd Hn. destruct (get_from_spec s k ts Hd) as [(t & o & (Ht & Hle & Hv & _) & _)|[_ ->]]; [|done].
  rewrite Hn in Hv by done. done.
Qed.

(** Reads depend on the verdicts only. *)
Lemma get_from_ext s s' k ts :
  decodable s k -> decodable s' k ->
  (forall t, is_u64 t -> t <= ts -> verdict s k t = verdict s' k t) ->
  get_from_raw s k ts = get_from_raw s' k ts.
Proof.
  intros Hd Hd' He. destruct (get_from_spec s k ts Hd) as [(t & o & (Ht & Hle & Hv & Hn) & ->)|[Hn ->]].
  - symmetry. apply (get_newest _ _ _ t); [done|]. split; [done|]. split; [done|].
    split; [by rewrite <-He|]. intros t' Ht' Hlt. rewrite <-He by (done || lia). by apply Hn.
  - symmetry. apply get_nothing; [done|]. intros t Ht Hle. rewrite <-He by done. by apply Hn.
Qed.

End Reads.

(** ** The regions of the key space *)

(** Data rows start with the [@] of the scope alias, index rows with [^]. *)
Definition in_region (tag : byte) (k : bytes) : bool := starts_with [tag] k.
Definition data_tag : byte := x40.

Lemma in_region_app tag k r : in_region tag k = true -> in_region tag (k ++ r) = true.
Proof. destruct k as [|b k]; [done|]. cbn. by rewrite !andb_true_r. Qed.

Lemma in_region_head tag k : in_region tag k = true <-> exists r, k = tag :: r.
Proof. unfold in_region. rewrite starts_with_spec. naive_solver. Qed.

Lemma region_ne tag tag' k k' :
  in_region tag k = true -> in_region tag' k' = true -> tag <> tag' -> k <> k'.
Proof. rewrite !in_region_head. intros (r & ->) (r' & ->) Hne [= ? ?]. done. Qed.

Lemma row_region k ts kd : in_region data_tag k = true -> in_region data_tag (encode_row k ts kd) = true.
Proof. apply in_region_app. Qed.

Lemma index_region ts d : in_region VERSION_INDEX_TAG (version_index_key ts d) = true.
Proof. done. Qed.

Lemma row_ne_index k ts kd ts' d :
  in_region data_tag k = true -> encode_row k ts kd <> version_index_key ts' d.
Proof. intros Hk. eapply region_ne; [by apply row_region|apply index_region|done]. Qed.

Lemma version_index_inj ts d ts' d' :
  is_u64 ts -> is_u64 ts' -> version_index_key ts d = version_index_key ts' d' -> ts = ts' /\ d = d'.
Proof.
  unfold version_index_key, is_u64. intros H1 H2 E%(f_equal (drop 1)). cbn [drop] in E.
  apply app_inj_1 in E as [E ->];
    [|by rewrite !be_length]. split; [|done]. apply (f_equal of_be) in E.
  rewrite !of_be_be_small in E by (cbn; lia). done.
Qed.

Lemma version_index_data ts d : version_index_data_key (version_index_key ts d) = Ok d.
Proof.
  unfold version_index_data_key, version_index_key. cbn [length]. rewrite length_app, be_length.
  destruct (Nat.leb_spec 9 (Datatypes.S (8 + length d))); [|lia].
  reflexivity.
Qed.

#[export] Hint Resolve row_region index_region row_ne_index : myrmic.

(** ** Writes *)

Section Writes.
Context {S : Type} `{KvLaws S}.
Implicit Types s : S.

(** A row of the store other than the index, after each write. *)
Lemma put_at_row s k v ts k' t kd :
  in_region data_tag k = true -> in_region data_tag k' = true -> is_u64 ts -> is_u64 t ->
  kv_get (put_at_raw s k v ts) (encode_row k' t kd)
  = if decide (k = k' /\ ts = t)
    then match kd with Deletion => None | Insertion => Some v end
    else kv_get s (encode_row k' t kd).
Proof.
  intros Hk Hk' Hts Ht. unfold put_at_raw, insert_at_raw, kv_take. cbn [snd].
  rewrite kv_get_insert. destruct (decide (encode_row k ts Insertion = encode_row k' t kd)) as [E|Hne].
  { apply encode_row_inj in E as (-> & -> & <-); [|done..]. by rewrite decide_True. }
  rewrite kv_get_insert_ne by (symmetry; auto with myrmic).
  rewrite kv_get_remove_ne by (symmetry; auto with myrmic).
  rewrite kv_get_remove. destruct (decide (encode_row k ts Deletion = encode_row k' t kd)) as [E|Hne'].
  { apply encode_row_inj in E as (-> & -> & <-); [|done..]. by rewrite decide_True. }
  rewrite decide_False; [done|]. intros [-> ->]. by destruct kd.
Qed.

Lemma insert_at_row s k v ts k' t kd :
  in_region data_tag k = true -> in_region data_tag k' = true -> is_u64 ts -> is_u64 t ->
  kv_get (insert_at_raw s k v ts) (encode_row k' t kd)
  = if decide (k = k' /\ ts = t /\ kd = Insertion) then Some v else kv_get s (encode_row k' t kd).
Proof.
  intros Hk Hk' Hts Ht. unfold insert_at_raw.
  rewrite kv_get_insert. destruct (decide (encode_row k ts Insertion = encode_row k' t kd)) as [E|Hne].
  { apply encode_row_inj in E as (-> & -> & <-); [|done..]. by rewrite decide_True. }
  rewrite kv_get_insert_ne by (symmetry; auto with myrmic).
  rewrite decide_False; [done|]. by intros (-> & -> & ->).
Qed.

Lemma erase_at_row s k ts k' t kd :
  in_region data_tag k = true -> in_region data_tag k' = true -> is_u64 ts -> is_u64 t ->
  kv_get (erase_at_raw s k ts) (encode_row k' t kd)
  = if decide (k = k' /\ ts = t /\ kd = Deletion) then Some [] else kv_get s (encode_row k' t kd).
Proof.
  intros Hk Hk' Hts Ht. unfold erase_at_raw.
  rewrite kv_get_insert. destruct (decide (encode_row k ts Deletion = encode_row k' t kd)) as [E|Hne].
  { apply encode_row_inj in E as (-> & -> & <-); [|done..]. by rewrite decide_True. }
  rewrite kv_get_insert_ne by (symmetry; auto with myrmic).
  rewrite decide_False; [done|]. by intros (-> & -> & ->).
Qed.

(** The same as verdicts: a write decides its key at its version, and nothing else. *)
Lemma put_at_verdict s k v ts k' t :
  in_region data_tag k = true -> in_region data_tag k' = true -> is_u64 ts -> is_u64 t ->
  verdict (put_at_raw s k v ts) k' t
  = if decide (k = k' /\ ts = t) then Some (Some v) else verdict s k' t.
Proof. intros. unfold verdict. rewrite !put_at_row by done. by destruct (decide _). Qed.

Lemma insert_at_verdict s k v ts k' t :
  in_region data_tag k = true -> in_region data_tag k' = true -> is_u64 ts -> is_u64 t ->
  verdict (insert_at_raw s k v ts) k' t
  = if decide (k = k' /\ ts = t)
    then match kv_get s (encode_row k t Deletion) with Some _ => Some None | None => Some (Some v) end
    else verdict s k' t.
Proof.
  intros. unfold verdict. rewrite !insert_at_row by done.
  rewrite (decide_False (P := k = k' /\ ts = t /\ Deletion = Insertion)) by (by intros (_ & _ & ?)).
  destruct (decide (k = k' /\ ts = t)) as [[-> ->]|Hn].
  - rewrite decide_True by done. done.
  - rewrite decide_False by tauto. done.
Qed.

Lemma erase_at_verdict s k ts k' t :
  in_region data_tag k = true -> in_region data_tag k' = true -> is_u64 ts -> is_u64 t ->
  verdict (erase_at_raw s k ts) k' t
  = if decide (k = k' /\ ts = t) then Some None else verdict s k' t.
Proof.
  intros. unfold verdict. rewrite !erase_at_row by done.
  rewrite (decide_False (P := k = k' /\ ts = t /\ Insertion = Deletion)) by (by intros (_ & _ & ?)).
  destruct (decide (k = k' /\ ts = t)) as [[-> ->]|Hn].
  - rewrite decide_True by done. done.
  - rewrite decide_False by tauto. done.
Qed.

(** ** The version index *)

(** Every data row is well formed and indexed, and every index row points at a
    data row. *)
Record index_ok s : Prop := mkIndexOk {
  ix_data : forall d v, kv_get s d = Some v -> in_region data_tag d = true ->
    exists k t kd, in_region data_tag k = true /\ is_u64 t /\ d = encode_row k t kd
      /\ is_Some (kv_get s (version_index_key t d));
  ix_index : forall i v, kv_get s i = Some v -> in_region VERSION_INDEX_TAG i = true ->
    exists k t kd, in_region data_tag k = true /\ is_u64 t
      /\ i = version_index_key t (encode_row k t kd) /\ is_Some (kv_get s (encode_row k t kd));
}.

Lemma index_ok_decodable s p : index_ok s -> in_region data_tag p = true -> decodable s p.
Proof.
  intros [Hd _] Hp d v Hg Hs. apply starts_with_spec in Hs as (r & ->).
  destruct (Hd _ _ Hg (in_region_app _ _ _ Hp)) as (k & t & kd & _ & Ht & -> & _).
  rewrite decode_encode_row by done. eauto.
Qed.

Lemma index_ok_insert s k t kd v :
  index_ok s -> in_region data_tag k = true -> is_u64 t ->
  index_ok (kv_insert (kv_insert s (version_index_key t (encode_row k t kd)) []) (encode_row k t kd) v).
Proof.
  intros [Hd Hi] Hk Ht. set (d := encode_row k t kd). set (i := version_index_key t d). split.
  - intros d' v' Hg Hr. rewrite kv_get_insert in Hg.
    destruct (decide (d = d')) as [<-|Hne].
    { exists k, t, kd. repeat split; try done; try apply Ht.
      rewrite kv_get_insert_ne, kv_get_insert_eq by (unfold d; auto with myrmic). done. }
    rewrite kv_get_insert_ne in Hg by (intros E; eapply (region_ne data_tag VERSION_INDEX_TAG); [exact Hr|apply index_region|done|by symmetry]).
    destruct (Hd _ _ Hg Hr) as (k' & t' & kd' & Hk' & Ht' & -> & Hs).
    exists k', t', kd'. repeat split; try done; try apply Ht'.
    rewrite !kv_get_insert. destruct (decide (d = _)); [done|]. by destruct (decide (i = _)).
  - intros i' v' Hg Hr. rewrite kv_get_insert in Hg.
    destruct (decide (d = i')) as [<-|Hne].
    { exfalso. eapply (region_ne data_tag VERSION_INDEX_TAG d d); [unfold d; auto with myrmic|exact Hr|done|done]. }
    rewrite kv_get_insert in Hg. destruct (decide (i = i')) as [<-|Hne'].
    { exists k, t, kd. repeat split; try done; try apply Ht. by rewrite kv_get_insert_eq. }
    destruct (Hi _ _ Hg Hr) as (k' & t' & kd' & Hk' & Ht' & -> & Hs).
    exists k', t', kd'. repeat split; try done; try apply Ht'.
    rewrite !kv_get_insert. destruct (decide (d = _)); [done|]. by destruct (decide (i = _)).
Qed.

Lemma index_ok_remove s k t kd :
  index_ok s -> in_region data_tag k = true -> is_u64 t ->
  index_ok (kv_remove (kv_remove s (encode_row k t kd)) (version_index_key t (encode_row k t kd))).
Proof.
  intros [Hd Hi] Hk Ht. set (d := encode_row k t kd). set (i := version_index_key t d). split.
  - intros d' v' Hg Hr. rewrite !kv_get_remove in Hg.
    destruct (decide (i = d')); [done|]. destruct (decide (d = d')) as [|Hne]; [done|].
    destruct (Hd _ _ Hg Hr) as (k' & t' & kd' & Hk' & Ht' & -> & Hs).
    exists k', t', kd'. repeat split; try done; try apply Ht'.
    rewrite !kv_get_remove. destruct (decide (i = _)) as [E|].
    { apply version_index_inj in E as [_ E]; done. }
    destruct (decide (d = _)) as [E|]; [|done].
    exfalso. exact (row_ne_index _ _ _ _ _ Hk E).
  - intros i' v' Hg Hr. rewrite !kv_get_remove in Hg.
    destruct (decide (i = i')) as [|Hne]; [done|]. destruct (decide (d = i')); [done|].
    destruct (Hi _ _ Hg Hr) as (k' & t' & kd' & Hk' & Ht' & -> & Hs).
    exists k', t', kd'. repeat split; try done; try apply Ht'.
    rewrite !kv_get_remove. destruct (decide (i = _)) as [E|].
    { exfalso. symmetry in E. exact (row_ne_index _ _ _ _ _ Hk' E). }
    destruct (decide (d = _)) as [E|]; [|done].
    unfold d in E. apply encode_row_inj in E as (-> & -> & ->); [|done..]. done.
Qed.

Lemma index_ok_put s k v ts :
  index_ok s -> in_region data_tag k = true -> is_u64 ts -> index_ok (put_at_raw s k v ts).
Proof. intros Hs Hk Ht. apply index_ok_insert; [|done..]. by apply index_ok_remove. Qed.
Lemma index_ok_insert_at s k v ts :
  index_ok s -> in_region data_tag k = true -> is_u64 ts -> index_ok (insert_at_raw s k v ts).
Proof. intros. by apply index_ok_insert. Qed.
Lemma index_ok_erase s k ts :
  index_ok s -> in_region data_tag k = true -> is_u64 ts -> index_ok (erase_at_raw s k ts).
Proof. intros. by apply index_ok_insert. Qed.

(** Rows outside both regions are none of the index's business. *)
Definition foreign (k : bytes) : Prop :=
  in_region data_tag k = false /\ in_region VERSION_INDEX_TAG k = false.

Lemma foreign_ne k k' tag :
  foreign k -> in_region tag k' = true -> tag = data_tag \/ tag = VERSION_INDEX_TAG -> k <> k'.
Proof. intros [H1 H2] Hk [-> | ->] ->; congruence. Qed.

Lemma index_ok_foreign s s' :
  index_ok s ->
  (forall k, in_region data_tag k = true \/ in_region VERSION_INDEX_TAG k = true ->
    kv_get s' k = kv_get s k) -> index_ok s'.
Proof.
  intros [Hd Hi] He. split.
  - intros d v Hg Hr. rewrite He in Hg by auto.
    destruct (Hd _ _ Hg Hr) as (k & t & kd & Hk & Ht & -> & Hs). exists k, t, kd.
    rewrite He by auto. repeat split; try done; apply Ht.
  - intros i v Hg Hr. rewrite He in Hg by auto.
    destruct (Hi _ _ Hg Hr) as (k & t & kd & Hk & Ht & -> & Hs). exists k, t, kd.
    rewrite He by auto with myrmic. repeat split; try done; apply Ht.
Qed.

Lemma index_ok_insert_foreign s k v : index_ok s -> foreign k -> index_ok (kv_insert s k v).
Proof.
  intros Hs Hf. eapply index_ok_foreign; [exact Hs|]. intros k' [Hr|Hr];
    apply kv_get_insert_ne; eapply foreign_ne; eauto.
Qed.
Lemma index_ok_remove_foreign s k : index_ok s -> foreign k -> index_ok (kv_remove s k).
Proof.
  intros Hs Hf. eapply index_ok_foreign; [exact Hs|]. intros k' [Hr|Hr];
    apply kv_get_remove_ne; eapply foreign_ne; eauto.
Qed.

End Writes.
