(* ===== verification/Changeset.v ===== *)
(** * Deleting and shipping one version

    [delete_version_rows] and [changeset_for] of
    [src/swarm/db/src/store/fjall/tx.rs] work on the rows of one scope at one
    version, found through the version index.  Shown here: the deletion
    removes exactly those rows and keeps the index, and a changeset taken
    from one store and written into another carries over what the version
    says of every key of the scope. *)

From S2P Require Import Prelude Bytes Skey SkeyRoundtrip SkeyOrder Keys KeyScan Domain Kv Rows RowsFacts.
From Stdlib Require Import ZArith Lia Strings.Byte Sorting.Sorted.
From stdpp Require Import base list option strings sets.

Local Open Scope Z_scope.

Lemma starts_with_index ts raw t d :
  is_u64 ts -> is_u64 t ->
  starts_with (version_index_key ts raw) (version_index_key t d) = true
  <-> ts = t /\ starts_with raw d = true.
Proof.
  intros Hts Ht. rewrite !starts_with_spec. split.
  - intros (r & E). change (version_index_key ts raw ++ r) with (version_index_key ts (raw ++ r)) in E
      || (unfold version_index_key in E; cbn [app] in E; rewrite <-app_assoc in E;
          change (version_index_key t d = version_index_key ts (raw ++ r)) in E).
    apply version_index_inj in E as [-> ->]; [|done..]. eauto.
  - intros (-> & r & ->). exists r. unfold version_index_key. cbn [app]. by rewrite <-app_assoc.
Qed.

Section Versions.
Context {S : Type} `{KvLaws S}.
Implicit Types s : S.

(** ** Deleting a version *)

Lemma delete_index_keys_spec s l :
  Forall (fun i => version_index_data_key i = Ok (drop 9 i)) l ->
  exists s', delete_index_keys s l = (Ok tt, s')
    /\ forall x, kv_get s' x = if decide (x ∈ l \/ x ∈ drop 9 <$> l) then None else kv_get s x.
Proof.
  intros Hl. revert s; induction Hl as [|i l Hi _ IH]; intros s.
  { exists s. split; [done|]. intros x. by rewrite decide_False by (intros [?%elem_of_nil|?%elem_of_nil]; done). }
  cbn [delete_index_keys]. rewrite Hi. destruct (IH (kv_remove (kv_remove s (drop 9 i)) i)) as (s' & -> & Hs').
  exists s'. split; [done|]. intros x. rewrite Hs', !kv_get_remove. cbn [fmap list_fmap].
  repeat match goal with |- context [decide ?P] => destruct (decide P) end; try done;
    rewrite ?elem_of_cons in *; naive_solver.
Qed.

Lemma index_keys_of s ts raw i :
  index_ok s -> is_u64 ts ->
  i ∈ map fst (kv_prefix s (version_index_prefix ts raw)) <->
  exists k kd, in_region data_tag k = true /\ i = version_index_key ts (encode_row k ts kd)
    /\ starts_with raw (encode_row k ts kd) = true /\ is_Some (kv_get s (encode_row k ts kd)).
Proof.
  intros Hs Hts. rewrite list_elem_of_fmap. unfold version_index_prefix. split.
  - intros ([i' v] & -> & [Hg Hp]%kv_prefix_elem). cbn [fst].
    assert (in_region VERSION_INDEX_TAG i' = true) as Hr.
    { apply starts_with_spec in Hp as (r & ->). done. }
    destruct (ix_index _ Hs _ _ Hg Hr) as (k & t & kd & Hk & Ht & -> & Hd).
    apply starts_with_index in Hp as [-> Hp]; [|done..]. eauto 8.
  - intros (k & kd & Hk & -> & Hp & [v Hv]).
    destruct (ix_data _ Hs _ _ Hv ltac:(auto with myrmic)) as (k' & t' & kd' & Hk' & Ht' & E & [w Hw]).
    apply encode_row_inj in E as (-> & <- & ->); [|done..].
    eexists (_, w). split; [done|]. apply kv_prefix_elem. split; [done|]. by apply starts_with_index.
Qed.

Lemma index_key_drop ts d : drop 9 (version_index_key ts d) = d.
Proof. reflexivity. Qed.

Lemma delete_version_rows_spec s raw ts :
  index_ok s -> is_u64 ts ->
  exists n s', delete_version_rows s raw ts = (Ok n, s') /\ index_ok s'
    /\ (forall k t kd, in_region data_tag k = true -> is_u64 t ->
        kv_get s' (encode_row k t kd)
        = if decide (t = ts /\ starts_with raw (encode_row k t kd) = true) then None
          else kv_get s (encode_row k t kd))
    /\ (forall x, foreign x -> kv_get s' x = kv_get s x).
Proof.
  intros Hs Hts. unfold delete_version_rows.
  set (l := map fst (kv_prefix s (version_index_prefix ts raw))).
  assert (forall i, i ∈ l <-> exists k kd, in_region data_tag k = true
    /\ i = version_index_key ts (encode_row k ts kd)
    /\ starts_with raw (encode_row k ts kd) = true /\ is_Some (kv_get s (encode_row k ts kd))) as Hl
    by (intros; by apply index_keys_of).
  assert (forall x, x ∈ drop 9 <$> l <-> exists k kd, in_region data_tag k = true
    /\ x = encode_row k ts kd /\ starts_with raw x = true /\ is_Some (kv_get s x)) as Hl'.
  { intros x. rewrite list_elem_of_fmap. split.
    - intros (i & -> & (k & kd & Hk & -> & Hp & Hd)%Hl). rewrite index_key_drop. eauto 6.
    - intros (k & kd & Hk & -> & Hp & Hd). exists (version_index_key ts (encode_row k ts kd)).
      split; [done|]. apply Hl. eauto 6. }
  destruct (delete_index_keys_spec s l) as (s' & -> & Hs').
  { apply Forall_forall. intros i (k & kd & _ & -> & _)%Hl. by rewrite version_index_data, index_key_drop. }
  exists (length l), s'. split; [done|].
  assert (forall k t kd, in_region data_tag k = true -> is_u64 t ->
        kv_get s' (encode_row k t kd)
        = if decide (t = ts /\ starts_with raw (encode_row k t kd) = true) then None
          else kv_get s (encode_row k t kd)) as Hrow.
  { intros k t kd Hk Ht. rewrite Hs'.
    destruct (decide (_ ∈ l \/ _)) as [[(k' & kd' & Hk' & E & _)%Hl|(k' & kd' & Hk' & E & Hp & _)%Hl']|Hn].
    - exfalso. exact (row_ne_index _ _ _ _ _ Hk E).
    - pose proof E as E'. apply encode_row_inj in E' as (-> & -> & ->); [|done..]. by rewrite decide_True.
    - destruct (decide _) as [[-> Hp]|]; [|done].
      destruct (kv_get s (encode_row k ts kd)) eqn:E; [|done]. exfalso. apply Hn. right. apply Hl'. eauto 8. }
  assert (forall x, foreign x -> kv_get s' x = kv_get s x) as Hfor.
  { intros x Hf. rewrite Hs', decide_False; [done|]. intros [(k' & kd' & Hk' & -> & _)%Hl|(k' & kd' & Hk' & -> & _)%Hl'];
      [by destruct Hf|]. eapply foreign_ne; [exact Hf|by apply row_region|by left|done]. }
  split; [|by split]. split.
  - intros d v Hg Hr. pose proof Hg as Hg'. rewrite Hs' in Hg. destruct (decide _) as [|Hn]; [done|].
    destruct (ix_data _ Hs _ _ Hg Hr) as (k & t & kd & Hk & Ht & -> & Hi). exists k, t, kd.
    split; [done|]. split; [done|]. split; [done|]. rewrite Hs'.
    destruct (decide _) as [[(k' & kd' & Hk' & E & Hp & Hd)%Hl|(k' & kd' & Hk' & E & _)%Hl']|]; [| |done].
    + apply version_index_inj in E as [-> E]; [|done..]. exfalso. apply Hn. right. apply Hl'.
      rewrite E. eauto 8.
    + exfalso. symmetry in E. exact (row_ne_index _ _ _ _ _ Hk' E).
  - intros i v Hg Hr. rewrite Hs' in Hg. destruct (decide _) as [|Hn]; [done|].
    destruct (ix_index _ Hs _ _ Hg Hr) as (k & t & kd & Hk & Ht & -> & Hd). exists k, t, kd.
    split; [done|]. split; [done|]. split; [done|]. rewrite Hrow by done.
    destruct (decide _) as [[-> Hp]|]; [|done]. exfalso. apply Hn. left. apply Hl. eauto 8.
Qed.

(** ** A version as a changeset *)

Lemma lex_index ts a b : lex (version_index_key ts a) (version_index_key ts b) = lex a b.
Proof. unfold version_index_key. cbn [lex]. rewrite Z.compare_refl. apply lex_app_same. Qed.

(** What the loop over the index rows returns: a deletion for every key with a
    deletion row, a value for every key with only an insertion row, and no
    value that is not the key's. *)
Lemma changeset_rows_spec s ts prev l :
  is_u64 ts -> StronglySorted blt (map fst l) ->
  (forall i w, (i, w) ∈ l -> exists k kd, in_region data_tag k = true
    /\ i = version_index_key ts (encode_row k ts kd) /\ is_Some (kv_get s (encode_row k ts kd))) ->
  (forall k, prev = Some k -> (version_index_key ts (encode_row k ts Deletion) ∉ map fst l)
    /\ (version_index_key ts (encode_row k ts Insertion) ∈ map fst l ->
        is_Some (kv_get s (encode_row k ts Deletion)))) ->
  exists out, changeset_rows s prev l = Ok out
    /\ (forall k, (k, None) ∈ out <-> version_index_key ts (encode_row k ts Deletion) ∈ map fst l)
    /\ (forall k v, (k, Some v) ∈ out -> kv_get s (encode_row k ts Insertion) = Some v
          /\ version_index_key ts (encode_row k ts Insertion) ∈ map fst l)
    /\ (forall k v, kv_get s (encode_row k ts Insertion) = Some v ->
          version_index_key ts (encode_row k ts Insertion) ∈ map fst l ->
          kv_get s (encode_row k ts Deletion) = None -> (k, Some v) ∈ out)
    /\ (forall k o, (k, o) ∈ out -> in_region data_tag k = true).
Proof.
  intros Hts. revert prev; induction l as [|[i w] l IH]; intros prev Hsort Hform Hprev.
  { exists []. split; [done|]. repeat split; intros; set_solver. }
  pose proof (sorted_head_lt _ _ Hsort) as Hlt. apply StronglySorted_inv in Hsort as [Hsort _].
  destruct (Hform i w ltac:(left)) as (k & kd & Hk & -> & [v Hv]).
  assert (forall k' kd', version_index_key ts (encode_row k' ts kd') ∈
     map fst ((version_index_key ts (encode_row k ts kd), w) :: l)
     <-> (k' = k /\ kd' = kd) \/ version_index_key ts (encode_row k' ts kd') ∈ map fst l) as Hin.
  { intros k' kd'. cbn [map fst]. rewrite elem_of_cons. split.
    - intros [E|?]; [|by right]. left. apply version_index_inj in E as [_ E]; [|done..].
      by apply encode_row_inj in E as (-> & _ & ->).
    - intros [[-> ->]|?]; auto. }
  assert (forall k' kd', version_index_key ts (encode_row k' ts kd') ∈ map fst l ->
     blt (encode_row k ts kd) (encode_row k' ts kd')) as Hafter.
  { intros k' kd' ([i' w'] & E & Hx)%list_elem_of_fmap. specialize (Hlt _ Hx). cbn in E, Hlt.
    rewrite <-E in Hlt. unfold blt in *. by rewrite lex_index in Hlt. }
  assert (forall i' w', (i', w') ∈ l -> exists k0 kd0, in_region data_tag k0 = true
    /\ i' = version_index_key ts (encode_row k0 ts kd0) /\ is_Some (kv_get s (encode_row k0 ts kd0))) as Hform'
    by (intros; eapply Hform; by right).
  cbn [changeset_rows]. rewrite version_index_data. cbn [mbind res_bind].
  rewrite decode_encode_row by done. cbn [mbind res_bind].
  destruct (bool_decide_reflect (prev = Some k)) as [->|Hne].
  - destruct (Hprev k eq_refl) as [Hnd Hins].
    assert (kd = Insertion) as -> by (destruct kd; [exfalso; apply Hnd, Hin; auto|done]).
    assert (is_Some (kv_get s (encode_row k ts Deletion))) as Hdel by (apply Hins, Hin; auto).
    destruct (IH (Some k) Hsort Hform') as (out & -> & H1 & H2 & H3 & H4).
    { intros k' [= <-]. split; [|done]. intros Hx. apply Hnd, Hin. auto. }
    exists out. split; [done|]. split; [|split; [|split]].
    + intros k'. rewrite H1, Hin. split; [auto|]. by intros [[_ ?]|?].
    + intros k' v' Hx. apply H2 in Hx as [? ?]. split; [done|]. apply Hin. auto.
    + intros k' v' Hg Hx Hn. apply Hin in Hx as [[-> _]|Hx]; [|by eapply H3].
      rewrite Hn in Hdel. by apply is_Some_None in Hdel.
    + done.
  - destruct (IH (Some k) Hsort Hform') as (out & -> & H1 & H2 & H3 & H4).
    { intros k' [= <-]. split.
      - intros Hx%Hafter. unfold blt in Hx. rewrite row_order, Z.compare_refl in Hx by done. by destruct kd.
      - intros Hx%Hafter. unfold blt in Hx. rewrite row_order, Z.compare_refl in Hx by done.
        destruct kd; [by exists v|done]. }
    destruct kd; cbn [mbind res_bind ok_or].
    + exists ((k, None) :: out). split; [done|]. split; [|split; [|split]].
      * intros k'. rewrite elem_of_cons, H1, Hin. naive_solver.
      * intros k' v' [?|Hx]%elem_of_cons; [done|]. apply H2 in Hx as [? ?]. split; [done|]. apply Hin. auto.
      * intros k' v' Hg Hx Hn. apply Hin in Hx as [[_ ?]|Hx]; [done|]. right. by eapply H3.
      * intros k' o [[= -> _]|Hx]%elem_of_cons; [done|by eapply H4].
    + rewrite Hv. cbn [mbind res_bind ok_or]. exists ((k, Some v) :: out). split; [done|]. split; [|split; [|split]].
      * intros k'. rewrite elem_of_cons, H1, Hin. naive_solver.
      * intros k' v' [[= -> ->]|Hx]%elem_of_cons; [split; [done|apply Hin; auto]|].
        apply H2 in Hx as [? ?]. split; [done|]. apply Hin. auto.
      * intros k' v' Hg Hx Hn. apply Hin in Hx as [[-> _]|Hx].
        { rewrite Hv in Hg. injection Hg as ->. left. }
        right. by eapply H3.
      * intros k' o [[= -> _]|Hx]%elem_of_cons; [done|by eapply H4].
Qed.

Lemma changeset_at_spec s raw ts :
  index_ok s -> is_u64 ts ->
  let inside k kd := in_region data_tag k = true /\ starts_with raw (encode_row k ts kd) = true in
  exists out, changeset_at s raw ts = Ok out
    /\ (forall k, (k, None) ∈ out <-> inside k Deletion /\ is_Some (kv_get s (encode_row k ts Deletion)))
    /\ (forall k v, (k, Some v) ∈ out -> inside k Insertion /\ kv_get s (encode_row k ts Insertion) = Some v)
    /\ (forall k v, inside k Insertion -> kv_get s (encode_row k ts Insertion) = Some v ->
          kv_get s (encode_row k ts Deletion) = None -> (k, Some v) ∈ out)
    /\ (forall k o, (k, o) ∈ out -> in_region data_tag k = true).
Proof.
  intros Hs Hts inside. unfold changeset_at.
  assert (forall k kd, version_index_key ts (encode_row k ts kd)
    ∈ map fst (kv_prefix s (version_index_prefix ts raw)) <->
    inside k kd /\ is_Some (kv_get s (encode_row k ts kd))) as Hin.
  { intros k kd. rewrite index_keys_of by done. unfold inside. split.
    - intros (k' & kd' & Hk & E & Hp & Hg). apply version_index_inj in E as [_ E]; [|done..].
      apply encode_row_inj in E as (-> & _ & ->); done.
    - intros [[Hk Hp] Hg]. eauto 6. }
  destruct (changeset_rows_spec s ts None (kv_prefix s (version_index_prefix ts raw)) Hts)
    as (out & Ho & H1 & H2 & H3 & H4).
  - apply kv_prefix_sorted.
  - intros i w Hx. assert (i ∈ map fst (kv_prefix s (version_index_prefix ts raw))) as Hi
      by (apply list_elem_of_fmap; by exists (i, w)).
    apply index_keys_of in Hi as (k & kd & ? & ? & _ & ?); eauto.
  - done.
  - exists out. split; [done|]. split; [|split; [|split]].
    + intros k. by rewrite H1, Hin.
    + intros k v Hx. apply H2 in Hx as [Hg Hx]. apply Hin in Hx as [? _]. done.
    + intros k v Hi Hg Hn. apply H3; [done|apply Hin; eauto|done].
    + done.
Qed.

(** ** Writing a changeset *)

(** Two verdicts on one key and version: a deletion prevails, then the
    incoming value. *)
Definition join (old new : option (option bytes)) : option (option bytes) :=
  match old, new with
  | Some None, _ | _, Some None => Some None
  | _, Some (Some v) => Some (Some v)
  | o, None => o
  end.

Lemma write_entries_index s ts es :
  index_ok s -> is_u64 ts -> Forall (fun e => in_region data_tag e.1 = true) es ->
  index_ok (write_entries s ts es).
Proof.
  intros Hs Hts Hes. unfold write_entries. revert s Hs; induction Hes as [|[k o] es Hk _ IH]; intros s Hs; [done|].
  cbn [fold_left]. apply IH. unfold write_entry. cbn [fst snd].
  destruct o; [by apply index_ok_insert_at|by apply index_ok_erase].
Qed.

(** A row after the entries: the last of those that concern it. *)
Lemma write_entries_deletion s ts es k t :
  is_u64 ts -> is_u64 t -> in_region data_tag k = true ->
  Forall (fun e => in_region data_tag e.1 = true) es ->
  kv_get (write_entries s ts es) (encode_row k t Deletion)
  = if decide (t = ts /\ (k, None) ∈ es) then Some [] else kv_get s (encode_row k t Deletion).
Proof.
  intros Hts Ht Hk Hes. unfold write_entries.
  revert s; induction Hes as [|[k' o] es Hk' _ IH]; intros s; cbn [fold_left].
  { by rewrite decide_False by (by intros [_ ?%elem_of_nil]). }
  rewrite IH. cbn [fst] in Hk'. unfold write_entry. cbn [fst snd].
  destruct (decide (t = ts /\ (k, None) ∈ es)) as [[-> Hin]|Hn].
  { rewrite decide_True by (split; [done|by right]). done. }
  destruct o as [v|]; [rewrite insert_at_row by done|rewrite erase_at_row by done];
    repeat match goal with |- context [decide ?P] => destruct (decide P) end; try done;
    rewrite ?elem_of_cons in *; naive_solver.
Qed.

Lemma write_entries_insertion s ts es k t v :
  is_u64 ts -> is_u64 t -> in_region data_tag k = true ->
  Forall (fun e => in_region data_tag e.1 = true) es ->
  (forall v', (k, Some v') ∈ es -> v' = v) ->
  kv_get (write_entries s ts es) (encode_row k t Insertion)
  = if decide (t = ts /\ (k, Some v) ∈ es) then Some v else kv_get s (encode_row k t Insertion).
Proof.
  intros Hts Ht Hk Hes. unfold write_entries.
  revert s; induction Hes as [|[k' o] es Hk' _ IH]; intros s Hu; cbn [fold_left].
  { by rewrite decide_False by (by intros [_ ?%elem_of_nil]). }
  rewrite IH by (intros; apply Hu; by right). cbn [fst] in Hk'. unfold write_entry. cbn [fst snd].
  destruct (decide (t = ts /\ (k, Some v) ∈ es)) as [[-> Hin]|Hn].
  { rewrite decide_True by (split; [done|by right]). done. }
  destruct o as [w|]; [rewrite insert_at_row by done|rewrite erase_at_row by done];
    repeat match goal with |- context [decide ?P] => destruct (decide P) end; try done;
    rewrite ?elem_of_cons in *; try naive_solver.
  exfalso. destruct a as (-> & -> & _). apply n. split; [done|]. left.
  by rewrite (Hu w) by left.
Qed.

(** A key that is no proper prefix of the scope's bytes: its rows are in the
    scope exactly when it is. *)
Definition settled (raw k : bytes) : Prop := starts_with k raw = true -> starts_with raw k = true.

Lemma settled_row raw k r : settled raw k -> starts_with raw (k ++ r) = starts_with raw k.
Proof.
  unfold settled. revert raw; induction k as [|b k IH]; intros raw Hs.
  - destruct raw; [done|]. by discriminate (Hs eq_refl).
  - destruct raw as [|a raw]; [done|]. cbn. destruct (byte_eqb a b) eqn:E; [|done]. cbn. apply IH.
    intros Hk. cbn in Hs. rewrite E in Hs. cbn in Hs. apply Hs.
    unfold byte_eqb in *. apply bool_decide_eq_true in E as ->. by rewrite bool_decide_eq_true_2, Hk.
Qed.

Lemma transfer_verdict s1 s2 raw ts es k t :
  index_ok s1 -> is_u64 ts -> is_u64 t -> in_region data_tag k = true -> settled raw k ->
  changeset_at s1 raw ts = Ok es ->
  verdict (write_entries s2 ts es) k t
  = if decide (t = ts /\ starts_with raw k = true) then join (verdict s2 k ts) (verdict s1 k ts)
    else verdict s2 k t.
Proof.
  intros Hs1 Hts Ht Hk Hsc Hes.
  destruct (changeset_at_spec s1 raw ts Hs1 Hts) as (es' & E & H1 & H2 & H3 & H4).
  rewrite Hes in E. apply Ok_inj in E as <-.
  assert (Forall (fun e : bytes * option bytes => in_region data_tag e.1 = true) es) as Hall.
  { apply Forall_forall. intros [k' o] Hx. by eapply H4. }
  assert (forall kd, starts_with raw (encode_row k ts kd) = starts_with raw k) as Hrow
    by (intros; by apply settled_row).
  set (v := default [] (kv_get s1 (encode_row k ts Insertion))).
  unfold verdict. rewrite write_entries_deletion, (write_entries_insertion s2 ts es k t v); try done.
  2: { intros v' [_ Hg]%H2. unfold v. by rewrite Hg. }
  specialize (H1 k). specialize (H2 k). specialize (H3 k). cbv zeta in H1, H2, H3.
  rewrite Hrow in H1. setoid_rewrite Hrow in H2. setoid_rewrite Hrow in H3.
  destruct (decide (t = ts /\ starts_with raw k = true)) as [[-> Hin]|Hout].
  - unfold v in *. destruct (kv_get s1 (encode_row k ts Deletion)) as [w|] eqn:Ed.
    + rewrite decide_True by (split; [done|apply H1; eauto]). unfold join.
      by destruct (kv_get s2 (encode_row k ts Deletion)), (kv_get s2 (encode_row k ts Insertion)).
    + rewrite decide_False by (intros [_ [_ ?]%H1]; by apply (is_Some_None (A := bytes))).
      destruct (kv_get s1 (encode_row k ts Insertion)) as [w|] eqn:Ei; cbn [from_option id].
      * rewrite decide_True by (split; [done|by apply H3]). unfold join.
        by destruct (kv_get s2 (encode_row k ts Deletion)), (kv_get s2 (encode_row k ts Insertion)).
      * rewrite decide_False by (intros [_ [_ ?]%H2]; done). unfold join.
        by destruct (kv_get s2 (encode_row k ts Deletion)), (kv_get s2 (encode_row k ts Insertion)).
  - rewrite decide_False by (intros [-> [[_ ?] _]%H1]; tauto).
    rewrite decide_False by (intros [-> [[_ ?] _]%H2]; tauto). done.
Qed.

End Versions.
