(* ===== verification/Scans.v ===== *)
(** * Scans of the newest versions

    The seven scans of [src/swarm/db/src/store/fjall/tx.rs] that yield the
    newest version of every key: the reverse ones against the forward ones,
    and the forward ones against reads of single keys. *)

From S2P Require Import Prelude Bytes Skey SkeyRoundtrip SkeyOrder Keys KeyScan Domain Kv Rows RowsFacts.
From Stdlib Require Import ZArith Lia Strings.Byte Sorting.Sorted.
From stdpp Require Import base list option strings sets.

Local Open Scope Z_scope.

(** ** Forwards and backwards *)

(** Rows after decoding: user key, value, kind. *)
Definition drow : Type := bytes * bytes * KeyKind.
Definition decode_rows (rows : list (bytes * bytes)) : list drow :=
  omap (fun r => match decode r.1 with Ok (uk, _, kd) => Some (uk, r.2, kd) | Err _ => None end) rows.

Definition emit (r : drow) : list (res tx_error (bytes * bytes)) :=
  match r with (k, v, Insertion) => [Ok (k, v)] | _ => [] end.

Fixpoint fwd (prev : option bytes) (l : list drow) : list (res tx_error (bytes * bytes)) :=
  match l with
  | [] => []
  | a :: l => if bool_decide (prev = Some a.1.1) then fwd prev l else emit a ++ fwd (Some a.1.1) l
  end.

Fixpoint bwd (pending : option drow) (l : list drow) : list (res tx_error (bytes * bytes)) :=
  match l with
  | [] => match pending with Some p => emit p | None => [] end
  | a :: l =>
      match pending with
      | Some p => (if bool_decide (p.1.1 = a.1.1) then [] else emit p) ++ bwd (Some a) l
      | None => bwd (Some a) l
      end
  end.

Definition all_decode (rows : list (bytes * bytes)) : Prop :=
  Forall (fun r => exists x, decode r.1 = Ok x) rows.

Lemma latest_fwd prev rows : all_decode rows -> latest prev rows = fwd prev (decode_rows rows).
Proof.
  intros Hd; revert prev; induction Hd as [|[d v] rows [[[uk t] kd] E] _ IH]; intros prev; [done|].
  cbn [latest decode_rows omap list_omap fst snd] in *. rewrite E. cbn [fwd fst].
  destruct (bool_decide (prev = Some uk)); [apply IH|]. rewrite IH. by destruct kd.
Qed.

Lemma latest_rev_bwd pending rows :
  all_decode rows -> latest_rev pending rows = bwd pending (decode_rows rows).
Proof.
  intros Hd; revert pending; induction Hd as [|[d v] rows [[[uk t] kd] E] _ IH]; intros pending.
  { cbn. by destruct pending as [[[? ?] []]|]. }
  cbn [latest_rev decode_rows omap list_omap fst snd] in *. rewrite E. cbn [bwd fst snd].
  destruct pending as [[[pk pv] pkd]|]; cbn [fmap option_fmap option_map fst snd].
  - destruct (bool_decide_reflect (Some pk = Some uk)) as [[= ->]|Hne].
    + rewrite bool_decide_eq_true_2 by done. cbn [app]. apply IH.
    + rewrite bool_decide_eq_false_2 by congruence. destruct pkd; cbn [emit app]; by rewrite IH.
  - rewrite bool_decide_eq_false_2 by done. apply IH.
Qed.

Lemma fwd_snoc prev l p :
  fwd prev (l ++ [p])
  = fwd prev l
    ++ (if bool_decide (match last l with Some a => Some a.1.1 | None => prev end = Some p.1.1)
        then [] else emit p).
Proof.
  revert prev; induction l as [|a l IH]; intros prev; cbn [app fwd].
  { cbn [last]. destruct (bool_decide _); [done|]. by rewrite app_nil_r. }
  rewrite last_cons, !IH.
  destruct (bool_decide_reflect (prev = Some a.1.1)) as [->|].
  - by destruct (last l).
  - rewrite <-app_assoc. by destruct (last l).
Qed.

Lemma bwd_fwd_pending p l : bwd (Some p) (rev l) = rev (fwd None (l ++ [p])).
Proof.
  revert p; induction l as [|a l IH] using rev_ind; intros p.
  { cbn. by destruct p as [[? ?] []]. }
  rewrite rev_app_distr. cbn [rev app bwd]. rewrite IH, (fwd_snoc None (l ++ [a]) p), last_snoc, rev_app_distr.
  f_equal. destruct (bool_decide_reflect (p.1.1 = a.1.1)) as [E|Hne].
  - by rewrite E, bool_decide_eq_true_2 by done.
  - rewrite bool_decide_eq_false_2 by congruence. by destruct p as [[? ?] []].
Qed.

Lemma decode_rows_rev rows : decode_rows (rev rows) = rev (decode_rows rows).
Proof.
  unfold decode_rows. induction rows as [|r rows IH]; [done|]. cbn [rev].
  rewrite omap_app, IH. cbn. by destruct (decode r.1) as [[[? ?] ?]|]; cbn; rewrite ?app_nil_r.
Qed.

Lemma latest_rev_rev rows : all_decode rows -> latest_rev None (rev rows) = rev (latest None rows).
Proof.
  intros Hd. rewrite latest_rev_bwd by by apply Forall_rev. rewrite latest_fwd by done.
  rewrite decode_rows_rev. induction (decode_rows rows) as [|a l _] using rev_ind; [done|].
  rewrite rev_app_distr. cbn [rev app bwd]. apply bwd_fwd_pending.
Qed.

(** ** What a scan yields *)

Definition prefix_free (P : bytes -> Prop) : Prop :=
  forall k k', P k -> P k' -> starts_with k k' = true -> k = k'.

Lemma lex_apart k k' x y :
  starts_with k k' = false -> starts_with k' k = false -> lex (k ++ x) (k' ++ y) = lex k k'.
Proof.
  revert k'; induction k as [|b k IH]; intros [|b' k']; try done. cbn. unfold byte_eqb.
  destruct (Z.compare_spec (b2z b) (b2z b')) as [E| |]; [|done..]. apply b2z_inj in E as ->.
  rewrite !bool_decide_eq_true_2 by done. apply IH.
Qed.

Lemma prefix_free_rows P k k' x y :
  prefix_free P -> P k -> P k' -> k <> k' -> lex (k ++ x) (k' ++ y) = lex k k'.
Proof.
  intros HP Hk Hk' Hne. apply lex_apart; apply not_true_is_false; intros E; apply HP in E; congruence.
Qed.

(** The first row of a key. *)
Definition of_key (k : bytes) (a : drow) : bool := bool_decide (a.1.1 = k).

Lemma fwd_spec l prev :
  StronglySorted (fun a b : drow => a.1.1 = b.1.1 \/ blt a.1.1 b.1.1) l ->
  (forall p a, prev = Some p -> a ∈ l -> p = a.1.1 \/ blt p a.1.1) ->
  exists out, fwd prev l = map Ok out /\ StronglySorted blt (map fst out)
    /\ (forall k v, (k, v) ∈ out <->
          prev <> Some k /\ List.find (of_key k) l = Some (k, v, Insertion)).
Proof.
  revert prev; induction l as [|a l IH]; intros prev Hs Hp.
  { exists []. cbn. split; [done|]. split; [constructor|]. intros. split; [by intros ?%elem_of_nil|by intros [_ ?]]. }
  apply StronglySorted_inv in Hs as [Hs Ha]. rewrite Forall_forall in Ha.
  destruct a as [[k v] kd]. cbn [fwd fst].
  destruct (bool_decide_reflect (prev = Some k)) as [->|Hne].
  - destruct (IH (Some k) Hs) as (out & -> & Hso & Hin).
    { intros p b Hpb Hb. apply (Hp p b); [done|by right]. }
    exists out. split; [done|]. split; [done|]. intros k' v'. rewrite Hin. cbn [List.find].
    unfold of_key at 2. cbn [fst]. destruct (bool_decide_reflect (k = k')) as [->|]; [|done]. tauto.
  - destruct (IH (Some k) Hs) as (out & -> & Hso & Hin).
    { intros p b [= <-] Hb. by apply (Ha b). }
    assert (forall k' v', (k', v') ∈ out -> blt k k') as Hlt.
    { intros k' v' [Hn Hf]%Hin. apply find_some in Hf as [Hi%list_elem_of_In _].
      destruct (Ha _ Hi) as [E|?]; cbn in *; [congruence|done]. }
    assert (forall k' v', k' <> k -> (k', v') ∈ out <-> prev <> Some k' /\
      List.find (of_key k') ((k, v, kd) :: l) = Some (k', v', Insertion)) as Hother.
    { intros k' v' Hk. rewrite Hin. cbn [List.find]. unfold of_key at 2. cbn [fst].
      rewrite bool_decide_eq_false_2 by done. split; [|intros [_ ?]; split; congruence].
      intros [_ Hf]. split; [|done]. intros ->. apply find_some in Hf as [Hi%list_elem_of_In _].
      destruct (Hp k' (k, v, kd) eq_refl ltac:(left)) as [E|Hlt']; [by cbn in E; congruence|]. cbn in Hlt'.
      destruct (Ha _ Hi) as [E|Hlt'']; [by cbn in E; congruence|]. cbn in Hlt''.
      eapply blt_irrefl, blt_trans; eauto. }
    destruct kd; cbn [emit app].
    + exists out. split; [done|]. split; [done|]. intros k' v'. destruct (decide (k' = k)) as [->|]; [|by apply Hother].
      split; [by intros [? _]%Hin|]. intros [_ Hf]. cbn [List.find] in Hf. unfold of_key in Hf at 1. cbn [fst] in Hf.
      by rewrite bool_decide_eq_true_2 in Hf by done.
    + exists ((k, v) :: out). split; [done|]. split.
      { cbn. constructor; [done|]. apply Forall_forall. intros k' ([? v'] & -> & Hx)%list_elem_of_fmap.
        cbn. by eapply Hlt. }
      intros k' v'. rewrite elem_of_cons. destruct (decide (k' = k)) as [->|Hk].
      * split.
        -- intros [[= ->]|[? _]%Hin]; [|done]. split; [done|]. cbn. unfold of_key at 1. cbn.
           by rewrite bool_decide_eq_true_2 by done.
        -- intros [_ Hf]. cbn [List.find] in Hf. unfold of_key in Hf at 1. cbn [fst] in Hf.
           rewrite bool_decide_eq_true_2 in Hf by done. left. congruence.
      * rewrite Hother by done. split; [intros [[= ? _]|?]; done|by right].
Qed.

Section Scans.
Context {S : Type} `{KvLaws S}.
Implicit Types s : S.

(** The rows are those of the selected keys, all of them. *)
Definition rows_for s (sel : bytes -> Prop) (rows : list (bytes * bytes)) : Prop :=
  StronglySorted blt (map fst rows)
  /\ forall d v, (d, v) ∈ rows <-> kv_get s d = Some v /\ exists k t kd, sel k /\ is_u64 t /\ d = encode_row k t kd.

Lemma rows_for_decode s sel rows : rows_for s sel rows -> all_decode rows.
Proof.
  intros [_ Hr]. apply Forall_forall. intros [d v] [_ (k & t & kd & _ & Ht & ->)]%Hr.
  cbn. rewrite decode_encode_row by done. eauto.
Qed.

Lemma rows_for_key s sel rows k : rows_for s sel rows -> sel k -> rows_of s k rows.
Proof. intros [_ Hr] Hk t kd v Ht. rewrite Hr. split; [eauto 8|by intros [? _]]. Qed.

Lemma decode_rows_elem s sel rows k v kd :
  rows_for s sel rows -> (k, v, kd) ∈ decode_rows rows -> sel k.
Proof.
  intros [_ Hr] ([d w] & Hin & E)%list_elem_of_omap. apply Hr in Hin as [_ (k' & t & kd' & Hk & Ht & ->)].
  cbn in E. rewrite decode_encode_row in E by done. by simplify_eq.
Qed.

Lemma decode_rows_sorted s sel rows :
  prefix_free sel -> rows_for s sel rows ->
  StronglySorted (fun a b : drow => a.1.1 = b.1.1 \/ blt a.1.1 b.1.1) (decode_rows rows).
Proof.
  intros HP [Hs Hr].
  assert (forall d v, (d, v) ∈ rows -> exists k t kd, sel k /\ is_u64 t /\ d = encode_row k t kd) as Hf
    by (intros d v [_ ?]%Hr; done). clear Hr.
  induction rows as [|[d v] rows IH]; [constructor|].
  pose proof (sorted_head_lt _ _ Hs) as Hlt. apply StronglySorted_inv in Hs as [Hs _].
  destruct (Hf d v ltac:(left)) as (k & t & kd & Hk & Ht & ->).
  specialize (IH Hs ltac:(intros; eapply Hf; by right)).
  cbn [decode_rows omap list_omap fst]. rewrite decode_encode_row by done. constructor; [exact IH|].
  apply Forall_forall. intros [[k' v'] kd'] ([d' w] & Hin & E)%list_elem_of_omap. cbn [fst].
  destruct (Hf d' w ltac:(by right)) as (k2 & t2 & kd2 & Hk2 & Ht2 & ->).
  cbn in E. rewrite decode_encode_row in E by done. simplify_eq.
  destruct (decide (k = k')) as [->|Hne]; [by left|]. right.
  specialize (Hlt _ Hin). cbn in Hlt. unfold blt, encode_row in *.
  by rewrite (prefix_free_rows sel) in Hlt.
Qed.

Lemma find_of_key k rows :
  all_decode rows ->
  List.find (of_key k) (decode_rows rows)
  = match List.find (hit k u64_max) rows with
    | Some (d, v) => match decode d with Ok (uk, _, kd) => Some (uk, v, kd) | Err _ => None end
    | None => None
    end.
Proof.
  induction 1 as [|[d v] rows [[[uk t] kd] E] _ IH]; [done|].
  cbn [decode_rows omap list_omap fst snd List.find] in *. unfold hit at 1. cbn [fst]. rewrite E.
  cbn [List.find]. unfold of_key at 1. cbn [fst].
  destruct (bool_decide (uk = k)); cbn [andb]; [|exact IH].
  apply decode_inv in E as E'. destruct E' as [_ Ht]. unfold is_u64, u64_max in *.
  destruct (Z.leb_spec t (2 ^ 64 - 1)); [|lia]. by rewrite E.
Qed.

(** A forward scan over the rows of a prefix-free set of keys yields each key
    whose newest version is a value, once, with that value, in key order. *)
Lemma latest_spec s sel rows :
  prefix_free sel -> rows_for s sel rows ->
  exists out, latest None rows = map Ok out /\ StronglySorted blt (map fst out)
    /\ (forall k v, (k, v) ∈ out <-> sel k /\ exists t, newest s k u64_max t (Some v)).
Proof.
  intros HP Hr. rewrite latest_fwd by by eapply rows_for_decode.
  destruct (fwd_spec (decode_rows rows) None) as (out & -> & Hs & Hin);
    [by eapply decode_rows_sorted|done|].
  exists out. split; [done|]. split; [done|]. intros k v. rewrite Hin, find_of_key by by eapply rows_for_decode.
  destruct (List.find (hit k u64_max) rows) as [[d w]|] eqn:E.
  - pose proof E as E'. apply find_some in E' as [Hd%list_elem_of_In _].
    apply Hr in Hd as [_ (k' & t' & kd' & Hk & Ht & ->)].
    assert (k' = k) as ->.
    { apply find_some in E as [_ Hh]. apply hit_row in Hh as (t2 & kd2 & Ht2 & _ & Eq).
      by apply encode_row_inj in Eq as (-> & _). }
    destruct (get_found s k u64_max rows _ _ (rows_for_key _ _ _ _ Hr Hk) (proj1 Hr) E) as (t & kd & Eq & Hn).
    apply encode_row_inj in Eq as (_ & -> & ->); [|done|apply Hn].
    rewrite decode_encode_row by done. split.
    + intros [_ [= -> ->]]. eauto.
    + intros [_ [t2 Hn2]]. destruct (newest_fun _ _ _ _ _ _ _ Hn Hn2) as [-> Eo]. split; [done|].
      destruct kd; by simplify_eq.
  - split; [by intros [_ ?]|]. intros [Hk [t (Ht & Hle & Hv & _)]].
    by rewrite (get_none s k u64_max rows (rows_for_key _ _ _ _ Hr Hk) E) in Hv.
Qed.

End Scans.
