(* ===== verification/Tx.v ===== *)
(** * Transactions

    The upper layers of [src/swarm/db/src/store/fjall/tx.rs]: scope tracking,
    sync points, changesets, commit, snapshots, and the operations the
    database offers on keys, tables, measurements and blobs.  A transaction's
    methods are functions in a state and error monad over [Transaction]; what
    was written before an error stays written in the transaction, as in the
    code. *)

From S2P Require Import Prelude Bytes Skey SkeyRoundtrip SkeyOrder Keys KeyScan Domain Kv Rows.
From Stdlib Require Import ZArith Lia Strings.Byte Sorting.Sorted.
From stdpp Require Import base list option strings sets.

Local Open Scope Z_scope.

(** ** Replicated data *)

Module Marker.
Inductive SyncMarker := Mutation | Deletion.
End Marker.

Record SyncMeta := mkSyncMeta {
  sm_parent : option SyncPointId;
  sm_parent_epoch : option Epoch;
  sm_marker : Marker.SyncMarker;
  sm_retention : option Z;
}.

Record Chunk := mkChunk {
  ck_id : SyncPointId;
  ck_meta : SyncMeta;
  ck_entries : list (bytes * option bytes);
}.

Abbreviation Snapshot := (list Chunk) (only parsing).

(** [Tags] and [Fields] of a measurement; a field value is kept as it is serialised *)
Record MeasurementBody := mkMeasurementBody {
  mb_tags : list (str * str);
  mb_fields : list (str * bytes);
}.

Inductive Cursor := After (id : bytes) | At_ (id : bytes) | Skip (n : nat).
Inductive TbOrderBy := KeyAsc | KeyDesc.
Inductive TsOrderBy := TimestampAsc | TimestampDesc.

(** What the engine answers to a commit *)
Inductive commit_outcome := Committed | Conflicted | Poisoned | Failed.

Section Tx.
Context {S : Type} `{Kv S} `{Postcard SyncMeta} `{Postcard MeasurementBody}.

(** The transaction's view of the rows, its timestamp, the scopes it has
    written to (a set, in the order a commit goes through it) and the
    retention its versions carry. *)
Record Transaction := mkTx {
  tx_store : S;
  tx_ts : Version;
  tx_node : NodeId;
  active_scopes : list Scope;
  tx_retention : option Z;
}.

Definition set_store (t : Transaction) (s : S) : Transaction :=
  mkTx s (tx_ts t) (tx_node t) (active_scopes t) (tx_retention t).

Definition TX (A : Type) : Type := Transaction -> res tx_error A * Transaction.

#[export] Instance TX_ret : MRet TX := fun A a t => (Ok a, t).
#[export] Instance TX_bind : MBind TX := fun A B f m t =>
  match m t with
  | (Ok a, t') => f a t'
  | (Err e, t') => (Err e, t')
  end.

(** A read of the store, and a write. *)
Definition reads_ {A} (f : S -> res tx_error A) : TX A := fun t => (f (tx_store t), t).
Definition writes (f : S -> S) : TX unit := fun t => (Ok tt, set_store t (f (tx_store t))).
Definition act {A} (f : Transaction -> res tx_error A * Transaction) : TX A := f.
Definition txres {A} (r : res tx_error A) : TX A := fun t => (r, t).
Definition key_bytes {K} `{StoreKey K} (k : K) : TX bytes := txres (lift (encode k)).

Definition split_ts : TX (Version * NodeId) := fun t => (Ok (tx_ts t, tx_node t), t).

Definition write_scope (s : Scope) : TX Version := fun t =>
  match encode s with
  | Err e => (Err (ErrKey e), t)
  | Ok _ =>
      (Ok (tx_ts t),
       mkTx (tx_store t) (tx_ts t) (tx_node t)
         (if bool_decide (s ∈ active_scopes t) then active_scopes t else active_scopes t ++ [s])
         (tx_retention t))
  end.

(** ** Low level *)

Definition delete_raw (key : bytes) : TX unit := writes (fun s => kv_remove s key).
Definition insert_raw (key value : bytes) : TX unit := writes (fun s => kv_insert s key value).

Definition insert {K V} `{StoreKey K} `{Postcard V} (key : K) (value : V) : TX unit :=
  key ← key_bytes key;
  value ← txres (ok_or ErrPostcard (to_allocvec value));
  insert_raw key value.

Definition find_last_key_untracked_raw (key : bytes) : TX (option bytes) :=
  reads_ (fun s => Ok (fst <$> last (kv_prefix s key))).

Definition contains_key_raw_untracked (key : bytes) : TX bool :=
  reads_ (fun s => Ok (match kv_prefix s key with [] => false | _ => true end)).

Definition contains_key_untracked {K} `{StoreKey K} (key : K) : TX bool :=
  key ← key_bytes key; contains_key_raw_untracked key.

(** ** Middle level *)

Definition put_if_absent {K} `{StoreKey K} (key : K) (value : bytes) : TX bool :=
  key ← key_bytes key;
  act (fun t =>
    match put_if_absent_raw (tx_store t) key value (tx_ts t) with
    | Ok (b, s) => (Ok b, set_store t s)
    | Err e => (Err e, t)
    end).

Definition put_at {K} `{StoreKey K} (key : K) (value : bytes) (ts : Version) : TX unit :=
  key ← key_bytes key; writes (fun s => put_at_raw s key value ts).
Definition put {K} `{StoreKey K} (key : K) (value : bytes) : TX unit :=
  key ← key_bytes key; t ← split_ts; writes (fun s => put_at_raw s key value t.1).
Definition erase_at {K} `{StoreKey K} (key : K) (ts : Version) : TX unit :=
  key ← key_bytes key; writes (fun s => erase_at_raw s key ts).
Definition erase {K} `{StoreKey K} (key : K) : TX unit :=
  key ← key_bytes key; t ← split_ts; writes (fun s => erase_at_raw s key t.1).

Definition get_from {K} `{StoreKey K} (key : K) (ts : Version) : TX (option (bytes * bytes)) :=
  key ← key_bytes key; reads_ (fun s => get_from_raw s key ts).
Definition get {K} `{StoreKey K} (key : K) : TX (option (bytes * bytes)) := get_from key u64_max.

(** ** Sync points *)

(** The bytes of a sync-point builder: the scope, and the version if given. *)
Definition sync_point_prefix (s : Scope) (ts : option Version) : res tx_error bytes :=
  lift (encode_steps (segs "sync_point")
    (scope_vals s ++ match ts with Some ts => [vu64 ts] | None => [] end)).

Definition find_last_syncpoint_untracked (s : Scope) (ts : option Version) : TX (option SyncPoint) :=
  p ← txres (sync_point_prefix s ts);
  last ← find_last_key_untracked_raw p;
  match last with
  | None => mret None
  | Some key =>
      sp ← txres (lift (@decode_from_bytes SyncPoint _ key));
      mret (Some (with_sp_id s (as_id sp)))
  end.

Definition delete_version (s : Scope) (ts : Version) : TX nat :=
  raw ← key_bytes s;
  act (fun t => let (r, s') := delete_version_rows (tx_store t) raw ts in (r, set_store t s')).
Definition delete_scope_at_version (s : Scope) (ts : Version) : TX unit :=
  _ ← delete_version s ts; mret tt.

(** One row of the sync-point region, decoded. *)
Definition decode_sync_row (r : bytes * bytes) : res tx_error (SyncPoint * SyncMeta) :=
  sp ← lift (@decode_from_bytes SyncPoint _ r.1);
  sm ← ok_or ErrPostcard (from_bytes r.2);
  Ok (sp, sm).

(** [find_sync_points] and its variants; the closure's captured state is [A]. *)
Definition find_sync_points {A} (s : S) (lower upper : bytes)
    (func : A -> SyncPoint * SyncMeta -> res tx_error A) (a : A) : res tx_error A :=
  foldM (fun a r => p ← decode_sync_row r; func a p) (kv_range s lower (Some upper)) a.

Definition find_sync_points_rev {A} (s : S) (lower upper : bytes)
    (func : A -> SyncPoint * SyncMeta -> res tx_error A) (a : A) : res tx_error A :=
  foldM (fun a r => p ← decode_sync_row r; func a p) (rev (kv_range s lower (Some upper))) a.

Fixpoint sync_points_while {A} (func : A -> SyncPoint * SyncMeta -> res tx_error (A * bool))
    (rows : list (bytes * bytes)) (a : A) : res tx_error A :=
  match rows with
  | [] => Ok a
  | r :: rows =>
      p ← decode_sync_row r;
      x ← func a p;
      let (a, more) := (x : A * bool) in
      if more then sync_points_while func rows a else Ok a
  end.
Definition find_sync_points_while {A} (s : S) (lower upper : bytes)
    (func : A -> SyncPoint * SyncMeta -> res tx_error (A * bool)) (a : A) : res tx_error A :=
  sync_points_while func (kv_range s lower (Some upper)) a.

(** [collect_latest_heads]: going backwards, the first sync point of each scope
    and version is handed on, when the next one comes or at the end. *)
Definition head_entry : Type := Scope * SyncPointId * SyncMeta.

Definition heads_step {A} (func : A -> head_entry -> res tx_error A)
    (st : option head_entry * A) (p : SyncPoint * SyncMeta) : res tx_error (option head_entry * A) :=
  let '(current, a) := st in
  let '(sp, sm) := p in
  let fresh := (sp_scope sp, as_id sp, sm) in
  match current with
  | Some (scope, id, other) =>
      if (sid_version id =? sp_ts sp) && bool_decide (scope = sp_scope sp)
      then Ok (current, a)
      else a ← func a (scope, id, other); Ok (Some fresh, a)
  | None => Ok (Some fresh, a)
  end.

Definition collect_latest_heads {A} (s : S) (lower upper : bytes)
    (func : A -> head_entry -> res tx_error A) (a : A) : res tx_error A :=
  st ← find_sync_points_rev s lower upper (heads_step func) (None, a);
  match st.1 with Some e => func st.2 e | None => Ok st.2 end.

Definition version_index_ready (s : S) : bool :=
  match kv_get s VERSION_INDEX_FLAG with Some _ => true | None => false end.
Definition set_version_index_ready : TX unit := insert_raw VERSION_INDEX_FLAG [].

Definition region_empty (s : S) (tag : byte) : bool :=
  match kv_range s [tag] (Some [z2b (b2z tag + 1)]) with [] => true | _ => false end.
Definition holds_no_user_data (s : S) : bool := region_empty s x40 && region_empty s x23.

Definition mark_syncpoint_purged (sp : SyncPoint) (sm : SyncMeta) : TX unit :=
  insert sp (mkSyncMeta (sm_parent sm) (sm_parent_epoch sm) Marker.Deletion (sm_retention sm)).

Definition delete_chunk (sp : SyncPoint) : TX unit :=
  _ ← delete_version (sp_scope sp) (sp_ts sp); mret tt.

Definition forget_chunk (sp : SyncPoint) : TX unit :=
  key ← key_bytes sp;
  _ ← delete_chunk sp;
  delete_raw key.

(** ** Changesets *)

Definition changeset_for (sp : SyncPoint) : TX (list (bytes * option bytes)) :=
  raw ← key_bytes (sp_scope sp);
  reads_ (fun s => changeset_at s raw (sp_ts sp)).

Definition insert_changeset (sp : SyncPoint) (sm : SyncMeta) (entries : list (bytes * option bytes))
  : TX bool :=
  present ← contains_key_untracked sp;
  if (present : bool) then mret false else
  _ ← insert sp sm;
  match sm_marker sm with
  | Marker.Deletion => _ ← delete_scope_at_version (sp_scope sp) (sp_ts sp); mret true
  | Marker.Mutation => _ ← writes (fun s => write_entries s (sp_ts sp) entries); mret true
  end.

(** ** Commit *)

Definition commit_scope (s : Scope) : TX unit :=
  t ← split_ts;
  last ← find_last_syncpoint_untracked s None;
  act (fun tx =>
    insert (mkSyncPoint s t.1 t.1 t.2)
      (mkSyncMeta (as_id <$> last) None Marker.Mutation (tx_retention tx)) tx).

Fixpoint for_each {A} (f : A -> TX unit) (l : list A) : TX unit :=
  match l with [] => mret tt | x :: l => _ ← f x; for_each f l end.

(** The rows the engine is asked to make durable, and what is reported. *)
Definition commit (outcome : commit_outcome) : TX unit := fun t =>
  let scopes := active_scopes t in
  let t := mkTx (tx_store t) (tx_ts t) (tx_node t) [] (tx_retention t) in
  match for_each commit_scope scopes t with
  | (Err e, t) => (Err e, t)
  | (Ok _, t) =>
      (match outcome with
       | Committed => Ok tt
       | Conflicted => Err ErrConflict
       | Poisoned => Err ErrUnavailable
       | Failed => Err ErrStore
       end, t)
  end.

(** ** Snapshots *)

Definition snapshot_chunk (s : S) (p : SyncPoint * SyncMeta) : res tx_error Chunk :=
  entries ← match sm_marker p.2 with
            | Marker.Deletion => Ok []
            | Marker.Mutation =>
                raw ← lift (encode (sp_scope p.1)); changeset_at s raw (sp_ts p.1)
            end;
  Ok (mkChunk (as_id p.1) p.2 entries).

Definition take_snapshot (scope : Scope) : TX Snapshot :=
  r ← txres (lift (partial_range "sync_point" (scope_vals scope)));
  reads_ (fun s => find_sync_points s r.1 r.2 (fun chunks p => c ← snapshot_chunk s p; Ok (chunks ++ [c])) []).

(** The sweep of [restore_snapshot] over the sync points to replace; it
    collects the identifiers of those it deleted. *)
Fixpoint restore_sweep (scope : Scope) (rows : list (bytes * bytes)) (deleted : list SyncPointId)
  : TX (list SyncPointId) :=
  match rows with
  | [] => mret deleted
  | (key, _) :: rows =>
      sp ← txres (lift (@decode_from_bytes SyncPoint _ key));
      _ ← delete_scope_at_version scope (sp_ts sp);
      k ← key_bytes sp;
      _ ← delete_raw k;
      restore_sweep scope rows (deleted ++ [as_id sp])
  end.

#[local] Instance spid_eq_dec : EqDecision SyncPointId.
Proof. unfold SyncPointId. apply _. Defined.

(** [position] then [remove]: the first occurrence, taken out *)
Fixpoint remove_first (id : SyncPointId) (l : list SyncPointId) : option (list SyncPointId) :=
  match l with
  | [] => None
  | x :: l =>
      if bool_decide (x = id) then Some l
      else match remove_first id l with Some l => Some (x :: l) | None => None end
  end.

Fixpoint restore_chunks (scope : Scope) (now : Version) (me : NodeId) (snapshot : Snapshot)
    (deleted : list SyncPointId) : TX (list SyncPointId) :=
  match snapshot with
  | [] => mret deleted
  | chunk :: snapshot =>
      let '(parent_epoch, deleted) :=
        match remove_first (ck_id chunk) deleted with
        | Some rest => (Some (sid_epoch (ck_id chunk)), rest)
        | None => (None, deleted)
        end in
      let version := sid_version (ck_id chunk) in
      last ← find_last_syncpoint_untracked scope (Some version);
      _ ← insert_changeset (mkSyncPoint scope version now me)
            (mkSyncMeta (as_id <$> last) parent_epoch (sm_marker (ck_meta chunk))
               (sm_retention (ck_meta chunk))) (ck_entries chunk);
      restore_chunks scope now me snapshot deleted
  end.

Fixpoint restore_removals (scope : Scope) (now : Version) (me : NodeId) (deleted : list SyncPointId)
  : TX unit :=
  match deleted with
  | [] => mret tt
  | id :: deleted =>
      last ← find_last_syncpoint_untracked scope (Some (sid_version id));
      _ ← insert (mkSyncPoint scope (sid_version id) now me)
            (mkSyncMeta (as_id <$> last) (Some (sid_epoch id)) Marker.Deletion None);
      restore_removals scope now me deleted
  end.

Definition restore_snapshot (scope : Scope) (snapshot : Snapshot) : TX unit :=
  t ← split_ts;
  r ← txres (lift (partial_range "sync_point" (scope_vals scope)));
  rows ← match snapshot with
         | chunk :: _ =>
             match sm_parent (ck_meta chunk) with
             | Some parent =>
                 start ← key_bytes (with_sp_id scope parent);
                 reads_ (fun s => Ok (drop 1 (kv_range s start (Some r.2))))
             | None => reads_ (fun s => Ok (kv_range s r.1 (Some r.2)))
             end
         | [] => reads_ (fun s => Ok (kv_range s r.1 (Some r.2)))
         end;
  deleted ← restore_sweep scope rows [];
  deleted ← restore_chunks scope t.1 t.2 snapshot deleted;
  restore_removals scope t.1 t.2 deleted.
(** ** Key-value *)

Definition key_get (key : UserKey) : TX (option bytes) :=
  r ← get key; mret (snd <$> (r : option (bytes * bytes))).

Definition key_put (key : UserKey) (value : bytes) : TX unit :=
  ts ← write_scope (uk_scope key); put_at key value ts.

Definition key_delete (key : UserKey) : TX unit :=
  ts ← write_scope (uk_scope key); erase_at key ts.

(** The encoded key without the terminator of its last string. *)
Definition key_prefix_bytes (scope : Scope) (prefix : str) : TX bytes :=
  key ← key_bytes (mkUserKey scope prefix);
  mret (removelast key).

Definition key_prefix (scope : Scope) (prefix : str) : TX (list str) :=
  key ← key_prefix_bytes scope prefix;
  reads_ (fun s => mapM_res (fun r =>
    user_key ← r; k ← lift (@decode_exact UserKey _ user_key); Ok (uk_key k))
    (prefix_latest_untracked s key)).

Definition key_list (scope : Scope) (prefix : str) : TX (list (str * bytes)) :=
  key ← key_prefix_bytes scope prefix;
  let '(lower, upper) := prefix_to_range key in
  reads_ (fun s => mapM_res (fun r =>
    kv ← r; k ← lift (@decode_exact UserKey _ kv.1); Ok (uk_key k, kv.2))
    (range_latest_kv_untracked s lower upper)).

(** ** Tables *)

Definition tb_count (table : Table) : TX nat :=
  p ← key_bytes table;
  reads_ (fun s => foldM (fun count r =>
    key ← r; _ ← lift (@decode_exact Entity _ key); Ok (Datatypes.S count))
    (prefix_latest_untracked s p) 0%nat).

Definition tb_get (table : Table) (id : bytes) : TX (option bytes) :=
  r ← get (mkEntity table id); mret (snd <$> (r : option (bytes * bytes))).

Definition tb_delete (table : Table) (id : bytes) : TX unit :=
  ts ← write_scope (tb_scope table); erase_at (mkEntity table id) ts.

Definition tb_insert (table : Table) (id value : bytes) : TX unit :=
  ts ← write_scope (tb_scope table); put_at (mkEntity table id) value ts.

Definition tb_insert_batched (table : Table) (entries : list (bytes * bytes)) : TX unit :=
  ts ← write_scope (tb_scope table);
  for_each (fun e => put_at (mkEntity table e.1) e.2 ts) entries.

(** The edges of a listing, the rows to skip, and [None] for an empty result. *)
Definition tb_bounds (table : Table) (cursor : option Cursor) (order : TbOrderBy)
  : res tx_error (option (bytes * option bytes * nat)) :=
  t ← lift (encode table);
  let '(table_lo, table_hi) := prefix_to_range t in
  match order, cursor with
  | KeyAsc, Some (At_ id) => e ← lift (encode (mkEntity table id)); Ok (Some (e, table_hi, 0%nat))
  | KeyAsc, Some (After id) =>
      e ← lift (encode (mkEntity table id));
      match (prefix_to_range e).2 with
      | Some after => Ok (Some (after, table_hi, 0%nat))
      | None => Ok None
      end
  | KeyDesc, Some (At_ id) =>
      e ← lift (encode (mkEntity table id));
      match (prefix_to_range e).2 with
      | Some after => Ok (Some (table_lo, Some after, 0%nat))
      | None => Ok (Some (table_lo, table_hi, 0%nat))
      end
  | KeyDesc, Some (After id) =>
      e ← lift (encode (mkEntity table id)); Ok (Some (table_lo, Some e, 0%nat))
  | _, Some (Skip offset) => Ok (Some (table_lo, table_hi, offset))
  | _, None => Ok (Some (table_lo, table_hi, 0%nat))
  end.

(** The loop over the entries: [skip], then up to [limit] results. *)
Fixpoint tb_collect (skip limit : nat) (entries : list (res tx_error (bytes * bytes)))
  : res tx_error (list (bytes * bytes)) :=
  match entries with
  | [] => Ok []
  | entry :: rest =>
      kv ← entry;
      match skip, limit with
      | Datatypes.S skip, _ => tb_collect skip limit rest
      | O, O => Ok []
      | O, Datatypes.S limit =>
          e ← lift (@decode_exact Entity _ kv.1);
          out ← tb_collect O limit rest;
          Ok ((en_id e, kv.2) :: out)
      end
  end.

(** No limit is [usize::MAX], which no listing reaches. *)
Definition tb_list (table : Table) (cursor : option Cursor) (limit : option nat)
    (order : option TbOrderBy) : TX (list (bytes * bytes)) :=
  let order := default KeyAsc order in
  b ← txres (tb_bounds table cursor order);
  match (b : option (bytes * option bytes * nat)) with
  | None => mret []
  | Some (lower, upper, skip) =>
      reads_ (fun s =>
        let entries := match order with
                       | KeyAsc => range_latest_kv_untracked s lower upper
                       | KeyDesc => range_latest_kv_untracked_rev s lower upper
                       end in
        tb_collect skip (default (length entries) limit) entries)
  end.

(** ** Measurements *)

Definition publish_measurement (scope : Scope) (measurement : str) (tags : list (str * str))
    (fields : list (str * bytes)) (timestamp : Z) : TX unit :=
  ts ← write_scope scope;
  body ← txres (ok_or ErrPostcard (to_allocvec (mkMeasurementBody tags fields)));
  put_at (mkMeasurement scope measurement timestamp) body ts.

Definition find_measurement (scope : Scope) (measurement : str) (limit : option nat)
    (start end_ : option Z) (order : option TsOrderBy)
  : TX (list (list (str * str) * list (str * bytes) * Z)) :=
  r ← txres (lift (partial_range "measurement" (scope_vals scope ++ [vstr measurement])));
  lower ← match start with
          | Some t => key_bytes (mkMeasurement scope measurement t)
          | None => mret r.1
          end;
  upper ← match end_ with
          | Some t => key_bytes (mkMeasurement scope measurement t)
          | None => mret r.2
          end;
  reads_ (fun s =>
    let entries := match default TimestampDesc order with
                   | TimestampAsc => range_latest_kv s lower upper
                   | TimestampDesc => range_latest_kv_rev s lower upper
                   end in
    mapM_res (fun entry =>
      kv ← entry;
      m ← lift (@decode_exact Measurement _ kv.1);
      body ← ok_or ErrPostcard (@from_bytes MeasurementBody _ kv.2);
      Ok (mb_tags body, mb_fields body, ms_timestamp m))
      (take (default (length entries) limit) entries)).

(** ** Blobs *)

(** [sha2::Sha256::digest] *)
Context (sha256 : bytes -> bytes).

Definition store_blob (scope : Scope) (blob : bytes) : TX BlobId :=
  ts ← write_scope scope;
  let id := mkBlobId scope (Sha2 (sha256 blob)) in
  _ ← put_at id blob ts;
  mret id.

(** The scope of the id is only checked in debug builds. *)
Definition link_blob (path : Path) (id : BlobId) : TX unit :=
  ts ← write_scope (pt_scope path);
  _ ← put_at (mkBlobMeta (mkBlobId (pt_scope path) (bi_hash id)) (pt_path path)) [] ts;
  idb ← key_bytes id;
  put_at path idb ts.

Definition unlink_blob (path : Path) : TX (option (BlobId * option bytes)) :=
  ts ← write_scope (pt_scope path);
  r ← get path;
  match (r : option (bytes * bytes)) with
  | None => mret None
  | Some (_, raw) =>
      id ← txres (lift (@decode_exact BlobId _ raw));
      let id := mkBlobId (pt_scope path) (bi_hash id) in
      let meta := mkBlobMeta id (pt_path path) in
      m ← get meta;
      let metadata := snd <$> (m : option (bytes * bytes)) in
      _ ← match metadata with Some _ => erase_at meta ts | None => mret tt end;
      _ ← erase_at path ts;
      mret (Some (id, metadata))
  end.

Definition move_blob (old_path new_path : Path) : TX unit :=
  r ← unlink_blob old_path;
  match (r : option (BlobId * option bytes)) with
  | None => txres (Err ErrNoBlob)
  | Some (id, _) => link_blob new_path id
  end.

Definition resolve_blob (id : BlobId) : TX (option bytes) :=
  r ← get id; mret (snd <$> (r : option (bytes * bytes))).

Definition resolve_path (path : Path) : TX (option (bytes * BlobId)) :=
  r ← get path;
  match (r : option (bytes * bytes)) with
  | None => mret None
  | Some (_, raw) =>
      id ← txres (lift (@decode_exact BlobId _ raw));
      b ← resolve_blob id;
      match (b : option bytes) with
      | None => mret None
      | Some blob => mret (Some (blob, mkBlobId (pt_scope path) (bi_hash id)))
      end
  end.

Definition resolve_path_metadata (path : Path) : TX (option bytes) :=
  r ← get path;
  match (r : option (bytes * bytes)) with
  | None => mret None
  | Some (_, raw) =>
      id ← txres (lift (@decode_exact BlobId _ raw));
      m ← get (mkBlobMeta (mkBlobId (pt_scope path) (bi_hash id)) (pt_path path));
      mret (snd <$> (m : option (bytes * bytes)))
  end.

Fixpoint paths_collect (limit : nat) (keys : list (res tx_error bytes)) : res tx_error (list str) :=
  match keys with
  | [] => Ok []
  | key :: rest =>
      key ← key;
      match limit with
      | O => Ok []
      | Datatypes.S limit =>
          p ← lift (@decode_exact Path _ key);
          out ← paths_collect limit rest;
          Ok (pt_path p :: out)
      end
  end.

Definition list_paths (scope : Scope) (limit : option nat) : TX (list str) :=
  prefix ← txres (lift (encode_steps (segs "path") (scope_vals scope)));
  reads_ (fun s =>
    let keys := prefix_latest s prefix in paths_collect (default (length keys) limit) keys).

End Tx.
