(* ===== verification/Sample.v ===== *)
(** * A store to run the definitions on

    A serialisation for the two structures the store serialises, so that the
    definitions of the development can be evaluated on concrete stores: the
    fields one after the other, integers in eight bytes, lists with their
    length in front.  It stands in for the serialisation library wherever an
    example needs one; the theorems only use its law. *)

From S2P Require Import Prelude Bytes Skey SkeyRoundtrip SkeyOrder Keys KeyScan Domain Kv Rows Tx.
From Stdlib Require Import ZArith Lia Strings.Byte.
From stdpp Require Import gmap.
From stdpp Require Import base list option strings sets.

Local Open Scope Z_scope.

Module Sample.
Export MapKv.

(** ** The serialisation *)

Definition parser (A : Type) : Type := bytes -> option (A * bytes).

Definition p_ret {A} (a : A) : parser A := fun b => Some (a, b).
Definition p_bind {A B} (p : parser A) (f : A -> parser B) : parser B :=
  fun b => match p b with Some (a, b) => f a b | None => None end.

Definition put_int (z : Z) : bytes := be 8 z.
Definition get_int : parser Z := fun b =>
  if (8 <=? length b)%nat then Some (of_be (take 8 b), drop 8 b) else None.

Definition put_bytes (b : bytes) : bytes := put_int (Z.of_nat (length b)) ++ b.
Definition get_bytes : parser bytes :=
  p_bind get_int (fun n b => Some (take (Z.to_nat n) b, drop (Z.to_nat n) b)).

Definition put_option {A} (put : A -> bytes) (o : option A) : bytes :=
  match o with Some a => x01 :: put a | None => [x00] end.
Definition get_option {A} (get : parser A) : parser (option A) := fun b =>
  match b with
  | x01 :: b => match get b with Some (a, b) => Some (Some a, b) | None => None end
  | x00 :: b => Some (None, b)
  | _ => None
  end.

Definition put_list {A} (put : A -> bytes) (l : list A) : bytes :=
  put_int (Z.of_nat (length l)) ++ concat (map put l).
Fixpoint get_times {A} (get : parser A) (n : nat) : parser (list A) :=
  match n with
  | O => p_ret []
  | S n => p_bind get (fun a => p_bind (get_times get n) (fun l => p_ret (a :: l)))
  end.
Definition get_list {A} (get : parser A) : parser (list A) :=
  p_bind get_int (fun n => get_times get (Z.to_nat n)).

Definition put_id (i : SyncPointId) : bytes :=
  put_int (sid_epoch i) ++ put_int (sid_version i) ++ put_bytes (sid_node i).
Definition get_id : parser SyncPointId :=
  p_bind get_int (fun e => p_bind get_int (fun v => p_bind get_bytes (fun n => p_ret (e, v, n)))).

Definition put_meta (m : SyncMeta) : bytes :=
  put_option put_id (sm_parent m) ++ put_option put_int (sm_parent_epoch m)
  ++ put_option (fun _ => []) (match sm_marker m with Marker.Mutation => None | Marker.Deletion => Some tt end)
  ++ put_option put_int (sm_retention m).
Definition get_meta : parser SyncMeta :=
  p_bind (get_option get_id) (fun p => p_bind (get_option get_int) (fun e =>
  p_bind (get_option (p_ret tt)) (fun k => p_bind (get_option get_int) (fun r =>
  p_ret (mkSyncMeta p e (match k with None => Marker.Mutation | Some _ => Marker.Deletion end) r))))).

Definition put_pair (p : bytes * bytes) : bytes := put_bytes p.1 ++ put_bytes p.2.
Definition get_pair : parser (bytes * bytes) :=
  p_bind get_bytes (fun a => p_bind get_bytes (fun b => p_ret (a, b))).
Definition put_body (m : MeasurementBody) : bytes :=
  put_list put_pair (mb_tags m) ++ put_list put_pair (mb_fields m).
Definition get_body : parser MeasurementBody :=
  p_bind (get_list get_pair) (fun t => p_bind (get_list get_pair) (fun f => p_ret (mkMeasurementBody t f))).

(** A value is serialised when it reads back; values outside the types do not. *)
Definition checked {A} `{EqDecision A} (put : A -> bytes) (get : parser A) (a : A) : option bytes :=
  if decide (fst <$> get (put a) = Some a) then Some (put a) else None.

#[export] Instance Marker_eq_dec : EqDecision Marker.SyncMarker.
Proof. solve_decision. Defined.
#[export] Instance SyncPointId_eq_dec : EqDecision SyncPointId.
Proof. unfold SyncPointId. apply _. Defined.
#[export] Instance SyncMeta_eq_dec : EqDecision SyncMeta.
Proof. solve_decision. Defined.
#[export] Instance MeasurementBody_eq_dec : EqDecision MeasurementBody.
Proof. solve_decision. Defined.

(** Only values within their types are read. *)
Definition u64_b (z : Z) : bool := (0 <=? z) && (z <? 2 ^ 64).
Definition opt_b {A} (f : A -> bool) (o : option A) : bool := match o with Some a => f a | None => true end.
Definition id_b (i : SyncPointId) : bool :=
  u64_b (sid_epoch i) && u64_b (sid_version i) && (length (sid_node i) =? 16)%nat.
Definition meta_b (m : SyncMeta) : bool :=
  opt_b id_b (sm_parent m) && opt_b u64_b (sm_parent_epoch m) && opt_b u64_b (sm_retention m).
Definition get_typed_meta : parser SyncMeta :=
  p_bind get_meta (fun m r => if meta_b m then Some (m, r) else None).

#[export] Instance postcard_meta : Postcard SyncMeta := {
  to_allocvec := checked put_meta get_typed_meta;
  from_bytes b := fst <$> get_typed_meta b;
}.
#[export] Instance postcard_body : Postcard MeasurementBody := {
  to_allocvec := checked put_body get_body;
  from_bytes b := fst <$> get_body b;
}.

Lemma checked_law {A} `{EqDecision A} (put : A -> bytes) get a b :
  checked put get a = Some b -> fst <$> get b = Some a.
Proof. unfold checked. destruct (decide _); [by intros [= <-]|done]. Qed.

#[export] Instance postcard_meta_laws : PostcardLaws SyncMeta.
Proof. split. intros a b. apply checked_law. Qed.
#[export] Instance postcard_body_laws : PostcardLaws MeasurementBody.
Proof. split. intros a b. apply checked_law. Qed.

(** Meta data within its types is always serialised. *)

Lemma get_put_int z r : is_u64 z -> get_int (put_int z ++ r) = Some (z, r).
Proof.
  intros Hz. unfold get_int, put_int. rewrite length_app, be_length.
  rewrite take_app_length', drop_app_length' by (by rewrite be_length).
  destruct (Nat.leb_spec 8 (8 + length r)); [|lia]. rewrite of_be_be_small; [done|]. cbn. unfold is_u64 in Hz. lia.
Qed.

Lemma get_put_bytes b r : Z.of_nat (length b) < 2 ^ 64 -> get_bytes (put_bytes b ++ r) = Some (b, r).
Proof.
  intros Hb. unfold get_bytes, put_bytes, p_bind. rewrite <-app_assoc, get_put_int by (unfold is_u64; lia).
  by rewrite Nat2Z.id, take_app_length, drop_app_length.
Qed.

Lemma get_put_option {A} (put : A -> bytes) (get : parser A) o r :
  (forall a r, o = Some a -> get (put a ++ r) = Some (a, r)) ->
  get_option get (put_option put o ++ r) = Some (o, r).
Proof. destruct o as [a|]; [|done]. intros H. cbn. by rewrite (H a r eq_refl). Qed.

Definition id_in_range (i : SyncPointId) : Prop :=
  is_u64 (sid_epoch i) /\ is_u64 (sid_version i) /\ length (sid_node i) = 16%nat.

Lemma get_put_id i r : id_in_range i -> get_id (put_id i ++ r) = Some (i, r).
Proof.
  destruct i as [[e v] n]. unfold id_in_range, get_id, put_id, p_bind, sid_epoch, sid_version, sid_node.
  cbn [fst snd]. intros (He & Hv & Hn).
  rewrite <-!app_assoc, get_put_int by done. rewrite get_put_int by done. rewrite get_put_bytes by lia. done.
Qed.

Definition meta_in_range (m : SyncMeta) : Prop :=
  (forall i, sm_parent m = Some i -> id_in_range i)
  /\ (forall e, sm_parent_epoch m = Some e -> is_u64 e) /\ (forall r, sm_retention m = Some r -> is_u64 r).

Lemma u64_b_spec z : u64_b z = true <-> is_u64 z.
Proof. unfold u64_b, is_u64. rewrite Bool.andb_true_iff, Z.leb_le, Z.ltb_lt. done. Qed.

Lemma opt_b_spec {A} (f : A -> bool) (P : A -> Prop) o :
  (forall a, f a = true <-> P a) -> opt_b f o = true <-> forall a, o = Some a -> P a.
Proof.
  intros Hf. destruct o as [a|]; cbn; [rewrite Hf|by split].
  split; [by intros ? ? [= <-]|]. intros HP. by apply HP.
Qed.

Lemma meta_b_spec m : meta_b m = true <-> meta_in_range m.
Proof.
  unfold meta_b, meta_in_range. rewrite !Bool.andb_true_iff.
  rewrite (opt_b_spec id_b id_in_range), !(opt_b_spec u64_b is_u64); [tauto|apply u64_b_spec..|].
  intros i. unfold id_b, id_in_range. rewrite !Bool.andb_true_iff, !u64_b_spec, Nat.eqb_eq. tauto.
Qed.

Lemma meta_total m : meta_in_range m -> is_Some (@to_allocvec _ postcard_meta m).
Proof.
  intros Hm. pose proof (proj2 (meta_b_spec m) Hm) as Hb. destruct Hm as (Hp & He & Hr).
  cbn. unfold checked. rewrite decide_True; [done|].
  assert (get_meta (put_meta m ++ []) = Some (m, [])) as E;
    [|rewrite app_nil_r in E; unfold get_typed_meta, p_bind; by rewrite E, Hb].
  unfold get_meta, put_meta, p_bind. rewrite <-!app_assoc.
  rewrite get_put_option by (intros; apply get_put_id; auto).
  rewrite get_put_option by (intros; apply get_put_int; auto).
  rewrite get_put_option by (intros [] ? _; done).
  rewrite get_put_option by (intros; apply get_put_int; auto).
  by destruct m as [? ? [] ?].
Qed.

Lemma meta_typed b m : @from_bytes _ postcard_meta b = Some m -> meta_in_range m.
Proof.
  cbn. unfold get_typed_meta, p_bind. destruct (get_meta b) as [[m' r]|]; [|done].
  destruct (meta_b m') eqn:E; [|done]. cbn. intros [= <-]. by apply meta_b_spec.
Qed.

(** ** A node *)

Definition me : NodeId := repeat x05 16.
Definition tx (s : MapKv.store) (ts : Version) : Transaction := mkTx s ts me [] None.
Definition empty_store : MapKv.store := ∅.

Definition scope : Scope := sample_scope.
Definition key (k : string) : UserKey := mkUserKey scope (lit k).

Example runs :
  (key_get (key "a") (key_put (key "a") [x2a] (tx empty_store 9)).2).1 = Ok (Some [x2a]).
Proof. vm_compute. reflexivity. Qed.

Example runs_commit :
  (commit Committed (key_put (key "a") [x2a] (tx empty_store 9)).2).1 = Ok tt.
Proof. vm_compute. reflexivity. Qed.

End Sample.
