(* ===== verification/TxKeys.v ===== *)
(** * The keys transactions write

    Where the keys of the schema lie in the key space: data keys extend the
    encoding of their scope and start with [@], sync points start with [#];
    no key of a kind is a prefix of another; scopes are told apart by their
    bytes. *)

From S2P Require Import Prelude Bytes Skey SkeyRoundtrip SkeyOrder Keys KeyScan Domain Kv Rows RowsFacts Changeset Scans Tx.
From Stdlib Require Import ZArith Lia Strings.Byte Sorting.Sorted.
From stdpp Require Import base list option strings sets.

Local Open Scope Z_scope.

(** ** Composing segments *)

Lemma encode_steps_app l r vs ws e :
  length vs = length (List.filter is_field l) ->
  encode_steps (l ++ r) (vs ++ ws) = Ok e ->
  exists a b, encode_steps l vs = Ok a /\ encode_steps r ws = Ok b /\ e = a ++ b.
Proof.
  revert vs e; induction l as [|[lit|n k] l IH]; intros vs e Hl He.
  - destruct vs; [|done]. exists [], e. done.
  - cbn [app encode_steps] in *. rewrite literal_encode in *. cbn [mbind res_bind] in *.
    apply res_bind_ok in He as (e' & He & E). apply Ok_inj in E as <-.
    destruct (IH vs e' Hl He) as (a & b & -> & -> & ->). cbn. exists (lit ++ a), b. by rewrite app_assoc.
  - cbn [List.filter is_field length] in Hl. destruct vs as [|v vs]; [done|].
    cbn [app encode_steps] in *. apply res_bind_ok in He as (f & Hf & He).
    apply res_bind_ok in He as (e' & He & E). apply Ok_inj in E as <-. rewrite Hf. cbn [mbind res_bind].
    destruct (IH vs e' ltac:(by injection Hl) He) as (a & b & -> & -> & ->). cbn.
    exists (f ++ a), b. by rewrite app_assoc.
Qed.

Lemma encode_steps_app_ok l r vs ws a b :
  length vs = length (List.filter is_field l) ->
  encode_steps l vs = Ok a -> encode_steps r ws = Ok b -> encode_steps (l ++ r) (vs ++ ws) = Ok (a ++ b).
Proof.
  revert vs a; induction l as [|[lit|n k] l IH]; intros vs a Hl Ha Hb.
  - destruct vs; [|done]. apply Ok_inj in Ha as <-. done.
  - cbn [app encode_steps] in *. rewrite literal_encode in *. cbn [mbind res_bind] in *.
    apply res_bind_ok in Ha as (e' & Ha & E). apply Ok_inj in E as <-.
    rewrite (IH vs e' Hl Ha Hb). cbn. by rewrite app_assoc.
  - cbn [List.filter is_field length] in Hl. destruct vs as [|v vs]; [done|].
    cbn [app encode_steps] in *. apply res_bind_ok in Ha as (f & Hf & Ha).
    apply res_bind_ok in Ha as (e' & Ha & E). apply Ok_inj in E as <-. rewrite Hf. cbn [mbind res_bind].
    rewrite (IH vs e' ltac:(by injection Hl) Ha Hb). cbn. by rewrite app_assoc.
Qed.

Lemma encode_literal_region b lit r vs e :
  encode_steps (Literal (b :: lit) :: r) vs = Ok e -> in_region b e = true.
Proof.
  cbn [encode_steps]. rewrite literal_encode. cbn [mbind res_bind].
  intros (e' & _ & E)%res_bind_ok. apply Ok_inj in E as <-. by apply in_region_head; eexists.
Qed.

(** ** Kinds of keys are prefix-free *)

(** The full keys of a kind. *)
Definition kind_keys (flat : list Segment) (e : bytes) : Prop :=
  exists vs, vals_typed flat vs /\ length vs = length (List.filter is_field flat)
    /\ encode_steps flat vs = Ok e.

Lemma separated_refl c n : (forall t, KF t ∈ c -> fty_eqb t t = true) -> separated c n c = true.
Proof.
  revert n; induction c as [|[b|t] c IH]; intros n Ht; cbn [separated]; [done|..].
  - unfold byte_eqb. rewrite bool_decide_eq_true_2 by done. apply IH. intros; apply Ht. by right.
  - destruct n; [done|]. rewrite (Ht t) by left. apply IH. intros; apply Ht. by right.
Qed.

Lemma fty_eqb_refl t : fty_eqb t t = true.
Proof. destruct t; cbn; [apply sty_eqb_refl|apply Nat.eqb_refl|done..]. Qed.

Lemma covers_self c vs ws :
  length vs = kfields c -> length ws = kfields c -> covers c vs c ws -> vs = ws.
Proof.
  revert vs ws; induction c as [|[b|t] c IH]; intros vs ws Hv Hw; cbn in *.
  - by destruct vs, ws.
  - intros [_ ?]. by apply IH.
  - destruct vs as [|v vs], ws as [|w ws]; try done. intros (_ & -> & Hc). f_equal.
    apply IH; [by injection Hv|by injection Hw|done].
Qed.

Lemma kind_prefix_eq flat vs ws e f :
  vals_typed flat vs -> vals_typed flat ws ->
  length vs = length (List.filter is_field flat) -> length ws = length (List.filter is_field flat) ->
  encode_steps flat vs = Ok e -> encode_steps flat ws = Ok f ->
  starts_with e f = true -> vs = ws.
Proof.
  intros Hv Hw Lv Lw He Hf Hp. rewrite encode_steps_kcode in He, Hf.
  rewrite <-kfields_count in Lv, Lw. apply vals_typed_kcode in Hv, Hw.
  apply (covers_self (kcode flat)); [done..|].
  eapply scan_exact; [|exact Hv|exact Hw|done|exact He|exact Hf|exact Hp].
  apply separated_refl. intros. apply fty_eqb_refl.
Qed.

Lemma kind_keys_prefix_free flat : prefix_free (kind_keys flat).
Proof.
  intros k k' (vs & Hv & Lv & He) (ws & Hw & Lw & Hf) Hp.
  rewrite (kind_prefix_eq flat vs ws k k' Hv Hw Lv Lw He Hf Hp) in He. congruence.
Qed.

(** ** Scopes *)

Lemma scope_prefix_free s s' raw raw' :
  scope_valid s -> scope_valid s' -> encode s = Ok raw -> encode s' = Ok raw' ->
  starts_with raw raw' = true -> s = s'.
Proof.
  intros Hs Hs' He He' Hp.
  assert (scope_vals s = scope_vals s') as E.
  { eapply (kind_prefix_eq (segs "scope")); try exact He; try exact He'; try exact Hp; try done.
    - by apply (sho_typed _ _ scope_shape_ok).
    - by apply (sho_typed _ _ scope_shape_ok). }
  destruct s, s'. unfold scope_vals, vstr in E. cbn in E. congruence.
Qed.

(** A key that extends the encoding of a scope. *)
Definition scoped (s : Scope) (k : bytes) : Prop :=
  scope_valid s /\ exists raw tail, encode s = Ok raw /\ k = raw ++ tail.

Lemma scoped_region s k : scoped s k -> in_region data_tag k = true.
Proof.
  intros [_ (raw & tl & He & ->)]. apply in_region_app.
  apply (encode_literal_region data_tag [] (tail (segs "scope")) (scope_vals s) raw He).
Qed.

Lemma scoped_settled s k s' raw' :
  scoped s k -> scope_valid s' -> encode s' = Ok raw' -> settled raw' k.
Proof.
  intros [Hs (raw & tail & He & ->)] Hs' He' Hp. apply starts_with_spec in Hp as (r & E).
  assert (s = s') as ->.
  { eapply (scope_prefix_free s s' raw raw'); try done. apply starts_with_spec. exists (tail ++ r).
    by rewrite E, app_assoc. }
  rewrite He in He'. apply Ok_inj in He' as ->. apply starts_with_app.
Qed.

Lemma scoped_starts s k s' raw' :
  scoped s k -> scope_valid s' -> encode s' = Ok raw' -> starts_with raw' k = true <-> s = s'.
Proof.
  intros Hk Hs' He'. pose proof Hk as [Hs (raw & tail & He & ->)]. split.
  - intros Hp. destruct (decide (s = s')) as [|Hne]; [done|]. exfalso.
    destruct (starts_with raw raw') eqn:E1; [by apply Hne; eapply scope_prefix_free|].
    destruct (starts_with raw' raw) eqn:E2; [by apply Hne; symmetry; eapply scope_prefix_free|].
    apply starts_with_spec in Hp as (r & E).
    pose proof (lex_apart raw raw' tail r E1 E2) as L. rewrite E, lex_refl in L.
    symmetry in L. apply lex_eq in L as ->. rewrite <-(app_nil_r raw') in E1 at 2.
    by rewrite starts_with_app in E1.
  - intros ->. rewrite He in He'. apply Ok_inj in He' as ->. apply starts_with_app.
Qed.

Definition scope_segs : list Segment := segs "scope".

Lemma scoped_encode rest s ws e :
  scope_valid s -> encode_steps (scope_segs ++ rest) (scope_vals s ++ ws) = Ok e -> scoped s e.
Proof.
  intros Hs He. apply encode_steps_app in He as (a & b & Ha & Hb & ->); [|done].
  split; [done|]. exists a, b. done.
Qed.

(** Every kind of data key extends its scope. *)
Lemma user_key_scoped k e : scope_valid (uk_scope k) -> encode k = Ok e -> scoped (uk_scope k) e.
Proof. intros Hs He. apply (scoped_encode (drop 7 (segs "kv")) (uk_scope k) [vstr (uk_key k)]); [done|exact He]. Qed.
Lemma table_scoped k e : scope_valid (tb_scope k) -> encode k = Ok e -> scoped (tb_scope k) e.
Proof. intros Hs He. apply (scoped_encode (drop 7 (segs "table")) (tb_scope k) [vstr (tb_name k)]); [done|exact He]. Qed.
Lemma entity_scoped k e :
  scope_valid (tb_scope (en_table k)) -> encode k = Ok e -> scoped (tb_scope (en_table k)) e.
Proof.
  intros Hs He. apply (scoped_encode (drop 7 (segs "table")) (tb_scope (en_table k)) [vstr (tb_name (en_table k)); vbytes (en_id k)]);
    [done|exact He].
Qed.
Lemma measurement_scoped k e : scope_valid (ms_scope k) -> encode k = Ok e -> scoped (ms_scope k) e.
Proof.
  intros Hs He. apply (scoped_encode (drop 7 (segs "measurement")) (ms_scope k) [vstr (ms_name k); vu64 (ms_timestamp k)]);
    [done|exact He].
Qed.
Lemma blob_id_scoped k e : scope_valid (bi_scope k) -> encode k = Ok e -> scoped (bi_scope k) e.
Proof. intros Hs He. apply (scoped_encode (drop 7 (segs "blob_id")) (bi_scope k) [VHash (bi_hash k)]); [done|exact He]. Qed.
Lemma blob_meta_scoped k e :
  scope_valid (bi_scope (bm_blob k)) -> encode k = Ok e -> scoped (bi_scope (bm_blob k)) e.
Proof.
  intros Hs He. apply (scoped_encode (drop 7 (segs "blob_meta")) (bi_scope (bm_blob k)) [VHash (bi_hash (bm_blob k)); vstr (bm_path k)]);
    [done|exact He].
Qed.
Lemma path_scoped (k : Path) e : scope_valid (pt_scope k) -> encode k = Ok e -> scoped (pt_scope k) e.
Proof. intros Hs He. apply (scoped_encode (drop 7 (segs "path")) (pt_scope k) [vstr (pt_path k)]); [done|exact He]. Qed.

(** Sync points lie outside the data and the index. *)
Lemma sync_point_foreign (sp : SyncPoint) e : encode sp = Ok e -> foreign e.
Proof.
  intros He. apply (encode_literal_region x23 [] (tail (segs "sync_point")) (sh_vals sync_point_shape sp)) in He.
  apply in_region_head in He as (r & ->). done.
Qed.

Lemma flag_foreign : foreign VERSION_INDEX_FLAG.
Proof. done. Qed.

(** Sync-point keys are told apart, and read back. *)
Lemma sync_point_encode_inj (p q : SyncPoint) e :
  sync_point_valid p -> sync_point_valid q -> encode p = Ok e -> encode q = Ok e -> p = q.
Proof.
  intros Hp Hq He He'. pose proof (generated_reads _ _ p e [] sync_point_shape_ok Hp He) as H1.
  rewrite (generated_reads _ _ q e [] sync_point_shape_ok Hq He') in H1. congruence.
Qed.

Lemma sync_point_decode (p : SyncPoint) e : sync_point_valid p -> encode p = Ok e -> decode_from_bytes e = Ok p.
Proof.
  intros Hp He. unfold decode_from_bytes. rewrite <-(app_nil_r e).
  unfold StoreKey_SyncPoint. by rewrite (generated_reads _ _ p e [] sync_point_shape_ok Hp He).
Qed.

(** ** Keys of the data kinds *)

Definition hash_valid (h : Hash) : Prop := has_fty FHash (VHash h).
Definition user_key_valid (k : UserKey) : Prop := scope_valid (uk_scope k) /\ is_str (uk_key k).
Definition table_valid (t : Table) : Prop := scope_valid (tb_scope t) /\ is_str (tb_name t).
Definition entity_valid (k : Entity) : Prop :=
  table_valid (en_table k) /\ Z.of_nat (length (en_id k)) < 2 ^ 64.
Definition measurement_valid (k : Measurement) : Prop :=
  scope_valid (ms_scope k) /\ is_str (ms_name k) /\ is_u64 (ms_timestamp k).
Definition blob_id_valid (k : BlobId) : Prop := scope_valid (bi_scope k) /\ hash_valid (bi_hash k).
Definition blob_meta_valid (k : BlobMeta) : Prop := blob_id_valid (bm_blob k) /\ is_str (bm_path k).
Definition path_valid (k : Path) : Prop := scope_valid (pt_scope k) /\ is_str (pt_path k).

Lemma table_shape_ok : shape_ok table_shape table_valid.
Proof. split; [by intros [[] ?]|done|]. intros [[n d s] k] ((?&?&?)&?). shape_solve. Qed.
Lemma blob_id_shape_ok : shape_ok blob_id_shape blob_id_valid.
Proof. split; [by intros [[] ?]|done|]. intros [[n d s] k] ((?&?&?)&?). shape_solve. Qed.
Lemma blob_meta_shape_ok : shape_ok blob_meta_shape blob_meta_valid.
Proof. split; [by intros [[[] ?] ?]|done|]. intros [[[n d s] k] p] (((?&?&?)&?)&?). shape_solve. Qed.
Lemma path_shape_ok : shape_ok path_shape path_valid.
Proof. split; [by intros [[] ?]|done|]. intros [[n d s] k] ((?&?&?)&?). shape_solve. Qed.

(** The kinds of the keys user data is stored under, and the full keys of
    those kinds. *)
Definition data_kinds : list string := ["table"; "kv"; "measurement"; "blob_id"; "blob_meta"; "path"]%string.
Definition data_key (k : bytes) : Prop := exists name, name ∈ data_kinds /\ kind_keys (segs name) k.

Definition stored (s : Scope) (k : bytes) : Prop := scoped s k /\ data_key k.

Lemma stored_region s k : stored s k -> in_region data_tag k = true.
Proof. intros [? _]. by eapply scoped_region. Qed.

Lemma shape_data_key {K} (sh : shape K) valid name k e :
  shape_ok sh valid -> valid k -> name ∈ data_kinds -> sh_segs sh = segs name ->
  sh_count sh = length (List.filter is_field (segs name)) ->
  encode_steps (sh_segs sh) (sh_vals sh k) = Ok e -> data_key e.
Proof.
  intros Hs Hk Hn Hg Hc He. exists name. split; [done|]. exists (sh_vals sh k). rewrite <-Hg.
  split; [by apply (sho_typed _ _ Hs)|]. split; [|done]. by rewrite (sho_count _ _ Hs), Hc, Hg.
Qed.

Ltac kind_of := first [by left | right; kind_of].

Lemma user_key_stored k e : user_key_valid k -> encode k = Ok e -> stored (uk_scope k) e.
Proof.
  intros Hk He. split; [apply user_key_scoped; [apply Hk|done]|].
  by apply (shape_data_key user_key_shape _ "kv" k e user_key_shape_ok Hk); [kind_of|..].
Qed.
Lemma entity_stored k e : entity_valid k -> encode k = Ok e -> stored (tb_scope (en_table k)) e.
Proof.
  intros Hk He. split; [apply entity_scoped; [apply Hk|done]|].
  apply (shape_data_key entity_shape _ "table" k e entity_shape_ok); try done; [|kind_of].
  destruct Hk as [[? ?] ?]. done.
Qed.
Lemma measurement_stored k e : measurement_valid k -> encode k = Ok e -> stored (ms_scope k) e.
Proof.
  intros Hk He. split; [apply measurement_scoped; [apply Hk|done]|].
  by apply (shape_data_key measurement_shape _ "measurement" k e measurement_shape_ok Hk); [kind_of|..].
Qed.
Lemma blob_id_stored k e : blob_id_valid k -> encode k = Ok e -> stored (bi_scope k) e.
Proof.
  intros Hk He. split; [apply blob_id_scoped; [apply Hk|done]|].
  by apply (shape_data_key blob_id_shape _ "blob_id" k e blob_id_shape_ok Hk); [kind_of|..].
Qed.
Lemma blob_meta_stored k e : blob_meta_valid k -> encode k = Ok e -> stored (bi_scope (bm_blob k)) e.
Proof.
  intros Hk He. split; [apply blob_meta_scoped; [apply Hk|done]|].
  by apply (shape_data_key blob_meta_shape _ "blob_meta" k e blob_meta_shape_ok Hk); [kind_of|..].
Qed.
Lemma path_stored (k : Path) e : path_valid k -> encode k = Ok e -> stored (pt_scope k) e.
Proof.
  intros Hk He. split; [apply path_scoped; [apply Hk|done]|].
  by apply (shape_data_key path_shape _ "path" k e path_shape_ok Hk); [kind_of|..].
Qed.

(** A hash that was read has its length. *)
Lemma tuple_length {A} (ds : list (dec A)) s l r :
  Dec.deserialize_tuple ds s = (Ok l, r) -> length l = length ds.
Proof.
  revert s l; induction ds as [|d ds IH]; intros s l; cbn [Dec.deserialize_tuple]; [by intros [= <- <-]|].
  unfold mbind, dec_bind. destruct (d s) as [[v|e] s1]; [|done].
  destruct (Dec.deserialize_tuple ds s1) as [[vs|e] s2] eqn:E; [|done]. intros [= <- <-]. cbn. f_equal. eauto.
Qed.

Lemma decode_array_length n s a r : decode_array n s = (Ok a, r) -> length a = n.
Proof.
  unfold decode_array, kdec_of, dmap. cbn [deserialize]. unfold dmap, mbind, dec_bind.
  destruct (Dec.deserialize_tuple _ s) as [[l|e] s1] eqn:E; [|done]. intros [= <- <-].
  apply tuple_length in E. cbn. by rewrite length_map, E, length_map, repeat_length.
Qed.

Lemma kbind_ok {A B} (m : kdec A) (f : A -> kdec B) s b r :
  (m ≫= f) s = (Ok b, r) -> exists a s', m s = (Ok a, s') /\ f a s' = (Ok b, r).
Proof. unfold mbind, kdec_bind. destruct (m s) as [[a|e] s']; [|done]. eauto. Qed.

Lemma decode_hash_valid s h r : @decode_from Hash _ s = (Ok h, r) -> hash_valid h.
Proof.
  cbn [decode_from StoreKey_Hash]. intros (id & s1 & _ & H)%kbind_ok. destruct (id =? 0); [|done].
  apply kbind_ok in H as (a & s2 & Ha & E). injection E as <- <-. by eapply decode_array_length.
Qed.

Definition hashes_valid (v : fval) : Prop := match v with VHash h => hash_valid h | _ => True end.

Lemma decode_field_hash t s v r : decode_field t s = (Ok v, r) -> hashes_valid v.
Proof.
  destruct t; cbn [decode_field]; intros (a & s1 & Ha & E)%kbind_ok; injection E as <- <-; try done.
  by eapply decode_hash_valid.
Qed.

Lemma decode_steps_hash flat n s vs r : decode_steps flat n s = (Ok vs, r) -> Forall hashes_valid vs.
Proof.
  revert n s vs; induction flat as [|[lit|name k] flat IH]; intros n s vs; cbn [decode_steps].
  - intros [= <- <-]. done.
  - intros (? & s1 & _ & H)%kbind_ok. by eapply IH.
  - destruct n as [|n]; [by intros [= <- <-]|].
    intros (v & s1 & Hv & H)%kbind_ok. apply kbind_ok in H as (ws & s2 & Hw & E). injection E as <- <-.
    constructor; [by eapply decode_field_hash|by eapply IH].
Qed.

Lemma decode_blob_hash b id : @decode_exact BlobId _ b = Ok id -> hash_valid (bi_hash id).
Proof.
  unfold decode_exact. destruct (decode_from b) as [[i|e] r] eqn:E; [|done].
  destruct (length r =? 0)%nat; [|done]. intros [= ->].
  apply kbind_ok in E as (vs & s1 & Hd%decode_steps_hash & E).
  destruct (sh_of blob_id_shape vs) as [i|] eqn:Ev; [|done]. injection E as -> ->.
  cbn [sh_of blob_id_shape] in Ev. repeat (case_match; simplify_eq).
  repeat (apply Forall_cons in Hd as [? Hd]). done.
Qed.
