(* ===== verification/TxInv.v ===== *)
(** * The store's invariant under transactions

    What holds of the rows at all times: every data row is well formed, lies
    in a scope and is indexed by version, every index row points at a data
    row, and every sync point decodes.  Every operation of a transaction
    keeps it, whether it succeeds or fails half-way. *)

From S2P Require Import Prelude Bytes Skey SkeyRoundtrip SkeyOrder Keys KeyScan Domain Kv Rows RowsFacts Changeset Scans Tx Sample TxKeys.
From Stdlib Require Import ZArith Lia Strings.Byte Sorting.Sorted.
From stdpp Require Import base list option strings sets.

Local Open Scope Z_scope.

Definition sync_tag : byte := x23.

Section Inv.
Context {S : Type} {kvS : Kv S} {kvLaws : KvLaws S}
  {pcMeta : Postcard SyncMeta} {pcMetaLaws : PostcardLaws SyncMeta}
  {pcBody : Postcard MeasurementBody}.
Implicit Types s : S.

Record store_ok s : Prop := mkStoreOk {
  so_index : index_ok s;
  so_scoped : forall k t kd v, in_region data_tag k = true -> is_u64 t ->
    kv_get s (encode_row k t kd) = Some v -> exists sc, stored sc k;
  so_sync : forall k v, kv_get s k = Some v -> in_region sync_tag k = true ->
    exists sp (sm : SyncMeta), sync_point_valid sp /\ encode sp = Ok k /\ from_bytes v = Some sm;
}.

Record tx_ok (t : Transaction) : Prop := mkTxOk {
  to_store : store_ok (tx_store t);
  to_ts : is_u64 (tx_ts t);
  to_node : length (tx_node t) = 16%nat;
  to_scopes : Forall scope_valid (active_scopes t);
}.

(** ** Writes keep the store's invariant *)

Lemma data_not_sync k : in_region data_tag k = true -> in_region sync_tag k = true -> False.
Proof. intros H1 H2. by eapply (region_ne data_tag sync_tag k k). Qed.

(** A change within the data region, index included. *)
Lemma store_ok_data s s' :
  store_ok s -> index_ok s' ->
  (forall k t kd v, in_region data_tag k = true -> is_u64 t ->
    kv_get s' (encode_row k t kd) = Some v -> exists sc, stored sc k) ->
  (forall x, foreign x -> kv_get s' x = kv_get s x) -> store_ok s'.
Proof.
  intros [Hi Hsc Hsy] Hi' Hsc' Hf. split; [done|done|].
  intros k v Hg Hr. rewrite Hf in Hg; [by eapply Hsy|]. apply in_region_head in Hr as (r & ->). done.
Qed.

Lemma foreign_put s k v ts x :
  in_region data_tag k = true -> foreign x -> kv_get (put_at_raw s k v ts) x = kv_get s x.
Proof.
  intros Hk Hx. unfold put_at_raw, insert_at_raw, kv_take. cbn [snd].
  rewrite !kv_get_insert_ne, !kv_get_remove_ne; try done; intros <-; destruct Hx as [H1 H2];
    try (rewrite index_region in H2; done); by rewrite row_region in H1.
Qed.

Lemma foreign_insert_at s k v ts x :
  in_region data_tag k = true -> foreign x -> kv_get (insert_at_raw s k v ts) x = kv_get s x.
Proof.
  intros Hk Hx. unfold insert_at_raw. rewrite !kv_get_insert_ne; try done; intros <-; destruct Hx as [H1 H2];
    try (rewrite index_region in H2; done); by rewrite row_region in H1.
Qed.

Lemma foreign_erase s k ts x :
  in_region data_tag k = true -> foreign x -> kv_get (erase_at_raw s k ts) x = kv_get s x.
Proof.
  intros Hk Hx. unfold erase_at_raw. rewrite !kv_get_insert_ne; try done; intros <-; destruct Hx as [H1 H2];
    try (rewrite index_region in H2; done); by rewrite row_region in H1.
Qed.

Lemma store_ok_put s sc k v ts :
  store_ok s -> stored sc k -> is_u64 ts -> store_ok (put_at_raw s k v ts).
Proof.
  intros Hs Hk Hts. pose proof (stored_region _ _ Hk) as Hr. apply (store_ok_data s); [done|..].
  - apply index_ok_put; [apply Hs|done..].
  - intros k' t kd w Hk' Ht. rewrite put_at_row by done.
    destruct (decide _) as [[-> ->]|]; [eauto|]. by apply (so_scoped _ Hs).
  - intros x Hx. by apply foreign_put.
Qed.

Lemma store_ok_insert_at s sc k v ts :
  store_ok s -> stored sc k -> is_u64 ts -> store_ok (insert_at_raw s k v ts).
Proof.
  intros Hs Hk Hts. pose proof (stored_region _ _ Hk) as Hr. apply (store_ok_data s); [done|..].
  - apply index_ok_insert_at; [apply Hs|done..].
  - intros k' t kd w Hk' Ht. rewrite insert_at_row by done.
    destruct (decide _) as [(-> & -> & _)|]; [eauto|]. by apply (so_scoped _ Hs).
  - intros x Hx. by apply foreign_insert_at.
Qed.

Lemma store_ok_erase s sc k ts :
  store_ok s -> stored sc k -> is_u64 ts -> store_ok (erase_at_raw s k ts).
Proof.
  intros Hs Hk Hts. pose proof (stored_region _ _ Hk) as Hr. apply (store_ok_data s); [done|..].
  - apply index_ok_erase; [apply Hs|done..].
  - intros k' t kd w Hk' Ht. rewrite erase_at_row by done.
    destruct (decide _) as [(-> & -> & _)|]; [eauto|]. by apply (so_scoped _ Hs).
  - intros x Hx. by apply foreign_erase.
Qed.

(** The entries of a changeset lie in scopes. *)
Definition entries_ok (es : list (bytes * option bytes)) : Prop :=
  Forall (fun e => exists sc, stored sc e.1) es.

Lemma store_ok_entries s ts es :
  store_ok s -> entries_ok es -> is_u64 ts -> store_ok (write_entries s ts es).
Proof.
  intros Hs Hes Hts. unfold write_entries. revert s Hs; induction Hes as [|[k o] es [sc Hk] _ IH]; intros s Hs; [done|].
  cbn [fold_left]. apply IH. unfold write_entry. cbn [fst snd] in *.
  destruct o; [by eapply store_ok_insert_at|by eapply store_ok_erase].
Qed.

Lemma store_ok_delete s raw ts :
  store_ok s -> is_u64 ts ->
  exists n s', delete_version_rows s raw ts = (Ok n, s') /\ store_ok s'.
Proof.
  intros Hs Hts. destruct (delete_version_rows_spec s raw ts (so_index _ Hs) Hts) as (n & s' & -> & Hi & Hrow & Hf).
  exists n, s'. split; [done|]. apply (store_ok_data s); [done|done| |done].
  intros k t kd v Hk Ht. rewrite Hrow by done. destruct (decide _); [done|]. by apply (so_scoped _ Hs).
Qed.

Lemma store_ok_insert_sync s sp k (sm : SyncMeta) v :
  store_ok s -> sync_point_valid sp -> encode sp = Ok k -> to_allocvec sm = Some v ->
  store_ok (kv_insert s k v).
Proof.
  intros Hs Hsp He Hv. pose proof (sync_point_foreign _ _ He) as Hf. destruct Hs as [Hi Hsc Hsy]. split.
  - by apply index_ok_insert_foreign.
  - intros k' t kd w Hk' Ht. rewrite kv_get_insert_ne; [by apply Hsc|].
    eapply foreign_ne; [exact Hf|by apply row_region|by left].
  - intros k' w Hg Hr. rewrite kv_get_insert in Hg. destruct (decide (k = k')) as [<-|]; [|by eapply Hsy].
    injection Hg as <-. exists sp, sm. split; [done|]. split; [done|]. by apply from_to.
Qed.

Lemma store_ok_remove_foreign s k : store_ok s -> foreign k -> store_ok (kv_remove s k).
Proof.
  intros [Hi Hsc Hsy] Hf. split.
  - by apply index_ok_remove_foreign.
  - intros k' t kd w Hk' Ht. rewrite kv_get_remove_ne; [by apply Hsc|].
    eapply foreign_ne; [exact Hf|by apply row_region|by left].
  - intros k' w Hg. rewrite kv_get_remove in Hg. destruct (decide _); [done|]. by apply Hsy.
Qed.

Lemma store_ok_insert_flag s : store_ok s -> store_ok (kv_insert s VERSION_INDEX_FLAG []).
Proof.
  intros [Hi Hsc Hsy]. split.
  - apply index_ok_insert_foreign; [done|apply flag_foreign].
  - intros k' t kd w Hk' Ht. rewrite kv_get_insert_ne; [by apply Hsc|].
    eapply foreign_ne; [apply flag_foreign|by apply row_region|by left].
  - intros k' w Hg Hr. rewrite kv_get_insert_ne in Hg; [by apply Hsy|]. intros <-. done.
Qed.

(** ** Triples *)

(** Run from a good state, the action ends in one, and an answer satisfies [Q]. *)
Definition triple {A} (m : TX A) (Q : A -> Prop) : Prop :=
  forall t, tx_ok t -> tx_ok (m t).2 /\ forall a, (m t).1 = Ok a -> Q a.

Lemma triple_ret {A} (a : A) (Q : A -> Prop) : Q a -> triple (mret a) Q.
Proof. intros Ha t Ht. split; [done|]. by intros b [= <-]. Qed.

Lemma triple_bind {A B} (m : TX A) (f : A -> TX B) (Q : A -> Prop) (R : B -> Prop) :
  triple m Q -> (forall a, Q a -> triple (f a) R) -> triple (m ≫= f) R.
Proof.
  intros Hm Hf t Ht. destruct (Hm t Ht) as [Ht' HQ]. unfold mbind, TX_bind.
  destruct (m t) as [[a|e] t'] eqn:E; cbn [fst snd] in *.
  - apply Hf; [by apply HQ|done].
  - split; [done|]. done.
Qed.

Lemma triple_weaken {A} (m : TX A) (Q R : A -> Prop) : triple m Q -> (forall a, Q a -> R a) -> triple m R.
Proof. intros Hm HQ t Ht. destruct (Hm t Ht) as [? Ha]. split; [done|]. eauto. Qed.

Lemma triple_txres {A} (r : res tx_error A) (Q : A -> Prop) :
  (forall a, r = Ok a -> Q a) -> triple (txres r) Q.
Proof. intros Hr t Ht. split; [done|]. exact Hr. Qed.

Lemma triple_reads {A} (f : S -> res tx_error A) (Q : A -> Prop) :
  (forall s a, store_ok s -> f s = Ok a -> Q a) -> triple (reads_ f) Q.
Proof. intros Hf t Ht. split; [done|]. intros a. apply Hf, Ht. Qed.

Lemma triple_writes (f : S -> S) : (forall s, store_ok s -> store_ok (f s)) -> triple (writes f) (fun _ => True).
Proof. intros Hf t [Hs ? ? ?]. split; [|done]. split; cbn; auto. Qed.

Lemma triple_key_bytes {K} `{StoreKey K} (k : K) : triple (key_bytes k) (fun e => encode k = Ok e).
Proof. apply triple_txres. unfold lift. destruct (encode k) as [x|]; [by intros b [= <-]|done]. Qed.

Lemma triple_split_ts : triple split_ts (fun p => is_u64 p.1 /\ length p.2 = 16%nat).
Proof. intros t [? ? ? ?]. split; [done|]. by intros a [= <-]. Qed.

Lemma triple_write_scope sc : scope_valid sc -> triple (write_scope sc) is_u64.
Proof.
  intros Hsc t [? ? ? Hf]. unfold write_scope. destruct (encode sc) as [raw|]; cbn [fst snd]; [|done].
  split; [|by intros a [= <-]]. split; cbn; try done.
  destruct (bool_decide _); [done|]. apply Forall_app. split; [done|]. by constructor.
Qed.

Lemma triple_true {A} (m : TX A) Q : triple m Q -> triple m (fun _ => True).
Proof. intros Hm. by eapply triple_weaken. Qed.

Lemma triple_for_each {A} (f : A -> TX unit) l :
  (forall x, x ∈ l -> triple (f x) (fun _ => True)) -> triple (for_each f l) (fun _ => True).
Proof.
  induction l as [|x l IH]; intros Hf; [by apply triple_ret|].
  apply (triple_bind _ _ (fun _ => True)); [apply Hf; left|]. intros _ _. apply IH. intros; apply Hf. by right.
Qed.

(** ** The operations *)

Ltac tbind Q := apply (triple_bind _ _ Q).

Lemma triple_put_at {K} `{StoreKey K} (k : K) v ts :
  (forall e, encode k = Ok e -> exists sc, stored sc e) -> is_u64 ts ->
  triple (put_at k v ts) (fun _ => True).
Proof.
  intros Hk Hts. tbind (fun e => encode k = Ok e); [apply triple_key_bytes|].
  intros e [sc He]%Hk. apply triple_writes. intros s Hs. by eapply store_ok_put.
Qed.

Lemma triple_erase_at {K} `{StoreKey K} (k : K) ts :
  (forall e, encode k = Ok e -> exists sc, stored sc e) -> is_u64 ts ->
  triple (erase_at k ts) (fun _ => True).
Proof.
  intros Hk Hts. tbind (fun e => encode k = Ok e); [apply triple_key_bytes|].
  intros e [sc He]%Hk. apply triple_writes. intros s Hs. by eapply store_ok_erase.
Qed.

Lemma triple_get {K} `{StoreKey K} (k : K) : triple (get k) (fun _ => True).
Proof. tbind (fun e => encode k = Ok e); [apply triple_key_bytes|]. intros e _. by apply triple_reads. Qed.

Lemma triple_insert_sync sp (sm : SyncMeta) :
  sync_point_valid sp -> triple (Tx.insert sp sm) (fun _ => True).
Proof.
  intros Hsp. tbind (fun e => encode sp = Ok e); [apply triple_key_bytes|]. intros e He.
  tbind (fun v => to_allocvec sm = Some v).
  { apply triple_txres. intros v. unfold ok_or. destruct (to_allocvec sm); [by intros [= ->]|done]. }
  intros v Hv. apply triple_writes. intros s Hs. by eapply store_ok_insert_sync.
Qed.

Lemma triple_delete_version sc ts : is_u64 ts -> triple (delete_version sc ts) (fun _ => True).
Proof.
  intros Hts. tbind (fun e => encode sc = Ok e); [apply triple_key_bytes|]. intros raw _ t [Hs ? ? ?].
  unfold act. destruct (store_ok_delete (tx_store t) raw ts Hs Hts) as (n & s' & -> & Hs').
  split; [|done]. split; cbn; done.
Qed.

Lemma triple_delete_scope_at_version sc ts :
  is_u64 ts -> triple (delete_scope_at_version sc ts) (fun _ => True).
Proof.
  intros Hts. tbind (fun _ : nat => True); [by apply triple_delete_version|]. intros. by apply triple_ret.
Qed.

Lemma triple_delete_chunk sp : is_u64 (sp_ts sp) -> triple (delete_chunk sp) (fun _ => True).
Proof.
  intros Hts. tbind (fun _ : nat => True); [by apply triple_delete_version|]. intros. by apply triple_ret.
Qed.

Lemma triple_forget_chunk sp : is_u64 (sp_ts sp) -> triple (forget_chunk sp) (fun _ => True).
Proof.
  intros Hts. tbind (fun e => encode sp = Ok e); [apply triple_key_bytes|]. intros e He.
  tbind (fun _ : unit => True); [by apply triple_delete_chunk|]. intros _ _. apply triple_writes. intros s Hs.
  apply store_ok_remove_foreign; [done|]. by eapply sync_point_foreign.
Qed.

Lemma triple_mark_purged sp sm : sync_point_valid sp -> triple (mark_syncpoint_purged sp sm) (fun _ => True).
Proof. apply triple_insert_sync. Qed.

Lemma triple_find_last sc o : triple (find_last_syncpoint_untracked sc o) (fun _ => True).
Proof.
  tbind (fun _ : bytes => True); [by apply triple_txres|]. intros p _.
  tbind (fun _ : option bytes => True); [by apply triple_reads|]. intros [key|] _; [|by apply triple_ret].
  tbind (fun _ : SyncPoint => True); [by apply triple_txres|]. intros. by apply triple_ret.
Qed.

Lemma triple_contains {K} `{StoreKey K} (k : K) : triple (contains_key_untracked k) (fun _ => True).
Proof. tbind (fun e => encode k = Ok e); [apply triple_key_bytes|]. intros. by apply triple_reads. Qed.

Lemma triple_insert_changeset sp sm es :
  sync_point_valid sp -> entries_ok es -> triple (insert_changeset sp sm es) (fun _ => True).
Proof.
  intros Hsp Hes. assert (is_u64 (sp_ts sp)) as Hts by apply Hsp.
  tbind (fun _ : bool => True); [apply triple_contains|]. intros [] _; [by apply triple_ret|].
  tbind (fun _ : unit => True); [by apply triple_insert_sync|]. intros _ _.
  destruct (sm_marker sm).
  - tbind (fun _ : unit => True); [|intros; by apply triple_ret].
    apply triple_writes. intros s Hs. by apply store_ok_entries.
  - tbind (fun _ : unit => True); [by apply triple_delete_scope_at_version|intros; by apply triple_ret].
Qed.

Lemma triple_commit_scope sc : scope_valid sc -> triple (commit_scope sc) (fun _ => True).
Proof.
  intros Hsc. tbind (fun p : Version * NodeId => is_u64 p.1 /\ length p.2 = 16%nat); [apply triple_split_ts|].
  intros [ts id] [Hts Hid]. tbind (fun _ : option SyncPoint => True); [apply triple_find_last|].
  intros last _ t Ht. unfold act. apply triple_insert_sync; [|done]. by repeat split; try apply Hsc; try apply Hts.
Qed.

Lemma triple_commit o : triple (commit o) (fun _ => True).
Proof.
  intros t [Hs Hts Hn Hsc]. unfold commit.
  pose proof (triple_for_each commit_scope (active_scopes t)) as H.
  specialize (H ltac:(intros x Hx; apply triple_commit_scope; by eapply Forall_forall)).
  specialize (H (mkTx (tx_store t) (tx_ts t) (tx_node t) [] (tx_retention t))).
  destruct H as [H _]; [by split; cbn|].
  destruct (for_each _ _ _) as [[u|e] t']; cbn [fst snd] in *; by split.
Qed.

(** ** Snapshots *)

Definition chunk_ok (c : Chunk) : Prop := is_u64 (sid_version (ck_id c)) /\ entries_ok (ck_entries c).

Lemma decode_from_bytes_u64 key sp : @decode_from_bytes SyncPoint _ key = Ok sp ->
  (exists e p, encode p = Ok e /\ sync_point_valid p /\ key = e) -> is_u64 (sp_ts sp).
Proof.
  intros Hd (e & p & He & Hp & ->). rewrite (sync_point_decode p e Hp He) in Hd.
  apply Ok_inj in Hd as <-. apply Hp.
Qed.

Definition sync_rows (rows : list (bytes * bytes)) : Prop :=
  Forall (fun r => exists p, sync_point_valid p /\ encode p = Ok r.1) rows.

Lemma triple_restore_sweep sc rows deleted :
  sync_rows rows -> Forall (fun i => is_u64 (sid_version i)) deleted ->
  triple (restore_sweep sc rows deleted) (Forall (fun i => is_u64 (sid_version i))).
Proof.
  intros Hr; revert deleted; induction Hr as [|[key w] rows (p & Hp & He) _ IH]; intros deleted Hd.
  { by apply triple_ret. }
  cbn [restore_sweep]. cbn [fst] in He.
  tbind (fun sp => sp = p).
  { apply triple_txres. intros sp. rewrite (sync_point_decode p key Hp He). by intros [= <-]. }
  intros sp ->. assert (is_u64 (sp_ts p)) as Hts by apply Hp.
  tbind (fun _ : unit => True); [by apply triple_delete_scope_at_version|]. intros _ _.
  tbind (fun e => encode p = Ok e); [apply triple_key_bytes|]. intros e Hpe.
  tbind (fun _ : unit => True).
  { apply triple_writes. intros s Hs. apply store_ok_remove_foreign; [done|]. by eapply sync_point_foreign. }
  intros _ _. apply IH. apply Forall_app. split; [done|]. by constructor.
Qed.

Lemma remove_first_sub id l l' : remove_first id l = Some l' -> l' ⊆ l.
Proof.
  revert l'; induction l as [|x l IH]; intros l'; cbn; [done|].
  destruct (bool_decide _); [intros [= <-]; set_solver|].
  destruct (remove_first id l); [|done]. intros [= <-]. specialize (IH _ eq_refl). set_solver.
Qed.

Lemma triple_restore_chunks sc now me snap deleted :
  scope_valid sc -> is_u64 now -> length me = 16%nat -> Forall chunk_ok snap ->
  Forall (fun i => is_u64 (sid_version i)) deleted ->
  triple (restore_chunks sc now me snap deleted) (Forall (fun i => is_u64 (sid_version i))).
Proof.
  intros Hsc Hnow Hme Hsn; revert deleted; induction Hsn as [|c snap [Hv He] _ IH]; intros deleted Hd.
  { by apply triple_ret. }
  cbn [restore_chunks].
  assert (forall pe d', d' ⊆ deleted ->
    triple (last ← find_last_syncpoint_untracked sc (Some (sid_version (ck_id c)));
            _ ← insert_changeset (mkSyncPoint sc (sid_version (ck_id c)) now me)
                  (mkSyncMeta (as_id <$> last) pe (sm_marker (ck_meta c)) (sm_retention (ck_meta c))) (ck_entries c);
            restore_chunks sc now me snap d') (Forall (fun i => is_u64 (sid_version i)))) as Hstep.
  { intros pe d' Hsub. tbind (fun _ : option SyncPoint => True); [apply triple_find_last|]. intros last _.
    tbind (fun _ : bool => True).
    { apply triple_insert_changeset; [|done]. repeat split; try apply Hsc; try apply Hv; try apply Hnow; done. }
    intros _ _. apply IH. rewrite Forall_forall in Hd |- *. intros x Hx. by apply Hd, Hsub. }
  destruct (remove_first (ck_id c) deleted) eqn:E; apply Hstep; [by eapply remove_first_sub|done].
Qed.

Lemma triple_restore_removals sc now me deleted :
  scope_valid sc -> is_u64 now -> length me = 16%nat ->
  Forall (fun i => is_u64 (sid_version i)) deleted ->
  triple (restore_removals sc now me deleted) (fun _ => True).
Proof.
  intros Hsc Hnow Hme; induction 1 as [|id deleted Hv _ IH]; [by apply triple_ret|].
  cbn [restore_removals]. tbind (fun _ : option SyncPoint => True); [apply triple_find_last|]. intros last _.
  tbind (fun _ : unit => True); [|intros; exact IH].
  apply triple_insert_sync. repeat split; try apply Hsc; try apply Hv; try apply Hnow; done.
Qed.

Lemma region_range tag lo hi k :
  in_region tag lo = true -> in_region tag hi = true -> ble lo k -> blt k hi -> in_region tag k = true.
Proof.
  rewrite !in_region_head. intros (a & ->) (b & ->). destruct k as [|x k]; [by unfold ble|].
  unfold ble, blt. cbn [lex]. intros H1 H2. exists k. f_equal. apply b2z_inj.
  destruct (Z.compare_spec (b2z tag) (b2z x)), (Z.compare_spec (b2z x) (b2z tag)); try done; lia.
Qed.

Lemma range_sync_rows s lo hi :
  store_ok s -> in_region sync_tag lo = true -> in_region sync_tag hi = true ->
  sync_rows (kv_range s lo (Some hi)).
Proof.
  intros Hs Hlo Hhi. apply Forall_forall. intros [k v] (Hg & Hl & Hh)%kv_range_elem.
  destruct (so_sync _ Hs k v Hg) as (sp & sm & ? & ? & _); [by apply (region_range sync_tag lo hi)|]. eauto.
Qed.

Lemma sync_point_starts vals e :
  encode_steps (segs "sync_point") vals = Ok e -> exists r, e = sync_tag :: data_tag :: r.
Proof.
  change (segs "sync_point") with (Literal [sync_tag] :: Literal [data_tag] :: drop 2 (segs "sync_point")).
  cbn [encode_steps]. rewrite !literal_encode. cbn [mbind res_bind].
  intros (e1 & He1 & E)%res_bind_ok. apply Ok_inj in E as <-.
  apply res_bind_ok in He1 as (e2 & _ & E). apply Ok_inj in E as <-. by exists e2.
Qed.

Lemma partial_range_region vals lo hi :
  partial_range "sync_point" vals = Ok (lo, hi) ->
  in_region sync_tag lo = true /\ in_region sync_tag hi = true.
Proof.
  unfold partial_range. intros (e & (r & ->)%sync_point_starts & Hr)%res_bind_ok.
  unfold range_of, prefix_to_range in Hr. rewrite bump_last_rev in Hr.
  assert (exists u, bump (data_tag :: r) = Some u) as [u Hu].
  { cbn. destruct (bump r); eauto. }
  cbn [bump] in Hr. cbn [bump] in Hu. rewrite Hu in Hr. cbn in Hr. by simplify_eq.
Qed.

Lemma triple_restore_snapshot sc snap :
  scope_valid sc -> Forall chunk_ok snap -> triple (restore_snapshot sc snap) (fun _ => True).
Proof.
  intros Hsc Hsn. tbind (fun p : Version * NodeId => is_u64 p.1 /\ length p.2 = 16%nat); [apply triple_split_ts|].
  intros [now me] [Hnow Hme]. cbn [fst snd] in *.
  tbind (fun r : bytes * bytes => in_region sync_tag r.1 = true /\ in_region sync_tag r.2 = true).
  { apply triple_txres. intros [lo hi]. unfold lift. destruct (partial_range _ _) as [[lo' hi']|] eqn:E; [|done].
    intros [= -> ->]. by eapply partial_range_region. }
  intros [lo hi] [Hlo Hhi]. cbn [fst snd] in *.
  assert (triple (reads_ (fun s => Ok (kv_range s lo (Some hi)))) sync_rows) as Hall.
  { apply triple_reads. intros s rows Hs E. apply Ok_inj in E as <-. by apply range_sync_rows. }
  tbind sync_rows.
  { destruct snap as [|c snap]; [done|]. destruct (sm_parent (ck_meta c)) as [parent|]; [|done].
    tbind (fun e => encode (with_sp_id sc parent) = Ok e); [apply triple_key_bytes|]. intros start He.
    apply triple_reads. intros s rows Hs E. apply Ok_inj in E as <-. apply Forall_drop, range_sync_rows; try done.
    apply sync_point_starts in He as (r & ->). done. }
  intros rows Hrows. tbind (Forall (fun i => is_u64 (sid_version i))); [by apply triple_restore_sweep|].
  intros deleted Hd. tbind (Forall (fun i => is_u64 (sid_version i))); [by apply triple_restore_chunks|].
  intros deleted' Hd'. by apply triple_restore_removals.
Qed.

(** ** The operations offered to clients *)

Lemma triple_key_put k v : user_key_valid k -> triple (key_put k v) (fun _ => True).
Proof.
  intros Hk. tbind is_u64; [by apply triple_write_scope, Hk|]. intros ts Hts. apply triple_put_at; [|done].
  intros e He. exists (uk_scope k). by apply user_key_stored.
Qed.

Lemma triple_key_delete k : user_key_valid k -> triple (key_delete k) (fun _ => True).
Proof.
  intros Hk. tbind is_u64; [by apply triple_write_scope, Hk|]. intros ts Hts. apply triple_erase_at; [|done].
  intros e He. exists (uk_scope k). by apply user_key_stored.
Qed.

Definition id_valid (id : bytes) : Prop := Z.of_nat (length id) < 2 ^ 64.

Lemma entity_in_scope tb id e :
  table_valid tb -> id_valid id -> encode (mkEntity tb id) = Ok e -> exists sc, stored sc e.
Proof. intros Hs Hi He. exists (tb_scope tb). by apply (entity_stored (mkEntity tb id)). Qed.

Lemma triple_tb_insert tb id v : table_valid tb -> id_valid id -> triple (tb_insert tb id v) (fun _ => True).
Proof.
  intros Hk Hi. tbind is_u64; [by apply triple_write_scope, Hk|]. intros ts Hts.
  apply triple_put_at; [|done]. intros e. by apply entity_in_scope.
Qed.

Lemma triple_tb_delete tb id : table_valid tb -> id_valid id -> triple (tb_delete tb id) (fun _ => True).
Proof.
  intros Hk Hi. tbind is_u64; [by apply triple_write_scope, Hk|]. intros ts Hts.
  apply triple_erase_at; [|done]. intros e. by apply entity_in_scope.
Qed.

Lemma triple_tb_insert_batched tb es :
  table_valid tb -> Forall (fun e => id_valid e.1) es -> triple (tb_insert_batched tb es) (fun _ => True).
Proof.
  intros Hk Hi. tbind is_u64; [by apply triple_write_scope, Hk|]. intros ts Hts. apply triple_for_each.
  intros [id v] Hin. apply triple_put_at; [|done]. intros e. apply entity_in_scope; [done|].
  rewrite Forall_forall in Hi. apply (Hi _ Hin).
Qed.

Lemma triple_publish sc m tags fields ts :
  measurement_valid (mkMeasurement sc m ts) -> triple (publish_measurement sc m tags fields ts) (fun _ => True).
Proof.
  intros Hk. tbind is_u64; [by apply triple_write_scope, Hk|]. intros now Hnow.
  tbind (fun _ : bytes => True); [by apply triple_txres|]. intros body _. apply triple_put_at; [|done].
  intros e He. exists sc. by apply (measurement_stored (mkMeasurement sc m ts)).
Qed.

Lemma triple_store_blob sha sc b :
  scope_valid sc -> length (sha b) = 32%nat -> triple (store_blob sha sc b) blob_id_valid.
Proof.
  intros Hk Hsha. assert (blob_id_valid (mkBlobId sc (Sha2 (sha b)))) as Hb by (by split).
  tbind is_u64; [by apply triple_write_scope|]. intros ts Hts.
  tbind (fun _ : unit => True); [|intros; by apply triple_ret]. apply triple_put_at; [|done].
  intros e He. exists sc. by apply (blob_id_stored _ e Hb).
Qed.

Lemma meta_in_scope sc h p e :
  scope_valid sc -> hash_valid h -> is_str p -> encode (mkBlobMeta (mkBlobId sc h) p) = Ok e ->
  exists sc, stored sc e.
Proof. intros Hs Hh Hp He. exists sc. by apply (blob_meta_stored (mkBlobMeta (mkBlobId sc h) p)). Qed.

Lemma path_in_scope p e : path_valid p -> encode p = Ok e -> exists sc, stored sc e.
Proof. intros Hs He. exists (pt_scope p). by apply path_stored. Qed.

Lemma triple_link_blob p id :
  path_valid p -> hash_valid (bi_hash id) -> triple (link_blob p id) (fun _ => True).
Proof.
  intros Hk Hh. tbind is_u64; [by apply triple_write_scope, Hk|]. intros ts Hts.
  tbind (fun _ : unit => True).
  { apply triple_put_at; [intros e; apply meta_in_scope; [apply Hk|done|apply Hk]|done]. }
  intros _ _. tbind (fun e => encode id = Ok e); [apply triple_key_bytes|]. intros idb _.
  apply triple_put_at; [intros e; by apply path_in_scope|done].
Qed.

Lemma triple_unlink_blob p :
  path_valid p ->
  triple (unlink_blob p) (fun r => forall id m, r = Some (id, m) -> hash_valid (bi_hash id)).
Proof.
  intros Hk. tbind is_u64; [by apply triple_write_scope, Hk|]. intros ts Hts.
  tbind (fun _ : option (bytes * bytes) => True); [apply triple_get|]. intros [[? raw]|] _; [|by apply triple_ret].
  tbind (fun id => hash_valid (bi_hash id)).
  { apply triple_txres. intros id. unfold lift. destruct (decode_exact raw) as [i|] eqn:E; [|done].
    intros [= <-]. by eapply decode_blob_hash. }
  intros id Hid. tbind (fun _ : option (bytes * bytes) => True); [apply triple_get|]. intros m _.
  tbind (fun _ : unit => True).
  { destruct (snd <$> m); [|by apply triple_ret].
    apply triple_erase_at; [intros e; apply meta_in_scope; [apply Hk|done|apply Hk]|done]. }
  intros _ _. tbind (fun _ : unit => True); [apply triple_erase_at; [intros e; by apply path_in_scope|done]|].
  intros. apply triple_ret. by intros ? ? [= <- <-].
Qed.

Lemma triple_move_blob p q :
  path_valid p -> path_valid q -> triple (move_blob p q) (fun _ => True).
Proof.
  intros Hp Hq.
  tbind (fun r : option (BlobId * option bytes) => forall id m, r = Some (id, m) -> hash_valid (bi_hash id)).
  { by apply triple_unlink_blob. }
  intros [[id ?]|] Hr; [apply triple_link_blob; [done|by eapply Hr]|by apply triple_txres].
Qed.

Lemma triple_ready : triple set_version_index_ready (fun _ => True).
Proof. apply triple_writes. apply store_ok_insert_flag. Qed.

(** ** Any sequence of operations *)

Inductive tx_op :=
  | OpKeyPut (k : UserKey) (v : bytes)
  | OpKeyDelete (k : UserKey)
  | OpTbInsert (tb : Table) (id v : bytes)
  | OpTbInsertBatched (tb : Table) (es : list (bytes * bytes))
  | OpTbDelete (tb : Table) (id : bytes)
  | OpPublish (sc : Scope) (m : str) (tags : list (str * str)) (fields : list (str * bytes)) (ts : Z)
  | OpStoreBlob (sc : Scope) (blob : bytes)
  | OpLink (p : Path) (id : BlobId)
  | OpUnlink (p : Path)
  | OpMove (p q : Path)
  | OpChangeset (sp : SyncPoint) (sm : SyncMeta) (es : list (bytes * option bytes))
  | OpDeleteChunk (sp : SyncPoint)
  | OpForget (sp : SyncPoint)
  | OpMarkPurged (sp : SyncPoint) (sm : SyncMeta)
  | OpRestore (sc : Scope) (snap : list Chunk)
  | OpReady
  | OpCommit (o : commit_outcome).

Definition tx_result {A} (m : @TX S A) (t : Transaction) : Transaction := (m t).2.

Definition run_op (sha : bytes -> bytes) (op : tx_op) (t : Transaction) : @Transaction S :=
  match op with
  | OpKeyPut k v => tx_result (key_put k v) t
  | OpKeyDelete k => tx_result (key_delete k) t
  | OpTbInsert tb id v => tx_result (tb_insert tb id v) t
  | OpTbInsertBatched tb es => tx_result (tb_insert_batched tb es) t
  | OpTbDelete tb id => tx_result (tb_delete tb id) t
  | OpPublish sc m tags fields ts => tx_result (publish_measurement sc m tags fields ts) t
  | OpStoreBlob sc b => tx_result (store_blob sha sc b) t
  | OpLink p id => tx_result (link_blob p id) t
  | OpUnlink p => tx_result (unlink_blob p) t
  | OpMove p q => tx_result (move_blob p q) t
  | OpChangeset sp sm es => tx_result (insert_changeset sp sm es) t
  | OpDeleteChunk sp => tx_result (delete_chunk sp) t
  | OpForget sp => tx_result (forget_chunk sp) t
  | OpMarkPurged sp sm => tx_result (mark_syncpoint_purged sp sm) t
  | OpRestore sc snap => tx_result (restore_snapshot sc snap) t
  | OpReady => tx_result set_version_index_ready t
  | OpCommit o => tx_result (commit o) t
  end.

(** What the types of the arguments guarantee, and that replicated entries
    name keys the schema knows. *)
Definition op_ok (op : tx_op) : Prop :=
  match op with
  | OpKeyPut k _ | OpKeyDelete k => user_key_valid k
  | OpTbInsert tb id _ | OpTbDelete tb id => table_valid tb /\ id_valid id
  | OpTbInsertBatched tb es => table_valid tb /\ Forall (fun e => id_valid e.1) es
  | OpPublish sc m _ _ ts => measurement_valid (mkMeasurement sc m ts)
  | OpStoreBlob sc _ => scope_valid sc
  | OpLink p id => path_valid p /\ hash_valid (bi_hash id)
  | OpUnlink p => path_valid p
  | OpMove p q => path_valid p /\ path_valid q
  | OpChangeset sp _ es => sync_point_valid sp /\ entries_ok es
  | OpDeleteChunk sp | OpForget sp => is_u64 (sp_ts sp)
  | OpMarkPurged sp _ => sync_point_valid sp
  | OpRestore sc snap => scope_valid sc /\ Forall chunk_ok snap
  | OpReady | OpCommit _ => True
  end.

Lemma triple_result {A} (m : TX A) Q t : triple m Q -> tx_ok t -> tx_ok (tx_result m t).
Proof. intros Hm Ht. by apply Hm. Qed.

Lemma run_op_ok sha op t :
  (forall b, length (sha b) = 32%nat) -> op_ok op -> tx_ok t -> tx_ok (run_op sha op t).
Proof.
  intros Hsha Hop Ht. destruct op; cbn [op_ok run_op] in *; (eapply triple_result; [|exact Ht]).
  - by apply triple_key_put.
  - by apply triple_key_delete.
  - destruct Hop. by apply triple_tb_insert.
  - destruct Hop. by apply triple_tb_insert_batched.
  - destruct Hop. by apply triple_tb_delete.
  - by apply triple_publish.
  - by apply triple_store_blob.
  - destruct Hop. by apply triple_link_blob.
  - by apply triple_unlink_blob.
  - destruct Hop. by apply triple_move_blob.
  - destruct Hop. by apply triple_insert_changeset.
  - by apply triple_delete_chunk.
  - by apply triple_forget_chunk.
  - by apply triple_mark_purged.
  - destruct Hop. by apply triple_restore_snapshot.
  - apply triple_ready.
  - apply triple_commit.
Qed.

Definition run_ops (sha : bytes -> bytes) (ops : list tx_op) (t : Transaction) : @Transaction S :=
  fold_left (fun t op => run_op sha op t) ops t.

Lemma run_ops_ok sha ops t :
  (forall b, length (sha b) = 32%nat) -> Forall op_ok ops -> tx_ok t -> tx_ok (run_ops sha ops t).
Proof.
  intros Hsha Hops. revert t; induction Hops as [|op ops Hop _ IH]; intros t Ht; [done|].
  cbn. apply IH. by apply run_op_ok.
Qed.

(** C1. The invariant of the store.  After any sequence of operations of a
    transaction, whether they succeed or fail half-way, every data row is a
    well-formed row of a key of the schema and is indexed by its version,
    every index row points at a data row, and every sync point decodes. *)
Theorem operations_keep_store (sha : bytes -> bytes) (ops : list tx_op) (t : @Transaction S)
    (Hsha : forall b, length (sha b) = 32%nat) (Hops : Forall op_ok ops) (Ht : tx_ok t) :
  tx_ok (run_ops sha ops t).
Proof. by apply run_ops_ok. Qed.

End Inv.

Arguments store_ok {S kvS pcMeta}. Arguments tx_ok {S kvS pcMeta}.

(** ** Examples *)

Import Sample.

Lemma empty_ok ts : is_u64 ts -> tx_ok (Sample.tx Sample.empty_store ts).
Proof. intros Hts. split; [|done|done|constructor]. by split; [split|..]. Qed.

Definition sample_sha (b : bytes) : bytes := take 32 (b ++ repeat x00 32).

Lemma sample_sha_length b : length (sample_sha b) = 32%nat.
Proof. unfold sample_sha. rewrite length_take, length_app, repeat_length. lia. Qed.

Definition sample_ops : list tx_op :=
  [OpKeyPut (Sample.key "a") [x2a]; OpStoreBlob Sample.scope [x01];
   OpLink (mkPath Sample.scope (lit "f")) (mkBlobId Sample.scope (Sha2 (sample_sha [x01])));
   OpCommit Committed; OpMove (mkPath Sample.scope (lit "f")) (mkPath Sample.scope (lit "g"));
   OpForget (mkSyncPoint Sample.scope 9 9 Sample.me)].

Lemma operations_keep_store_witness : tx_ok (run_ops sample_sha sample_ops (Sample.tx Sample.empty_store 9)).
Proof.
  apply operations_keep_store; [apply sample_sha_length| |by apply empty_ok].
  repeat (apply Forall_cons; split); try apply Forall_nil; try exact I; repeat split; vm_compute; congruence.
Defined.
