(* ===== verification/TxReads.v ===== *)
(** * Reads and writes of single keys

    What the operations on one key do to the versions in the store and what
    a read returns after them: the newest version decides, a write decides
    its own key at its own version and nothing else, and a batch of table
    inserts is the inserts one after the other. *)

From S2P Require Import Prelude Bytes Skey SkeyRoundtrip SkeyOrder Keys KeyScan Domain Kv Rows RowsFacts Changeset Scans Tx Sample TxKeys TxInv.
From Stdlib Require Import ZArith Lia Strings.Byte Sorting.Sorted.
From stdpp Require Import base list option strings sets.

Local Open Scope Z_scope.

Section Reads.
Context {S : Type} {kvS : Kv S} {kvLaws : KvLaws S}
  {pcMeta : Postcard SyncMeta} {pcMetaLaws : PostcardLaws SyncMeta}
  {pcBody : Postcard MeasurementBody}.
Implicit Types s : S.

(** ** Actions that succeed *)

Lemma tx_bind_ok {A B} (m : @TX S A) (f : A -> TX B) t a t' :
  m t = (Ok a, t') -> (m ≫= f) t = f a t'.
Proof. intros E. unfold mbind, TX_bind. by rewrite E. Qed.

Lemma key_bytes_ok {K} `{StoreKey K} (k : K) e (t : @Transaction S) : encode k = Ok e -> key_bytes k t = (Ok e, t).
Proof. intros E. unfold key_bytes, txres, lift. by rewrite E. Qed.

Definition with_scope (sc : Scope) (t : @Transaction S) : Transaction :=
  mkTx (tx_store t) (tx_ts t) (tx_node t)
    (if bool_decide (sc ∈ active_scopes t) then active_scopes t else active_scopes t ++ [sc])
    (tx_retention t).

Lemma write_scope_ok sc raw (t : @Transaction S) :
  encode sc = Ok raw -> write_scope sc t = (Ok (tx_ts t), with_scope sc t).
Proof. intros E. unfold write_scope. by rewrite E. Qed.

Lemma put_at_ok {K} `{StoreKey K} (k : K) e v ts (t : @Transaction S) :
  encode k = Ok e -> put_at k v ts t = (Ok tt, set_store t (put_at_raw (tx_store t) e v ts)).
Proof. intros E. unfold put_at. by rewrite (tx_bind_ok _ _ _ _ _ (key_bytes_ok k e t E)). Qed.

Lemma erase_at_ok {K} `{StoreKey K} (k : K) e ts (t : @Transaction S) :
  encode k = Ok e -> erase_at k ts t = (Ok tt, set_store t (erase_at_raw (tx_store t) e ts)).
Proof. intros E. unfold erase_at. by rewrite (tx_bind_ok _ _ _ _ _ (key_bytes_ok k e t E)). Qed.

Lemma get_from_ok {K} `{StoreKey K} (k : K) e ts (t : @Transaction S) :
  encode k = Ok e -> get_from k ts t = (get_from_raw (tx_store t) e ts, t).
Proof. intros E. unfold get_from. by rewrite (tx_bind_ok _ _ _ _ _ (key_bytes_ok k e t E)). Qed.

(** ** Reads after writes *)

Lemma store_decodable s sc k : store_ok s -> scoped sc k -> decodable s k.
Proof. intros Hs Hk. apply index_ok_decodable; [apply Hs|by eapply scoped_region]. Qed.

(** A version newer than [ts] says something of the key. *)
Definition newer s (k : bytes) (ts : Version) : Prop :=
  exists t', is_u64 t' /\ ts < t' /\ verdict s k t' <> None.

(** The value a read of the newest version gives. *)
Definition value_of s (k : bytes) : res tx_error (option bytes) :=
  r ← get_from_raw s k u64_max; Ok (snd <$> (r : option (bytes * bytes))).

Lemma value_of_ext s s' k :
  decodable s k -> decodable s' k ->
  (forall t, is_u64 t -> verdict s k t = verdict s' k t) -> value_of s k = value_of s' k.
Proof.
  intros Hs Hs' E. unfold value_of. rewrite (get_from_ext s s' k u64_max Hs Hs'); [done|]. intros. by apply E.
Qed.

Lemma value_of_newest s k t o : decodable s k -> newest s k u64_max t o -> value_of s k = Ok o.
Proof. intros Hs Hn. unfold value_of. rewrite (get_newest _ _ _ _ _ Hs Hn). by destruct o. Qed.

(** A store in which version [ts] of the key was set to [o]. *)
Definition decided s s' (k : bytes) (ts : Version) (o : option bytes) : Prop :=
  forall k' t, in_region data_tag k' = true -> is_u64 t ->
    verdict s' k' t = if decide (k = k' /\ ts = t) then Some o else verdict s k' t.

Lemma decided_value s s' k ts o :
  in_region data_tag k = true -> is_u64 ts -> decodable s k -> decodable s' k -> decided s s' k ts o ->
  (~ newer s k ts -> value_of s' k = Ok o) /\ (newer s k ts -> value_of s' k = value_of s k).
Proof.
  intros Hk Hts Hs Hs' Hd. split.
  - intros Hn. apply (value_of_newest s' k ts o Hs'). repeat split; try apply Hts.
    + unfold is_u64, u64_max in *. lia.
    + rewrite Hd by done. by rewrite decide_True.
    + intros t' Ht' Hlt. rewrite Hd by done. rewrite decide_False by lia.
      destruct (verdict s k t') eqn:E; [|done]. exfalso. apply Hn. exists t'. rewrite E. by repeat split; try apply Ht'; try lia.
  - intros (t1 & Ht1 & Hlt & Hv1).
    destruct (get_from_spec s k u64_max Hs) as [(t & o' & Hn & Hg)|[Hn _]].
    2: { exfalso. apply Hv1, Hn; [done|]. unfold is_u64, u64_max in *. lia. }
    assert (newest s' k u64_max t o') as Hn'.
    { destruct Hn as (Ht & Hle & Hv & Hmax). assert (ts < t).
      { destruct (Z.lt_ge_cases ts t) as [|Hge]; [done|]. exfalso. apply Hv1, Hmax; [done|].
        unfold is_u64, u64_max in *. lia. }
      repeat split; try apply Ht; [lia|..].
      - rewrite Hd by done. by rewrite decide_False by lia.
      - intros t' Ht' Hb. rewrite Hd by done. rewrite decide_False by lia. by apply Hmax. }
    rewrite (value_of_newest s' k t o' Hs' Hn'). symmetry. by eapply value_of_newest.
Qed.

Lemma decided_other s s' k ts o k' :
  in_region data_tag k' = true -> decodable s k' -> decodable s' k' -> decided s s' k ts o -> k <> k' ->
  value_of s' k' = value_of s k'.
Proof.
  intros Hk Hs Hs' Hd Hne. apply value_of_ext; [done..|]. intros t Ht. rewrite Hd by done.
  rewrite decide_False; [done|]. by intros [? _].
Qed.

Lemma put_decided s k v ts :
  in_region data_tag k = true -> is_u64 ts -> decided s (put_at_raw s k v ts) k ts (Some v).
Proof. intros ? ? k' t ? ?. by apply put_at_verdict. Qed.
Lemma erase_decided s k ts :
  in_region data_tag k = true -> is_u64 ts -> decided s (erase_at_raw s k ts) k ts None.
Proof. intros ? ? k' t ? ?. by apply erase_at_verdict. Qed.

(** ** The operations on keys *)

Lemma key_get_value k e (t : @Transaction S) : encode k = Ok e -> key_get k t = (value_of (tx_store t) e, t).
Proof.
  intros He. unfold key_get, get, value_of. unfold mbind at 1, TX_bind. rewrite (get_from_ok k e _ t He).
  by destruct (get_from_raw _ _ _).
Qed.

Lemma key_put_ok k e v (t : @Transaction S) :
  user_key_valid k -> encode k = Ok e ->
  key_put k v t = (Ok tt, set_store (with_scope (uk_scope k) t) (put_at_raw (tx_store t) e v (tx_ts t))).
Proof.
  intros Hk He. destruct (user_key_scoped k e (proj1 Hk) He) as [_ (raw & tl & Hr & _)].
  unfold key_put. rewrite (tx_bind_ok _ _ _ _ _ (write_scope_ok _ raw t Hr)). by rewrite (put_at_ok k e).
Qed.

Lemma key_delete_ok k e (t : @Transaction S) :
  user_key_valid k -> encode k = Ok e ->
  key_delete k t = (Ok tt, set_store (with_scope (uk_scope k) t) (erase_at_raw (tx_store t) e (tx_ts t))).
Proof.
  intros Hk He. destruct (user_key_scoped k e (proj1 Hk) He) as [_ (raw & tl & Hr & _)].
  unfold key_delete. rewrite (tx_bind_ok _ _ _ _ _ (write_scope_ok _ raw t Hr)). by rewrite (erase_at_ok k e).
Qed.

Lemma user_key_inj k k' e :
  user_key_valid k -> user_key_valid k' -> encode k = Ok e -> encode k' = Ok e -> k = k'.
Proof.
  intros Hp Hq He He'. pose proof (generated_reads _ _ k e [] user_key_shape_ok Hp He) as H1.
  rewrite (generated_reads _ _ k' e [] user_key_shape_ok Hq He') in H1. congruence.
Qed.

(** What a write of one version of a key does to the values read. *)
Lemma decided_reads s s' sc k ts o :
  store_ok s -> store_ok s' -> stored sc k -> is_u64 ts -> decided s s' k ts o ->
  (~ newer s k ts -> value_of s' k = Ok o) /\ (newer s k ts -> value_of s' k = value_of s k)
  /\ (forall sc' k', scoped sc' k' -> k <> k' -> value_of s' k' = value_of s k').
Proof.
  intros Hs Hs' Hk Hts Hd. pose proof (stored_region _ _ Hk) as Hr. destruct Hk as [Hk _].
  destruct (decided_value s s' k ts o Hr Hts) as [H1 H2]; [by eapply store_decodable..|done|].
  split; [done|]. split; [done|]. intros sc' k' Hk' Hne.
  apply (decided_other s s' k ts o); try done; [by eapply scoped_region|by eapply store_decodable..].
Qed.

(** Last writer wins by version.  After [key_put], a read of the key gives the
    value written unless the store holds a newer version of the key, and
    then it gives what it gave before; after [key_delete] it gives nothing,
    under the same condition.  Reads of every other key are as before the
    write. *)
Theorem key_last_writer_wins (t : @Transaction S) (k k' : UserKey) (e : bytes) (v : bytes)
    (Ht : tx_ok t) (Hk : user_key_valid k) (Hk' : user_key_valid k') (He : encode k = Ok e)
    (He' : is_ok (encode k') = true) (Hne : k <> k') :
  let put := key_put k v t in
  let del := key_delete k t in
  put.1 = Ok tt /\ del.1 = Ok tt
  /\ (~ newer (tx_store t) e (tx_ts t) ->
      (key_get k put.2).1 = Ok (Some v) /\ (key_get k del.2).1 = Ok None)
  /\ (newer (tx_store t) e (tx_ts t) ->
      (key_get k put.2).1 = (key_get k t).1 /\ (key_get k del.2).1 = (key_get k t).1)
  /\ (key_get k' put.2).1 = (key_get k' t).1
  /\ (key_get k' del.2).1 = (key_get k' t).1.
Proof.
  cbv zeta. destruct (encode k') as [e'|] eqn:E'; [|done]. destruct (Ht) as [Hs Hts _ _].
  pose proof (user_key_stored k e Hk He) as Hst.
  pose proof (user_key_scoped k' e' (proj1 Hk') E') as Hsc'.
  assert (e <> e') as Hee by (intros ->; apply Hne; by eapply user_key_inj).
  rewrite (key_put_ok k e v t Hk He), (key_delete_ok k e t Hk He). cbn [fst snd].
  rewrite !(key_get_value k e _ He), !(key_get_value k' e' _ E'). cbn [fst tx_store set_store].
  destruct (decided_reads (tx_store t) _ _ e (tx_ts t) (Some v) Hs
    (store_ok_put _ _ _ v _ Hs Hst Hts) Hst Hts (put_decided _ _ _ _ (stored_region _ _ Hst) Hts)) as (P1 & P2 & P3).
  destruct (decided_reads (tx_store t) _ _ e (tx_ts t) None Hs
    (store_ok_erase _ _ _ _ Hs Hst Hts) Hst Hts (erase_decided _ _ _ (stored_region _ _ Hst) Hts)) as (D1 & D2 & D3).
  repeat split; eauto.
Qed.

(** A read up to a version returns what the newest version up to it says of the
    key: its value, or nothing if that version deletes the key; and nothing
    when no such version exists.  It never fails on a store that satisfies
    the invariant, and changes nothing. *)
Theorem get_from_newest {K} `{StoreKey K} (k : K) (e : bytes) (sc : Scope) (ts : Version)
    (t : @Transaction S) (Ht : tx_ok t) (He : encode k = Ok e) (Hsc : scoped sc e) :
  (exists t' o, newest (tx_store t) e ts t' o /\ get_from k ts t = (Ok ((fun v => (e, v)) <$> o), t))
  \/ ((forall t', is_u64 t' -> t' <= ts -> verdict (tx_store t) e t' = None)
      /\ get_from k ts t = (Ok None, t)).
Proof.
  rewrite (get_from_ok k e ts t He).
  destruct (get_from_spec (tx_store t) e ts (store_decodable _ _ _ (to_store _ Ht) Hsc)) as [(t' & o & Hn & ->)|[Hn ->]].
  - left. eauto.
  - right. eauto.
Qed.

(** ** Batches *)

Lemma with_scope_again sc (t : @Transaction S) s :
  with_scope sc (set_store (with_scope sc t) s) = set_store (with_scope sc t) s.
Proof.
  unfold with_scope, set_store. cbn. f_equal. destruct (bool_decide_reflect (sc ∈ active_scopes t)) as [Hin|Hin].
  - by rewrite bool_decide_true.
  - rewrite bool_decide_true; [done|]. apply elem_of_app. right. by left.
Qed.

Lemma batch_step tb raw es (t : @Transaction S) :
  encode (tb_scope tb) = Ok raw -> with_scope (tb_scope tb) t = t ->
  for_each (fun e => put_at (mkEntity tb e.1) e.2 (tx_ts t)) es t
  = for_each (fun e => tb_insert tb e.1 e.2) es t.
Proof.
  intros Hr. revert t; induction es as [|[id v] es IH]; intros t Hw; [done|]. cbn [for_each fst snd].
  assert (tb_insert tb id v t = put_at (mkEntity tb id) v (tx_ts t) t) as E.
  { unfold tb_insert. by rewrite (tx_bind_ok _ _ _ _ _ (write_scope_ok _ raw t Hr)), Hw. }
  unfold mbind, TX_bind. rewrite E. destruct (encode (mkEntity tb id)) as [e|er] eqn:Ee.
  - rewrite (put_at_ok _ e _ _ t Ee). apply (IH (set_store t _)). rewrite <-Hw at 1. rewrite with_scope_again. by rewrite Hw.
  - unfold put_at, key_bytes, txres, mbind, TX_bind, lift. by rewrite Ee.
Qed.

(** A batched insert is the inserts one after the other: same result, same
    error at the same entry, same rows written and same scopes touched. *)
Theorem tb_insert_batched_sequential (tb : Table) (e : bytes * bytes) (es : list (bytes * bytes))
    (t : @Transaction S) :
  tb_insert_batched tb (e :: es) t = for_each (fun e => tb_insert tb e.1 e.2) (e :: es) t.
Proof.
  destruct (encode (tb_scope tb)) as [raw|er] eqn:Hr.
  - assert (tb_insert_batched tb (e :: es) t
      = for_each (fun e => put_at (mkEntity tb e.1) e.2 (tx_ts t)) (e :: es) (with_scope (tb_scope tb) t)) as ->.
    { unfold tb_insert_batched. by rewrite (tx_bind_ok _ _ _ _ _ (write_scope_ok _ raw t Hr)). }
    assert (with_scope (tb_scope tb) (with_scope (tb_scope tb) t) = with_scope (tb_scope tb) t) as Hw.
    { exact (with_scope_again (tb_scope tb) t (tx_store t)). }
    etransitivity; [exact (batch_step tb raw (e :: es) (with_scope (tb_scope tb) t) Hr Hw)|]. cbn [for_each].
    unfold mbind, TX_bind. assert (tb_insert tb e.1 e.2 (with_scope (tb_scope tb) t) = tb_insert tb e.1 e.2 t) as ->; [|done].
    unfold tb_insert. by rewrite !(tx_bind_ok _ _ _ _ _ (write_scope_ok _ raw _ Hr)), Hw.
  - unfold tb_insert_batched. cbn [for_each]. unfold tb_insert, write_scope, mbind, TX_bind. by rewrite Hr.
Qed.

End Reads.

(** ** Examples *)

Import Sample.

Lemma sample_key_valid k : utf8_valid (lit k) = true -> user_key_valid (Sample.key k).
Proof. intros Hk. split; [|exact Hk]. vm_compute. auto. Qed.

Definition key_a_bytes : bytes := Eval vm_compute in match encode (Sample.key "a") with Ok e => e | Err _ => [] end.
Lemma key_a_encode : encode (Sample.key "a") = Ok key_a_bytes.
Proof. vm_compute. reflexivity. Qed.

Lemma key_last_writer_wins_witness :
  let t := Sample.tx Sample.empty_store 9 in
  let put := key_put (Sample.key "a") [x2a] t in
  put.1 = Ok tt /\ (key_get (Sample.key "a") put.2).1 = Ok (Some [x2a])
  /\ (key_get (Sample.key "b") put.2).1 = (key_get (Sample.key "b") t).1.
Proof.
  intros t put.
  destruct (key_last_writer_wins t (Sample.key "a") (Sample.key "b") key_a_bytes [x2a]
    (empty_ok 9 ltac:(unfold is_u64; lia)) (sample_key_valid "a" eq_refl) (sample_key_valid "b" eq_refl)
    key_a_encode ltac:(vm_compute; reflexivity) ltac:(discriminate)) as (H1 & _ & H2 & _ & H4 & _).
  split; [exact H1|]. split; [|exact H4]. apply H2. intros (t' & _ & _ & Hv). apply Hv. reflexivity.
Defined.

Lemma get_from_newest_witness :
  let t := Sample.tx Sample.empty_store 9 in
  (exists t' o, newest (tx_store t) key_a_bytes 9 t' o
      /\ get_from (Sample.key "a") 9 t = (Ok ((fun v => (key_a_bytes, v)) <$> o), t))
   \/ ((forall t', is_u64 t' -> t' <= 9 -> verdict (tx_store t) key_a_bytes t' = None)
      /\ get_from (Sample.key "a") 9 t = (Ok None, t)).
Proof.
  intros t. apply (get_from_newest (Sample.key "a") key_a_bytes Sample.scope 9 t
    (empty_ok 9 ltac:(unfold is_u64; lia)) key_a_encode).
  apply (user_key_scoped (Sample.key "a") key_a_bytes); [|exact key_a_encode]. vm_compute. auto.
Defined.
