(* ===== verification/TxScans.v ===== *)
(** * Listings

    The scans behind the listings of [src/swarm/db/src/store/fjall/tx.rs]
    (tables, keys by prefix, measurements in a time window, paths) against
    the values single reads return: a listing holds every live key of its
    kind under its prefix, once, in key order, and nothing else. *)

From S2P Require Import Prelude Bytes Skey SkeyRoundtrip SkeyOrder Keys KeyScan Domain Kv Rows RowsFacts Changeset Scans Tx Sample TxKeys TxInv TxReads.
From Stdlib Require Import ZArith Lia Strings.Byte Sorting.Sorted.
From stdpp Require Import base list option strings sets.

Local Open Scope Z_scope.

(** ** Patterns and the rows under them *)

(** The part of a key that a pattern with [n] fields set spells out. *)
Fixpoint ktake (c : list kseg) (n : nat) : list kseg :=
  match c with
  | [] => []
  | KB b :: c => KB b :: ktake c n
  | KF t :: c => match n with O => [] | S n => KF t :: ktake c n end
  end.

Lemma ktake_encode c vs : kencode (ktake c (length vs)) vs = kencode c vs.
Proof.
  revert vs; induction c as [|[b|t] c IH]; intros vs; [done| |].
  - cbn [ktake kencode]. by rewrite IH.
  - destruct vs as [|v vs]; [done|]. cbn [length ktake kencode]. by rewrite IH.
Qed.

Lemma ktake_typed c vs : ktyped c vs -> ktyped (ktake c (length vs)) vs.
Proof.
  revert vs; induction c as [|[b|t] c IH]; intros vs Ht; [done|by apply IH|].
  destruct vs as [|v vs]; [done|]. destruct Ht as [? Ht]. split; [done|]. by apply IH.
Qed.

Lemma ktake_fields c n : (n <= kfields c)%nat -> kfields (ktake c n) = n.
Proof.
  revert n; induction c as [|[b|t] c IH]; intros n Hn; cbn in *; [lia|auto|].
  destruct n as [|n]; [done|]. cbn. rewrite IH; lia.
Qed.

(** The two disagree on a literal byte before the pattern ends. *)
Fixpoint apart (c : list kseg) (n : nat) (d : list kseg) : bool :=
  match c, d with
  | KB a :: c, KB b :: d => if byte_eqb a b then apart c n d else true
  | KF _ :: c, KF _ :: d => match n with O => false | S n => apart c n d end
  | _, _ => false
  end.

Lemma covers_apart c vs d ws : covers c vs d ws -> apart c (length vs) d = true -> False.
Proof.
  revert vs d ws; induction c as [|[a|t] c IH]; intros vs d ws Hc Ha; [done| |].
  - destruct d as [|[b|u] d]; [done| |done]. destruct Hc as [-> Hc]. cbn [apart] in Ha.
    unfold byte_eqb in Ha. rewrite bool_decide_true in Ha by done. by eapply IH.
  - destruct d as [|[b|u] d]; [done|done|]. destruct vs as [|v vs]; [done|].
    destruct ws as [|w ws]; [done|]. destruct Hc as (_ & _ & Hc). by eapply IH.
Qed.

Lemma covers_length c vs d ws : covers c vs d ws -> length vs = kfields c -> (length c <= length d)%nat.
Proof.
  revert vs d ws; induction c as [|[a|t] c IH]; intros vs d ws Hc Hl; cbn in *; [lia| |].
  - destruct d as [|[b|u] d]; [done| |done]. destruct Hc as [_ Hc]. cbn. specialize (IH _ _ _ Hc Hl). lia.
  - destruct vs as [|v vs]; [done|]. destruct d as [|[b|u] d]; [done|done|].
    destruct ws as [|w ws]; [done|]. destruct Hc as (_ & _ & Hc). cbn in *. specialize (IH _ _ _ Hc ltac:(lia)). lia.
Qed.

Lemma ktyped_take c ws n : ktyped c ws -> ktyped c (take n ws).
Proof.
  revert ws n; induction c as [|[b|t] c IH]; intros ws n Ht.
  - destruct ws; [|done]. by rewrite take_nil.
  - by apply IH.
  - destruct ws as [|w ws]; [by rewrite take_nil|]. destruct n as [|n]; [done|].
    destruct Ht as [? Ht]. split; [done|]. by apply IH.
Qed.

(** The bytes of the first fields start the bytes of the key. *)
Lemma kencode_take c ws n e :
  kencode c ws = Ok e -> exists a b, kencode c (take n ws) = Ok a /\ e = a ++ b.
Proof.
  revert ws n e; induction c as [|[b|t] c IH]; intros ws n e; cbn [kencode].
  - intros [= <-]. by exists [], [].
  - intros (r & Hr & [= <-])%res_bind_ok. destruct (IH ws n r Hr) as (x & y & -> & ->).
    by exists (b :: x), y.
  - destruct ws as [|w ws]; [intros [= <-]; rewrite take_nil; by exists [], []|].
    intros (f & Hf & H)%res_bind_ok. apply res_bind_ok in H as (r & Hr & [= <-]).
    destruct n as [|n]; [by exists [], (f ++ r)|]. cbn [take].
    destruct (IH ws n r Hr) as (x & y & Hx & ->). exists (f ++ x), y. rewrite Hf. cbn [mbind res_bind].
    rewrite Hx. split; [done|]. by rewrite app_assoc.
Qed.

(** A key of the kind that a pattern of the kind extends, extends the pattern. *)
Lemma settled_same c vs ws p k :
  ktyped c vs -> ktyped c ws -> (length vs <= kfields c)%nat -> length ws = kfields c ->
  kencode c vs = Ok p -> kencode c ws = Ok k -> settled p k.
Proof.
  intros Hv Hw Hn Lw Hp Hk Hs. destruct (kencode_take c ws (length vs) k Hk) as (a & b & Ha & ->).
  assert (length (take (length vs) ws) = length vs) as Lt by (rewrite length_take; lia).
  set (d := ktake c (length vs)) in *.
  assert (starts_with a p = true) as Hap.
  { apply starts_with_spec in Hs as (r & ->). rewrite <-app_assoc. apply starts_with_app. }
  assert (covers d (take (length vs) ws) d vs) as Hc.
  { apply (scan_exact d _ d vs a p); try done.
    - apply separated_refl. intros t _. apply fty_eqb_refl.
    - unfold d. rewrite <-Lt at 1. by apply ktake_typed, ktyped_take.
    - by apply ktake_typed.
    - unfold d. by rewrite ktake_fields.
    - unfold d. rewrite <-Lt at 1. by rewrite ktake_encode.
    - unfold d. by rewrite ktake_encode. }
  apply covers_self in Hc; [|unfold d; rewrite ktake_fields; lia..].
  rewrite Hc, Hp in Ha. apply Ok_inj in Ha as ->. apply starts_with_app.
Qed.

(** A scan with the first [n] fields of the kind set meets rows of that kind
    only, and no row of a key shorter than the pattern. *)
Definition scan_ok (name : string) (n : nat) : bool :=
  let c := kcode (segs name) in
  (n <=? kfields c)%nat && forallb (fun name' =>
    let d := kcode (segs name') in
    separated c n d && ((name' =? name)%string || apart c n d)
    && ((name' =? name)%string
        || separated d (kfields d) (ktake c n)
           && (apart d (kfields d) (ktake c n) || (length (ktake c n) <? length d)%nat))) data_kinds.

Lemma scan_kinds :
  scan_ok "table" 4 && scan_ok "kv" 3 && scan_ok "measurement" 4 && scan_ok "path" 3 = true.
Proof. vm_compute. reflexivity. Qed.

Lemma scan_data_key name vs p k :
  scan_ok name (length vs) = true -> vals_typed (segs name) vs -> encode_steps (segs name) vs = Ok p ->
  data_key k -> settled p k /\ (starts_with p k = true -> kind_keys (segs name) k).
Proof.
  intros [Hn Hall]%andb_true_iff Hv Hp (name' & Hin & ws & Hw & Lw & Hk).
  rewrite forallb_forall in Hall. specialize (Hall name' ltac:(by apply list_elem_of_In)).
  apply andb_true_iff in Hall as [[H1 H2]%andb_true_iff H3].
  pose proof Hk as Hk0. pose proof Hw as Hw0. apply Nat.leb_le in Hn.
  rewrite encode_steps_kcode in Hp, Hk. rewrite vals_typed_kcode in Hv, Hw.
  rewrite <-kfields_count in Lw. split.
  - apply orb_true_iff in H3 as [->%String.eqb_eq|[H3 H4]%andb_true_iff]; [by apply (settled_same (kcode (segs name)) vs ws)|].
    intros Hs. exfalso.
    assert (covers (kcode (segs name')) ws (ktake (kcode (segs name)) (length vs)) vs) as Hc.
    { apply (scan_exact _ ws _ vs k p); try done.
      - by rewrite Lw.
      - by apply ktake_typed.
      - by rewrite ktake_fields.
      - by rewrite ktake_encode. }
    apply orb_true_iff in H4 as [Ha|Hlt%Nat.ltb_lt].
    + rewrite <-Lw in Ha. by eapply covers_apart.
    + pose proof (covers_length _ _ _ _ Hc Lw). lia.
  - intros Hs. assert (covers (kcode (segs name)) vs (kcode (segs name')) ws) as Hc.
    { by apply (scan_exact _ vs _ ws p k). }
    apply orb_true_iff in H2 as [->%String.eqb_eq|Ha]; [|exfalso; by eapply covers_apart].
    exists ws. split; [done|]. split; [by rewrite Lw, kfields_count|done].
Qed.

(** ** Prefixes and sorted lists *)

Lemma prefix_range_iff p d :
  starts_with p d = true <-> ble p d /\ below (prefix_to_range p).2 d.
Proof.
  rewrite <-prefix_range_spec. unfold in_range_opt, below. rewrite andb_true_iff, ble_b_spec.
  destruct (prefix_to_range p).2; [by rewrite blt_b_spec|tauto].
Qed.

Lemma starts_with_trans a b c : starts_with a b = true -> starts_with b c = true -> starts_with a c = true.
Proof. rewrite !starts_with_spec. intros (r & ->) (r' & ->). exists (r ++ r'). by rewrite app_assoc. Qed.

(** Between the start of a prefix and a key under it there are only keys under it. *)
Lemma between_under p e d : starts_with p e = true -> ble p d -> ble d e -> starts_with p d = true.
Proof.
  rewrite !prefix_range_iff. intros [_ He] Hd Hde. split; [done|].
  destruct (prefix_to_range p).2 as [u|]; [|done]. cbn in *. by eapply ble_blt_trans.
Qed.

Lemma sorted_rev {A} (R : A -> A -> Prop) l :
  StronglySorted R l -> StronglySorted (fun a b => R b a) (rev l).
Proof.
  induction 1 as [|x l Hs IH Hall]; [constructor|]. cbn.
  assert (forall k, StronglySorted (fun a b => R b a) k -> Forall (fun y => R x y) k ->
    StronglySorted (fun a b => R b a) (k ++ [x])) as Hsnoc.
  { clear. induction k as [|y k IH]; intros Hs Ha; cbn; [by repeat constructor|].
    apply StronglySorted_inv in Hs as [Hs Hy]. apply Forall_cons in Ha as [Hxy Ha].
    constructor; [by apply IH|]. apply Forall_app. split; [done|]. by constructor. }
  apply Hsnoc; [done|]. by apply Forall_rev.
Qed.

Lemma sorted_weaken {A} (R R' : A -> A -> Prop) l :
  (forall a b, R a b -> R' a b) -> StronglySorted R l -> StronglySorted R' l.
Proof. intros HR. induction 1; constructor; [done|]. eapply Forall_impl; [done|]. naive_solver. Qed.

Section Listings.
Context {S : Type} {kvS : Kv S} {kvLaws : KvLaws S}
  {pcMeta : Postcard SyncMeta} {pcMetaLaws : PostcardLaws SyncMeta}
  {pcBody : Postcard MeasurementBody}.
Implicit Types s : S.

(** ** The live keys under a pattern *)

(** The newest version of the key is a value. *)
Definition live s (k v : bytes) : Prop := exists t, newest s k u64_max t (Some v).

(** The live keys that satisfy [sel], with their values, in key order. *)
Definition live_keys s (sel : bytes -> Prop) (out : list (bytes * bytes)) : Prop :=
  StronglySorted blt (map fst out) /\ forall k v, (k, v) ∈ out <-> sel k /\ live s k v.

Definition under (name : string) (p k : bytes) : Prop := kind_keys (segs name) k /\ starts_with p k = true.

(** A key range whose edges fall between the rows of one key and another's. *)
Definition clean_range (sel : bytes -> Prop) (lo : bytes) (hi : option bytes) (inside : bytes -> Prop) : Prop :=
  forall k t kd, sel k -> is_u64 t ->
    ble lo (encode_row k t kd) /\ below hi (encode_row k t kd) <-> inside k.

Lemma live_keys_unique s sel a b : live_keys s sel a -> live_keys s sel b -> a = b.
Proof.
  intros [Sa Ha] [Sb Hb]. apply sorted_ext; [done..|]. intros [k v]. by rewrite Ha, Hb.
Qed.

Lemma row_of_data s d v : store_ok s -> kv_get s d = Some v -> in_region data_tag d = true ->
  exists k t kd, data_key k /\ is_u64 t /\ d = encode_row k t kd.
Proof.
  intros Hs Hg Hr. destruct (ix_data _ (so_index _ Hs) d v Hg Hr) as (k & t & kd & Hk & Ht & -> & _).
  destruct (so_scoped _ Hs k t kd v Hk Ht Hg) as (sc & _ & Hd). eauto 10.
Qed.

Lemma prefix_live s name vs p :
  store_ok s -> scan_ok name (length vs) = true -> vals_typed (segs name) vs ->
  encode_steps (segs name) vs = Ok p -> in_region data_tag p = true ->
  rows_for s (under name p) (kv_prefix s p).
Proof.
  intros Hs Hn Hv Hp Hr. split; [apply kv_prefix_sorted|]. intros d v. rewrite kv_prefix_elem. split.
  - intros [Hg Hd]. split; [done|]. assert (in_region data_tag d = true) as Hdr.
    { apply starts_with_spec in Hd as (r & ->). by apply in_region_app. }
    destruct (row_of_data s d v Hs Hg Hdr) as (k & t & kd & Hk & Ht & ->).
    destruct (scan_data_key name vs p k Hn Hv Hp Hk) as [Hset Hkind].
    unfold encode_row in Hd. rewrite settled_row in Hd by done.
    exists k, t, kd. split; [split|]; auto.
  - intros [Hg (k & t & kd & [_ Hk] & Ht & ->)]. split; [done|]. apply starts_with_spec in Hk as (r & ->).
    unfold encode_row. rewrite <-app_assoc. apply starts_with_app.
Qed.

Lemma under_prefix_free name p : prefix_free (under name p).
Proof. intros k k' [Hk _] [Hk' _]. by apply (kind_keys_prefix_free (segs name)). Qed.

(** A scan of the whole pattern. *)
Lemma latest_under s name vs p :
  store_ok s -> scan_ok name (length vs) = true -> vals_typed (segs name) vs ->
  encode_steps (segs name) vs = Ok p -> in_region data_tag p = true ->
  exists out, latest None (kv_prefix s p) = map Ok out /\ live_keys s (under name p) out.
Proof.
  intros Hs Hn Hv Hp Hr. pose proof (prefix_live s name vs p Hs Hn Hv Hp Hr) as Hrows.
  destruct (latest_spec s _ _ (under_prefix_free name p) Hrows) as (out & E & Hso & Hel). by exists out.
Qed.

(** ** The edges of a range between keys of one kind *)

Lemma row_ge P e k t kd :
  prefix_free P -> P e -> P k -> ble e (encode_row k t kd) <-> ble e k.
Proof.
  intros HP He Hk. destruct (decide (e = k)) as [->|Hne].
  - split; intros _; [apply ble_refl|apply ble_prefix].
  - unfold ble, encode_row. rewrite <-(app_nil_r e) at 1. by rewrite (prefix_free_rows P e k _ _ HP He Hk Hne).
Qed.

Lemma row_lt P e k t kd :
  prefix_free P -> P e -> P k -> blt (encode_row k t kd) e <-> blt k e.
Proof.
  intros HP He Hk. rewrite <-!not_ble. by rewrite (row_ge P e k t kd HP He Hk).
Qed.

Lemma row_under P e k t kd :
  prefix_free P -> P e -> P k -> starts_with e (encode_row k t kd) = true -> e = k.
Proof.
  intros HP He Hk Hs. destruct (decide (e = k)) as [|Hne]; [done|]. exfalso.
  apply starts_with_spec in Hs as (r & E).
  pose proof (prefix_free_rows P e k r (be 8 (u64_max - t) ++ be 4 (kind_tag kd)) HP He Hk Hne) as L.
  rewrite <-E in L. unfold encode_row in L. rewrite lex_refl in L. symmetry in L. by apply lex_eq in L.
Qed.

Lemma row_lt_after P e u k t kd :
  prefix_free P -> P e -> P k -> prefix_to_range e = (e, Some u) ->
  blt (encode_row k t kd) u <-> ble k e.
Proof.
  intros HP He Hk Hu. pose proof (prefix_range_spec e (encode_row k t kd)) as Hs. rewrite Hu in Hs.
  unfold in_range_opt in Hs. cbn [fst snd] in Hs. split.
  - intros Hlt. apply blt_b_spec in Hlt. rewrite Hlt, andb_true_r in Hs.
    destruct (ble_b e (encode_row k t kd)) eqn:Hle.
    + symmetry in Hs. apply (row_under P) in Hs as ->; [apply ble_refl|done..].
    + apply not_blt. intros Hek%blt_ble. apply (row_ge P e k t kd HP He Hk), ble_b_spec in Hek. congruence.
  - intros Hke. destruct (decide (k = e)) as [->|Hne].
    + assert (starts_with e (encode_row e t kd) = true) as Hst by apply starts_with_app.
      rewrite Hst in Hs. apply andb_true_iff in Hs as [_ Hs]. by apply blt_b_spec.
    + apply ble_cases in Hke as [Hke|]; [|done]. apply (row_lt P e k t kd HP He Hk) in Hke.
      eapply blt_ble_trans; [exact Hke|]. apply blt_ble.
      pose proof (prefix_range_spec e e) as He'. rewrite Hu in He'. unfold in_range_opt in He'. cbn [fst snd] in He'.
      rewrite <-(app_nil_r e) in He' at 5. rewrite starts_with_app in He'.
      apply andb_true_iff in He' as [_ He']. by apply blt_b_spec.
Qed.

Lemma row_ge_after P e u k t kd :
  prefix_free P -> P e -> P k -> prefix_to_range e = (e, Some u) ->
  ble u (encode_row k t kd) <-> blt e k.
Proof.
  intros HP He Hk Hu. rewrite <-(not_blt (encode_row k t kd) u), <-(not_ble k e). by rewrite (row_lt_after P e u k t kd HP He Hk Hu).
Qed.

(** ** Ranges *)

Lemma range_is_prefix s p : kv_range s (prefix_to_range p).1 (prefix_to_range p).2 = kv_prefix s p.
Proof.
  apply sorted_ext; [apply kv_range_sorted|apply kv_prefix_sorted|]. intros [k v].
  rewrite kv_range_elem, kv_prefix_elem, <-prefix_range_spec. unfold in_range_opt, below.
  rewrite andb_true_iff, ble_b_spec. destruct (prefix_to_range p).2; [by rewrite blt_b_spec|tauto].
Qed.

(** A range inside a pattern, with clean edges, yields the live keys inside. *)
Lemma latest_range s name vs p lo hi (inside : bytes -> bool) out :
  store_ok s -> scan_ok name (length vs) = true -> vals_typed (segs name) vs ->
  encode_steps (segs name) vs = Ok p -> in_region data_tag p = true ->
  (forall d, ble lo d -> below hi d -> starts_with p d = true) ->
  clean_range (under name p) lo hi (fun k => inside k = true) ->
  live_keys s (under name p) out ->
  all_decode (kv_range s lo hi)
  /\ latest None (kv_range s lo hi) = map Ok (List.filter (fun r => inside r.1) out).
Proof.
  intros Hs Hn Hv Hp Hr Hlo Hc Hout. destruct (prefix_live s name vs p Hs Hn Hv Hp Hr) as [_ Hpre].
  assert (rows_for s (fun k => under name p k /\ inside k = true) (kv_range s lo hi)) as Hrows.
  { split; [apply kv_range_sorted|]. intros d v. rewrite kv_range_elem. split.
    - intros (Hg & Hl & Hb). pose proof (Hlo d Hl Hb) as Hd.
      destruct (proj1 (Hpre d v)) as [_ (k & t & kd & Hk & Ht & ->)]; [by apply kv_prefix_elem|].
      split; [done|]. exists k, t, kd. split; [|done]. split; [done|]. by eapply Hc.
    - intros [Hg (k & t & kd & [Hk Hi] & Ht & ->)]. split; [done|]. by eapply Hc. }
  split; [by eapply rows_for_decode|].
  destruct (latest_spec s (fun k => under name p k /\ inside k = true) (kv_range s lo hi))
    as (out' & -> & Hso & Hel); [|done|].
  { intros k k' [Hk _] [Hk' _]. by apply (under_prefix_free name p). }
  f_equal. apply (live_keys_unique s (fun k => under name p k /\ inside k = true)).
  { by split. }
  destruct Hout as [So Ho]. split; [by apply sorted_filter|]. intros k v. rewrite elem_of_filterb, Ho. cbn. tauto.
Qed.

(** ** Keys as what they encode *)

Definition keyed {A} (f : A -> bytes) (rows : list (A * bytes)) : list (bytes * bytes) :=
  map (fun r => (f r.1, r.2)) rows.

(** The live entries, named by the [A] whose key they are stored under, in order. *)
Definition rows_as {A} s (f : A -> bytes) (valid : A -> Prop) (before : A -> A -> Prop)
    (rows : list (A * bytes)) : Prop :=
  StronglySorted (fun a b => before a.1 b.1) rows
  /\ forall x v, (x, v) ∈ rows <-> valid x /\ live s (f x) v.

Lemma keyed_elem {A} (f : A -> bytes) rows k v :
  (k, v) ∈ keyed f rows <-> exists x, k = f x /\ (x, v) ∈ rows.
Proof.
  unfold keyed. rewrite list_elem_of_fmap. split.
  - intros ([x w] & [= -> ->] & Hin). eauto.
  - intros (x & -> & Hin). exists (x, v). done.
Qed.

Lemma live_keys_as {A} s sel (f : A -> bytes) valid before out :
  (forall k, sel k <-> exists x, valid x /\ k = f x) ->
  (forall a b, valid a -> valid b -> f a = f b -> a = b) ->
  (forall a b, valid a -> valid b -> blt (f a) (f b) -> before a b) ->
  live_keys s sel out ->
  exists rows, rows_as s f valid before rows /\ out = keyed f rows /\ Forall (fun r => valid r.1) rows.
Proof.
  intros Hsel Hinj Hord [Hso Hel].
  assert (exists rows, out = keyed f rows /\ Forall (fun r => valid r.1) rows) as (rows & E & Hv).
  { assert (Forall (fun r => exists x, valid x /\ r.1 = f x) out) as Hout.
    { apply Forall_forall. intros [k v] [Hu _]%Hel. by apply Hsel. }
    clear Hso Hel. induction Hout as [|[k v] out (x & Hx & Ek) _ (rows & -> & Hr)]; [by exists []|].
    cbn in Ek. subst k. exists ((x, v) :: rows). split; [done|]. by constructor. }
  exists rows. split; [|done]. split.
  - rewrite E in Hso. clear E Hel. induction Hv as [|r rows Hr Hrows IH]; [constructor|].
    cbn in Hso. apply StronglySorted_inv in Hso as [Hso Hall]. constructor; [by apply IH|].
    apply Forall_forall. intros r' Hr'. rewrite Forall_forall in Hrows. rewrite Forall_forall in Hall.
    apply Hord; [done|by apply Hrows|]. apply Hall. apply list_elem_of_fmap. exists (f r'.1, r'.2).
    split; [done|]. apply list_elem_of_fmap. eauto.
  - intros x v. split.
    + intros Hin. rewrite Forall_forall in Hv. split; [exact (Hv _ Hin)|].
      apply (Hel (f x)). rewrite E. apply keyed_elem. eauto.
    + intros [Hx Hl]. assert ((f x, v) ∈ keyed f rows) as (y & Ey & Hin)%keyed_elem.
      { rewrite <-E. apply Hel. split; [|done]. apply Hsel. eauto. }
      rewrite Forall_forall in Hv. by rewrite (Hinj x y Hx (Hv _ Hin) Ey).
Qed.

Lemma keyed_filter {A} (f : A -> bytes) rows (h : bytes -> bool) (g : A -> bool) :
  Forall (fun r => h (f r.1) = g r.1) rows ->
  List.filter (fun r => h r.1) (keyed f rows) = keyed f (List.filter (fun r => g r.1) rows).
Proof.
  induction 1 as [|r rows Hr _ IH]; [done|]. cbn. rewrite Hr. destruct (g r.1); cbn; [|exact IH]. by f_equal.
Qed.

Lemma keyed_rev {A} (f : A -> bytes) rows : rev (keyed f rows) = keyed f (rev rows).
Proof. unfold keyed. by rewrite map_rev. Qed.

End Listings.
