(* ===== verification/TxListings.v ===== *)
(** * The listings the database offers

    [tb_list] with its cursors, orders and limits, [tb_count], [key_list] and
    [key_prefix], [find_measurement] and [list_paths]: each returns the page
    of the live entries its arguments describe. *)

From S2P Require Import Prelude Bytes Skey SkeyRoundtrip SkeyOrder Keys KeyScan Domain Kv Rows RowsFacts Changeset Scans Tx Sample TxKeys TxInv TxReads TxScans.
From Stdlib Require Import ZArith Lia Strings.Byte Sorting.Sorted.
From stdpp Require Import base list option strings sets.

Local Open Scope Z_scope.

(** ** Typed fields *)

Lemma typed_bytes v : has_fty (FSerde TBytes) v -> exists b, v = vbytes b /\ id_valid b.
Proof. destruct v as [v| | | |]; try done. intros [Hv _]. destruct v; try done. by eexists. Qed.
Lemma typed_str v : has_fty (FSerde TStr) v -> exists x, v = vstr x /\ is_str x.
Proof. destruct v as [v| | | |]; try done. intros [Hv _]. destruct v; try done. by eexists. Qed.
Lemma typed_u64 v : has_fty (FSerde TU64) v -> exists x, v = vu64 x /\ is_u64 x.
Proof. destruct v as [v| | | |]; try done. intros [Hv _]. destruct v; try done. by eexists. Qed.

(** The fields of a pattern are those of the keys it covers. *)
Lemma under_covers name vs p k :
  scan_ok name (length vs) = true -> vals_typed (segs name) vs -> encode_steps (segs name) vs = Ok p ->
  under name p k ->
  exists ws, vals_typed (segs name) ws /\ length ws = length (List.filter is_field (segs name))
    /\ encode_steps (segs name) ws = Ok k /\ covers (kcode (segs name)) vs (kcode (segs name)) ws.
Proof.
  intros Hn Hv Hp [(ws & Hw & Lw & Hk) Hs]. exists ws. split; [done|]. split; [done|]. split; [done|].
  apply (scan_exact _ _ _ ws p k); rewrite <-?encode_steps_kcode, <-?vals_typed_kcode, ?kfields_count; try done.
  apply separated_refl. intros t _. apply fty_eqb_refl.
Qed.

(** ** The keys of a table *)

Definition ent (p id : bytes) : bytes := p ++ be 8 (Z.of_nat (length id)) ++ id.

Definition table_segs : list Segment := Eval vm_compute in take 9 (segs "table").

Lemma table_encode tb p : encode tb = Ok p <-> encode_steps table_segs (sh_vals table_shape tb) = Ok p.
Proof.
  change (encode tb) with (encode_steps (table_segs ++ [Field "id" Bytes]) (sh_vals table_shape tb ++ [])).
  split.
  - intros (a & b & Ha & Hb & ->)%encode_steps_app; [|done]. apply Ok_inj in Hb as <-. by rewrite app_nil_r.
  - intros Hp. rewrite <-(app_nil_r p). by apply encode_steps_app_ok.
Qed.

Lemma entity_encode tb p id : encode tb = Ok p -> encode (mkEntity tb id) = Ok (ent p id).
Proof.
  intros Hp%table_encode.
  change (encode (mkEntity tb id))
    with (encode_steps (table_segs ++ [Field "id" Bytes]) (sh_vals table_shape tb ++ [vbytes id])).
  apply encode_steps_app_ok; [done|done|]. cbn. by rewrite app_nil_r.
Qed.

Lemma table_typed tb : table_valid tb -> vals_typed (segs "table") (sh_vals table_shape tb).
Proof. apply (sho_typed _ _ table_shape_ok). Qed.

Lemma ent_inj p id id' : id_valid id -> id_valid id' -> ent p id = ent p id' -> id = id'.
Proof.
  intros Hi Hi' E. pose proof (lex_refl (ent p id)) as L. rewrite E in L at 2.
  unfold ent in L. rewrite lex_app_same in L.
  pose proof (lex_bytes id id' [] [] Hi Hi') as L'. rewrite !app_nil_r, L in L'.
  unfold shortlex in L'. destruct (Z.of_nat (length id) ?= Z.of_nat (length id')); try done. cbn in L'.
  destruct (lex id id') eqn:El; try done. by apply lex_eq.
Qed.

Lemma ent_lex p id id' : id_valid id -> id_valid id' -> lex (ent p id) (ent p id') = shortlex id id'.
Proof.
  intros Hi Hi'. unfold ent. rewrite lex_app_same. pose proof (lex_bytes id id' [] [] Hi Hi') as L.
  rewrite !app_nil_r in L. rewrite L. cbn. by destruct (shortlex id id').
Qed.

Lemma table_under tb p k :
  table_valid tb -> encode tb = Ok p -> under "table" p k <-> exists id, id_valid id /\ k = ent p id.
Proof.
  intros Htb Hp. pose proof (table_typed tb Htb) as Hv. split.
  - intros (ws & Hw & Lw & Hk & Hc)%(under_covers "table" (sh_vals table_shape tb)); try done.
    destruct ws as [|w1 [|w2 [|w3 [|w4 [|w5 [|]]]]]]; try done.
    cbn in Hc. destruct Hc as (_ & _ & <- & _ & _ & <- & _ & _ & <- & _ & _ & _ & _ & <- & _).
    cbn in Hw. destruct Hw as (_ & _ & _ & _ & (id & -> & Hid)%typed_bytes & _).
    exists id. split; [done|]. pose proof (entity_encode tb p id Hp) as He.
    change (encode (mkEntity tb id) = Ok k) in Hk. congruence.
  - intros (id & Hid & ->). split; [|apply starts_with_app].
    exists (sh_vals entity_shape (mkEntity tb id)). split; [|split; [done|by apply entity_encode]].
    by apply (sho_typed _ _ entity_shape_ok); destruct Htb.
Qed.

Lemma entity_decode tb p id :
  table_valid tb -> encode tb = Ok p -> id_valid id -> decode_exact (ent p id) = Ok (mkEntity tb id).
Proof.
  intros Htb Hp Hid. unfold decode_exact, StoreKey_Entity. rewrite <-(app_nil_r (ent p id)).
  assert (scope_valid (tb_scope tb) /\ is_str (tb_name tb) /\ id_valid id) as Hv by (by destruct Htb).
  by rewrite (generated_reads _ _ (mkEntity tb id) (ent p id) [] entity_shape_ok Hv (entity_encode tb p id Hp)).
Qed.

Section Tables.
Context {S : Type} {kvS : Kv S} {kvLaws : KvLaws S}
  {pcMeta : Postcard SyncMeta} {pcMetaLaws : PostcardLaws SyncMeta}
  {pcBody : Postcard MeasurementBody}.
Implicit Types s : S.

(** ** What a table holds *)

(** The rows of the table with the encoded name [p]: every id whose newest version is a
    value, with it, by the order of the ids. *)
Definition table_rows s (p : bytes) (rows : list (bytes * bytes)) : Prop :=
  rows_as s (ent p) id_valid (fun a b => shortlex a b = Lt) rows.

Lemma table_rows_of s tb p out :
  table_valid tb -> encode tb = Ok p -> live_keys s (under "table" p) out ->
  exists rows, table_rows s p rows /\ out = keyed (ent p) rows /\ Forall (fun r => id_valid r.1) rows.
Proof.
  intros Htb Hp. apply live_keys_as.
  - intros k. by apply (table_under tb).
  - intros a b Ha Hb. by apply ent_inj.
  - intros a b Ha Hb. unfold blt. by rewrite ent_lex.
Qed.

(** ** A page of a table *)

Definition id_before (a b : bytes) : bool := match shortlex a b with Lt => true | _ => false end.

(** The page of the rows a cursor, a limit and an order select. *)
Definition page (rows : list (bytes * bytes)) (cursor : option Cursor) (limit : option nat)
    (order : TbOrderBy) : list (bytes * bytes) :=
  let rows := match order with KeyAsc => rows | KeyDesc => rev rows end in
  let before a b := match order with KeyAsc => id_before a b | KeyDesc => id_before b a end in
  let rows := match cursor with
              | None => rows
              | Some (Skip n) => drop n rows
              | Some (After id) => List.filter (fun r => before id r.1) rows
              | Some (At_ id) => List.filter (fun r => negb (before r.1 id)) rows
              end in
  match limit with None => rows | Some n => take n rows end.

Lemma tb_collect_ok tb p rows skip limit :
  table_valid tb -> encode tb = Ok p -> Forall (fun r => id_valid r.1) rows ->
  tb_collect skip limit (map Ok (keyed (ent p) rows)) = Ok (take limit (drop skip rows)).
Proof.
  intros Htb Hp Hr. revert skip limit; induction Hr as [|[id v] rows Hid _ IH]; intros skip limit.
  - cbn. by rewrite drop_nil, take_nil.
  - cbn [keyed map tb_collect mbind res_bind fst snd]. destruct skip as [|skip]; [|by rewrite IH].
    destruct limit as [|limit]; [done|]. rewrite (entity_decode tb p id Htb Hp Hid). cbn [lift map_err mbind res_bind].
    by rewrite IH.
Qed.

(** The scan behind a listing, between two edges inside the table. *)
Lemma table_scan s tb p lo hi inside (f : bytes -> bool) rows :
  store_ok s -> table_valid tb -> encode tb = Ok p -> table_rows s p rows ->
  live_keys s (under "table" p) (keyed (ent p) rows) ->
  (forall d, ble lo d -> below hi d -> starts_with p d = true) ->
  clean_range (under "table" p) lo hi (fun k => inside k = true) ->
  Forall (fun r => inside (ent p r.1) = f r.1) rows ->
  range_latest_kv_untracked s lo hi = map Ok (keyed (ent p) (List.filter (fun r => f r.1) rows))
  /\ range_latest_kv_untracked_rev s lo hi = map Ok (keyed (ent p) (rev (List.filter (fun r => f r.1) rows))).
Proof.
  intros Hs Htb Hp Hrows Hlive Hin Hclean Hf.
  destruct (latest_range s "table" (sh_vals table_shape tb) p lo hi inside (keyed (ent p) rows)) as [Hd E]; try done.
  - by apply table_typed.
  - eapply scoped_region, table_scoped; [|exact Hp]. apply Htb.
  - unfold range_latest_kv_untracked, range_latest_kv_untracked_rev.
    rewrite (latest_rev_rev _ Hd), E, (keyed_filter (ent p) rows inside f Hf). split; [done|].
    by rewrite <-map_rev, keyed_rev.
Qed.

Lemma bump_ent p id : in_region data_tag p = true -> exists u, prefix_to_range (ent p id) = (ent p id, Some u).
Proof.
  intros (r & ->)%in_region_head. destruct (range_of_total (ent (data_tag :: r) id)) as (u & Hu).
  { exists data_tag. split; [left|done]. }
  exists u. unfold range_of in Hu. unfold prefix_to_range in *. destruct (bump_last _); [|done].
  by injection Hu as ->.
Qed.

(** ** The edges a cursor sets *)

Definition cursor_valid (cursor : option Cursor) : Prop :=
  match cursor with Some (After id) | Some (At_ id) => id_valid id | _ => True end.

Definition cursor_selects (cursor : option Cursor) (order : TbOrderBy) (x : bytes) : bool :=
  match cursor, order with
  | Some (After id), KeyAsc => id_before id x
  | Some (After id), KeyDesc => id_before x id
  | Some (At_ id), KeyAsc => negb (id_before x id)
  | Some (At_ id), KeyDesc => negb (id_before id x)
  | _, _ => true
  end.
Definition cursor_skip (cursor : option Cursor) : nat :=
  match cursor with Some (Skip n) => n | _ => 0%nat end.

(** The edges lie in the table and select by key. *)
Definition edges (p lo : bytes) (hi : option bytes) (inside : bytes -> bool) : Prop :=
  (forall d, ble lo d -> below hi d -> starts_with p d = true)
  /\ clean_range (under "table" p) lo hi (fun k => inside k = true).

Section Edges.
Context (tb : Table) (p : bytes) (Htb : table_valid tb) (Hp : encode tb = Ok p).

Lemma under_ent id : id_valid id -> under "table" p (ent p id).
Proof. intros. apply (table_under tb); eauto. Qed.

Lemma row_in_table k t kd : under "table" p k -> starts_with p (encode_row k t kd) = true.
Proof. intros [_ Hk]. eapply starts_with_trans; [exact Hk|]. apply starts_with_row. Qed.

Lemma edges_all : edges p p (prefix_to_range p).2 (fun _ => true).
Proof.
  split; [intros d; rewrite prefix_range_iff; done|]. intros k t kd Hk _. split; [done|]. intros _.
  apply prefix_range_iff. by apply row_in_table.
Qed.

Lemma edges_from id : id_valid id -> edges p (ent p id) (prefix_to_range p).2 (ble_b (ent p id)).
Proof.
  intros Hid%under_ent. split.
  - intros d Hd Hb. apply prefix_range_iff. split; [|done]. eapply ble_trans; [|exact Hd]. apply ble_prefix.
  - intros k t kd Hk _. rewrite ble_b_spec, (row_ge (under "table" p)) by (done || apply under_prefix_free).
    split; [by intros []|]. intros Hle. split; [done|]. by eapply prefix_range_iff, row_in_table.
Qed.

Lemma edges_past id u :
  id_valid id -> prefix_to_range (ent p id) = (ent p id, Some u) ->
  edges p u (prefix_to_range p).2 (blt_b (ent p id)).
Proof.
  intros Hid%under_ent Hu. assert (ble p u) as Hpu.
  { eapply ble_trans; [apply (ble_prefix p (be 8 (Z.of_nat (length id)) ++ id))|].
    assert (starts_with (ent p id) (ent p id) = true) as [_ Hb]%prefix_range_iff.
    { rewrite <-(app_nil_r (ent p id)) at 2. apply starts_with_app. }
    rewrite Hu in Hb. by apply blt_ble. }
  split.
  - intros d Hd Hb. apply prefix_range_iff. split; [|done]. by eapply ble_trans.
  - intros k t kd Hk _. rewrite blt_b_spec, (row_ge_after (under "table" p) (ent p id)) by (done || apply under_prefix_free).
    split; [by intros []|]. intros Hle. split; [done|]. by eapply prefix_range_iff, row_in_table.
Qed.

Lemma edges_upto id u :
  id_valid id -> prefix_to_range (ent p id) = (ent p id, Some u) ->
  edges p p (Some u) (fun k => ble_b k (ent p id)).
Proof.
  intros Hid%under_ent Hu. split.
  - intros d Hd Hb. destruct (ble_b (ent p id) d) eqn:E.
    + assert (starts_with (ent p id) d = true) as Hs.
      { apply prefix_range_iff. rewrite Hu. split; [by apply ble_b_spec|done]. }
      eapply starts_with_trans; [|exact Hs]. apply Hid.
    + apply (between_under p (ent p id)); [apply Hid|done|]. apply blt_ble, not_ble.
      intros Hle%ble_b_spec. congruence.
  - intros k t kd Hk _. cbn [below].
    rewrite ble_b_spec, (row_lt_after (under "table" p) (ent p id)) by (done || apply under_prefix_free).
    split; [by intros []|]. intros Hle. split; [|done]. by apply prefix_range_iff, row_in_table.
Qed.

Lemma edges_below id : id_valid id -> edges p p (Some (ent p id)) (fun k => blt_b k (ent p id)).
Proof.
  intros Hid%under_ent. split.
  - intros d Hd Hb. apply (between_under p (ent p id)); [apply Hid|done|]. by apply blt_ble.
  - intros k t kd Hk _. cbn [below].
    rewrite blt_b_spec, (row_lt (under "table" p) (ent p id)) by (done || apply under_prefix_free).
    split; [by intros []|]. intros Hle. split; [|done]. by apply prefix_range_iff, row_in_table.
Qed.

Lemma tb_bounds_edges cursor order :
  cursor_valid cursor ->
  exists lo hi inside, tb_bounds tb cursor order = Ok (Some (lo, hi, cursor_skip cursor))
    /\ edges p lo hi inside
    /\ forall id, id_valid id -> inside (ent p id) = cursor_selects cursor order id.
Proof.
  intros Hc. unfold tb_bounds. rewrite Hp. cbn [lift map_err mbind res_bind].
  assert (in_region data_tag p = true) as Hr by (eapply scoped_region, table_scoped; [apply Htb|exact Hp]).
  assert (prefix_to_range p = (p, (prefix_to_range p).2)) as -> by done.
  destruct cursor as [[id|id|n]|]; cbn [cursor_valid cursor_skip] in *.
  - destruct (bump_ent p id Hr) as (u & Hu). destruct order; rewrite (entity_encode tb p id Hp).
    + cbn [lift map_err mbind res_bind]. rewrite Hu. cbn [snd]. eexists _, _, _.
      split; [done|]. split; [by apply edges_past|]. intros x Hx. cbn. unfold blt_b. by rewrite ent_lex.
    + eexists _, _, _. split; [done|]. split; [by apply edges_below|].
      intros x Hx. cbn. unfold blt_b. by rewrite ent_lex.
  - destruct (bump_ent p id Hr) as (u & Hu). destruct order; rewrite (entity_encode tb p id Hp).
    + eexists _, _, _. split; [done|]. split; [by apply edges_from|].
      intros x Hx. cbn. unfold ble_b. rewrite lex_antisym, ent_lex by done. unfold id_before. by destruct (shortlex x id).
    + cbn [lift map_err mbind res_bind]. rewrite Hu. cbn [snd]. eexists _, _, _.
      split; [done|]. split; [by apply edges_upto|].
      intros x Hx. cbn. unfold ble_b. rewrite lex_antisym, ent_lex by done. unfold id_before. by destruct (shortlex id x).
  - exists p, (prefix_to_range p).2, (fun _ => true). by destruct order; (split; [done|split; [apply edges_all|]]).
  - exists p, (prefix_to_range p).2, (fun _ => true). by destruct order; (split; [done|split; [apply edges_all|]]).
Qed.

End Edges.

(** ** Listing *)

Lemma filter_all {A} (l : list A) : List.filter (fun _ => true) l = l.
Proof. induction l; cbn; congruence. Qed.

Lemma filter_rev {A} (f : A -> bool) l : List.filter f (rev l) = rev (List.filter f l).
Proof.
  induction l as [|x l IH]; [done|]. cbn. rewrite List.filter_app, IH. cbn. destruct (f x); cbn; [done|].
  by rewrite app_nil_r.
Qed.

(** The page by its parts: select, order, skip, limit. *)
Lemma page_parts rows cursor limit order :
  page rows cursor limit order
  = let sel := List.filter (fun r => cursor_selects cursor order r.1) rows in
    let sel := match order with KeyAsc => sel | KeyDesc => rev sel end in
    let sel := drop (cursor_skip cursor) sel in
    take (default (length sel) limit) sel.
Proof.
  unfold page. cbv zeta. destruct cursor as [[id|id|n]|], order; cbn [cursor_selects cursor_skip];
    rewrite ?filter_all, ?filter_rev, ?drop_0; destruct limit; cbn [default]; try done;
    by rewrite firstn_all.
Qed.

Lemma table_live s tb p :
  store_ok s -> table_valid tb -> encode tb = Ok p ->
  exists rows, table_rows s p rows /\ live_keys s (under "table" p) (keyed (ent p) rows)
    /\ latest None (kv_prefix s p) = map Ok (keyed (ent p) rows) /\ Forall (fun r => id_valid r.1) rows.
Proof.
  intros Hs Htb Hp.
  destruct (latest_under s "table" (sh_vals table_shape tb) p) as (out & Hl & Hout); try done.
  - by apply table_typed.
  - eapply scoped_region, table_scoped; [apply Htb|exact Hp].
  - destruct (table_rows_of s tb p out Htb Hp Hout) as (rows & Hrows & -> & Hids).
    by exists rows.
Qed.

Lemma take_map_default {A B} (f : A -> B) (l : list A) limit skip :
  take (default (length (map f l)) limit) (drop skip l) = take (default (length (drop skip l)) limit) (drop skip l).
Proof.
  destruct limit; [done|]. cbn. rewrite length_map, firstn_all. apply take_ge. rewrite length_drop. lia.
Qed.

Lemma tb_list_rows tb p (t : @Transaction S) :
  tx_ok t -> table_valid tb -> encode tb = Ok p ->
  exists rows, table_rows (tx_store t) p rows
    /\ (forall cursor limit order, cursor_valid cursor ->
        tb_list tb cursor limit order t = (Ok (page rows cursor limit (default KeyAsc order)), t))
    /\ tb_count tb t = (Ok (length rows), t).
Proof.
  intros Ht Htb Hp. pose proof (to_store _ Ht) as Hs.
  destruct (table_live (tx_store t) tb p Hs Htb Hp) as (rows & Hrows & Hlive & Hlat & Hids).
  exists rows. split; [done|]. split.
  - intros cursor limit order Hc. unfold tb_list. set (o := default KeyAsc order).
    destruct (tb_bounds_edges tb p Htb Hp cursor o Hc) as (lo & hi & inside & Hb & [He1 He2] & Hin).
    unfold mbind, TX_bind, txres. rewrite Hb. unfold reads_.
    destruct (table_scan (tx_store t) tb p lo hi inside (cursor_selects cursor o) rows) as [Ea Ed]; try done.
    { eapply Forall_impl; [exact Hids|]. intros r. apply Hin. }
    assert (forall f : bytes * bytes -> bool, Forall (fun r => id_valid r.1) (List.filter f rows)) as Hfil.
    { intros f. apply Forall_forall. intros r [Hr _]%elem_of_filterb. by apply (proj1 (Forall_forall _ _) Hids). }
    rewrite page_parts. cbv zeta. f_equal. destruct o.
    + rewrite Ea, (tb_collect_ok tb p) by done. f_equal. unfold keyed. rewrite map_map. apply take_map_default.
    + rewrite Ed, (tb_collect_ok tb p) by (done || by apply Forall_rev). f_equal. unfold keyed. rewrite map_map.
      apply take_map_default.
  - unfold tb_count. rewrite (tx_bind_ok _ _ _ _ _ (key_bytes_ok tb p t Hp)). unfold reads_, prefix_latest_untracked.
    f_equal. rewrite Hlat. clear -Hids Htb Hp. rewrite <-(Nat.add_0_l (length rows)) at 1. generalize 0%nat as n.
    induction Hids as [|[id v] rows Hid _ IH]; intros n; [by rewrite Nat.add_0_r|].
    cbn [map keyed foldM fmap res_fmap fst mbind res_bind] in *.
    rewrite (entity_decode tb p id Htb Hp Hid). cbn [lift map_err mbind res_bind]. rewrite IH. f_equal. cbn. lia.
Qed.

(** C20. Listing a table returns exactly the page its cursor, limit and order
    describe of the live rows of the table: the rows whose newest version is
    a value, with it, ordered by id; from the cursor on, at most the limit.
    It never fails on a store that satisfies the invariant, whatever else
    the store holds. *)
Theorem tb_list_page (tb : Table) (cursor : option Cursor) (limit : option nat) (order : option TbOrderBy)
    (p : bytes) (t : @Transaction S) (Ht : tx_ok t) (Htb : table_valid tb) (Hp : encode tb = Ok p)
    (Hc : cursor_valid cursor) :
  exists rows, table_rows (tx_store t) p rows
    /\ tb_list tb cursor limit order t = (Ok (page rows cursor limit (default KeyAsc order)), t)
    /\ tb_count tb t = (Ok (length rows), t).
Proof.
  destruct (tb_list_rows tb p t Ht Htb Hp) as (rows & Hrows & Hl & Hn). exists rows. auto.
Qed.

(** ** Page after page *)

Lemma filter_past {A} (rb : A -> A -> bool) pre x post :
  (forall a b, rb a b = true -> rb b a = false) -> StronglySorted (fun a b => rb a b = true) (pre ++ x :: post) ->
  List.filter (rb x) (pre ++ x :: post) = post.
Proof.
  intros Has. induction pre as [|y pre IH]; cbn.
  - intros [_ Hall]%StronglySorted_inv. destruct (rb x x) eqn:E; [rewrite (Has x x E) in E; done|].
    induction Hall as [|z post Hz _ IH]; [done|]. cbn. by rewrite Hz, IH.
  - intros [Hs Hall]%StronglySorted_inv. rewrite Forall_forall in Hall.
    rewrite (Has y x); [by apply IH|]. apply Hall. apply elem_of_app. right. left.
Qed.

Lemma shortlex_antisym a b : shortlex b a = CompOpp (shortlex a b).
Proof.
  unfold shortlex. rewrite (Z.compare_antisym (Z.of_nat (length a))), lex_antisym.
  by destruct (Z.of_nat (length a) ?= Z.of_nat (length b)); cbn.
Qed.

Lemma id_before_asym a b : id_before a b = true -> id_before b a = false.
Proof. unfold id_before. rewrite (shortlex_antisym a b). by destruct (shortlex a b). Qed.

Lemma take_last_split {A} n (l : list A) x :
  last (take n l) = Some x -> exists pre post, l = pre ++ x :: post /\ take n l = pre ++ [x] /\ drop n l = post.
Proof.
  intros H. destruct (take n l) as [|y k _] eqn:E using rev_ind; [done|].
  rewrite last_snoc in H. injection H as ->. exists k, (drop n l). split; [|done].
  rewrite <-(take_drop n l) at 1. rewrite E. by rewrite <-app_assoc.
Qed.

Lemma page_next rows n order id v :
  StronglySorted (fun a b => shortlex a.1 b.1 = Lt) rows ->
  last (page rows None (Some n) order) = Some (id, v) ->
  page rows None None order = page rows None (Some n) order ++ page rows (Some (After id)) None order.
Proof.
  intros Hs. unfold page.
  set (l := match order with KeyAsc => rows | KeyDesc => rev rows end).
  set (rb := fun a b : bytes * bytes =>
    match order with KeyAsc => id_before a.1 b.1 | KeyDesc => id_before b.1 a.1 end).
  assert (StronglySorted (fun a b => rb a b = true) l) as Hl.
  { unfold l, rb. destruct order.
    - eapply sorted_weaken; [|exact Hs]. intros a b. unfold id_before. by intros ->.
    - apply sorted_rev in Hs. eapply sorted_weaken; [|exact Hs]. intros a b. unfold id_before. by intros ->. }
  intros (pre & post & El & Et & Ed)%take_last_split. rewrite Et.
  assert (List.filter (rb (id, v)) l = post) as Ef.
  { rewrite El. apply filter_past; [|by rewrite <-El]. intros a b. unfold rb. destruct order; apply id_before_asym. }
  unfold rb in Ef. cbn [fst] in Ef. rewrite El at 1.
  destruct order; cbn in *; rewrite Ef; by rewrite <-app_assoc.
Qed.

(** Paging: the rows of a table, in either order, are those of its first page
    followed by those listed after the last id of that page.  No row is
    skipped and none comes twice. *)
Theorem tb_list_pages (tb : Table) (n : nat) (order : option TbOrderBy) (p : bytes) (t : @Transaction S)
    (first all : list (bytes * bytes)) (id v : bytes)
    (Ht : tx_ok t) (Htb : table_valid tb) (Hp : encode tb = Ok p)
    (Hfirst : (tb_list tb None (Some n) order t).1 = Ok first)
    (Hall : (tb_list tb None None order t).1 = Ok all)
    (Hlast : last first = Some (id, v)) :
  exists rest, (tb_list tb (Some (After id)) None order t).1 = Ok rest /\ all = first ++ rest.
Proof.
  destruct (tb_list_rows tb p t Ht Htb Hp) as (rows & Hrows & Hpage & _).
  rewrite Hpage in Hfirst, Hall by done. apply Ok_inj in Hfirst as <-. apply Ok_inj in Hall as <-.
  assert (id_valid id) as Hid.
  { assert ((id, v) ∈ rows) as [? _]%Hrows; [|done]. apply last_Some_elem_of in Hlast. unfold page in Hlast.
    apply elem_of_take in Hlast as (i & Hi%list_elem_of_lookup_2 & _).
    destruct (default KeyAsc order); [done|]. by apply list_elem_of_In, in_rev, list_elem_of_In. }
  exists (page rows (Some (After id)) None (default KeyAsc order)). rewrite Hpage by done. split; [done|].
  by eapply page_next; [apply Hrows|].
Qed.

End Tables.

(** ** Examples *)

Import Sample.

Definition sample_table : Table := mkTable Sample.scope (lit "rows").
Definition sample_rows : list tx_op :=
  [OpTbInsert sample_table [x07] [x01]; OpTbInsert sample_table [x02] [x02]; OpTbInsert sample_table [x05] [x03];
   OpTbDelete sample_table [x05]; OpCommit Committed].
Definition sample_table_tx : Transaction := run_ops sample_sha sample_rows (Sample.tx Sample.empty_store 9).
Definition sample_table_bytes : bytes :=
  Eval vm_compute in match encode sample_table with Ok e => e | Err _ => [] end.

Lemma sample_table_encode : encode sample_table = Ok sample_table_bytes.
Proof. vm_compute. reflexivity. Qed.
Lemma sample_table_valid : table_valid sample_table.
Proof. vm_compute. auto. Qed.
Lemma sample_table_ok : tx_ok sample_table_tx.
Proof.
  apply run_ops_ok; [apply sample_sha_length| |apply empty_ok; unfold is_u64; lia].
  repeat (apply Forall_cons; split); try apply Forall_nil; try exact I; repeat split; vm_compute; congruence.
Qed.

Lemma tb_list_page_witness :
  exists rows, table_rows (tx_store sample_table_tx) sample_table_bytes rows
    /\ tb_list sample_table None (Some 5%nat) (Some KeyDesc) sample_table_tx
       = (Ok (page rows None (Some 5%nat) KeyDesc), sample_table_tx)
    /\ tb_count sample_table sample_table_tx = (Ok (length rows), sample_table_tx).
Proof.
  exact (tb_list_page sample_table None (Some 5%nat) (Some KeyDesc) sample_table_bytes sample_table_tx
    sample_table_ok sample_table_valid sample_table_encode I).
Defined.

Lemma tb_list_pages_witness :
  exists rest, (tb_list sample_table (Some (After [x02])) None None sample_table_tx).1 = Ok rest
    /\ [([x02], [x02]); ([x07], [x01])] = [([x02], [x02])] ++ rest.
Proof.
  apply (tb_list_pages sample_table 1 None sample_table_bytes sample_table_tx
    [([x02], [x02])] [([x02], [x02]); ([x07], [x01])] [x02] [x02]
    sample_table_ok sample_table_valid sample_table_encode); vm_compute; reflexivity.
Defined.
