(* ===== verification/TxNames.v ===== *)
(** * Listings by name and by time

    [key_list], [key_prefix] and [list_paths] over the keys that end in a
    string, and [find_measurement] over the keys that end in a timestamp:
    each returns the live entries its prefix, window and limit describe. *)

From S2P Require Import Prelude Bytes Skey SkeyRoundtrip SkeyOrder Keys KeyScan Domain Kv Rows RowsFacts Changeset Scans Tx Sample TxKeys TxInv TxReads TxScans TxListings.
From Stdlib Require Import ZArith Lia Strings.Byte Sorting.Sorted.
From stdpp Require Import base list option strings sets.

Local Open Scope Z_scope.

(** ** Keys that end in a string *)

(** The bytes of such a key, after those of its scope and literals. *)
Definition named (p x : bytes) : bytes := p ++ x ++ [x00].

Lemma nul_free_prefix a b c : x00 ∉ a -> starts_with a (b ++ x00 :: c) = starts_with a b.
Proof.
  revert b; induction a as [|y a IH]; intros [|z b] Hn; [done..| |].
  - cbn. unfold byte_eqb. rewrite bool_decide_false; [done|]. intros ->. apply Hn. left.
  - cbn. rewrite IH; [done|]. intros H. apply Hn. by right.
Qed.

Lemma nul_below z : z <> x00 -> (b2z x00 ?= b2z z) = Lt.
Proof.
  intros Hz. apply Z.compare_lt_iff. pose proof (b2z_range z). assert (b2z z <> b2z x00) by (by intros ?%b2z_inj).
  change (b2z x00) with 0 in *. lia.
Qed.

Lemma nul_free_lex a b c d : x00 ∉ a -> x00 ∉ b -> a <> b -> lex (a ++ x00 :: c) (b ++ x00 :: d) = lex a b.
Proof.
  revert b; induction a as [|y a IH]; intros [|z b] Ha Hb Hne; [done|..]; cbn [app lex].
  - rewrite nul_below; [done|]. intros ->. apply Hb. left.
  - rewrite Z.compare_antisym, nul_below; [done|]. intros ->. apply Ha. left.
  - destruct (Z.compare_spec (b2z y) (b2z z)) as [E%b2z_inj| |]; [|done..]. subst z.
    apply IH; intros H; [apply Ha|apply Hb|apply Hne]; [by right..|congruence].
Qed.

Lemma named_lex p a b : x00 ∉ a -> x00 ∉ b -> lex (named p a) (named p b) = lex a b.
Proof.
  intros Ha Hb. unfold named. rewrite lex_app_same. destruct (decide (a = b)) as [->|]; [by rewrite !lex_refl|].
  by apply nul_free_lex.
Qed.

(** What the listings need of a kind of keys that ends in a string. *)
Record string_kind (name : string) (sc : Scope) : Prop := mkStringKind {
  sk_scan : scan_ok name 3 = true;
  sk_pre : vals_typed (segs name) (scope_vals sc);
  sk_typed : forall x, is_str x -> vals_typed (segs name) (scope_vals sc ++ [vstr x]);
  sk_length : length (List.filter is_field (segs name)) = 4%nat;
  sk_encode : forall p x e, encode_steps (segs name) (scope_vals sc) = Ok p ->
    encode_steps (segs name) (scope_vals sc ++ [vstr x]) = Ok e <-> (x00 ∉ x) /\ e = named p x;
  sk_covers : forall ws, covers (kcode (segs name)) (scope_vals sc) (kcode (segs name)) ws ->
    vals_typed (segs name) ws -> length ws = 4%nat -> exists x, is_str x /\ ws = scope_vals sc ++ [vstr x];
}.

Lemma string_encode pre field sc p x e :
  length (List.filter is_field pre) = 3%nat ->
  encode_steps (pre ++ [Field field Str]) (scope_vals sc) = Ok p ->
  encode_steps (pre ++ [Field field Str]) (scope_vals sc ++ [vstr x]) = Ok e <-> (x00 ∉ x) /\ e = named p x.
Proof.
  intros Hf Hp. rewrite <-(app_nil_r (scope_vals sc)) in Hp.
  apply encode_steps_app in Hp as (a & b & Ha & Hb & Eab); [|done]. apply Ok_inj in Hb as <-.
  rewrite app_nil_r in Eab. subst a. split.
  - intros (a & b & Ha' & Hb & ->)%encode_steps_app; [|done]. rewrite Ha in Ha'. apply Ok_inj in Ha' as <-.
    cbn in Hb. destruct (Enc.serialize_str x) as [f|] eqn:Ef; [|done]. apply serialize_str_ok in Ef as [Hn ->].
    cbn in Hb. rewrite app_nil_r in Hb. apply Ok_inj in Hb as <-. done.
  - intros [Hn ->]. apply encode_steps_app_ok; [done|done|]. cbn. unfold Enc.serialize_str, Enc.contains_nul.
    rewrite bool_decide_false by done. cbn. by rewrite app_nil_r.
Qed.

Ltac string_covers :=
  intros ws Hc Hw Lw; destruct ws as [|w1 [|w2 [|w3 [|w4 [|]]]]]; try done; cbn in Hc;
  destruct Hc as (_ & _ & <- & _ & _ & <- & _ & _ & <- & _); cbn in Hw;
  destruct Hw as (_ & _ & _ & (x & -> & Hx)%typed_str & _); by exists x.

Lemma kv_strings sc : scope_valid sc -> string_kind "kv" sc.
Proof.
  intros Hsc. split; [done|by destruct sc, Hsc as (?&?&?); shape_solve| |done| |string_covers].
  - intros x Hx. by apply (sho_typed _ _ user_key_shape_ok (mkUserKey sc x)).
  - intros p x e. by apply (string_encode (take 8 (segs "kv"))).
Qed.

Lemma path_strings sc : scope_valid sc -> string_kind "path" sc.
Proof.
  intros Hsc. split; [done|by destruct sc, Hsc as (?&?&?); shape_solve| |done| |string_covers].
  - intros x Hx. by apply (sho_typed _ _ path_shape_ok (mkPath sc x)).
  - intros p x e. by apply (string_encode (take 8 (segs "path"))).
Qed.

Lemma string_under name sc p k :
  string_kind name sc -> encode_steps (segs name) (scope_vals sc) = Ok p ->
  under name p k <-> exists x, is_str x /\ (x00 ∉ x) /\ k = named p x.
Proof.
  intros Hk Hp. split.
  - intros (ws & Hw & Lw & He & Hc)%(under_covers name (scope_vals sc)); try apply Hk; [|done].
    rewrite (sk_length _ _ Hk) in Lw. destruct (sk_covers _ _ Hk ws Hc Hw Lw) as (x & Hx & ->).
    apply (sk_encode _ _ Hk p) in He as [Hn ->]; [|done]. eauto.
  - intros (x & Hx & Hn & ->). split; [|apply starts_with_app]. exists (scope_vals sc ++ [vstr x]).
    split; [by apply Hk|]. split; [by rewrite (sk_length _ _ Hk)|]. by apply (sk_encode _ _ Hk p).
Qed.

Section Names.
Context {S : Type} {kvS : Kv S} {kvLaws : KvLaws S}
  {pcMeta : Postcard SyncMeta} {pcMetaLaws : PostcardLaws SyncMeta}
  {pcBody : Postcard MeasurementBody}.
Implicit Types s : S.

Definition name_valid (x : str) : Prop := is_str x /\ nul_free x.

(** The live names under [p], with their values, in the order of the names. *)
Definition name_rows s (p : bytes) (rows : list (str * bytes)) : Prop := rows_as s (named p) name_valid blt rows.

Lemma names_live s name sc p :
  store_ok s -> string_kind name sc -> encode_steps (segs name) (scope_vals sc) = Ok p ->
  in_region data_tag p = true ->
  exists rows, name_rows s p rows /\ Forall (fun r => name_valid r.1) rows
    /\ live_keys s (under name p) (keyed (named p) rows)
    /\ latest None (kv_prefix s p) = map Ok (keyed (named p) rows).
Proof.
  intros Hs Hk Hp Hr.
  destruct (latest_under s name (scope_vals sc) p) as (out & Hl & Hout); try done; try apply Hk.
  assert (exists rows, name_rows s p rows /\ out = keyed (named p) rows /\ Forall (fun r => name_valid r.1) rows)
    as (rows & Hrows & -> & Hv); [|by exists rows].
  apply (live_keys_as s (under name p)); [|..|done].
  - intros k. rewrite (string_under name sc p k Hk Hp). unfold name_valid, nul_free. naive_solver.
  - intros a b [_ Ha] [_ Hb] E. apply lex_eq. rewrite <-(named_lex p a b Ha Hb), E. apply lex_refl.
  - intros a b [_ Ha] [_ Hb]. unfold blt. by rewrite named_lex.
Qed.

(** Scanning for the names that start with [x]. *)
Lemma names_scan s name sc p x rows :
  store_ok s -> string_kind name sc -> encode_steps (segs name) (scope_vals sc) = Ok p ->
  in_region data_tag p = true -> nul_free x -> Forall (fun r => name_valid r.1) rows ->
  live_keys s (under name p) (keyed (named p) rows) ->
  latest None (kv_prefix s (p ++ x))
  = map Ok (keyed (named p) (List.filter (fun r => starts_with x r.1) rows)).
Proof.
  intros Hs Hk Hp Hr Hx Hv Hlive. rewrite <-range_is_prefix.
  assert (forall y r, name_valid y -> starts_with (p ++ x) (named p y ++ r) = starts_with x y) as Hsw.
  { intros y r [_ Hy]. unfold named. rewrite <-!app_assoc. rewrite starts_with_app_l. cbn. by apply nul_free_prefix. }
  destruct (latest_range s name (scope_vals sc) p (p ++ x) (prefix_to_range (p ++ x)).2
    (fun k => starts_with (p ++ x) k) (keyed (named p) rows)) as [_ E]; try done; try apply Hk.
  - intros d Hd Hb. assert (starts_with (p ++ x) d = true) as H by (by apply prefix_range_iff).
    eapply starts_with_trans; [|exact H]. apply starts_with_app.
  - intros k t kd Hu _. rewrite <-prefix_range_iff.
    apply (string_under name sc p k Hk Hp) in Hu as (y & Hy & Hn & ->).
    unfold encode_row. rewrite (Hsw y) by done. rewrite <-(app_nil_r (named p y)). by rewrite (Hsw y).
  - etransitivity; [exact E|]. f_equal. apply keyed_filter. eapply Forall_impl; [exact Hv|]. intros r Hy.
    rewrite <-(app_nil_r (named p r.1)). by apply Hsw.
Qed.

(** ** Decoding a listing *)

Lemma mapM_keyed {A B C} (f : A -> bytes) (h : res tx_error (bytes * bytes) -> C) (F : C -> res tx_error B)
    (g : A * bytes -> B) rows :
  Forall (fun r => F (h (Ok (f r.1, r.2))) = Ok (g r)) rows ->
  mapM_res F (map h (map Ok (keyed f rows))) = Ok (map g rows).
Proof.
  induction 1 as [|r rows Hr _ IH]; [done|].
  unfold keyed in *. cbn [map mapM_res]. rewrite Hr. cbn [mbind res_bind]. by rewrite IH.
Qed.

(** ** Keys by prefix *)

Lemma user_key_named sc x e :
  scope_valid sc -> encode (mkUserKey sc x) = Ok e ->
  exists p, encode_steps (segs "kv") (scope_vals sc) = Ok p /\ e = named p x /\ nul_free x
    /\ in_region data_tag p = true.
Proof.
  intros Hsc He. destruct (encode_steps_app (take 8 (segs "kv")) [Field "key" Str] (scope_vals sc) [vstr x] e)
    as (a & b & Ha & Hb & ->); [done|exact He|].
  assert (encode_steps (segs "kv") (scope_vals sc) = Ok a) as Hp.
  { pose proof (encode_steps_app_ok (take 8 (segs "kv")) [Field "key" Str] (scope_vals sc) [] a []) as H.
    rewrite !app_nil_r in H. by apply H. }
  exists a. split; [done|]. apply (sk_encode _ _ (kv_strings sc Hsc) a) in He as [Hn ->]; [|done].
  split; [done|]. split; [done|]. by apply (encode_literal_region data_tag [] (tail (segs "kv")) (scope_vals sc) a).
Qed.

Lemma user_key_decode sc p x :
  scope_valid sc -> encode_steps (segs "kv") (scope_vals sc) = Ok p -> name_valid x ->
  decode_exact (named p x) = Ok (mkUserKey sc x).
Proof.
  intros Hsc Hp [Hx Hn]. unfold decode_exact, StoreKey_UserKey. rewrite <-(app_nil_r (named p x)).
  assert (encode_steps (segs "kv") (scope_vals sc ++ [vstr x]) = Ok (named p x)) as He.
  { by apply (sk_encode _ _ (kv_strings sc Hsc) p). }
  by rewrite (generated_reads _ _ (mkUserKey sc x) (named p x) [] user_key_shape_ok (conj Hsc Hx) He).
Qed.

Lemma removelast_named p x : removelast (named p x) = p ++ x.
Proof. unfold named. by rewrite app_assoc, removelast_last. Qed.

(** Listing keys by prefix, with or without their values, returns exactly the
    keys of the scope that start with the prefix and whose newest version is
    a value, in the order of the keys, each once; it never fails on a store
    that satisfies the invariant. *)
Theorem key_list_by_prefix (sc : Scope) (prefix : str) (e : bytes) (t : @Transaction S)
    (Ht : tx_ok t) (Hsc : scope_valid sc) (He : encode (mkUserKey sc prefix) = Ok e) :
  exists rows, StronglySorted (fun a b => blt a.1 b.1) rows
    /\ (forall x v, (x, v) ∈ rows <-> is_str x /\ exists k, encode (mkUserKey sc x) = Ok k /\ live (tx_store t) k v)
    /\ key_list sc prefix t = (Ok (List.filter (fun r => starts_with prefix r.1) rows), t)
    /\ key_prefix sc prefix t = (Ok (map fst (List.filter (fun r => starts_with prefix r.1) rows)), t).
Proof.
  destruct (user_key_named sc prefix e Hsc He) as (p & Hp & -> & Hn & Hr). pose proof (kv_strings sc Hsc) as Hk.
  destruct (names_live (tx_store t) "kv" sc p (to_store _ Ht) Hk Hp Hr) as (rows & [Hso Hel] & Hv & Hlive & _).
  exists rows. split; [done|].
  assert (forall f : bytes * bytes -> bool, Forall (fun r => name_valid r.1) (List.filter f rows)) as Hfil.
  { intros f. apply Forall_forall. intros r [Hin _]%elem_of_filterb. by apply (proj1 (Forall_forall _ _) Hv). }
  pose proof (names_scan (tx_store t) "kv" sc p prefix rows (to_store _ Ht) Hk Hp Hr Hn Hv Hlive) as Hscan.
  assert (key_prefix_bytes sc prefix t = (Ok (p ++ prefix), t)) as Hb.
  { unfold key_prefix_bytes. rewrite (tx_bind_ok _ _ _ _ _ (key_bytes_ok _ _ t He)). by rewrite <-removelast_named. }
  split; [|split].
  - intros x v. rewrite Hel. unfold name_valid, nul_free. split.
    + intros [[Hx Hnx] Hl]. split; [done|]. exists (named p x). split; [|done]. by apply (sk_encode _ _ Hk p).
    + intros [Hx (k & Ek & Hl)]. apply (sk_encode _ _ Hk p) in Ek as [Hnx ->]; done.
  - unfold key_list. rewrite (tx_bind_ok _ _ _ _ _ Hb). unfold prefix_to_range at 1. unfold reads_. f_equal.
    unfold range_latest_kv_untracked.
    change (kv_range (tx_store t) (p ++ prefix) (bump_last (rev (p ++ prefix))))
      with (kv_range (tx_store t) (prefix_to_range (p ++ prefix)).1 (prefix_to_range (p ++ prefix)).2).
    rewrite range_is_prefix, Hscan, <-(map_id (map Ok _)).
    rewrite (mapM_keyed _ _ _ (fun r => r)); [by rewrite map_id|].
    eapply Forall_impl; [apply Hfil|]. intros [x v] Hx. cbn [fst snd mbind res_bind].
    by rewrite (user_key_decode sc p x Hsc Hp Hx).
  - unfold key_prefix. rewrite (tx_bind_ok _ _ _ _ _ Hb). unfold reads_, prefix_latest_untracked. f_equal.
    rewrite Hscan. apply mapM_keyed. eapply Forall_impl; [apply Hfil|]. intros [x v] Hx.
    cbn [fst snd mbind res_bind fmap res_fmap]. by rewrite (user_key_decode sc p x Hsc Hp Hx).
Qed.

(** ** Paths *)

Lemma path_decode sc p x :
  scope_valid sc -> encode_steps (segs "path") (scope_vals sc) = Ok p -> name_valid x ->
  decode_exact (named p x) = Ok (mkPath sc x).
Proof.
  intros Hsc Hp [Hx Hn]. unfold decode_exact, StoreKey_Path. rewrite <-(app_nil_r (named p x)).
  assert (encode_steps (segs "path") (scope_vals sc ++ [vstr x]) = Ok (named p x)) as He.
  { by apply (sk_encode _ _ (path_strings sc Hsc) p). }
  by rewrite (generated_reads _ _ (mkPath sc x) (named p x) [] path_shape_ok (conj Hsc Hx) He).
Qed.

Lemma paths_collect_ok sc p rows limit :
  scope_valid sc -> encode_steps (segs "path") (scope_vals sc) = Ok p -> Forall (fun r => name_valid r.1) rows ->
  paths_collect limit (map (fmap fst) (map Ok (keyed (named p) rows))) = Ok (take limit (map fst rows)).
Proof.
  intros Hsc Hp Hr. revert limit; induction Hr as [|[x v] rows Hx _ IH]; intros limit; [by destruct limit|].
  unfold keyed in *. cbn [map paths_collect fmap res_fmap mbind res_bind fst snd].
  destruct limit as [|limit]; [done|]. cbn [paths_collect mbind res_bind]. rewrite (path_decode sc p x Hsc Hp Hx).
  cbn [lift map_err mbind res_bind]. by rewrite IH.
Qed.

(** [list_paths] returns the linked paths of the scope, those whose newest
    version is a link, in order, up to the limit. *)
Theorem list_paths_page (sc : Scope) (limit : option nat) (p : bytes) (t : @Transaction S)
    (Ht : tx_ok t) (Hsc : scope_valid sc) (Hp : encode_steps (segs "path") (scope_vals sc) = Ok p) :
  exists rows, StronglySorted (fun a b => blt a.1 b.1) rows
    /\ (forall x v, (x, v) ∈ rows <-> is_str x /\ exists k, encode (mkPath sc x) = Ok k /\ live (tx_store t) k v)
    /\ list_paths sc limit t = (Ok (match limit with Some n => take n (map fst rows) | None => map fst rows end), t).
Proof.
  pose proof (path_strings sc Hsc) as Hk.
  assert (in_region data_tag p = true) as Hr.
  { by apply (encode_literal_region data_tag [] (tail (segs "path")) (scope_vals sc) p). }
  destruct (names_live (tx_store t) "path" sc p (to_store _ Ht) Hk Hp Hr) as (rows & [Hso Hel] & Hv & Hlive & Hlat).
  exists rows. split; [done|]. split.
  - intros x v. rewrite Hel. unfold name_valid, nul_free. split.
    + intros [[Hx Hnx] Hl]. split; [done|]. exists (named p x). split; [|done]. by apply (sk_encode _ _ Hk p).
    + intros [Hx (k & Ek & Hl)]. apply (sk_encode _ _ Hk p) in Ek as [Hnx ->]; done.
  - unfold list_paths. unfold mbind, TX_bind, txres, lift. rewrite Hp. cbn [map_err]. unfold reads_, prefix_latest.
    rewrite Hlat. f_equal. rewrite (paths_collect_ok sc p) by done. f_equal.
    destruct limit; [done|]. cbn [default]. apply take_ge. unfold keyed. by rewrite !length_map.
Qed.

(** ** Measurements *)

Definition point (p : bytes) (ts : Z) : bytes := p ++ be 8 ts.

Lemma measurement_encode sc m p ts :
  encode_steps (segs "measurement") (scope_vals sc ++ [vstr m]) = Ok p ->
  encode (mkMeasurement sc m ts) = Ok (point p ts).
Proof.
  intros Hp. set (l := take 10 (segs "measurement")).
  set (last := [Field "timestamp" (Type_ "Timestamp" (FSerde TU64))]).
  assert (encode_steps l (scope_vals sc ++ [vstr m]) = Ok p) as Hl.
  { pose proof (encode_steps_app l last (scope_vals sc ++ [vstr m]) [] p) as H. rewrite app_nil_r in H.
    destruct H as (a & b & Ha & Hb & ->); [done|exact Hp|]. apply Ok_inj in Hb as <-. by rewrite app_nil_r. }
  apply (encode_steps_app_ok l last (scope_vals sc ++ [vstr m]) [vu64 ts]); [done|done|].
  change (encode_steps last [vu64 ts]) with (Ok (be 8 ts ++ []) : res key_error bytes). by rewrite app_nil_r.
Qed.

Lemma point_lex p a b : is_u64 a -> is_u64 b -> lex (point p a) (point p b) = (a ?= b).
Proof.
  intros Ha Hb. unfold point. rewrite lex_app_same, <-(app_nil_r (be 8 a)), <-(app_nil_r (be 8 b)).
  rewrite lex_be_cthen by (cbn; unfold is_u64 in *; lia). by destruct (a ?= b).
Qed.

Lemma point_under sc m p k :
  scope_valid sc -> is_str m -> encode_steps (segs "measurement") (scope_vals sc ++ [vstr m]) = Ok p ->
  under "measurement" p k <-> exists ts, is_u64 ts /\ k = point p ts.
Proof.
  intros Hsc Hm Hp. split.
  - intros (ws & Hw & Lw & Hk & Hc)%(under_covers "measurement" (scope_vals sc ++ [vstr m])); try done.
    2: { destruct sc, Hsc as (?&?&?). shape_solve. }
    destruct ws as [|w1 [|w2 [|w3 [|w4 [|w5 [|]]]]]]; try done.
    cbn in Hc. destruct Hc as (_ & _ & <- & _ & _ & <- & _ & _ & <- & _ & _ & _ & _ & <- & _).
    cbn in Hw. destruct Hw as (_ & _ & _ & _ & (ts & -> & Hts)%typed_u64 & _).
    exists ts. split; [done|]. pose proof (measurement_encode sc m p ts Hp) as He.
    change (encode (mkMeasurement sc m ts) = Ok k) in Hk. congruence.
  - intros (ts & Hts & ->). split; [|apply starts_with_app].
    exists (sh_vals measurement_shape (mkMeasurement sc m ts)). split; [|split; [done|by apply measurement_encode]].
    by apply (sho_typed _ _ measurement_shape_ok).
Qed.

Lemma and_iff_compat (A B C D : Prop) : (A <-> C) -> (B <-> D) -> (A /\ B <-> C /\ D).
Proof. tauto. Qed.

(** The points between the two timestamps, the second excluded. *)
Definition in_window (start end_ : option Z) (ts : Z) : bool :=
  match start with Some a => a <=? ts | None => true end
  && match end_ with Some b => ts <? b | None => true end.

Definition window_valid (start end_ : option Z) : Prop :=
  match start with Some a => is_u64 a | None => True end /\ match end_ with Some b => is_u64 b | None => True end.

Definition window_edges (p hi : bytes) (start end_ : option Z) : bytes * bytes :=
  (match start with Some a => point p a | None => p end, match end_ with Some b => point p b | None => hi end).

Lemma point_inside p hi start end_ k t kd ts :
  prefix_to_range p = (p, Some hi) -> prefix_free (under "measurement" p) -> window_valid start end_ ->
  (forall a, is_u64 a -> under "measurement" p (point p a)) -> is_u64 ts -> k = point p ts ->
  ble (window_edges p hi start end_).1 (encode_row k t kd)
  /\ below (Some (window_edges p hi start end_).2) (encode_row k t kd)
  <-> in_window start end_ ts = true.
Proof.
  intros Hhi Hpf [Ha Hb] Hu Hts ->. pose proof (Hu ts Hts) as Hk.
  assert (ble p (encode_row (point p ts) t kd) /\ blt (encode_row (point p ts) t kd) hi) as [Hlo Hup].
  { assert (starts_with p (encode_row (point p ts) t kd) = true) as H.
    { eapply starts_with_trans; [apply Hk|]. apply starts_with_row. }
    apply prefix_range_iff in H. by rewrite Hhi in H. }
  unfold in_window. rewrite andb_true_iff. cbn [below]. apply and_iff_compat.
  - destruct start as [a|]; cbn [window_edges fst]; [|done].
    rewrite (row_ge (under "measurement" p)) by auto. unfold ble. rewrite point_lex by done. by rewrite Z.leb_le.
  - destruct end_ as [c|]; cbn [window_edges snd]; [|done].
    rewrite (row_lt (under "measurement" p)) by auto. unfold blt. rewrite point_lex by done. by rewrite Z.ltb_lt.
Qed.

(** The stored form of a point, and what a query returns for it. *)
Definition read_point (r : Z * bytes) : res tx_error (list (str * str) * list (str * bytes) * Z) :=
  body ← ok_or ErrPostcard (@from_bytes MeasurementBody _ r.2);
  Ok (mb_tags body, mb_fields body, r.1).

Lemma mapM_res_ext {A B C} (f : A -> res tx_error B) (g : C -> res tx_error B) (h : C -> A) l :
  Forall (fun x => f (h x) = g x) l -> mapM_res f (map h l) = mapM_res g l.
Proof. induction 1 as [|x l Hx _ IH]; [done|]. cbn. by rewrite Hx, IH. Qed.

Lemma measurement_decode sc m p ts :
  scope_valid sc -> is_str m -> encode_steps (segs "measurement") (scope_vals sc ++ [vstr m]) = Ok p -> is_u64 ts ->
  decode_exact (point p ts) = Ok (mkMeasurement sc m ts).
Proof.
  intros Hsc Hm Hp Hts. unfold decode_exact, StoreKey_Measurement. rewrite <-(app_nil_r (point p ts)).
  assert (measurement_valid (mkMeasurement sc m ts)) as Hv by done.
  by rewrite (generated_reads _ _ (mkMeasurement sc m ts) (point p ts) [] measurement_shape_ok Hv
    (measurement_encode sc m p ts Hp)).
Qed.

(** The points of a measurement, the scan of a window of them, both ways. *)
Lemma points_scan s sc m p hi start end_ :
  store_ok s -> scope_valid sc -> is_str m -> window_valid start end_ ->
  encode_steps (segs "measurement") (scope_vals sc ++ [vstr m]) = Ok p ->
  prefix_to_range p = (p, Some hi) ->
  exists rows, rows_as s (point p) is_u64 Z.lt rows /\ Forall (fun r => is_u64 r.1) rows
    /\ let e := window_edges p hi start end_ in
       let sel := List.filter (fun r => in_window start end_ r.1) rows in
       range_latest_kv s e.1 e.2 = map Ok (keyed (point p) sel)
       /\ range_latest_kv_rev s e.1 e.2 = map Ok (keyed (point p) (rev sel)).
Proof.
  intros Hs Hsc Hm Hw Hp Hhi. pose proof (fun k => point_under sc m p k Hsc Hm Hp) as Hu.
  assert (vals_typed (segs "measurement") (scope_vals sc ++ [vstr m])) as Hv.
  { destruct sc, Hsc as (?&?&?). shape_solve. }
  assert (in_region data_tag p = true) as Hr.
  { by apply (encode_literal_region data_tag [] (tail (segs "measurement")) (scope_vals sc ++ [vstr m]) p). }
  destruct (latest_under s "measurement" (scope_vals sc ++ [vstr m]) p) as (out & _ & Hout); try done.
  destruct (live_keys_as s (under "measurement" p) (point p) is_u64 Z.lt out Hu) as (rows & Hrows & -> & Hids); [..|done|].
  { intros a b Ha Hb E. apply Z.compare_eq. rewrite <-(point_lex p) by done. rewrite E. apply lex_refl. }
  { intros a b Ha Hb. unfold blt. by rewrite point_lex. }
  exists rows. split; [done|]. split; [done|]. cbv zeta.
  set (inside := fun k => in_window start end_ (of_be (drop (length p) k))).
  assert (forall ts, is_u64 ts -> inside (point p ts) = in_window start end_ ts) as Hin.
  { intros ts Hts. unfold inside, point. rewrite drop_app_length, of_be_be_small; [done|]. cbn. unfold is_u64 in Hts. lia. }
  destruct (latest_range s "measurement" (scope_vals sc ++ [vstr m]) p (window_edges p hi start end_).1
    (Some (window_edges p hi start end_).2) inside (keyed (point p) rows)) as [Hd E]; try done.
  - intros d Hd Hb. apply prefix_range_iff. rewrite Hhi. split.
    + eapply ble_trans; [|exact Hd]. destruct start; [apply ble_prefix|apply ble_refl].
    + cbn [below snd] in *. destruct end_ as [c|]; [|done]. cbn in Hb. eapply blt_ble_trans; [exact Hb|].
      assert (starts_with p (point p c) = true) as H by apply starts_with_app.
      apply prefix_range_iff in H as [_ H]. rewrite Hhi in H. by apply blt_ble.
  - intros k t kd Hk _. apply Hu in Hk as (ts & Hts & ->). rewrite Hin by done.
    apply (point_inside p hi start end_ _ t kd ts); try done; [apply under_prefix_free|].
    intros a Ha. apply Hu. eauto.
  - unfold range_latest_kv, range_latest_kv_rev. rewrite (latest_rev_rev _ Hd), E.
    rewrite (keyed_filter (point p) rows inside (in_window start end_)), <-map_rev, keyed_rev; [done|].
    eapply Forall_impl; [exact Hids|]. intros r. apply Hin.
Qed.

Lemma take_keyed {A} (f : A -> bytes) rows limit :
  take (default (length (map (@Ok tx_error _) (keyed f rows))) limit) (map (@Ok tx_error _) (keyed f rows))
  = map (@Ok tx_error _) (keyed f (match limit with Some n => take n rows | None => rows end)).
Proof.
  unfold keyed. destruct limit as [n|]; cbn [default].
  - by rewrite !take_fmap || by rewrite !firstn_map.
  - by rewrite firstn_all.
Qed.

Lemma region_prefix_range p :
  in_region data_tag p = true -> exists hi, prefix_to_range p = (p, Some hi) /\ range_of p = Ok (p, hi).
Proof.
  intros (r & ->)%in_region_head. destruct (range_of_total (data_tag :: r)) as (u & Hu).
  { exists data_tag. split; [left|done]. }
  exists u. split; [|done]. unfold range_of in Hu. unfold prefix_to_range in *. destruct (bump_last _); [|done].
  by injection Hu as ->.
Qed.

(** One entry of the scan, read. *)
Definition read_entry (entry : res tx_error (bytes * bytes))
  : res tx_error (list (str * str) * list (str * bytes) * Z) :=
  kv ← entry;
  m ← lift (@decode_exact Measurement _ kv.1);
  body ← ok_or ErrPostcard (@from_bytes MeasurementBody _ kv.2);
  Ok (mb_tags body, mb_fields body, ms_timestamp m).

Lemma read_entries sc m p limit l :
  scope_valid sc -> is_str m -> encode_steps (segs "measurement") (scope_vals sc ++ [vstr m]) = Ok p ->
  Forall (fun r => is_u64 r.1) l ->
  mapM_res read_entry (take (default (length (map (@Ok tx_error _) (keyed (point p) l))) limit)
    (map (@Ok tx_error _) (keyed (point p) l)))
  = mapM_res read_point (match limit with Some n => take n l | None => l end).
Proof.
  intros Hsc Hm Hp Hl. rewrite take_keyed. unfold keyed. rewrite map_map. apply mapM_res_ext.
  assert (Forall (fun r => is_u64 r.1) (match limit with Some n => take n l | None => l end)) as Hl'.
  { destruct limit; [by apply Forall_take|done]. }
  eapply Forall_impl; [exact Hl'|]. intros [ts v] Hts. unfold read_entry. cbn [fst snd mbind res_bind].
  by rewrite (measurement_decode sc m p ts Hsc Hm Hp Hts).
Qed.

Lemma find_measurement_run sc m limit start end_ order p hi (t : @Transaction S) :
  encode_steps (segs "measurement") (scope_vals sc ++ [vstr m]) = Ok p -> range_of p = Ok (p, hi) ->
  find_measurement sc m limit start end_ order t
  = (let e := window_edges p hi start end_ in
     let entries := match default TimestampDesc order with
                    | TimestampAsc => range_latest_kv (tx_store t) e.1 e.2
                    | TimestampDesc => range_latest_kv_rev (tx_store t) e.1 e.2
                    end in
     mapM_res read_entry (take (default (length entries) limit) entries), t).
Proof.
  intros Hp Hro. unfold find_measurement.
  assert (partial_range "measurement" (scope_vals sc ++ [vstr m]) = Ok (p, hi)) as Hr.
  { unfold partial_range. by rewrite Hp. }
  unfold mbind at 1, TX_bind at 1, txres. unfold lift. rewrite Hr. cbn [map_err fst snd].
  rewrite (tx_bind_ok _ _ _ (window_edges p hi start end_).1 t).
  2: { destruct start; [|done]. by apply key_bytes_ok, measurement_encode. }
  rewrite (tx_bind_ok _ _ _ (window_edges p hi start end_).2 t).
  2: { destruct end_; [|done]. by apply key_bytes_ok, measurement_encode. }
  done.
Qed.

(** A query for measurements returns, newest first unless asked otherwise, the
    points of the measurement whose timestamp lies in the window (the end
    excluded) and whose newest version is a value, up to the limit, each
    with the tags and fields stored for it. *)
Theorem find_measurement_window (sc : Scope) (m : str) (limit : option nat) (start end_ : option Z)
    (order : option TsOrderBy) (p : bytes) (t : @Transaction S)
    (Ht : tx_ok t) (Hsc : scope_valid sc) (Hm : is_str m) (Hw : window_valid start end_)
    (Hp : encode_steps (segs "measurement") (scope_vals sc ++ [vstr m]) = Ok p) :
  exists rows, StronglySorted (fun a b => a.1 < b.1) rows
    /\ (forall ts v, (ts, v) ∈ rows <->
         is_u64 ts /\ exists k, encode (mkMeasurement sc m ts) = Ok k /\ live (tx_store t) k v)
    /\ let sel := List.filter (fun r => in_window start end_ r.1) rows in
       let sel := match default TimestampDesc order with TimestampAsc => sel | TimestampDesc => rev sel end in
       find_measurement sc m limit start end_ order t
       = (mapM_res read_point (match limit with Some n => take n sel | None => sel end), t).
Proof.
  destruct (region_prefix_range p) as (hi & Hhi & Hro).
  { by apply (encode_literal_region data_tag [] (tail (segs "measurement")) (scope_vals sc ++ [vstr m]) p). }
  destruct (points_scan (tx_store t) sc m p hi start end_ (to_store _ Ht) Hsc Hm Hw Hp Hhi)
    as (rows & [Hso Hel] & Hids & Ea & Ed).
  exists rows. split; [done|]. split.
  { intros ts v. rewrite Hel. split; intros [Hts H]; (split; [done|]).
    - exists (point p ts). split; [by apply measurement_encode|done].
    - destruct H as (k & Hk & Hl). rewrite (measurement_encode sc m p ts Hp) in Hk. by apply Ok_inj in Hk as <-. }
  cbv zeta. rewrite (find_measurement_run sc m limit start end_ order p hi t Hp Hro). cbv zeta. f_equal.
  assert (Forall (fun r => is_u64 r.1) (List.filter (fun r => in_window start end_ r.1) rows)) as Hsel.
  { apply Forall_forall. intros r [Hr _]%elem_of_filterb. by apply (proj1 (Forall_forall _ _) Hids). }
  destruct (default TimestampDesc order).
  - rewrite Ea. by apply (read_entries sc m).
  - rewrite Ed. apply (read_entries sc m); try done. by apply Forall_rev.
Qed.

End Names.

(** ** Examples *)

Import Sample.

Definition sample_names : list tx_op :=
  [OpKeyPut (Sample.key "ab") [x01]; OpKeyPut (Sample.key "a") [x02]; OpKeyDelete (Sample.key "ac");
   OpPublish Sample.scope (lit "temp") [] [(lit "v", [x01])] 70;
   OpLink (mkPath Sample.scope (lit "f")) (mkBlobId Sample.scope (Sha2 (sample_sha [x01])));
   OpCommit Committed].
Definition sample_names_tx : Transaction := run_ops sample_sha sample_names (Sample.tx Sample.empty_store 9).

Lemma sample_names_ok : tx_ok sample_names_tx.
Proof.
  apply run_ops_ok; [apply sample_sha_length| |apply empty_ok; unfold is_u64; lia].
  repeat (apply Forall_cons; split); try apply Forall_nil; try exact I; repeat split; vm_compute; congruence.
Qed.
Lemma sample_scope_valid : scope_valid Sample.scope.
Proof. vm_compute. auto. Qed.

Lemma key_list_by_prefix_witness :
  exists rows, (StronglySorted (fun a b => blt a.1 b.1) rows
    /\ (forall x v, (x, v) ∈ rows <-> is_str x /\
          exists k, encode (mkUserKey Sample.scope x) = Ok k /\ live (tx_store sample_names_tx) k v)
    /\ key_list Sample.scope (lit "a") sample_names_tx
       = (Ok (List.filter (fun r => starts_with (lit "a") r.1) rows), sample_names_tx)
    /\ key_prefix Sample.scope (lit "a") sample_names_tx
       = (Ok (map fst (List.filter (fun r => starts_with (lit "a") r.1) rows)), sample_names_tx))
  /\ (key_list Sample.scope (lit "a") sample_names_tx).1 = Ok [(lit "a", [x02]); (lit "ab", [x01])].
Proof.
  destruct (key_list_by_prefix Sample.scope (lit "a") key_a_bytes sample_names_tx sample_names_ok
    sample_scope_valid key_a_encode) as (rows & H). exists rows. split; [exact H|]. vm_compute. reflexivity.
Defined.

Definition path_prefix : bytes :=
  Eval vm_compute in match encode_steps (segs "path") (scope_vals Sample.scope) with Ok e => e | Err _ => [] end.

Lemma list_paths_page_witness :
  exists rows, (StronglySorted (fun a b => blt a.1 b.1) rows
    /\ (forall x v, (x, v) ∈ rows <-> is_str x /\
          exists k, encode (mkPath Sample.scope x) = Ok k /\ live (tx_store sample_names_tx) k v)
    /\ list_paths Sample.scope None sample_names_tx = (Ok (map fst rows), sample_names_tx))
  /\ (list_paths Sample.scope None sample_names_tx).1 = Ok [lit "f"].
Proof.
  destruct (list_paths_page Sample.scope None path_prefix sample_names_tx sample_names_ok sample_scope_valid)
    as (rows & H); [vm_compute; reflexivity|]. exists rows. split; [exact H|]. vm_compute. reflexivity.
Defined.

Definition point_prefix : bytes :=
  Eval vm_compute in
    match encode_steps (segs "measurement") (scope_vals Sample.scope ++ [vstr (lit "temp")]) with
    | Ok e => e | Err _ => [] end.

Lemma find_measurement_window_witness :
  exists rows, find_measurement Sample.scope (lit "temp") (Some 3%nat) (Some 60) None None sample_names_tx
    = (mapM_res read_point (take 3 (rev (List.filter (fun r => in_window (Some 60) None r.1) rows))), sample_names_tx)
  /\ (find_measurement Sample.scope (lit "temp") (Some 3%nat) (Some 60) None None sample_names_tx).1
     = Ok [([], [(lit "v", [x01])], 70)].
Proof.
  destruct (find_measurement_window Sample.scope (lit "temp") (Some 3%nat) (Some 60) None None point_prefix
    sample_names_tx sample_names_ok sample_scope_valid) as (rows & _ & _ & H).
  - vm_compute. reflexivity.
  - split; [unfold is_u64; lia|exact I].
  - vm_compute. reflexivity.
  - exists rows. split; [exact H|]. vm_compute. reflexivity.
Defined.
