(* ===== verification/TxSync.v ===== *)
(** * Sync points

    The sync points a store holds, as the scans over them see them: which
    rows a scan of a subject, a scope or a version reads, in which order,
    what the last sync point of a scope is, and which heads
    [collect_latest_heads] hands on. *)

From S2P Require Import Prelude Bytes Skey SkeyRoundtrip SkeyOrder Keys KeyScan Domain Kv Rows RowsFacts Changeset Scans Tx Sample TxKeys TxInv TxReads TxScans.
From Stdlib Require Import ZArith Lia Strings.Byte Sorting.Sorted Permutation.
From stdpp Require Import base list option strings sets.

Local Open Scope Z_scope.

(** ** Patterns over sync points *)

Lemma sync_pattern vs sp p f :
  vals_typed (segs "sync_point") vs -> encode_steps (segs "sync_point") vs = Ok p ->
  sync_point_valid sp -> encode sp = Ok f ->
  starts_with p f = true
  <-> covers (kcode (segs "sync_point")) vs (kcode (segs "sync_point")) (sh_vals sync_point_shape sp).
Proof.
  intros Hv Hp Hsp Hf. change (encode sp) with (encode_steps (segs "sync_point") (sh_vals sync_point_shape sp)) in Hf.
  rewrite encode_steps_kcode in Hp, Hf. apply scan_exact; try done.
  - apply separated_refl. intros t _. apply fty_eqb_refl.
  - apply vals_typed_kcode. by apply (sho_typed _ _ sync_point_shape_ok).
Qed.

(** The selections the scans make: the scopes of a subject, one version of a scope, or all. *)
Inductive selection := BySubject (sub : Subject) | ByVersion (sc : Scope) (ts : Version) | Everything.

Definition selection_vals (sel : selection) : list fval :=
  match sel with
  | BySubject sub => subject_vals sub
  | ByVersion sc ts => scope_vals sc ++ [vu64 ts]
  | Everything => []
  end.
Definition selection_valid (sel : selection) : Prop :=
  match sel with
  | BySubject sub => subject_valid sub
  | ByVersion sc ts => scope_valid sc /\ is_u64 ts
  | Everything => True
  end.
Definition selects (sel : selection) (sp : SyncPoint) : bool :=
  match sel with
  | BySubject sub => subject_contains sub (sp_scope sp)
  | ByVersion sc ts => bool_decide (sp_scope sp = sc) && (sp_ts sp =? ts)
  | Everything => true
  end.

Lemma selection_typed sel : selection_valid sel -> vals_typed (segs "sync_point") (selection_vals sel).
Proof.
  destruct sel as [sub|sc ts|]; [apply subject_vals_typed| |intros _; shape_solve]. intros [Hsc Hts].
  destruct sc, Hsc as (?&?&?). shape_solve.
Qed.

Lemma selects_covers sel sp :
  covers (kcode (segs "sync_point")) (selection_vals sel) (kcode (segs "sync_point")) (sh_vals sync_point_shape sp)
  <-> selects sel sp = true.
Proof.
  destruct sel as [sub|[n d s] ts|]; [apply sync_point_subject_covers; by destruct sub| |];
  destruct sp as [[n' d' s'] t e i]; change (kcode (segs "sync_point")) with sync_point_kcode; [|cbn; naive_solver].
  cbn. unfold vstr. rewrite andb_true_iff, bool_decide_eq_true, Z.eqb_eq. unfold vu64. naive_solver.
Qed.

Lemma selects_starts sel sp p f :
  selection_valid sel -> encode_steps (segs "sync_point") (selection_vals sel) = Ok p ->
  sync_point_valid sp -> encode sp = Ok f -> starts_with p f = selects sel sp.
Proof.
  intros Hs Hp Hsp Hf. apply eq_true_iff_eq. rewrite <-selects_covers.
  apply sync_pattern; try done. by apply selection_typed.
Qed.

(** ** The order of sync points *)

(** By version, then epoch, then node; within one scope the order of the keys. *)
Definition sp_cmp (a b : SyncPoint) : comparison :=
  cthen (sp_ts a ?= sp_ts b) (cthen (sp_epoch a ?= sp_epoch b) (lex (sp_id a) (sp_id b))).

Lemma sync_point_lex a b e f :
  sync_point_valid a -> sync_point_valid b -> sp_scope a = sp_scope b ->
  encode a = Ok e -> encode b = Ok f -> lex e f = sp_cmp a b.
Proof.
  intros Ha Hb Hs He Hf.
  change (encode a) with (encode_steps (segs "sync_point") (sh_vals sync_point_shape a)) in He.
  change (encode b) with (encode_steps (segs "sync_point") (sh_vals sync_point_shape b)) in Hf.
  rewrite encode_steps_kcode in He, Hf.
  assert (forall p, sync_point_valid p -> ktyped (kcode (segs "sync_point")) (sh_vals sync_point_shape p)) as Ht.
  { intros p Hp. apply vals_typed_kcode. by apply (sho_typed _ _ sync_point_shape_ok). }
  rewrite (key_order (kcode (segs "sync_point")) (sh_vals sync_point_shape a)
    (sh_vals sync_point_shape b) e f); [|repeat constructor|by apply Ht|by apply Ht|done|done|done].
  destruct a as [[n d s] t ep i], b as [[n' d' s'] t' ep' i']. injection Hs as <- <- <-.
  change (kcode (segs "sync_point")) with sync_point_kcode. cbn. rewrite !lex_refl. cbn.
  unfold sp_cmp. cbn. by destruct (t ?= t'), (ep ?= ep'), (lex i i').
Qed.

Section Sync.
Context {S : Type} {kvS : Kv S} {kvLaws : KvLaws S}
  {pcMeta : Postcard SyncMeta} {pcMetaLaws : PostcardLaws SyncMeta}
  {pcBody : Postcard MeasurementBody}.
Implicit Types s : S.

(** ** The sync points of a store *)

(** The store holds the sync point, with this meta data. *)
Definition sync_at s (sp : SyncPoint) (sm : SyncMeta) : Prop :=
  sync_point_valid sp /\ exists k v, encode sp = Ok k /\ kv_get s k = Some v /\ from_bytes v = Some sm.

(** Sync points in the order of their keys. *)
Definition key_lt (a b : SyncPoint) : Prop := exists e f, encode a = Ok e /\ encode b = Ok f /\ blt e f.

(** The sync points of the selection, in order. *)
Definition sync_list s (sel : selection) (l : list (SyncPoint * SyncMeta)) : Prop :=
  StronglySorted (fun a b => key_lt a.1 b.1) l
  /\ forall sp sm, (sp, sm) ∈ l <-> selects sel sp = true /\ sync_at s sp sm.

Lemma sync_row s k v : store_ok s -> kv_get s k = Some v -> in_region sync_tag k = true ->
  exists sp sm, decode_sync_row (k, v) = Ok (sp, sm) /\ encode sp = Ok k /\ sync_at s sp sm.
Proof.
  intros Hs Hg Hr. destruct (so_sync _ Hs k v Hg Hr) as (sp & sm & Hsp & He & Hv).
  exists sp, sm. split; [|split; [done|by split; [|eauto 10]]].
  unfold decode_sync_row. cbn [fst snd]. rewrite (sync_point_decode sp k Hsp He). cbn [lift map_err mbind res_bind].
  by rewrite Hv.
Qed.

Lemma decode_sync_row_at s sp sm k v :
  sync_at s sp sm -> encode sp = Ok k -> kv_get s k = Some v -> decode_sync_row (k, v) = Ok (sp, sm).
Proof.
  intros (Hsp & k' & v' & He' & Hg' & Hv') He Hg. rewrite He in He'. apply Ok_inj in He' as <-.
  rewrite Hg in Hg'. injection Hg' as <-. unfold decode_sync_row. cbn [fst snd].
  rewrite (sync_point_decode sp k Hsp He). cbn [lift map_err mbind res_bind]. by rewrite Hv'.
Qed.

(** Sorted rows that are the sync points of the selection decode to their list. *)
Lemma sync_rows_decode s sel p rows :
  store_ok s -> selection_valid sel -> encode_steps (segs "sync_point") (selection_vals sel) = Ok p ->
  rows = kv_prefix s p ->
  exists l, mapM_res decode_sync_row rows = Ok l /\ sync_list s sel l
    /\ Forall2 (fun r x => encode x.1 = Ok r.1) rows l.
Proof.
  intros Hs Hsel Hp ->. destruct (sync_point_starts _ _ Hp) as (r0 & Ep).
  assert (Forall (fun r => exists x, decode_sync_row r = Ok x /\ encode x.1 = Ok r.1 /\ sync_at s x.1 x.2) (kv_prefix s p)) as Hall.
  { apply Forall_forall. intros [k v] [Hg Hk]%kv_prefix_elem.
    destruct (sync_row s k v Hs Hg) as (sp & sm & H1 & H2 & H3); [|by exists (sp, sm)].
    apply starts_with_spec in Hk as (r & ->). by rewrite Ep. }
  assert (exists l, mapM_res decode_sync_row (kv_prefix s p) = Ok l
    /\ Forall2 (fun r x => encode x.1 = Ok r.1 /\ sync_at s x.1 x.2) (kv_prefix s p) l) as (l & Hm & H2).
  { clear -Hall. induction Hall as [|r rows (x & Hd & He & Ha) _ (l & Hm & H2)]; [by exists []|].
    exists (x :: l). split; [|by constructor]. cbn [mapM_res]. rewrite Hd. cbn [mbind res_bind]. by rewrite Hm. }
  exists l. split; [done|]. split; [|eapply Forall2_impl; [exact H2|naive_solver]]. split.
  - pose proof (kv_prefix_sorted s p) as Hso. clear Hm Hall. induction H2 as [|r x rows l [He Hx] H2 IH]; [constructor|].
    apply StronglySorted_inv in Hso as [Hso Hlt]. constructor; [by apply IH|].
    apply Forall_forall. intros y Hy. apply list_elem_of_lookup in Hy as (i & Hi).
    destruct (Forall2_lookup_r _ _ _ _ _ H2 Hi) as (r' & Hr' & He' & _).
    exists r.1, r'.1. split; [done|]. split; [done|]. rewrite Forall_forall in Hlt. apply Hlt.
    apply list_elem_of_fmap. eauto using list_elem_of_lookup_2.
  - intros sp sm. split.
    + intros (i & Hi)%list_elem_of_lookup. destruct (Forall2_lookup_r _ _ _ _ _ H2 Hi) as ([k v] & Hr & He & Hx).
      cbn [fst snd] in *. apply list_elem_of_lookup_2, kv_prefix_elem in Hr as [_ Hst].
      split; [|done]. by rewrite <-(selects_starts sel sp p k Hsel Hp (proj1 Hx) He).
    + intros [Hse Hx]. pose proof Hx as (Hsp & k & v & He & Hg & Hv).
      assert ((k, v) ∈ kv_prefix s p) as Hin.
      { apply kv_prefix_elem. split; [done|]. by rewrite (selects_starts sel sp p k Hsel Hp Hsp He). }
      apply list_elem_of_lookup in Hin as (i & Hi).
      apply mapM_res_ok in Hm. destruct (Forall2_lookup_l _ _ _ _ _ Hm Hi) as (x & Hxi & Hd).
      rewrite (decode_sync_row_at s sp sm k v Hx He Hg) in Hd. apply Ok_inj in Hd as <-.
      by eapply list_elem_of_lookup_2.
Qed.

(** ** Scans *)

Lemma foldM_rows {A} (func : A -> SyncPoint * SyncMeta -> res tx_error A) rows l a :
  mapM_res decode_sync_row rows = Ok l ->
  foldM (fun a r => p ← decode_sync_row r; func a p) rows a = foldM func l a.
Proof.
  intros Hm%mapM_res_ok. revert a; induction Hm as [|r x rows l Hr _ IH]; intros a; [done|].
  cbn [foldM]. rewrite Hr. cbn [mbind res_bind]. destruct (func a x); cbn; [apply IH|done].
Qed.

Lemma mapM_res_rev {A B} (f : A -> res tx_error B) l k : mapM_res f l = Ok k -> mapM_res f (rev l) = Ok (rev k).
Proof.
  rewrite !mapM_res_ok. induction 1 as [|x y l k Hxy _ IH]; [constructor|]. cbn. apply Forall2_app; [done|].
  by repeat constructor.
Qed.

Lemma selection_range s sel lo hi :
  partial_range "sync_point" (selection_vals sel) = Ok (lo, hi) ->
  exists p, encode_steps (segs "sync_point") (selection_vals sel) = Ok p
    /\ kv_range s lo (Some hi) = kv_prefix s p.
Proof.
  unfold partial_range. intros (p & Hp & Hr)%res_bind_ok. exists p. split; [done|].
  assert (prefix_to_range p = (lo, Some hi)) as E.
  { unfold range_of, prefix_to_range in *. destruct (bump_last (rev p)); [|done]. by injection Hr as <- <-. }
  pose proof (range_is_prefix s p) as H. by rewrite E in H.
Qed.

(** A scan of the range of a selection, forwards and backwards, goes through its list. *)
Lemma find_sync_points_list s sel lo hi :
  store_ok s -> selection_valid sel -> partial_range "sync_point" (selection_vals sel) = Ok (lo, hi) ->
  exists l, sync_list s sel l
    /\ (forall A (func : A -> SyncPoint * SyncMeta -> res tx_error A) a,
        find_sync_points s lo hi func a = foldM func l a
        /\ find_sync_points_rev s lo hi func a = foldM func (rev l) a).
Proof.
  intros Hs Hsel Hr. destruct (selection_range s sel lo hi Hr) as (p & Hp & Er).
  destruct (sync_rows_decode s sel p _ Hs Hsel Hp eq_refl) as (l & Hm & Hl & _). exists l. split; [done|].
  intros A func a. unfold find_sync_points, find_sync_points_rev. rewrite Er. split; [by apply foldM_rows|].
  apply foldM_rows. by apply mapM_res_rev.
Qed.

(** ** The latest heads *)

Definition group (x : SyncPoint * SyncMeta) : Scope * Version := (sp_scope x.1, sp_ts x.1).
Definition head_of (x : SyncPoint * SyncMeta) : head_entry := (sp_scope x.1, as_id x.1, x.2).

(** The first of every run of one scope and version. *)
Fixpoint firsts (prev : option (Scope * Version)) (l : list (SyncPoint * SyncMeta)) : list (SyncPoint * SyncMeta) :=
  match l with
  | [] => []
  | x :: l => if bool_decide (prev = Some (group x)) then firsts prev l else x :: firsts (Some (group x)) l
  end.

Lemma heads_step_some {A} (func : A -> head_entry -> res tx_error A) x y a :
  heads_step func (Some (head_of x), a) y
  = if bool_decide (Some (group x) = Some (group y)) then Ok (Some (head_of x), a)
    else a ← func a (head_of x); Ok (Some (head_of y), a).
Proof.
  destruct x as [x xm], y as [y ym]. unfold heads_step, head_of. cbn [fst snd].
  change (sid_version (as_id x)) with (sp_ts x).
  assert ((sp_ts x =? sp_ts y) && bool_decide (sp_scope x = sp_scope y)
    = bool_decide (Some (group (x, xm)) = Some (group (y, ym)))) as ->; [|done].
  apply eq_true_iff_eq. rewrite andb_true_iff, !bool_decide_eq_true, Z.eqb_eq. unfold group. cbn.
  split; [intros [-> ->]; done|]. by intros [= -> ->].
Qed.

Lemma heads_fold {A} (func : A -> head_entry -> res tx_error A) l x a :
  (st ← foldM (heads_step func) l (Some (head_of x), a);
   match st.1 with Some e => func st.2 e | None => Ok st.2 end)
  = (a ← func a (head_of x); foldM func (map head_of (firsts (Some (group x)) l)) a).
Proof.
  revert x a; induction l as [|y l IH]; intros x a.
  - cbn. by destruct (func a (head_of x)).
  - cbn [foldM firsts]. rewrite heads_step_some. destruct (bool_decide _).
    + cbn [mbind res_bind]. apply IH.
    + destruct (func a (head_of x)) as [a'|e]; cbn [mbind res_bind]; [|done]. rewrite IH. done.
Qed.

Lemma collect_firsts {A} s lo hi (func : A -> head_entry -> res tx_error A) l a :
  find_sync_points_rev s lo hi (heads_step func) (None, a) = foldM (heads_step func) (rev l) (None, a) ->
  collect_latest_heads s lo hi func a = foldM func (map head_of (firsts None (rev l))) a.
Proof.
  intros E. unfold collect_latest_heads. rewrite E. destruct (rev l) as [|x k]; [done|].
  cbn [foldM heads_step]. destruct x as [sp sm]. cbn [mbind res_bind].
  change (sp_scope sp, as_id sp, sm) with (head_of (sp, sm)). rewrite heads_fold. done.
Qed.

(** Runs: what lies between two of a group is of the group. *)
Definition runs (l : list (SyncPoint * SyncMeta)) : Prop :=
  forall l1 y l2 g, l = l1 ++ y :: l2 -> group y <> g -> (exists x, x ∈ l1 /\ group x = g) ->
    forall z, z ∈ l2 -> group z <> g.

Definition after_run (prev : option (Scope * Version)) (l : list (SyncPoint * SyncMeta)) : Prop :=
  forall l1 y l2 g, prev = Some g -> l = l1 ++ y :: l2 -> group y <> g -> forall z, z ∈ l2 -> group z <> g.

Lemma runs_tail x l : runs (x :: l) -> runs l /\ after_run (Some (group x)) l.
Proof.
  intros H. split.
  - intros l1 y l2 g -> Hy (z & Hz & Eg). apply (H (x :: l1) y l2 g); [done|done|]. exists z. split; [by right|done].
  - intros l1 y l2 g [= <-] -> Hy. apply (H (x :: l1) y l2); [done|done|]. exists x. split; [left|done].
Qed.

Lemma after_run_tail prev x l : after_run prev (x :: l) -> after_run prev l.
Proof. intros H l1 y l2 g E -> Hy. by apply (H (x :: l1) y l2). Qed.

Section Firsts.
Context (gt : SyncPoint * SyncMeta -> SyncPoint * SyncMeta -> Prop) (Hgt : forall a b, gt a b -> ~ gt b a).

Lemma firsts_spec prev l :
  StronglySorted gt l -> runs l -> after_run prev l ->
  forall x, x ∈ firsts prev l <->
    x ∈ l /\ prev <> Some (group x) /\ forall y, y ∈ l -> group y = group x -> y = x \/ gt x y.
Proof.
  revert prev; induction l as [|d l IH]; intros prev Hs Hr Ha x; cbn [firsts].
  - rewrite elem_of_nil. naive_solver.
  - apply StronglySorted_inv in Hs as [Hs Hd]. rewrite Forall_forall in Hd.
    destruct (runs_tail _ _ Hr) as [Hr' Hd']. destruct (bool_decide_reflect (prev = Some (group d))) as [Ep|Ep].
    + rewrite (IH prev Hs Hr' (after_run_tail _ _ _ Ha)). split.
      * intros (Hx & Hp & Hm). split; [by right|]. split; [done|].
        intros y [->|Hy]%elem_of_cons Eg; [congruence|]. by apply Hm.
      * intros ([->|Hx]%elem_of_cons & Hp & Hm); [done|]. split; [done|]. split; [done|].
        intros y Hy. apply Hm. by right.
    + rewrite elem_of_cons, (IH _ Hs Hr' Hd'). split.
      * intros [->|(Hx & Hp & Hm)].
        -- split; [left|]. split; [done|]. intros y [->|Hy]%elem_of_cons _; [by left|]. right. by apply Hd.
        -- split; [by right|]. split; [|intros y [->|Hy]%elem_of_cons Eg; [congruence|by apply Hm]].
           intros E. by apply (Ha [] d l (group x) E eq_refl ltac:(congruence) x Hx).
      * intros ([->|Hx]%elem_of_cons & Hp & Hm); [by left|]. right. split; [done|]. split.
        -- intros Eg'. assert (group d = group x) as Eg by congruence. clear Eg'. pose proof (Hd x Hx) as Hdx. destruct (Hm d ltac:(left) Eg) as [->|Hxd].
           ++ by apply (Hgt x x).
           ++ by apply (Hgt d x).
        -- intros y Hy. apply Hm. by right.
Qed.

Lemma firsts_nodup prev l : runs l -> after_run prev l ->
  NoDup (map group (firsts prev l)) /\ forall x, x ∈ firsts prev l -> prev <> Some (group x).
Proof.
  revert prev; induction l as [|d l IH]; intros prev Hr Ha; cbn [firsts].
  - split; [constructor|]. by intros x ?%elem_of_nil.
  - destruct (runs_tail _ _ Hr) as [Hr' Hd']. destruct (bool_decide_reflect (prev = Some (group d))) as [Ep|Ep].
    { apply IH; [done|]. by eapply after_run_tail. }
    destruct (IH _ Hr' Hd') as [Hn Hne]. split.
    + cbn. constructor; [|done]. intros (y & Ey & Hy)%list_elem_of_fmap. apply (Hne y Hy). congruence.
    + intros x [->|Hx]%elem_of_cons; [done|]. intros E.
      assert (x ∈ l) as Hxl.
      { clear -Hx. revert Hx. generalize (Some (group d)). induction l as [|y l IH]; intros o Hx; cbn in *; [done|].
        destruct (bool_decide _); [right; by eapply IH|]. apply elem_of_cons in Hx as [->|Hx]; [left|right; by eapply IH]. }
      by apply (Ha [] d l (group x) E eq_refl ltac:(congruence) x Hxl).
Qed.

End Firsts.

(** Every group has a first. *)
Lemma firsts_every prev l x : x ∈ l -> prev <> Some (group x) -> exists y, y ∈ firsts prev l /\ group y = group x.
Proof.
  revert prev; induction l as [|z l IH]; intros prev; [by intros ?%elem_of_nil|].
  intros [->|Hx]%elem_of_cons Hp; cbn [firsts].
  - rewrite bool_decide_eq_false_2 by done. exists z. split; [by left|done].
  - destruct (bool_decide (prev = Some (group z))) eqn:Ez; [by apply IH|].
    destruct (decide (group z = group x)) as [E|Hne]; [exists z; split; [by left|done]|].
    destruct (IH (Some (group z)) Hx) as (y & Hy & Ey); [congruence|]. exists y. split; [by right|done].
Qed.

Lemma starts_between p a b c :
  starts_with p a = true -> starts_with p c = true -> ble a b -> ble b c -> starts_with p b = true.
Proof.
  rewrite !prefix_range_iff. intros [Ha _] [_ Hc] Hab Hbc. split; [by eapply ble_trans|].
  destruct (prefix_to_range p).2; [|done]. cbn in *. by eapply ble_blt_trans.
Qed.

Lemma key_lt_asym a b : key_lt a b -> ~ key_lt b a.
Proof.
  intros (e & f & He & Hf & Hlt) (f' & e' & Hf' & He' & Hlt'). rewrite He in He'. apply Ok_inj in He' as <-.
  rewrite Hf in Hf'. apply Ok_inj in Hf' as <-. apply (blt_irrefl e). by eapply blt_trans.
Qed.

(** Between two sync points of one scope and version there are only such. *)
Lemma key_lt_group a b c :
  sync_point_valid a -> sync_point_valid b -> sync_point_valid c -> key_lt a b -> key_lt b c ->
  sp_scope a = sp_scope c -> sp_ts a = sp_ts c -> sp_scope b = sp_scope a /\ sp_ts b = sp_ts a.
Proof.
  intros Ha Hb Hc (e & f & He & Hf & Hef) (f' & g & Hf' & Hg & Hfg) Es Et.
  rewrite Hf in Hf'. apply Ok_inj in Hf' as <-. set (sel := ByVersion (sp_scope a) (sp_ts a)).
  assert (selection_valid sel) as Hsel by (split; apply Ha).
  assert (exists p, encode_steps (segs "sync_point") (selection_vals sel) = Ok p) as (p & Hp).
  { change (encode a) with (encode_steps (segs "sync_point") (sh_vals sync_point_shape a)) in He.
    rewrite encode_steps_kcode in He. apply (kencode_take _ _ 4) in He as (x & y & Hx & _).
    exists x. by rewrite encode_steps_kcode. }
  assert (starts_with p f = true) as Hpf.
  { apply (starts_between p e f g); [| |by apply blt_ble..].
    - rewrite (selects_starts sel a p e Hsel Hp Ha He). cbn. by rewrite bool_decide_true, Z.eqb_refl.
    - rewrite (selects_starts sel c p g Hsel Hp Hc Hg). cbn. by rewrite Es, Et, bool_decide_true, Z.eqb_refl. }
  rewrite (selects_starts sel b p f Hsel Hp Hb Hf) in Hpf. cbn in Hpf.
  by apply andb_true_iff in Hpf as [?%bool_decide_eq_true ?%Z.eqb_eq].
Qed.

Lemma sync_list_runs s sel l : sync_list s sel l -> runs (rev l).
Proof.
  intros [Hso Hel] l1 y l2 g E Hy (x & Hx & Eg) z Hz Ez. apply sorted_rev in Hso. rewrite E in Hso.
  assert (forall a, a ∈ l1 ++ y :: l2 -> sync_point_valid a.1) as Hv.
  { intros [a am] Ha. rewrite <-E in Ha. apply list_elem_of_In, in_rev, list_elem_of_In in Ha.
    apply Hel in Ha as [_ [Ha _]]. exact Ha. }
  assert (key_lt y.1 x.1) as Hyx.
  { clear -Hso Hx. induction l1 as [|a l1 IH]; [by apply elem_of_nil in Hx|]. cbn in Hso.
    apply StronglySorted_inv in Hso as [Hso Hall]. apply elem_of_cons in Hx as [->|Hx]; [|by apply IH].
    rewrite Forall_forall in Hall. apply Hall. apply elem_of_app. right. left. }
  assert (key_lt z.1 y.1) as Hzy.
  { clear -Hso Hz. induction l1 as [|a l1 IH]; cbn in Hso.
    - apply StronglySorted_inv in Hso as [_ Hall]. rewrite Forall_forall in Hall. by apply Hall.
    - apply StronglySorted_inv in Hso as [Hso _]. by apply IH. }
  destruct (key_lt_group z.1 y.1 x.1) as [H1 H2]; try done.
  - apply Hv. apply elem_of_app. right. by right.
  - apply Hv. apply elem_of_app. right. left.
  - apply Hv. apply elem_of_app. by left.
  - unfold group in *. congruence.
  - unfold group in *. congruence.
  - apply Hy. rewrite <-Ez. unfold group. by rewrite H1, H2.
Qed.

(** One head per scope and version selected: the sync point with the
    greatest epoch, and among those the greatest node. *)
Definition head_point (h : head_entry) : SyncPoint := with_sp_id h.1.1 h.1.2.

Record latest_heads s (sel : selection) (heads : list head_entry) : Prop := mkLatestHeads {
  lh_nodup : NoDup (map (fun h => (h.1.1, sid_version h.1.2)) heads);
  lh_elem : forall h, h ∈ heads <->
    selects sel (head_point h) = true /\ sync_at s (head_point h) h.2
    /\ forall sp sm, sync_at s sp sm -> sp_scope sp = h.1.1 -> sp_ts sp = sid_version h.1.2 ->
         sp_cmp sp (head_point h) <> Gt;
  lh_every : forall sp sm, sync_at s sp sm -> selects sel sp = true ->
    exists h, h ∈ heads /\ h.1.1 = sp_scope sp /\ sid_version h.1.2 = sp_ts sp;
}.

Lemma head_of_point x : head_point (head_of x) = x.1.
Proof. by destruct x as [[sc ts e i] sm]. Qed.

Lemma head_of_inv h : exists x, h = head_of x /\ x = (head_point h, h.2).
Proof. destruct h as [[sc [[e v] n]] sm]. by exists (mkSyncPoint sc v e n, sm). Qed.

Lemma sync_at_fun s sp sm sm' : sync_at s sp sm -> sync_at s sp sm' -> sm = sm'.
Proof.
  intros (_ & k & v & He & Hg & Hv) (_ & k' & v' & He' & Hg' & Hv'). rewrite He in He'. apply Ok_inj in He' as <-.
  congruence.
Qed.

Lemma key_lt_cmp a b e f :
  sync_point_valid a -> sync_point_valid b -> sp_scope a = sp_scope b -> encode a = Ok e -> encode b = Ok f ->
  key_lt a b <-> sp_cmp a b = Lt.
Proof.
  intros Ha Hb Hs He Hf. rewrite <-(sync_point_lex a b e f Ha Hb Hs He Hf). split.
  - intros (e' & f' & He' & Hf' & H). rewrite He in He'. rewrite Hf in Hf'. apply Ok_inj in He' as <-.
    by apply Ok_inj in Hf' as <-.
  - intros H. by exists e, f.
Qed.

Lemma sp_cmp_eq a b : sp_scope a = sp_scope b -> sp_cmp a b = Eq -> a = b.
Proof.
  destruct a as [sc t e i], b as [sc' t' e' i']. cbn. unfold sp_cmp. cbn. intros <-.
  destruct (Z.compare_spec t t') as [->| |], (Z.compare_spec e e') as [->| |], (lex i i') eqn:El; try done.
  intros _. by apply lex_eq in El as ->.
Qed.

Lemma sp_cmp_antisym a b : sp_cmp b a = CompOpp (sp_cmp a b).
Proof.
  unfold sp_cmp. rewrite (Z.compare_antisym (sp_ts a)), (Z.compare_antisym (sp_epoch a)), lex_antisym.
  by destruct (sp_ts a ?= sp_ts b), (sp_epoch a ?= sp_epoch b), (lex (sp_id a) (sp_id b)).
Qed.

(** A selection does not separate the sync points of one scope and version. *)
Lemma selects_group sel a b : sp_scope a = sp_scope b -> sp_ts a = sp_ts b -> selects sel a = selects sel b.
Proof. intros E1 E2. destruct sel; cbn; by rewrite ?E1, ?E2. Qed.

Lemma firsts_latest s sel l :
  sync_list s sel l -> latest_heads s sel (map head_of (firsts None (rev l))).
Proof.
  intros Hl. pose proof (sync_list_runs _ _ _ Hl) as Hr. destruct Hl as [Hso Hel].
  assert (after_run None (rev l)) as Ha by (by intros ? ? ? ? [=]).
  assert (forall x, x ∈ rev l <-> x ∈ l) as Hrev.
  { intros x. by rewrite !list_elem_of_In, <-in_rev. }
  assert (forall a b : SyncPoint * SyncMeta, key_lt b.1 a.1 -> ~ key_lt a.1 b.1) as Has.
  { intros a b. apply key_lt_asym. }
  pose proof (firsts_spec (fun a b => key_lt b.1 a.1) Has None (rev l) (sorted_rev _ _ Hso) Hr Ha) as Hf.
  split.
  - destruct (firsts_nodup None (rev l) Hr Ha) as [Hn _]. rewrite map_map. exact Hn.
  - intros h. destruct (head_of_inv h) as (x & Eh & Ex).
    assert (h ∈ map head_of (firsts None (rev l)) <-> x ∈ firsts None (rev l)) as ->.
    { rewrite list_elem_of_fmap. split; [|intros; exists x; done]. intros (y & Ey & Hy).
      destruct x as [[? ? ? ?] ?], y as [[? ? ? ?] ?]. rewrite Eh in Ey. unfold head_of, as_id in Ey. cbn in Ey.
      injection Ey as <- <- <- <- <-. done. }
    rewrite Hf, Hrev. destruct x as [sp sm]. rewrite Hel. injection Ex as Esp Esm.
    rewrite <-Esp, <-Esm. assert (h.1.1 = sp_scope sp /\ sid_version h.1.2 = sp_ts sp) as [-> ->] by (by rewrite Eh).
    cbn [fst]. split.
    + intros ([Hsub Hat] & _ & Hm). split; [done|]. split; [done|]. intros sp' sm' Hat' Es Et Hgt.
      destruct (Hm (sp', sm')) as [[= -> ->]|Hlt].
      * apply Hrev, Hel. by rewrite (selects_group _ sp' sp).
      * unfold group. cbn. by rewrite Es, Et.
      * assert (sp_cmp sp sp = Eq) as E; [|congruence]. unfold sp_cmp. by rewrite !Z.compare_refl, lex_refl.
      * destruct Hat as (Hv & ? & ? & He & _), Hat' as (Hv' & ? & ? & He' & _). cbn in Hlt.
        apply (key_lt_cmp sp' sp _ _ Hv' Hv Es He' He) in Hlt. congruence.
    + intros (Hsub & Hat & Hm). split; [done|]. split; [done|]. intros [sp' sm'] [Hs' Hat']%Hrev%Hel Eg.
      unfold group in Eg. cbn in Eg. injection Eg as Es Et. pose proof (Hm sp' sm' Hat' Es Et) as Hle.
      destruct (sp_cmp sp' sp) eqn:Ec; [|right|done].
      * left. apply sp_cmp_eq in Ec as ->; [|done]. by rewrite (sync_at_fun s sp sm sm' Hat Hat').
      * destruct Hat as (Hv & ? & ? & He & _), Hat' as (Hv' & ? & ? & He' & _). cbn. by eapply key_lt_cmp.
  - intros sp sm Hat Hsel. destruct (firsts_every None (rev l) (sp, sm)) as (y & Hy & Ey); [by apply Hrev, Hel|done|].
    exists (head_of y). split; [by apply list_elem_of_fmap_2|]. by injection Ey.
Qed.

Lemma collect_selected s sel lo hi :
  store_ok s -> selection_valid sel -> partial_range "sync_point" (selection_vals sel) = Ok (lo, hi) ->
  exists heads, latest_heads s sel heads
    /\ forall (A : Type) (func : A -> head_entry -> res tx_error A) (a : A),
        collect_latest_heads s lo hi func a = foldM func heads a.
Proof.
  intros Hs Hsel Hr. destruct (find_sync_points_list s sel lo hi Hs Hsel Hr) as (l & Hl & Hf).
  exists (map head_of (firsts None (rev l))). split; [by apply firsts_latest|].
  intros A func a. apply collect_firsts. apply Hf.
Qed.

(** [collect_latest_heads] hands on, for every scope of the subject and every
    version of it the store holds a sync point of, exactly one head: the
    sync point of that version with the greatest epoch (and node).  It stops
    at the first error of the closure and not otherwise. *)
Theorem collect_latest_heads_latest (s : S) (sub : Subject) (lo hi : bytes)
    (Hs : store_ok s) (Hsub : subject_valid sub) (Hr : range_from_subject sub = Ok (lo, hi)) :
  exists heads, latest_heads s (BySubject sub) heads
    /\ forall (A : Type) (func : A -> head_entry -> res tx_error A) (a : A),
        collect_latest_heads s lo hi func a = foldM func heads a.
Proof. rewrite range_from_subject_eq in Hr. by apply (collect_selected s (BySubject sub)). Qed.

(** ** The last sync point of a scope *)

(** The newest sync point of the scope, if it has any. *)
Definition last_sync s (sc : Scope) (o : option SyncPoint) : Prop :=
  match o with
  | None => forall sp sm, sync_at s sp sm -> sp_scope sp <> sc
  | Some sp => (exists sm, sync_at s sp sm) /\ sp_scope sp = sc
      /\ forall sp' sm', sync_at s sp' sm' -> sp_scope sp' = sc -> sp_cmp sp' sp <> Gt
  end.

Lemma last_elem {A} (l : list A) x : last l = Some x -> x ∈ l.
Proof. apply last_Some_elem_of. Qed.

Lemma sorted_last {A} (R : A -> A -> Prop) l x y :
  StronglySorted R l -> last l = Some x -> y ∈ l -> y = x \/ R y x.
Proof.
  induction 1 as [|a l Hs IH Hall]; [done|]. destruct l as [|b l]; cbn [last].
  - intros [= ->] ?%list_elem_of_singleton. by left.
  - intros Hl [->|Hy]%elem_of_cons; [|by apply IH]. right. rewrite Forall_forall in Hall. apply Hall. by apply last_elem.
Qed.

Lemma sync_list_last s sc l :
  sync_list s (BySubject (SubjScope sc)) l -> last_sync s sc (fst <$> last l).
Proof.
  intros [Hso Hel]. destruct (last l) as [[sp sm]|] eqn:El; cbn.
  - pose proof El as Hin%last_elem%Hel. cbn in Hin. destruct Hin as [Hs%bool_decide_eq_true Hat].
    split; [eauto|]. split; [done|]. intros sp' sm' Hat' Hs' Hgt.
    assert ((sp', sm') ∈ l) as Hin' by (apply Hel; cbn; by rewrite bool_decide_true).
    destruct (sorted_last _ _ _ _ Hso El Hin') as [[= -> ->]|Hlt].
    + assert (sp_cmp sp sp = Eq) as E; [|congruence]. unfold sp_cmp. by rewrite !Z.compare_refl, lex_refl.
    + destruct Hat as (Hv & ? & ? & He & _), Hat' as (Hv' & ? & ? & He' & _). cbn in Hlt.
      apply (key_lt_cmp sp' sp _ _ Hv' Hv ltac:(congruence) He' He) in Hlt. congruence.
  - apply last_None in El as ->. intros sp sm Hat Hs. assert ((sp, sm) ∈ []) as Hin; [|by apply elem_of_nil in Hin].
    apply Hel. cbn. by rewrite bool_decide_true.
Qed.

Lemma find_last_ok sc p (t : @Transaction S) :
  tx_ok t -> scope_valid sc -> encode_steps (segs "sync_point") (scope_vals sc) = Ok p ->
  exists o, find_last_syncpoint_untracked sc None t = (Ok o, t) /\ last_sync (tx_store t) sc o.
Proof.
  intros Ht Hsc Hp.
  destruct (sync_rows_decode (tx_store t) (BySubject (SubjScope sc)) p _ (to_store _ Ht) Hsc Hp eq_refl)
    as (l & _ & Hl & H2).
  exists (fst <$> last l). split; [|by apply sync_list_last].
  unfold find_last_syncpoint_untracked, sync_point_prefix. rewrite app_nil_r. unfold mbind at 1, TX_bind at 1, txres, lift.
  rewrite Hp. cbn [map_err]. unfold find_last_key_untracked_raw, reads_. unfold mbind, TX_bind.
  destruct (last (kv_prefix (tx_store t) p)) as [[k v]|] eqn:Er; cbn [fmap option_fmap option_map].
  - pose proof Er as Er'. rewrite last_lookup in Er'. destruct (Forall2_lookup_l _ _ _ _ _ H2 Er') as ([sp sm] & Hx & He).
    assert (last l = Some (sp, sm)) as El by (by rewrite last_lookup, <-(Forall2_length _ _ _ H2)).
    rewrite El. cbn [fst fmap option_fmap option_map] in *.
    destruct Hl as [_ Hel]. apply last_elem, Hel in El as [Hs%bool_decide_eq_true (Hv & _)].
    rewrite (sync_point_decode sp k Hv He). cbn [map_err].
    unfold mret, TX_ret. do 3 f_equal. rewrite <-Hs. by destruct sp.
  - apply last_None in Er. rewrite Er in H2. apply Forall2_nil_inv_l in H2 as ->. done.
Qed.

End Sync.

(** ** Examples *)

Import Sample.

Definition sample_sync : list tx_op :=
  [OpKeyPut (Sample.key "a") [x2a]; OpCommit Committed;
   OpChangeset (mkSyncPoint Sample.scope 9 12 Sample.me) (mkSyncMeta None (Some 9) Marker.Deletion None) [];
   OpChangeset (mkSyncPoint Sample.scope 5 5 Sample.me) (mkSyncMeta None None Marker.Mutation None) []].
Definition sample_sync_tx : Transaction := run_ops sample_sha sample_sync (Sample.tx Sample.empty_store 9).

Lemma sample_sync_ok : tx_ok sample_sync_tx.
Proof.
  apply run_ops_ok; [apply sample_sha_length| |apply empty_ok; unfold is_u64; lia].
  repeat (apply Forall_cons; split); try apply Forall_nil; try exact I; repeat split; try constructor; vm_compute; congruence.
Qed.

Definition sample_sync_range : bytes * bytes :=
  Eval vm_compute in match range_from_subject (SubjScope Sample.scope) with Ok r => r | Err _ => ([], []) end.

Lemma collect_latest_heads_latest_witness :
  exists heads, latest_heads (tx_store sample_sync_tx) (BySubject (SubjScope Sample.scope)) heads
  /\ collect_latest_heads (tx_store sample_sync_tx) sample_sync_range.1 sample_sync_range.2
       (fun l (h : head_entry) => Ok (l ++ [h.1.2])) []
     = foldM (fun l (h : head_entry) => Ok (l ++ [h.1.2])) heads []
  /\ foldM (fun l (h : head_entry) => Ok (E := tx_error) (l ++ [h.1.2])) heads []
     = Ok [(12, 9, Sample.me); (5, 5, Sample.me)].
Proof.
  destruct (collect_latest_heads_latest (tx_store sample_sync_tx) (SubjScope Sample.scope)
    sample_sync_range.1 sample_sync_range.2) as (heads & Hl & H).
  - apply sample_sync_ok.
  - vm_compute. auto.
  - vm_compute. reflexivity.
  - exists heads. split; [exact Hl|]. split; [apply H|]. rewrite <-H. vm_compute. reflexivity.
Defined.

(** * Commits, changesets and their order

    What [commit] adds to the store, what applying a changeset does to it,
    that applying one twice is applying it once, and that the order in which
    changesets of different versions arrive does not matter. *)

Section Commit.
Context {S : Type} {kvS : Kv S} {kvLaws : KvLaws S}
  {pcMeta : Postcard SyncMeta} {pcMetaLaws : PostcardLaws SyncMeta}
  {pcBody : Postcard MeasurementBody}.
Implicit Types s : S.

(** Meta data within its types is always serialised. *)
Definition id_valid_sp (i : SyncPointId) : Prop :=
  is_u64 (sid_epoch i) /\ is_u64 (sid_version i) /\ length (sid_node i) = 16%nat.
Definition meta_valid (m : SyncMeta) : Prop :=
  (forall i, sm_parent m = Some i -> id_valid_sp i)
  /\ (forall e, sm_parent_epoch m = Some e -> is_u64 e) /\ (forall r, sm_retention m = Some r -> is_u64 r).
Definition serialises : Prop := forall sm, meta_valid sm -> is_Some (@to_allocvec SyncMeta _ sm).
(** What is read back is within its types. *)
Definition typed : Prop := forall b sm, @from_bytes SyncMeta _ b = Some sm -> meta_valid sm.

(** ** Commit *)

Definition commit_point (t : @Transaction S) (sc : Scope) : SyncPoint := mkSyncPoint sc (tx_ts t) (tx_ts t) (tx_node t).

Lemma insert_ok (sp : SyncPoint) (sm : SyncMeta) k v (t : @Transaction S) :
  encode sp = Ok k -> to_allocvec sm = Some v ->
  Tx.insert sp sm t = (Ok tt, set_store t (kv_insert (tx_store t) k v)).
Proof.
  intros He Hv. unfold Tx.insert. rewrite (tx_bind_ok _ _ _ _ _ (key_bytes_ok sp k t He)).
  unfold mbind, TX_bind, txres, ok_or. by rewrite Hv.
Qed.

(** The sync point a commit writes for one scope. *)
Definition commit_meta (t : @Transaction S) (parent : option SyncPoint) : SyncMeta :=
  mkSyncMeta (as_id <$> parent) None Marker.Mutation (tx_retention t).

Lemma commit_scope_ok sc k (t : @Transaction S) :
  serialises -> tx_ok t -> scope_valid sc -> encode (commit_point t sc) = Ok k ->
  (forall r, tx_retention t = Some r -> is_u64 r) ->
  exists o v, last_sync (tx_store t) sc o /\ to_allocvec (commit_meta t o) = Some v
    /\ commit_scope sc t = (Ok tt, set_store t (kv_insert (tx_store t) k v)).
Proof.
  intros Hser Ht Hsc He Hret.
  assert (exists p, encode_steps (segs "sync_point") (scope_vals sc) = Ok p) as (p & Hp).
  { change (encode (commit_point t sc))
      with (encode_steps (segs "sync_point") (sh_vals sync_point_shape (commit_point t sc))) in He.
    rewrite encode_steps_kcode in He. apply (kencode_take _ _ 3) in He as (x & y & Hx & _).
    exists x. by rewrite encode_steps_kcode. }
  destruct (find_last_ok sc p t Ht Hsc Hp) as (o & Hf & Hlast).
  assert (meta_valid (commit_meta t o)) as Hm.
  { split; [|split; [done|exact Hret]]. intros i. cbn. destruct o as [sp|]; [|done]. intros [= <-].
    destruct Hlast as [(sm & (_ & ? & ? & ?) & _) _]. done. }
  destruct (Hser _ Hm) as (v & Hv). exists o, v. split; [done|]. split; [done|].
  unfold commit_scope. rewrite (tx_bind_ok split_ts _ t (tx_ts t, tx_node t) t eq_refl), (tx_bind_ok _ _ _ _ _ Hf).
  exact (insert_ok (commit_point t sc) (commit_meta t o) k v t He Hv).
Qed.

Lemma sync_at_insert s sp k v sp' sm' :
  sync_point_valid sp -> encode sp = Ok k -> sp <> sp' ->
  sync_at (kv_insert s k v) sp' sm' <-> sync_at s sp' sm'.
Proof.
  intros Hsp He Hne. assert (forall k', sync_point_valid sp' -> encode sp' = Ok k' ->
    kv_get (kv_insert s k v) k' = kv_get s k') as Hk.
  { intros k' Hsp' He'. apply kv_get_insert_ne. intros <-. apply Hne. by eapply sync_point_encode_inj. }
  split; intros (Hsp' & k' & v' & He' & Hg & Hv); (split; [done|]); exists k', v'; rewrite Hk in * by done; done.
Qed.

Lemma last_sync_other s sp k v sc o :
  sync_point_valid sp -> encode sp = Ok k -> sp_scope sp <> sc ->
  last_sync (kv_insert s k v) sc o -> last_sync s sc o.
Proof.
  intros Hsp He Hne.
  assert (forall sp' sm', sp_scope sp' = sc -> sync_at (kv_insert s k v) sp' sm' <-> sync_at s sp' sm') as Hi.
  { intros sp' sm' Hs. apply (sync_at_insert s sp); [done|done|]. intros ->. done. }
  destruct o as [sp'|]; cbn.
  - intros ((sm' & Hat) & Hs & Hm). split; [exists sm'; by apply Hi|]. split; [done|].
    intros sp'' sm'' Hat' Hs'. apply (Hm sp'' sm''); [by apply Hi|done].
  - intros H sp' sm' Hat Hs. by apply (H sp' sm'); [apply Hi|].
Qed.

(** The state after the scopes were gone through. *)
Record committed (t t' : @Transaction S) (scopes : list Scope) : Prop := mkCommitted {
  cm_ts : tx_ts t' = tx_ts t;
  cm_node : tx_node t' = tx_node t;
  cm_active : active_scopes t' = active_scopes t;
  cm_retention : tx_retention t' = tx_retention t;
  cm_points : forall sc, sc ∈ scopes ->
    exists o, last_sync (tx_store t) sc o /\ sync_at (tx_store t') (commit_point t sc) (commit_meta t o);
  cm_rest : forall x, (forall sc, sc ∈ scopes -> encode (commit_point t sc) <> Ok x) ->
    kv_get (tx_store t') x = kv_get (tx_store t) x;
}.

Lemma commit_point_valid (t : @Transaction S) sc : tx_ok t -> scope_valid sc -> sync_point_valid (commit_point t sc).
Proof. intros [_ Hts Hn _] Hsc. repeat split; first [apply Hsc | apply Hts | exact Hn]. Qed.

Lemma commit_scopes scopes (t : @Transaction S) :
  serialises -> tx_ok t -> NoDup scopes -> (forall r, tx_retention t = Some r -> is_u64 r) ->
  Forall (fun sc => scope_valid sc /\ is_ok (encode (commit_point t sc)) = true) scopes ->
  exists t', for_each commit_scope scopes t = (Ok tt, t') /\ committed t t' scopes.
Proof.
  intros Hser. revert t; induction scopes as [|sc scopes IH]; intros t Ht Hnd Hret Hall.
  { exists t. split; [done|]. split; try done. by intros sc ?%elem_of_nil. }
  apply Forall_cons in Hall as [[Hsc He] Hall]. apply NoDup_cons in Hnd as [Hni Hnd].
  destruct (encode (commit_point t sc)) as [k|] eqn:Ek; [|done].
  destruct (commit_scope_ok sc k t Hser Ht Hsc Ek Hret) as (o & v & Hlast & Hv & Hrun).
  pose proof (commit_point_valid t sc Ht Hsc) as Hpt.
  set (t1 := set_store t (kv_insert (tx_store t) k v)) in *.
  assert (tx_ok t1) as Ht1.
  { destruct Ht as [Hs ? ? ?]. split; try done. cbn. by eapply store_ok_insert_sync. }
  destruct (IH t1 Ht1 Hnd Hret Hall) as (t' & Hrest & Hcm). exists t'. split.
  { cbn [for_each]. by rewrite (tx_bind_ok _ _ _ _ _ Hrun). }
  assert (kv_get (tx_store t') k = Some v) as Hk.
  { rewrite (cm_rest _ _ _ Hcm); [cbn; apply kv_get_insert_eq|]. intros sc' Hin Ek'.
    rewrite Forall_forall in Hall. destruct (Hall sc' Hin) as [Hsc' _].
    pose proof (sync_point_encode_inj _ _ k (commit_point_valid t1 sc' Ht1 Hsc') Hpt Ek' Ek) as [= ->]. done. }
  split; try apply Hcm.
  - intros sc' [->|Hin]%elem_of_cons.
    + exists o. split; [done|]. split; [done|]. exists k, v. split; [done|]. split; [done|]. by apply from_to.
    + destruct (cm_points _ _ _ Hcm sc' Hin) as (o' & Hl' & Hat). exists o'. split; [|done].
      apply (last_sync_other _ (commit_point t sc) k v); [done|done| |done]. cbn. congruence.
  - intros x Hx. rewrite (cm_rest _ _ _ Hcm); [|intros; apply Hx; by right]. cbn. apply kv_get_insert_ne.
    intros <-. apply (Hx sc); [left|done].
Qed.

(** A commit writes, for every scope the transaction wrote to, one sync point at
    the transaction's timestamp, whose parent is the newest sync point the
    scope had before; every other row is as it was; the scopes are marked
    done; and the result is the engine's: success, a conflict, or the store
    being unavailable. *)
Theorem commit_writes_sync_points (o : commit_outcome) (t : @Transaction S) (Hser : serialises) (Ht : tx_ok t)
    (Hnd : NoDup (active_scopes t)) (Hret : forall r, tx_retention t = Some r -> is_u64 r)
    (Henc : Forall (fun sc => is_ok (encode (commit_point t sc)) = true) (active_scopes t)) :
  exists t', commit o t
      = (match o with
         | Committed => Ok tt | Conflicted => Err ErrConflict
         | Poisoned => Err ErrUnavailable | Failed => Err ErrStore end, t')
    /\ active_scopes t' = []
    /\ (forall sc, sc ∈ active_scopes t ->
         exists parent, last_sync (tx_store t) sc parent
           /\ sync_at (tx_store t') (commit_point t sc) (commit_meta t parent))
    /\ (forall x, (forall sc, sc ∈ active_scopes t -> encode (commit_point t sc) <> Ok x) ->
         kv_get (tx_store t') x = kv_get (tx_store t) x).
Proof.
  pose proof Ht as [Hs Hts Hn Hsc].
  set (t0 := mkTx (tx_store t) (tx_ts t) (tx_node t) [] (tx_retention t)).
  destruct (commit_scopes (active_scopes t) t0) as (t' & Hrun & Hcm); try done.
  { apply Forall_and. done. }
  exists t'. split; [unfold commit; fold t0; by rewrite Hrun|]. split; [apply Hcm|].
  split; [apply Hcm|]. apply Hcm.
Qed.

End Commit.

(** ** Examples *)

Import Sample.

Lemma sample_serialises : @serialises Sample.postcard_meta.
Proof. intros sm Hm. by apply Sample.meta_total. Qed.

Lemma sample_typed : @typed Sample.postcard_meta.
Proof. exact Sample.meta_typed. Qed.

Definition sample_write_tx : Transaction := (key_put (Sample.key "b") [x01] (set_store (Sample.tx Sample.empty_store 20) (tx_store sample_sync_tx))).2.

Lemma sample_write_ok : tx_ok sample_write_tx.
Proof.
  apply (triple_key_put (Sample.key "b") [x01]).
  - vm_compute. auto.
  - split; [exact (to_store _ sample_sync_ok)|unfold is_u64; change (0 <= 20 < 2 ^ 64); lia|reflexivity|constructor].
Qed.

Lemma commit_writes_sync_points_witness :
  exists t', commit Committed sample_write_tx = (Ok tt, t') /\ active_scopes t' = []
    /\ (forall sc, sc ∈ active_scopes sample_write_tx ->
         exists parent, last_sync (tx_store sample_write_tx) sc parent
           /\ sync_at (tx_store t') (commit_point sample_write_tx sc) (commit_meta sample_write_tx parent)).
Proof.
  destruct (commit_writes_sync_points Committed sample_write_tx sample_serialises sample_write_ok)
    as (t' & H1 & H2 & H3 & _).
  - change (NoDup [Sample.scope]). apply NoDup_singleton.
  - intros r. change (@None Z = Some r -> is_u64 r). discriminate.
  - change (Forall (fun sc => is_ok (encode (commit_point sample_write_tx sc)) = true) [Sample.scope]).
    apply Forall_singleton. vm_compute. reflexivity.
  - exists t'. split; [exact H1|]. split; [exact H2|exact H3].
Defined.
