(* ===== verification/TxOrder.v ===== *)
(** * The order of changesets

    Applying a changeset touches the rows of its version only, and what it
    does to them depends on them only.  So changesets of different versions
    commute: replicas that apply the same ones end with the same rows,
    whatever the order they arrived in. *)

From S2P Require Import Prelude Bytes Skey SkeyRoundtrip SkeyOrder Keys KeyScan Domain Kv Rows RowsFacts Changeset Scans Tx Sample TxKeys TxInv TxReads TxScans TxSync.
From Stdlib Require Import ZArith Lia Strings.Byte Sorting.Sorted Permutation.
From stdpp Require Import base list option strings sets.

Local Open Scope Z_scope.

(** ** The version a row belongs to *)

Definition version_of (x : bytes) : option Version :=
  if in_region data_tag x then match decode x with Ok (_, t, _) => Some t | Err _ => None end
  else if in_region VERSION_INDEX_TAG x then Some (of_be (take 8 (drop 1 x)))
  else if in_region sync_tag x then
    match @decode_from_bytes SyncPoint _ x with Ok sp => Some (sp_ts sp) | Err _ => None end
  else None.

Lemma version_of_row k t kd : in_region data_tag k = true -> is_u64 t -> version_of (encode_row k t kd) = Some t.
Proof. intros Hk Ht. unfold version_of. rewrite row_region by done. by rewrite decode_encode_row. Qed.

Lemma version_of_index t d : is_u64 t -> version_of (version_index_key t d) = Some t.
Proof.
  intros Ht. unfold version_of. change (in_region data_tag (version_index_key t d)) with false.
  rewrite index_region. unfold version_index_key.
  change (drop 1 (VERSION_INDEX_TAG :: be 8 t ++ d)) with (be 8 t ++ d). rewrite take_app_length' by (by rewrite be_length).
  f_equal. apply of_be_be_small. cbn. unfold is_u64 in Ht. lia.
Qed.

Lemma version_of_sync (sp : SyncPoint) k : sync_point_valid sp -> encode sp = Ok k -> version_of k = Some (sp_ts sp).
Proof.
  intros Hsp He. unfold version_of. destruct (sync_point_foreign sp k He) as [H1 H2]. rewrite H1, H2.
  assert (in_region sync_tag k = true) as ->.
  { destruct (sync_point_starts (sh_vals sync_point_shape sp) k He) as (r & ->). done. }
  by rewrite (sync_point_decode sp k Hsp He).
Qed.

Section Order.
Context {S : Type} {kvS : Kv S} {kvLaws : KvLaws S}
  {pcMeta : Postcard SyncMeta} {pcMetaLaws : PostcardLaws SyncMeta}
  {pcBody : Postcard MeasurementBody}.
Implicit Types s : S.

(** ** Changes local to a version *)

Definition agree (v : Version) s1 s2 : Prop := forall x, version_of x = Some v -> kv_get s1 x = kv_get s2 x.

Record local (v : Version) (f : S -> S) : Prop := mkLocal {
  lc_ok : forall s, store_ok s -> store_ok (f s);
  lc_frame : forall s x, store_ok s -> version_of x <> Some v -> kv_get (f s) x = kv_get s x;
  lc_local : forall s1 s2, store_ok s1 -> store_ok s2 -> agree v s1 s2 -> agree v (f s1) (f s2);
}.

Lemma local_proper v f s1 s2 : local v f -> store_ok s1 -> store_ok s2 -> kv_eq s1 s2 -> kv_eq (f s1) (f s2).
Proof.
  intros Hf H1 H2 E x. destruct (decide (version_of x = Some v)) as [Hv|Hv].
  - apply (lc_local _ _ Hf); try done. intros y _. apply E.
  - rewrite !(lc_frame _ _ Hf) by done. apply E.
Qed.

Lemma local_commute v w f g s :
  local v f -> local w g -> v <> w -> store_ok s -> kv_eq (f (g s)) (g (f s)).
Proof.
  intros Hf Hg Hne Hs x. pose proof (lc_ok _ _ Hf s Hs) as Hfs. pose proof (lc_ok _ _ Hg s Hs) as Hgs.
  destruct (decide (version_of x = Some v)) as [Hv|Hv].
  - rewrite (lc_frame _ _ Hg (f s)) by (done || congruence). apply (lc_local _ _ Hf); try done.
    intros y Hy. apply (lc_frame _ _ Hg); [done|congruence].
  - rewrite (lc_frame _ _ Hf) by done. destruct (decide (version_of x = Some w)) as [Hw|Hw].
    + apply (lc_local _ _ Hg); try done. intros y Hy. symmetry. apply (lc_frame _ _ Hf); [done|congruence].
    + rewrite !(lc_frame _ _ Hg) by done. symmetry. by apply (lc_frame _ _ Hf).
Qed.

(** Any order of changes of different versions. *)
Definition run_all (fs : list (Version * (S -> S))) s : S := fold_left (fun s f => f.2 s) fs s.

Lemma run_all_ok fs s : Forall (fun f => local f.1 f.2) fs -> store_ok s -> store_ok (run_all fs s).
Proof.
  intros Hfs. revert s; induction Hfs as [|f fs Hf _ IH]; intros s Hs; [done|]. cbn. apply IH. by apply (lc_ok _ _ Hf).
Qed.

Lemma run_all_proper fs s1 s2 :
  Forall (fun f => local f.1 f.2) fs -> store_ok s1 -> store_ok s2 -> kv_eq s1 s2 ->
  kv_eq (run_all fs s1) (run_all fs s2).
Proof.
  intros Hfs. revert s1 s2; induction Hfs as [|f fs Hf _ IH]; intros s1 s2 H1 H2 E; [done|]. cbn.
  apply IH; [by apply (lc_ok _ _ Hf)..|]. by eapply local_proper.
Qed.

Lemma run_all_permutation fs gs s :
  Permutation fs gs -> NoDup (map fst fs) -> Forall (fun f => local f.1 f.2) fs -> store_ok s ->
  kv_eq (run_all fs s) (run_all gs s).
Proof.
  intros Hp. revert s; induction Hp as [|f fs gs Hp IH|f g fs|fs gs hs Hp1 IH1 Hp2 IH2]; intros s Hnd Hall Hs.
  - done.
  - cbn in *. apply NoDup_cons in Hnd as [_ Hnd]. apply Forall_cons in Hall as [Hf Hall].
    apply IH; try done. by apply (lc_ok _ _ Hf).
  - cbn in *. apply Forall_cons in Hall as [Hg Hall]. apply Forall_cons in Hall as [Hf Hall].
    apply NoDup_cons in Hnd as [Hni _]. apply run_all_proper; [done|..].
    + by apply (lc_ok _ _ Hf), (lc_ok _ _ Hg).
    + by apply (lc_ok _ _ Hg), (lc_ok _ _ Hf).
    + eapply local_commute; try done. intros E. apply Hni. rewrite E. left.
  - etransitivity; [by apply IH1|]. apply IH2; [by rewrite <-Hp1|by rewrite <-Hp1|done].
Qed.

(** ** Changesets are local *)

(** Rows written or removed one by one, all of the version. *)
Lemma insert_agree v k w s1 s2 : agree v s1 s2 -> agree v (kv_insert s1 k w) (kv_insert s2 k w).
Proof. intros H x Hx. rewrite !kv_get_insert. by rewrite (H x Hx). Qed.
Lemma insert_frame v k w s x :
  version_of k = Some v -> version_of x <> Some v -> kv_get (kv_insert s k w) x = kv_get s x.
Proof. intros Hk Hx. apply kv_get_insert_ne. congruence. Qed.
Lemma remove_agree v k s1 s2 : agree v s1 s2 -> agree v (kv_remove s1 k) (kv_remove s2 k).
Proof. intros H x Hx. rewrite !kv_get_remove. by rewrite (H x Hx). Qed.
Lemma remove_frame v k s x :
  version_of k = Some v -> version_of x <> Some v -> kv_get (kv_remove s k) x = kv_get s x.
Proof. intros Hk Hx. apply kv_get_remove_ne. congruence. Qed.

Lemma write_entries_agree v es s1 s2 :
  agree v s1 s2 -> agree v (write_entries s1 v es) (write_entries s2 v es).
Proof.
  unfold write_entries. revert s1 s2; induction es as [|[k o] es IH]; intros s1 s2 H; [done|]. cbn. apply IH.
  unfold write_entry. destruct o; cbn; unfold insert_at_raw, erase_at_raw; by do 2 apply insert_agree.
Qed.

Lemma write_entries_frame v es s x :
  is_u64 v -> entries_ok es -> version_of x <> Some v -> kv_get (write_entries s v es) x = kv_get s x.
Proof.
  intros Hv Hes Hx. unfold write_entries. revert s; induction Hes as [|[k o] es [sc Hk%stored_region] _ IH]; intros s; [done|].
  cbn [fold_left]. rewrite IH. unfold write_entry. cbn [fst snd] in *.
  destruct o; unfold insert_at_raw, erase_at_raw; rewrite !(insert_frame v); try done;
    first [by apply version_of_index | by apply version_of_row].
Qed.

(** The index rows of a version depend on the rows of the version. *)
Lemma index_prefix_agree v raw s1 s2 :
  is_u64 v -> agree v s1 s2 -> kv_prefix s1 (version_index_prefix v raw) = kv_prefix s2 (version_index_prefix v raw).
Proof.
  intros Hv H. apply sorted_ext; try apply kv_prefix_sorted. intros [k w]. rewrite !kv_prefix_elem.
  destruct (starts_with (version_index_prefix v raw) k) eqn:E; [|naive_solver].
  rewrite (H k); [done|]. apply starts_with_spec in E as (r & ->). unfold version_index_prefix, version_index_key.
  cbn [app]. rewrite <-app_assoc. by apply version_of_index.
Qed.

Lemma delete_index_keys_agree v l s1 s2 :
  agree v s1 s2 -> agree v (delete_index_keys s1 l).2 (delete_index_keys s2 l).2.
Proof.
  revert s1 s2; induction l as [|i l IH]; intros s1 s2 H; [done|]. cbn.
  destruct (version_index_data_key i); [|done]. apply IH. by do 2 apply remove_agree.
Qed.

Lemma delete_rows_agree v raw s1 s2 :
  is_u64 v -> agree v s1 s2 -> agree v (delete_version_rows s1 raw v).2 (delete_version_rows s2 raw v).2.
Proof.
  intros Hv H. unfold delete_version_rows. rewrite (index_prefix_agree v raw s1 s2 Hv H).
  set (l := map fst _). pose proof (delete_index_keys_agree v l s1 s2 H) as Ha.
  by destruct (delete_index_keys s1 l) as [[] ?], (delete_index_keys s2 l) as [[] ?].
Qed.

Lemma delete_rows_frame v raw s x :
  index_ok s -> is_u64 v -> version_of x <> Some v -> kv_get (delete_version_rows s raw v).2 x = kv_get s x.
Proof.
  intros Hi Hv Hx. pose proof (fun i => index_keys_of s v raw i Hi Hv) as Hk. unfold delete_version_rows.
  set (l := map fst _) in *.
  destruct (delete_index_keys_spec s l) as (s' & -> & Hg).
  { apply Forall_forall. intros i (k & kd & _ & -> & _)%Hk. by rewrite version_index_data, index_key_drop. }
  cbn [snd]. rewrite Hg. rewrite decide_False; [done|]. intros [Hin|Hin].
  - apply Hk in Hin as (k & kd & _ & -> & _). by rewrite version_of_index in Hx.
  - apply list_elem_of_fmap in Hin as (i & -> & (k & kd & Hr & -> & _)%Hk).
    rewrite index_key_drop, version_of_row in Hx; done.
Qed.

(** ** Applying a changeset *)

Definition held s (k : bytes) : bool := match kv_get s k with Some _ => true | None => false end.

Lemma sync_present s (sp : SyncPoint) k :
  store_ok s -> sync_point_valid sp -> encode sp = Ok k ->
  match kv_prefix s k with [] => false | _ => true end = held s k.
Proof.
  intros Hs Hsp He. unfold held. destruct (kv_get s k) as [v|] eqn:Eg.
  - assert ((k, v) ∈ kv_prefix s k) as Hin.
    { apply kv_prefix_elem. split; [done|]. rewrite <-(app_nil_r k) at 2. apply starts_with_app. }
    destruct (kv_prefix s k); [by apply elem_of_nil in Hin|done].
  - destruct (kv_prefix s k) as [|[x w] rows] eqn:Ep; [done|]. exfalso.
    assert ((x, w) ∈ kv_prefix s k) as [Hx Hst]%kv_prefix_elem by (rewrite Ep; left).
    destruct (so_sync _ Hs x w Hx) as (sp' & sm' & Hsp' & He' & _).
    { destruct (sync_point_starts (sh_vals sync_point_shape sp) k He) as (r & ->).
      apply starts_with_spec in Hst as (r' & ->). done. }
    assert (sh_vals sync_point_shape sp = sh_vals sync_point_shape sp') as E.
    { by apply (kind_prefix_eq (segs "sync_point") _ _ k x); try apply (sho_typed _ _ sync_point_shape_ok). }
    change (encode sp) with (encode_steps (segs "sync_point") (sh_vals sync_point_shape sp)) in He.
    rewrite E in He. change (encode sp' = Ok k) in He. congruence.
Qed.

(** The store after [insert_changeset], the keys and values it works with being encoded. *)
Definition cs_store (ts : Version) (marker : Marker.SyncMarker) (es : list (bytes * option bytes))
    (k v raw : bytes) s : S :=
  if held s k then s else
  let s := kv_insert s k v in
  match marker with
  | Marker.Deletion => (delete_version_rows s raw ts).2
  | Marker.Mutation => write_entries s ts es
  end.

Lemma set_store_same (t : @Transaction S) : set_store t (tx_store t) = t.
Proof. by destruct t. Qed.

Lemma insert_changeset_ok sp sm es k v raw (t : @Transaction S) :
  tx_ok t -> sync_point_valid sp -> encode sp = Ok k -> encode (sp_scope sp) = Ok raw -> to_allocvec sm = Some v ->
  insert_changeset sp sm es t
  = (Ok (negb (held (tx_store t) k)), set_store t (cs_store (sp_ts sp) (sm_marker sm) es k v raw (tx_store t))).
Proof.
  intros Ht Hsp He Hraw Hv. pose proof (to_store _ Ht) as Hs. unfold insert_changeset, cs_store.
  assert (contains_key_untracked sp t = (Ok (held (tx_store t) k), t)) as Hc.
  { unfold contains_key_untracked. rewrite (tx_bind_ok _ _ _ _ _ (key_bytes_ok sp k t He)).
    unfold contains_key_raw_untracked, reads_. by rewrite (sync_present _ sp k Hs Hsp He). }
  rewrite (tx_bind_ok _ _ _ _ _ Hc). destruct (held (tx_store t) k); [by rewrite set_store_same|]. cbn [negb].
  rewrite (tx_bind_ok _ _ _ _ _ (insert_ok sp sm k v t He Hv)).
  destruct (sm_marker sm).
  - done.
  - unfold delete_scope_at_version, delete_version.
    set (t1 := set_store t _).
    assert (index_ok (tx_store t1)) as Hi1.
    { apply index_ok_insert_foreign; [apply Hs|]. by eapply sync_point_foreign. }
    destruct (delete_version_rows_spec (tx_store t1) raw (sp_ts sp) Hi1) as (n & s' & Hd & _); [apply Hsp|].
    assert ((raw ← key_bytes (sp_scope sp);
      act (fun t => let (r, s') := delete_version_rows (tx_store t) raw (sp_ts sp) in (r, set_store t s'))) t1
      = (Ok n, set_store t1 s')) as Hdel.
    { rewrite (tx_bind_ok _ _ _ _ _ (key_bytes_ok (sp_scope sp) raw t1 Hraw)). unfold act. by rewrite Hd. }
    unfold mbind, TX_bind in Hdel |- *. rewrite Hdel. cbn [snd]. cbn [tx_store set_store t1] in Hd. by rewrite Hd.
Qed.

Lemma cs_store_local sp sm es k v raw :
  sync_point_valid sp -> encode sp = Ok k -> to_allocvec sm = Some v -> entries_ok es ->
  local (sp_ts sp) (cs_store (sp_ts sp) (sm_marker sm) es k v raw).
Proof.
  intros Hsp He Hv Hes. assert (is_u64 (sp_ts sp)) as Hts by apply Hsp.
  pose proof (version_of_sync sp k Hsp He) as Hk.
  assert (forall s, store_ok s -> store_ok (kv_insert s k v)) as Hins by (intros; by eapply store_ok_insert_sync).
  split.
  - intros s Hs. unfold cs_store. destruct (held s k); [done|]. destruct (sm_marker sm).
    + by apply store_ok_entries; [apply Hins|..].
    + destruct (store_ok_delete (kv_insert s k v) raw (sp_ts sp) (Hins s Hs) Hts) as (n & s' & -> & Hs'). done.
  - intros s x Hs Hx. unfold cs_store. destruct (held s k); [done|]. destruct (sm_marker sm).
    + rewrite write_entries_frame by done. by eapply insert_frame.
    + rewrite delete_rows_frame; [by eapply insert_frame|apply Hins, Hs|done|done].
  - intros s1 s2 Hs1 Hs2 Ha. unfold cs_store, held. rewrite (Ha k Hk).
    destruct (kv_get s2 k); [done|]. destruct (sm_marker sm).
    + by apply write_entries_agree, insert_agree.
    + by apply delete_rows_agree, insert_agree.
Qed.

(** ** Pages of changesets *)

Lemma sync_point_encode_total (sp : SyncPoint) raw :
  encode (sp_scope sp) = Ok raw -> exists k, encode sp = Ok k.
Proof.
  intros Hr. destruct sp as [sc ts e i]. cbn [sp_scope] in Hr.
  assert (exists b, encode_steps (drop 8 (segs "sync_point")) [vu64 ts; vu64 e; VArray i] = Ok b) as (b & Hb).
  { cbn. rewrite array_encode. eauto. }
  pose proof (encode_steps_app_ok (segs "scope") (drop 8 (segs "sync_point")) (scope_vals sc)
    [vu64 ts; vu64 e; VArray i] raw b eq_refl Hr Hb) as H.
  exists (x23 :: raw ++ b). change (segs "scope" ++ drop 8 (segs "sync_point")) with (drop 1 (segs "sync_point")) in H.
  change (encode {| sp_scope := sc; sp_ts := ts; sp_epoch := e; sp_id := i |})
    with (r ← encode_steps (drop 1 (segs "sync_point")) (scope_vals sc ++ [vu64 ts; vu64 e; VArray i]);
          Ok (x23 :: r)).
  by rewrite H.
Qed.

(** The loop of [apply_pull] over the chunks of a page. *)
Definition apply_page (sc : Scope) (chunks : list Chunk) : @TX S unit :=
  for_each (fun c => _ ← insert_changeset (with_sp_id sc (ck_id c)) (ck_meta c) (ck_entries c); mret tt) chunks.

Definition chunk_valid (sc : Scope) (c : Chunk) : Prop :=
  sync_point_valid (with_sp_id sc (ck_id c)) /\ meta_valid (ck_meta c) /\ entries_ok (ck_entries c).
Definition chunk_version (c : Chunk) : Version := sid_version (ck_id c).

Lemma write_entries_foreign s ts es x :
  entries_ok es -> foreign x -> kv_get (write_entries s ts es) x = kv_get s x.
Proof.
  intros Hes Hx. unfold write_entries. revert s; induction Hes as [|[k o] es [sc Hk%stored_region] _ IH]; intros s; [done|].
  cbn [fold_left]. rewrite IH. unfold write_entry. cbn [fst snd] in *.
  destruct o; [by apply foreign_insert_at|by apply foreign_erase].
Qed.

(** What a chunk does to the store. *)
Definition chunk_effect (sc : Scope) (c : Chunk) (s : S) : S :=
  match encode (with_sp_id sc (ck_id c)), encode sc, to_allocvec (ck_meta c) with
  | Ok k, Ok raw, Some v => cs_store (chunk_version c) (sm_marker (ck_meta c)) (ck_entries c) k v raw s
  | _, _, _ => s
  end.

Lemma chunk_run sc raw c (t : @Transaction S) :
  serialises -> encode sc = Ok raw -> chunk_valid sc c -> tx_ok t ->
  local (chunk_version c) (chunk_effect sc c)
  /\ exists k, encode (with_sp_id sc (ck_id c)) = Ok k
     /\ insert_changeset (with_sp_id sc (ck_id c)) (ck_meta c) (ck_entries c) t
        = (Ok (negb (held (tx_store t) k)), set_store t (chunk_effect sc c (tx_store t))).
Proof.
  intros Hser Hr (Hsp & Hm & Hes) Ht. destruct (sync_point_encode_total (with_sp_id sc (ck_id c)) raw Hr) as (k & Hk).
  destruct (Hser _ Hm) as (v & Hv).
  assert (forall s, chunk_effect sc c s = cs_store (chunk_version c) (sm_marker (ck_meta c)) (ck_entries c) k v raw s) as E.
  { intros s. unfold chunk_effect. by rewrite Hk, Hr, Hv. }
  split.
  - destruct (cs_store_local _ _ _ _ _ raw Hsp Hk Hv Hes) as [H1 H2 H3].
    split; [intros s|intros s x|intros s1 s2]; rewrite ?E; [apply H1|apply H2|apply H3].
  - exists k. split; [done|]. rewrite E. by apply insert_changeset_ok.
Qed.

(** Afterwards the sync point is there: no row a changeset writes or deletes is one. *)
Lemma chunk_effect_held sc raw c k s :
  serialises -> encode sc = Ok raw -> chunk_valid sc c -> store_ok s ->
  encode (with_sp_id sc (ck_id c)) = Ok k -> held (chunk_effect sc c s) k = true.
Proof.
  intros Hser Hr (Hsp & Hm & Hes) Hs Hk. destruct (Hser _ Hm) as (v & Hv). unfold chunk_effect, cs_store.
  rewrite Hk, Hr, Hv. destruct (held s k) eqn:Hh; [done|]. pose proof (sync_point_foreign _ _ Hk) as Hf.
  assert (store_ok (kv_insert s k v)) as Hs' by (by eapply store_ok_insert_sync).
  unfold held. destruct (sm_marker (ck_meta c)).
  - rewrite write_entries_foreign by done. by rewrite kv_get_insert_eq.
  - destruct (delete_version_rows_spec (kv_insert s k v) raw (chunk_version c) (so_index _ Hs')) as (n & s' & -> & _ & _ & Hfo).
    + apply Hsp.
    + cbn [snd]. rewrite Hfo by done. by rewrite kv_get_insert_eq.
Qed.

Definition effects (sc : Scope) (chunks : list Chunk) : list (Version * (S -> S)) :=
  map (fun c => (chunk_version c, chunk_effect sc c)) chunks.

Lemma apply_page_run sc raw chunks (t : @Transaction S) :
  serialises -> encode sc = Ok raw -> Forall (chunk_valid sc) chunks -> tx_ok t ->
  Forall (fun f => local f.1 f.2) (effects sc chunks)
  /\ apply_page sc chunks t = (Ok tt, set_store t (run_all (effects sc chunks) (tx_store t))).
Proof.
  intros Hser Hr Hall. revert t; induction Hall as [|c chunks Hc _ IH]; intros t Ht.
  { split; [constructor|]. cbn. by rewrite set_store_same. }
  destruct (chunk_run sc raw c t Hser Hr Hc Ht) as [Hl (k & Hk & Hi)].
  assert (tx_ok (set_store t (chunk_effect sc c (tx_store t)))) as Ht'.
  { destruct Ht as [Hs ? ? ?]. split; try done. cbn. by apply Hl. }
  destruct (IH _ Ht') as [Hls Hrun]. split; [by constructor|].
  unfold apply_page. cbn [for_each]. rewrite (tx_bind_ok _ _ t tt (set_store t (chunk_effect sc c (tx_store t)))).
  - apply Hrun.
  - by rewrite (tx_bind_ok _ _ _ _ _ Hi).
Qed.

(** C2. Replicas converge: applying the same changesets in any order, each of its own
    version, succeeds and leaves the same rows in the store, the data, the
    version index and the sync points alike. *)
Theorem changesets_converge (sc : Scope) (raw : bytes) (page page' : list Chunk) (t : @Transaction S)
    (Hser : serialises) (Hr : encode sc = Ok raw) (Ht : tx_ok t) (Hp : Permutation page page')
    (Hall : Forall (chunk_valid sc) page) (Hnd : NoDup (map chunk_version page)) :
  exists t1 t2, apply_page sc page t = (Ok tt, t1) /\ apply_page sc page' t = (Ok tt, t2)
    /\ kv_eq (tx_store t1) (tx_store t2) /\ tx_ok t1.
Proof.
  destruct (apply_page_run sc raw page t Hser Hr Hall Ht) as [Hl Hrun].
  assert (Forall (chunk_valid sc) page') as Hall' by (by rewrite <-Hp).
  destruct (apply_page_run sc raw page' t Hser Hr Hall' Ht) as [_ Hrun'].
  eexists _, _. split; [exact Hrun|]. split; [exact Hrun'|]. cbn [tx_store set_store]. split.
  - apply run_all_permutation; [by apply Permutation_map| |done|apply Ht]. unfold effects. by rewrite map_map.
  - destruct Ht as [Hs ? ? ?]. split; try done. cbn. by apply run_all_ok.
Qed.

(** Applying a changeset that was applied already changes nothing and says so. *)
Theorem changeset_idempotent (sc : Scope) (raw : bytes) (c : Chunk) (t : @Transaction S)
    (Hser : serialises) (Hr : encode sc = Ok raw) (Ht : tx_ok t) (Hc : chunk_valid sc c) :
  let apply := insert_changeset (with_sp_id sc (ck_id c)) (ck_meta c) (ck_entries c) in
  exists b t1, apply t = (Ok b, t1) /\ apply t1 = (Ok false, t1).
Proof.
  cbv zeta. destruct (chunk_run sc raw c t Hser Hr Hc Ht) as [Hl (k & Hk & Hi)].
  set (t1 := set_store t (chunk_effect sc c (tx_store t))) in *.
  assert (tx_ok t1) as Ht1.
  { destruct Ht as [Hs ? ? ?]. split; try done. cbn. by apply Hl. }
  destruct (chunk_run sc raw c t1 Hser Hr Hc Ht1) as [_ (k' & Hk' & Hi')].
  rewrite Hk in Hk'. apply Ok_inj in Hk' as <-.
  assert (held (tx_store t1) k = true) as Hh by (eapply chunk_effect_held; try done; apply Ht).
  eexists _, t1. split; [exact Hi|]. rewrite Hi', Hh. cbn [negb]. f_equal.
  assert (chunk_effect sc c (tx_store t1) = tx_store t1) as ->; [|apply set_store_same].
  unfold chunk_effect, cs_store. rewrite Hk, Hr. destruct (to_allocvec (ck_meta c)); [|done]. by rewrite Hh.
Qed.

(** ** What a changeset carries *)

Lemma changeset_entries_ok s raw ts es :
  store_ok s -> is_u64 ts -> changeset_at s raw ts = Ok es -> entries_ok es.
Proof.
  intros Hs Hts He. destruct (changeset_at_spec s raw ts (so_index _ Hs) Hts) as (out & E & Hd & Hi & _ & Hr).
  rewrite He in E. apply Ok_inj in E as <-. apply Forall_forall. intros [k [v|]] Hin; cbn.
  - destruct (Hi k v Hin) as [_ Hg]. eapply (so_scoped _ Hs); [by eapply Hr|exact Hts|exact Hg].
  - destruct (proj1 (Hd k) Hin) as [_ [w Hg]]. eapply (so_scoped _ Hs); [by eapply Hr|exact Hts|exact Hg].
Qed.

Lemma verdict_foreign s k v x ts :
  foreign k -> in_region data_tag x = true -> verdict (kv_insert s k v) x ts = verdict s x ts.
Proof.
  intros Hk Hx. unfold verdict. by rewrite !kv_get_insert_ne by (eapply foreign_ne; [exact Hk|by apply row_region|by left]).
Qed.

(** C18. A changeset carries a version over.  What a sender reads out for a sync point,
    a receiver that lacks it can write in; afterwards, for every key of the
    scope, that version says at the receiver what it said at the sender
    (a deletion at either side prevails), and no other version, no other
    scope is touched. *)
Theorem changeset_transfer (sp : SyncPoint) (sm : SyncMeta) (raw k : bytes) (t1 t2 : @Transaction S)
    (Hser : serialises) (Ht1 : tx_ok t1) (Ht2 : tx_ok t2) (Hsp : sync_point_valid sp) (Hm : meta_valid sm)
    (Hr : encode (sp_scope sp) = Ok raw) (Hk : encode sp = Ok k) (Hmut : sm_marker sm = Marker.Mutation)
    (Hnew : held (tx_store t2) k = false) :
  exists es t2', changeset_for sp t1 = (Ok es, t1) /\ insert_changeset sp sm es t2 = (Ok true, t2')
    /\ tx_ok t2' /\ held (tx_store t2') k = true
    /\ forall sc key ts, stored sc key -> is_u64 ts ->
         verdict (tx_store t2') key ts
         = if decide (ts = sp_ts sp /\ sc = sp_scope sp)
           then Changeset.join (verdict (tx_store t2) key (sp_ts sp)) (verdict (tx_store t1) key (sp_ts sp))
           else verdict (tx_store t2) key ts.
Proof.
  assert (is_u64 (sp_ts sp)) as Hts by apply Hsp. pose proof (to_store _ Ht1) as Hs1.
  destruct (changeset_at_spec (tx_store t1) raw (sp_ts sp) (so_index _ Hs1) Hts) as (es & Hes & _).
  pose proof (changeset_entries_ok _ _ _ _ Hs1 Hts Hes) as Hok. destruct (Hser _ Hm) as (v & Hv).
  pose proof (insert_changeset_ok sp sm es k v raw t2 Ht2 Hsp Hk Hr Hv) as Hi. rewrite Hnew in Hi.
  eexists es, _. split; [|split; [exact Hi|]].
  { unfold changeset_for. rewrite (tx_bind_ok _ _ _ _ _ (key_bytes_ok (sp_scope sp) raw t1 Hr)). unfold reads_. by rewrite Hes. }
  pose proof (cs_store_local sp sm es k v raw Hsp Hk Hv Hok) as Hl.
  split; [destruct Ht2 as [Hs2 ? ? ?]; split; try done; cbn; by apply Hl|]. cbn [tx_store set_store].
  unfold cs_store. rewrite Hnew, Hmut. pose proof (sync_point_foreign sp k Hk) as Hf. split.
  { unfold held. by rewrite write_entries_foreign, kv_get_insert_eq. }
  intros sc key ts Hst Hts'. pose proof (stored_region _ _ Hst) as Hreg. destruct Hst as [Hsc _].
  rewrite (transfer_verdict (tx_store t1) _ raw (sp_ts sp) es key ts (so_index _ Hs1) Hts Hts' Hreg
    (scoped_settled _ _ _ _ Hsc (proj1 Hsp) Hr) Hes).
  rewrite !(verdict_foreign _ k) by done. pose proof (scoped_starts _ _ _ _ Hsc (proj1 Hsp) Hr) as Hss.
  apply decide_ext. by rewrite Hss.
Qed.

(** Erasing a version: it says nothing of any key of the scope; every other version,
    every other scope and every row that is not data is as before. *)
Lemma delete_verdict s sc0 raw ts0 :
  store_ok s -> scope_valid sc0 -> encode sc0 = Ok raw -> is_u64 ts0 ->
  exists n s', delete_version_rows s raw ts0 = (Ok n, s') /\ store_ok s'
    /\ (forall x, foreign x -> kv_get s' x = kv_get s x)
    /\ forall sc key ts, stored sc key -> is_u64 ts ->
         verdict s' key ts = if decide (ts = ts0 /\ sc = sc0) then None else verdict s key ts.
Proof.
  intros Hs Hsc0 Hr Hts0. destruct (store_ok_delete s raw ts0 Hs Hts0) as (n' & s'' & Hd & Hok).
  destruct (delete_version_rows_spec s raw ts0 (so_index _ Hs) Hts0) as (n & s' & Hd' & _ & Hrow & Hf).
  rewrite Hd in Hd'. injection Hd' as -> ->. exists n, s'. split; [done|]. split; [done|]. split; [done|].
  intros sc key ts Hst Hts. pose proof (stored_region _ _ Hst) as Hreg. destruct Hst as [Hsc _].
  pose proof (scoped_settled _ _ _ _ Hsc Hsc0 Hr) as Hset. pose proof (scoped_starts _ _ _ _ Hsc Hsc0 Hr) as Hss.
  unfold verdict. rewrite !Hrow by done. unfold encode_row. rewrite !settled_row by done.
  fold (encode_row key ts Deletion). fold (encode_row key ts Insertion).
  destruct (decide (ts = ts0 /\ sc = sc0)) as [[E1 E2]|Hn].
  - by rewrite !decide_True by (by rewrite Hss).
  - by rewrite !decide_False by (by rewrite Hss).
Qed.

(** A deletion marker erases its version: after applying one that is new to the
    store, the version says nothing of any key of the scope, so that reads
    fall through to older versions; every other version and scope is as before. *)
Theorem deletion_erases_version (sp : SyncPoint) (sm : SyncMeta) (es : list (bytes * option bytes)) (raw k : bytes)
    (t : @Transaction S) (Hser : serialises) (Ht : tx_ok t) (Hsp : sync_point_valid sp) (Hm : meta_valid sm)
    (Hr : encode (sp_scope sp) = Ok raw) (Hk : encode sp = Ok k) (Hdel : sm_marker sm = Marker.Deletion)
    (Hnew : held (tx_store t) k = false) :
  exists t', insert_changeset sp sm es t = (Ok true, t')
    /\ forall sc key ts, stored sc key -> is_u64 ts ->
         verdict (tx_store t') key ts
         = if decide (ts = sp_ts sp /\ sc = sp_scope sp) then None else verdict (tx_store t) key ts.
Proof.
  assert (is_u64 (sp_ts sp)) as Hts by apply Hsp. destruct (Hser _ Hm) as (v & Hv).
  pose proof (insert_changeset_ok sp sm es k v raw t Ht Hsp Hk Hr Hv) as Hi. rewrite Hnew in Hi.
  eexists. split; [exact Hi|]. intros sc key ts Hst Hts'. cbn [tx_store set_store]. unfold cs_store. rewrite Hnew, Hdel.
  assert (store_ok (kv_insert (tx_store t) k v)) as Hok by (eapply store_ok_insert_sync; [apply (to_store _ Ht)|done..]).
  destruct (delete_verdict _ _ raw (sp_ts sp) Hok (proj1 Hsp) Hr Hts) as (n & s' & -> & _ & _ & Hver).
  cbn [snd]. rewrite (Hver sc) by done. destruct (decide _); [done|]. apply verdict_foreign; [by apply (sync_point_foreign sp)|by apply (stored_region sc)].
Qed.

End Order.

(** ** Examples *)

Import Sample.

Definition mutation : SyncMeta := mkSyncMeta None None Marker.Mutation None.
Definition deletion : SyncMeta := mkSyncMeta None None Marker.Deletion None.
Definition chunk_at (epoch version : Z) (m : SyncMeta) (v : option bytes) : Chunk :=
  mkChunk (epoch, version, Sample.me) m [(key_a_bytes, v)].

Definition scope_bytes : bytes := Eval vm_compute in match encode Sample.scope with Ok e => e | Err _ => [] end.
Lemma scope_encode : encode Sample.scope = Ok scope_bytes.
Proof. vm_compute. reflexivity. Qed.

Lemma key_a_entry v : entries_ok [(key_a_bytes, v)].
Proof.
  apply Forall_singleton. exists Sample.scope. cbn [fst].
  exact (user_key_stored (Sample.key "a") key_a_bytes (sample_key_valid "a" eq_refl) key_a_encode).
Qed.

Lemma plain_meta_valid p m : meta_valid (mkSyncMeta None p m None) <-> (forall e, p = Some e -> is_u64 e).
Proof. unfold meta_valid. cbn. naive_solver. Qed.

Lemma chunk_at_valid e v m o :
  is_u64 e -> is_u64 v -> m = mutation \/ m = deletion -> chunk_valid Sample.scope (chunk_at e v m o).
Proof.
  intros He Hv Hm. split; [|split; [|apply key_a_entry]].
  - repeat split; try apply He; try apply Hv; vm_compute; reflexivity.
  - destruct Hm as [->| ->]; by apply plain_meta_valid.
Qed.

Lemma changesets_converge_witness :
  let page := [chunk_at 5 5 mutation (Some [x01]); chunk_at 8 6 deletion None] in
  exists t1 t2, apply_page Sample.scope page (Sample.tx Sample.empty_store 9) = (Ok tt, t1)
    /\ apply_page Sample.scope (rev page) (Sample.tx Sample.empty_store 9) = (Ok tt, t2)
    /\ kv_eq (tx_store t1) (tx_store t2) /\ tx_ok t1.
Proof.
  intros page. apply (changesets_converge Sample.scope scope_bytes page (rev page)).
  - exact sample_serialises.
  - exact scope_encode.
  - apply empty_ok. unfold is_u64. lia.
  - apply Permutation_rev.
  - apply Forall_cons. split; [|apply Forall_singleton]; apply chunk_at_valid; unfold is_u64; auto; lia.
  - apply NoDup_cons. split; [|apply NoDup_singleton]. intros H%list_elem_of_singleton. discriminate H.
Defined.

Lemma changeset_idempotent_witness :
  let c := chunk_at 5 5 mutation (Some [x01]) in
  let apply := insert_changeset (with_sp_id Sample.scope (ck_id c)) (ck_meta c) (ck_entries c) in
  exists b t1, apply (Sample.tx Sample.empty_store 9) = (Ok b, t1) /\ apply t1 = (Ok false, t1).
Proof.
  intros c. apply (changeset_idempotent Sample.scope scope_bytes c).
  - exact sample_serialises.
  - exact scope_encode.
  - apply empty_ok. unfold is_u64. lia.
  - apply chunk_at_valid; unfold is_u64; auto; lia.
Defined.

Lemma changeset_transfer_witness :
  let sp := mkSyncPoint Sample.scope 9 9 Sample.me in
  exists es t2, changeset_for sp sample_sync_tx = (Ok es, sample_sync_tx)
    /\ insert_changeset sp mutation es (Sample.tx Sample.empty_store 30) = (Ok true, t2)
    /\ forall sc key ts, stored sc key -> is_u64 ts ->
         verdict (tx_store t2) key ts
         = if decide (ts = 9 /\ sc = Sample.scope)
           then Changeset.join None (verdict (tx_store sample_sync_tx) key 9) else None.
Proof.
  intros sp. destruct (encode sp) as [k|] eqn:Ek; [|vm_compute in Ek; discriminate Ek].
  destruct (changeset_transfer sp mutation scope_bytes k sample_sync_tx (Sample.tx Sample.empty_store 30))
    as (es & t2 & H1 & H2 & _ & _ & H3).
  - exact sample_serialises.
  - exact sample_sync_ok.
  - apply empty_ok. unfold is_u64. lia.
  - repeat split; vm_compute; congruence.
  - by apply plain_meta_valid.
  - exact scope_encode.
  - exact Ek.
  - reflexivity.
  - reflexivity.
  - exists es, t2. split; [exact H1|]. split; [exact H2|exact H3].
Defined.

Lemma deletion_erases_version_witness :
  let sp := mkSyncPoint Sample.scope 9 15 Sample.me in
  exists t', insert_changeset sp deletion [] sample_sync_tx = (Ok true, t')
    /\ forall sc key ts, stored sc key -> is_u64 ts ->
         verdict (tx_store t') key ts
         = if decide (ts = 9 /\ sc = Sample.scope) then None else verdict (tx_store sample_sync_tx) key ts.
Proof.
  intros sp. destruct (encode sp) as [k|] eqn:Ek; [|vm_compute in Ek; discriminate Ek].
  apply (deletion_erases_version sp deletion [] scope_bytes k sample_sync_tx).
  - exact sample_serialises.
  - exact sample_sync_ok.
  - repeat split; vm_compute; congruence.
  - by apply plain_meta_valid.
  - exact scope_encode.
  - exact Ek.
  - reflexivity.
  - vm_compute in Ek. injection Ek as <-. vm_compute. reflexivity.
Defined.

(** Two changesets of one version do not commute.  When a version was first
    written and then, at a later epoch, erased, a replica that applies the two
    in that order does not read the value, and one that applies them in the
    other order does: the later of the two epochs does not prevail. *)
Theorem same_version_order_matters :
  let write := chunk_at 5 5 mutation (Some [x01]) in
  let erase := chunk_at 8 5 deletion None in
  let t := Sample.tx Sample.empty_store 9 in
  (key_get (Sample.key "a") (apply_page Sample.scope [write; erase] t).2).1 = Ok None
  /\ (key_get (Sample.key "a") (apply_page Sample.scope [erase; write] t).2).1 = Ok (Some [x01]).
Proof. vm_compute. split; reflexivity. Qed.
