(* ===== verification/Announce.v ===== *)
(** * Announces and catch-up plans

    The part of replication that works on inventories of versions, from
    [src/swarm/db-commons/src/models/replication.rs] and the end of
    [src/swarm/db/src/replication.rs]: what a node announces of a scope, the
    fingerprint of what it leaves out, and what a node that hears an announce
    decides to ask for. *)

From S2P Require Import Prelude Bytes Skey SkeyRoundtrip SkeyOrder Keys KeyScan Domain.
From Stdlib Require Import ZArith Lia Strings.Byte Sorting.Sorted.
From stdpp Require Import base list option sets.

Local Open Scope Z_scope.

(** ** Maps *)

(** A [BTreeMap] with integer keys: its entries in ascending order. *)
Fixpoint bt_get {A} (m : list (Z * A)) (k : Z) : option A :=
  match m with
  | [] => None
  | (k', a) :: m => if k =? k' then Some a else bt_get m k
  end.

Fixpoint bt_insert {A} (m : list (Z * A)) (k : Z) (a : A) : list (Z * A) :=
  match m with
  | [] => [(k, a)]
  | (k', a') :: m' =>
      if k <? k' then (k, a) :: m
      else if k =? k' then (k, a) :: m'
      else (k', a') :: bt_insert m' k a
  end.

(** [keys().next_back()] *)
Definition bt_last_key {A} (m : list (Z * A)) : option Z := fst <$> last m.

Definition bt_ok {A} (m : list (Z * A)) : Prop := StronglySorted (fun a b => a.1 < b.1) m.

(** A [VecMap] or [DashMap]: its entries, in order of insertion. *)
Section VecMap.
Context {K A : Type} `{EqDecision K}.

Fixpoint vm_get (m : list (K * A)) (k : K) : option A :=
  match m with
  | [] => None
  | (k', a) :: m => if decide (k = k') then Some a else vm_get m k
  end.

Fixpoint vm_insert (m : list (K * A)) (k : K) (a : A) : list (K * A) :=
  match m with
  | [] => [(k, a)]
  | (k', a') :: m => if decide (k = k') then (k, a) :: m else (k', a') :: vm_insert m k a
  end.

Fixpoint vm_remove (m : list (K * A)) (k : K) : list (K * A) :=
  match m with
  | [] => []
  | (k', a') :: m => if decide (k = k') then m else (k', a') :: vm_remove m k
  end.
End VecMap.

(** ** Announces *)

Abbreviation ScopeFrontier := (list (Z * (Z * list byte))) (only parsing).
Abbreviation Fingerprint := Z (only parsing).

Record ScopeAnnounce := mkScopeAnnounce {
  baseline : option Version;
  fingerprint : Fingerprint;
  heads : ScopeFrontier;
}.

Definition announce_full (heads : ScopeFrontier) : ScopeAnnounce := mkScopeAnnounce None 0 heads.

Definition elides (sa : ScopeAnnounce) (ts : Version) (epoch : Epoch) : bool :=
  match baseline sa with Some b => (ts <=? b) && (epoch <=? b) | None => false end.

(** [Option<u64>] with [None] least *)
Definition opt_max (a b : option Z) : option Z :=
  match a, b with
  | Some x, Some y => Some (Z.max x y)
  | Some x, None => Some x
  | None, _ => b
  end.

Definition announce_head (sa : ScopeAnnounce) : option Version :=
  opt_max (bt_last_key (heads sa)) (baseline sa).

Definition wrapping_add (x y : Z) : Z := wrap 64 (x + y).
Definition wrapping_mul (x y : Z) : Z := wrap 64 (x * y).

Definition mix (x : Z) : Z :=
  let x := wrapping_add x 0x9E3779B97F4A7C15 in
  let x := wrapping_mul (Z.lxor x (Z.shiftr x 30)) 0xBF58476D1CE4E5B9 in
  let x := wrapping_mul (Z.lxor x (Z.shiftr x 27)) 0x94D049BB133111EB in
  Z.lxor x (Z.shiftr x 31).

(** [u64::from_le_bytes] *)
Definition of_le (l : bytes) : Z := of_be (rev l).

Definition head_fingerprint (ts : Version) (epoch : Epoch) (node : NodeId) : Fingerprint :=
  let lo := of_le (take 8 node) in
  let hi := of_le (drop 8 node) in
  mix (Z.lxor (mix (Z.lxor (mix (Z.lxor (mix ts) epoch)) lo)) hi).

(** The announce [send_announce] makes of one scope: in full, or with the heads at
    or below the cut folded into the fingerprint. *)
Definition announce_step (sa : ScopeAnnounce) (h : Version * (Epoch * NodeId)) : ScopeAnnounce :=
  let '(ts, (epoch, node_id)) := h in
  if elides sa ts epoch
  then mkScopeAnnounce (baseline sa) (Z.lxor (fingerprint sa) (head_fingerprint ts epoch node_id)) (heads sa)
  else mkScopeAnnounce (baseline sa) (fingerprint sa) (bt_insert (heads sa) ts (epoch, node_id)).

Definition announce_scope (lag_cut : option Version) (frontier : ScopeFrontier) : ScopeAnnounce :=
  match (lag_cut ≫= fun cut => newest ← bt_last_key frontier; Some (Z.min newest cut)) with
  | None => announce_full frontier
  | Some cut => fold_left announce_step frontier (mkScopeAnnounce (Some cut) 0 [])
  end.

(** ** Catch-up plans *)

Definition fold_heads_at_cut (frontier : ScopeFrontier) (cut : Version) : Fingerprint :=
  fold_left (fun acc (h : Version * (Epoch * NodeId)) => Z.lxor acc (head_fingerprint h.1 h.2.1 h.2.2))
    (List.filter (fun h : Version * (Epoch * NodeId) => (h.1 <=? cut) && (h.2.1 <=? cut)) frontier) 0.

Inductive CatchupPlan :=
  | CaughtUp
  | Diverged
  | Behind (since_ts : option Version) (epoch_floors : list (Version * Epoch)).

(** The variables of the loop of [plan_catchup]. *)
Record catchup := mkCatchup {
  cu_behind : bool;
  cu_since : option Version;
  cu_floors : list (Version * Epoch);
  cu_intact : bool;
}.

Definition our_epoch (ours : option ScopeFrontier) (ts : Version) : option Epoch :=
  f ← ours; fst <$> bt_get f ts.
Definition sufficient (ours : option ScopeFrontier) (ts : Version) (epoch : Epoch) : bool :=
  match our_epoch ours ts with Some e => epoch <=? e | None => false end.

Definition catchup_step (ours : option ScopeFrontier) (base : option Version) (c : catchup)
    (h : Version * (Epoch * NodeId)) : catchup :=
  let '(ts, (their_epoch, _)) := h in
  if match base with Some b => ts <=? b | None => false end then
    if sufficient ours ts their_epoch then c
    else mkCatchup true (cu_since c) (bt_insert (cu_floors c) ts (default 0 (our_epoch ours ts))) (cu_intact c)
  else if sufficient ours ts their_epoch then
    if cu_intact c then mkCatchup (cu_behind c) (Some ts) (cu_floors c) (cu_intact c)
    else mkCatchup (cu_behind c) (cu_since c)
           (bt_insert (cu_floors c) ts (default 0 (our_epoch ours ts))) (cu_intact c)
  else mkCatchup true (cu_since c) (cu_floors c) false.

Definition plan_catchup (ours : option ScopeFrontier) (theirs : ScopeAnnounce) : CatchupPlan :=
  if match baseline theirs with
     | Some cut =>
         negb (match ours with Some f => fold_heads_at_cut f cut | None => 0 end =? fingerprint theirs)
     | None => false
     end
  then Diverged
  else
    let c := fold_left (catchup_step ours (baseline theirs)) (heads theirs)
               (mkCatchup false (baseline theirs) [] true) in
    if cu_behind c then Behind (cu_since c) (cu_floors c) else CaughtUp.

(** The rule by which a holder leaves out a sync point of a requested catch-up
    ([serve_pull] and [handle_cs_req] alike). *)
Definition cursor_skips (since_ts : option Version) (epoch_floors : list (Version * Epoch))
    (ts : Version) (epoch : Epoch) : bool :=
  match bt_get epoch_floors ts with
  | Some floor => epoch <=? floor
  | None => match since_ts with Some c => ts <=? c | None => false end
  end.

(** ** Lemmas on maps *)

Lemma bt_get_insert {A} (m : list (Z * A)) k a k' :
  bt_get (bt_insert m k a) k' = if k' =? k then Some a else bt_get m k'.
Proof.
  induction m as [|[k0 a0] m IH]; [done|]. cbn [bt_insert bt_get].
  destruct (Z.ltb_spec k k0); [done|]. destruct (Z.eqb_spec k k0) as [->|].
  - cbn [bt_get]. by destruct (k' =? k0).
  - cbn [bt_get]. rewrite IH. destruct (Z.eqb_spec k' k0) as [->|]; [|done].
    by rewrite (proj2 (Z.eqb_neq k0 k)).
Qed.

Lemma bt_insert_elem {A} (m : list (Z * A)) k a x : x ∈ bt_insert m k a -> x = (k, a) \/ x ∈ m.
Proof.
  induction m as [|[k0 a0] m IH]; cbn [bt_insert]; [set_solver|]. repeat case_match; set_solver.
Qed.

Lemma bt_insert_ok {A} (m : list (Z * A)) k a : bt_ok m -> bt_ok (bt_insert m k a).
Proof.
  unfold bt_ok. induction 1 as [|[k0 a0] m Hm IH Hall]; cbn [bt_insert]; [by repeat constructor|].
  rewrite Forall_forall in Hall. cbn [fst] in Hall.
  destruct (Z.ltb_spec k k0) as [Hlt|Hle].
  - constructor; [constructor; [done|by apply Forall_forall]|]. apply Forall_forall.
    intros x [->|Hx]%elem_of_cons; cbn; [done|]. specialize (Hall x Hx). lia.
  - destruct (Z.eqb_spec k k0) as [->|]; [constructor; [done|by apply Forall_forall]|].
    constructor; [done|]. apply Forall_forall. intros x [->|Hx]%bt_insert_elem; cbn; [lia|by apply Hall].
Qed.

Lemma bt_get_elem {A} (m : list (Z * A)) k a : bt_ok m -> bt_get m k = Some a <-> (k, a) ∈ m.
Proof.
  unfold bt_ok. induction 1 as [|[k0 a0] m Hm IH Hall]; cbn [bt_get]; [set_solver|].
  rewrite Forall_forall in Hall. cbn [fst] in Hall. rewrite elem_of_cons.
  destruct (Z.eqb_spec k k0) as [->|Hne].
  - split; [intros [= ->]; by left|]. intros [[= ->]|Hx]; [done|]. specialize (Hall _ Hx). cbn in Hall. lia.
  - rewrite IH. split; [by right|]. intros [[= -> ->]|?]; done.
Qed.

Lemma bt_get_none {A} (m : list (Z * A)) k : bt_get m k = None <-> forall a, (k, a) ∉ m.
Proof.
  induction m as [|[k0 a0] m IH]; cbn [bt_get]; [split; [intros _ a; apply not_elem_of_nil|done]|].
  destruct (Z.eqb_spec k k0) as [->|Hne].
  - split; [done|]. intros H. exfalso. apply (H a0). by left.
  - rewrite IH. split; intros H a; [intros [[= -> ->]|?]%elem_of_cons; [done|]|]; [by eapply H|].
    intros ?. apply (H a). by right.
Qed.

(** The greatest key is the last. *)
Lemma bt_last_max {A} (m : list (Z * A)) k : bt_ok m -> bt_last_key m = Some k ->
  (exists a, (k, a) ∈ m) /\ forall x, x ∈ m -> x.1 <= k.
Proof.
  unfold bt_ok, bt_last_key. induction 1 as [|[k0 a0] m Hm IH Hall]; [done|]. rewrite Forall_forall in Hall.
  destruct m as [|y m]; cbn [last fmap option_fmap option_map].
  - intros [= <-]. split; [exists a0; by left|]. intros x [->|?%elem_of_nil]%elem_of_cons; cbn; [lia|done].
  - intros H. destruct (IH H) as [[a Ha] Hle]. split; [exists a; by right|].
    intros x [->|Hx]%elem_of_cons; [|by apply Hle]. specialize (Hall _ Ha). cbn in *. lia.
Qed.

Lemma bt_last_none {A} (m : list (Z * A)) : bt_last_key m = None <-> m = [].
Proof.
  unfold bt_last_key. destruct m as [|x m] using rev_ind; [done|]. rewrite last_snoc. cbn. split; [done|].
  by destruct m.
Qed.

Section VecMapFacts.
Context {K A : Type} `{EqDecision K}.
Implicit Types m : list (K * A).

Lemma vm_get_insert m k a k' : vm_get (vm_insert m k a) k' = if decide (k' = k) then Some a else vm_get m k'.
Proof.
  induction m as [|[k0 a0] m IH]; [done|]. cbn [vm_insert].
  destruct (decide (k = k0)) as [<-|Hne]; cbn [vm_get]; [by destruct (decide (k' = k))|].
  rewrite IH. destruct (decide (k' = k0)) as [->|]; [|done]. by rewrite decide_False by congruence.
Qed.

Lemma vm_get_remove_ne m k k' : k' <> k -> vm_get (vm_remove m k) k' = vm_get m k'.
Proof.
  intros Hne. induction m as [|[k0 a0] m IH]; [done|]. cbn [vm_remove vm_get].
  destruct (decide (k = k0)) as [<-|]; [by rewrite decide_False|]. cbn [vm_get]. by rewrite IH.
Qed.

Lemma vm_remove_insert m k a : vm_get m k = None -> vm_remove (vm_insert m k a) k = m.
Proof.
  induction m as [|[k0 a0] m IH]; cbn [vm_insert vm_get]; [intros _; cbn; by rewrite decide_True|].
  destruct (decide (k = k0)) as [|Hne]; [done|]. intros Hm. cbn [vm_remove]. by rewrite decide_False, IH.
Qed.

Lemma vm_get_none m k : vm_get m k = None <-> k ∉ map fst m.
Proof.
  induction m as [|[k0 a0] m IH]; cbn [vm_get map fst]; [split; [by intros _ ?%elem_of_nil|done]|].
  rewrite not_elem_of_cons, <- IH. destruct (decide (k = k0)); naive_solver.
Qed.

Lemma vm_get_elem m k a : NoDup (map fst m) -> vm_get m k = Some a <-> (k, a) ∈ m.
Proof.
  induction m as [|[k0 a0] m IH]; cbn [vm_get map fst]; [by rewrite elem_of_nil|].
  intros [Hn Hnd]%NoDup_cons. rewrite elem_of_cons. destruct (decide (k = k0)) as [->|Hne].
  - split; [intros [= ->]; by left|]. intros [[= ->]|Hin]; [done|]. destruct Hn. by apply (list_elem_of_fmap_2 fst) in Hin.
  - rewrite IH by done. naive_solver.
Qed.

Lemma vm_insert_keys m k a x : x ∈ map fst (vm_insert m k a) <-> x = k \/ x ∈ map fst m.
Proof.
  induction m as [|[k0 a0] m IH]; cbn [vm_insert map fst]; [by rewrite elem_of_cons|].
  destruct (decide (k = k0)) as [<-|]; cbn [map fst]; rewrite !elem_of_cons, ?IH; naive_solver.
Qed.

Lemma vm_insert_nodup m k a : NoDup (map fst m) -> NoDup (map fst (vm_insert m k a)).
Proof.
  induction m as [|[k0 a0] m IH]; cbn [vm_insert map fst]; [intros _; apply NoDup_singleton|].
  intros [Hn Hnd]%NoDup_cons. destruct (decide (k = k0)) as [<-|]; cbn [map fst]; apply NoDup_cons; [done|].
  split; [|by apply IH]. rewrite vm_insert_keys. naive_solver.
Qed.
End VecMapFacts.

Lemma vm_remove_keys {K A} `{EqDecision K} (m : list (K * A)) k : NoDup (map fst m) ->
  NoDup (map fst (vm_remove m k)) /\ forall x, x ∈ map fst (vm_remove m k) <-> x ∈ map fst m /\ x <> k.
Proof.
  induction m as [|[k0 a0] m IH]; cbn [vm_remove map fst]; [intros _; split; [constructor|]; intros x; rewrite elem_of_nil; tauto|].
  intros [Hn Hnd]%NoDup_cons. destruct (IH Hnd) as [IH1 IH2]. destruct (decide (k = k0)) as [->|Hne].
  - split; [done|]. intros x. rewrite elem_of_cons. split; [intros Hx; split; [by right|by intros ->]|]. by intros [[->|?] ?].
  - cbn [map fst]. split; [apply NoDup_cons; rewrite IH2; tauto|]. intros x. rewrite !elem_of_cons, IH2.
    split; [intros [->|[? ?]]; auto|]. intros [[->|?] ?]; auto.
Qed.

(** ** What is announced *)

Definition at_cut (cut : Version) (h : Version * (Epoch * NodeId)) : bool := (h.1 <=? cut) && (h.2.1 <=? cut).

Lemma announce_fold cut frontier acc hs :
  fold_left announce_step frontier (mkScopeAnnounce (Some cut) acc hs)
  = mkScopeAnnounce (Some cut)
      (fold_left (fun acc (h : Version * (Epoch * NodeId)) => Z.lxor acc (head_fingerprint h.1 h.2.1 h.2.2))
         (List.filter (at_cut cut) frontier) acc)
      (fold_left (fun m h => bt_insert m h.1 h.2) (List.filter (fun h => negb (at_cut cut h)) frontier) hs).
Proof.
  revert acc hs; induction frontier as [|[ts [e n]] frontier IH]; intros acc hs; [done|].
  cbn [fold_left]. unfold announce_step at 2, elides. cbn [baseline].
  cbn [List.filter]. change (at_cut cut (ts, (e, n))) with ((ts <=? cut) && (e <=? cut)).
  destruct ((ts <=? cut) && (e <=? cut)); cbn [negb fold_left fst snd fingerprint heads]; by rewrite IH.
Qed.

(** Inserting the entries of a map one by one, in their order, gives the map. *)
Lemma bt_insert_last {A} (m : list (Z * A)) k a :
  Forall (fun x => x.1 < k) m -> bt_insert m k a = m ++ [(k, a)].
Proof.
  induction 1 as [|[k0 a0] m Hk _ IH]; [done|]. cbn [bt_insert fst] in *.
  rewrite (proj2 (Z.ltb_ge k k0)), (proj2 (Z.eqb_neq k k0)) by lia. by rewrite IH.
Qed.

Lemma bt_rebuild {A} (l m : list (Z * A)) : bt_ok (m ++ l) -> fold_left (fun m h => bt_insert m h.1 h.2) l m = m ++ l.
Proof.
  revert m; induction l as [|[k a] l IH]; intros m Hok; [by rewrite app_nil_r|]. cbn [fold_left fst snd].
  rewrite bt_insert_last.
  - rewrite IH; rewrite <- app_assoc; done.
  - unfold bt_ok in Hok. clear IH. induction m as [|x m IHm]; [constructor|].
    inversion_clear Hok as [|?? Hs Hall]. constructor; [|by apply IHm].
    rewrite Forall_forall in Hall. apply (Hall (k, a)). set_solver.
Qed.

Lemma bt_filter_ok {A} (f : Z * A -> bool) (m : list (Z * A)) : bt_ok m -> bt_ok (List.filter f m).
Proof.
  unfold bt_ok. induction 1 as [|x m Hm IH Hall]; [constructor|]. cbn [List.filter].
  destruct (f x); [|done]. constructor; [done|]. rewrite Forall_forall in *.
  intros y [Hy _]%list_elem_of_In%filter_In. apply Hall. by apply list_elem_of_In.
Qed.

(** The announce of a scope, in closed form. *)
Lemma announce_scope_spec lag_cut frontier : bt_ok frontier ->
  announce_scope lag_cut frontier
  = match (lag_cut ≫= fun cut => newest ← bt_last_key frontier; Some (Z.min newest cut)) with
    | None => announce_full frontier
    | Some cut => mkScopeAnnounce (Some cut) (fold_heads_at_cut frontier cut)
                    (List.filter (fun h => negb (at_cut cut h)) frontier)
    end.
Proof.
  intros Hok. unfold announce_scope. case_match; [|done]. rewrite announce_fold.
  rewrite bt_rebuild by (by apply bt_filter_ok). done.
Qed.

(** ** Catch-up plans are exact *)

(** What an announce that was built by [announce_scope] satisfies. *)
Record announce_ok (sa : ScopeAnnounce) : Prop := mkAnnounceOk {
  an_sorted : bt_ok (heads sa);
  an_explicit : forall ts e n, (ts, (e, n)) ∈ heads sa -> elides sa ts e = false /\ 0 <= e;
  an_baseline : forall b, baseline sa = Some b -> 0 <= b;
}.

Definition below_base (base : option Version) (ts : Version) : bool :=
  match base with Some b => ts <=? b | None => false end.

(** The state of the loop of [plan_catchup] once it has gone through [done]. *)
Record catchup_inv (ours : option ScopeFrontier) (base : option Version)
    (seen : ScopeFrontier) (c : catchup) : Prop := mkCatchupInv {
  ci_skips : forall ts e n, (ts, (e, n)) ∈ seen ->
    cursor_skips (cu_since c) (cu_floors c) ts e = sufficient ours ts e;
  ci_floors : forall ts x, bt_get (cu_floors c) ts = Some x -> exists h, (ts, h) ∈ seen;
  ci_base : forall b, base = Some b -> exists x, cu_since c = Some x /\ b <= x;
  ci_since : forall x, cu_since c = Some x -> base = Some x \/ exists h, (x, h) ∈ seen;
  ci_intact : cu_intact c = true -> forall ts e n, (ts, (e, n)) ∈ seen ->
    below_base base ts = false -> sufficient ours ts e = true;
  ci_behind : cu_behind c = true <-> exists ts e n, (ts, (e, n)) ∈ seen /\ sufficient ours ts e = false;
}.

Lemma cursor_skips_insert since floors ts x ts' e :
  cursor_skips since (bt_insert floors ts x) ts' e
  = if ts' =? ts then e <=? x else cursor_skips since floors ts' e.
Proof. unfold cursor_skips. rewrite bt_get_insert. by destruct (ts' =? ts). Qed.

Lemma sufficient_floor ours ts e : 0 < e -> (e <=? default 0 (our_epoch ours ts)) = sufficient ours ts e.
Proof. unfold sufficient. destruct (our_epoch ours ts); [done|]. cbn. intros. by apply Z.leb_gt. Qed.

Section CatchupStep.
Context (ours : option ScopeFrontier) (base : option Version) (seen : ScopeFrontier) (c : catchup)
  (ts : Version) (e : Epoch) (n : NodeId).
Context (Hinv : catchup_inv ours base seen c) (Hnew : forall x, x ∈ seen -> x.1 < ts).

Lemma floor_fresh : bt_get (cu_floors c) ts = None.
Proof.
  destruct (bt_get (cu_floors c) ts) as [x|] eqn:E; [|done]. destruct (ci_floors _ _ _ _ Hinv _ _ E) as [h Hh].
  specialize (Hnew _ Hh). cbn in Hnew. lia.
Qed.

(** The cursor stays below a version above the baseline. *)
Lemma since_below x : below_base base ts = false -> cu_since c = Some x -> x < ts.
Proof.
  intros Hb [->|[h Hh]]%(ci_since _ _ _ _ Hinv); [|by apply (Hnew _ Hh)]. cbn in Hb. by apply Z.leb_gt.
Qed.

Lemma behind_snoc b :
  (b = true <-> cu_behind c = true \/ sufficient ours ts e = false) ->
  b = true <-> exists ts' e' n', (ts', (e', n')) ∈ seen ++ [(ts, (e, n))] /\ sufficient ours ts' e' = false.
Proof.
  intros ->. rewrite (ci_behind _ _ _ _ Hinv). split.
  - intros [(t' & e' & n' & Hin & Hs)|Hs]; [exists t', e', n'|exists ts, e, n]; set_solver.
  - intros (t' & e' & n' & [Hin|[= -> -> ->]%list_elem_of_singleton]%elem_of_app & Hs); [left; eauto|by right].
Qed.

Lemma catchup_keep : below_base base ts = true -> sufficient ours ts e = true ->
  catchup_inv ours base (seen ++ [(ts, (e, n))]) c.
Proof.
  intros Hb Hs. destruct Hinv as [H1 H2 H3 H4 H5 H6]. split.
  - intros t' e' n' [Hin|[= -> -> ->]%list_elem_of_singleton]%elem_of_app; [by eapply H1|].
    unfold cursor_skips. rewrite floor_fresh, Hs. destruct base as [b|]; [|done]. cbn in Hb.
    destruct (H3 b eq_refl) as (x & -> & Hx). apply Z.leb_le in Hb. apply Z.leb_le. lia.
  - intros t' x Hx. destruct (H2 _ _ Hx) as [h Hh]. exists h. set_solver.
  - done.
  - intros x [?|[h Hh]]%H4; [by left|right; exists h; set_solver].
  - intros Hi t' e' n' [Hin|[= -> -> ->]%list_elem_of_singleton]%elem_of_app Hb'; [by eapply H5|congruence].
  - apply behind_snoc. rewrite Hs. intuition discriminate.
Qed.

(** A floor at the version, whether it is sufficient or not. *)
Lemma catchup_floor beh :
  below_base base ts = true \/ cu_intact c = false -> (e <=? default 0 (our_epoch ours ts)) = sufficient ours ts e ->
  (beh = true <-> cu_behind c = true \/ sufficient ours ts e = false) ->
  catchup_inv ours base (seen ++ [(ts, (e, n))])
    (mkCatchup beh (cu_since c) (bt_insert (cu_floors c) ts (default 0 (our_epoch ours ts))) (cu_intact c)).
Proof.
  intros Hor Hf Hb. destruct Hinv as [H1 H2 H3 H4 H5 H6]. split; cbn [cu_since cu_floors cu_intact cu_behind].
  - intros t' e' n' [Hin|[= -> -> ->]%list_elem_of_singleton]%elem_of_app; rewrite cursor_skips_insert.
    + specialize (Hnew _ Hin). cbn in Hnew. rewrite (proj2 (Z.eqb_neq t' ts)) by lia. by eapply H1.
    + by rewrite Z.eqb_refl.
  - intros t' x. rewrite bt_get_insert. destruct (Z.eqb_spec t' ts) as [->|]; [intros _; exists (e, n); set_solver|].
    intros Hx. destruct (H2 _ _ Hx) as [h Hh]. exists h. set_solver.
  - done.
  - intros x [?|[h Hh]]%H4; [by left|right; exists h; set_solver].
  - intros Hi t' e' n' [Hin|[= -> -> ->]%list_elem_of_singleton]%elem_of_app Hb'; [by eapply H5|].
    destruct Hor; congruence.
  - by apply behind_snoc.
Qed.

Lemma catchup_advance : below_base base ts = false -> sufficient ours ts e = true -> cu_intact c = true ->
  catchup_inv ours base (seen ++ [(ts, (e, n))]) (mkCatchup (cu_behind c) (Some ts) (cu_floors c) (cu_intact c)).
Proof.
  intros Hb Hs Hi. destruct Hinv as [H1 H2 H3 H4 H5 H6]. split; cbn [cu_since cu_floors cu_intact cu_behind].
  - intros t' e' n' [Hin|[= -> -> ->]%list_elem_of_singleton]%elem_of_app.
    + rewrite <- (H1 _ _ _ Hin). unfold cursor_skips. case_match eqn:E; [done|].
      specialize (Hnew _ Hin). cbn in Hnew. rewrite (proj2 (Z.leb_le t' ts)) by lia.
      symmetry. destruct (below_base base t') eqn:Eb.
      * destruct base as [b|]; [|done]. destruct (H3 b eq_refl) as (x & -> & Hx).
        apply Z.leb_le in Eb. apply Z.leb_le. lia.
      * generalize (H1 _ _ _ Hin). rewrite (H5 Hi _ _ _ Hin Eb). unfold cursor_skips. by rewrite E.
    + unfold cursor_skips. by rewrite floor_fresh, Hs, Z.leb_refl.
  - intros t' x Hx. destruct (H2 _ _ Hx) as [h Hh]. exists h. set_solver.
  - intros b Hbase. destruct (H3 b Hbase) as (x & Hx & ?). exists ts. split; [done|].
    pose proof (since_below _ Hb Hx). lia.
  - intros x [= <-]. right. exists (e, n). set_solver.
  - intros _ t' e' n' [Hin|[= -> -> ->]%list_elem_of_singleton]%elem_of_app Hb'; [by eapply H5|done].
  - apply behind_snoc. rewrite Hs. intuition discriminate.
Qed.

Lemma catchup_gap : below_base base ts = false -> sufficient ours ts e = false ->
  catchup_inv ours base (seen ++ [(ts, (e, n))]) (mkCatchup true (cu_since c) (cu_floors c) false).
Proof.
  intros Hb Hs. pose proof (fun x => since_below x Hb) as Hsince.
  destruct Hinv as [H1 H2 H3 H4 H5 H6]. split; cbn [cu_since cu_floors cu_intact cu_behind].
  - intros t' e' n' [Hin|[= -> -> ->]%list_elem_of_singleton]%elem_of_app; [by eapply H1|].
    unfold cursor_skips. rewrite floor_fresh, Hs. case_match; [|done]. apply Z.leb_gt. by apply Hsince.
  - intros t' x Hx. destruct (H2 _ _ Hx) as [h Hh]. exists h. set_solver.
  - done.
  - intros x [?|[h Hh]]%H4; [by left|right; exists h; set_solver].
  - done.
  - apply behind_snoc. rewrite Hs. intuition.
Qed.

Lemma catchup_step_inv : (below_base base ts = true -> 0 < e) ->
  catchup_inv ours base (seen ++ [(ts, (e, n))]) (catchup_step ours base c (ts, (e, n))).
Proof.
  intros Hpos. unfold catchup_step. fold (below_base base ts).
  destruct (below_base base ts) eqn:Hb, (sufficient ours ts e) eqn:Hs.
  - by apply catchup_keep.
  - apply catchup_floor; [by left|by apply sufficient_floor, Hpos|]. rewrite Hs. intuition.
  - destruct (cu_intact c) eqn:Hi; [rewrite <- Hi; by apply catchup_advance|]. rewrite <- Hi. apply catchup_floor; [by right| |].
    + unfold sufficient in *. by destruct (our_epoch ours ts).
    + rewrite Hs. intuition discriminate.
  - by apply catchup_gap.
Qed.
End CatchupStep.

Lemma sorted_app_below {A} (l : list (Z * A)) x m : bt_ok (l ++ x :: m) -> forall y, y ∈ l -> y.1 < x.1.
Proof.
  induction l as [|z l IH]; intros Hok y; [by intros ?%elem_of_nil|].
  inversion_clear Hok as [|?? Hs Hall]. intros [->|Hy]%elem_of_cons; [|by apply IH].
  rewrite Forall_forall in Hall. apply Hall. set_solver.
Qed.

Lemma catchup_loop ours base hs seen c :
  catchup_inv ours base seen c -> bt_ok (seen ++ hs) ->
  (forall ts e n, (ts, (e, n)) ∈ hs -> below_base base ts = true -> 0 < e) ->
  catchup_inv ours base (seen ++ hs) (fold_left (catchup_step ours base) hs c).
Proof.
  revert seen c; induction hs as [|[ts [e n]] hs IH]; intros seen c Hinv Hok Hpos; [by rewrite app_nil_r|].
  cbn [fold_left]. rewrite (cons_middle _ seen hs), app_assoc. apply IH.
  - apply catchup_step_inv; [done|intros x Hx; by apply (sorted_app_below _ _ _ Hok)|].
    intros Hb. by apply (Hpos ts e n); [left|].
  - by rewrite <- app_assoc.
  - intros t' e' n' Hin. apply (Hpos t' e' n'). by right.
Qed.

(** What the plan says, on the announced heads. *)
Lemma plan_catchup_spec ours theirs : announce_ok theirs ->
  match plan_catchup ours theirs with
  | Diverged => exists b, baseline theirs = Some b
      /\ match ours with Some f => fold_heads_at_cut f b | None => 0 end <> fingerprint theirs
  | CaughtUp => forall ts e n, (ts, (e, n)) ∈ heads theirs -> sufficient ours ts e = true
  | Behind since floors =>
      (exists ts e n, (ts, (e, n)) ∈ heads theirs /\ sufficient ours ts e = false)
      /\ (forall ts e n, (ts, (e, n)) ∈ heads theirs -> cursor_skips since floors ts e = sufficient ours ts e)
      /\ (forall ts e, elides theirs ts e = true -> bt_get (heads theirs) ts = None ->
            cursor_skips since floors ts e = true)
  end.
Proof.
  intros [Hsort Hex Hbase]. unfold plan_catchup.
  destruct (match baseline theirs with Some cut => negb _ | None => false end) eqn:Hd.
  { destruct (baseline theirs) as [b|]; [|done]. exists b. split; [done|].
    apply Bool.negb_true_iff, Z.eqb_neq in Hd. done. }
  pose proof (catchup_loop ours (baseline theirs) (heads theirs) [] (mkCatchup false (baseline theirs) [] true)) as Hl.
  destruct Hl as [H1 H2 H3 H4 H5 H6].
  - split; cbn; set_solver by lia.
  - done.
  - intros ts e n Hin Hb. destruct (Hex _ _ _ Hin) as [He ?]. unfold elides in He. unfold below_base in Hb.
    destruct (baseline theirs) as [b|]; [|done]. specialize (Hbase b eq_refl).
    rewrite Hb in He. cbn in He. apply Z.leb_gt in He. lia.
  - cbn [app] in *. destruct (cu_behind _) eqn:Hb.
    + split; [by apply H6|]. split; [done|]. intros ts e He Hn. unfold elides in He.
      destruct (baseline theirs) as [b|]; [|done]. destruct (H3 b eq_refl) as (x & Hx & Hle).
      apply andb_prop in He as [He _]. apply Z.leb_le in He. unfold cursor_skips.
      destruct (bt_get (cu_floors _) ts) as [x'|] eqn:E; [|rewrite Hx; apply Z.leb_le; lia].
      destruct (H2 _ _ E) as [h Hh]. by destruct (proj1 (bt_get_none (heads theirs) ts) Hn h).
    + intros ts e n Hin. destruct (sufficient ours ts e) eqn:Hs; [done|].
      assert (false = true) by (apply H6; eauto 6). done.
Qed.

(** ** Announces are sound *)

Lemma announce_scope_ok lag_cut frontier :
  bt_ok frontier -> (forall ts e n, (ts, (e, n)) ∈ frontier -> 0 <= ts /\ 0 <= e) ->
  (forall cut, lag_cut = Some cut -> 0 <= cut) ->
  announce_ok (announce_scope lag_cut frontier)
  /\ (forall ts e n, (ts, (e, n)) ∈ heads (announce_scope lag_cut frontier)
        <-> (ts, (e, n)) ∈ frontier /\ elides (announce_scope lag_cut frontier) ts e = false).
Proof.
  intros Hok Hpos Hcut. rewrite announce_scope_spec by done.
  destruct (lag_cut ≫= _) as [cut|] eqn:E.
  - assert (0 <= cut).
    { destruct lag_cut as [lag|]; [|done]. cbn in E. destruct (bt_last_key frontier) as [newest|] eqn:El; [|done].
      cbn in E. destruct (bt_last_max _ _ Hok El) as [[[e n] Ha] _]. apply Hpos in Ha. specialize (Hcut lag eq_refl).
      simplify_eq. lia. }
    assert (forall ts e n, (ts, (e, n)) ∈ List.filter (fun h => negb (at_cut cut h)) frontier
      <-> (ts, (e, n)) ∈ frontier /\ (ts <=? cut) && (e <=? cut) = false) as Hin.
    { intros ts e n. rewrite !list_elem_of_In, filter_In, Bool.negb_true_iff. done. }
    split; [|done]. split; cbn [heads baseline elides].
    + by apply bt_filter_ok.
    + intros ts e n [Hf Hc]%Hin. split; [done|]. by destruct (Hpos _ _ _ Hf).
    + by intros b [= <-].
  - cbn [announce_full heads elides baseline]. split; [|intuition].
    split; cbn [announce_full heads elides baseline]; [done| |done]. intros ts e n Hin. by destruct (Hpos _ _ _ Hin).
Qed.

Lemma announce_head_newest lag_cut frontier : bt_ok frontier ->
  announce_head (announce_scope lag_cut frontier) = bt_last_key frontier.
Proof.
  intros Hok. rewrite announce_scope_spec by done. unfold announce_head.
  destruct lag_cut as [lag|]; cbn [mbind option_bind heads baseline announce_full];
    [|by destruct (bt_last_key frontier)].
  destruct (bt_last_key frontier) as [newest|] eqn:El; cbn [mbind option_bind heads announce_full baseline]; [|by rewrite ?El].
  cbn [heads baseline]. destruct (bt_last_max _ _ Hok El) as [[[e n] Hin] Hmax].
  set (cut := Z.min newest lag).
  destruct (bt_last_key (List.filter _ frontier)) as [x|] eqn:Ex; cbn [opt_max].
  - destruct (bt_last_max _ _ (bt_filter_ok _ _ Hok) Ex) as [[a [Ha%list_elem_of_In _]%list_elem_of_In%filter_In] Hx].
    pose proof (Hmax _ Ha). cbn in *. f_equal. destruct (at_cut cut (newest, (e, n))) eqn:Ec.
    + apply andb_prop in Ec as [Ec _]. apply Z.leb_le in Ec. cbn in Ec. lia.
    + specialize (Hx (newest, (e, n))). cbn in Hx. enough (newest <= x) by lia. apply Hx.
      apply list_elem_of_In, filter_In. split; [by apply list_elem_of_In|by rewrite Ec].
  - apply bt_last_none in Ex. f_equal. destruct (at_cut cut (newest, (e, n))) eqn:Ec.
    + apply andb_prop in Ec as [Ec _]. apply Z.leb_le in Ec. cbn in Ec. lia.
    + assert (In (newest, (e, n)) (List.filter (fun h => negb (at_cut cut h)) frontier)) as Hf;
        [|by rewrite Ex in Hf].
      apply filter_In. split; [by apply list_elem_of_In|by rewrite Ec].
Qed.

(** ** The mixing function is injective *)

Lemma wrap64_u64 x : is_u64 (wrap 64 x).
Proof. unfold wrap, is_u64. apply Z.mod_pos_bound. lia. Qed.

Lemma lxor_u64 x y : is_u64 x -> is_u64 y -> is_u64 (Z.lxor x y).
Proof.
  unfold is_u64. intros [Hx Hx'] [Hy Hy']. assert (0 <= Z.lxor x y) by (apply Z.lxor_nonneg; lia). split; [done|].
  destruct (Z.eq_dec (Z.lxor x y) 0) as [->|Hne]; [lia|]. apply Z.log2_lt_pow2; [lia|].
  apply Z.le_lt_trans with (Z.max (Z.log2 x) (Z.log2 y)); [by apply Z.log2_lxor|].
  apply Z.max_lub_lt; [destruct (Z.eq_dec x 0) as [->|]|destruct (Z.eq_dec y 0) as [->|]];
    try (apply Z.log2_lt_pow2; lia); cbn; lia.
Qed.

(** [x ^ (x >> k)] determines [x]: the difference of two preimages would be its own shift. *)
Lemma xorshift_inj k x y : 0 < k -> is_u64 x -> is_u64 y ->
  Z.lxor x (Z.shiftr x k) = Z.lxor y (Z.shiftr y k) -> x = y.
Proof.
  unfold is_u64. intros Hk Hx Hy E. apply Z.lxor_eq. set (d := Z.lxor x y).
  assert (d = Z.shiftr d k) as Hd.
  { unfold d. rewrite Z.shiftr_lxor. apply Z.lxor_eq.
    rewrite !Z.lxor_assoc, <- (Z.lxor_assoc y), (Z.lxor_comm y), Z.lxor_assoc, <- Z.lxor_assoc, E.
    apply Z.lxor_nilpotent. }
  assert (0 <= d) by (apply Z.lxor_nonneg; lia).
  rewrite Z.shiftr_div_pow2 in Hd by lia. destruct (Z.eq_dec d 0); [done|].
  pose proof (Z.div_lt d (2 ^ k)) as Hlt. rewrite <- Hd in Hlt.
  assert (1 < 2 ^ k) by (apply Z.pow_gt_1; lia). lia.
Qed.

Lemma wrapping_add_inj c x y : is_u64 x -> is_u64 y -> wrapping_add x c = wrapping_add y c -> x = y.
Proof.
  unfold is_u64, wrapping_add, wrap. intros Hx Hy E.
  assert ((x + c - c) mod 2 ^ 64 = (y + c - c) mod 2 ^ 64) as Em by (rewrite Zminus_mod, E, <- Zminus_mod; done).
  rewrite !Z.add_simpl_r, !Z.mod_small in Em; done.
Qed.

Lemma wrapping_mul_inj c d x y : (c * d) mod 2 ^ 64 = 1 -> is_u64 x -> is_u64 y ->
  wrapping_mul x c = wrapping_mul y c -> x = y.
Proof.
  unfold is_u64, wrapping_mul, wrap. intros Hc Hx Hy E.
  assert (forall z, 0 <= z < 2 ^ 64 -> (z * c) mod 2 ^ 64 * d mod 2 ^ 64 = z) as Hinv.
  { intros z Hz. rewrite Z.mul_mod_idemp_l, <- Z.mul_assoc, <- Z.mul_mod_idemp_r, Hc by lia.
    rewrite Z.mul_1_r. by apply Z.mod_small. }
  rewrite <- (Hinv x Hx), <- (Hinv y Hy), E. done.
Qed.

Lemma shiftr_u64 x k : 0 <= k -> is_u64 x -> is_u64 (Z.shiftr x k).
Proof.
  unfold is_u64. intros Hk Hx. rewrite Z.shiftr_div_pow2 by lia. split; [apply Z.div_pos; lia|].
  apply Z.le_lt_trans with x; [|lia]. apply Z.div_le_upper_bound; [lia|]. nia.
Qed.

Lemma mix_u64 x : is_u64 (mix x).
Proof. unfold mix. apply lxor_u64; [|apply shiftr_u64; [lia|]]; apply wrap64_u64. Qed.

Lemma mix_inj x y : is_u64 x -> is_u64 y -> mix x = mix y -> x = y.
Proof.
  intros Hx Hy E. unfold mix in E.
  apply xorshift_inj in E; [|lia|apply wrap64_u64|apply wrap64_u64].
  assert (forall k z, 0 <= k -> is_u64 z -> is_u64 (Z.lxor z (Z.shiftr z k))) as Hxs
    by (intros; apply lxor_u64; [|apply shiftr_u64]; done).
  apply (wrapping_mul_inj _ 0x319642B2D24D8EC3) in E; [|reflexivity|apply Hxs; [lia|apply wrap64_u64]..].
  apply xorshift_inj in E; [|lia|apply wrap64_u64|apply wrap64_u64].
  apply (wrapping_mul_inj _ 0x96DE1B173F119089) in E; [|reflexivity|apply Hxs; [lia|apply wrap64_u64]..].
  apply xorshift_inj in E; [|lia|apply wrap64_u64|apply wrap64_u64].
  by apply wrapping_add_inj in E.
Qed.

#[local] Opaque mix.

(** For one version and node, the fingerprint tells the epochs apart. *)
Lemma head_fingerprint_epoch ts e e' n : length n = 16%nat -> is_u64 e -> is_u64 e' ->
  head_fingerprint ts e n = head_fingerprint ts e' n -> e = e'.
Proof.
  intros Hn He He' E. unfold head_fingerprint in E.
  assert (forall l, length l = 8%nat -> is_u64 (of_le l)) as Hle.
  { intros l Hl. unfold of_le, is_u64. pose proof (of_be_range (rev l)) as Hr. rewrite length_rev, Hl in Hr. exact Hr. }
  assert (is_u64 (of_le (take 8 n)) /\ is_u64 (of_le (drop 8 n))) as [Hlo Hhi]
    by (split; apply Hle; [rewrite length_take|rewrite length_drop]; lia).
  assert (forall a b c, Z.lxor a c = Z.lxor b c -> a = b) as Hx.
  { intros a b c H. rewrite <- (Z.lxor_0_r a), <- (Z.lxor_0_r b), <- (Z.lxor_nilpotent c), <- !Z.lxor_assoc, H. done. }
  do 2 (apply mix_inj in E; [|apply lxor_u64; [apply mix_u64|done]..]; apply Hx in E).
  apply mix_inj in E; [|apply lxor_u64; [apply mix_u64|done]..].
  rewrite !(Z.lxor_comm (mix ts)) in E. by apply Hx in E.
Qed.

#[local] Opaque head_fingerprint.

(** ** Folds *)

Definition xor_fold {A} (g : A -> Z) (l : list A) (acc : Z) : Z := fold_left (fun acc x => Z.lxor acc (g x)) l acc.

Lemma xor_fold_acc {A} (g : A -> Z) l acc : xor_fold g l acc = Z.lxor acc (xor_fold g l 0).
Proof.
  unfold xor_fold. revert acc; induction l as [|h l IH]; intros acc; cbn [fold_left]; [by rewrite Z.lxor_0_r|].
  rewrite IH, Z.lxor_assoc. f_equal. rewrite Z.lxor_0_l. by rewrite <- IH.
Qed.

Lemma xor_fold_app {A} (g : A -> Z) l1 l2 : xor_fold g (l1 ++ l2) 0 = Z.lxor (xor_fold g l1 0) (xor_fold g l2 0).
Proof. unfold xor_fold at 1. rewrite fold_left_app. apply xor_fold_acc. Qed.

Lemma xor_fold_cons {A} (g : A -> Z) x l : xor_fold g (x :: l) 0 = Z.lxor (g x) (xor_fold g l 0).
Proof. unfold xor_fold at 1. cbn [fold_left]. rewrite Z.lxor_0_l. apply xor_fold_acc. Qed.

Definition print_of (h : Version * (Epoch * NodeId)) : Fingerprint := head_fingerprint h.1 h.2.1 h.2.2.

Lemma fold_heads_xor l cut : fold_heads_at_cut l cut = xor_fold print_of (List.filter (at_cut cut) l) 0.
Proof. reflexivity. Qed.

Lemma fold_heads_app l1 l2 cut :
  fold_heads_at_cut (l1 ++ l2) cut = Z.lxor (fold_heads_at_cut l1 cut) (fold_heads_at_cut l2 cut).
Proof. rewrite !fold_heads_xor, List.filter_app. apply xor_fold_app. Qed.

Lemma fold_heads_cons h l cut :
  fold_heads_at_cut (h :: l) cut
  = if at_cut cut h then Z.lxor (print_of h) (fold_heads_at_cut l cut) else fold_heads_at_cut l cut.
Proof.
  rewrite !fold_heads_xor. cbn [List.filter]. destruct (at_cut cut h); [|done]. apply xor_fold_cons.
Qed.

Lemma bt_split {A} (m : list (Z * A)) k a a' : bt_ok m -> (k, a) ∈ m ->
  exists l1 l2, m = l1 ++ (k, a) :: l2 /\ bt_insert m k a' = l1 ++ (k, a') :: l2.
Proof.
  unfold bt_ok. induction 1 as [|[k0 a0] m Hm IH Hall]; [by intros ?%elem_of_nil|].
  rewrite Forall_forall in Hall. intros [[= <- <-]|Hin]%elem_of_cons; cbn [bt_insert].
  - rewrite Z.ltb_irrefl, Z.eqb_refl. by exists [], m.
  - specialize (Hall _ Hin). cbn in Hall. rewrite (proj2 (Z.ltb_ge k k0)), (proj2 (Z.eqb_neq k k0)) by lia.
    destruct (IH Hin) as (l1 & l2 & -> & ->). by exists ((k0, a0) :: l1), l2.
Qed.

(** ** Properties *)

Definition frontier_valid (f : ScopeFrontier) : Prop :=
  bt_ok f /\ forall ts e n, (ts, (e, n)) ∈ f -> is_u64 ts /\ is_u64 e /\ length n = 16%nat.

Lemma frontier_nonneg f : frontier_valid f -> forall ts e n, (ts, (e, n)) ∈ f -> 0 <= ts /\ 0 <= e.
Proof. intros [_ Hf] ts e n Hin. destruct (Hf _ _ _ Hin) as ([] & [] & _). done. Qed.

Lemma announce_baseline lag f b :
  baseline (announce_scope lag f) = Some b -> fingerprint (announce_scope lag f) = fold_heads_at_cut f b.
Proof.
  unfold announce_scope. case_match; [|done]. rewrite announce_fold. cbn [baseline fingerprint]. by intros [= ->].
Qed.

(** C37. The catch-up plan is exact.  For what a holder announces of its frontier, in
    full or above a cut: unless it reports divergence, the plan asks for catching
    up when and only when some announced head is missing or held at an older epoch;
    the cursor it asks
    with makes the holder leave out exactly the heads that are held well
    enough or that the announce elides; and divergence is only reported when
    the elided parts really differ. *)
Theorem plan_catchup_exact (ours : option ScopeFrontier) (f : ScopeFrontier) (lag : option Version)
    (Hf : frontier_valid f) (Hlag : forall cut, lag = Some cut -> is_u64 cut) :
  let sa := announce_scope lag f in
  match plan_catchup ours sa with
  | Diverged => exists b, baseline sa = Some b
      /\ List.filter (at_cut b) (default [] ours) <> List.filter (at_cut b) f
  | CaughtUp => forall ts e n, (ts, (e, n)) ∈ f -> elides sa ts e || sufficient ours ts e = true
  | Behind since floors =>
      (exists ts e n, (ts, (e, n)) ∈ f /\ elides sa ts e || sufficient ours ts e = false)
      /\ forall ts e n, (ts, (e, n)) ∈ f ->
           cursor_skips since floors ts e = elides sa ts e || sufficient ours ts e
  end.
Proof.
  intros sa. destruct (announce_scope_ok lag f (proj1 Hf) (frontier_nonneg f Hf)
    (fun cut Hc => proj1 (Hlag cut Hc))) as [Hok Hex].
  pose proof (plan_catchup_spec ours sa Hok) as Hplan. fold sa in Hex. destruct (plan_catchup ours sa) as [| |since floors].
  - intros ts e n Hin. destruct (elides sa ts e) eqn:Ee; [done|]. cbn. apply (Hplan ts e n). by apply Hex.
  - destruct Hplan as (b & Hb & Hne). exists b. split; [done|]. intros Heq. apply Hne.
    rewrite (announce_baseline lag f b Hb : fingerprint sa = _), fold_heads_xor, <- Heq. by destruct ours.
  - destruct Hplan as ((ts & e & n & Hin & Hs) & Hsk & Hel). split.
    + exists ts, e, n. apply Hex in Hin as [Hin He]. by rewrite He, Hs.
    + intros ts' e' n' Hin'. destruct (elides sa ts' e') eqn:Ee; [|by apply Hsk with n', Hex].
      apply Hel; [done|]. destruct (bt_get (heads sa) ts') as [[e2 n2]|] eqn:Eg; [|done].
      apply (bt_get_elem _ _ _ (an_sorted _ Hok)), Hex in Eg as [Eg He2].
      apply (bt_get_elem _ _ _ (proj1 Hf)) in Eg, Hin'. congruence.
Qed.

(** An announce vouches for the frontier it was made of: a head is listed exactly
    if it is not elided, the newest version is announced as the head, and a
    node with the same frontier is caught up, whatever the cut. *)
Theorem announce_vouches (f : ScopeFrontier) (lag : option Version)
    (Hf : frontier_valid f) (Hlag : forall cut, lag = Some cut -> is_u64 cut) :
  let sa := announce_scope lag f in
  (forall ts e n, (ts, (e, n)) ∈ heads sa <-> (ts, (e, n)) ∈ f /\ elides sa ts e = false)
  /\ announce_head sa = bt_last_key f
  /\ plan_catchup (Some f) sa = CaughtUp.
Proof.
  intros sa. destruct (announce_scope_ok lag f (proj1 Hf) (frontier_nonneg f Hf)
    (fun cut Hc => proj1 (Hlag cut Hc))) as [Hok Hex].
  split; [done|]. split; [by apply announce_head_newest, Hf|].
  pose proof (plan_catchup_spec (Some f) sa Hok) as Hplan. fold sa in Hex.
  destruct (plan_catchup (Some f) sa); [done| |]; exfalso.
  - destruct Hplan as (b & Hb & Hne). by apply Hne; symmetry; apply announce_baseline.
  - destruct Hplan as ((ts & e & n & [Hin _]%Hex & Hs) & _). unfold sufficient, our_epoch in Hs. cbn in Hs.
    apply (bt_get_elem _ _ _ (proj1 Hf)) in Hin. rewrite Hin in Hs. cbn in Hs. by rewrite Z.leb_refl in Hs.
Qed.

(** A single differing epoch in the elided part is always noticed: if a node holds
    a frontier that differs from the announced one in the epoch of one head
    below the cut, the fingerprints differ and the plan says so. *)
Theorem epoch_divergence_detected (f : ScopeFrontier) (lag : option Version) (ts : Version) (e e' : Epoch) (n : NodeId)
    (Hf : frontier_valid f) (Hin : (ts, (e, n)) ∈ f) (He' : is_u64 e') (Hne : e <> e')
    (H1 : elides (announce_scope lag f) ts e = true) (H2 : elides (announce_scope lag f) ts e' = true) :
  plan_catchup (Some (bt_insert f ts (e', n))) (announce_scope lag f) = Diverged.
Proof.
  unfold plan_catchup. destruct (baseline (announce_scope lag f)) as [b|] eqn:Hb;
    [|unfold elides in H1; by rewrite Hb in H1].
  rewrite (announce_baseline _ _ _ Hb). unfold elides in H1, H2. rewrite Hb in H1, H2.
  destruct (bt_split f ts (e, n) (e', n) (proj1 Hf) Hin) as (l1 & l2 & E1 & ->).
  destruct (Z.eqb_spec (fold_heads_at_cut (l1 ++ (ts, (e', n)) :: l2) b) (fold_heads_at_cut f b)) as [E|]; [|done].
  exfalso. apply Hne. destruct (proj2 Hf _ _ _ Hin) as (_ & He & Hn). apply (head_fingerprint_epoch ts e e' n); try done.
  rewrite E1, !fold_heads_app, !fold_heads_cons in E. unfold at_cut in E. cbn [fst snd] in E. rewrite H1, H2 in E.
  apply (f_equal (Z.lxor (fold_heads_at_cut l1 b))) in E.
  rewrite <- !(Z.lxor_assoc (fold_heads_at_cut l1 b)), Z.lxor_nilpotent, !Z.lxor_0_l in E.
  apply (f_equal (fun x => Z.lxor x (fold_heads_at_cut l2 b))) in E.
  rewrite !Z.lxor_assoc, Z.lxor_nilpotent, !Z.lxor_0_r in E. done.
Qed.

(** ** Examples *)

Definition sample_node : NodeId := replicate 16 x07.
Definition sample_frontier : ScopeFrontier :=
  [(5, (5, sample_node)); (9, (12, sample_node)); (20, (20, sample_node))].
Definition sample_ours : option ScopeFrontier := Some [(5, (5, sample_node))].

Lemma sample_frontier_valid : frontier_valid sample_frontier.
Proof.
  split; [repeat constructor|]. intros ts e n Hin. unfold sample_frontier in Hin. unfold is_u64.
  repeat (apply elem_of_cons in Hin as [[= -> -> ->]|Hin]; [split; [lia|split; [lia|done]]|]). by apply elem_of_nil in Hin.
Qed.

Lemma sample_lag : forall cut, Some 10 = Some cut -> is_u64 cut.
Proof. intros cut [= <-]. unfold is_u64. lia. Qed.

Lemma plan_catchup_exact_witness :
  plan_catchup sample_ours (announce_scope (Some 10) sample_frontier) = Behind (Some 10) [(9, 0)]
  /\ (forall ts e n, (ts, (e, n)) ∈ sample_frontier ->
       cursor_skips (Some 10) [(9, 0)] ts e
       = elides (announce_scope (Some 10) sample_frontier) ts e || sufficient sample_ours ts e).
Proof.
  pose proof (plan_catchup_exact sample_ours sample_frontier (Some 10) sample_frontier_valid sample_lag) as H.
  cbv zeta in H.
  assert (plan_catchup sample_ours (announce_scope (Some 10) sample_frontier) = Behind (Some 10) [(9, 0)]) as E
    by (vm_compute; reflexivity).
  rewrite E in H. split; [exact E|exact (proj2 H)].
Defined.

Lemma announce_vouches_witness :
  announce_head (announce_scope (Some 10) sample_frontier) = Some 20
  /\ plan_catchup (Some sample_frontier) (announce_scope (Some 10) sample_frontier) = CaughtUp.
Proof.
  exact (proj2 (announce_vouches sample_frontier (Some 10) sample_frontier_valid sample_lag)).
Defined.

Lemma epoch_divergence_detected_witness :
  plan_catchup (Some (bt_insert sample_frontier 5 (7, sample_node))) (announce_scope (Some 10) sample_frontier)
  = Diverged.
Proof.
  apply (epoch_divergence_detected sample_frontier (Some 10) 5 5 7 sample_node sample_frontier_valid).
  - left.
  - unfold is_u64. lia.
  - discriminate.
  - vm_compute. reflexivity.
  - vm_compute. reflexivity.
Defined.
