(* ===== verification/Store.v ===== *)
(** * The store

    [src/swarm/db/src/store/fjall.rs]: the database a node holds open, the
    remote transactions on it, what is known of its peers, and the work done
    on it as a whole: garbage collection, releasing what was handed over,
    starting and stopping replication, and the node's view of how far it is
    behind.

    The clock, the engine's answers and the monotonic time are not code of
    the repository; a run reads them from an environment, at each call the
    next answer.  The transactions of a store run one after the other: the
    engine isolates them and refuses a commit that lost a race. *)

From S2P Require Import Prelude Bytes Skey SkeyRoundtrip SkeyOrder Keys KeyScan Domain Kv Rows Tx Announce.
From Stdlib Require Import ZArith Lia Strings.Byte Sorting.Sorted.
From stdpp Require Import base list option strings sets.

Local Open Scope Z_scope.

(** A point of the monotonic clock and a duration, in nanoseconds; a node's view of
    the time since an instant is never negative. *)
Abbreviation Instant := Z (only parsing).
Abbreviation Duration := Z (only parsing).
Definition instant_since (now earlier : Instant) : Duration := Z.max 0 (now - earlier).

Definition PEER_TTL : Duration := 42 * 10 ^ 9.
Definition GC_BATCH : nat := 256.
Definition RELEASE_BATCH : nat := 256.

(** [slice::chunks] *)
Fixpoint chunks_go {A} (fuel : nat) (n : nat) (l : list A) : list (list A) :=
  match fuel, l with
  | O, _ | _, [] => []
  | Datatypes.S fuel, _ => take n l :: chunks_go fuel n (drop n l)
  end.
Definition chunks {A} (n : nat) (l : list A) : list (list A) := chunks_go (length l) n l.

Record PeerScope := mkPeerScope {
  ps_announce : ScopeAnnounce;
  ps_full_replica : bool;
  ps_last_seen : Instant;
}.
Definition PeerEntry : Type := list (Scope * PeerScope).

Inductive HolderState := Replica | Draining.
Record PeerView := mkPeerView { pv_id : NodeId; pv_age_ms : Z; pv_head : Version; pv_state : HolderState }.

Inductive ReplicationStatus := Active | Requested.

(** The answers of what is not code of the repository, by the number of the call. *)
Record Env := mkEnv {
  new_timestamp : nat -> Version;
  node_id : NodeId;
  instant_now : nat -> Instant;
  engine_begin : nat -> bool;
  engine_commit : nat -> commit_outcome;
  engine_poisoned : nat -> bool;
  new_uuid : nat -> Z;
  ntp_elapsed : Version -> Version -> Duration;
}.

Section Store.
Context {S : Type} `{Kv S} `{Postcard SyncMeta} `{Postcard MeasurementBody}.

Record RemoteTx := mkRemoteTx {
  rt_tx : @Transaction S;
  rt_idle_timeout : option Duration;
  rt_last_used : Instant;
}.

Record Store := mkStore {
  st_backend : option S;
  st_transactions : list (Z * RemoteTx);
  st_peers : list (NodeId * PeerEntry);
  st_departed : list (NodeId * Instant);
  st_replications : list (Subject * bool);
  st_offloads : list (Scope * bool);
  st_calls : nat;
}.

Definition SM (A : Type) : Type := Env -> Store -> res tx_error A * Store.

#[export] Instance SM_ret : MRet SM := fun A a env st => (Ok a, st).
#[export] Instance SM_bind : MBind SM := fun A B f m env st =>
  match m env st with
  | (Ok a, st) => f a env st
  | (Err e, st) => (Err e, st)
  end.
Definition fails {A} (e : tx_error) : SM A := fun env st => (Err e, st).
Definition prim {A} (f : Env -> Store -> res tx_error A * Store) : SM A := f.
Definition smres {A} (r : res tx_error A) : SM A := fun env st => (r, st).
(** [match m { Ok(a) => .., Err(e) => .. }] *)
Definition attempt {A} (m : SM A) : SM (res tx_error A) := fun env st => let (r, st) := m env st in (Ok r, st).

Definition set_backend (st : Store) (b : option S) : Store :=
  mkStore b (st_transactions st) (st_peers st) (st_departed st) (st_replications st) (st_offloads st) (st_calls st).
Definition set_transactions (st : Store) (l : list (Z * RemoteTx)) : Store :=
  mkStore (st_backend st) l (st_peers st) (st_departed st) (st_replications st) (st_offloads st) (st_calls st).
Definition set_peers (st : Store) (p : list (NodeId * PeerEntry)) (d : list (NodeId * Instant)) : Store :=
  mkStore (st_backend st) (st_transactions st) p d (st_replications st) (st_offloads st) (st_calls st).
Definition set_handles (st : Store) (r : list (Subject * bool)) (o : list (Scope * bool)) : Store :=
  mkStore (st_backend st) (st_transactions st) (st_peers st) (st_departed st) r o (st_calls st).
Definition called (st : Store) : Store :=
  mkStore (st_backend st) (st_transactions st) (st_peers st) (st_departed st) (st_replications st)
    (st_offloads st) (Datatypes.S (st_calls st)).

(** ** Transactions *)

Definition is_unavailable : SM bool := fun env st =>
  (Ok (match st_backend st with None => true | Some _ => engine_poisoned env (st_calls st) end), called st).

Definition begin_local (retention : option Duration) : SM (@Transaction S) := fun env st =>
  let n := st_calls st in
  match st_backend st with
  | None => (Err ErrUnavailable, called st)
  | Some s =>
      if engine_begin env n
      then (Ok (mkTx s (new_timestamp env n) (node_id env) [] retention), called st)
      else (Err ErrStore, called st)
  end.

(** A commit: the rows of the transaction are the store's when the engine says so. *)
Definition commit_tx (t : @Transaction S) : SM unit := fun env st =>
  match commit (engine_commit env (st_calls st)) t with
  | (Ok _, t) => (Ok tt, called (set_backend st (Some (tx_store t))))
  | (Err e, _) => (Err e, called st)
  end.

(** What a transaction's own operations do. *)
Definition within {A} (m : @TX S A) (t : @Transaction S) : SM (A * @Transaction S) := fun env st =>
  match m t with (Ok a, t) => (Ok (a, t), st) | (Err e, _) => (Err e, st) end.

Definition now_instant : SM Instant := fun env st => (Ok (instant_now env (st_calls st)), called st).

Definition begin_remote (retention idle_timeout : option Duration) : SM Z :=
  tx ← begin_local retention;
  last_used ← now_instant;
  prim (fun env st =>
     let id := new_uuid env (st_calls st) in
     (Ok id, called (set_transactions st (vm_insert (st_transactions st) id (mkRemoteTx tx idle_timeout last_used))))).

Definition find_remote_tx (id : Z) : SM (option (@Transaction S)) :=
  now ← now_instant;
  prim (fun env st =>
     match vm_get (st_transactions st) id with
     | None => (Ok None, st)
     | Some r => (Ok (Some (rt_tx r)),
         set_transactions st (vm_insert (st_transactions st) id (mkRemoteTx (rt_tx r) (rt_idle_timeout r) now)))
     end).

Definition remove_remote_tx (id : Z) : SM (option (@Transaction S)) := fun env st =>
  (Ok (rt_tx <$> vm_get (st_transactions st) id), set_transactions st (vm_remove (st_transactions st) id)).

Definition idle_expired (r : RemoteTx) (now : Instant) : bool :=
  match rt_idle_timeout r with Some timeout => timeout <=? instant_since now (rt_last_used r) | None => false end.

Definition reap_idle_transactions : SM unit :=
  now ← now_instant;
  prim (fun env st =>
     (Ok tt, set_transactions st (List.filter (fun e => negb (idle_expired e.2 now)) (st_transactions st)))).

Definition scope_head_version (scope : Scope) : SM (option Version) :=
  tx ← begin_local None;
  r ← within (find_last_syncpoint_untracked scope None) tx;
  mret ((fun sp => sid_version (as_id sp)) <$> r.1).

Definition scope_has_version (scope : Scope) (version : Version) : SM bool :=
  tx ← begin_local None;
  r ← within (find_last_syncpoint_untracked scope (Some version)) tx;
  mret (match r.1 with Some _ => true | None => false end).

Definition check_version_index : SM unit :=
  tx ← begin_local None;
  let ready := version_index_ready (tx_store tx) in
  let empty := holds_no_user_data (tx_store tx) in
  if (ready : bool) then mret tt
  else if negb empty then fails ErrOldDatabase
  else
    tx ← begin_local None;
    r ← within set_version_index_ready tx;
    commit_tx r.2.

(** ** Garbage collection *)

Definition duration_since (env : Env) (id : SyncPointId) (now : Version) : Duration :=
  ntp_elapsed env now (sid_version id).

Definition gc_expired (env : Env) (now : Version) (h : head_entry) : bool :=
  match sm_marker h.2, sm_retention h.2 with
  | Marker.Mutation, Some rp => rp <=? duration_since env h.1.2 now
  | _, _ => false
  end.

Definition scope_range (scope : Scope) : res tx_error (bytes * bytes) :=
  lift (partial_range "sync_point" (scope_vals scope)).

Definition gc_heads (env : Env) (now : Version) (s : S) : res tx_error (list head_entry) :=
  r ← lift (partial_range "sync_point" []);
  collect_latest_heads s r.1 r.2
    (fun heads h => Ok (if gc_expired env now h then heads ++ [h] else heads)) [].

(** One batch: a chunk that cannot be deleted is skipped, what it did is kept. *)
Fixpoint gc_batch (batch : list head_entry) (purged : nat) : @TX S nat :=
  match batch with
  | [] => mret purged
  | (scope, id, sm) :: batch =>
      act (fun t =>
        match delete_chunk (with_sp_id scope id) t with
        | (Err _, t) => gc_batch batch purged t
        | (Ok _, t) =>
            (_ ← mark_syncpoint_purged (with_sp_id scope id) sm; gc_batch batch (Datatypes.S purged)) t
        end)
  end.

Fixpoint gc_batches (batches : list (list head_entry)) (purged : nat) : SM nat :=
  match batches with
  | [] => mret purged
  | batch :: batches =>
      tx ← begin_local None;
      r ← within (gc_batch batch 0) tx;
      c ← attempt (commit_tx r.2);
      match c with
      | Err _ => mret purged
      | Ok _ => gc_batches batches (purged + r.1)
      end
  end.

Definition perform_gc : SM nat :=
  tx ← begin_local None;
  heads ← prim (fun env st => (gc_heads env (tx_ts tx) (tx_store tx), st));
  match heads with
  | [] => mret 0%nat
  | _ => gc_batches (chunks GC_BATCH heads) 0
  end.

(** ** Releasing what was handed over *)

Definition scope_points (s : S) (scope : Scope) : res tx_error (list SyncPointId) :=
  r ← scope_range scope;
  collect_latest_heads s r.1 r.2 (fun points h => Ok (points ++ [h.1.2])) [].

Definition held_sync_points (scope : Scope) : SM (list SyncPointId) :=
  tx ← begin_local None;
  smres (scope_points (tx_store tx) scope).

Fixpoint release_batch (scope : Scope) (batch : list SyncPointId) (released : nat) : @TX S nat :=
  match batch with
  | [] => mret released
  | id :: batch =>
      act (fun t =>
        match forget_chunk (with_sp_id scope id) t with
        | (Err _, t) => release_batch scope batch released t
        | (Ok _, t) => release_batch scope batch (Datatypes.S released) t
        end)
  end.

Fixpoint release_batches (scope : Scope) (batches : list (list SyncPointId)) (released : nat) : SM nat :=
  match batches with
  | [] => mret released
  | batch :: batches =>
      tx ← begin_local None;
      r ← within (release_batch scope batch 0) tx;
      c ← attempt (commit_tx r.2);
      match c with
      | Err _ => mret released
      | Ok _ => release_batches scope batches (released + r.1)
      end
  end.

Definition release_scope (scope : Scope) (points : list SyncPointId) : SM nat :=
  match points with
  | [] => mret 0%nat
  | _ => release_batches scope (chunks RELEASE_BATCH points) 0
  end.

(** ** Taking part in replication

    A handle is kept as whether it was stopped; [true] is returned when a new
    replicator was started. *)

Definition is_replicating (st : Store) (scope : Scope) : bool :=
  existsb (fun e : Subject * bool => negb e.2 && subject_contains e.1 scope) (st_replications st).

Definition is_offloading (st : Store) (scope : Scope) : bool :=
  match vm_get (st_offloads st) scope with Some stopped => negb stopped | None => false end.

Definition offloading_scopes (st : Store) : list Scope :=
  map fst (List.filter (fun e : Scope * bool => negb e.2) (st_offloads st)).

Definition replicate (subject : Subject) (st : Store) : bool * Store :=
  match vm_get (st_replications st) subject with
  | Some false => (false, st)
  | _ => (true, set_handles st (vm_insert (st_replications st) subject false) (st_offloads st))
  end.

Definition offload (scope : Scope) (st : Store) : bool * Store :=
  if is_replicating st scope then (false, st) else
  match vm_get (st_offloads st) scope with
  | Some false => (false, st)
  | _ => (true, set_handles st (st_replications st) (vm_insert (st_offloads st) scope false))
  end.

Definition stop_replication (subject : Subject) (st : Store) : Store :=
  match vm_get (st_replications st) subject with
  | Some _ => set_handles st (vm_insert (st_replications st) subject true) (st_offloads st)
  | None => st
  end.

(** The tasks that take a stopped handle out of the map. *)
Definition replication_cleanup (subject : Subject) (st : Store) : Store :=
  match vm_get (st_replications st) subject with
  | Some true => set_handles st (vm_remove (st_replications st) subject) (st_offloads st)
  | _ => st
  end.
Definition offload_cleanup (scope : Scope) (st : Store) : Store :=
  match vm_get (st_offloads st) scope with
  | Some true => set_handles st (st_replications st) (vm_remove (st_offloads st) scope)
  | _ => st
  end.

(** The scopes are collected in a hash set; here in order of first occurrence. *)
Definition all_scopes (s : S) : res tx_error (list Scope) :=
  r ← lift (partial_range "sync_point" []);
  collect_latest_heads s r.1 r.2
    (fun scopes (h : head_entry) =>
       Ok (if bool_decide (h.1.1 ∈ scopes) then scopes else scopes ++ [h.1.1])) [].

Definition stray_scopes : SM (list Scope) :=
  tx ← begin_local None;
  scopes ← smres (all_scopes (tx_store tx));
  prim (fun env st =>
    (Ok (List.filter (fun scope => negb (is_replicating st scope) && negb (is_offloading st scope)) scopes), st)).

(** ** Peers *)

Definition peer_fresh (received_at : Instant) (entry : PeerEntry) (scope : Scope) : bool :=
  match vm_get entry scope with Some held => received_at <? ps_last_seen held | None => false end.

Definition merge_known (full_replica : bool) (received_at : Instant) (entry : PeerEntry)
    (known : list (Scope * ScopeAnnounce)) : PeerEntry :=
  fold_left (fun entry (k : Scope * ScopeAnnounce) =>
    if peer_fresh received_at entry k.1 then entry
    else vm_insert entry k.1 (mkPeerScope k.2 full_replica received_at)) known entry.

Definition record_peer_frontier (peer : NodeId) (known : list (Scope * ScopeAnnounce)) (full_replica : bool)
    (received_at : Instant) (st : Store) : bool * Store :=
  if match vm_get (st_departed st) peer with Some left_at => received_at <=? left_at | None => false end
  then (false, st)
  else
    let entry := default [] (vm_get (st_peers st) peer) in
    (true, set_peers st (vm_insert (st_peers st) peer (merge_known full_replica received_at entry known))
             (st_departed st)).

Definition forget_peer (peer : NodeId) (now : Instant) (st : Store) : Store :=
  let departed := List.filter (fun d : NodeId * Instant => instant_since now d.2 <=? PEER_TTL) (st_departed st) in
  set_peers st (vm_remove (st_peers st) peer) (vm_insert departed peer now).

Definition peer_view (scope : Scope) (now : Instant) (st : Store) : list PeerView :=
  omap (fun e : NodeId * PeerEntry =>
    held ← vm_get e.2 scope;
    let age := instant_since now (ps_last_seen held) in
    if PEER_TTL <? age then None else
    head ← announce_head (ps_announce held);
    Some (mkPeerView e.1 (Z.min (age / 10 ^ 6) u64_max) head (if ps_full_replica held then Replica else Draining)))
    (st_peers st).

(** What live peers hold of the scope. *)
Definition live_announces (scope : Scope) (now : Instant) (st : Store) : list ScopeAnnounce :=
  omap (fun e : NodeId * PeerEntry =>
    held ← vm_get e.2 scope;
    if PEER_TTL <? instant_since now (ps_last_seen held) then None else Some (ps_announce held)) (st_peers st).

Definition raise_target (target : list (Version * Epoch)) (h : Version * (Epoch * NodeId)) : list (Version * Epoch) :=
  bt_insert target h.1 (match bt_get target h.1 with Some e => Z.max e h.2.1 | None => h.2.1 end).

Definition targets (announces : list ScopeAnnounce) : list (Version * Epoch) :=
  fold_left (fun target sa => fold_left raise_target (heads sa) target) announces [].

Definition frontier_of (s : S) (scope : Scope) : res tx_error ScopeFrontier :=
  r ← scope_range scope;
  collect_latest_heads s r.1 r.2
    (fun f (h : head_entry) => Ok (bt_insert f (sid_version h.1.2) (sid_epoch h.1.2, sid_node h.1.2))) [].

Definition scope_heads (scope : Scope) : SM ScopeFrontier :=
  tx ← begin_local None; smres (frontier_of (tx_store tx) scope).

Definition outstanding (scope : Scope) : SM (list (Version * Epoch)) :=
  now ← now_instant;
  target ← prim (fun env st => (Ok (targets (live_announces scope now st)), st));
  match target with
  | [] => mret []
  | _ =>
      ours ← scope_heads scope;
      mret (List.filter (fun t : Version * Epoch => negb (sufficient (Some ours) t.1 t.2)) target)
  end.

Definition prefix_diverged (scope : Scope) : SM bool :=
  now ← now_instant;
  cuts ← prim (fun env st =>
    (Ok (omap (fun sa => cut ← baseline sa; Some (cut, fingerprint sa)) (live_announces scope now st)), st));
  match cuts with
  | [] => mret false
  | _ =>
      ours ← scope_heads scope;
      mret (existsb (fun c : Version * Fingerprint => negb (fold_heads_at_cut ours c.1 =? c.2)) cuts)
  end.

Definition replica_status (scope : Scope) : SM (option ReplicationStatus) :=
  now ← now_instant;
  any ← prim (fun env st => (Ok (match live_announces scope now st with [] => false | _ => true end), st));
  if negb any then mret None else
  out ← outstanding scope;
  match out with
  | [] => diverged ← prefix_diverged scope; mret (Some (if (diverged : bool) then Requested else Active))
  | _ => mret (Some Requested)
  end.
End Store.
