(* ===== verification/StoreGc.v ===== *)
(** * Garbage collection and release

    What [perform_gc] and [release_scope] of the store do: which versions
    they erase, what stays of their sync points, and that nothing else
    changes. *)

From S2P Require Import Prelude Bytes Skey SkeyRoundtrip SkeyOrder Keys KeyScan Domain Kv Rows RowsFacts Changeset Scans Tx Sample TxKeys TxInv TxReads TxScans TxSync TxOrder Announce Store.
From Stdlib Require Import ZArith Lia Strings.Byte Sorting.Sorted.
From stdpp Require Import base list option strings sets.

Local Open Scope Z_scope.

(** ** Batches *)

Lemma chunks_concat {A} n (l : list A) : (0 < n)%nat -> concat (chunks n l) = l.
Proof.
  intros Hn. unfold chunks. remember (length l) as fuel eqn:E. assert (length l <= fuel)%nat as Hl by lia. clear E.
  revert l Hl; induction fuel as [|fuel IH]; intros l Hl; [by destruct l; [|cbn in Hl; lia]|].
  destruct l as [|x l]; [done|]. cbn [chunks_go concat]. rewrite IH, take_drop; [done|].
  rewrite length_drop. cbn [length] in *. lia.
Qed.

(** The environment of a run in which the engine accepts everything. *)
Record env_ok (env : Env) : Prop := mkEnvOk {
  eo_ts : forall n, is_u64 (new_timestamp env n);
  eo_node : length (node_id env) = 16%nat;
}.
Record env_accepts (env : Env) : Prop := mkEnvAccepts {
  ea_begin : forall n, engine_begin env n = true;
  ea_commit : forall n, engine_commit env n = Committed;
  ea_healthy : forall n, engine_poisoned env n = false;
}.

Section Gc.
Context {S : Type} {kvS : Kv S} {kvLaws : KvLaws S}
  {pcMeta : Postcard SyncMeta} {pcMetaLaws : PostcardLaws SyncMeta}
  {pcBody : Postcard MeasurementBody}.
Implicit Types s : S.

(** ** Erasing versions *)

Lemma sync_point_scope (sp : SyncPoint) k : encode sp = Ok k -> exists raw, encode (sp_scope sp) = Ok raw.
Proof.
  destruct sp as [sc ts e i]. cbn [sp_scope].
  change (encode {| sp_scope := sc; sp_ts := ts; sp_epoch := e; sp_id := i |})
    with (encode_steps ([Literal (lit "#")] ++ segs "scope" ++ drop 8 (segs "sync_point"))
            ([] ++ scope_vals sc ++ [vu64 ts; vu64 e; VArray i])).
  intros (a & b & _ & Hb & _)%encode_steps_app; [|done].
  apply encode_steps_app in Hb as (raw & c & Hraw & _); [|done]. by exists raw.
Qed.

(** The rows that are not data decide which sync points are held. *)
Lemma sync_at_foreign s s' sp sm :
  (forall x, foreign x -> kv_get s' x = kv_get s x) -> sync_at s' sp sm <-> sync_at s sp sm.
Proof.
  intros Hf. unfold sync_at. split; intros (Hv & k & v & Hk & Hg & Hb); split; try done; exists k, v;
    rewrite <- ?Hf, ?Hf in *; try done; by apply (sync_point_foreign sp).
Qed.

Lemma sync_at_held s sp sm k : sync_at s sp sm -> encode sp = Ok k -> exists v, kv_get s k = Some v /\ from_bytes v = Some sm.
Proof. intros (_ & k' & v & Hk' & Hg & Hb) Hk. rewrite Hk in Hk'. apply Ok_inj in Hk' as <-. eauto. Qed.

(** [s'] is [s] without the versions in [gone]. *)
Definition without (gone : list (Scope * Version)) s s' : Prop :=
  forall sc key ts, stored sc key -> is_u64 ts ->
    verdict s' key ts = if decide ((sc, ts) ∈ gone) then None else verdict s key ts.

Lemma without_nil s : without [] s s.
Proof. intros sc key ts _ _. by rewrite decide_False by apply not_elem_of_nil. Qed.

Lemma without_trans g g' s1 s2 s3 : without g s1 s2 -> without g' s2 s3 -> without (g ++ g') s1 s3.
Proof.
  intros H1 H2 sc key ts Hs Ht. rewrite (H2 sc) by done.
  destruct (decide ((sc, ts) ∈ g')); [by rewrite decide_True by set_solver|].
  rewrite (H1 sc) by done. by apply decide_ext; set_solver.
Qed.

Lemma delete_chunk_ok sp k (t : @Transaction S) : tx_ok t -> sync_point_valid sp -> encode sp = Ok k ->
  exists s', delete_chunk sp t = (Ok tt, set_store t s') /\ store_ok s'
    /\ (forall x, foreign x -> kv_get s' x = kv_get (tx_store t) x)
    /\ without [(sp_scope sp, sp_ts sp)] (tx_store t) s'.
Proof.
  intros Ht Hsp Hk. destruct (sync_point_scope sp k Hk) as (raw & Hraw).
  destruct (delete_verdict (tx_store t) (sp_scope sp) raw (sp_ts sp) (to_store _ Ht) (proj1 Hsp) Hraw)
    as (n & s' & Hd & Hok & Hf & Hver); [apply Hsp|].
  exists s'. split; [|split; [done|split; [done|]]].
  - unfold delete_chunk, delete_version, mbind, TX_bind, key_bytes, txres. rewrite Hraw. cbn. unfold act.
    by rewrite Hd.
  - intros sc key ts Hst Hts. rewrite (Hver sc) by done. apply decide_ext. rewrite list_elem_of_singleton. naive_solver.
Qed.

Lemma tx_ok_store (t : @Transaction S) s : tx_ok t -> store_ok s -> tx_ok (set_store t s).
Proof. intros [? ? ? ?] ?. by split. Qed.

Lemma without_foreign g s s' k v : foreign k -> without g s s' -> without g s (kv_insert s' k v) /\ without g s (kv_remove s' k).
Proof.
  intros Hk Hw. split; intros sc key ts Hs Ht.
  - rewrite verdict_foreign by (done || by apply (stored_region sc)). by apply Hw.
  - rewrite <- (Hw sc) by done. unfold verdict.
    by rewrite !kv_get_remove_ne by (eapply foreign_ne; [done|apply row_region; by apply (stored_region sc)|by left]).
Qed.

(** ** Purging *)

Definition purged (sm : SyncMeta) : SyncMeta :=
  mkSyncMeta (sm_parent sm) (sm_parent_epoch sm) Marker.Deletion (sm_retention sm).
Definition spot (h : head_entry) : Scope * Version := (h.1.1, sid_version h.1.2).

Lemma purge_ok sp sm k (t : @Transaction S) : serialises -> meta_valid sm -> tx_ok t -> sync_point_valid sp -> encode sp = Ok k ->
  exists s', (_ ← delete_chunk sp; mark_syncpoint_purged sp sm) t = (Ok tt, set_store t s') /\ store_ok s'
    /\ without [(sp_scope sp, sp_ts sp)] (tx_store t) s'
    /\ sync_at s' sp (purged sm)
    /\ forall sp' sm', sp' <> sp -> sync_at s' sp' sm' <-> sync_at (tx_store t) sp' sm'.
Proof.
  intros Hser Hm Ht Hsp Hk. destruct (delete_chunk_ok sp k t Ht Hsp Hk) as (s1 & Hd & Hok & Hf & Hw).
  destruct (Hser (purged sm)) as (v & Hv); [exact Hm|]. pose proof (sync_point_foreign sp k Hk) as Hfk.
  exists (kv_insert s1 k v). split; [|split; [by eapply store_ok_insert_sync|split; [by apply without_foreign|split]]].
  - unfold mbind, TX_bind. rewrite Hd. unfold mark_syncpoint_purged. rewrite (insert_ok sp _ k v) by done. done.
  - split; [done|]. exists k, v. split; [done|]. rewrite kv_get_insert, decide_True by done.
    split; [done|]. by apply from_to.
  - intros sp' sm' Hne. rewrite sync_at_insert by done. by apply sync_at_foreign.
Qed.

(** [s'] is [s] with the heads in [gone] purged: their versions say nothing and
    their sync points are deletion markers; all else is as it was. *)
Record purged_from (gone : list head_entry) s s' : Prop := mkPurgedFrom {
  pf_ok : store_ok s';
  pf_without : without (map spot gone) s s';
  pf_purged : forall h, h ∈ gone -> sync_at s' (head_point h) (purged h.2);
  pf_rest : forall sp sm, (forall h, h ∈ gone -> sp <> head_point h) -> sync_at s' sp sm <-> sync_at s sp sm;
}.

Lemma purged_nil s : store_ok s -> purged_from [] s s.
Proof. intros Hs. split; [done|apply without_nil|by intros h ?%elem_of_nil|done]. Qed.

Lemma head_point_spot h h' : head_point h = head_point h' -> spot h = spot h'.
Proof. intros E. exact (f_equal (fun p => (sp_scope p, sp_ts p)) E). Qed.

Lemma purged_trans g g' s1 s2 s3 : NoDup (map spot (g ++ g')) ->
  purged_from g s1 s2 -> purged_from g' s2 s3 -> purged_from (g ++ g') s1 s3.
Proof.
  intros Hnd [O1 W1 P1 R1] [O2 W2 P2 R2]. rewrite map_app in Hnd. apply NoDup_app in Hnd as (_ & Hd & _). split.
  - done.
  - rewrite map_app. by eapply without_trans.
  - intros h [Hh|Hh]%elem_of_app; [|by apply P2]. apply R2; [|by apply P1]. intros h' Hh' E%head_point_spot.
    apply (Hd (spot h)); [by apply list_elem_of_fmap_2|]. rewrite E. by apply list_elem_of_fmap_2.
  - intros sp sm Hn. rewrite R2, R1; [done| |]; intros h Hh; apply Hn, elem_of_app; tauto.
Qed.

Definition heads_in s (batch : list head_entry) : Prop :=
  Forall (fun h => sync_at s (head_point h) h.2) batch /\ NoDup (map spot batch).

Lemma heads_in_after g l s s' : purged_from g s s' -> heads_in s (g ++ l) -> heads_in s' l.
Proof.
  intros [_ _ _ R] [Hall Hnd]. rewrite map_app in Hnd. apply NoDup_app in Hnd as (_ & Hd & Hnd). split; [|done].
  apply Forall_forall. intros h Hh. rewrite Forall_app, !Forall_forall in Hall. apply R; [|by apply Hall].
  intros h' Hh' E%head_point_spot. apply (Hd (spot h')); [by apply list_elem_of_fmap_2|].
  rewrite <- E. by apply list_elem_of_fmap_2.
Qed.

Section Run.
Context (Hser : serialises) (Htyped : typed).

Lemma gc_step h (t : @Transaction S) : tx_ok t -> sync_at (tx_store t) (head_point h) h.2 ->
  exists s', (_ ← delete_chunk (head_point h); mark_syncpoint_purged (head_point h) h.2) t = (Ok tt, set_store t s')
    /\ purged_from [h] (tx_store t) s'.
Proof.
  intros Ht Hat. pose proof Hat as (Hv & k & v & Hk & _ & Hb).
  destruct (purge_ok (head_point h) h.2 k t Hser (Htyped _ _ Hb) Ht Hv Hk) as (s' & E & Hok & Hw & Hp & Hr).
  exists s'. split; [done|]. split; [done| | |].
  - destruct h as [[sc [[e x] n]] sm]. exact Hw.
  - by intros h' ->%list_elem_of_singleton.
  - intros sp sm Hne. apply Hr, Hne. by apply list_elem_of_singleton.
Qed.

Lemma gc_batch_ok batch n (t : @Transaction S) : tx_ok t -> heads_in (tx_store t) batch ->
  exists s', gc_batch batch n t = (Ok (n + length batch)%nat, set_store t s') /\ purged_from batch (tx_store t) s'.
Proof.
  revert n t; induction batch as [|h batch IH]; intros n t Ht Hin.
  - exists (tx_store t). rewrite set_store_same, Nat.add_0_r. split; [done|]. by apply purged_nil, Ht.
  - pose proof Hin as [Hall Hnd]. inversion_clear Hall as [|?? Hat _].
    destruct (gc_step h t Ht Hat) as (s1 & E & Hp).
    destruct (IH (Datatypes.S n) (set_store t s1)) as (s2 & E2 & Hp2).
    + by apply tx_ok_store, (pf_ok _ _ _ Hp).
    + by apply (heads_in_after [h] batch (tx_store t)).
    + exists s2. split; [|by apply (purged_trans [h] batch (tx_store t) s1)].
      destruct h as [[sc id] sm]. cbn [gc_batch length]. unfold act.
      unfold mbind, TX_bind in E. change (head_point (sc, id, sm)) with (with_sp_id sc id) in E. cbn [snd] in E.
      destruct (delete_chunk (with_sp_id sc id) t) as [[[]|e] t1]; [|done].
      unfold mbind, TX_bind. rewrite E, E2. f_equal. f_equal. lia.
Qed.

(** ** Transactions of the store *)

Lemma begin_local_ok (env : Env) (st : Store) s ret : env_accepts env -> st_backend st = Some s ->
  begin_local ret env st = (Ok (mkTx s (new_timestamp env (st_calls st)) (node_id env) [] ret), called st).
Proof. intros He Hb. unfold begin_local. by rewrite Hb, (ea_begin _ He). Qed.

(** A transaction that wrote to no scope commits its rows and no sync point. *)
Lemma commit_tx_plain (env : Env) (st : Store) (t : @Transaction S) : env_accepts env -> active_scopes t = [] ->
  commit_tx t env st = (Ok tt, called (set_backend st (Some (tx_store t)))).
Proof. intros He Ha. unfold commit_tx, commit. by rewrite Ha, (ea_commit _ He). Qed.

Lemma begin_tx_ok (env : Env) s n ret : env_ok env -> store_ok s ->
  tx_ok (mkTx s (new_timestamp env n) (node_id env) [] ret).
Proof. intros [Hts Hn] Hs. by split; [|apply Hts| |constructor]. Qed.

Lemma gc_batches_ok (env : Env) batches n (st : Store) s : env_ok env -> env_accepts env ->
  st_backend st = Some s -> store_ok s -> heads_in s (concat batches) ->
  exists st' s', gc_batches batches n env st = (Ok (n + length (concat batches))%nat, st')
    /\ st_backend st' = Some s' /\ purged_from (concat batches) s s'.
Proof.
  intros He Hacc. revert n st s; induction batches as [|batch batches IH]; intros n st s Hb Hs Hin.
  - exists st, s. cbn [concat length]. rewrite Nat.add_0_r. split; [done|]. split; [done|]. by apply purged_nil.
  - cbn [concat gc_batches] in *. unfold mbind, SM_bind. rewrite (begin_local_ok _ _ s) by done.
    set (t := mkTx s _ _ _ _).
    destruct (gc_batch_ok batch 0 t) as (s1 & E & Hp).
    { by apply begin_tx_ok. }
    { destruct Hin as [Hall Hnd]. rewrite Forall_app in Hall. rewrite map_app in Hnd. apply NoDup_app in Hnd.
      split; [apply Hall|apply Hnd]. }
    unfold within. rewrite E. unfold attempt. cbn [snd fst].
    rewrite (commit_tx_plain _ _ (set_store t s1)) by done.
    destruct (IH (n + length batch)%nat (called (set_backend (called st) (Some (tx_store (set_store t s1))))) s1)
      as (st' & s' & E' & Hb' & Hp'); [done|apply Hp|by apply (heads_in_after batch _ s)|].
    exists st', s'. rewrite Nat.add_0_l, E'. split; [f_equal; f_equal; rewrite length_app; lia|]. split; [done|].
    apply (purged_trans _ _ s s1); [apply Hin|done|done].
Qed.

Lemma foldM_filter {A} (f : A -> bool) (l acc : list A) :
  foldM (E := tx_error) (fun acc x => Ok (if f x then acc ++ [x] else acc)) l acc = Ok (acc ++ List.filter f l).
Proof.
  revert acc; induction l as [|x l IH]; intros acc; [by rewrite app_nil_r|]. cbn [foldM List.filter].
  unfold mbind, res_bind. rewrite IH. destruct (f x); [by rewrite <- app_assoc|done].
Qed.

Lemma sync_range_all : exists lo hi, partial_range "sync_point" (selection_vals Everything) = Ok (lo, hi).
Proof. eexists _, _. vm_compute. reflexivity. Qed.

Lemma gc_heads_ok (env : Env) now s : store_ok s ->
  exists heads, latest_heads s Everything heads /\ gc_heads env now s = Ok (List.filter (gc_expired env now) heads).
Proof.
  intros Hs. destruct sync_range_all as (lo & hi & Hr). unfold gc_heads. cbn [selection_vals] in Hr. rewrite Hr.
  destruct (collect_selected s Everything lo hi Hs I Hr) as (heads & Hh & Hc). exists heads. split; [done|].
  unfold lift, map_err, mbind, res_bind. cbn [fst snd]. rewrite Hc. apply (foldM_filter (gc_expired env now) heads []).
Qed.

Lemma filter_spots_nodup (f : head_entry -> bool) l : NoDup (map spot l) -> NoDup (map spot (List.filter f l)).
Proof.
  induction l as [|h l IH]; [done|]. cbn [map List.filter]. rewrite NoDup_cons. intros [Hn Hnd].
  destruct (f h); [|by apply IH]. cbn [map]. apply NoDup_cons. split; [|by apply IH].
  intros Hin. apply Hn. apply list_elem_of_fmap in Hin as (y & -> & Hy). apply list_elem_of_fmap_2.
  by apply elem_of_filterb in Hy as [? _].
Qed.

(** C19. Garbage collection purges exactly what has expired, if the engine accepts what
    it is given: for every scope and version
    whose latest sync point is a mutation past its retention, the version says
    nothing of any key any more and the sync point stays as a deletion marker;
    every other version and sync point is untouched, and the number of purged
    sync points is reported. *)
Theorem gc_purges_expired (env : Env) (st : Store) (s : S) (He : env_ok env) (Hacc : env_accepts env)
    (Hb : st_backend st = Some s) (Hs : store_ok s) :
  let now := new_timestamp env (st_calls st) in
  exists gone st' s', perform_gc env st = (Ok (length gone), st') /\ st_backend st' = Some s'
    /\ NoDup (map spot gone)
    /\ (forall h, h ∈ gone <-> gc_expired env now h = true /\ sync_at s (head_point h) h.2
          /\ forall sp sm, sync_at s sp sm -> sp_scope sp = h.1.1 -> sp_ts sp = sid_version h.1.2 ->
               sp_cmp sp (head_point h) <> Gt)
    /\ purged_from gone s s'.
Proof.
  intros now. destruct (gc_heads_ok env now s Hs) as (heads & [Hnd Hel _] & Hg).
  set (gone := List.filter (gc_expired env now) heads) in *. exists gone.
  assert (forall h, h ∈ gone <-> gc_expired env now h = true /\ h ∈ heads) as Hgone
    by (intros h; unfold gone; rewrite elem_of_filterb; tauto).
  assert (NoDup (map spot gone)) as Hnd' by (by apply filter_spots_nodup).
  assert (heads_in s gone) as Hin.
  { split; [|done]. apply Forall_forall. intros h [_ Hh]%Hgone. by apply Hel in Hh as (_ & ? & _). }
  assert (exists st' s', perform_gc env st = (Ok (length gone), st') /\ st_backend st' = Some s'
    /\ purged_from gone s s') as (st' & s' & E & Hb' & Hp).
  { unfold perform_gc, mbind, SM_bind. rewrite (begin_local_ok _ _ s) by done. unfold prim. cbn [tx_ts tx_store].
    fold now. rewrite Hg. destruct gone as [|h0 gone'] eqn:Eg.
    - exists (called st), s. split; [done|]. split; [done|]. by apply purged_nil.
    - rewrite <- Eg in *. rewrite <- (chunks_concat GC_BATCH gone) in Hin by (unfold GC_BATCH; lia).
      destruct (gc_batches_ok env (chunks GC_BATCH gone) 0 (called st) s He Hacc Hb Hs Hin) as (st' & s' & E & Hb' & Hp).
      rewrite (chunks_concat GC_BATCH gone) in E, Hp by (unfold GC_BATCH; lia). by exists st', s'. }
  exists st', s'. split; [done|]. split; [done|]. split; [done|]. split; [|done].
  intros h. rewrite Hgone, Hel. cbn [selects]. naive_solver.
Qed.
End Run.

(** ** Release *)

(** [s'] is [s] without the versions of the points, and without the points. *)
Record released_from (sc : Scope) (points : list SyncPointId) s s' : Prop := mkReleasedFrom {
  rf_ok : store_ok s';
  rf_without : without (map (fun id => (sc, sid_version id)) points) s s';
  rf_sync : forall sp sm, sync_at s' sp sm <-> sync_at s sp sm /\ ~ (sp_scope sp = sc /\ as_id sp ∈ points);
}.

Lemma released_nil sc s : store_ok s -> released_from sc [] s s.
Proof. intros Hs. split; [done|apply without_nil|]. intros sp sm. rewrite elem_of_nil. tauto. Qed.

Lemma released_trans sc p p' s1 s2 s3 :
  released_from sc p s1 s2 -> released_from sc p' s2 s3 -> released_from sc (p ++ p') s1 s3.
Proof.
  intros [O1 W1 R1] [O2 W2 R2]. split; [done|rewrite map_app; by eapply without_trans|].
  intros sp sm. rewrite R2, R1, elem_of_app. tauto.
Qed.

Lemma sync_at_remove s sp k sp' sm' :
  sync_point_valid sp -> encode sp = Ok k -> sync_at (kv_remove s k) sp' sm' <-> sync_at s sp' sm' /\ sp' <> sp.
Proof.
  intros Hv Hk. unfold sync_at. split.
  - intros (Hv' & k' & v & Hk' & Hg & Hb). rewrite kv_get_remove in Hg. destruct (decide (k = k')) as [|Hne]; [done|].
    split; [split; [done|eauto]|]. intros ->. rewrite Hk in Hk'. by apply Ok_inj in Hk'.
  - intros ((Hv' & k' & v & Hk' & Hg & Hb) & Hne). split; [done|]. exists k', v. split; [done|].
    rewrite kv_get_remove_ne; [done|]. intros <-. apply Hne. by eapply sync_point_encode_inj.
Qed.

Definition points_ok (sc : Scope) (points : list SyncPointId) : Prop :=
  Forall (fun id => sync_point_valid (with_sp_id sc id)) points.

Lemma with_sp_id_as_id sc sp id : sp = with_sp_id sc id <-> sp_scope sp = sc /\ as_id sp = id.
Proof.
  destruct sp as [sc' v e n], id as [[e' v'] n']. unfold with_sp_id, as_id, sid_version, sid_epoch, sid_node.
  cbn. split; [by intros [= -> -> -> ->]|]. by intros [-> [= -> -> ->]].
Qed.

Lemma forget_chunk_ok sc raw id (t : @Transaction S) :
  tx_ok t -> sync_point_valid (with_sp_id sc id) -> encode sc = Ok raw ->
  exists s', forget_chunk (with_sp_id sc id) t = (Ok tt, set_store t s') /\ released_from sc [id] (tx_store t) s'.
Proof.
  intros Ht Hv Hraw. destruct (sync_point_encode_total (with_sp_id sc id) raw Hraw) as (k & Hk).
  destruct (delete_chunk_ok _ k t Ht Hv Hk) as (s1 & Hd & Hok & Hf & Hw). pose proof (sync_point_foreign _ k Hk) as Hfk.
  exists (kv_remove s1 k). split.
  - unfold forget_chunk, mbind, TX_bind, key_bytes, txres. rewrite Hk. cbn [lift map_err]. by rewrite Hd.
  - split; [by apply store_ok_remove_foreign|by apply without_foreign|]. intros sp sm.
    rewrite (sync_at_remove s1 _ k) by done. rewrite (sync_at_foreign (tx_store t) s1) by done.
    rewrite with_sp_id_as_id, list_elem_of_singleton. done.
Qed.

Lemma release_batch_ok sc raw batch n (t : @Transaction S) : tx_ok t -> points_ok sc batch -> encode sc = Ok raw ->
  exists s', release_batch sc batch n t = (Ok (n + length batch)%nat, set_store t s')
    /\ released_from sc batch (tx_store t) s'.
Proof.
  intros Ht Hall Hraw. revert n t Ht; induction Hall as [|id batch Hv _ IH]; intros n t Ht.
  - exists (tx_store t). rewrite set_store_same, Nat.add_0_r. split; [done|]. by apply released_nil, Ht.
  - destruct (forget_chunk_ok sc raw id t Ht Hv Hraw) as (s1 & E & H1).
    destruct (IH (Datatypes.S n) (set_store t s1)) as (s2 & E2 & H2); [by apply tx_ok_store, (rf_ok _ _ _ _ H1)|].
    exists s2. split; [|by apply (released_trans sc [id] batch _ s1)].
    cbn [release_batch length]. unfold act. rewrite E, E2. f_equal. f_equal. lia.
Qed.

Lemma release_batches_ok (env : Env) sc raw batches n (st : Store) s : env_ok env -> env_accepts env ->
  st_backend st = Some s -> store_ok s -> points_ok sc (concat batches) -> encode sc = Ok raw ->
  exists st' s', release_batches sc batches n env st = (Ok (n + length (concat batches))%nat, st')
    /\ st_backend st' = Some s' /\ released_from sc (concat batches) s s'.
Proof.
  intros He Hacc Hb Hs Hin Hraw. revert n st s Hb Hs Hin; induction batches as [|batch batches IH]; intros n st s Hb Hs Hin.
  - exists st, s. cbn [concat length]. rewrite Nat.add_0_r. split; [done|]. split; [done|]. by apply released_nil.
  - cbn [concat release_batches] in *. unfold mbind, SM_bind. rewrite (begin_local_ok _ _ s) by done.
    set (t := mkTx s _ _ _ _). apply Forall_app in Hin as [Hin1 Hin2].
    destruct (release_batch_ok sc raw batch 0 t) as (s1 & E & Hp); [by apply begin_tx_ok|done|done|].
    unfold within. rewrite E. unfold attempt. cbn [snd fst].
    rewrite (commit_tx_plain _ _ (set_store t s1)) by done.
    destruct (IH (n + length batch)%nat (called (set_backend (called st) (Some (tx_store (set_store t s1))))) s1)
      as (st' & s' & E' & Hb' & Hp'); [done|apply Hp|done|].
    exists st', s'. rewrite Nat.add_0_l, E'. split; [f_equal; f_equal; rewrite length_app; lia|]. split; [done|].
    by apply (released_trans _ _ _ s s1).
Qed.

(** What [release_scope] lets go of. *)
Lemma release_scope_ok (env : Env) sc raw points (st : Store) s : env_ok env -> env_accepts env ->
  st_backend st = Some s -> store_ok s -> points_ok sc points -> encode sc = Ok raw ->
  exists st' s', release_scope sc points env st = (Ok (length points), st')
    /\ st_backend st' = Some s' /\ released_from sc points s s'.
Proof.
  intros He Hacc Hb Hs Hin Hraw. unfold release_scope. destruct points as [|id rest] eqn:Ep.
  - exists st, s. split; [done|]. split; [done|]. by apply released_nil.
  - rewrite <- Ep in *. rewrite <- (chunks_concat RELEASE_BATCH points) in Hin by (unfold RELEASE_BATCH; lia).
    destruct (release_batches_ok env sc raw (chunks RELEASE_BATCH points) 0 st s He Hacc Hb Hs Hin Hraw)
      as (st' & s' & E & Hb' & Hp).
    rewrite (chunks_concat RELEASE_BATCH points) in E, Hp by (unfold RELEASE_BATCH; lia). by exists st', s'.
Qed.
End Gc.

(** ** Examples *)

Import Sample.

Definition sample_env : Env :=
  mkEnv (fun n => 100 + Z.of_nat (n mod 1000)) Sample.me (fun n => Z.of_nat n * 10 ^ 9) (fun _ => true)
    (fun _ => Committed) (fun _ => false) Z.of_nat (fun now ts => now - ts).

Lemma sample_env_ok : env_ok sample_env.
Proof.
  split; [|reflexivity]. intros n. cbn [new_timestamp sample_env]. unfold is_u64.
  pose proof (Nat.mod_upper_bound n 1000). lia.
Qed.
Lemma sample_env_accepts : env_accepts sample_env.
Proof. by split. Qed.

Definition retained (r : Z) : SyncMeta := mkSyncMeta None None Marker.Mutation (Some r).
Definition sample_gc : list tx_op :=
  [OpChangeset (mkSyncPoint Sample.scope 9 9 Sample.me) (retained 5) [(key_a_bytes, Some [x2a])];
   OpChangeset (mkSyncPoint Sample.scope 95 95 Sample.me) (retained 50) [(key_a_bytes, Some [x2b])]].
Definition sample_gc_store : MapKv.store := tx_store (run_ops sample_sha sample_gc (Sample.tx Sample.empty_store 9)).

Lemma sample_point_valid v e : is_u64 v -> is_u64 e -> sync_point_valid (mkSyncPoint Sample.scope v e Sample.me).
Proof. intros Hv He. repeat split; try apply He; try apply Hv; vm_compute; reflexivity. Qed.

Lemma sample_gc_ok : store_ok sample_gc_store.
Proof.
  apply to_store, run_ops_ok; [apply sample_sha_length| |apply empty_ok; unfold is_u64; lia].
  apply Forall_cons; split; [|apply Forall_singleton];
    (split; [apply sample_point_valid; unfold is_u64; lia|apply key_a_entry]).
Qed.

Definition sample_store (s : MapKv.store) : Store := mkStore (Some s) [] [] [] [] [] 0.

Lemma gc_purges_expired_witness :
  exists gone st' s', perform_gc sample_env (sample_store sample_gc_store) = (Ok (length gone), st')
    /\ st_backend st' = Some s' /\ purged_from gone sample_gc_store s'.
Proof.
  destruct (gc_purges_expired sample_serialises sample_typed sample_env (sample_store sample_gc_store) sample_gc_store
    sample_env_ok sample_env_accepts eq_refl sample_gc_ok) as (gone & st' & s' & H1 & H2 & _ & _ & H3).
  exists gone, st', s'. split; [exact H1|]. split; [exact H2|exact H3].
Defined.

Example gc_runs : (perform_gc sample_env (sample_store sample_gc_store)).1 = Ok 1%nat.
Proof. vm_compute. reflexivity. Qed.
