(* ===== verification/Refine.v ===== *)
(** * The store as a log of writes

    An abstract specification of the key and table operations: a log of
    versioned writes to which a transaction adds its own writes, all or none;
    a read returns the value of the greatest version.  The transactions of the
    store implement it. *)

From S2P Require Import Prelude Bytes Skey SkeyRoundtrip SkeyOrder Keys KeyScan Domain Kv Rows RowsFacts Changeset Scans Tx Sample TxKeys TxInv TxReads TxScans TxListings TxSync TxOrder Announce Store StoreGc.
From Stdlib Require Import ZArith Lia Strings.Byte.
From stdpp Require Import base list option strings sets.

Local Open Scope Z_scope.

(** ** The specification *)

(** What is written to: a key, or a row of a table. *)
Inductive item := IKey (k : UserKey) | IRow (tb : Table) (id : bytes).

#[export] Instance UserKey_eq_dec : EqDecision UserKey.
Proof. solve_decision. Defined.
#[export] Instance Table_eq_dec : EqDecision Table.
Proof. solve_decision. Defined.
#[export] Instance item_eq_dec : EqDecision item.
Proof. solve_decision. Defined.

Inductive client_op := Put (i : item) (v : bytes) | Del (i : item) | Get (i : item).

Module Spec.
(** The writes, newest first. *)
Definition log : Type := list (item * Version * option bytes).

(** What was last written at a version. *)
Fixpoint lookup (l : log) (i : item) (ts : Version) : option (option bytes) :=
  match l with
  | [] => None
  | (i', ts', o) :: l => if decide (i = i' /\ ts = ts') then Some o else lookup l i ts
  end.

(** The greatest version that was written. *)
Fixpoint latest (l : log) (i : item) : option Version :=
  match l with
  | [] => None
  | (i', ts, _) :: l => if decide (i = i') then Some (match latest l i with Some t => Z.max t ts | None => ts end) else latest l i
  end.

Definition read (l : log) (i : item) : option bytes :=
  match latest l i with Some ts => default None (lookup l i ts) | None => None end.

(** A transaction at a version: its results, and the log after it. *)
Fixpoint run (ts : Version) (ops : list client_op) (l : log) : list (option bytes) * log :=
  match ops with
  | [] => ([], l)
  | Put i v :: ops => let '(outs, l) := run ts ops ((i, ts, Some v) :: l) in (None :: outs, l)
  | Del i :: ops => let '(outs, l) := run ts ops ((i, ts, None) :: l) in (None :: outs, l)
  | Get i :: ops => let '(outs, l') := run ts ops l in (read l i :: outs, l')
  end.

(** Transactions one after the other; one that is not decided for has no effect. *)
Fixpoint session (decisions : list (option Version)) (txs : list (list client_op)) (l : log)
  : list (option (list (option bytes))) * log :=
  match decisions, txs with
  | Some ts :: ds, ops :: txs =>
      let '(outs, l) := run ts ops l in let '(rest, l) := session ds txs l in (Some outs :: rest, l)
  | None :: ds, _ :: txs => let '(rest, l) := session ds txs l in (None :: rest, l)
  | _, _ => ([], l)
  end.
End Spec.

Section Refine.
Context {S : Type} {kvS : Kv S} {kvLaws : KvLaws S}
  {pcMeta : Postcard SyncMeta} {pcMetaLaws : PostcardLaws SyncMeta}
  {pcBody : Postcard MeasurementBody}.
Implicit Types s : S.

(** ** Clients of the store *)

Definition client_step (o : client_op) : @TX S (option bytes) :=
  match o with
  | Put (IKey k) v => _ ← key_put k v; mret None
  | Put (IRow tb id) v => _ ← tb_insert tb id v; mret None
  | Del (IKey k) => _ ← key_delete k; mret None
  | Del (IRow tb id) => _ ← tb_delete tb id; mret None
  | Get (IKey k) => key_get k
  | Get (IRow tb id) => tb_get tb id
  end.

Fixpoint client_steps (ops : list client_op) : @TX S (list (option bytes)) :=
  match ops with
  | [] => mret []
  | o :: ops => x ← client_step o; xs ← client_steps ops; mret (x :: xs)
  end.

(** A transaction of a client: its results if it commits. *)
Definition client_tx (ops : list client_op) : SM (S := S) (option (list (option bytes))) :=
  r ← attempt (tx ← begin_local None; r ← within (client_steps ops) tx; _ ← commit_tx r.2; mret r.1);
  mret (match r with Ok outs => Some outs | Err _ => None end).

Fixpoint client_session (txs : list (list client_op)) : SM (S := S) (list (option (list (option bytes)))) :=
  match txs with
  | [] => mret []
  | ops :: txs => out ← client_tx ops; outs ← client_session txs; mret (out :: outs)
  end.

(** ** Items *)

Definition item_bytes (i : item) : res key_error bytes :=
  match i with IKey k => encode k | IRow tb id => encode (mkEntity tb id) end.
Definition item_scope (i : item) : Scope := match i with IKey k => uk_scope k | IRow tb _ => tb_scope tb end.
Definition item_ok (i : item) : Prop :=
  match i with IKey k => user_key_valid k | IRow tb id => table_valid tb /\ id_valid id end
  /\ is_ok (item_bytes i) = true.
Definition op_item (o : client_op) : item := match o with Put i _ | Del i | Get i => i end.

Lemma item_stored i e : item_ok i -> item_bytes i = Ok e -> stored (item_scope i) e.
Proof.
  intros [Hv _]. destruct i as [k|tb id]; cbn; intros He; [by apply user_key_stored|].
  apply (entity_stored (mkEntity tb id) e); [|done]. by destruct Hv.
Qed.

Lemma entity_inj k k' e : entity_valid k -> entity_valid k' -> encode k = Ok e -> encode k' = Ok e -> k = k'.
Proof.
  intros [[Hp1 Hp2] Hp3] [[Hq1 Hq2] Hq3] He He'.
  pose proof (generated_reads _ _ k e [] entity_shape_ok (conj Hp1 (conj Hp2 Hp3)) He) as H1.
  rewrite (generated_reads _ _ k' e [] entity_shape_ok (conj Hq1 (conj Hq2 Hq3)) He') in H1. congruence.
Qed.

(** Keys and rows are told apart by the letters after their scope. *)
Lemma key_row_ne k tb id e : user_key_valid k -> table_valid tb -> encode k = Ok e -> encode (mkEntity tb id) = Ok e -> False.
Proof.
  intros Hk Ht He He'. pose proof (user_key_scoped k e (proj1 Hk) He) as Hs.
  change (encode k) with (encode_steps (scope_segs ++ drop 7 (segs "kv")) (scope_vals (uk_scope k) ++ [vstr (uk_key k)])) in He.
  change (encode (mkEntity tb id)) with
    (encode_steps (scope_segs ++ drop 7 (segs "table")) (scope_vals (tb_scope tb) ++ [vstr (tb_name tb); vbytes id])) in He'.
  apply encode_steps_app in He as (a & b & Ha & Hb & ->); [|done].
  apply encode_steps_app in He' as (a' & b' & Ha' & Hb' & E); [|done].
  assert (uk_scope k = tb_scope tb) as Esc.
  { apply (scoped_starts (uk_scope k) (a ++ b) (tb_scope tb) a' Hs (proj1 Ht) Ha'). rewrite E. apply starts_with_app. }
  rewrite Esc, Ha' in Ha. apply Ok_inj in Ha as ->. apply app_inv_head in E as ->.
  apply (encode_literal_region x6b) in Hb. apply (encode_literal_region x74) in Hb'.
  by apply (region_ne _ _ _ _ Hb Hb').
Qed.

Lemma item_inj i j e : item_ok i -> item_ok j -> item_bytes i = Ok e -> item_bytes j = Ok e -> i = j.
Proof.
  intros [Hi _] [Hj _]. destruct i as [k|tb id], j as [k'|tb' id']; cbn; intros He He'.
  - f_equal. by eapply user_key_inj.
  - destruct Hj. by exfalso; eapply (key_row_ne k tb' id').
  - destruct Hi. by exfalso; eapply (key_row_ne k' tb id).
  - destruct Hi, Hj. assert (mkEntity tb id = mkEntity tb' id') as [= -> ->] by (by eapply entity_inj). done.
Qed.

(** ** The relation *)

(** Every version of every item says in the store what the log says. *)
Record refines (l : Spec.log) s : Prop := mkRefines {
  rf_versions : Forall (fun w => is_u64 w.1.2) l;
  rf_lookup : forall i e ts, item_ok i -> item_bytes i = Ok e -> is_u64 ts -> verdict s e ts = Spec.lookup l i ts;
}.

Lemma spec_latest l i : Forall (fun w => is_u64 w.1.2) l ->
  match Spec.latest l i with
  | Some t => is_u64 t /\ (exists o, Spec.lookup l i t = Some o) /\ forall t', t < t' -> Spec.lookup l i t' = None
  | None => forall t', Spec.lookup l i t' = None
  end.
Proof.
  induction 1 as [|[[j ts] o] l Hts _ IH]; [done|]. cbn [Spec.latest Spec.lookup fst snd] in *.
  destruct (decide (i = j)) as [->|Hne].
  - destruct (Spec.latest l j) as [t|].
    + destruct IH as (Ht & (o' & Ho) & Hmax). split; [by destruct (Z.max_spec t ts) as [[_ ->]|[_ ->]]|]. split.
      * destruct (Z.max_spec t ts) as [[Hlt ->]|[Hle ->]]; [exists o; by rewrite decide_True|].
        destruct (decide (j = j /\ t = ts)); eauto.
      * intros t' Hlt. rewrite decide_False by lia. apply Hmax. lia.
    + split; [done|]. split; [exists o; by rewrite decide_True|]. intros t' Hlt. rewrite decide_False by lia. apply IH.
  - assert (forall t', ~ (i = j /\ t' = ts)) as Hn by (intros t' [? _]; done).
    destruct (Spec.latest l i) as [t|].
    + destruct IH as (Ht & (o' & Ho) & Hmax). split; [done|]. split; [exists o'; by rewrite decide_False|].
      intros t' Hlt. rewrite decide_False by done. by apply Hmax.
    + intros t'. rewrite decide_False by done. apply IH.
Qed.

(** A read of the store is a read of the log. *)
Lemma read_refines l s i e : refines l s -> store_ok s -> item_ok i -> item_bytes i = Ok e ->
  value_of s e = Ok (Spec.read l i).
Proof.
  intros [Hv Hl] Hs Hi He. pose proof (item_stored i e Hi He) as [Hsc _].
  pose proof (store_decodable s (item_scope i) e Hs Hsc) as Hd. unfold Spec.read.
  pose proof (spec_latest l i Hv) as Hlat. destruct (Spec.latest l i) as [t|].
  - destruct Hlat as (Ht & (o & Ho) & Hmax). rewrite Ho. cbn [default]. apply (value_of_newest s e t o Hd).
    split; [done|]. split; [unfold is_u64, u64_max in *; lia|]. split; [by rewrite (Hl i)|].
    intros t' Ht' Hlt. rewrite (Hl i) by done. apply Hmax. lia.
  - unfold value_of. destruct (get_from_spec s e u64_max Hd) as [(t & o & (Ht & _ & Hver & _) & _)|[_ ->]]; [|done].
    rewrite (Hl i) in Hver by done. by rewrite Hlat in Hver.
Qed.

(** A write adds to the log. *)
Lemma write_refines l s s' i e ts o : refines l s -> item_ok i -> item_bytes i = Ok e -> is_u64 ts ->
  decided s s' e ts o -> refines ((i, ts, o) :: l) s'.
Proof.
  intros [Hv Hl] Hi He Hts Hd. split; [by constructor|]. intros j e' ts' Hj He' Hts'. cbn [Spec.lookup].
  pose proof (item_stored j e' Hj He') as Hst. rewrite Hd by (done || by eapply stored_region).
  destruct (decide (e = e' /\ ts = ts')) as [[-> ->]|Hne].
  - rewrite decide_True; [done|]. split; [|done]. by eapply item_inj.
  - rewrite decide_False; [by apply Hl|]. intros [-> ->]. apply Hne. split; [|done]. rewrite He in He'. by apply Ok_inj in He'.
Qed.

(** ** Operations *)

Record client_ok (ts : Version) (l : Spec.log) (t : @Transaction S) : Prop := mkClientOk {
  co_tx : tx_ok t;
  co_refines : refines l (tx_store t);
  co_ts : tx_ts t = ts;
  co_scopes : NoDup (active_scopes t) /\ Forall (fun sc => is_ok (encode sc) = true) (active_scopes t);
  co_retention : tx_retention t = None;
}.

(** The transaction after a write of an item. *)
Definition written (i : item) (s' : S) (t : @Transaction S) : Transaction := set_store (with_scope (item_scope i) t) s'.

Lemma item_scope_ok i e : item_ok i -> item_bytes i = Ok e -> scope_valid (item_scope i) /\ exists raw, encode (item_scope i) = Ok raw.
Proof. intros Hi He. destruct (item_stored i e Hi He) as [(Hv & raw & tail & Hr & _) _]. eauto. Qed.

Lemma written_ok ts l t i e s' o : client_ok ts l t -> item_ok i -> item_bytes i = Ok e ->
  decided (tx_store t) s' e (tx_ts t) o -> store_ok s' -> client_ok ts ((i, ts, o) :: l) (written i s' t).
Proof.
  intros [Ht Hr Hts [Hnd Henc] Hret] Hi He Hd Hs'. destruct (item_scope_ok i e Hi He) as (Hv & raw & Hraw).
  pose proof (to_ts _ Ht) as Hu. split; [|by subst ts; eapply write_refines|done| |done].
  - destruct Ht as [H1 H2 H3 H4]. split; [done..|]. cbn. case_bool_decide; [done|]. apply Forall_app. split; [done|by constructor].
  - cbn. case_bool_decide as Hin; [done|]. split.
    + apply NoDup_app. split; [done|]. split; [|apply NoDup_singleton]. by intros x Hx ->%list_elem_of_singleton.
    + apply Forall_app. split; [done|]. constructor; [|constructor]. change (is_ok (encode (item_scope i)) = true). by rewrite Hraw.
Qed.

Lemma put_step i e v t : item_ok i -> item_bytes i = Ok e ->
  client_step (Put i v) t = (Ok None, written i (put_at_raw (tx_store t) e v (tx_ts t)) t).
Proof.
  intros Hi He. destruct (item_scope_ok i e Hi He) as (_ & raw & Hraw). destruct i as [k|tb id]; cbn [client_step item_bytes] in *.
  - rewrite (tx_bind_ok _ _ _ _ _ (key_put_ok k e v t (proj1 Hi) He)). done.
  - unfold tb_insert. unfold mbind, TX_bind. rewrite (write_scope_ok (tb_scope tb) raw t Hraw). by rewrite (put_at_ok _ e v) by done.
Qed.

Lemma del_step i e t : item_ok i -> item_bytes i = Ok e ->
  client_step (Del i) t = (Ok None, written i (erase_at_raw (tx_store t) e (tx_ts t)) t).
Proof.
  intros Hi He. destruct (item_scope_ok i e Hi He) as (_ & raw & Hraw). destruct i as [k|tb id]; cbn [client_step item_bytes] in *.
  - rewrite (tx_bind_ok _ _ _ _ _ (key_delete_ok k e t (proj1 Hi) He)). done.
  - unfold tb_delete. unfold mbind, TX_bind. rewrite (write_scope_ok (tb_scope tb) raw t Hraw). by rewrite (erase_at_ok _ e) by done.
Qed.

Lemma get_step i e t : item_ok i -> item_bytes i = Ok e -> client_step (Get i) t = (value_of (tx_store t) e, t).
Proof.
  intros Hi He. destruct i as [k|tb id]; cbn [client_step item_bytes] in *; [by apply key_get_value|].
  unfold tb_get, value_of, get, mbind at 1, TX_bind at 1. rewrite (get_from_ok _ e) by done. by destruct (get_from_raw _ _ _).
Qed.

Lemma client_steps_ok ts ops l t : client_ok ts l t -> Forall (fun o => item_ok (op_item o)) ops ->
  exists t', client_steps ops t = (Ok (Spec.run ts ops l).1, t') /\ client_ok ts (Spec.run ts ops l).2 t'.
Proof.
  intros Hc Hops. revert l t Hc; induction Hops as [|o ops Hi _ IH]; intros l t Hc; [by exists t|].
  destruct (item_bytes (op_item o)) as [e|] eqn:He; [|by destruct Hi as [_ Hi]; rewrite He in Hi].
  pose proof (co_tx _ _ _ Hc) as Ht. pose proof (item_stored _ e Hi He) as Hst. pose proof (stored_region _ _ Hst) as Hreg.
  cbn [client_steps]. unfold mbind, TX_bind. destruct o as [i v|i|i]; cbn [op_item Spec.run] in *.
  - rewrite (put_step i e) by done.
    destruct (IH ((i, ts, Some v) :: l) (written i (put_at_raw (tx_store t) e v (tx_ts t)) t)) as (t' & -> & Hc').
    { apply (written_ok ts l t i e); try done; [apply put_decided; [done|apply Ht]|]. eapply store_ok_put; [apply Ht|done|apply Ht]. }
    exists t'. by destruct (Spec.run ts ops _).
  - rewrite (del_step i e) by done.
    destruct (IH ((i, ts, None) :: l) (written i (erase_at_raw (tx_store t) e (tx_ts t)) t)) as (t' & -> & Hc').
    { apply (written_ok ts l t i e); try done; [apply erase_decided; [done|apply Ht]|]. eapply store_ok_erase; [apply Ht|done|apply Ht]. }
    exists t'. by destruct (Spec.run ts ops _).
  - rewrite (get_step i e), (read_refines l _ i e) by (done || apply Hc || apply Ht).
    destruct (IH l t Hc) as (t' & -> & Hc'). exists t'. by destruct (Spec.run ts ops l).
Qed.

(** ** Transactions *)

Context (Hser : serialises) (env : Env) (He : env_ok env).

Lemma commit_refines ts l t o : client_ok ts l t -> exists t',
  commit o t = (match o with Committed => Ok tt | Conflicted => Err ErrConflict | Poisoned => Err ErrUnavailable | Failed => Err ErrStore end, t')
  /\ refines l (tx_store t').
Proof.
  intros [Ht [Hv Hl] Hts [Hnd Henc] Hret]. set (t0 := mkTx (tx_store t) (tx_ts t) (tx_node t) [] (tx_retention t)).
  assert (tx_ok t0) as Ht0 by (destruct Ht; by split).
  destruct (commit_scopes (active_scopes t) t0 Hser Ht0 Hnd) as (t' & E & [_ _ _ _ _ Hrest]).
  { cbn. by rewrite Hret. }
  { apply Forall_forall. intros sc Hin. split; [by eapply Forall_forall in Hin; [|apply (to_scopes _ Ht)]|].
    rewrite Forall_forall in Henc. specialize (Henc sc Hin). destruct (encode sc) as [raw|] eqn:Er; [|done].
    by destruct (sync_point_encode_total (commit_point t0 sc) raw Er) as (k & ->). }
  exists t'. unfold commit. fold t0. rewrite E. split; [done|]. split; [done|]. intros i e ts' Hi Hb Hts'.
  rewrite <- (Hl i e ts' Hi Hb Hts'). pose proof (stored_region _ _ (item_stored i e Hi Hb)) as Hreg.
  unfold verdict. rewrite !Hrest; [done| |]; intros sc _ Hk%sync_point_foreign;
    (eapply foreign_ne; [exact Hk|by apply row_region|by left|done]).
Qed.

(** What becomes of the transaction that starts with call [n]: its version, if it commits. *)
Definition decision (n : nat) : option Version :=
  if engine_begin env n
  then match engine_commit env (Datatypes.S n) with Committed => Some (new_timestamp env n) | _ => None end
  else None.
Definition next_call (n : nat) : nat := if engine_begin env n then Datatypes.S (Datatypes.S n) else Datatypes.S n.
Fixpoint decisions (n k : nat) : list (option Version) :=
  match k with O => [] | Datatypes.S k => decision n :: decisions (next_call n) k end.

Lemma client_tx_ok ops l st s : st_backend st = Some s -> store_ok s -> refines l s ->
  Forall (fun o => item_ok (op_item o)) ops ->
  exists st' s', st_backend st' = Some s' /\ store_ok s' /\ st_calls st' = next_call (st_calls st)
    /\ match decision (st_calls st) with
       | Some ts => client_tx ops env st = (Ok (Some (Spec.run ts ops l).1), st') /\ refines (Spec.run ts ops l).2 s'
       | None => client_tx ops env st = (Ok None, st') /\ refines l s'
       end.
Proof.
  intros Hb Hs Hr Hops. unfold client_tx, decision, next_call, begin_local, mbind, SM_bind, attempt. rewrite Hb.
  destruct (engine_begin env (st_calls st)); [|by exists (called st), s].
  set (t := mkTx s _ _ _ _). set (ts := new_timestamp env (st_calls st)).
  destruct (client_steps_ok ts ops l t) as (t' & E & Hc); [|done|].
  { split; [by apply begin_tx_ok|done|done|by split; constructor|done]. }
  unfold within. rewrite E. unfold commit_tx. cbn [snd fst].
  destruct (commit_refines ts _ t' (engine_commit env (st_calls (called st))) Hc) as (t2 & Ec & Hr2).
  pose proof (proj1 (triple_commit (engine_commit env (st_calls (called st))) t' (co_tx _ _ _ Hc))) as Ht2.
  rewrite Ec in *. cbn [snd] in Ht2. change (st_calls (called st)) with (Datatypes.S (st_calls st)) in *.
  destruct (engine_commit env (Datatypes.S (st_calls st))); [|by exists (called (called st)), s..].
  exists (called (set_backend (called st) (Some (tx_store t2)))), (tx_store t2). split; [reflexivity|]. split; [apply Ht2|]. done.
Qed.

(** C10. The store implements the log of writes.  From a store that says what a log says,
    any sequence of client transactions of key and table operations has the
    results the specification gives, transactions the engine does not begin
    or commit having none; and the store then says what the log with the
    writes of the committed ones says, every transaction's writes being at its
    version, all or none of them. *)
Theorem store_refines_log (txs : list (list client_op)) (l : Spec.log) (st : Store) (s : S)
    (Hb : st_backend st = Some s) (Hs : store_ok s) (Hr : refines l s)
    (Hops : Forall (Forall (fun o => item_ok (op_item o))) txs) :
  let spec := Spec.session (decisions (st_calls st) (length txs)) txs l in
  exists st' s', client_session txs env st = (Ok spec.1, st')
    /\ st_backend st' = Some s' /\ store_ok s' /\ refines spec.2 s'.
Proof.
  cbv zeta. revert l st s Hb Hs Hr. induction Hops as [|ops txs Ho _ IH]; intros l st s Hb Hs Hr; [by exists st, s|].
  cbn [client_session length decisions Spec.session]. unfold mbind, SM_bind.
  destruct (client_tx_ok ops l st s Hb Hs Hr Ho) as (st1 & s1 & Hb1 & Hs1 & Hcalls & Hd). rewrite <- Hcalls.
  destruct (decision (st_calls st)) as [ts|]; destruct Hd as [-> Hr1].
  - destruct (Spec.run ts ops l) as [outs l1]. destruct (IH l1 st1 s1 Hb1 Hs1 Hr1) as (st' & s' & -> & H). exists st', s'.
    by destruct (Spec.session _ txs l1).
  - destruct (IH l st1 s1 Hb1 Hs1 Hr1) as (st' & s' & -> & H). exists st', s'. by destruct (Spec.session _ txs l).
Qed.
End Refine.

(** ** Examples *)

Import Sample.

Definition sample_txs : list (list client_op) :=
  [[Put (IKey (Sample.key "a")) [x01]; Get (IKey (Sample.key "a"))];
   [Del (IKey (Sample.key "a")); Get (IKey (Sample.key "a"))];
   [Get (IKey (Sample.key "a"))]].

Lemma sample_items : Forall (Forall (fun o => item_ok (op_item o))) sample_txs.
Proof. repeat constructor. Qed.

Lemma empty_refines : refines [] Sample.empty_store.
Proof. split; [constructor|]. intros i e ts _ _ _. vm_compute. reflexivity. Qed.

Lemma store_refines_log_witness :
  exists st' s', client_session sample_txs sample_env (sample_store Sample.empty_store)
      = (Ok [Some [None; Some [x01]]; Some [None; None]; Some [None]], st')
    /\ st_backend st' = Some s' /\ store_ok s'.
Proof.
  assert (store_ok Sample.empty_store) as Hs
    by (apply (to_store (Sample.tx Sample.empty_store 9)), empty_ok; unfold is_u64; lia).
  destruct (store_refines_log sample_serialises sample_env sample_env_ok sample_txs [] (sample_store Sample.empty_store)
    Sample.empty_store eq_refl Hs empty_refines sample_items) as (st' & s' & E & Hb & Hs' & _).
  exists st', s'. split; [exact E|]. split; [exact Hb|exact Hs'].
Defined.
