(* ===== verification/Repl.v ===== *)
(** * Replication

    [src/swarm/db/src/replication.rs]: a replicator of one node, which
    announces what the node holds of a subject, asks for what it lacks, serves
    what others lack, and hands data over when it is not to keep it.

    A handler runs on the state of the replicator and the store it shares; the
    messages it publishes are kept in order.  Requests to another node go
    through the transport, whose answers are its own.  The waits between
    retries and pages, which touch no state, are left out, and what runs
    concurrently is the order in which handlers run. *)

From S2P Require Import Prelude Bytes Skey SkeyRoundtrip SkeyOrder Keys KeyScan Domain Kv Rows Tx TxOrder Announce Store.
From Stdlib Require Import ZArith Lia Strings.Byte Sorting.Sorted.
From stdpp Require Import base list option strings sets.

Local Open Scope Z_scope.

Definition PROBE_COOLDOWN : Duration := 10 * 10 ^ 9.
Definition SYNC_PAGE_BYTES : Z := 64 * 1024.
Definition CHUNK_WIRE_OVERHEAD : Z := 48.
Definition VERIFY_PAGE_HEADS : nat := 2048.
Definition APPLY_ATTEMPTS : nat := 10.

Definition chunk_size (entries : list (bytes * option bytes)) : Z :=
  32 + foldr (fun e acc => acc + (Z.of_nat (length e.1)
                 + match e.2 with Some v => Z.of_nat (length v) | None => 0 end + 16)) 0 entries.

(** ** Messages *)

Record AnnounceMsg := mkAnnounce {
  ann_known : list (Scope * ScopeAnnounce);
  ann_full_replica : bool;
}.
Record ChangeSetReq := mkChangeSetReq {
  cq_scope : Scope;
  cq_since_ts : option Version;
  cq_epoch_floors : list (Version * Epoch);
}.
Record ChangeSet := mkChangeSet { cs_scope : Scope; cs_chunks : list Chunk }.

Inductive ReplicaMessage :=
  | Probe (filter : list Scope)
  | Announce (a : AnnounceMsg)
  | ChangeSetReq_ (r : ChangeSetReq)
  | ChangeSet_ (c : ChangeSet).

Record PullRequest := mkPullRequest {
  pr_scope : Scope;
  pr_after : option SyncPointId;
  pr_since_ts : option Version;
  pr_epoch_floors : list (Version * Epoch);
}.
Record PullResponse := mkPullResponse { pl_chunks : list Chunk; pl_next : option SyncPointId }.
Record VerifyRequest := mkVerifyRequest { vr_scope : Scope; vr_heads : list (Version * Epoch) }.

Inductive ReplicaMode := Full | Offload.

(** Answers of other nodes, by the number of the call. *)
Record Transport := mkTransport {
  can_sync : bool;
  tr_pull : nat -> NodeId -> PullRequest -> option PullResponse;
  tr_verify : nat -> NodeId -> VerifyRequest -> option bool;
}.

(** What a replicator is started with; [rc_pages] bounds the pages of one pull. *)
Record Config := mkConfig {
  rc_subject : Subject;
  rc_mode : ReplicaMode;
  rc_lag : Version;
  rc_pages : nat;
}.

Record Frontiers := mkFrontiers {
  fr_scanned_at : Instant;
  fr_now : Version;
  fr_scopes : list (Scope * ScopeFrontier);
}.

Section Repl.
Context {S : Type} `{Kv S} `{Postcard SyncMeta} `{Postcard MeasurementBody}.

(** ** Serving *)

Definition serve_chunk (s : S) (scope : Scope) (p : SyncPoint * SyncMeta) : res tx_error Chunk :=
  entries ← match sm_marker p.2 with
            | Marker.Deletion => Ok []
            | Marker.Mutation => raw ← lift (encode scope); changeset_at s raw (sp_ts p.1)
            end;
  Ok (mkChunk (as_id p.1) p.2 entries).

(** The closure of [serve_pull]: the chunks, their size and the cursor so far. *)
Definition serve_state : Type := list Chunk * Z * option SyncPointId.

Definition serve_step (s : S) (req : PullRequest) (page_bytes : Z) (st : serve_state) (p : SyncPoint * SyncMeta)
  : res tx_error (serve_state * bool) :=
  let '(chunks, bytes, next) := st in
  let id := as_id p.1 in
  if bool_decide (pr_after req = Some id) then Ok (st, true)
  else if cursor_skips (pr_since_ts req) (pr_epoch_floors req) (sp_ts p.1) (sp_epoch p.1) then Ok (st, true)
  else if negb (bool_decide (chunks = [])) && (page_bytes <=? bytes)
  then Ok ((chunks, bytes, ck_id <$> last chunks), false)
  else
    c ← serve_chunk s (pr_scope req) p;
    Ok ((chunks ++ [c], saturating_add (saturating_add bytes (chunk_size (ck_entries c))) CHUNK_WIRE_OVERHEAD, next), true).

Definition serve_pull_at (s : S) (req : PullRequest) (page_bytes : Z) : res tx_error PullResponse :=
  r ← scope_range (pr_scope req);
  lower ← match pr_after req with
          | Some id => lift (encode (with_sp_id (pr_scope req) id))
          | None => Ok r.1
          end;
  st ← find_sync_points_while s lower r.2 (serve_step s req page_bytes) ([], 0, None);
  Ok (mkPullResponse st.1.1 st.2).

Definition serve_pull (cfg : Config) (req : PullRequest) (page_bytes : Z) : SM (S := S) PullResponse :=
  if negb (subject_contains (rc_subject cfg) (pr_scope req)) then fails ErrOutsideSubject else
  tx ← begin_local None;
  smres (serve_pull_at (tx_store tx) req page_bytes).

Definition covers_head (s : S) (scope : Scope) (h : Version * Epoch) : res tx_error bool :=
  r ← lift (partial_range "sync_point" (scope_vals scope ++ [vu64 h.1]));
  find_sync_points_while s r.1 r.2
    (fun (_ : bool) p => let held := h.2 <=? sp_epoch p.1 in Ok (held, negb held)) false.

Fixpoint covers_heads (s : S) (scope : Scope) (hs : list (Version * Epoch)) : res tx_error bool :=
  match hs with
  | [] => Ok true
  | h :: hs => held ← covers_head s scope h; if (held : bool) then covers_heads s scope hs else Ok false
  end.

Definition verify_coverage (cfg : Config) (req : VerifyRequest) : SM (S := S) bool :=
  if negb (subject_contains (rc_subject cfg) (vr_scope req)) then mret false else
  tx ← begin_local None;
  smres (covers_heads (tx_store tx) (vr_scope req) (vr_heads req)).

(** The chunks [handle_cs_req] sends for a request. *)
Definition requested_chunks (s : S) (req : ChangeSetReq) : res tx_error (list Chunk) :=
  r ← scope_range (cq_scope req);
  find_sync_points s r.1 r.2
    (fun chunks (p : SyncPoint * SyncMeta) =>
       if cursor_skips (cq_since_ts req) (cq_epoch_floors req) (sp_ts p.1) (sp_epoch p.1) then Ok chunks
       else c ← serve_chunk s (cq_scope req) p; Ok (chunks ++ [c])) [].

(** ** Applying *)

Fixpoint apply_pull_go (attempts : nat) (scope : Scope) (chunks : list Chunk) : SM (S := S) unit :=
  match attempts with
  | O => fails ErrKeptConflicting
  | Datatypes.S attempts =>
      tx ← begin_local None;
      r ← within (apply_page scope chunks) tx;
      c ← attempt (commit_tx r.2);
      match c with
      | Ok _ => mret tt
      | Err ErrConflict => apply_pull_go attempts scope chunks
      | Err e => fails e
      end
  end.

Definition apply_pull (scope : Scope) (chunks : list Chunk) : SM (S := S) unit :=
  match chunks with [] => mret tt | _ => apply_pull_go APPLY_ATTEMPTS scope chunks end.

Fixpoint apply_chunk_go (attempts : nat) (scope : Scope) (c : Chunk) : SM (S := S) unit :=
  match attempts with
  | O => fails ErrKeptConflicting
  | Datatypes.S attempts =>
      tx ← begin_local None;
      r ← within (insert_changeset (with_sp_id scope (ck_id c)) (ck_meta c) (ck_entries c)) tx;
      o ← attempt (commit_tx r.2);
      match o with
      | Ok _ => mret tt
      | Err ErrConflict => apply_chunk_go attempts scope c
      | Err e => fails e
      end
  end.

Definition apply_chunk (scope : Scope) (c : Chunk) : SM (S := S) unit := apply_chunk_go APPLY_ATTEMPTS scope c.

(** Each chunk on its own: a failure drops the chunk, an unavailable store the rest. *)
Fixpoint handle_cs_chunks (scope : Scope) (chunks : list Chunk) : SM (S := S) unit :=
  match chunks with
  | [] => mret tt
  | c :: chunks =>
      r ← attempt (apply_chunk scope c);
      match r with
      | Err ErrUnavailable => mret tt
      | _ => handle_cs_chunks scope chunks
      end
  end.

Definition handle_cs (cs : ChangeSet) : SM (S := S) unit := handle_cs_chunks (cs_scope cs) (cs_chunks cs).

(** ** The replicator *)

Record Node := mkNode {
  nd_store : Store (S := S);
  nd_stopped : bool;
  nd_probes : list (Scope * Instant);
  nd_pulling : list ((NodeId * Scope) * unit);
  nd_latest : option Frontiers;
  nd_scans : nat;
  nd_covered : list SyncPointId;
  nd_published : list ReplicaMessage;
}.

Definition set_nd_store (nd : Node) (st : Store) : Node :=
  mkNode st (nd_stopped nd) (nd_probes nd) (nd_pulling nd) (nd_latest nd) (nd_scans nd) (nd_covered nd) (nd_published nd).
Definition set_nd_probes (nd : Node) (p : list (Scope * Instant)) : Node :=
  mkNode (nd_store nd) (nd_stopped nd) p (nd_pulling nd) (nd_latest nd) (nd_scans nd) (nd_covered nd) (nd_published nd).
Definition set_nd_pulling (nd : Node) (p : list ((NodeId * Scope) * unit)) : Node :=
  mkNode (nd_store nd) (nd_stopped nd) (nd_probes nd) p (nd_latest nd) (nd_scans nd) (nd_covered nd) (nd_published nd).
Definition set_nd_scan (nd : Node) (f : Frontiers) : Node :=
  mkNode (nd_store nd) (nd_stopped nd) (nd_probes nd) (nd_pulling nd) (Some f) (Datatypes.S (nd_scans nd))
    (nd_covered nd) (nd_published nd).
Definition set_nd_covered (nd : Node) (c : list SyncPointId) : Node :=
  mkNode (nd_store nd) (nd_stopped nd) (nd_probes nd) (nd_pulling nd) (nd_latest nd) (nd_scans nd) c (nd_published nd).

Record Ctx := mkCtx { cx_config : Config; cx_transport : Transport; cx_env : Env }.
Definition RM (A : Type) : Type := Ctx -> Node -> res tx_error A * Node.

#[export] Instance RM_ret : MRet RM := fun A a cx nd => (Ok a, nd).
#[export] Instance RM_bind : MBind RM := fun A B f m cx nd =>
  match m cx nd with
  | (Ok a, nd) => f a cx nd
  | (Err e, nd) => (Err e, nd)
  end.
Definition rprim {A} (f : Ctx -> Node -> res tx_error A * Node) : RM A := f.
Definition on_store {A} (m : SM (S := S) A) : RM A := fun cx nd =>
  let (r, st) := m (cx_env cx) (nd_store nd) in (r, set_nd_store nd st).
Definition rattempt {A} (m : RM A) : RM (res tx_error A) := fun cx nd => let (r, nd) := m cx nd in (Ok r, nd).
Definition config : RM Config := fun cx nd => (Ok (cx_config cx), nd).
Definition sync_capable : RM bool := fun cx nd => (Ok (can_sync (cx_transport cx)), nd).
Definition publish (m : ReplicaMessage) : RM unit := fun cx nd =>
  (Ok tt, mkNode (nd_store nd) (nd_stopped nd) (nd_probes nd) (nd_pulling nd) (nd_latest nd) (nd_scans nd)
            (nd_covered nd) (nd_published nd ++ [m])).
Definition confirm_shutdown : RM unit := fun cx nd =>
  (Ok tt, mkNode (nd_store nd) true (nd_probes nd) (nd_pulling nd) (nd_latest nd) (nd_scans nd)
            (nd_covered nd) (nd_published nd)).

(** ** What the node holds *)

Definition frontier_add (scopes : list (Scope * ScopeFrontier)) (h : head_entry)
  : res tx_error (list (Scope * ScopeFrontier)) :=
  let '(scope, id, _) := h in
  let f := default [] (vm_get scopes scope) in
  match bt_get f (sid_version id) with
  | Some _ => Err ErrDuplicateHead
  | None => Ok (vm_insert scopes scope (bt_insert f (sid_version id) (sid_epoch id, sid_node id)))
  end.

Definition scan_frontiers (s : S) (subject : Subject) : res tx_error (list (Scope * ScopeFrontier)) :=
  r ← lift (range_from_subject subject);
  collect_latest_heads s r.1 r.2 frontier_add [].

Definition rescan (cfg : Config) : RM Frontiers :=
  tx ← on_store (begin_local None);
  scopes ← on_store (smres (scan_frontiers (tx_store tx) (rc_subject cfg)));
  scanned_at ← on_store now_instant;
  rprim (fun cx nd => let f := mkFrontiers scanned_at (tx_ts tx) scopes in (Ok f, set_nd_scan nd f)).

Definition frontiers : RM Frontiers :=
  cfg ← config;
  requested ← on_store now_instant;
  latest ← rprim (fun cx nd => (Ok (nd_latest nd), nd));
  match latest with
  | Some cached => if requested <=? fr_scanned_at cached then mret cached else rescan cfg
  | None => rescan cfg
  end.

(** ** Announcing *)

Definition announce_known (lag_cut : option Version) (announced : list (Scope * ScopeFrontier))
  : list (Scope * ScopeAnnounce) :=
  fold_left (fun known e => vm_insert known e.1 (announce_scope lag_cut e.2)) announced [].

Definition send_announce (filter : list Scope) (floored : bool) : RM (list Scope) :=
  unavailable ← on_store is_unavailable;
  if (unavailable : bool) then mret [] else
  cfg ← config;
  fr ← frontiers;
  let announced := List.filter (fun e : Scope * ScopeFrontier =>
                     bool_decide (filter = []) || bool_decide (e.1 ∈ filter)) (fr_scopes fr) in
  let lag_cut := if floored then Some (saturating_sub (fr_now fr) (rc_lag cfg)) else None in
  _ ← publish (Announce (mkAnnounce (announce_known lag_cut announced)
                 (match rc_mode cfg with Full => true | Offload => false end)));
  mret (map fst announced).

Definition announce_for : RM unit :=
  cfg ← config;
  sync ← sync_capable;
  match rc_mode cfg with
  | Full => _ ← send_announce [] true; mret tt
  | Offload =>
      if (sync : bool) then _ ← send_announce [] true; mret tt
      else
        scopes ← send_announce [] false;
        if bool_decide (scopes = []) then mret tt else publish (Probe scopes)
  end.

Definition handle_probe (filter : list Scope) : RM unit := _ ← send_announce filter false; mret tt.

Definition probe_due (probes : list (Scope * Instant)) (scope : Scope) (now : Instant) : bool :=
  match vm_get probes scope with Some at_ => PROBE_COOLDOWN <=? instant_since now at_ | None => true end.

Definition probe_scope (scope : Scope) : RM unit :=
  now ← on_store now_instant;
  fire ← rprim (fun cx nd =>
    let due := probe_due (nd_probes nd) scope now in
    (Ok due, if due then set_nd_probes nd (vm_insert (nd_probes nd) scope now) else nd));
  if (fire : bool) then publish (Probe [scope]) else mret tt.

(** ** Pulling *)

Definition page_oldest (oldest : Version) (chunks : list Chunk) : Version :=
  fold_left (fun oldest c => Z.min oldest (Z.max (sid_version (ck_id c)) (sid_epoch (ck_id c)))) chunks oldest.

(** How the loop over the pages ends: the transport gave nothing, a page could not be
    applied, or the holder is drained, with the number of pages and the oldest version. *)
Inductive pull_end := PullFailed | PullAborted | PullDrained (pages : nat) (oldest : Version).

Fixpoint pull_loop (fuel : nat) (target : NodeId) (req : PullRequest) (pages : nat) (oldest : Version) : RM pull_end :=
  match fuel with
  | O => rprim (fun cx nd => (Err ErrPagesLeft, nd))
  | Datatypes.S fuel =>
      reply ← rprim (fun cx nd =>
        (Ok (tr_pull (cx_transport cx) (st_calls (nd_store nd)) target req), set_nd_store nd (called (nd_store nd))));
      match (reply : option PullResponse) with
      | None => mret PullFailed
      | Some page =>
          let oldest := page_oldest oldest (pl_chunks page) in
          r ← rattempt (on_store (apply_pull (pr_scope req) (pl_chunks page)));
          match (r : res tx_error unit) with
          | Err _ => mret PullAborted
          | Ok _ =>
              match pl_next page with
              | Some cursor =>
                  pull_loop fuel target
                    (mkPullRequest (pr_scope req) (Some cursor) (pr_since_ts req) (pr_epoch_floors req))
                    (Datatypes.S pages) oldest
              | None => mret (PullDrained (Datatypes.S pages) oldest)
              end
          end
      end
  end.

Definition store_now : SM (S := S) Version := fun env st => (Ok (new_timestamp env (st_calls st)), called st).

Definition pull_from (target : NodeId) (scope : Scope) (since_ts : option Version)
    (epoch_floors : list (Version * Epoch)) : RM bool :=
  cfg ← config;
  running ← rprim (fun cx nd =>
    match vm_get (nd_pulling nd) (target, scope) with
    | Some _ => (Ok true, nd)
    | None => (Ok false, set_nd_pulling nd (vm_insert (nd_pulling nd) (target, scope) tt))
    end);
  if (running : bool) then mret true else
  e ← pull_loop (rc_pages cfg) target (mkPullRequest scope None since_ts epoch_floors) 0 u64_max;
  done ← match e with
         | PullFailed => mret false
         | PullAborted => mret true
         | PullDrained pages oldest =>
             now ← on_store store_now;
             let floored := saturating_sub now (rc_lag cfg) <? oldest in
             if floored && (pages =? 1)%nat then mret true
             else _ ← rattempt (send_announce [scope] floored); mret true
         end;
  rprim (fun cx nd => (Ok (done : bool), set_nd_pulling nd (vm_remove (nd_pulling nd) (target, scope)))).

(** ** Handlers *)

Definition floors_of (f : option ScopeFrontier) : list (Version * Epoch) :=
  map (fun h : Version * (Epoch * NodeId) => (h.1, h.2.1)) (default [] f).

Definition follow_plan (sender : NodeId) (scope : Scope) (full_replica : bool) (ours : option ScopeFrontier)
    (plan : CatchupPlan) : RM unit :=
  sync ← sync_capable;
  match plan with
  | Diverged =>
      if negb full_replica && sync then _ ← pull_from sender scope None (floors_of ours); mret tt
      else probe_scope scope
  | Behind since_ts epoch_floors =>
      if negb full_replica && sync then _ ← pull_from sender scope since_ts epoch_floors; mret tt
      else publish (ChangeSetReq_ (mkChangeSetReq scope since_ts epoch_floors))
  | CaughtUp => mret tt
  end.

Fixpoint follow_announce (sender : NodeId) (full_replica : bool) (ours : list (Scope * ScopeFrontier))
    (known : list (Scope * ScopeAnnounce)) : RM unit :=
  match known with
  | [] => mret tt
  | (scope, theirs) :: known =>
      cfg ← config;
      _ ← (if subject_contains (rc_subject cfg) scope
           then follow_plan sender scope full_replica (vm_get ours scope) (plan_catchup (vm_get ours scope) theirs)
           else mret tt);
      follow_announce sender full_replica ours known
  end.

Definition record_peer (peer : NodeId) (a : AnnounceMsg) (received_at : Instant) : RM bool := rprim (fun cx nd =>
  let (b, st) := record_peer_frontier peer (ann_known a) (ann_full_replica a) received_at (nd_store nd) in
  (Ok b, set_nd_store nd st)).

Definition handle_announce (sender : NodeId) (a : AnnounceMsg) (received_at : Instant) : RM unit :=
  fr ← frontiers;
  _ ← follow_announce sender (ann_full_replica a) (fr_scopes fr) (ann_known a);
  _ ← record_peer sender a received_at;
  mret tt.

Definition head_covered (known : list (Scope * ScopeAnnounce)) (scope : Scope) (h : Version * (Epoch * NodeId)) : bool :=
  match (sa ← vm_get known scope; bt_get (heads sa) h.1) with
  | Some (their_epoch, _) => h.2.1 <=? their_epoch
  | None => false
  end.

Definition all_covered (known : list (Scope * ScopeAnnounce)) (scopes : list (Scope * ScopeFrontier)) : bool :=
  forallb (fun e : Scope * ScopeFrontier => forallb (head_covered known e.1) e.2) scopes.

Definition frontier_points (scopes : list (Scope * ScopeFrontier)) : list SyncPointId :=
  concat (map (fun e : Scope * ScopeFrontier =>
    map (fun h : Version * (Epoch * NodeId) => (h.2.1, h.1, h.2.2)) e.2) scopes).

Definition handle_coverage (sender : NodeId) (a : AnnounceMsg) (received_at : Instant) : RM unit :=
  covered ← (if ann_full_replica a
             then fr ← frontiers;
                  mret (if all_covered (ann_known a) (fr_scopes fr) then Some (frontier_points (fr_scopes fr)) else None)
             else mret None);
  vouched ← record_peer sender a received_at;
  match covered with
  | Some points =>
      if (vouched : bool)
      then _ ← rprim (fun cx nd => (Ok tt, set_nd_covered nd points)); confirm_shutdown
      else mret tt
  | None => mret tt
  end.

Definition take_confirmed_coverage : RM (list SyncPointId) := rprim (fun cx nd => (Ok (nd_covered nd), set_nd_covered nd [])).

Definition handle_cs_req (req : ChangeSetReq) : RM unit :=
  cfg ← config;
  if negb (subject_contains (rc_subject cfg) (cq_scope req)) then mret tt else
  tx ← on_store (begin_local None);
  chunks ← on_store (smres (requested_chunks (tx_store tx) req));
  if bool_decide (chunks = []) then mret tt
  else publish (ChangeSet_ (mkChangeSet (cq_scope req) chunks)).

(** A node's own messages come back to it and are dropped; what a handler fails with
    is logged. *)
Definition handle_message (sender : NodeId) (msg : ReplicaMessage) (received_at : Instant) : RM unit := fun cx nd =>
  if bool_decide (node_id (cx_env cx) = sender) then (Ok tt, nd) else
  let handler : RM unit :=
    match msg with
    | Probe filter => handle_probe filter
    | Announce a =>
        match rc_mode (cx_config cx) with
        | Full => handle_announce sender a received_at
        | Offload => handle_coverage sender a received_at
        end
    | ChangeSetReq_ req => handle_cs_req req
    | ChangeSet_ cs =>
        match rc_mode (cx_config cx) with Full => on_store (handle_cs cs) | Offload => mret tt end
    end in
  let (_, nd) := handler cx nd in (Ok tt, nd).

(** ** Confirming coverage *)

Definition scope_head_epochs (s : S) (scope : Scope) : res tx_error (list (Version * Epoch)) :=
  r ← scope_range scope;
  collect_latest_heads s r.1 r.2 (fun hs (h : head_entry) => Ok (hs ++ [(sid_version h.1.2, sid_epoch h.1.2)])) [].

Fixpoint verify_pages (target : NodeId) (scope : Scope) (pages : list (list (Version * Epoch))) : RM (option bool) :=
  match pages with
  | [] => mret (Some true)
  | page :: pages =>
      answer ← rprim (fun cx nd =>
        (Ok (tr_verify (cx_transport cx) (st_calls (nd_store nd)) target (mkVerifyRequest scope page)),
         set_nd_store nd (called (nd_store nd))));
      match (answer : option bool) with
      | None => mret None
      | Some false => mret (Some false)
      | Some true => verify_pages target scope pages
      end
  end.

Definition confirm_covered_by (target : NodeId) (scope : Scope) : RM (option bool) :=
  hs ← rattempt (on_store (tx ← begin_local None; smres (scope_head_epochs (tx_store tx) scope)));
  match (hs : res tx_error (list (Version * Epoch))) with
  | Err _ => mret None
  | Ok hs => verify_pages target scope (chunks VERIFY_PAGE_HEADS hs)
  end.
End Repl.
