(* ===== verification/ReplFacts.v ===== *)
(** * What replication serves and applies

    Facts shared by the theorems on replication: which sync points a store
    covers, what serving a request yields, what applying chunks adds, and
    what a scan of the frontiers tells. *)

From S2P Require Import Prelude Bytes Skey SkeyRoundtrip SkeyOrder Keys KeyScan Domain Kv Rows RowsFacts Changeset Scans Tx Sample TxKeys TxInv TxReads TxScans TxSync TxOrder Announce Store StoreGc Repl.
From Stdlib Require Import ZArith Lia Strings.Byte Sorting.Sorted.
From stdpp Require Import base list option strings sets.

Local Open Scope Z_scope.

Section Facts.
Context {S : Type} {kvS : Kv S} {kvLaws : KvLaws S}
  {pcMeta : Postcard SyncMeta} {pcMetaLaws : PostcardLaws SyncMeta}
  {pcBody : Postcard MeasurementBody}.
Implicit Types s : S.

(** ** Coverage *)

(** The store holds the version of the scope, at this epoch or a later one. *)
Definition covered s (sc : Scope) (ts : Version) (e : Epoch) : Prop :=
  exists sp sm, sync_at s sp sm /\ sp_scope sp = sc /\ sp_ts sp = ts /\ e <= sp_epoch sp.

(** [s'] holds every sync point [s] holds. *)
Definition keeps s s' : Prop := forall sp sm, sync_at s sp sm -> exists sm', sync_at s' sp sm'.

Lemma keeps_covered s s' sc ts e : keeps s s' -> covered s sc ts e -> covered s' sc ts e.
Proof. intros Hk (sp & sm & Hat & ?). destruct (Hk _ _ Hat) as (sm' & ?). by exists sp, sm'. Qed.

Lemma keeps_refl s : keeps s s.
Proof. intros sp sm ?. by exists sm. Qed.
Lemma keeps_trans s1 s2 s3 : keeps s1 s2 -> keeps s2 s3 -> keeps s1 s3.
Proof. intros H1 H2 sp sm (sm' & H)%H1. by eapply H2. Qed.

Lemma held_sync_at s sp k : store_ok s -> sync_point_valid sp -> encode sp = Ok k ->
  held s k = true <-> exists sm, sync_at s sp sm.
Proof.
  intros Hs Hv Hk. unfold held. split.
  - destruct (kv_get s k) as [v|] eqn:Hg; [|done]. intros _.
    destruct (so_sync _ Hs k v Hg) as (sp' & sm & Hv' & Hk' & Hb).
    { destruct (sync_point_starts (sh_vals sync_point_shape sp) k Hk) as (r & ->). done. }
    exists sm. split; [done|]. exists k, v. done.
  - intros (sm & _ & k' & v & Hk' & Hg & _). rewrite Hk in Hk'. apply Ok_inj in Hk' as <-. by rewrite Hg.
Qed.

(** ** Applying chunks *)

Section Apply.
Context (Hser : serialises) (sc : Scope) (raw : bytes) (Hraw : encode sc = Ok raw).

Lemma chunk_effect_spec c s : chunk_valid sc c -> store_ok s ->
  store_ok (chunk_effect sc c s) /\ keeps s (chunk_effect sc c s)
  /\ exists sm, sync_at (chunk_effect sc c s) (with_sp_id sc (ck_id c)) sm.
Proof.
  intros Hc Hs. pose proof Hc as (Hv & Hm & Hes).
  destruct (sync_point_encode_total (with_sp_id sc (ck_id c)) raw Hraw) as (k & Hk).
  destruct (Hser _ Hm) as (v & Hmv).
  assert (store_ok (chunk_effect sc c s)) as Hok.
  { unfold chunk_effect. rewrite Hk, Hraw, Hmv. by apply (lc_ok _ _ (cs_store_local _ _ _ _ _ raw Hv Hk Hmv Hes)). }
  split; [done|]. split; [|by apply (held_sync_at _ _ k Hok Hv Hk), (chunk_effect_held sc raw)].
  intros sp sm Hat. exists sm. unfold chunk_effect, cs_store. rewrite Hk, Hraw, Hmv.
  destruct (held s k) eqn:Hh; [done|].
  assert (sync_at (kv_insert s k v) sp sm) as Hat'.
  { apply (sync_at_insert s (with_sp_id sc (ck_id c))); [done|done| |done]. intros <-.
    assert (held s k = true) by (apply (held_sync_at _ _ k Hs Hv Hk); eauto). congruence. }
  assert (store_ok (kv_insert s k v)) as Hok' by (by eapply store_ok_insert_sync).
  destruct (sm_marker (ck_meta c)).
  - eapply sync_at_foreign; [|exact Hat']. intros x Hx. by apply write_entries_foreign.
  - destruct (delete_version_rows_spec (kv_insert s k v) raw (chunk_version c) (so_index _ Hok') (proj1 (proj2 Hv)))
      as (n & s' & -> & _ & _ & Hf). by eapply sync_at_foreign.
Qed.

Lemma run_effects_spec chunks s : Forall (chunk_valid sc) chunks -> store_ok s ->
  store_ok (run_all (effects sc chunks) s) /\ keeps s (run_all (effects sc chunks) s)
  /\ forall c, c ∈ chunks -> exists sm, sync_at (run_all (effects sc chunks) s) (with_sp_id sc (ck_id c)) sm.
Proof.
  intros Hall. revert s; induction Hall as [|c chunks Hc _ IH]; intros s Hs.
  - split; [done|]. split; [apply keeps_refl|]. by intros c ?%elem_of_nil.
  - destruct (chunk_effect_spec c s Hc Hs) as (Hok & Hk & sm & Hat).
    destruct (IH _ Hok) as (Hok' & Hk' & Ha). cbn [effects map run_all fold_left snd]. split; [done|].
    split; [by eapply keeps_trans|]. intros c' [->|Hc']%elem_of_cons; [by eapply Hk'|by apply Ha].
Qed.

(** ** Handlers that apply *)

Context (env : Env) (He : env_ok env) (Hacc : env_accepts env).

Lemma apply_chunk_ok c (st : Store) s : st_backend st = Some s -> store_ok s -> chunk_valid sc c ->
  exists st', apply_chunk sc c env st = (Ok tt, st') /\ st_backend st' = Some (chunk_effect sc c s).
Proof.
  intros Hb Hs Hc. unfold apply_chunk, APPLY_ATTEMPTS. cbn [apply_chunk_go]. unfold mbind, SM_bind.
  rewrite (begin_local_ok _ _ s) by done. set (t := mkTx s _ _ _ _).
  assert (tx_ok t) as Ht by (by apply begin_tx_ok). destruct (chunk_run sc raw c t Hser Hraw Hc Ht) as (_ & k & _ & E).
  unfold within. rewrite E. unfold attempt. cbn [snd].
  rewrite (commit_tx_plain _ _ (set_store t (chunk_effect sc c (tx_store t)))) by done.
  eexists. split; [done|]. done.
Qed.

Lemma handle_cs_chunks_ok chunks (st : Store) s : st_backend st = Some s -> store_ok s -> Forall (chunk_valid sc) chunks ->
  exists st', handle_cs_chunks sc chunks env st = (Ok tt, st') /\ st_backend st' = Some (run_all (effects sc chunks) s).
Proof.
  intros Hb Hs Hall. revert st s Hb Hs; induction Hall as [|c chunks Hc _ IH]; intros st s Hb Hs; [by exists st|].
  cbn [handle_cs_chunks]. unfold mbind, SM_bind, attempt.
  destruct (apply_chunk_ok c st s Hb Hs Hc) as (st1 & -> & Hb1).
  destruct (IH st1 _ Hb1) as (st2 & E2 & Hb2); [by apply chunk_effect_spec|]. by exists st2.
Qed.

Lemma apply_pull_ok chunks (st : Store) s : st_backend st = Some s -> store_ok s -> Forall (chunk_valid sc) chunks ->
  exists st', apply_pull sc chunks env st = (Ok tt, st') /\ st_backend st' = Some (run_all (effects sc chunks) s).
Proof.
  intros Hb Hs Hall. unfold apply_pull. destruct chunks as [|c cs] eqn:Ec; [by exists st|]. rewrite <- Ec in *. clear Ec c cs.
  unfold APPLY_ATTEMPTS. cbn [apply_pull_go]. unfold mbind, SM_bind. rewrite (begin_local_ok _ _ s) by done.
  set (t := mkTx s _ _ _ _). assert (tx_ok t) as Ht by (by apply begin_tx_ok).
  destruct (apply_page_run sc raw chunks t Hser Hraw Hall Ht) as (_ & E). unfold within. rewrite E.
  unfold attempt. cbn [snd]. rewrite (commit_tx_plain _ _ (set_store t (run_all (effects sc chunks) (tx_store t)))) by done.
  eexists. split; [done|]. done.
Qed.
End Apply.
End Facts.

(** ** Sample nodes *)

Import Sample.

Definition peer : NodeId := replicate 16 x01.
Definition peer_env : Env :=
  mkEnv (new_timestamp sample_env) peer (instant_now sample_env) (engine_begin sample_env)
    (engine_commit sample_env) (engine_poisoned sample_env) (new_uuid sample_env) (ntp_elapsed sample_env).

Lemma peer_env_ok : env_ok peer_env.
Proof. split; [apply sample_env_ok|reflexivity]. Qed.
Lemma peer_env_accepts : env_accepts peer_env.
Proof. by split. Qed.

Definition sample_config (mode : ReplicaMode) : Config := mkConfig (SubjScope Sample.scope) mode 10 100.
Definition no_transport : Transport := mkTransport false (fun _ _ _ => None) (fun _ _ _ => None).
Definition sample_cx (mode : ReplicaMode) (env : Env) : Ctx := mkCtx (sample_config mode) no_transport env.
Definition sample_node_of (s : MapKv.store) : Node := mkNode (sample_store s) false [] [] None 0 [] [].

Lemma empty_store_ok : store_ok Sample.empty_store.
Proof. apply (to_store (Sample.tx Sample.empty_store 9)), empty_ok. unfold is_u64. lia. Qed.

(** * Frontiers

    What a scan of the latest heads of a subject or a scope tells a node of
    its own holdings: for every version it holds, the newest epoch. *)

Section Frontier.
Context {S : Type} {kvS : Kv S} {kvLaws : KvLaws S}
  {pcMeta : Postcard SyncMeta} {pcMetaLaws : PostcardLaws SyncMeta}
  {pcBody : Postcard MeasurementBody}.
Implicit Types s : S.

(** The newest epoch of the version of the scope, and its node. *)
Definition is_head s (sc : Scope) (ts : Version) (e : Epoch) (n : NodeId) : Prop :=
  (exists sm, sync_at s (mkSyncPoint sc ts e n) sm)
  /\ forall sp sm, sync_at s sp sm -> sp_scope sp = sc -> sp_ts sp = ts -> sp_cmp sp (mkSyncPoint sc ts e n) <> Gt.

(** A frontier that tells exactly the heads of the scope. *)
Record frontier_ok s (sc : Scope) (f : ScopeFrontier) : Prop := mkFrontierOk {
  fo_sorted : bt_ok f;
  fo_heads : forall ts e n, bt_get f ts = Some (e, n) <-> is_head s sc ts e n;
  fo_every : forall sp sm, sync_at s sp sm -> sp_scope sp = sc -> is_Some (bt_get f (sp_ts sp));
}.

Lemma frontier_ok_valid s sc f : frontier_ok s sc f -> frontier_valid f.
Proof.
  intros [Hso Hh _]. split; [done|]. intros ts e n Hin%(bt_get_elem _ _ _ Hso)%Hh.
  destruct Hin as [(sm & (Hsc & Hts & He & Hn) & _) _]. done.
Qed.

Lemma sp_cmp_epoch a b : sp_ts a = sp_ts b -> sp_cmp a b <> Gt -> sp_epoch a <= sp_epoch b.
Proof. unfold sp_cmp. intros ->. rewrite Z.compare_refl. cbn. destruct (Z.compare_spec (sp_epoch a) (sp_epoch b)); [lia|lia|done]. Qed.

(** A frontier decides coverage. *)
Lemma sufficient_covered s sc f ts e : frontier_ok s sc f -> sufficient (Some f) ts e = true <-> covered s sc ts e.
Proof.
  intros [Hso Hh Hev]. unfold sufficient, our_epoch. cbn [mbind option_bind]. split.
  - destruct (bt_get f ts) as [[e' n]|] eqn:Eg; [|done]. cbn [fmap option_fmap option_map fst]. intros Hle%Z.leb_le.
    apply Hh in Eg as [(sm & Hat) _]. by exists (mkSyncPoint sc ts e' n), sm.
  - intros (sp & sm & Hat & Esc & Ets & Hle). destruct (Hev sp sm Hat Esc) as ([e' n] & Eg). rewrite Ets in Eg.
    rewrite Eg. cbn [fmap option_fmap option_map fst]. apply Hh in Eg as [_ Hmax].
    apply Z.leb_le. pose proof (sp_cmp_epoch sp (mkSyncPoint sc ts e' n) Ets (Hmax sp sm Hat Esc Ets)). cbn in *. lia.
Qed.

Lemma frontier_empty s sc : (forall sp sm, sync_at s sp sm -> sp_scope sp <> sc) -> frontier_ok s sc [].
Proof.
  intros Hn. split; [constructor| |].
  - intros ts e n. split; [done|]. intros [(sm & Hat) _]. by destruct (Hn _ _ Hat).
  - intros sp sm Hat Esc. by destruct (Hn _ _ Hat).
Qed.

(** ** The heads a scan hands on *)

Lemma latest_heads_head s sel heads sc e ts n : latest_heads s sel heads ->
  selects sel (mkSyncPoint sc ts e n) = true ->
  (exists sm, (sc, (e, ts, n), sm) ∈ heads) <-> is_head s sc ts e n.
Proof.
  intros Hl Hsel. split.
  - intros (sm & Hin). apply (lh_elem _ _ _ Hl) in Hin as (_ & Hat & Hmax). split; [by exists sm|exact Hmax].
  - intros [(sm & Hat) Hmax]. exists sm. apply (lh_elem _ _ _ Hl). done.
Qed.

Lemma latest_heads_selects s sel heads h : latest_heads s sel heads -> h ∈ heads -> selects sel (head_point h) = true.
Proof. intros Hl Hin. by apply (lh_elem _ _ _ Hl) in Hin as (? & _). Qed.

(** The heads of one scope, as a frontier. *)
Definition tells (heads : list head_entry) (sc : Scope) (f : ScopeFrontier) : Prop :=
  bt_ok f /\ forall ts e n, bt_get f ts = Some (e, n) <-> exists sm, (sc, (e, ts, n), sm) ∈ heads.

Lemma tells_frontier s sel heads sc f : latest_heads s sel heads ->
  (forall sp, sp_scope sp = sc -> selects sel sp = true) -> tells heads sc f -> frontier_ok s sc f.
Proof.
  intros Hl Hsel [Hso Ht]. split; [done| |].
  - intros ts e n. rewrite Ht. apply (latest_heads_head s sel); [done|]. by apply Hsel.
  - intros sp sm Hat Esc. destruct (lh_every _ _ _ Hl sp sm Hat (Hsel _ Esc)) as ([[sc' [[e v] n]] sm'] & Hin & E1 & E2).
    cbn in E1, E2. unfold sid_version in E2. cbn in E2. subst. exists (e, n). apply Ht. by exists sm'.
Qed.

(** A head of a scope and version not seen before is added to the frontier. *)
Lemma tells_snoc l sc f ts e n sm : tells l sc f -> (forall h, h ∈ l -> spot h <> (sc, ts)) ->
  tells (l ++ [(sc, (e, ts, n), sm)]) sc (bt_insert f ts (e, n)) /\ bt_get f ts = None.
Proof.
  intros [Hso Ht] Hnew.
  assert (bt_get f ts = None) as Hn.
  { destruct (bt_get f ts) as [[e' n']|] eqn:Eg; [|done]. apply Ht in Eg as (sm' & Hin). by destruct (Hnew _ Hin). }
  split; [|done]. split; [by apply bt_insert_ok|]. intros ts' e' n'. rewrite bt_get_insert.
  destruct (Z.eqb_spec ts' ts) as [->|Hne].
  - split.
    + intros [= -> ->]. exists sm. apply elem_of_app. right. by left.
    + intros (sm' & [Hin|Hin%list_elem_of_singleton]%elem_of_app); [by destruct (Hnew _ Hin)|]. by injection Hin as -> -> ->.
  - rewrite Ht. split; intros (sm' & Hin); exists sm'; [apply elem_of_app; by left|].
    apply elem_of_app in Hin as [Hin|Hin%list_elem_of_singleton]; [done|]. by injection Hin.
Qed.

Lemma tells_other l sc f h : tells l sc f -> h.1.1 <> sc -> tells (l ++ [h]) sc f.
Proof.
  intros [Hso Ht] Hne. split; [done|]. intros ts e n. rewrite Ht. split; intros (sm & Hin); exists sm.
  - apply elem_of_app. by left.
  - apply elem_of_app in Hin as [Hin|<-%list_elem_of_singleton]; [done|]. done.
Qed.

Lemma tells_nil sc : tells [] sc [].
Proof. split; [constructor|]. intros ts e n. split; [done|]. by intros (sm & ?%elem_of_nil). Qed.

Lemma spots_fresh (l : list head_entry) h l' : NoDup (map spot (l ++ h :: l')) -> forall x, x ∈ l -> spot x <> spot h.
Proof.
  rewrite map_app. intros (_ & Hd & _)%NoDup_app x Hx E. apply (Hd (spot x)); [by apply list_elem_of_fmap_2|].
  rewrite E. cbn [map]. by left.
Qed.

(** ** The frontiers of a subject *)

Lemma frontier_add_all l l' scopes : NoDup (map spot (l ++ l')) ->
  NoDup (map fst scopes) -> (forall sc, tells l sc (default [] (vm_get scopes sc))) ->
  (forall sc, sc ∈ map fst scopes -> exists h, h ∈ l /\ h.1.1 = sc) ->
  exists scopes', foldM frontier_add l' scopes = Ok scopes'
    /\ NoDup (map fst scopes') /\ (forall sc, tells (l ++ l') sc (default [] (vm_get scopes' sc)))
    /\ (forall sc, sc ∈ map fst scopes' -> exists h, h ∈ l ++ l' /\ h.1.1 = sc).
Proof.
  revert l scopes; induction l' as [|[[sc [[e v] n]] sm] l' IH]; intros l scopes Hnd Hk Ht Hin;
    [exists scopes; by rewrite app_nil_r|].
  cbn [foldM frontier_add]. change (sid_version (e, v, n)) with v. change (sid_epoch (e, v, n)) with e.
  change (sid_node (e, v, n)) with n.
  destruct (tells_snoc l sc _ v e n sm (Ht sc)) as [Hsn Hnone]; [by apply (spots_fresh l _ l' Hnd)|].
  rewrite Hnone. cbn [mbind res_bind]. rewrite (cons_middle _ l l'), app_assoc in *.
  apply IH; [done|by apply vm_insert_nodup| |].
  - intros sc'. rewrite vm_get_insert. destruct (decide (sc' = sc)) as [->|Hne]; [done|]. by apply tells_other.
  - intros sc' [->|Hin']%vm_insert_keys; [eexists; split; [apply elem_of_app; right; by left|done]|].
    destruct (Hin sc' Hin') as (h & Hh & <-). exists h. split; [apply elem_of_app; by left|done].
Qed.

Lemma scan_frontiers_ok s sub lo hi : store_ok s -> subject_valid sub -> range_from_subject sub = Ok (lo, hi) ->
  exists scopes, scan_frontiers s sub = Ok scopes /\ NoDup (map fst scopes)
    /\ (forall sc, subject_contains sub sc = true -> frontier_ok s sc (default [] (vm_get scopes sc)))
    /\ (forall sc, sc ∈ map fst scopes -> subject_contains sub sc = true).
Proof.
  intros Hs Hsub Hr. unfold scan_frontiers. rewrite Hr. cbn [lift map_err mbind res_bind fst snd].
  rewrite range_from_subject_eq in Hr.
  destruct (collect_selected s (BySubject sub) lo hi Hs Hsub Hr) as (heads & Hl & Hc). rewrite Hc.
  destruct (frontier_add_all [] heads []) as (scopes & E & Hk & Ht & Hin);
    [exact (lh_nodup _ _ _ Hl)|constructor|intros sc; apply tells_nil|by intros sc ?%elem_of_nil|].
  exists scopes. split; [done|]. split; [done|]. split.
  - intros sc Hc'. apply (tells_frontier s (BySubject sub) heads); [done| |apply Ht]. intros sp <-. exact Hc'.
  - intros sc Hsc. destruct (Hin sc Hsc) as (h & Hh & <-). exact (latest_heads_selects _ _ _ _ Hl Hh).
Qed.

(** ** One scope *)

Section Scope.
Context (s : S) (Hs : store_ok s) (sc : Scope) (Hsc : scope_valid sc) (lo hi : bytes) (Hr : scope_range sc = Ok (lo, hi)).

Lemma scope_heads_of : exists heads, latest_heads s (BySubject (SubjScope sc)) heads
  /\ (forall h, h ∈ heads -> h.1.1 = sc)
  /\ forall (A : Type) (func : A -> head_entry -> res tx_error A) (a : A),
       collect_latest_heads s lo hi func a = foldM func heads a.
Proof.
  unfold scope_range, lift in Hr. destruct (partial_range "sync_point" (scope_vals sc)) as [r|e] eqn:Er; [|done].
  injection Hr as ->. destruct (collect_selected s (BySubject (SubjScope sc)) lo hi Hs Hsc Er) as (heads & Hl & Hc).
  exists heads. split; [done|]. split; [|done]. intros h Hh%(latest_heads_selects _ _ _ _ Hl). cbn in Hh.
  by apply bool_decide_eq_true in Hh.
Qed.

Definition frontier_step (f : ScopeFrontier) (h : head_entry) : res tx_error ScopeFrontier :=
  Ok (bt_insert f (sid_version h.1.2) (sid_epoch h.1.2, sid_node h.1.2)).

Lemma frontier_fold heads l f : (forall h, h ∈ heads -> h.1.1 = sc) -> NoDup (map spot (l ++ heads)) -> tells l sc f ->
  exists f', foldM frontier_step heads f = Ok f' /\ tells (l ++ heads) sc f'.
Proof.
  revert l f; induction heads as [|[[sc' [[e v] n]] sm] heads IH]; intros l f Hsch Hnd Ht.
  - exists f. by rewrite app_nil_r.
  - cbn [foldM frontier_step mbind res_bind fst snd].
    assert (sc' = sc) as -> by (apply (Hsch (sc', (e, v, n), sm)); by left).
    pose proof (spots_fresh l _ heads Hnd) as Hfresh.
    rewrite (cons_middle _ l heads), app_assoc in *. apply IH; [intros h Hh; apply Hsch; by right|done|].
    apply tells_snoc; [done|exact Hfresh].
Qed.

Lemma frontier_of_ok : exists f, frontier_of s sc = Ok f /\ frontier_ok s sc f.
Proof.
  destruct scope_heads_of as (heads & Hl & Hsch & Hc). unfold frontier_of. rewrite Hr. cbn [mbind res_bind fst snd].
  rewrite Hc. destruct (frontier_fold heads [] [] Hsch (lh_nodup _ _ _ Hl) (tells_nil sc)) as (f & E & Ht).
  exists f. split; [exact E|]. apply (tells_frontier s (BySubject (SubjScope sc)) heads); [done| |done].
  intros sp Esc. cbn. by apply bool_decide_eq_true.
Qed.

(** The identifiers and epochs of the heads, in the order of the scan. *)
Lemma scope_points_ok : exists heads, latest_heads s (BySubject (SubjScope sc)) heads
  /\ (forall h, h ∈ heads -> h.1.1 = sc)
  /\ scope_points s sc = Ok (map (fun h => h.1.2) heads)
  /\ scope_head_epochs s sc = Ok (map (fun h => (sid_version h.1.2, sid_epoch h.1.2)) heads).
Proof.
  destruct scope_heads_of as (heads & Hl & Hsch & Hc). exists heads. split; [done|]. split; [done|].
  unfold scope_points, scope_head_epochs. rewrite Hr. cbn [mbind res_bind fst snd]. rewrite !Hc.
  assert (forall B (g : head_entry -> B) l acc, foldM (E := tx_error) (fun acc h => Ok (acc ++ [g h])) l acc = Ok (acc ++ map g l)) as Hf.
  { intros B g l. induction l as [|h l IH]; intros acc; cbn [foldM map mbind res_bind]; [by rewrite app_nil_r|].
    rewrite IH. by rewrite <- app_assoc. }
  split; [exact (Hf _ (fun h => h.1.2) heads [])|exact (Hf _ (fun h => (sid_version h.1.2, sid_epoch h.1.2)) heads [])].
Qed.
End Scope.
End Frontier.
