(* ===== verification/ReplServe.v ===== *)
(** * Serving a catch-up

    What [serve_pull] and [handle_cs_req] hand out: the sync points of the
    scope the cursor does not exclude, in order, page by page or at once. *)

From S2P Require Import Prelude Bytes Skey SkeyRoundtrip SkeyOrder Keys KeyScan Domain Kv Rows RowsFacts Changeset Scans Tx Sample TxKeys TxInv TxReads TxScans TxSync TxOrder Announce Store StoreGc Repl ReplFacts.
From Stdlib Require Import ZArith Lia Strings.Byte Sorting.Sorted.
From stdpp Require Import base list option strings sets sorting.

Local Open Scope Z_scope.

(** ** Loops that stop early *)

Fixpoint whileM {A X} (func : A -> X -> res tx_error (A * bool)) (l : list X) (a : A) : res tx_error A :=
  match l with
  | [] => Ok a
  | x :: l => r ← func a x; let (a, more) := (r : A * bool) in if more then whileM func l a else Ok a
  end.

Lemma foldM_mapM {X Y} (skip : X -> bool) (f : X -> res tx_error Y) l acc :
  foldM (fun acc x => if skip x then Ok acc else y ← f x; Ok (acc ++ [y])) l acc
  = (ys ← mapM_res f (List.filter (fun x => negb (skip x)) l); Ok (acc ++ ys)).
Proof.
  revert acc; induction l as [|x l IH]; intros acc; cbn [foldM List.filter mapM_res mbind res_bind];
    [by rewrite app_nil_r|].
  destruct (skip x); cbn [negb mbind res_bind]; [by rewrite IH|]. cbn [mapM_res].
  destruct (f x) as [y|e]; cbn [mbind res_bind]; [|done]. rewrite IH.
  destruct (mapM_res f _); cbn [mbind res_bind]; [by rewrite <- app_assoc|done].
Qed.

(** A member of a filtered list splits the list, and what follows it is filtered alike. *)
Lemma filter_split {A} (f : A -> bool) l w1 x w2 : List.filter f l = w1 ++ x :: w2 ->
  exists a b, l = a ++ x :: b /\ List.filter f a = w1 /\ List.filter f b = w2.
Proof.
  revert w1; induction l as [|y l IH]; intros w1; cbn [List.filter]; [by destruct w1|].
  destruct (f y) eqn:Ey.
  - destruct w1 as [|z w1]; intros [= -> E]; [by exists [], l|].
    destruct (IH w1 E) as (a & b & -> & Ha & Hb). exists (z :: a), b. cbn [List.filter]. by rewrite Ey, Ha.
  - intros (a & b & -> & Ha & Hb)%IH. exists (y :: a), b. cbn [List.filter]. by rewrite Ey.
Qed.

Lemma sorted_nodup {A} (R : A -> A -> Prop) l : (forall x, ~ R x x) -> StronglySorted R l -> NoDup l.
Proof.
  intros Hi. induction 1 as [|x l _ IH Hall]; constructor; [|done]. intros Hx.
  rewrite Forall_forall in Hall. by apply (Hi x), Hall.
Qed.

Section Serve.
Context {S : Type} {kvS : Kv S} {kvLaws : KvLaws S}
  {pcMeta : Postcard SyncMeta} {pcMetaLaws : PostcardLaws SyncMeta}
  {pcBody : Postcard MeasurementBody}.
Implicit Types s : S.

Lemma while_rows {A} (func : A -> SyncPoint * SyncMeta -> res tx_error (A * bool)) rows l a :
  mapM_res decode_sync_row rows = Ok l -> sync_points_while func rows a = whileM func l a.
Proof.
  intros Hm%mapM_res_ok. revert a; induction Hm as [|r x rows l Hr _ IH]; intros a; [done|].
  cbn [sync_points_while whileM]. rewrite Hr. cbn [mbind res_bind]. destruct (func a x) as [[a' []]|e]; cbn; [apply IH|done|done].
Qed.

(** ** The sync points of a scope *)

Definition scope_list s (sc : Scope) (l : list (SyncPoint * SyncMeta)) : Prop :=
  sync_list s (BySubject (SubjScope sc)) l.

Lemma scope_list_elem s sc l sp sm : scope_list s sc l -> (sp, sm) ∈ l <-> sp_scope sp = sc /\ sync_at s sp sm.
Proof. intros [_ Hl]. rewrite Hl. cbn [selects subject_contains]. by rewrite bool_decide_eq_true. Qed.

(** A selection has one list. *)
Lemma sync_list_fun s sel l l' : sync_list s sel l -> sync_list s sel l' -> l = l'.
Proof.
  intros [Hs He] [Hs' He'].
  apply (StronglySorted_unique_strong (fun a b => key_lt a.1 b.1)); [|done|done|].
  - intros a b _ _ Hab Hba. by apply key_lt_asym in Hab.
  - apply NoDup_Permutation.
    + eapply sorted_nodup; [|exact Hs]. intros x Hx. by apply (key_lt_asym x.1 x.1).
    + eapply sorted_nodup; [|exact Hs']. intros x Hx. by apply (key_lt_asym x.1 x.1).
    + intros [sp sm]. by rewrite He, He'.
Qed.

Lemma selection_scan s sel lo hi :
  store_ok s -> selection_valid sel -> partial_range "sync_point" (selection_vals sel) = Ok (lo, hi) ->
  exists l, sync_list s sel l /\ mapM_res decode_sync_row (kv_range s lo (Some hi)) = Ok l
    /\ Forall2 (fun r x => encode x.1 = Ok r.1) (kv_range s lo (Some hi)) l.
Proof.
  intros Hs Hsel Hr. destruct (selection_range s sel lo hi Hr) as (p & Hp & Er).
  destruct (sync_rows_decode s sel p _ Hs Hsel Hp eq_refl) as (l & Hm & Hl & H2). exists l. by rewrite Er.
Qed.

Lemma scope_range_total sc raw : encode sc = Ok raw -> exists lo hi, scope_range sc = Ok (lo, hi).
Proof.
  intros Hraw. unfold scope_range, partial_range.
  assert (encode_steps (segs "sync_point") (scope_vals sc) = Ok (x23 :: raw ++ lit "sp")) as ->.
  { change (segs "sync_point") with ([Literal (lit "#")] ++ segs "scope" ++ drop 8 (segs "sync_point")).
    change (scope_vals sc) with ([] ++ scope_vals sc) at 1.
    change (x23 :: raw ++ lit "sp") with ([x23] ++ raw ++ lit "sp").
    apply encode_steps_app_ok; [done|done|]. rewrite <- (app_nil_r (scope_vals sc)) at 1.
    apply encode_steps_app_ok; [done|exact Hraw|done]. }
  cbn [mbind res_bind lift map_err]. unfold range_of, prefix_to_range. cbn [rev]. rewrite rev_app_distr. cbn.
  eauto.
Qed.

(** ** Scans from a cursor *)

Lemma sorted_split_lt {V} (l1 : list (bytes * V)) x l2 :
  StronglySorted blt (map fst (l1 ++ x :: l2)) ->
  (forall y, y ∈ l1 -> blt y.1 x.1) /\ (forall y, y ∈ l2 -> blt x.1 y.1) /\ StronglySorted blt (map fst (x :: l2)).
Proof.
  induction l1 as [|z l1 IH]; cbn [app]; intros Hso.
  - split; [by intros y ?%elem_of_nil|]. split; [|done]. by apply sorted_head_lt.
  - pose proof (sorted_head_lt z (l1 ++ x :: l2) Hso) as Hz. apply StronglySorted_inv in Hso as [Hso _].
    destruct (IH Hso) as (H1 & H2 & H3). split; [|done]. intros y [->|Hy]%elem_of_cons; [|by apply H1].
    apply Hz, elem_of_app. right. by left.
Qed.

(** A scan that starts at a sync point sees it and what follows it. *)
Lemma cursor_scan s sc lo hi a x b k : scope_range sc = Ok (lo, hi) -> store_ok s -> scope_valid sc ->
  scope_list s sc (a ++ x :: b) -> encode x.1 = Ok k ->
  mapM_res decode_sync_row (kv_range s k (Some hi)) = Ok (x :: b).
Proof.
  intros Hr Hs Hsc Hl Hk. unfold scope_range, lift in Hr.
  destruct (partial_range "sync_point" (scope_vals sc)) as [r|e] eqn:Er; [|done]. injection Hr as ->.
  destruct (selection_scan s (BySubject (SubjScope sc)) lo hi Hs Hsc Er) as (l & Hl' & Hm & _).
  rewrite (sync_list_fun _ _ _ _ Hl' Hl) in Hm. apply mapM_res_ok in Hm.
  apply Forall2_app_inv_r in Hm as (ra & rb & Ha & Hxb & Erows). inversion Hxb as [|r x' rb' b' Hrx Hb]; subst.
  assert (Forall2 (fun r y => decode_sync_row r = Ok y) (r :: rb') (x :: b)) as Hm by (by constructor).
  apply mapM_res_ok. enough (kv_range s k (Some hi) = r :: rb') as -> by done.
  assert (r ∈ kv_range s lo (Some hi)) as Hin by (rewrite Erows; apply elem_of_app; right; by left).
  assert (r.1 = k) as Ek.
  { destruct r as [k' v']. apply kv_range_elem in Hin as (Hg & Hlo & Hhi). cbn [fst].
    destruct (partial_range_region _ _ _ Er) as [R1 R2].
    destruct (sync_row s k' v' Hs Hg) as (sp & sm & Hd & He & _); [by apply (region_range sync_tag lo hi)|].
    rewrite Hrx in Hd. apply Ok_inj in Hd as ->. cbn [fst] in Hk. congruence. }
  pose proof (kv_range_sorted s lo (Some hi)) as Hso. rewrite Erows in Hso.
  destruct (sorted_split_lt _ _ _ Hso) as (Hbefore & Hafter & Hso').
  apply sorted_ext; [apply kv_range_sorted|done|]. intros [k' v'].
  destruct r as [kr vr]. cbn [fst] in Ek. subst kr. pose proof Hin as (_ & Hlo & _)%kv_range_elem.
  assert ((k', v') ∈ kv_range s k (Some hi) <-> (k', v') ∈ kv_range s lo (Some hi) /\ ble k k') as ->.
  { rewrite !kv_range_elem. split; [|tauto]. intros (? & ? & ?). split; [|done]. split; [done|]. split; [|done].
    by apply (ble_trans _ k). }
  rewrite Erows, elem_of_app. split.
  - intros [[Hin'|Hin'] Hle]; [|done]. exfalso. apply Hbefore in Hin'. cbn [fst] in Hin'. by apply not_ble in Hin'.
  - intros Hin'. split; [by right|]. apply elem_of_cons in Hin' as [[= -> ->]|Hin']; [apply ble_refl|].
    apply Hafter in Hin'. by apply blt_ble.
Qed.

(** ** One chunk *)

Section Holder.
Context (Htyped : typed) (s : S) (Hs : store_ok s) (sc : Scope) (raw : bytes) (Hsc : scope_valid sc)
  (Hraw : encode sc = Ok raw).

Lemma serve_chunk_ok sp sm : sync_at s sp sm -> sp_scope sp = sc ->
  exists c, serve_chunk s sc (sp, sm) = Ok c /\ ck_id c = as_id sp /\ chunk_valid sc c.
Proof.
  intros Hat Esc. pose proof Hat as (Hv & k & v & Hk & _ & Hb). unfold serve_chunk. cbn [fst snd].
  assert (with_sp_id sc (as_id sp) = sp) as Esp by (by symmetry; apply with_sp_id_as_id).
  destruct (sm_marker sm) eqn:Em.
  - rewrite Hraw. cbn [lift map_err mbind res_bind].
    destruct (changeset_at_spec s raw (sp_ts sp) (so_index _ Hs) (proj1 (proj2 Hv))) as (es & E & _).
    rewrite E. cbn [mbind res_bind]. eexists. split; [done|]. split; [done|]. split; [|split]; cbn [ck_id ck_meta ck_entries].
    + by rewrite Esp.
    + by eapply Htyped.
    + eapply (changeset_entries_ok s); [done| |exact E]. apply Hv.
  - eexists. split; [done|]. split; [done|]. split; [|split]; cbn [ck_id ck_meta ck_entries].
    + by rewrite Esp.
    + by eapply Htyped.
    + constructor.
Qed.

Lemma serve_chunks_ok l : (forall sp sm, (sp, sm) ∈ l -> sp_scope sp = sc /\ sync_at s sp sm) ->
  exists cs, mapM_res (serve_chunk s sc) l = Ok cs /\ map ck_id cs = map (fun x => as_id x.1) l
    /\ Forall (chunk_valid sc) cs.
Proof.
  induction l as [|[sp sm] l IH]; intros Hl; [by exists []|].
  destruct IH as (cs & E & Hids & Hval); [intros; apply Hl; by right|].
  destruct (Hl sp sm) as [Esc Hat]; [by left|]. destruct (serve_chunk_ok sp sm Hat Esc) as (c & Ec & Hid & Hv).
  exists (c :: cs). cbn [mapM_res map]. rewrite Ec. cbn [mbind res_bind]. rewrite E. cbn [mbind res_bind].
  split; [done|]. split; [by rewrite Hid, Hids|by constructor].
Qed.

(** ** A page *)

Definition wanted (since : option Version) (floors : list (Version * Epoch)) (x : SyncPoint * SyncMeta) : bool :=
  negb (cursor_skips since floors (sp_ts x.1) (sp_epoch x.1)).

Definition page_size (cs : list Chunk) : Z :=
  fold_left (fun b c => saturating_add (saturating_add b (chunk_size (ck_entries c))) CHUNK_WIRE_OVERHEAD) cs 0.

(** The chunks before the last one of a page are within the budget. *)
Definition page_bounded (budget : Z) (cs : list Chunk) : Prop :=
  forall c0 cs0 c, cs = (c0 :: cs0) ++ [c] -> page_size (c0 :: cs0) < budget.

Section Page.
Context (req : PullRequest) (Hreq : pr_scope req = sc) (budget : Z).

(** Going through the rows of a scan: the chunks of the first wanted ones, and a
    cursor when some are left. *)
Lemma serve_walk l acc :
  (forall x, x ∈ l -> Some (as_id x.1) <> pr_after req /\ sp_scope x.1 = sc /\ sync_at s x.1 x.2) ->
  page_bounded budget acc ->
  let w := List.filter (wanted (pr_since_ts req) (pr_epoch_floors req)) l in
  exists n cs b nx, whileM (serve_step s req budget) l (acc, page_size acc, None) = Ok (acc ++ cs, b, nx)
    /\ mapM_res (serve_chunk s sc) (take n w) = Ok cs /\ page_bounded budget (acc ++ cs)
    /\ ((n = length w /\ nx = None) \/ ((n < length w)%nat /\ acc ++ cs <> [] /\ nx = ck_id <$> last (acc ++ cs))).
Proof.
  revert acc; induction l as [|[sp sm] l IH]; intros acc Hl Hb; cbn [List.filter whileM].
  { exists 0%nat, [], (page_size acc), None. rewrite app_nil_r. split; [done|]. split; [done|]. split; [done|]. by left. }
  destruct (Hl (sp, sm)) as (Hne & Esc & Hat); [by left|]. cbn [fst snd] in *.
  assert (forall x, x ∈ l -> Some (as_id x.1) <> pr_after req /\ sp_scope x.1 = sc /\ sync_at s x.1 x.2) as Hl'
    by (intros x Hx; apply Hl; by right).
  unfold serve_step at 2. cbn [fst snd]. rewrite bool_decide_eq_false_2 by congruence.
  change (wanted (pr_since_ts req) (pr_epoch_floors req) (sp, sm))
    with (negb (cursor_skips (pr_since_ts req) (pr_epoch_floors req) (sp_ts sp) (sp_epoch sp))).
  destruct (cursor_skips _ _ (sp_ts sp) (sp_epoch sp)); cbn [negb mbind res_bind]; [by apply IH|].
  destruct (negb (bool_decide (acc = [])) && (budget <=? page_size acc)) eqn:Ef.
  - apply andb_prop in Ef as [Ef _]. apply Bool.negb_true_iff, bool_decide_eq_false in Ef.
    exists 0%nat, [], (page_size acc), (ck_id <$> last acc). rewrite app_nil_r. cbn [take mapM_res mbind res_bind].
    split; [done|]. split; [done|]. split; [done|]. right. cbn [length]. split; [lia|done].
  - rewrite Hreq. destruct (serve_chunk_ok sp sm Hat Esc) as (c & Ec & _). rewrite Ec. cbn [mbind res_bind].
    destruct (IH (acc ++ [c]) Hl') as (n & cs & b & nx & E & Hm & Hb' & Hend).
    { intros c0 cs0 c' [E1 E2]%app_inj_tail. apply Bool.andb_false_iff in Ef as [Ef|Ef]; rewrite E1 in Ef.
      - by apply Bool.negb_false_iff, bool_decide_eq_true in Ef.
      - by apply Z.leb_gt in Ef. }
    unfold page_size in E at 1. rewrite fold_left_app in E. cbn [fold_left] in E. fold (page_size acc) in E.
    rewrite <- app_assoc in E, Hb', Hend. exists (Datatypes.S n), (c :: cs), b, nx.
    split; [exact E|]. split; [cbn [take mapM_res]; rewrite Ec; cbn [mbind res_bind]; by rewrite Hm|].
    split; [exact Hb'|]. destruct Hend as [[-> ->]|(Hn & Hne' & ->)]; [by left|right]. cbn [length]. split; [lia|]. done.
Qed.

End Page.

(** ** A pull *)

(** Where a cursor stands in the list: at its start, or after a sync point of it. *)
Definition cursor_at (after : option SyncPointId) (served : list (SyncPoint * SyncMeta)) : Prop :=
  match after with
  | None => served = []
  | Some id => exists l x, served = l ++ [x] /\ as_id x.1 = id
  end.

Lemma serve_pull_page served rest after since floors budget :
  scope_list s sc (served ++ rest) -> cursor_at after served ->
  let w := List.filter (wanted since floors) rest in
  exists n cs nx, serve_pull_at s (mkPullRequest sc after since floors) budget = Ok (mkPullResponse cs nx)
    /\ mapM_res (serve_chunk s sc) (take n w) = Ok cs /\ page_bounded budget cs
    /\ ((n = length w /\ nx = None) \/ ((n < length w)%nat /\ cs <> [] /\ nx = ck_id <$> last cs)).
Proof.
  intros Hl Hc w. destruct (scope_range_total sc raw Hraw) as (lo & hi & Hr).
  set (req := mkPullRequest sc after since floors).
  assert (forall x, x ∈ served ++ rest -> sp_scope x.1 = sc /\ sync_at s x.1 x.2) as Hall
    by (intros [sp sm]; by apply (scope_list_elem s sc)).
  assert (forall x, x ∈ rest -> Some (as_id x.1) <> after /\ sp_scope x.1 = sc /\ sync_at s x.1 x.2) as Hrest.
  { intros x Hx. split; [|apply Hall, elem_of_app; by right]. destruct after as [id|]; [|done]. intros [= <-].
    destruct Hc as (l & y & -> & Ey). destruct Hl as [Hso _].
    assert (x = y) as <-.
    { destruct (Hall x) as [Ex Hax]; [apply elem_of_app; by right|].
      destruct (Hall y) as [Ey' Hay]; [rewrite !elem_of_app, list_elem_of_singleton; auto|].
      assert (x.1 = y.1) as E by (rewrite (proj2 (with_sp_id_as_id sc x.1 (as_id y.1))) by done; symmetry; by apply with_sp_id_as_id).
      destruct x as [sp sm], y as [sp' sm']. cbn [fst snd] in *. subst sp'. by rewrite (sync_at_fun s sp sm sm' Hax Hay). }
    apply (sorted_nodup _ _ (fun x H => key_lt_asym x.1 x.1 H H)) in Hso.
    apply NoDup_app in Hso as (_ & Hd & _). apply (Hd x); [apply elem_of_app; right; by left|done]. }
  destruct (serve_walk req eq_refl budget rest [] Hrest) as (n & cs & b & nx & E & Hm & Hb & Hend);
    [by intros c0 cs0 c ?%(f_equal length)|].
  exists n, cs, nx. split; [|done]. unfold serve_pull_at. cbn [pr_scope pr_after req]. rewrite Hr. cbn [mbind res_bind fst snd].
  enough (exists lower, match after with Some id => lift (encode (with_sp_id sc id)) | None => Ok lo end = Ok lower
    /\ find_sync_points_while s lower hi (serve_step s req budget) ([], 0, None) = Ok (cs, b, nx)) as (lower & -> & E').
  { cbn [mbind res_bind]. by rewrite E'. }
  unfold find_sync_points_while. destruct after as [id|].
  - destruct Hc as (l & x & -> & <-). destruct (Hall x) as [Ex Hax]; [rewrite !elem_of_app, list_elem_of_singleton; auto|].
    pose proof Hax as (_ & k & v & Hk & _). exists k.
    assert (with_sp_id sc (as_id x.1) = x.1) as -> by (symmetry; by apply with_sp_id_as_id).
    rewrite Hk. split; [done|]. rewrite <- app_assoc in Hl. cbn [app] in Hl.
    rewrite (while_rows _ _ (x :: rest)) by (by apply (cursor_scan s sc lo hi l x rest k)).
    cbn [whileM]. unfold serve_step at 2. cbn [pr_after req]. by rewrite bool_decide_eq_true_2 by done.
  - exists lo. split; [done|]. unfold scope_range, lift in Hr.
    destruct (partial_range "sync_point" (scope_vals sc)) as [r|e] eqn:Er; [|done]. injection Hr as ->.
    destruct (selection_scan s (BySubject (SubjScope sc)) lo hi Hs Hsc Er) as (l & Hl' & Hm' & _).
    cbn in Hc. subst served. rewrite (sync_list_fun _ _ _ _ Hl' Hl) in Hm'. by rewrite (while_rows _ _ rest) by done.
Qed.

(** ** All at once *)

Lemma scope_list_exists : exists l, scope_list s sc l.
Proof.
  destruct (scope_range_total sc raw Hraw) as (lo & hi & Hr). unfold scope_range, lift in Hr.
  destruct (partial_range "sync_point" (scope_vals sc)) as [r|e] eqn:Er; [|done]. injection Hr as ->.
  destruct (selection_scan s (BySubject (SubjScope sc)) lo hi Hs Hsc Er) as (l & Hl & _). by exists l.
Qed.

Lemma requested_chunks_ok l since floors : scope_list s sc l ->
  requested_chunks s (mkChangeSetReq sc since floors)
  = mapM_res (serve_chunk s sc) (List.filter (wanted since floors) l).
Proof.
  intros Hl. destruct (scope_range_total sc raw Hraw) as (lo & hi & Hr). unfold requested_chunks. cbn [cq_scope].
  rewrite Hr. cbn [mbind res_bind fst snd cq_since_ts cq_epoch_floors]. unfold scope_range, lift in Hr.
  destruct (partial_range "sync_point" (scope_vals sc)) as [r|e] eqn:Er; [|done]. injection Hr as ->.
  destruct (selection_scan s (BySubject (SubjScope sc)) lo hi Hs Hsc Er) as (l' & Hl' & Hm & _).
  rewrite (sync_list_fun _ _ _ _ Hl' Hl) in Hm. unfold find_sync_points. rewrite (foldM_rows _ _ l) by done.
  rewrite (foldM_mapM (fun x : SyncPoint * SyncMeta => cursor_skips since floors (sp_ts x.1) (sp_epoch x.1))).
  cbn [app]. change (fun x : SyncPoint * SyncMeta => negb (cursor_skips since floors (sp_ts x.1) (sp_epoch x.1)))
    with (wanted since floors). by destruct (mapM_res (serve_chunk s sc) (List.filter (wanted since floors) l)).
Qed.

Lemma served_ids l cs : (forall sp sm, (sp, sm) ∈ l -> sp_scope sp = sc /\ sync_at s sp sm) ->
  mapM_res (serve_chunk s sc) l = Ok cs -> map ck_id cs = map (fun x => as_id x.1) l.
Proof. intros Hl E. destruct (serve_chunks_ok l Hl) as (cs' & E' & Hids & _). rewrite E' in E. by apply Ok_inj in E as <-. Qed.

(** A page of a pull is bounded and loses nothing: the chunks are those of the next
    wanted sync points past the cursor, in order; all but the last fit in the
    budget; a page is empty only if nothing is left, and it carries a cursor,
    the last sync point it serves, exactly if more remain.  The holder's rows
    are unchanged. *)
Theorem serve_pull_bounded (cfg : Config) (env : Env) (st : Store) (served rest : list (SyncPoint * SyncMeta))
    (after : option SyncPointId) (since : option Version) (floors : list (Version * Epoch)) (budget : Z)
    (Hb : st_backend st = Some s) (Hacc : env_accepts env) (Hsub : subject_contains (rc_subject cfg) sc = true)
    (Hl : scope_list s sc (served ++ rest)) (Hc : cursor_at after served) :
  let w := List.filter (wanted since floors) rest in
  exists cs nx st', serve_pull cfg (mkPullRequest sc after since floors) budget env st = (Ok (mkPullResponse cs nx), st')
    /\ st_backend st' = Some s
    /\ (exists n, map ck_id cs = map (fun x => as_id x.1) (take n w))
    /\ (forall pre c, cs = pre ++ [c] -> pre <> [] -> page_size pre < budget)
    /\ (cs = [] -> w = [])
    /\ nx = if (length cs =? length w)%nat then None else ck_id <$> last cs.
Proof.
  intros w. destruct (serve_pull_page served rest after since floors budget Hl Hc) as (n & cs & nx & E & Hm & Hbd & Hend).
  fold w in Hm, Hend. exists cs, nx. unfold serve_pull. cbn [pr_scope]. rewrite Hsub. cbn [negb].
  unfold mbind, SM_bind. rewrite (begin_local_ok _ _ s) by done. unfold smres. cbn [tx_store]. rewrite E.
  eexists. split; [reflexivity|]. split; [done|].
  assert (map ck_id cs = map (fun x => as_id x.1) (take n w)) as Hids.
  { apply served_ids; [|done]. intros sp sm Hin%(subseteq_take n w _). apply (scope_list_elem s sc (served ++ rest)); [done|].
    apply elem_of_app. right. by apply elem_of_filterb in Hin as [? _]. }
  split; [by exists n|]. split.
  { intros [|c0 pre] c -> Hne; [done|]. by eapply Hbd. }
  pose proof (f_equal length Hids) as Hlen. rewrite !length_map, length_take in Hlen.
  destruct Hend as [[-> ->]|(Hn & Hne & ->)].
  - rewrite Hlen, Nat.min_id, Nat.eqb_refl. split; [|done]. intros ->. destruct w; [done|]. cbn in Hlen. lia.
  - split; [done|]. rewrite (proj2 (Nat.eqb_neq _ _)) by lia. done.
Qed.
End Holder.

End Serve.

(** ** Examples *)

Import Sample.

Definition sample_gc_points : list (SyncPoint * SyncMeta) :=
  [(mkSyncPoint Sample.scope 9 9 Sample.me, retained 5); (mkSyncPoint Sample.scope 95 95 Sample.me, retained 50)].

Lemma gc_scope_valid : scope_valid Sample.scope.
Proof. apply (proj1 (sample_point_valid 9 9 ltac:(unfold is_u64; lia) ltac:(unfold is_u64; lia))). Qed.

Lemma sample_gc_list : scope_list sample_gc_store Sample.scope sample_gc_points.
Proof.
  destruct (partial_range "sync_point" (selection_vals (BySubject (SubjScope Sample.scope)))) as [[lo hi]|] eqn:Er; [|vm_compute in Er; done].
  destruct (selection_scan sample_gc_store (BySubject (SubjScope Sample.scope)) lo hi sample_gc_ok gc_scope_valid Er) as (l & Hl & Hm & _).
  enough (Ok (E := tx_error) l = Ok sample_gc_points) as [= <-] by exact Hl. rewrite <- Hm. apply Ok_inj in Er.
  vm_compute in Er. injection Er as <- <-. vm_compute. reflexivity.
Qed.

Lemma serve_pull_bounded_witness :
  exists cs nx st', serve_pull (sample_config Full) (mkPullRequest Sample.scope None None []) 1 sample_env (sample_store sample_gc_store)
    = (Ok (mkPullResponse cs nx), st') /\ (cs = [] -> sample_gc_points = []).
Proof.
  destruct (encode Sample.scope) as [raw|] eqn:Hraw; [|vm_compute in Hraw; discriminate].
  destruct (serve_pull_bounded sample_typed sample_gc_store sample_gc_ok Sample.scope raw gc_scope_valid Hraw
    (sample_config Full) sample_env (sample_store sample_gc_store) [] sample_gc_points None None [] 1
    eq_refl sample_env_accepts eq_refl sample_gc_list eq_refl) as (cs & nx & st' & H1 & _ & _ & _ & H2 & _).
  exists cs, nx, st'. split; [exact H1|exact H2].
Defined.

Example pages_of_one :
  fst (serve_pull (sample_config Full) (mkPullRequest Sample.scope None None []) 1 sample_env (sample_store sample_gc_store))
  = Ok (mkPullResponse [mkChunk (9, 9, Sample.me) (retained 5) [(key_a_bytes, Some [x2a])]] (Some (9, 9, Sample.me))).
Proof. vm_compute. reflexivity. Qed.
