(* ===== verification/ReplPull.v ===== *)
(** * Pulling from a holder

    A pull goes through the pages a holder serves until it is drained.  It
    ends, whatever the size of the pages, and leaves the puller with every
    sync point the holder was to hand out. *)

From S2P Require Import Prelude Bytes Skey SkeyRoundtrip SkeyOrder Keys KeyScan Domain Kv Rows RowsFacts Changeset Scans Tx Sample TxKeys TxInv TxReads TxScans TxSync TxOrder Announce Store StoreGc Repl ReplFacts ReplServe.
From Stdlib Require Import ZArith Lia Strings.Byte Sorting.Sorted.
From stdpp Require Import base list option strings sets.

Local Open Scope Z_scope.

Definition res_option {E A} (r : res E A) : option A := match r with Ok a => Some a | Err _ => None end.

Lemma mapM_res_app {E A B} (f : A -> res E B) l k xs ys :
  mapM_res f l = Ok xs -> mapM_res f k = Ok ys -> mapM_res f (l ++ k) = Ok (xs ++ ys).
Proof. rewrite !mapM_res_ok. apply Forall2_app. Qed.

Section Pull.
Context {S : Type} {kvS : Kv S} {kvLaws : KvLaws S}
  {pcMeta : Postcard SyncMeta} {pcMetaLaws : PostcardLaws SyncMeta}
  {pcBody : Postcard MeasurementBody}.
Implicit Types s : S.

Lemma run_all_app (fs gs : list (Version * (S -> S))) s : run_all (fs ++ gs) s = run_all gs (run_all fs s).
Proof. unfold run_all. apply fold_left_app. Qed.

(** The node's state but for its store. *)
Definition same_node (nd nd' : Node (S := S)) : Prop :=
  nd_stopped nd' = nd_stopped nd /\ nd_probes nd' = nd_probes nd /\ nd_pulling nd' = nd_pulling nd
  /\ nd_latest nd' = nd_latest nd /\ nd_scans nd' = nd_scans nd /\ nd_covered nd' = nd_covered nd
  /\ nd_published nd' = nd_published nd.

Lemma same_node_trans a b c : same_node a b -> same_node b c -> same_node a c.
Proof. unfold same_node. naive_solver congruence. Qed.

(** ** Steps that leave the rows alone *)

Definition quiet (nd nd' : Node (S := S)) : Prop :=
  st_backend (nd_store nd') = st_backend (nd_store nd) /\ nd_pulling nd' = nd_pulling nd.

Definition quietly {A} (m : RM (S := S) A) : Prop := forall cx nd, quiet nd (m cx nd).2.

Lemma quietly_bind {A B} (m : RM (S := S) A) (f : A -> RM B) : quietly m -> (forall a, quietly (f a)) -> quietly (m ≫= f).
Proof.
  intros Hm Hf cx nd. unfold mbind, RM_bind. specialize (Hm cx nd). destruct (m cx nd) as [[a|e] nd1]; [|done].
  destruct Hm as [H1 H2], (Hf a cx nd1) as [H3 H4]. cbn [snd] in *. split; congruence.
Qed.

Lemma quietly_store {A} (m : SM (S := S) A) : (forall env st, st_backend (m env st).2 = st_backend st) -> quietly (on_store m).
Proof. intros Hm cx nd. specialize (Hm (cx_env cx) (nd_store nd)). unfold on_store. by destruct (m _ _). Qed.

Lemma quietly_rescan cfg : quietly (rescan cfg).
Proof.
  apply quietly_bind; [apply quietly_store; intros; unfold begin_local; by repeat case_match|intros tx].
  do 2 (apply quietly_bind; [by apply quietly_store|intros ?]). by intros cx nd.
Qed.

Lemma quietly_frontiers : quietly frontiers.
Proof.
  apply quietly_bind; [by intros cx nd|intros cfg]. apply quietly_bind; [by apply quietly_store|intros now].
  apply quietly_bind; [by intros cx nd|intros [c|]]; [|apply quietly_rescan].
  destruct (now <=? fr_scanned_at c); [by intros cx nd|apply quietly_rescan].
Qed.

Lemma quietly_announce filter floored : quietly (send_announce filter floored).
Proof.
  apply quietly_bind; [apply quietly_store; intros; unfold is_unavailable; by repeat case_match|intros [|]]; [by intros cx nd|].
  apply quietly_bind; [by intros cx nd|intros cfg]. apply quietly_bind; [apply quietly_frontiers|by intros fr cx nd].
Qed.

Context (Hser : serialises) (Htyped : typed) (sc : Scope) (raw : bytes) (Hsc : scope_valid sc) (Hraw : encode sc = Ok raw).
(** The holder: its rows, and that it answers pulls with [serve_pull]. *)
Context (s1 : S) (Hs1 : store_ok s1) (target : NodeId) (budget : nat -> Z) (cx : Ctx)
  (He : env_ok (cx_env cx)) (Hacc : env_accepts (cx_env cx)).
Context (Hholder : forall n req, pr_scope req = sc ->
  tr_pull (cx_transport cx) n target req = res_option (serve_pull_at s1 req (budget n))).

Lemma scope_members l : scope_list s1 sc l -> forall sp sm, (sp, sm) ∈ l -> sp_scope sp = sc /\ sync_at s1 sp sm.
Proof. intros Hl sp sm. by apply scope_list_elem. Qed.

(** What is left of a list after a page that ends with a chunk. *)
Lemma page_rest since floors rest n cs cs0 c : let w := List.filter (wanted since floors) rest in
  mapM_res (serve_chunk s1 sc) w = Ok cs -> mapM_res (serve_chunk s1 sc) (take n w) = Ok (cs0 ++ [c]) ->
  exists a x b cs2, rest = a ++ x :: b /\ List.filter (wanted since floors) b = drop n w
    /\ mapM_res (serve_chunk s1 sc) (drop n w) = Ok cs2 /\ cs = (cs0 ++ [c]) ++ cs2
    /\ ck_id c = as_id x.1 /\ (0 < n)%nat.
Proof.
  intros w Hcs Hm. pose proof Hm as Hm0. apply mapM_res_ok, Forall2_app_inv_r in Hm0 as (w1 & w2 & Hw1 & Hw2 & Ew).
  inversion Hw2 as [|x c' w2' cs' Hx Hnil]; subst. inversion Hnil; subst.
  pose proof (take_drop n w) as Etd. rewrite Ew, <- app_assoc in Etd. cbn [app] in Etd.
  destruct (filter_split _ _ _ _ _ (eq_sym Etd)) as (a & b & Erest & Ha & Hb').
  assert (exists cs2, mapM_res (serve_chunk s1 sc) (drop n w) = Ok cs2) as (cs2 & Hcs2).
  { rewrite <- (take_drop n w), mapM_res_ok in Hcs. apply Forall2_app_inv_l in Hcs as (? & cs2 & _ & Hd & _).
    exists cs2. by apply mapM_res_ok. }
  exists a, x, b, cs2. split_and!; try done.
  - rewrite <- (take_drop n w), (mapM_res_app _ _ _ (cs0 ++ [c]) cs2) in Hcs by done. by apply Ok_inj in Hcs.
  - destruct x as [sp sm]. unfold serve_chunk in Hx. apply res_bind_ok in Hx as (es & _ & Hx). by apply Ok_inj in Hx as <-.
  - destruct n; [|lia]. by destruct w1.
Qed.

Lemma pull_loop_ok fuel served rest after since floors pages oldest cs (nd : Node) s2 :
  scope_list s1 sc (served ++ rest) -> cursor_at after served ->
  (length (List.filter (wanted since floors) rest) < fuel)%nat ->
  mapM_res (serve_chunk s1 sc) (List.filter (wanted since floors) rest) = Ok cs ->
  st_backend (nd_store nd) = Some s2 -> store_ok s2 ->
  exists p o nd', pull_loop fuel target (mkPullRequest sc after since floors) pages oldest cx nd = (Ok (PullDrained p o), nd')
    /\ st_backend (nd_store nd') = Some (run_all (effects sc cs) s2) /\ same_node nd nd'.
Proof.
  revert served rest after pages oldest cs nd s2; induction fuel as [|fuel IH];
    intros served rest after pages oldest cs nd s2 Hl Hc Hfuel Hcs Hb Hs2; [lia|].
  cbn [pull_loop]. unfold mbind at 1, RM_bind at 1, rprim at 1. rewrite Hholder by done.
  destruct (serve_pull_page Htyped s1 Hs1 sc raw Hsc Hraw served rest after since floors (budget (st_calls (nd_store nd))) Hl Hc)
    as (n & cs1 & nx & -> & Hm & _ & Hend).
  set (w := List.filter (wanted since floors) rest) in *. cbn [res_option pl_chunks pl_next].
  assert (Forall (chunk_valid sc) cs1) as Hval.
  { destruct (serve_chunks_ok Htyped s1 Hs1 sc raw Hraw (take n w)) as (cs' & E' & _ & Hv);
      [|rewrite E' in Hm; by apply Ok_inj in Hm as <-].
    intros sp sm Hin%(subseteq_take n w _). apply (scope_members _ Hl), elem_of_app. right.
    by apply elem_of_filterb in Hin as [? _]. }
  set (nd1 := set_nd_store nd (called (nd_store nd))).
  destruct (apply_pull_ok Hser sc raw Hraw (cx_env cx) He Hacc cs1 (nd_store nd1) s2 Hb Hs2 Hval) as (st1 & E1 & Hb1).
  unfold mbind, RM_bind, rattempt, on_store. cbn [pr_scope]. rewrite E1.
  assert (store_ok (run_all (effects sc cs1) s2)) as Hs2' by (by apply (run_effects_spec Hser sc raw)).
  destruct Hend as [[-> ->]|(Hn & Hne & Enx)].
  { rewrite take_ge in Hm by lia. rewrite Hcs in Hm. apply Ok_inj in Hm as <-. do 2 eexists. eexists.
    split; [reflexivity|]. split; [done|]. done. }
  (* The cursor is the last chunk of the page; what follows it is still to come. *)
  destruct cs1 as [|c cs0 _] using rev_ind; [done|]. rewrite last_snoc in Enx. cbn in Enx. subst nx.
  destruct (page_rest since floors rest n cs cs0 c Hcs Hm) as (a & x & b & cs2 & Erest & Hb' & Hcs2 & -> & Eid & Hn0).
  destruct (IH (served ++ a ++ [x]) b (Some (ck_id c)) (Datatypes.S pages) (page_oldest oldest (cs0 ++ [c])) cs2
              (set_nd_store nd1 st1) (run_all (effects sc (cs0 ++ [c])) s2)) as (p & o & nd' & E & Hb2 & Hsame).
  - rewrite Erest in Hl. rewrite <- !app_assoc. exact Hl.
  - exists (served ++ a), x. rewrite Eid. by rewrite app_assoc.
  - rewrite Hb', length_drop. fold w. lia.
  - by rewrite Hb'.
  - exact Hb1.
  - exact Hs2'.
  - exists p, o, nd'. split; [exact E|]. split.
    + rewrite Hb2. unfold effects. by rewrite (map_app _ (cs0 ++ [c]) cs2), run_all_app.
    + by eapply same_node_trans; [|exact Hsame].
Qed.

(** C11. Pulling from a holder that answers ends and catches up, whatever the sizes of
    the pages, if the engine accepts what it is given: with as many pages allowed as there are sync points to hand
    out, the pull reports success, the puller then holds every sync point of
    the scope its cursor does not exclude, it loses none, and the slot of the
    pull is free again. *)
Theorem pull_from_drains (nd : Node) (s2 : S) (since : option Version) (floors : list (Version * Epoch))
    (l : list (SyncPoint * SyncMeta)) (Hl : scope_list s1 sc l) (Hb : st_backend (nd_store nd) = Some s2) (Hs2 : store_ok s2)
    (Hfree : vm_get (nd_pulling nd) (target, sc) = None)
    (Hpages : (length (List.filter (wanted since floors) l) < rc_pages (cx_config cx))%nat) :
  exists nd' s2', pull_from target sc since floors cx nd = (Ok true, nd')
    /\ st_backend (nd_store nd') = Some s2' /\ store_ok s2' /\ keeps s2 s2'
    /\ nd_pulling nd' = nd_pulling nd
    /\ forall sp sm, sync_at s1 sp sm -> sp_scope sp = sc -> cursor_skips since floors (sp_ts sp) (sp_epoch sp) = false ->
         exists sm', sync_at s2' sp sm'.
Proof.
  destruct (serve_chunks_ok Htyped s1 Hs1 sc raw Hraw (List.filter (wanted since floors) l)) as (cs & Hcs & Hids & Hval).
  { intros sp sm [Hin _]%elem_of_filterb. by apply (scope_members l). }
  destruct (run_effects_spec Hser sc raw Hraw cs s2 Hval Hs2) as (Hs' & Hk & Ha).
  unfold pull_from, mbind, RM_bind, config, rprim. rewrite Hfree.
  set (nd1 := set_nd_pulling nd _).
  destruct (pull_loop_ok (rc_pages (cx_config cx)) [] l None since floors 0 u64_max cs nd1 s2 Hl eq_refl Hpages Hcs Hb Hs2)
    as (p & o & nd2 & -> & Hb2 & Hsame).
  unfold on_store, store_now. set (nd3 := set_nd_store nd2 _).
  set (floored := saturating_sub _ _ <? o).
  assert (forall nd', quiet nd3 nd' -> let nd'' := set_nd_pulling nd' (vm_remove (nd_pulling nd') (target, sc)) in
    st_backend (nd_store nd'') = Some (run_all (effects sc cs) s2) /\ nd_pulling nd'' = nd_pulling nd) as Hq.
  { intros nd' [Hq1 Hq2] nd''. split; [exact (eq_trans Hq1 Hb2)|].
    cbn [nd'' nd_pulling set_nd_pulling]. rewrite Hq2. destruct Hsame as (_ & _ & Hp & _). cbn [nd3 nd_pulling set_nd_store].
    rewrite Hp. cbn [nd1 nd_pulling set_nd_pulling]. by apply vm_remove_insert. }
  assert (forall sp sm, sync_at s1 sp sm -> sp_scope sp = sc -> cursor_skips since floors (sp_ts sp) (sp_epoch sp) = false ->
    exists sm', sync_at (run_all (effects sc cs) s2) sp sm') as Hgot.
  { intros sp sm Hat Esc Hsk. assert (as_id sp ∈ map ck_id cs) as (c & Hid & Hc)%list_elem_of_fmap.
    { rewrite Hids. apply list_elem_of_fmap. exists (sp, sm). split; [done|]. apply elem_of_filterb.
      split; [by apply (scope_list_elem s1 sc l)|]. unfold wanted. cbn [fst]. by rewrite Hsk. }
    destruct (Ha c Hc) as (sm' & Hat'). exists sm'.
    by rewrite (proj2 (with_sp_id_as_id sc sp (ck_id c)) ltac:(done)). }
  destruct (floored && (p =? 1)%nat).
  - destruct (Hq nd3 ltac:(done)) as [H1 H2]. eexists _, _. by split_and!; [reflexivity|exact H1| | |exact H2|].
  - unfold rattempt. pose proof (quietly_announce [sc] floored cx nd3) as Hqa.
    destruct (send_announce [sc] floored cx nd3) as [r nd4]. destruct (Hq nd4 Hqa) as [H1 H2]. eexists _, _. by split_and!; [reflexivity|exact H1| | |exact H2|].
Qed.
End Pull.

(** ** Examples *)

Import Sample.

(** A holder that answers with pages of one chunk each. *)
Definition holder (s : MapKv.store) : Transport :=
  mkTransport true (fun _ _ req => res_option (serve_pull_at s req 1)) (fun _ _ _ => None).
Definition puller_cx : Ctx := mkCtx (sample_config Full) (holder sample_gc_store) peer_env.

Lemma pull_from_drains_witness :
  exists nd' s2', pull_from Sample.me Sample.scope None [] puller_cx (sample_node_of Sample.empty_store) = (Ok true, nd')
    /\ st_backend (nd_store nd') = Some s2'
    /\ exists sm, sync_at s2' (mkSyncPoint Sample.scope 95 95 Sample.me) sm.
Proof.
  destruct (encode Sample.scope) as [raw|] eqn:Hraw; [|vm_compute in Hraw; discriminate].
  destruct (pull_from_drains sample_serialises sample_typed Sample.scope raw gc_scope_valid Hraw sample_gc_store sample_gc_ok
    Sample.me (fun _ => 1) puller_cx peer_env_ok peer_env_accepts (fun _ _ _ => eq_refl) (sample_node_of Sample.empty_store)
    Sample.empty_store None [] sample_gc_points sample_gc_list eq_refl empty_store_ok eq_refl) as (nd' & s2' & H1 & H2 & _ & _ & _ & H3).
  { vm_compute. lia. }
  exists nd', s2'. split; [exact H1|]. split; [exact H2|].
  apply (H3 _ (retained 50)); [|reflexivity..]. apply (proj1 (scope_list_elem _ _ _ _ _ sample_gc_list)). right. left.
Defined.

(** * Coverage checks

    What a holder answers to [verify_coverage], and what a node that drains a
    scope may conclude from the answers: that every sync point it held is
    held elsewhere, at the same epoch or a later one. *)

Section Offload.
Context {S : Type} {kvS : Kv S} {kvLaws : KvLaws S}
  {pcMeta : Postcard SyncMeta} {pcMetaLaws : PostcardLaws SyncMeta}
  {pcBody : Postcard MeasurementBody}.
Implicit Types s : S.

(** ** One version *)

Lemma version_range_total sc ts raw : encode sc = Ok raw ->
  exists lo hi, partial_range "sync_point" (scope_vals sc ++ [vu64 ts]) = Ok (lo, hi).
Proof.
  intros Hraw. destruct (sync_point_encode_total (mkSyncPoint sc ts 0 []) raw Hraw) as (k & Hk).
  change (encode (mkSyncPoint sc ts 0 [])) with (encode_steps (segs "sync_point") (sh_vals sync_point_shape (mkSyncPoint sc ts 0 []))) in Hk.
  rewrite encode_steps_kcode in Hk. apply (kencode_take _ _ 4) in Hk as (x & y & Hx & _).
  assert (encode_steps (segs "sync_point") (scope_vals sc ++ [vu64 ts]) = Ok x) as E
    by (rewrite encode_steps_kcode; by destruct sc).
  unfold partial_range. rewrite E. cbn [mbind res_bind]. exists x. apply range_of_total.
  exists x23. split; [|done].
  change (segs "sync_point") with ([Literal (lit "#")] ++ drop 1 (segs "sync_point")) in E. cbn in E.
  apply res_bind_ok in E as (z & _ & E). apply Ok_inj in E as <-. by left.
Qed.

Lemma while_any (f : SyncPoint * SyncMeta -> bool) l : forall b,
  whileM (fun (_ : bool) p => let held := f p in Ok (held, negb held)) l b
  = Ok (match l with [] => b | _ => existsb f l end).
Proof.
  induction l as [|x l IH]; intros b; [done|]. cbn [whileM mbind res_bind existsb].
  destruct (f x); cbn [negb orb]; [done|]. rewrite IH. by destruct l.
Qed.

Lemma covers_head_ok s sc raw ts e : store_ok s -> scope_valid sc -> encode sc = Ok raw -> is_u64 ts ->
  exists b, covers_head s sc (ts, e) = Ok b /\ (b = true <-> covered s sc ts e).
Proof.
  intros Hs Hsc Hraw Hts. destruct (version_range_total sc ts raw Hraw) as (lo & hi & Hr).
  destruct (selection_scan s (ByVersion sc ts) lo hi Hs (conj Hsc Hts) Hr) as (l & Hl & Hm & _).
  exists (existsb (fun p => e <=? sp_epoch p.1) l). unfold covers_head. cbn [fst snd]. rewrite Hr.
  cbn [lift map_err mbind res_bind fst snd]. unfold find_sync_points_while.
  rewrite (while_rows _ _ l _ Hm), (while_any (fun p => e <=? sp_epoch p.1)). split; [by destruct l|].
  rewrite existsb_exists. unfold covered. split.
  - intros ([sp sm] & Hin%list_elem_of_In & He). apply (proj2 Hl) in Hin as [Hsel Hat]. cbn in Hsel, He.
    apply andb_true_iff in Hsel as [Hsel%bool_decide_eq_true Hts'%Z.eqb_eq]. apply Z.leb_le in He. by exists sp, sm.
  - intros (sp & sm & Hat & Esc & Ets & He). exists (sp, sm). split; [|by apply Z.leb_le].
    apply list_elem_of_In, (proj2 Hl). split; [|done]. cbn. by rewrite bool_decide_eq_true_2, Ets, Z.eqb_refl.
Qed.

Lemma covers_heads_ok s sc raw hs : store_ok s -> scope_valid sc -> encode sc = Ok raw ->
  Forall (fun h => is_u64 h.1) hs ->
  exists b, covers_heads s sc hs = Ok b /\ (b = true <-> forall ts e, (ts, e) ∈ hs -> covered s sc ts e).
Proof.
  intros Hs Hsc Hraw. induction 1 as [|[ts e] hs Hts _ IH].
  { exists true. split; [done|]. split; [|done]. intros _ ts e ?%elem_of_nil. done. }
  destruct (covers_head_ok s sc raw ts e Hs Hsc Hraw Hts) as (b & E & Hb). destruct IH as (b' & E' & Hb').
  exists (b && b'). cbn [covers_heads]. rewrite E. cbn [mbind res_bind]. split; [by destruct b|].
  rewrite andb_true_iff, Hb, Hb'. split.
  - intros [H1 H2] ts' e' [[= -> ->]|Hin]%elem_of_cons; [done|by apply H2].
  - intros H. split; [apply H; by left|]. intros ts' e' Hin. apply H. by right.
Qed.

(** ** Asking a holder *)

Section Confirm.
Context (sc : Scope) (raw : bytes) (Hsc : scope_valid sc) (Hraw : encode sc = Ok raw).
(** The holder: its rows, and that it answers with [verify_coverage]. *)
Context (target : NodeId) (cx : Ctx) (t : S) (Ht : store_ok t) (tcfg : Config) (tenv : Env) (tst : Store)
  (Htb : st_backend tst = Some t) (Htacc : env_accepts tenv) (Htsub : subject_contains (rc_subject tcfg) sc = true).
Context (Hanswers : forall n hs, tr_verify (cx_transport cx) n target (mkVerifyRequest sc hs)
  = res_option (verify_coverage tcfg (mkVerifyRequest sc hs) tenv tst).1).

Lemma verify_answer n hs : Forall (fun h => is_u64 h.1) hs ->
  exists b, tr_verify (cx_transport cx) n target (mkVerifyRequest sc hs) = Some b
    /\ (b = true <-> forall ts e, (ts, e) ∈ hs -> covered t sc ts e).
Proof.
  intros Hhs. destruct (covers_heads_ok t sc raw hs Ht Hsc Hraw Hhs) as (b & E & Hb). exists b. split; [|done].
  rewrite Hanswers. unfold verify_coverage. cbn [vr_scope vr_heads]. rewrite Htsub. cbn [negb].
  unfold mbind, SM_bind. rewrite (begin_local_ok _ _ t) by done. unfold smres. cbn [tx_store fst]. by rewrite E.
Qed.

Lemma verify_pages_ok pages : forall nd : Node (S := S), Forall (fun h => is_u64 h.1) (concat pages) ->
  exists b nd', verify_pages target sc pages cx nd = (Ok (Some b), nd')
    /\ st_backend (nd_store nd') = st_backend (nd_store nd)
    /\ (b = true <-> forall ts e, (ts, e) ∈ concat pages -> covered t sc ts e).
Proof.
  induction pages as [|hs pages IH]; intros nd Hall.
  { exists true, nd. split; [done|]. split; [done|]. split; [|done]. intros _ ts e ?%elem_of_nil. done. }
  cbn [concat] in Hall. apply Forall_app in Hall as [Hhs Hall]. cbn [verify_pages]. unfold mbind, RM_bind, rprim.
  destruct (verify_answer (st_calls (nd_store nd)) hs Hhs) as ([|] & -> & Hb).
  - destruct (IH (set_nd_store nd (called (nd_store nd))) Hall) as (b & nd' & E & Hst & Hb').
    exists b, nd'. split; [done|]. split; [done|]. cbn [concat]. rewrite Hb'. split.
    + intros H ts e [Hin|Hin]%elem_of_app; [by apply Hb|by apply H].
    + intros H ts e Hin. apply H, elem_of_app. by right.
  - eexists false, _. split; [done|]. split; [done|]. split; [done|]. intros H. apply Hb. intros ts e Hin. apply H. cbn [concat]. apply elem_of_app. by left.
Qed.

Lemma heads_cover s heads : latest_heads s (BySubject (SubjScope sc)) heads -> (forall h, h ∈ heads -> h.1.1 = sc) ->
  (forall ts e, (ts, e) ∈ map (fun h : head_entry => (sid_version h.1.2, sid_epoch h.1.2)) heads -> covered t sc ts e)
  <-> (forall sp sm, sync_at s sp sm -> sp_scope sp = sc -> covered t sc (sp_ts sp) (sp_epoch sp)).
Proof.
  intros Hh Hsc'. split.
  - intros H sp sm Hat Esc.
    destruct (lh_every _ _ _ Hh sp sm Hat) as (h & Hin & Eh & Ev); [cbn; by apply bool_decide_eq_true_2|].
    destruct (H (sid_version h.1.2) (sid_epoch h.1.2)) as (sp' & sm' & Hat' & Esc' & Ets' & He').
    { apply list_elem_of_fmap. by exists h. }
    exists sp', sm'. split; [done|]. split; [done|]. split; [congruence|].
    apply (lh_elem _ _ _ Hh) in Hin as (_ & _ & Hmax). specialize (Hmax sp sm Hat (eq_sym Eh) (eq_sym Ev)).
    apply sp_cmp_epoch in Hmax; [|by destruct h as [[? [[? ?] ?]] ?]]. destruct h as [[? [[? ?] ?]] ?]. cbn in *. lia.
  - intros H ts e (h & [= -> ->] & Hin)%list_elem_of_fmap. pose proof (Hsc' h Hin) as Eh.
    apply (lh_elem _ _ _ Hh) in Hin as (_ & Hat & _). destruct h as [[sc' [[e v] n]] sm]. exact (H _ _ Hat Eh).
Qed.

(** A drain asks the right question: a holder that answers truthfully for its store
    confirms a scope exactly if it holds every version the asking node has of
    it, at the newest epoch held there or a later one; and asking changes no
    row. *)
Theorem confirm_covered_exact (nd : Node) (s : S) (Hb : st_backend (nd_store nd) = Some s) (Hs : store_ok s)
    (Hacc : env_accepts (cx_env cx)) :
  exists b nd', confirm_covered_by target sc cx nd = (Ok (Some b), nd')
    /\ st_backend (nd_store nd') = Some s
    /\ (b = true <-> forall sp sm, sync_at s sp sm -> sp_scope sp = sc -> covered t sc (sp_ts sp) (sp_epoch sp)).
Proof.
  destruct (scope_range_total sc raw Hraw) as (lo & hi & Hr).
  destruct (scope_points_ok s Hs sc Hsc lo hi Hr) as (heads & Hh & Hsc' & _ & Ehs).
  set (hs := map (fun h : head_entry => (sid_version h.1.2, sid_epoch h.1.2)) heads) in *.
  assert (Forall (fun h => is_u64 h.1) (concat (chunks VERIFY_PAGE_HEADS hs))) as Hall.
  { rewrite chunks_concat by (unfold VERIFY_PAGE_HEADS; lia). apply Forall_forall. intros x (h & -> & Hin)%list_elem_of_fmap.
    apply (lh_elem _ _ _ Hh) in Hin as (_ & (Hv & _) & _). destruct h as [[? [[? ?] ?]] ?]. apply Hv. }
  unfold confirm_covered_by, mbind, RM_bind, rattempt, on_store, SM_bind.
  rewrite (begin_local_ok _ _ s) by done. unfold smres. cbn [tx_store]. rewrite Ehs.
  destruct (verify_pages_ok (chunks VERIFY_PAGE_HEADS hs) (set_nd_store nd (called (nd_store nd))) Hall)
    as (b & nd' & E & Hst & Hb'). exists b, nd'. split; [exact E|]. split; [by rewrite Hst|].
  rewrite Hb', chunks_concat by (unfold VERIFY_PAGE_HEADS; lia). exact (heads_cover s heads Hh Hsc').
Qed.
End Confirm.
End Offload.

(** ** Examples *)

Import Sample.

(** A holder that answers coverage checks for its store. *)
Definition verifier (t : MapKv.store) : Transport :=
  mkTransport true (fun _ _ _ => None)
    (fun _ _ req => res_option (verify_coverage (sample_config Full) req peer_env (sample_store t)).1).
Definition drain_cx (t : MapKv.store) : Ctx := mkCtx (sample_config Offload) (verifier t) sample_env.

Lemma confirm_covered_exact_witness :
  exists b nd', confirm_covered_by peer Sample.scope (drain_cx Sample.empty_store) (sample_node_of sample_gc_store) = (Ok (Some b), nd')
    /\ (b = true -> covered Sample.empty_store Sample.scope 95 95).
Proof.
  destruct (encode Sample.scope) as [raw|] eqn:Hraw; [|vm_compute in Hraw; discriminate].
  destruct (confirm_covered_exact Sample.scope raw gc_scope_valid Hraw peer (drain_cx Sample.empty_store) Sample.empty_store
    empty_store_ok (sample_config Full) peer_env (sample_store Sample.empty_store) eq_refl peer_env_accepts eq_refl
    (fun _ _ => eq_refl) (sample_node_of sample_gc_store) sample_gc_store eq_refl sample_gc_ok sample_env_accepts)
    as (b & nd' & E & _ & Hb).
  exists b, nd'. split; [exact E|]. intros Ht.
  apply (proj1 Hb Ht (mkSyncPoint Sample.scope 95 95 Sample.me) (retained 50)); [|reflexivity].
  apply (proj1 (scope_list_elem _ _ _ _ _ sample_gc_list)). right. left.
Defined.

Example coverage_answers :
  (confirm_covered_by peer Sample.scope (drain_cx sample_gc_store) (sample_node_of sample_gc_store)).1 = Ok (Some true)
  /\ (confirm_covered_by peer Sample.scope (drain_cx Sample.empty_store) (sample_node_of sample_gc_store)).1 = Ok (Some false).
Proof. split; vm_compute; reflexivity. Qed.
