(* ===== verification/ReplRound.v ===== *)
(** * A round of gossip

    A node probes for a scope, another announces what it holds of it, the first
    asks for what it lacks, is served and applies the answer: afterwards it
    holds every version of the scope the other holds, at the same epoch or a
    later one, and the rows of the versions it lacked. *)

From S2P Require Import Prelude Bytes Skey SkeyRoundtrip SkeyOrder Keys KeyScan Domain Kv Rows RowsFacts Changeset Scans Tx Sample TxKeys TxInv TxReads TxScans TxSync TxOrder Announce Store StoreGc Repl ReplFacts ReplServe.
From Stdlib Require Import ZArith Lia Strings.Byte Sorting.Sorted.
From stdpp Require Import base list option strings sets.

Local Open Scope Z_scope.

(** ** Announces of several scopes *)

Lemma vm_insert_new {K A} `{EqDecision K} (m : list (K * A)) k a : k ∉ map fst m -> vm_insert m k a = m ++ [(k, a)].
Proof.
  induction m as [|[k0 a0] m IH]; cbn [vm_insert map fst]; [done|]. rewrite not_elem_of_cons. intros [Hne Hn].
  rewrite decide_False by done. by rewrite IH.
Qed.

Lemma announce_known_map cut (l : list (Scope * ScopeFrontier)) : NoDup (map fst l) ->
  announce_known cut l = map (fun e => (e.1, announce_scope cut e.2)) l.
Proof.
  intros Hnd. unfold announce_known. rewrite <- (app_nil_l (map _ l)).
  assert (forall x, x ∈ map fst (@nil (Scope * ScopeAnnounce)) -> x ∉ map fst l) as Hd by (intros x ?%elem_of_nil; done).
  revert Hd. generalize (@nil (Scope * ScopeAnnounce)) as acc.
  induction l as [|[sc f] l IH]; intros acc Hd; [by rewrite app_nil_r|]. apply NoDup_cons in Hnd as [Hn Hnd].
  cbn [fold_left map fst snd]. rewrite vm_insert_new by (intros Hin; apply (Hd sc Hin); by left).
  rewrite (IH Hnd); [by rewrite <- app_assoc|]. intros x. rewrite map_app, elem_of_app. cbn [map fst].
  intros [Hx|Hx%list_elem_of_singleton]; [|by subst x]. intros Hx'. apply (Hd x Hx). by right.
Qed.

Section Round.
Context {S : Type} {kvS : Kv S} {kvLaws : KvLaws S}
  {pcMeta : Postcard SyncMeta} {pcMetaLaws : PostcardLaws SyncMeta}
  {pcBody : Postcard MeasurementBody}.
Implicit Types s : S.
Implicit Types nd : Node (S := S).

(** ** Rounds *)

Definition deliver (cx : Ctx) (sender : NodeId) (at_ : Instant) (msgs : list ReplicaMessage) (nd : Node (S := S)) : Node :=
  fold_left (fun nd m => (handle_message sender m at_ cx nd).2) msgs nd.

(** What was published since. *)
Definition sent (before after : Node (S := S)) : list ReplicaMessage :=
  drop (length (nd_published before)) (nd_published after).

(** The second node probes for a scope, as it does when an announce shows that it
    diverged or a client solicits the scope; the messages go back and forth until it
    has what it asked for. *)
Definition gossip_round (cx1 cx2 : Ctx) (at_ : Instant) (sc : Scope) (nd1 nd2 : Node (S := S)) : Node * Node :=
  let me := node_id (cx_env cx1) in
  let peer := node_id (cx_env cx2) in
  let nd2p := (probe_scope sc cx2 nd2).2 in
  let nd1a := deliver cx1 peer at_ (sent nd2 nd2p) nd1 in
  let nd2a := deliver cx2 me at_ (sent nd1 nd1a) nd2p in
  let nd1b := deliver cx1 peer at_ (sent nd2p nd2a) nd1a in
  let nd2b := deliver cx2 me at_ (sent nd1a nd1b) nd2a in
  (nd1b, nd2b).

(** A node that runs: its rows, a clock and an engine that work, a subject that can be
    scanned, and no scan of its frontier in the future. *)
Record node_ok (cx : Ctx) nd s : Prop := mkNodeOk {
  no_backend : st_backend (nd_store nd) = Some s;
  no_store : store_ok s;
  no_env : env_ok (cx_env cx);
  no_accepts : env_accepts (cx_env cx);
  no_subject : subject_valid (rc_subject (cx_config cx));
  no_range : is_ok (range_from_subject (rc_subject (cx_config cx))) = true;
  no_scan : forall c n, nd_latest nd = Some c -> fr_scanned_at c < instant_now (cx_env cx) n;
}.

(** What the frontiers of a node tell. *)
Definition scopes_ok s (sub : Subject) (scopes : list (Scope * ScopeFrontier)) : Prop :=
  NoDup (map fst scopes)
  /\ (forall sc, subject_contains sub sc = true -> frontier_ok s sc (default [] (vm_get scopes sc)))
  /\ (forall sc, sc ∈ map fst scopes -> subject_contains sub sc = true).

Lemma rescan_ok cx nd s : node_ok cx nd s ->
  exists fr nd', rescan (cx_config cx) cx nd = (Ok fr, nd') /\ scopes_ok s (rc_subject (cx_config cx)) (fr_scopes fr)
    /\ st_backend (nd_store nd') = Some s /\ nd_published nd' = nd_published nd.
Proof.
  intros [Hb Hs He Hacc Hsub Hr _]. unfold rescan, mbind, RM_bind, on_store at 1.
  rewrite (begin_local_ok _ _ s) by done.
  destruct (range_from_subject (rc_subject (cx_config cx))) as [[lo hi]|] eqn:Er; [|done].
  destruct (scan_frontiers_ok s _ lo hi Hs Hsub Er) as (scopes & E & Hok).
  unfold on_store, smres. cbn [tx_store]. rewrite E. do 2 eexists. split; [reflexivity|]. done.
Qed.

Lemma frontiers_ok cx nd s : node_ok cx nd s ->
  exists fr nd', frontiers cx nd = (Ok fr, nd') /\ scopes_ok s (rc_subject (cx_config cx)) (fr_scopes fr)
    /\ st_backend (nd_store nd') = Some s /\ nd_published nd' = nd_published nd.
Proof.
  intros Hn. unfold frontiers, mbind, RM_bind, config, on_store at 1, now_instant, rprim.
  set (nd1 := set_nd_store nd (called (nd_store nd))).
  assert (node_ok cx nd1 s) as Hn1 by (destruct Hn; by split).
  change (nd_latest nd1) with (nd_latest nd). destruct (nd_latest nd) as [c|] eqn:Ec; [|exact (rescan_ok cx nd1 s Hn1)].
  rewrite (proj2 (Z.leb_gt _ _)) by (by apply (no_scan _ _ _ Hn)). exact (rescan_ok cx nd1 s Hn1).
Qed.

(** ** A probe and its answer *)

Lemma probe_sent cx sc nd s : node_ok cx nd s ->
  probe_due (nd_probes nd) sc (instant_now (cx_env cx) (st_calls (nd_store nd))) = true ->
  node_ok cx (probe_scope sc cx nd).2 s /\ sent nd (probe_scope sc cx nd).2 = [Probe [sc]].
Proof.
  intros Hn Hdue. unfold probe_scope, mbind, RM_bind, on_store, now_instant, rprim. cbn [nd_probes set_nd_store].
  rewrite Hdue. unfold publish. cbn [snd]. split; [by destruct Hn; split|].
  unfold sent. exact (drop_app_length (nd_published nd) [_]).
Qed.

(** The scopes an announce tells of. *)
Definition in_filter (filter : list Scope) (e : Scope * ScopeFrontier) : bool :=
  bool_decide (filter = []) || bool_decide (e.1 ∈ filter).

Lemma filter_nodup filter (l : list (Scope * ScopeFrontier)) : NoDup (map fst l) -> NoDup (map fst (List.filter (in_filter filter) l)).
Proof.
  induction l as [|e l IH]; cbn [List.filter map]; [done|]. intros [Hn Hnd]%NoDup_cons.
  destruct (in_filter filter e); [|by apply IH]. cbn [map]. apply NoDup_cons. split; [|by apply IH].
  intros (x & Ex & Hx)%list_elem_of_fmap. apply Hn, list_elem_of_fmap. exists x. split; [done|].
  apply list_elem_of_In, filter_In in Hx as [Hx _]. by apply list_elem_of_In.
Qed.

Lemma announce_sent cx filter nd s : node_ok cx nd s ->
  exists scopes, scopes_ok s (rc_subject (cx_config cx)) scopes
    /\ st_backend (nd_store (send_announce filter false cx nd).2) = Some s
    /\ sent nd (send_announce filter false cx nd).2
       = [Announce (mkAnnounce (map (fun e => (e.1, announce_full e.2)) (List.filter (in_filter filter) scopes))
            (match rc_mode (cx_config cx) with Full => true | Offload => false end))].
Proof.
  intros Hn. set (nd1 := set_nd_store nd (called (nd_store nd))).
  assert (node_ok cx nd1 s) as Hn1 by (destruct Hn; by split).
  destruct (frontiers_ok cx nd1 s Hn1) as (fr & nd2 & E & Hok & Hb & Hp). exists (fr_scopes fr). split; [done|].
  unfold send_announce, mbind, RM_bind, on_store, is_unavailable. rewrite (no_backend _ _ _ Hn).
  rewrite (ea_healthy _ (no_accepts _ _ _ Hn)). unfold config. fold nd1. rewrite E.
  fold (in_filter filter). rewrite announce_known_map by (apply filter_nodup, Hok). unfold publish. cbn [snd nd_store].
  split; [done|]. unfold sent. cbn [nd_published]. rewrite Hp. exact (drop_app_length (nd_published nd) [_]).
Qed.

Lemma probe_answered cx sender at_ filter nd s : node_ok cx nd s -> node_id (cx_env cx) <> sender ->
  deliver cx sender at_ [Probe filter] nd = (send_announce filter false cx nd).2.
Proof.
  intros Hn Hne. cbn [deliver fold_left]. unfold handle_message. rewrite bool_decide_eq_false_2 by done.
  unfold handle_probe, mbind, RM_bind. by destruct (send_announce filter false cx nd) as [[]].
Qed.

(** ** The second node asks *)

(** The request a node makes for a scope another announced in full. *)
Definition request_for (sub : Subject) (ours : list (Scope * ScopeFrontier)) (k : Scope * ScopeAnnounce)
  : option ReplicaMessage :=
  if subject_contains sub k.1 then
    match plan_catchup (vm_get ours k.1) k.2 with
    | Behind since floors => Some (ChangeSetReq_ (mkChangeSetReq k.1 since floors))
    | _ => None
    end
  else None.

Definition in_full (k : Scope * ScopeAnnounce) : Prop := baseline k.2 = None.

Lemma plan_full_not_diverged ours sa : baseline sa = None -> plan_catchup ours sa <> Diverged.
Proof. intros Hb. unfold plan_catchup. rewrite Hb. by destruct (cu_behind _). Qed.

Lemma follow_announce_ok cx sender ours known nd : Forall in_full known ->
  exists nd', follow_announce sender true ours known cx nd = (Ok tt, nd')
    /\ nd_store nd' = nd_store nd
    /\ nd_published nd' = nd_published nd ++ omap (request_for (rc_subject (cx_config cx)) ours) known.
Proof.
  intros Hall. revert nd; induction Hall as [|[sc sa] known Hf _ IH]; intros nd.
  { exists nd. rewrite app_nil_r. done. }
  cbn [follow_announce omap list_omap]. unfold mbind, RM_bind, config. unfold request_for at 1. cbn [fst snd].
  destruct (subject_contains (rc_subject (cx_config cx)) sc); [|by apply IH].
  unfold follow_plan, mbind, RM_bind, sync_capable. pose proof (plan_full_not_diverged (vm_get ours sc) sa Hf) as Hnd.
  destruct (plan_catchup (vm_get ours sc) sa) as [| |since floors]; [by apply IH|done|].
  cbn [negb andb]. unfold publish at 1.
  set (nd1 := mkNode _ _ _ _ _ _ _ (nd_published nd ++ _)). destruct (IH nd1) as (nd' & E & Hst & Hp).
  exists nd'. split; [done|]. split; [done|]. rewrite Hp. cbn [nd1 nd_published]. by rewrite <- app_assoc.
Qed.

(** ** The first serves *)

Definition response_to s (sub : Subject) (m : ReplicaMessage) : option ReplicaMessage :=
  match m with
  | ChangeSetReq_ req =>
      if subject_contains sub (cq_scope req) then
        match requested_chunks s req with
        | Ok [] | Err _ => None
        | Ok cs => Some (ChangeSet_ (mkChangeSet (cq_scope req) cs))
        end
      else None
  | _ => None
  end.

Definition is_request (m : ReplicaMessage) : Prop := match m with ChangeSetReq_ _ => True | _ => False end.

Lemma serve_request cx sender at_ req nd s : env_accepts (cx_env cx) -> st_backend (nd_store nd) = Some s ->
  node_id (cx_env cx) <> sender ->
  exists nd', handle_message sender (ChangeSetReq_ req) at_ cx nd = (Ok tt, nd')
    /\ st_backend (nd_store nd') = Some s
    /\ nd_published nd' = nd_published nd ++
       match response_to s (rc_subject (cx_config cx)) (ChangeSetReq_ req) with Some r => [r] | None => [] end.
Proof.
  intros Hacc Hb Hne. unfold handle_message. rewrite bool_decide_eq_false_2 by done.
  unfold handle_cs_req, mbind, RM_bind, config. cbn [response_to].
  destruct (subject_contains _ (cq_scope req)); cbn [negb]; [|by exists nd; rewrite app_nil_r].
  unfold on_store at 1. rewrite (begin_local_ok _ _ s) by done. unfold on_store, smres. cbn [tx_store].
  destruct (requested_chunks s req) as [[|c cs]|e].
  - rewrite bool_decide_eq_true_2 by done. eexists. split; [done|]. split; [done|]. exact (eq_sym (app_nil_r _)).
  - rewrite bool_decide_eq_false_2 by done. eexists. split; [done|]. done.
  - eexists. split; [done|]. split; [done|]. exact (eq_sym (app_nil_r _)).
Qed.

Lemma serve_requests cx sender at_ msgs nd s : env_accepts (cx_env cx) -> st_backend (nd_store nd) = Some s ->
  node_id (cx_env cx) <> sender -> Forall is_request msgs ->
  st_backend (nd_store (deliver cx sender at_ msgs nd)) = Some s
  /\ nd_published (deliver cx sender at_ msgs nd)
     = nd_published nd ++ omap (response_to s (rc_subject (cx_config cx))) msgs.
Proof.
  intros Hacc Hb Hne Hall. revert nd Hb; induction Hall as [|m msgs Hm _ IH]; intros nd Hb.
  { cbn. by rewrite app_nil_r. }
  destruct m as [| |req|]; try done. cbn [deliver fold_left omap list_omap].
  destruct (serve_request cx sender at_ req nd s Hacc Hb Hne) as (nd1 & -> & Hb1 & Hp1). cbn [snd].
  fold (deliver cx sender at_ msgs nd1). destruct (IH nd1 Hb1) as [Hb2 Hp2]. split; [done|].
  rewrite Hp2, Hp1, <- app_assoc. by destruct (response_to _ _ (ChangeSetReq_ req)).
Qed.

(** ** The second applies *)

Context (Hser : serialises).

(** A chunk as a store serves it: a sync point of the store, with the rows of its
    version unless it marks a deletion. *)
Definition served s (sc : Scope) (c : Chunk) : Prop :=
  sync_at s (with_sp_id sc (ck_id c)) (ck_meta c)
  /\ (sm_marker (ck_meta c) = Marker.Mutation ->
      exists raw, encode sc = Ok raw /\ changeset_at s raw (chunk_version c) = Ok (ck_entries c)).

Lemma serve_chunk_served s sc sp sm c : sync_at s sp sm -> sp_scope sp = sc ->
  serve_chunk s sc (sp, sm) = Ok c -> served s sc c.
Proof.
  intros Hat Esc. assert (with_sp_id sc (as_id sp) = sp) as Esp by (by symmetry; apply with_sp_id_as_id).
  unfold serve_chunk. cbn [fst snd]. destruct (sm_marker sm) eqn:Em.
  - destruct (encode sc) as [raw|] eqn:Er; [|done]. cbn [lift map_err mbind res_bind].
    destruct (changeset_at s raw (sp_ts sp)) as [es|] eqn:Ees; [|done]. intros [= <-]. split; cbn [ck_id ck_meta ck_entries].
    + by rewrite Esp.
    + intros _. by exists raw.
  - intros [= <-]. split; cbn [ck_id ck_meta ck_entries]; [by rewrite Esp|congruence].
Qed.

(** A store has a sync point of the version of the scope. *)
Definition has_version s (sc : Scope) (ts : Version) : Prop :=
  exists sp sm, sync_at s sp sm /\ sp_scope sp = sc /\ sp_ts sp = ts.

(** No sync point of the version marks its deletion. *)
Definition undeleted s (sc : Scope) (ts : Version) : Prop :=
  forall sp sm, sync_at s sp sm -> sp_scope sp = sc -> sp_ts sp = ts -> sm_marker sm = Marker.Mutation.

(** What applying chunks of [s1] of the scope [sc] to [s] can make of a key's version:
    nothing, and no sync point of the version is new, or the verdict of [s1] joins. *)
Definition gained s1 (sc : Scope) s s' (sc0 : Scope) (key : bytes) (ts : Version) : Prop :=
  (verdict s' key ts = verdict s key ts /\ (has_version s' sc0 ts -> has_version s sc0 ts))
  \/ (sc0 = sc /\ has_version s1 sc ts /\ verdict s' key ts = Changeset.join (verdict s key ts) (verdict s1 key ts)).

Lemma join_again o n : Changeset.join (Changeset.join o n) n = Changeset.join o n.
Proof. by destruct o as [[]|], n as [[]|]. Qed.

Lemma gained_refl s1 sc s sc0 key ts : gained s1 sc s s sc0 key ts.
Proof. by left. Qed.

Lemma gained_trans s1 sc a b c sc0 key ts :
  gained s1 sc a b sc0 key ts -> gained s1 sc b c sc0 key ts -> gained s1 sc a c sc0 key ts.
Proof.
  intros [[E1 H1]|(-> & Hv & E1)] [[E2 H2]|(E3 & Hv2 & E2)].
  - left. split; [congruence|auto].
  - right. split; [done|]. split; [done|]. by rewrite E2, E1.
  - right. split; [done|]. split; [done|]. congruence.
  - right. split; [done|]. split; [done|]. by rewrite E2, E1, join_again.
Qed.

Section Rows.
Context (s1 : S) (Hs1 : store_ok s1) (sc : Scope) (raw : bytes) (Hraw : encode sc = Ok raw)
  (sc0 : Scope) (key : bytes) (ts : Version) (Hst : stored sc0 key) (Hts : is_u64 ts) (Hund : undeleted s1 sc0 ts).

(** A chunk's effect on the sync points. *)
Lemma chunk_effect_new c s sp sm : chunk_valid sc c -> store_ok s -> sync_at (chunk_effect sc c s) sp sm ->
  sp = with_sp_id sc (ck_id c) \/ sync_at s sp sm.
Proof.
  intros Hc Hs Hat. pose proof Hc as (Hv & Hm & Hes).
  destruct (sync_point_encode_total (with_sp_id sc (ck_id c)) raw Hraw) as (k & Hk). destruct (Hser _ Hm) as (v & Hmv).
  destruct (decide (sp_scope sp = sc /\ as_id sp = ck_id c)) as [E%with_sp_id_as_id|Hother]; [by left|right].
  assert (with_sp_id sc (ck_id c) <> sp) as Hne by (intros E; by apply Hother, with_sp_id_as_id).
  unfold chunk_effect, cs_store in Hat. rewrite Hk, Hraw, Hmv in Hat. destruct (held s k); [done|].
  apply (sync_at_insert s _ k v sp sm Hv Hk Hne).
  assert (store_ok (kv_insert s k v)) as Hok by (by eapply store_ok_insert_sync). destruct (sm_marker (ck_meta c)).
  - eapply sync_at_foreign; [|exact Hat]. intros x Hx. symmetry. by apply write_entries_foreign.
  - destruct (delete_version_rows_spec (kv_insert s k v) raw (chunk_version c) (so_index _ Hok) (proj1 (proj2 Hv)))
      as (n & s' & E & _ & _ & Hf). rewrite E in Hat. eapply sync_at_foreign; [|exact Hat]. intros x Hx. symmetry. by apply Hf.
Qed.

(** A chunk that is held does nothing, one of another scope or version leaves the key's
    version as it is. *)
Lemma chunk_verdict c s : chunk_valid sc c -> served s1 sc c -> store_ok s ->
  chunk_effect sc c s = s
  \/ (verdict (chunk_effect sc c s) key ts = verdict s key ts /\ ~ (sc0 = sc /\ chunk_version c = ts))
  \/ (sc0 = sc /\ chunk_version c = ts
      /\ verdict (chunk_effect sc c s) key ts = Changeset.join (verdict s key ts) (verdict s1 key ts)).
Proof.
  intros (Hv & Hm & Hes) [Hat Hcs] Hs. destruct (sync_point_encode_total (with_sp_id sc (ck_id c)) raw Hraw) as (k & Hk).
  destruct (Hser _ Hm) as (v & Hmv). pose proof (sync_point_foreign _ _ Hk) as Hf.
  pose proof (stored_region _ _ Hst) as Hreg. pose proof Hst as [Hsc _].
  assert (store_ok (kv_insert s k v)) as Hok by (by eapply store_ok_insert_sync).
  unfold chunk_effect, cs_store. rewrite Hk, Hraw, Hmv. destruct (held s k); [by left|].
  destruct (sm_marker (ck_meta c)) eqn:Em.
  - destruct (Hcs eq_refl) as (raw' & Hraw' & E). rewrite Hraw in Hraw'. apply Ok_inj in Hraw' as <-.
    rewrite (transfer_verdict s1 _ raw (chunk_version c) (ck_entries c) key ts (so_index _ Hs1) (proj1 (proj2 Hv)) Hts Hreg
      (scoped_settled _ _ _ _ Hsc (proj1 Hv) Hraw) E), !(verdict_foreign _ k) by done.
    right. destruct (decide _) as [[-> Hin]|Hn]; [right|left].
    + by rewrite (scoped_starts _ _ _ _ Hsc (proj1 Hv) Hraw) in Hin.
    + split; [done|]. intros [E1 <-]. apply Hn. split; [done|]. by apply (scoped_starts _ _ _ _ Hsc (proj1 Hv) Hraw).
  - assert (~ (sc0 = sc /\ chunk_version c = ts)) as Hne.
    { intros [E1 E2]. subst. by rewrite (Hund _ _ Hat eq_refl eq_refl) in Em. }
    right. left. split; [|done]. destruct (delete_verdict _ sc raw (chunk_version c) Hok (proj1 Hv) Hraw (proj1 (proj2 Hv))) as (n & s' & -> & _ & _ & Hver).
    cbn [snd]. rewrite (Hver sc0) by done. rewrite decide_False; [by apply verdict_foreign|naive_solver].
Qed.

Lemma chunk_gained c s : chunk_valid sc c -> served s1 sc c -> store_ok s ->
  gained s1 sc s (chunk_effect sc c s) sc0 key ts.
Proof.
  intros Hc Hsv Hs. destruct (chunk_verdict c s Hc Hsv Hs) as [->|[[E Hne]|(-> & Ets & E)]]; [by left|left|right].
  - split; [done|]. intros (sp & sm & [->|Hat]%(chunk_effect_new c s sp sm Hc Hs) & Esc & Ets); [|by exists sp, sm].
    destruct Hne. by rewrite <- Esc, <- Ets.
  - split; [done|]. split; [|done]. destruct Hsv as [Hat _]. by exists (with_sp_id sc (ck_id c)), (ck_meta c).
Qed.

Lemma run_gained chunks s : Forall (chunk_valid sc) chunks -> Forall (served s1 sc) chunks -> store_ok s ->
  gained s1 sc s (run_all (effects sc chunks) s) sc0 key ts.
Proof.
  intros Hall. revert s; induction Hall as [|c chunks Hc _ IH]; intros s Hsv Hs; [apply gained_refl|].
  inversion Hsv as [|? ? Hc' Hcs']; subst. destruct (chunk_effect_spec Hser sc raw Hraw c s Hc Hs) as (Hok & _).
  eapply gained_trans; [by apply chunk_gained|]. by apply (IH (chunk_effect sc c s)).
Qed.
End Rows.

(** A message whose chunks can be applied: chunks of the scope as [s1] serves them. *)
Definition applicable s1 (sc : Scope) (m : ReplicaMessage) : Prop :=
  match m with
  | ChangeSet_ cs => cs_scope cs = sc /\ is_ok (encode sc) = true /\ Forall (chunk_valid sc) (cs_chunks cs)
      /\ Forall (served s1 sc) (cs_chunks cs)
  | _ => False
  end.

Definition all_gained s1 (sc : Scope) s s' : Prop := forall sc0 key ts, stored sc0 key -> is_u64 ts ->
  undeleted s1 sc0 ts -> gained s1 sc s s' sc0 key ts.

Lemma apply_changesets s1 sc cx sender at_ msgs nd s : store_ok s1 -> env_ok (cx_env cx) -> env_accepts (cx_env cx) ->
  rc_mode (cx_config cx) = Full -> st_backend (nd_store nd) = Some s -> store_ok s ->
  node_id (cx_env cx) <> sender -> Forall (applicable s1 sc) msgs ->
  exists s', st_backend (nd_store (deliver cx sender at_ msgs nd)) = Some s' /\ store_ok s' /\ keeps s s'
    /\ all_gained s1 sc s s'
    /\ forall cs c, ChangeSet_ cs ∈ msgs -> c ∈ cs_chunks cs -> exists sm, sync_at s' (with_sp_id sc (ck_id c)) sm.
Proof.
  intros Hs1 He Hacc Hmode Hb Hs Hne Hall. revert nd s Hb Hs; induction Hall as [|m msgs Hm _ IH]; intros nd s Hb Hs.
  { exists s. split; [done|]. split; [done|]. split; [apply keeps_refl|]. split; [intros ? ? ? _ _ _; apply gained_refl|].
    by intros cs c ?%elem_of_nil. }
  destruct m as [| | |cs0]; try done. destruct Hm as (Esc & Henc & Hval & Hsv).
  destruct (encode sc) as [raw|] eqn:Hraw; [|done].
  destruct (handle_cs_chunks_ok Hser sc raw Hraw (cx_env cx) He Hacc (cs_chunks cs0) (nd_store nd) s Hb Hs Hval)
    as (st1 & E1 & Hb1).
  destruct (run_effects_spec Hser sc raw Hraw (cs_chunks cs0) s Hval Hs) as (Hs1' & Hk1 & Ha1).
  destruct (IH (set_nd_store nd st1) _ Hb1 Hs1') as (s' & Hb' & Hs' & Hk' & Hg' & Ha'). exists s'.
  cbn [deliver fold_left]. unfold handle_message at 2. rewrite bool_decide_eq_false_2 by done. rewrite Hmode.
  unfold on_store, handle_cs. rewrite Esc, E1. cbn [snd]. fold (deliver cx sender at_ msgs (set_nd_store nd st1)).
  split; [done|]. split; [done|]. split; [by eapply keeps_trans|]. split.
  - intros sc0 key ts Hst Hts Hund. eapply gained_trans; [|by apply Hg']. by eapply run_gained.
  - intros cs c [[= ->]|Hin]%elem_of_cons Hc; [|by eapply Ha']. destruct (Ha1 c Hc) as (sm & Hat). by eapply Hk'.
Qed.

(** ** The round *)

Context (Htyped : typed).

Lemma plan_full ours f : frontier_valid f ->
  match plan_catchup ours (announce_full f) with
  | Diverged => False
  | CaughtUp => forall ts e n, (ts, (e, n)) ∈ f -> sufficient ours ts e = true
  | Behind since floors => (exists h, h ∈ f)
      /\ forall ts e n, (ts, (e, n)) ∈ f -> cursor_skips since floors ts e = sufficient ours ts e
  end.
Proof.
  intros Hf. destruct (announce_scope_ok None f (proj1 Hf) (frontier_nonneg f Hf) ltac:(done)) as [Hok _].
  pose proof (plan_catchup_spec ours (announce_full f) Hok) as Hp. pose proof (plan_full_not_diverged ours (announce_full f) eq_refl).
  destruct (plan_catchup ours (announce_full f)) as [| |since floors]; [exact Hp|done|].
  destruct Hp as ((ts & e & n & Hin & _) & Hsk & _). split; [by exists (ts, (e, n))|exact Hsk].
Qed.

Lemma handle_announce_ok cx sender at_ scopes nd s : node_ok cx nd s -> rc_mode (cx_config cx) = Full ->
  node_id (cx_env cx) <> sender ->
  let nd' := deliver cx sender at_ [Announce (mkAnnounce (map (fun e => (e.1, announce_full e.2)) scopes) true)] nd in
  st_backend (nd_store nd') = Some s
  /\ exists ours, scopes_ok s (rc_subject (cx_config cx)) ours
     /\ sent nd nd' = omap (fun e => request_for (rc_subject (cx_config cx)) ours (e.1, announce_full e.2)) scopes.
Proof.
  intros Hn Hmode Hne. cbn [deliver fold_left]. unfold handle_message. rewrite bool_decide_eq_false_2, Hmode by done.
  unfold handle_announce, mbind, RM_bind. destruct (frontiers_ok cx nd s Hn) as (fr & nd1 & -> & Hok & Hb & Hp).
  cbn [ann_full_replica ann_known].
  destruct (follow_announce_ok cx sender (fr_scopes fr) (map (fun e => (e.1, announce_full e.2)) scopes) nd1)
    as (nd2 & -> & Hst & Hp2).
  { apply Forall_forall. intros k (e & -> & _)%list_elem_of_fmap. done. }
  unfold record_peer, rprim, record_peer_frontier. rewrite <- Hst in Hb.
  assert (sent nd nd2 = omap (fun e => request_for (rc_subject (cx_config cx)) (fr_scopes fr) (e.1, announce_full e.2)) scopes) as Hsent.
  { unfold sent. rewrite Hp2, Hp, drop_app_length. clear. induction scopes as [|e l IH]; [done|]. cbn. by rewrite IH. }
  destruct (match vm_get _ sender with Some _ => _ | None => _ end);
    (split; [exact Hb|]); exists (fr_scopes fr); (split; [exact Hok|exact Hsent]).
Qed.

Section Answer.
Context (s1 : S) (Hs1 : store_ok s1) (sub1 sub2 : Subject) (ours : list (Scope * ScopeFrontier))
  (sc : Scope) (f : ScopeFrontier) (Hf : frontier_ok s1 sc f).

Lemma frontier_scope h : h ∈ f -> scope_valid sc /\ exists raw, encode sc = Ok raw.
Proof.
  destruct h as [ts [e n]]. intros Hin. apply (bt_get_elem _ _ _ (fo_sorted _ _ _ Hf)), (fo_heads _ _ _ Hf) in Hin
    as [(sm & Hv & k & v & Hk & _) _]. split; [exact (proj1 Hv)|]. exact (sync_point_scope _ _ Hk).
Qed.

(** What the first hands out for the request is the wanted part of its scope. *)
Lemma answer_chunks since floors : (exists h, h ∈ f) ->
  exists l cs, scope_list s1 sc l /\ requested_chunks s1 (mkChangeSetReq sc since floors) = Ok cs
    /\ map ck_id cs = map (fun x => as_id x.1) (List.filter (wanted since floors) l)
    /\ Forall (chunk_valid sc) cs /\ Forall (served s1 sc) cs.
Proof.
  intros [h [Hsc [raw Hraw]]%frontier_scope]. destruct (scope_list_exists s1 Hs1 sc raw Hsc Hraw) as [l Hl].
  assert (forall sp sm, (sp, sm) ∈ List.filter (wanted since floors) l -> sp_scope sp = sc /\ sync_at s1 sp sm) as Hin.
  { intros sp sm Hin. apply list_elem_of_In, filter_In in Hin as [Hin _]. by apply (scope_list_elem s1 sc l), list_elem_of_In. }
  destruct (serve_chunks_ok Htyped s1 Hs1 sc raw Hraw _ Hin) as (cs & E & Hids & Hval).
  exists l, cs. rewrite (requested_chunks_ok s1 Hs1 sc raw Hsc Hraw l) by done. do 4 (split; [done|]).
  apply mapM_res_ok in E. apply Forall_forall. intros c [i Hi]%list_elem_of_lookup.
  destruct (Forall2_lookup_r _ _ _ _ _ E Hi) as ([sp sm] & Hx & Ec). apply list_elem_of_lookup_2, Hin in Hx as [? ?].
  by apply (serve_chunk_served s1 sc sp sm).
Qed.

Lemma answer_applicable req m : request_for sub2 ours (sc, announce_full f) = Some req ->
  response_to s1 sub1 req = Some m -> applicable s1 sc m.
Proof.
  unfold request_for. cbn [fst snd]. pose proof (plan_full (vm_get ours sc) f (frontier_ok_valid _ _ _ Hf)) as Hplan.
  destruct (subject_contains sub2 sc); [|done]. destruct (plan_catchup _ _) as [| |since floors]; [done..|].
  intros [= <-]. cbn [response_to cq_scope]. destruct (subject_contains sub1 sc); [|done].
  destruct (answer_chunks since floors (proj1 Hplan)) as (l & cs & _ & -> & _ & Hval & Hsv).
  destruct (proj1 Hplan) as [h [_ [raw Hraw]]%frontier_scope].
  destruct cs as [|c cs]; [done|]. intros [= <-]. split; [done|]. split; [by rewrite Hraw|done].
Qed.

Lemma answer_covers ts e n : subject_contains sub1 sc = true -> subject_contains sub2 sc = true ->
  bt_get f ts = Some (e, n) ->
  sufficient (vm_get ours sc) ts e = true
  \/ exists req cs c, request_for sub2 ours (sc, announce_full f) = Some req
       /\ response_to s1 sub1 req = Some (ChangeSet_ cs) /\ cs_scope cs = sc /\ c ∈ cs_chunks cs /\ ck_id c = (e, ts, n).
Proof.
  intros H1 H2 Hg. assert ((ts, (e, n)) ∈ f) as Hin by (by apply bt_get_elem; [apply Hf|]).
  unfold request_for. cbn [fst snd]. rewrite H2.
  pose proof (plan_full (vm_get ours sc) f (frontier_ok_valid _ _ _ Hf)) as Hplan.
  destruct (plan_catchup _ _) as [| |since floors]; [left; by eapply Hplan|done|]. destruct Hplan as [Hex Hsk].
  specialize (Hsk _ _ _ Hin). destruct (sufficient (vm_get ours sc) ts e); [by left|right].
  destruct (answer_chunks since floors Hex) as (l & cs & Hl & E & Hids & _ & _).
  destruct (proj1 (proj1 (fo_heads _ _ _ Hf ts e n) Hg)) as (sm & Hat).
  assert ((e, ts, n) ∈ map ck_id cs) as (c & Hid & Hc)%list_elem_of_fmap.
  { rewrite Hids. apply list_elem_of_fmap. exists (mkSyncPoint sc ts e n, sm). split; [done|].
    apply list_elem_of_In, filter_In. split; [by apply list_elem_of_In, (scope_list_elem s1 sc l)|].
    unfold wanted. cbn [fst sp_ts sp_epoch]. by rewrite Hsk. }
  eexists _, (mkChangeSet sc cs), c. split; [done|]. cbn [response_to cq_scope]. rewrite H1, E.
  destruct cs; [by apply elem_of_nil in Hc|]. done.
Qed.
End Answer.

Lemma request_is_request sub ours k m : request_for sub ours k = Some m -> is_request m.
Proof. unfold request_for. repeat case_match; try done. by intros [= <-]. Qed.

Lemma scopes_frontier s sub scopes e : scopes_ok s sub scopes -> e ∈ scopes -> frontier_ok s e.1 e.2.
Proof.
  intros (Hnd & Hf & Hsub) Hin. destruct e as [sc f].
  assert (sc ∈ map fst scopes) as Hsc by (apply list_elem_of_fmap; by exists (sc, f)).
  specialize (Hf sc (Hsub _ Hsc)). by rewrite (proj2 (vm_get_elem _ _ _ Hnd) Hin) in Hf.
Qed.

Lemma scopes_head s sub scopes sp sm : scopes_ok s sub scopes -> sync_at s sp sm ->
  subject_contains sub (sp_scope sp) = true ->
  exists f e n, (sp_scope sp, f) ∈ scopes /\ frontier_ok s (sp_scope sp) f
    /\ bt_get f (sp_ts sp) = Some (e, n) /\ sp_epoch sp <= e.
Proof.
  intros (Hnd & Hf & _) Hat Hc. specialize (Hf _ Hc).
  destruct (fo_every _ _ _ Hf sp sm Hat eq_refl) as [[e n] Hg].
  destruct (vm_get scopes (sp_scope sp)) as [f|] eqn:Ef; cbn [default] in *; [|done].
  exists f, e, n. split; [by apply vm_get_elem|]. split; [done|]. split; [done|].
  apply (fo_heads _ _ _ Hf) in Hg as [_ Hmax]. by apply (sp_cmp_epoch sp (mkSyncPoint (sp_scope sp) (sp_ts sp) e n)); [|eapply Hmax].
Qed.

Lemma sufficient_default o ts e : sufficient o ts e = sufficient (Some (default [] o)) ts e.
Proof. by destruct o. Qed.

(** The messages of a round, one after the other. *)
Lemma round_ok cx1 cx2 at_ sc nd1 nd2 s1 s2 : node_ok cx1 nd1 s1 -> node_ok cx2 nd2 s2 ->
  rc_mode (cx_config cx1) = Full -> rc_mode (cx_config cx2) = Full ->
  subject_contains (rc_subject (cx_config cx1)) sc = true -> subject_contains (rc_subject (cx_config cx2)) sc = true ->
  node_id (cx_env cx1) <> node_id (cx_env cx2) ->
  probe_due (nd_probes nd2) sc (instant_now (cx_env cx2) (st_calls (nd_store nd2))) = true ->
  exists s2', st_backend (nd_store (gossip_round cx1 cx2 at_ sc nd1 nd2).1) = Some s1
    /\ st_backend (nd_store (gossip_round cx1 cx2 at_ sc nd1 nd2).2) = Some s2'
    /\ store_ok s2' /\ keeps s2 s2'
    /\ (forall sp sm, sync_at s1 sp sm -> sp_scope sp = sc -> covered s2' sc (sp_ts sp) (sp_epoch sp))
    /\ all_gained s1 sc s2 s2'.
Proof.
  intros H1 H2 Hm1 Hm2 Hc1 Hc2 Hne Hdue. unfold gossip_round. destruct (probe_sent cx2 sc nd2 s2 H2 Hdue) as [H2p ->].
  set (nd2p := (probe_scope sc cx2 nd2).2) in *. rewrite (probe_answered _ _ _ _ _ s1) by done.
  destruct (announce_sent cx1 [sc] nd1 s1 H1) as (scopes & Hscopes & Hb1 & ->). rewrite Hm1.
  set (nd1a := (send_announce [sc] false cx1 nd1).2) in *. set (told := List.filter _ scopes).
  assert (forall e, e ∈ told <-> e ∈ scopes /\ e.1 = sc) as Htold.
  { intros e. unfold told. rewrite list_elem_of_In, filter_In, <- list_elem_of_In. unfold in_filter.
    rewrite bool_decide_eq_false_2 by done. cbn [orb]. by rewrite bool_decide_eq_true, list_elem_of_singleton. }
  destruct (handle_announce_ok cx2 (node_id (cx_env cx1)) at_ told nd2p s2 H2p Hm2 ltac:(done)) as (Hb2 & ours & Hours & ->).
  set (nd2a := deliver cx2 _ _ _ nd2p) in *. set (reqs := omap _ told).
  destruct (serve_requests cx1 (node_id (cx_env cx2)) at_ reqs nd1a s1 (no_accepts _ _ _ H1) Hb1 Hne) as [Hb1' Hp1'].
  { apply Forall_forall. intros m (e & _ & He)%list_elem_of_omap. by apply (request_is_request _ _ _ _ He). }
  set (nd1b := deliver cx1 _ _ reqs nd1a) in *. unfold sent. rewrite Hp1', drop_app_length. set (answers := omap _ reqs).
  destruct (apply_changesets s1 sc cx2 (node_id (cx_env cx1)) at_ answers nd2a s2 (no_store _ _ _ H1) (no_env _ _ _ H2)
    (no_accepts _ _ _ H2) Hm2 Hb2 (no_store _ _ _ H2) ltac:(done)) as (s2' & Hb' & Hs' & Hk & Hg & Ha).
  { apply Forall_forall. intros m (req & ([sc' f] & [He Esc]%Htold & Er)%list_elem_of_omap & Em)%list_elem_of_omap.
    cbn [fst snd] in *. subst sc'. eapply (answer_applicable s1 (no_store _ _ _ H1)); [|exact Er|exact Em].
    exact (scopes_frontier s1 _ scopes (sc, f) Hscopes He). }
  exists s2'. cbn [fst snd]. do 4 (split; [done|]). split; [|done]. intros sp sm Hat <-.
  destruct (scopes_head s1 _ scopes sp sm Hscopes Hat Hc1) as (f & e & n & Hin & Hf & Hg' & Hle).
  cut (covered s2' (sp_scope sp) (sp_ts sp) e).
  { intros (sp' & sm' & ? & ? & ? & ?). exists sp', sm'. do 3 (split; [done|]). lia. }
  destruct (answer_covers s1 (no_store _ _ _ H1) _ _ ours _ f Hf _ e n Hc1 Hc2 Hg') as [Hsuf|(req & cs & c & Er & Em & Esc & Hc & Hid)].
  - rewrite sufficient_default in Hsuf. apply (keeps_covered s2); [done|].
    by apply (sufficient_covered s2 _ _ _ _ (proj1 (proj2 Hours) _ Hc2)).
  - destruct (Ha cs c) as (sm' & Hat'); [|done|].
    { apply list_elem_of_omap. exists req. split; [|done]. apply list_elem_of_omap. exists (sp_scope sp, f).
      split; [by apply Htold|done]. }
    rewrite Hid in Hat'. eexists _, sm'. split; [exact Hat'|]. done.
Qed.

(** C3. A round of gossip repairs a replica.  When a full replica probes for a scope,
    another full replica of it answers and the messages this causes are delivered,
    then the first node ends with every version of the scope the other holds, at
    the same epoch or a later one; it keeps its sync points.  Of a version the other
    holds without a deletion marker, every key's verdict joins the other's where the
    node had no sync point of the version, and is as before or joins the other's where
    it had one; every other version that the other has not marked deleted is as
    before.  The other node's store is unchanged.  The nodes' engines accept what they
    are given. *)
Theorem gossip_round_catches_up (cx1 cx2 : Ctx) (at_ : Instant) (sc : Scope) (nd1 nd2 : Node (S := S)) (s1 s2 : S)
    (H1 : node_ok cx1 nd1 s1) (H2 : node_ok cx2 nd2 s2)
    (Hm1 : rc_mode (cx_config cx1) = Full) (Hm2 : rc_mode (cx_config cx2) = Full)
    (Hc1 : subject_contains (rc_subject (cx_config cx1)) sc = true)
    (Hc2 : subject_contains (rc_subject (cx_config cx2)) sc = true)
    (Hne : node_id (cx_env cx1) <> node_id (cx_env cx2))
    (Hdue : probe_due (nd_probes nd2) sc (instant_now (cx_env cx2) (st_calls (nd_store nd2))) = true) :
  exists s2', let '(nd1', nd2') := gossip_round cx1 cx2 at_ sc nd1 nd2 in
    st_backend (nd_store nd1') = Some s1 /\ st_backend (nd_store nd2') = Some s2'
    /\ store_ok s2' /\ keeps s2 s2'
    /\ (forall sp sm, sync_at s1 sp sm -> sp_scope sp = sc -> covered s2' sc (sp_ts sp) (sp_epoch sp))
    /\ (forall key ts, stored sc key -> is_u64 ts -> undeleted s1 sc ts -> has_version s1 sc ts -> ~ has_version s2 sc ts ->
          verdict s2' key ts = Changeset.join (verdict s2 key ts) (verdict s1 key ts))
    /\ (forall sc0 key ts, stored sc0 key -> is_u64 ts -> undeleted s1 sc0 ts ->
          verdict s2' key ts = verdict s2 key ts
          \/ (sc0 = sc /\ has_version s1 sc ts
              /\ verdict s2' key ts = Changeset.join (verdict s2 key ts) (verdict s1 key ts))).
Proof.
  destruct (round_ok cx1 cx2 at_ sc nd1 nd2 s1 s2 H1 H2 Hm1 Hm2 Hc1 Hc2 Hne Hdue) as (s2' & Hb1 & Hb2 & Hs & Hk & Hcov & Hg).
  exists s2'. destruct (gossip_round cx1 cx2 at_ sc nd1 nd2) as [nd1' nd2']. do 5 (split; [done|]). split.
  - intros key ts Hst Hts Hund (sp & sm & Hat & Esc & Ets) Hno.
    destruct (Hg sc key ts Hst Hts Hund) as [[_ Hold]|(_ & _ & E)]; [|done]. destruct Hno. apply Hold.
    destruct (Hcov sp sm Hat Esc) as (sp' & sm' & Hat' & Esc' & Ets' & _). exists sp', sm'. by rewrite Ets'.
  - intros sc0 key ts Hst Hts Hund. destruct (Hg sc0 key ts Hst Hts Hund) as [[E _]|?]; [by left|by right].
Qed.
End Round.

(** ** An example *)

Import Sample.

Lemma sample_node_ok mode env s : store_ok s -> env_ok env -> env_accepts env ->
  node_ok (sample_cx mode env) (sample_node_of s) s.
Proof. intros Hs He Hacc. by split; try done; vm_compute. Qed.

(** Every row of the sample that decodes as a sync point's is a mutation. *)
Lemma sample_gc_undeleted sc ts : undeleted sample_gc_store sc ts.
Proof.
  intros sp sm (_ & k & v & _ & Hg & Hv) _ _.
  assert (forallb (fun r : bytes * bytes => match from_bytes r.2 : option SyncMeta with
    | Some sm => match sm_marker sm with Marker.Mutation => true | Marker.Deletion => false end
    | None => true end) (kv_prefix sample_gc_store []) = true) as Hall by (vm_compute; reflexivity).
  assert ((k, v) ∈ kv_prefix sample_gc_store []) as Hin
    by exact (proj2 (kv_prefix_elem sample_gc_store [] k v) (conj Hg eq_refl)).
  rewrite forallb_forall in Hall. apply list_elem_of_In, Hall in Hin. cbn [snd] in Hin. rewrite Hv in Hin.
  by destruct (sm_marker sm).
Qed.

Lemma sample_gc_version : sync_at sample_gc_store (mkSyncPoint Sample.scope 95 95 Sample.me) (retained 50).
Proof.
  split; [apply sample_point_valid; unfold is_u64; lia|]. do 2 eexists.
  split; [vm_compute; reflexivity|]. split; [vm_compute; reflexivity|vm_compute; reflexivity].
Qed.

Lemma empty_no_version sc ts : ~ has_version Sample.empty_store sc ts.
Proof. by intros (sp & sm & (_ & k & v & _ & Hg & _) & _). Qed.

Lemma gossip_round_catches_up_witness :
  exists s2', st_backend (nd_store (gossip_round (sample_cx Full sample_env) (sample_cx Full peer_env) 7 Sample.scope
      (sample_node_of sample_gc_store) (sample_node_of Sample.empty_store)).2) = Some s2'
    /\ covered s2' Sample.scope 95 95 /\ verdict s2' key_a_bytes 95 = Some (Some [x2b]).
Proof.
  destruct (gossip_round_catches_up sample_serialises sample_typed (sample_cx Full sample_env) (sample_cx Full peer_env) 7
    Sample.scope (sample_node_of sample_gc_store) (sample_node_of Sample.empty_store) sample_gc_store Sample.empty_store
    (sample_node_ok _ _ _ sample_gc_ok sample_env_ok sample_env_accepts)
    (sample_node_ok _ _ _ empty_store_ok peer_env_ok peer_env_accepts) eq_refl eq_refl eq_refl eq_refl
    ltac:(discriminate) eq_refl) as (s2' & H).
  exists s2'. destruct (gossip_round _ _ _ _ _ _) as [nd1' nd2']. destruct H as (_ & Hb & _ & _ & Hc & Hv & _).
  split; [exact Hb|]. split; [exact (Hc _ _ sample_gc_version eq_refl)|].
  rewrite (Hv key_a_bytes 95); [vm_compute; reflexivity|exact (user_key_stored (Sample.key "a") key_a_bytes (sample_key_valid "a" eq_refl) key_a_encode)|unfold is_u64; lia|apply sample_gc_undeleted| |apply empty_no_version].
  eexists _, _. split; [exact sample_gc_version|]. split; reflexivity.
Defined.
