(* ===== verification/Peers.v ===== *)
(** * What peers hold

    A store keeps what each peer last announced, and when.  A departed peer
    is forgotten, and news from before its departure do not bring it back;
    what is outstanding is exactly what live peers announced and the store
    does not cover. *)

From S2P Require Import Prelude Bytes Skey SkeyRoundtrip SkeyOrder Keys KeyScan Domain Kv Rows RowsFacts Changeset Scans Tx Sample TxKeys TxInv TxReads TxScans TxSync TxOrder Announce Store StoreGc Repl ReplFacts ReplServe.
From Stdlib Require Import ZArith Lia Strings.Byte Sorting.Sorted.
From stdpp Require Import base list option strings sets.

Local Open Scope Z_scope.

(** ** Targets *)

(** The greatest epoch listed for the version. *)
Definition top (l : list (Version * Epoch)) (ts : Version) (e : Epoch) : Prop :=
  (ts, e) ∈ l /\ forall e', (ts, e') ∈ l -> e' <= e.

Definition announced (sas : list ScopeAnnounce) : list (Version * Epoch) :=
  concat (map (fun sa => map (fun h : Version * (Epoch * NodeId) => (h.1, h.2.1)) (heads sa)) sas).

(** What a walk over announced heads has gathered. *)
Definition gathered (l : list (Version * Epoch)) (target : list (Version * Epoch)) : Prop :=
  bt_ok target /\ forall ts, match bt_get target ts with Some e => top l ts e | None => forall e, (ts, e) ∉ l end.

Lemma gathered_raise l target h : gathered l target -> gathered (l ++ [(h.1, h.2.1)]) (raise_target target h).
Proof.
  destruct h as [ts [e n]]. intros [Hok Hg]. split; [by apply bt_insert_ok|]. intros ts'. unfold raise_target. cbn [fst snd].
  rewrite bt_get_insert. destruct (Z.eqb_spec ts' ts) as [->|Hne].
  - specialize (Hg ts). destruct (bt_get target ts) as [e0|].
    + destruct Hg as [Hin Hmax]. split.
      * rewrite elem_of_app, list_elem_of_singleton. destruct (Z.max_spec e0 e) as [[_ ->]|[_ ->]]; [by right|by left].
      * intros e'. rewrite elem_of_app, list_elem_of_singleton. intros [Hin'|[= ->]]; [specialize (Hmax _ Hin'); lia|lia].
    + split; [rewrite elem_of_app, list_elem_of_singleton; by right|].
      intros e'. rewrite elem_of_app, list_elem_of_singleton. intros [Hin'|[= ->]]; [by apply Hg in Hin'|lia].
  - specialize (Hg ts'). destruct (bt_get target ts') as [e0|].
    + destruct Hg as [Hin Hmax]. split; [rewrite elem_of_app; by left|].
      intros e'. rewrite elem_of_app, list_elem_of_singleton. intros [Hin'|[= -> _]]; [by apply Hmax|done].
    + intros e'. rewrite elem_of_app, list_elem_of_singleton. intros [Hin'|[= -> _]]; [by apply Hg in Hin'|done].
Qed.

Lemma gathered_heads l target hs : gathered l target ->
  gathered (l ++ map (fun h : Version * (Epoch * NodeId) => (h.1, h.2.1)) hs) (fold_left raise_target hs target).
Proof.
  revert l target; induction hs as [|h hs IH]; intros l target Hg; [by rewrite app_nil_r|]. cbn [fold_left map].
  replace (l ++ (h.1, h.2.1) :: _) with ((l ++ [(h.1, h.2.1)]) ++ map (fun h : Version * (Epoch * NodeId) => (h.1, h.2.1)) hs)
    by (by rewrite <- app_assoc). by apply IH, gathered_raise.
Qed.

Lemma targets_gathered sas : gathered (announced sas) (targets sas).
Proof.
  unfold targets. change (announced sas) with ([] ++ announced sas).
  assert (gathered [] []) as Hg by (split; [constructor|]; intros ts; cbn; intros e; apply not_elem_of_nil).
  revert Hg. generalize (@nil (Version * Epoch)) at 1 3 as l. generalize (@nil (Version * Epoch)) as target.
  induction sas as [|sa sas IH]; intros target l Hg; [by rewrite app_nil_r|].
  cbn [fold_left]. unfold announced. cbn [map concat]. rewrite app_assoc. by apply IH, gathered_heads.
Qed.

Section Peers.
Context {S : Type} {kvS : Kv S} {kvLaws : KvLaws S}
  {pcMeta : Postcard SyncMeta} {pcMetaLaws : PostcardLaws SyncMeta}
  {pcBody : Postcard MeasurementBody}.
Implicit Types s : S.
Implicit Types st : Store (S := S).

(** ** Outstanding versions *)

Lemma outstanding_list (env : Env) st s sc raw : env_accepts env -> st_backend st = Some s -> store_ok s ->
  scope_valid sc -> encode sc = Ok raw ->
  exists f st', frontier_ok s sc f /\ st_backend st' = Some s
    /\ outstanding sc env st = (Ok (List.filter (fun t : Version * Epoch => negb (sufficient (Some f) t.1 t.2))
         (targets (live_announces sc (instant_now env (st_calls st)) st))), st').
Proof.
  intros Hacc Hb Hs Hsc Hraw. destruct (scope_range_total sc raw Hraw) as (lo & hi & Hr).
  destruct (frontier_of_ok s Hs sc Hsc lo hi Hr) as (f & E & Hf). exists f.
  unfold outstanding, mbind, SM_bind, now_instant, prim.
  change (live_announces sc _ (called st)) with (live_announces sc (instant_now env (st_calls st)) st).
  destruct (targets (live_announces sc (instant_now env (st_calls st)) st)) as [|t ts] eqn:Et.
  { eexists. split; [done|]. split; [|reflexivity]. exact Hb. }
  unfold scope_heads, mbind, SM_bind. rewrite (begin_local_ok _ _ s) by done. unfold smres. cbn [tx_store]. rewrite E.
  eexists. split; [done|]. split; [|reflexivity]. exact Hb.
Qed.

(** What is outstanding is exact: a version is reported, with the newest epoch a live
    peer announced for it, if and only if the store does not hold it at that
    epoch or a later one; nothing is outstanding exactly if every head a live
    peer announced is covered. *)
Theorem outstanding_exact (env : Env) (st : Store) (s : S) (sc : Scope) (raw : bytes) (Hacc : env_accepts env)
    (Hb : st_backend st = Some s) (Hs : store_ok s) (Hsc : scope_valid sc) (Hraw : encode sc = Ok raw) :
  let live := announced (live_announces sc (instant_now env (st_calls st)) st) in
  exists out st', outstanding sc env st = (Ok out, st') /\ st_backend st' = Some s
    /\ (forall ts e, (ts, e) ∈ out <-> top live ts e /\ ~ covered s sc ts e)
    /\ (out = [] <-> forall ts e, (ts, e) ∈ live -> covered s sc ts e).
Proof.
  intros live. destruct (outstanding_list env st s sc raw Hacc Hb Hs Hsc Hraw) as (f & st' & Hf & Hb' & ->).
  destruct (targets_gathered (live_announces sc (instant_now env (st_calls st)) st)) as [Hok Hg]. fold live in Hg.
  set (tg := targets _) in *. eexists _, st'. split; [done|]. split; [done|].
  assert (forall ts e, (ts, e) ∈ tg <-> top live ts e) as Htop.
  { intros ts e. rewrite <- (bt_get_elem _ _ _ Hok). specialize (Hg ts). destruct (bt_get tg ts) as [e0|].
    - split; [by intros [= <-]|]. intros [Hin Hmax]. destruct Hg as [Hin0 Hmax0]. f_equal.
      specialize (Hmax _ Hin0). specialize (Hmax0 _ Hin). lia.
    - split; [done|]. intros [Hin _]. by apply Hg in Hin. }
  assert (forall ts e, (ts, e) ∈ List.filter (fun t : Version * Epoch => negb (sufficient (Some f) t.1 t.2)) tg
    <-> top live ts e /\ ~ covered s sc ts e) as Hout.
  { intros ts e. rewrite elem_of_filterb, Htop. cbn [fst snd].
    rewrite <- (sufficient_covered s sc f ts e Hf). destruct (sufficient (Some f) ts e); cbn; intuition congruence. }
  split; [done|]. split.
  - intros Enil ts e Hin. specialize (Hg ts). destruct (bt_get tg ts) as [e0|]; [|by apply Hg in Hin].
    destruct (sufficient (Some f) ts e0) eqn:Es.
    + apply (sufficient_covered s sc f ts e0 Hf) in Es as (sp & sm & ? & ? & ? & ?). exists sp, sm. do 3 (split; [done|]).
      specialize (proj2 Hg _ Hin). lia.
    + assert ((ts, e0) ∈ @nil (Version * Epoch)) as Hn; [|by apply elem_of_nil in Hn]. rewrite <- Enil. apply Hout. split; [done|].
      rewrite <- (sufficient_covered s sc f ts e0 Hf), Es. done.
  - intros Hcov. destruct (List.filter _ tg) as [|[ts e] l] eqn:E; [done|]. exfalso.
    destruct (proj1 (Hout ts e)) as [[Hin _] Hn]; [left|]. by apply Hn, Hcov.
Qed.

(** ** Departures *)

Definition peers_ok st : Prop := NoDup (map fst (st_peers st)).

Lemma record_peer_ok peer known full at_ st : peers_ok st -> peers_ok (record_peer_frontier peer known full at_ st).2.
Proof.
  intros Hp. unfold record_peer_frontier. destruct (match vm_get _ _ with Some _ => _ | None => _ end); [done|].
  by apply vm_insert_nodup.
Qed.

(** A departed peer stays gone until it is heard from again: it is in no peer view,
    what it announced before its departure is refused without changing
    anything, what it announces later is recorded; and no other peer is
    affected. *)
Theorem departed_peer_fenced (peer : NodeId) (now : Instant) (st : Store) (Hp : peers_ok st) :
  let st' := forget_peer peer now st in
  peers_ok st'
  /\ (forall sc at_ v, v ∈ peer_view sc at_ st' -> pv_id v <> peer)
  /\ (forall known full at_, at_ <= now -> record_peer_frontier peer known full at_ st' = (false, st'))
  /\ (forall known full at_, now < at_ -> (record_peer_frontier peer known full at_ st').1 = true)
  /\ (forall q, q <> peer -> vm_get (st_peers st') q = vm_get (st_peers st) q).
Proof.
  intros st'. destruct (vm_remove_keys (st_peers st) peer Hp) as [Hnd Hkeys].
  assert (vm_get (st_departed st') peer = Some now) as Hd
    by (unfold st', forget_peer; cbn [st_departed set_peers]; by rewrite vm_get_insert, decide_True).
  split; [exact Hnd|]. split; [|split; [|split]].
  - intros sc at_ v Hin. apply list_elem_of_omap in Hin as ([q en] & Hq & Ev). cbn [fst snd] in Ev.
    assert (q <> peer) as Hne by (apply (Hkeys q), list_elem_of_fmap; by exists (q, en)).
    destruct (vm_get en sc) as [held|]; [|done]. cbn in Ev. destruct (PEER_TTL <? _); [done|].
    destruct (announce_head (ps_announce held)); [|done]. by injection Ev as <-.
  - intros known full at_ Hle. unfold record_peer_frontier. rewrite Hd. by rewrite (proj2 (Z.leb_le _ _) Hle).
  - intros known full at_ Hlt. unfold record_peer_frontier. rewrite Hd. by rewrite (proj2 (Z.leb_gt _ _) Hlt).
  - intros q Hne. unfold st', forget_peer. cbn [st_peers set_peers]. by apply vm_get_remove_ne.
Qed.
End Peers.

(** ** Examples *)

Import Sample.

Definition sample_peer_store : Store :=
  (record_peer_frontier peer [(Sample.scope, announce_full [(9, (9, Sample.me)); (95, (96, Sample.me))])] true 0
     (sample_store sample_gc_store)).2.

Lemma outstanding_exact_witness :
  exists out st', outstanding Sample.scope sample_env sample_peer_store = (Ok out, st')
    /\ forall ts e, (ts, e) ∈ out -> ~ covered sample_gc_store Sample.scope ts e.
Proof.
  destruct (encode Sample.scope) as [raw|] eqn:Hraw; [|vm_compute in Hraw; discriminate].
  destruct (outstanding_exact sample_env sample_peer_store sample_gc_store Sample.scope raw sample_env_accepts eq_refl
    sample_gc_ok gc_scope_valid Hraw) as (out & st' & E & _ & H & _).
  exists out, st'. split; [exact E|]. intros ts e Hin. exact (proj2 (proj1 (H ts e) Hin)).
Defined.

Example outstanding_newer_epoch : (outstanding Sample.scope sample_env sample_peer_store).1 = Ok [(95, 96)].
Proof. vm_compute. reflexivity. Qed.

Lemma departed_peer_fenced_witness :
  record_peer_frontier peer [] true 5 (forget_peer peer 7 sample_peer_store) = (false, forget_peer peer 7 sample_peer_store).
Proof.
  assert (peers_ok sample_peer_store) as Hp by apply NoDup_singleton.
  exact (proj1 (proj2 (proj2 (departed_peer_fenced peer 7 sample_peer_store Hp))) [] true 5 ltac:(lia)).
Defined.
