(* ===== verification/Drain.v ===== *)
(** * Drains

    A node that holds rows of a scope it does not replicate drains it: it
    announces what it holds, asks replicas whether they cover it, and lets
    its copy go once one does; or it becomes a replica itself.  This file
    models the drain loop of [swarm/src/plugins/db.rs], the custody rows of
    [cell-protocol/src/replication.rs] it records, and the answer to locate
    queries.  The phases of the loop are separate steps, so that messages and
    commits can come in between. *)

From S2P Require Import Prelude Bytes Skey Keys Domain Kv Rows Changeset Scans Tx Announce Store Repl.
From Stdlib Require Import ZArith Lia Strings.Byte.
From stdpp Require Import base list option strings sets.

Local Open Scope Z_scope.

(** ** Custody rows *)

Record CustodyRow := mkCustodyRow { cr_scope : Scope; cr_node : NodeId }.

Definition CUSTODY_TABLE : str := lit "custody".
Definition replication_scope : Scope := mkScope (lit "sys") (lit "replication") (lit "p").

Definition hex_digit (n : Z) : byte := z2b (if n <? 10 then 48 + n else 87 + n).
Definition hex (b : byte) : bytes := [hex_digit (b2z b / 16); hex_digit (b2z b mod 16)].

Definition custody_key (row : CustodyRow) : bytes :=
  scope_display (cr_scope row) ++ lit "@" ++ concat (map hex (cr_node row)).

(** The greatest of [(rendezvous_hash, node)], the last one of equals. *)
Definition node_rank (scope : Scope) (node : NodeId) : Z * NodeId := (rendezvous_hash scope node, node).
Definition rank_le (a b : Z * NodeId) : bool :=
  (a.1 <? b.1) || ((a.1 =? b.1) && ble_b a.2 b.2).
Definition custody_step (scope : Scope) (best : option NodeId) (node : NodeId) : option NodeId :=
  match best with
  | Some b => if rank_le (node_rank scope b) (node_rank scope node) then Some node else Some b
  | None => Some node
  end.
Definition custody_winner (scope : Scope) (nodes : list NodeId) : option NodeId :=
  fold_left (custody_step scope) nodes None.

(** ** The loop *)

Inductive OffloadKind := Hidden | Dropped | Sink | Unwinding (target : NodeId).

Definition VERIFY_EVERY : Duration := 16 * 10 ^ 9.
Definition ANNOUNCE_EVERY : Duration := 2 * 10 ^ 9.

(** Where the loop stands: at its top, before the coverage check, between the
    snapshot of what is held and the question, waiting, or out of the loop. *)
Inductive phase := AtTop | AtVerify | AtAsk (held : list SyncPointId) | AtSelect | Exited.

Record Drain := mkDrain {
  dr_phase : phase;
  dr_findable : bool;
  dr_escalate_at : option Instant;
  dr_retired : bool;
  dr_covered : list SyncPointId;
  dr_verify_at : Instant;
  dr_reason : bool;
  dr_tick_at : Instant;
}.

Definition go (d : Drain) (p : phase) : Drain :=
  mkDrain p (dr_findable d) (dr_escalate_at d) (dr_retired d) (dr_covered d) (dr_verify_at d) (dr_reason d) (dr_tick_at d).
Definition wake (d : Drain) (reason : bool) : Drain :=
  mkDrain AtTop (dr_findable d) (dr_escalate_at d) (dr_retired d) (dr_covered d) (dr_verify_at d) reason (dr_tick_at d).
Definition set_escalate (d : Drain) (at_ : option Instant) : Drain :=
  mkDrain (dr_phase d) (dr_findable d) at_ (dr_retired d) (dr_covered d) (dr_verify_at d) (dr_reason d) (dr_tick_at d).
Definition set_findable (d : Drain) : Drain :=
  mkDrain (dr_phase d) true (dr_escalate_at d) (dr_retired d) (dr_covered d) (dr_verify_at d) (dr_reason d) (dr_tick_at d).
Definition set_verify_at (d : Drain) (at_ : Instant) : Drain :=
  mkDrain (dr_phase d) (dr_findable d) (dr_escalate_at d) (dr_retired d) (dr_covered d) at_ (dr_reason d) (dr_tick_at d).
Definition set_tick_at (d : Drain) (at_ : Instant) : Drain :=
  mkDrain (dr_phase d) (dr_findable d) (dr_escalate_at d) (dr_retired d) (dr_covered d) (dr_verify_at d) (dr_reason d) at_.
Definition retire (d : Drain) (covered : list SyncPointId) : Drain :=
  mkDrain (dr_phase d) (dr_findable d) (dr_escalate_at d) true covered (dr_verify_at d) (dr_reason d) (dr_tick_at d).

(** What can end the wait at the end of an iteration. *)
Inductive event := Tick | Stopped | Escalate | Nudge | Rearm | Findable | Fetched.

Section Drain.
Context {S : Type} `{Kv S} `{Postcard SyncMeta} `{Postcard MeasurementBody} `{Postcard CustodyRow}.
(** [uhlc::ID::try_from], the random part of the waits, and the configured timeout. *)
Context (id_of : NodeId -> option NodeId) (jitter : nat -> Duration) (escalation_timeout : Duration).

(** *** Custody *)

Definition custody_table : Table := mkTable replication_scope CUSTODY_TABLE.
Definition own_node : RM (S := S) NodeId := fun cx nd => (Ok (node_id (cx_env cx)), nd).

(** The store's part of [start_replication]. *)
Definition start_replication (subject : Subject) : RM (S := S) unit := rprim (fun cx nd =>
  (Ok tt, set_nd_store nd (Store.replicate subject (nd_store nd)).2)).

Definition promote (scope : Scope) : RM (S := S) unit :=
  me ← own_node;
  let row := mkCustodyRow scope me in
  tx ← on_store (begin_local None);
  r ← on_store (within (tb_get custody_table (custody_key row)) tx);
  _ ← match r.1 with
      | Some _ => mret tt
      | None =>
          value ← on_store (smres (ok_or ErrPostcard (to_allocvec row)));
          w ← on_store (within (tb_insert custody_table (custody_key row) value) r.2);
          on_store (commit_tx w.2)
      end;
  start_replication (SubjScope scope).

Definition delete_own_custody_row (scope : Scope) : RM (S := S) unit :=
  me ← own_node;
  let key := custody_key (mkCustodyRow scope me) in
  tx ← on_store (begin_local None);
  r ← on_store (within (tb_get custody_table key) tx);
  match r.1 with
  | None => mret tt
  | Some _ =>
      w ← on_store (within (tb_delete custody_table key) r.2);
      on_store (commit_tx w.2)
  end.

(** *** Coverage *)

(** [held_sync_points] of the plugin: nothing when the scan does not work. *)
Definition held_or_none (scope : Scope) : RM (S := S) (list SyncPointId) :=
  r ← rattempt (on_store (held_sync_points scope));
  mret (match r with Ok points => points | Err _ => [] end).

Fixpoint ask_replicas (scope : Scope) (peers : list PeerView) : RM (S := S) bool :=
  match peers with
  | [] => mret false
  | p :: peers =>
      match id_of (pv_id p) with
      | None => ask_replicas scope peers
      | Some id =>
          answer ← confirm_covered_by id scope;
          if bool_decide (answer = Some true) then mret true else ask_replicas scope peers
      end
  end.

Definition verify_covered (scope : Scope) : RM (S := S) bool :=
  now ← on_store now_instant;
  replicas ← rprim (fun cx nd =>
    (Ok (List.filter (fun p => match pv_state p with Replica => true | Draining => false end) (peer_view scope now (nd_store nd))), nd));
  ask_replicas scope replicas.

Definition release_offloaded (scope : Scope) (points : list SyncPointId) : RM (S := S) unit :=
  _ ← rattempt (on_store (release_scope scope points)); mret tt.

(** *** Phases *)

Definition drain_start (scope : Scope) (kind : OffloadKind) : RM (S := S) Drain :=
  _ ← probe_scope scope;
  escalate_at ← match kind with
                | Unwinding _ => mret None
                | _ => now ← on_store now_instant; mret (Some (now + escalation_timeout))
                end;
  now ← on_store now_instant;
  tick_at ← on_store now_instant;
  mret (mkDrain AtTop (match kind with Hidden => false | _ => true end) escalate_at false [] (now + VERIFY_EVERY) true tick_at).

Definition drain_top (scope : Scope) (d : Drain) : RM (S := S) Drain :=
  replicating ← rprim (fun cx nd => (Ok (is_replicating (nd_store nd) scope), nd));
  if (replicating : bool) then _ ← confirm_shutdown; mret (go d Exited)
  else if dr_reason d then
    _ ← rattempt announce_for;
    now ← on_store now_instant;
    more ← rprim (fun cx nd => (Ok (jitter (st_calls (nd_store nd))), nd));
    mret (go (set_tick_at d (now + ANNOUNCE_EVERY + more)) AtVerify)
  else mret (go d AtVerify).

Definition drain_verify (scope : Scope) (d : Drain) : RM (S := S) Drain :=
  now ← on_store now_instant;
  if dr_verify_at d <=? now then
    now ← on_store now_instant;
    held ← held_or_none scope;
    mret (go (set_verify_at d (now + VERIFY_EVERY)) (AtAsk held))
  else mret (go d AtSelect).

Definition drain_ask (scope : Scope) (held : list SyncPointId) (d : Drain) : RM (S := S) Drain :=
  covered ← verify_covered scope;
  if (covered : bool) then _ ← confirm_shutdown; mret (go (retire d held) AtSelect)
  else mret (go d AtSelect).

(** The branch of the [select!] for an event; [None] when it cannot be taken. *)
Definition drain_select (scope : Scope) (ev : event) (d : Drain) : RM (S := S) (option Drain) :=
  match ev with
  | Tick =>
      now ← on_store now_instant;
      mret (if dr_tick_at d <=? now then Some (wake d true) else None)
  | Stopped =>
      stopped ← rprim (fun cx nd => (Ok (nd_stopped nd), nd));
      mret (if (stopped : bool) then Some (go (retire d (dr_covered d)) Exited) else None)
  | Escalate =>
      now ← on_store now_instant;
      match dr_escalate_at d with
      | None => mret None
      | Some at_ =>
          if at_ <=? now then
            r ← rattempt (promote scope);
            _ ← match (r : res tx_error unit) with Ok _ => confirm_shutdown | Err _ => mret tt end;
            mret (Some (go d Exited))
          else mret None
      end
  | Nudge => mret (Some (wake d true))
  | Rearm =>
      match dr_escalate_at d with
      | None => now ← on_store now_instant; mret (Some (wake (set_escalate d (Some (now + escalation_timeout))) true))
      | Some _ => mret (Some (wake d true))
      end
  | Findable => mret (if dr_findable d then None else Some (wake (set_findable d) true))
  | Fetched =>
      match dr_escalate_at d with
      | None => mret None
      | Some _ => now ← on_store now_instant; mret (Some (wake (set_escalate d (Some (now + escalation_timeout))) false))
      end
  end.

(** One step of the loop; the event matters only where it waits. *)
Definition drain_step (scope : Scope) (ev : event) (d : Drain) : RM (S := S) (option Drain) :=
  match dr_phase d with
  | AtTop => d ← drain_top scope d; mret (Some d)
  | AtVerify => d ← drain_verify scope d; mret (Some d)
  | AtAsk held => d ← drain_ask scope held d; mret (Some d)
  | AtSelect => drain_select scope ev d
  | Exited => mret None
  end.

(** What follows the loop. *)
Definition drain_finish (scope : Scope) (kind : OffloadKind) (d : Drain) : RM (S := S) unit :=
  _ ← (if dr_retired d then
         match kind with
         | Unwinding _ => _ ← rattempt (delete_own_custody_row scope); mret tt
         | _ => mret tt
         end
       else mret tt);
  if dr_retired d then
    covered ← (if bool_decide (dr_covered d = []) then take_confirmed_coverage else mret (dr_covered d));
    release_offloaded scope covered
  else mret tt.

(** ** Locate queries

    What a holder answers to a locate query for the scope: its newest version and the
    other holders it knows of, or nothing. *)
Definition locate_answer (scope : Scope) (min_version : option Version) : RM (S := S) (option (Version * list PeerView)) :=
  unavailable ← on_store is_unavailable;
  if (unavailable : bool) then mret None else
  qualified ← match min_version with
              | Some v => on_store (scope_has_version scope v)
              | None => mret true
              end;
  if negb qualified then mret None else
  head ← on_store (scope_head_version scope);
  now ← on_store now_instant;
  rprim (fun cx nd => (Ok (Some (default 0 head, peer_view scope now (nd_store nd))), nd)).
End Drain.
