(* ===== verification/DrainFacts.v ===== *)
(** * Drains lose nothing

    Whatever messages and commits come in between, and whatever the engine
    answers, a drain lets go only of sync points that a replica vouched for:
    by answering a coverage check, or by announcing them. *)

From S2P Require Import Prelude Bytes Skey SkeyRoundtrip SkeyOrder Keys KeyScan Domain Kv Rows RowsFacts Changeset Scans Tx Sample TxKeys TxInv TxReads TxScans TxSync TxOrder Announce Store StoreGc Repl ReplFacts ReplServe ReplPull Drain.
From Stdlib Require Import ZArith Lia Strings.Byte Sorting.Sorted.
From stdpp Require Import base list option strings sets.

Local Open Scope Z_scope.

Section Drain.
Context {S : Type} {kvS : Kv S} {kvLaws : KvLaws S}
  {pcMeta : Postcard SyncMeta} {pcMetaLaws : PostcardLaws SyncMeta}
  {pcBody : Postcard MeasurementBody} {pcCustody : Postcard CustodyRow}.
Implicit Types s : S.
Implicit Types nd : Node (S := S).

(** ** Engines that may fail *)

Lemma begin_local_cases (env : Env) (st : Store) s ret : st_backend st = Some s ->
  begin_local ret env st = (Ok (mkTx s (new_timestamp env (st_calls st)) (node_id env) [] ret), called st)
  \/ exists e, begin_local ret env st = (Err e, called st).
Proof. intros Hb. unfold begin_local. rewrite Hb. destruct (engine_begin env (st_calls st)); eauto. Qed.

Lemma commit_tx_cases (env : Env) (st : Store) (t : @Transaction S) : tx_ok t ->
  exists r st', commit_tx t env st = (r, st')
    /\ (st_backend st' = st_backend st \/ exists t', st_backend st' = Some (tx_store t') /\ tx_ok t').
Proof.
  intros Ht. unfold commit_tx. pose proof (triple_commit (engine_commit env (st_calls st)) t Ht) as [Hc _].
  destruct (commit _ t) as [[u|e] t'].
  - do 2 eexists. split; [reflexivity|]. right. exists t'. by split.
  - do 2 eexists. split; [reflexivity|]. by left.
Qed.

(** A release that may stop early lets go of some of the points. *)
Definition some_released (sc : Scope) (points : list SyncPointId) s (r : res tx_error nat * Store (S := S)) : Prop :=
  exists s' gone, st_backend r.2 = Some s' /\ released_from sc gone s s' /\ forall id, id ∈ gone -> id ∈ points.

Lemma none_released sc points s r : store_ok s -> st_backend r.2 = Some s -> some_released sc points s r.
Proof. intros Hs Hb. exists s, []. split; [done|]. split; [by apply released_nil|by intros ? ?%elem_of_nil]. Qed.

Lemma release_batches_safe (env : Env) sc raw batches n (st : Store) s : env_ok env ->
  st_backend st = Some s -> store_ok s -> points_ok sc (concat batches) -> encode sc = Ok raw ->
  some_released sc (concat batches) s (release_batches sc batches n env st).
Proof.
  intros He Hb Hs Hin Hraw. revert st s Hb Hs Hin n. induction batches as [|batch batches IH]; intros st s Hb Hs Hin n.
  { by apply none_released. }
  cbn [concat release_batches] in *. apply Forall_app in Hin as [Hin1 Hin2]. unfold mbind, SM_bind.
  destruct (begin_local_cases env st s None Hb) as [-> | [e ->]]; [|by apply none_released].
  set (t := mkTx s _ _ _ _). destruct (release_batch_ok sc raw batch 0 t) as (s1 & E & Hp); [by apply begin_tx_ok|done|done|].
  unfold within. rewrite E. unfold attempt, commit_tx, commit. cbn [active_scopes set_store t for_each].
  destruct (engine_commit env (st_calls (called st))); [|by apply none_released..].
  destruct (IH (called (set_backend (called st) (Some s1))) s1 eq_refl (rf_ok _ _ _ _ Hp) Hin2 (n + (0 + length batch))%nat)
    as (s' & gone & Hb' & Hr & Hg).
  exists s', (batch ++ gone). split; [done|]. split; [by apply (released_trans _ _ _ s s1)|].
  intros id. rewrite !elem_of_app. intros [?|?]; [by left|right; by apply Hg].
Qed.

Lemma release_scope_safe (env : Env) sc raw points (st : Store) s : env_ok env ->
  st_backend st = Some s -> store_ok s -> points_ok sc points -> encode sc = Ok raw ->
  some_released sc points s (release_scope sc points env st).
Proof.
  intros He Hb Hs Hin Hraw. unfold release_scope. destruct points as [|id rest]; [by apply none_released|].
  pose proof (chunks_concat RELEASE_BATCH (id :: rest) ltac:(unfold RELEASE_BATCH; lia)) as E.
  rewrite <- E in Hin. rewrite <- E at 1. by eapply release_batches_safe.
Qed.

(** ** Steps that keep the rows and what was confirmed *)

Section Calm.
Context (sc : Scope) (raw : bytes) (Hsc : scope_valid sc) (Hraw : encode sc = Ok raw) (cx : Ctx)
  (Hsub : rc_subject (cx_config cx) = SubjScope sc) (s : S) (Hs : store_ok s).

(** A frontier of the scope, read from some rows. *)
Definition frontier_read (scopes : list (Scope * ScopeFrontier)) : Prop :=
  forall e, e ∈ scopes -> e.1 = sc /\ frontier_valid e.2.

Definition good nd : Prop :=
  st_backend (nd_store nd) = Some s /\ forall f, nd_latest nd = Some f -> frontier_read (fr_scopes f).

Definition calm {A} (m : RM (S := S) A) (Q : A -> Prop) : Prop := forall nd, good nd ->
  good (m cx nd).2 /\ nd_covered (m cx nd).2 = nd_covered nd /\ forall a, (m cx nd).1 = Ok a -> Q a.

Lemma calm_bind {A B} (P : A -> Prop) (Q : B -> Prop) (m : RM (S := S) A) (f : A -> RM B) :
  calm m P -> (forall a, P a -> calm (f a) Q) -> calm (m ≫= f) Q.
Proof.
  intros Hm Hf nd Hg. destruct (Hm nd Hg) as (H1 & H2 & H3). unfold mbind, RM_bind.
  destruct (m cx nd) as [[a|e] nd1]; cbn [fst snd] in *; [|done].
  destruct (Hf a (H3 a eq_refl) nd1 H1) as (H4 & H5 & H6). split; [done|]. split; [congruence|]. done.
Qed.

Lemma calm_ret {A} (a : A) (Q : A -> Prop) : Q a -> calm (mret a) Q.
Proof. intros HQ nd Hg. split; [done|]. split; [done|]. by intros b [= <-]. Qed.

Lemma calm_store {A} (m : SM (S := S) A) (Q : A -> Prop) :
  (forall env st, st_backend st = Some s -> st_backend (m env st).2 = Some s /\ forall a, (m env st).1 = Ok a -> Q a) ->
  calm (on_store m) Q.
Proof.
  intros Hm nd [Hb Hc]. destruct (Hm (cx_env cx) (nd_store nd) Hb) as [H1 H2]. unfold on_store.
  destruct (m _ _) as [r st]; cbn [fst snd] in *. by split_and!.
Qed.

(** A step that changes neither rows, nor the cache, nor what was confirmed. *)
Lemma calm_prim {A} (f : Ctx -> Node (S := S) -> res tx_error A * Node) (Q : A -> Prop) :
  (forall nd, st_backend (nd_store (f cx nd).2) = st_backend (nd_store nd) /\ nd_latest (f cx nd).2 = nd_latest nd
     /\ nd_covered (f cx nd).2 = nd_covered nd /\ forall a, (f cx nd).1 = Ok a -> Q a) -> calm f Q.
Proof. intros Hf nd Hg. destruct (Hf nd) as (H1 & H2 & H3 & H4). unfold good. by rewrite H1, H2. Qed.

Lemma calm_attempt {A} (m : RM (S := S) A) (P : A -> Prop) :
  calm m P -> calm (rattempt m) (fun r => forall a, r = Ok a -> P a).
Proof.
  intros Hm nd Hg. destruct (Hm nd Hg) as (H1 & H2 & H3). unfold rattempt. destruct (m cx nd) as [r nd1].
  cbn [fst snd] in *. split; [done|]. split; [done|]. by intros a [= <-].
Qed.

Lemma calm_now : calm (on_store now_instant) (fun _ => True).
Proof. by apply calm_store. Qed.

Lemma calm_begin : calm (on_store (begin_local None)) (fun t => tx_store t = s).
Proof.
  apply calm_store. intros env st Hb. destruct (begin_local_cases env st s None Hb) as [-> | [e ->]]; split; try done.
  by intros t [= <-].
Qed.

Lemma calm_res {A} (r : res tx_error A) (Q : A -> Prop) : (forall a, r = Ok a -> Q a) -> calm (on_store (smres r)) Q.
Proof. intros HQ. by apply calm_store. Qed.

Lemma calm_config : calm config (fun cfg => cfg = cx_config cx).
Proof. apply calm_prim. intros nd. split_and!; try done. by intros a [= <-]. Qed.

Lemma calm_publish m : calm (publish m) (fun _ => True).
Proof. by apply calm_prim. Qed.

Lemma calm_shutdown : calm confirm_shutdown (fun _ => True).
Proof. by apply calm_prim. Qed.

(** ** Frontiers and announces *)

Lemma scan_read scopes : scan_frontiers s (SubjScope sc) = Ok scopes -> frontier_read scopes.
Proof.
  intros E. destruct (scope_range_total sc raw Hraw) as (lo & hi & Hr).
  assert (range_from_subject (SubjScope sc) = Ok (lo, hi)) as Er.
  { unfold scope_range, lift in Hr. unfold range_from_subject.
    destruct (partial_range "sync_point" (scope_vals sc)) as [r|e]; [|done]. by injection Hr as ->. }
  destruct (scan_frontiers_ok s (SubjScope sc) lo hi Hs Hsc Er) as (scopes' & E' & Hnd & Hf & Hin).
  rewrite E in E'. apply Ok_inj in E' as <-. intros [sc' f] He.
  assert (sc' = sc) as ->.
  { assert (sc' ∈ map fst scopes) as Hx by (apply list_elem_of_fmap; by exists (sc', f)). apply Hin in Hx. cbn in Hx.
    by apply bool_decide_eq_true in Hx. }
  split; [done|]. cbn [snd]. specialize (Hf sc). rewrite (proj2 (vm_get_elem _ _ _ Hnd) He) in Hf.
  apply (frontier_ok_valid s sc), Hf. cbn. by apply bool_decide_eq_true_2.
Qed.

Lemma calm_rescan : calm (rescan (cx_config cx)) (fun fr => frontier_read (fr_scopes fr)).
Proof.
  apply (calm_bind _ _ _ _ calm_begin). intros tx Etx. rewrite Etx, Hsub.
  apply (calm_bind (fun scopes => frontier_read scopes)); [apply calm_res; intros scopes; apply scan_read|].
  intros scopes Hr. apply (calm_bind _ _ _ _ calm_now). intros at_ _ nd [Hb Hc]. unfold rprim. cbn [fst snd].
  split; [split; [done|]; by intros f [= <-]|]. split; [done|]. by intros a [= <-].
Qed.

Lemma calm_frontiers : calm frontiers (fun fr => frontier_read (fr_scopes fr)).
Proof.
  apply (calm_bind _ _ _ _ calm_config). intros cfg ->. apply (calm_bind _ _ _ _ calm_now). intros now _.
  apply (calm_bind (fun o => forall f, o = Some f -> frontier_read (fr_scopes f))).
  { intros nd Hg. split; [done|]. split; [done|]. intros o [= <-]. apply Hg. }
  intros [c|] Hc; [|apply calm_rescan]. destruct (now <=? fr_scanned_at c); [apply calm_ret; by apply Hc|apply calm_rescan].
Qed.

Lemma calm_announce filter floored : calm (send_announce filter floored) (fun _ => True).
Proof.
  apply (calm_bind (fun _ => True)); [apply calm_store; intros env st Hb; unfold is_unavailable; by rewrite Hb|].
  intros [|] _; [by apply calm_ret|]. apply (calm_bind _ _ _ _ calm_config). intros cfg _.
  apply (calm_bind _ _ _ _ calm_frontiers). intros fr _. apply (calm_bind _ _ _ _ (calm_publish _)). intros _ _.
  by apply calm_ret.
Qed.

Lemma calm_announce_for : calm announce_for (fun _ => True).
Proof.
  apply (calm_bind _ _ _ _ calm_config). intros cfg _. apply (calm_bind (fun _ => True)); [by apply calm_prim|]. intros sync _.
  destruct (rc_mode cfg), sync; (apply (calm_bind _ _ _ _ (calm_announce _ _)); intros scopes _); try by apply calm_ret.
  case_match; [by apply calm_ret|apply calm_publish].
Qed.

Lemma calm_probe : calm (probe_scope sc) (fun _ => True).
Proof.
  apply (calm_bind _ _ _ _ calm_now). intros now _. apply (calm_bind (fun _ => True)).
  { apply calm_prim. intros nd. unfold rprim. cbn [fst snd]. destruct (probe_due (nd_probes nd) sc now); by split_and!. }
  intros [|] _; [apply calm_publish|by apply calm_ret].
Qed.

(** ** Coverage checks *)

Context (vouched : Version -> Epoch -> Prop) (Hdown : forall ts e e', vouched ts e -> e' <= e -> vouched ts e').
(** A replica that answers a coverage check with yes holds what it was asked about. *)
Context (Hverify : forall n target hs, Forall (fun h => is_u64 h.1) hs -> tr_verify (cx_transport cx) n target (mkVerifyRequest sc hs) = Some true ->
  forall ts e, (ts, e) ∈ hs -> vouched ts e).

(** A replica covers all that the node holds. *)
Definition all_vouched : Prop := forall sp sm, sync_at s sp sm -> sp_scope sp = sc -> vouched (sp_ts sp) (sp_epoch sp).

Lemma calm_pages target pages : Forall (fun h => is_u64 h.1) (concat pages) ->
  calm (verify_pages target sc pages) (fun o => o = Some true -> forall ts e, (ts, e) ∈ concat pages -> vouched ts e).
Proof.
  induction pages as [|hs pages IH]; intros Hall; [apply calm_ret; intros _ ts e ?%elem_of_nil; done|].
  cbn [concat] in Hall. apply Forall_app in Hall as [Hhs Hall]. specialize (IH Hall). cbn [verify_pages].
  apply (calm_bind (fun a => a = Some true -> forall ts e, (ts, e) ∈ hs -> vouched ts e)).
  { apply calm_prim. intros nd. split_and!; try done. intros a [= <-]. by apply Hverify. }
  intros [[|]|] Ha; [|by apply calm_ret..]. intros nd Hg. destruct (IH nd Hg) as (H1 & H2 & H3). split_and!; [done..|].
  intros o Ho Eo ts e. cbn [concat]. rewrite elem_of_app. intros [Hin|Hin]; [by apply Ha|by eapply H3].
Qed.

Lemma head_epochs_u64 hs : scope_head_epochs s sc = Ok hs -> Forall (fun h => is_u64 h.1) hs.
Proof.
  intros E. destruct (scope_range_total sc raw Hraw) as (lo & hi & Hr).
  destruct (scope_points_ok s Hs sc Hsc lo hi Hr) as (heads & Hh & _ & _ & E').
  rewrite E in E'. apply Ok_inj in E' as ->. apply Forall_forall. intros x (h & -> & Hin)%list_elem_of_fmap.
  apply (lh_elem _ _ _ Hh) in Hin as (_ & (Hv & _) & _). destruct h as [[? [[? ?] ?]] ?]. apply Hv.
Qed.

Lemma heads_vouched hs : scope_head_epochs s sc = Ok hs -> (forall ts e, (ts, e) ∈ hs -> vouched ts e) -> all_vouched.
Proof.
  intros E H sp sm Hat Esc. destruct (scope_range_total sc raw Hraw) as (lo & hi & Hr).
  destruct (scope_points_ok s Hs sc Hsc lo hi Hr) as (heads & Hh & _ & _ & E').
  rewrite E in E'. apply Ok_inj in E' as ->.
  destruct (lh_every _ _ _ Hh sp sm Hat) as (h & Hin & Eh & Ev); [cbn; by apply bool_decide_eq_true_2|].
  apply (Hdown _ (sid_epoch h.1.2)).
  { rewrite <- Ev. apply H. apply list_elem_of_fmap. by exists h. }
  apply (lh_elem _ _ _ Hh) in Hin as (_ & _ & Hmax). specialize (Hmax sp sm Hat (eq_sym Eh) (eq_sym Ev)).
  by apply sp_cmp_epoch in Hmax; destruct h as [[? [[? ?] ?]] ?].
Qed.

Lemma calm_confirm target : calm (confirm_covered_by target sc) (fun o => o = Some true -> all_vouched).
Proof.
  apply (calm_bind (fun r => forall hs, r = Ok hs -> scope_head_epochs s sc = Ok hs)).
  { apply calm_attempt, calm_store. intros env st Hb. unfold mbind, SM_bind.
    destruct (begin_local_cases env st s None Hb) as [-> | [e ->]]; [|by split]. split; [done|]. by intros hs. }
  intros [hs|e] Hhs; [|by apply calm_ret]. intros nd Hg.
  destruct (calm_pages target (chunks VERIFY_PAGE_HEADS hs)) with (nd := nd) as (H1 & H2 & H3); [|done|].
  { rewrite chunks_concat by (unfold VERIFY_PAGE_HEADS; lia). apply head_epochs_u64. by apply Hhs. }
  split_and!; [done..|]. intros o Ho Eo. apply (heads_vouched hs); [by apply Hhs|].
  specialize (H3 o Ho Eo). by rewrite chunks_concat in H3 by (unfold VERIFY_PAGE_HEADS; lia).
Qed.

Lemma calm_ask id_of peers : calm (ask_replicas id_of sc peers) (fun b => b = true -> all_vouched).
Proof.
  induction peers as [|p peers IH]; [by apply calm_ret|]. cbn [ask_replicas]. destruct (id_of (pv_id p)) as [id|]; [|done].
  apply (calm_bind _ _ _ _ (calm_confirm id)). intros o Ho.
  destruct (bool_decide (o = Some true)) eqn:E; [|done]. apply bool_decide_eq_true in E. apply calm_ret. intros _. by apply Ho.
Qed.

Lemma calm_verify id_of : calm (verify_covered id_of sc) (fun b => b = true -> all_vouched).
Proof.
  apply (calm_bind _ _ _ _ calm_now). intros now _. apply (calm_bind (fun _ => True)); [by apply calm_prim|].
  intros peers _. apply calm_ask.
Qed.

Definition holds s (id : SyncPointId) : Prop := exists sm, sync_at s (with_sp_id sc id) sm.

Lemma calm_held : calm (held_or_none sc) (fun points => forall id, id ∈ points -> holds s id).
Proof.
  apply (calm_bind (fun r => forall points, r = Ok points -> forall id, id ∈ points -> holds s id)).
  - apply calm_attempt, calm_store. intros env st Hb. unfold held_sync_points, mbind, SM_bind.
    destruct (begin_local_cases env st s None Hb) as [-> | [e ->]]; [|by split]. split; [done|].
    destruct (scope_range_total sc raw Hraw) as (lo & hi & Hr).
    destruct (scope_points_ok s Hs sc Hsc lo hi Hr) as (heads & Hh & Hall & E & _).
    unfold smres. cbn [tx_store fst]. rewrite E. intros points [= <-] id (h & -> & Hin)%list_elem_of_fmap.
    pose proof (Hall h Hin) as Eh. apply (lh_elem _ _ _ Hh) in Hin as (_ & Hat & _). exists h.2.
    destruct h as [[sc' [[e v] n]] sm]. cbn in *. by subst sc'.
  - intros [points|e] Hp; apply calm_ret; [by apply Hp|by intros id ?%elem_of_nil].
Qed.
End Calm.

(** ** Runs of a drain *)

Section Runs.
Context (sc : Scope) (raw : bytes) (Hsc : scope_valid sc) (Hraw : encode sc = Ok raw) (cx : Ctx)
  (Hsub : rc_subject (cx_config cx) = SubjScope sc) (Hmode : rc_mode (cx_config cx) = Offload) (He : env_ok (cx_env cx)).
Context (id_of : NodeId -> option NodeId) (jitter : nat -> Duration) (escalation_timeout : Duration) (kind : OffloadKind).
Context (Hkey : id_valid (custody_key (mkCustodyRow sc (node_id (cx_env cx))))).
(** What replicas vouch for: a version of the scope at an epoch or a later one. *)
Context (vouched : Version -> Epoch -> Prop) (Hdown : forall ts e e', vouched ts e -> e' <= e -> vouched ts e').
Context (Hverify : forall n target hs, Forall (fun h => is_u64 h.1) hs -> tr_verify (cx_transport cx) n target (mkVerifyRequest sc hs) = Some true ->
  forall ts e, (ts, e) ∈ hs -> vouched ts e).

(** A full replica announces what it holds. *)
Definition truthful (m : ReplicaMessage) : Prop :=
  match m with
  | Announce a => ann_full_replica a = true -> forall sa, vm_get (ann_known a) sc = Some sa ->
      forall ts e n, bt_get (heads sa) ts = Some (e, n) -> vouched ts e
  | _ => True
  end.

(** The loop's steps, with messages handled and rows written in between; what is
    written keeps the sync points that are there. *)
Inductive reachable : Drain -> Node (S := S) -> Prop :=
  | reach_start nd0 d nd s : st_backend (nd_store nd0) = Some s -> store_ok s -> nd_latest nd0 = None -> nd_covered nd0 = [] ->
      drain_start escalation_timeout sc kind cx nd0 = (Ok d, nd) -> reachable d nd
  | reach_step ev d nd d' nd' : reachable d nd ->
      drain_step id_of jitter escalation_timeout sc ev d cx nd = (Ok (Some d'), nd') -> reachable d' nd'
  | reach_message d nd sender m at_ : reachable d nd -> truthful m -> reachable d (handle_message sender m at_ cx nd).2
  | reach_write d nd s s' : reachable d nd -> st_backend (nd_store nd) = Some s -> store_ok s' -> keeps s s' ->
      reachable d (set_nd_store nd (set_backend (nd_store nd) (Some s'))).

(** Several steps of the loop, with the events that end its waits. *)
Fixpoint drain_run (evs : list event) (d : Drain) nd : option (Drain * Node (S := S)) :=
  match evs with
  | [] => Some (d, nd)
  | ev :: evs =>
      match drain_step id_of jitter escalation_timeout sc ev d cx nd with
      | (Ok (Some d'), nd') => drain_run evs d' nd'
      | _ => None
      end
  end.

Lemma reach_run evs d nd d' nd' : reachable d nd -> drain_run evs d nd = Some (d', nd') -> reachable d' nd'.
Proof.
  revert d nd; induction evs as [|ev evs IH]; intros d nd Hr; cbn [drain_run]; [by intros [= <- <-]|].
  destruct (drain_step _ _ _ _ _ _ _ _) as [[[d1|]|e] nd1] eqn:E; [|done..]. apply IH. by eapply reach_step.
Qed.

Definition point_ok (id : SyncPointId) : Prop :=
  sync_point_valid (with_sp_id sc id) /\ vouched (sid_version id) (sid_epoch id).

Record drain_inv (d : Drain) nd : Prop := mkDrainInv {
  di_store : exists s, good sc s nd /\ store_ok s
    /\ forall held, dr_phase d = AtAsk held -> forall id, id ∈ held -> holds sc s id;
  di_covered : Forall point_ok (dr_covered d);
  di_confirmed : Forall point_ok (nd_covered nd);
}.

(** *** Steps that may write *)

Definition steady {A} (m : RM (S := S) A) (Q : A -> Prop) : Prop := forall nd s, good sc s nd -> store_ok s ->
  (exists s', good sc s' (m cx nd).2 /\ store_ok s') /\ nd_covered (m cx nd).2 = nd_covered nd
  /\ forall a, (m cx nd).1 = Ok a -> Q a.

Lemma calm_steady {A} (m : RM (S := S) A) (Q : A -> Prop) : (forall s, store_ok s -> calm sc cx s m Q) -> steady m Q.
Proof. intros Hm nd s Hg Hs. destruct (Hm s Hs nd Hg) as (H1 & H2 & H3). split; [by exists s|]. done. Qed.

Lemma steady_bind {A B} (P : A -> Prop) (Q : B -> Prop) (m : RM (S := S) A) (f : A -> RM B) :
  steady m P -> (forall a, P a -> steady (f a) Q) -> steady (m ≫= f) Q.
Proof.
  intros Hm Hf nd s Hg Hs. destruct (Hm nd s Hg Hs) as ((s1 & Hg1 & Hs1) & H2 & H3). unfold mbind, RM_bind.
  destruct (m cx nd) as [[a|e] nd1]; cbn [fst snd] in *; [|by split; [exists s1|]].
  destruct (Hf a (H3 a eq_refl) nd1 s1 Hg1 Hs1) as (H4 & H5 & H6). split; [done|]. split; [congruence|]. done.
Qed.

Lemma steady_begin : steady (on_store (begin_local None)) (fun t => tx_ok t).
Proof.
  intros nd s [Hb Hc] Hs. unfold on_store. destruct (begin_local_cases (cx_env cx) (nd_store nd) s None Hb) as [-> | [e ->]];
    (split; [exists s; by split|]; split; [done|]); [|done].
  intros t [= <-]. by apply begin_tx_ok.
Qed.

Lemma steady_within {A} (m : @TX S A) (t : @Transaction S) (Q : A -> Prop) : triple m Q -> tx_ok t ->
  steady (on_store (within m t)) (fun r => Q r.1 /\ tx_ok r.2).
Proof.
  intros Hm Ht. apply calm_steady. intros s Hs. apply calm_store. intros env st Hb. unfold within.
  destruct (Hm t Ht) as [H1 H2]. destruct (m t) as [[a|e] t']; (split; [done|]); [|done].
  intros r [= <-]. split; [by apply H2|done].
Qed.

Lemma steady_commit t : tx_ok t -> steady (on_store (commit_tx t)) (fun _ => True).
Proof.
  intros Ht nd s [Hb Hc] Hs. unfold on_store.
  destruct (commit_tx_cases (cx_env cx) (nd_store nd) t Ht) as (r & st' & -> & [Hst|(t' & Hst & Ht')]);
    (split; [|by split]); [exists s|exists (tx_store t')]; (split; [split; [|done]|]); cbn; try done; [by rewrite Hst|apply Ht'].
Qed.

Lemma triple_tb_get tb id : triple (tb_get tb id) (fun _ => True).
Proof. apply (triple_bind _ _ (fun _ : option (bytes * bytes) => True)); [apply triple_get|]. intros r _. by apply triple_ret. Qed.

Lemma custody_valid : table_valid custody_table.
Proof. by repeat split; vm_compute. Qed.

Lemma steady_promote : steady (promote sc) (fun _ => True).
Proof.
  apply (steady_bind (fun me => me = node_id (cx_env cx))).
  { apply calm_steady. intros s Hs. apply calm_prim. intros nd. split_and!; try done. by intros a [= <-]. }
  intros me ->. apply (steady_bind _ _ _ _ steady_begin). intros tx Htx.
  apply (steady_bind _ _ _ _ (steady_within _ tx (fun _ => True) (triple_tb_get _ _) Htx)). intros [o t] [_ Ht].
  apply (steady_bind (fun _ => True)).
  - destruct o as [v|]; [apply calm_steady; intros; by apply calm_ret|].
    apply (steady_bind (fun _ => True)); [apply calm_steady; intros; by apply calm_res|]. intros v _.
    apply (steady_bind _ _ _ _ (steady_within _ t (fun _ => True) (triple_tb_insert custody_table _ v custody_valid Hkey) Ht)).
    intros [u t'] [_ Ht']. by apply steady_commit.
  - intros _ _. apply calm_steady. intros s Hs. apply calm_prim. intros nd. unfold start_replication, rprim. cbn.
    unfold Store.replicate. destruct (vm_get _ _) as [[|]|]; by split_and!.
Qed.

Lemma steady_custody_delete : steady (delete_own_custody_row sc) (fun _ => True).
Proof.
  apply (steady_bind (fun me => me = node_id (cx_env cx))).
  { apply calm_steady. intros s Hs. apply calm_prim. intros nd. split_and!; try done. by intros a [= <-]. }
  intros me ->. apply (steady_bind _ _ _ _ steady_begin). intros tx Htx.
  apply (steady_bind _ _ _ _ (steady_within _ tx (fun _ => True) (triple_tb_get _ _) Htx)). intros [o t] [_ Ht].
  destruct o as [v|]; [|apply calm_steady; intros; by apply calm_ret].
  apply (steady_bind _ _ _ _ (steady_within _ t (fun _ => True) (triple_tb_delete custody_table _ custody_valid Hkey) Ht)).
  intros [u t'] [_ Ht']. by apply steady_commit.
Qed.

(** *** Phases *)

Definition same_covered (d d' : Drain) : Prop :=
  dr_covered d' = dr_covered d /\ forall held, dr_phase d' <> AtAsk held.

Lemma top_calm s d : store_ok s -> calm sc cx s (drain_top jitter sc d) (same_covered d).
Proof.
  intros Hs. apply (calm_bind _ _ _ (fun _ => True)); [by apply calm_prim|]. intros [|] _.
  - apply (calm_bind _ _ _ _ _ _ _ (calm_shutdown _ _ _)). intros _ _. by apply calm_ret.
  - destruct (dr_reason d); [|by apply calm_ret].
    apply (calm_bind _ _ _ _ _ _ _ (calm_attempt _ _ _ _ _ (calm_announce_for sc raw Hsc Hraw cx Hsub s Hs))). intros _ _.
    apply (calm_bind _ _ _ _ _ _ _ (calm_now _ _ _)). intros now _.
    apply (calm_bind _ _ _ (fun _ => True)); [by apply calm_prim|]. intros more _. by apply calm_ret.
Qed.

Lemma verify_calm s d : store_ok s -> calm sc cx s (drain_verify sc d)
  (fun d' => dr_covered d' = dr_covered d /\ forall held, dr_phase d' = AtAsk held -> forall id, id ∈ held -> holds sc s id).
Proof.
  intros Hs. apply (calm_bind _ _ _ _ _ _ _ (calm_now _ _ _)). intros now _.
  destruct (dr_verify_at d <=? now); [|by apply calm_ret].
  apply (calm_bind _ _ _ _ _ _ _ (calm_now _ _ _)). intros now' _.
  apply (calm_bind _ _ _ _ _ _ _ (calm_held sc raw Hsc Hraw cx s Hs)). intros held Hh. apply calm_ret.
  split; [done|]. by intros held' [= <-].
Qed.

Lemma ask_calm s held d : store_ok s -> calm sc cx s (drain_ask id_of sc held d)
  (fun d' => dr_phase d' = AtSelect
     /\ (dr_covered d' = dr_covered d \/ dr_covered d' = held /\ all_vouched sc s vouched)).
Proof.
  intros Hs. apply (calm_bind _ _ _ _ _ _ _ (calm_verify sc raw Hsc Hraw cx s Hs vouched Hdown Hverify id_of)).
  intros [|] Hv; [|apply calm_ret; split; [done|by left]].
  apply (calm_bind _ _ _ _ _ _ _ (calm_shutdown _ _ _)). intros _ _. apply calm_ret. split; [done|]. right. split; [done|]. by apply Hv.
Qed.

Lemma select_steady ev d : (forall held, dr_phase d <> AtAsk held) ->
  steady (drain_select escalation_timeout sc ev d) (fun o => forall d', o = Some d' -> same_covered d d').
Proof.
  intros Hph. assert (forall o, (forall d', o = Some d' -> same_covered d d') ->
    steady (mret o) (fun o => forall d', o = Some d' -> same_covered d d')) as Hret by (intros; apply calm_steady; intros; by apply calm_ret).
  assert (steady (on_store now_instant) (fun _ => True)) as Hnow by (apply calm_steady; intros; apply calm_now).
  destruct ev; cbn [drain_select].
  - apply (steady_bind _ _ _ _ Hnow). intros now _. apply Hret. case_match; [|done]. by intros d' [= <-].
  - apply (steady_bind (fun _ => True)); [apply calm_steady; intros; by apply calm_prim|]. intros [|] _; apply Hret; [|done].
    by intros d' [= <-].
  - apply (steady_bind _ _ _ _ Hnow). intros now _. destruct (dr_escalate_at d); [|by apply Hret]. case_match; [|by apply Hret].
    apply (steady_bind (fun _ => True)).
    { intros nd s Hg Hs. destruct (steady_promote nd s Hg Hs) as (H1 & H2 & _). unfold rattempt. by destruct (promote sc cx nd). }
    intros r _. apply (steady_bind (fun _ => True)).
    { apply calm_steady. intros. destruct r; [apply calm_shutdown|by apply calm_ret]. }
    intros _ _. apply Hret. by intros d' [= <-].
  - apply Hret. by intros d' [= <-].
  - destruct (dr_escalate_at d); [apply Hret; by intros d' [= <-]|].
    apply (steady_bind _ _ _ _ Hnow). intros now _. apply Hret. by intros d' [= <-].
  - apply Hret. case_match; [done|]. by intros d' [= <-].
  - destruct (dr_escalate_at d); [|by apply Hret]. apply (steady_bind _ _ _ _ Hnow). intros now _. apply Hret. by intros d' [= <-].
Qed.

(** *** The invariant *)

(** A calm or steady step that keeps what was confirmed keeps the invariant. *)
Lemma steady_inv d d' nd nd' : drain_inv d nd -> same_covered d d' ->
  (exists s', good sc s' nd' /\ store_ok s') -> nd_covered nd' = nd_covered nd -> drain_inv d' nd'.
Proof.
  intros [_ H2 H3] [Hc Hph] (s' & Hg & Hs) Hn. split; [exists s'|by rewrite Hc|by rewrite Hn].
  split; [done|]. split; [done|]. intros held Hd. by apply Hph in Hd.
Qed.

Lemma held_ok s held : all_vouched sc s vouched -> (forall id, id ∈ held -> holds sc s id) -> Forall point_ok held.
Proof.
  intros Hv Hh. apply Forall_forall. intros [[e v] n] Hin. destruct (Hh _ Hin) as (sm & Hat).
  split; [apply Hat|]. exact (Hv _ _ Hat eq_refl).
Qed.

Lemma step_inv ev d nd d' nd' : drain_inv d nd ->
  drain_step id_of jitter escalation_timeout sc ev d cx nd = (Ok (Some d'), nd') -> drain_inv d' nd'.
Proof.
  intros Hi E. pose proof Hi as [(s & Hg & Hs & Hask) Hcov Hconf]. unfold drain_step in E. destruct (dr_phase d) as [| |held| |] eqn:Eph.
  - destruct (top_calm s d Hs nd Hg) as (H1 & H2 & H3). unfold mbind, RM_bind in E.
    destruct (drain_top jitter sc d cx nd) as [[d1|e] nd1]; [|done]. injection E as -> ->. cbn [fst snd] in *.
    eapply steady_inv; [done|by apply H3|by exists s|done].
  - destruct (verify_calm s d Hs nd Hg) as (H1 & H2 & H3). unfold mbind, RM_bind in E.
    destruct (drain_verify sc d cx nd) as [[d1|e] nd1]; [|done]. injection E as -> ->. cbn [fst snd] in *.
    destruct (H3 d' eq_refl) as [Hc Hh]. split; [by exists s|by rewrite Hc|by rewrite H2].
  - destruct (ask_calm s held d Hs nd Hg) as (H1 & H2 & H3). unfold mbind, RM_bind in E.
    destruct (drain_ask id_of sc held d cx nd) as [[d1|e] nd1]; [|done]. injection E as -> ->. cbn [fst snd] in *.
    destruct (H3 d' eq_refl) as [Hp Hc]. split; [|destruct Hc as [-> | [-> Hv]]; [done|]|by rewrite H2].
    + exists s. split; [done|]. split; [done|]. rewrite Hp. done.
    + by apply (held_ok s); [|apply Hask].
  - destruct (select_steady ev d ltac:(intros held; by rewrite Eph) nd s Hg Hs) as (H1 & H2 & H3).
    rewrite E in H1, H2, H3. cbn [fst snd] in *. eapply steady_inv; [done|by apply (H3 (Some d'))|done|done].
  - done.
Qed.

Lemma frontier_points_ok scopes known : frontier_read sc scopes ->
  (forall sa, vm_get known sc = Some sa -> forall ts e n, bt_get (heads sa) ts = Some (e, n) -> vouched ts e) ->
  all_covered known scopes = true -> Forall point_ok (frontier_points scopes).
Proof.
  intros Hr Hk Hall. apply Forall_forall. intros id Hin. unfold frontier_points in Hin.
  apply list_elem_of_In, in_concat in Hin as (l & Hl & Hid). apply in_map_iff in Hl as ([sc' f] & <- & Hf).
  apply in_map_iff in Hid as ([ts [e n]] & <- & Hh). destruct (Hr (sc', f)) as [Esc Hv]; [by apply list_elem_of_In|].
  cbn [fst snd] in *. subst sc'. destruct (proj2 Hv ts e n) as (Hts & He' & Hn); [by apply list_elem_of_In|].
  split; [by split|]. unfold sid_version, sid_epoch. cbn [fst snd].
  unfold all_covered in Hall. rewrite forallb_forall in Hall. specialize (Hall _ Hf). cbn [fst snd] in Hall.
  rewrite forallb_forall in Hall. specialize (Hall _ Hh). unfold head_covered in Hall. cbn [fst snd] in Hall.
  destruct (vm_get known sc) as [sa|] eqn:Ek; cbn in Hall; [|done].
  destruct (bt_get (heads sa) ts) as [[e' n']|] eqn:Eh; [|done]. apply Z.leb_le in Hall.
  eapply Hdown; [|exact Hall]. by eapply Hk.
Qed.

Lemma calm_record peer a at_ s : calm sc cx s (record_peer peer a at_) (fun _ => True).
Proof.
  apply calm_prim. intros nd. unfold record_peer, rprim, record_peer_frontier.
  destruct (match vm_get _ _ with Some _ => _ | None => _ end); by split_and!.
Qed.

(** What an announce lets the node conclude. *)
Definition announced_coverage (a : AnnounceMsg) : RM (S := S) (option (list SyncPointId)) :=
  if ann_full_replica a
  then fr ← frontiers;
       mret (if all_covered (ann_known a) (fr_scopes fr) then Some (frontier_points (fr_scopes fr)) else None)
  else mret None.

Lemma coverage_calm s a : store_ok s -> truthful (Announce a) ->
  calm sc cx s (announced_coverage a) (fun o => forall points, o = Some points -> Forall point_ok points).
Proof.
  intros Hs Ht. unfold announced_coverage. destruct (ann_full_replica a) eqn:Ea; [|by apply calm_ret].
  apply (calm_bind _ _ _ _ _ _ _ (calm_frontiers sc raw Hsc Hraw cx Hsub s Hs)). intros fr Hr. apply calm_ret.
  intros points. destruct (all_covered (ann_known a) (fr_scopes fr)) eqn:Ec; [|done]. intros [= <-].
  by apply (frontier_points_ok _ (ann_known a)); [|apply Ht|].
Qed.

Lemma calm_message_inv d nd s (m : RM (S := S) unit) : drain_inv d nd -> good sc s nd -> store_ok s ->
  (forall held, dr_phase d = AtAsk held -> forall id, id ∈ held -> holds sc s id) ->
  calm sc cx s m (fun _ => True) -> drain_inv d (m cx nd).2.
Proof.
  intros [_ H2 H3] Hg Hs Hh Hm. destruct (Hm nd Hg) as (H4 & H5 & _). split; [by exists s|done|by rewrite H5].
Qed.

Lemma handle_coverage_inv d nd sender a at_ : drain_inv d nd -> truthful (Announce a) ->
  drain_inv d (handle_coverage sender a at_ cx nd).2.
Proof.
  intros Hi Ht. pose proof Hi as [(s & Hg & Hs & Hask) Hcov Hconf]. unfold handle_coverage. fold (announced_coverage a).
  unfold mbind at 1, RM_bind at 1.
  destruct (coverage_calm s a Hs Ht nd Hg) as (H1 & H2 & H3).
  destruct (announced_coverage a cx nd) as [[o|e] nd1]; cbn [fst snd] in *;
    [|split; [by exists s|done|by rewrite H2]].
  specialize (H3 o eq_refl). unfold mbind at 1, RM_bind at 1.
  destruct (calm_record sender a at_ s nd1 H1) as (H4 & H5 & _).
  destruct (record_peer sender a at_ cx nd1) as [[v|e] nd2]; cbn [fst snd] in *;
    [|split; [by exists s|done|by rewrite H5, H2]].
  destruct o as [points|]; [|split; [by exists s|done|by cbn; rewrite H5, H2]].
  destruct v; [|split; [by exists s|done|by cbn; rewrite H5, H2]].
  split; [exists s; by split|done|]. cbn. by apply H3.
Qed.

Lemma calm_request req s : calm sc cx s (handle_cs_req req) (fun _ => True).
Proof.
  apply (calm_bind _ _ _ _ _ _ _ (calm_config _ _ _)). intros cfg _. destruct (negb _); [by apply calm_ret|].
  apply (calm_bind _ _ _ _ _ _ _ (calm_begin _ _ _)). intros tx _.
  apply (calm_bind _ _ _ (fun _ => True)); [by apply calm_res|]. intros cs _. destruct (bool_decide _); [by apply calm_ret|apply calm_publish].
Qed.

Lemma message_inv d nd sender m at_ : drain_inv d nd -> truthful m -> drain_inv d (handle_message sender m at_ cx nd).2.
Proof.
  intros Hi Ht. pose proof Hi as [(s & Hg & Hs & Hask) Hcov Hconf]. unfold handle_message. destruct (bool_decide _); [done|].
  destruct m as [filter|a|req|cs]; rewrite ?Hmode.
  - pose proof (calm_message_inv d nd s (handle_probe filter) Hi Hg Hs Hask) as H. unfold handle_probe in *.
    destruct ((send_announce filter false ≫= _) cx nd) eqn:E. apply H.
    apply (calm_bind _ _ _ _ _ _ _ (calm_announce sc raw Hsc Hraw cx Hsub s Hs filter false)). intros ? _. by apply calm_ret.
  - pose proof (handle_coverage_inv d nd sender a at_ Hi Ht) as H. by destruct (handle_coverage sender a at_ cx nd).
  - pose proof (calm_message_inv d nd s (handle_cs_req req) Hi Hg Hs Hask (calm_request req s)) as H. by destruct (handle_cs_req req cx nd).
  - done.
Qed.

Lemma start_calm s : store_ok s -> calm sc cx s (drain_start escalation_timeout sc kind)
  (fun d => dr_covered d = [] /\ dr_phase d = AtTop).
Proof.
  intros Hs. apply (calm_bind _ _ _ _ _ _ _ (calm_probe sc cx s)). intros _ _.
  apply (calm_bind _ _ _ (fun _ => True)).
  { destruct kind; try by apply calm_ret. all: apply (calm_bind _ _ _ _ _ _ _ (calm_now _ _ _)); intros now _; by apply calm_ret. }
  intros at_ _. do 2 (apply (calm_bind _ _ _ _ _ _ _ (calm_now _ _ _)); intros ? _). by apply calm_ret.
Qed.

Lemma reachable_inv d nd : reachable d nd -> drain_inv d nd.
Proof.
  induction 1 as [nd0 d nd s Hb Hs Hl Hc E|ev d nd d' nd' _ IH E|d nd sender m at_ _ IH Ht|d nd s s' _ IH Hb Hs' Hk].
  - destruct (start_calm s Hs nd0) as (H1 & H2 & H3); [split; [done|by rewrite Hl]|]. rewrite E in H1, H2, H3. cbn [fst snd] in *.
    destruct (H3 d eq_refl) as [Hcov Hph]. split; [exists s; rewrite Hph; done|by rewrite Hcov|by rewrite H2, Hc].
  - by eapply step_inv.
  - by apply message_inv.
  - destruct IH as [(s0 & [Hb0 Hc] & Hs & Hask) H2 H3]. rewrite Hb in Hb0. injection Hb0 as <-.
    split; [|done..]. exists s'. split; [by split|]. split; [done|]. intros held Hph id Hin.
    destruct (Hask held Hph id Hin) as (sm & Hat). by apply (Hk _ sm).
Qed.

Lemma finish_release d nd points : drain_inv d nd -> Forall point_ok points ->
  exists s s' gone, st_backend (nd_store nd) = Some s /\ st_backend (nd_store (release_offloaded sc points cx nd).2) = Some s'
    /\ released_from sc gone s s' /\ forall id, id ∈ gone -> vouched (sid_version id) (sid_epoch id).
Proof.
  intros [(s & [Hb _] & Hs & _) _ _] Hp. assert (points_ok sc points) as Hpo by (eapply Forall_impl; [exact Hp|by intros id []]).
  destruct (release_scope_safe (cx_env cx) sc raw points (nd_store nd) s He Hb Hs Hpo Hraw) as (s' & gone & Hb' & Hr & Hg).
  exists s, s', gone. split; [done|]. split.
  - unfold release_offloaded, mbind, RM_bind, rattempt, on_store. by destruct (release_scope sc points (cx_env cx) (nd_store nd)).
  - split; [done|]. intros id Hin. rewrite Forall_forall in Hp. by apply Hp, Hg.
Qed.

(** C4. A drain loses nothing: whatever messages arrive and whatever is written while it
    runs, and whatever the engine answers, when its loop has ended it lets go
    only of versions a replica vouched for, at the epoch held here or a later
    one; the rows of every other version are as they were, and so are all of
    them when the loop ended without retiring.  A drain that unwinds deletes
    its custody row first. *)
Theorem drain_releases_only_vouched (d : Drain) (nd : Node) (Hr : reachable d nd) (Hexit : dr_phase d = Exited) :
  let nd1 := match kind, dr_retired d with
             | Unwinding _, true => (delete_own_custody_row sc cx nd).2
             | _, _ => nd
             end in
  exists s s' gone, st_backend (nd_store nd1) = Some s
    /\ st_backend (nd_store (drain_finish sc kind d cx nd).2) = Some s'
    /\ released_from sc gone s s'
    /\ (forall id, id ∈ gone -> vouched (sid_version id) (sid_epoch id))
    /\ (dr_retired d = false -> gone = []).
Proof.
  intros nd1. pose proof (reachable_inv d nd Hr) as Hi.
  assert (drain_inv d nd1) as Hi1.
  { unfold nd1. destruct kind as [| | |target]; try done. destruct (dr_retired d); [|done].
    destruct Hi as [(s & Hg & Hs & _) H2 H3]. destruct (steady_custody_delete nd s Hg Hs) as ((s' & Hg' & Hs') & Hc & _).
    split; [|done|by rewrite Hc]. exists s'. split; [done|]. split; [done|]. intros held Hh. by rewrite Hexit in Hh. }
  unfold drain_finish, mbind at 1, RM_bind at 1. destruct (dr_retired d) eqn:Er.
  - assert ((match kind with Unwinding _ => _ ← rattempt (delete_own_custody_row sc); mret tt | _ => mret tt end) cx nd = (Ok tt, nd1)) as ->.
    { unfold nd1. destruct kind; try done. unfold rattempt, mbind, RM_bind. by destruct (delete_own_custody_row sc cx nd). }
    unfold mbind at 1, RM_bind at 1. destruct (bool_decide (dr_covered d = [])).
    + destruct (finish_release d (set_nd_covered nd1 []) (nd_covered nd1)) as (s & s' & gone & H1 & H2 & H3 & H4);
        [|apply Hi1|by exists s, s', gone]. destruct Hi1 as [H1 H2 _]. by split.
    + destruct (finish_release d nd1 (dr_covered d) Hi1 (di_covered _ _ Hi1)) as (s & s' & gone & H1 & H2 & H3 & H4).
      by exists s, s', gone.
  - assert (nd1 = nd) as -> by (unfold nd1; by destruct kind).
    destruct Hi as [(s & [Hb _] & Hs & _) _ _]. exists s, s, []. split; [done|]. split; [by destruct kind|].
    split; [by apply released_nil|]. split; [|done]. by intros id ?%elem_of_nil.
Qed.
End Runs.
End Drain.

(** ** Examples *)

Import Sample.

#[local] Instance postcard_custody : Postcard CustodyRow :=
  {| to_allocvec := fun row => Some (custody_key row); from_bytes := fun _ => None |}.

(** A replica holds what the drain holds; it announced a part of it.  The deadline of
    the drain passes while the replica is asked. *)
Definition sample_announce : ReplicaMessage :=
  Announce (mkAnnounce [(Sample.scope, announce_full [(9, (9, Sample.me))])] true).
Definition sample_start : res tx_error Drain * Node :=
  drain_start (20 * 10 ^ 9) Sample.scope Hidden (drain_cx sample_gc_store) (sample_node_of sample_gc_store).
Definition sample_begun : Node := (handle_message peer sample_announce 5 (drain_cx sample_gc_store) sample_start.2).2.
Definition sample_drained (d : Drain) (last : event) : option (Drain * Node) :=
  drain_run Sample.scope (drain_cx sample_gc_store) Some (fun _ => 0) (20 * 10 ^ 9)
    [Nudge; Nudge; Nudge; Nudge; Nudge; Nudge; last] d sample_begun.

Definition sample_vouched : Version -> Epoch -> Prop := covered sample_gc_store Sample.scope.
Lemma sample_vouched_down ts e e' : sample_vouched ts e -> e' <= e -> sample_vouched ts e'.
Proof. intros (sp & sm & ? & ? & ? & ?) Hle. exists sp, sm. do 3 (split; [done|]). lia. Qed.
Lemma sample_verify n target hs : Forall (fun h => is_u64 h.1) hs ->
  tr_verify (cx_transport (drain_cx sample_gc_store)) n target (mkVerifyRequest Sample.scope hs) = Some true ->
  forall ts e, (ts, e) ∈ hs -> sample_vouched ts e.
Proof.
  intros Hhs E. destruct (encode Sample.scope) as [raw|] eqn:Hraw; [|vm_compute in Hraw; done].
  destruct (verify_answer Sample.scope raw gc_scope_valid Hraw target (drain_cx sample_gc_store) sample_gc_store sample_gc_ok
    (sample_config Full) peer_env (sample_store sample_gc_store) eq_refl peer_env_accepts eq_refl (fun _ _ => eq_refl) n hs Hhs)
    as (b & E' & Hb).
  apply Hb. rewrite E in E'. by injection E' as <-.
Qed.

Lemma sample_truthful : truthful Sample.scope sample_vouched sample_announce.
Proof.
  intros _ sa [= <-] ts e n. cbn. destruct (Z.eqb_spec ts 9) as [->|]; [|done]. intros [= <- <-].
  eexists _, (retained 5). split; [apply (proj1 (scope_list_elem _ _ _ _ _ sample_gc_list)); by left|]. done.
Qed.

Lemma sample_reachable d last d' nd' : sample_start.1 = Ok d -> sample_drained d last = Some (d', nd') ->
  reachable Sample.scope (drain_cx sample_gc_store) Some (fun _ => 0) (20 * 10 ^ 9) Hidden sample_vouched d' nd'.
Proof.
  intros Ed E. eapply reach_run; [|exact E]. apply reach_message; [|apply sample_truthful].
  eapply (reach_start _ _ _ _ _ _ _ (sample_node_of sample_gc_store)); [reflexivity|apply sample_gc_ok|reflexivity|reflexivity|].
  rewrite <- Ed. unfold sample_start. apply surjective_pairing.
Qed.

Lemma sample_custody_key : id_valid (custody_key (mkCustodyRow Sample.scope (node_id (cx_env (drain_cx sample_gc_store))))).
Proof. vm_compute. reflexivity. Qed.

(** The drain after its start, and after a run that ends with the event. *)
Definition sample_d : Drain := match sample_start.1 with Ok d => d | Err _ => mkDrain Exited false None false [] 0 false 0 end.
Definition sample_end (last : event) : Drain * Node :=
  match sample_drained sample_d last with Some r => r | None => (sample_d, sample_begun) end.

Lemma sample_end_reachable last : (if sample_drained sample_d last then true else false) = true ->
  reachable Sample.scope (drain_cx sample_gc_store) Some (fun _ => 0) (20 * 10 ^ 9) Hidden sample_vouched
    (sample_end last).1 (sample_end last).2.
Proof.
  unfold sample_end. destruct (sample_drained sample_d last) as [[d nd]|] eqn:E; [intros _|done]. apply (sample_reachable sample_d last); [|exact E].
  vm_compute. reflexivity.
Qed.

Lemma drain_releases_only_vouched_witness :
  exists s s' gone, st_backend (nd_store (sample_end Stopped).2) = Some s
    /\ st_backend (nd_store (drain_finish Sample.scope Hidden (sample_end Stopped).1 (drain_cx sample_gc_store) (sample_end Stopped).2).2) = Some s'
    /\ released_from Sample.scope gone s s' /\ (forall id, id ∈ gone -> sample_vouched (sid_version id) (sid_epoch id)).
Proof.
  destruct (encode Sample.scope) as [raw|] eqn:Hraw; [|vm_compute in Hraw; discriminate].
  destruct (drain_releases_only_vouched Sample.scope raw gc_scope_valid Hraw (drain_cx sample_gc_store) eq_refl eq_refl
    sample_env_ok Some (fun _ => 0) (20 * 10 ^ 9) Hidden sample_custody_key sample_vouched sample_vouched_down sample_verify
    (sample_end Stopped).1 (sample_end Stopped).2) as (s & s' & gone & H1 & H2 & H3 & H4 & _).
  - apply sample_end_reachable. vm_compute. reflexivity.
  - vm_compute. reflexivity.
  - exists s, s', gone. split; [exact H1|]. split; [exact H2|]. split; [exact H3|exact H4].
Defined.

(** A drain that was confirmed can still be promoted: when its deadline passes while a
    replica is asked, the wait may end with the escalation although the
    confirmation already came.  The node then becomes a replica of the scope,
    records its custody, and all the same lets go of every row of it. *)
Theorem promoted_drain_forgets :
  let cx := drain_cx sample_gc_store in
  let d := (sample_end Escalate).1 in
  let nd := (sample_end Escalate).2 in
  let nd' := (drain_finish Sample.scope Hidden d cx nd).2 in
  reachable Sample.scope cx Some (fun _ => 0) (20 * 10 ^ 9) Hidden sample_vouched d nd
  /\ dr_phase d = Exited /\ is_replicating (nd_store nd') Sample.scope = true
  /\ (held_sync_points Sample.scope (cx_env cx) (nd_store nd)).1 = Ok [(95, 95, Sample.me); (9, 9, Sample.me)]
  /\ (held_sync_points Sample.scope (cx_env cx) (nd_store nd')).1 = Ok [].
Proof.
  split; [apply sample_end_reachable; vm_compute; reflexivity|]. split_and!; vm_compute; reflexivity.
Qed.
