(* ===== verification/Apply.v ===== *)
(** * Applying operations to a transaction

    [swarm/src/plugins/db/apply.rs]: the operations a request carries, each
    applied to a transaction that also records which tables it inserted into,
    and what each answers.  The semantic operations are left out with the
    query engine they run on. *)

From S2P Require Import Prelude Bytes Skey SkeyRoundtrip SkeyOrder Keys Domain Kv Rows Tx Announce.
From Stdlib Require Import ZArith Lia Strings.Byte.
From stdpp Require Import base list option strings sets.

Local Open Scope Z_scope.

(** ** Operations *)

Record ChunkRange := mkChunkRange { cr_offset : Z; cr_length : Z }.

Inductive TxOp :=
  | ScopeBackup (scope : Scope)
  | ScopeRestore (scope : Scope) (snapshot : Snapshot)
  | KeyPut (scope : Scope) (key : str) (value : bytes)
  | KeyGet (scope : Scope) (key : str)
  | KeyDelete (scope : Scope) (key : str)
  | KeyPrefix (scope : Scope) (prefix : str)
  | KeyList (scope : Scope) (prefix : str)
  | TbInsert (scope : Scope) (table : str) (eid : option bytes) (value : bytes)
  | TbAppend (scope : Scope) (table : str) (eid : option bytes) (value : bytes)
  | TbInsertBatched (scope : Scope) (table : str) (entries : list (option bytes * bytes))
  | TbCount (scope : Scope) (table : str)
  | TbGet (scope : Scope) (table : str) (eid : bytes)
  | TbList (scope : Scope) (table : str) (cursor : option Cursor) (limit : option nat) (order : option TbOrderBy)
  | TbDelete (scope : Scope) (table : str) (eid : bytes)
  | TsPublish (scope : Scope) (measurement : str) (tags : list (str * str)) (fields : list (str * bytes)) (timestamp : Z)
  | TsFind (scope : Scope) (measurement : str) (limit : option nat) (start end_ : option Z) (order : option TsOrderBy)
  | BlobStore (scope : Scope) (blob : bytes)
  | BlobLink (blob_id : BlobId) (path : str)
  | BlobUnlink (scope : Scope) (path : str)
  | BlobMove (scope : Scope) (old_path new_path : str)
  | BlobResolve (blob_id : BlobId) (range : option ChunkRange)
  | PathResolve (scope : Scope) (path : str) (range : option ChunkRange)
  | PathsList (scope : Scope) (limit : option nat).

Record BlobResponse := mkBlobResponse {
  br_blob : bytes;
  br_blob_id : BlobId;
  br_range : option ChunkRange;
  br_total_len : Z;
}.

(** The responses, those that carry nothing as one. *)
Inductive TxOpResponse :=
  | RespDone
  | RespSnapshot (snapshot : Snapshot)
  | RespValue (value : option bytes)
  | RespKeys (keys : list str)
  | RespEntries (entries : list (str * bytes))
  | RespEid (eid : bytes)
  | RespEids (eids : list bytes)
  | RespCount (count : nat)
  | RespEntities (entities : list (bytes * bytes))
  | RespSamples (samples : list (list (str * str) * list (str * bytes) * Z))
  | RespBlobId (blob_id : BlobId)
  | RespBlob (blob : option BlobResponse)
  | RespPaths (paths : list str).

(** Errors of the store, and of a range outside of a blob. *)
Inductive op_error := OpTx (e : tx_error) | OpOutOfBounds (offset end_ total : Z).

Definition TxEvents : Type := list (Scope * str).
Definition KEY_EVENTS : str := lit "@keys".

(** [HashSet::insert] *)
Definition events_insert (e : Scope * str) (events : TxEvents) : TxEvents :=
  if bool_decide (e ∈ events) then events else events ++ [e].

(** ** Ranges of a blob *)

Definition chunk_of (blob : bytes) (blob_id : BlobId) (range : option ChunkRange) : res op_error BlobResponse :=
  let total_len := Z.of_nat (length blob) in
  match range with
  | None => Ok (mkBlobResponse blob blob_id None total_len)
  | Some (mkChunkRange offset len) =>
      if len =? 0 then Ok (mkBlobResponse [] blob_id (Some (mkChunkRange offset 0)) total_len)
      else
        let end_ := Z.min (saturating_add offset len) total_len in
        if offset <=? end_ then
          let chunk := take (Z.to_nat (end_ - offset)) (drop (Z.to_nat offset) blob) in
          Ok (mkBlobResponse chunk blob_id (Some (mkChunkRange offset (Z.of_nat (length chunk)))) total_len)
        else Err (OpOutOfBounds offset (saturating_add offset len) total_len)
  end.

(** ** Operations on a transaction *)

Section Apply.
Context {S : Type} `{Kv S} `{Postcard SyncMeta} `{Postcard MeasurementBody}.
(** [sha2::Sha256::digest], and [Uuid::new_v7] over the context all transactions
    share: the n-th identifier it gives, for a timestamp. *)
Context (sha256 : bytes -> bytes) (new_v7 : Version -> nat -> bytes).

(** A transaction with the events it records, and the identifiers given so far. *)
Record ServedTx := mkServedTx {
  sx_tx : @Transaction S;
  sx_metadata : option TxEvents;
  sx_minted : nat;
}.

Definition AM (A : Type) : Type := ServedTx -> res op_error A * ServedTx.

#[export] Instance AM_ret : MRet AM := fun A a x => (Ok a, x).
#[export] Instance AM_bind : MBind AM := fun A B f m x =>
  match m x with
  | (Ok a, x) => f a x
  | (Err e, x) => (Err e, x)
  end.
#[export] Instance AM_fmap : FMap AM := fun A B f m x => let (r, x) := m x in (f <$> r, x).
Definition amres {A} (r : res op_error A) : AM A := fun x => (r, x).
Definition on_tx {A} (m : @TX S A) : AM A := fun x =>
  let (r, t) := m (sx_tx x) in (map_err OpTx r, mkServedTx t (sx_metadata x) (sx_minted x)).
Definition record_event (scope : Scope) (table : str) : AM unit := fun x =>
  (Ok tt, mkServedTx (sx_tx x) (Some (events_insert (scope, table) (default [] (sx_metadata x)))) (sx_minted x)).

Definition eid_from_ts : AM bytes := fun x =>
  (Ok (new_v7 (tx_ts (sx_tx x)) (sx_minted x)), mkServedTx (sx_tx x) (sx_metadata x) (Datatypes.S (sx_minted x))).

Definition insert_row (scope : Scope) (table : str) (eid : option bytes) (value : bytes) : AM bytes :=
  eid ← match eid with Some eid => mret eid | None => eid_from_ts end;
  _ ← on_tx (tb_insert (mkTable scope table) eid value);
  _ ← record_event scope table;
  mret eid.

Fixpoint resolve_eids (entries : list (option bytes * bytes)) : AM (list bytes) :=
  match entries with
  | [] => mret []
  | (eid, _) :: entries =>
      eid ← match eid with Some eid => mret eid | None => eid_from_ts end;
      eids ← resolve_eids entries;
      mret (eid :: eids)
  end.

Definition insert_rows (scope : Scope) (table : str) (entries : list (option bytes * bytes)) : AM (list bytes) :=
  eids ← resolve_eids entries;
  _ ← on_tx (tb_insert_batched (mkTable scope table) (zip eids (map snd entries)));
  _ ← match eids with [] => mret tt | _ => record_event scope table end;
  mret eids.

Definition blob_resolve (blob_id : BlobId) (range : option ChunkRange) : AM TxOpResponse :=
  blob ← on_tx (resolve_blob blob_id);
  match (blob : option bytes) with
  | None => mret (RespBlob None)
  | Some blob => b ← amres (chunk_of blob blob_id range); mret (RespBlob (Some b))
  end.

Definition path_resolve (scope : Scope) (path : str) (range : option ChunkRange) : AM TxOpResponse :=
  resolved ← on_tx (resolve_path (mkPath scope path));
  match (resolved : option (bytes * BlobId)) with
  | None => mret (RespBlob None)
  | Some (blob, blob_id) => b ← amres (chunk_of blob blob_id range); mret (RespBlob (Some b))
  end.

Definition done_ {A} (m : AM A) : AM TxOpResponse := _ ← m; mret RespDone.

Definition apply (op : TxOp) : AM TxOpResponse :=
  match op with
  | ScopeBackup scope => RespSnapshot <$> on_tx (take_snapshot scope)
  | ScopeRestore scope snapshot => done_ (on_tx (restore_snapshot scope snapshot))
  | KeyPut scope key value =>
      _ ← on_tx (key_put (mkUserKey scope key) value); done_ (record_event scope KEY_EVENTS)
  | KeyGet scope key => RespValue <$> on_tx (key_get (mkUserKey scope key))
  | KeyDelete scope key => done_ (on_tx (key_delete (mkUserKey scope key)))
  | KeyPrefix scope prefix => RespKeys <$> on_tx (key_prefix scope prefix)
  | KeyList scope prefix => RespEntries <$> on_tx (key_list scope prefix)
  | TbInsert scope table eid value => RespEid <$> insert_row scope table eid value
  | TbAppend scope table eid value => done_ (insert_row scope table eid value)
  | TbInsertBatched scope table entries => RespEids <$> insert_rows scope table entries
  | TbCount scope table => RespCount <$> on_tx (tb_count (mkTable scope table))
  | TbGet scope table eid => RespValue <$> on_tx (tb_get (mkTable scope table) eid)
  | TbList scope table cursor limit order => RespEntities <$> on_tx (tb_list (mkTable scope table) cursor limit order)
  | TbDelete scope table eid => done_ (on_tx (tb_delete (mkTable scope table) eid))
  | TsPublish scope measurement tags fields timestamp =>
      done_ (on_tx (publish_measurement scope measurement tags fields timestamp))
  | TsFind scope measurement limit start end_ order =>
      RespSamples <$> on_tx (find_measurement scope measurement limit start end_ order)
  | BlobStore scope blob => RespBlobId <$> on_tx (store_blob sha256 scope blob)
  | BlobLink blob_id path => done_ (on_tx (link_blob (mkPath (bi_scope blob_id) path) blob_id))
  | BlobUnlink scope path => done_ (on_tx (unlink_blob (mkPath scope path)))
  | BlobMove scope old_path new_path => done_ (on_tx (move_blob (mkPath scope old_path) (mkPath scope new_path)))
  | BlobResolve blob_id range => blob_resolve blob_id range
  | PathResolve scope path range => path_resolve scope path range
  | PathsList scope limit => RespPaths <$> on_tx (list_paths scope limit)
  end.

(** Every operation in order: the last response, or the error with the position of
    the operation that failed. *)
Fixpoint apply_from (index : nat) (ops : list TxOp) (last : option TxOpResponse) (x : ServedTx)
  : res (op_error * nat) (option TxOpResponse) * ServedTx :=
  match ops with
  | [] => (Ok last, x)
  | op :: ops =>
      match apply op x with
      | (Ok r, x) => apply_from (Datatypes.S index) ops (Some r) x
      | (Err e, x) => (Err (e, index), x)
      end
  end.
Definition apply_all (ops : list TxOp) : ServedTx -> res (op_error * nat) (option TxOpResponse) * ServedTx :=
  apply_from 0 ops None.
End Apply.
