(* ===== verification/Server.v ===== *)
(** * Serving requests

    [swarm/src/plugins/db/handler.rs] and the parts of [plugins/db.rs] it
    calls: where a routed write may land, applications of operations to a new
    transaction that commit, roll back or stay open, reads of a table in a
    snapshot, and what follows a commit: scopes this node does not replicate
    are drained, and tables that were inserted into are announced.

    A commit makes the rows of its transaction the store's, which is what the
    engine does when nothing was committed since the transaction began; with
    commits in between it merges the writes, and that is left out. *)

From S2P Require Import Prelude Bytes Skey SkeyRoundtrip SkeyOrder Keys Domain Kv Rows Tx Announce Store Repl Drain Apply.
From Stdlib Require Import ZArith Lia Strings.Byte.
From stdpp Require Import base list option strings sets.

Local Open Scope Z_scope.

(** ** Requests *)

Inductive Constraint := Routed (scope : Scope) | RoutedAt (scope : Scope) (min_version : Version) | Ignore.
Inductive Access := Read | Write.
Inductive Finish := KeepOpen | Commit | Rollback.

Abbreviation TxId := (Z * list byte)%type (only parsing).

Inductive Target := New (constraint : Constraint) (access : Access) (retention : option Duration) | Existing (id : TxId).
Record ApplyRequest := mkApplyRequest { rq_target : Target; rq_ops : list TxOp; rq_finish : Finish }.

Record ApplyResponse := mkApplyResponse {
  ar_tx : option Z;
  ar_node : NodeId;
  ar_last : option TxOpResponse;
}.

(** What the message of an error says, and which operation failed. *)
Inductive cause :=
  | CauseTx (e : tx_error)
  | CauseOp (e : op_error)
  | CauseBehind (min_version : Version)
  | CauseDraining (scope : Scope).
Record ApplyError := mkApplyError { ae_cause : cause; ae_index : option nat }.

Record PeekRequest := mkPeekRequest {
  pk_scope : Scope;
  pk_table : str;
  pk_cursor : option Cursor;
  pk_limit : option nat;
  pk_order : option TbOrderBy;
  pk_count : bool;
}.
Record PeekResponse := mkPeekResponse { ps_entities : list (bytes * bytes); ps_count : option nat }.

(** ** The server

    What it sets going, in order: a drain it starts, a signal to a running one or to a
    replicator, and a table event with the version of the commit. *)
Inductive signal := SigRearm | SigNudge | SigFindable | SigFetched.
Inductive effect :=
  | Started (scope : Scope) (kind : OffloadKind)
  | Signalled (scope : Scope) (s : signal)
  | NudgedReplica (scope : Scope)
  | Inserted (scope : Scope) (table : str) (version : Version).

Section Server.
Context {S : Type} `{Kv S} `{Postcard SyncMeta} `{Postcard MeasurementBody}.
Context (sha256 : bytes -> bytes) (new_v7 : Version -> nat -> bytes) (tx_idle_timeout : Duration).

(** The store, the events of the transactions it holds open, the identifiers given so
    far, and what was set going. *)
Record Server := mkServer {
  sv_store : @Store S;
  sv_metadata : list (Z * option TxEvents);
  sv_minted : nat;
  sv_effects : list effect;
}.

(** [Result<_, Option<Error>>]: no error is sent when the transaction is not there. *)
Definition HM (A : Type) : Type := Env -> Server -> res (option ApplyError) A * Server.

#[export] Instance HM_ret : MRet HM := fun A a env sv => (Ok a, sv).
#[export] Instance HM_bind : MBind HM := fun A B f m env sv =>
  match m env sv with
  | (Ok a, sv) => f a env sv
  | (Err e, sv) => (Err e, sv)
  end.
Definition set_sv_store (sv : Server) (st : Store) : Server := mkServer st (sv_metadata sv) (sv_minted sv) (sv_effects sv).
Definition hprim {A} (f : Env -> Server -> res (option ApplyError) A * Server) : HM A := f.
Definition hfail {A} (e : option ApplyError) : HM A := fun env sv => (Err e, sv).
Definition hattempt {A} (m : SM A) : HM (res tx_error A) := fun env sv =>
  let (r, st) := m env (sv_store sv) in (Ok r, set_sv_store sv st).
(** A call of the store whose error becomes the answer. *)
Definition hstore {A} (m : SM A) : HM A := fun env sv =>
  let (r, st) := m env (sv_store sv) in
  (map_err (fun e => Some (mkApplyError (CauseTx e) None)) r, set_sv_store sv st).
Definition emit (e : effect) : HM unit := fun env sv =>
  (Ok tt, mkServer (sv_store sv) (sv_metadata sv) (sv_minted sv) (sv_effects sv ++ [e])).
Definition asks {A} (f : Store -> A) : HM A := fun env sv => (Ok (f (sv_store sv)), sv).

(** *** Drains and signals *)

(** The store's part of [start_offload], and the drain it starts. *)
Definition start_offload (scope : Scope) (kind : OffloadKind) : HM unit :=
  started ← hprim (fun env sv => let (b, st) := Store.offload scope (sv_store sv) in (Ok b, set_sv_store sv st));
  if (started : bool) then emit (Started scope kind) else mret tt.

Definition is_replica (p : PeerView) : bool := match pv_state p with Replica => true | Draining => false end.

Definition place_routed_write (scope : Scope) : HM unit :=
  replicating ← asks (fun st => is_replicating st scope);
  if (replicating : bool) then mret tt else
  offloading ← asks (fun st => is_offloading st scope);
  if (offloading : bool) then
    now ← hstore now_instant;
    replica_visible ← asks (fun st => existsb is_replica (peer_view scope now st));
    if (replica_visible : bool) then hfail (Some (mkApplyError (CauseDraining scope) None))
    else emit (Signalled scope SigRearm)
  else start_offload scope Sink.

(** The scopes a commit touched: its replicas hear of it, or it is drained. *)
Fixpoint offer_scopes (scopes : list Scope) : HM unit :=
  match scopes with
  | [] => mret tt
  | scope :: scopes =>
      replicating ← asks (fun st => is_replicating st scope);
      offloading ← asks (fun st => is_offloading st scope);
      _ ← (if (replicating : bool) then emit (NudgedReplica scope)
           else if (offloading : bool) then emit (Signalled scope SigNudge)
           else start_offload scope Hidden);
      offer_scopes scopes
  end.

Fixpoint publish_events (events : TxEvents) (version : Version) : HM unit :=
  match events with
  | [] => mret tt
  | (scope, table) :: events => _ ← emit (Inserted scope table version); publish_events events version
  end.

Definition finish_commit (x : @ServedTx S) : HM unit :=
  let events := sx_metadata x in
  let version := tx_ts (sx_tx x) in
  let scopes := active_scopes (sx_tx x) in
  _ ← hstore (commit_tx (sx_tx x));
  _ ← offer_scopes scopes;
  match events with Some events => publish_events events version | None => mret tt end.

(** *** Applications *)

(** The operations on a transaction of the server's own; the identifiers they take
    stay taken. *)
Definition apply_ops (ops : list TxOp) (t : @Transaction S) (metadata : option TxEvents)
  : HM (res (op_error * nat) (option TxOpResponse) * @ServedTx S) := fun env sv =>
  let (r, x) := apply_all sha256 new_v7 ops (mkServedTx t metadata (sv_minted sv)) in
  (Ok (r, x), mkServer (sv_store sv) (sv_metadata sv) (sx_minted x) (sv_effects sv)).

Definition op_failure (e : op_error * nat) : option ApplyError := Some (mkApplyError (CauseOp e.1) (Some e.2)).

Definition new_remote_tx (retention : option Duration) : HM Z :=
  id ← hstore (begin_remote retention (Some tx_idle_timeout));
  hprim (fun env sv => (Ok id, mkServer (sv_store sv) (vm_insert (sv_metadata sv) id None) (sv_minted sv) (sv_effects sv))).

(** The entry of the registry a found transaction is changed in. *)
Definition put_back (id : Z) (x : @ServedTx S) : HM unit := hprim (fun env sv =>
  let st := sv_store sv in
  let txs := match vm_get (st_transactions st) id with
             | Some r => vm_insert (st_transactions st) id (mkRemoteTx (sx_tx x) (rt_idle_timeout r) (rt_last_used r))
             | None => st_transactions st
             end in
  (Ok tt, mkServer (set_transactions st txs) (vm_insert (sv_metadata sv) id (sx_metadata x)) (sv_minted sv) (sv_effects sv))).

Definition remove_tx (id : Z) : HM (option (@Transaction S)) :=
  t ← hstore (remove_remote_tx id);
  hprim (fun env sv => (Ok t, mkServer (sv_store sv) (vm_remove (sv_metadata sv) id) (sv_minted sv) (sv_effects sv))).

Definition apply_registered (id : Z) (ops : list TxOp) : HM (option TxOpResponse) :=
  found ← hstore (find_remote_tx id);
  match (found : option (@Transaction S)) with
  | None => hfail None
  | Some t =>
      metadata ← hprim (fun env sv => (Ok (default None (vm_get (sv_metadata sv) id)), sv));
      r ← apply_ops ops t metadata;
      _ ← put_back id r.2;
      match (r.1 : res (op_error * nat) (option TxOpResponse)) with
      | Ok last => mret last
      | Err e => _ ← remove_tx id; hfail (op_failure e)
      end
  end.

Definition own_id : HM NodeId := fun env sv => (Ok (node_id env), sv).

(** The bound of a transaction that resumes from a version. *)
Definition reassert (constraint : Constraint) : HM unit :=
  match constraint with
  | RoutedAt scope min_version =>
      has ← hstore (scope_has_version scope min_version);
      if (has : bool) then mret tt else hfail (Some (mkApplyError (CauseBehind min_version) None))
  | _ => mret tt
  end.

(** Once it is placed. *)
Definition apply_finish (retention : option Duration) (ops : list TxOp) (finish : Finish) (me : NodeId) : HM ApplyResponse :=
  match finish with
  | KeepOpen =>
      id ← new_remote_tx retention;
      last ← apply_registered id ops;
      mret (mkApplyResponse (Some id) me last)
  | _ =>
      t ← hstore (begin_local retention);
      r ← apply_ops ops t None;
      match (r.1 : res (op_error * nat) (option TxOpResponse)) with
      | Err e => hfail (op_failure e)
      | Ok last =>
          _ ← match finish with Commit => finish_commit r.2 | _ => mret tt end;
          mret (mkApplyResponse None me last)
      end
  end.

Definition apply_new (constraint : Constraint) (access : Access) (retention : option Duration) (ops : list TxOp)
    (finish : Finish) : HM ApplyResponse :=
  _ ← reassert constraint;
  _ ← match constraint, access, finish with
      | Routed scope, Write, (KeepOpen | Commit) => place_routed_write scope
      | _, _, _ => mret tt
      end;
  me ← own_id;
  apply_finish retention ops finish me.

(** An application to a transaction this node holds open. *)
Definition apply_existing (id : Z) (ops : list TxOp) (finish : Finish) : HM ApplyResponse :=
  me ← own_id;
  match finish with
  | KeepOpen => last ← apply_registered id ops; mret (mkApplyResponse (Some id) me last)
  | _ =>
      metadata ← hprim (fun env sv => (Ok (default None (vm_get (sv_metadata sv) id)), sv));
      t ← remove_tx id;
      match (t : option (@Transaction S)) with
      | None => hfail None
      | Some t =>
          r ← apply_ops ops t metadata;
          match (r.1 : res (op_error * nat) (option TxOpResponse)) with
          | Err e => hfail (op_failure e)
          | Ok last =>
              _ ← match finish with Commit => finish_commit r.2 | _ => mret tt end;
              mret (mkApplyResponse None me last)
          end
      end
  end.

Definition handle_apply (req : ApplyRequest) : HM ApplyResponse :=
  match rq_target req with
  | New constraint access retention => apply_new constraint access retention (rq_ops req) (rq_finish req)
  | Existing id => apply_existing id.1 (rq_ops req) (rq_finish req)
  end.

Definition tx_commit (id : Z) : HM unit :=
  metadata ← hprim (fun env sv => (Ok (default None (vm_get (sv_metadata sv) id)), sv));
  minted ← hprim (fun env sv => (Ok (sv_minted sv), sv));
  t ← remove_tx id;
  match (t : option (@Transaction S)) with
  | None => hfail None
  | Some t => finish_commit (mkServedTx t metadata minted)
  end.

Definition tx_rollback (id : Z) : HM unit :=
  t ← remove_tx id;
  match (t : option (@Transaction S)) with None => hfail None | Some _ => mret tt end.

(** *** Reads *)

Definition peek_table (req : PeekRequest) : HM PeekResponse :=
  t ← hstore (begin_local None);
  let table := mkTable (pk_scope req) (pk_table req) in
  entities ← hstore (within (tb_list table (pk_cursor req) (pk_limit req) (pk_order req)) t);
  count ← (if pk_count req then n ← hstore (within (tb_count table) entities.2); mret (Some n.1) else mret None);
  mret (mkPeekResponse entities.1 count).
End Server.
