(* ===== verification/ServerFacts.v ===== *)
(** * What a served application leaves behind

    An application to a new transaction takes effect as a whole or not at
    all, and a commit leaves no scope without a node that is responsible for
    it. *)

From S2P Require Import Prelude Bytes Skey SkeyRoundtrip SkeyOrder Keys Domain Kv Rows Tx Sample TxInv Announce Store StoreGc Repl Drain Apply Server.
From Stdlib Require Import ZArith Lia Strings.Byte.
From stdpp Require Import base list option strings sets.

Local Open Scope Z_scope.

Section ServerFacts.
Context {S : Type} {kvS : Kv S} {pcMeta : Postcard SyncMeta} {pcBody : Postcard MeasurementBody}.
Context (sha256 : bytes -> bytes) (new_v7 : Version -> nat -> bytes) (tx_idle_timeout : Duration).

(** ** Calls that change neither the rows nor the open transactions *)

Definition is_inserted (e : effect) : bool := match e with Inserted _ _ _ => true | _ => false end.
Definition table_events (sv : @Server S) : list effect := List.filter is_inserted (sv_effects sv).

Definition quiet (sv sv' : @Server S) : Prop :=
  st_backend (sv_store sv') = st_backend (sv_store sv)
  /\ st_transactions (sv_store sv') = st_transactions (sv_store sv)
  /\ sv_metadata sv' = sv_metadata sv /\ sv_minted sv' = sv_minted sv
  /\ table_events sv' = table_events sv.
Definition silent {A} (m : HM (S := S) A) : Prop := forall env sv, quiet sv (m env sv).2.
(** The same of a call of the store. *)
Definition idle {A} (m : SM (S := S) A) : Prop := forall env st,
  st_backend (m env st).2 = st_backend st /\ st_transactions (m env st).2 = st_transactions st.

Lemma quiet_trans sv1 sv2 sv3 : quiet sv1 sv2 -> quiet sv2 sv3 -> quiet sv1 sv3.
Proof. unfold quiet. intros; destruct_and!; split_and!; congruence. Qed.

Lemma silent_bind {A B} (m : HM A) (f : A -> HM B) : silent m -> (forall a, silent (f a)) -> silent (m ≫= f).
Proof.
  intros Hm Hf env sv. specialize (Hm env sv). unfold mbind, HM_bind.
  destruct (m env sv) as [[a|e] sv'] eqn:E; cbn in *; [|done]. eapply quiet_trans; [exact Hm|apply Hf].
Qed.
Lemma silent_ret {A} (a : A) : silent (mret a). Proof. intros env sv. done. Qed.
Lemma silent_fail {A} e : silent (hfail (A := A) e). Proof. intros env sv. done. Qed.
Lemma silent_asks {A} (f : Store -> A) : silent (asks f). Proof. intros env sv. done. Qed.
Lemma silent_store {A} (m : SM A) : idle m -> silent (hstore m).
Proof.
  intros Hm env sv. specialize (Hm env (sv_store sv)). unfold hstore.
  destruct (m env (sv_store sv)) as [r st']; cbn in *. destruct Hm. by split_and!.
Qed.
Lemma silent_emit e : is_inserted e = false -> silent (emit e).
Proof.
  intros He env sv. unfold quiet, table_events, emit; cbn. rewrite List.filter_app. cbn. rewrite He, app_nil_r. done.
Qed.
Lemma silent_offload scope kind : silent (start_offload scope kind).
Proof.
  apply silent_bind.
  - intros env sv. unfold hprim, Store.offload.
    destruct (is_replicating _ _); [done|]. by destruct (vm_get _ _) as [[|]|].
  - intros [|]; [by apply silent_emit|apply silent_ret].
Qed.

Lemma idle_now : idle now_instant. Proof. intros env st. done. Qed.
Lemma idle_begin r : idle (begin_local r).
Proof. intros env st. unfold begin_local. repeat case_match; done. Qed.
Lemma idle_has_version scope v : idle (scope_has_version scope v).
Proof.
  intros env st. unfold scope_has_version, mbind, SM_bind, within.
  pose proof (idle_begin None env st) as H. destruct (begin_local None env st) as [[t|e] st'] eqn:E; cbn in *; [|done].
  by destruct (find_last_syncpoint_untracked scope (Some v) t) as [[a|e] t'].
Qed.

Lemma silent_place scope : silent (place_routed_write scope).
Proof.
  apply silent_bind; [apply silent_asks|]. intros [|]; [apply silent_ret|].
  apply silent_bind; [apply silent_asks|]. intros [|]; [|apply silent_offload].
  apply silent_bind; [apply silent_store, idle_now|]. intros now.
  apply silent_bind; [apply silent_asks|]. intros [|]; [apply silent_fail|by apply silent_emit].
Qed.

Lemma silent_reassert c : silent (reassert c).
Proof.
  destruct c as [|scope v|]; try apply silent_ret.
  apply silent_bind; [apply silent_store, idle_has_version|]. intros [|]; [apply silent_ret|apply silent_fail].
Qed.

(** ** Applications *)

Lemma begin_local_spec r env st t st' : begin_local (S := S) r env st = (Ok t, st') ->
  exists s, st_backend st = Some s /\ t = mkTx s (new_timestamp env (st_calls st)) (node_id env) [] r.
Proof. unfold begin_local. repeat case_match; intros [= <- <-]; eauto. Qed.

Lemma vm_insert_twice {K A} `{EqDecision K} (m : list (K * A)) k a b : vm_insert (vm_insert m k a) k b = vm_insert m k b.
Proof.
  induction m as [|[k0 a0] m IH]; cbn; [by rewrite decide_True|].
  destruct (decide (k = k0)) as [->|Hne]; cbn; [by rewrite decide_True|]. rewrite decide_False by done. by rewrite IH.
Qed.

Lemma vm_get_insert_eq {K A} `{EqDecision K} (m : list (K * A)) k a : vm_get (vm_insert m k a) k = Some a.
Proof. rewrite vm_get_insert. by rewrite decide_True. Qed.

(** The snapshot a new transaction works on. *)
Definition snapshot (env : Env) (retention : option Duration) (s : S) (t : @Transaction S) : Prop :=
  exists n, t = mkTx s (new_timestamp env n) (node_id env) [] retention.

(** What the operations make of it, from the identifiers given so far. *)
Definition applied (ops : list TxOp) (t : @Transaction S) (sv : @Server S)
    (r : res (op_error * nat) (option TxOpResponse)) (x : @ServedTx S) : Prop :=
  apply_all sha256 new_v7 ops (mkServedTx t None (sv_minted sv)) = (r, x).

(** Opening a transaction that stays open, and applying to it. *)
Definition same_registry (sv sv' : @Server S) : Prop :=
  st_transactions (sv_store sv') = st_transactions (sv_store sv) /\ sv_metadata sv' = sv_metadata sv.

Lemma open_spec env sv retention ops r sv' :
  (forall n, vm_get (st_transactions (sv_store sv)) (new_uuid env n) = None) ->
  (forall n, vm_get (sv_metadata sv) (new_uuid env n) = None) ->
  (id ← new_remote_tx tx_idle_timeout retention; last ← apply_registered sha256 new_v7 id ops; mret (id, last)) env sv = (r, sv') ->
  st_backend (sv_store sv') = st_backend (sv_store sv) /\ table_events sv' = table_events sv
  /\ match r with
     | Err _ => same_registry sv sv'
     | Ok (id, last) => exists s t x last_used, st_backend (sv_store sv) = Some s /\ snapshot env retention s t
         /\ applied ops t sv (Ok last) x
         /\ st_transactions (sv_store sv')
            = vm_insert (st_transactions (sv_store sv)) id (mkRemoteTx (sx_tx x) (Some tx_idle_timeout) last_used)
         /\ vm_get (sv_metadata sv') id = Some (sx_metadata x) /\ sv_minted sv' = sx_minted x
     end.
Proof.
  intros Hfresh Hfresh'. unfold new_remote_tx, begin_remote, apply_registered, mbind, HM_bind, SM_bind, hstore, hprim.
  pose proof (idle_begin retention env (sv_store sv)) as [Hb Ht].
  destruct (begin_local retention env (sv_store sv)) as [[t|e] st1] eqn:Eb; cbn [fst snd] in *;
    [|intros [= <- <-]; cbn; repeat split; (done || congruence)].
  destruct (begin_local_spec _ _ _ _ _ Eb) as (s & Hs & ->).
  unfold now_instant, prim, find_remote_tx, mbind, SM_bind, now_instant, prim. cbn.
  rewrite !vm_get_insert_eq. cbn. unfold apply_ops. cbn.
  destruct (apply_all _ _ _ _) as [o x] eqn:Ea. rewrite vm_get_insert_eq in Ea. cbn in Ea |- *. unfold put_back, hprim. cbn. rewrite !vm_get_insert_eq. cbn.
  rewrite !vm_insert_twice, Ht. destruct o as [last|e]; cbn.
  - intros [= <- <-]. cbn. rewrite vm_get_insert_eq. split_and!; [congruence|done|].
    eexists s, _, x, _. split_and!; [done|by eexists|exact Ea|reflexivity|done|done].
  - unfold remove_tx, remove_remote_tx, mbind, HM_bind, hstore, hprim. cbn. intros [= <- <-]. cbn.
    unfold same_registry. cbn. rewrite !vm_remove_insert by done. repeat split; (done || congruence).
Qed.
(** ** Scopes and who is responsible for them *)

(** The node replicates the scope or drains it. *)
Definition homed (st : @Store S) (scope : Scope) : Prop := is_replicating st scope = true \/ is_offloading st scope = true.
Definition keeps_homed {A} (m : HM (S := S) A) : Prop :=
  forall env sv scope, homed (sv_store sv) scope -> homed (sv_store (m env sv).2) scope.

Lemma offload_homed st scope : homed (Store.offload scope st).2 scope.
Proof.
  unfold homed, Store.offload. destruct (is_replicating st scope) eqn:Er; [by left|]. right. unfold is_offloading.
  destruct (vm_get (st_offloads st) scope) as [[|]|] eqn:Eo; cbn; rewrite ?vm_get_insert_eq, ?Eo; done.
Qed.
Lemma offload_keeps st scope scope' : homed st scope' -> homed (Store.offload scope st).2 scope'.
Proof.
  unfold homed, Store.offload. destruct (is_replicating st scope) eqn:Er; [done|].
  intros [Hr|Ho]; [left|right]; destruct (vm_get (st_offloads st) scope) as [[|]|] eqn:Eo; try done;
    unfold is_offloading in *; cbn; rewrite vm_get_insert; by destruct (decide (scope' = scope)).
Qed.

Lemma start_offload_homed env sv scope kind :
  homed (sv_store (start_offload scope kind env sv).2) scope
  /\ forall scope', homed (sv_store sv) scope' -> homed (sv_store (start_offload scope kind env sv).2) scope'.
Proof.
  unfold start_offload, mbind, HM_bind, hprim.
  pose proof (offload_homed (sv_store sv) scope) as H1. pose proof (offload_keeps (sv_store sv) scope) as H2.
  by destruct (Store.offload scope (sv_store sv)) as [[|] st'].
Qed.

Lemma offer_scopes_ok env scopes : forall sv, exists sv', offer_scopes scopes env sv = (Ok tt, sv') /\ quiet sv sv'
  /\ (forall scope, scope ∈ scopes -> homed (sv_store sv') scope)
  /\ (forall scope, homed (sv_store sv) scope -> homed (sv_store sv') scope).
Proof.
  induction scopes as [|scope scopes IH]; intros sv.
  { exists sv. split_and!; [done|by repeat split|set_solver|done]. }
  assert (exists sv1, offer_scopes (scope :: scopes) env sv = offer_scopes scopes env sv1 /\ quiet sv sv1
    /\ homed (sv_store sv1) scope /\ forall scope', homed (sv_store sv) scope' -> homed (sv_store sv1) scope')
    as (sv1 & -> & Hq & Hh & Hk).
  { cbn [offer_scopes]. unfold mbind, HM_bind, asks.
    destruct (is_replicating (sv_store sv) scope) eqn:Er; [|destruct (is_offloading (sv_store sv) scope) eqn:Eo].
    - eexists. split; [reflexivity|]. split; [by apply (silent_emit (NudgedReplica scope) eq_refl env)|]. split; [by left|done].
    - eexists. split; [reflexivity|]. split; [by apply (silent_emit (Signalled scope SigNudge) eq_refl env)|]. split; [by right|done].
    - pose proof (silent_offload scope Hidden env sv) as Hq. destruct (start_offload_homed env sv scope Hidden) as [Hh Hk].
      assert (exists sv1, start_offload scope Hidden env sv = (Ok tt, sv1)) as [sv1 E1].
      { unfold start_offload, mbind, HM_bind, hprim. destruct (Store.offload scope (sv_store sv)) as [[|] st']; by eexists. }
      rewrite E1 in *. exists sv1. by split_and!. }
  destruct (IH sv1) as (sv' & -> & Hq' & Hin & Hk'). exists sv'. split; [done|]. split; [by eapply quiet_trans|].
  split; [|by auto]. intros sc [->|Hsc]%elem_of_cons; auto.
Qed.

Lemma publish_events_ok env events version : forall sv, exists sv', publish_events events version env sv = (Ok tt, sv')
  /\ sv_store sv' = sv_store sv /\ sv_metadata sv' = sv_metadata sv
  /\ table_events sv' = table_events sv ++ map (fun e => Inserted e.1 e.2 version) events.
Proof.
  induction events as [|[scope table] events IH]; intros sv.
  { exists sv. cbn. by rewrite app_nil_r. }
  cbn [publish_events]. unfold mbind, HM_bind, emit. set (sv1 := mkServer _ _ _ _). destruct (IH sv1) as (sv' & -> & Hs & Hm & He).
  exists sv'. split; [done|]. split; [done|]. split; [done|]. rewrite He. unfold table_events, sv1. cbn.
  rewrite List.filter_app. cbn. by rewrite <- app_assoc.
Qed.

Lemma commit_tx_spec env st t r st' : commit_tx (S := S) t env st = (r, st') ->
  st_transactions st' = st_transactions st /\ (forall scope, homed st scope -> homed st' scope)
  /\ match r with
     | Err _ => st_backend st' = st_backend st
     | Ok _ => exists t', commit Committed t = (Ok tt, t') /\ st_backend st' = Some (tx_store t')
     end.
Proof.
  unfold commit_tx. destruct (commit (engine_commit env (st_calls st)) t) as [[[]|e] t'] eqn:E; intros [= <- <-]; [|done].
  split; [done|]. split; [done|]. exists t'. split; [|done]. revert E. unfold commit.
  destruct (for_each _ _ _) as [[a|e] t0]; [|done]. by destruct (engine_commit env (st_calls st)).
Qed.

(** The table events of a commit. *)
Definition announced_tables (x : @ServedTx S) : list effect :=
  map (fun e => Inserted e.1 e.2 (tx_ts (sx_tx x))) (default [] (sx_metadata x)).

Lemma finish_commit_spec env sv x r sv' : finish_commit x env sv = (r, sv') ->
  same_registry sv sv' /\ (forall scope, homed (sv_store sv) scope -> homed (sv_store sv') scope)
  /\ match r with
     | Err _ => st_backend (sv_store sv') = st_backend (sv_store sv) /\ table_events sv' = table_events sv
     | Ok _ => (exists t', commit Committed (sx_tx x) = (Ok tt, t') /\ st_backend (sv_store sv') = Some (tx_store t'))
         /\ table_events sv' = table_events sv ++ announced_tables x
         /\ forall scope, scope ∈ active_scopes (sx_tx x) -> homed (sv_store sv') scope
     end.
Proof.
  unfold finish_commit, mbind, HM_bind, hstore.
  destruct (commit_tx (sx_tx x) env (sv_store sv)) as [o st1] eqn:Ec. apply commit_tx_spec in Ec as (Ht & Hh & Hr).
  destruct o as [[]|e]; cbn [map_err]; [|intros [= <- <-]; by repeat split].
  destruct (offer_scopes_ok env (active_scopes (sx_tx x)) (set_sv_store sv st1)) as (sv2 & -> & (Q1 & Q2 & Q3 & _ & Q5) & Hin & Hk).
  cbn in Q1, Q2, Q3, Q5.
  assert (exists sv3, (match sx_metadata x with Some events => publish_events events (tx_ts (sx_tx x)) | None => mret tt end) env sv2 = (Ok tt, sv3)
    /\ sv_store sv3 = sv_store sv2 /\ sv_metadata sv3 = sv_metadata sv2 /\ table_events sv3 = table_events sv2 ++ announced_tables x)
    as (sv3 & -> & Hs3 & Hm3 & He3).
  { unfold announced_tables. destruct (sx_metadata x) as [events|]; [apply publish_events_ok|].
    exists sv2. cbn. by rewrite app_nil_r. }
  intros [= <- <-]. unfold same_registry. rewrite Hs3, Hm3, He3, Q1, Q2, Q3, Q5. split_and!; try done.
  intros scope H. by apply Hk, Hh.
Qed.

Lemma silent_placement constraint access finish : silent
  (match constraint, access, finish with
   | Routed scope, Write, (KeepOpen | Commit) => place_routed_write scope | _, _, _ => mret tt end : HM (S := S) unit).
Proof. destruct constraint, access, finish; try apply silent_ret; apply silent_place. Qed.

Lemma bind_run {A B} (m : HM (S := S) A) (f : A -> HM B) env sv r sv' : (m ≫= f) env sv = (r, sv') ->
  (exists e, m env sv = (Err e, sv') /\ r = Err e) \/ (exists a sv1, m env sv = (Ok a, sv1) /\ f a env sv1 = (r, sv')).
Proof. unfold mbind, HM_bind. destruct (m env sv) as [[a|e] sv1]; [right|left; exists e]; naive_solver. Qed.

(** An application to a new transaction, by its outcome. *)
Definition outcome_of (env : Env) (retention : option Duration) (ops : list TxOp) (finish : Finish) (sv sv' : Server)
    (s : S) (a : ApplyResponse) : Prop :=
  exists t x, snapshot env retention s t /\ applied ops t sv (Ok (ar_last a)) x /\
  match finish with
  | Rollback => st_backend (sv_store sv') = Some s /\ same_registry sv sv' /\ table_events sv' = table_events sv /\ ar_tx a = None
  | KeepOpen => st_backend (sv_store sv') = Some s /\ table_events sv' = table_events sv
      /\ exists id last_used, ar_tx a = Some id
        /\ st_transactions (sv_store sv')
           = vm_insert (st_transactions (sv_store sv)) id (mkRemoteTx (sx_tx x) (Some tx_idle_timeout) last_used)
        /\ vm_get (sv_metadata sv') id = Some (sx_metadata x) /\ sv_minted sv' = sx_minted x
  | Commit => same_registry sv sv' /\ ar_tx a = None /\ table_events sv' = table_events sv ++ announced_tables x
      /\ exists t', commit Committed (sx_tx x) = (Ok tt, t') /\ st_backend (sv_store sv') = Some (tx_store t')
  end.

Definition result_of (env : Env) (retention : option Duration) (ops : list TxOp) (finish : Finish) (sv sv' : Server)
    (s : S) (r : res (option ApplyError) ApplyResponse) : Prop :=
  match r with
  | Err _ => st_backend (sv_store sv') = Some s /\ same_registry sv sv' /\ table_events sv' = table_events sv
  | Ok a => outcome_of env retention ops finish sv sv' s a
  end.

Lemma open_case env sv sv2 s retention ops me r sv' :
  st_backend (sv_store sv) = Some s ->
  (forall n, vm_get (st_transactions (sv_store sv)) (new_uuid env n) = None) ->
  (forall n, vm_get (sv_metadata sv) (new_uuid env n) = None) ->
  quiet sv sv2 ->
  apply_finish sha256 new_v7 tx_idle_timeout retention ops KeepOpen me env sv2 = (r, sv') ->
  result_of env retention ops KeepOpen sv sv' s r.
Proof.
  intros Hs Hfresh Hmeta (Q1 & Q2 & Q3 & Q4 & Q5) Hrun.
  pose proof (open_spec env sv2 retention ops) as Ho. rewrite Q2, Q3 in Ho.
  unfold apply_finish, mbind, HM_bind in *.
  destruct (new_remote_tx tx_idle_timeout retention env sv2) as [[id|e] sv3];
    [destruct (apply_registered sha256 new_v7 id ops env sv3) as [[last|e] sv4]|]; injection Hrun as <- <-;
    destruct (Ho _ _ Hfresh Hmeta eq_refl) as (B & T & R); cbn.
  - destruct R as (s' & t & x & u & Hs' & Hsnap & Ha & Ht & Hm & Hmi). assert (s' = s) as -> by congruence.
    exists t, x. split; [done|]. unfold applied in *. rewrite Q4 in Ha. split; [done|]. rewrite B, T, Q1, Q5. split; [done|]. split; [done|].
    exists id, u. by rewrite Ht.
  - destruct R as [R1 R2]. unfold same_registry. by rewrite B, T, Q1, Q5, R1, R2.
  - destruct R as [R1 R2]. unfold same_registry. by rewrite B, T, Q1, Q5, R1, R2.
Qed.

Lemma local_case env sv sv2 s retention ops finish me r sv' :
  finish <> KeepOpen -> st_backend (sv_store sv) = Some s -> quiet sv sv2 ->
  apply_finish sha256 new_v7 tx_idle_timeout retention ops finish me env sv2 = (r, sv') ->
  result_of env retention ops finish sv sv' s r.
Proof.
  intros Hf Hs (Q1 & Q2 & Q3 & Q4 & Q5) Hrun.
  assert (Hrun' : (t ← hstore (begin_local retention); r ← apply_ops sha256 new_v7 ops t None;
    match (r.1 : res (op_error * nat) (option TxOpResponse)) with
    | Err e => hfail (op_failure e)
    | Ok last => _ ← match finish with Commit => finish_commit r.2 | _ => mret tt end; mret (mkApplyResponse None me last)
    end) env sv2 = (r, sv')) by (by destruct finish). clear Hrun.
  pose proof (idle_begin retention env (sv_store sv2)) as [Hb Ht].
  unfold mbind at 1 in Hrun'. unfold HM_bind at 1, hstore in Hrun'.
  destruct (begin_local retention env (sv_store sv2)) as [[t|e] st3] eqn:Eb; cbn [fst snd map_err] in *;
    [|injection Hrun' as <- <-; cbn; unfold same_registry; cbn; rewrite Hb, Ht; repeat split; (exact Q5 || congruence)].
  apply begin_local_spec in Eb as (s' & Hs' & ->). assert (s' = s) as -> by congruence.
  set (t := mkTx s _ _ _ _) in *. unfold apply_ops, mbind at 1, HM_bind at 1 in Hrun'. cbn [sv_minted set_sv_store] in Hrun'.
  destruct (apply_all sha256 new_v7 ops (mkServedTx t None (sv_minted sv2))) as [o x] eqn:Ea. cbn [fst snd] in Hrun'.
  set (sv3 := mkServer _ _ _ _) in Hrun'.
  destruct o as [last|e]; [|injection Hrun' as <- <-; cbn; unfold same_registry; cbn; rewrite Hb, Ht; repeat split; (exact Q5 || congruence)].
  assert (Hap : applied ops t sv (Ok last) x) by (unfold applied; by rewrite <- Q4).
  destruct finish; [done| |].
  - unfold mbind, HM_bind in Hrun'. destruct (finish_commit x env sv3) as [o sv4] eqn:Ef.
    apply finish_commit_spec in Ef as ([R1 R2] & _ & Hr). cbn in R1, R2.
    assert (Hreg : same_registry sv sv4) by (unfold same_registry; by rewrite R1, R2, Ht, Q2, Q3).
    assert (Hev : table_events sv3 = table_events sv) by exact Q5.
    destruct o as [u|e]; injection Hrun' as <- <-; cbn.
    + destruct Hr as (Hc & He & _). exists t, x. split; [by eexists|]. split; [done|]. by rewrite He, Hev.
    + destruct Hr as [Hb4 He]. rewrite Hb4, He, Hev. cbn. rewrite Hb. repeat split; congruence.
  - injection Hrun' as <- <-. cbn. exists t, x. split; [by eexists|]. split; [done|]. unfold same_registry. cbn.
    rewrite Hb, Ht. repeat split; (exact Q5 || congruence).
Qed.

Lemma application_result (env : Env) (sv sv' : Server) (s : S) (constraint : Constraint) (access : Access)
    (retention : option Duration) (ops : list TxOp) (finish : Finish) (r : res (option ApplyError) ApplyResponse)
    (Hs : st_backend (sv_store sv) = Some s)
    (Hfresh : forall n, vm_get (st_transactions (sv_store sv)) (new_uuid env n) = None)
    (Hmeta : forall n, vm_get (sv_metadata sv) (new_uuid env n) = None)
    (Hrun : apply_new sha256 new_v7 tx_idle_timeout constraint access retention ops finish env sv = (r, sv')) :
  match r with
  | Err _ => st_backend (sv_store sv') = Some s /\ same_registry sv sv' /\ table_events sv' = table_events sv
  | Ok a => outcome_of env retention ops finish sv sv' s a
  end.
Proof.
  unfold apply_new in Hrun.
  apply bind_run in Hrun as [(e & E & ->)|([] & sv1 & E1 & Hrun)].
  { pose proof (silent_reassert constraint env sv) as Q. rewrite E in Q. cbn in Q. destruct Q as (-> & ? & ? & _ & ?). by repeat split. }
  pose proof (silent_reassert constraint env sv) as Q1. rewrite E1 in Q1. cbn in Q1.
  apply bind_run in Hrun as [(e & E & ->)|([] & sv2 & E2 & Hrun)].
  { pose proof (silent_placement constraint access finish env sv1) as Q. rewrite E in Q. cbn in Q.
    destruct (quiet_trans _ _ _ Q1 Q) as (-> & ? & ? & _ & ?). by repeat split. }
  pose proof (silent_placement constraint access finish env sv1) as Q2. rewrite E2 in Q2. cbn in Q2.
  pose proof (quiet_trans _ _ _ Q1 Q2) as Q. clear Q1 Q2 E1 E2 sv1.
  apply bind_run in Hrun as [(e & [=] & _)|(me & sv1 & [= <- <-] & Hrun)].
  destruct finish; [by apply (open_case env sv sv2 s retention ops (node_id env))|..];
    by apply (local_case env sv sv2 s retention ops _ (node_id env)).
Qed.

(** *** What a failure leaves of the rest of the node *)

(** The peers, the replications, the drains and what was set going are the same. *)
Definition aside (sv sv' : @Server S) : Prop :=
  st_peers (sv_store sv') = st_peers (sv_store sv) /\ st_departed (sv_store sv') = st_departed (sv_store sv)
  /\ st_replications (sv_store sv') = st_replications (sv_store sv)
  /\ st_offloads (sv_store sv') = st_offloads (sv_store sv) /\ sv_effects sv' = sv_effects sv.
Definition unmoved {A} (m : HM (S := S) A) : Prop := forall env sv, aside sv (m env sv).2.

(** A routed write asked for the drain of its scope: one that runs was armed again, or
    one was started. *)
Definition drain_asked (constraint : Constraint) (access : Access) (finish : Finish) (sv sv' : @Server S) : Prop :=
  exists scope, constraint = Routed scope /\ access = Write /\ finish <> Rollback
  /\ is_replicating (sv_store sv) scope = false
  /\ st_peers (sv_store sv') = st_peers (sv_store sv) /\ st_departed (sv_store sv') = st_departed (sv_store sv)
  /\ st_replications (sv_store sv') = st_replications (sv_store sv)
  /\ if is_offloading (sv_store sv) scope
     then st_offloads (sv_store sv') = st_offloads (sv_store sv) /\ sv_effects sv' = sv_effects sv ++ [Signalled scope SigRearm]
     else st_offloads (sv_store sv') = vm_insert (st_offloads (sv_store sv)) scope false
          /\ sv_effects sv' = sv_effects sv ++ [Started scope Sink].

Lemma aside_trans sv1 sv2 sv3 : aside sv1 sv2 -> aside sv2 sv3 -> aside sv1 sv3.
Proof. unfold aside. intros; destruct_and!; split_and!; congruence. Qed.
Lemma unmoved_bind {A B} (m : HM A) (f : A -> HM B) : unmoved m -> (forall a, unmoved (f a)) -> unmoved (m ≫= f).
Proof.
  intros Hm Hf env sv. specialize (Hm env sv). unfold mbind, HM_bind.
  destruct (m env sv) as [[a|e] sv'] eqn:E; cbn in *; [|done]. eapply aside_trans; [exact Hm|apply Hf].
Qed.
Lemma unmoved_ret {A} (a : A) : unmoved (mret a). Proof. intros env sv. by split_and!. Qed.
Lemma unmoved_fail {A} e : unmoved (hfail (A := A) e). Proof. intros env sv. by split_and!. Qed.
Lemma unmoved_begin r : unmoved (hstore (begin_local r)).
Proof. intros env sv. unfold hstore, begin_local. repeat case_match; simplify_eq; by split_and!. Qed.
Lemma unmoved_ops ops t metadata : unmoved (apply_ops sha256 new_v7 ops t metadata).
Proof. intros env sv. unfold apply_ops. destruct (apply_all _ _ _ _). by split_and!. Qed.
Lemma unmoved_remove id : unmoved (remove_tx id).
Proof. intros env sv. by split_and!. Qed.

Lemma unmoved_new_remote retention : unmoved (new_remote_tx tx_idle_timeout retention).
Proof.
  apply unmoved_bind; [|intros id env sv; by split_and!]. intros env sv.
  pose proof (unmoved_begin retention env sv) as H. unfold hstore, begin_remote, mbind, SM_bind in *.
  destruct (begin_local retention env (sv_store sv)) as [[t|e] st1]; exact H.
Qed.
Lemma unmoved_registered id ops : unmoved (apply_registered sha256 new_v7 id ops).
Proof.
  apply unmoved_bind.
  { intros env sv. unfold hstore, find_remote_tx, mbind, SM_bind, now_instant, prim. cbn.
    destruct (vm_get _ id); by split_and!. }
  intros [t|]; [|apply unmoved_fail]. apply unmoved_bind; [intros env sv; by split_and!|]. intros metadata.
  apply unmoved_bind; [apply unmoved_ops|]. intros [o x]. cbn. apply unmoved_bind; [intros env sv; by split_and!|]. intros _.
  destruct o; [apply unmoved_ret|]. apply unmoved_bind; [apply unmoved_remove|]. intros _. apply unmoved_fail.
Qed.
Lemma unmoved_reassert c : unmoved (reassert c).
Proof.
  destruct c as [|scope v|]; try apply unmoved_ret. apply unmoved_bind; [|intros [|]; [apply unmoved_ret|apply unmoved_fail]].
  intros env sv. pose proof (unmoved_begin None env sv) as H. unfold hstore, scope_has_version, mbind, SM_bind, Store.within in *.
  destruct (begin_local None env (sv_store sv)) as [[t|e] st1]; [|exact H].
  by destruct (find_last_syncpoint_untracked scope (Some v) t) as [[a|e] t'].
Qed.

(** Placing a routed write. *)
Lemma placed_aside env sv scope access finish : access = Write -> finish <> Rollback ->
  let sv' := (place_routed_write scope env sv).2 in aside sv sv' \/ drain_asked (Routed scope) access finish sv sv'.
Proof.
  intros Ha Hf. unfold place_routed_write, start_offload, drain_asked, mbind, HM_bind, asks, hprim, Store.offload.
  destruct (is_replicating (sv_store sv) scope) eqn:Er; [left; by split_and!|].
  destruct (is_offloading (sv_store sv) scope) eqn:Eo; cbn.
  - destruct (existsb _ _); [left; by split_and!|]. right. exists scope. rewrite Eo. by split_and!.
  - right. exists scope. rewrite Er, Eo. unfold is_offloading in Eo. destruct (vm_get _ scope) as [[|]|]; [|done|]; cbn; by split_and!.
Qed.

(** An application that fails once it is placed. *)
Lemma finish_aside env sv retention ops finish me e sv' :
  apply_finish sha256 new_v7 tx_idle_timeout retention ops finish me env sv = (Err e, sv') -> aside sv sv'.
Proof.
  intros Hrun. assert (forall A (m : HM A) sv0 r sv1, unmoved m -> m env sv0 = (r, sv1) -> aside sv0 sv1) as Hc.
  { intros A m sv0 o sv1 Hm E. specialize (Hm env sv0). by rewrite E in Hm. }
  destruct finish; [|cbn [apply_finish] in Hrun..].
  1: { eapply Hc, Hrun. apply unmoved_bind; [apply unmoved_new_remote|]. intros id. apply unmoved_bind; [apply unmoved_registered|].
       intros last. apply unmoved_ret. }
  all: apply bind_run in Hrun as [(e' & E & _)|(t & sv1 & E1 & Hrun)]; [by eapply Hc; [apply unmoved_begin|exact E]|].
  all: eapply aside_trans; [eapply Hc; [apply unmoved_begin|exact E1]|]; clear E1 sv; rename sv1 into sv.
  all: apply bind_run in Hrun as [(e' & E & _)|([o x] & sv1 & E1 & Hrun)]; [by eapply Hc; [apply unmoved_ops|exact E]|].
  all: eapply aside_trans; [eapply Hc; [apply unmoved_ops|exact E1]|]; clear E1 sv; rename sv1 into sv; cbn [fst snd] in Hrun.
  all: destruct o as [last|e']; [|injection Hrun as _ <-; by split_and!].
  - apply bind_run in Hrun as [(e' & E & _)|(u & sv1 & E1 & Hrun)]; [|done]. unfold finish_commit in E.
    apply bind_run in E as [(e2 & E & _)|(u & sv1 & _ & E)].
    + revert E. unfold hstore, commit_tx. destruct (commit _ _) as [[u|e3] t']; intros [= _ <-]. by split_and!.
    + exfalso. destruct (offer_scopes_ok env (active_scopes (sx_tx x)) sv1) as (sv2 & E2 & _). unfold mbind, HM_bind in E. rewrite E2 in E.
      destruct (sx_metadata x) as [events|]; [|done]. destruct (publish_events_ok env events (tx_ts (sx_tx x)) sv2) as (sv3 & E3 & _). by rewrite E3 in E.
  - apply bind_run in Hrun as [(e' & E & _)|(u & sv1 & E1 & Hrun)]; [|done]. done.
Qed.

Lemma asked_then constraint access finish sv sv1 sv' :
  aside sv sv1 \/ drain_asked constraint access finish sv sv1 -> aside sv1 sv' ->
  aside sv sv' \/ drain_asked constraint access finish sv sv'.
Proof.
  intros [H|(scope & H)] Ha; [left; by eapply aside_trans|right; exists scope]. unfold aside in Ha.
  destruct H as (-> & -> & ? & ? & ? & ? & ? & H). destruct Ha as (? & ? & ? & ? & ?).
  split_and!; try done; try congruence. destruct (is_offloading _ _); destruct H; split; congruence.
Qed.
Lemma aside_then constraint access finish sv sv1 sv' :
  aside sv sv1 -> drain_asked constraint access finish sv1 sv' -> drain_asked constraint access finish sv sv'.
Proof.
  intros (Hp & Hd & Hr & Ho & He) (scope & Hc & Ha & Hf & Hrep & H). exists scope.
  unfold is_replicating, is_offloading in *. rewrite Hp, Hd, Hr, Ho, He in *. done.
Qed.

Lemma failure_aside env sv sv' constraint access retention ops finish e :
  apply_new sha256 new_v7 tx_idle_timeout constraint access retention ops finish env sv = (Err e, sv') ->
  aside sv sv' \/ drain_asked constraint access finish sv sv'.
Proof.
  intros Hrun. unfold apply_new in Hrun. pose proof (unmoved_reassert constraint env sv) as H1.
  apply bind_run in Hrun as [(e' & E & _)|([] & sv1 & E & Hrun)]; rewrite E in H1; cbn in H1; [by left|]. clear E.
  set (place := match constraint with Routed _ => _ | _ => _ end) in Hrun.
  assert (aside sv1 (place env sv1).2 \/ drain_asked constraint access finish sv1 (place env sv1).2) as H2.
  { subst place. destruct constraint as [scope| |], access, finish; try (left; apply unmoved_ret); by apply placed_aside. }
  assert (aside sv (place env sv1).2 \/ drain_asked constraint access finish sv (place env sv1).2) as H.
  { destruct H2 as [H2|H2]; [left; by eapply aside_trans|right; by eapply aside_then]. }
  apply bind_run in Hrun as [(e' & E & _)|([] & sv2 & E & Hrun)]; rewrite E in H; cbn in H; [done|].
  apply bind_run in Hrun as [(e' & [=] & _)|(me & sv3 & [= <- <-] & Hrun)].
  eapply asked_then; [exact H|]. by eapply finish_aside.
Qed.

(** A response names the node that answered. *)
Lemma apply_new_node env sv c access retention ops finish a sv' :
  apply_new sha256 new_v7 tx_idle_timeout c access retention ops finish env sv = (Ok a, sv') -> ar_node a = node_id env.
Proof.
  intros Hrun. unfold apply_new in Hrun.
  apply bind_run in Hrun as [(e & _ & [=])|([] & sv1 & _ & Hrun)].
  apply bind_run in Hrun as [(e & _ & [=])|([] & sv2 & _ & Hrun)].
  apply bind_run in Hrun as [(e & _ & [=])|(me & sv3 & [= <- <-] & Hrun)].
  destruct finish; cbn [apply_finish] in Hrun.
  all: apply bind_run in Hrun as [(e & _ & [=])|(x & sv4 & _ & Hrun)].
  all: apply bind_run in Hrun as [(e & _ & [=])|(y & sv5 & _ & Hrun)].
  - by injection Hrun as <- _.
  - destruct (y.1); [|done]. apply bind_run in Hrun as [(e & _ & [=])|(z & sv6 & _ & Hrun)]. by injection Hrun as <- _.
  - destruct (y.1); [|done]. apply bind_run in Hrun as [(e & _ & [=])|(z & sv6 & _ & Hrun)]. by injection Hrun as <- _.
Qed.

(** C27. An application to a new transaction takes effect as a whole or not at all.  If it is
    answered with an error, whether by the placement, by one of its
    operations or by the commit, the rows are what they were, no transaction
    is left open, no table event goes out, and the peers, the replications, the
    drains and what was set going are as before too, but that a write routed to
    a scope this node does not replicate may have started the drain of that
    scope, or armed the running one again, before it failed.  If it is answered, all of its
    operations succeeded on one snapshot, and then: with [Rollback] nothing
    stays; with [KeepOpen] exactly one new transaction is open, holding
    their writes; with [Commit] the rows are the committed ones and the
    tables inserted into are announced with the version of the commit. *)
Theorem application_atomic (env : Env) (sv sv' : Server) (s : S) (constraint : Constraint) (access : Access)
    (retention : option Duration) (ops : list TxOp) (finish : Finish) (r : res (option ApplyError) ApplyResponse)
    (Hs : st_backend (sv_store sv) = Some s)
    (Hfresh : forall n, vm_get (st_transactions (sv_store sv)) (new_uuid env n) = None)
    (Hmeta : forall n, vm_get (sv_metadata sv) (new_uuid env n) = None)
    (Hrun : apply_new sha256 new_v7 tx_idle_timeout constraint access retention ops finish env sv = (r, sv')) :
  match r with
  | Err _ => st_backend (sv_store sv') = Some s /\ same_registry sv sv' /\ table_events sv' = table_events sv
      /\ (aside sv sv' \/ drain_asked constraint access finish sv sv')
  | Ok a => outcome_of env retention ops finish sv sv' s a
  end.
Proof.
  pose proof (application_result env sv sv' s constraint access retention ops finish r Hs Hfresh Hmeta Hrun) as H.
  destruct r as [a|e]; [done|]. destruct H as (? & ? & ?). split_and!; try done. by eapply failure_aside.
Qed.

(** *** Applications to an open transaction *)

(** What is registered of an open transaction. *)
Definition registered (id : Z) (sv : @Server S) (x : @ServedTx S) : Prop :=
  (exists timeout last_used, vm_get (st_transactions (sv_store sv)) id = Some (mkRemoteTx (sx_tx x) timeout last_used))
  /\ vm_get (sv_metadata sv) id = Some (sx_metadata x) /\ sv_minted sv = sx_minted x.

Definition continued (env : Env) (id : Z) (ops : list TxOp) (finish : Finish) (sv sv' : Server) (x : ServedTx) (a : ApplyResponse) : Prop :=
  exists x', apply_all sha256 new_v7 ops x = (Ok (ar_last a), x') /\ ar_node a = node_id env /\
  match finish with
  | KeepOpen => ar_tx a = Some id /\ registered id sv' x'
      /\ st_backend (sv_store sv') = st_backend (sv_store sv) /\ table_events sv' = table_events sv
  | Rollback => ar_tx a = None /\ st_backend (sv_store sv') = st_backend (sv_store sv) /\ table_events sv' = table_events sv
  | Commit => ar_tx a = None /\ table_events sv' = table_events sv ++ announced_tables x'
      /\ exists t', commit Committed (sx_tx x') = (Ok tt, t') /\ st_backend (sv_store sv') = Some (tx_store t')
  end.

Lemma registered_run env sv id ops x r sv' : registered id sv x -> apply_registered sha256 new_v7 id ops env sv = (r, sv') ->
  st_backend (sv_store sv') = st_backend (sv_store sv) /\ table_events sv' = table_events sv
  /\ forall last, r = Ok last -> exists x', apply_all sha256 new_v7 ops x = (Ok last, x') /\ registered id sv' x'.
Proof.
  intros ((timeout & lu & Ht) & Hm & Hn). unfold apply_registered, find_remote_tx, now_instant, mbind, HM_bind, SM_bind, hstore, hprim, prim.
  cbn. rewrite Ht. cbn. rewrite Hm. unfold apply_ops. cbn. rewrite Hn.
  replace (mkServedTx (sx_tx x) (sx_metadata x) (sx_minted x)) with x by (by destruct x).
  destruct (apply_all sha256 new_v7 ops x) as [o x'] eqn:Ea. cbn. unfold put_back, hprim. cbn. rewrite vm_get_insert_eq. cbn.
  destruct o as [last|e]; cbn.
  - intros [= <- <-]. split; [done|]. split; [done|]. intros last' [= <-]. exists x'. split; [done|].
    unfold registered. cbn. rewrite !vm_get_insert_eq. split; [by eexists _, _|done].
  - intros [= <- <-]. split; [done|]. split; [done|]. by intros last [=].
Qed.

(** One that is taken out of the registry first. *)
Lemma closing_run env sv id ops x (f : ServedTx -> HM unit) me r sv' : registered id sv x ->
  (metadata ← hprim (fun env sv => (Ok (default None (vm_get (sv_metadata sv) id)), sv));
   t ← remove_tx id;
   match (t : option (@Transaction S)) with
   | None => hfail None
   | Some t =>
       r ← apply_ops sha256 new_v7 ops t metadata;
       match (r.1 : res (op_error * nat) (option TxOpResponse)) with
       | Err e => hfail (op_failure e)
       | Ok last => _ ← f r.2; mret (mkApplyResponse None me last)
       end
   end) env sv = (r, sv') ->
  exists sv1, st_backend (sv_store sv1) = st_backend (sv_store sv) /\ table_events sv1 = table_events sv
  /\ match apply_all sha256 new_v7 ops x with
     | (Err e, _) => r = Err (op_failure e) /\ sv' = sv1
     | (Ok last, x') => let (o, sv2) := f x' env sv1 in
         r = (match o with Ok _ => Ok (mkApplyResponse None me last) | Err e => Err e end) /\ sv' = sv2
     end.
Proof.
  intros ((timeout & lu & Ht) & Hm & Hn). unfold mbind, HM_bind, hprim, remove_tx, remove_remote_tx, mbind, HM_bind, hstore, hprim.
  cbn. rewrite Hm, Ht. cbn. unfold apply_ops. cbn. rewrite Hn.
  replace (mkServedTx (sx_tx x) (sx_metadata x) (sx_minted x)) with x by (by destruct x).
  destruct (apply_all sha256 new_v7 ops x) as [[last|e] x'] eqn:Ea; cbn; set (sv1 := mkServer _ _ _ _); intros E;
    (exists sv1; split; [done|]; split; [done|]).
  - destruct (f x' env sv1) as [[u|e] sv2]; by injection E as <- <-.
  - by injection E as <- <-.
Qed.

Lemma existing_result (env : Env) (sv sv' : Server) (id : Z) (ops : list TxOp) (finish : Finish) (x : ServedTx)
    (r : res (option ApplyError) ApplyResponse) :
  registered id sv x -> apply_existing sha256 new_v7 id ops finish env sv = (r, sv') ->
  match r with
  | Err _ => st_backend (sv_store sv') = st_backend (sv_store sv) /\ table_events sv' = table_events sv
  | Ok a => continued env id ops finish sv sv' x a
  end.
Proof.
  intros Hreg Hrun. unfold apply_existing in Hrun. apply bind_run in Hrun as [(e & [=] & _)|(me & sv1 & [= <- <-] & Hrun)].
  destruct finish.
  - apply bind_run in Hrun as [(e & E & ->)|(last & sv1 & E & [= <- <-])]; destruct (registered_run _ _ _ _ _ _ _ Hreg E) as (Hb & He & Hx); [done|].
    destruct (Hx last eq_refl) as (x' & Ha & Hr). by exists x'.
  - destruct (closing_run env sv id ops x (fun x => finish_commit x) (node_id env) r sv' Hreg Hrun) as (sv1 & Hb1 & He1 & H).
    destruct (apply_all sha256 new_v7 ops x) as [[last|e] x'] eqn:Ea; [|by destruct H as [-> ->]].
    destruct (finish_commit x' env sv1) as [o sv2] eqn:Ef. destruct H as [-> ->].
    apply finish_commit_spec in Ef as (_ & _ & Hr). rewrite Hb1, He1 in Hr. destruct o as [u|e]; [|done].
    destruct Hr as (Hc & He & _). by exists x'.
  - destruct (closing_run env sv id ops x (fun _ => mret tt) (node_id env) r sv' Hreg Hrun) as (sv1 & Hb1 & He1 & H).
    destruct (apply_all sha256 new_v7 ops x) as [[last|e] x'] eqn:Ea; destruct H as [-> ->]; [|done]. by exists x'.
Qed.

(** A write for the scope is turned away: it is drained here and a live replica is known. *)
Definition turned_away (env : Env) (st : @Store S) (scope : Scope) : bool :=
  negb (is_replicating st scope) && is_offloading st scope
  && existsb is_replica (peer_view scope (instant_now env (st_calls st)) st).

Lemma place_spec env sv scope :
  let (r, sv') := place_routed_write scope env sv in
  if turned_away env (sv_store sv) scope then r = Err (Some (mkApplyError (CauseDraining scope) None))
  else r = Ok tt /\ homed (sv_store sv') scope.
Proof.
  unfold place_routed_write, turned_away, mbind, HM_bind, asks.
  destruct (is_replicating (sv_store sv) scope) eqn:Er; cbn; [split; [done|by left]|].
  destruct (is_offloading (sv_store sv) scope) eqn:Eo; cbn.
  - change (peer_view scope (instant_now env (st_calls (sv_store sv))) (called (sv_store sv)))
      with (peer_view scope (instant_now env (st_calls (sv_store sv))) (sv_store sv)).
    destruct (existsb is_replica _); [done|]. split; [done|]. right. exact Eo.
  - destruct (start_offload_homed env sv scope Sink) as [Hh _]. unfold start_offload, mbind, HM_bind, hprim in *.
    by destruct (Store.offload scope (sv_store sv)) as [[|] st'].
Qed.

Lemma idle_handles_begin retention env st : st_replications (begin_local (S := S) retention env st).2 = st_replications st
  /\ st_offloads (begin_local (S := S) retention env st).2 = st_offloads st.
Proof. unfold begin_local. by repeat case_match. Qed.

Lemma homed_handles (st st' : @Store S) scope :
  st_replications st' = st_replications st -> st_offloads st' = st_offloads st -> homed st scope -> homed st' scope.
Proof. unfold homed, is_replicating, is_offloading. by intros -> ->. Qed.

(** A self-committing application once it is placed. *)
Lemma commit_case env sv retention ops me a sv' :
  apply_finish sha256 new_v7 tx_idle_timeout retention ops Commit me env sv = (Ok a, sv') ->
  (forall scope, homed (sv_store sv) scope -> homed (sv_store sv') scope)
  /\ exists t x, applied ops t sv (Ok (ar_last a)) x /\ forall scope, scope ∈ active_scopes (sx_tx x) -> homed (sv_store sv') scope.
Proof.
  intros Hrun.
  apply bind_run in Hrun as [(e & _ & [=])|(t & sv1 & E1 & Hrun)].
  apply bind_run in Hrun as [(e & _ & [=])|([o x] & sv2 & E2 & Hrun)].
  unfold apply_ops in E2. destruct (apply_all _ _ _ _) as [o' x'] eqn:Ea. injection E2 as -> -> <-. cbn [fst snd] in Hrun.
  destruct o as [last|e]; [|done]. apply bind_run in Hrun as [(e & _ & [=])|([] & sv3 & E3 & [= <- <-])].
  unfold hstore in E1. pose proof (idle_handles_begin retention env (sv_store sv)) as [Hr Ho].
  destruct (begin_local retention env (sv_store sv)) as [[t0|e] st1] eqn:Eb; [|done]. injection E1 as -> <-. cbn in Hr, Ho, Ea.
  apply finish_commit_spec in E3 as (_ & Hk & _ & _ & Hin). split.
  - intros scope Hs. apply Hk. cbn. by eapply homed_handles.
  - exists t, x. split; [exact Ea|exact Hin].
Qed.

(** No committed write is left without a node responsible for it.  A write routed to
    this node is turned away exactly when the scope is drained here while a
    live replica is known; when it is committed, this node afterwards
    replicates or drains the scope it was routed for, and every scope its
    operations wrote to. *)
Theorem committed_scopes_homed (env : Env) (sv sv' : Server) (scope : Scope) (retention : option Duration) (ops : list TxOp)
    (r : res (option ApplyError) ApplyResponse)
    (Hrun : apply_new sha256 new_v7 tx_idle_timeout (Routed scope) Write retention ops Commit env sv = (r, sv')) :
  (turned_away env (sv_store sv) scope = true -> r = Err (Some (mkApplyError (CauseDraining scope) None)))
  /\ (turned_away env (sv_store sv) scope = false ->
      forall a, r = Ok a -> homed (sv_store sv') scope
        /\ exists t x, applied ops t sv (Ok (ar_last a)) x
             /\ forall scope', scope' ∈ active_scopes (sx_tx x) -> homed (sv_store sv') scope').
Proof.
  unfold apply_new in Hrun. apply bind_run in Hrun as [(e & [=] & _)|([] & sv1 & [= <-] & Hrun)].
  pose proof (place_spec env sv scope) as Hp. pose proof (silent_place scope env sv) as (_ & _ & _ & Hm & _).
  destruct (place_routed_write scope env sv) as [o sv2] eqn:Ep. split; intros Ht; rewrite Ht in Hp.
  - subst o. unfold mbind, HM_bind in Hrun. rewrite Ep in Hrun. by injection Hrun as <- <-.
  - destruct Hp as [-> Hh]. intros a ->. apply bind_run in Hrun as [(e & _ & [=])|([] & sv3 & E & Hrun)].
    rewrite Ep in E. injection E as <-. apply bind_run in Hrun as [(e & [=] & _)|(me & sv4 & [= <- <-] & Hrun)].
    apply commit_case in Hrun as (Hk & t & x & Ha & Hin). split; [by apply Hk|]. exists t, x. split; [|done].
    unfold applied in *. cbn in Hm. by rewrite <- Hm.
Qed.
End ServerFacts.

(** ** Examples *)

Import Sample.

Definition sample_v7 (ts : Version) (n : nat) : bytes := be 8 ts ++ be 8 (Z.of_nat n).
Definition sample_server : @Server MapKv.store := mkServer (sample_store Sample.empty_store) [] 0 [].
Definition sample_ops : list TxOp :=
  [TbAppend Sample.scope (lit "t") None [x2a]; KeyPut Sample.scope (lit "a") [x01]; TbCount Sample.scope (lit "t")].
Definition sample_apply (finish : Finish) : HM (S := MapKv.store) ApplyResponse :=
  apply_new sample_sha sample_v7 (10 ^ 9) (Routed Sample.scope) Write None sample_ops finish.

Lemma application_atomic_witness :
  exists a sv', sample_apply Commit sample_env sample_server = (Ok a, sv')
    /\ outcome_of sample_sha sample_v7 (10 ^ 9) sample_env None sample_ops Commit sample_server sv' Sample.empty_store a.
Proof.
  assert (H : is_ok (sample_apply Commit sample_env sample_server).1 = true) by (vm_compute; reflexivity).
  destruct (sample_apply Commit sample_env sample_server) as [[a|e] sv'] eqn:E; [|discriminate H].
  exists a, sv'. split; [reflexivity|].
  exact (application_atomic sample_sha sample_v7 (10 ^ 9) sample_env sample_server sv' Sample.empty_store (Routed Sample.scope)
    Write None sample_ops Commit (Ok a) eq_refl (fun _ => eq_refl) (fun _ => eq_refl) E).
Defined.

Lemma committed_scopes_homed_witness :
  exists a sv', sample_apply Commit sample_env sample_server = (Ok a, sv') /\ homed (sv_store sv') Sample.scope.
Proof.
  assert (H : is_ok (sample_apply Commit sample_env sample_server).1 = true) by (vm_compute; reflexivity).
  destruct (sample_apply Commit sample_env sample_server) as [[a|e] sv'] eqn:E; [|discriminate H].
  exists a, sv'. split; [reflexivity|].
  destruct (committed_scopes_homed sample_sha sample_v7 (10 ^ 9) sample_env sample_server sv' Sample.scope None sample_ops
    (Ok a) E) as [_ H']. exact (proj1 (H' eq_refl a eq_refl)).
Defined.

(** The application as it runs: it answers with the count of the table, starts a drain of
    the scope, and announces the table and the keys. *)
Lemma application_runs :
  ar_last <$> (sample_apply Commit sample_env sample_server).1 = Ok (Some (RespCount 1))
  /\ sv_effects (sample_apply Commit sample_env sample_server).2
     = [Started Sample.scope Sink; Signalled Sample.scope SigNudge;
        Inserted Sample.scope (lit "t") 100; Inserted Sample.scope KEY_EVENTS 100].
Proof. vm_compute. split; reflexivity. Qed.
