(* ===== verification/Mailbox.v ===== *)
(** * Cell mailboxes

    [src/swarm/cell-mailbox]: commands to a cell are rows of a table of its
    scope, read in batches without removing them and handed out with the right
    to remove them; events are rows of a public table, read past a cursor.

    Reads are answered by whichever replica is found and applications by the
    node they are routed to, so the database is a record of answers by the
    number of the call.  Counters and gauges are left out, and so is what only
    they use; the waits between reads are where the loops return. *)

From S2P Require Import Prelude Bytes Skey SkeyRoundtrip SkeyOrder Keys Domain Kv Rows Tx Announce Store Apply Server.
From Stdlib Require Import ZArith Lia Strings.Byte.
From stdpp Require Import base list option strings sets.

Local Open Scope Z_scope.

(** ** Messages *)

Record SerializableSpanContext := mkSpanContext { sc_trace_id : bytes; sc_span_id : bytes; sc_trace_flags : Z }.
Record CellAttachment := mkAttachment { at_span_context : option SerializableSpanContext; at_sender : option Z }.
Record MailboxCommand := mkCommand { mc_cmd : str; mc_payload : option bytes; mc_attachment : CellAttachment }.
Record MailboxEvent := mkEvent { me_event : str; me_payload : bytes; me_attachment : CellAttachment }.
Inductive DeadLetterType := DlPayload (value : bytes) | DlCommand (command : MailboxCommand).
Record DeadLetter := mkDeadLetter { dl_reason : str; dl_ty : DeadLetterType }.

Definition MESSAGES_TABLE : str := lit "messages".
Definition EVENTS_TABLE : str := lit "events".
Definition DEADLETTER_TABLE : str := lit "errors".
Definition NAMESPACE_CELLS : str := lit "CELLS".

Definition scope_of_cell (sri : str) : Scope := mkScope NAMESPACE_CELLS sri (lit "p").
Definition scope_of_event (event : str) : Scope := mkScope NAMESPACE_CELLS (lit "@events") event.

Inductive mb_error := MbComm | MbDb | MbSerde.

(** ** What must not be handed out again *)

Abbreviation Id := bytes (only parsing).
Inductive Settlement := Consumed | Retry.
#[export] Instance Settlement_eq_dec : EqDecision Settlement. Proof. solve_decision. Defined.

Definition OUTSTANDING_TIMEOUT : Duration := 30 * 10 ^ 9.
Definition CONSUMED_MEMORY : Duration := 30 * 10 ^ 9.
Definition CONSUMED_CAPACITY : nat := 8192.
Definition SUPPRESSED_WINDOWS : nat := 4.
Definition COUNT_SAMPLE_EVERY : nat := 16.

Record Dispatched := mkDispatched {
  outstanding : list (Id * Instant);
  consumed : list (Id * Instant);
  consumed_ids : list Id;
}.

Definition suppresses (d : Dispatched) (id : Id) (now : Instant) : bool :=
  if bool_decide (id ∈ consumed_ids d) then true
  else match vm_get (outstanding d) id with
       | Some at_ => instant_since now at_ <? OUTSTANDING_TIMEOUT
       | None => false
       end.

Definition dispatch (d : Dispatched) (id : Id) (now : Instant) : Dispatched :=
  mkDispatched (vm_insert (outstanding d) id now) (consumed d) (consumed_ids d).

Definition settle (d : Dispatched) (id : Id) (settlement : Settlement) (now : Instant) : Dispatched :=
  let outstanding := vm_remove (outstanding d) id in
  if bool_decide (settlement = Consumed) && negb (bool_decide (id ∈ consumed_ids d))
  then mkDispatched outstanding (consumed d ++ [(id, now)]) (consumed_ids d ++ [id])
  else mkDispatched outstanding (consumed d) (consumed_ids d).

(** The loop over the front of the consumed ids. *)
Fixpoint prune_consumed (now : Instant) (l : list (Id * Instant)) (ids : list Id) : list (Id * Instant) * list Id :=
  match l with
  | [] => ([], ids)
  | (id, at_) :: rest =>
      if (length l <=? CONSUMED_CAPACITY)%nat && (instant_since now at_ <? CONSUMED_MEMORY) then (l, ids)
      else prune_consumed now rest (List.filter (fun x => negb (bool_decide (x = id))) ids)
  end.

Definition prune (d : Dispatched) (now : Instant) : Dispatched :=
  let outstanding := List.filter (fun e : Id * Instant => instant_since now e.2 <? OUTSTANDING_TIMEOUT) (outstanding d) in
  let '(c, ids) := prune_consumed now (consumed d) (consumed_ids d) in
  mkDispatched outstanding c ids.

(** ** The database and the clock, by the number of the call *)

Record Db := mkDb {
  db_peek : nat -> PeekRequest -> res mb_error PeekResponse;
  db_apply : nat -> Constraint -> list TxOp -> res mb_error unit;
  db_clock : nat -> Instant;
}.

(** ** Receiving commands *)

Record CommandStream := mkStream {
  cs_scope : Scope;
  cs_batch_size : nat;
  cs_queued : list (Id * MailboxCommand);
  cs_dispatched : Dispatched;
  cs_settled : list (Id * Settlement);
  cs_reads_since_count : nat;
  cs_last_batch : list Id;
  cs_calls : nat;
}.

Inductive Batch := Queued | Repeated | Empty.

Definition open_stream (sri : str) (batch_size : nat) : CommandStream :=
  mkStream (scope_of_cell sri) (Nat.max batch_size 1) [] (mkDispatched [] [] []) [] 0 [] 0.

Definition set_dispatched (st : CommandStream) (d : Dispatched) : CommandStream :=
  mkStream (cs_scope st) (cs_batch_size st) (cs_queued st) d (cs_settled st) (cs_reads_since_count st)
    (cs_last_batch st) (cs_calls st).
Definition push_queued (st : CommandStream) (c : Id * MailboxCommand) : CommandStream :=
  mkStream (cs_scope st) (cs_batch_size st) (cs_queued st ++ [c]) (cs_dispatched st) (cs_settled st)
    (cs_reads_since_count st) (cs_last_batch st) (cs_calls st).
Definition set_queued (st : CommandStream) (q : list (Id * MailboxCommand)) : CommandStream :=
  mkStream (cs_scope st) (cs_batch_size st) q (cs_dispatched st) (cs_settled st) (cs_reads_since_count st)
    (cs_last_batch st) (cs_calls st).
Definition set_settled (st : CommandStream) (l : list (Id * Settlement)) : CommandStream :=
  mkStream (cs_scope st) (cs_batch_size st) (cs_queued st) (cs_dispatched st) l (cs_reads_since_count st)
    (cs_last_batch st) (cs_calls st).
Definition set_reads (st : CommandStream) (n : nat) : CommandStream :=
  mkStream (cs_scope st) (cs_batch_size st) (cs_queued st) (cs_dispatched st) (cs_settled st) n (cs_last_batch st) (cs_calls st).
Definition set_last_batch (st : CommandStream) (l : list Id) : CommandStream :=
  mkStream (cs_scope st) (cs_batch_size st) (cs_queued st) (cs_dispatched st) (cs_settled st) (cs_reads_since_count st)
    l (cs_calls st).
Definition called_once (st : CommandStream) : CommandStream :=
  mkStream (cs_scope st) (cs_batch_size st) (cs_queued st) (cs_dispatched st) (cs_settled st) (cs_reads_since_count st)
    (cs_last_batch st) (Datatypes.S (cs_calls st)).

Section Mailbox.
Context `{Postcard MailboxCommand} `{Postcard DeadLetter} `{Postcard MailboxEvent}.
(** The text of the error for bytes that do not deserialise. *)
Context (serde_reason : bytes -> str) (db : Db).

(** [Instant::now] *)
Definition stream_now (st : CommandStream) : Instant * CommandStream := (db_clock db (cs_calls st), called_once st).

Definition take_settlements (st : CommandStream) : CommandStream :=
  let '(now, st) := stream_now st in
  let d := fold_left (fun d (e : Id * Settlement) => settle d e.1 e.2 now) (cs_settled st) (cs_dispatched st) in
  set_settled (set_dispatched st (prune d now)) [].

Definition read_head (cursor : option Cursor) (st : CommandStream) : res mb_error PeekResponse * CommandStream :=
  let sample_count := (cs_reads_since_count st =? 0)%nat in
  let st := set_reads st ((cs_reads_since_count st + 1) mod COUNT_SAMPLE_EVERY)%nat in
  (db_peek db (cs_calls st)
     (mkPeekRequest (cs_scope st) MESSAGES_TABLE cursor (Some (cs_batch_size st)) None sample_count), called_once st).

Definition dead_letter_ops (scope : Scope) (msg_id : Id) (encoded : bytes) : list TxOp :=
  [TbAppend scope DEADLETTER_TABLE (Some msg_id) encoded; TbDelete scope MESSAGES_TABLE msg_id].

Definition dead_letter (msg_id : Id) (value : bytes) (st : CommandStream) : res mb_error unit * CommandStream :=
  match to_allocvec (mkDeadLetter (serde_reason value) (DlPayload value)) with
  | None => (Err MbSerde, st)
  | Some encoded =>
      (db_apply db (cs_calls st) (Routed (cs_scope st)) (dead_letter_ops (cs_scope st) msg_id encoded), called_once st)
  end.

(** One window of the head; [queued] are the ids this read queued. *)
Fixpoint queue_window (entities : list (Id * bytes)) (now : Instant) (queued : list Id) (st : CommandStream)
  : list Id * CommandStream :=
  match entities with
  | [] => (queued, st)
  | (msg_id, value) :: entities =>
      if suppresses (cs_dispatched st) msg_id now then queue_window entities now queued st
      else
        match @from_bytes MailboxCommand _ value with
        | Some command =>
            queue_window entities now (if bool_decide (msg_id ∈ queued) then queued else queued ++ [msg_id])
              (push_queued (set_dispatched st (dispatch (cs_dispatched st) msg_id now)) (msg_id, command))
        | None =>
            let (r, st) := dead_letter msg_id value st in
            queue_window entities now queued
              (match r with
               | Ok _ => set_dispatched st (settle (cs_dispatched st) msg_id Consumed now)
               | Err _ => st
               end)
        end
  end.

(** The walk over the windows while all of a full one is suppressed. *)
Fixpoint poll_windows (windows : nat) (cursor : option Cursor) (now : Instant) (st : CommandStream)
  : res mb_error (list Id) * CommandStream :=
  match windows with
  | O => (Ok [], st)
  | Datatypes.S windows =>
      match read_head cursor st with
      | (Err e, st) => (Err e, st)
      | (Ok page, st) =>
          let entities := ps_entities page in
          let '(queued, st) := queue_window entities now [] st in
          if negb (bool_decide (queued = [])) || negb (length entities =? cs_batch_size st)%nat then (Ok queued, st)
          else match last entities with
               | None => (Ok queued, st)
               | Some e => poll_windows windows (Some (After e.1)) now st
               end
      end
  end.

Definition poll_batch (st : CommandStream) : res mb_error Batch * CommandStream :=
  let st := take_settlements st in
  let '(now, st) := stream_now st in
  match poll_windows (Datatypes.S SUPPRESSED_WINDOWS) None now st with
  | (Err e, st) => (Err e, st)
  | (Ok queued, st) =>
      let batch := match queued with
                   | [] => Empty
                   | _ => if existsb (fun id => negb (bool_decide (id ∈ cs_last_batch st))) queued then Queued else Repeated
                   end in
      (Ok batch, set_last_batch st queued)
  end.

(** One turn of [next]: a queued command, or a read and whether the loop then waits. *)
Inductive turn := Handed (c : Id * MailboxCommand) | Again | Waits.
Definition next_turn (st : CommandStream) : turn * CommandStream :=
  match cs_queued st with
  | c :: q => (Handed c, set_queued st q)
  | [] =>
      match poll_batch st with
      | (Ok Queued, st) => (Again, st)
      | (_, st) => (Waits, st)
      end
  end.

(** ** Receipts *)

Definition report (id : Id) (settlement : Settlement) (st : CommandStream) : CommandStream :=
  set_settled st (cs_settled st ++ [(id, settlement)]).
Definition consume_op (st : CommandStream) (id : Id) : TxOp := TbDelete (cs_scope st) MESSAGES_TABLE id.
Definition consume (id : Id) (st : CommandStream) : res mb_error unit * CommandStream :=
  match db_apply db (cs_calls st) (Routed (cs_scope st)) [consume_op st id] with
  | Err e => (Err e, called_once st)
  | Ok _ => (Ok tt, report id Consumed (called_once st))
  end.
End Mailbox.

(** ** Sending *)

Inductive MessageKind := KCommand (sri : str) (c : MailboxCommand) | KEvent (e : MailboxEvent).

Definition no_attachment : CellAttachment := mkAttachment None None.
Definition outgoing_command (sri command : str) (payload : option bytes) : MessageKind :=
  KCommand sri (mkCommand command payload no_attachment).
Definition outgoing_event (event : str) (payload : option bytes) : MessageKind :=
  KEvent (mkEvent event (default [] payload) no_attachment).

Definition attach (f : CellAttachment -> CellAttachment) (m : MessageKind) : MessageKind :=
  match m with
  | KCommand sri c => KCommand sri (mkCommand (mc_cmd c) (mc_payload c) (f (mc_attachment c)))
  | KEvent e => KEvent (mkEvent (me_event e) (me_payload e) (f (me_attachment e)))
  end.
Definition attach_sender (sender : option Z) : MessageKind -> MessageKind :=
  attach (fun a => mkAttachment (at_span_context a) sender).
Definition attach_span_context (span : option SerializableSpanContext) : MessageKind -> MessageKind :=
  attach (fun a => mkAttachment span (at_sender a)).

Section Sending.
Context `{Postcard MailboxCommand} `{Postcard MailboxEvent}.

Definition op_scope (m : MessageKind) : Scope :=
  match m with KCommand sri _ => scope_of_cell sri | KEvent e => scope_of_event (me_event e) end.

Definition into_op (m : MessageKind) : res mb_error TxOp :=
  match m with
  | KCommand sri c =>
      payload ← ok_or MbSerde (to_allocvec c); Ok (TbAppend (scope_of_cell sri) MESSAGES_TABLE None payload)
  | KEvent e =>
      payload ← ok_or MbSerde (to_allocvec e); Ok (TbAppend (scope_of_event (me_event e)) EVENTS_TABLE None payload)
  end.

(** The application a message sent on its own is. *)
Definition send_alone (m : MessageKind) : res mb_error (Constraint * list TxOp) :=
  op ← into_op m; Ok (Routed (op_scope m), [op]).
End Sending.

(** ** Events *)

Record EventStream := mkEventStream { es_event : str; es_scope : Scope; es_cursor : Cursor; es_calls : nat }.
Definition MAX_CONSECUTIVE_POLL_FAILURES : nat := 8.

Section Events.
Context `{Postcard MailboxEvent} (db : Db).

Definition event_count (st : EventStream) : res mb_error nat * EventStream :=
  let r := db_peek db (es_calls st) (mkPeekRequest (es_scope st) EVENTS_TABLE None (Some 0%nat) None true) in
  ((fun p => default 0%nat (ps_count p)) <$> r,
   mkEventStream (es_event st) (es_scope st) (es_cursor st) (Datatypes.S (es_calls st))).

Definition subscribe (event : str) : res mb_error EventStream :=
  let st := mkEventStream event (scope_of_event event) (Skip 0) 0 in
  let (r, st) := event_count st in
  count ← r; Ok (mkEventStream (es_event st) (es_scope st) (Skip count) (es_calls st)).

(** Past everything read, also past what does not deserialise. *)
Definition event_poll (batch_size : nat) (st : EventStream) : res mb_error (list MailboxEvent) * EventStream :=
  let calls := Datatypes.S (es_calls st) in
  match db_peek db (es_calls st)
          (mkPeekRequest (es_scope st) EVENTS_TABLE (Some (es_cursor st)) (Some batch_size) None false) with
  | Err e => (Err e, mkEventStream (es_event st) (es_scope st) (es_cursor st) calls)
  | Ok page =>
      let cursor := fold_left (fun _ (e : Id * bytes) => After e.1) (ps_entities page) (es_cursor st) in
      (Ok (omap (fun e : Id * bytes => @from_bytes MailboxEvent _ e.2) (ps_entities page)),
       mkEventStream (es_event st) (es_scope st) cursor calls)
  end.

(** One turn of [receive_batch], which goes on waiting with the failures in a row. *)
Inductive received := Events (events : list MailboxEvent) | Gone (e : mb_error) | Waiting (failures : nat).
Definition receive_turn (batch_size failures : nat) (st : EventStream) : received * EventStream :=
  match event_poll batch_size st with
  | (Ok (e :: events), st) => (Events (e :: events), st)
  | (Ok [], st) => (Waiting 0, st)
  | (Err e, st) =>
      if (MAX_CONSECUTIVE_POLL_FAILURES <=? failures + 1)%nat then (Gone e, st) else (Waiting (failures + 1), st)
  end.
End Events.
