(* ===== verification/MailboxFacts.v ===== *)
(** * Commands are not handed out twice

    A mailbox is read without removing anything, so a command being worked on
    is read again and again.  Shown here: it is not handed out a second time
    before its holder gave it back or the time to do so has passed. *)

From S2P Require Import Prelude Bytes Skey SkeyRoundtrip SkeyOrder Keys Domain Kv Rows Tx Announce Store Apply Server Mailbox.
From Stdlib Require Import ZArith Lia Strings.Byte.
From stdpp Require Import base list option strings sets.

Local Open Scope Z_scope.

(** ** Dispatched ids *)

(** Ids handed out and not settled are apart from those consumed, which are remembered in
    order; nothing is from the future. *)
Record dispatched_ok (now : Instant) (d : Dispatched) : Prop := {
  dok_keys : NoDup (map fst (outstanding d));
  dok_ids : map fst (consumed d) = consumed_ids d;
  dok_nodup : NoDup (consumed_ids d);
  dok_apart : forall id t, vm_get (outstanding d) id = Some t -> id ∉ consumed_ids d;
  dok_times : forall id t, vm_get (outstanding d) id = Some t -> t <= now;
}.

(** A hand-out at [t1] is remembered, unless its time has passed. *)
Definition tracked (now : Instant) (d : Dispatched) (id : Id) (t1 : Instant) : Prop :=
  (exists t, vm_get (outstanding d) id = Some t /\ t1 <= t)
  \/ (exists tc, (id, tc) ∈ consumed d /\ t1 <= tc)
  \/ t1 + OUTSTANDING_TIMEOUT <= now.

Lemma timeouts_agree : CONSUMED_MEMORY = OUTSTANDING_TIMEOUT. Proof. reflexivity. Qed.
Lemma timeout_pos : 0 < OUTSTANDING_TIMEOUT. Proof. done. Qed.

Lemma dispatched_ok_later now now' d : now <= now' -> dispatched_ok now d -> dispatched_ok now' d.
Proof. intros Hn [H0 H1 H2 H3 H4]. split; [done..|]. intros id t Ht. specialize (H4 id t Ht). lia. Qed.
Lemma tracked_later now now' d id t1 : now <= now' -> tracked now d id t1 -> tracked now' d id t1.
Proof. intros Hn [H|[H|H]]; [by left|right; by left|right; right; lia]. Qed.

(** What is tracked is suppressed, until its time has passed. *)
Lemma tracked_suppressed now d id t1 :
  dispatched_ok now d -> tracked now d id t1 -> suppresses d id now = false -> t1 + OUTSTANDING_TIMEOUT <= now.
Proof.
  intros [_ Hids _ _ _] [(t & Ht & Hle)|[(tc & Hin & Hle)|H]]; [..|done]; unfold suppresses, instant_since.
  - case_bool_decide; [done|]. rewrite Ht. intros ?%Z.ltb_ge. pose proof timeout_pos. lia.
  - rewrite bool_decide_eq_true_2; [done|]. rewrite <- Hids. by apply (list_elem_of_fmap_2 fst) in Hin.
Qed.

Lemma vm_get_removed {K A} `{EqDecision K} (m : list (K * A)) k : NoDup (map fst m) -> vm_get (vm_remove m k) k = None.
Proof. intros Hnd. apply vm_get_none. destruct (vm_remove_keys m k Hnd) as [_ H]. rewrite H. tauto. Qed.

Lemma vm_get_filter {K A} `{EqDecision K} (m : list (K * A)) (f : K * A -> bool) k a :
  NoDup (map fst m) -> vm_get (List.filter f m) k = Some a <-> vm_get m k = Some a /\ f (k, a) = true.
Proof.
  induction m as [|[k0 a0] m IH]; cbn [List.filter vm_get map fst]; [naive_solver|].
  intros [Hn Hnd]%NoDup_cons. destruct (f (k0, a0)) eqn:Ef; cbn [vm_get]; destruct (decide (k = k0)) as [->|Hne];
    rewrite ?IH by done; try naive_solver.
  apply vm_get_none in Hn. rewrite Hn. naive_solver congruence.
Qed.
Lemma filter_keys {K A} (m : list (K * A)) (f : K * A -> bool) : NoDup (map fst m) -> NoDup (map fst (List.filter f m)).
Proof.
  induction m as [|[k0 a0] m IH]; cbn; [done|]. intros [Hn Hnd]%NoDup_cons. destruct (f (k0, a0)); [|by auto]. cbn.
  apply NoDup_cons. split; [|by auto]. intros (e & He & Hin)%list_elem_of_fmap. apply Hn. subst k0.
  apply list_elem_of_In, filter_In in Hin as [Hin _]. by apply list_elem_of_In, (list_elem_of_fmap_2 fst) in Hin.
Qed.

(** *** Handing out *)

Lemma dispatch_ok now d id : dispatched_ok now d -> suppresses d id now = false ->
  dispatched_ok now (dispatch d id now) /\ tracked now (dispatch d id now) id now.
Proof.
  intros [H0 H1 H2 H3 H4] Hs. unfold suppresses in Hs. case_bool_decide as Hc; [done|]. split.
  - split; cbn; [by apply vm_insert_nodup|done|done|..]; intros id' t; rewrite vm_get_insert; case_decide; naive_solver lia.
  - left. exists now. cbn. by rewrite vm_get_insert, decide_True.
Qed.
Lemma dispatch_tracked now d id id' t1 : dispatched_ok now d -> t1 <= now -> tracked now d id' t1 -> tracked now (dispatch d id now) id' t1.
Proof.
  intros Hd Hle [(t & Ht & Hl)|[H|H]]; [|right; by left|right; by right]. left. cbn. rewrite vm_get_insert.
  case_decide; [by exists now|by exists t].
Qed.

(** *** Settling *)

Lemma settle_ok now d id s : dispatched_ok now d -> dispatched_ok now (settle d id s now).
Proof.
  intros [H0 H1 H2 H3 H4]. destruct (vm_remove_keys (outstanding d) id H0) as [Hk Hin].
  assert (Hsub : forall id' t, vm_get (vm_remove (outstanding d) id) id' = Some t -> vm_get (outstanding d) id' = Some t /\ id' <> id).
  { intros id' t Ht. destruct (decide (id' = id)) as [->|Hne]; [by rewrite vm_get_removed in Ht|]. by rewrite vm_get_remove_ne in Ht. }
  unfold settle. destruct (_ && _) eqn:E.
  - apply andb_true_iff in E as [_ E%negb_true_iff%bool_decide_eq_false]. split; cbn; [done|by rewrite map_app, H1|..].
    + apply NoDup_app. split_and!; [done|set_solver|apply NoDup_singleton].
    + intros id' t [Ht Hne]%Hsub. rewrite not_elem_of_app. split; [by eapply H3|]. by rewrite list_elem_of_singleton.
    + intros id' t [Ht _]%Hsub. eauto.
  - split; cbn; [done|done|done|..]; intros id' t [Ht _]%Hsub; eauto.
Qed.

Lemma settle_tracked now d id s id' t1 : dispatched_ok now d ->
  (id' = id -> s = Consumed) -> tracked now d id' t1 -> tracked now (settle d id s now) id' t1.
Proof.
  intros Hd Hs [(t & Ht & Hl)|[(tc & Hin & Hl)|H]]; [..|right; by right].
  - destruct (decide (id' = id)) as [->|Hne].
    + right; left. exists now. unfold settle. rewrite (Hs eq_refl), !bool_decide_eq_true_2 by done.
      rewrite bool_decide_eq_false_2 by (by eapply dok_apart). cbn. split; [set_solver|]. pose proof (dok_times _ _ Hd _ _ Ht). lia.
    + left. exists t. split; [|done]. unfold settle. destruct (_ && _); cbn; by rewrite vm_get_remove_ne.
  - right; left. exists tc. split; [|done]. unfold settle. destruct (_ && _); cbn; set_solver.
Qed.

(** *** Pruning *)

Lemma filter_fresh (id : Id) (ids : list Id) : id ∉ ids -> List.filter (fun x => negb (bool_decide (x = id))) ids = ids.
Proof.
  induction ids as [|x ids IH]; cbn; [done|]. intros [Hne Hn]%not_elem_of_cons. rewrite bool_decide_eq_false_2 by congruence. cbn. by rewrite IH.
Qed.

Lemma prune_consumed_spec now l : forall ids, map fst l = ids -> NoDup ids ->
  exists gone l', prune_consumed now l ids = (l', map fst l') /\ l = gone ++ l'
    /\ ((length l <= CONSUMED_CAPACITY)%nat -> Forall (fun e : Id * Instant => CONSUMED_MEMORY <= instant_since now e.2) gone).
Proof.
  induction l as [|[id t] l IH]; intros ids <- Hnd; [by exists [], []|]. cbn [prune_consumed].
  destruct (_ && _) eqn:E; [by exists [], ((id, t) :: l)|]. apply NoDup_cons in Hnd as [Hn Hnd].
  cbn [map fst List.filter]. rewrite bool_decide_eq_true_2 by done. cbn [negb]. rewrite filter_fresh by done.
  destruct (IH _ eq_refl Hnd) as (gone & l' & -> & -> & Hg). exists ((id, t) :: gone), l'. split; [done|]. split; [done|].
  intros Hlen. cbn [app length] in Hlen. apply Forall_cons_2; [|apply Hg; lia]. cbn [snd].
  apply andb_false_iff in E as [E%Nat.leb_gt|E%Z.ltb_ge]; [cbn [length] in E; lia|done].
Qed.

Lemma prune_ok now d : dispatched_ok now d -> dispatched_ok now (prune d now).
Proof.
  intros [H0 H1 H2 H3 H4]. unfold prune. destruct (prune_consumed_spec now (consumed d) _ H1 H2) as (gone & l' & -> & Hl & _).
  assert (Hsub : forall id, id ∈ map fst l' -> id ∈ consumed_ids d) by (intros id; rewrite <- H1, Hl, map_app; set_solver).
  split; cbn; [by apply filter_keys|done|..].
  - rewrite <- H1, Hl, map_app in H2. by apply NoDup_app in H2 as (_ & _ & ?).
  - intros id t [Ht _]%vm_get_filter; [|done]. intros Hin%Hsub. by eapply H3.
  - intros id t [Ht _]%vm_get_filter; [eauto|done].
Qed.

Lemma prune_tracked now d id t1 : dispatched_ok now d -> (length (consumed d) <= CONSUMED_CAPACITY)%nat ->
  tracked now d id t1 -> tracked now (prune d now) id t1.
Proof.
  intros [H0 H1 H2 H3 H4] Hcap. unfold prune. destruct (prune_consumed_spec now (consumed d) _ H1 H2) as (gone & l' & -> & Hl & Hg).
  specialize (Hg Hcap). pose proof timeout_pos. pose proof timeouts_agree. unfold tracked. cbn.
  intros [(t & Ht & Hle)|[(tc & Hin & Hle)|H']]; [..|right; by right].
  - destruct (instant_since now t <? OUTSTANDING_TIMEOUT) eqn:E; [left; exists t|right; right].
    + split; [|done]. by apply vm_get_filter.
    + apply Z.ltb_ge in E. unfold instant_since in E. lia.
  - rewrite Hl, elem_of_app in Hin. destruct Hin as [Hin|Hin]; [|right; left; by exists tc].
    right; right. rewrite Forall_forall in Hg. specialize (Hg _ Hin). cbn in Hg. unfold instant_since in Hg. lia.
Qed.

(** ** Reading *)

(** What a read does to the dispatched ids: it hands out ids that are not suppressed, and
    moves undecodable ones away. *)
Inductive evolve (now : Instant) : Dispatched -> list Id -> Dispatched -> Prop :=
  | evolve_refl d : evolve now d [] d
  | evolve_dispatch d id ids d' :
      suppresses d id now = false -> evolve now (dispatch d id now) ids d' -> evolve now d (id :: ids) d'
  | evolve_letter d id ids d' :
      suppresses d id now = false -> evolve now (settle d id Consumed now) ids d' -> evolve now d ids d'.

Lemma evolve_app now d1 ids1 d2 ids2 d3 : evolve now d1 ids1 d2 -> evolve now d2 ids2 d3 -> evolve now d1 (ids1 ++ ids2) d3.
Proof. induction 1; intros Hd; [done|..]; [by apply evolve_dispatch; auto|by eapply evolve_letter; eauto]. Qed.

Lemma evolve_ok now d ids d' : evolve now d ids d' -> dispatched_ok now d ->
  dispatched_ok now d' /\ forall id t1, t1 <= now -> tracked now d id t1 -> tracked now d' id t1.
Proof.
  induction 1 as [d|d id ids d' Hs _ IH|d id ids d' Hs _ IH]; intros Hd; [done|..].
  - destruct (dispatch_ok now d id Hd Hs) as [Hd1 _]. destruct (IH Hd1) as [H1 H2]. split; [done|].
    intros id' t1 Hle Ht. apply H2; [done|]. by apply dispatch_tracked.
  - destruct (IH (settle_ok now d id Consumed Hd)) as [H1 H2]. split; [done|].
    intros id' t1 Hle Ht. apply H2; [done|]. by apply settle_tracked.
Qed.

Lemma evolve_absent now d ids d' id : evolve now d ids d' -> dispatched_ok now d -> tracked now d id now -> id ∉ ids.
Proof.
  pose proof timeout_pos. induction 1 as [d|d id' ids d' Hs _ IH|d id' ids d' Hs _ IH]; intros Hd Ht; [set_solver|..].
  - apply not_elem_of_cons. split.
    + intros ->. pose proof (tracked_suppressed _ _ _ _ Hd Ht Hs). lia.
    + destruct (dispatch_ok now d id' Hd Hs) as [Hd1 _]. apply IH; [done|]. by apply dispatch_tracked.
  - apply IH; [by apply settle_ok|]. by apply settle_tracked.
Qed.

(** An id is handed out only when no hand-out of it is remembered any more. *)
Lemma evolve_elem now d ids1 id ids2 d' : evolve now d (ids1 ++ id :: ids2) d' -> dispatched_ok now d ->
  (forall t1, t1 <= now -> tracked now d id t1 -> t1 + OUTSTANDING_TIMEOUT <= now)
  /\ id ∉ ids2 /\ tracked now d' id now.
Proof.
  remember (ids1 ++ id :: ids2) as ids eqn:E. intros Hev. revert ids1 E.
  induction Hev as [d|d id' ids d' Hs Hev IH|d id' ids d' Hs _ IH]; intros ids1 E Hd; [by destruct ids1|..].
  - destruct (dispatch_ok now d id' Hd Hs) as [Hd1 Ht1]. destruct ids1 as [|x ids1]; cbn in E; injection E as -> ->.
    + split; [intros t1 _ Ht; by apply (tracked_suppressed now d id)|]. destruct (evolve_ok _ _ _ _ Hev Hd1) as [_ Hk].
      split; [by apply (evolve_absent _ _ _ _ _ Hev)|by apply Hk].
    + destruct (IH ids1 eq_refl Hd1) as (H1 & H2). split; [|done]. intros t1 Hle Ht. apply H1; [done|]. by apply dispatch_tracked.
  - destruct (IH ids1 E (settle_ok now d id' Consumed Hd)) as (H1 & H2). split; [|done].
    intros t1 Hle Ht. apply H1; [done|]. by apply settle_tracked.
Qed.

Section Stream.
Context {pcCommand : Postcard MailboxCommand} {pcLetter : Postcard DeadLetter}.
Context (serde_reason : bytes -> str) (db : Db).

(** The parts of a stream a read leaves as they are. *)
Definition same_settings (st st' : CommandStream) : Prop :=
  cs_scope st' = cs_scope st /\ cs_batch_size st' = cs_batch_size st /\ cs_settled st' = cs_settled st
  /\ (cs_calls st <= cs_calls st')%nat.

(** A read that queues [new]. *)
Definition reads_new (now : Instant) (st : CommandStream) (new : list (Id * MailboxCommand)) (st' : CommandStream) : Prop :=
  cs_queued st' = cs_queued st ++ new /\ same_settings st st'
  /\ evolve now (cs_dispatched st) (map fst new) (cs_dispatched st').

Lemma reads_new_refl now st : reads_new now st [] st.
Proof. split; [by rewrite app_nil_r|]. split; [by repeat split|constructor]. Qed.
Lemma reads_new_trans now st1 new1 st2 new2 st3 :
  reads_new now st1 new1 st2 -> reads_new now st2 new2 st3 -> reads_new now st1 (new1 ++ new2) st3.
Proof.
  intros (Q1 & (A1 & B1 & C1 & D1) & E1) (Q2 & (A2 & B2 & C2 & D2) & E2).
  split; [by rewrite Q2, Q1, app_assoc|]. split; [split_and!; (congruence || lia)|]. rewrite map_app. by eapply evolve_app.
Qed.

Lemma queue_window_new now entities : forall queued st queued' st',
  queue_window serde_reason db entities now queued st = (queued', st') ->
  exists new, reads_new now st new st'.
Proof.
  induction entities as [|[id value] entities IH]; intros queued st queued' st' H.
  { injection H as <- <-. eexists. apply reads_new_refl. }
  cbn [queue_window] in H. destruct (suppresses (cs_dispatched st) id now) eqn:Es; [by eapply IH|].
  destruct (from_bytes value) as [command|].
  - apply IH in H as (new & Hn). exists ((id, command) :: new). refine (reads_new_trans _ _ [(id, command)] _ _ _ _ Hn).
    split; [done|]. split; [by repeat split|]. cbn. by repeat constructor.
  - destruct (dead_letter serde_reason db id value st) as [r st1] eqn:Ed.
    assert (Hsame : cs_queued st1 = cs_queued st /\ same_settings st st1 /\ cs_dispatched st1 = cs_dispatched st).
    { unfold dead_letter in Ed. destruct (to_allocvec _); injection Ed as <- <-; repeat split; cbn; lia. }
    destruct Hsame as (Hq & Hset & Hd). apply IH in H as (new & Hn). exists new.
    refine (reads_new_trans _ _ [] _ _ _ _ Hn). unfold reads_new. rewrite app_nil_r.
    destruct r; cbn; rewrite Hd; (split; [done|]; split; [done|]); [|constructor]. eapply evolve_letter; [done|constructor].
Qed.

Lemma poll_windows_new now windows : forall cursor st r st',
  poll_windows serde_reason db windows cursor now st = (r, st') -> exists new, reads_new now st new st'.
Proof.
  induction windows as [|windows IH]; intros cursor st r st' H.
  { injection H as <- <-. eexists. apply reads_new_refl. }
  cbn [poll_windows] in H. unfold read_head in H. set (st1 := called_once _) in H.
  assert (H1 : reads_new now st [] st1).
  { split; [by rewrite app_nil_r|]. split; [repeat split; cbn; lia|constructor]. }
  destruct (db_peek db _ _) as [page|e]; [|injection H as <- <-; by eexists].
  destruct (queue_window serde_reason db (ps_entities page) now [] st1) as [queued st2] eqn:Eq.
  apply queue_window_new in Eq as (new & Hn). pose proof (reads_new_trans _ _ _ _ _ _ H1 Hn) as H2. cbn [app] in H2.
  destruct (_ || _); [injection H as <- <-; by eexists|]. destruct (last (ps_entities page)) as [e|]; [|injection H as <- <-; by eexists].
  apply IH in H as (new' & Hn'). eexists. exact (reads_new_trans _ _ _ _ _ _ H2 Hn').
Qed.

(** The ids after the reports were taken in, and whether more are remembered than may be. *)
Definition settled_ids (now : Instant) (st : CommandStream) : Dispatched :=
  fold_left (fun d (e : Id * Settlement) => settle d e.1 e.2 now) (cs_settled st) (cs_dispatched st).
Definition overflows (now : Instant) (st : CommandStream) : bool := (CONSUMED_CAPACITY <? length (consumed (settled_ids now st)))%nat.

Lemma poll_batch_new st r st' : poll_batch serde_reason db st = (r, st') ->
  let now1 := db_clock db (cs_calls st) in
  let now2 := db_clock db (Datatypes.S (cs_calls st)) in
  exists new, cs_queued st' = cs_queued st ++ new /\ cs_settled st' = [] /\ (Datatypes.S (cs_calls st) < cs_calls st')%nat
    /\ evolve now2 (prune (settled_ids now1 st) now1) (map fst new) (cs_dispatched st').
Proof.
  intros H now1 now2. unfold poll_batch, take_settlements, stream_now in H. cbn -[poll_windows SUPPRESSED_WINDOWS] in H.
  set (st1 := called_once _) in H.
  destruct (poll_windows serde_reason db (Datatypes.S SUPPRESSED_WINDOWS) None _ st1) as [o st2] eqn:E.
  apply poll_windows_new in E as (new & Hq & (_ & _ & Hs & Hc) & Hev). exists new.
  assert (cs_queued st' = cs_queued st2 /\ cs_settled st' = cs_settled st2 /\ cs_calls st' = cs_calls st2
    /\ cs_dispatched st' = cs_dispatched st2) as (-> & -> & -> & ->) by (destruct o; by injection H as <- <-).
  split; [exact Hq|]. split; [exact Hs|]. split; [cbn in Hc; lia|exact Hev].
Qed.

(** ** Runs

    What happens to a stream, in order: a command is queued at a time, its holder reports
    an outcome, and a read finds more consumed ids than it may remember. *)
Inductive occurrence := OQueued (id : Id) (at_ : Instant) | OReported (id : Id) (s : Settlement) | OOverflow.
#[local] Instance occurrence_eq_dec : EqDecision occurrence. Proof. solve_decision. Defined.

Definition overflow_of (st : CommandStream) : list occurrence :=
  if overflows (db_clock db (cs_calls st)) st then [OOverflow] else [].
Definition queued_of (st : CommandStream) (new : list (Id * MailboxCommand)) : list occurrence :=
  map (fun c => OQueued c.1 (db_clock db (Datatypes.S (cs_calls st)))) new.

Inductive runs (sri : str) (n : nat) : list occurrence -> CommandStream -> Prop :=
  | runs_open : runs sri n [] (open_stream sri n)
  | runs_poll tr st r st' new : runs sri n tr st -> poll_batch serde_reason db st = (r, st') ->
      cs_queued st' = cs_queued st ++ new -> runs sri n (tr ++ overflow_of st ++ queued_of st new) st'
  | runs_pop tr st c q : runs sri n tr st -> cs_queued st = c :: q -> runs sri n tr (set_queued st q)
  | runs_report tr st id s : runs sri n tr st -> runs sri n (tr ++ [OReported id s]) (report id s st)
  | runs_consume tr st id st' : runs sri n tr st -> consume db id st = (Ok tt, st') -> runs sri n (tr ++ [OReported id Consumed]) st'
  | runs_refused tr st id e st' : runs sri n tr st -> consume db id st = (Err e, st') -> runs sri n tr st'.

Lemma split_app {A} (l1 : list A) x l2 a b : l1 ++ x :: l2 = a ++ b ->
  (exists m, a = l1 ++ x :: m /\ l2 = m ++ b) \/ (exists m, b = m ++ x :: l2 /\ l1 = a ++ m).
Proof.
  revert l1. induction a as [|y a IH]; intros l1 E; [right; by exists l1|]. destruct l1 as [|z l1]; cbn in E; injection E as -> E.
  - left. exists a. by split.
  - destruct (IH _ E) as [(m & -> & ->)|(m & -> & ->)]; [left|right]; by exists m.
Qed.

Lemma queued_split st new m id t post : overflow_of st ++ queued_of st new = m ++ OQueued id t :: post ->
  t = db_clock db (Datatypes.S (cs_calls st))
  /\ exists new1 c new2, new = new1 ++ c :: new2 /\ c.1 = id /\ m = overflow_of st ++ queued_of st new1 /\ post = queued_of st new2.
Proof.
  intros E. symmetry in E. apply split_app in E as [(m' & E & _)|(m' & E & ->)].
  { exfalso. unfold overflow_of in E. destruct (overflows _ _); destruct m as [|? [|? ?]]; by simplify_eq/=. }
  unfold queued_of in E. apply fmap_app_inv in E as (new1 & new2' & -> & E & ->).
  destruct new2' as [|c new2]; [done|]. cbn in E. injection E as -> -> ->. split; [done|]. by exists new1, c, new2.
Qed.

(** Reports wait after every hand-out they can be about. *)
Definition reports_pending (tr : list occurrence) (st : CommandStream) : Prop :=
  exists pre post, tr = pre ++ post /\ (forall id t, OQueued id t ∉ post) /\ forall id s, (id, s) ∈ cs_settled st -> OReported id s ∈ post.
(** A hand-out that was not given back since is remembered. *)
Definition handouts_tracked (tr : list occurrence) (st : CommandStream) : Prop :=
  forall pre id t1 mid, tr = pre ++ OQueued id t1 :: mid -> OReported id Retry ∉ mid -> OOverflow ∉ mid ->
    t1 <= db_clock db (cs_calls st) /\ tracked (db_clock db (cs_calls st)) (cs_dispatched st) id t1.
Definition no_early (tr : list occurrence) : Prop :=
  forall pre id t1 mid t2 post, tr = pre ++ OQueued id t1 :: mid ++ OQueued id t2 :: post ->
    OReported id Retry ∈ mid \/ OOverflow ∈ mid \/ OUTSTANDING_TIMEOUT <= t2 - t1.

Lemma settled_ids_ok now tr st : dispatched_ok now (cs_dispatched st) -> dispatched_ok now (settled_ids now st)
  /\ forall pre id t1 mid, reports_pending tr st -> tr = pre ++ OQueued id t1 :: mid -> OReported id Retry ∉ mid ->
       tracked now (cs_dispatched st) id t1 -> tracked now (settled_ids now st) id t1.
Proof.
  intros Hd. assert (Hfold : forall l d, dispatched_ok now d ->
    dispatched_ok now (fold_left (fun d (e : Id * Settlement) => settle d e.1 e.2 now) l d)
    /\ forall id t1, (id, Retry) ∉ l -> tracked now d id t1 ->
         tracked now (fold_left (fun d (e : Id * Settlement) => settle d e.1 e.2 now) l d) id t1).
  { induction l as [|[id s] l IH]; intros d Hok; [done|]. cbn [fold_left fst snd].
    destruct (IH (settle d id s now) (settle_ok _ _ _ _ Hok)) as [H1 H2]. split; [done|].
    intros id' t1 [Hne Hn]%not_elem_of_cons Ht. apply H2; [done|]. apply settle_tracked; [done| |done].
    intros ->. destruct s; [done|]. by destruct Hne. }
  destruct (Hfold (cs_settled st) (cs_dispatched st) Hd) as [H1 H2]. split; [done|].
  intros pre id t1 mid (pre' & post & Htr & Hq & Hrep) Hsp Hn Ht. apply H2; [|done]. intros Hin%Hrep.
  rewrite Hsp in Htr. apply split_app in Htr as [(m & _ & ->)|(m & -> & _)]; [set_solver|]. eapply Hq. apply elem_of_app. right. by left.
Qed.

Definition run_inv (tr : list occurrence) (st : CommandStream) : Prop :=
  dispatched_ok (db_clock db (cs_calls st)) (cs_dispatched st)
  /\ reports_pending tr st /\ handouts_tracked tr st /\ no_early tr.

Section Monotone.
(** Time does not go back. *)
Context (Hclock : forall m n, (m <= n)%nat -> db_clock db m <= db_clock db n).

(** What a read starts from remembers what the stream did. *)
Lemma pruned_ok tr st : run_inv tr st ->
  let now1 := db_clock db (cs_calls st) in
  let d := prune (settled_ids now1 st) now1 in
  let now2 := db_clock db (Datatypes.S (cs_calls st)) in
  dispatched_ok now2 d
  /\ forall pre id t1 mid, tr = pre ++ OQueued id t1 :: mid -> OReported id Retry ∉ mid -> OOverflow ∉ mid ++ overflow_of st ->
       t1 <= now2 /\ tracked now2 d id t1.
Proof.
  intros (Hd & Hrep & Htr & _) now1 d now2. assert (Hle : now1 <= now2) by (apply Hclock; lia).
  destruct (settled_ids_ok now1 tr st Hd) as [Hs Hst].
  split; [by apply (dispatched_ok_later now1), prune_ok|].
  intros pre id t1 mid -> Hr [Ho Ho']%not_elem_of_app. destruct (Htr pre id t1 mid eq_refl Hr Ho) as [Hle1 Ht].
  split; [fold now1 in Hle1; lia|]. apply (tracked_later now1); [done|]. apply prune_tracked; [done| |by eapply Hst].
  unfold overflow_of in Ho'. fold now1 in Ho'. destruct (overflows now1 st) eqn:E; [set_solver|].
  by apply Nat.ltb_ge in E.
Qed.

Lemma poll_inv tr st r st' new : run_inv tr st -> poll_batch serde_reason db st = (r, st') -> cs_queued st' = cs_queued st ++ new ->
  run_inv (tr ++ overflow_of st ++ queued_of st new) st'.
Proof.
  intros Hinv Hp Hnew. destruct (poll_batch_new _ _ _ Hp) as (new' & Hnew' & Hset & Hcalls & Hev).
  assert (new' = new) as -> by (rewrite Hnew in Hnew'; by apply app_inv_head in Hnew').
  destruct (pruned_ok _ _ Hinv) as [Hd Ht]. destruct Hinv as (_ & _ & _ & Hearly).
  set (now2 := db_clock db (Datatypes.S (cs_calls st))) in *. set (d := prune _ _) in *.
  destruct (evolve_ok _ _ _ _ Hev Hd) as [Hd' Hk].
  assert (Hle : now2 <= db_clock db (cs_calls st')) by (apply Hclock; lia).
  split; [by eapply dispatched_ok_later|]. split; [|split].
  - exists (tr ++ overflow_of st ++ queued_of st new), []. split; [by rewrite app_nil_r|]. split; [set_solver|]. rewrite Hset. set_solver.
  - intros pre id t1 mid E Hr Ho. symmetry in E. apply split_app in E as [(m & Etr & ->)|(m & E & ->)].
    + apply not_elem_of_app in Hr as [Hr _]. rewrite app_assoc in Ho. apply not_elem_of_app in Ho as [Ho _].
      destruct (Ht _ _ _ _ Etr Hr Ho) as [H1 H2]. split; [lia|]. eapply tracked_later; [exact Hle|]. by apply Hk.
    + apply queued_split in E as (-> & new1 & c & new2 & -> & <- & -> & ->). fold now2. split; [lia|].
      rewrite map_app in Hev. cbn in Hev. eapply tracked_later; [exact Hle|]. by apply (evolve_elem _ _ _ _ _ _ Hev Hd).
  - intros pre id t1 mid t2 post E. change (pre ++ OQueued id t1 :: mid ++ OQueued id t2 :: post) with (pre ++ (OQueued id t1 :: mid) ++ OQueued id t2 :: post) in E.
    rewrite (app_assoc pre) in E. symmetry in E. apply split_app in E as [(m & Etr & _)|(m & E & Epre)].
    { apply (Hearly pre id t1 mid t2 m). by rewrite Etr, <- app_assoc. }
    apply queued_split in E as (-> & new1 & c & new2 & -> & <- & -> & ->). fold now2.
    apply split_app in Epre as [(m & Etr & ->)|(m & E & _)].
    + destruct (decide (OReported c.1 Retry ∈ m ++ overflow_of st ++ queued_of st new1)) as [|Hr]; [by left|].
      destruct (decide (OOverflow ∈ m ++ overflow_of st ++ queued_of st new1)) as [|Ho]; [right; by left|]. right; right.
      apply not_elem_of_app in Hr as [Hr _]. rewrite app_assoc in Ho. apply not_elem_of_app in Ho as [Ho _].
      destruct (Ht _ _ _ _ Etr Hr Ho) as [Hle1 Ht1]. rewrite map_app in Hev. cbn [map] in Hev.
      destruct (evolve_elem _ _ _ _ _ _ Hev Hd) as (H1 & _). specialize (H1 _ Hle1 Ht1). lia.
    + exfalso. apply queued_split in E as (_ & newa & c' & newb & -> & Hc & _ & _).
      rewrite !map_app in Hev. cbn [map] in Hev. rewrite <- app_assoc, Hc in Hev.
      destruct (evolve_elem _ _ _ _ _ _ Hev Hd) as (_ & Hn & _). apply Hn, elem_of_app. right. by left.
Qed.

(** A call in between, and a report. *)
Lemma called_inv tr st : run_inv tr st -> run_inv tr (called_once st).
Proof.
  intros (Hd & Hr & Ht & He). assert (Hle : db_clock db (cs_calls st) <= db_clock db (Datatypes.S (cs_calls st))) by (apply Hclock; lia).
  split; [by eapply dispatched_ok_later|]. split; [exact Hr|]. split; [|done].
  intros pre id t1 mid E H1 H2. destruct (Ht _ _ _ _ E H1 H2) as [H3 H4]. split; [cbn; lia|]. by eapply tracked_later.
Qed.

Lemma report_inv tr st id s : run_inv tr st -> run_inv (tr ++ [OReported id s]) (report id s st).
Proof.
  intros (Hd & (pre & post & -> & Hq & Hr) & Ht & He).
  assert (Hsplit : forall l1 id' t' l2, l1 ++ OQueued id' t' :: l2 = (pre ++ post) ++ [OReported id s] ->
    exists m, pre ++ post = l1 ++ OQueued id' t' :: m /\ l2 = m ++ [OReported id s]).
  { intros l1 id' t' l2 [?|(m & E & _)]%split_app; [done|]. by destruct m as [|? [|? ?]]; simplify_eq/=. }
  split; [done|]. split; [|split].
  - exists pre, (post ++ [OReported id s]). split; [by rewrite app_assoc|]. split; [set_solver|]. cbn. set_solver.
  - intros l1 id' t1 l2 E H1 H2. symmetry in E. destruct (Hsplit _ _ _ _ E) as (m & E' & ->). apply (Ht _ _ _ _ E'); set_solver.
  - intros l1 id' t1 mid t2 l2 E. symmetry in E. rewrite app_comm_cons, app_assoc in E.
    destruct (Hsplit _ _ _ _ E) as (m & E' & _). apply (He l1 id' t1 mid t2 m). by rewrite E', <- app_assoc.
Qed.

Lemma runs_inv sri n tr st : runs sri n tr st -> run_inv tr st.
Proof.
  induction 1 as [|tr st r st' new _ IH Hp Hn|tr st c q _ IH Hq|tr st id s _ IH|tr st id st' _ IH Hc|tr st id e st' _ IH Hc].
  - split; [split; cbn; try constructor; by intros|]. split; [by exists [], []; set_solver|]. split.
    + intros [|? ?] id t1 mid E; discriminate E.
    + intros [|? ?] id t1 mid t2 post E; discriminate E.
  - by eapply poll_inv.
  - exact IH.
  - by apply report_inv.
  - unfold consume in Hc. destruct (db_apply _ _ _ _); simplify_eq/=. by apply (report_inv _ (called_once st)), called_inv.
  - unfold consume in Hc. destruct (db_apply _ _ _ _); simplify_eq/=. by apply called_inv.
Qed.

(** C29. No command is handed out twice while its holder works on it.  In every run of a
    stream, whatever the reads are answered and whatever is reported, a
    command that is queued a second time was given back by its holder in
    between, or its first hand-out is at least thirty seconds old, or more
    ids were consumed in between than the stream remembers. *)
Theorem no_early_redelivery (sri : str) (n : nat) (tr : list occurrence) (st : CommandStream)
    (Hrun : runs sri n tr st) (pre mid post : list occurrence) (id : Id) (t1 t2 : Instant)
    (Htr : tr = pre ++ OQueued id t1 :: mid ++ OQueued id t2 :: post) :
  OReported id Retry ∈ mid \/ OOverflow ∈ mid \/ OUTSTANDING_TIMEOUT <= t2 - t1.
Proof. destruct (runs_inv _ _ _ _ Hrun) as (_ & _ & _ & He). by apply (He pre id t1 mid t2 post). Qed.
End Monotone.
End Stream.

(** ** Examples

    Commands without a payload, serialised as their name after a mark; everything else
    does not deserialise. *)
Module MailboxSample.
Definition plain (c : MailboxCommand) : bool :=
  match c with mkCommand _ None (mkAttachment None None) => true | _ => false end.
#[export] Instance postcard_command : Postcard MailboxCommand := {|
  to_allocvec c := if plain c then Some (x2a :: mc_cmd c) else None;
  from_bytes b := match b with x2a :: cmd => Some (mkCommand cmd None no_attachment) | _ => None end;
|}.
#[export] Instance postcard_command_laws : PostcardLaws MailboxCommand.
Proof. split. intros [cmd [payload|] [[span|] [sender|]]] b; cbn; try done. by intros [= <-]. Qed.
#[export] Instance postcard_letter : Postcard DeadLetter := {| to_allocvec l := Some (dl_reason l); from_bytes _ := None |}.
#[export] Instance postcard_event : Postcard MailboxEvent := {|
  to_allocvec e := Some (x2a :: me_event e);
  from_bytes b := match b with x2a :: e => Some (mkEvent e [] no_attachment) | _ => None end;
|}.
Definition reason (b : bytes) : str := lit "undecodable".
Definition hello : MailboxCommand := mkCommand (lit "hello") None no_attachment.

(** A mailbox that always shows one command, and a clock that ticks by the second. *)
Definition one_command : Db :=
  mkDb (fun _ _ => Ok (mkPeekResponse [([x01], x2a :: lit "hello")] None)) (fun _ _ _ => Ok tt) (fun n => Z.of_nat n * 10 ^ 9).
End MailboxSample.

Import MailboxSample.

Lemma no_early_redelivery_witness :
  exists tr st, runs reason one_command (lit "cell") 1 tr st
    /\ (OReported [x01] Retry ∈ [OReported [x01] Retry] \/ OOverflow ∈ [OReported [x01] Retry] \/ OUTSTANDING_TIMEOUT <= 4 * 10 ^ 9 - 1 * 10 ^ 9).
Proof.
  set (st0 := open_stream (lit "cell") 1). set (st1 := (poll_batch reason one_command st0).2).
  set (st2 := report [x01] Retry st1). set (st3 := (poll_batch reason one_command st2).2).
  assert (H : runs reason one_command (lit "cell") 1
    ([OQueued [x01] (1 * 10 ^ 9)] ++ [OReported [x01] Retry] ++ [OQueued [x01] (4 * 10 ^ 9)]) st3).
  { apply (runs_poll reason one_command (lit "cell") 1 ([OQueued [x01] (1 * 10 ^ 9)] ++ [OReported [x01] Retry]) st2
      (poll_batch reason one_command st2).1 st3 [([x01], hello)]).
    - apply runs_report. apply (runs_poll reason one_command (lit "cell") 1 [] st0 (poll_batch reason one_command st0).1 st1 [([x01], hello)]);
        [constructor|vm_compute; reflexivity|vm_compute; reflexivity].
    - vm_compute. reflexivity.
    - vm_compute. reflexivity. }
  exists ([OQueued [x01] (1 * 10 ^ 9)] ++ [OReported [x01] Retry] ++ [OQueued [x01] (4 * 10 ^ 9)]), st3. split; [exact H|].
  apply (no_early_redelivery reason one_command ltac:(intros; cbn; lia) (lit "cell") 1 _ st3 H [] _ []). reflexivity.
Defined.
