(* ===== verification/MailboxRead.v ===== *)
(** * What a read of a mailbox hands out

    A read is answered by a server from the rows of the mailbox table.  It
    hands out, in order, the commands at the head of the table that are not
    being worked on, and finds one within the windows it may look at if there
    is one. *)

From S2P Require Import Prelude Bytes Skey SkeyRoundtrip SkeyOrder Keys KeyScan Domain Kv Rows RowsFacts Scans Tx Sample TxKeys TxInv TxReads TxScans TxListings.
From S2P Require Import Announce Store StoreGc Apply Server ServerFacts Mailbox MailboxFacts.
From Stdlib Require Import ZArith Lia Strings.Byte Sorting.Sorted.
From stdpp Require Import base list option strings sets.

Local Open Scope Z_scope.

(** ** One window *)

Lemma suppresses_dispatch d id id' now : id' <> id -> suppresses (dispatch d id now) id' now = suppresses d id' now.
Proof. intros Hne. unfold suppresses. cbn. by rewrite vm_get_insert, decide_False. Qed.
Lemma suppresses_settle d id id' now s : id' <> id -> suppresses (settle d id s now) id' now = suppresses d id' now.
Proof.
  intros Hne. unfold suppresses, settle. destruct (_ && _); cbn; rewrite vm_get_remove_ne by done; [|done].
  by rewrite (bool_decide_ext (id' ∈ consumed_ids d ++ [id]) (id' ∈ consumed_ids d)) by set_solver.
Qed.

Section Reading.
Context {pcCommand : Postcard MailboxCommand} {pcLetter : Postcard DeadLetter}.
Context (serde_reason : bytes -> str) (db : Db).

(** The rows that can be handed out, as commands. *)
Definition deliverable (d : Dispatched) (now : Instant) (rows : list (Id * bytes)) : list (Id * MailboxCommand) :=
  omap (fun e : Id * bytes => if suppresses d e.1 now then None else pair e.1 <$> from_bytes e.2) rows.

Lemma deliverable_ext d d' now rows : (forall id, id ∈ map fst rows -> suppresses d' id now = suppresses d id now) ->
  deliverable d' now rows = deliverable d now rows.
Proof.
  induction rows as [|[id v] rows IH]; cbn; [done|]. intros H. rewrite H by (by left).
  unfold deliverable in IH. rewrite IH; [done|]. intros id' Hin. apply H. by right.
Qed.
Lemma deliverable_app d now rows1 rows2 : deliverable d now (rows1 ++ rows2) = deliverable d now rows1 ++ deliverable d now rows2.
Proof. apply omap_app. Qed.

Lemma dead_letter_same id value st r st' : dead_letter serde_reason db id value st = (r, st') ->
  cs_queued st' = cs_queued st /\ cs_dispatched st' = cs_dispatched st /\ cs_batch_size st' = cs_batch_size st /\ cs_scope st' = cs_scope st.
Proof. unfold dead_letter. destruct (to_allocvec _); intros [= <- <-]; done. Qed.

Lemma queue_window_exact now entities : forall queued st, NoDup (map fst entities) ->
  (forall id, id ∈ map fst entities -> id ∉ queued) ->
  let '(queued', st') := queue_window serde_reason db entities now queued st in
  let new := deliverable (cs_dispatched st) now entities in
  queued' = queued ++ map fst new /\ cs_queued st' = cs_queued st ++ new
  /\ cs_batch_size st' = cs_batch_size st /\ cs_scope st' = cs_scope st
  /\ forall id, id ∉ map fst entities -> suppresses (cs_dispatched st') id now = suppresses (cs_dispatched st) id now.
Proof.
  induction entities as [|[id value] entities IH]; intros queued st Hnd Hq; cbn [queue_window].
  { cbn. by rewrite !app_nil_r. }
  apply NoDup_cons in Hnd as [Hn Hnd]. unfold deliverable. cbn [omap list_omap fst snd].
  assert (Hq' : forall id', id' ∈ map fst entities -> id' ∉ queued) by (intros id' Hin; apply Hq; by right).
  assert (Hne : forall id', id' ∈ map fst entities -> id' <> id) by (intros id' Hin ->; done).
  destruct (suppresses (cs_dispatched st) id now) eqn:Es.
  { specialize (IH queued st Hnd Hq'). destruct (queue_window _ _ _ _ _ _). destruct IH as (H1 & H2 & H3 & H4 & H5).
    split_and!; [done..|]. intros id' [_ Hn']%not_elem_of_cons. by apply H5. }
  destruct (from_bytes value) as [command|]; cbn [fmap option_fmap option_map].
  - rewrite bool_decide_eq_false_2 by (apply Hq; by left). set (st1 := push_queued _ _).
    assert (Hq1 : forall id', id' ∈ map fst entities -> id' ∉ queued ++ [id]).
    { intros id' Hin. rewrite not_elem_of_app, list_elem_of_singleton. split; [by apply Hq'|by apply Hne]. }
    specialize (IH (queued ++ [id]) st1 Hnd Hq1). destruct (queue_window _ _ _ _ _ _). destruct IH as (H1 & H2 & H3 & H4 & H5).
    rewrite (deliverable_ext (cs_dispatched st)) in H1, H2 by (intros id' Hin; apply suppresses_dispatch; by apply Hne).
    split_and!; [by rewrite H1, <- app_assoc|rewrite H2; cbn [st1 cs_queued push_queued set_dispatched]; by rewrite <- app_assoc|done|done|].
    intros id' [Hne' Hn']%not_elem_of_cons. rewrite H5 by done. by apply suppresses_dispatch.
  - destruct (dead_letter serde_reason db id value st) as [r st1] eqn:Ed. apply dead_letter_same in Ed as (Eq & Ed & Eb & Esc).
    set (st2 := match r with Ok _ => _ | Err _ => _ end).
    assert (Hs : forall id', id' <> id -> suppresses (cs_dispatched st2) id' now = suppresses (cs_dispatched st) id' now).
    { intros id' Hne'. unfold st2. destruct r; cbn; rewrite Ed; [by apply suppresses_settle|done]. }
    assert (cs_queued st2 = cs_queued st /\ cs_batch_size st2 = cs_batch_size st /\ cs_scope st2 = cs_scope st) as (Eq2 & Eb2 & Es2)
      by (unfold st2; by destruct r).
    specialize (IH queued st2 Hnd Hq'). destruct (queue_window _ _ _ _ _ _). destruct IH as (H1 & H2 & H3 & H4 & H5).
    rewrite (deliverable_ext (cs_dispatched st)) in H1, H2 by (intros id' Hin; by apply Hs, Hne).
    split_and!; [done|by rewrite H2, Eq2|congruence|congruence|].
    intros id' [Hne' Hn']%not_elem_of_cons. rewrite H5 by done. by apply Hs.
Qed.

(** ** The walk over the windows *)

(** The database answers reads of the mailbox from these rows. *)
Definition answers_from (scope : Scope) (rows : list (Id * bytes)) : Prop :=
  forall n cursor lim count, cursor_valid cursor ->
    exists total, db_peek db n (mkPeekRequest scope MESSAGES_TABLE cursor (Some lim) None count)
      = Ok (mkPeekResponse (page rows cursor (Some lim) KeyAsc) total).

(** The rows past a cursor. *)
Definition past (rows : list (Id * bytes)) (cursor : option Cursor) (rest : list (Id * bytes)) : Prop :=
  cursor_valid cursor /\ forall lim, page rows cursor (Some lim) KeyAsc = take lim rest.

Lemma past_next rows pre e rest :
  StronglySorted (fun a b => shortlex a.1 b.1 = Lt) rows -> Forall (fun r => id_valid r.1) rows ->
  rows = pre ++ e :: rest -> past rows (Some (After e.1)) rest.
Proof.
  intros Hs Hv E. split.
  - rewrite E in Hv. apply Forall_app in Hv as [_ Hv]. by apply Forall_cons_1 in Hv as [? _].
  - intros lim. unfold page. f_equal. rewrite E.
    apply (filter_past (fun a b : Id * bytes => id_before a.1 b.1)); [intros a b; apply id_before_asym|].
    rewrite <- E. eapply sorted_weaken; [|exact Hs]. intros a b. unfold id_before. by intros ->.
Qed.

Lemma sorted_ids rows : StronglySorted (fun a b : Id * bytes => shortlex a.1 b.1 = Lt) rows -> NoDup (map fst rows).
Proof.
  induction 1 as [|a rows _ IH Hall]; [constructor|]. cbn. apply NoDup_cons. split; [|done].
  intros (b & Eb & Hin)%list_elem_of_fmap. rewrite Forall_forall in Hall. specialize (Hall b Hin). rewrite Eb in Hall.
  pose proof (shortlex_antisym b.1 b.1). rewrite Hall in *. done.
Qed.

(** One read, and the window it queues. *)
Lemma read_window rows now cursor pre rest st :
  NoDup (map fst rows) -> answers_from (cs_scope st) rows -> rows = pre ++ rest -> past rows cursor rest ->
  let w := take (cs_batch_size st) rest in
  let new := deliverable (cs_dispatched st) now w in
  exists total st1 st2, read_head db cursor st = (Ok (mkPeekResponse w total), st1)
    /\ queue_window serde_reason db w now [] st1 = (map fst new, st2)
    /\ cs_queued st2 = cs_queued st ++ new /\ cs_batch_size st2 = cs_batch_size st /\ cs_scope st2 = cs_scope st
    /\ forall id, id ∈ map fst (drop (cs_batch_size st) rest) -> suppresses (cs_dispatched st2) id now = suppresses (cs_dispatched st) id now.
Proof.
  intros Hnd Hdb Erows [Hcv Hpast] w new.
  destruct (Hdb (cs_calls st) cursor (cs_batch_size st) (cs_reads_since_count st =? 0)%nat Hcv) as (total & Hpk).
  rewrite Hpast in Hpk. fold w in Hpk. set (st1 := called_once (set_reads st ((cs_reads_since_count st + 1) mod COUNT_SAMPLE_EVERY))).
  assert (Hsplit : NoDup (map fst (w ++ drop (cs_batch_size st) rest))).
  { unfold w. rewrite take_drop. rewrite Erows, map_app in Hnd. by apply NoDup_app in Hnd as (_ & _ & ?). }
  rewrite map_app in Hsplit. apply NoDup_app in Hsplit as (Hndw & Hdisj & _).
  pose proof (queue_window_exact now w [] st1 Hndw ltac:(set_solver)) as Hq. destruct (queue_window _ _ w now [] st1) as [queued st2] eqn:Ew.
  cbn zeta in Hq. destruct Hq as (-> & Hqq & Hqb & Hqs & Hsup).
  exists total, st1, st2. split; [unfold read_head; f_equal; exact Hpk|]. split_and!; [done..|].
  intros id Hin. apply Hsup. intros Hw. by apply (Hdisj id).
Qed.

Lemma poll_windows_exact rows now :
  StronglySorted (fun a b => shortlex a.1 b.1 = Lt) rows -> Forall (fun r => id_valid r.1) rows ->
  forall windows cursor pre rest st, (0 < cs_batch_size st)%nat -> answers_from (cs_scope st) rows ->
  rows = pre ++ rest -> past rows cursor rest ->
  let d := cs_dispatched st in
  exists new more st', poll_windows serde_reason db windows cursor now st = (Ok (map fst new), st')
    /\ cs_queued st' = cs_queued st ++ new /\ deliverable d now rest = new ++ more
    /\ (deliverable d now (take (windows * cs_batch_size st) rest) <> [] -> new <> [])
    /\ (windows <> O -> deliverable d now (take (cs_batch_size st) rest) <> [] -> new = deliverable d now (take (cs_batch_size st) rest)).
Proof.
  intros Hs Hv. pose proof (sorted_ids rows Hs) as Hnd.
  induction windows as [|windows IH]; intros cursor pre rest st Hb Hdb Erows Hpast d.
  { exists [], (deliverable d now rest), st. cbn. rewrite app_nil_r. split_and!; by try intros []. }
  cbn [poll_windows]. destruct (read_window rows now cursor pre rest st Hnd Hdb Erows Hpast) as (total & st1 & st2 & -> & Hq & Hqq & Hqb & Hqs & Hsup).
  set (w := take (cs_batch_size st) rest) in *. cbn [ps_entities]. rewrite Hq, Hqb.
  assert (Hsplit : rest = w ++ drop (cs_batch_size st) rest) by (unfold w; by rewrite take_drop).
  fold d in Hq, Hqq, Hsup |- *.
  set (neww := deliverable d now w) in *. set (rest' := drop (cs_batch_size st) rest) in *.
  assert (Hdel : deliverable d now rest = neww ++ deliverable d now rest') by (rewrite Hsplit at 1; apply deliverable_app).
  destruct (decide (neww = [])) as [Enil|Hne].
  2: { rewrite bool_decide_eq_false_2 by (intros ->%fmap_nil_inv; done). cbn. exists neww, (deliverable d now rest'), st2. by split_and!. }
  rewrite Enil in *. rewrite bool_decide_eq_true_2 by done. rewrite app_nil_r in Hqq. cbn [negb orb map].
  destruct (length w =? cs_batch_size st)%nat eqn:El; cbn [negb].
  2: { exists [], [], st2. assert (Er : rest' = []).
       { apply Nat.eqb_neq in El. unfold w in El. rewrite length_take in El. apply drop_ge. lia. }
       rewrite Er in Hdel. split_and!; [done|by rewrite app_nil_r|done| |by intros _ []].
       intros H. destruct H. rewrite Er, app_nil_r in Hsplit. rewrite take_ge; [done|].
       apply Nat.eqb_neq in El. unfold w in El. rewrite length_take in El. lia. }
  apply Nat.eqb_eq in El. destruct (last w) as [e|] eqn:Elast; [|apply last_None in Elast; rewrite Elast in El; cbn in El; lia].
  destruct (take_last_split _ _ _ Elast) as (prew & _ & _ & Ew & _). fold w in Ew.
  assert (Hp' : past rows (Some (After e.1)) rest').
  { apply (past_next rows (pre ++ prew) e rest'); [done|done|]. rewrite Erows, Hsplit, Ew. by rewrite <- !app_assoc. }
  assert (Hext : forall l, (forall id, id ∈ map fst l -> id ∈ map fst rest') -> deliverable (cs_dispatched st2) now l = deliverable d now l).
  { intros l Hl. apply deliverable_ext. intros id Hin. by apply Hsup, Hl. }
  destruct (IH (Some (After e.1)) (pre ++ w) rest' st2) as (new & more & st' & Hrun & Hq' & Hd' & Hprog & _);
    [lia|by rewrite Hqs|by rewrite Erows, Hsplit, <- app_assoc|done|].
  rewrite Hext in Hd', Hprog by (try done; intros id; rewrite <- (take_drop (windows * cs_batch_size st2) rest') at 2; rewrite map_app; set_solver).
  exists new, more, st'. split_and!; [done|by rewrite Hq', Hqq|by rewrite Hdel, Hd'| |by intros _ []].
  intros H. apply Hprog. rewrite Hqb. intros H0. apply H.
  replace (Datatypes.S windows * cs_batch_size st)%nat with (length w + windows * cs_batch_size st)%nat by lia.
  rewrite Hsplit, take_app_add. rewrite deliverable_app. fold neww. by rewrite Enil, H0.
Qed.

(** ** Reads answered by a server *)

Section Served.
Context {S : Type} {kvS : Kv S} {kvLaws : KvLaws S} {pcMeta : Postcard SyncMeta} {pcMetaLaws : PostcardLaws SyncMeta}
  {pcBody : Postcard MeasurementBody}.

(** The node that answers reads. *)
Definition served_by (env : Env) (sv : @Server S) : Prop := forall n req,
  db_peek db n req = match (peek_table req env sv).1 with Ok page => Ok page | Err _ => Err MbDb end.

(** A read of a table in a snapshot. *)
Lemma peek_rows env (sv : Server) s scope table p : env_ok env -> env_accepts env ->
  st_backend (sv_store sv) = Some s -> store_ok s -> table_valid (mkTable scope table) -> encode (mkTable scope table) = Ok p ->
  exists rows, table_rows s p rows /\ Forall (fun r => id_valid r.1) rows
    /\ forall cursor lim count, cursor_valid cursor ->
         (peek_table (mkPeekRequest scope table cursor (Some lim) None count) env sv).1
         = Ok (mkPeekResponse (page rows cursor (Some lim) KeyAsc) (if count then Some (length rows) else None)).
Proof.
  intros Henv Hacc Hb Hs Htb Hp.
  set (t := mkTx s (new_timestamp env (st_calls (sv_store sv))) (node_id env) [] None).
  destruct (tb_list_rows (mkTable scope table) p t (begin_tx_ok env s _ None Henv Hs) Htb Hp) as (rows & Hrows & Hlist & Hcount).
  exists rows. split; [done|]. split.
  { apply Forall_forall. intros [id v] Hin. destruct Hrows as [_ Hr]. by apply Hr in Hin as [? _]. }
  intros cursor lim count Hc. unfold peek_table, mbind, HM_bind, hstore.
  rewrite (begin_local_ok env (sv_store sv) s None Hacc Hb). cbn [map_err pk_scope pk_table pk_cursor pk_limit pk_order pk_count].
  fold t. clearbody t. unfold within. rewrite (Hlist cursor (Some lim) None Hc). cbn [map_err fst snd].
  destruct count; cbn -[tb_count page]; rewrite ?Hcount; cbn -[page]; reflexivity.
Qed.

Lemma peek_answers env sv s scope p : served_by env sv -> env_ok env -> env_accepts env ->
  st_backend (sv_store sv) = Some s -> store_ok s -> scope_valid scope -> encode (mkTable scope MESSAGES_TABLE) = Ok p ->
  exists rows, table_rows s p rows /\ Forall (fun r => id_valid r.1) rows /\ answers_from scope rows.
Proof.
  intros Hdb Henv Hacc Hb Hs Hsc Hp. assert (Htb : table_valid (mkTable scope MESSAGES_TABLE)) by (split; [done|vm_compute; reflexivity]).
  destruct (peek_rows env sv s scope MESSAGES_TABLE p Henv Hacc Hb Hs Htb Hp) as (rows & Hrows & Hv & Hpeek).
  exists rows. split_and!; [done|done|]. intros n cursor lim count Hc. rewrite Hdb, Hpeek by done. eexists. reflexivity.
Qed.

Lemma poll_served (env : Env) (sv : Server) (s : S) (st : CommandStream) (p : bytes)
    (Hdb : served_by env sv) (Henv : env_ok env) (Hacc : env_accepts env)
    (Hb : st_backend (sv_store sv) = Some s) (Hs : store_ok s) (Hsc : scope_valid (cs_scope st))
    (Hp : encode (mkTable (cs_scope st) MESSAGES_TABLE) = Ok p) (Hbatch : (0 < cs_batch_size st)%nat) :
  let now1 := db_clock db (cs_calls st) in
  let now2 := db_clock db (Datatypes.S (cs_calls st)) in
  let d := prune (settled_ids now1 st) now1 in
  exists rows new more b st', table_rows s p rows
    /\ poll_batch serde_reason db st = (Ok b, st') /\ cs_queued st' = cs_queued st ++ new
    /\ deliverable d now2 rows = new ++ more
    /\ (deliverable d now2 (take (Datatypes.S SUPPRESSED_WINDOWS * cs_batch_size st) rows) <> [] -> new <> [])
    /\ (deliverable d now2 (take (cs_batch_size st) rows) <> [] -> new = deliverable d now2 (take (cs_batch_size st) rows))
    /\ (b = Mailbox.Empty <-> new = []).
Proof.
  intros now1 now2 d. destruct (peek_answers env sv s (cs_scope st) p Hdb Henv Hacc Hb Hs Hsc Hp) as (rows & Hrows & Hv & Hans).
  unfold poll_batch, take_settlements, stream_now. cbn -[poll_windows SUPPRESSED_WINDOWS]. set (st1 := called_once _).
  destruct (poll_windows_exact rows now2 (proj1 Hrows) Hv (Datatypes.S SUPPRESSED_WINDOWS) None [] rows st1 Hbatch Hans eq_refl)
    as (new & more & st' & Hrun & Hq & Hdel & Hprog & Hfirst).
  { split; [done|]. by intros lim. }
  unfold now2 in Hrun. rewrite Hrun.
  exists rows, new, more. eexists _, _. split; [done|]. split; [reflexivity|]. split; [exact Hq|]. split; [exact Hdel|].
  split; [exact Hprog|]. split; [by apply Hfirst|]. destruct new as [|c new]; cbn; [done|]. split; [|done]. by destruct (_ || _).
Qed.

(** A read of a mailbox, answered by a node that holds it.  It succeeds and queues
    commands from the head of the mailbox table, in the order of their ids,
    without leaving out one that is not being worked on; and if there is such
    a command in the windows it may look at, it queues at least one, all those
    of the first window if there is one in it. *)
Theorem poll_hands_out_head (env : Env) (sv : Server) (s : S) (st : CommandStream) (p : bytes)
    (Hdb : served_by env sv) (Henv : env_ok env) (Hacc : env_accepts env)
    (Hb : st_backend (sv_store sv) = Some s) (Hs : store_ok s) (Hsc : scope_valid (cs_scope st))
    (Hp : encode (mkTable (cs_scope st) MESSAGES_TABLE) = Ok p) (Hbatch : (0 < cs_batch_size st)%nat) :
  let now1 := db_clock db (cs_calls st) in
  let now2 := db_clock db (Datatypes.S (cs_calls st)) in
  let d := prune (settled_ids now1 st) now1 in
  exists rows new more b st', table_rows s p rows
    /\ poll_batch serde_reason db st = (Ok b, st') /\ cs_queued st' = cs_queued st ++ new
    /\ deliverable d now2 rows = new ++ more
    /\ (deliverable d now2 (take (Datatypes.S SUPPRESSED_WINDOWS * cs_batch_size st) rows) <> [] -> new <> [])
    /\ (deliverable d now2 (take (cs_batch_size st) rows) <> [] -> new = deliverable d now2 (take (cs_batch_size st) rows))
    /\ (b = Mailbox.Empty <-> new = []).
Proof. by apply (poll_served env sv s). Qed.
End Served.
End Reading.

(** ** Examples *)

Import Sample MailboxSample.

(** A node that holds one command for a cell, and the database as it answers. *)
Definition mail_op : tx_op := OpTbInsert (mkTable (scope_of_cell (lit "cell")) MESSAGES_TABLE) [x07] (x2a :: lit "hello").
Definition mail_store : MapKv.store := tx_store (run_ops sample_sha [mail_op] (Sample.tx Sample.empty_store 9)).
Definition mail_server (s : MapKv.store) : @Server MapKv.store := mkServer (sample_store s) [] 0 [].
Definition answered_by (env : Env) (sv : @Server MapKv.store) : Db :=
  mkDb (fun _ req => match (peek_table req env sv).1 with Ok page => Ok page | Err _ => Err MbDb end)
    (fun _ _ _ => Ok tt) (fun n => Z.of_nat n * 10 ^ 9).

Lemma mail_scope_valid : scope_valid (scope_of_cell (lit "cell")).
Proof. repeat split; vm_compute; reflexivity. Qed.
Lemma mail_store_ok : store_ok mail_store.
Proof.
  apply to_store, run_ops_ok; [apply sample_sha_length| |apply empty_ok; unfold is_u64; lia].
  apply Forall_singleton. split; [split; [apply mail_scope_valid|vm_compute; reflexivity]|vm_compute; reflexivity].
Qed.

Lemma poll_hands_out_head_witness :
  exists b st', poll_batch reason (answered_by sample_env (mail_server mail_store)) (open_stream (lit "cell") 2) = (Ok b, st')
    /\ (b = Mailbox.Empty <-> cs_queued st' = []).
Proof.
  destruct (encode (mkTable (scope_of_cell (lit "cell")) MESSAGES_TABLE)) as [p|] eqn:Hp; [|vm_compute in Hp; discriminate].
  destruct (poll_hands_out_head reason (answered_by sample_env (mail_server mail_store)) sample_env (mail_server mail_store) mail_store
    (open_stream (lit "cell") 2) p (fun _ _ => eq_refl) sample_env_ok sample_env_accepts eq_refl mail_store_ok mail_scope_valid Hp ltac:(cbn; lia))
    as (rows & new & more & b & st' & _ & Hpoll & Hq & _ & _ & _ & Hb).
  exists b, st'. split; [exact Hpoll|]. rewrite Hq. exact Hb.
Defined.

(** The read as it runs. *)
Lemma poll_runs :
  cs_queued (poll_batch reason (answered_by sample_env (mail_server mail_store)) (open_stream (lit "cell") 2)).2 = [([x07], hello)].
Proof. vm_compute. reflexivity. Qed.
