(* ===== verification/MailboxSend.v ===== *)
(** * Messages in and out of a mailbox

    What sending a command adds to the mailbox table, what clearing it
    removes, and that a command that was sent is handed out. *)

From S2P Require Import Prelude Bytes Skey SkeyRoundtrip SkeyOrder Keys KeyScan Domain Kv Rows RowsFacts Scans Tx Sample TxKeys TxInv TxReads TxScans TxListings TxSync.
From S2P Require Import TxOrder Announce Store StoreGc Repl ReplFacts Apply Server ServerFacts Mailbox MailboxFacts MailboxRead.
From Stdlib Require Import ZArith Lia Strings.Byte Sorting.Sorted.
From stdpp Require Import base list option strings sets.

Local Open Scope Z_scope.

(** What clearing a mailbox does to a transaction: the rows are listed and deleted. *)
Section Clear.
Context {S : Type} `{Kv S} `{Postcard SyncMeta} `{Postcard MeasurementBody} `{Postcard MailboxCommand}.

Fixpoint clear_entities (table : Table) (entities : list (Id * bytes)) : TX (S := S) (list MailboxCommand) :=
  match entities with
  | [] => mret []
  | (eid, value) :: entities =>
      _ ← tb_delete table eid;
      commands ← clear_entities table entities;
      mret (match @from_bytes MailboxCommand _ value with Some c => c :: commands | None => commands end)
  end.
Definition clear_table (scope : Scope) : TX (S := S) (list MailboxCommand) :=
  let table := mkTable scope MESSAGES_TABLE in
  listed ← tb_list table None None None;
  clear_entities table listed.
End Clear.

Section Table.
Context {S : Type} {kvS : Kv S} {kvLaws : KvLaws S} {pcMeta : Postcard SyncMeta} {pcMetaLaws : PostcardLaws SyncMeta}
  {pcBody : Postcard MeasurementBody}.
Implicit Types s : S.

(** ** Rows of a table after a write *)

Lemma live_value s k v : decodable s k -> live s k v <-> value_of s k = Ok (Some v).
Proof.
  intros Hd. split.
  - intros [t Ht]. by eapply value_of_newest.
  - unfold value_of. destruct (get_from_spec s k u64_max Hd) as [(t & o & Hn & Hg)|[_ ->]]; [|done].
    rewrite Hg. destruct o as [w|]; cbn; intros [= ->]. by exists t.
Qed.

Section Written.
Context (tb : Table) (p : bytes) (Htb : table_valid tb) (Hp : encode tb = Ok p).

Lemma row_stored id : id_valid id -> stored (tb_scope tb) (ent p id).
Proof. intros Hid. apply (entity_stored (mkEntity tb id)); [by split|]. by apply entity_encode. Qed.

Lemma table_exists s : store_ok s -> exists rows, table_rows s p rows /\ Forall (fun r => id_valid r.1) rows.
Proof. intros Hs. destruct (table_live s tb p Hs Htb Hp) as (rows & Hrows & _ & _ & Hv). by exists rows. Qed.

Lemma table_written s s' id ts o rows rows' : store_ok s -> store_ok s' -> id_valid id -> is_u64 ts ->
  decided s s' (ent p id) ts o -> ~ newer s (ent p id) ts -> table_rows s p rows -> table_rows s' p rows' ->
  forall x w, (x, w) ∈ rows' <-> (x = id /\ o = Some w) \/ (x <> id /\ (x, w) ∈ rows).
Proof.
  intros Hs Hs' Hid Hts Hdec Hnew [_ Hr] [_ Hr'] x w. rewrite Hr, Hr'.
  destruct (decided_reads s s' (tb_scope tb) (ent p id) ts o Hs Hs' (row_stored id Hid) Hts Hdec) as (H1 & _ & H2).
  assert (Hdc : forall y s0, store_ok s0 -> id_valid y -> decodable s0 (ent p y)).
  { intros y s0 Hs0 Hy. eapply store_decodable; [exact Hs0|]. apply (row_stored y Hy). }
  destruct (decide (x = id)) as [->|Hne].
  - assert (live s' (ent p id) w <-> o = Some w); [|naive_solver].
    rewrite live_value by by apply Hdc. rewrite (H1 Hnew). naive_solver.
  - assert (id_valid x -> live s' (ent p x) w <-> live s (ent p x) w); [|naive_solver]. intros Hx.
    rewrite !live_value by by apply Hdc. rewrite (H2 (tb_scope tb) (ent p x)); [done|apply (row_stored x Hx)|].
    intros E. by apply ent_inj in E.
Qed.

(** Writes at a version say nothing of newer ones. *)
Lemma newer_decided s s' k ts o k' : in_region data_tag k' = true -> decided s s' k ts o -> newer s' k' ts <-> newer s k' ts.
Proof.
  intros Hk Hd. unfold newer. split; intros (t & Ht & Hlt & Hv); exists t; split_and!; try done; revert Hv; rewrite (Hd k' t Hk Ht);
    rewrite decide_False by (intros [_ ->]; lia); done.
Qed.

Lemma scope_raw : exists raw, encode (tb_scope tb) = Ok raw.
Proof. destruct (row_stored [] ltac:(done)) as [(_ & raw & tail & Hr & _) _]. eauto. Qed.

Lemma tb_delete_ok id t : tx_ok t -> id_valid id -> exists t', tb_delete tb id t = (Ok tt, t') /\ tx_ok t'
  /\ tx_ts t' = tx_ts t /\ tx_retention t' = tx_retention t
  /\ active_scopes t' = active_scopes (with_scope (tb_scope tb) t)
  /\ decided (tx_store t) (tx_store t') (ent p id) (tx_ts t) None.
Proof.
  intros Ht Hid. destruct scope_raw as [raw Hraw]. pose proof (entity_encode tb p id Hp) as He.
  eexists. split; [unfold tb_delete; rewrite (tx_bind_ok _ _ _ _ _ (write_scope_ok _ raw t Hraw)); by apply erase_at_ok|].
  split; [|split_and!; [done..|]].
  - pose proof (triple_result _ _ t (triple_tb_delete tb id Htb Hid) Ht) as H. unfold tx_result, tb_delete in H.
    rewrite (tx_bind_ok _ _ _ _ _ (write_scope_ok _ raw t Hraw)), (erase_at_ok _ _ _ _ He) in H. exact H.
  - apply erase_decided; [|apply (to_ts _ Ht)]. by apply (stored_region (tb_scope tb)), row_stored.
Qed.

Lemma tb_insert_ok id v t : tx_ok t -> id_valid id -> exists t', tb_insert tb id v t = (Ok tt, t') /\ tx_ok t'
  /\ tx_ts t' = tx_ts t /\ tx_retention t' = tx_retention t
  /\ active_scopes t' = active_scopes (with_scope (tb_scope tb) t)
  /\ decided (tx_store t) (tx_store t') (ent p id) (tx_ts t) (Some v).
Proof.
  intros Ht Hid. destruct scope_raw as [raw Hraw]. pose proof (entity_encode tb p id Hp) as He.
  eexists. split; [unfold tb_insert; rewrite (tx_bind_ok _ _ _ _ _ (write_scope_ok _ raw t Hraw)); by apply put_at_ok|].
  split; [|split_and!; [done..|]].
  - pose proof (triple_result _ _ t (triple_tb_insert tb id v Htb Hid) Ht) as H. unfold tx_result, tb_insert in H.
    rewrite (tx_bind_ok _ _ _ _ _ (write_scope_ok _ raw t Hraw)), (put_at_ok _ _ _ _ _ He) in H. exact H.
  - apply put_decided; [|apply (to_ts _ Ht)]. by apply (stored_region (tb_scope tb)), row_stored.
Qed.

(** ** Clearing *)

Context {pcCommand : Postcard MailboxCommand}.
Lemma with_scope_only t : active_scopes t ⊆ [tb_scope tb] -> NoDup (active_scopes t) ->
  active_scopes (with_scope (S := S) (tb_scope tb) t) ⊆ [tb_scope tb] /\ NoDup (active_scopes (with_scope (tb_scope tb) t)).
Proof.
  intros H Hn. cbn. case_bool_decide as Hin; [done|]. split; [set_solver|]. apply NoDup_app. split; [done|].
  split; [set_solver|apply NoDup_singleton].
Qed.

Definition commands_of (rows : list (Id * bytes)) : list MailboxCommand := omap (fun r : Id * bytes => from_bytes r.2) rows.

Lemma clear_entities_ok rows : forall t all, tx_ok t -> table_rows (tx_store t) p all -> Forall (fun r => id_valid r.1) rows ->
  (forall id, id_valid id -> ~ newer (tx_store t) (ent p id) (tx_ts t)) ->
  active_scopes t ⊆ [tb_scope tb] -> NoDup (active_scopes t) ->
  exists t' left, clear_entities tb rows t = (Ok (commands_of rows), t') /\ tx_ok t' /\ table_rows (tx_store t') p left
    /\ active_scopes t' ⊆ [tb_scope tb] /\ NoDup (active_scopes t') /\ tx_retention t' = tx_retention t
    /\ forall x w, (x, w) ∈ left <-> (x, w) ∈ all /\ x ∉ map fst rows.
Proof.
  induction rows as [|[id v] rows IH]; intros t all Ht Hall Hv Hnew Hsc Hnd.
  { exists t, all. cbn. split_and!; [done..|]. set_solver. }
  apply Forall_cons_1 in Hv as [Hid Hv]. cbn in Hid. destruct (tb_delete_ok id t Ht Hid) as (t1 & E1 & Ht1 & Hts1 & Hret1 & Hact1 & Hdec).
  destruct (table_exists (tx_store t1) (to_store _ Ht1)) as (rows1 & Hrows1 & _).
  pose proof (table_written _ _ id (tx_ts t) None all rows1 (to_store _ Ht) (to_store _ Ht1) Hid (to_ts _ Ht) Hdec (Hnew id Hid) Hall Hrows1) as Hin1.
  destruct (with_scope_only t Hsc Hnd) as [Hsc1 Hnd1]. rewrite <- Hact1 in Hsc1, Hnd1.
  destruct (IH t1 rows1 Ht1 Hrows1 Hv) as (t' & left & E & Ht' & Hleft & Hsc' & Hnd' & Hret' & Hin); [|done|done|].
  { intros x Hx. rewrite Hts1, newer_decided; [by apply Hnew| |exact Hdec]. by apply (stored_region (tb_scope tb)), row_stored. }
  exists t', left. split.
  { cbn [clear_entities]. rewrite (tx_bind_ok _ _ _ _ _ E1), (tx_bind_ok _ _ _ _ _ E). unfold commands_of. cbn. by destruct (from_bytes v). }
  rewrite Hret1 in Hret'. split_and!; [done..|]. intros x w. rewrite Hin, Hin1. cbn. rewrite not_elem_of_cons. naive_solver.
Qed.
End Written.

(** In a transaction whose clock is past every version in the mailbox, clearing returns
    every command in it that can be read, in the order of their ids, and leaves
    the mailbox empty; it never fails. *)
Lemma table_cleared {pcCommand : Postcard MailboxCommand} (scope : Scope) (p : bytes) (t : @Transaction S)
    (Ht : tx_ok t) (Hsc : scope_valid scope) (Hp : encode (mkTable scope MESSAGES_TABLE) = Ok p)
    (Hclock : forall id, id_valid id -> ~ newer (tx_store t) (ent p id) (tx_ts t)) (Hact : active_scopes t = []) :
  exists rows t', table_rows (tx_store t) p rows
    /\ clear_table scope t = (Ok (commands_of rows), t') /\ tx_ok t' /\ table_rows (tx_store t') p []
    /\ active_scopes t' ⊆ [scope] /\ NoDup (active_scopes t') /\ tx_retention t' = tx_retention t.
Proof.
  assert (Htb : table_valid (mkTable scope MESSAGES_TABLE)) by (split; [done|vm_compute; reflexivity]).
  destruct (tb_list_rows (mkTable scope MESSAGES_TABLE) p t Ht Htb Hp) as (rows & Hrows & Hlist & _).
  assert (Hv : Forall (fun r => id_valid r.1) rows).
  { apply Forall_forall. intros [id v] Hin. destruct Hrows as [_ Hr]. by apply Hr in Hin as [? _]. }
  destruct (clear_entities_ok _ p Htb Hp rows t rows Ht Hrows Hv Hclock) as (t' & left & E & Ht' & Hleft & Hs' & Hn' & Hr' & Hin);
    [rewrite Hact; set_solver|rewrite Hact; constructor|].
  exists rows, t'. split; [done|]. split; [|split; [done|split; [|done]]].
  - unfold clear_table. rewrite (tx_bind_ok _ _ _ _ _ (Hlist None None None I)). exact E.
  - destruct left as [|[x w] left]; [done|]. exfalso. destruct (Hin x w) as [Hx _]. destruct Hx as [H1 H2]; [by left|].
    apply H2. by apply (list_elem_of_fmap_2 fst) in H1.
Qed.

(** ** Sending *)

(** A commit adds sync points only. *)
Lemma commit_keeps_rows t t' : serialises -> tx_ok t -> NoDup (active_scopes t) -> tx_retention t = None ->
  Forall (fun sc => is_ok (encode sc) = true) (active_scopes t) -> commit Committed t = (Ok tt, t') ->
  store_ok (tx_store t')
  /\ forall k ts, in_region data_tag k = true -> verdict (tx_store t') k ts = verdict (tx_store t) k ts.
Proof.
  intros Hser Ht Hnd Hret Henc Hc.
  pose proof (to_store _ (triple_result (commit Committed) (fun _ => True) t (triple_commit _) Ht)) as Hs. unfold tx_result in Hs.
  rewrite Hc in Hs. split; [exact Hs|]. unfold commit in Hc.
  set (t0 := mkTx (tx_store t) (tx_ts t) (tx_node t) [] (tx_retention t)) in *.
  assert (tx_ok t0) as Ht0 by (destruct Ht; by split).
  destruct (commit_scopes (active_scopes t) t0 Hser Ht0 Hnd) as (t1 & E & [_ _ _ _ _ Hrest]).
  { cbn. by rewrite Hret. }
  { apply Forall_forall. intros sc Hin. split; [by eapply Forall_forall in Hin; [|apply (to_scopes _ Ht)]|].
    rewrite Forall_forall in Henc. specialize (Henc sc Hin). destruct (encode sc) as [raw|] eqn:Er; [|done].
    by destruct (sync_point_encode_total (commit_point t0 sc) raw Er) as (k & ->). }
  rewrite E in Hc. injection Hc as <-. intros k ts Hk. unfold verdict. rewrite !Hrest; [done| |]; intros sc _ Hf%sync_point_foreign;
    (eapply foreign_ne; [exact Hf|by apply row_region|by left|done]).
Qed.

Section Sent.
Context (sha256 : bytes -> bytes) (new_v7 : Version -> nat -> bytes) (tx_idle_timeout : Duration).
Context (Hser : serialises) (Hv7 : forall ts n, id_valid (new_v7 ts n)).

Lemma append_applied scope table value t metadata minted t1 :
  tb_insert (mkTable scope table) (new_v7 (tx_ts t) minted) value t = (Ok tt, t1) ->
  apply_all sha256 new_v7 [TbAppend scope table None value] (mkServedTx t metadata minted)
  = (Ok (Some RespDone), mkServedTx t1 (Some (events_insert (scope, table) (default [] metadata))) (Datatypes.S minted)).
Proof.
  intros Ei. unfold apply_all. cbn [apply_from]. unfold Apply.apply, done_, insert_row, mbind, AM_bind, eid_from_ts, on_tx.
  cbn [sx_tx sx_metadata sx_minted]. by rewrite Ei.
Qed.

(** One row appended to a table with a new id, and committed. *)
Lemma append_committed env sv sv' s scope table value p rows a :
  env_ok env -> st_backend (sv_store sv) = Some s -> store_ok s ->
  (forall n, vm_get (st_transactions (sv_store sv)) (new_uuid env n) = None) ->
  (forall n, vm_get (sv_metadata sv) (new_uuid env n) = None) ->
  table_valid (mkTable scope table) -> encode (mkTable scope table) = Ok p -> table_rows s p rows ->
  (forall id n, id_valid id -> ~ newer s (ent p id) (new_timestamp env n)) ->
  apply_new sha256 new_v7 tx_idle_timeout (Routed scope) Write None [TbAppend scope table None value] Commit env sv = (Ok a, sv') ->
  exists s' id rows', st_backend (sv_store sv') = Some s' /\ store_ok s' /\ id_valid id /\ table_rows s' p rows'
    /\ forall x w, (x, w) ∈ rows' <-> (x = id /\ value = w) \/ (x <> id /\ (x, w) ∈ rows).
Proof.
  intros Henv Hb Hs Hf1 Hf2 Htb Hp Hrows Hclock Hrun.
  destruct (application_result _ _ _ _ _ _ s _ _ _ _ _ _ Hb Hf1 Hf2 Hrun) as (t & x & [n ->] & Ha & _ & _ & _ & t' & Hc & Hb').
  set (t := mkTx s (new_timestamp env n) (node_id env) [] None) in Ha.
  assert (Ht : tx_ok t) by (by apply begin_tx_ok). set (id := new_v7 (tx_ts t) (sv_minted sv)).
  destruct (tb_insert_ok _ p Htb Hp id value t Ht (Hv7 _ _)) as (t1 & Ei & Ht1 & _ & Hret & Hact & Hdec).
  assert (sx_tx x = t1) as Ex.
  { unfold applied in Ha. rewrite (append_applied _ _ _ _ _ _ t1 Ei) in Ha. by injection Ha as _ <-. }
  rewrite Ex in Hc. destruct (scope_raw _ p Htb Hp) as [raw Hraw].
  destruct (commit_keeps_rows t1 t' Hser Ht1) as [Hs' Hver]; [rewrite Hact; cbn; apply NoDup_singleton|done| |exact Hc|].
  { rewrite Hact. cbn. constructor; [|constructor]. change (is_ok (encode scope) = true). cbn [tb_scope] in Hraw. by rewrite Hraw. }
  destruct (table_exists _ p Htb Hp (tx_store t') Hs') as (rows' & Hrows' & _).
  exists (tx_store t'), id, rows'. split_and!; [done|done|apply Hv7|done|].
  assert (Hdec' : decided s (tx_store t') (ent p id) (tx_ts t) (Some value)).
  { intros k ts Hk Hts. rewrite Hver by done. by apply Hdec. }
  intros y w. rewrite (table_written _ p Htb Hp s (tx_store t') id (tx_ts t) (Some value) rows rows' Hs Hs' (Hv7 _ _) (to_ts _ Ht) Hdec'
    (Hclock id n (Hv7 _ _)) Hrows Hrows'). naive_solver.
Qed.

(** A new stream remembers nothing. *)
Lemma fresh_suppresses db sri n id now : let st := open_stream sri n in
  suppresses (prune (settled_ids (db_clock db (cs_calls st)) st) (db_clock db (cs_calls st))) id now = false.
Proof. reflexivity. Qed.

Lemma sorted_same {A} (R : A -> A -> Prop) l l' : StronglySorted R l -> StronglySorted R l' ->
  (forall x y, R x y -> R y x -> False) -> (forall x, x ∈ l <-> x ∈ l') -> l = l'.
Proof.
  intros Hl Hl' Has. revert l' Hl'. induction Hl as [|x l Hl IH Hx]; intros l' Hl' Hin.
  { destruct l' as [|y l']; [done|]. destruct (Hin y) as [_ H]. by apply elem_of_nil in H; [|left]. }
  rewrite Forall_forall in Hx. destruct Hl' as [|y l' Hl' Hy]; [destruct (Hin x) as [H _]; by apply elem_of_nil in H; [|left]|].
  rewrite Forall_forall in Hy. assert (x = y) as <-.
  { destruct (Hin x) as [H1 _], (Hin y) as [_ H2]. specialize (H1 ltac:(by left)). specialize (H2 ltac:(by left)).
    apply elem_of_cons in H1 as [|H1]; [done|]. apply elem_of_cons in H2 as [|H2]; [done|]. exfalso. eapply Has; [apply Hx, H2|apply Hy, H1]. }
  f_equal. apply IH; [done|]. intros z. split; intros Hz.
  - destruct (Hin z) as [H _]. specialize (H ltac:(by right)). apply elem_of_cons in H as [->|H]; [|done]. exfalso. eapply Has; by apply Hx.
  - destruct (Hin z) as [_ H]. specialize (H ltac:(by right)). apply elem_of_cons in H as [->|H]; [|done]. exfalso. eapply Has; by apply Hy.
Qed.

Lemma rows_bound (rows rows' : list (Id * bytes)) id value :
  NoDup rows' -> (forall x w, (x, w) ∈ rows' <-> (x = id /\ value = w) \/ (x <> id /\ (x, w) ∈ rows)) ->
  (length rows' <= Datatypes.S (length rows))%nat.
Proof.
  intros Hnd Hin. change (Datatypes.S (length rows)) with (length ((id, value) :: rows)).
  apply submseteq_length, NoDup_submseteq; [done|]. intros [x w] Hx. apply Hin in Hx as [[-> ->]|[_ Hx]]; [by left|by right].
Qed.

Context {pcCommand : Postcard MailboxCommand} {pcCommandLaws : PostcardLaws MailboxCommand} {pcLetter : Postcard DeadLetter}
  {pcEvent : Postcard MailboxEvent}.

(** C28. A command that was sent is delivered.  When the application that sends a command
    is answered by a node whose clock is past the versions in the mailbox,
    and the mailbox held fewer commands than a read takes, the first read of
    a stream for the cell, answered by that node, hands the command out. *)
Theorem sent_command_delivered (serde_reason : bytes -> str) (db : Db) (env env' : Env) (sv sv' : Server) (s : S)
    (sri : str) (c : MailboxCommand) (constraint : Constraint) (ops : list TxOp) (a : ApplyResponse) (p : bytes)
    (rows : list (Id * bytes)) (n : nat)
    (Hsend : send_alone (KCommand sri c) = Ok (constraint, ops))
    (Hrun : apply_new sha256 new_v7 tx_idle_timeout constraint Write None ops Commit env sv = (Ok a, sv'))
    (Henv : env_ok env) (Hb : st_backend (sv_store sv) = Some s) (Hs : store_ok s)
    (Hfresh : forall n, vm_get (st_transactions (sv_store sv)) (new_uuid env n) = None)
    (Hmeta : forall n, vm_get (sv_metadata sv) (new_uuid env n) = None)
    (Hsc : scope_valid (scope_of_cell sri)) (Hp : encode (mkTable (scope_of_cell sri) MESSAGES_TABLE) = Ok p)
    (Hrows : table_rows s p rows) (Hclock : forall id n, id_valid id -> ~ newer s (ent p id) (new_timestamp env n))
    (Hroom : (length rows < n)%nat)
    (Hdb : served_by db env' sv') (Henv' : env_ok env') (Hacc' : env_accepts env') :
  exists id b st', poll_batch serde_reason db (open_stream sri n) = (Ok b, st') /\ (id, c) ∈ cs_queued st'.
Proof.
  unfold send_alone, into_op in Hsend. destruct (to_allocvec c) as [value|] eqn:Ec; [|done]. cbn in Hsend. injection Hsend as <- <-.
  assert (Htb : table_valid (mkTable (scope_of_cell sri) MESSAGES_TABLE)) by (split; [done|vm_compute; reflexivity]).
  destruct (append_committed _ _ _ _ _ _ _ _ _ _ Henv Hb Hs Hfresh Hmeta Htb Hp Hrows Hclock Hrun)
    as (s' & id & rows1 & Hb' & Hs' & Hid & Hrows1 & Hin).
  destruct (poll_served serde_reason db env' sv' s' (open_stream sri n) p Hdb Henv' Hacc' Hb' Hs' Hsc Hp ltac:(cbn; lia))
    as (rows' & new & more & b & st' & Hrows' & Hpoll & Hq & _ & _ & Hfirst & _).
  assert (rows' = rows1) as ->.
  { destruct Hrows' as [S1 M1], Hrows1 as [S2 M2]. apply (sorted_same _ _ _ S1 S2); [|by intros [x w]; rewrite M1, M2].
    intros x y H1 H2. rewrite shortlex_antisym, H1 in H2. done. }
  exists id, b, st'. split; [exact Hpoll|]. rewrite Hq. cbn [open_stream cs_queued app].
  assert (Hlen : (length rows1 <= Nat.max n 1)%nat).
  { pose proof (rows_bound rows rows1 id value (NoDup_fmap_1 fst _ (sorted_ids _ (proj1 Hrows1))) Hin). lia. }
  cbn [open_stream cs_batch_size] in Hfirst. rewrite take_ge in Hfirst by done.
  assert (Hdel : (id, c) ∈ deliverable (prune (settled_ids (db_clock db 0) (open_stream sri n)) (db_clock db 0)) (db_clock db 1) rows1).
  { apply list_elem_of_omap. exists (id, value). split; [apply Hin; by left|]. cbn. by rewrite (from_to c value Ec). }
  rewrite Hfirst; [exact Hdel|]. intros E. change (_ = []) with
    (deliverable (prune (settled_ids (db_clock db 0) (open_stream sri n)) (db_clock db 0)) (db_clock db 1) rows1 = []) in E.
  rewrite E in Hdel. by apply elem_of_nil in Hdel.
Qed.
End Sent.
End Table.

(** ** Examples *)

Import Sample MailboxSample.

Lemma empty_verdict k ts : verdict Sample.empty_store k ts = None.
Proof. reflexivity. Qed.
Lemma empty_not_newer k ts : ~ newer Sample.empty_store k ts.
Proof. intros (t & _ & _ & H). by rewrite empty_verdict in H. Qed.

Definition mail_table : Table := mkTable (scope_of_cell (lit "cell")) MESSAGES_TABLE.
Definition mail_prefix : bytes := Eval vm_compute in match encode mail_table with Ok p => p | Err _ => [] end.
Lemma mail_encode : encode mail_table = Ok mail_prefix. Proof. vm_compute. reflexivity. Qed.
Lemma mail_table_valid : table_valid mail_table.
Proof. split; [apply mail_scope_valid|vm_compute; reflexivity]. Qed.

(** A command sent to a node that holds nothing yet. *)
Definition sent : res (option ApplyError) ApplyResponse * Server :=
  match send_alone (KCommand (lit "cell") hello) with
  | Ok (constraint, ops) => apply_new sample_sha sample_v7 (10 ^ 9) constraint Write None ops Commit sample_env (mail_server Sample.empty_store)
  | Err _ => (Err None, mail_server Sample.empty_store)
  end.

Lemma sent_command_delivered_witness :
  exists id b st', poll_batch reason (answered_by sample_env sent.2) (open_stream (lit "cell") 1) = (Ok b, st') /\ (id, hello) ∈ cs_queued st'.
Proof.
  assert (Hok : is_ok sent.1 = true) by (vm_compute; reflexivity).
  destruct (send_alone (KCommand (lit "cell") hello)) as [[constraint ops]|] eqn:Es; [|vm_compute in Es; discriminate].
  destruct sent as [[a|e] sv'] eqn:E; [|discriminate Hok].
  destruct (table_exists mail_table mail_prefix mail_table_valid mail_encode Sample.empty_store empty_store_ok) as (rows & Hrows & _).
  assert (rows = []) as ->.
  { destruct rows as [|[x w] rows]; [reflexivity|]. destruct Hrows as [_ Hr]. destruct (Hr x w) as [H _].
    destruct H as [_ [t [_ [_ [Hv _]]]]]; [left|]. discriminate Hv. }
  assert (Hrun : apply_new sample_sha sample_v7 (10 ^ 9) constraint Write None ops Commit sample_env (mail_server Sample.empty_store) = (Ok a, sv')).
  { unfold sent in E. rewrite Es in E. exact E. }
  refine (sent_command_delivered sample_sha sample_v7 (10 ^ 9) sample_serialises _ reason (answered_by sample_env sv') sample_env sample_env
    (mail_server Sample.empty_store) sv' Sample.empty_store (lit "cell") hello constraint ops a mail_prefix [] 1 Es Hrun sample_env_ok eq_refl
    empty_store_ok (fun _ => eq_refl) (fun _ => eq_refl) mail_scope_valid mail_encode Hrows (fun _ _ _ => empty_not_newer _ _) _
    (fun _ _ => eq_refl) sample_env_ok sample_env_accepts).
  - intros ts n. vm_compute. reflexivity.
  - cbn. lia.
Defined.
