(* ===== verification/MailboxEvents.v ===== *)
(** * Events, once and in order

    A stream of events reads past a cursor.  While the log of events grows at
    its end, it hands out what was published after the subscription, each
    event once and in the order of the log, whatever reads fail in between. *)

From S2P Require Import Prelude Bytes Skey SkeyRoundtrip SkeyOrder Keys KeyScan Domain Kv Rows RowsFacts Scans Tx Sample TxKeys TxInv TxReads TxScans TxListings.
From S2P Require Import TxSync Announce Store StoreGc Repl ReplFacts Apply Server ServerFacts Mailbox MailboxFacts MailboxRead MailboxSend.
From Stdlib Require Import ZArith Lia Strings.Byte Sorting.Sorted.
From stdpp Require Import base list option strings sets.

Local Open Scope Z_scope.

(** ** The cursor *)

Lemma last_cursor (l : list (Id * bytes)) c :
  fold_left (fun _ (e : Id * bytes) => After e.1) l c = match last l with Some e => After e.1 | None => c end.
Proof.
  induction l as [|e l _] using rev_ind; [done|]. by rewrite fold_left_app, last_snoc.
Qed.

Lemma take_shown {A} b (l : list A) : take (length (take b l)) l = take b l.
Proof. by rewrite length_take, <- take_take, firstn_all. Qed.
Lemma take_window {A} k b (l : list A) : take k l ++ take b (drop k l) = take (k + length (take b (drop k l))) l.
Proof. by rewrite <- take_take_drop, take_shown. Qed.

(** A cursor with these rows behind it. *)
Definition at_cursor (behind : list (Id * bytes)) (start : nat) (c : Cursor) : Prop :=
  (length behind = start /\ c = Skip start) \/ exists e, last behind = Some e /\ c = After e.1.

Section Log.
Context (rows behind rest : list (Id * bytes)) (start : nat) (c : Cursor).
Hypothesis Hsorted : StronglySorted (fun a b : Id * bytes => shortlex a.1 b.1 = Lt) rows.
Hypothesis Hvalid : Forall (fun r : Id * bytes => id_valid r.1) rows.
Hypothesis Hrows : rows = behind ++ rest.
Hypothesis Hc : at_cursor behind start c.

Lemma cursor_past : past rows (Some c) rest.
Proof.
  destruct Hc as [[Hl ->]|(e & He & ->)].
  - split; [done|]. intros lim. cbn. by rewrite Hrows, <- Hl, drop_app_length.
  - apply last_Some in He as (pre & ->). eapply past_next; [done|done|]. by rewrite Hrows, <- app_assoc.
Qed.

Lemma cursor_moves n : let w := take n rest in
  at_cursor (behind ++ w) start (fold_left (fun _ (e : Id * bytes) => After e.1) w c).
Proof.
  intros w. rewrite last_cursor. destruct (last w) as [e|] eqn:He.
  - right. exists e. split; [|done]. by rewrite last_app, He.
  - apply last_None in He as ->. by rewrite app_nil_r.
Qed.
End Log.

(** ** Polls *)

Section Stream.
Context {pcEvent : Postcard MailboxEvent} (db : Db).
Context {S : Type} {kvS : Kv S} {kvLaws : KvLaws S} {pcMeta : Postcard SyncMeta} {pcMetaLaws : PostcardLaws SyncMeta}
  {pcBody : Postcard MeasurementBody}.

(** Each call is answered by the node found for it, or fails. *)
Context (up : nat -> bool) (envs : nat -> Env) (servers : nat -> @Server S) (stores : nat -> S).
Context (event : str) (p : bytes) (log : nat -> list (Id * bytes)).
Hypothesis Hdb : forall n req, db_peek db n req =
  if up n then match (peek_table req (envs n) (servers n)).1 with Ok page => Ok page | Err _ => Err MbDb end else Err MbComm.
Hypothesis Henv : forall n, env_ok (envs n) /\ env_accepts (envs n).
Hypothesis Hstores : forall n, st_backend (sv_store (servers n)) = Some (stores n) /\ store_ok (stores n).
Hypothesis Hevent : table_valid (mkTable (scope_of_event event) EVENTS_TABLE).
Hypothesis Hp : encode (mkTable (scope_of_event event) EVENTS_TABLE) = Ok p.
(** What the nodes hold of the log, which grows at its end. *)
Hypothesis Hlog : forall n, table_rows (stores n) p (log n).
Hypothesis Hgrows : forall n, log n `prefix_of` log (Datatypes.S n).

Definition decoded (rows : list (Id * bytes)) : list MailboxEvent := omap (fun e : Id * bytes => from_bytes e.2) rows.

Lemma log_grows n m : (n <= m)%nat -> log n `prefix_of` log m.
Proof. induction 1 as [|m _ IH]; [done|]. etrans; [exact IH|apply Hgrows]. Qed.

Lemma table_rows_same s rows rows' : table_rows s p rows -> table_rows s p rows' -> rows = rows'.
Proof.
  intros [Hs H] [Hs' H']. eapply sorted_same; [exact Hs|exact Hs'| |].
  - intros x y H1 H2. pose proof (shortlex_antisym x.1 y.1) as E. rewrite H1, H2 in E. done.
  - intros [id v]. by rewrite H, H'.
Qed.

Lemma log_ok n : StronglySorted (fun a b : Id * bytes => shortlex a.1 b.1 = Lt) (log n) /\ Forall (fun r : Id * bytes => id_valid r.1) (log n).
Proof.
  destruct (Hlog n) as [Hs H]. split; [done|]. apply Forall_forall. intros [id v] Hin. by apply H in Hin as [? _].
Qed.

Lemma log_answers n cursor lim count : up n = true -> cursor_valid cursor ->
  db_peek db n (mkPeekRequest (scope_of_event event) EVENTS_TABLE cursor (Some lim) None count)
  = Ok (mkPeekResponse (page (log n) cursor (Some lim) KeyAsc) (if count then Some (length (log n)) else None)).
Proof.
  intros Hup Hc. destruct (Henv n) as [He Ha], (Hstores n) as [Hb Hs].
  destruct (peek_rows (envs n) (servers n) (stores n) _ _ p He Ha Hb Hs Hevent Hp) as (rows & Hrows & _ & Hpeek).
  rewrite (table_rows_same _ _ _ (Hlog n) Hrows), Hdb, Hup, Hpeek by done. done.
Qed.

(** The stream has read [seen] rows past the subscription. *)
Definition reading (start seen : nat) (st : EventStream) : Prop :=
  es_scope st = scope_of_event event /\ (start + seen <= length (log (es_calls st)))%nat
  /\ at_cursor (take (start + seen) (log (es_calls st))) start (es_cursor st).

Lemma grown_take n m k : (n <= m)%nat -> (k <= length (log n))%nat -> take k (log m) = take k (log n) /\ (k <= length (log m))%nat.
Proof.
  intros Hnm Hk. destruct (log_grows n m Hnm) as [l ->]. rewrite length_app, take_app_le by done. split; [done|lia].
Qed.

Lemma subscribed st : subscribe db event = Ok st -> reading (length (log 0)) 0 st.
Proof.
  unfold subscribe, event_count. cbn [es_calls es_scope es_cursor es_event].
  destruct (up 0) eqn:Hup; [|rewrite Hdb, Hup; done]. rewrite log_answers by done. cbn. intros [= <-].
  unfold reading. rewrite Nat.add_0_r. destruct (grown_take 0 1 (length (log 0)) ltac:(lia) ltac:(lia)) as [Ht Hl].
  split; [done|]. split; [done|]. left. cbn. by rewrite Ht, firstn_all.
Qed.

Lemma poll_step start seen st b : reading start seen st ->
  match event_poll db b st with
  | (Err _, st') => reading start seen st' /\ es_calls st' = Datatypes.S (es_calls st)
  | (Ok events, st') =>
      let w := take b (drop (start + seen) (log (es_calls st))) in
      events = decoded w /\ reading start (seen + length w) st' /\ es_calls st' = Datatypes.S (es_calls st)
  end.
Proof.
  intros (Hsc & Hlen & Hcur). unfold event_poll. rewrite Hsc. set (n := es_calls st) in *.
  destruct (up n) eqn:Hup.
  - assert (Hpast := cursor_past (log n) _ _ start _ (proj1 (log_ok n)) (proj2 (log_ok n)) (eq_sym (take_drop (start + seen) (log n))) Hcur).
    rewrite log_answers by (done || apply Hpast). rewrite (proj2 Hpast). cbn [ps_entities].
    set (w := take b (drop (start + seen) (log n))).
    pose proof (cursor_moves (take (start + seen) (log n)) (drop (start + seen) (log n)) start _ Hcur b) as Hm. fold w in Hm. cbn in Hm.
    assert (Hw : (start + (seen + length w) <= length (log n))%nat) by (unfold w; rewrite length_take, length_drop; lia).
    destruct (grown_take n (Datatypes.S n) _ ltac:(lia) Hw) as [Ht Hl].
    split; [done|]. split; [|done]. split; [done|]. split; [done|]. cbn [es_calls es_cursor]. rewrite Ht.
    replace (take (start + (seen + length w)) (log n)) with (take (start + seen) (log n) ++ w); [done|].
    rewrite Nat.add_assoc. apply take_window.
  - rewrite Hdb, Hup. split; [|done]. destruct (grown_take n (Datatypes.S n) _ ltac:(lia) Hlen) as [Ht Hl].
    split; [done|]. split; [done|]. cbn. by rewrite Ht.
Qed.

(** Polls of the given sizes, and all the events they return. *)
Fixpoint polls (sizes : list nat) (st : EventStream) : list MailboxEvent * EventStream :=
  match sizes with
  | [] => ([], st)
  | b :: sizes =>
      match event_poll db b st with
      | (Ok events, st) => let (more, st) := polls sizes st in (events ++ more, st)
      | (Err _, st) => polls sizes st
      end
  end.

Lemma polls_step start sizes : forall seen st, reading start seen st ->
  let '(events, st') := polls sizes st in
  exists more, reading start (seen + more) st' /\ (es_calls st <= es_calls st')%nat
    /\ events = decoded (take more (drop (start + seen) (log (es_calls st')))).
Proof.
  induction sizes as [|b sizes IH]; intros seen st Hr; cbn [polls].
  { exists 0%nat. rewrite Nat.add_0_r. done. }
  pose proof (poll_step start seen st b Hr) as Hstep. destruct (event_poll db b st) as [[events|e] st1].
  - destruct Hstep as (-> & Hr1 & Hc). set (w := take b _) in *. specialize (IH _ _ Hr1).
    destruct (polls sizes st1) as [more st']. destruct IH as (k & Hr' & Hle & ->).
    exists (length w + k)%nat. rewrite Nat.add_assoc. split; [done|]. split; [lia|].
    unfold decoded. rewrite <- omap_app. f_equal.
    destruct (log_grows (es_calls st) (es_calls st') ltac:(lia)) as [l El]. destruct Hr as (_ & Hlen & _).
    rewrite <- take_take_drop, drop_drop, <- Nat.add_assoc. f_equal.
    unfold w. rewrite El, drop_app_le by done. rewrite take_app_le by (rewrite length_take; lia).
    by rewrite take_shown.
  - destruct Hstep as [Hr1 Hc]. specialize (IH _ _ Hr1). destruct (polls sizes st1) as [more st'].
    destruct IH as (k & Hr' & Hle & ->). exists k. split_and!; [done|lia|done].
Qed.

(** C31. Events are received once and in order.  A stream subscribed to an event, polled any
    number of times with any batch sizes while its log grows at its end, and
    with any of the calls failing, has returned exactly the events of the first
    rows written after the subscription, in order, without those that do not
    deserialise; and the next poll that is answered returns the rows that
    follow, up to its batch size. *)
Theorem events_once_in_order (st st' : EventStream) (sizes : list nat) (events : list MailboxEvent)
    (Hsub : subscribe db event = Ok st) (Hpolls : polls sizes st = (events, st')) :
  let fresh := drop (length (log 0)) (log (es_calls st')) in
  exists seen, (seen <= length fresh)%nat /\ events = decoded (take seen fresh)
    /\ forall b, up (es_calls st') = true -> exists st'', event_poll db b st' = (Ok (decoded (take b (drop seen fresh))), st'').
Proof.
  intros fresh. pose proof (polls_step _ sizes _ _ (subscribed st Hsub)) as H. rewrite Hpolls in H.
  destruct H as (seen & Hr & _ & ->). rewrite Nat.add_0_r in *. fold fresh. exists seen.
  assert (Hlen := proj1 (proj2 Hr)). split; [unfold fresh; rewrite length_drop; lia|]. split; [done|].
  intros b Hup. pose proof (poll_step _ _ st' b Hr) as Hstep. unfold fresh. rewrite drop_drop.
  destruct (event_poll db b st') as [[events|e] st''] eqn:E; [destruct Hstep as (-> & _); by exists st''|].
  exfalso. revert E. unfold event_poll. rewrite (proj1 Hr), log_answers; [done|done|]. eapply cursor_past; [apply log_ok|apply log_ok|symmetry; apply take_drop|apply Hr].
Qed.
End Stream.

(** ** Examples *)

Import Sample MailboxSample.

(** Nothing was published when the stream subscribes, one event afterwards. *)
Definition ping_table : Table := mkTable (scope_of_event (lit "ping")) EVENTS_TABLE.
Definition ping_prefix : bytes := Eval vm_compute in match encode ping_table with Ok p => p | Err _ => [] end.
Definition ping_row : Id * bytes := ([x07], x2a :: lit "payload").
Definition ping_tx : Transaction := run_ops sample_sha [OpTbInsert ping_table ping_row.1 ping_row.2] (Sample.tx Sample.empty_store 9).
Definition ping_store (n : nat) : MapKv.store := match n with O => Sample.empty_store | _ => tx_store ping_tx end.
Definition ping_log (n : nat) : list (Id * bytes) := match n with O => [] | _ => [ping_row] end.
Definition ping_db : Db :=
  mkDb (fun n req => match (peek_table req sample_env (mail_server (ping_store n))).1 with Ok page => Ok page | Err _ => Err MbDb end)
    (fun _ _ _ => Ok tt) (fun n => Z.of_nat n).

Lemma ping_table_valid : table_valid ping_table.
Proof. repeat split; vm_compute; reflexivity. Qed.
Lemma ping_encode : encode ping_table = Ok ping_prefix. Proof. vm_compute. reflexivity. Qed.
Lemma ping_tx_ok : tx_ok ping_tx.
Proof.
  apply run_ops_ok; [apply sample_sha_length| |apply empty_ok; unfold is_u64; lia].
  apply Forall_singleton. split; [apply ping_table_valid|vm_compute; reflexivity].
Qed.
Lemma ping_listed (t : Transaction) rows : tx_ok t -> (tb_list ping_table None None None t).1 = Ok rows -> table_rows (tx_store t) ping_prefix rows.
Proof.
  intros Ht Hl. destruct (tb_list_rows ping_table ping_prefix t Ht ping_table_valid ping_encode) as (rows' & Hr & Hlist & _).
  rewrite Hlist in Hl by done. cbn in Hl. by injection Hl as <-.
Qed.
Lemma ping_rows n : table_rows (ping_store n) ping_prefix (ping_log n).
Proof.
  destruct n; cbn [ping_store ping_log].
  - apply (ping_listed (Sample.tx Sample.empty_store 9)); [apply empty_ok; unfold is_u64; lia|vm_compute; reflexivity].
  - apply ping_listed; [apply ping_tx_ok|vm_compute; reflexivity].
Qed.
Lemma ping_stores n : st_backend (sv_store (mail_server (ping_store n))) = Some (ping_store n) /\ store_ok (ping_store n).
Proof. split; [done|]. destruct n; [apply empty_store_ok|apply to_store, ping_tx_ok]. Qed.

Lemma events_once_in_order_witness :
  exists st st' events seen, subscribe ping_db (lit "ping") = Ok st /\ polls ping_db [1%nat] st = (events, st')
    /\ events = decoded (take seen (ping_log (es_calls st'))).
Proof.
  destruct (subscribe ping_db (lit "ping")) as [st|] eqn:Es; [|vm_compute in Es; discriminate].
  destruct (polls ping_db [1%nat] st) as [events st'] eqn:Ep. 
  destruct (events_once_in_order ping_db (fun _ => true) (fun _ => sample_env) (fun n => mail_server (ping_store n)) ping_store (lit "ping")
    ping_prefix ping_log (fun _ _ => eq_refl) (fun _ => conj sample_env_ok sample_env_accepts) ping_stores ping_table_valid ping_encode
    ping_rows (fun n => match n with O => prefix_nil _ | _ => reflexivity _ end) st st' [1%nat] events Es Ep) as (seen & _ & H & _).
  exists st, st', events, seen. split; [reflexivity|]. split; [exact Ep|exact H].
Defined.

Lemma ping_runs : fst <$> (polls ping_db [1%nat; 1%nat] <$> subscribe ping_db (lit "ping")) = Ok [mkEvent (lit "payload") [] no_attachment].
Proof. vm_compute. reflexivity. Qed.
