(* ===== verification/Client.v ===== *)
(** * The database's client

    [src/swarm/db-client]: which node a request goes to, how refusals are
    tried again, transactions that run a function of the caller, and
    applications, which buffer operations and send them in few round trips.

    The network is a record [Net] of calls on a state of the world.  [None]
    is a call whose outcome the client does not learn: the request or its
    reply was lost, or the node has nothing to say. *)

From S2P Require Import Prelude Bytes Skey SkeyRoundtrip SkeyOrder Keys Domain Kv Rows Tx Announce Store Apply Server.
From Stdlib Require Import ZArith Lia Strings.Byte.
From stdpp Require Import base list option strings sets.

Local Open Scope Z_scope.

(** ** Which node *)

Record LocateResponse := mkLocateResponse {
  lr_id : list byte;
  lr_head : Version;
  lr_peers : list PeerView;
  lr_state : HolderState;
}.

Definition is_draining (p : PeerView) : bool := match pv_state p with Draining => true | Replica => false end.

Definition candidates (responses : list LocateResponse) : list PeerView :=
  concat (map (fun r =>
    mkPeerView (lr_id r) 0 (lr_head r) (lr_state r) :: List.filter (fun p => negb (is_draining p)) (lr_peers r)) responses).

(** [Iterator::max]: the last of the greatest. *)
Definition max_of {A} (cmp : A -> A -> comparison) (l : list A) : option A :=
  fold_left (fun best x =>
    match best with
    | Some b => match cmp b x with Gt => Some b | _ => Some x end
    | None => Some x
    end) l None.

(** How candidates are ranked, compared field by field. *)
Definition Rank : Type := bool * Version * Z * list byte.
Definition rank_cmp (a b : Rank) : comparison :=
  let '(full, head, draw, id) := a in
  let '(full', head', draw', id') := b in
  cthen (cmp_bool full full') (cthen (head ?= head') (cthen (draw ?= draw') (lex id id'))).

Definition qualifies (min_version : option Version) (max_age_ms : Z) (prefer_full : bool) (c : PeerView) : bool :=
  (pv_age_ms c <=? max_age_ms)
  && match min_version with Some v => v <=? pv_head c | None => true end
  && negb (prefer_full && is_draining c).
Definition rank_of (scope : Scope) (prefer_full : bool) (c : PeerView) : Rank :=
  (prefer_full && negb (is_draining c), pv_head c, rendezvous_hash scope (pv_id c), pv_id c).

Definition select_holder (candidates : list PeerView) (scope : Scope) (min_version : option Version)
    (max_age_ms : Z) (prefer_full : bool) : option (list byte) :=
  snd <$> max_of rank_cmp (map (rank_of scope prefer_full) (List.filter (qualifies min_version max_age_ms prefer_full) candidates)).

(** ** Calls *)

(** Why an application was turned down: the node that applied it, or a resolution that
    found no node. *)
Inductive refusal := ByNode (e : ApplyError) | NoReplica | LeftNothingOpen | NoResponse | AlreadyFailed.
Inductive app_error := Unreachable | Refused (r : refusal).

Record Net (W : Type) := mkNet {
  net_locate : Scope -> option Version -> W -> option (list LocateResponse) * W;
  net_info : W -> option (list (list byte)) * W;
  net_apply : list byte -> ApplyRequest -> W -> option (res ApplyError ApplyResponse) * W;
  net_commit : TxId -> W -> option (res ApplyError unit) * W;
  net_rollback : TxId -> W -> option (res ApplyError unit) * W;
  net_peek : list byte -> PeekRequest -> W -> option (res ApplyError PeekResponse) * W;
}.
Arguments net_locate {W} n.
Arguments net_info {W} n.
Arguments net_apply {W} n.
Arguments net_commit {W} n.
Arguments net_rollback {W} n.
Arguments net_peek {W} n.

Definition LOCATE_MAX_AGE_MS : Z := 42000.
Definition LOCATE_ROUNDS : nat := 3.
Definition APPLY_ATTEMPTS : nat := 3.
Definition PEEK_ATTEMPTS : nat := 3.

Section Client.
Context {W : Type} (net : Net W).

(** A call and what follows an answer. *)
Definition after {A B} (call : option A * W) (k : A -> W -> option B * W) : option B * W :=
  match call with (Some a, w) => k a w | (None, w) => (None, w) end.

Definition any_node (scope : option Scope) (w : W) : option (list byte) * W :=
  after (net_info net w) (fun ids w =>
    (match scope with
     | Some scope => snd <$> max_of rank_cmp (map (fun id => (false, 0, rendezvous_hash scope id, id)) ids)
     | None => max_of lex ids
     end, w)).

Fixpoint locate_rounds (rounds : nat) (scope : Scope) (min_version : option Version) (access : Access) (w : W)
  : option (option (list byte)) * W :=
  match rounds with
  | O => (Some None, w)
  | Datatypes.S rounds =>
      after (net_locate net scope min_version w) (fun responses w =>
        let prefer_full := match access with Write => true | Read => false end in
        match select_holder (candidates responses) scope min_version LOCATE_MAX_AGE_MS prefer_full with
        | Some best => (Some (Some best), w)
        | None => locate_rounds rounds scope min_version access w
        end)
  end.

Definition locate_holder (scope : Scope) (min_version : option Version) (access : Access) (w : W)
  : option (res refusal (list byte)) * W :=
  after (locate_rounds LOCATE_ROUNDS scope min_version access w) (fun found w =>
    match found, min_version with
    | Some best, _ => (Some (Ok best), w)
    | None, Some _ => (Some (Err NoReplica), w)
    | None, None => after (any_node (Some scope) w) (fun id w => (Some (Ok id), w))
    end).

Definition resolve (constraint : Constraint) (access : Access) (w : W) : option (res refusal (list byte)) * W :=
  match constraint with
  | Routed scope => locate_holder scope None access w
  | RoutedAt scope min_version => locate_holder scope (Some min_version) access w
  | Ignore => after (any_node None w) (fun id w => (Some (Ok id), w))
  end.

(** Attempts against a fresh resolution, until one is not refused; at least one. *)
Fixpoint attempts {A} (n : nat) (find : W -> option (res refusal (list byte)) * W)
    (call : list byte -> W -> option (res ApplyError A) * W) (w : W) : option (res refusal A) * W :=
  after (find w) (fun resolved w =>
    let again (e : refusal) (w : W) :=
      match n with O => (Some (Err e), w) | Datatypes.S n => attempts n find call w end in
    match resolved with
    | Err e => again e w
    | Ok node => after (call node w) (fun r w => match r with Ok a => (Some (Ok a), w) | Err e => again (ByNode e) w end)
    end).

Definition send_apply (req : ApplyRequest) (w : W) : option (res refusal ApplyResponse) * W :=
  match rq_target req with
  | Existing id => after (net_apply net id.2 req w) (fun r w => (Some (map_err ByNode r), w))
  | New constraint access _ =>
      attempts (Nat.pred APPLY_ATTEMPTS) (resolve constraint access) (fun node => net_apply net node req) w
  end.

Definition send_peek (req : PeekRequest) (w : W) : option (res refusal PeekResponse) * W :=
  attempts (Nat.pred PEEK_ATTEMPTS) (locate_holder (pk_scope req) None Read) (fun node => net_peek net node req) w.

Definition tx_of (r : ApplyResponse) : option TxId := (fun id => (id, ar_node r)) <$> ar_tx r.

(** A begin, and an operation on an open transaction. *)
Definition send_begin (constraint : Constraint) (access : Access) (retention : option Duration) (w : W)
  : option (res refusal TxId) * W :=
  after (send_apply (mkApplyRequest (New constraint access retention) [] KeepOpen) w) (fun r w =>
    (Some (a ← r; ok_or LeftNothingOpen (tx_of a)), w)).
Definition send_op (id : TxId) (op : TxOp) (w : W) : option (res refusal TxOpResponse) * W :=
  after (send_apply (mkApplyRequest (Existing id) [op] KeepOpen) w) (fun r w =>
    (Some (a ← r; ok_or NoResponse (ar_last a)), w)).

(** ** Transactions that run a function

    [write_tx_constrained] and [read_tx_constrained]: what the function returns is
    committed, unless it returns an error. *)
Inductive tx_fail (E : Type) := TxUnreachable | TxRefused (r : refusal) | TxFunc (e : E).
Arguments TxUnreachable {E}.
Arguments TxRefused {E} r.
Arguments TxFunc {E} e.

Definition with_tx {E A} (constraint : Constraint) (access : Access) (retention : option Duration)
    (func : TxId -> W -> res E A * W) (w : W) : res (tx_fail E) A * W :=
  match send_begin constraint access retention w with
  | (None, w) => (Err TxUnreachable, w)
  | (Some (Err e), w) => (Err (TxRefused e), w)
  | (Some (Ok id), w) =>
      match func id w with
      | (Ok value, w) =>
          match net_commit net id w with
          | (Some (Ok _), w) => (Ok value, w)
          | (Some (Err e), w) => (Err (TxRefused (ByNode e)), w)
          | (None, w) => (Err TxUnreachable, w)
          end
      | (Err e, w) => (Err (TxFunc e), (net_rollback net id w).2)
      end
  end.
Definition write_tx_constrained {E A} (constraint : Constraint) (retention : option Duration)
    (func : TxId -> W -> res E A * W) (w : W) : res (tx_fail E) A * W := with_tx constraint Write retention func w.
Definition read_tx_constrained {E A} (constraint : Constraint) (func : TxId -> W -> res E A * W) (w : W)
  : res (tx_fail E) A * W := with_tx constraint Read None func w.

(** ** Applications *)

Record Application := mkApplication {
  ap_constraint : Constraint;
  ap_access : Access;
  ap_retention : option Duration;
  ap_tx : option TxId;
  ap_pending : list TxOp;
  ap_poisoned : bool;
}.

Definition app_new (constraint : Constraint) : Application := mkApplication constraint Write None None [] false.
Definition read_only (a : Application) : Application :=
  mkApplication (ap_constraint a) Read (ap_retention a) (ap_tx a) (ap_pending a) (ap_poisoned a).
Definition retain_for (a : Application) (d : Duration) : Application :=
  mkApplication (ap_constraint a) (ap_access a) (Some d) (ap_tx a) (ap_pending a) (ap_poisoned a).
Definition app_is_empty (a : Application) : bool := bool_decide (ap_tx a = None) && bool_decide (ap_pending a = []).

Definition poison : app_error := Refused AlreadyFailed.

Definition defer_op (op : TxOp) (a : Application) : res app_error unit * Application :=
  if ap_poisoned a then (Err poison, a)
  else (Ok tt, mkApplication (ap_constraint a) (ap_access a) (ap_retention a) (ap_tx a) (ap_pending a ++ [op]) false).

Definition flush (tail : option TxOp) (finish : Finish) (a : Application) (w : W)
  : res app_error ApplyResponse * Application * W :=
  if ap_poisoned a then (Err poison, a, w) else
  let ops := ap_pending a ++ option_list tail in
  let target := match ap_tx a with
                | Some id => Existing id
                | None => New (ap_constraint a) (ap_access a) (ap_retention a)
                end in
  let emptied poisoned tx := mkApplication (ap_constraint a) (ap_access a) (ap_retention a) tx [] poisoned in
  match send_apply (mkApplyRequest target ops finish) w with
  | (Some (Ok response), w) => (Ok response, emptied false (tx_of response), w)
  | (Some (Err e), w) => (Err (Refused e), emptied true None, w)
  | (None, w) => (Err Unreachable, emptied true None, w)
  end.

(** The last response, which an application with an operation has. *)
Definition tail_response (r : res app_error ApplyResponse) : res app_error TxOpResponse :=
  a ← r; ok_or (Refused NoResponse) (ar_last a).

Definition app_tx_id (a : Application) (w : W) : res app_error TxId * Application * W :=
  match ap_tx a, ap_pending a with
  | Some id, [] => (Ok id, a, w)
  | _, _ => let '(r, a, w) := flush None KeepOpen a w in
            (response ← r; ok_or (Refused LeftNothingOpen) (tx_of response), a, w)
  end.
Definition apply_op (op : TxOp) (a : Application) (w : W) : res app_error TxOpResponse * Application * W :=
  let '(r, a, w) := flush (Some op) KeepOpen a w in (tail_response r, a, w).
Definition apply_and_commit (op : TxOp) (a : Application) (w : W) : res app_error TxOpResponse * Application * W :=
  let '(r, a, w) := flush (Some op) Commit a w in (tail_response r, a, w).

Definition app_commit (a : Application) (w : W) : res app_error unit * W :=
  if ap_poisoned a then (Err poison, w)
  else if app_is_empty a then (Ok tt, w)
  else let '(r, _, w) := flush None Commit a w in (_ ← r; Ok tt, w).

Definition app_rollback (a : Application) (w : W) : res app_error unit * W :=
  if ap_poisoned a then (Ok tt, w) else
  match ap_tx a with
  | None => (Ok tt, w)
  | Some id =>
      match net_rollback net id w with
      | (Some (Ok _), w) => (Ok tt, w)
      | (Some (Err e), w) => (Err (Refused (ByNode e)), w)
      | (None, w) => (Err Unreachable, w)
      end
  end.
End Client.

(** * Which node a request goes to

    The choice among the candidates of a locate query, against the ranking it
    documents, and that it does not depend on the order of the answers. *)

(** ** Total orders by comparison *)

Class TotalCmp {A} (cmp : A -> A -> comparison) : Prop := {
  cmp_opp : forall a b, cmp b a = CompOpp (cmp a b);
  cmp_same : forall a b, cmp a b = Eq -> a = b;
  cmp_le_trans : forall a b c, cmp a b <> Gt -> cmp b c <> Gt -> cmp a c <> Gt;
}.

#[export] Instance Z_total : TotalCmp Z.compare.
Proof. split; intros; [apply Z.compare_antisym|by apply Z.compare_eq_iff|by apply (Z.le_trans a b c)]. Qed.
#[export] Instance bool_total : TotalCmp cmp_bool.
Proof. split; [intros [] []|intros [] []|intros [] [] []]; done. Qed.
#[export] Instance lex_total : TotalCmp lex.
Proof. split; intros; [apply lex_antisym|by apply lex_eq|by eapply ble_trans]. Qed.

(** Pairs, the first component first. *)
Definition pair_cmp {A B} (f : A -> A -> comparison) (g : B -> B -> comparison) (a b : A * B) : comparison :=
  cthen (f a.1 b.1) (g a.2 b.2).
#[export] Instance pair_total {A B} (f : A -> A -> comparison) (g : B -> B -> comparison) :
  TotalCmp f -> TotalCmp g -> TotalCmp (pair_cmp f g).
Proof.
  intros Hf Hg. split; unfold pair_cmp.
  - intros [a1 a2] [b1 b2]; cbn. rewrite (cmp_opp (cmp := f) a1 b1), (cmp_opp (cmp := g) a2 b2). by destruct (f a1 b1).
  - intros [a1 a2] [b1 b2]; cbn. destruct (f a1 b1) eqn:E; try done. intros E2. f_equal; by apply cmp_same.
  - intros [a1 a2] [b1 b2] [c1 c2]; cbn. pose proof (cmp_le_trans (cmp := f) a1 b1 c1) as Ht.
    destruct (f a1 b1) eqn:E1; [apply cmp_same in E1 as ->| |done].
    + destruct (f b1 c1) eqn:E2; [|done|done]. apply (cmp_le_trans (cmp := g) a2 b2 c2).
    + intros _. destruct (f b1 c1) eqn:E2; [apply cmp_same in E2 as ->; by rewrite E1| |done].
      intros _. destruct (f a1 c1) eqn:E3; [|done|by destruct Ht].
      apply cmp_same in E3 as ->. rewrite (cmp_opp (cmp := f) c1 b1), E1 in E2. done.
Qed.

#[export] Instance rank_total : TotalCmp rank_cmp.
Proof.
  pose (enc := fun r : Rank => let '(full, head, draw, id) := r in (full, (head, (draw, id)))).
  assert (E : forall a b, rank_cmp a b = pair_cmp cmp_bool (pair_cmp Z.compare (pair_cmp Z.compare lex)) (enc a) (enc b)).
  { intros [[[a1 a2] a3] a4] [[[b1 b2] b3] b4]. done. }
  split; intros; rewrite ?E in *; [apply cmp_opp| |by eapply cmp_le_trans].
  apply (cmp_same (cmp := pair_cmp _ _)) in H. destruct a as [[[]]], b as [[[]]]. cbn in H. congruence.
Qed.

Lemma cmp_refl {A} (cmp : A -> A -> comparison) `{TotalCmp A cmp} a : cmp a a = Eq.
Proof. pose proof (cmp_opp (cmp := cmp) a a) as E. by destruct (cmp a a). Qed.

Section Max.
Context {A : Type} (cmp : A -> A -> comparison) `{Hcmp : !TotalCmp cmp}.

Lemma max_of_from l : forall b, exists m,
  fold_left (fun best x => match best with Some b => match cmp b x with Gt => Some b | _ => Some x end | None => Some x end) l (Some b)
  = Some m /\ m ∈ b :: l /\ forall x, x ∈ b :: l -> cmp x m <> Gt.
Proof.
  induction l as [|y l IH]; intros b; cbn [fold_left].
  { exists b. split; [done|]. split; [by left|]. intros x ->%list_elem_of_singleton. by rewrite cmp_refl. }
  assert (exists c, (match cmp b y with Gt => Some b | _ => Some y end) = Some c /\ c ∈ [b; y] /\ cmp b c <> Gt /\ cmp y c <> Gt)
    as (c & -> & Hc & Hb & Hy).
  { pose proof (cmp_opp (cmp := cmp) b y) as Ey. destruct (cmp b y) eqn:E; [exists y|exists y|exists b];
      rewrite (cmp_refl cmp), ?E, ?Ey; cbn; (split; [done|]; split; [set_solver|]; by split). }
  destruct (IH c) as (m & -> & Hm & Hle). exists m. split; [done|]. split; [set_solver|].
  assert (Hcm : cmp c m <> Gt) by (apply Hle; left).
  intros x [->|[->|Hx]%elem_of_cons]%elem_of_cons; [by eapply cmp_le_trans|by eapply cmp_le_trans|]. apply Hle. by right.
Qed.

Lemma max_of_spec l : match max_of cmp l with None => l = [] | Some m => m ∈ l /\ forall x, x ∈ l -> cmp x m <> Gt end.
Proof.
  destruct l as [|b l]; [done|]. unfold max_of. cbn [fold_left]. destruct (max_of_from l b) as (m & -> & H). done.
Qed.

(** Only the elements decide. *)
Lemma max_of_set l l' : (forall x, x ∈ l <-> x ∈ l') -> max_of cmp l = max_of cmp l'.
Proof.
  intros E. pose proof (max_of_spec l) as H. pose proof (max_of_spec l') as H'.
  destruct (max_of cmp l) as [m|], (max_of cmp l') as [m'|]; [|subst l'|subst l|done].
  - destruct H as [Hm Hle], H' as [Hm' Hle']. f_equal. apply (cmp_same (cmp := cmp)).
    assert (H1 := Hle m' (proj2 (E _) Hm')). assert (H2 := Hle' m (proj1 (E _) Hm)).
    rewrite (cmp_opp (cmp := cmp) m m') in H1. by destruct (cmp m m').
  - destruct H as [Hm _]. by apply E, elem_of_nil in Hm.
  - destruct H' as [Hm _]. by apply E, elem_of_nil in Hm.
Qed.
End Max.

Lemma max_of_map {A B} (cmp : B -> B -> comparison) (f : A -> B) l :
  max_of cmp (map f l) = f <$> max_of (fun a b => cmp (f a) (f b)) l.
Proof.
  unfold max_of. change (None : option B) with (f <$> (None : option A)) at 1. generalize (None : option A).
  induction l as [|x l IH]; intros o; [done|]. cbn. rewrite <- IH. f_equal. destruct o as [b|]; [|done]. cbn. by destruct (cmp (f b) (f x)).
Qed.
Lemma max_of_ext {A} (cmp cmp' : A -> A -> comparison) l :
  (forall a b, a ∈ l -> b ∈ l -> cmp a b = cmp' a b) -> max_of cmp l = max_of cmp' l.
Proof.
  intros H. unfold max_of. assert (Hsub : forall x, x ∈ l -> x ∈ l) by done. revert Hsub. generalize l at 1 3 4.
  assert (Ho : forall b, None = Some b -> b ∈ l) by done. revert Ho. generalize (None : option A).
  intros o Ho k. revert o Ho. induction k as [|x k IH]; intros o Ho Hsub; [done|]. cbn [fold_left].
  assert (Hx : x ∈ l) by (apply Hsub; left). assert (Hk : forall y, y ∈ k -> y ∈ l) by (intros y Hy; apply Hsub; by right).
  destruct o as [b|].
  - rewrite (H b x) by auto. apply IH; [|done]. intros c. destruct (cmp' b x); intros [= <-]; auto.
  - apply IH; [|done]. by intros c [= <-].
Qed.

(** ** The choice of a holder *)

Lemma elem_of_filter_b {A} (f : A -> bool) l x : x ∈ List.filter f l <-> f x = true /\ x ∈ l.
Proof. rewrite !list_elem_of_In, filter_In. tauto. Qed.

Lemma rank_cmp_le scope full c c' : rank_cmp (rank_of scope full c') (rank_of scope full c) <> Gt ->
  (full && negb (is_draining c') = full && negb (is_draining c)) ->
  pv_head c' <= pv_head c /\ (pv_head c' = pv_head c -> rendezvous_hash scope (pv_id c') <= rendezvous_hash scope (pv_id c)).
Proof.
  unfold rank_cmp, rank_of. intros H E. rewrite E in H. rewrite (cmp_refl cmp_bool) in H. cbn in H.
  destruct (Z.compare_spec (pv_head c') (pv_head c)) as [Eh|Eh|Eh]; cbn in H; [|lia|done].
  split; [lia|]. intros _. destruct (Z.compare_spec (rendezvous_hash scope (pv_id c')) (rendezvous_hash scope (pv_id c))); [lia|lia|done].
Qed.

Lemma candidate_set cands cands' scope minv age full :
  (forall c, c ∈ cands' <-> c ∈ cands) ->
  select_holder cands' scope minv age full = select_holder cands scope minv age full.
Proof.
  intros E. unfold select_holder. f_equal. apply max_of_set; [apply _|]. intros x.
  rewrite !list_elem_of_fmap. by setoid_rewrite elem_of_filter_b; setoid_rewrite E.
Qed.

(** The node a request is routed to.  Of the candidates that were seen recently, that
    hold the asked version and, for a write, that are not draining the scope,
    it is one with the newest version, and of those the one the scope's draw
    favours; there is none exactly if no candidate qualifies.  The order of
    the answers and repetitions in them do not matter, and where no holder is
    draining, a write and a read go to the same node. *)
Theorem holder_selected (cands : list PeerView) (scope : Scope) (minv : option Version) (age : Z) (full : bool) :
  match select_holder cands scope minv age full with
  | None => forall c, c ∈ cands -> qualifies minv age full c = false
  | Some id => exists c, c ∈ cands /\ qualifies minv age full c = true /\ pv_id c = id
      /\ (full = true -> pv_state c = Replica) /\ (forall v, minv = Some v -> v <= pv_head c)
      /\ forall c', c' ∈ cands -> qualifies minv age full c' = true ->
           pv_head c' <= pv_head c
           /\ (pv_head c' = pv_head c -> rendezvous_hash scope (pv_id c') <= rendezvous_hash scope id)
  end
  /\ (forall cands', (forall c, c ∈ cands' <-> c ∈ cands) ->
        select_holder cands' scope minv age full = select_holder cands scope minv age full)
  /\ ((forall c, c ∈ cands -> pv_state c = Replica) ->
        select_holder cands scope minv age true = select_holder cands scope minv age false).
Proof.
  split; [|split].
  - unfold select_holder. pose proof (max_of_spec rank_cmp (map (rank_of scope full) (List.filter (qualifies minv age full) cands))) as H.
    destruct (max_of _ _) as [m|]; cbn.
    + destruct H as [(c & -> & [Hq Hc]%elem_of_filter_b)%list_elem_of_fmap Hle]. exists c.
      assert (Hfull : full && negb (is_draining c) = full).
      { revert Hq. unfold qualifies. destruct full; [|done]. destruct (is_draining c); cbn; rewrite ?andb_false_r; done. }
      split_and!; [done|done|done| | |].
      * intros ->. cbn in Hfull. revert Hfull. unfold is_draining. by destruct (pv_state c).
      * intros v ->. revert Hq. unfold qualifies. intros Hq. apply andb_prop in Hq as [[_ Hq]%andb_prop _]. by apply Z.leb_le.
      * intros c' Hc' Hq'. apply (rank_cmp_le scope full c c').
        { apply Hle, list_elem_of_fmap. exists c'. split; [done|]. by apply elem_of_filter_b. }
        rewrite Hfull. revert Hq'. unfold qualifies. destruct full; [|done]. destruct (is_draining c'); cbn; rewrite ?andb_false_r; done.
    + intros c Hc. destruct (qualifies minv age full c) eqn:Hq; [|done]. exfalso.
      assert (rank_of scope full c ∈ map (rank_of scope full) (List.filter (qualifies minv age full) cands)) as Hin.
      { apply list_elem_of_fmap. exists c. split; [done|]. by apply elem_of_filter_b. }
      rewrite H in Hin. by apply elem_of_nil in Hin.
  - intros cands' E. by apply candidate_set.
  - intros Hr. unfold select_holder.
    assert (Eq : List.filter (qualifies minv age true) cands = List.filter (qualifies minv age false) cands).
    { apply filter_ext_in. intros c Hc%list_elem_of_In. unfold qualifies, is_draining. by rewrite (Hr c Hc). }
    rewrite Eq, !max_of_map. set (l := List.filter _ _). rewrite (max_of_ext _ (fun a b => rank_cmp (rank_of scope false a) (rank_of scope false b)) l).
    + by destruct (max_of _ l).
    + intros a b [_ Ha]%elem_of_filter_b [_ Hb]%elem_of_filter_b. unfold rank_of, is_draining. by rewrite (Hr a Ha), (Hr b Hb).
Qed.
