(* ===== verification/ClientFacts.v ===== *)
(** * An application takes effect once or not at all

    The client's side of a transaction over a network that loses requests and
    replies: whatever the sequence of deferred and demanded operations, what
    the client is told at the end says what the nodes hold. *)

From S2P Require Import Prelude Bytes Skey SkeyRoundtrip SkeyOrder Keys Domain Kv Rows Tx Sample TxInv Announce Store StoreGc Repl ReplFacts Drain Apply Server ServerFacts Client.
From Stdlib Require Import ZArith Lia Strings.Byte.
From stdpp Require Import base list option strings sets.

Local Open Scope Z_scope.

(** ** A mesh of nodes

    Each call is delivered, or its request or its reply is lost; what locate and info
    queries answer is arbitrary. *)
Inductive fault := Delivered | RequestLost | ReplyLost.

Section Mesh.
Context {S : Type} {kvS : Kv S} {pcMeta : Postcard SyncMeta} {pcBody : Postcard MeasurementBody}.
Context (sha256 : bytes -> bytes) (new_v7 : Version -> nat -> bytes) (tx_idle_timeout : Duration).
Context (locates : nat -> Scope -> option Version -> option (list LocateResponse)) (infos : nat -> option (list (list byte)))
  (faults : nat -> fault).

Record Mesh := mkMesh { ms_nodes : list (list byte * (Env * @Server S)); ms_calls : nat }.
Definition node_at (w : Mesh) (node : list byte) : option (Env * @Server S) := vm_get (ms_nodes w) node.

Definition deliver {A} (node : list byte) (h : HM (S := S) A) (w : Mesh) : option (res ApplyError A) * Mesh :=
  match faults (ms_calls w), node_at w node with
  | RequestLost, _ | _, None => (None, mkMesh (ms_nodes w) (Datatypes.S (ms_calls w)))
  | f, Some (env, sv) =>
      let (r, sv') := h env sv in
      (match f, r with
       | Delivered, Ok a => Some (Ok a)
       | Delivered, Err (Some e) => Some (Err e)
       | _, _ => None
       end, mkMesh (vm_insert (ms_nodes w) node (env, sv')) (Datatypes.S (ms_calls w)))
  end.

Definition mesh_net : Net Mesh := {|
  net_locate := fun scope v w => (locates (ms_calls w) scope v, mkMesh (ms_nodes w) (Datatypes.S (ms_calls w)));
  net_info := fun w => (infos (ms_calls w), mkMesh (ms_nodes w) (Datatypes.S (ms_calls w)));
  net_apply := fun node req => deliver node (handle_apply sha256 new_v7 tx_idle_timeout req);
  net_commit := fun id => deliver id.2 (tx_commit id.1);
  net_rollback := fun id => deliver id.2 (tx_rollback id.1);
  net_peek := fun node req => deliver node (peek_table req);
|}.

(** ** What changed at the nodes *)

Definition every (R : @Server S -> @Server S -> Prop) (w0 w : Mesh) : Prop := forall node,
  option_Forall2 (fun a b => a.1 = b.1 /\ R a.2 b.2) (node_at w0 node) (node_at w node).
Definition same_rows (sv0 sv : @Server S) : Prop :=
  st_backend (sv_store sv) = st_backend (sv_store sv0) /\ table_events sv = table_events sv0.
Definition calm (sv0 sv : @Server S) : Prop := same_rows sv0 sv /\ same_registry sv0 sv.

(** Nothing was committed anywhere. *)
Definition untouched : Mesh -> Mesh -> Prop := every same_rows.

(** One node committed the operations, in one transaction, and announced their tables;
    no other node committed anything. *)
Definition committed_once (ops : list TxOp) (retention : option Duration) (w0 w : Mesh) : Prop :=
  exists node env sv0 sv s t last x t' minted,
    node_at w0 node = Some (env, sv0) /\ node_at w node = Some (env, sv)
    /\ st_backend (sv_store sv0) = Some s /\ snapshot env retention s t
    /\ apply_all sha256 new_v7 ops (mkServedTx t None minted) = (Ok last, x)
    /\ commit Committed (sx_tx x) = (Ok tt, t') /\ st_backend (sv_store sv) = Some (tx_store t')
    /\ table_events sv = table_events sv0 ++ announced_tables x
    /\ forall node', node' <> node -> option_Forall2 (fun a b => a.1 = b.1 /\ same_rows a.2 b.2) (node_at w0 node') (node_at w node').

Lemma every_refl (R : @Server S -> @Server S -> Prop) w : (forall sv, R sv sv) -> every R w w.
Proof. intros H node. destruct (node_at w node) as [[]|]; constructor. done. Qed.
Lemma every_weaken (R R' : @Server S -> @Server S -> Prop) w0 w : (forall a b, R a b -> R' a b) -> every R w0 w -> every R' w0 w.
Proof. intros H E node. destruct (E node) as [a b [H1 H2]|]; constructor. auto. Qed.
Lemma node_update w node e sv' n node' :
  node_at (mkMesh (vm_insert (ms_nodes w) node (e, sv')) n) node' = if decide (node' = node) then Some (e, sv') else node_at w node'.
Proof. unfold node_at. cbn. by rewrite vm_get_insert. Qed.
Lemma every_update (R : @Server S -> @Server S -> Prop) w0 w node env sv0 sv' n :
  every R w0 w -> node_at w0 node = Some (env, sv0) -> R sv0 sv' -> every R w0 (mkMesh (vm_insert (ms_nodes w) node (env, sv')) n).
Proof.
  intros E H0 HR node'. rewrite node_update. destruct (decide (node' = node)) as [->|]; [|apply E]. rewrite H0. by constructor.
Qed.

Lemma same_rows_trans a b c : same_rows a b -> same_rows b c -> same_rows a c.
Proof. unfold same_rows. intros [] []; split; congruence. Qed.

(** ** One operation after the other *)

Lemma apply_from_start i j ops last last' x r x' : apply_from sha256 new_v7 i ops last x = (Ok r, x') ->
  exists r', apply_from sha256 new_v7 j ops last' x = (Ok r', x').
Proof.
  revert i j last last' x. induction ops as [|op ops IH]; intros i j last last' x; cbn [apply_from].
  - intros [= <- <-]. eauto.
  - destruct (Apply.apply sha256 new_v7 op x) as [[a|e] x1]; [|done]. apply IH.
Qed.
Lemma apply_all_app ops1 ops2 x last1 x1 last2 x2 : apply_all sha256 new_v7 ops1 x = (Ok last1, x1) ->
  apply_all sha256 new_v7 ops2 x1 = (Ok last2, x2) -> exists last, apply_all sha256 new_v7 (ops1 ++ ops2) x = (Ok last, x2).
Proof.
  unfold apply_all. generalize 0%nat at 1 3 as i. generalize (@None TxOpResponse) at 1 3 as l0.
  revert x. induction ops1 as [|op ops1 IH]; intros x l0 i; cbn [apply_from app].
  - intros [= <- <-] H2. by eapply apply_from_start.
  - destruct (Apply.apply sha256 new_v7 op x) as [[a|e] x']; [|done]. apply IH.
Qed.

(** ** Requests on the mesh *)

(** Nodes answer under their own name, hold a database, and give new transactions new ids. *)
Definition mesh_ok (w : Mesh) : Prop := forall node env sv, node_at w node = Some (env, sv) ->
  node_id env = node /\ (exists s, st_backend (sv_store sv) = Some s)
  /\ (forall n, vm_get (st_transactions (sv_store sv)) (new_uuid env n) = None)
  /\ forall n, vm_get (sv_metadata sv) (new_uuid env n) = None.

Definition keeps_nodes {A} (f : Mesh -> option A * Mesh) : Prop := forall w, ms_nodes (f w).2 = ms_nodes w.
Lemma keeps_after {A B} (f : Mesh -> option A * Mesh) (k : A -> Mesh -> option B * Mesh) :
  keeps_nodes f -> (forall a, keeps_nodes (k a)) -> keeps_nodes (fun w => after (f w) k).
Proof. intros Hf Hk w. unfold after. specialize (Hf w). destruct (f w) as [[a|] w1]; cbn in *; [|done]. by rewrite (Hk a w1). Qed.
Lemma keeps_any scope : keeps_nodes (any_node mesh_net scope).
Proof. apply keeps_after; by intros. Qed.
Lemma keeps_rounds n scope v access : keeps_nodes (locate_rounds mesh_net n scope v access).
Proof.
  induction n as [|n IH]; [by intros w|]. apply keeps_after; [by intros w|]. intros l w. cbn beta zeta. destruct access; cbn; (case_match; [done|apply IH]).
Qed.
Lemma keeps_resolve constraint access : keeps_nodes (resolve mesh_net constraint access).
Proof.
  destruct constraint as [scope|scope v|]; cbn [resolve]; [| |by apply keeps_after; [apply keeps_any|by intros]].
  all: apply keeps_after; [apply keeps_rounds|].
  all: intros [best|] w; [done|]; try done.
  by apply (keeps_after (any_node mesh_net (Some scope))); [apply keeps_any|by intros].
Qed.

Lemma every_nodes (R : @Server S -> @Server S -> Prop) w0 w w' : ms_nodes w' = ms_nodes w -> every R w0 w -> every R w0 w'.
Proof. unfold every, node_at. by intros ->. Qed.

Section Attempts.
Context {A : Type} (h : HM (S := S) A) (w0 : Mesh).
Hypothesis Hh : forall node env sv0 sv e sv', node_at w0 node = Some (env, sv0) -> calm sv0 sv -> h env sv = (Err e, sv') -> calm sv0 sv'.

(** A node of the mesh has run the handler, and nothing else happened. *)
Definition ran (a : A) (w' : Mesh) : Prop := exists node env sv0 sv sv' w1 n, every calm w0 w1
  /\ node_at w0 node = Some (env, sv0) /\ calm sv0 sv /\ h env sv = (Ok a, sv')
  /\ w' = mkMesh (vm_insert (ms_nodes w1) node (env, sv')) n.

Definition outcome (r : option (res refusal A)) (w' : Mesh) : Prop :=
  match r with
  | Some (Err _) => every calm w0 w'
  | Some (Ok a) => ran a w'
  | None => every calm w0 w' \/ exists a, ran a w'
  end.

Lemma deliver_outcome node w : every calm w0 w ->
  match deliver node h w with
  | (Some (Err _), w') => every calm w0 w'
  | (Some (Ok a), w') => ran a w'
  | (None, w') => every calm w0 w' \/ exists a, ran a w'
  end.
Proof.
  intros Hw. unfold deliver. pose proof (Hw node) as Hn.
  destruct (node_at w node) as [[env sv]|] eqn:Ew; [|by destruct (faults (ms_calls w)); left].
  inversion Hn as [[env0 sv0] ? [E0 Hc] E1 E2|]; subst. cbn in E0, Hc. subst env0.
  assert (Hgo : forall n, let (r, sv') := h env sv in
    match r with Ok a => ran a (mkMesh (vm_insert (ms_nodes w) node (env, sv')) n)
    | Err _ => every calm w0 (mkMesh (vm_insert (ms_nodes w) node (env, sv')) n) end).
  { intros n. destruct (h env sv) as [[a|e] sv'] eqn:Eh.
    - exists node, env, sv0, sv, sv', w, n. by split_and!.
    - eapply every_update; [done|done|by eapply Hh]. }
  specialize (Hgo (Datatypes.S (ms_calls w))). destruct (h env sv) as [[a|[e|]] sv'], (faults (ms_calls w)); eauto.
Qed.

Lemma attempts_outcome n find : keeps_nodes find -> forall w, every calm w0 w ->
  let (r, w') := attempts n find (fun node => deliver node h) w in outcome r w'.
Proof.
  intros Hf. induction n as [|n IH]; intros w Hw; cbn [attempts]; unfold after at 1; specialize (Hf w);
    destruct (find w) as [[[node|e]|] w1]; cbn in Hf; pose proof (every_nodes _ _ _ _ Hf Hw) as Hw1; try done; try (by left); try (by apply IH).
  all: pose proof (deliver_outcome node w1 Hw1) as Hd; unfold after; destruct (deliver node h w1) as [[[a|e]|] w2]; try done.
  by apply IH.
Qed.
End Attempts.

(** ** Applications *)

Section Application.
Context (w0 : Mesh) (Hok : mesh_ok w0).

Lemma new_failed c access retention ops finish node env sv0 sv e sv' :
  node_at w0 node = Some (env, sv0) -> calm sv0 sv ->
  apply_new sha256 new_v7 tx_idle_timeout c access retention ops finish env sv = (Err e, sv') -> calm sv0 sv'.
Proof.
  intros H0 [[Hb He] [Hr Hm]] Hrun. destruct (Hok _ _ _ H0) as (_ & (s & Hs) & Hf & Hf').
  pose proof (application_result sha256 new_v7 tx_idle_timeout env sv sv' s c access retention ops finish (Err e)) as H.
  cbn in H. rewrite Hb, Hr, Hm in H. destruct (H Hs Hf Hf' Hrun) as (H1 & [H2 H3] & H4). unfold calm, same_rows, same_registry. split; split; congruence.
Qed.

(** A transaction is open at a node, with these operations applied. *)
Definition holds_open (ops : list TxOp) (retention : option Duration) (id : TxId) (w : Mesh) : Prop :=
  exists env sv0 sv s t minted last x,
    node_at w0 id.2 = Some (env, sv0) /\ node_at w id.2 = Some (env, sv) /\ st_backend (sv_store sv0) = Some s
    /\ snapshot env retention s t /\ apply_all sha256 new_v7 ops (mkServedTx t None minted) = (Ok last, x) /\ registered id.1 sv x.

Definition effect_of (finish : Finish) (ops : list TxOp) (retention : option Duration) (id : option TxId) (w : Mesh) : Prop :=
  match finish with
  | KeepOpen => untouched w0 w /\ exists id', id = Some id' /\ holds_open ops retention id' w
  | Commit => id = None /\ committed_once ops retention w0 w
  | Rollback => id = None /\ untouched w0 w
  end.

Lemma untouched_calm w : every calm w0 w -> untouched w0 w.
Proof. apply every_weaken. by intros a b []. Qed.

(** A new transaction that ran at a node. *)
Lemma new_ran c access retention ops finish a w' :
  ran (apply_new sha256 new_v7 tx_idle_timeout c access retention ops finish) w0 a w' -> effect_of finish ops retention (tx_of a) w'.
Proof.
  intros (node & env & sv0 & sv & sv' & w1 & n & Hw1 & H0 & [[Hb He] [Hr Hm]] & Hrun & ->).
  destruct (Hok _ _ _ H0) as (Hnode & (s & Hs) & Hf & Hf'). pose proof (apply_new_node _ _ _ _ _ _ _ _ _ _ _ _ Hrun) as Hme.
  pose proof (application_result sha256 new_v7 tx_idle_timeout env sv sv' s c access retention ops finish (Ok a)) as H.
  cbn in H. rewrite Hb, Hr, Hm in H. destruct (H Hs Hf Hf' Hrun) as (t & x & Hsnap & Ha & Hfin). clear H.
  apply untouched_calm in Hw1. unfold applied in Ha. unfold effect_of, tx_of.
  assert (Hat : forall m, node_at (mkMesh (vm_insert (ms_nodes w1) node (env, sv')) m) node = Some (env, sv')).
  { intros m. rewrite node_update. by rewrite decide_True. }
  destruct finish.
  - destruct Hfin as (Hb' & He' & id & lu & Hid & Ht & Hmd & Hmi). rewrite Hid. cbn. split.
    + eapply every_update; [done|done|]. split; congruence.
    + eexists. split; [reflexivity|]. rewrite Hme, Hnode. exists env, sv0, sv', s, t, (sv_minted sv), (ar_last a), x.
      split_and!; try done. split; [|done]. eexists _, _. rewrite Ht. apply vm_get_insert_eq.
  - destruct Hfin as (_ & -> & He' & t' & Hc & Hb'). split; [done|].
    exists node, env, sv0, sv', s, t, (ar_last a), x, t', (sv_minted sv). rewrite He', He. split_and!; try done.
    intros node' Hne. rewrite node_update. rewrite decide_False by done. apply Hw1.
  - destruct Hfin as (Hb' & _ & He' & ->). split; [done|]. eapply every_update; [done|done|]. split; congruence.
Qed.

(** The same of one that is open, continued. *)
Lemma open_ran ops0 retention id ops finish env sv w sv' a n : untouched w0 w -> holds_open ops0 retention id w ->
  node_at w id.2 = Some (env, sv) -> apply_existing sha256 new_v7 id.1 ops finish env sv = (Ok a, sv') ->
  effect_of finish (ops0 ++ ops) retention (tx_of a) (mkMesh (vm_insert (ms_nodes w) id.2 (env, sv')) n).
Proof.
  intros Hw (env1 & sv0 & sv1 & s & t & minted & last & x & H0 & H1 & Hs & Hsnap & Ha & Hreg) E Hrun.
  rewrite E in H1. injection H1 as <- <-. destruct (Hok _ _ _ H0) as (Hnode & _).
  pose proof (existing_result sha256 new_v7 tx_idle_timeout env sv sv' id.1 ops finish x (Ok a) Hreg Hrun) as (x' & Ha' & Hme & Hfin).
  destruct (apply_all_app _ _ _ _ _ _ _ Ha Ha') as (last' & Happ).
  pose proof (Hw id.2) as Hid. rewrite H0, E in Hid. inversion Hid as [? ? [_ [Hb He]]|]; subst. cbn in Hb, He.
  unfold effect_of, tx_of. destruct finish.
  - destruct Hfin as (-> & Hr & Hb' & He'). cbn. split.
    + eapply every_update; [done|done|]. split; congruence.
    + eexists. split; [reflexivity|]. rewrite Hme, Hnode. exists env, sv0, sv', s, t, minted, last', x'. cbn [fst snd].
      rewrite node_update. rewrite decide_True by done. done.
  - destruct Hfin as (-> & He' & t' & Hc & Hb'). split; [done|].
    exists id.2, env, sv0, sv', s, t, last', x', t', minted. rewrite He', He, node_update. rewrite decide_True by done. split_and!; try done.
    intros node' Hne. rewrite node_update. rewrite decide_False by done. apply Hw.
  - destruct Hfin as (-> & Hb' & He'). split; [done|]. eapply every_update; [done|done|]. split; congruence.
Qed.

(** Where an application stands that is not poisoned: nothing was sent, or its transaction
    is open. *)
Definition standing (ops : list TxOp) (a : Application) (w : Mesh) : Prop :=
  match ap_tx a with
  | None => ops = [] /\ every calm w0 w
  | Some id => untouched w0 w /\ holds_open ops (ap_retention a) id w
  end.
Definition target_of (a : Application) : Target :=
  match ap_tx a with Some id => Existing id | None => New (ap_constraint a) (ap_access a) (ap_retention a) end.

Lemma effect_untouched finish ops retention id w : finish <> Commit -> effect_of finish ops retention id w -> untouched w0 w.
Proof. destruct finish; [by intros _ []|done|by intros _ []]. Qed.

Lemma send_result ops0 a w ops finish : standing ops0 a w ->
  match send_apply mesh_net (mkApplyRequest (target_of a) ops finish) w with
  | (Some (Ok resp), w') => effect_of finish (ops0 ++ ops) (ap_retention a) (tx_of resp) w'
  | (Some (Err _), w') => untouched w0 w'
  | (None, w') => untouched w0 w' \/ exists id, effect_of finish (ops0 ++ ops) (ap_retention a) id w'
  end.
Proof.
  unfold standing, target_of. destruct (ap_tx a) as [id|].
  - intros [Hw Ho]. pose proof Ho as (env & sv0 & sv & s & t & m & l & x & H0 & H1 & _ & _ & _ & Hreg).
    unfold send_apply, after. cbn [rq_target mesh_net net_apply]. unfold deliver. rewrite H1. cbn [handle_apply rq_target rq_ops rq_finish].
    destruct (apply_existing sha256 new_v7 id.1 ops finish env sv) as [r sv'] eqn:Hrun.
    set (w' := mkMesh (vm_insert _ _ _) _).
    assert (Hdone : match r with Ok resp => effect_of finish (ops0 ++ ops) (ap_retention a) (tx_of resp) w' | Err _ => untouched w0 w' end).
    { destruct r as [resp|e]; [by eapply open_ran|].
      destruct (existing_result sha256 new_v7 tx_idle_timeout env sv sv' id.1 ops finish x (Err e) Hreg Hrun) as [Hb He].
      eapply every_update; [done|exact H0|]. pose proof (Hw id.2) as Hid. rewrite H0, H1 in Hid. inversion Hid as [? ? [_ Hr]|]; subst.
      eapply same_rows_trans; [exact Hr|]. by split. }
    destruct (faults (ms_calls w)); [|by left|]; destruct r as [resp|[e|]]; cbn; eauto.
  - intros [-> Hw]. unfold send_apply. cbn [rq_target].
    pose proof (attempts_outcome (apply_new sha256 new_v7 tx_idle_timeout (ap_constraint a) (ap_access a) (ap_retention a) ops finish) w0
      (fun node env sv0 sv e sv' => new_failed _ _ _ _ _ node env sv0 sv e sv') (Nat.pred APPLY_ATTEMPTS) _ (keeps_resolve (ap_constraint a) (ap_access a)) w Hw) as H.
    cbn [mesh_net net_apply handle_apply rq_target rq_ops rq_finish]. fold (@deliver ApplyResponse).
    destruct (attempts _ _ _ w) as [[[resp|e]|] w']; cbn [outcome] in H.
    + by apply new_ran in H.
    + by apply untouched_calm.
    + destruct H as [H|(resp & H)]; [left; by apply untouched_calm|right]. eexists. by apply new_ran in H.
Qed.

(** ** Programs *)

Inductive app_step := Defer (op : TxOp) | Demand (op : TxOp) | NameTx.
Definition step_ops (st : app_step) : list TxOp := match st with Defer op | Demand op => [op] | NameTx => [] end.
Definition app_turn (st : app_step) (a : Application) (w : Mesh) : Application * Mesh :=
  match st with
  | Defer op => ((defer_op op a).2, w)
  | Demand op => let '(_, a, w) := apply_op mesh_net op a w in (a, w)
  | NameTx => let '(_, a, w) := app_tx_id mesh_net a w in (a, w)
  end.
Fixpoint app_run (steps : list app_step) (a : Application) (w : Mesh) : Application * Mesh :=
  match steps with
  | [] => (a, w)
  | st :: steps => let (a, w) := app_turn st a w in app_run steps a w
  end.

(** The program so far: what was applied and what is pending, unless something failed. *)
Definition app_inv (ops : list TxOp) (retention : option Duration) (a : Application) (w : Mesh) : Prop :=
  if ap_poisoned a then untouched w0 w
  else ap_retention a = retention /\ exists done_, ops = done_ ++ ap_pending a /\ standing done_ a w.

Lemma flush_keeps ops retention tail a w : app_inv ops retention a w ->
  let '(r, a', w') := flush mesh_net tail KeepOpen a w in app_inv (ops ++ option_list tail) retention a' w'.
Proof.
  unfold app_inv, flush. destruct (ap_poisoned a) eqn:Ep; [by rewrite Ep|]. intros (<- & done_ & -> & Hst).
  fold (target_of a). pose proof (send_result done_ a w (ap_pending a ++ option_list tail) KeepOpen Hst) as H.
  destruct (send_apply mesh_net _ w) as [[[resp|e]|] w']; cbn [ap_poisoned ap_retention ap_pending].
  - split; [done|]. exists (done_ ++ ap_pending a ++ option_list tail). rewrite app_nil_r, app_assoc. split; [done|].
    unfold standing. cbn [ap_tx ap_retention]. destruct H as (Hw & id & -> & Ho). by rewrite app_assoc in Ho.
  - exact H.
  - destruct H as [H|(id & H)]; [exact H|]. by apply (effect_untouched KeepOpen _ _ _ _ ltac:(done) H).
Qed.

Lemma turn_keeps ops retention st a w : app_inv ops retention a w ->
  let (a', w') := app_turn st a w in app_inv (ops ++ step_ops st) retention a' w'.
Proof.
  intros Hi. destruct st as [op|op|]; cbn [app_turn step_ops].
  - unfold app_inv, defer_op in *. destruct (ap_poisoned a) eqn:Ep; cbn; [by rewrite Ep|].
    destruct Hi as (Hr & done_ & -> & Hst). split; [done|]. exists done_. by rewrite app_assoc.
  - unfold apply_op. pose proof (flush_keeps ops retention (Some op) a w Hi) as H. by destruct (flush _ _ _ _ _) as [[r a'] w'].
  - unfold app_tx_id. rewrite app_nil_r. pose proof (flush_keeps ops retention None a w Hi) as H. cbn in H. rewrite app_nil_r in H.
    destruct (ap_tx a); [destruct (ap_pending a)|]; [done|..]; by destruct (flush _ _ _ _ _) as [[r a'] w'].
Qed.

Lemma run_keeps retention steps : forall ops a w, app_inv ops retention a w ->
  let (a', w') := app_run steps a w in app_inv (ops ++ concat (map step_ops steps)) retention a' w'.
Proof.
  induction steps as [|st steps IH]; intros ops a w Hi; cbn [app_run map concat]; [by rewrite app_nil_r|].
  pose proof (turn_keeps ops retention st a w Hi) as H. destruct (app_turn st a w) as [a1 w1]. rewrite app_assoc. by apply IH.
Qed.

Lemma rollback_rows id sv env : same_rows sv (tx_rollback (S := S) id env sv).2.
Proof.
  unfold tx_rollback, remove_tx, remove_remote_tx, mbind, HM_bind, hstore, hprim. cbn.
  by destruct (vm_get (st_transactions (sv_store sv)) id).
Qed.

Lemma deliver_untouched {A} node (h : HM (S := S) A) w : (forall env sv, same_rows sv (h env sv).2) ->
  untouched w0 w -> untouched w0 (deliver node h w).2.
Proof.
  intros Hh Hw. unfold deliver. destruct (node_at w node) as [[env sv]|] eqn:E; [|by destruct (faults (ms_calls w))].
  pose proof (Hw node) as Hn. rewrite E in Hn. inversion Hn as [[env0 sv0] ? [E0 Hr] E1|]; subst. cbn in E0, Hr. subst env0.
  specialize (Hh env sv). destruct (h env sv) as [r sv']. cbn in Hh.
  assert (forall n, untouched w0 (mkMesh (vm_insert (ms_nodes w) node (env, sv')) n)).
  { intros n. eapply every_update; [done|symmetry; exact E1|]. by eapply same_rows_trans. }
  destruct (faults (ms_calls w)); by cbn.
Qed.

Lemma commit_outcome ops retention a w : app_inv ops retention a w ->
  let (r, w') := app_commit mesh_net a w in
  match r with
  | Ok _ => ops = [] /\ untouched w0 w' \/ committed_once ops retention w0 w'
  | Err (Refused _) => untouched w0 w'
  | Err Unreachable => untouched w0 w' \/ committed_once ops retention w0 w'
  end.
Proof.
  unfold app_inv, app_commit. destruct (ap_poisoned a) eqn:Ep; [done|]. intros (<- & done_ & -> & Hst).
  unfold app_is_empty. destruct (bool_decide (ap_tx a = None) && bool_decide (ap_pending a = [])) eqn:Ee.
  { apply andb_prop in Ee as [Ht%bool_decide_eq_true Hp%bool_decide_eq_true]. unfold standing in Hst. rewrite Ht in Hst.
    destruct Hst as [-> Hw]. left. rewrite Hp. split; [done|]. by apply untouched_calm. }
  unfold flush. rewrite Ep. fold (target_of a). cbn [option_list]. rewrite app_nil_r.
  pose proof (send_result done_ a w (ap_pending a) Commit Hst) as H.
  destruct (send_apply mesh_net _ w) as [[[resp|e]|] w']; cbn.
  - right. apply H.
  - exact H.
  - destruct H as [H|(id & _ & H)]; [by left|by right].
Qed.

Lemma rollback_outcome ops retention a w : app_inv ops retention a w -> untouched w0 (app_rollback mesh_net a w).2.
Proof.
  unfold app_inv, app_rollback. destruct (ap_poisoned a); [done|]. intros (_ & done_ & _ & Hst). unfold standing in Hst.
  destruct (ap_tx a) as [id|]; [|by apply untouched_calm, Hst]. destruct Hst as [Hw _]. cbn [mesh_net net_rollback].
  pose proof (deliver_untouched id.2 (tx_rollback id.1) w (fun env sv => rollback_rows id.1 sv env) Hw) as H.
  by destruct (deliver id.2 (tx_rollback id.1) w) as [[[u|e]|] w'].
Qed.
End Application.

(** C21. An application takes effect once or not at all.  A client builds it up by deferring
    operations, demanding results and naming its transaction, in any order and
    with any of its requests and replies lost; then, if its commit succeeds,
    one node has committed exactly its operations, in the order of the
    program and in one transaction, and announced their tables, and no other
    node has committed anything; if it is refused, nothing was committed
    anywhere; and if the node could not be reached, either of the two.  After
    a rollback nothing was committed. *)
Theorem application_once (w0 w : Mesh) (a0 a : Application) (steps : list app_step)
    (Hok : mesh_ok w0) (Hnew : ap_tx a0 = None /\ ap_pending a0 = [] /\ ap_poisoned a0 = false)
    (Hrun : app_run steps a0 w0 = (a, w)) :
  let ops := concat (map step_ops steps) in
  (let (r, w') := app_commit mesh_net a w in
   match r with
   | Ok _ => ops = [] /\ untouched w0 w' \/ committed_once ops (ap_retention a0) w0 w'
   | Err (Refused _) => untouched w0 w'
   | Err Unreachable => untouched w0 w' \/ committed_once ops (ap_retention a0) w0 w'
   end)
  /\ untouched w0 (app_rollback mesh_net a w).2.
Proof.
  intros ops. destruct Hnew as (Ht & Hp & Hn).
  assert (H0 : app_inv w0 [] (ap_retention a0) a0 w0).
  { unfold app_inv. rewrite Hn. split; [done|]. exists []. rewrite Hp. split; [done|]. unfold standing. rewrite Ht. split; [done|].
    apply every_refl. by intros sv. }
  pose proof (run_keeps w0 Hok (ap_retention a0) steps [] a0 w0 H0) as H. rewrite Hrun in H. cbn in H.
  split; [by apply commit_outcome|by eapply rollback_outcome].
Qed.
End Mesh.

(** ** Examples *)

Import Sample.

(** One node, found by asking who is there, and a network that loses nothing. *)
Definition quiet_locates (n : nat) (scope : Scope) (v : option Version) : option (list LocateResponse) := Some [].
Definition sample_infos (n : nat) : option (list (list byte)) := Some [node_id sample_env].
Definition sample_mesh : Mesh (S := MapKv.store) := mkMesh [(node_id sample_env, (sample_env, sample_server))] 0.
Definition sample_steps : list app_step :=
  [Defer (TbAppend Sample.scope (lit "t") None [x2a]); Demand (TbCount Sample.scope (lit "t")); Defer (KeyPut Sample.scope (lit "a") [x01])].
Abbreviation sample_net faults := (mesh_net sample_sha sample_v7 (10 ^ 9) quiet_locates sample_infos faults) (only parsing).
Abbreviation sample_run faults :=
  (app_run sample_sha sample_v7 (10 ^ 9) quiet_locates sample_infos faults sample_steps (app_new (Routed Sample.scope)) sample_mesh)
  (only parsing).

Lemma sample_mesh_ok : mesh_ok sample_mesh.
Proof.
  intros node env sv. unfold node_at, sample_mesh. cbn [ms_nodes vm_get]. destruct (decide (node = node_id sample_env)) as [->|]; [|discriminate].
  intros [= <- <-]. split; [done|]. split; [by eexists|]. done.
Qed.

Lemma application_once_witness :
  exists w', app_commit (sample_net (fun _ => Delivered)) (sample_run (fun _ => Delivered)).1 (sample_run (fun _ => Delivered)).2 = (Ok tt, w')
    /\ committed_once sample_sha sample_v7 (concat (map step_ops sample_steps)) None sample_mesh w'.
Proof.
  assert (Hc : is_ok (app_commit (sample_net (fun _ => Delivered)) (sample_run (fun _ => Delivered)).1 (sample_run (fun _ => Delivered)).2).1 = true)
    by (vm_compute; reflexivity).
  destruct (sample_run (fun _ => Delivered)) as [a w] eqn:E. cbn [fst snd] in *.
  destruct (application_once sample_sha sample_v7 (10 ^ 9) quiet_locates sample_infos (fun _ => Delivered) sample_mesh w
    (app_new (Routed Sample.scope)) a sample_steps sample_mesh_ok (conj eq_refl (conj eq_refl eq_refl)) E) as [H _].
  destruct (app_commit _ a w) as [[[]|e] w']; [|discriminate Hc].
  exists w'. split; [reflexivity|]. destruct H as [[Hops _]|H]; [discriminate Hops|exact H].
Defined.

(** A lost reply leaves the client in doubt, with everything committed. *)
Lemma lost_reply_in_doubt :
  let faults n := if decide (n = 5%nat) then ReplyLost else Delivered in
  let (a, w) := sample_run faults in (app_commit (sample_net faults) a w).1 = Err Unreachable.
Proof. vm_compute. reflexivity. Qed.
