(* ===== verification/MailboxDrain.v ===== *)
(** * Clearing a mailbox over the network

    [drain_commands] of [cell-mailbox/src/command.rs]: the mailbox is listed
    and emptied by requests in one transaction, which the client then commits.
    When it succeeds, it returned what the mailbox held and left it empty; but
    a request that is lost on the way makes it fail and commit what it had
    removed so far. *)

From S2P Require Import Prelude Bytes Skey SkeyRoundtrip SkeyOrder Keys KeyScan Domain Kv Rows RowsFacts Scans Tx Sample TxKeys TxInv TxReads TxScans TxListings TxSync.
From S2P Require Import TxOrder Announce Store StoreGc Repl ReplFacts Apply Server ServerFacts Mailbox MailboxFacts MailboxRead MailboxSend Client ClientFacts.
From Stdlib Require Import ZArith Lia Strings.Byte Sorting.Sorted.
From stdpp Require Import base list option strings sets.

Local Open Scope Z_scope.

Section DrainCommands.
Context {W : Type} (net : Net W) `{Postcard MailboxCommand}.

Fixpoint drain_entities (id : TxId) (scope : Scope) (entities : list (Id * bytes)) (w : W)
  : res mb_error (list MailboxCommand) * W :=
  match entities with
  | [] => (Ok [], w)
  | (eid, value) :: entities =>
      match send_op net id (TbDelete scope MESSAGES_TABLE eid) w with
      | (None, w) => (Err MbComm, w)
      | (Some (Ok RespDone), w) =>
          let (r, w) := drain_entities id scope entities w in
          ((fun commands => option_list (from_bytes value) ++ commands) <$> r, w)
      | (Some _, w) => (Err MbDb, w)
      end
  end.

Definition drain_in_tx (id : TxId) (scope : Scope) (w : W) : res mb_error (list MailboxCommand) * W :=
  match send_op net id (TbList scope MESSAGES_TABLE None None None) w with
  | (None, w) => (Err MbComm, w)
  | (Some (Ok (RespEntities entities)), w) => drain_entities id scope entities w
  | (Some _, w) => (Err MbDb, w)
  end.

(** What the function returns to the transaction is a success, also when it holds an
    error. *)
Definition drain_commands (sri : str) (w : W) : res mb_error (list MailboxCommand) * W :=
  let scope := scope_of_cell sri in
  match write_tx_constrained net (E := Empty_set) (Routed scope) None (fun id w => let (r, w) := drain_in_tx id scope w in (Ok r, w)) w with
  | (Ok r, w) => (r, w)
  | (Err _, w) => (Err MbComm, w)
  end.
End DrainCommands.

(** ** Requests of an open transaction *)

Section Drained.
Context {S : Type} {kvS : Kv S} {kvLaws : KvLaws S} {pcMeta : Postcard SyncMeta} {pcMetaLaws : PostcardLaws SyncMeta}
  {pcBody : Postcard MeasurementBody} {pcCommand : Postcard MailboxCommand}.
Context (sha256 : bytes -> bytes) (new_v7 : Version -> nat -> bytes) (tx_idle_timeout : Duration).
Context (locates : nat -> Scope -> option Version -> option (list LocateResponse)) (infos : nat -> option (list (list byte)))
  (faults : nat -> fault).
Context (w0 : Mesh (S := S)) (Hok : mesh_ok w0).
Let net : Net Mesh := mesh_net sha256 new_v7 tx_idle_timeout locates infos faults.

(** The transaction is open at its node, in this state. *)
Definition open_at (id : TxId) (w : Mesh) (x : @ServedTx S) : Prop :=
  exists env sv, node_at w id.2 = Some (env, sv) /\ node_id env = id.2 /\ registered id.1 sv x.

Lemma op_sent id op w x resp w' : open_at id w x -> send_op net id op w = (Some (Ok resp), w') ->
  exists x', Apply.apply sha256 new_v7 op x = (Ok resp, x') /\ open_at id w' x'.
Proof.
  intros (env & sv & Hat & Hid & Hreg). unfold send_op, send_apply, after. cbn [rq_target net mesh_net net_apply].
  unfold deliver. rewrite Hat. cbn [handle_apply rq_target rq_ops rq_finish].
  destruct (apply_existing sha256 new_v7 id.1 [op] KeepOpen env sv) as [r sv'] eqn:Hrun.
  pose proof (existing_result sha256 new_v7 tx_idle_timeout env sv sv' id.1 [op] KeepOpen x r Hreg Hrun) as H.
  destruct (faults (ms_calls w)); [|done|by destruct r as [|[]]]. destruct r as [a|[e|]]; [|done|done]. cbn.
  destruct H as (x' & Ha & _ & _ & Hreg' & _). intros E. exists x'.
  unfold apply_all in Ha. cbn [apply_from] in Ha. destruct (Apply.apply sha256 new_v7 op x) as [[resp'|e] x1]; [|done].
  injection Ha as Hl <-. rewrite <- Hl in E. cbn in E. injection E as <- <-. split; [done|].
  exists env, sv'. split; [|done]. rewrite node_update. by rewrite decide_True.
Qed.

Lemma entities_sent id scope entities : forall w x cmds w', open_at id w x ->
  drain_entities net id scope entities w = (Ok cmds, w') ->
  exists x', clear_entities (mkTable scope MESSAGES_TABLE) entities (sx_tx x) = (Ok cmds, sx_tx x') /\ open_at id w' x'.
Proof.
  induction entities as [|[eid value] entities IH]; intros w x cmds w' Hat; cbn [drain_entities clear_entities].
  { intros [= <- <-]. by exists x. }
  destruct (send_op net id _ w) as [[[resp|e]|] w1] eqn:Es; try done. destruct (op_sent _ _ _ _ _ _ Hat Es) as (x1 & Ha & Hat1).
  destruct resp; try done. destruct (drain_entities net id scope entities w1) as [[cs|e] w2] eqn:Ed; [|done].
  cbn. intros [= <- <-]. destruct (IH _ _ _ _ Hat1 Ed) as (x' & Hc & Hat'). exists x'. split; [|done].
  unfold Apply.apply, done_, on_tx, mbind, AM_bind in Ha. destruct (tb_delete _ eid (sx_tx x)) as [[u|e] t1] eqn:Et; [|done]. cbn in Ha.
  injection Ha as Hx. assert (sx_tx x1 = t1) as Ht by (by rewrite <- Hx). rewrite Ht in Hc.
  rewrite (tx_bind_ok _ _ _ _ _ Et), (tx_bind_ok _ _ _ _ _ Hc). by destruct (from_bytes value).
Qed.

Lemma drain_sent id scope w x cmds w' : open_at id w x -> drain_in_tx net id scope w = (Ok cmds, w') ->
  exists x', clear_table scope (sx_tx x) = (Ok cmds, sx_tx x') /\ open_at id w' x'.
Proof.
  intros Hat. unfold drain_in_tx. destruct (send_op net id _ w) as [[[resp|e]|] w1] eqn:Es; try done.
  destruct (op_sent _ _ _ _ _ _ Hat Es) as (x1 & Ha & Hat1). destruct resp as [| | | | | | | |entities| | | |]; try done.
  intros Hd. destruct (entities_sent _ _ _ _ _ _ _ Hat1 Hd) as (x' & Hc & Hat'). exists x'. split; [|done].
  unfold Apply.apply, on_tx, fmap, AM_fmap in Ha. destruct (tb_list _ _ _ _ (sx_tx x)) as [[l|e] t1] eqn:Et; [|done]. cbn in Ha.
  injection Ha as -> Hx. unfold clear_table. rewrite (tx_bind_ok _ _ _ _ _ Et).
  assert (sx_tx x1 = t1) as <- by (by rewrite <- Hx). exact Hc.
Qed.

Lemma commit_sent id w x w' : open_at id w x -> net_commit net id w = (Some (Ok tt), w') ->
  exists env sv' t', node_at w' id.2 = Some (env, sv') /\ commit Committed (sx_tx x) = (Ok tt, t') /\ st_backend (sv_store sv') = Some (tx_store t').
Proof.
  intros (env & sv & Hat & Hid & (timeout & lu & Ht) & Hm & Hn). cbn [net mesh_net net_commit]. unfold deliver. rewrite Hat.
  destruct (tx_commit id.1 env sv) as [r sv'] eqn:Hrun. destruct (faults (ms_calls w)); [|done|by destruct r as [|[]]].
  destruct r as [[]|[e|]]; [|done|done]. intros [= <-].
  unfold tx_commit, mbind, HM_bind, hprim, remove_tx, remove_remote_tx, mbind, HM_bind, hstore, hprim in Hrun. cbn in Hrun.
  rewrite Hm, Ht in Hrun. cbn in Hrun. rewrite Hn in Hrun. replace (mkServedTx (sx_tx x) (sx_metadata x) (sx_minted x)) with x in Hrun by (by destruct x).
  apply finish_commit_spec in Hrun as (_ & _ & (t' & Hc & Hb) & _). exists env, sv', t'.
  rewrite node_update. rewrite decide_True by done. done.
Qed.

(** ** What a drain leaves *)

Context (Hser : serialises).

Lemma drained_committed scope p t cmds t' t'' :
  tx_ok t -> active_scopes t = [] -> tx_retention t = None -> scope_valid scope -> encode (mkTable scope MESSAGES_TABLE) = Ok p ->
  (forall id, id_valid id -> ~ newer (tx_store t) (ent p id) (tx_ts t)) ->
  clear_table scope t = (Ok cmds, t') -> commit Committed t' = (Ok tt, t'') ->
  exists rows, table_rows (tx_store t) p rows /\ cmds = commands_of rows /\ table_rows (tx_store t'') p [].
Proof.
  intros Ht Hact Hret Hsc Hp Hclock Hc Hcommit.
  assert (Htb : table_valid (mkTable scope MESSAGES_TABLE)) by (split; [done|vm_compute; reflexivity]).
  destruct (table_cleared scope p t Ht Hsc Hp Hclock Hact) as (rows & t1 & Hrows & Hc1 & Ht1 & Hempty & Hs1 & Hn1 & Hr1).
  rewrite Hc in Hc1. injection Hc1 as -> <-. exists rows. split; [done|]. split; [done|].
  destruct (scope_raw _ p Htb Hp) as [raw Hraw].
  destruct (commit_keeps_rows t' t'' Hser Ht1 Hn1) as [Hs'' Hver]; [by rewrite Hr1| |exact Hcommit|].
  { apply Forall_forall. intros sc Hin. apply Hs1, list_elem_of_singleton in Hin as ->. change (is_ok (encode scope) = true).
    cbn [tb_scope] in Hraw. by rewrite Hraw. }
  destruct Hempty as [_ Hempty]. split; [constructor|]. intros x w. rewrite Hempty. split; intros [Hx (ts & Hl)]; (split; [done|exists ts]).
  all: assert (in_region data_tag (ent p x) = true) as Hd by (by apply (stored_region (tb_scope (mkTable scope MESSAGES_TABLE))), row_stored).
  all: revert Hl; unfold newest; by setoid_rewrite Hver.
Qed.

Lemma begin_sent scope id w : send_begin net (Routed scope) Write None w0 = (Some (Ok id), w) ->
  exists env sv0 s t minted, node_at w0 id.2 = Some (env, sv0) /\ st_backend (sv_store sv0) = Some s /\ snapshot env None s t
    /\ open_at id w (mkServedTx t None minted).
Proof.
  unfold send_begin, after.
  pose proof (send_result sha256 new_v7 tx_idle_timeout locates infos faults w0 Hok [] (app_new (Routed scope)) w0 [] KeepOpen) as H.
  unfold target_of, app_new in H. cbn [ap_tx ap_constraint ap_access ap_retention app] in H. fold net in H.
  destruct (send_apply net _ w0) as [[[a|e]|] w1]; [|done|done].
  destruct H as (_ & id' & Ea & env & sv0 & sv & s & t & minted & last & x & H0 & H1 & Hs & Hsnap & Hx & Hreg).
  { unfold standing. cbn. split; [done|]. apply every_refl. by intros sv. }
  cbn. rewrite Ea. intros [= <- <-]. exists env, sv0, s, t, minted. split_and!; [done|done|done|].
  injection Hx as _ <-. exists env, sv. split; [done|]. split; [|done]. by destruct (Hok _ _ _ H0) as [-> _].
Qed.

(** Clearing a mailbox over the network.  When it succeeds, there is a node whose
    mailbox held rows, of which every command that can be read was returned,
    in the order of their ids, and whose mailbox is empty afterwards. *)
Theorem drain_commands_clears (sri : str) (p : bytes) (cmds : list MailboxCommand) (w' : Mesh)
    (Hsc : scope_valid (scope_of_cell sri)) (Hp : encode (mkTable (scope_of_cell sri) MESSAGES_TABLE) = Ok p)
    (Hnodes : forall node env sv s, node_at w0 node = Some (env, sv) -> st_backend (sv_store sv) = Some s ->
      env_ok env /\ store_ok s /\ forall id n, id_valid id -> ~ newer s (ent p id) (new_timestamp env n))
    (Hrun : drain_commands net sri w0 = (Ok cmds, w')) :
  exists node env sv s rows env' sv' s', node_at w0 node = Some (env, sv) /\ st_backend (sv_store sv) = Some s
    /\ table_rows s p rows /\ cmds = commands_of rows
    /\ node_at w' node = Some (env', sv') /\ st_backend (sv_store sv') = Some s' /\ table_rows s' p [].
Proof.
  unfold drain_commands, write_tx_constrained, with_tx in Hrun.
  destruct (send_begin net _ _ _ w0) as [[[id|e]|] w1] eqn:Eb; [|done|done].
  destruct (begin_sent _ _ _ Eb) as (env & sv0 & s & t & minted & H0 & Hs & [n ->] & Hat).
  destruct (drain_in_tx net id (scope_of_cell sri) w1) as [r w2] eqn:Ed.
  destruct (net_commit net id w2) as [[[[]|e]|] w3] eqn:Ec; [|done|done]. injection Hrun as -> <-.
  destruct (drain_sent _ _ _ _ _ _ Hat Ed) as (x' & Hc & Hat').
  destruct (commit_sent _ _ _ _ Hat' Ec) as (env' & sv' & t' & H1 & Hcommit & Hb').
  destruct (Hnodes _ _ _ _ H0 Hs) as (Henv & Hstore & Hclock).
  destruct (drained_committed (scope_of_cell sri) p _ cmds (sx_tx x') t' (begin_tx_ok env s n None Henv Hstore) eq_refl eq_refl Hsc Hp
    (fun id0 Hid0 => Hclock id0 n Hid0) Hc Hcommit) as (rows & Hrows & Hcmds & Hempty).
  exists id.2, env, sv0, s, rows, env', sv', (tx_store t'). done.
Qed.
End Drained.

(** ** Examples *)

Import Sample MailboxSample.

(** A node whose mailbox holds two commands. *)
Definition two_ops : list tx_op :=
  [OpTbInsert mail_table [x07] (x2a :: lit "first"); OpTbInsert mail_table [x08] (x2a :: lit "second")].
Definition two_store : MapKv.store := tx_store (run_ops sample_sha two_ops (Sample.tx Sample.empty_store 9)).
Definition two_mesh : Mesh (S := MapKv.store) := mkMesh [(node_id sample_env, (sample_env, mail_server two_store))] 0.
Definition command_named (name : str) : MailboxCommand := mkCommand name None no_attachment.

(** What a read of the mailbox at the node shows. *)
Definition shown (w : Mesh (S := MapKv.store)) : list str :=
  match node_at w (node_id sample_env) with
  | Some (env, sv) =>
      match (peek_table (mkPeekRequest (scope_of_cell (lit "cell")) MESSAGES_TABLE None (Some 10%nat) None false) env sv).1 with
      | Ok page => map (fun r : Id * bytes => drop 1 r.2) (ps_entities page)
      | Err _ => []
      end
  | None => []
  end.
Abbreviation two_drain faults := (drain_commands (sample_net faults) (lit "cell") two_mesh) (only parsing).

(** Its rows are of version 9, below every version the node gives. *)
Lemma two_inserted : exists t1 t2, tx_store t2 = two_store /\ tx_ok t2
  /\ decided Sample.empty_store (tx_store t1) (ent mail_prefix [x07]) 9 (Some (x2a :: lit "first"))
  /\ decided (tx_store t1) (tx_store t2) (ent mail_prefix [x08]) 9 (Some (x2a :: lit "second")).
Proof.
  assert (Ht : tx_ok (Sample.tx Sample.empty_store 9)) by (apply empty_ok; unfold is_u64; lia).
  destruct (tb_insert_ok mail_table mail_prefix mail_table_valid mail_encode [x07] (x2a :: lit "first") _ Ht ltac:(vm_compute; reflexivity))
    as (t1 & E1 & Ht1 & Hts1 & _ & _ & Hd1).
  destruct (tb_insert_ok mail_table mail_prefix mail_table_valid mail_encode [x08] (x2a :: lit "second") t1 Ht1 ltac:(vm_compute; reflexivity))
    as (t2 & E2 & Ht2 & _ & _ & _ & Hd2). rewrite Hts1 in Hd2.
  exists t1, t2. split; [|by split_and!]. unfold two_store, two_ops, run_ops. cbn [fold_left run_op]. unfold tx_result. rewrite E1. cbn [snd]. by rewrite E2.
Qed.
Lemma two_nodes node env sv s : node_at two_mesh node = Some (env, sv) -> st_backend (sv_store sv) = Some s ->
  env_ok env /\ store_ok s /\ forall id n, id_valid id -> ~ newer s (ent mail_prefix id) (new_timestamp env n).
Proof.
  unfold node_at, two_mesh. cbn [ms_nodes vm_get]. destruct (decide (node = node_id sample_env)); [|done]. intros [= <- <-] [= <-].
  destruct two_inserted as (t1 & t2 & <- & Ht2 & Hd1 & Hd2). split; [apply sample_env_ok|]. split; [by apply to_store|].
  intros id n Hid (t & Ht & Hlt & Hv). apply Hv. cbn [new_timestamp sample_env] in Hlt.
  assert (in_region data_tag (ent mail_prefix id) = true) as Hr
    by (by apply (stored_region (tb_scope mail_table)), (row_stored mail_table mail_prefix mail_table_valid mail_encode)).
  rewrite Hd2, decide_False, Hd1, decide_False by (done || (intros [_ <-]; lia)). apply empty_verdict.
Qed.
Lemma two_mesh_ok : mesh_ok two_mesh.
Proof.
  intros node env sv. unfold node_at, two_mesh. cbn [ms_nodes vm_get]. destruct (decide (node = node_id sample_env)) as [->|]; [|discriminate].
  intros [= <- <-]. split; [done|]. split; [by eexists|]. done.
Qed.

Lemma drain_commands_clears_witness :
  exists env' sv' s' w', two_drain (fun _ => Delivered) = (Ok [command_named (lit "first"); command_named (lit "second")], w')
    /\ node_at w' (node_id sample_env) = Some (env', sv') /\ st_backend (sv_store sv') = Some s' /\ table_rows s' mail_prefix [].
Proof.
  assert (Hc : (two_drain (fun _ => Delivered)).1 = Ok [command_named (lit "first"); command_named (lit "second")]) by (vm_compute; reflexivity).
  destruct (two_drain (fun _ => Delivered)) as [r w'] eqn:E. cbn [fst] in Hc. subst r.
  destruct (drain_commands_clears sample_sha sample_v7 (10 ^ 9) quiet_locates sample_infos (fun _ => Delivered) two_mesh two_mesh_ok
    sample_serialises (lit "cell") mail_prefix _ w' mail_scope_valid mail_encode two_nodes E)
    as (node & env & sv & s & rows & env' & sv' & s' & H0 & _ & _ & _ & H1 & Hb & Hr).
  assert (node = node_id sample_env) as ->.
  { revert H0. unfold node_at, two_mesh. cbn [ms_nodes vm_get]. destruct (decide (node = node_id sample_env)); [done|discriminate]. }
  exists env', sv', s', w'. split; [reflexivity|]. split; [exact H1|]. split; [exact Hb|exact Hr].
Defined.

(** A drain that fails can lose commands.  Of two commands in a mailbox, with only the
    request lost that deletes the second one, the drain returns an error and
    no command, and yet commits the deletion of the first one: the
    transaction's function returns its error as a value. *)
Theorem failed_drain_loses :
  let lost n := if decide (n = 7%nat) then RequestLost else Delivered in
  shown two_mesh = [lit "first"; lit "second"]
  /\ (two_drain (fun _ => Delivered)).1 = Ok [command_named (lit "first"); command_named (lit "second")]
  /\ (two_drain lost).1 = Err MbComm
  /\ shown (two_drain lost).2 = [lit "second"].
Proof. vm_compute. repeat split. Qed.
