(* ===== verification/Supervision.v ===== *)
(** * Supervision decisions

    [src/swarm/cell-protocol/src/supervision.rs] and the cell records it is
    about: when a host kills a cell it runs, from the placement rows it could
    read, and how long an observer has not seen a node's lease advance.

    Identifiers of cells and of runtimes are 128-bit numbers; times are
    milliseconds of the observer's own clock. *)

From S2P Require Import Prelude Bytes Domain Store.
From Stdlib Require Import ZArith Lia Strings.Byte.
From stdpp Require Import base list option gmap.

Local Open Scope Z_scope.

Abbreviation Sri := Z (only parsing).
Abbreviation RuntimeId := Z (only parsing).

(** ** Cells and their rows *)

Record Gen := mkGen { g_time : Z; g_id : Z }.
#[export] Instance Gen_eq_dec : EqDecision Gen. Proof. solve_decision. Defined.

(** The derived order: the time first, then the node. *)
Definition gen_ltb (a b : Gen) : bool :=
  (g_time a <? g_time b) || ((g_time a =? g_time b) && (g_id a <? g_id b)).

Record SpawnLineage := mkLineage {
  ln_parent : option Sri;
  ln_parent_gen : option Gen;
  ln_detached : bool;
  ln_local_name : option str;
  ln_grace_ms : option Z;
  ln_deadline_ms : option Z;
}.

Record CellInstance := mkInstance {
  ci_sri : Sri;
  ci_class : bytes;
  ci_gen : Gen;
  ci_lineage : SpawnLineage;
}.

(** A runtime is named by its identifier; its capabilities are not looked at here. *)
Inductive PlacementKind :=
  | Wasm (runtime : RuntimeId)
  | Native (runtime : RuntimeId)
  | Bridge (sri : Sri)
  | Placeholder.

Definition host (k : PlacementKind) : option RuntimeId :=
  match k with
  | Wasm runtime => Some runtime
  | Native runtime => Some runtime
  | Bridge _ | Placeholder => None
  end.

Record PlacementEntry := mkPlacement {
  pe_sri : Sri;
  pe_kind : PlacementKind;
  pe_app : option str;
  pe_gen : Gen;
}.

(** ** Fencing *)

Record WatchedCell := mkWatched { wc_sri : Sri; wc_gen : Gen; wc_lineage : SpawnLineage }.

Inductive RowRead (T : Type) := ROk (facts : T) | RAbsent | RFailed.
Arguments ROk {T} facts.
Arguments RAbsent {T}.
Arguments RFailed {T}.

Definition RowFacts : Type := RuntimeId * Gen.
Definition LeaseFacts : Type := Z * Z.

Record Evidence := mkEvidence {
  self_row : RowRead RowFacts;
  parent_row : RowRead RowFacts;
  parent_lease_expired : option bool;
}.

Inductive KillWhy := SelfSuperseded | ParentAbsent | ParentSuperseded | ParentNodeDead.
Inductive Verdict := Keep | Kill (why : KillWhy).
Inductive WhichRow := SelfRow | ParentRow.
#[export] Instance KillWhy_eq_dec : EqDecision KillWhy. Proof. solve_decision. Defined.
#[export] Instance Verdict_eq_dec : EqDecision Verdict. Proof. solve_decision. Defined.
#[export] Instance WhichRow_eq_dec : EqDecision WhichRow. Proof. solve_decision. Defined.

Definition init_pending (existing : option Gen) (gen_id : Gen) : bool :=
  match existing with None => true | Some g => gen_ltb g gen_id end.

Definition CONFIRM_ABSENT_AFTER : Z := 2.

(** The streaks: the entries of [absent_counts], a count of one byte each. *)
Definition FencingState : Type := list (Sri * WhichRow * Z).

Definition at_row (sri : Sri) (row : WhichRow) (e : Sri * WhichRow * Z) : bool :=
  bool_decide (e.1.1 = sri) && bool_decide (e.1.2 = row).

(** The first entry of the row is counted up in place. *)
Fixpoint count_up (sri : Sri) (row : WhichRow) (counts : FencingState) : option (Z * FencingState) :=
  match counts with
  | [] => None
  | e :: counts =>
      if at_row sri row e then Some (wrap 8 (e.2 + 1), (e.1, wrap 8 (e.2 + 1)) :: counts)
      else '(n, counts') ← count_up sri row counts; Some (n, e :: counts')
  end.

Definition confirmed_absent (sri : Sri) (row : WhichRow) (counts : FencingState) : bool * FencingState :=
  match count_up sri row counts with
  | Some (n, counts') => (CONFIRM_ABSENT_AFTER <=? n, counts')
  | None => (CONFIRM_ABSENT_AFTER <=? 1, counts ++ [(sri, row, 1)])
  end.

Definition reset (sri : Sri) (row : WhichRow) (counts : FencingState) : FencingState :=
  List.filter (fun e => negb (at_row sri row e)) counts.

Definition forget (sri : Sri) (counts : FencingState) : FencingState :=
  List.filter (fun e => negb (bool_decide (e.1.1 = sri))) counts.

Definition then_some {A} (b : bool) (a : A) : option A := if b then Some a else None.

Definition check_self (my_exec : RuntimeId) (cell : WatchedCell) (ev : Evidence) (st : FencingState)
    : option KillWhy * FencingState :=
  match self_row ev with
  | ROk (exec, row_gen) =>
      (if bool_decide (exec ≠ my_exec) || bool_decide (row_gen ≠ wc_gen cell) then Some SelfSuperseded else None,
       reset (wc_sri cell) SelfRow st)
  | RAbsent =>
      let '(confirmed, st) := confirmed_absent (wc_sri cell) SelfRow st in
      (then_some confirmed SelfSuperseded, st)
  | RFailed => (None, st)
  end.

Definition check_parent (cell : WatchedCell) (ev : Evidence) (st : FencingState) : option KillWhy * FencingState :=
  match parent_row ev with
  | ROk (_, row_gen) =>
      (if match ln_parent_gen (wc_lineage cell) with Some anchor => bool_decide (anchor ≠ row_gen) | None => false end
       then Some ParentSuperseded
       else if bool_decide (parent_lease_expired ev = Some true) then Some ParentNodeDead
       else None,
       reset (wc_sri cell) ParentRow st)
  | RAbsent =>
      let '(confirmed, st) := confirmed_absent (wc_sri cell) ParentRow st in
      (then_some confirmed ParentAbsent, st)
  | RFailed => (None, st)
  end.

Definition evaluate (my_exec : RuntimeId) (cell : WatchedCell) (ev : Evidence) (st : FencingState)
    : Verdict * FencingState :=
  let '(why, st) := check_self my_exec cell ev st in
  match why with
  | Some why => (Kill why, forget (wc_sri cell) st)
  | None =>
      if bool_decide (is_Some (ln_parent (wc_lineage cell))) && negb (ln_detached (wc_lineage cell)) then
        let '(why, st) := check_parent cell ev st in
        match why with
        | Some why => (Kill why, forget (wc_sri cell) st)
        | None => (Keep, st)
        end
      else (Keep, st)
  end.

(** ** Lease staleness *)

Record Observed := mkObserved { ob_id : RuntimeId; ob_seq : Z; ob_advanced_at_ms : Z; ob_ttl_ms : Z }.
Definition LeaseTracker : Type := list Observed.

Definition is_node (id : RuntimeId) (o : Observed) : bool := bool_decide (ob_id o = id).

Fixpoint observe (id : RuntimeId) (seq ttl_ms now_ms : Z) (seen : LeaseTracker) : LeaseTracker :=
  match seen with
  | [] => [mkObserved id seq now_ms ttl_ms]
  | o :: seen =>
      if is_node id o then (if ob_seq o <? seq then mkObserved (ob_id o) seq now_ms ttl_ms else o) :: seen
      else o :: observe id seq ttl_ms now_ms seen
  end.

Definition is_expired (seen : LeaseTracker) (id : RuntimeId) (now_ms : Z) : bool :=
  match List.find (is_node id) seen with
  | Some o => ob_ttl_ms o <? saturating_sub now_ms (ob_advanced_at_ms o)
  | None => false
  end.

Definition stale_for (seen : LeaseTracker) (id : RuntimeId) (now_ms : Z) : option Z :=
  (fun o => saturating_sub now_ms (ob_advanced_at_ms o)) <$> List.find (is_node id) seen.

Definition ttl_ms_of (seen : LeaseTracker) (id : RuntimeId) : option Z :=
  ob_ttl_ms <$> List.find (is_node id) seen.

Definition judge_read (id : RuntimeId) (read : RowRead LeaseFacts) (grace_ms : option Z) (now_ms : Z)
    (seen : LeaseTracker) : option bool * LeaseTracker :=
  let judge (seen : LeaseTracker) :=
    let tolerance := match grace_ms with Some g => g | None => default u64_max (ttl_ms_of seen id) end in
    Some (match stale_for seen id now_ms with Some s => tolerance <? s | None => false end) in
  match read with
  | ROk (seq, ttl_ms) => let seen := observe id seq ttl_ms now_ms seen in (judge seen, seen)
  | RAbsent => (None, seen)
  | RFailed => (judge seen, seen)
  end.

Definition expired (seen : LeaseTracker) (now_ms : Z) : list RuntimeId :=
  map ob_id (List.filter (fun o => ob_ttl_ms o <? saturating_sub now_ms (ob_advanced_at_ms o)) seen).

Definition forget_node (id : RuntimeId) (seen : LeaseTracker) : LeaseTracker :=
  List.filter (fun o => negb (is_node id o)) seen.

(** * Supervision over time

    [src/swarm/sorg-common/src/supervision.rs], without the clock-skew watch:
    the timing of the supervision, the lease tracker on the monotonic clock,
    the gate that holds nodes back for a margin, and the budget of restarts. *)

(** ** Timing *)

Definition from_secs (s : Z) : Duration := s * 10 ^ 9.
Definition from_millis (ms : Z) : Duration := ms * 10 ^ 6.
Definition as_millis (d : Duration) : Z := d / 10 ^ 6.
Definition millis_u64 (d : Duration) : Z := Z.min (as_millis d) u64_max.

Record SupervisionTiming := mkTiming {
  tm_renew : Duration;
  tm_ttl : Duration;
  tm_margin : Duration;
  tm_verify : Duration;
}.

Definition TIMING_DEFAULT : SupervisionTiming :=
  mkTiming (from_secs 10) (from_secs 45) (from_secs 15) (from_secs 10).

Definition lease_retention (t : SupervisionTiming) : Duration := (tm_ttl t + tm_margin t) * 5.

Definition jittered (base : Duration) (salt : Z) : Duration :=
  let z := wrap 64 (salt + 11400714819323198485) in
  let z := wrap 64 (Z.lxor z (Z.shiftr z 30) * 13787848793156543929) in
  let z := wrap 64 (Z.lxor z (Z.shiftr z 27) * 10723151780598845931) in
  let z := Z.lxor z (Z.shiftr z 31) in
  let permille := 800 + wrap 32 (z mod 401) in
  base * permille / 1000.

(** ** The lease tracker on the monotonic clock *)

Record Tracker := mkTracker { tk_origin : Instant; tk_inner : LeaseTracker }.

Definition tk_new (now : Instant) : Tracker := mkTracker now [].
Definition tk_ms (t : Tracker) (at_ : Instant) : Z := millis_u64 (instant_since at_ (tk_origin t)).

Definition tk_observe (id : RuntimeId) (seq : Z) (ttl : Duration) (now : Instant) (t : Tracker) : Tracker :=
  mkTracker (tk_origin t) (observe id seq (millis_u64 ttl) (tk_ms t now) (tk_inner t)).
Definition tk_is_expired (t : Tracker) (id : RuntimeId) (now : Instant) : bool :=
  is_expired (tk_inner t) id (tk_ms t now).
Definition tk_stale_for (t : Tracker) (id : RuntimeId) (now : Instant) : option Duration :=
  from_millis <$> stale_for (tk_inner t) id (tk_ms t now).
Definition tk_ttl_of (t : Tracker) (id : RuntimeId) : option Duration :=
  from_millis <$> ttl_ms_of (tk_inner t) id.
Definition tk_expired (t : Tracker) (now : Instant) : list RuntimeId := expired (tk_inner t) (tk_ms t now).
Definition tk_forget (id : RuntimeId) (t : Tracker) : Tracker := mkTracker (tk_origin t) (forget_node id (tk_inner t)).

(** ** The gate *)

Record ExpiryGate := mkGate { eg_margin : Duration; eg_first_seen : gmap RuntimeId Instant }.

Definition gate_new (margin : Duration) : ExpiryGate := mkGate margin ∅.

(** [entry(id).or_insert(now)], and how long ago that was *)
Definition gate_entry (now : Instant) (fs : gmap RuntimeId Instant) (id : RuntimeId)
    : gmap RuntimeId Instant * (RuntimeId * Duration) :=
  match fs !! id with
  | Some at_ => (fs, (id, instant_since now at_))
  | None => (<[id := now]> fs, (id, instant_since now now))
  end.

Fixpoint gate_entries (now : Instant) (fs : gmap RuntimeId Instant) (ids : list RuntimeId)
    : gmap RuntimeId Instant * list (RuntimeId * Duration) :=
  match ids with
  | [] => (fs, [])
  | id :: ids =>
      let '(fs, e) := gate_entry now fs id in
      let '(fs, es) := gate_entries now fs ids in (fs, e :: es)
  end.

Definition silences (current : list RuntimeId) (now : Instant) (g : ExpiryGate)
    : list (RuntimeId * Duration) * ExpiryGate :=
  let kept := filter (fun e : RuntimeId * Instant => e.1 ∈ current) (eg_first_seen g) in
  let '(fs, es) := gate_entries now kept current in
  (es, mkGate (eg_margin g) fs).

Definition gate_ready (expired_now : list RuntimeId) (now : Instant) (g : ExpiryGate) : list RuntimeId * ExpiryGate :=
  let '(es, g) := silences expired_now now g in
  (map fst (List.filter (fun e => eg_margin g <=? e.2) es), g).

(** ** The restart budget *)

Abbreviation RestartBudget := (gmap Sri (list Instant)) (only parsing).

(** Attempts older than the window leave from the front. *)
Fixpoint prune_attempts (window : Duration) (now : Instant) (recent : list Instant) : list Instant :=
  match recent with
  | [] => []
  | oldest :: rest => if window <? instant_since now oldest then prune_attempts window now rest else recent
  end.

Definition allow (sri : Sri) (max : Z) (window : Duration) (now : Instant) (b : RestartBudget) : bool * RestartBudget :=
  let recent := prune_attempts window now (default [] (b !! sri)) in
  if max <=? Z.of_nat (length recent) then (false, <[sri := recent]> b)
  else (true, <[sri := recent ++ [now]]> b).

Definition attempt_ready (sri : Sri) (delay : Duration) (now : Instant) (b : RestartBudget) : bool :=
  match b !! sri ≫= last with
  | Some at_ => delay <=? instant_since now at_
  | None => true
  end.

Definition refund (sri : Sri) (b : RestartBudget) : RestartBudget :=
  match b !! sri with
  | Some recent =>
      let rest := removelast recent in
      if bool_decide (rest = []) then delete sri b else <[sri := rest]> b
  | None => b
  end.

Definition forget_attempts (sri : Sri) (b : RestartBudget) : RestartBudget := delete sri b.
