(* ===== verification/SupervisionFacts.v ===== *)
(** * What the supervision decisions rest on

    The streaks a host counts decide as the history of its reads does: a cell
    is killed on affirmative evidence only, and a missing row is evidence when
    the last read of it that succeeded found it missing too.  The entries a
    lease tracker keeps are the last advances of the observed history. *)

From S2P Require Import Prelude Bytes Domain Store Supervision.
From Stdlib Require Import ZArith Lia Strings.Byte.
From stdpp Require Import base list option.

Local Open Scope Z_scope.

(** ** The decision on a history of reads *)

Definition supervised (c : WatchedCell) : bool :=
  bool_decide (is_Some (ln_parent (wc_lineage c))) && negb (ln_detached (wc_lineage c)).

(** What a pass learned of a row; the parent's row counts for a supervised cell. *)
Definition read_of (row : WhichRow) (p : WatchedCell * Evidence) : RowRead RowFacts :=
  match row with
  | SelfRow => self_row p.2
  | ParentRow => if supervised p.1 then parent_row p.2 else RFailed
  end.

(** Whether the last successful read of a row found it missing (newest pass first). *)
Fixpoint last_absent (row : WhichRow) (past : list (WatchedCell * Evidence)) : bool :=
  match past with
  | [] => false
  | p :: past =>
      match read_of row p with ROk _ => false | RAbsent => true | RFailed => last_absent row past end
  end.

Definition self_lost (me : RuntimeId) (c : WatchedCell) (ev : Evidence) (past : list (WatchedCell * Evidence)) : bool :=
  match self_row ev with
  | ROk facts => negb (bool_decide (facts = (me, wc_gen c)))
  | RAbsent => last_absent SelfRow past
  | RFailed => false
  end.

Definition parent_lost (c : WatchedCell) (ev : Evidence) (past : list (WatchedCell * Evidence)) : option KillWhy :=
  match parent_row ev with
  | ROk (_, g) =>
      if bool_decide (ln_parent_gen (wc_lineage c) = None \/ ln_parent_gen (wc_lineage c) = Some g) then
        then_some (bool_decide (parent_lease_expired ev = Some true)) ParentNodeDead
      else Some ParentSuperseded
  | RAbsent => then_some (last_absent ParentRow past) ParentAbsent
  | RFailed => None
  end.

Definition decision (me : RuntimeId) (c : WatchedCell) (ev : Evidence) (past : list (WatchedCell * Evidence)) : Verdict :=
  if self_lost me c ev past then Kill SelfSuperseded
  else match (if supervised c then parent_lost c ev past else None) with
       | Some why => Kill why
       | None => Keep
       end.

(** The passes over the cells of a host, in any order, and its forgetting a cell. *)
Inductive FenceEvent := Pass (c : WatchedCell) (ev : Evidence) | Forget (sri : Sri).

Fixpoint fence_run (me : RuntimeId) (st : FencingState) (es : list FenceEvent) : list Verdict * FencingState :=
  match es with
  | [] => ([], st)
  | Pass c ev :: es =>
      let '(v, st) := evaluate me c ev st in
      let '(vs, st) := fence_run me st es in (v :: vs, st)
  | Forget sri :: es => fence_run me (forget sri st) es
  end.

Definition upd (past : Sri -> list (WatchedCell * Evidence)) (sri : Sri) (l : list (WatchedCell * Evidence)) :=
  fun s => if bool_decide (s = sri) then l else past s.

Fixpoint decision_run (me : RuntimeId) (past : Sri -> list (WatchedCell * Evidence)) (es : list FenceEvent) : list Verdict :=
  match es with
  | [] => []
  | Pass c ev :: es =>
      let v := decision me c ev (past (wc_sri c)) in
      let now := match v with Keep => (c, ev) :: past (wc_sri c) | Kill _ => [] end in
      v :: decision_run me (upd past (wc_sri c) now) es
  | Forget sri :: es => decision_run me (upd past sri []) es
  end.

(** ** The streaks *)

Definition streak (st : FencingState) (sri : Sri) (row : WhichRow) : list Z :=
  map snd (List.filter (at_row sri row) st).

Lemma streak_filter st f sri row :
  streak (List.filter f st) sri row = map snd (List.filter (fun e => f e && at_row sri row e) st).
Proof.
  unfold streak. f_equal. induction st as [|e st IH]; cbn; [done|].
  destruct (f e); cbn; [destruct (at_row sri row e); by rewrite IH|done].
Qed.

Lemma streak_ext (f g : Sri * WhichRow * Z -> bool) (st : FencingState) :
  (forall e, f e = g e) -> map snd (List.filter f st) = map snd (List.filter g st).
Proof. intros Hfg. f_equal. induction st as [|e st IH]; cbn; [done|]. rewrite Hfg, IH. done. Qed.

Lemma streak_none (f : Sri * WhichRow * Z -> bool) (st : FencingState) :
  (forall e, f e = false) -> map snd (List.filter f st) = [].
Proof. intros Hf. induction st as [|e st IH]; cbn; [done|]. by rewrite Hf. Qed.

Lemma streak_reset st s r sri row :
  streak (reset s r st) sri row = if bool_decide (s = sri /\ r = row) then [] else streak st sri row.
Proof.
  unfold reset. rewrite streak_filter. case_bool_decide as H.
  - destruct H as [-> ->]. apply streak_none. intros e. by destruct (at_row _ _ e).
  - apply streak_ext. intros e. unfold at_row. repeat case_bool_decide; cbn; try done. naive_solver.
Qed.

Lemma streak_forget st s sri row :
  streak (forget s st) sri row = if bool_decide (s = sri) then [] else streak st sri row.
Proof.
  unfold forget. rewrite streak_filter. case_bool_decide as H.
  - subst. apply streak_none. intros e. unfold at_row. by repeat case_bool_decide.
  - apply streak_ext. intros e. unfold at_row. repeat case_bool_decide; cbn; try done. naive_solver.
Qed.

Lemma at_row_same s r n : at_row s r (s, r, n) = true.
Proof. unfold at_row; cbn. by rewrite !bool_decide_eq_true_2. Qed.

Lemma at_row_other s r sri row n : ~ (s = sri /\ r = row) -> at_row sri row (s, r, n) = false.
Proof. unfold at_row; cbn. repeat case_bool_decide; naive_solver. Qed.

Lemma count_up_none st s r : streak st s r = [] -> count_up s r st = None.
Proof.
  unfold streak. induction st as [|e st IH]; cbn; [done|]. destruct (at_row s r e); cbn; [done|].
  intros ->%IH. done.
Qed.

Lemma count_up_some st s r n ns :
  streak st s r = n :: ns ->
  exists st', count_up s r st = Some (wrap 8 (n + 1), st') /\
    forall sri row, ~ (s = sri /\ r = row) -> streak st' sri row = streak st sri row.
Proof.
  unfold streak. induction st as [|[[s0 r0] k] st IH]; cbn; [done|].
  destruct (at_row s r _) eqn:Hat; cbn.
  - intros [= -> _]. eexists; split; [done|]. intros sri row Hne. cbn.
    unfold at_row in Hat; cbn in Hat. apply andb_prop in Hat as [<-%bool_decide_eq_true <-%bool_decide_eq_true].
    by rewrite !at_row_other.
  - intros (st' & -> & Hst)%IH. eexists; split; [done|]. intros sri row Hne. cbn.
    destruct (at_row sri row _); cbn; by rewrite Hst.
Qed.

(** The streaks kept for a history: a count of one where the last read found nothing. *)
Definition counts (st : FencingState) (past : Sri -> list (WatchedCell * Evidence)) : Prop :=
  forall sri row, streak st sri row = if last_absent row (past sri) then [1] else [].

Lemma confirmed_absent_streak st s r :
  streak st s r = [1] \/ streak st s r = [] ->
  exists st', confirmed_absent s r st = (bool_decide (streak st s r = [1]), st') /\
    (streak st s r = [] -> streak st' s r = [1]) /\
    forall sri row, ~ (s = sri /\ r = row) -> streak st' sri row = streak st sri row.
Proof.
  unfold confirmed_absent. intros [Hs|Hs].
  - destruct (count_up_some _ _ _ _ _ Hs) as (st' & -> & Hst). exists st'. rewrite Hs. split; [done|]. split; [done|done].
  - rewrite (count_up_none _ _ _ Hs). exists (st ++ [(s, r, 1)]). rewrite Hs. split; [done|].
    unfold streak in *. split.
    + intros _. rewrite List.filter_app, map_app, Hs. cbn. by rewrite at_row_same.
    + intros sri row Hne. rewrite List.filter_app, map_app. cbn. rewrite (at_row_other s r) by done. by rewrite app_nil_r.
Qed.

(** How a check moves the streak of its row when it does not kill. *)
Definition moves (st st' : FencingState) (s : Sri) (row : WhichRow) (killed absent : bool) : Prop :=
  (killed = false -> streak st' s row = if absent then [1] else []) /\
  forall sri r, ~ (s = sri /\ row = r) -> streak st' sri r = streak st sri r.

Lemma absent_moves st s row (b : bool) :
  streak st s row = (if b then [1] else []) ->
  exists st', confirmed_absent s row st = (b, st') /\ moves st st' s row b true.
Proof.
  intros Hs. destruct (confirmed_absent_streak st s row) as (st' & -> & Hnew & Hother).
  { rewrite Hs. destruct b; auto. }
  exists st'. split; [f_equal; rewrite Hs; by destruct b|]. split; [|done].
  intros ->. by apply Hnew.
Qed.

Lemma reset_moves st s row killed : moves st (reset s row st) s row killed false.
Proof.
  split.
  - intros _. rewrite streak_reset. by rewrite bool_decide_eq_true_2.
  - intros sri r Hne. rewrite streak_reset. by rewrite bool_decide_eq_false_2.
Qed.

Lemma check_self_moves st me c ev past :
  streak st (wc_sri c) SelfRow = (if last_absent SelfRow past then [1] else []) ->
  exists st', check_self me c ev st = (then_some (self_lost me c ev past) SelfSuperseded, st') /\
    moves st st' (wc_sri c) SelfRow (self_lost me c ev past) (last_absent SelfRow ((c, ev) :: past)).
Proof.
  intros Hs. unfold check_self, self_lost. cbn. destruct (self_row ev) as [[exec g]| |].
  - eexists; split; [|apply reset_moves]. f_equal. unfold then_some. repeat case_bool_decide; naive_solver.
  - destruct (absent_moves _ _ _ _ Hs) as (st' & -> & Hst). by exists st'.
  - exists st. done.
Qed.

Lemma check_parent_moves st c ev past :
  supervised c = true ->
  streak st (wc_sri c) ParentRow = (if last_absent ParentRow past then [1] else []) ->
  exists st', check_parent c ev st = (parent_lost c ev past, st') /\
    moves st st' (wc_sri c) ParentRow (bool_decide (is_Some (parent_lost c ev past))) (last_absent ParentRow ((c, ev) :: past)).
Proof.
  intros Hsup Hs. unfold check_parent, parent_lost. cbn. rewrite Hsup. destruct (parent_row ev) as [[exec g]| |].
  - eexists; split; [|apply reset_moves]. f_equal. unfold then_some.
    destruct (ln_parent_gen (wc_lineage c)) as [a|]; repeat case_bool_decide; naive_solver.
  - destruct (absent_moves _ _ _ _ Hs) as (st' & -> & Hst). exists st'. split; [done|].
    by destruct (last_absent ParentRow past).
  - exists st. done.
Qed.

Lemma upd_same past s l : upd past s l s = l.
Proof. unfold upd. by rewrite bool_decide_eq_true_2. Qed.
Lemma upd_other past s l t : s ≠ t -> upd past s l t = past t.
Proof. intros. unfold upd. by rewrite bool_decide_eq_false_2. Qed.

Lemma counts_forget st past s : counts st past -> counts (forget s st) (upd past s []).
Proof.
  intros Hc sri row. rewrite streak_forget. case_bool_decide as H.
  - subst. by rewrite upd_same.
  - rewrite upd_other by done. apply Hc.
Qed.

Lemma counts_kill st st' past s :
  counts st past -> (forall sri row, s ≠ sri -> streak st' sri row = streak st sri row) ->
  counts (forget s st') (upd past s []).
Proof.
  intros Hc Hst sri row. rewrite streak_forget. case_bool_decide as H.
  - subst. by rewrite upd_same.
  - rewrite upd_other, Hst by done. apply Hc.
Qed.

Lemma evaluate_decides me c ev st past :
  counts st past ->
  exists st', evaluate me c ev st = (decision me c ev (past (wc_sri c)), st') /\
    counts st' (upd past (wc_sri c)
      match decision me c ev (past (wc_sri c)) with Keep => (c, ev) :: past (wc_sri c) | Kill _ => [] end).
Proof.
  intros Hc. unfold evaluate, decision. set (h := past (wc_sri c)).
  destruct (check_self_moves st me c ev h) as (st1 & -> & Hself & Hother); [apply Hc|].
  destruct (self_lost me c ev h); cbn [then_some].
  { eexists; split; [done|]. eapply counts_kill; [done|]. intros; apply Hother; naive_solver. }
  specialize (Hself eq_refl).
  fold (supervised c). destruct (supervised c) eqn:Hsup.
  - destruct (check_parent_moves st1 c ev h) as (st2 & -> & Hpar & Hother2); [done| |].
    { rewrite Hother by naive_solver. apply Hc. }
    destruct (parent_lost c ev h) as [why|].
    + eexists; split; [done|]. eapply counts_kill; [done|].
      intros; rewrite Hother2, Hother by naive_solver. done.
    + rewrite bool_decide_eq_false_2 in Hpar by by intros [].
      eexists; split; [done|]. intros sri row. unfold upd. case_bool_decide as H.
      * subst. destruct row; [rewrite Hother2 by naive_solver; exact Hself|by apply Hpar].
      * rewrite Hother2, Hother by naive_solver. apply Hc.
  - eexists; split; [done|]. intros sri row. unfold upd. case_bool_decide as H.
    + subst. destruct row; [exact Hself|]. rewrite Hother by naive_solver. rewrite (Hc _ ParentRow).
      cbn. by rewrite Hsup.
    + rewrite Hother by naive_solver. apply Hc.
Qed.

Lemma fence_run_decides me es st past :
  counts st past -> (fence_run me st es).1 = decision_run me past es.
Proof.
  revert st past. induction es as [|[c ev|s] es IH]; intros st past Hc; cbn; [done| |].
  - destruct (evaluate_decides me c ev st past Hc) as (st' & -> & Hc').
    specialize (IH _ _ Hc'). destruct (fence_run me st' es). cbn in *. by rewrite IH.
  - apply IH. by apply counts_forget.
Qed.

(** C17. Fencing decides from affirmative evidence alone.  Over any interleaved
    passes over the cells of a host and any forgetting of cells, the verdicts
    of [evaluate] are those of the history of each cell's reads since it was
    last killed or forgotten: a cell dies when its own row names another body
    or generation, when its parent's row carries a generation other than the
    one it was born under, when the parent's node is silent past the edge's
    grace, or when a row is read as missing and the last read of it that
    succeeded, failed reads left out, found it missing as well.  Parents count
    for attached children only, and no cell's reads touch another's. *)
Theorem fencing_decides_by_history me es : (fence_run me [] es).1 = decision_run me (fun _ => []) es.
Proof. apply fence_run_decides. intros sri row. done. Qed.
