(* ===== verification/Hygiene.v ===== *)
(** * Orchestrator supervision

    [src/swarm/sorg-orchestration/src/supervision/mod.rs] and the restart
    policy of [src/swarm/sorg-common/src/records/app_deployment/restart.rs]:
    the leader's watch over node leases, the hygiene it runs for dead nodes,
    and the restarts of root cells.

    The database and the deployment are the swarm's: a pass is given what its
    scans return ([None] where a scan fails) and whether each change it makes
    succeeds, by the number of the change in its pass, and gives back the
    changes in the order they are made.  How an identifier prints is a
    parameter; it is a sort key only.  Iteration over a hash set has no order
    of its own. *)

From S2P Require Import Prelude Bytes Domain Store Supervision.
From Stdlib Require Import ZArith Lia Strings.Byte.
From stdpp Require Import base list option gmap sorting.

Local Open Scope Z_scope.

(** ** Deaths and restart policies *)

Inductive LostReason := NodeLost | Crashed | Stopped (code : option Z) | Terminated | SpawnFailed.

#[export] Instance LostReason_eq_dec : EqDecision LostReason. Proof. solve_decision. Defined.

Inductive RestartType := Never | OnError | Always.
Record RestartPolicy := mkPolicy {
  rp_restart_type : RestartType;
  rp_max_restarts : Z;
  rp_window_ms : Z;
  rp_delay_ms : Z;
}.
Definition policy_default : RestartPolicy := mkPolicy Never 5 60000 1000.
Definition with_default_bounds (t : RestartType) : RestartPolicy :=
  mkPolicy t (rp_max_restarts policy_default) (rp_window_ms policy_default) (rp_delay_ms policy_default).
Definition is_enabled (p : RestartPolicy) : bool :=
  match rp_restart_type p with Never => false | _ => true end.

Definition is_abnormal (reason : LostReason) : bool :=
  match reason with
  | Crashed | NodeLost | SpawnFailed => true
  | Stopped code => match code with Some c => negb (c =? 0) | None => false end
  | Terminated => false
  end.

Definition should_restart (t : RestartType) (reason : LostReason) : bool :=
  match t with
  | Never => false
  | OnError => is_abnormal reason
  | Always => match reason with Terminated => false | _ => true end
  end.

Record RootDeath := mkDeath { rd_sri : Sri; rd_gen : Gen; rd_reason : LostReason }.

(** What a restart looks at of a deployment; the rest of it is replayed verbatim. *)
Record CellDeployment := mkDeployment { cd_sri : Sri; cd_restart : RestartPolicy; cd_rest : bytes }.

(** ** The hygiene plan *)

Record CellLostNote := mkNote {
  nt_parent : Sri;
  nt_cell : Sri;
  nt_cell_gen : Gen;
  nt_local_name : option str;
}.

Record HygienePlan := mkPlan {
  hp_notes : list CellLostNote;
  hp_release_cells : list Sri;
  hp_remove_instances : list Sri;
  hp_teardown_nodes : list RuntimeId;
}.

Definition plan_is_empty (p : HygienePlan) : bool :=
  bool_decide (length (hp_notes p) = 0%nat) && bool_decide (hp_release_cells p = []) && bool_decide (hp_teardown_nodes p = []).

Definition placement_node (e : PlacementEntry) : option RuntimeId := host (pe_kind e).

(** Pairs collected into a map: a later pair replaces an earlier one. *)
Definition collect_map {A} (l : list (Z * A)) : gmap Z A :=
  fold_left (fun m e => <[e.1 := e.2]> m) l ∅.

(** [Vec::dedup] *)
Fixpoint dedup (l : list Z) : list Z :=
  match l with
  | [] => []
  | x :: l' => match dedup l' with
               | [] => [x]
               | y :: r => if x =? y then y :: r else x :: y :: r
               end
  end.

Definition by_sri (instances : list CellInstance) : gmap Sri CellInstance :=
  collect_map (map (fun i => (ci_sri i, i)) instances).

Definition hosted_placements (cells : list PlacementEntry) : gmap Sri RuntimeId :=
  collect_map (omap (fun c => (fun node => (pe_sri c, node)) <$> placement_node c) cells).

Definition min_deadline (timing : SupervisionTiming) : Duration := tm_renew timing * 2.

(** The silence after which the cell on a node counts as dead. *)
Definition deadline (instances : gmap Sri CellInstance) (node_ttls : gmap RuntimeId Duration)
    (timing : SupervisionTiming) (sri : Sri) (node : RuntimeId) : Duration :=
  match instances !! sri ≫= fun i => ln_deadline_ms (ci_lineage i) with
  | Some ms => Z.max (from_millis ms) (min_deadline timing)
  | None => default (tm_ttl timing) (node_ttls !! node) + tm_margin timing
  end.

Definition cell_due (silence : gmap RuntimeId Duration) (instances : gmap Sri CellInstance)
    (node_ttls : gmap RuntimeId Duration) (timing : SupervisionTiming) (c : PlacementEntry) : bool :=
  match placement_node c with
  | Some node =>
      match silence !! node with
      | Some silent => deadline instances node_ttls timing (pe_sri c) node <=? silent
      | None => false
      end
  | None => false
  end.

(** The note owed for a due cell, if one is. *)
Definition note_for (due : gset Sri) (instances : gmap Sri CellInstance) (placements : gmap Sri RuntimeId)
    (c : PlacementEntry) : option CellLostNote :=
  instance ← instances !! pe_sri c;
  if ln_detached (ci_lineage instance) then None else
  parent ← ln_parent (ci_lineage instance);
  if bool_decide (parent ∈ due) then None else
  if bool_decide (is_Some (placements !! parent)) then
    Some (mkNote parent (pe_sri c) (ci_gen instance) (ln_local_name (ci_lineage instance)))
  else None.

Definition plan_hygiene (silence : gmap RuntimeId Duration) (teardown_ready : list RuntimeId)
    (cells : list PlacementEntry) (instances : list CellInstance) (node_ttls : gmap RuntimeId Duration)
    (timing : SupervisionTiming) : HygienePlan :=
  let placements := hosted_placements cells in
  let insts := by_sri instances in
  let due : gset Sri :=
    list_to_set (map pe_sri (List.filter (cell_due silence insts node_ttls timing) cells)) in
  let dead := List.filter (fun c => bool_decide (pe_sri c ∈ due)) cells in
  mkPlan (omap (note_for due insts placements) dead)
    (map pe_sri dead) (map pe_sri dead)
    (List.filter (fun node =>
       forallb (fun c => bool_decide (pe_sri c ∈ due))
         (List.filter (fun c => bool_decide (placement_node c = Some node)) cells)) teardown_ready).

(** ** Carrying hygiene out *)

Inductive HygieneOp :=
  | RecordDeath (sri : Sri) (g : Gen) (reason : LostReason)
  | EmitLost (parent cell : Sri) (local_name : option str) (reason : LostReason)
  | RemovePlacement (sri : Sri) (g : Gen)
  | RemoveInstance (sri : Sri) (g : Gen)
  | DeregisterExec (id : RuntimeId)
  | DeleteLease (id : RuntimeId).

#[export] Instance HygieneOp_eq_dec : EqDecision HygieneOp. Proof. solve_decision. Defined.

(** The changes made so far, each with its success. *)
Abbreviation Trace := (list (HygieneOp * bool)) (only parsing).

Section Carry.
Context (answer : nat -> bool).

Definition perform (op : HygieneOp) (tr : Trace) : Trace := tr ++ [(op, answer (length tr))].

Definition record_deaths (insts : gmap Sri CellInstance) (sris : list Sri) (tr : Trace) : Trace :=
  fold_left (fun tr sri =>
    match insts !! sri with
    | Some inst =>
        match ln_parent (ci_lineage inst) with
        | None => perform (RecordDeath sri (ci_gen inst) NodeLost) tr
        | Some _ => tr
        end
    | None => tr
    end) sris tr.

Definition emit_notes (notes : list CellLostNote) (tr : Trace) : Trace * bool :=
  fold_left (fun '(tr, failed) note =>
    (perform (EmitLost (nt_parent note) (nt_cell note) (nt_local_name note) NodeLost) tr,
     if answer (length tr) then failed else true)) notes (tr, false).

Definition release_placements (gens : gmap Sri Gen) (sris : list Sri) (tr : Trace) : Trace :=
  fold_left (fun tr sri =>
    match gens !! sri with Some g => perform (RemovePlacement sri g) tr | None => tr end) sris tr.

Definition remove_instance_rows (insts : gmap Sri CellInstance) (sris : list Sri) (tr : Trace) : Trace :=
  fold_left (fun tr sri =>
    match insts !! sri with Some inst => perform (RemoveInstance sri (ci_gen inst)) tr | None => tr end) sris tr.

Definition teardown (nodes : list RuntimeId) (tr : Trace) (tracker : Tracker) : Trace * Tracker :=
  fold_left (fun '(tr, tracker) id =>
    (perform (DeleteLease id) (perform (DeregisterExec id) tr), tk_forget id tracker)) nodes (tr, tracker).

Definition node_ttls_of (tracker : Tracker) (cells : list PlacementEntry) : gmap RuntimeId Duration :=
  collect_map (omap (fun node => (fun ttl => (node, ttl)) <$> tk_ttl_of tracker node) (omap placement_node cells)).

Definition placement_gens (cells : list PlacementEntry) : gmap Sri Gen :=
  collect_map (map (fun c => (pe_sri c, pe_gen c)) cells).

Definition run_hygiene (instances : option (list CellInstance)) (silence : gmap RuntimeId Duration)
    (teardown_ready : list RuntimeId) (cells : list PlacementEntry) (tracker : Tracker)
    (timing : SupervisionTiming) : Trace * Tracker :=
  match instances with
  | None => ([], tracker)
  | Some instances =>
      let plan := plan_hygiene silence teardown_ready cells instances (node_ttls_of tracker cells) timing in
      if plan_is_empty plan then ([], tracker)
      else
        let insts := by_sri instances in
        let tr := record_deaths insts (hp_remove_instances plan) [] in
        let '(tr, emissions_failed) := emit_notes (hp_notes plan) tr in
        if emissions_failed then (tr, tracker)
        else
          let tr := release_placements (placement_gens cells) (hp_release_cells plan) tr in
          let tr := remove_instance_rows insts (hp_remove_instances plan) tr in
          teardown (hp_teardown_nodes plan) tr tracker
  end.

End Carry.

(** ** Root restarts *)

Abbreviation RestartSweep := (gset Sri) (only parsing).

Definition confirm (current : list Sri) (prev : RestartSweep) : list Sri * RestartSweep :=
  let cur : gset Sri := list_to_set current in
  (elements (filter (fun s => s ∈ prev) cur), cur).

Record RestartPlan := mkRestartPlan {
  pl_restart : list Sri;
  pl_drop_specs : list Sri;
  pl_clear_deaths : list Sri;
}.
Definition plan_nothing : RestartPlan := mkRestartPlan [] [] [].
Definition push_restart (sri : Sri) (p : RestartPlan) : RestartPlan :=
  mkRestartPlan (pl_restart p ++ [sri]) (pl_drop_specs p) (pl_clear_deaths p).
Definition push_drop (sri : Sri) (p : RestartPlan) : RestartPlan :=
  mkRestartPlan (pl_restart p) (pl_drop_specs p ++ [sri]) (pl_clear_deaths p).
Definition push_clear (sri : Sri) (p : RestartPlan) : RestartPlan :=
  mkRestartPlan (pl_restart p) (pl_drop_specs p) (pl_clear_deaths p ++ [sri]).

Definition spec_by_sri (specs : list CellDeployment) : gmap Sri CellDeployment :=
  collect_map (map (fun s => (cd_sri s, s)) specs).

(** One death of the pass. *)
Definition plan_death (specs : gmap Sri CellDeployment) (gens : gmap Sri Gen) (now : Instant)
    (st : RestartPlan * RestartBudget) (death : RootDeath) : RestartPlan * RestartBudget :=
  let '(plan, budget) := st in
  let sri := rd_sri death in
  match specs !! sri with
  | None => (push_clear sri plan, budget)
  | Some spec =>
      match gens !! sri with
      | Some cur => if gen_ltb (rd_gen death) cur then (push_clear sri plan, budget) else (plan, budget)
      | None =>
          let policy := cd_restart spec in
          if should_restart (rp_restart_type policy) (rd_reason death) then
            if attempt_ready sri (from_millis (rp_delay_ms policy)) now budget then
              match allow sri (rp_max_restarts policy) (from_millis (rp_window_ms policy)) now budget with
              | (true, budget) => (push_restart sri plan, budget)
              | (false, budget) => (push_clear sri (push_drop sri plan), forget_attempts sri budget)
              end
            else (plan, budget)
          else (push_clear sri (push_drop sri plan), forget_attempts sri budget)
      end
  end.

Definition orphaned (specs : list CellDeployment) (deaths : list RootDeath) (gens : gmap Sri Gen)
    (instances : list CellInstance) : list Sri :=
  List.filter (fun sri =>
    bool_decide (gens !! sri = None) && negb (bool_decide (sri ∈ map ci_sri instances)) &&
    negb (bool_decide (sri ∈ map rd_sri deaths))) (map cd_sri specs).

Definition plan_root_restarts (specs : list CellDeployment) (deaths : list RootDeath)
    (placements : list PlacementEntry) (instances : list CellInstance) (budget : RestartBudget)
    (sweep : RestartSweep) (now : Instant) : RestartPlan * RestartBudget * RestartSweep :=
  let gens := placement_gens placements in
  let '(plan, budget) := fold_left (plan_death (spec_by_sri specs) gens now) deaths (plan_nothing, budget) in
  let '(confirmed, sweep) := confirm (orphaned specs deaths gens instances) sweep in
  let '(plan, budget) :=
    fold_left (fun '(plan, budget) sri => (push_drop sri plan, forget_attempts sri budget)) confirmed (plan, budget) in
  (plan, budget, sweep).

Inductive DeployOutcome := Deployed | Infeasible | NoRuntimesAvailable | DeployFailed.
Inductive RestartOp := Deploy (d : CellDeployment) | EraseSpec (sri : Sri) | ClearDeath (sri : Sri).

(** What the scans of a restart pass return, and how the deployments end. *)
Record RestartInput := mkRestartInput {
  ri_specs : option (list CellDeployment);
  ri_deaths : option (list RootDeath);
  ri_placements : option (list PlacementEntry);
  ri_instances : option (list CellInstance);
  ri_now : Instant;
  ri_deploy : Sri -> DeployOutcome;
}.

Definition redeploy (specs : gmap Sri CellDeployment) (outcome : Sri -> DeployOutcome)
    (st : list RestartOp * RestartBudget) (sri : Sri) : list RestartOp * RestartBudget :=
  let '(ops, budget) := st in
  match specs !! sri with
  | None => (ops, budget)
  | Some spec =>
      match outcome sri with
      | Deployed => (ops ++ [Deploy spec; ClearDeath sri], budget)
      | Infeasible | NoRuntimesAvailable => (ops ++ [Deploy spec], refund sri budget)
      | DeployFailed => (ops ++ [Deploy spec], budget)
      end
  end.

Definition process_root_restarts (inp : RestartInput) (budget : RestartBudget) (sweep : RestartSweep)
    : list RestartOp * RestartBudget * RestartSweep :=
  match ri_specs inp, ri_deaths inp with
  | Some specs, Some deaths =>
      match specs, deaths with
      | [], [] => ([], budget, sweep)
      | _, _ =>
          match ri_placements inp, ri_instances inp with
          | Some placements, Some instances =>
              let '(plan, budget, sweep) :=
                plan_root_restarts specs deaths placements instances budget sweep (ri_now inp) in
              let '(ops, budget) := fold_left (redeploy (spec_by_sri specs) (ri_deploy inp)) (pl_restart plan) ([], budget) in
              (ops ++ map EraseSpec (pl_drop_specs plan) ++ map ClearDeath (pl_clear_deaths plan), budget, sweep)
          | _, _ => ([], budget, sweep)
          end
      end
  | _, _ => ([], budget, sweep)
  end.

(** ** The lease watcher *)

Record NodeLease := mkLease { nl_device_id : str; nl_seq : Z; nl_ttl_ms : Z }.

Record Watcher := mkWatcher {
  wt_tracker : Tracker;
  wt_gate : ExpiryGate;
  wt_absence : ExpiryGate;
  wt_budget : RestartBudget;
  wt_sweep : RestartSweep;
}.

Definition watcher_new (timing : SupervisionTiming) (now : Instant) : Watcher :=
  mkWatcher (tk_new now) (gate_new (tm_margin timing)) (gate_new (tm_ttl timing + tm_margin timing)) ∅ ∅.

Record PassInput := mkPass {
  pi_leases : option (list (RuntimeId * NodeLease));
  pi_now : Instant;
  pi_cells : option (list PlacementEntry);
  pi_leader : bool;
  pi_instances : option (list CellInstance);
  pi_answer : nat -> bool;
  pi_restarts : RestartInput;
}.

Definition observe_all (leases : list (RuntimeId * NodeLease)) (now : Instant) (t : Tracker) : Tracker :=
  fold_left (fun t '(id, lease) => tk_observe id (nl_seq lease) (from_millis (nl_ttl_ms lease)) now t) leases t.

(** The silence of the placed nodes whose lease was seen. *)
Definition seen_silence (t : Tracker) (now : Instant) (placed : list RuntimeId) : gmap RuntimeId Duration :=
  fold_left (fun m node =>
    match tk_stale_for t node now with Some stale => <[node := stale]> m | None => m end) placed ∅.

(** The absent leases: a prior observation's silence stays, and a long absence readies the node. *)
Definition add_absence (limit : Duration) (st : gmap RuntimeId Duration * list RuntimeId)
    (e : RuntimeId * Duration) : gmap RuntimeId Duration * list RuntimeId :=
  let '(silence, ready) := st in
  let '(node, silent) := e in
  (match silence !! node with Some _ => silence | None => <[node := silent]> silence end,
   if limit <=? silent then ready ++ [node] else ready).

Section Watch.
Context (id_str : RuntimeId -> str) (timing : SupervisionTiming).

Definition id_le (a b : RuntimeId) : Prop := ble (id_str a) (id_str b).
#[export] Instance id_le_dec : RelDecision id_le.
Proof. intros a b. unfold id_le, ble. apply _. Defined.

Definition lease_missing (placed : list RuntimeId) (leased : list RuntimeId) : list RuntimeId :=
  dedup (merge_sort id_le (List.filter (fun node => negb (bool_decide (node ∈ leased))) placed)).

(** What a pass knows of the nodes' silence before it may act. *)
Definition watch_silence (leases : list (RuntimeId * NodeLease)) (now : Instant) (placed : list RuntimeId) (w : Watcher)
    : gmap RuntimeId Duration * list RuntimeId * ExpiryGate * ExpiryGate :=
  let silence := seen_silence (wt_tracker w) now placed in
  let '(ready, gate) := gate_ready (tk_expired (wt_tracker w) now) now (wt_gate w) in
  let '(absent, absence) := silences (lease_missing placed (map fst leases)) now (wt_absence w) in
  let '(silence, ready) := fold_left (add_absence (tm_ttl timing + tm_margin timing)) absent (silence, ready) in
  (silence, dedup (merge_sort id_le ready), gate, absence).

Definition hygiene_called (silence : gmap RuntimeId Duration) (ready : list RuntimeId) : bool :=
  negb (bool_decide (ready = [])) || existsb (fun e => min_deadline timing <=? e.2) (map_to_list silence).

Definition watch_pass (inp : PassInput) (w : Watcher) : Trace * list RestartOp * Watcher :=
  match pi_leases inp with
  | None => ([], [], w)
  | Some leases =>
      let now := pi_now inp in
      let tracker := observe_all leases now (wt_tracker w) in
      let w := mkWatcher tracker (wt_gate w) (wt_absence w) (wt_budget w) (wt_sweep w) in
      match pi_cells inp with
      | None => ([], [], w)
      | Some cells =>
          let '(silence, ready, gate, absence) := watch_silence leases now (omap placement_node cells) w in
          if pi_leader inp then
            let '(tr, tracker) :=
              if hygiene_called silence ready
              then run_hygiene (pi_answer inp) (pi_instances inp) silence ready cells tracker timing
              else ([], tracker) in
            let '(ops, budget, sweep) := process_root_restarts (pi_restarts inp) (wt_budget w) (wt_sweep w) in
            (tr, ops, mkWatcher tracker gate absence budget sweep)
          else ([], [], mkWatcher tracker gate absence (wt_budget w) (wt_sweep w))
      end
  end.

(** The passes of a watcher, one after the other. *)
Fixpoint watch_run (inps : list PassInput) (w : Watcher) : list (Trace * list RestartOp) * Watcher :=
  match inps with
  | [] => ([], w)
  | inp :: inps =>
      let '(tr, ops, w) := watch_pass inp w in
      let '(outs, w) := watch_run inps w in ((tr, ops) :: outs, w)
  end.

End Watch.
