(* ===== verification/LeaseFacts.v ===== *)
(** * Leases, gates and budgets over time

    What a lease tracker, an expiry gate and a restart budget have become
    after any sequence of calls, in terms of the calls. *)

From S2P Require Import Prelude Bytes Domain Store Supervision.
From Stdlib Require Import ZArith Lia Strings.Byte.
From stdpp Require Import base list option gmap sets.

Local Open Scope Z_scope.

(** ** The lease tracker *)

Inductive LeaseEvent := Seen (id : RuntimeId) (seq ttl_ms now_ms : Z) | Gone (id : RuntimeId).

Definition lease_step (t : LeaseTracker) (e : LeaseEvent) : LeaseTracker :=
  match e with
  | Seen id seq ttl_ms now_ms => observe id seq ttl_ms now_ms t
  | Gone id => forget_node id t
  end.
Definition lease_run (t : LeaseTracker) (es : list LeaseEvent) : LeaseTracker := fold_left lease_step es t.

(** The observations of a node since it was last forgotten, oldest first. *)
Definition obs_step (id : RuntimeId) (acc : list Observed) (e : LeaseEvent) : list Observed :=
  match e with
  | Seen i seq ttl_ms now_ms => if bool_decide (i = id) then acc ++ [mkObserved id seq now_ms ttl_ms] else acc
  | Gone i => if bool_decide (i = id) then [] else acc
  end.
Definition observations (id : RuntimeId) (es : list LeaseEvent) : list Observed := fold_left (obs_step id) es [].

(** The first observation of the highest sequence number seen. *)
Definition last_advance (l : list Observed) (o : Observed) : Prop :=
  exists pre post, l = pre ++ o :: post /\
    Forall (fun y => ob_seq y < ob_seq o) pre /\ Forall (fun y => ob_seq y <= ob_seq o) post.

Definition entry (t : LeaseTracker) (id : RuntimeId) : option Observed := List.find (is_node id) t.

Definition advance (id : RuntimeId) (seq ttl_ms now_ms : Z) (o : option Observed) : Observed :=
  match o with
  | Some o => if ob_seq o <? seq then mkObserved id seq now_ms ttl_ms else o
  | None => mkObserved id seq now_ms ttl_ms
  end.

Lemma is_node_refl o : is_node (ob_id o) o = true.
Proof. unfold is_node. by rewrite bool_decide_eq_true_2. Qed.

Lemma entry_observe t id seq ttl now i :
  entry (observe id seq ttl now t) i = if bool_decide (i = id) then Some (advance id seq ttl now (entry t id)) else entry t i.
Proof.
  unfold entry. induction t as [|o t IH]; cbn.
  - unfold is_node; cbn. repeat case_bool_decide; naive_solver.
  - destruct (is_node id o) eqn:Ho; cbn.
    + pose proof Ho as Hid. unfold is_node in Hid. apply bool_decide_eq_true in Hid.
      destruct (ob_seq o <? seq) eqn:Hs; cbn; unfold is_node; cbn; subst; repeat case_bool_decide; naive_solver.
    + rewrite IH. unfold is_node in *. apply bool_decide_eq_false in Ho.
      repeat case_bool_decide; naive_solver.
Qed.

Lemma entry_forget t id i : entry (forget_node id t) i = if bool_decide (i = id) then None else entry t i.
Proof.
  unfold entry, forget_node. induction t as [|o t IH]; cbn; [by case_bool_decide|].
  destruct (is_node id o) eqn:Ho; cbn; unfold is_node in *.
  - apply bool_decide_eq_true in Ho. rewrite IH. repeat case_bool_decide; naive_solver.
  - apply bool_decide_eq_false in Ho. rewrite IH. repeat case_bool_decide; naive_solver.
Qed.

Lemma advance_last l o id seq ttl now :
  last_advance l o -> last_advance (l ++ [mkObserved id seq now ttl]) (advance id seq ttl now (Some o)).
Proof.
  intros (pre & post & -> & Hpre & Hpost). cbn. destruct (Z.ltb_spec (ob_seq o) seq) as [Hs|Hs].
  - exists (pre ++ o :: post), []. split; [by rewrite <-app_assoc|]. split; [|done].
    cbn. rewrite Forall_app, Forall_cons. repeat split; [|lia|]; (eapply Forall_impl; [eassumption|]; cbn; lia).
  - exists pre, (post ++ [mkObserved id seq now ttl]). rewrite <-app_assoc. split; [done|]. split; [done|].
    rewrite Forall_app. split; [done|]. by repeat constructor.
Qed.

Lemma lease_run_history es t id acc :
  match entry t id with Some o => last_advance acc o | None => acc = [] end ->
  match entry (lease_run t es) id with
  | Some o => last_advance (fold_left (obs_step id) es acc) o
  | None => fold_left (obs_step id) es acc = []
  end.
Proof.
  revert t acc. induction es as [|e es IH]; intros t acc H; [done|]. apply IH. destruct e as [i seq ttl now|i]; cbn [lease_step obs_step].
  - rewrite entry_observe. rewrite (bool_decide_ext (id = i) (i = id)) by naive_solver.
    case_bool_decide as Hi; [subst i|done]. destruct (entry t id) as [o|] eqn:Ht.
    + by apply advance_last.
    + subst acc. exists [], []. done.
  - rewrite entry_forget. rewrite (bool_decide_ext (id = i) (i = id)) by naive_solver. by case_bool_decide.
Qed.

Lemma entry_history es id :
  match entry (lease_run [] es) id with
  | Some o => last_advance (observations id es) o
  | None => observations id es = []
  end.
Proof. by apply lease_run_history. Qed.

Lemma split_order {A} (pre post pre' post' : list A) o o' :
  pre ++ o :: post = pre' ++ o' :: post' -> (length pre < length pre')%nat -> o ∈ pre' /\ o' ∈ post.
Proof.
  intros Heq Hlt. split; apply list_elem_of_lookup.
  - exists (length pre). rewrite <-(lookup_app_l pre' (o' :: post')) by done. rewrite <-Heq.
    by rewrite lookup_app_r, Nat.sub_diag by lia.
  - exists (length pre' - length pre - 1)%nat.
    assert ((pre ++ o :: post) !! length pre' = Some o') as H.
    { rewrite Heq. by rewrite lookup_app_r, Nat.sub_diag by lia. }
    rewrite lookup_app_r in H by lia. destruct (length pre' - length pre)%nat as [|n] eqn:Hn; [lia|].
    cbn in H. by replace (Datatypes.S n - 1)%nat with n by lia.
Qed.

(** A history has one last advance. *)
Lemma last_advance_unique l o o' : last_advance l o -> last_advance l o' -> o = o'.
Proof.
  intros (pre & post & -> & Hpre & Hpost) (pre' & post' & Heq & Hpre' & Hpost').
  rewrite Forall_forall in Hpre, Hpost, Hpre', Hpost'.
  destruct (lt_eq_lt_dec (length pre) (length pre')) as [[Hlt|Hlen]|Hlt].
  - destruct (split_order _ _ _ _ _ _ Heq Hlt) as [H1 H2].
    specialize (Hpre' _ H1). specialize (Hpost _ H2). cbn in *. lia.
  - by apply app_inj_1 in Heq as [_ [= ->]].
  - destruct (split_order _ _ _ _ _ _ (eq_sym Heq) Hlt) as [H1 H2].
    specialize (Hpre _ H1). specialize (Hpost' _ H2). cbn in *. lia.
Qed.

Lemma entry_last_advance es id o : entry (lease_run [] es) id = Some o <-> last_advance (observations id es) o.
Proof.
  pose proof (entry_history es id) as H. destruct (entry (lease_run [] es) id) as [o'|].
  - split; [by intros [= <-]|]. intros Ho. f_equal. by eapply last_advance_unique.
  - split; [done|]. intros (pre & post & Heq & _). rewrite H in Heq. by destruct pre.
Qed.

(** The tracker keeps one entry for a node. *)
Lemma observe_ids id seq ttl now t :
  map ob_id (observe id seq ttl now t) = if bool_decide (id ∈ map ob_id t) then map ob_id t else map ob_id t ++ [id].
Proof.
  induction t as [|o t IH]; cbn; [done|]. unfold is_node. destruct (decide (ob_id o = id)) as [Ho|Ho].
  - rewrite !bool_decide_eq_true_2 by (rewrite ?elem_of_cons; auto). by destruct (ob_seq o <? seq).
  - rewrite (bool_decide_eq_false_2 (ob_id o = id)) by done. cbn. rewrite IH. destruct (decide (id ∈ map ob_id t)) as [Hin|Hin].
    + by rewrite !bool_decide_eq_true_2 by (try apply elem_of_cons; auto).
    + by rewrite !bool_decide_eq_false_2 by (try rewrite elem_of_cons; naive_solver).
Qed.

Lemma lease_run_nodup es t : NoDup (map ob_id t) -> NoDup (map ob_id (lease_run t es)).
Proof.
  revert t. induction es as [|e es IH]; intros t Ht; [done|]. apply IH. destruct e as [i seq ttl now|i]; cbn.
  - rewrite observe_ids. case_bool_decide; [done|]. apply NoDup_app. split; [done|]. split; [set_solver|]. apply NoDup_singleton.
  - unfold forget_node. clear IH. induction t as [|o t IH]; cbn; [done|].
    apply NoDup_cons in Ht as [Ho Ht]. destruct (negb (is_node i o)); cbn; [|auto].
    apply NoDup_cons. split; [|auto]. intros (o' & Ho' & Hin)%list_elem_of_fmap. apply Ho. apply list_elem_of_fmap.
    exists o'. split; [done|]. apply list_elem_of_In in Hin. apply filter_In in Hin as [Hin _]. by apply list_elem_of_In.
Qed.

Lemma find_nodup t o : NoDup (map ob_id t) -> o ∈ t -> entry t (ob_id o) = Some o.
Proof.
  unfold entry. induction t as [|o' t IH]; cbn; [set_solver|]. intros [Ho Ht]%NoDup_cons [->|Hin]%elem_of_cons.
  - by rewrite is_node_refl.
  - unfold is_node. case_bool_decide as Hid; [|auto]. exfalso. apply Ho. rewrite Hid. apply list_elem_of_fmap. eauto.
Qed.

Lemma entry_in t id o : entry t id = Some o -> o ∈ t /\ ob_id o = id.
Proof.
  intros H. apply find_some in H as [Hin Hid]. split; [by apply list_elem_of_In|]. unfold is_node in Hid. by apply bool_decide_eq_true in Hid.
Qed.

Lemma expired_iff t id now : NoDup (map ob_id t) -> id ∈ expired t now <-> is_expired t id now = true.
Proof.
  intros Ht. unfold expired, is_expired. fold (entry t id). rewrite list_elem_of_fmap. split.
  - intros (o & -> & Hin). apply list_elem_of_In, filter_In in Hin as [Hin Hexp].
    rewrite (find_nodup t o); [done|done|]. by apply list_elem_of_In.
  - destruct (entry t id) as [o|] eqn:Ho; [|done]. apply entry_in in Ho as [Hin <-]. intros Hexp.
    exists o. split; [done|]. apply list_elem_of_In, filter_In. split; [by apply list_elem_of_In|done].
Qed.

(** An observer declares a lease expired by what it saw, and errs late.
    After any scans and any forgetting of nodes, the staleness of a node is the
    time since the first sight of the highest sequence number seen of it since
    it was last forgotten; it is expired, and listed as such, when that is
    longer than the time to live declared with that number, and a node never
    seen is neither. *)
Theorem lease_staleness_by_history es id now :
  (forall s, stale_for (lease_run [] es) id now = Some s <->
     exists o, last_advance (observations id es) o /\ s = saturating_sub now (ob_advanced_at_ms o)) /\
  (is_expired (lease_run [] es) id now = true <->
     exists o, last_advance (observations id es) o /\ ob_ttl_ms o < saturating_sub now (ob_advanced_at_ms o)) /\
  (id ∈ expired (lease_run [] es) now <-> is_expired (lease_run [] es) id now = true).
Proof.
  setoid_rewrite <-entry_last_advance. split; [|split].
  - intros s. unfold stale_for. fold (entry (lease_run [] es) id).
    destruct (entry (lease_run [] es) id); cbn; naive_solver.
  - unfold is_expired. fold (entry (lease_run [] es) id).
    destruct (entry (lease_run [] es) id) as [o|]; [rewrite Z.ltb_lt|]; naive_solver.
  - apply expired_iff, lease_run_nodup, NoDup_nil_2.
Qed.

(** ** The gate *)

(** Since when a node has been in every set fed to a gate (newest pass first). *)
Fixpoint since (id : RuntimeId) (past : list (list RuntimeId * Instant)) : option Instant :=
  match past with
  | [] => None
  | (current, at_) :: past => if bool_decide (id ∈ current) then Some (default at_ (since id past)) else None
  end.

Fixpoint gate_run (g : ExpiryGate) (past : list (list RuntimeId * Instant)) : ExpiryGate :=
  match past with
  | [] => g
  | (current, now) :: past => (silences current now (gate_run g past)).2
  end.

Lemma bool_decide_ext_if {A} (P Q : Prop) `{Decision P, Decision Q} (a b : A) :
  (P <-> Q) -> (if bool_decide P then a else b) = if bool_decide Q then a else b.
Proof. intros HPQ. by rewrite (bool_decide_ext P Q HPQ). Qed.

Lemma gate_entries_spec now ids fs fs' es :
  gate_entries now fs ids = (fs', es) ->
  (forall id, fs' !! id = match fs !! id with Some t => Some t | None => if bool_decide (id ∈ ids) then Some now else None end) /\
  (forall id d, (id, d) ∈ es <-> id ∈ ids /\ d = instant_since now (default now (fs !! id))).
Proof.
  revert fs fs' es. induction ids as [|i ids IH]; intros fs fs' es; cbn.
  - intros [= <- <-]. split; [intros id; by destruct (fs !! id)|]. intros id d. split; [by intros ?%elem_of_nil|by intros [?%elem_of_nil _]].
  - unfold gate_entry. destruct (fs !! i) as [t|] eqn:Hi.
    + destruct (gate_entries now fs ids) as [fs1 es1] eqn:Hrec. intros [= <- <-].
      destruct (IH _ _ _ Hrec) as [H1 H2]. clear IH Hrec. split.
      * intros id. rewrite H1. destruct (fs !! id) eqn:Hid; [done|]. apply bool_decide_ext_if. rewrite elem_of_cons.
        split; [by right|]. intros [->|?]; [congruence|done].
      * intros id d. rewrite !elem_of_cons, H2. split; [intros [[= -> ->]|[? ?]]; rewrite ?Hi; auto|].
        intros [[->|?] ->]; [left; by rewrite Hi|by right].
    + destruct (gate_entries now (<[i:=now]> fs) ids) as [fs1 es1] eqn:Hrec. intros [= <- <-].
      destruct (IH _ _ _ Hrec) as [H1 H2]. clear IH Hrec. split.
      * intros id. rewrite H1. destruct (decide (id = i)) as [->|Hne].
        -- rewrite lookup_insert_eq, Hi. rewrite bool_decide_eq_true_2; [done|]. apply elem_of_cons; auto.
        -- rewrite lookup_insert_ne by done. destruct (fs !! id); [done|]. apply bool_decide_ext_if. rewrite elem_of_cons.
           split; [by right|]. by intros [->|?].
      * intros id d. rewrite !elem_of_cons, H2. destruct (decide (id = i)) as [->|Hne].
        -- rewrite lookup_insert_eq, Hi. cbn. split; [intros [[= ->]|[? ?]]; auto|]. intros [_ ->]. by left.
        -- rewrite lookup_insert_ne by done. split; [intros [[= -> ->]|[? ?]]; [done|auto]|]. intros [[->|?] ?]; [done|by right].
Qed.

Lemma filter_first_seen (fs : gmap RuntimeId Instant) (current : list RuntimeId) id :
  filter (fun e : RuntimeId * Instant => e.1 ∈ current) fs !! id = if bool_decide (id ∈ current) then fs !! id else None.
Proof.
  case_bool_decide as Hin.
  - destruct (fs !! id) as [t|] eqn:Ht.
    + by apply map_lookup_filter_Some_2.
    + apply map_lookup_filter_None_2. by left.
  - apply map_lookup_filter_None_2. right. by intros.
Qed.

Lemma gate_run_margin m past : eg_margin (gate_run (gate_new m) past) = m.
Proof.
  induction past as [|[current now] past IH]; cbn; [done|]. unfold silences. by destruct (gate_entries _ _ _).
Qed.

Lemma gate_run_since m past id : eg_first_seen (gate_run (gate_new m) past) !! id = since id past.
Proof.
  induction past as [|[current now] past IH]; cbn; [done|]. unfold silences.
  destruct (gate_entries _ _ _) as [fs es] eqn:He. apply gate_entries_spec in He as [H1 _]. cbn.
  rewrite H1, filter_first_seen, IH. case_bool_decide; [by destruct (since id past)|done].
Qed.

Lemma silences_spec m past current now id d :
  (id, d) ∈ (silences current now (gate_run (gate_new m) past)).1 <->
  id ∈ current /\ d = instant_since now (default now (since id past)).
Proof.
  unfold silences. destruct (gate_entries _ _ _) as [fs es] eqn:He. apply gate_entries_spec in He as [_ H2]. cbn.
  rewrite H2, filter_first_seen, gate_run_since. by case_bool_decide; [|split; intros [??]].
Qed.

(** What a gate releases: the nodes of the current set that have been in every
    set fed to it for the margin, measured from its own first sight of them. *)
Lemma gate_ready_spec m past current now id :
  id ∈ (gate_ready current now (gate_run (gate_new m) past)).1 <->
  id ∈ current /\ m <= instant_since now (default now (since id past)).
Proof.
  unfold gate_ready. pose proof (silences_spec m past current now id) as Hs.
  pose proof (gate_run_margin m ((current, now) :: past)) as Hm. cbn [gate_run] in Hm.
  destruct (silences _ _ _) as [es g]. cbn in *. rewrite Hm, list_elem_of_fmap. split.
  - intros ([i d] & -> & Hin). apply list_elem_of_In, filter_In in Hin as [Hin Hd]. apply list_elem_of_In in Hin.
    cbn in *. apply Z.leb_le in Hd. apply Hs in Hin as [? Hd']. subst. done.
  - intros [Hin Hle]. eexists (id, _). split; [done|]. apply list_elem_of_In, filter_In. split; [apply list_elem_of_In, Hs; done|].
    by apply Z.leb_le.
Qed.
