(* ===== verification/HygieneFacts.v ===== *)
(** * What hygiene does, and to whom

    The plan of a hygiene pass, the order in which it is carried out, and that
    a node which keeps renewing its lease loses nothing. *)

From S2P Require Import Prelude Bytes Domain Store Supervision Hygiene LeaseFacts.
From Stdlib Require Import ZArith Lia Strings.Byte.
From stdpp Require Import base list option gmap sets sorting.

Local Open Scope Z_scope.

(** ** Maps collected from lists *)

Lemma collect_map_snoc {A} (l : list (Z * A)) k v : collect_map (l ++ [(k, v)]) = <[k := v]> (collect_map l).
Proof. unfold collect_map. by rewrite fold_left_app. Qed.

Lemma collect_map_in {A} (l : list (Z * A)) k v : collect_map l !! k = Some v -> (k, v) ∈ l.
Proof.
  induction l as [|[k' v'] l IH] using rev_ind; [done|]. rewrite collect_map_snoc, elem_of_app, list_elem_of_singleton.
  destruct (decide (k = k')) as [->|Hne].
  - rewrite lookup_insert_eq. intros [= ->]. by right.
  - rewrite lookup_insert_ne by done. auto.
Qed.

Lemma collect_map_is_some {A} (l : list (Z * A)) k : is_Some (collect_map l !! k) <-> k ∈ map fst l.
Proof.
  induction l as [|[k' v'] l IH] using rev_ind.
  - split; [by intros []|by intros ?%elem_of_nil].
  - rewrite collect_map_snoc, map_app, elem_of_app. cbn. rewrite list_elem_of_singleton.
    destruct (decide (k = k')) as [->|Hne].
    + rewrite lookup_insert_eq. split; [by right|by eauto].
    + rewrite lookup_insert_ne, IH by done. naive_solver.
Qed.

Lemma collect_map_nodup {A} (l : list (Z * A)) k v :
  NoDup (map fst l) -> collect_map l !! k = Some v <-> (k, v) ∈ l.
Proof.
  intros Hnd. split; [apply collect_map_in|]. intros Hin.
  destruct (proj2 (collect_map_is_some l k)) as [v' Hv'].
  { apply list_elem_of_fmap. by exists (k, v). }
  pose proof (collect_map_in _ _ _ Hv') as Hin'. rewrite Hv'. f_equal.
  apply list_elem_of_lookup in Hin as [i Hi], Hin' as [j Hj].
  assert (i = j) as ->; [|congruence].
  eapply NoDup_lookup; [exact Hnd| |]; rewrite list_lookup_fmap; [by rewrite Hi|by rewrite Hj].
Qed.

(** ** Sorting and removing repetitions keep the members *)

Lemma dedup_elem_of x l : x ∈ dedup l <-> x ∈ l.
Proof.
  induction l as [|y l IH]; cbn; [done|]. rewrite elem_of_cons, <-IH. destruct (dedup l) as [|z r].
  - rewrite list_elem_of_singleton. split; [by left|]. by intros [?|?%elem_of_nil].
  - destruct (Z.eqb_spec y z) as [->|Hne]; rewrite !elem_of_cons; naive_solver.
Qed.

(** ** The plan *)

Section Plan.
Context (silence : gmap RuntimeId Duration) (teardown_ready : list RuntimeId) (cells : list PlacementEntry)
  (instances : list CellInstance) (node_ttls : gmap RuntimeId Duration) (timing : SupervisionTiming).
Let plan := plan_hygiene silence teardown_ready cells instances node_ttls timing.
Let insts := by_sri instances.

(** A cell is declared dead: some placement of it is on a node silent past its deadline. *)
Definition declared_dead (sri : Sri) : Prop :=
  exists c node silent, c ∈ cells /\ pe_sri c = sri /\ placement_node c = Some node /\
    silence !! node = Some silent /\ deadline insts node_ttls timing sri node <= silent.

Lemma cell_due_spec c :
  cell_due silence insts node_ttls timing c = true <->
  exists node silent, placement_node c = Some node /\ silence !! node = Some silent /\
    deadline insts node_ttls timing (pe_sri c) node <= silent.
Proof.
  unfold cell_due. destruct (placement_node c) as [node|]; [|naive_solver].
  destruct (silence !! node) as [s|] eqn:Hs; [rewrite Z.leb_le|]; naive_solver.
Qed.

Lemma due_iff sri :
  sri ∈ (list_to_set (map pe_sri (List.filter (cell_due silence insts node_ttls timing) cells)) : gset Sri) <->
  declared_dead sri.
Proof.
  rewrite elem_of_list_to_set, list_elem_of_fmap. unfold declared_dead. split.
  - intros (c & -> & Hin). apply list_elem_of_In, filter_In in Hin as [Hin Hdue]. apply list_elem_of_In in Hin.
    apply cell_due_spec in Hdue as (node & s & ? & ? & ?). by exists c, node, s.
  - intros (c & node & s & Hin & <- & Hn & Hs & Hd). exists c. split; [done|]. apply list_elem_of_In, filter_In.
    split; [by apply list_elem_of_In|]. apply cell_due_spec. eauto.
Qed.

Lemma dead_cells_elem c :
  c ∈ List.filter (fun c => bool_decide (pe_sri c ∈
        (list_to_set (map pe_sri (List.filter (cell_due silence insts node_ttls timing) cells)) : gset Sri))) cells <->
  c ∈ cells /\ declared_dead (pe_sri c).
Proof. rewrite !list_elem_of_In, filter_In, bool_decide_eq_true, due_iff. by rewrite <-list_elem_of_In. Qed.

Lemma release_iff sri : sri ∈ hp_release_cells plan <-> declared_dead sri.
Proof.
  unfold plan, plan_hygiene; cbn. fold insts. rewrite list_elem_of_fmap. setoid_rewrite dead_cells_elem. split.
  - by intros (c & -> & _ & ?).
  - intros Hd. pose proof Hd as (c & node & s & Hin & Hsri & _). exists c. by subst sri.
Qed.

Lemma remove_same : hp_remove_instances plan = hp_release_cells plan.
Proof. done. Qed.

Lemma teardown_iff node :
  node ∈ hp_teardown_nodes plan <->
  node ∈ teardown_ready /\ forall c, c ∈ cells -> placement_node c = Some node -> declared_dead (pe_sri c).
Proof.
  unfold plan, plan_hygiene; cbn. fold insts. rewrite !list_elem_of_In, filter_In, forallb_forall.
  setoid_rewrite filter_In. setoid_rewrite bool_decide_eq_true. setoid_rewrite due_iff.
  setoid_rewrite <-list_elem_of_In. naive_solver.
Qed.

Lemma note_iff note :
  note ∈ hp_notes plan <->
  exists c instance parent, c ∈ cells /\ declared_dead (pe_sri c) /\ insts !! pe_sri c = Some instance /\
    ln_detached (ci_lineage instance) = false /\ ln_parent (ci_lineage instance) = Some parent /\
    ~ declared_dead parent /\ is_Some (hosted_placements cells !! parent) /\
    note = mkNote parent (pe_sri c) (ci_gen instance) (ln_local_name (ci_lineage instance)).
Proof.
  unfold plan, plan_hygiene; cbn. fold insts. rewrite list_elem_of_omap. setoid_rewrite dead_cells_elem. unfold note_for. fold insts.
  setoid_rewrite <-due_iff. split.
  - intros (c & [Hin Hd] & Hn). destruct (insts !! pe_sri c) as [i|] eqn:Hi; cbn in Hn; [|done].
    destruct (ln_detached (ci_lineage i)) eqn:Hdet; [done|].
    destruct (ln_parent (ci_lineage i)) as [p|] eqn:Hp; cbn in Hn; [|done].
    repeat case_bool_decide; simplify_eq. exists c, i, p. auto 10.
  - intros (c & i & p & Hin & Hd & Hi & Hdet & Hp & Hnd & Hpl & ->). exists c. split; [done|].
    rewrite Hi; cbn. rewrite Hdet, Hp; cbn. by rewrite bool_decide_eq_false_2, bool_decide_eq_true_2.
Qed.

End Plan.

(** ** Carrying the plan out *)

Section CarryFacts.
Context (answer : nat -> bool).

Definition perform_all (ops : list HygieneOp) (tr : Trace) : Trace := fold_left (fun tr op => perform answer op tr) ops tr.

Lemma perform_all_app ops ops' tr : perform_all (ops ++ ops') tr = perform_all ops' (perform_all ops tr).
Proof. unfold perform_all. by rewrite fold_left_app. Qed.

Lemma perform_all_ops ops tr : map fst (perform_all ops tr) = map fst tr ++ ops.
Proof.
  revert tr. induction ops as [|op ops IH]; intros tr; cbn; [by rewrite app_nil_r|].
  rewrite IH. unfold perform. rewrite map_app. by rewrite <-app_assoc.
Qed.

Lemma perform_all_length ops tr : length (perform_all ops tr) = (length tr + length ops)%nat.
Proof. rewrite <-(length_map fst), perform_all_ops, length_app, length_map. done. Qed.

(** The changes of each step of the plan. *)
Definition death_ops (insts : gmap Sri CellInstance) (sris : list Sri) : list HygieneOp :=
  omap (fun sri => inst ← insts !! sri;
    match ln_parent (ci_lineage inst) with None => Some (RecordDeath sri (ci_gen inst) NodeLost) | Some _ => None end) sris.
Definition note_ops (notes : list CellLostNote) : list HygieneOp :=
  map (fun n => EmitLost (nt_parent n) (nt_cell n) (nt_local_name n) NodeLost) notes.
Definition release_ops (gens : gmap Sri Gen) (sris : list Sri) : list HygieneOp :=
  omap (fun sri => (fun g => RemovePlacement sri g) <$> gens !! sri) sris.
Definition remove_ops (insts : gmap Sri CellInstance) (sris : list Sri) : list HygieneOp :=
  omap (fun sri => (fun inst => RemoveInstance sri (ci_gen inst)) <$> insts !! sri) sris.
Definition teardown_ops (nodes : list RuntimeId) : list HygieneOp :=
  flat_map (fun id => [DeregisterExec id; DeleteLease id]) nodes.

(** A loop that makes at most one change for each element. *)
Lemma loop_ops {A} (f : A -> option HygieneOp) (step : Trace -> A -> Trace) l tr :
  (forall tr a, step tr a = match f a with Some op => perform answer op tr | None => tr end) ->
  fold_left step l tr = perform_all (omap f l) tr.
Proof.
  intros Hstep. revert tr. induction l as [|a l IH]; intros tr; cbn; [done|]. rewrite IH, Hstep. by destruct (f a).
Qed.

Lemma record_deaths_ops insts sris tr : record_deaths answer insts sris tr = perform_all (death_ops insts sris) tr.
Proof.
  apply loop_ops. intros tr' sri. destruct (insts !! sri) as [i|]; cbn; [|done]. by destruct (ln_parent _).
Qed.
Lemma release_placements_ops gens sris tr : release_placements answer gens sris tr = perform_all (release_ops gens sris) tr.
Proof. apply loop_ops. intros tr' sri. by destruct (gens !! sri). Qed.
Lemma remove_instance_rows_ops insts sris tr : remove_instance_rows answer insts sris tr = perform_all (remove_ops insts sris) tr.
Proof. apply loop_ops. intros tr' sri. by destruct (insts !! sri). Qed.

Lemma teardown_ops_eq nodes tr tracker :
  teardown answer nodes tr tracker = (perform_all (teardown_ops nodes) tr, fold_left (fun t id => tk_forget id t) nodes tracker).
Proof. revert tr tracker. unfold teardown. induction nodes as [|id nodes IH]; intros tr tracker; cbn; [done|]. by rewrite IH. Qed.

(** Every one of the changes from a position on succeeds. *)
Definition answered (from : nat) (n : nat) : bool := forallb answer (seq from n).

Lemma emit_notes_go notes tr failed :
  fold_left (fun '(tr, failed) note =>
    (perform answer (EmitLost (nt_parent note) (nt_cell note) (nt_local_name note) NodeLost) tr,
     if answer (length tr) then failed else true)) notes (tr, failed) =
  (perform_all (note_ops notes) tr, failed || negb (answered (length tr) (length notes))).
Proof.
  revert tr failed. induction notes as [|n notes IH]; intros tr failed; cbn; [by rewrite orb_false_r|].
  rewrite IH. f_equal. unfold perform. rewrite length_app, Nat.add_1_r. unfold answered; cbn.
  by destruct (answer (length tr)), failed.
Qed.

Lemma emit_notes_ops notes tr :
  emit_notes answer notes tr = (perform_all (note_ops notes) tr, negb (answered (length tr) (length notes))).
Proof. unfold emit_notes. apply emit_notes_go. Qed.

(** The changes of a whole pass: the deaths of roots, the notes, and when each
    note was delivered the releases, the removals and the tearing down. *)
Definition hygiene_ops (instances : list CellInstance) (cells : list PlacementEntry) (plan : HygienePlan) : list HygieneOp :=
  let insts := by_sri instances in
  let deaths := death_ops insts (hp_remove_instances plan) in
  deaths ++ note_ops (hp_notes plan) ++
  if answered (length deaths) (length (hp_notes plan)) then
    release_ops (placement_gens cells) (hp_release_cells plan) ++ remove_ops insts (hp_remove_instances plan) ++
    teardown_ops (hp_teardown_nodes plan)
  else [].

Lemma plan_is_empty_ops instances cells plan :
  hp_remove_instances plan = hp_release_cells plan -> plan_is_empty plan = true -> hygiene_ops instances cells plan = [].
Proof.
  intros Hrem. unfold plan_is_empty. rewrite !andb_true_iff, !bool_decide_eq_true. intros [[Hn Hr] Ht].
  apply nil_length_inv in Hn. unfold hygiene_ops. by rewrite Hrem, Hn, Hr, Ht.
Qed.

Lemma run_hygiene_ops instances silence ready cells tracker timing :
  let plan := plan_hygiene silence ready cells instances (node_ttls_of tracker cells) timing in
  exists tracker', run_hygiene answer (Some instances) silence ready cells tracker timing =
    (perform_all (hygiene_ops instances cells plan) [], tracker') /\
    (tracker' = tracker \/ tracker' = fold_left (fun t id => tk_forget id t) (hp_teardown_nodes plan) tracker).
Proof.
  intros plan. unfold run_hygiene. fold plan. destruct (plan_is_empty plan) eqn:Hempty.
  - exists tracker. split; [|by left]. by rewrite plan_is_empty_ops.
  - rewrite record_deaths_ops, emit_notes_ops. unfold hygiene_ops. rewrite perform_all_length. cbn [length Nat.add].
    destruct (answered _ _); cbn [negb].
    + rewrite release_placements_ops, remove_instance_rows_ops, teardown_ops_eq. eexists; split; [|by right].
      by rewrite !perform_all_app.
    + exists tracker. split; [|by left]. by rewrite app_nil_r, !perform_all_app.
Qed.

End CarryFacts.

Lemma perform_all_imap answer ops : perform_all answer ops [] = imap (fun j op => (op, answer j)) ops.
Proof.
  induction ops as [|op ops IH] using rev_ind; [done|].
  rewrite perform_all_app, imap_app, <-IH. cbn. unfold perform. rewrite perform_all_length. cbn. by rewrite Nat.add_0_r.
Qed.

Lemma hygiene_trace answer instances silence ready cells tracker timing k op ok :
  (run_hygiene answer instances silence ready cells tracker timing).1 !! k = Some (op, ok) ->
  exists insts, instances = Some insts /\ ok = answer k /\
    hygiene_ops answer insts cells (plan_hygiene silence ready cells insts (node_ttls_of tracker cells) timing) !! k = Some op.
Proof.
  destruct instances as [insts|]; [|done].
  destruct (run_hygiene_ops answer insts silence ready cells tracker timing) as (t' & -> & _). cbn [fst].
  rewrite perform_all_imap, list_lookup_imap. intros (op' & Hop & [= -> ->])%fmap_Some. eauto.
Qed.

(** The steps of a pass, in their order. *)
Definition phase (op : HygieneOp) : nat :=
  match op with
  | RecordDeath _ _ _ => 0
  | EmitLost _ _ _ _ => 1
  | RemovePlacement _ _ => 2
  | RemoveInstance _ _ => 3
  | DeregisterExec _ | DeleteLease _ => 4
  end.

Lemma omap_phase {A} (f : A -> option HygieneOp) n l :
  (forall a op, f a = Some op -> phase op = n) -> Forall (fun op => phase op = n) (omap f l).
Proof. intros Hf. apply Forall_forall. intros op (a & _ & Ha)%list_elem_of_omap. eauto. Qed.

Lemma death_ops_phase insts sris : Forall (fun op => phase op = 0%nat) (death_ops insts sris).
Proof. apply omap_phase. intros a op. destruct (insts !! a); cbn; [|done]. destruct (ln_parent _); naive_solver. Qed.
Lemma note_ops_phase notes : Forall (fun op => phase op = 1%nat) (note_ops notes).
Proof. apply Forall_forall. by intros op (n & -> & _)%list_elem_of_fmap. Qed.
Lemma release_ops_phase gens sris : Forall (fun op => phase op = 2%nat) (release_ops gens sris).
Proof. apply omap_phase. intros a op. destruct (gens !! a); naive_solver. Qed.
Lemma remove_ops_phase insts sris : Forall (fun op => phase op = 3%nat) (remove_ops insts sris).
Proof. apply omap_phase. intros a op. destruct (insts !! a); naive_solver. Qed.
Lemma teardown_ops_phase nodes : Forall (fun op => phase op = 4%nat) (teardown_ops nodes).
Proof. unfold teardown_ops. induction nodes; cbn; repeat constructor; done. Qed.

(** In lists of one phase each, put together in order, the phases do not go back. *)
Lemma phases_app n (l1 l2 : list HygieneOp) :
  Forall (fun op => phase op <= n)%nat l1 -> Forall (fun op => n <= phase op)%nat l2 ->
  (forall i j a b, i <= j -> l1 !! i = Some a -> l1 !! j = Some b -> phase a <= phase b)%nat ->
  (forall i j a b, i <= j -> l2 !! i = Some a -> l2 !! j = Some b -> phase a <= phase b)%nat ->
  (forall i j a b, i <= j -> (l1 ++ l2) !! i = Some a -> (l1 ++ l2) !! j = Some b -> phase a <= phase b)%nat.
Proof.
  intros H1 H2 Ho1 Ho2 i j a b Hij. rewrite !lookup_app_Some. rewrite Forall_lookup in H1, H2.
  intros [Ha|[Hi Ha]] [Hb|[Hj Hb]].
  - by eapply Ho1.
  - specialize (H1 _ _ Ha). specialize (H2 _ _ Hb). cbn in *. lia.
  - apply lookup_lt_Some in Hb. lia.
  - eapply (Ho2 (i - length l1) (j - length l1))%nat; [lia|done|done].
Qed.

Lemma phase_const n (l : list HygieneOp) :
  Forall (fun op => phase op = n) l ->
  (forall i j a b, i <= j -> l !! i = Some a -> l !! j = Some b -> phase a <= phase b)%nat.
Proof. rewrite Forall_lookup. intros H i j a b _ Ha Hb. by rewrite (H _ _ Ha), (H _ _ Hb). Qed.

Lemma phase_weaken (P Q : HygieneOp -> Prop) l : Forall P l -> (forall op, P op -> Q op) -> Forall Q l.
Proof. intros H HPQ. eapply Forall_impl; [exact H|done]. Qed.

Lemma hygiene_ops_phases answer instances cells plan i j a b :
  (i <= j)%nat -> hygiene_ops answer instances cells plan !! i = Some a ->
  hygiene_ops answer instances cells plan !! j = Some b -> (phase a <= phase b)%nat.
Proof.
  revert i j a b. unfold hygiene_ops.
  set (d := death_ops _ _). set (n := note_ops _). set (r := release_ops _ _). set (m := remove_ops _ _). set (t := teardown_ops _).
  pose proof (death_ops_phase (by_sri instances) (hp_remove_instances plan)) as Hd. fold d in Hd.
  pose proof (note_ops_phase (hp_notes plan)) as Hn. fold n in Hn.
  pose proof (release_ops_phase (placement_gens cells) (hp_release_cells plan)) as Hr. fold r in Hr.
  pose proof (remove_ops_phase (by_sri instances) (hp_remove_instances plan)) as Hm. fold m in Hm.
  pose proof (teardown_ops_phase (hp_teardown_nodes plan)) as Ht. fold t in Ht.
  assert (Forall (fun op => 2 <= phase op)%nat (r ++ m ++ t)) as Hrest.
  { rewrite !Forall_app. repeat split; (eapply phase_weaken; [eassumption|cbn; lia]). }
  assert (forall i j a b, i <= j -> (r ++ m ++ t) !! i = Some a -> (r ++ m ++ t) !! j = Some b -> phase a <= phase b)%nat as Horder.
  { apply (phases_app 2); [eapply phase_weaken; [done|cbn; lia]| |by eapply phase_const|].
    { rewrite Forall_app. split; (eapply phase_weaken; [eassumption|cbn; lia]). }
    apply (phases_app 3); [| |by eapply phase_const..]; (eapply phase_weaken; [eassumption|cbn; lia]). }
  set (rest := if answered _ _ _ then _ else _).
  assert (Forall (fun op => 2 <= phase op)%nat rest) as Hrest' by (unfold rest; by destruct (answered _ _ _)).
  apply (phases_app 0); [eapply phase_weaken; [done|cbn; lia]| |by eapply phase_const|].
  { rewrite Forall_app. split; (eapply phase_weaken; [eassumption|cbn; lia]). }
  apply (phases_app 1); [eapply phase_weaken; [done|cbn; lia]| |by eapply phase_const|].
  { eapply phase_weaken; [eassumption|cbn; lia]. }
  unfold rest. destruct (answered _ _ _); [exact Horder|]. intros ? ? ? ? _ H. by rewrite lookup_nil in H.
Qed.

Lemma cleanup_answered answer instances cells plan k op :
  hygiene_ops answer instances cells plan !! k = Some op -> (2 <= phase op)%nat ->
  let deaths := death_ops (by_sri instances) (hp_remove_instances plan) in
  answered answer (length deaths) (length (hp_notes plan)) = true /\
  (length deaths + length (hp_notes plan) <= k)%nat /\
  op ∈ release_ops (placement_gens cells) (hp_release_cells plan) ++ remove_ops (by_sri instances) (hp_remove_instances plan) ++
       teardown_ops (hp_teardown_nodes plan).
Proof.
  unfold hygiene_ops. cbn. rewrite !lookup_app_Some.
  pose proof (death_ops_phase (by_sri instances) (hp_remove_instances plan)) as Hd.
  pose proof (note_ops_phase (hp_notes plan)) as Hn. rewrite Forall_lookup in Hd, Hn.
  intros [Hop|[Hk [Hop|[Hk' Hop]]]] Hph.
  - apply Hd in Hop. lia.
  - apply Hn in Hop. lia.
  - unfold note_ops in Hk'. rewrite length_map in Hk'. destruct (answered _ _ _) eqn:Ha; [|by rewrite lookup_nil in Hop].
    split; [done|]. split; [lia|]. by eapply list_elem_of_lookup_2.
Qed.

Lemma note_delivered answer instances cells plan note :
  note ∈ hp_notes plan ->
  let deaths := death_ops (by_sri instances) (hp_remove_instances plan) in
  answered answer (length deaths) (length (hp_notes plan)) = true ->
  exists j, (j < length deaths + length (hp_notes plan))%nat /\ answer j = true /\
    hygiene_ops answer instances cells plan !! j = Some (EmitLost (nt_parent note) (nt_cell note) (nt_local_name note) NodeLost).
Proof.
  cbn. intros [i Hi]%list_elem_of_lookup Ha. set (d := death_ops _ _) in *. pose proof (lookup_lt_Some _ _ _ Hi) as Hlt.
  exists (length d + i)%nat. split; [lia|]. split.
  - unfold answered in Ha. rewrite forallb_forall in Ha. apply Ha. apply in_seq. lia.
  - unfold hygiene_ops. fold d. rewrite lookup_app_r by lia. replace (length d + i - length d)%nat with i by lia.
    rewrite lookup_app_l by (unfold note_ops; rewrite length_map; lia). unfold note_ops.
    rewrite list_lookup_fmap, Hi. done.
Qed.

(** Hygiene tells before it cleans up.  However the changes of a pass
    succeed or fail, they are made in the order: deaths of roots, notes to
    parents, placement rows, instance rows, registry and lease rows; and no row
    is taken away unless, earlier in the pass, a note was delivered for every
    cell declared dead that is attached to a parent placed on a node and not
    itself declared dead. *)
Theorem notes_precede_cleanup answer instances silence ready cells tracker timing :
  let tr := (run_hygiene answer (Some instances) silence ready cells tracker timing).1 in
  let dead := declared_dead silence cells instances (node_ttls_of tracker cells) timing in
  (forall i j a b, (i <= j)%nat -> tr.*1 !! i = Some a -> tr.*1 !! j = Some b -> (phase a <= phase b)%nat) /\
  forall k op ok, tr !! k = Some (op, ok) -> (2 <= phase op)%nat ->
  forall c inst parent, c ∈ cells -> dead (pe_sri c) -> by_sri instances !! pe_sri c = Some inst ->
    ln_detached (ci_lineage inst) = false -> ln_parent (ci_lineage inst) = Some parent ->
    ~ dead parent -> is_Some (hosted_placements cells !! parent) ->
  exists j, (j < k)%nat /\ tr !! j = Some (EmitLost parent (pe_sri c) (ln_local_name (ci_lineage inst)) NodeLost, true).
Proof.
  intros tr dead.
  destruct (run_hygiene_ops answer instances silence ready cells tracker timing) as (t' & Heq & _).
  subst tr. rewrite Heq. cbn [fst]. split.
  - change (?f <$> perform_all ?a ?ops ?tr) with (map f (perform_all a ops tr)). rewrite perform_all_ops.
    intros i j a b Hij. apply hygiene_ops_phases, Hij.
  - intros k op ok Hop Hph c inst parent Hc Hd Hi Hdet Hp Hnd Hpl.
    rewrite perform_all_imap, list_lookup_imap in Hop. apply fmap_Some in Hop as (op' & Hop & [= -> ->]).
    destruct (cleanup_answered _ _ _ _ _ _ Hop Hph) as (Ha & Hk & _).
    assert (mkNote parent (pe_sri c) (ci_gen inst) (ln_local_name (ci_lineage inst)) ∈
            hp_notes (plan_hygiene silence ready cells instances (node_ttls_of tracker cells) timing)) as Hnote.
    { apply note_iff. by exists c, inst, parent. }
    destruct (note_delivered answer instances cells _ _ Hnote Ha) as (j & Hj & Hans & Hops).
    exists j. split; [cbn in *; lia|]. rewrite perform_all_imap, list_lookup_imap, Hops. cbn. by rewrite Hans.
Qed.

(** Whom a change of a pass is about: cells declared dead, and nodes to be torn down. *)
Lemma hygiene_ops_about answer silence ready cells instances node_ttls timing op :
  let plan := plan_hygiene silence ready cells instances node_ttls timing in
  op ∈ hygiene_ops answer instances cells plan ->
  match op with
  | RecordDeath sri _ _ | EmitLost _ sri _ _ | RemovePlacement sri _ | RemoveInstance sri _ =>
      declared_dead silence cells instances node_ttls timing sri
  | DeregisterExec node | DeleteLease node => node ∈ hp_teardown_nodes plan
  end.
Proof.
  intros plan. unfold hygiene_ops. rewrite !elem_of_app.
  intros [H|[H|H]]; [| |destruct (answered _ _ _); [rewrite !elem_of_app in H; destruct H as [H|[H|H]]|by apply elem_of_nil in H]].
  - apply list_elem_of_omap in H as (sri & Hin & Hop). destruct (by_sri instances !! sri); cbn in Hop; [|done].
    destruct (ln_parent _); simplify_eq. by apply (release_iff silence ready cells instances node_ttls timing).
  - apply list_elem_of_fmap in H as (note & -> & Hin). apply note_iff in Hin as (c & i & p & _ & Hd & _ & _ & _ & _ & _ & ->). done.
  - apply list_elem_of_omap in H as (sri & Hin & (g & _ & ->)%fmap_Some). by apply (release_iff silence ready cells instances node_ttls timing).
  - apply list_elem_of_omap in H as (sri & Hin & (g & _ & ->)%fmap_Some). by apply (release_iff silence ready cells instances node_ttls timing).
  - unfold teardown_ops in H. apply list_elem_of_In, in_flat_map in H as (node & Hin & H). apply list_elem_of_In in Hin.
    cbn in H. destruct H as [<-|[<-|[]]]; done.
Qed.

(** The deaths hygiene records are of nodes lost. *)
Lemma hygiene_deaths answer instances cells plan sri g reason :
  RecordDeath sri g reason ∈ hygiene_ops answer instances cells plan -> reason = NodeLost.
Proof.
  unfold hygiene_ops. rewrite elem_of_app. intros [H|H].
  - apply list_elem_of_omap in H as (s & _ & H). destruct (by_sri instances !! s); cbn in H; [|done].
    destruct (ln_parent _); congruence.
  - exfalso. revert H. set (rest := if answered _ _ _ then _ else _).
    assert (Forall (fun op => 1 <= phase op)%nat (note_ops (hp_notes plan) ++ rest)) as Hph.
    { subst rest. rewrite Forall_app. split; [eapply phase_weaken; [apply note_ops_phase|cbn; lia]|].
      destruct (answered _ _ _); [|constructor]. rewrite !Forall_app.
      split; [|split]; (eapply phase_weaken; [first [apply release_ops_phase|apply remove_ops_phase|apply teardown_ops_phase]|cbn; lia]). }
    rewrite Forall_forall in Hph. intros H%Hph. cbn in H. lia.
Qed.
