(* ===== verification/WatchFacts.v ===== *)
(** * The lease watch over its passes

    A node that renews its lease in time keeps its cells and its rows through
    any passes of a watcher, however its scans and its changes succeed or fail
    and whoever leads. *)

From S2P Require Import Prelude Bytes Domain Store Supervision Hygiene LeaseFacts HygieneFacts.
From Stdlib Require Import ZArith Lia Strings.Byte Sorting.Sorted.
From stdpp Require Import base list option gmap sets sorting strings.

Local Open Scope Z_scope.

(** ** Silence, as a pass sees it *)

Lemma seen_silence_lookup t now placed node :
  seen_silence t now placed !! node = if bool_decide (node ∈ placed) then tk_stale_for t node now else None.
Proof.
  unfold seen_silence. induction placed as [|n placed IH] using rev_ind; [done|]. rewrite fold_left_app. cbn.
  destruct (decide (node = n)) as [->|Hne].
  - rewrite bool_decide_eq_true_2 by (apply elem_of_app; right; by apply list_elem_of_singleton).
    destruct (tk_stale_for t n now) eqn:Hs; [by rewrite lookup_insert_eq|]. rewrite IH. by case_bool_decide.
  - rewrite (bool_decide_ext (node ∈ placed ++ [n]) (node ∈ placed)) by (rewrite elem_of_app, list_elem_of_singleton; naive_solver).
    destruct (tk_stale_for t n now); [by rewrite lookup_insert_ne|done].
Qed.

Lemma add_absence_other limit absent silence ready silence' ready' node :
  fold_left (add_absence limit) absent (silence, ready) = (silence', ready') -> node ∉ map fst absent ->
  silence' !! node = silence !! node /\ (node ∈ ready' -> node ∈ ready).
Proof.
  revert silence ready. induction absent as [|[n s] absent IH]; intros silence ready; cbn.
  - by intros [= <- <-].
  - intros Hf [Hne Hin]%not_elem_of_cons. destruct (IH _ _ Hf Hin) as [-> Hr]. split.
    + destruct (silence !! n); [done|]. by rewrite lookup_insert_ne.
    + intros Hin'%Hr. destruct (limit <=? s); [|done]. apply elem_of_app in Hin' as [?|?%list_elem_of_singleton]; done.
Qed.

Lemma silences_in current now g id d : (id, d) ∈ (silences current now g).1 -> id ∈ current.
Proof.
  unfold silences. destruct (gate_entries _ _ _) as [fs es] eqn:He. apply gate_entries_spec in He as [_ H]. cbn.
  by intros [? _]%H.
Qed.

Lemma gate_ready_in current now g id : id ∈ (gate_ready current now g).1 -> id ∈ current.
Proof.
  unfold gate_ready. pose proof (silences_in current now g) as Hs. destruct (silences _ _ _) as [es g']. cbn in *.
  intros ([i d] & -> & Hin)%list_elem_of_fmap. apply list_elem_of_In, filter_In in Hin as [Hin _].
  eapply Hs. by apply list_elem_of_In.
Qed.

Lemma lease_missing_not_leased id_str placed leased node : node ∈ lease_missing id_str placed leased -> node ∉ leased.
Proof.
  unfold lease_missing. rewrite dedup_elem_of, merge_sort_Permutation. intros H. apply list_elem_of_In, filter_In in H as [_ H].
  by apply negb_true_iff, bool_decide_eq_false in H.
Qed.

Section LiveNode.
Context (id_str : RuntimeId -> str) (timing : SupervisionTiming).
(** A node, the sequence number of its lease row over time, and the time within
    which it renews. *)
Context (id : RuntimeId) (row : Instant -> Z) (ttl_ms : Z) (period : Duration) (t0 : Instant).

Definition renews_within : Prop :=
  (forall t u, t <= u -> row t <= row u) /\ (forall t, row t < row (t + period)).

(** The period fits the deadlines, with the millisecond the tracker's clock may add. *)
Definition fits : Prop :=
  period + 10 ^ 6 <= min_deadline timing /\ period + 10 ^ 6 <= from_millis ttl_ms /\
  is_u64 ttl_ms /\ 0 <= tm_margin timing.

(** A scan that returns shows the node's row as it is then. *)
Definition shows_row (inp : PassInput) : Prop :=
  match pi_leases inp with
  | Some leases => id ∈ map fst leases /\
      forall lease, (id, lease) ∈ leases -> nl_seq lease = row (pi_now inp) /\ nl_ttl_ms lease = ttl_ms
  | None => True
  end.

Context (Hrenews : renews_within) (Hfits : fits).

(** What a tracker holds of the node. *)
Definition holds (now : Instant) (t : Tracker) : Prop :=
  tk_origin t = t0 /\ NoDup (map ob_id (tk_inner t)) /\
  forall o, entry (tk_inner t) id = Some o ->
    exists a, t0 <= a <= now /\ ob_seq o = row a /\ ob_advanced_at_ms o = tk_ms t a /\ ob_ttl_ms o = ttl_ms.

Definition fresh (now : Instant) (t : Tracker) : Prop :=
  exists o, entry (tk_inner t) id = Some o /\ ob_seq o = row now.

Lemma millis_round : millis_u64 (from_millis ttl_ms) = ttl_ms.
Proof.
  destruct Hfits as (_ & _ & [H0 H1] & _). unfold millis_u64, from_millis, as_millis, u64_max.
  rewrite Z.div_mul by done. lia.
Qed.

Lemma nodup_observe i seq ttl now t : NoDup (map ob_id t) -> NoDup (map ob_id (observe i seq ttl now t)).
Proof. intros H. by apply (lease_run_nodup [Seen i seq ttl now] t). Qed.
Lemma nodup_forget i t : NoDup (map ob_id t) -> NoDup (map ob_id (forget_node i t)).
Proof. intros H. by apply (lease_run_nodup [Gone i] t). Qed.

Lemma holds_later now now' t : now <= now' -> holds now t -> holds now' t.
Proof.
  intros Hle (Ho & Hnd & H). split; [done|]. split; [done|]. intros o Hent.
  destruct (H o Hent) as (a & Ha & ?). exists a. split; [lia|done].
Qed.

Lemma observe_other now t i lease :
  i ≠ id -> holds now t ->
  let t' := tk_observe i (nl_seq lease) (from_millis (nl_ttl_ms lease)) now t in
  holds now t' /\ (fresh now t -> fresh now t').
Proof.
  intros Hi (Ho & Hnd & H). intros t'. subst t'. unfold tk_observe, holds, fresh, tk_ms in *. cbn [tk_origin tk_inner].
  rewrite entry_observe, bool_decide_eq_false_2 by done. split; [|done]. split; [done|]. split; [by apply nodup_observe|done].
Qed.

Lemma observe_self now t lease :
  t0 <= now -> nl_seq lease = row now -> nl_ttl_ms lease = ttl_ms -> holds now t ->
  let t' := tk_observe id (nl_seq lease) (from_millis (nl_ttl_ms lease)) now t in
  holds now t' /\ fresh now t'.
Proof.
  intros Hnow Hseq Httl (Ho & Hnd & H). intros t'. subst t'. unfold tk_observe, holds, fresh, tk_ms in *. cbn [tk_origin tk_inner].
  rewrite Hseq, Httl, millis_round, entry_observe, bool_decide_eq_true_2 by done.
  destruct Hrenews as [Hmono _]. destruct (entry (tk_inner t) id) as [o|] eqn:He; cbn [advance].
  - destruct (H o eq_refl) as (a & Ha & Hs & Hadv & Ht). pose proof (Hmono a now ltac:(lia)) as Hle.
    destruct (Z.ltb_spec (ob_seq o) (row now)) as [Hlt|Hge].
    + split; [|by eexists]. split; [done|]. split; [by apply nodup_observe|]. intros o' [= <-]. cbn.
      exists now. repeat split; try done; lia.
    + split; [|eexists; split; [done|lia]]. split; [done|]. split; [by apply nodup_observe|]. intros o' [= <-]. eauto 10.
  - split; [|by eexists]. split; [done|]. split; [by apply nodup_observe|]. intros o' [= <-]. cbn.
    exists now. repeat split; try done; lia.
Qed.

Lemma observe_all_holds leases now t :
  t0 <= now -> (forall lease, (id, lease) ∈ leases -> nl_seq lease = row now /\ nl_ttl_ms lease = ttl_ms) ->
  holds now t -> holds now (observe_all leases now t) /\
    (fresh now t \/ id ∈ map fst leases -> fresh now (observe_all leases now t)).
Proof.
  intros Hnow. revert t. induction leases as [|[i lease] leases IH]; intros t Hrow Ht; cbn.
  - split; [done|]. by intros [?|?%elem_of_nil].
  - assert (forall lease, (id, lease) ∈ leases -> nl_seq lease = row now /\ nl_ttl_ms lease = ttl_ms) as Hrow'.
    { intros l Hl. apply Hrow, elem_of_cons. by right. }
    destruct (decide (i = id)) as [->|Hi].
    + destruct (Hrow lease) as [Hs Htt]; [apply elem_of_cons; by left|].
      destruct (observe_self now t lease Hnow Hs Htt Ht) as [Hh Hf]. destruct (IH _ Hrow' Hh) as [Hh' Hf'].
      split; [exact Hh'|]. intros _. apply Hf'. by left.
    + destruct (observe_other now t i lease Hi Ht) as [Hh Hf]. destruct (IH _ Hrow' Hh) as [Hh' Hf'].
      split; [exact Hh'|]. rewrite elem_of_cons. intros [?|[?|?]]; [|by subst|]; apply Hf'; auto.
Qed.

(** At its scan, the staleness of the node is below its period and a millisecond. *)
Lemma fresh_stale now t :
  holds now t -> fresh now t ->
  exists stale, tk_stale_for t id now = Some stale /\ stale < period + 10 ^ 6 /\ 0 <= stale.
Proof.
  intros (Ho & Hnd & H) (o & He & Hs). destruct (H o He) as (a & Ha & Hrow & Hadv & _).
  destruct Hrenews as [Hmono Hren].
  assert (now < a + period) as Hlt.
  { destruct (Z.lt_ge_cases now (a + period)) as [?|Hge]; [done|].
    pose proof (Hmono _ _ Hge). pose proof (Hren a). lia. }
  unfold tk_stale_for, stale_for. fold (entry (tk_inner t) id). rewrite He. cbn. eexists; split; [done|].
  rewrite Hadv. unfold tk_ms, millis_u64, as_millis, from_millis, instant_since, saturating_sub. rewrite Ho.
  rewrite (Z.max_r 0 (now - t0)), (Z.max_r 0 (a - t0)) by lia. dlia.
Qed.

Lemma fresh_not_expired now t : holds now t -> fresh now t -> id ∉ tk_expired t now.
Proof.
  intros Hh Hf. destruct (fresh_stale now t Hh Hf) as (stale & Hst & Hlt & _).
  destruct Hh as (_ & Hnd & H). destruct Hf as (o & He & _). destruct (H o He) as (_ & _ & _ & _ & Htt).
  destruct Hfits as (_ & Hf & _). unfold tk_expired. rewrite expired_iff by done. unfold is_expired.
  unfold tk_stale_for, stale_for in Hst. fold (entry (tk_inner t) id) in *. rewrite He in *. cbn in Hst.
  injection Hst as <-. rewrite Htt. unfold from_millis in *. rewrite Z.ltb_lt. lia.
Qed.

Lemma fresh_ttl now t : holds now t -> fresh now t -> tk_ttl_of t id = Some (from_millis ttl_ms).
Proof.
  intros (_ & _ & H) (o & He & _). destruct (H o He) as (_ & _ & _ & _ & Htt).
  unfold tk_ttl_of, ttl_ms_of. fold (entry (tk_inner t) id). rewrite He. cbn. by rewrite Htt.
Qed.

Lemma watch_silence_live leases now placed w silence ready gate absence :
  holds now (wt_tracker w) -> fresh now (wt_tracker w) -> id ∈ map fst leases ->
  watch_silence id_str timing leases now placed w = (silence, ready, gate, absence) ->
  (forall s, silence !! id = Some s -> s < period + 10 ^ 6) /\ id ∉ ready.
Proof.
  intros Hh Hf Hl. unfold watch_silence.
  pose proof (gate_ready_in (tk_expired (wt_tracker w) now) now (wt_gate w) id) as Hready.
  destruct (gate_ready _ _ _) as [ready0 gate0]. cbn in Hready.
  pose proof (silences_in (lease_missing id_str placed (map fst leases)) now (wt_absence w)) as Habs.
  destruct (silences _ _ _) as [absent absence0]. cbn in Habs.
  destruct (fold_left _ _ _) as [silence1 ready1] eqn:Hfold. intros [= <- <- _ _].
  apply (add_absence_other _ _ _ _ _ _ id) in Hfold as [Hs Hr].
  - split.
    + intros s. rewrite Hs, seen_silence_lookup. case_bool_decide; [|done].
      destruct (fresh_stale now _ Hh Hf) as (stale & -> & Hlt & _). by intros [= <-].
    + rewrite dedup_elem_of, merge_sort_Permutation. intros Hin%Hr%Hready. by eapply fresh_not_expired.
  - intros ([i d] & Hi & Hin)%list_elem_of_fmap. cbn in Hi. subst i. apply Habs in Hin. by apply lease_missing_not_leased in Hin.
Qed.

Lemma live_deadline now t cells insts sri silent :
  holds now t -> fresh now t -> id ∈ omap placement_node cells -> silent < period + 10 ^ 6 ->
  silent < deadline insts (node_ttls_of t cells) timing sri id.
Proof.
  intros Hh Hf Hin Hlt. destruct Hfits as (Hd & Ht & _ & Hm). unfold deadline.
  destruct (insts !! sri ≫= _) as [ms|]; [lia|].
  assert (node_ttls_of t cells !! id = Some (from_millis ttl_ms)) as ->; [|cbn; lia].
  unfold node_ttls_of. set (l := omap _ _).
  assert ((id, from_millis ttl_ms) ∈ l) as Hl.
  { apply list_elem_of_omap. exists id. split; [done|]. by rewrite (fresh_ttl now t). }
  destruct (proj2 (collect_map_is_some l id)) as [v Hv]; [apply list_elem_of_fmap; by exists (id, from_millis ttl_ms)|].
  rewrite Hv. f_equal. apply collect_map_in, list_elem_of_omap in Hv as (n & _ & (x & Hx & [= <- ->])%fmap_Some).
  rewrite (fresh_ttl now t) in Hx by done. congruence.
Qed.

(** What a change takes from the node: a row of a cell placed on it, or a row of its own. *)
Definition touches (cells : list PlacementEntry) (op : HygieneOp) : Prop :=
  match op with
  | RecordDeath sri _ _ | EmitLost _ sri _ _ | RemovePlacement sri _ | RemoveInstance sri _ =>
      exists c, c ∈ cells /\ pe_sri c = sri /\ placement_node c = Some id
  | DeregisterExec node | DeleteLease node => node = id
  end.

Lemma live_not_dead now t cells instances silence c :
  holds now t -> fresh now t -> NoDup (map pe_sri cells) ->
  (forall s, silence !! id = Some s -> s < period + 10 ^ 6) ->
  c ∈ cells -> placement_node c = Some id ->
  ~ declared_dead silence cells instances (node_ttls_of t cells) timing (pe_sri c).
Proof.
  intros Hh Hf Hnd Hs Hc Hn (c' & node & silent & Hc' & Hsri & Hn' & Hsil & Hd).
  assert (c' = c) as ->.
  { apply list_elem_of_lookup in Hc as [i Hi], Hc' as [j Hj]. assert (i = j) as ->; [|congruence].
    eapply NoDup_lookup; [exact Hnd| |]; rewrite list_lookup_fmap; [by rewrite Hi|by rewrite Hj, <-Hsri]. }
  assert (node = id) as -> by congruence.
  pose proof (live_deadline now t cells (by_sri instances) (pe_sri c) silent Hh Hf) as H.
  specialize (H ltac:(apply list_elem_of_omap; eauto) (Hs _ Hsil)). lia.
Qed.

Lemma holds_forget now t i : holds now t -> holds now (tk_forget i t).
Proof.
  intros (Ho & Hnd & H). unfold holds, tk_forget, tk_ms in *. cbn [tk_origin tk_inner].
  split; [done|]. split; [by apply nodup_forget|]. intros o. rewrite entry_forget. case_bool_decide; [done|]. apply H.
Qed.

Lemma holds_forget_all now t nodes : holds now t -> holds now (fold_left (fun t i => tk_forget i t) nodes t).
Proof. revert t. induction nodes as [|i nodes IH]; intros t Ht; cbn; [done|]. by apply IH, holds_forget. Qed.

Lemma run_hygiene_live answer instances silence ready cells t now :
  holds now t -> fresh now t -> NoDup (map pe_sri cells) ->
  (forall s, silence !! id = Some s -> s < period + 10 ^ 6) -> id ∉ ready ->
  let '(tr, t') := run_hygiene answer instances silence ready cells t timing in
  holds now t' /\ forall op ok, (op, ok) ∈ tr -> ~ touches cells op.
Proof.
  intros Hh Hf Hnd Hs Hr. destruct (run_hygiene _ _ _ _ _ _ _) as [tr t'] eqn:Hrun. split.
  - destruct instances as [instances|]; [|by injection Hrun as <- <-].
    destruct (run_hygiene_ops answer instances silence ready cells t timing) as (t2 & Heq & Ht2).
    rewrite Hrun in Heq. injection Heq as -> ->. destruct Ht2 as [->| ->]; [done|by apply holds_forget_all].
  - intros op ok [k Hk]%list_elem_of_lookup Htouch. replace tr with (tr, t').1 in Hk by done. rewrite <-Hrun in Hk.
    apply hygiene_trace in Hk as (insts & -> & _ & Hop). apply list_elem_of_lookup_2, hygiene_ops_about in Hop.
    assert (forall sri, declared_dead silence cells insts (node_ttls_of t cells) timing sri ->
      ~ exists c, c ∈ cells /\ pe_sri c = sri /\ placement_node c = Some id) as Hno.
    { intros sri Hd (c & Hc & <- & Hn). by eapply live_not_dead. }
    destruct op; cbn in Htouch; try (by eapply Hno); subst; by apply teardown_iff in Hop as [? _].
Qed.

Lemma watch_pass_live inp w last tr ops w' :
  holds last (wt_tracker w) -> t0 <= pi_now inp -> last <= pi_now inp -> shows_row inp ->
  (forall cells, pi_cells inp = Some cells -> NoDup (map pe_sri cells)) ->
  watch_pass id_str timing inp w = (tr, ops, w') ->
  holds (pi_now inp) (wt_tracker w') /\
  forall cells op ok, pi_cells inp = Some cells -> (op, ok) ∈ tr -> ~ touches cells op.
Proof.
  intros Hh H0 Hlast Hrow Hnd. unfold watch_pass, shows_row in *.
  apply (holds_later _ (pi_now inp)) in Hh; [|done].
  destruct (pi_leases inp) as [leases|]; [|intros [= <- <- <-]; split; [done|]; by intros ? ? ? _ ?%elem_of_nil].
  destruct Hrow as [Hin Hrow]. destruct (observe_all_holds leases _ _ H0 Hrow Hh) as [Hh' Hf']. specialize (Hf' (or_intror Hin)).
  destruct (pi_cells inp) as [cells|]; [|intros [= <- <- <-]; split; [done|]; by intros ? ? ? _ ?%elem_of_nil].
  destruct (watch_silence _ _ _ _ _ _) as [[[silence ready] gate] absence] eqn:Hsil.
  apply watch_silence_live in Hsil as [Hs Hr]; [|done..].
  destruct (pi_leader inp); [|intros [= <- <- <-]; split; [done|]; by intros ? ? ? _ ?%elem_of_nil].
  destruct (hygiene_called timing silence ready).
  - pose proof (run_hygiene_live (pi_answer inp) (pi_instances inp) silence ready cells _ _ Hh' Hf' (Hnd _ eq_refl) Hs Hr) as H.
    destruct (run_hygiene _ _ _ _ _ _ _) as [tr1 t1]. destruct H as [Ht1 Hop].
    destruct (process_root_restarts _ _ _) as [[ops1 b1] s1]. intros [= <- <- <-]. split; [done|].
    intros cells' op ok [= <-] Hin'. by eapply Hop.
  - destruct (process_root_restarts _ _ _) as [[ops1 b1] s1]. intros [= <- <- <-]. split; [done|].
    by intros ? ? ? _ ?%elem_of_nil.
Qed.

Lemma watch_run_live inps w last :
  holds last (wt_tracker w) -> t0 <= last -> StronglySorted Z.le (last :: map pi_now inps) ->
  Forall (fun inp => shows_row inp /\ forall cells, pi_cells inp = Some cells -> NoDup (map pe_sri cells)) inps ->
  forall k inp tr ops cells op ok, inps !! k = Some inp -> (watch_run id_str timing inps w).1 !! k = Some (tr, ops) ->
    pi_cells inp = Some cells -> (op, ok) ∈ tr -> ~ touches cells op.
Proof.
  revert w last. induction inps as [|inp inps IH]; intros w last Hh H0 Hsort Hall k; [done|].
  apply StronglySorted_inv in Hsort as [Hsort Hle]. apply Forall_cons in Hall as [[Hrow Hnd] Hall]. cbn in Hle, Hsort.
  apply Forall_cons in Hle as [Hle _]. cbn [watch_run].
  destruct (watch_pass _ _ _ _) as [[tr0 ops0] w0] eqn:Hpass.
  assert (t0 <= pi_now inp) as H0' by lia.
  destruct (watch_pass_live _ _ _ _ _ _ Hh H0' Hle Hrow Hnd Hpass) as [Hh0 Hop].
  specialize (IH w0 _ Hh0 H0' Hsort Hall). destruct (watch_run id_str timing inps w0) as [outs w1]. cbn [fst] in *.
  destruct k as [|k]; cbn; [|apply IH]. intros inp' tr ops cells op ok [= <-] [= <- <-] Hc. by eapply Hop.
Qed.

End LiveNode.

(** C7. A node that renews in time loses nothing.  Let the sequence number of a
    node's lease row advance at least once in every period, let the period fit
    twice the renewal time and the node's time to live, and let every scan that
    returns show the row as it is then.  Then over any passes of a lease
    watcher started before them, leading or not, whichever scans fail and
    however its changes end, no row of a cell listed on the node is released or
    removed, no loss of it is reported, and neither the node's registry row nor
    its lease is taken away. *)
Theorem live_node_keeps_cells id_str timing id row ttl_ms period t0 inps :
  renews_within row period -> fits timing ttl_ms period -> StronglySorted Z.le (t0 :: map pi_now inps) ->
  Forall (fun inp => shows_row id row ttl_ms inp /\ forall cells, pi_cells inp = Some cells -> NoDup (map pe_sri cells)) inps ->
  forall k inp tr ops cells op ok, inps !! k = Some inp ->
    (watch_run id_str timing inps (watcher_new timing t0)).1 !! k = Some (tr, ops) ->
    pi_cells inp = Some cells -> (op, ok) ∈ tr -> ~ touches id cells op.
Proof.
  intros Hren Hfits Hsort Hall. eapply (watch_run_live id_str timing id row ttl_ms period t0); try done.
  split; [done|]. split; [apply NoDup_nil_2|done].
Qed.

(** Two nodes with a cell each: the first renews, the second does not. *)
Definition sample_gen (n : Z) : Gen := mkGen n 1.
Definition sample_lineage (parent : option Sri) : SpawnLineage := mkLineage parent None false None None None.
Definition sample_cells : list PlacementEntry :=
  [mkPlacement 11 (Wasm 1) None (sample_gen 5); mkPlacement 22 (Wasm 2) None (sample_gen 6)].
Definition sample_instances : list CellInstance :=
  [mkInstance 11 [] (sample_gen 5) (sample_lineage None); mkInstance 22 [] (sample_gen 6) (sample_lineage (Some 11))].
Definition renewed_row (t : Instant) : Z := t / 10 ^ 6.
Definition quiet_restarts : RestartInput := mkRestartInput (Some []) (Some []) None None 0 (fun _ => DeployFailed).
Definition sample_pass (now : Instant) : PassInput :=
  mkPass (Some [(1, mkLease [] (renewed_row now) 45000); (2, mkLease [] 7 45000)]) now (Some sample_cells) true
    (Some sample_instances) (fun _ => true) quiet_restarts.
Definition sample_id_str (id : RuntimeId) : str := if id =? 1 then lit "1" else lit "2".
Abbreviation sample_passes := [sample_pass (from_secs 10); sample_pass (from_secs 80)] (only parsing).

Lemma sample_pass_shows now :
  shows_row 1 renewed_row 45000 (sample_pass now) /\
  forall cells, pi_cells (sample_pass now) = Some cells -> NoDup (map pe_sri cells).
Proof.
  split.
  - split; [by left|]. by intros lease [[= ->]|[[=]|?%elem_of_nil]%elem_of_cons]%elem_of_cons.
  - intros cells [= <-]. by apply (bool_decide_unpack _).
Qed.

Lemma live_node_keeps_cells_witness :
  exists tr ops,
    (watch_run sample_id_str TIMING_DEFAULT sample_passes (watcher_new TIMING_DEFAULT 0)).1 !! 1%nat = Some (tr, ops) /\
    (EmitLost 11 22 None NodeLost, true) ∈ tr /\ (RemovePlacement 22 (sample_gen 6), true) ∈ tr /\
    forall op ok, (op, ok) ∈ tr -> ~ touches 1 sample_cells op.
Proof.
  eexists _, _. split; [vm_compute; reflexivity|]. split; [left|]. split; [right; left|].
  intros op ok.
  apply (live_node_keeps_cells sample_id_str TIMING_DEFAULT 1 renewed_row 45000 (from_secs 12) 0 sample_passes) with
    (k := 1%nat) (inp := sample_pass (from_secs 80)) (ops := []).
  - split; unfold renewed_row, from_secs; intros; dlia.
  - repeat split; vm_compute; congruence.
  - repeat constructor; vm_compute; congruence.
  - repeat (apply Forall_cons; split; [apply sample_pass_shows|]). by apply Forall_nil.
  - done.
  - vm_compute. reflexivity.
  - done.
Defined.
