(* ===== verification/RestartFacts.v ===== *)
(** * Restarts of root cells

    What a restart pass does to one root, and over any passes of a leader: how
    often a root is redeployed, and when its spec is dropped. *)

From S2P Require Import Prelude Bytes Domain Store Supervision Hygiene LeaseFacts HygieneFacts.
From Stdlib Require Import ZArith Lia Strings.Byte Sorting.Sorted.
From stdpp Require Import base list option gmap sets sorting.

Local Open Scope Z_scope.

(** ** The budget of one root *)

Lemma allow_other sri s max window now b ok b' :
  allow s max window now b = (ok, b') -> s ≠ sri -> b' !! sri = b !! sri.
Proof. unfold allow. intros H Hne. destruct (max <=? _); simplify_eq; by rewrite lookup_insert_ne. Qed.

(** Only the attempts of the root itself count. *)
Lemma allow_local sri max window now b b0 ok x :
  b !! sri = b0 !! sri -> allow sri max window now b = (ok, x) ->
  exists y, allow sri max window now b0 = (ok, y) /\ y !! sri = x !! sri.
Proof.
  unfold allow. intros ->. destruct (max <=? _); intros [= <- <-]; (eexists; split; [done|]); by rewrite !lookup_insert_eq.
Qed.

Lemma refund_other sri s b : s ≠ sri -> refund s b !! sri = b !! sri.
Proof.
  intros Hne. unfold refund. destruct (b !! s); [|done]. case_bool_decide; [by rewrite lookup_delete_ne|by rewrite lookup_insert_ne].
Qed.

Lemma forget_attempts_lookup sri s b : forget_attempts s b !! sri = if bool_decide (s = sri) then None else b !! sri.
Proof.
  unfold forget_attempts. case_bool_decide; [subst; by rewrite lookup_delete_eq|by rewrite lookup_delete_ne].
Qed.

(** ** One pass, for one root *)

Definition occurrences (sri : Sri) (l : list Sri) : list Sri := List.filter (Z.eqb sri) l.
#[global] Arguments occurrences : simpl never.

Lemma occurrences_snoc sri s l : occurrences sri (l ++ [s]) = occurrences sri l ++ (if sri =? s then [sri] else []).
Proof.
  unfold occurrences. rewrite List.filter_app. cbn. destruct (Z.eqb_spec sri s) as [->|]; [done|by rewrite app_nil_r].
Qed.

Lemma occurrences_nil sri l : occurrences sri l = [] <-> sri ∉ l.
Proof.
  unfold occurrences. induction l as [|s l IH]; cbn; [split; [by intros _ ?%elem_of_nil|done]|].
  rewrite not_elem_of_cons. destruct (Z.eqb_spec sri s) as [->|Hne]; [naive_solver|]. rewrite <-IH. naive_solver.
Qed.

Section OnePass.
Context (specs : gmap Sri CellDeployment) (gens : gmap Sri Gen) (now : Instant) (sri : Sri).

(** What planning the deaths came to for the root. *)
Inductive fate (b : RestartBudget) (plan' : RestartPlan) (b' : RestartBudget) : Prop :=
  | untouched :
      b' !! sri = b !! sri -> sri ∉ pl_restart plan' -> sri ∉ pl_drop_specs plan' -> fate b plan' b'
  | attempted spec reason b1 :
      specs !! sri = Some spec -> gens !! sri = None -> should_restart (rp_restart_type (cd_restart spec)) reason = true ->
      attempt_ready sri (from_millis (rp_delay_ms (cd_restart spec))) now b = true ->
      allow sri (rp_max_restarts (cd_restart spec)) (from_millis (rp_window_ms (cd_restart spec))) now b = (true, b1) ->
      b' !! sri = b1 !! sri -> occurrences sri (pl_restart plan') = [sri] -> sri ∉ pl_drop_specs plan' ->
      fate b plan' b'
  | dropped :
      gens !! sri = None -> b' !! sri = None -> sri ∉ pl_restart plan' -> sri ∈ pl_drop_specs plan' -> fate b plan' b'.

Lemma plan_death_other st death :
  rd_sri death ≠ sri ->
  let st' := plan_death specs gens now st death in
  st'.2 !! sri = st.2 !! sri /\ occurrences sri (pl_restart st'.1) = occurrences sri (pl_restart st.1) /\
  (sri ∈ pl_drop_specs st'.1 <-> sri ∈ pl_drop_specs st.1).
Proof.
  intros Hne. destruct st as [plan b]. unfold plan_death.
  assert (forall l, sri ∈ l ++ [rd_sri death] <-> sri ∈ l) as Hin.
  { intros l. rewrite elem_of_app, list_elem_of_singleton. naive_solver. }
  assert (forall l, occurrences sri (l ++ [rd_sri death]) = occurrences sri l) as Hocc.
  { intros l. rewrite occurrences_snoc. destruct (Z.eqb_spec sri (rd_sri death)); [congruence|by rewrite app_nil_r]. }
  destruct (specs !! rd_sri death) as [spec|]; [|done].
  destruct (gens !! rd_sri death) as [cur|]; [by destruct (gen_ltb _ _)|].
  destruct (should_restart _ _).
  - destruct (attempt_ready _ _ _ _); [|done].
    destruct (allow _ _ _ _ _) as [[] b1] eqn:Ha; cbn [fst snd pl_restart pl_drop_specs push_restart push_drop push_clear].
    + by rewrite (allow_other _ _ _ _ _ _ _ _ Ha), Hocc.
    + by rewrite forget_attempts_lookup, bool_decide_eq_false_2, (allow_other _ _ _ _ _ _ _ _ Ha), Hin.
  - cbn [fst snd pl_restart pl_drop_specs push_restart push_drop push_clear].
    by rewrite forget_attempts_lookup, bool_decide_eq_false_2, Hin.
Qed.

Lemma plan_deaths_other deaths st :
  sri ∉ map rd_sri deaths ->
  let st' := fold_left (plan_death specs gens now) deaths st in
  st'.2 !! sri = st.2 !! sri /\ occurrences sri (pl_restart st'.1) = occurrences sri (pl_restart st.1) /\
  (sri ∈ pl_drop_specs st'.1 <-> sri ∈ pl_drop_specs st.1).
Proof.
  revert st. induction deaths as [|d deaths IH]; intros st; cbn; [done|]. intros [Hd Hin]%not_elem_of_cons.
  destruct (plan_death_other st d) as (H1 & H2 & H3); [done|]. destruct (IH (plan_death specs gens now st d) Hin) as (-> & -> & ->).
  done.
Qed.

(** The death of the root itself, met with nothing planned for it so far. *)
Lemma plan_death_self plan b death :
  rd_sri death = sri -> sri ∉ pl_restart plan -> sri ∉ pl_drop_specs plan ->
  let st' := plan_death specs gens now (plan, b) death in fate b st'.1 st'.2.
Proof.
  intros Hd Hr Hs. unfold plan_death. rewrite Hd.
  destruct (specs !! sri) as [spec|] eqn:Hspec; [|by apply untouched].
  destruct (gens !! sri) as [cur|] eqn:Hgen; [by destruct (gen_ltb _ _); apply untouched|].
  destruct (should_restart _ _) eqn:Hshould.
  - destruct (attempt_ready _ _ _ _) eqn:Hready; [|by apply untouched].
    destruct (allow _ _ _ _ _) as [[] b1] eqn:Ha; cbn.
    + eapply attempted; try done. cbn. rewrite occurrences_snoc, Z.eqb_refl. by rewrite (proj2 (occurrences_nil sri _)).
    + apply dropped; cbn; [done|by rewrite forget_attempts_lookup, bool_decide_eq_true_2|done|].
      apply elem_of_app. right. by apply list_elem_of_singleton.
  - apply dropped; cbn; [done|by rewrite forget_attempts_lookup, bool_decide_eq_true_2|done|].
    apply elem_of_app. right. by apply list_elem_of_singleton.
Qed.

(** The fate carries over what leaves the root alone. *)
Lemma fate_later b plan' b' plan'' b'' :
  fate b plan' b' -> b'' !! sri = b' !! sri -> occurrences sri (pl_restart plan'') = occurrences sri (pl_restart plan') ->
  (sri ∈ pl_drop_specs plan'' <-> sri ∈ pl_drop_specs plan') -> fate b plan'' b''.
Proof.
  intros Hf Hb Ho Hd. destruct Hf as [H1 H2 H3|spec reason b1 H1 H2 H3 H4 H5 H6 H7 H8|H0 H1 H2 H3].
  - apply untouched; [congruence| |by rewrite Hd]. apply occurrences_nil. rewrite Ho. by apply occurrences_nil.
  - eapply attempted; try done; [congruence|congruence|by rewrite Hd].
  - apply dropped; [done|congruence| |by rewrite Hd]. apply occurrences_nil. rewrite Ho. by apply occurrences_nil.
Qed.

Lemma fate_before b b0 plan' b' : b !! sri = b0 !! sri -> fate b plan' b' -> fate b0 plan' b'.
Proof.
  intros Hb [H1 H2 H3|spec reason b1 H1 H2 H3 H4 H5 H6 H7 H8|H0 H1 H2 H3].
  - apply untouched; congruence.
  - destruct (allow_local _ _ _ _ _ _ _ _ Hb H5) as (b2 & Ha & Hb2).
    eapply attempted; try done; [|congruence]. unfold attempt_ready in *. by rewrite <-Hb.
  - by apply dropped.
Qed.

Lemma plan_deaths_fate deaths b :
  NoDup (map rd_sri deaths) ->
  let st' := fold_left (plan_death specs gens now) deaths (plan_nothing, b) in fate b st'.1 st'.2.
Proof.
  intros Hnd. destruct (decide (sri ∈ map rd_sri deaths)) as [Hin|Hin].
  - apply list_elem_of_fmap in Hin as (d & Hd & (l1 & l2 & ->)%list_elem_of_split).
    rewrite map_app, NoDup_app in Hnd. destruct Hnd as (_ & Hdisj & Hnd). cbn in Hnd. apply NoDup_cons in Hnd as [Hl2 _].
    cbn. rewrite fold_left_app. cbn. rewrite <-Hd in *.
    destruct (plan_deaths_other l1 (plan_nothing, b)) as (H1 & H2 & H3).
    { intros Hin. apply (Hdisj _ Hin). rewrite Hd. by left. }
    destruct (fold_left _ l1 _) as [plan1 b1] eqn:Hf1. cbn in H1, H2, H3.
    destruct (plan_deaths_other l2 (plan_death specs gens now (plan1, b1) d)) as (H4 & H5 & H6); [done|].
    eapply fate_later; [|exact H4|exact H5|exact H6].
    eapply fate_before; [exact H1|]. apply plan_death_self; [done| |rewrite H3; by intros ?%elem_of_nil].
    apply occurrences_nil. by rewrite H2.
  - destruct (plan_deaths_other deaths (plan_nothing, b) Hin) as (H1 & H2 & H3).
    apply untouched; [done| |rewrite H3; by intros ?%elem_of_nil]. apply occurrences_nil. by rewrite H2.
Qed.

End OnePass.

(** ** Specs whose root is gone *)

Lemma drop_confirmed confirmed plan b :
  let st := fold_left (fun '(plan, budget) sri => (push_drop sri plan, forget_attempts sri budget)) confirmed (plan, b) in
  pl_restart st.1 = pl_restart plan /\ pl_clear_deaths st.1 = pl_clear_deaths plan /\
  pl_drop_specs st.1 = pl_drop_specs plan ++ confirmed /\
  forall sri, st.2 !! sri = if bool_decide (sri ∈ confirmed) then None else b !! sri.
Proof.
  revert plan b. induction confirmed as [|s confirmed IH]; intros plan b; cbn.
  - split; [done|]. split; [done|]. by rewrite app_nil_r.
  - destruct (IH (push_drop s plan) (forget_attempts s b)) as (-> & -> & -> & Hb). clear IH. cbn. rewrite <-app_assoc.
    repeat split. intros sri. rewrite Hb, forget_attempts_lookup.
    destruct (decide (sri ∈ confirmed)) as [Hin|Hin].
    + by rewrite !bool_decide_eq_true_2 by (rewrite ?elem_of_cons; auto).
    + rewrite (bool_decide_eq_false_2 (sri ∈ confirmed)) by done. apply bool_decide_ext_if. rewrite elem_of_cons.
      split; [intros ->; by left|]. by intros [->|?].
Qed.

Lemma confirm_elem current prev sri : sri ∈ (confirm current prev).1 <-> sri ∈ prev /\ sri ∈ current.
Proof. unfold confirm. cbn. rewrite elem_of_elements, elem_of_filter, elem_of_list_to_set. done. Qed.

Lemma orphaned_elem specs deaths gens instances sri :
  sri ∈ orphaned specs deaths gens instances <->
  sri ∈ map cd_sri specs /\ gens !! sri = None /\ sri ∉ map ci_sri instances /\ sri ∉ map rd_sri deaths.
Proof.
  unfold orphaned. rewrite (list_elem_of_In (List.filter _ _)), filter_In, <-list_elem_of_In.
  rewrite !andb_true_iff, !negb_true_iff, bool_decide_eq_true, !bool_decide_eq_false. tauto.
Qed.

Lemma plan_restarts_fate specs deaths placements instances b sweep now plan' b' sweep' sri :
  NoDup (map rd_sri deaths) ->
  plan_root_restarts specs deaths placements instances b sweep now = (plan', b', sweep') ->
  fate (spec_by_sri specs) (placement_gens placements) now sri b plan' b'.
Proof.
  intros Hnd. unfold plan_root_restarts.
  pose proof (plan_deaths_fate (spec_by_sri specs) (placement_gens placements) now sri deaths b Hnd) as Hfate.
  pose proof (plan_deaths_other (spec_by_sri specs) (placement_gens placements) now sri deaths (plan_nothing, b)) as Hother.
  destruct (fold_left _ deaths _) as [plan1 b1]. cbn in Hfate, Hother.
  pose proof (confirm_elem (orphaned specs deaths (placement_gens placements) instances) sweep sri) as Hc.
  destruct (confirm _ _) as [confirmed sweep1]. cbn in Hc.
  destruct (drop_confirmed confirmed plan1 b1) as (Hr & _ & Hd & Hb).
  destruct (fold_left _ confirmed _) as [plan2 b2]. cbn in *. intros [= <- <- _].
  specialize (Hb sri). case_bool_decide as Hin.
  - pose proof (proj1 Hc Hin) as [_ Ho]. apply orphaned_elem in Ho as (_ & Hgen & _ & Hdeath).
    destruct (Hother Hdeath) as (_ & Hocc & _). apply dropped; [done|done| |rewrite Hd, elem_of_app; by right].
    rewrite Hr. apply occurrences_nil. by rewrite Hocc.
  - eapply fate_later; [exact Hfate|done|by rewrite Hr|]. rewrite Hd, elem_of_app. naive_solver.
Qed.

(** ** Carrying the plan out *)

Definition deploys_of (sri : Sri) (ops : list RestartOp) : list CellDeployment :=
  omap (fun op => match op with Deploy d => if cd_sri d =? sri then Some d else None | _ => None end) ops.

#[global] Arguments deploys_of : simpl never.

Lemma deploys_of_app sri ops ops' : deploys_of sri (ops ++ ops') = deploys_of sri ops ++ deploys_of sri ops'.
Proof. apply omap_app. Qed.

Lemma deploys_of_none {A} sri (f : A -> RestartOp) l : (forall a d, f a ≠ Deploy d) -> deploys_of sri (map f l) = [].
Proof. intros Hf. unfold deploys_of. induction l as [|a l IH]; cbn; [done|]. destruct (f a) eqn:Ha; [by destruct (Hf a d)|done|done]. Qed.

(** A placement that failed for want of a runtime is not charged. *)
Definition refunded (o : DeployOutcome) : bool := match o with Infeasible | NoRuntimesAvailable => true | _ => false end.

Lemma spec_by_sri_self specs s spec : spec_by_sri specs !! s = Some spec -> cd_sri spec = s /\ spec ∈ specs.
Proof. intros (d & [= -> ->] & Hin)%collect_map_in%list_elem_of_fmap. done. Qed.

Section Redeploys.
Context (specs : gmap Sri CellDeployment) (outcome : Sri -> DeployOutcome) (sri : Sri).
Context (Hself : forall s spec, specs !! s = Some spec -> cd_sri spec = s).

Lemma redeploy_other st s :
  s ≠ sri ->
  let st' := redeploy specs outcome st s in
  st'.2 !! sri = st.2 !! sri /\ deploys_of sri st'.1 = deploys_of sri st.1.
Proof.
  intros Hne. destruct st as [ops b]. unfold redeploy. destruct (specs !! s) as [spec|] eqn:Hs; [|done].
  assert (cd_sri spec =? sri = false) as Hd by (apply Z.eqb_neq; by rewrite (Hself _ _ Hs)).
  destruct (outcome s); cbn; rewrite deploys_of_app; unfold deploys_of at 2; cbn; rewrite Hd, app_nil_r, ?refund_other; done.
Qed.

Lemma redeploys_other l st :
  sri ∉ l ->
  let st' := fold_left (redeploy specs outcome) l st in
  st'.2 !! sri = st.2 !! sri /\ deploys_of sri st'.1 = deploys_of sri st.1.
Proof.
  revert st. induction l as [|s l IH]; intros st; cbn; [done|]. intros [Hs Hin]%not_elem_of_cons.
  destruct (redeploy_other st s) as [<- <-]; [done|]. by apply IH.
Qed.

Lemma occurrences_one l : occurrences sri l = [sri] -> exists l1 l2, l = l1 ++ sri :: l2 /\ sri ∉ l1 /\ sri ∉ l2.
Proof.
  intros Ho. assert (sri ∈ l) as Hin.
  { destruct (decide (sri ∈ l)) as [?|Hn]; [done|]. apply occurrences_nil in Hn. congruence. }
  apply list_elem_of_split in Hin as (l1 & l2 & ->). exists l1, l2. split; [done|].
  unfold occurrences in Ho. rewrite List.filter_app in Ho. cbn in Ho. rewrite Z.eqb_refl in Ho.
  fold (occurrences sri l1) (occurrences sri l2) in Ho. rewrite <-!occurrences_nil.
  destruct (occurrences sri l1) as [|x r]; cbn in Ho; [by injection Ho|].
  apply (f_equal length) in Ho. cbn in Ho. rewrite length_app in Ho. cbn in Ho. lia.
Qed.

Lemma refund_local b b0 : b !! sri = b0 !! sri -> refund sri b !! sri = refund sri b0 !! sri.
Proof.
  intros Hb. unfold refund. rewrite Hb. destruct (b0 !! sri) eqn:H0; [|congruence].
  case_bool_decide; [by rewrite !lookup_delete_eq|by rewrite !lookup_insert_eq].
Qed.

Lemma redeploys_self l ops b spec :
  occurrences sri l = [sri] -> specs !! sri = Some spec -> deploys_of sri ops = [] ->
  let st' := fold_left (redeploy specs outcome) l (ops, b) in
  st'.2 !! sri = (if refunded (outcome sri) then refund sri b else b) !! sri /\ deploys_of sri st'.1 = [spec].
Proof.
  intros (l1 & l2 & -> & H1 & H2)%occurrences_one Hs Hops. cbn. rewrite fold_left_app. cbn.
  destruct (redeploys_other l1 (ops, b) H1) as [Hb1 Ho1]. destruct (fold_left _ l1 _) as [ops1 b1]. cbn in Hb1, Ho1.
  destruct (redeploys_other l2 (redeploy specs outcome (ops1, b1) sri) H2) as [-> ->].
  unfold redeploy. rewrite Hs. pose proof (Hself _ _ Hs) as Hd. apply Z.eqb_eq in Hd.
  destruct (outcome sri); cbn; rewrite deploys_of_app, Ho1, Hops; unfold deploys_of; cbn; rewrite Hd; (split; [|done]); [done| | |done];
    by apply refund_local.
Qed.

End Redeploys.

Lemma redeploys_erase specs outcome l st s :
  EraseSpec s ∈ (fold_left (redeploy specs outcome) l st).1 <-> EraseSpec s ∈ st.1.
Proof.
  revert st. induction l as [|x l IH]; intros st; cbn; [done|]. rewrite IH. clear IH. destruct st as [ops b]. unfold redeploy.
  destruct (specs !! x); [|done]. destruct (outcome x); cbn; rewrite elem_of_app; set_solver.
Qed.

(** ** A whole pass, for one root *)

Section Effect.
Context (inp : RestartInput) (sri : Sri).

Inductive effect (b : RestartBudget) (ops : list RestartOp) (b' : RestartBudget) : Prop :=
  | left_alone : b' !! sri = b !! sri -> deploys_of sri ops = [] -> EraseSpec sri ∉ ops -> effect b ops b'
  | redeployed specs placements spec reason b1 :
      ri_specs inp = Some specs -> ri_placements inp = Some placements -> spec_by_sri specs !! sri = Some spec ->
      placement_gens placements !! sri = None -> should_restart (rp_restart_type (cd_restart spec)) reason = true ->
      attempt_ready sri (from_millis (rp_delay_ms (cd_restart spec))) (ri_now inp) b = true ->
      allow sri (rp_max_restarts (cd_restart spec)) (from_millis (rp_window_ms (cd_restart spec))) (ri_now inp) b = (true, b1) ->
      b' !! sri = (if refunded (ri_deploy inp sri) then refund sri b1 else b1) !! sri ->
      deploys_of sri ops = [spec] -> EraseSpec sri ∉ ops -> effect b ops b'
  | given_up placements :
      ri_placements inp = Some placements -> placement_gens placements !! sri = None ->
      b' !! sri = None -> deploys_of sri ops = [] -> EraseSpec sri ∈ ops -> effect b ops b'.

Lemma process_effect b sweep ops b' sweep' :
  (forall deaths, ri_deaths inp = Some deaths -> NoDup (map rd_sri deaths)) ->
  process_root_restarts inp b sweep = (ops, b', sweep') -> effect b ops b'.
Proof.
  intros Hnd. unfold process_root_restarts.
  assert (forall s, ([], b, s) = (ops, b', sweep') -> effect b ops b') as Hnil.
  { intros s [= <- <- _]. apply left_alone; [done|done|by intros ?%elem_of_nil]. }
  destruct (ri_specs inp) as [specs|] eqn:Hspecs; [|apply Hnil].
  destruct (ri_deaths inp) as [deaths|] eqn:Hdeaths; [|apply Hnil].
  set (rest := match ri_placements inp with Some _ => _ | None => _ end).
  assert (rest = (ops, b', sweep') -> effect b ops b') as Hrest; [|by destruct specs, deaths; auto; apply Hnil].
  subst rest. destruct (ri_placements inp) as [placements|] eqn:Hpl; [|apply Hnil].
  destruct (ri_instances inp) as [instances|]; [|apply Hnil].
  destruct (plan_root_restarts _ _ _ _ _ _ _) as [[plan b1] sweep1] eqn:Hplan.
  apply (plan_restarts_fate _ _ _ _ _ _ _ _ _ _ sri (Hnd _ eq_refl)) in Hplan.
  assert (forall s spec, spec_by_sri specs !! s = Some spec -> cd_sri spec = s) as Hself.
  { intros s spec Hs. by apply spec_by_sri_self in Hs as [? _]. }
  pose proof (redeploys_erase (spec_by_sri specs) (ri_deploy inp) (pl_restart plan) ([], b1) sri) as Herase.
  pose proof (redeploys_other _ (ri_deploy inp) sri Hself (pl_restart plan) ([], b1)) as Hother.
  pose proof (redeploys_self _ (ri_deploy inp) sri Hself (pl_restart plan) [] b1) as Hsome.
  destruct (fold_left _ _ _) as [ops1 b2]. cbn in Herase, Hother, Hsome. intros [= <- <- _].
  set (tail := map EraseSpec (pl_drop_specs plan) ++ map ClearDeath (pl_clear_deaths plan)).
  assert (deploys_of sri (ops1 ++ tail) = deploys_of sri ops1) as Hdep.
  { subst tail. rewrite !deploys_of_app, !deploys_of_none by done. by rewrite !app_nil_r. }
  assert (EraseSpec sri ∈ ops1 ++ tail <-> sri ∈ pl_drop_specs plan) as Hdrop.
  { subst tail. rewrite !elem_of_app, Herase, !list_elem_of_fmap, elem_of_nil. naive_solver. }
  destruct Hplan as [H1 H2 H3|spec reason b3 H1 H2 H3 H4 H5 H6 H7 H8|H0 H1 H2 H3].
  - destruct (Hother H2) as [Hb Ho]. apply left_alone; [congruence|by rewrite Hdep|by rewrite Hdrop].
  - destruct (Hsome spec H7 H1 eq_refl) as [Hb Ho]. eapply redeployed; try done; [|by rewrite Hdep|by rewrite Hdrop].
    rewrite Hb. destruct (refunded _); [by apply refund_local|done].
  - destruct (Hother H2) as [Hb Ho]. eapply given_up; [done|done|congruence|by rewrite Hdep|by rewrite Hdrop].
Qed.

End Effect.

Lemma placed_gen placements sri : sri ∈ map pe_sri placements -> placement_gens placements !! sri ≠ None.
Proof.
  intros Hin. destruct (proj2 (collect_map_is_some (map (fun c => (pe_sri c, pe_gen c)) placements) sri)) as [g Hg].
  { by rewrite map_map. }
  unfold placement_gens. by rewrite Hg.
Qed.

(** A root with a placement row is left alone: whatever deaths, specs and
    history a restart pass is given, a root whose row it sees is neither
    redeployed nor charged, and its spec is not dropped. *)
Theorem placed_root_left_alone inp b sweep ops b' sweep' sri placements :
  (forall deaths, ri_deaths inp = Some deaths -> NoDup (map rd_sri deaths)) ->
  ri_placements inp = Some placements -> sri ∈ map pe_sri placements ->
  process_root_restarts inp b sweep = (ops, b', sweep') ->
  deploys_of sri ops = [] /\ EraseSpec sri ∉ ops /\ b' !! sri = b !! sri.
Proof.
  intros Hnd Hpl Hin%placed_gen Hp. apply (process_effect _ sri) in Hp; [|done].
  destruct Hp as [? ? ?|? pl' ? ? ? _ Hpl' _ Hno|pl' Hpl' Hno]; [done| |]; rewrite Hpl in Hpl'; by injection Hpl' as ->.
Qed.

(** ** The passes of a leader *)

Fixpoint restart_run (inps : list RestartInput) (b : RestartBudget) (sweep : RestartSweep) : list (list RestartOp) :=
  match inps with
  | [] => []
  | inp :: inps =>
      let '(ops, b, sweep) := process_root_restarts inp b sweep in ops :: restart_run inps b sweep
  end.

(** The times at which a root was redeployed and charged for it. *)
Definition charge_step (sri : Sri) (acc : list Instant) (e : RestartInput * list RestartOp) : list Instant :=
  let '(inp, ops) := e in
  if refunded (ri_deploy inp sri) then acc else acc ++ map (fun _ => ri_now inp) (deploys_of sri ops).
Definition charges (sri : Sri) (inps : list RestartInput) (outs : list (list RestartOp)) : list Instant :=
  fold_left (charge_step sri) (zip inps outs) [].

(** A pass that drops the root's spec is followed by passes that do not see one: the
    row is removed, and the root is not deployed again by hand. *)
Definition spec_absent (sri : Sri) (inp : RestartInput) : Prop :=
  forall specs, ri_specs inp = Some specs -> spec_by_sri specs !! sri = None.
Fixpoint drops_last (sri : Sri) (inps : list RestartInput) (outs : list (list RestartOp)) : Prop :=
  match inps, outs with
  | _ :: inps, ops :: outs => (EraseSpec sri ∈ ops -> Forall (spec_absent sri) inps) /\ drops_last sri inps outs
  | _, _ => True
  end.

(** The redeployments within a window from [t] on. *)
Definition within (t : Instant) (window : Duration) (l : list Instant) : list Instant :=
  List.filter (fun c => (t <=? c) && (c <=? t + window)) l.

Lemma prune_split window now l : exists p, l = p ++ prune_attempts window now l /\ Forall (fun c => window < instant_since now c) p.
Proof.
  induction l as [|c l IH]; cbn; [by exists []|]. destruct (Z.ltb_spec window (instant_since now c)) as [Hc|Hc].
  - destruct IH as (p & Heq & Hp). exists (c :: p). split; [cbn; by rewrite <-Heq|by constructor].
  - by exists [].
Qed.

Lemma within_snoc t w l c : within t w (l ++ [c]) = within t w l ++ (if (t <=? c) && (c <=? t + w) then [c] else []).
Proof. unfold within. by rewrite List.filter_app. Qed.

Lemma within_length t w l : (length (within t w l) <= length l)%nat.
Proof. apply List.filter_length_le. Qed.

Lemma within_none t w l : Forall (fun c => c < t) l -> within t w l = [].
Proof.
  intros H. unfold within. induction H as [|c l Hc _ IH]; cbn; [done|]. destruct (Z.leb_spec t c); [lia|done].
Qed.

Lemma within_app t w l k : within t w (l ++ k) = within t w l ++ within t w k.
Proof. apply List.filter_app. Qed.

Lemma sorted_snoc {A} (R : A -> A -> Prop) l x :
  StronglySorted R l -> Forall (fun a => R a x) l -> StronglySorted R (l ++ [x]).
Proof.
  induction 1 as [|a l Hl IH Ha]; intros Hx; cbn; [repeat constructor|]. apply Forall_cons in Hx as [Hax Hx].
  constructor; [auto|]. apply Forall_app. auto.
Qed.

Lemma sorted_le_last (R : Z -> Z -> Prop) l z c :
  (forall a b, R a b -> a <= b) -> StronglySorted R l -> last l = Some z -> c ∈ l -> c <= z.
Proof.
  intros HR. induction 1 as [|a l Hl IH Ha]; [done|]. rewrite last_cons. rewrite elem_of_cons.
  destruct (last l) as [z'|] eqn:Hz; intros [= <-].
  - intros [->|Hc]; [|auto]. apply last_Some in Hz as [l' ->]. apply HR. rewrite Forall_forall in Ha. apply Ha.
    apply elem_of_app. right. by apply list_elem_of_singleton.
  - intros [->|Hc]; [lia|]. apply last_None in Hz as ->. by apply elem_of_nil in Hc.
Qed.

Section CrashLoop.
Context (sri : Sri) (max : Z) (window delay : Duration).
Context (Hwindow : 0 <= window) (Hdelay : 0 <= delay).

Definition policy_is (inp : RestartInput) : Prop :=
  forall specs spec, ri_specs inp = Some specs -> spec_by_sri specs !! sri = Some spec ->
    rp_max_restarts (cd_restart spec) = max /\ from_millis (rp_window_ms (cd_restart spec)) = window /\
    from_millis (rp_delay_ms (cd_restart spec)) = delay.

(** The budget holds the charges but those that left the window. *)
Definition budgeted (prev : Instant) (acc : list Instant) (b : RestartBudget) : Prop :=
  exists old, acc = old ++ default [] (b !! sri) /\ Forall (fun c => c + window < prev) old /\ Forall (fun c => c <= prev) acc /\
    (forall t, Z.of_nat (length (within t window acc)) <= Z.max 0 max) /\
    StronglySorted (fun a c => a + Z.min delay window <= c) acc.

Lemma budgeted_same prev now acc b b' : prev <= now -> b' !! sri = b !! sri -> budgeted prev acc b -> budgeted now acc b'.
Proof.
  intros Hle Hb (old & -> & Hold & Hp & Hc & Hs). exists old. rewrite Hb. repeat split; try done.
  - eapply Forall_impl; [exact Hold|]. cbn; lia.
  - eapply Forall_impl; [exact Hp|]. cbn; lia.
Qed.

Lemma budgeted_pruned prev now acc b :
  prev <= now -> budgeted prev acc b ->
  exists old, acc = old ++ prune_attempts window now (default [] (b !! sri)) /\ Forall (fun c => c + window < now) old.
Proof.
  intros Hle (old & -> & Hold & _). destruct (prune_split window now (default [] (b !! sri))) as (p & Hp & Hpw).
  exists (old ++ p). rewrite <-app_assoc, <-Hp. split; [done|]. apply Forall_app. split.
  - eapply Forall_impl; [exact Hold|]. cbn; lia.
  - eapply Forall_impl; [exact Hpw|]. unfold instant_since. cbn; lia.
Qed.

Lemma ready_spaced prev now acc b :
  prev <= now -> budgeted prev acc b -> attempt_ready sri delay now b = true ->
  Forall (fun c => c + Z.min delay window <= now) acc.
Proof.
  intros Hle (old & -> & Hold & Hp & _ & Hs) Hready. apply Forall_app. split.
  - eapply Forall_impl; [exact Hold|]. cbn; lia.
  - unfold attempt_ready in Hready. destruct (b !! sri) as [recent|]; cbn in *; [|constructor].
    destruct (last recent) as [z|] eqn:Hz; [|apply last_None in Hz as ->; constructor]. apply Z.leb_le in Hready.
    apply Forall_forall. intros c Hin. unfold instant_since in Hready.
    assert (z <= prev) as Hzp.
    { rewrite Forall_forall in Hp. apply Hp, elem_of_app. right. apply last_Some in Hz as [l ->].
      apply elem_of_app. right. by apply list_elem_of_singleton. }
    assert (c <= z) as Hcz; [|lia].
    eapply (sorted_le_last (fun a c => a + Z.min delay window <= c) (old ++ recent)); [lia|done| |apply elem_of_app; by right].
    rewrite last_app, Hz. done.
Qed.

Lemma budgeted_step prev inp ops acc b b' :
  prev <= ri_now inp -> policy_is inp -> effect inp sri b ops b' -> budgeted prev acc b ->
  EraseSpec sri ∉ ops -> budgeted (ri_now inp) (charge_step sri acc (inp, ops)) b'.
Proof.
  intros Hle Hpol Heff Hb Hkept. unfold charge_step.
  destruct Heff as [Hb' Hdep Her|specs placements spec reason b1 Hsp _ Hspec _ _ Hready Hallow Hb' Hdep Her|? _ _ Hb' Hdep Her].
  - rewrite Hdep. cbn. rewrite app_nil_r.
    destruct (refunded _); by eapply budgeted_same.
  - rewrite Hdep. cbn.
    destruct (Hpol _ _ Hsp Hspec) as (Hm & Hw & Hd). rewrite Hm, Hw in Hallow. rewrite Hd in Hready.
    set (now := ri_now inp) in *. pose proof (ready_spaced _ _ _ _ Hle Hb Hready) as Hspaced.
    destruct (budgeted_pruned _ _ _ _ Hle Hb) as (old & Hacc & Hold). destruct Hb as (_ & _ & _ & Hprev & Hcount & Hsorted).
    assert (Forall (fun c => c <= now) acc) as Hnow by (eapply Forall_impl; [exact Hprev|]; cbn; lia).
    unfold allow in Hallow. set (recent := prune_attempts window now (default [] (b !! sri))) in *.
    destruct (Z.leb_spec max (Z.of_nat (length recent))) as [?|Hlt]; [done|]. injection Hallow as <-.
    destruct (refunded _).
    + exists old. repeat split; try done. rewrite Hb'. unfold refund. rewrite lookup_insert_eq, removelast_last.
      case_bool_decide as Hr; [by rewrite lookup_delete_eq, Hacc, Hr|by rewrite lookup_insert_eq].
    + exists old. rewrite Hb', lookup_insert_eq. cbn. rewrite app_assoc, <-Hacc. repeat split; try done.
      * apply Forall_app. split; [done|]. by repeat constructor.
      * intros t. rewrite within_snoc. destruct ((t <=? now) && (now <=? t + window)) eqn:Hin; [|rewrite app_nil_r; apply Hcount].
        apply andb_true_iff in Hin as [_ Hin%Z.leb_le]. rewrite Hacc, within_app, within_none, app_nil_l, length_app; cbn.
        -- pose proof (within_length t window recent). lia.
        -- eapply Forall_impl; [exact Hold|]. cbn; lia.
      * by apply sorted_snoc.
  - done.
Qed.

Lemma charge_none acc inp ops : deploys_of sri ops = [] -> charge_step sri acc (inp, ops) = acc.
Proof. intros H. unfold charge_step. rewrite H. cbn. rewrite app_nil_r. by destruct (refunded _). Qed.

(** A root without a spec is not redeployed. *)
Lemma charges_absent inps : forall acc b sweep,
  Forall (spec_absent sri) inps ->
  Forall (fun inp => policy_is inp /\ forall deaths, ri_deaths inp = Some deaths -> NoDup (map rd_sri deaths)) inps ->
  fold_left (charge_step sri) (zip inps (restart_run inps b sweep)) acc = acc.
Proof.
  induction inps as [|inp inps IH]; intros acc b sweep Habs Hall; cbn; [done|].
  apply Forall_cons in Habs as [Ha Habs]. apply Forall_cons in Hall as [[_ Hnd] Hall].
  destruct (process_root_restarts inp b sweep) as [[ops b'] sweep'] eqn:Hp. cbn [zip zip_with fold_left].
  apply (process_effect _ sri) in Hp; [|done]. rewrite charge_none; [by apply IH|].
  destruct Hp as [? ? ?|specs ? spec ? ? Hsp _ Hspec| ]; [done| |done]. by rewrite (Ha _ Hsp) in Hspec.
Qed.

Lemma budgeted_run inps prev acc b sweep :
  budgeted prev acc b -> StronglySorted Z.le (prev :: map ri_now inps) ->
  Forall (fun inp => policy_is inp /\ forall deaths, ri_deaths inp = Some deaths -> NoDup (map rd_sri deaths)) inps ->
  drops_last sri inps (restart_run inps b sweep) ->
  let acc' := fold_left (charge_step sri) (zip inps (restart_run inps b sweep)) acc in
  (forall t, Z.of_nat (length (within t window acc')) <= Z.max 0 max) /\
  StronglySorted (fun a c => a + Z.min delay window <= c) acc'.
Proof.
  revert prev acc b sweep. induction inps as [|inp inps IH]; intros prev acc b sweep Hb Hsort Hall; cbn.
  - intros _. by destruct Hb as (? & _ & _ & _ & ? & ?).
  - apply StronglySorted_inv in Hsort as [Hsort Hle]. cbn in Hle, Hsort. apply Forall_cons in Hle as [Hle _].
    apply Forall_cons in Hall as [[Hpol Hnd] Hall].
    destruct (process_root_restarts inp b sweep) as [[ops b'] sweep'] eqn:Hp. cbn [zip zip_with fold_left].
    apply (process_effect _ sri) in Hp; [|done]. intros [Hdrop Hlast].
    assert (EraseSpec sri ∈ ops \/ EraseSpec sri ∉ ops) as [Her|Hkept] by (destruct Hp; by auto).
    + assert (deploys_of sri ops = []) as Hnone by (by destruct Hp).
      rewrite charge_none, charges_absent by auto. by destruct Hb as (? & _ & _ & _ & ? & ?).
    + eapply (IH (ri_now inp)); [|done|done|done]. by eapply budgeted_step.
Qed.

End CrashLoop.

(** C30. A crashing root is redeployed within its budget.  Over any passes of a
    leader at times that do not go back, while the root's policy stays as it is
    and a drop of its spec, once a pass makes it, takes effect: within any window
    of the policy's length, the root is redeployed and charged at most the
    policy's number of times, redeployments refunded for want of a runtime left
    out, and two that are charged are apart by at least the delay or the
    window, whichever is shorter. *)
Theorem crash_loop_bounded sri max window delay t0 inps :
  0 <= window -> 0 <= delay -> StronglySorted Z.le (t0 :: map ri_now inps) ->
  Forall (fun inp => policy_is sri max window delay inp /\
    forall deaths, ri_deaths inp = Some deaths -> NoDup (map rd_sri deaths)) inps ->
  drops_last sri inps (restart_run inps ∅ ∅) ->
  let redeployments := charges sri inps (restart_run inps ∅ ∅) in
  (forall t, Z.of_nat (length (within t window redeployments)) <= Z.max 0 max) /\
  StronglySorted (fun a c => a + Z.min delay window <= c) redeployments.
Proof.
  intros Hw Hd Hsort Hall Hdrop. eapply budgeted_run; [done|done| |exact Hsort|exact Hall|exact Hdrop].
  exists []. repeat split; [constructor|constructor| |constructor]. intros t. cbn. lia.
Qed.

(** A root that crashes again after each redeployment. *)
Definition sample_policy : RestartPolicy := mkPolicy Always 2 60000 1000.
Definition sample_spec : CellDeployment := mkDeployment 7 sample_policy [].
Definition crash_pass (now : Instant) (o : DeployOutcome) : RestartInput :=
  mkRestartInput (Some [sample_spec]) (Some [mkDeath 7 (mkGen 1 1) Crashed]) (Some []) (Some []) now (fun _ => o).
Definition gone_pass (now : Instant) : RestartInput :=
  mkRestartInput (Some []) (Some [mkDeath 7 (mkGen 1 1) Crashed]) (Some []) (Some []) now (fun _ => Deployed).
Abbreviation crash_passes :=
  [crash_pass (from_secs 10) Deployed; crash_pass (from_secs 12) Infeasible; crash_pass (from_secs 14) DeployFailed;
   crash_pass (from_secs 16) Deployed; gone_pass (from_secs 18)] (only parsing).

Lemma crash_pass_policy now o :
  policy_is 7 2 (from_secs 60) (from_secs 1) (crash_pass now o) /\
  forall deaths, ri_deaths (crash_pass now o) = Some deaths -> NoDup (map rd_sri deaths).
Proof.
  split.
  - intros specs spec [= <-]. intros [= <-]. done.
  - intros deaths [= <-]. apply NoDup_singleton.
Qed.

Lemma gone_pass_policy now :
  policy_is 7 2 (from_secs 60) (from_secs 1) (gone_pass now) /\
  forall deaths, ri_deaths (gone_pass now) = Some deaths -> NoDup (map rd_sri deaths).
Proof.
  split; [by intros specs spec [= <-]|]. intros deaths [= <-]. apply NoDup_singleton.
Qed.

(** The fourth pass finds the budget spent and drops the spec. *)
Lemma crash_loop_bounded_witness :
  let redeployments := charges 7 crash_passes (restart_run crash_passes ∅ ∅) in
  redeployments = [from_secs 10; from_secs 14] /\
  (forall t, Z.of_nat (length (within t (from_secs 60) redeployments)) <= Z.max 0 2) /\
  StronglySorted (fun a c => a + Z.min (from_secs 1) (from_secs 60) <= c) redeployments.
Proof.
  split; [vm_compute; reflexivity|]. apply (crash_loop_bounded 7 2 (from_secs 60) (from_secs 1) 0 crash_passes).
  - done.
  - done.
  - repeat constructor; vm_compute; congruence.
  - repeat (apply Forall_cons; split; [apply crash_pass_policy || apply gone_pass_policy|]). by apply Forall_nil.
  - replace (restart_run crash_passes ∅ ∅) with [[Deploy sample_spec; ClearDeath 7]; [Deploy sample_spec]; [Deploy sample_spec];
      [EraseSpec 7; ClearDeath 7]; [ClearDeath 7]] by (vm_compute; reflexivity).
    cbn [drops_last]. rewrite !elem_of_cons, !elem_of_nil. repeat split; try (intros H; exfalso; naive_solver).
    intros _. apply Forall_singleton. by intros specs [= <-].
Defined.

(** When the removal of the row fails, the budget is forgotten all the same: a policy
    of two redeployments a minute lets four happen within ten seconds. *)
Lemma failed_drop_refills :
  let passes := [crash_pass (from_secs 10) Deployed; crash_pass (from_secs 12) Deployed; crash_pass (from_secs 14) Deployed;
                 crash_pass (from_secs 16) Deployed; crash_pass (from_secs 18) Deployed] in
  charges 7 passes (restart_run passes ∅ ∅) = [from_secs 10; from_secs 12; from_secs 16; from_secs 18].
Proof. vm_compute. reflexivity. Qed.

Lemma placed_root_left_alone_witness :
  let inp := mkRestartInput (Some [sample_spec]) (Some [mkDeath 7 (mkGen 1 1) Terminated])
    (Some [mkPlacement 7 (Wasm 2) None (mkGen 1 1)]) (Some []) 0 (fun _ => Deployed) in
  deploys_of 7 (process_root_restarts inp ∅ ∅).1.1 = [] /\ EraseSpec 7 ∉ (process_root_restarts inp ∅ ∅).1.1 /\
  (process_root_restarts inp ∅ ∅).1.2 !! 7 = (∅ : RestartBudget) !! 7.
Proof.
  intros inp. apply (placed_root_left_alone inp ∅ ∅ _ _ (process_root_restarts inp ∅ ∅).2 7 [mkPlacement 7 (Wasm 2) None (mkGen 1 1)]).
  - intros deaths [= <-]. apply NoDup_singleton.
  - done.
  - by left.
  - vm_compute. reflexivity.
Defined.
