(* ===== verification/SupervisionLoop.v ===== *)
(** * Supervision of the rows it changes

    A leader's passes over the rows of the swarm: each pass scans the rows,
    hygiene changes them, and the restarts of the same pass scan them as they
    are then.  A root lost with its node is redeployed in the pass that
    declares it dead; when the record of its death fails, it is not. *)

From S2P Require Import Prelude Bytes Domain Store Supervision Hygiene LeaseFacts HygieneFacts WatchFacts RestartFacts.
From Stdlib Require Import ZArith Lia Strings.Byte.
From stdpp Require Import base list option gmap sets sorting.

Local Open Scope Z_scope.

(** ** The rows *)

Record Rows := mkRows {
  rw_leases : list (RuntimeId * NodeLease);
  rw_placements : list PlacementEntry;
  rw_instances : list CellInstance;
  rw_specs : list CellDeployment;
  rw_deaths : list RootDeath;
}.

(** A change that succeeds: a removal is of the row of its generation, a record
    replaces the root's last one. *)
Definition apply_hygiene (r : Rows) (e : HygieneOp * bool) : Rows :=
  let '(op, ok) := e in
  if ok then
    match op with
    | RecordDeath sri g reason =>
        mkRows (rw_leases r) (rw_placements r) (rw_instances r) (rw_specs r)
          (List.filter (fun d => negb (rd_sri d =? sri)) (rw_deaths r) ++ [mkDeath sri g reason])
    | EmitLost _ _ _ _ => r
    | RemovePlacement sri g =>
        mkRows (rw_leases r) (List.filter (fun c => negb ((pe_sri c =? sri) && bool_decide (pe_gen c = g))) (rw_placements r))
          (rw_instances r) (rw_specs r) (rw_deaths r)
    | RemoveInstance sri g =>
        mkRows (rw_leases r) (rw_placements r)
          (List.filter (fun i => negb ((ci_sri i =? sri) && bool_decide (ci_gen i = g))) (rw_instances r))
          (rw_specs r) (rw_deaths r)
    | DeregisterExec _ => r
    | DeleteLease id =>
        mkRows (List.filter (fun e => negb (e.1 =? id)) (rw_leases r)) (rw_placements r) (rw_instances r) (rw_specs r) (rw_deaths r)
    end
  else r.

(** The rows a redeployed root gets are written by its deployment. *)
Definition apply_restart (r : Rows) (op : RestartOp) : Rows :=
  match op with
  | Deploy _ => r
  | EraseSpec sri =>
      mkRows (rw_leases r) (rw_placements r) (rw_instances r)
        (List.filter (fun s => negb (cd_sri s =? sri)) (rw_specs r)) (rw_deaths r)
  | ClearDeath sri =>
      mkRows (rw_leases r) (rw_placements r) (rw_instances r) (rw_specs r)
        (List.filter (fun d => negb (rd_sri d =? sri)) (rw_deaths r))
  end.

Section Loop.
Context (id_str : RuntimeId -> str) (timing : SupervisionTiming).

Definition scan_pass (now : Instant) (answer : nat -> bool) (r : Rows) (restarts : RestartInput) : PassInput :=
  mkPass (Some (rw_leases r)) now (Some (rw_placements r)) true (Some (rw_instances r)) answer restarts.

Definition scan_restarts (now : Instant) (outcome : Sri -> DeployOutcome) (r : Rows) : RestartInput :=
  mkRestartInput (Some (rw_specs r)) (Some (rw_deaths r)) (Some (rw_placements r)) (Some (rw_instances r)) now outcome.

Definition leader_pass (now : Instant) (answer : nat -> bool) (outcome : Sri -> DeployOutcome) (st : Rows * Watcher)
    : list RestartOp * (Rows * Watcher) :=
  let '(r, w) := st in
  let '(tr, _, _) := watch_pass id_str timing (scan_pass now answer r quiet_restarts) w in
  let r1 := fold_left apply_hygiene tr r in
  let '(_, ops, w') := watch_pass id_str timing (scan_pass now answer r (scan_restarts now outcome r1)) w in
  (ops, (fold_left apply_restart ops r1, w')).

(** The silence a pass at this time sees. *)
Definition seen_by (now : Instant) (r : Rows) (w : Watcher) : gmap RuntimeId Duration :=
  let w := mkWatcher (observe_all (rw_leases r) now (wt_tracker w)) (wt_gate w) (wt_absence w) (wt_budget w) (wt_sweep w) in
  (watch_silence id_str timing (rw_leases r) now (omap placement_node (rw_placements r)) w).1.1.1.

End Loop.

(** ** A root lost with its node *)

Lemma apply_hygiene_specs tr r : rw_specs (fold_left apply_hygiene tr r) = rw_specs r.
Proof.
  revert r. induction tr as [|[op ok] tr IH]; intros r; cbn; [done|]. rewrite IH. destruct ok, op; done.
Qed.

Lemma apply_hygiene_placements tr r c :
  c ∈ rw_placements (fold_left apply_hygiene tr r) <->
  c ∈ rw_placements r /\ (RemovePlacement (pe_sri c) (pe_gen c), true) ∉ tr.
Proof.
  revert r. induction tr as [|[op ok] tr IH]; intros r; cbn [fold_left].
  - split; [|by intros [? _]]. intros ?. split; [done|by intros ?%elem_of_nil].
  - rewrite IH, not_elem_of_cons. clear IH. destruct ok; [|cbn; naive_solver].
    destruct op as [| |sri g| | |]; cbn; try naive_solver.
    rewrite (list_elem_of_In (List.filter _ _)), filter_In, <-list_elem_of_In, negb_true_iff, andb_false_iff.
    rewrite Z.eqb_neq, bool_decide_eq_false. split.
    + intros [[Hc Hne] Hn]. split; [done|]. split; [|done]. intros [= <- <-]. by destruct Hne.
    + intros [Hc [Hne Hn]]. split; [|done]. split; [done|].
      destruct (decide (pe_sri c = sri)) as [<-|]; [right|by left]. intros <-. by apply Hne.
Qed.

Lemma apply_hygiene_deaths tr r :
  NoDup (map rd_sri (rw_deaths r)) -> NoDup (map rd_sri (rw_deaths (fold_left apply_hygiene tr r))).
Proof.
  revert r. induction tr as [|[op ok] tr IH]; intros r Hnd; cbn; [done|]. apply IH. destruct ok; [|done].
  destruct op as [sri g reason| | | | |]; cbn; try done. rewrite map_app. apply NoDup_app.
  assert (forall d, d ∈ map rd_sri (List.filter (fun d => negb (rd_sri d =? sri)) (rw_deaths r)) -> d ≠ sri) as Hne.
  { intros d (x & -> & Hx)%list_elem_of_fmap. apply list_elem_of_In, filter_In in Hx as [_ Hx].
    by apply negb_true_iff, Z.eqb_neq in Hx. }
  split; [|split; [by intros d Hd%Hne ?%list_elem_of_singleton|apply NoDup_singleton]].
  clear IH Hne. induction (rw_deaths r) as [|d l IH]; cbn; [constructor|]. apply NoDup_cons in Hnd as [Hd Hnd].
  destruct (negb (rd_sri d =? sri)); cbn; [|auto]. apply NoDup_cons. split; [|auto].
  intros (x & Hx & Hin)%list_elem_of_fmap. apply Hd. apply list_elem_of_fmap. exists x. split; [done|].
  apply list_elem_of_In, filter_In in Hin as [Hin _]. by apply list_elem_of_In.
Qed.

Lemma apply_hygiene_recorded tr r sri g :
  (RecordDeath sri g NodeLost, true) ∈ tr ->
  (forall g' reason ok, (RecordDeath sri g' reason, ok) ∈ tr -> reason = NodeLost) ->
  exists g', mkDeath sri g' NodeLost ∈ rw_deaths (fold_left apply_hygiene tr r).
Proof.
  induction tr as [|[op ok] tr IH] using rev_ind; [by intros ?%elem_of_nil|]. intros Hin Hall.
  rewrite fold_left_app. cbn. rewrite elem_of_app, list_elem_of_singleton in Hin.
  destruct (decide (op = RecordDeath sri (match op with RecordDeath _ g' _ => g' | _ => g end) NodeLost /\ ok = true))
    as [[-> ->]|Hne].
  - eexists. cbn. apply elem_of_app. right. by apply list_elem_of_singleton.
  - destruct Hin as [Hin|[= <- <-]]; [|by destruct Hne].
    destruct IH as [g' Hg']; [done|intros ? ? ? ?; eapply Hall, elem_of_app; eauto|]. exists g'.
    destruct ok; [|done]. destruct op as [s gs rs| | | | |]; cbn; try done. apply elem_of_app. left.
    apply list_elem_of_In, filter_In. split; [by apply list_elem_of_In|]. cbn. apply negb_true_iff, Z.eqb_neq.
    intros ->. apply Hne. split; [|done]. f_equal. eapply Hall. apply elem_of_app. right. by apply list_elem_of_singleton.
Qed.

(** A death that calls for a restart within a fresh budget gets one. *)
Lemma plan_deaths_restart specs gens now deaths b sri g reason spec :
  NoDup (map rd_sri deaths) -> mkDeath sri g reason ∈ deaths -> specs !! sri = Some spec -> gens !! sri = None ->
  should_restart (rp_restart_type (cd_restart spec)) reason = true -> 0 < rp_max_restarts (cd_restart spec) -> b !! sri = None ->
  sri ∈ pl_restart (fold_left (plan_death specs gens now) deaths (plan_nothing, b)).1.
Proof.
  intros Hnd (l1 & l2 & ->)%list_elem_of_split Hspec Hgen Hshould Hmax Hb.
  rewrite map_app in Hnd. apply NoDup_app in Hnd as (_ & Hdisj & Hnd). cbn in Hnd. apply NoDup_cons in Hnd as [Hl2 _].
  rewrite fold_left_app. cbn [fold_left].
  destruct (plan_deaths_other specs gens now sri l1 (plan_nothing, b)) as (H1 & _ & _).
  { intros Hin. apply (Hdisj _ Hin). by left. }
  destruct (fold_left _ l1 _) as [plan1 b1]. cbn in H1. rewrite Hb in H1.
  set (st := plan_death specs gens now (plan1, b1) _).
  destruct (plan_deaths_other specs gens now sri l2 st Hl2) as (_ & H2 & _).
  destruct (decide (sri ∈ pl_restart (fold_left (plan_death specs gens now) l2 st).1)) as [?|Hn]; [done|exfalso].
  apply occurrences_nil in Hn. rewrite H2 in Hn. apply occurrences_nil in Hn. apply Hn. subst st.
  unfold plan_death. cbn [rd_sri rd_gen rd_reason]. rewrite Hspec, Hgen, Hshould. unfold attempt_ready, allow. rewrite H1. cbn.
  rewrite (proj2 (Z.leb_gt _ _)) by (cbn; lia). cbn. apply elem_of_app. right. by apply list_elem_of_singleton.
Qed.

Lemma process_restarts_deploy specs deaths placements instances now outcome b sweep sri g reason spec :
  NoDup (map rd_sri deaths) -> mkDeath sri g reason ∈ deaths -> spec_by_sri specs !! sri = Some spec ->
  placement_gens placements !! sri = None ->
  should_restart (rp_restart_type (cd_restart spec)) reason = true -> 0 < rp_max_restarts (cd_restart spec) -> b !! sri = None ->
  deploys_of sri (process_root_restarts (mkRestartInput (Some specs) (Some deaths) (Some placements) (Some instances) now outcome)
    b sweep).1.1 = [spec].
Proof.
  intros Hnd Hin Hspec Hgen Hshould Hmax Hb. unfold process_root_restarts.
  cbn [ri_specs ri_deaths ri_placements ri_instances ri_now ri_deploy].
  pose proof (plan_deaths_restart _ _ now _ _ _ _ _ _ Hnd Hin Hspec Hgen Hshould Hmax Hb) as Hr.
  destruct specs as [|s0 specs]; [done|]. cbv beta iota. set (sp := s0 :: specs) in *.
  destruct (plan_root_restarts sp deaths placements instances b sweep now) as [[plan b1] sweep1] eqn:Hplan.
  assert (sri ∈ pl_restart plan) as Hr'.
  { unfold plan_root_restarts in Hplan. destruct (fold_left _ deaths _) as [plan1 b0]. destruct (confirm _ _) as [confirmed sw].
    destruct (drop_confirmed confirmed plan1 b0) as (Hr2 & _). destruct (fold_left _ confirmed _) as [plan2 b2].
    cbn in Hr2. injection Hplan as <- <- <-. by rewrite Hr2. }
  apply (plan_restarts_fate _ _ _ _ _ _ _ _ _ _ sri Hnd) in Hplan.
  destruct Hplan as [_ Hn _|spec' ? ? Hspec' _ _ _ _ _ Hocc _|_ _ Hn _]; [done| |done].
  destruct (redeploys_self (spec_by_sri sp) outcome sri ltac:(intros s x Hx; by apply spec_by_sri_self in Hx as [? _])
    (pl_restart plan) [] b1 spec Hocc Hspec eq_refl) as [_ Hdep].
  destruct (fold_left (redeploy _ _) _ _) as [ops b2]. cbn [fst] in Hdep |- *. rewrite !deploys_of_app, !deploys_of_none by done.
  by rewrite !app_nil_r.
Qed.

Lemma placement_gens_none placements sri : sri ∉ map pe_sri placements -> placement_gens placements !! sri = None.
Proof.
  intros Hn. destruct (placement_gens placements !! sri) as [g|] eqn:Hg; [|done]. exfalso. apply Hn.
  apply collect_map_in, list_elem_of_fmap in Hg as (c & [= -> _] & Hin). apply list_elem_of_fmap. eauto.
Qed.

Lemma unique_placement placements c c' :
  NoDup (map pe_sri placements) -> c ∈ placements -> c' ∈ placements -> pe_sri c = pe_sri c' -> c = c'.
Proof.
  intros Hnd [i Hi]%list_elem_of_lookup [j Hj]%list_elem_of_lookup Heq. assert (i = j) as ->; [|congruence].
  eapply NoDup_lookup; [exact Hnd| |]; rewrite list_lookup_fmap; [by rewrite Hi|by rewrite Hj, Heq].
Qed.

(** With every change succeeding, hygiene records the death of a dead root and releases its row. *)
Lemma hygiene_releases_root answer silence ready r tracker timing c inst :
  (forall k, answer k = true) -> NoDup (map pe_sri (rw_placements r)) -> c ∈ rw_placements r ->
  declared_dead silence (rw_placements r) (rw_instances r) (node_ttls_of tracker (rw_placements r)) timing (pe_sri c) ->
  by_sri (rw_instances r) !! pe_sri c = Some inst -> ln_parent (ci_lineage inst) = None ->
  let tr := (run_hygiene answer (Some (rw_instances r)) silence ready (rw_placements r) tracker timing).1 in
  (RecordDeath (pe_sri c) (ci_gen inst) NodeLost, true) ∈ tr /\ (RemovePlacement (pe_sri c) (pe_gen c), true) ∈ tr /\
  forall g reason ok, (RecordDeath (pe_sri c) g reason, ok) ∈ tr -> reason = NodeLost.
Proof.
  intros Hans Hnd Hc Hdead Hinst Hpar tr.
  destruct (run_hygiene_ops answer (rw_instances r) silence ready (rw_placements r) tracker timing) as (t' & Heq & _).
  set (plan := plan_hygiene _ _ _ _ _ _) in Heq. assert (pe_sri c ∈ hp_release_cells plan) as Hrel by by apply release_iff.
  assert (forall op, op ∈ hygiene_ops answer (rw_instances r) (rw_placements r) plan -> (op, true) ∈ tr) as Hin.
  { intros op [k Hk]%list_elem_of_lookup. subst tr. rewrite Heq. cbn [fst]. rewrite perform_all_imap.
    apply list_elem_of_lookup. exists k. by rewrite list_lookup_imap, Hk, <-(Hans k). }
  assert (forall n m, answered answer n m = true) as Hall.
  { intros n m. apply forallb_forall. auto. }
  split; [|split].
  - apply Hin. apply elem_of_app. left. apply list_elem_of_omap. exists (pe_sri c). split; [done|]. rewrite Hinst. cbn. by rewrite Hpar.
  - apply Hin. unfold hygiene_ops. rewrite Hall. apply elem_of_app. right. apply elem_of_app. right. apply elem_of_app. left.
    apply list_elem_of_omap. exists (pe_sri c). split; [done|]. unfold placement_gens.
    assert (NoDup (map fst (map (fun c => (pe_sri c, pe_gen c)) (rw_placements r)))) as Hnd' by by rewrite map_map.
    rewrite (proj2 (collect_map_nodup _ (pe_sri c) (pe_gen c) Hnd')); [done|apply list_elem_of_fmap; eauto].
  - intros g reason ok [k Hk]%list_elem_of_lookup. apply hygiene_trace in Hk as (insts & _ & _ & Hop%list_elem_of_lookup_2).
    by apply hygiene_deaths in Hop.
Qed.

(** C16. A root lost with its node is redeployed in the pass that declares it
    dead.  When a leader's pass sees the node of a root silent for the root's
    deadline and for twice the renewal time, the root's policy restarts lost
    roots and its budget is unused, and the changes of the pass succeed, then
    the pass records the death, releases the root's row and, scanning the rows
    again, redeploys the root from its spec, once. *)
Theorem lost_root_redeployed id_str timing now outcome r w c node inst spec silent :
  NoDup (map pe_sri (rw_placements r)) -> NoDup (map rd_sri (rw_deaths r)) ->
  c ∈ rw_placements r -> placement_node c = Some node ->
  by_sri (rw_instances r) !! pe_sri c = Some inst -> ln_parent (ci_lineage inst) = None ->
  seen_by id_str timing now r w !! node = Some silent -> min_deadline timing <= silent ->
  deadline (by_sri (rw_instances r)) (node_ttls_of (observe_all (rw_leases r) now (wt_tracker w)) (rw_placements r))
    timing (pe_sri c) node <= silent ->
  spec_by_sri (rw_specs r) !! pe_sri c = Some spec ->
  should_restart (rp_restart_type (cd_restart spec)) NodeLost = true -> 0 < rp_max_restarts (cd_restart spec) ->
  wt_budget w !! pe_sri c = None ->
  deploys_of (pe_sri c) (leader_pass id_str timing now (fun _ => true) outcome (r, w)).1 = [spec].
Proof.
  intros Hnd Hndd Hc Hnode Hinst Hpar Hsil Hmin Hdl Hspec Hshould Hmax Hb.
  unfold leader_pass, watch_pass, scan_pass, seen_by in *.
  cbn [pi_leases pi_cells pi_leader pi_now pi_answer pi_instances pi_restarts wt_budget wt_sweep wt_gate wt_absence] in *.
  destruct (watch_silence _ _ _ _ _ _) as [[[silence ready] gate] absence]. cbn [fst] in Hsil.
  assert (hygiene_called timing silence ready = true) as ->.
  { unfold hygiene_called. apply orb_true_iff. right. apply existsb_exists. exists (node, silent).
    split; [by apply list_elem_of_In, elem_of_map_to_list|]. by apply Z.leb_le. }
  set (tracker := observe_all _ _ _) in *.
  assert (declared_dead silence (rw_placements r) (rw_instances r) (node_ttls_of tracker (rw_placements r)) timing (pe_sri c)) as Hdead.
  { by exists c, node, silent. }
  destruct (hygiene_releases_root (fun _ => true) silence ready r tracker timing c inst) as (Hrec & Hrem & Hall); [done..|].
  destruct (run_hygiene _ _ _ _ _ _ _) as [tr t']. cbn [fst] in Hrec, Hrem, Hall.
  destruct (process_root_restarts quiet_restarts _ _) as [[ops0 b0] s0].
  destruct (apply_hygiene_recorded tr r _ _ Hrec Hall) as [g Hg].
  assert (placement_gens (rw_placements (fold_left apply_hygiene tr r)) !! pe_sri c = None) as Hgone.
  { apply placement_gens_none. intros (c' & Hsri & [Hc' Hno]%apply_hygiene_placements)%list_elem_of_fmap.
    apply Hno. by rewrite <-(unique_placement _ _ _ Hnd Hc Hc' Hsri). }
  pose proof (process_restarts_deploy (rw_specs (fold_left apply_hygiene tr r)) _
    (rw_placements (fold_left apply_hygiene tr r)) (rw_instances (fold_left apply_hygiene tr r)) now outcome (wt_budget w) (wt_sweep w) _ _ _ spec
    (apply_hygiene_deaths tr r Hndd) Hg) as Hdep.
  rewrite apply_hygiene_specs in Hdep. specialize (Hdep Hspec Hgone Hshould Hmax Hb).
  unfold scan_restarts. rewrite apply_hygiene_specs. by destruct (process_root_restarts _ _ _) as [[ops b'] s'].
Qed.

(** A root on a node that went silent, with a spec that always restarts it. *)
Definition lost_rows : Rows :=
  mkRows [(2, mkLease [] 7 45000)] [mkPlacement 7 (Wasm 2) None (mkGen 1 1)]
    [mkInstance 7 [] (mkGen 1 1) (mkLineage None None false None None None)] [sample_spec] [].
(** The watcher that has seen the node's lease at ten seconds. *)
Definition lost_watcher : Watcher :=
  (watch_pass sample_id_str TIMING_DEFAULT (scan_pass (from_secs 10) (fun _ => true) lost_rows quiet_restarts)
    (watcher_new TIMING_DEFAULT 0)).2.

Lemma lost_root_redeployed_witness :
  deploys_of 7 (leader_pass sample_id_str TIMING_DEFAULT (from_secs 80) (fun _ => true) (fun _ => Deployed)
    (lost_rows, lost_watcher)).1 = [sample_spec].
Proof.
  apply (lost_root_redeployed sample_id_str TIMING_DEFAULT (from_secs 80) (fun _ => Deployed) lost_rows lost_watcher
    (mkPlacement 7 (Wasm 2) None (mkGen 1 1)) 2 (mkInstance 7 [] (mkGen 1 1) (mkLineage None None false None None None))
    sample_spec (from_secs 70)).
  - apply NoDup_singleton.
  - apply NoDup_nil_2.
  - by left.
  - done.
  - done.
  - done.
  - vm_compute. reflexivity.
  - vm_compute. congruence.
  - vm_compute. congruence.
  - done.
  - done.
  - done.
  - vm_compute. reflexivity.
Defined.

(** The first change of the pass fails, the others do not. *)
Definition first_fails (k : nat) : bool := match k with O => false | _ => true end.

(** When the record of its death fails, a root lost with its node is given
    up.  The pass that declares the root dead fails to record its death and
    still releases its rows; no later pass redeploys it although every change
    of theirs succeeds and its policy always restarts it, and the second of
    them drops its spec as that of a root removed on purpose. *)
Theorem unrecorded_death_gives_up :
  let pass now answer := leader_pass sample_id_str TIMING_DEFAULT now answer (fun _ => Deployed) in
  let '(ops1, st1) := pass (from_secs 80) first_fails (lost_rows, lost_watcher) in
  let '(ops2, st2) := pass (from_secs 90) (fun _ => true) st1 in
  let '(ops3, st3) := pass (from_secs 100) (fun _ => true) st2 in
  ops1 = [] /\ rw_placements st1.1 = [] /\ rw_instances st1.1 = [] /\ rw_deaths st1.1 = [] /\
  ops2 = [EraseSpec 7] /\ rw_specs st2.1 = [] /\ ops3 = [] /\ rp_restart_type (cd_restart sample_spec) = Always.
Proof. vm_compute. repeat split; reflexivity. Qed.
