(* ===== verification/Skew.v ===== *)
(** * The clock-skew watch

    [ClockSkewWatch] of [src/swarm/sorg-common/src/supervision.rs]: from the
    wall-clock readings in the lease rows of its peers, a node decides whether
    its own clock disagrees with most of theirs. *)

From S2P Require Import Prelude Bytes Domain Store Supervision.
From Stdlib Require Import ZArith Lia Strings.Byte Sorting.Sorted.
From stdpp Require Import base list option gmap sets fin_maps.

Local Open Scope Z_scope.

Definition i64_max : Z := 2 ^ 63 - 1.
Definition i64_min : Z := - 2 ^ 63.
Definition i64_saturating_sub (a b : Z) : Z := Z.max i64_min (Z.min i64_max (a - b)).
(** [i64::try_from(x).unwrap_or(i64::MAX)] of an unsigned number *)
Definition i64_try (x : Z) : Z := if x <=? i64_max then x else i64_max.
Definition u32_saturating_add (a b : Z) : Z := Z.min (a + b) u32_max.

Definition SKEW_MARGIN_MS : Z := 5000.
Definition CONFIRM_PASSES : Z := 2.
Definition REPEAT_PASSES : Z := 30.
Definition VERDICT_WINDOW_MIN_MS : Z := 36000.
Definition VERDICT_WINDOW_MAX_MS : Z := 120000.
Definition PLAUSIBLE_EPOCH_MS_MAX : Z := 4000000000000.
Definition PLAUSIBLE_EPOCH_MS_MIN : Z := 1600000000000.

Inductive Direction := Ahead | Behind | InStep.
#[export] Instance Direction_eq_dec : EqDecision Direction. Proof. solve_decision. Defined.

Record PeerVerdict := mkVerdict { pv_direction : Direction; pv_margin_ms : Z; pv_expires_at : Instant }.
Record PeerState := mkPeerState { sp_seq : Z; sp_verdict : option PeerVerdict }.
Record SkewReport := mkReport { sr_offset_ms : Z; sr_peers : Z; sr_tracked : Z }.

Record ClockSkewWatch := mkSkewWatch {
  sw_peers : gmap RuntimeId PeerState;
  sw_last_scan : option Instant;
  sw_ahead_run : Z;
  sw_behind_run : Z;
  sw_since_report : option Z;
}.

Definition skew_new : ClockSkewWatch := mkSkewWatch ∅ None 0 0 None.

Definition plausible (ms : Z) : bool := (PLAUSIBLE_EPOCH_MS_MIN <=? ms) && (ms <=? PLAUSIBLE_EPOCH_MS_MAX).

(** The wall clock's milliseconds since the epoch, [None] before it. *)
Definition local_now_ms (since_epoch : option Duration) : option Z :=
  d ← since_epoch;
  let ms := as_millis d in
  if u64_max <? ms then None else if plausible ms then Some ms else None.

Definition peer_reading (own id : RuntimeId) (seq : Z) : option Z :=
  then_some (negb (id =? own) && plausible seq) seq.

Definition signed_diff_ms (local peer : Z) : Z :=
  if peer <=? local then i64_try (local - peer) else - i64_try (peer - local).

Definition margins (w : gmap RuntimeId PeerState) (dir : Direction) : list Z :=
  omap (fun '(_, peer) =>
    v ← sp_verdict peer; if bool_decide (pv_direction v = dir) then Some (pv_margin_ms v) else None) (map_to_list w).

(** [Iterator::max] and [Iterator::min] *)
Definition max_margin (l : list Z) : option Z :=
  match l with [] => None | x :: l => Some (fold_left Z.max l x) end.
Definition min_margin (l : list Z) : option Z :=
  match l with [] => None | x :: l => Some (fold_left Z.min l x) end.

Definition clamp (x lo hi : Z) : Z := Z.min hi (Z.max lo x).

(** The verdict of an advancing reading. *)
Definition judge (local reading bound : Z) : Direction * Z :=
  let offset := signed_diff_ms local reading in
  if SKEW_MARGIN_MS <? i64_saturating_sub offset bound then (Ahead, i64_saturating_sub offset bound)
  else if offset <? - SKEW_MARGIN_MS then (Behind, offset)
  else (InStep, 0).

(** The scan so far: the peers, who was present, and whether a direction got a fresh vote. *)
Record SampleState := mkSample {
  ss_peers : gmap RuntimeId PeerState;
  ss_present : gset RuntimeId;
  ss_fresh_ahead : bool;
  ss_fresh_behind : bool;
}.

Definition sample_row (own : RuntimeId) (local_now_ms : option Z) (now : Instant) (bound : option Z)
    (s : SampleState) (row : RuntimeId * Z * Z) : SampleState :=
  let '(id, seq, ttl_ms) := row in
  match peer_reading own id seq with
  | None => s
  | Some reading =>
      let present := {[id]} ∪ ss_present s in
      let put p a b := mkSample (<[id := p]> (ss_peers s)) present a b in
      match ss_peers s !! id with
      | None => put (mkPeerState reading None) (ss_fresh_ahead s) (ss_fresh_behind s)
      | Some peer =>
          if reading <=? sp_seq peer then put (mkPeerState reading (sp_verdict peer)) (ss_fresh_ahead s) (ss_fresh_behind s)
          else
            match local_now_ms, bound with
            | Some local, Some bound =>
                let '(direction, margin_ms) := judge local reading bound in
                let window := from_millis (clamp ttl_ms VERDICT_WINDOW_MIN_MS VERDICT_WINDOW_MAX_MS) in
                put (mkPeerState reading (Some (mkVerdict direction margin_ms (now + window))))
                  (match direction with Ahead => true | _ => ss_fresh_ahead s end)
                  (match direction with Behind => true | _ => ss_fresh_behind s end)
            | _, _ => put (mkPeerState reading (sp_verdict peer)) (ss_fresh_ahead s) (ss_fresh_behind s)
            end
      end
  end.

(** Verdicts that ran out go; so do peers neither judged nor present. *)
Definition retain_peer (now : Instant) (present : gset RuntimeId) (id : RuntimeId) (peer : PeerState) : option PeerState :=
  let verdict := v ← sp_verdict peer; if pv_expires_at v <=? now then None else Some v in
  if bool_decide (is_Some verdict) || bool_decide (id ∈ present) then Some (mkPeerState (sp_seq peer) verdict) else None.

Definition step_run (run : Z) (majority fresh : bool) : Z :=
  if negb majority then 0 else if fresh then u32_saturating_add run 1 else run.

Definition decide_report (fresh_ahead fresh_behind : bool) (w : ClockSkewWatch) : option SkewReport * ClockSkewWatch :=
  let peers := sw_peers w in
  let tracked := Z.of_nat (length (List.filter (fun e => bool_decide (is_Some (sp_verdict e.2))) (map_to_list peers))) in
  let ahead_votes := Z.of_nat (length (margins peers Ahead)) in
  let behind_votes := Z.of_nat (length (margins peers Behind)) in
  let ahead_majority := tracked <? ahead_votes * 2 in
  let behind_majority := tracked <? behind_votes * 2 in
  let ahead_run := step_run (sw_ahead_run w) ahead_majority fresh_ahead in
  let behind_run := step_run (sw_behind_run w) behind_majority fresh_behind in
  let since_report :=
    if (ahead_majority && fresh_ahead) || (behind_majority && fresh_behind)
    then (fun n => u32_saturating_add n 1) <$> sw_since_report w else sw_since_report w in
  let w' since := mkSkewWatch peers (sw_last_scan w) ahead_run behind_run since in
  let winner :=
    if ahead_majority && fresh_ahead && (CONFIRM_PASSES <=? ahead_run)
    then (fun m => (ahead_votes, m)) <$> max_margin (margins peers Ahead)
    else if behind_majority && fresh_behind && (CONFIRM_PASSES <=? behind_run)
    then (fun m => (behind_votes, m)) <$> min_margin (margins peers Behind)
    else None in
  match winner with
  | None => (None, w' since_report)
  | Some (votes, margin) =>
      if match since_report with None => true | Some n => REPEAT_PASSES <=? n end
      then (Some (mkReport margin votes tracked), w' (Some 0))
      else (None, w' since_report)
  end.

Definition sample (own : RuntimeId) (local_now_ms : option Z) (now : Instant) (rows : list (RuntimeId * Z * Z))
    (w : ClockSkewWatch) : option SkewReport * ClockSkewWatch :=
  let bound := (fun prev => i64_try (as_millis (instant_since now prev))) <$> sw_last_scan w in
  let s := fold_left (sample_row own local_now_ms now bound) rows (mkSample (sw_peers w) ∅ false false) in
  let peers := map_imap (retain_peer now (ss_present s)) (ss_peers s) in
  decide_report (ss_fresh_ahead s) (ss_fresh_behind s)
    (mkSkewWatch peers (Some now) (sw_ahead_run w) (sw_behind_run w) (sw_since_report w)).

(** * What a skew report says about the clocks

    Clocks that run at one rate, apart by fixed offsets: when a node reports
    that its clock disagrees, the clocks of most of the peers it tracks differ
    from its own by what it says, up to the rounding to milliseconds and the
    lag of a scan. *)

Section Clocks.
(** The node, the offset of its wall clock and of those of its peers against
    the monotonic time of its scans, and how late a scan may read. *)
Context (own : RuntimeId) (own_off : Z) (off : RuntimeId -> Z) (lag : Duration).
(** The lease row a scan at a time sees of a node: when it was written, and its time to live. *)
Context (row_at : Instant -> RuntimeId -> option (Instant * Z)).

Definition wall (o : Z) (t : Instant) : Z := as_millis (t + o).

(** By how much the node's clock is ahead of a peer's. *)
Definition ahead_of (id : RuntimeId) : Duration := own_off - off id.

Record Scan := mkScan { sc_now : Instant; sc_local : option Z; sc_rows : list (RuntimeId * Z * Z) }.

(** A scan sees the rows as they are, written by the clocks of their nodes, and
    the node's own clock when it can be read. *)
Definition faithful (s : Scan) : Prop :=
  (forall local, sc_local s = Some local -> local = wall own_off (sc_now s) /\ plausible local = true) /\
  forall id seq ttl, (id, seq, ttl) ∈ sc_rows s <-> exists u, row_at (sc_now s) id = Some (u, ttl) /\ seq = wall (off id) u.

(** Rows are not read from the future, and one that was not there at an earlier
    time was written after it. *)
Definition rows_in_order : Prop :=
  (forall t id u ttl, row_at t id = Some (u, ttl) -> u <= t + lag) /\
  (forall t t' id u ttl, t <= t' -> row_at t' id = Some (u, ttl) -> t <= u \/ row_at t id = Some (u, ttl)).

Context (Horder : rows_in_order).

(** What a verdict on a peer says of its clock. *)
Definition honest (id : RuntimeId) (v : PeerVerdict) : Prop :=
  match pv_direction v with
  | Ahead => SKEW_MARGIN_MS < pv_margin_ms v /\ from_millis (pv_margin_ms v - 2) < ahead_of id
  | Behind => pv_margin_ms v < - SKEW_MARGIN_MS /\ ahead_of id < from_millis (pv_margin_ms v + 1) + lag
  | InStep => True
  end.

Definition verdicts_honest (peers : gmap RuntimeId PeerState) : Prop :=
  forall id p v, peers !! id = Some p -> sp_verdict p = Some v -> honest id v.

(** The peers known are those a scan showed, at their last reading. *)
Definition known_at (t : Instant) (peers : gmap RuntimeId PeerState) : Prop :=
  forall id u ttl, row_at t id = Some (u, ttl) -> id ≠ own -> plausible (wall (off id) u) = true ->
    exists p, peers !! id = Some p /\ sp_seq p = wall (off id) u.

Lemma signed_diff_exact a b : plausible a = true -> plausible b = true -> signed_diff_ms a b = a - b.
Proof.
  unfold plausible, signed_diff_ms, i64_try, PLAUSIBLE_EPOCH_MS_MIN, PLAUSIBLE_EPOCH_MS_MAX, i64_max.
  rewrite !andb_true_iff, !Z.leb_le. intros Ha Hb.
  destruct (Z.leb_spec b a); match goal with |- context [?x <=? ?y] => destruct (Z.leb_spec x y) end; lia.
Qed.

Lemma judge_honest id now prev u exp :
  prev <= now -> prev <= u -> u <= now + lag ->
  plausible (wall own_off now) = true -> plausible (wall (off id) u) = true ->
  let '(dir, margin) := judge (wall own_off now) (wall (off id) u) (i64_try (as_millis (instant_since now prev))) in
  honest id (mkVerdict dir margin exp).
Proof.
  intros Hprev Hu Hlag Hl Hr. unfold judge. rewrite signed_diff_exact by done.
  assert (0 <= as_millis (instant_since now prev)) as Hb0.
  { unfold as_millis, instant_since. apply Z.div_pos; lia. }
  unfold honest, ahead_of, i64_try, i64_saturating_sub, SKEW_MARGIN_MS, i64_max, i64_min in *.
  unfold plausible, PLAUSIBLE_EPOCH_MS_MIN, PLAUSIBLE_EPOCH_MS_MAX in Hl, Hr.
  rewrite !andb_true_iff, !Z.leb_le in Hl, Hr.
  unfold wall, as_millis, from_millis, instant_since in *. replace (Z.max 0 (now - prev)) with (now - prev) in * by lia.
  set (bound := if _ <=? _ then _ else _).
  assert (bound = (now - prev) / 10 ^ 6 \/ bound = 2 ^ 63 - 1) as Hbound by (subst bound; destruct (_ <=? _); auto).
  clearbody bound.
  match goal with |- context [5000 <? ?x] => destruct (Z.ltb_spec 5000 x) as [H1|H1] end.
  - destruct Hbound as [->| ->]; cbn -[Z.pow]; [dlia|exfalso; lia].
  - match goal with |- context [?x <? ?y] => destruct (Z.ltb_spec x y) as [H2|H2] end; cbn -[Z.pow]; [dlia|done].
Qed.

(** ** One scan *)

(** The peers in the middle of a scan: those met so far stand at the row shown, the others as before. *)
Definition scanned (now : Instant) (before : gmap RuntimeId PeerState) (s : SampleState) : Prop :=
  verdicts_honest (ss_peers s) /\
  forall id,
    (id ∈ ss_present s /\ exists u ttl p, row_at now id = Some (u, ttl) /\ ss_peers s !! id = Some p /\ sp_seq p = wall (off id) u) \/
    (id ∉ ss_present s /\ ss_peers s !! id = before !! id).

Definition scan_after (last : option Instant) (now : Instant) (before : gmap RuntimeId PeerState) : Prop :=
  match last with Some prev => prev <= now /\ known_at prev before | None => True end.

Lemma scanned_put now before s id u ttl p a b :
  scanned now before s -> row_at now id = Some (u, ttl) -> sp_seq p = wall (off id) u ->
  (forall v, sp_verdict p = Some v -> honest id v) ->
  scanned now before (mkSample (<[id := p]> (ss_peers s)) ({[id]} ∪ ss_present s) a b).
Proof.
  intros [Hv Hs] Hrow Hseq Hp. split; cbn.
  - intros id' p' v. destruct (decide (id' = id)) as [->|Hne]; [rewrite lookup_insert_eq|rewrite lookup_insert_ne by done; apply Hv].
    intros [= <-]. apply Hp.
  - intros id'. destruct (decide (id' = id)) as [->|Hne].
    + left. split; [set_solver|]. rewrite lookup_insert_eq. eauto 10.
    + rewrite lookup_insert_ne by done. destruct (Hs id') as [[Hin Hx]|[Hin Hx]]; [left|right]; (split; [set_solver|done]).
Qed.

Lemma sample_row_scanned sc last before s row :
  faithful sc -> scan_after last (sc_now sc) before -> row ∈ sc_rows sc -> scanned (sc_now sc) before s ->
  scanned (sc_now sc) before
    (sample_row own (sc_local sc) (sc_now sc)
      ((fun prev => i64_try (as_millis (instant_since (sc_now sc) prev))) <$> last) s row).
Proof.
  intros [Hloc Hrows] Hafter Hin Hs. destruct row as [[id seq] ttl]. apply Hrows in Hin as (u & Hrow & ->).
  unfold sample_row, peer_reading, then_some. destruct (negb (id =? own)) eqn:Hown; [|done]. cbn [andb].
  apply negb_true_iff, Z.eqb_neq in Hown. destruct (plausible (wall (off id) u)) eqn:Hpl; [|done].
  assert (forall p v, ss_peers s !! id = Some p -> sp_verdict p = Some v -> honest id v) as Hold by (intros; by eapply Hs).
  destruct (ss_peers s !! id) as [p|] eqn:Hp; [|by eapply scanned_put].
  destruct (Z.leb_spec (wall (off id) u) (sp_seq p)) as [Hle|Hgt]; [by eapply scanned_put; eauto|].
  destruct (sc_local sc) as [local|]; [|by eapply scanned_put; eauto].
  destruct last as [prev|]; [|by eapply scanned_put; eauto]. cbn [fmap option_fmap option_map].
  destruct (Hloc _ eq_refl) as [-> Hlp]. destruct Hafter as [Hprev Hknown]. destruct Horder as [Hlag Hlin].
  assert (prev <= u) as Hu.
  { destruct (Hlin _ _ _ _ _ Hprev Hrow) as [?|Hsame]; [done|exfalso].
    destruct (Hknown _ _ _ Hsame Hown Hpl) as (p0 & Hp0 & Hseq0).
    destruct Hs as [_ Hs]. destruct (Hs id) as [(_ & u' & ttl' & p' & Hrow' & Hp' & Hseq')|[_ Hp']].
    - assert (p' = p) as -> by congruence. assert (u' = u) as -> by congruence. lia.
    - assert (p0 = p) as -> by congruence. lia. }
  pose proof (judge_honest id (sc_now sc) prev u) as Hj.
  destruct (judge _ _ _) as [dir margin]. eapply scanned_put; try done. cbn. intros v [= <-]. apply Hj; try done. by eapply Hlag.
Qed.

Lemma sample_rows_scanned sc last before rows s :
  faithful sc -> scan_after last (sc_now sc) before -> (forall row, row ∈ rows -> row ∈ sc_rows sc) -> scanned (sc_now sc) before s ->
  let s' := fold_left (sample_row own (sc_local sc) (sc_now sc)
    ((fun prev => i64_try (as_millis (instant_since (sc_now sc) prev))) <$> last)) rows s in
  scanned (sc_now sc) before s' /\
  forall id, id ∈ ss_present s \/ (exists seq ttl, (id, seq, ttl) ∈ rows /\ id ≠ own /\ plausible seq = true) -> id ∈ ss_present s'.
Proof.
  intros Hf Ha. revert s. induction rows as [|row rows IH]; intros s Hin Hs; cbn.
  - split; [done|]. by intros id [?|(? & ? & ?%elem_of_nil & _)].
  - destruct (IH (sample_row own (sc_local sc) (sc_now sc)
      ((fun prev => i64_try (as_millis (instant_since (sc_now sc) prev))) <$> last) s row)) as [H1 H2].
    { intros r Hr. apply Hin, elem_of_cons. by right. }
    { eapply sample_row_scanned; try done. apply Hin, elem_of_cons. by left. }
    split; [exact H1|]. intros id Hid. apply H2. clear IH H1 H2.
    assert (forall id, id ∈ ss_present s \/ (exists seq ttl, row = (id, seq, ttl) /\ id ≠ own /\ plausible seq = true) ->
      id ∈ ss_present (sample_row own (sc_local sc) (sc_now sc)
        ((fun prev => i64_try (as_millis (instant_since (sc_now sc) prev))) <$> last) s row)) as Hstep.
    { clear id Hid. intros id Hid. destruct row as [[i seq] ttl]. unfold sample_row, peer_reading, then_some.
      destruct (negb (i =? own)) eqn:Hi; cbn [andb].
      - destruct (plausible seq) eqn:Hpl.
        + assert (id ∈ {[i]} ∪ ss_present s) as Hgoal by (destruct Hid as [?|(? & ? & [= -> -> ->] & _)]; set_solver).
          repeat (first [done|case_match]).
        + destruct Hid as [?|(? & ? & [= -> -> ->] & _ & ?)]; [done|congruence].
      - destruct Hid as [?|(? & ? & [= -> -> ->] & ? & _)]; [done|]. apply negb_false_iff, Z.eqb_eq in Hi. done. }
    destruct Hid as [Hid|(seq & ttl & Hrow & Hne & Hpl)]; [left; by apply Hstep; left|].
    apply elem_of_cons in Hrow as [<-|Hrow]; [left; apply Hstep; right; eauto|right; eauto 10].
Qed.

(** ** The verdicts after a scan *)

Definition settled (last : option Instant) (w : ClockSkewWatch) : Prop :=
  sw_last_scan w = last /\ verdicts_honest (sw_peers w) /\ match last with Some t => known_at t (sw_peers w) | None => True end.

Lemma retained_honest now present peers :
  verdicts_honest peers -> verdicts_honest (map_imap (retain_peer now present) peers).
Proof.
  intros Hv id p v. rewrite map_lookup_imap. destruct (peers !! id) as [p0|] eqn:Hp; cbn; [|done].
  unfold retain_peer. case_match; [|done]. intros [= <-]. cbn. destruct (sp_verdict p0) as [v0|] eqn:Hv0; cbn; [|done].
  case_match; [done|]. intros [= <-]. by eapply Hv.
Qed.

Lemma decide_report_peers fa fb w : sw_peers (decide_report fa fb w).2 = sw_peers w /\ sw_last_scan (decide_report fa fb w).2 = sw_last_scan w.
Proof. unfold decide_report. repeat case_match; done. Qed.

Lemma sample_settled sc last w :
  faithful sc -> settled last w -> (forall prev, last = Some prev -> prev <= sc_now sc) ->
  settled (Some (sc_now sc)) (sample own (sc_local sc) (sc_now sc) (sc_rows sc) w).2 /\
  verdicts_honest (sw_peers (sample own (sc_local sc) (sc_now sc) (sc_rows sc) w).2).
Proof.
  intros Hf (Hl & Hv & Hk) Hle. unfold sample. rewrite Hl.
  destruct (sample_rows_scanned sc last (sw_peers w) (sc_rows sc) (mkSample (sw_peers w) ∅ false false)) as [[Hh Hs] Hp]; [done| |done| |].
  { destruct last as [prev|]; cbn; auto. }
  { split; cbn; [done|]. intros id. right. split; [set_solver|done]. }
  set (s' := fold_left _ _ _) in *. set (peers := map_imap _ _).
  destruct (decide_report_peers (ss_fresh_ahead s') (ss_fresh_behind s')
    (mkSkewWatch peers (Some (sc_now sc)) (sw_ahead_run w) (sw_behind_run w) (sw_since_report w))) as [Heq Hls].
  cbn in Heq, Hls. unfold settled. rewrite Heq, Hls. assert (verdicts_honest peers) as Hhon by by apply retained_honest.
  repeat split; try done. intros id u ttl Hrow Hown Hpl. subst peers. rewrite map_lookup_imap.
  assert (id ∈ ss_present s') as Hpres.
  { apply Hp. right. exists (wall (off id) u), ttl. split; [|done]. apply Hf. eauto. }
  destruct (Hs id) as [(_ & u' & ttl' & p & Hrow' & Hlook & Hseq)|[Hn _]]; [|done].
  rewrite Hlook. cbn. unfold retain_peer. rewrite (bool_decide_eq_true_2 (id ∈ ss_present s')) by done.
  rewrite orb_true_r. eexists; split; [done|]. cbn. assert (u' = u) as -> by congruence. done.
Qed.

(** ** Reports *)

Definition voters (peers : gmap RuntimeId PeerState) (dir : Direction) : list RuntimeId :=
  omap (fun '(id, peer) =>
    v ← sp_verdict peer; if bool_decide (pv_direction v = dir) then Some id else None) (map_to_list peers).

Lemma voters_length peers dir : length (voters peers dir) = length (margins peers dir).
Proof.
  unfold voters, margins. induction (map_to_list peers) as [|[id p] l IH]; cbn; [done|].
  destruct (sp_verdict p); cbn; [|done]. case_bool_decide; cbn; by rewrite IH.
Qed.

Lemma voters_nodup peers dir : NoDup (voters peers dir).
Proof.
  unfold voters. pose proof (NoDup_fst_map_to_list peers) as Hnd. induction (map_to_list peers) as [|[id p] l IH]; cbn; [constructor|].
  cbn in Hnd. apply NoDup_cons in Hnd as [Hid Hnd]. destruct (sp_verdict p) as [v|]; cbn; [|auto]. case_bool_decide; [|auto].
  apply NoDup_cons. split; [|auto]. intros ([i q] & Hin & Hq)%list_elem_of_omap. destruct (sp_verdict q); cbn in Hq; [|done].
  case_bool_decide; simplify_eq. apply Hid. apply list_elem_of_fmap. by exists (id, q).
Qed.

Lemma voters_honest peers dir id :
  verdicts_honest peers -> id ∈ voters peers dir -> exists v, pv_direction v = dir /\ honest id v.
Proof.
  intros Hv ([i p] & Hin & Hp)%list_elem_of_omap. destruct (sp_verdict p) as [v|] eqn:Hsp; cbn in Hp; [|done].
  case_bool_decide; simplify_eq. exists v. split; [done|]. eapply Hv; [by apply elem_of_map_to_list|done].
Qed.

Lemma margins_voter peers dir m :
  verdicts_honest peers -> m ∈ margins peers dir ->
  exists id v, id ∈ voters peers dir /\ pv_direction v = dir /\ pv_margin_ms v = m /\ honest id v.
Proof.
  intros Hv ([i p] & Hin & Hp)%list_elem_of_omap. destruct (sp_verdict p) as [v|] eqn:Hsp; cbn in Hp; [|done].
  case_bool_decide as Hd; simplify_eq. exists i, v. split; [|split; [done|split; [done|]]].
  - apply list_elem_of_omap. exists (i, p). rewrite Hsp. cbn. by rewrite bool_decide_eq_true_2.
  - eapply Hv; [by apply elem_of_map_to_list|done].
Qed.

Lemma fold_pick (f : Z -> Z -> Z) l x : (forall a b, f a b = a \/ f a b = b) -> fold_left f l x ∈ x :: l.
Proof.
  intros Hf. revert x. induction l as [|y l IH]; intros x; cbn; [by left|].
  specialize (IH (f x y)). apply elem_of_cons in IH as [IH|IH].
  - rewrite IH. destruct (Hf x y) as [->| ->]; rewrite !elem_of_cons; auto.
  - rewrite !elem_of_cons. auto.
Qed.

Lemma max_of_in l m : max_margin l = Some m -> m ∈ l.
Proof. destruct l as [|x l]; [done|]. intros [= <-]. apply fold_pick. lia. Qed.
Lemma min_of_in l m : min_margin l = Some m -> m ∈ l.
Proof. destruct l as [|x l]; [done|]. intros [= <-]. apply fold_pick. lia. Qed.

(** What a report is backed by. *)
Definition backed (r : SkewReport) : Prop :=
  exists ids, NoDup ids /\ Z.of_nat (length ids) = sr_peers r /\ sr_tracked r < 2 * sr_peers r /\
    ((SKEW_MARGIN_MS < sr_offset_ms r /\
      (forall id, id ∈ ids -> from_millis (SKEW_MARGIN_MS - 1) < ahead_of id) /\
      exists id, id ∈ ids /\ from_millis (sr_offset_ms r - 2) < ahead_of id) \/
     (sr_offset_ms r < - SKEW_MARGIN_MS /\
      (forall id, id ∈ ids -> ahead_of id < from_millis (- SKEW_MARGIN_MS) + lag) /\
      exists id, id ∈ ids /\ ahead_of id < from_millis (sr_offset_ms r + 1) + lag)).

Lemma ahead_backed peers tracked m :
  verdicts_honest peers -> tracked < Z.of_nat (length (margins peers Ahead)) * 2 -> max_margin (margins peers Ahead) = Some m ->
  backed (mkReport m (Z.of_nat (length (margins peers Ahead))) tracked).
Proof.
  intros Hv Ht (id & v & Hin & Hd & Hm & Hh)%max_of_in%margins_voter; [|done].
  exists (voters peers Ahead). cbn. rewrite voters_length. split; [apply voters_nodup|]. split; [done|]. split; [lia|].
  left. unfold honest in Hh. rewrite Hd, Hm in Hh. destruct Hh as [H1 H2]. split; [done|]. split; [|eauto].
  intros i (v' & Hd' & Hh)%voters_honest; [|done]. unfold honest in Hh. rewrite Hd' in Hh. unfold from_millis in *. lia.
Qed.

Lemma behind_backed peers tracked m :
  verdicts_honest peers -> tracked < Z.of_nat (length (margins peers Behind)) * 2 -> min_margin (margins peers Behind) = Some m ->
  backed (mkReport m (Z.of_nat (length (margins peers Behind))) tracked).
Proof.
  intros Hv Ht (id & v & Hin & Hd & Hm & Hh)%min_of_in%margins_voter; [|done].
  exists (voters peers Behind). cbn. rewrite voters_length. split; [apply voters_nodup|]. split; [done|]. split; [lia|].
  right. unfold honest in Hh. rewrite Hd, Hm in Hh. destruct Hh as [H1 H2]. split; [done|]. split; [|eauto].
  intros i (v' & Hd' & Hh)%voters_honest; [|done]. unfold honest in Hh. rewrite Hd' in Hh. unfold from_millis in *. lia.
Qed.

Lemma decide_report_backed fa fb w r w' :
  verdicts_honest (sw_peers w) -> decide_report fa fb w = (Some r, w') -> backed r.
Proof.
  intros Hv. unfold decide_report. set (peers := sw_peers w) in *. set (tracked := Z.of_nat (length (List.filter _ _))).
  set (since := if _ || _ then _ else _).
  destruct (_ && _ && (CONFIRM_PASSES <=? step_run (sw_ahead_run w) _ _)) eqn:Ha.
  - apply andb_true_iff in Ha as [[Ha _]%andb_true_iff _]. apply Z.ltb_lt in Ha.
    destruct (max_margin (margins peers Ahead)) as [m|] eqn:Hm; cbn; [|done]. case_match; intros [= <- _]. by apply ahead_backed.
  - destruct (_ && _ && (CONFIRM_PASSES <=? step_run (sw_behind_run w) _ _)) eqn:Hb; [|done].
    apply andb_true_iff in Hb as [[Hb _]%andb_true_iff _]. apply Z.ltb_lt in Hb.
    destruct (min_margin (margins peers Behind)) as [m|] eqn:Hm; cbn; [|done]. case_match; intros [= <- _]. by apply behind_backed.
Qed.

(** ** Any scans *)

Fixpoint skew_run (scans : list Scan) (w : ClockSkewWatch) : list (option SkewReport) :=
  match scans with
  | [] => []
  | sc :: scans =>
      let '(r, w) := sample own (sc_local sc) (sc_now sc) (sc_rows sc) w in r :: skew_run scans w
  end.

Lemma sample_backed sc last w r :
  faithful sc -> settled last w -> (forall prev, last = Some prev -> prev <= sc_now sc) ->
  (sample own (sc_local sc) (sc_now sc) (sc_rows sc) w).1 = Some r -> backed r.
Proof.
  intros Hf Hset Hle. destruct (sample_settled sc last w Hf Hset Hle) as [_ Hv]. unfold sample in *.
  rewrite (proj1 (decide_report_peers _ _ _)) in Hv. intros Hr. destruct (decide_report _ _ _) as [r0 w1] eqn:Hd.
  cbn [fst] in Hr. subst r0. by eapply decide_report_backed.
Qed.

Lemma skew_run_backed scans last w :
  settled last w -> match last with Some t => StronglySorted Z.le (t :: map sc_now scans) | None => StronglySorted Z.le (map sc_now scans) end ->
  Forall faithful scans -> forall k r, skew_run scans w !! k = Some (Some r) -> backed r.
Proof.
  revert last w. induction scans as [|sc scans IH]; intros last w Hset Hsort Hall k r; [done|].
  apply Forall_cons in Hall as [Hf Hall]. cbn [skew_run].
  assert ((forall prev, last = Some prev -> prev <= sc_now sc) /\ StronglySorted Z.le (sc_now sc :: map sc_now scans)) as [Hle Hsort'].
  { destruct last as [t|]; [|done]. apply StronglySorted_inv in Hsort as [Hsort Hle]. cbn in Hsort, Hle.
    split; [|done]. intros prev [= <-]. by apply Forall_cons in Hle as [? _]. }
  pose proof (sample_backed sc last w) as Hb. pose proof (sample_settled sc last w Hf Hset Hle) as [Hset' _].
  destruct (sample _ _ _ _ _) as [r0 w0]. cbn [fst snd] in *.
  destruct k as [|k]; cbn; [intros [= ->]; by eapply Hb|]. by eapply (IH (Some (sc_now sc))).
Qed.

(** ** How often *)

Lemma decide_report_since fa fb w n :
  sw_since_report w = Some n ->
  match decide_report fa fb w with
  | (Some _, w') => REPEAT_PASSES <= n + 1 /\ sw_since_report w' = Some 0
  | (None, w') => exists n', sw_since_report w' = Some n' /\ n' <= n + 1
  end.
Proof.
  intros Hn. unfold decide_report. rewrite Hn. set (inc := if _ || _ then _ else _).
  assert (exists n', inc = Some n' /\ n' <= n + 1) as (n' & -> & Hle).
  { subst inc. destruct (_ || _); [exists (u32_saturating_add n 1)|exists n]; (split; [done|]); [unfold u32_saturating_add|]; lia. }
  set (winner := if _ && _ && _ then _ else _). destruct winner as [[votes margin]|]; [|cbn; eauto].
  destruct (Z.leb_spec REPEAT_PASSES n'); cbn; [split; [lia|done]|eauto].
Qed.

Lemma decide_report_reset fa fb w r w' : decide_report fa fb w = (Some r, w') -> sw_since_report w' = Some 0.
Proof. unfold decide_report. repeat (case_match; try done). all: intros [= _ <-]; done. Qed.

Lemma skew_run_since scans w n k r :
  sw_since_report w = Some n -> skew_run scans w !! k = Some (Some r) -> REPEAT_PASSES <= n + Z.of_nat k + 1.
Proof.
  revert w n k. induction scans as [|sc scans IH]; intros w n k Hn; [done|]. cbn [skew_run]. unfold sample.
  set (w0 := mkSkewWatch _ _ _ _ _). pose proof (decide_report_since) as Hd.
  match goal with |- context [decide_report ?a ?b w0] => specialize (Hd a b w0 n Hn); destruct (decide_report a b w0) as [r0 w1] end.
  destruct k as [|k]; cbn.
  - intros [= ->]. lia.
  - intros Hk. destruct r0 as [r0|].
    + destruct Hd as [H30 H0]. specialize (IH _ _ _ H0 Hk). unfold REPEAT_PASSES in *. lia.
    + destruct Hd as (n' & Hn' & Hle). specialize (IH _ _ _ Hn' Hk). lia.
Qed.

Lemma skew_run_spaced scans w i j r r' :
  (i < j)%nat -> skew_run scans w !! i = Some (Some r) -> skew_run scans w !! j = Some (Some r') -> (30 <= j - i)%nat.
Proof.
  revert w i j. induction scans as [|sc scans IH]; intros w i j Hij; [done|]. cbn [skew_run]. unfold sample.
  match goal with |- context [decide_report ?a ?b ?w] => destruct (decide_report a b w) as [r0 w1] eqn:Hd end.
  destruct j as [|j]; [lia|]. destruct i as [|i]; cbn.
  - intros [= ->] Hj. apply decide_report_reset in Hd. pose proof (skew_run_since _ _ _ _ _ Hd Hj) as H.
    unfold REPEAT_PASSES in H. lia.
  - intros Hi Hj. specialize (IH w1 i j ltac:(lia) Hi Hj). lia.
Qed.

End Clocks.

(** A skew report is true of the clocks.  Let clocks run at one rate, apart
    by fixed offsets, let lease rows carry their writer's clock, and let no scan
    read later than the lag or miss a row that an earlier one showed until a
    newer is written.  Over any scans at times that do not go back, whatever
    rows come and go: for a report of an offset beyond the margin there are as
    many peers as it names, more than half of those it counts, from whose
    clocks the node's own is truly apart in that direction by more than the
    margin, and one by what it reports, up to two milliseconds and the lag; and
    two reports are thirty scans apart or more. *)
Theorem skew_reports_true own own_off off lag row_at scans :
  rows_in_order lag row_at -> StronglySorted Z.le (map sc_now scans) -> Forall (faithful own_off off row_at) scans ->
  (forall k r, skew_run own scans skew_new !! k = Some (Some r) -> backed own_off off lag r) /\
  forall i j r r', (i < j)%nat -> skew_run own scans skew_new !! i = Some (Some r) ->
    skew_run own scans skew_new !! j = Some (Some r') -> (30 <= j - i)%nat.
Proof.
  intros Hord Hsort Hall. split; [|intros; by eapply skew_run_spaced].
  eapply (skew_run_backed own own_off off lag row_at Hord scans None); [|done|done].
  split; [done|]. split; [|done]. by intros id p v.
Qed.

(** A node whose clock is twenty seconds ahead of its one peer's, which renews every ten seconds. *)
Definition epoch : Z := 1700000000 * 10 ^ 9.
Definition skew_row_at (t : Instant) (id : RuntimeId) : option (Instant * Z) :=
  if id =? 2 then Some (t / from_secs 10 * from_secs 10, 45000) else None.
Definition skew_off (id : RuntimeId) : Z := epoch - from_secs 20.
Definition skew_scan (t : Instant) : Scan :=
  mkScan t (Some (wall epoch t)) [(2, wall (skew_off 2) (t / from_secs 10 * from_secs 10), 45000)].
Abbreviation skew_scans := (map skew_scan [from_secs 1; from_secs 11; from_secs 21; from_secs 31]) (only parsing).

Lemma skew_scan_faithful t : plausible (wall epoch t) = true -> faithful epoch skew_off skew_row_at (skew_scan t).
Proof.
  intros Hp. split; [by intros local [= <-]|]. intros id seq ttl. cbn. rewrite list_elem_of_singleton. unfold skew_row_at. split.
  - intros [= -> -> ->]. eauto.
  - intros (u & Hu & ->). destruct (Z.eqb_spec id 2) as [->|]; [|done]. by injection Hu as <- <-.
Qed.

Lemma skew_reports_true_witness :
  skew_run 1 skew_scans skew_new = [None; None; Some (mkReport 11000 1 1); None] /\
  backed epoch skew_off 0 (mkReport 11000 1 1).
Proof.
  split; [vm_compute; reflexivity|].
  refine (proj1 (skew_reports_true 1 epoch skew_off 0 skew_row_at skew_scans _ _ _) 2%nat _ _).
  - split.
    + intros t id u ttl. unfold skew_row_at, from_secs. destruct (id =? 2); [|done]. intros [= <- <-]. dlia.
    + intros t t' id u ttl Hle. unfold skew_row_at, from_secs. destruct (id =? 2); [|done]. intros [= <- <-].
      destruct (Z.le_gt_cases t (t' / (10 * 10 ^ 9) * (10 * 10 ^ 9))) as [?|Hgt]; [by left|right].
      do 2 f_equal. dlia.
  - repeat constructor; vm_compute; congruence.
  - repeat (apply Forall_cons; split; [by apply skew_scan_faithful|]). by apply Forall_nil.
  - vm_compute. reflexivity.
Defined.
