(* ===== verification/SpawnTree.v ===== *)
(** * The spawn gate and the spawn tree

    [src/swarm/sorg-common/src/cells/spawn_gate.rs]: whether a spawn may take a
    name that has an instance row, who has authority over a cell, and the cells
    a termination cascades to.  The walk below a cell has no bound of its own;
    it runs here with fuel, and the fuel it needs is proved to be enough where
    the walk ends. *)

From S2P Require Import Prelude Bytes Domain Store Supervision Hygiene LeaseFacts HygieneFacts.
From Stdlib Require Import ZArith Lia Strings.Byte.
From stdpp Require Import base list option gmap sets.

Local Open Scope Z_scope.

(** ** The gate *)

Record ExistingInstance := mkExisting { ei_detached : bool; ei_parent_gen : option Gen }.
Inductive LeaseView := Live | Expired.
Record ExistingPlacement := mkExistingPlacement { ep_lease : LeaseView }.
Inductive GateDecision := Admit | AlreadyExists | Supersede.

Definition evaluate_spawn_gate (existing : option ExistingInstance) (placement : option ExistingPlacement)
    (caller_gen : option Gen) : GateDecision :=
  match existing with
  | None => Admit
  | Some existing =>
      let placement_live :=
        match placement with Some p => match ep_lease p with Expired => false | Live => true end | None => false end in
      if negb placement_live then Supersede
      else if ei_detached existing then AlreadyExists
      else match ei_parent_gen existing, caller_gen with
           | Some row_parent, Some caller => if bool_decide (row_parent = caller) then AlreadyExists else Supersede
           | _, _ => AlreadyExists
           end
  end.

(** ** Authority *)

Fixpoint walk_up (fuel : nat) (instances : gmap Sri CellInstance) (ancestor current : Sri) : bool :=
  match fuel with
  | O => false
  | Datatypes.S fuel =>
      if current =? ancestor then true
      else match instances !! current ≫= fun i => ln_parent (ci_lineage i) with
           | Some parent => walk_up fuel instances ancestor parent
           | None => false
           end
  end.
Definition is_self_or_descendant (instances : gmap Sri CellInstance) (ancestor target : Sri) : bool :=
  walk_up 64 instances ancestor target.

(** ** The subtree *)

Definition children_of (instances : list CellInstance) : gmap Sri (list CellInstance) :=
  fold_left (fun m i =>
    match ln_parent (ci_lineage i) with
    | Some parent => <[parent := default [] (m !! parent) ++ [i]]> m
    | None => m
    end) instances ∅.

(** The frontier is a stack, its top first. *)
Fixpoint subtree_loop (fuel : nat) (children : gmap Sri (list CellInstance)) (frontier out : list Sri) : option (list Sri) :=
  match fuel with
  | O => None
  | Datatypes.S fuel =>
      match frontier with
      | [] => Some out
      | current :: frontier =>
          match children !! current with
          | None => subtree_loop fuel children frontier out
          | Some kids =>
              let kids := map ci_sri (List.filter (fun kid => negb (ln_detached (ci_lineage kid))) kids) in
              subtree_loop fuel children (rev kids ++ frontier) (out ++ kids)
          end
      end
  end.
Definition collect_subtree (fuel : nat) (instances : list CellInstance) (root : Sri) : option (list Sri) :=
  subtree_loop fuel (children_of instances) [root] [].

(** ** What the walks find *)

(** The cell a number of edges above. *)
Fixpoint above (n : nat) (instances : gmap Sri CellInstance) (sri : Sri) : option Sri :=
  match n with
  | O => Some sri
  | Datatypes.S n =>
      match instances !! sri ≫= fun i => ln_parent (ci_lineage i) with Some p => above n instances p | None => None end
  end.

Lemma walk_up_spec fuel instances ancestor target :
  walk_up fuel instances ancestor target = true <-> exists n, (n < fuel)%nat /\ above n instances target = Some ancestor.
Proof.
  revert target. induction fuel as [|fuel IH]; intros target; cbn; [split; [done|intros (n & ? & _); lia]|].
  destruct (Z.eqb_spec target ancestor) as [->|Hne].
  - split; [|done]. intros _. exists 0%nat. split; [lia|done].
  - destruct (instances !! target ≫= _) as [parent|] eqn:Hp.
    + rewrite IH. split.
      * intros (n & Hn & Ha). exists (Datatypes.S n). split; [lia|]. cbn. by rewrite Hp.
      * intros ([|n] & Hn & Ha); [by injection Ha|]. cbn in Ha. rewrite Hp in Ha. exists n. split; [lia|done].
    + split; [done|]. intros ([|n] & Hn & Ha); [by injection Ha|]. cbn in Ha. by rewrite Hp in Ha.
Qed.

(** An edge a termination goes down. *)
Definition attached_to (instances : list CellInstance) (parent child : Sri) : Prop :=
  exists i, i ∈ instances /\ ci_sri i = child /\ ln_parent (ci_lineage i) = Some parent /\ ln_detached (ci_lineage i) = false.

Definition below (instances : list CellInstance) : Sri -> Sri -> Prop := tc (attached_to instances).

Lemma children_of_lookup instances p :
  default [] (children_of instances !! p) = List.filter (fun i => bool_decide (ln_parent (ci_lineage i) = Some p)) instances.
Proof.
  unfold children_of. induction instances as [|i l IH] using rev_ind; [done|].
  rewrite fold_left_app, List.filter_app. cbn. destruct (ln_parent (ci_lineage i)) as [q|] eqn:Hq; cbn.
  - destruct (decide (q = p)) as [->|Hne].
    + rewrite lookup_insert_eq. cbn. rewrite IH. by rewrite bool_decide_eq_true_2.
    + rewrite lookup_insert_ne by done. rewrite IH, bool_decide_eq_false_2 by congruence. by rewrite app_nil_r.
  - rewrite IH, bool_decide_eq_false_2 by done. by rewrite app_nil_r.
Qed.

Definition kids_of (instances : list CellInstance) (p : Sri) : list Sri :=
  map ci_sri (List.filter (fun kid => negb (ln_detached (ci_lineage kid))) (default [] (children_of instances !! p))).

Lemma kids_of_spec instances p x : x ∈ kids_of instances p <-> attached_to instances p x.
Proof.
  unfold kids_of, attached_to. rewrite children_of_lookup, list_elem_of_fmap. setoid_rewrite list_elem_of_In.
  setoid_rewrite filter_In. setoid_rewrite filter_In. setoid_rewrite bool_decide_eq_true. setoid_rewrite negb_true_iff.
  naive_solver.
Qed.

Lemma kids_of_nodup instances p : NoDup (map ci_sri instances) -> NoDup (kids_of instances p).
Proof.
  intros Hnd. unfold kids_of. rewrite children_of_lookup.
  assert (forall (f : CellInstance -> bool) l, NoDup (map ci_sri l) -> NoDup (map ci_sri (List.filter f l))) as Hf.
  { intros f l. induction l as [|i l IH]; cbn; [done|]. intros [Hi Hl]%NoDup_cons. destruct (f i); cbn; [|auto].
    apply NoDup_cons. split; [|auto]. intros (j & Hj & Hin)%list_elem_of_fmap. apply Hi, list_elem_of_fmap. exists j.
    split; [done|]. apply list_elem_of_In, filter_In in Hin as [Hin _]. by apply list_elem_of_In. }
  by apply Hf, Hf.
Qed.

Lemma subtree_loop_step fuel instances current frontier out :
  subtree_loop (Datatypes.S fuel) (children_of instances) (current :: frontier) out =
  subtree_loop fuel (children_of instances) (rev (kids_of instances current) ++ frontier) (out ++ kids_of instances current).
Proof.
  cbn. unfold kids_of. destruct (children_of instances !! current); cbn; [done|]. by rewrite app_nil_r.
Qed.

Section Subtree.
Context (instances : list CellInstance) (root : Sri).
Context (Hnd : NoDup (map ci_sri instances)) (Hacyclic : ~ below instances root root).

Lemma attached_unique p q x : attached_to instances p x -> attached_to instances q x -> p = q.
Proof.
  intros (i & Hi & Hxi & Hp & _) (j & Hj & Hxj & Hq & _). assert (i = j) as ->; [|congruence].
  apply list_elem_of_lookup in Hi as [a Ha], Hj as [b Hb]. assert (a = b) as ->; [|congruence].
  apply (NoDup_lookup _ a b x Hnd); rewrite list_lookup_fmap; [rewrite Ha|rewrite Hb]; cbn; by f_equal.
Qed.

Lemma attached_listed p x : attached_to instances p x -> x ∈ map ci_sri instances.
Proof. intros (i & Hi & <- & _). apply list_elem_of_fmap. eauto. Qed.

(** The walk so far: the cells popped, the frontier, and the cells found. *)
Record walked (popped frontier out : list Sri) : Prop := {
  wk_perm : root :: out ≡ₚ popped ++ frontier;
  wk_nodup : NoDup (root :: out);
  wk_parents : forall x, x ∈ out -> exists p, p ∈ popped /\ attached_to instances p x;
  wk_closed : forall p x, p ∈ popped -> attached_to instances p x -> x ∈ out;
  wk_below : forall x, x ∈ out -> below instances root x;
  wk_order : forall i x p, out !! i = Some x -> attached_to instances p x -> p = root \/ exists j, (j < i)%nat /\ out !! j = Some p;
}.

Lemma walked_start : walked [] [root] [].
Proof.
  split; try done.
  - apply NoDup_singleton.
  - by intros x ?%elem_of_nil.
  - by intros p x ?%elem_of_nil.
  - by intros x ?%elem_of_nil.
Qed.

Lemma walked_current popped c frontier out :
  walked popped (c :: frontier) out -> (c = root \/ c ∈ out) /\ c ∉ popped.
Proof.
  intros [Hperm Hn _ _ _ _]. split.
  - apply elem_of_cons. rewrite Hperm. apply elem_of_app. right. by left.
  - rewrite Hperm in Hn. apply NoDup_app in Hn as (_ & Hdis & _). intros Hc. apply (Hdis _ Hc). by left.
Qed.

Lemma walked_kid popped c frontier out x :
  walked popped (c :: frontier) out -> x ∈ kids_of instances c -> below instances root x /\ x ∉ root :: out.
Proof.
  intros Hw Hx%kids_of_spec. destruct (walked_current _ _ _ _ Hw) as [Hc Hnp].
  assert (below instances root x) as Hbelow.
  { destruct Hc as [->|Hc]; [by apply tc_once|]. eapply tc_r; [by eapply wk_below|done]. }
  split; [done|]. intros [->|Hin]%elem_of_cons; [done|].
  destruct (wk_parents _ _ _ Hw _ Hin) as (p & Hp & Hpx). by rewrite (attached_unique _ _ _ Hpx Hx) in Hp.
Qed.

Lemma walked_step popped c frontier out :
  walked popped (c :: frontier) out ->
  walked (c :: popped) (rev (kids_of instances c) ++ frontier) (out ++ kids_of instances c).
Proof.
  intros Hw. pose proof (walked_current _ _ _ _ Hw) as [Hc _]. pose proof (fun x => walked_kid _ _ _ _ x Hw) as Hkid.
  pose proof Hw as [Hperm Hn Hpar Hclo Hbel Hord]. split.
  - rewrite app_comm_cons, Hperm, <-Permutation_rev. solve_Permutation.
  - rewrite app_comm_cons. apply NoDup_app. split; [done|]. split; [|by apply kids_of_nodup].
    intros x Hx Hk. by apply (Hkid x Hk).
  - intros x [Hx|Hx]%elem_of_app.
    + destruct (Hpar _ Hx) as (p & Hp & ?). exists p. split; [by right|done].
    + exists c. split; [by left|by apply kids_of_spec].
  - intros p x [->|Hp]%elem_of_cons Hx; apply elem_of_app; [right; by apply kids_of_spec|left; by eapply Hclo].
  - intros x [Hx|Hx]%elem_of_app; [by apply Hbel|by apply Hkid].
  - intros i x p [Hi|[Hlen Hi]]%lookup_app_Some Hpx.
    + destruct (Hord _ _ _ Hi Hpx) as [?|(j & Hj & Hjp)]; [by left|]. right. exists j. split; [done|]. by apply lookup_app_l_Some.
    + apply list_elem_of_lookup_2, kids_of_spec in Hi. rewrite (attached_unique _ _ _ Hpx Hi).
      destruct Hc as [->|[j Hj]%list_elem_of_lookup]; [by left|]. right. exists j. pose proof (lookup_lt_Some _ _ _ Hj).
      split; [lia|by apply lookup_app_l_Some].
Qed.

Lemma walked_bound popped frontier out : walked popped frontier out -> (length popped + length frontier <= length instances + 1)%nat.
Proof.
  intros [Hperm Hn Hpar _ _ _]. rewrite <-length_app, <-Hperm. cbn. apply NoDup_cons in Hn as [_ Hn].
  assert (length out <= length (map ci_sri instances))%nat; [|rewrite length_map in *; lia].
  apply submseteq_length, NoDup_submseteq; [done|]. intros x (p & _ & Hp)%Hpar. by eapply attached_listed.
Qed.

Lemma subtree_loop_total fuel popped frontier out :
  walked popped frontier out -> (length instances + 2 <= fuel + length popped)%nat ->
  exists popped' out', subtree_loop fuel (children_of instances) frontier out = Some out' /\ walked popped' [] out'.
Proof.
  revert popped frontier out. induction fuel as [|fuel IH]; intros popped frontier out Hw Hfuel.
  - apply walked_bound in Hw. lia.
  - destruct frontier as [|c frontier]; [by exists popped, out|]. rewrite subtree_loop_step.
    eapply IH; [by apply walked_step|cbn; lia].
Qed.

Lemma walked_all popped out x : walked popped [] out -> below instances root x -> x ∈ out.
Proof.
  intros [Hperm _ _ Hclo _ _]. rewrite app_nil_r in Hperm.
  assert (forall a b, tc (attached_to instances) a b -> a ∈ root :: out -> b ∈ out) as H.
  { induction 1 as [a b Hab|a b c Hab _ IH]; intros Ha.
    - eapply Hclo; [by rewrite <-Hperm|done].
    - apply IH. apply elem_of_cons. right. eapply Hclo; [by rewrite <-Hperm|done]. }
  intros Hb. eapply H; [exact Hb|by left].
Qed.

Lemma collect_subtree_walked :
  exists popped out, collect_subtree (length instances + 2) instances root = Some out /\ walked popped [] out.
Proof. apply (subtree_loop_total _ []); [apply walked_start|cbn; lia]. Qed.

End Subtree.

(** C39. The cascade of a termination.  In a registry with one row to a cell,
    where the cell is not below itself, the walk below it ends: it gives each
    cell below it through attached edges once, no other, and every parent
    before its children. *)
Theorem collect_subtree_exact instances root :
  NoDup (map ci_sri instances) -> ~ below instances root root ->
  exists out, collect_subtree (length instances + 2) instances root = Some out /\ NoDup out /\
    (forall x, x ∈ out <-> below instances root x) /\
    forall i x p, out !! i = Some x -> attached_to instances p x -> p = root \/ exists j, (j < i)%nat /\ out !! j = Some p.
Proof.
  intros Hnd Hac. destruct (collect_subtree_walked instances root Hnd Hac) as (popped & out & Hc & Hw).
  exists out. split; [done|]. split; [by apply NoDup_cons_1_2 with root, (wk_nodup _ _ _ _ _ Hw)|]. split.
  - intros x. split; [by eapply wk_below|by eapply walked_all].
  - by eapply wk_order.
Qed.

Lemma below_first instances a b :
  below instances a b -> exists x, attached_to instances a x /\ (x = b \/ below instances x b).
Proof. intros H. destruct H as [a b Hab|a x b Hax Hxb]; eauto. Qed.

Lemma cycle_next instances c : below instances c c -> exists x, attached_to instances c x /\ below instances x x.
Proof.
  intros (x & Hx & [->|Hxc])%below_first; [exists c; split; [done|by apply tc_once]|].
  exists x. split; [done|]. by eapply tc_r.
Qed.

Lemma subtree_loop_cycle fuel instances frontier out c :
  c ∈ frontier -> below instances c c -> subtree_loop fuel (children_of instances) frontier out = None.
Proof.
  revert frontier out c. induction fuel as [|fuel IH]; intros frontier out c Hc Hb; [done|].
  destruct frontier as [|d frontier]; [by apply elem_of_nil in Hc|]. rewrite subtree_loop_step.
  apply elem_of_cons in Hc as [<-|Hc].
  - destruct (cycle_next _ _ Hb) as (x & Hx & Hbx). apply (IH _ _ x); [|done]. apply elem_of_app. left.
    apply list_elem_of_In, in_rev. rewrite rev_involutive. by apply list_elem_of_In, kids_of_spec.
  - apply (IH _ _ c); [|done]. apply elem_of_app. by right.
Qed.

(** The walk below a cell that lies below itself does not end, however long
    it runs, where the walk up of the same registry stops after 64 cells. *)
Theorem collect_subtree_diverges instances root fuel :
  below instances root root -> collect_subtree fuel instances root = None.
Proof. intros Hb. apply (subtree_loop_cycle _ _ _ _ root); [by left|done]. Qed.

(** Authority over a cell is that of the cells above it.  Through edges
    attached or detached, a cell has authority over another when it is at most
    63 edges above it, itself included; the walk up always ends. *)
Theorem authority_exact instances ancestor target :
  is_self_or_descendant instances ancestor target = true <->
  exists n, (n < 64)%nat /\ above n instances target = Some ancestor.
Proof. apply walk_up_spec. Qed.

Definition tree_cell (sri : Sri) (parent : option Sri) (detached : bool) : CellInstance :=
  mkInstance sri [] (mkGen 0 1) (mkLineage parent None detached None None None).

(** A root with two kids, a grandchild, and a detached branch. *)
Definition sample_tree : list CellInstance :=
  [tree_cell 1 None false; tree_cell 2 (Some 1) false; tree_cell 3 (Some 1) false; tree_cell 4 (Some 2) false;
   tree_cell 5 (Some 1) true; tree_cell 6 (Some 5) false].

Lemma sample_tree_acyclic : ~ below sample_tree 1 1.
Proof.
  intros H. assert (forall a b, below sample_tree a b -> a < b) as Hlt; [|specialize (Hlt _ _ H); lia].
  assert (forall a b, attached_to sample_tree a b -> a < b) as Hstep.
  { intros a b (i & Hi & <- & Hp & _). unfold sample_tree in Hi. rewrite !elem_of_cons, elem_of_nil in Hi.
    destruct Hi as [->|[->|[->|[->|[->|[->|[]]]]]]]; cbn in *; simplify_eq; lia. }
  induction 1 as [a b Hab|a x b Hax _ IH]; [by apply Hstep|]. specialize (Hstep _ _ Hax). lia.
Qed.

Lemma collect_subtree_exact_witness :
  collect_subtree 8 sample_tree 1 = Some [2; 3; 4] /\
  exists out, collect_subtree 8 sample_tree 1 = Some out /\ NoDup out /\
    (forall x, x ∈ out <-> below sample_tree 1 x) /\
    forall i x p, out !! i = Some x -> attached_to sample_tree p x -> p = 1 \/ exists j, (j < i)%nat /\ out !! j = Some p.
Proof.
  split; [vm_compute; reflexivity|].
  apply (collect_subtree_exact sample_tree 1); [|apply sample_tree_acyclic].
  apply (bool_decide_unpack _). vm_compute. exact I.
Defined.

Lemma collect_subtree_diverges_witness :
  collect_subtree 1000 [tree_cell 1 (Some 2) false; tree_cell 2 (Some 1) false] 1 = None.
Proof.
  apply (collect_subtree_diverges [tree_cell 1 (Some 2) false; tree_cell 2 (Some 1) false] 1 1000).
  eapply tc_l; [|apply tc_once].
  - exists (tree_cell 2 (Some 1) false). split; [by right; left|done].
  - exists (tree_cell 1 (Some 2) false). split; [by left|done].
Defined.
