(* ===== verification/Generations.v ===== *)
(** * Rows kept by generation

    [src/swarm/cell-protocol/src/generations.rs]: the keys under which the
    placement and the instance of each life of a cell are kept, and the newest
    of them.  How a cell's identifier prints and parses is the [uuid] library's;
    numbers in hexadecimal are written out. *)

From S2P Require Import Prelude Bytes Domain Kv Announce Store Supervision.
From Stdlib Require Import ZArith Lia Strings.Byte Sorting.Sorted.
From stdpp Require Import base list option sets strings.

Local Open Scope Z_scope.

(** ** Text *)

Class SriText := { sri_str : Sri -> str; sri_parse : str -> option Sri }.

Definition is_sri (s : Sri) : Prop := 0 <= s < 2 ^ 128.
Definition is_gen (g : Gen) : Prop := is_u64 (g_time g) /\ 0 <= g_id g < 2 ^ 128.

(** A printed identifier parses back, and has no slash. *)
Class SriTextLaws `{SriText} := {
  sri_parse_str : forall s, is_sri s -> sri_parse (sri_str s) = Some s;
  sri_no_slash : forall s, slash ∉ sri_str s;
}.

(** [{:0nx}] of a number of at most [n] digits *)
Definition hex_char (d : Z) : byte := z2b (if d <? 10 then 48 + d else 87 + d).
Fixpoint hex_digits (n : nat) (z : Z) : bytes :=
  match n with O => [] | Datatypes.S n => hex_digits n (z / 16) ++ [hex_char (z mod 16)] end.

(** [from_str_radix(s, 16)] of an unsigned type: a leading plus is accepted, and capitals. *)
Definition hex_value (b : byte) : option Z :=
  let c := b2z b in
  if (48 <=? c) && (c <=? 57) then Some (c - 48)
  else if (97 <=? c) && (c <=? 102) then Some (c - 87)
  else if (65 <=? c) && (c <=? 70) then Some (c - 55)
  else None.
Definition hex_number (s : bytes) : option Z :=
  fold_left (fun acc b => n ← acc; d ← hex_value b; Some (n * 16 + d)) s (Some 0).
Definition from_str_radix_16 (bits : Z) (s : bytes) : option Z :=
  match s with
  | [] => None
  | b :: rest =>
      let digits := if bool_decide (b = x2b) then match rest with [] => None | _ => Some rest end else Some s in
      n ← digits ≫= hex_number;
      if n <? 2 ^ bits then Some n else None
  end.

Fixpoint strip_prefix (p s : bytes) : option bytes :=
  match p, s with
  | [], _ => Some s
  | b :: p, c :: s => if bool_decide (b = c) then strip_prefix p s else None
  | _ :: _, [] => None
  end.

(** ** Keys *)

Definition GENERATIONS : str := lit "gen/".

Section Keys.
Context `{SriText}.

Definition generations_of (sri : Sri) : str := GENERATIONS ++ sri_str sri ++ [slash].
Definition generation_key (sri : Sri) (g : Gen) : str :=
  generations_of sri ++ hex_digits 16 (g_time g) ++ hex_digits 32 (g_id g).
Definition placement_claim_key (sri : Sri) : str := lit "claim/" ++ sri_str sri.

(** [get(..16)] off a character boundary is [None]: here the bytes on either side
    of such a cut are no hexadecimal digits. *)
Definition parse_generation_key (key : str) : option (Sri * Gen) :=
  rest ← strip_prefix GENERATIONS key;
  '(sri, gen_id) ← split_once slash rest;
  if negb (length gen_id =? 48)%nat then None
  else
    time ← from_str_radix_16 64 (take 16 gen_id);
    id ← from_str_radix_16 128 (drop 16 gen_id);
    sri ← sri_parse sri;
    Some (sri, mkGen time id).

(** ** Rows *)

Record PlacementRow := mkPlacementRow { pr_kind : PlacementKind; pr_app : option str }.
Record InstanceRow := mkInstanceRow { ir_class : bytes; ir_lineage : SpawnLineage }.

Definition placement_from_row (sri : Sri) (g : Gen) (row : PlacementRow) : PlacementEntry :=
  mkPlacement sri (pr_kind row) (pr_app row) g.
Definition placement_row (e : PlacementEntry) : PlacementRow := mkPlacementRow (pe_kind e) (pe_app e).
Definition instance_from_row (sri : Sri) (g : Gen) (row : InstanceRow) : CellInstance :=
  mkInstance sri (ir_class row) g (ir_lineage row).
Definition instance_row (i : CellInstance) : InstanceRow := mkInstanceRow (ci_class i) (ci_lineage i).

Inductive RowError := BadKey (key : str) | BadValue (key : str).

(** The newest generations met so far, by cell, and the keys that are of another shape. *)
Definition newest_step (st : list (Z * (Gen * str * bytes)) * list str) (e : str * bytes)
    : list (Z * (Gen * str * bytes)) * list str :=
  let '(newest, malformed) := st in
  let '(key, value) := e in
  match parse_generation_key key with
  | Some (sri, gen_id) =>
      (if match bt_get newest sri with None => true | Some (g, _, _) => gen_ltb g gen_id end
       then bt_insert newest sri (gen_id, key, value) else newest, malformed)
  | None => (newest, malformed ++ [key])
  end.

Definition newest {R T} `{Postcard R} (assemble : Sri -> Gen -> R -> T) (entries : list (str * bytes)) : list (res RowError T) :=
  let '(newest, malformed) := fold_left newest_step entries ([], []) in
  map (fun '(sri, (gen_id, key, value)) =>
    match from_bytes value with Some row => Ok (assemble sri gen_id row) | None => Err (BadValue key) end) newest ++
  map (fun key => Err (BadKey key)) malformed.

Definition newest_placements `{Postcard PlacementRow} (entries : list (str * bytes)) : list (res RowError PlacementEntry) :=
  newest placement_from_row entries.
Definition newest_instances `{Postcard InstanceRow} (entries : list (str * bytes)) : list (res RowError CellInstance) :=
  newest instance_from_row entries.

End Keys.

#[global] Arguments hex_number : simpl never.
#[global] Arguments from_str_radix_16 : simpl never.

(** ** Round trips *)

Lemma hex_digits_length n z : length (hex_digits n z) = n.
Proof. revert z. induction n as [|n IH]; intros z; cbn [hex_digits]; [done|]. rewrite length_app, IH. cbn. lia. Qed.

Lemma hex_value_char d : 0 <= d < 16 -> hex_value (hex_char d) = Some d.
Proof.
  intros Hd. assert (d ∈ [0;1;2;3;4;5;6;7;8;9;10;11;12;13;14;15]) as Hin.
  { rewrite !elem_of_cons, elem_of_nil. lia. }
  rewrite !elem_of_cons, elem_of_nil in Hin. by repeat (destruct Hin as [->|Hin]; [vm_compute; reflexivity|]).
Qed.

Lemma hex_number_snoc s b : hex_number (s ++ [b]) = n ← hex_number s; d ← hex_value b; Some (n * 16 + d).
Proof. unfold hex_number. by rewrite fold_left_app. Qed.

Lemma hex_number_digits n z : 0 <= z < 16 ^ Z.of_nat n -> hex_number (hex_digits n z) = Some z.
Proof.
  revert z. induction n as [|n IH]; intros z Hz.
  - cbn in *. unfold hex_number. cbn. f_equal. lia.
  - cbn [hex_digits]. rewrite hex_number_snoc, IH; cbn.
    + rewrite hex_value_char by (apply Z.mod_pos_bound; lia). cbn. f_equal. rewrite (Z.div_mod z 16) at 3 by lia. lia.
    + rewrite Nat2Z.inj_succ, Z.pow_succ_r in Hz by lia. split; [apply Z.div_pos; lia|]. apply Z.div_lt_upper_bound; lia.
Qed.

Lemma hex_char_not_plus d : 0 <= d < 16 -> hex_char d ≠ x2b.
Proof. intros Hd Heq. pose proof (hex_value_char d Hd) as H. by rewrite Heq in H. Qed.

Lemma hex_digits_no_plus n z : x2b ∉ hex_digits n z.
Proof.
  revert z. induction n as [|n IH]; intros z; cbn [hex_digits]; [by intros ?%elem_of_nil|]. rewrite elem_of_app, list_elem_of_singleton.
  intros [H|H]; [by apply (IH (z / 16))|]. eapply hex_char_not_plus; [|done]. apply Z.mod_pos_bound; lia.
Qed.

Lemma from_str_radix_digits bits n z :
  (n ≠ 0)%nat -> 0 <= z < 16 ^ Z.of_nat n -> 16 ^ Z.of_nat n = 2 ^ bits -> from_str_radix_16 bits (hex_digits n z) = Some z.
Proof.
  intros Hn Hz Hbits. unfold from_str_radix_16. pose proof (hex_digits_length n z) as Hlen.
  pose proof (hex_digits_no_plus n z) as Hplus. pose proof (hex_number_digits n z Hz) as Hnum.
  destruct (hex_digits n z) as [|b rest]; [cbn in Hlen; lia|].
  rewrite bool_decide_eq_false_2 by (intros ->; apply Hplus; by left). cbn. rewrite Hnum. cbn.
  destruct (Z.ltb_spec z (2 ^ bits)); [done|lia].
Qed.

Lemma strip_prefix_app p s : strip_prefix p (p ++ s) = Some s.
Proof. induction p as [|b p IH]; cbn; [done|]. by rewrite bool_decide_eq_true_2. Qed.

Section KeyFacts.
Context `{SriTextLaws}.

(** A row's key names its cell and its generation, and no other row has it. *)
Lemma generation_key_parse sri g : is_sri sri -> is_gen g ->
  parse_generation_key (generation_key sri g) = Some (sri, g).
Proof.
  intros Hsri [Ht Hi]. unfold parse_generation_key, generation_key, generations_of.
  rewrite <- !app_assoc, strip_prefix_app. cbn [mbind option_bind app].
  rewrite split_once_app by apply sri_no_slash. cbn [mbind option_bind].
  rewrite length_app, !hex_digits_length. cbn [negb Nat.eqb Nat.add].
  rewrite take_app_length', drop_app_length' by (by rewrite hex_digits_length).
  rewrite !from_str_radix_digits; try done; try (unfold is_u64 in *; lia). cbn [mbind option_bind].
  rewrite sri_parse_str by done. by destruct g.
Qed.

Lemma generation_key_inj sri sri' g g' : is_sri sri -> is_gen g -> is_sri sri' -> is_gen g' ->
  generation_key sri g = generation_key sri' g' -> sri = sri' /\ g = g'.
Proof.
  intros Hs Hg Hs' Hg' Heq. pose proof (generation_key_parse _ _ Hs Hg) as H1. rewrite Heq, generation_key_parse in H1 by done.
  by injection H1.
Qed.

Lemma generations_of_key sri g : starts_with (generations_of sri) (generation_key sri g) = true.
Proof. apply starts_with_app. Qed.

(** A key under a cell's prefix names that cell. *)
Lemma generations_of_parse sri key sri' g : is_sri sri -> starts_with (generations_of sri) key = true ->
  parse_generation_key key = Some (sri', g) -> sri' = sri.
Proof.
  intros Hs (rest & ->)%starts_with_spec. unfold parse_generation_key, generations_of.
  rewrite <- !app_assoc, strip_prefix_app. cbn [mbind option_bind app].
  rewrite split_once_app by apply sri_no_slash. cbn [mbind option_bind].
  destruct (negb _); [done|]. rewrite sri_parse_str by done. destruct (from_str_radix_16 64 _); cbn; [|done].
  destruct (from_str_radix_16 128 _); cbn; congruence.
Qed.

Lemma claim_key_apart sri sri' : starts_with (generations_of sri) (placement_claim_key sri') = false.
Proof. done. Qed.

End KeyFacts.

(** ** The newest generations *)

Lemma gen_ltb_spec a b : gen_ltb a b = true <-> g_time a < g_time b \/ (g_time a = g_time b /\ g_id a < g_id b).
Proof. unfold gen_ltb. rewrite orb_true_iff, andb_true_iff, !Z.ltb_lt, Z.eqb_eq. done. Qed.
Lemma gen_ltb_false a b : gen_ltb a b = false <-> gen_ltb b a = true \/ a = b.
Proof.
  rewrite <- not_true_iff_false, !gen_ltb_spec. destruct a as [t i], b as [t' i']; cbn. split; [|intros [?|[=]]; lia].
  intros Hn. destruct (decide (t = t' /\ i = i')) as [[-> ->]|]; [by right|]. left. lia.
Qed.
Lemma gen_ltb_irrefl a : gen_ltb a a = false.
Proof. apply gen_ltb_false. by right. Qed.
Lemma gen_ltb_trans a b c : gen_ltb a b = true -> gen_ltb b c = true -> gen_ltb a c = true.
Proof. rewrite !gen_ltb_spec. lia. Qed.

Section Newest.
Context `{SriText}.

(** The row at [i] is the first of those of the cell's newest generation. *)
Definition newest_at (entries : list (str * bytes)) (sri : Sri) (i : nat) (g : Gen) (key : str) (value : bytes) : Prop :=
  entries !! i = Some (key, value) /\ parse_generation_key key = Some (sri, g) /\
  forall j key' value' g', entries !! j = Some (key', value') -> parse_generation_key key' = Some (sri, g') ->
    gen_ltb g g' = false /\ (g' = g -> (i <= j)%nat).

Lemma newest_at_unique entries sri i g key value i' g' key' value' :
  newest_at entries sri i g key value -> newest_at entries sri i' g' key' value' -> (g, key, value) = (g', key', value').
Proof.
  intros (Hi & Hp & Hmax) (Hi' & Hp' & Hmax'). destruct (Hmax _ _ _ _ Hi' Hp') as [Hlt Hle].
  destruct (Hmax' _ _ _ _ Hi Hp) as [Hlt' Hle']. assert (g = g') as <-.
  { apply gen_ltb_false in Hlt as [Hlt|Hlt]; congruence. }
  assert (i = i') as <- by (specialize (Hle eq_refl); specialize (Hle' eq_refl); lia). congruence.
Qed.

Definition is_malformed (e : str * bytes) : bool := match parse_generation_key e.1 with None => true | Some _ => false end.

Lemma newest_at_old entries e sri i g key value :
  (forall g', parse_generation_key e.1 = Some (sri, g') -> gen_ltb g g' = false) ->
  newest_at entries sri i g key value -> newest_at (entries ++ [e]) sri i g key value.
Proof.
  intros He (Hi & Hp & Hmax). assert (i < length entries)%nat by (by eapply lookup_lt_Some).
  split_and!; [by rewrite lookup_app_l|done|]. intros j key' value' g' [Hj|[Hle Hj]]%lookup_app_Some Hp'; [by eapply Hmax|].
  apply list_lookup_singleton_Some in Hj as [_ ->]. split; [by apply He|lia].
Qed.

Lemma newest_at_last entries k v sri g : parse_generation_key k = Some (sri, g) ->
  (forall e g', e ∈ entries -> parse_generation_key e.1 = Some (sri, g') -> gen_ltb g' g = true) ->
  newest_at (entries ++ [(k, v)]) sri (length entries) g k v.
Proof.
  intros Hp Hmax. split_and!; [by rewrite lookup_app_r, Nat.sub_diag|done|].
  intros j key' value' g' [Hj|[Hle Hj]]%lookup_app_Some Hp'.
  - pose proof (Hmax _ _ (list_elem_of_lookup_2 _ _ _ Hj) Hp') as Hlt. split; [apply gen_ltb_false; by left|].
    intros ->. by rewrite gen_ltb_irrefl in Hlt.
  - apply list_lookup_singleton_Some in Hj as [_ [= <- <-]]. assert (g' = g) as -> by congruence. by rewrite gen_ltb_irrefl.
Qed.

Lemma newest_fold entries : let st := fold_left newest_step entries ([], []) in
  bt_ok st.1 /\ st.2 = map fst (List.filter is_malformed entries) /\
  forall sri, match bt_get st.1 sri with
              | Some (g, key, value) => exists i, newest_at entries sri i g key value
              | None => forall e, e ∈ entries -> forall g, parse_generation_key e.1 ≠ Some (sri, g)
              end.
Proof.
  cbn zeta. induction entries as [|[k v] entries IH] using rev_ind.
  { split_and!; [constructor|done|]. intros sri e ?%elem_of_nil. done. }
  rewrite fold_left_app, List.filter_app, map_app. cbn [fold_left List.filter]. unfold is_malformed at 2. cbn [fst].
  destruct (fold_left newest_step entries ([], [])) as [m bad]. cbn [fst snd] in *. destruct IH as (Hok & -> & Hget).
  unfold newest_step. destruct (parse_generation_key k) as [[sri' g']|] eqn:Hp; cbn [fst snd map].
  - rewrite app_nil_r. split_and!; [by repeat case_match; try apply bt_insert_ok|done|].
    intros sri. specialize (Hget sri). destruct (decide (sri = sri')) as [->|Hne].
    + destruct (bt_get m sri') as [[[g key] value]|] eqn:Hm; [destruct (gen_ltb g g') eqn:Hlt|].
      * rewrite bt_get_insert, Z.eqb_refl. exists (length entries). destruct Hget as (i & Hi & Hpi & Hmax).
        apply newest_at_last; [done|]. intros [key' value'] g'' (j & Hj)%list_elem_of_lookup_1 Hp'.
        destruct (Hmax _ _ _ _ Hj Hp') as [[Hnlt| ->]%gen_ltb_false _]; [by eapply gen_ltb_trans|done].
      * rewrite Hm. destruct Hget as (i & Hi). exists i. apply newest_at_old; [|done]. cbn [fst]. congruence.
      * rewrite bt_get_insert, Z.eqb_refl. exists (length entries). apply newest_at_last; [done|].
        intros e g'' He Hp'. by apply Hget in Hp'.
    + assert (bt_get (if match bt_get m sri' with None => true | Some (g, _, _) => gen_ltb g g' end
        then bt_insert m sri' (g', k, v) else m) sri = bt_get m sri) as ->.
      { repeat case_match; try done; rewrite bt_get_insert; by destruct (Z.eqb_spec sri sri'). }
      destruct (bt_get m sri) as [[[g key] value]|].
      * destruct Hget as (i & Hi). exists i. apply newest_at_old; [|done]. cbn [fst]. congruence.
      * intros e [He|He%list_elem_of_singleton]%elem_of_app; [by apply Hget|]. subst e. cbn [fst]. congruence.
  - split_and!; [done|done|]. intros sri. specialize (Hget sri). destruct (bt_get m sri) as [[[g key] value]|].
    + destruct Hget as (i & Hi). exists i. apply newest_at_old; [|done]. cbn [fst]. congruence.
    + intros e [He|He%list_elem_of_singleton]%elem_of_app; [by apply Hget|]. subst e. cbn [fst]. congruence.
Qed.

(** What a row reads as. *)
Definition read_row {R T} `{Postcard R} (assemble : Sri -> Gen -> R -> T) (e : Z * (Gen * str * bytes)) : res RowError T :=
  let '(sri, (gen_id, key, value)) := e in
  match from_bytes value with Some row => Ok (assemble sri gen_id row) | None => Err (BadValue key) end.

(** Readers take each cell's newest generation, once, in the order of the cells;
    keys of another shape come last. *)
Lemma newest_exact {R T} `{Postcard R} (assemble : Sri -> Gen -> R -> T) entries :
  exists l, newest assemble entries = map (read_row assemble) l ++ map (fun e => Err (BadKey e.1)) (List.filter is_malformed entries) /\
    bt_ok l /\
    forall sri g key value, (sri, (g, key, value)) ∈ l <-> exists i, newest_at entries sri i g key value.
Proof.
  unfold newest. destruct (newest_fold entries) as (Hok & Hbad & Hget).
  destruct (fold_left newest_step entries ([], [])) as [m bad]. cbn [fst snd] in *. exists m. split_and!; [|done|].
  - rewrite Hbad, map_map. done.
  - intros sri g key value. rewrite <- bt_get_elem by done. specialize (Hget sri).
    destruct (bt_get m sri) as [[[g' key'] value']|].
    + split; [intros [= -> -> ->]; done|]. intros (i & Hi). destruct Hget as (i' & Hi').
      by rewrite (newest_at_unique _ _ _ _ _ _ _ _ _ _ Hi Hi').
    + split; [done|]. intros (i & Hi & Hp & _). by apply list_elem_of_lookup_2, Hget with (g := g) in Hi.
Qed.

End Newest.

Lemma newest_nil `{SriText} {R T} `{Postcard R} (assemble : Sri -> Gen -> R -> T) entries :
  newest assemble entries = [] -> entries = [].
Proof.
  unfold newest. destruct (newest_fold entries) as (_ & Hbad & Hget).
  destruct (fold_left newest_step entries ([], [])) as [m bad]. cbn [fst snd] in *. subst bad.
  intros [->%map_eq_nil Hbad%map_eq_nil%map_eq_nil]%app_nil. destruct entries as [|e entries]; [done|]. exfalso.
  cbn in Hbad. unfold is_malformed in Hbad at 1. destruct (parse_generation_key e.1) as [[sri g]|] eqn:Hp; [|done].
  apply (Hget sri e) with (g := g); [by left|done].
Qed.
