(* ===== verification/Placement.v ===== *)
(** * Placements and instances

    [src/swarm/sorg-common/src/cells]: claiming, publishing and removing the
    placement of a cell ([placement.rs]), its record in the instance registry
    ([instance_registry.rs]), both by generation ([generation_rows.rs]) and
    fenced by the newest one ([fence.rs]).

    A transaction reads the rows of its scope as they were when it began, with
    its own writes over them; it remembers the keys it read one by one, which a
    listing does not add to.  Each call on it is carried out, is refused, or is
    carried out with its reply lost.  Whether a commit is refused is the
    engine's, of which a law says that a key that was read has not been written
    since the transaction began when it is not. *)

From S2P Require Import Prelude Bytes Domain Kv Announce Store Supervision Generations.
From Stdlib Require Import ZArith Lia Strings.Byte Sorting.Sorted.
From stdpp Require Import base list option sets strings.

Local Open Scope Z_scope.

(** ** Fencing *)

Inductive FenceOutcome := Applied | Absent | Superseded (current : Gen).
#[export] Instance FenceOutcome_eq_dec : EqDecision FenceOutcome. Proof. solve_decision. Defined.

Definition fence_applied (o : FenceOutcome) : bool := match o with Applied => true | _ => false end.

Definition fence_admit (existing : option Gen) (expected : Gen) : res FenceOutcome unit :=
  match existing with
  | None => Err Absent
  | Some current => if bool_decide (current ≠ expected) then Err (Superseded current) else Ok tt
  end.

Inductive PlacementClaimOutcome := Claimed | AlreadyExists.

Inductive row_error := RowDb | RowMalformed (key : str) | RowUnreadable (e : RowError) | RowSerialize | RowDeployed | RowConflict.

(** ** A transaction on one scope *)

Inductive Answer := Done | Declined | Lost.

(** The commit check of the transaction engine, a library: whether it refuses a
    transaction that read these keys singly, given the keys each commit wrote since
    it began.  It lets none of the keys read be written in between, and has nothing
    to refuse when nothing was committed. *)
Class CommitCheck := { refuses : list str -> list (list str) -> bool }.
Class CommitCheckLaws `{CommitCheck} := {
  refuses_written : forall reads since, refuses reads since = false -> forall k, k ∈ reads -> forall ks, ks ∈ since -> k ∉ ks;
  refuses_nothing : forall reads, refuses reads [] = false;
}.

Section Rows.
Context {S : Type} `{Kv S} `{SriText} `{Postcard PlacementRow} `{Postcard InstanceRow} `{CommitCheck}.

Record RowTx := mkRowTx {
  rt_rows : S;
  rt_reads : list str;
  rt_writes : list (str * option bytes);
  rt_calls : nat;
}.

Definition begin (rows : S) : RowTx := mkRowTx rows [] [] 0.

Definition write (rows : S) (w : str * option bytes) : S :=
  match w.2 with Some v => kv_insert rows w.1 v | None => kv_remove rows w.1 end.
Definition apply_writes (rows : S) (ws : list (str * option bytes)) : S := fold_left write ws rows.

(** What runs in a transaction. *)
Definition Calls (A : Type) : Type := RowTx -> res row_error A * RowTx.
#[export] Instance calls_ret : MRet Calls := fun A a t => (Ok a, t).
#[export] Instance calls_bind : MBind Calls := fun A B f m t =>
  match m t with (Ok a, t) => f a t | (Err e, t) => (Err e, t) end.
Definition failed {A} (e : row_error) : Calls A := fun t => (Err e, t).
Definition lift_res {A} (r : res row_error A) : Calls A := fun t => (r, t).

Section Tx.
Context (answer : nat -> Answer).

Definition call {A} (f : RowTx -> A * RowTx) : Calls A := fun t =>
  let counted := mkRowTx (rt_rows t) (rt_reads t) (rt_writes t) (Datatypes.S (rt_calls t)) in
  match answer (rt_calls t) with
  | Done => let '(a, t) := f counted in (Ok a, t)
  | Declined => (Err RowDb, counted)
  | Lost => (Err RowDb, (f counted).2)
  end.

Definition get_key (key : str) : Calls (option bytes) :=
  call (fun t => (kv_get (rt_rows t) key, mkRowTx (rt_rows t) (rt_reads t ++ [key]) (rt_writes t) (rt_calls t))).
Definition list_keys (prefix : str) : Calls (list str) :=
  call (fun t => (map fst (kv_prefix (rt_rows t) prefix), t)).
Definition list_entries (prefix : str) : Calls (list (str * bytes)) :=
  call (fun t => (kv_prefix (rt_rows t) prefix, t)).
Definition write_key (key : str) (value : option bytes) : Calls unit :=
  call (fun t => (tt, mkRowTx (write (rt_rows t) (key, value)) (rt_reads t) (rt_writes t ++ [(key, value)]) (rt_calls t))).
Definition delete_key (key : str) : Calls unit := write_key key None.

(** ** Rows by generation *)

Definition list_rows (prefix : str) : Calls (list (str * bytes)) := list_entries prefix.
Definition put_row (key : str) (value : bytes) : Calls unit := write_key key (Some value).

Definition generations (sri : Sri) : Calls (list Gen) :=
  keys ← list_keys (generations_of sri);
  lift_res (mapM_res (fun key => ok_or (RowMalformed key) (snd <$> parse_generation_key key)) keys).

(** [Iterator::max] *)
Definition gen_max (gens : list Gen) : option Gen :=
  fold_left (fun best g => match best with Some b => if gen_ltb g b then Some b else Some g | None => Some g end) gens None.

Definition newest_generation (sri : Sri) (g : Gen) : Calls (option Gen) :=
  _ ← get_key (generation_key sri g);
  gens ← generations sri;
  mret (gen_max gens).

Definition admit_write (sri : Sri) (g : Gen) : Calls (res FenceOutcome unit) :=
  newest ← newest_generation sri g;
  mret (fence_admit newest g).

Definition remove_row (sri : Sri) (g : Gen) : Calls FenceOutcome :=
  newest ← newest_generation sri g;
  _ ← delete_key (generation_key sri g);
  mret (match fence_admit newest g with Ok _ => Applied | Err outcome => outcome end).

(** ** Placements *)

(** [pop] takes the last. *)
Definition get_placement_in_tx (sri : Sri) : Calls (option PlacementEntry) :=
  entries ← list_rows (generations_of sri);
  placements ← lift_res (mapM_res (map_err RowUnreadable) (newest_placements entries));
  mret (last placements).

Definition list_placements : Calls (list PlacementEntry) :=
  entries ← list_rows GENERATIONS;
  lift_res (mapM_res (map_err RowUnreadable) (newest_placements entries)).

Definition placement_exists (sri : Sri) : Calls bool :=
  gens ← generations sri;
  mret (negb (bool_decide (gens = []))).

Definition put_placement (e : PlacementEntry) : Calls unit :=
  value ← lift_res (ok_or RowSerialize (to_allocvec (placement_row e)));
  put_row (generation_key (pe_sri e) (pe_gen e)) value.

Definition do_claim (e : PlacementEntry) : Calls PlacementClaimOutcome :=
  let claim_key := placement_claim_key (pe_sri e) in
  _ ← get_key claim_key;
  placed ← get_placement_in_tx (pe_sri e);
  match placed with
  | Some _ => mret AlreadyExists
  | None => _ ← put_row claim_key []; _ ← put_placement e; mret Claimed
  end.

Definition do_commit (e : PlacementEntry) : Calls FenceOutcome :=
  admitted ← admit_write (pe_sri e) (pe_gen e);
  match admitted with
  | Err outcome => mret outcome
  | Ok _ => _ ← put_placement e; mret Applied
  end.

Definition do_remove (sri : Sri) (g : Gen) : Calls FenceOutcome :=
  outcome ← remove_row sri g;
  _ ← delete_key (placement_claim_key sri);
  mret outcome.

(** ** Instances *)

Definition do_list : Calls (list CellInstance) :=
  entries ← list_rows GENERATIONS;
  lift_res (mapM_res (map_err RowUnreadable) (newest_instances entries)).

Definition do_get (sri : Sri) : Calls (option CellInstance) :=
  entries ← list_rows (generations_of sri);
  instances ← lift_res (mapM_res (map_err RowUnreadable) (newest_instances entries));
  mret (last instances).

Fixpoint remove_rows (sri : Sri) (older : list Gen) : Calls unit :=
  match older with
  | [] => mret tt
  | g :: older => _ ← remove_row sri g; remove_rows sri older
  end.

Definition write_registry_entry (record : CellInstance) (gens : list Gen) : Calls unit :=
  let older := List.filter (fun g => gen_ltb g (ci_gen record)) gens in
  _ ← remove_rows (ci_sri record) older;
  value ← lift_res (ok_or RowSerialize (to_allocvec (instance_row record)));
  put_row (generation_key (ci_sri record) (ci_gen record)) value.

Definition do_insert_registry_entry (record : CellInstance) : Calls unit :=
  gens ← generations (ci_sri record);
  write_registry_entry record gens.

End Tx.

(** ** The scope over time

    Its states, the last one first, each with the keys its commit wrote.  The
    closures of [write_tx_in] hand their own result over inside [Ok], so that it
    commits whatever they return; a reader sees one of the states.  A commit's
    writes go over the state it commits on.  The database keeps a row by the time
    its transaction began: a row that another transaction, begun later, has
    committed before stays above it, which is not in these states. *)

Definition History : Type := list (S * list str).

Definition write_tx_in {A} (answer : nat -> Answer) (began : nat) (func : (nat -> Answer) -> Calls A) (h : History)
    : res row_error A * History :=
  match h !! began, h with
  | Some (rows, _), (current, _) :: _ =>
      let '(r, t) := func answer (begin rows) in
      if refuses (rt_reads t) (map snd (take began h)) then (Err RowConflict, h)
      else (r, (apply_writes current (rt_writes t), map fst (rt_writes t)) :: h)
  | _, _ => (Err RowDb, h)
  end.

Definition read_tx_in {A} (answer : nat -> Answer) (rows : S) (func : (nat -> Answer) -> Calls A) : res row_error A :=
  (func answer (begin rows)).1.

Definition get_placement (answer : nat -> Answer) (rows : S) (sri : Sri) : res row_error (option PlacementEntry) :=
  read_tx_in answer rows (fun answer => get_placement_in_tx answer sri).
Definition get_instance (answer : nat -> Answer) (rows : S) (sri : Sri) : res row_error (option CellInstance) :=
  read_tx_in answer rows (fun answer => do_get answer sri).

Definition claim_placement (answer : nat -> Answer) (began : nat) (e : PlacementEntry) : History -> res row_error PlacementClaimOutcome * History :=
  write_tx_in answer began (fun answer => do_claim answer e).
Definition commit_placement (answer : nat -> Answer) (began : nat) (e : PlacementEntry) : History -> res row_error FenceOutcome * History :=
  write_tx_in answer began (fun answer => do_commit answer e).
Definition remove_placement (answer : nat -> Answer) (began : nat) (sri : Sri) (g : Gen) : History -> res row_error FenceOutcome * History :=
  write_tx_in answer began (fun answer => do_remove answer sri g).
Definition insert_registry_entry (answer : nat -> Answer) (began : nat) (record : CellInstance) : History -> res row_error unit * History :=
  write_tx_in answer began (fun answer => do_insert_registry_entry answer record).

(** The placement is read first, in a transaction of its own scope. *)
Definition remove_instance (placed : res row_error (option PlacementEntry)) (answer : nat -> Answer) (began : nat)
    (sri : Sri) (g : Gen) (h : History) : res row_error FenceOutcome * History :=
  match placed with
  | Err e => (Err e, h)
  | Ok entry =>
      if match entry with Some e => bool_decide (pe_gen e = g) | None => false end then (Err RowDeployed, h)
      else write_tx_in answer began (fun answer => remove_row answer sri g) h
  end.

End Rows.
