(* ===== verification/PlacementFacts.v ===== *)
(** * One placement at a time

    Histories of claims, publications and removals of placements on one node,
    each begun at some earlier state and answered in any way, and the insertion
    of records into the instance registry. *)

From S2P Require Import Prelude Bytes Domain Kv Announce Store Supervision Generations Placement.
From Stdlib Require Import ZArith Lia Strings.Byte Sorting.Sorted.
From stdpp Require Import base list option sets strings gmap.

Local Open Scope Z_scope.

Section Facts.
Context {S : Type} `{KvLaws S} `{SriTextLaws} `{PostcardLaws PlacementRow} `{PostcardLaws InstanceRow} `{CommitCheckLaws}.

(** ** What each operation reads and writes *)

#[local] Arguments newest_placements : simpl never.
#[local] Arguments newest_instances : simpl never.
#[local] Arguments parse_generation_key : simpl never.
#[local] Arguments generation_key : simpl never.
#[local] Arguments placement_claim_key : simpl never.
#[local] Arguments generations_of : simpl never.
#[local] Arguments mapM_res : simpl never.
#[local] Arguments last : simpl never.
#[local] Arguments gen_max : simpl never.

(** Runs the calls of an operation, whatever each is answered. *)
Ltac run_calls :=
  unfold put_placement, put_row, list_rows, admit_write, remove_row, newest_generation, generations, get_key, list_entries, list_keys,
    delete_key, write_key, mbind, calls_bind, mret, calls_ret, lift_res, call;
  cbn; repeat (case_match; cbn; simplify_eq); cbn [rt_rows rt_reads rt_writes rt_calls app begin ok_or] in *.

Lemma read_nothing {T} (placements : list (res RowError T)) l :
  mapM_res (map_err RowUnreadable) placements = Ok l -> last l = None -> placements = [].
Proof. intros Hl%mapM_res_ok ->%last_None. by inversion Hl. Qed.

Lemma placements_nothing entries l :
  mapM_res (map_err RowUnreadable) (newest_placements entries) = Ok l -> last l = None -> entries = [].
Proof. intros Hl Hlast. apply (newest_nil placement_from_row). by eapply read_nothing. Qed.

Lemma do_claim_run answer e (s : S) : let '(r, t) := do_claim answer e (begin s) in
  (rt_writes t = [] /\ r ≠ Ok Claimed) \/
  (placement_claim_key (pe_sri e) ∈ rt_reads t /\ kv_prefix s (generations_of (pe_sri e)) = [] /\
   ((rt_writes t = [(placement_claim_key (pe_sri e), Some [])] /\ r ≠ Ok Claimed) \/
    exists v, to_allocvec (placement_row e) = Some v /\
      rt_writes t = [(placement_claim_key (pe_sri e), Some []); (generation_key (pe_sri e) (pe_gen e), Some v)])).
Proof.
  unfold do_claim, get_placement_in_tx. run_calls; try (by left); right;
    (split; [by left|]; split; [by eapply placements_nothing|]); try (by left);
    destruct (to_allocvec (placement_row e)) as [v|]; cbn in *; simplify_eq; eauto.
Qed.

Lemma fence_admit_ok newest g u : fence_admit newest g = Ok u -> newest = Some g.
Proof. unfold fence_admit. destruct newest as [c|]; [|done]. case_bool_decide as Hc; [done|]. by rewrite Hc. Qed.
Lemma fence_admit_err newest g o : fence_admit newest g = Err o -> o ≠ Applied.
Proof. unfold fence_admit. destruct newest as [c|]; [|congruence]. case_bool_decide; congruence. Qed.

(** The generations of a cell that a transaction sees. *)
Definition sees (s : S) (sri : Sri) (gens : list Gen) : Prop :=
  mapM_res (fun key => ok_or (RowMalformed key) (snd <$> parse_generation_key key)) (map fst (kv_prefix s (generations_of sri))) = Ok gens.

Lemma do_commit_run answer e (s : S) : let '(r, t) := do_commit answer e (begin s) in
  (rt_writes t = [] /\ r ≠ Ok Applied) \/
  (generation_key (pe_sri e) (pe_gen e) ∈ rt_reads t /\
   (exists gens, sees s (pe_sri e) gens /\ gen_max gens = Some (pe_gen e)) /\
   (forall o, r = Ok o -> o = Applied) /\
   exists v, to_allocvec (placement_row e) = Some v /\ rt_writes t = [(generation_key (pe_sri e) (pe_gen e), Some v)]).
Proof.
  unfold do_commit. run_calls; try (by left).
  3: { left. split; [done|]. intros [= ->]. by eapply fence_admit_err. }
  all: right; (split; [by left|]; split; [eauto using fence_admit_ok|]; split; [by intros o [= ?]|]);
    destruct (to_allocvec (placement_row e)) as [v|]; cbn in *; simplify_eq; eauto.
Qed.

Lemma do_remove_run answer sri g (s : S) : let '(r, t) := do_remove answer sri g (begin s) in
  match r with
  | Ok o => rt_writes t = [(generation_key sri g, None); (placement_claim_key sri, None)]
  | Err _ => rt_writes t ∈ [[]; [(generation_key sri g, None)]; [(generation_key sri g, None); (placement_claim_key sri, None)]]
  end.
Proof. unfold do_remove. run_calls; set_solver. Qed.

(** ** States *)

Definition placed (s : S) (sri : Sri) (g : Gen) : Prop := is_Some (kv_get s (generation_key sri g)).

(** Rows under the prefix of the generations have the keys the operations give them. *)
Definition canonical (s : S) : Prop := forall k v, kv_get s k = Some v -> starts_with GENERATIONS k = true ->
  exists sri g, is_sri sri /\ is_gen g /\ k = generation_key sri g.

Definition one_each (s : S) : Prop := forall sri g g', is_sri sri -> is_gen g -> is_gen g' ->
  placed s sri g -> placed s sri g' -> g = g'.

Lemma keys_apart sri sri' g : generation_key sri g ≠ placement_claim_key sri'.
Proof. unfold generation_key, generations_of, placement_claim_key. by cbn. Qed.

Lemma claim_key_inj sri sri' : is_sri sri -> is_sri sri' -> placement_claim_key sri = placement_claim_key sri' -> sri = sri'.
Proof.
  unfold placement_claim_key. intros Hs Hs' Heq%app_inv_head. pose proof (sri_parse_str sri Hs) as Hp.
  rewrite Heq, sri_parse_str in Hp by done. congruence.
Qed.

Lemma generations_prefix sri : starts_with GENERATIONS (generations_of sri) = true.
Proof. apply starts_with_app. Qed.

Lemma prefix_row s sri key v : canonical s -> is_sri sri -> (key, v) ∈ kv_prefix s (generations_of sri) ->
  exists g, is_gen g /\ key = generation_key sri g /\ kv_get s (generation_key sri g) = Some v.
Proof.
  intros Hc Hsri [Hget Hpre]%kv_prefix_elem. destruct (Hc _ _ Hget) as (sri' & g & Hs' & Hg & ->).
  { apply starts_with_spec in Hpre as (r & ->). apply starts_with_spec. unfold generations_of. rewrite <- app_assoc. eauto. }
  assert (sri' = sri) as -> by (eapply generations_of_parse; [done..|by apply generation_key_parse]). eauto.
Qed.

Lemma prefix_rows s sri g v : kv_get s (generation_key sri g) = Some v -> (generation_key sri g, v) ∈ kv_prefix s (generations_of sri).
Proof. intros Hget. apply kv_prefix_elem. split; [done|apply generations_of_key]. Qed.

Lemma gen_max_elem gens g : gen_max gens = Some g -> g ∈ gens.
Proof.
  unfold gen_max. induction gens as [|x gens IH] using rev_ind in g |- *; [done|]. rewrite fold_left_app. cbn.
  destruct (fold_left _ gens None) as [b|]; [destruct (gen_ltb x b)|]; intros [= <-]; set_solver.
Qed.

Lemma sees_placed s sri gens g : canonical s -> is_sri sri -> sees s sri gens -> g ∈ gens <-> is_gen g /\ placed s sri g.
Proof.
  intros Hc Hsri Hsees%mapM_res_ok. split.
  - intros (i & Hi)%list_elem_of_lookup_1. destruct (Forall2_lookup_r _ _ _ _ _ Hsees Hi) as (k & Hk & Hp).
    apply list_elem_of_lookup_2, list_elem_of_fmap in Hk as ([k' v] & -> & Hk). cbn [fst] in Hp.
    apply prefix_row in Hk as (g' & Hg & -> & Hget); [|done..]. rewrite generation_key_parse in Hp by done.
    injection Hp as <-. split; [done|]. by eexists.
  - intros [Hg [v Hv]]. apply prefix_rows in Hv. apply (list_elem_of_fmap_2 fst) in Hv. cbn [fst] in Hv.
    apply list_elem_of_lookup_1 in Hv as [i Hi]. destruct (Forall2_lookup_l _ _ _ _ _ Hsees Hi) as (g' & Hg' & Hp).
    rewrite generation_key_parse in Hp by done. injection Hp as <-. by eapply list_elem_of_lookup_2.
Qed.

(** ** Histories *)

Inductive Op := OpClaim (e : PlacementEntry) | OpCommit (e : PlacementEntry) | OpRemove (sri : Sri) (g : Gen).

Definition op_valid (op : Op) : Prop :=
  match op with
  | OpClaim e | OpCommit e => is_sri (pe_sri e) /\ is_gen (pe_gen e)
  | OpRemove sri g => is_sri sri /\ is_gen g
  end.

Definition run_op (answer : nat -> Answer) (began : nat) (op : Op) (h : History (S := S)) : History (S := S) :=
  match op with
  | OpClaim e => (claim_placement answer began e h).2
  | OpCommit e => (commit_placement answer began e h).2
  | OpRemove sri g => (remove_placement answer began sri g h).2
  end.

(** The states of a node that starts without rows. *)
Inductive reached : History (S := S) -> Prop :=
  | reached_start s : (forall k, kv_get s k = None) -> reached [(s, [])]
  | reached_op h answer began op : reached h -> op_valid op -> reached (run_op answer began op h).

(** What an operation that began at [s] does to the state [s0] it commits on. *)
Definition effect_ok (s s0 : S) (ws : list (str * option bytes)) (reads : list str) : Prop :=
  canonical s -> canonical s0 -> one_each s0 ->
  (forall k, k ∈ reads -> kv_get s0 k = kv_get s k) ->
  (forall sri g, is_sri sri -> is_gen g -> placement_claim_key sri ∈ reads -> placed s0 sri g -> placed s sri g) ->
  let s' := apply_writes s0 ws in
  canonical s' /\ one_each s' /\
  forall sri g, is_sri sri -> is_gen g -> placement_claim_key sri ∉ map fst ws -> placed s' sri g -> placed s0 sri g.

Lemma effect_none s s0 reads : effect_ok s s0 [] reads.
Proof. by unfold effect_ok. Qed.

Lemma canonical_insert s sri g v : is_sri sri -> is_gen g -> canonical s -> canonical (kv_insert s (generation_key sri g) v).
Proof. intros Hs Hg Hc k v'. rewrite kv_get_insert. case_decide as Hk; [subst; eauto|apply Hc]. Qed.
Lemma canonical_claim s sri v : canonical s -> canonical (kv_insert s (placement_claim_key sri) v).
Proof. intros Hc k v'. rewrite kv_get_insert. case_decide as Hk; [by subst|apply Hc]. Qed.
Lemma canonical_remove s k : canonical s -> canonical (kv_remove s k).
Proof. intros Hc k' v'. rewrite kv_get_remove. case_decide; [done|apply Hc]. Qed.

Lemma placed_insert s sri g v sri' g' : is_sri sri -> is_gen g -> is_sri sri' -> is_gen g' ->
  placed (kv_insert s (generation_key sri g) v) sri' g' <-> (sri = sri' /\ g = g') \/ placed s sri' g'.
Proof.
  intros Hs Hg Hs' Hg'. unfold placed. rewrite kv_get_insert. case_decide as Hk.
  - apply generation_key_inj in Hk as [-> ->]; [|done..]. split; eauto.
  - split; [by right|]. intros [[-> ->]|?]; done.
Qed.
Lemma placed_claim s sri v sri' g' : placed (kv_insert s (placement_claim_key sri) v) sri' g' <-> placed s sri' g'.
Proof. unfold placed. rewrite kv_get_insert. case_decide as Hk; [by symmetry in Hk; apply keys_apart in Hk|done]. Qed.
Lemma placed_remove s k sri g : placed (kv_remove s k) sri g -> placed s sri g.
Proof. unfold placed. rewrite kv_get_remove. case_decide; [by intros []|done]. Qed.

Lemma one_each_mono s s' : (forall sri g, is_sri sri -> is_gen g -> placed s' sri g -> placed s sri g) -> one_each s -> one_each s'.
Proof. intros Hsub Hone sri g g' Hs Hg Hg' Hp Hp'. eapply Hone; eauto. Qed.

Lemma claim_effect answer e s s0 : is_sri (pe_sri e) -> is_gen (pe_gen e) ->
  let t := (do_claim answer e (begin s)).2 in effect_ok s s0 (rt_writes t) (rt_reads t).
Proof.
  intros Hs Hg. cbn zeta. pose proof (do_claim_run answer e s) as Hrun. destruct (do_claim answer e (begin s)) as [r t]. cbn [snd].
  destruct Hrun as [[-> _]|(Hread & Hnone & [[-> _]|(v & _ & ->)])]; [apply effect_none| |].
  - intros Hcs Hc Hone _ _. cbn. split_and!; [by apply canonical_claim| |].
    + eapply one_each_mono; [|done]. intros sri g _ _. by rewrite placed_claim.
    + intros sri g _ _ _. by rewrite placed_claim.
  - intros Hcs Hc Hone _ Hold. cbn. split_and!; [by apply canonical_insert, canonical_claim| |].
    + assert (forall g, is_gen g -> ~ placed s0 (pe_sri e) g) as Hfree.
      { intros g Hg' Hp. apply Hold in Hp as [v' Hv]; [|done..]. apply prefix_rows in Hv. rewrite Hnone in Hv.
        by apply elem_of_nil in Hv. }
      intros sri g g' Hsri Hg1 Hg2. rewrite !placed_insert, !placed_claim by done.
      intros [[Hq1 Hq2]|Hp] [[Hq3 Hq4]|Hp']; subst; [done|by apply Hfree in Hp'|by apply Hfree in Hp|by eapply Hone].
    + intros sri g Hsri Hg' Hn. rewrite placed_insert, placed_claim by done. intros [[<- _]|Hp]; [|done].
      exfalso. apply Hn. by left.
Qed.

Lemma commit_effect answer e s s0 : is_sri (pe_sri e) -> is_gen (pe_gen e) ->
  let t := (do_commit answer e (begin s)).2 in effect_ok s s0 (rt_writes t) (rt_reads t).
Proof.
  intros Hs Hg. cbn zeta. pose proof (do_commit_run answer e s) as Hrun. destruct (do_commit answer e (begin s)) as [r t]. cbn [snd].
  destruct Hrun as [[-> _]|(Hread & (gens & Hsees & Hmax) & _ & v & _ & ->)]; [apply effect_none|].
  intros Hcs Hc Hone Hsame _. cbn.
  assert (placed s0 (pe_sri e) (pe_gen e)) as Hp.
  { unfold placed. rewrite Hsame by done. by eapply sees_placed, gen_max_elem. }
  assert (forall sri g, is_sri sri -> is_gen g ->
    placed (kv_insert s0 (generation_key (pe_sri e) (pe_gen e)) v) sri g -> placed s0 sri g) as Hsub.
  { intros sri g Hsri Hg'. rewrite placed_insert by done. by intros [[<- <-]|]. }
  split_and!; [by apply canonical_insert|by eapply one_each_mono|eauto].
Qed.

Lemma remove_effect answer sri g s s0 :
  let t := (do_remove answer sri g (begin s)).2 in effect_ok s s0 (rt_writes t) (rt_reads t).
Proof.
  cbn zeta. pose proof (do_remove_run answer sri g s) as Hrun. destruct (do_remove answer sri g (begin s)) as [r t]. cbn [snd].
  intros Hcs Hc Hone _ _. cbn zeta.
  assert (canonical (apply_writes s0 (rt_writes t)) /\ forall sri g, placed (apply_writes s0 (rt_writes t)) sri g -> placed s0 sri g) as [Hc' Hsub].
  { assert (rt_writes t ∈ [[]; [(generation_key sri g, None)]; [(generation_key sri g, None); (placement_claim_key sri, None)]]) as Hw.
    { destruct r; [rewrite Hrun; set_solver|done]. }
    clear Hrun. rewrite !elem_of_cons, elem_of_nil in Hw. destruct Hw as [->|[->|[->|[]]]]; cbn;
      (split; [auto using canonical_remove|]); intros sri' g' Hp; repeat apply placed_remove in Hp; done. }
  split_and!; [done|eapply one_each_mono; [|done]; auto|auto].
Qed.

(** What holds of a history. *)
Record history_ok (h : History (S := S)) : Prop := mkHistoryOk {
  ok_rows : forall st, st ∈ h -> canonical st.1 /\ one_each st.1;
  (** A key that no commit since has written reads as it does now. *)
  ok_same : forall j s w s0 w0 k, h !! j = Some (s, w) -> h !! 0%nat = Some (s0, w0) ->
    (forall st, st ∈ take j h -> k ∉ st.2) -> kv_get s0 k = kv_get s k;
  (** Only what writes the claim key of a cell places it. *)
  ok_claimed : forall j s w s0 w0 sri g, h !! j = Some (s, w) -> h !! 0%nat = Some (s0, w0) -> is_sri sri -> is_gen g ->
    (forall st, st ∈ take j h -> placement_claim_key sri ∉ st.2) -> placed s0 sri g -> placed s sri g;
}.

Lemma kv_get_writes (s : S) ws k : k ∉ map fst ws -> kv_get (apply_writes s ws) k = kv_get s k.
Proof.
  unfold apply_writes. revert s. induction ws as [|[k' [v|]] ws IH]; intros s Hk; [done|..];
    apply not_elem_of_cons in Hk as [Hk Hks]; cbn [fold_left]; rewrite IH by done; cbn;
    rewrite ?kv_get_insert, ?kv_get_remove; by case_decide.
Qed.

Lemma unwritten_since reads (since : History (S := S)) :
  refuses reads (map snd since) = false -> forall k, k ∈ reads -> forall st, st ∈ since -> k ∉ st.2.
Proof. intros Hr k Hk st Hst. eapply refuses_written; [done..|]. apply list_elem_of_fmap. eauto. Qed.

Lemma history_step {A} answer began (func : (nat -> Answer) -> Calls A) h : history_ok h ->
  (forall s s0, let t := (func answer (begin s)).2 in effect_ok s s0 (rt_writes t) (rt_reads t)) ->
  history_ok (write_tx_in answer began func h).2.
Proof.
  intros [Hrows Hsame Hclaimed] Heff. unfold write_tx_in.
  destruct (h !! began) as [[s w]|] eqn:Hb; [|by constructor]. destruct h as [|[s0 w0] h']; [done|]. specialize (Heff s s0).
  destruct (func answer (begin s)) as [r t]. cbn [snd] in Heff.
  destruct (refuses _ _) eqn:Hcon; cbn [snd]; [by constructor|]. pose proof (unwritten_since _ _ Hcon) as Hno.
  destruct (Hrows _ (list_elem_of_lookup_2 _ _ _ Hb)) as [Hcs _]. destruct (Hrows (s0, w0)) as [Hc0 Hone0]; [by left|].
  destruct Heff as (Hc' & Hone' & Hnew); [done..| | |].
  { intros k Hk. eapply Hsame; [done..|]. auto. }
  { intros sri g Hsri Hg Hk. eapply Hclaimed; [done..|]. auto. }
  constructor.
  - intros st [->|Hst]%elem_of_cons; [done|]. by apply Hrows.
  - intros [|j] s1 w1 s2 w2 k Hj [= <- <-]; [by injection Hj as <- <-|]. intros Hk. cbn in Hj, Hk.
    rewrite kv_get_writes by (apply (Hk (apply_writes s0 (rt_writes t), map fst (rt_writes t))); by left).
    eapply Hsame; [done..|]. intros st Hst. apply Hk. by right.
  - intros [|j] s1 w1 s2 w2 sri g Hj [= <- <-] Hsri Hg; [by injection Hj as <- <-|]. intros Hk Hp. cbn in Hj, Hk.
    apply Hnew in Hp; [|done..|apply (Hk (apply_writes s0 (rt_writes t), map fst (rt_writes t))); by left].
    eapply Hclaimed; [done..| |done]. intros st Hst. apply Hk. by right.
Qed.

Lemma reached_ok h : reached h -> history_ok h.
Proof.
  induction 1 as [s Hnone|h answer began op _ IH Hvalid].
  - constructor.
    + intros st ->%list_elem_of_singleton. cbn. split; [intros k v Hk; by rewrite Hnone in Hk|].
      intros sri g g' _ _ _ [v Hv]. by rewrite Hnone in Hv.
    + intros [|j] s1 w1 s2 w2 k Hj [= <- <-]; [by injection Hj as <- <-|done].
    + intros [|j] s1 w1 s2 w2 sri g Hj [= <- <-]; [by injection Hj as <- <-|done].
  - destruct op as [e|e|sri g]; destruct Hvalid as [Hs Hg]; apply history_step; try done; intros s s0.
    + by apply claim_effect.
    + by apply commit_effect.
    + apply remove_effect.
Qed.

(** ** What readers see *)

Lemma prefix_wellformed s sri : canonical s -> is_sri sri -> List.filter is_malformed (kv_prefix s (generations_of sri)) = [].
Proof.
  intros Hc Hsri. apply elem_of_nil_inv. intros [k v] [Hin Hbad]%elem_of_filterb.
  apply prefix_row in Hin as (g & Hg & -> & _); [|done..]. unfold is_malformed in Hbad. cbn [fst] in Hbad.
  by rewrite generation_key_parse in Hbad.
Qed.

(** The newest generation's row, read. *)
Definition newest_row (s : S) (sri : Sri) (g : Gen) (v : bytes) : Prop :=
  is_gen g /\ kv_get s (generation_key sri g) = Some v /\ forall g', is_gen g' -> placed s sri g' -> gen_ltb g g' = false.

Lemma newest_at_row s sri sri' i g key v : canonical s -> is_sri sri -> 
  newest_at (kv_prefix s (generations_of sri)) sri' i g key v -> sri' = sri /\ key = generation_key sri g /\ newest_row s sri g v.
Proof.
  intros Hc Hsri (Hi & Hp & Hmax). apply list_elem_of_lookup_2, prefix_row in Hi as (g0 & Hg & -> & Hget); [|done..].
  rewrite generation_key_parse in Hp by done. injection Hp as <- <-. split_and!; [done..|].
  split_and!; [done..|]. intros g' Hg' [v' Hv]. apply prefix_rows, list_elem_of_lookup_1 in Hv as [j Hj].
  eapply Hmax; [done|]. by apply generation_key_parse.
Qed.

Lemma blt_sorted_nodup (l : list bytes) : StronglySorted blt l -> NoDup l.
Proof.
  induction 1 as [|k l _ IH Hall]; constructor; [|done]. intros Hin. rewrite Forall_forall in Hall.
  by apply (blt_irrefl k), Hall.
Qed.

Lemma prefix_nodup s p i j k v v' : kv_prefix s p !! i = Some (k, v) -> kv_prefix s p !! j = Some (k, v') -> i = j.
Proof.
  intros Hi Hj. assert (NoDup (map fst (kv_prefix s p))) as Hnd.
  { apply blt_sorted_nodup, kv_prefix_sorted. }
  eapply NoDup_lookup; [done|..]; rewrite list_lookup_fmap; [by rewrite Hi|by rewrite Hj].
Qed.

Lemma newest_row_at s sri g v : canonical s -> is_sri sri -> newest_row s sri g v ->
  exists i, newest_at (kv_prefix s (generations_of sri)) sri i g (generation_key sri g) v.
Proof.
  intros Hc Hsri (Hg & Hget & Hmax). destruct (list_elem_of_lookup_1 _ _ (prefix_rows _ _ _ _ Hget)) as [i Hi].
  exists i. split_and!; [done|by apply generation_key_parse|]. intros j key' v' g' Hj Hp.
  pose proof (list_elem_of_lookup_2 _ _ _ Hj) as (g0 & Hg0 & -> & Hget')%prefix_row; [|done..].
  rewrite generation_key_parse in Hp by done. injection Hp as ->. split; [apply Hmax; [done|by eexists]|].
  intros ->. by rewrite (prefix_nodup _ _ _ _ _ _ _ Hi Hj).
Qed.

Lemma newest_row_unique s sri g v g' v' : newest_row s sri g v -> newest_row s sri g' v' -> g = g' /\ v = v'.
Proof.
  intros (Hg & Hget & Hmax) (Hg' & Hget' & Hmax').
  assert (g = g') as <-; [|split; congruence]. assert (gen_ltb g g' = false) as [Hlt|]%gen_ltb_false; [apply Hmax; [done|by eexists]| |done].
  rewrite Hmax' in Hlt; [done..|by eexists].
Qed.

(** The rows of a cell, read: its newest generation alone. *)
Lemma read_newest {R T} `{Postcard R} (assemble : Sri -> Gen -> R -> T) s sri : canonical s -> is_sri sri ->
  (kv_prefix s (generations_of sri) = [] /\ newest assemble (kv_prefix s (generations_of sri)) = []) \/
  exists g v, newest_row s sri g v /\
    newest assemble (kv_prefix s (generations_of sri)) = [read_row assemble (sri, (g, generation_key sri g, v))].
Proof.
  intros Hc Hsri. destruct (newest_exact assemble (kv_prefix s (generations_of sri))) as (l & Hl & Hok & Helem).
  rewrite prefix_wellformed, app_nil_r in Hl by done. destruct l as [|[sri' [[g key] v]] l].
  - left. split; [|done]. by apply (newest_nil assemble).
  - right. assert ((sri', (g, key, v)) ∈ (sri', (g, key, v)) :: l) as (i & Hi)%Helem by by left.
    apply newest_at_row in Hi as (-> & -> & Hrow); [|done..]. exists g, v. split; [done|]. rewrite Hl.
    destruct l as [|[sri' [[g' key'] v']] l]; [done|]. exfalso.
    assert ((sri', (g', key', v')) ∈ (sri, (g, generation_key sri g, v)) :: (sri', (g', key', v')) :: l) as (i' & Hi')%Helem by set_solver.
    apply newest_at_row in Hi' as (-> & _ & _); [|done..]. inversion Hok as [|? ? _ Hall]. inversion Hall. cbn in *. lia.
Qed.

Definition all_done : nat -> Answer := fun _ => Done.

Lemma get_placement_eq s sri : get_placement all_done s sri =
  (placements ← mapM_res (map_err RowUnreadable) (newest_placements (kv_prefix s (generations_of sri))); Ok (last placements)).
Proof. unfold get_placement, read_tx_in, get_placement_in_tx. run_calls; done. Qed.

Lemma get_instance_eq s sri : get_instance all_done s sri =
  (instances ← mapM_res (map_err RowUnreadable) (newest_instances (kv_prefix s (generations_of sri))); Ok (last instances)).
Proof. unfold get_instance, read_tx_in, do_get. run_calls; done. Qed.

Lemma get_placement_newest s sri g v row : canonical s -> is_sri sri -> newest_row s sri g v -> from_bytes v = Some row ->
  get_placement all_done s sri = Ok (Some (placement_from_row sri g row)).
Proof.
  intros Hc Hsri Hrow Hv. rewrite get_placement_eq. unfold newest_placements.
  destruct (read_newest placement_from_row s sri Hc Hsri) as [[Hnil _]|(g' & v' & Hrow' & ->)].
  - destruct Hrow as (_ & Hget%prefix_rows & _). rewrite Hnil in Hget. by apply elem_of_nil in Hget.
  - destruct (newest_row_unique _ _ _ _ _ _ Hrow Hrow') as [<- <-]. unfold read_row. rewrite Hv. done.
Qed.

Lemma get_instance_newest s sri g v row : canonical s -> is_sri sri -> newest_row s sri g v -> from_bytes v = Some row ->
  get_instance all_done s sri = Ok (Some (instance_from_row sri g row)).
Proof.
  intros Hc Hsri Hrow Hv. rewrite get_instance_eq. unfold newest_instances.
  destruct (read_newest instance_from_row s sri Hc Hsri) as [[Hnil _]|(g' & v' & Hrow' & ->)].
  - destruct Hrow as (_ & Hget%prefix_rows & _). rewrite Hnil in Hget. by apply elem_of_nil in Hget.
  - destruct (newest_row_unique _ _ _ _ _ _ Hrow Hrow') as [<- <-]. unfold read_row. rewrite Hv. done.
Qed.

Lemma get_instance_none s sri : canonical s -> is_sri sri -> (forall g, is_gen g -> ~ placed s sri g) ->
  get_instance all_done s sri = Ok None.
Proof.
  intros Hc Hsri Hnone. rewrite get_instance_eq. unfold newest_instances.
  destruct (read_newest instance_from_row s sri Hc Hsri) as [[_ ->]|(g & v & (Hg & Hget & _) & _)]; [done|].
  exfalso. apply (Hnone g Hg). by eexists.
Qed.

(** The listing of a cell's generations reads, since their keys are well formed. *)
Lemma sees_all s sri : canonical s -> is_sri sri -> exists gens, sees s sri gens.
Proof.
  intros Hc Hsri. unfold sees. set (f := fun key => ok_or (RowMalformed key) (snd <$> parse_generation_key key)).
  assert (forall l, (forall key, key ∈ l -> exists g, f key = Ok g) -> exists gens, mapM_res f l = Ok gens) as Hall.
  { induction l as [|key l IH]; intros Hl; [by exists []|]. destruct (Hl key) as [g Hg]; [by left|].
    destruct IH as [gens Hgens]; [intros key' ?; apply Hl; by right|]. exists (g :: gens). apply mapM_res_ok.
    constructor; [done|]. by apply mapM_res_ok. }
  apply Hall. intros key ([k v] & -> & Hin)%list_elem_of_fmap. apply prefix_row in Hin as (g & Hg & -> & _); [|done..].
  exists g. unfold f. cbn [fst]. by rewrite generation_key_parse.
Qed.

(** A cell that is placed once is read as that. *)
Lemma newest_row_only s sri g v : is_gen g -> kv_get s (generation_key sri g) = Some v ->
  (forall g', is_gen g' -> placed s sri g' -> g' = g) -> newest_row s sri g v.
Proof. intros Hg Hget Honly. split_and!; [done..|]. intros g' Hg' Hp. rewrite (Honly _ Hg' Hp). apply gen_ltb_irrefl. Qed.

End Facts.
