(* ===== verification/PlacementLife.v ===== *)
(** * The life of a placement

    What claiming, publishing and removing the placement of a cell mean on one
    node, and what inserting a record into the instance registry does. *)

From S2P Require Import Prelude Bytes Domain Kv Announce Store Supervision Generations Placement PlacementFacts.
From Stdlib Require Import ZArith Lia Strings.Byte Sorting.Sorted.
From stdpp Require Import base list option sets strings gmap.

Local Open Scope Z_scope.

Section Life.
Context {S : Type} `{KvLaws S} `{SriTextLaws} `{PostcardLaws PlacementRow} `{PostcardLaws InstanceRow} `{CommitCheckLaws}.

Lemma write_tx_ok {A} answer began (func : (nat -> Answer) -> Calls A) (h h' : History (S := S)) a :
  write_tx_in answer began func h = (Ok a, h') ->
  exists s w s0 w0 t, h !! began = Some (s, w) /\ h !! 0%nat = Some (s0, w0) /\ func answer (begin s) = (Ok a, t) /\
    (forall k, k ∈ rt_reads t -> forall st, st ∈ take began h -> k ∉ st.2) /\
    h' = (apply_writes s0 (rt_writes t), map fst (rt_writes t)) :: h.
Proof.
  unfold write_tx_in. destruct (h !! began) as [[s w]|] eqn:Hb; [|done]. destruct h as [|[s0 w0] h0]; [done|].
  destruct (func answer (begin s)) as [r t] eqn:Hf. destruct (refuses _ _) eqn:Hc; [done|]. intros [= -> <-].
  exists s, w, s0, w0, t. split_and!; try done. by apply unwritten_since.
Qed.

(** C5. On every node and in every order in which claims, publications and
    removals begin, are answered and commit, no state has two generations of a
    cell placed; and a claim that succeeds found the cell not placed in the state
    it committed on, not only in the one it read, and readers then see the
    claimed placement. *)
Theorem claim_exclusive (h : History (S := S)) : reached h ->
  (forall st, st ∈ h -> one_each st.1) /\
  forall answer began e h', op_valid (OpClaim e) -> claim_placement answer began e h = (Ok Claimed, h') ->
    exists s0 w0 s' w', h !! 0%nat = Some (s0, w0) /\ h' = (s', w') :: h /\
      (forall g, is_gen g -> ~ placed s0 (pe_sri e) g) /\
      get_placement all_done s' (pe_sri e) = Ok (Some e).
Proof.
  intros Hr. pose proof (reached_ok _ Hr) as Hok. split; [intros st Hst; by apply (ok_rows _ Hok)|].
  intros answer began e h' [Hs Hg] Hrun. pose proof (reached_ok _ (reached_op h answer began (OpClaim e) Hr (conj Hs Hg))) as Hok'.
  cbn [run_op] in Hok'. rewrite Hrun in Hok'. cbn [snd] in Hok'.
  apply write_tx_ok in Hrun as (s & w & s0 & w0 & t & Hb & Hhd & Hclaim & Hno & ->).
  pose proof (do_claim_run answer e s) as Hd. rewrite Hclaim in Hd.
  destruct Hd as [[_ []]|(Hread & Hnone & [[_ []]|(v & Hv & Hw)])]; [done..|].
  assert (forall g, is_gen g -> ~ placed s0 (pe_sri e) g) as Hfree.
  { intros g Hg' Hp. apply (ok_claimed _ Hok _ _ _ _ _ _ _ Hb Hhd Hs Hg' (Hno _ Hread)) in Hp as [v' Hv'].
    apply prefix_rows in Hv'. rewrite Hnone in Hv'. by apply elem_of_nil in Hv'. }
  eexists _, _, _, _. split_and!; [done..|].
  destruct (ok_rows _ Hok' (apply_writes s0 (rt_writes t), map fst (rt_writes t))) as [Hc _]; [by left|]. cbn [fst] in Hc.
  rewrite get_placement_newest with (g := pe_gen e) (v := v) (row := placement_row e); [by destruct e|done..| |by apply from_to].
  rewrite Hw. unfold apply_writes, write. cbn [fold_left fst snd]. apply newest_row_only; [done|by rewrite kv_get_insert_eq|].
  intros g' Hg'. rewrite placed_insert, placed_claim by done. intros [[_ <-]|Hp]; [done|]. by apply Hfree in Hp.
Qed.

(** A deployment publishes itself only as the cell's one current life: when a
    publication succeeds its generation is the one placed in the state it commits
    on, and readers then see it; when it was overtaken, nothing changes. *)
Theorem commit_fenced (h h' : History (S := S)) answer began e outcome : reached h -> op_valid (OpCommit e) ->
  commit_placement answer began e h = (Ok outcome, h') ->
  exists s0 w0 s' w', h !! 0%nat = Some (s0, w0) /\ h' = (s', w') :: h /\
    if fence_applied outcome then
      (forall g, is_gen g -> placed s0 (pe_sri e) g <-> g = pe_gen e) /\
      get_placement all_done s' (pe_sri e) = Ok (Some e)
    else s' = s0 /\ w' = [].
Proof.
  intros Hr [Hs Hg] Hrun. pose proof (reached_ok _ Hr) as Hok.
  pose proof (reached_ok _ (reached_op h answer began (OpCommit e) Hr (conj Hs Hg))) as Hok'.
  cbn [run_op] in Hok'. rewrite Hrun in Hok'. cbn [snd] in Hok'.
  apply write_tx_ok in Hrun as (s & w & s0 & w0 & t & Hb & Hhd & Hcommit & Hno & ->).
  pose proof (do_commit_run answer e s) as Hd. rewrite Hcommit in Hd.
  eexists _, _, _, _. split_and!; [done..|]. destruct (fence_applied outcome) eqn:Ho.
  - destruct outcome; try done. destruct Hd as [[_ []]|(Hread & (gens & Hsees & Hmax) & _ & v & Hv & Hw)]; [done|].
    destruct (ok_rows _ Hok _ (list_elem_of_lookup_2 _ _ _ Hb)) as [Hcs _].
    destruct (ok_rows _ Hok _ (list_elem_of_lookup_2 _ _ _ Hhd)) as [Hc0 Hone]. cbn [fst] in *.
    assert (placed s0 (pe_sri e) (pe_gen e)) as Hp.
    { unfold placed. rewrite (ok_same _ Hok _ _ _ _ _ _ Hb Hhd (Hno _ Hread)). by eapply sees_placed, gen_max_elem. }
    assert (forall g, is_gen g -> placed s0 (pe_sri e) g -> g = pe_gen e) as Honly by (intros g Hg' Hp'; by eapply Hone).
    split; [intros g Hg'; split; [auto|by intros ->]|].
    destruct (ok_rows _ Hok' (apply_writes s0 (rt_writes t), map fst (rt_writes t))) as [Hc _]; [by left|]. cbn [fst] in Hc.
    rewrite get_placement_newest with (g := pe_gen e) (v := v) (row := placement_row e); [by destruct e|done..| |by apply from_to].
    rewrite Hw. unfold apply_writes, write. cbn [fold_left fst snd]. apply newest_row_only; [done|by rewrite kv_get_insert_eq|].
    intros g' Hg'. rewrite placed_insert by done. intros [[_ <-]|Hp']; auto.
  - destruct Hd as [[-> _]|(_ & _ & Hok2 & _)]; [done|]. by rewrite (Hok2 _ eq_refl) in Ho.
Qed.

(** ** Removals *)

Lemma get_placement_same (s s' : S) sri : canonical s -> canonical s' -> is_sri sri ->
  (forall g v, newest_row s sri g v <-> newest_row s' sri g v) -> get_placement all_done s sri = get_placement all_done s' sri.
Proof.
  intros Hc Hc' Hsri Hsame. rewrite !get_placement_eq. unfold newest_placements.
  destruct (read_newest placement_from_row s sri Hc Hsri) as [[Hnil ->]|(g & v & Hrow & ->)];
    destruct (read_newest placement_from_row s' sri Hc' Hsri) as [[Hnil' ->]|(g' & v' & Hrow' & ->)].
  - done.
  - apply Hsame in Hrow' as (_ & Hget%prefix_rows & _). rewrite Hnil in Hget. by apply elem_of_nil in Hget.
  - apply Hsame in Hrow as (_ & Hget%prefix_rows & _). rewrite Hnil' in Hget. by apply elem_of_nil in Hget.
  - apply Hsame in Hrow. by destruct (newest_row_unique _ _ _ _ _ _ Hrow Hrow') as [-> ->].
Qed.

(** Rows without a generation that is not the newest. *)
Lemma newest_row_without (s s' : S) sri g g0 v0 sri' : is_sri sri -> is_gen g -> is_sri sri' -> newest_row s sri g0 v0 -> g ≠ g0 ->
  (forall k, k ≠ generation_key sri g -> k ≠ placement_claim_key sri -> kv_get s' k = kv_get s k) ->
  (kv_get s' (generation_key sri g) = None \/ kv_get s' (generation_key sri g) = kv_get s (generation_key sri g)) ->
  forall g1 v1, newest_row s sri' g1 v1 <-> newest_row s' sri' g1 v1.
Proof.
  intros Hsri Hg Hsri' Hnew Hne Hsame Hown. pose proof Hnew as (Hg0 & Hget0 & Hmax0).
  assert (forall g2, is_gen g2 -> ~ (sri = sri' /\ g = g2) -> kv_get s' (generation_key sri' g2) = kv_get s (generation_key sri' g2)) as Hother.
  { intros g2 Hg2 Hn. apply Hsame; [|apply keys_apart]. intros Heq. apply Hn. apply generation_key_inj in Heq as [-> ->]; done. }
  assert (forall g2, is_gen g2 -> placed s' sri' g2 -> placed s sri' g2) as Hless.
  { intros g2 Hg2. unfold placed. destruct (decide (sri = sri' /\ g = g2)) as [[<- <-]|Hn]; [|by rewrite Hother].
    destruct Hown as [-> | ->]; [by intros []|done]. }
  intros g1 v1. split.
  - intros Hrow. assert (~ (sri = sri' /\ g = g1)) as Hn.
    { intros [<- <-]. by destruct (newest_row_unique _ _ _ _ _ _ Hrow Hnew). }
    destruct Hrow as (Hg1 & Hget1 & Hmax1). split_and!; [done|by rewrite Hother|auto].
  - intros (Hg1 & Hget1 & Hmax1). split_and!; [done| |].
    + destruct (decide (sri = sri' /\ g = g1)) as [[<- <-]|Hn]; [|by rewrite <- Hother]. destruct Hown as [Hnone|Heq]; congruence.
    + intros g2 Hg2 Hp. destruct (decide (sri = sri' /\ g = g2)) as [[<- <-]|Hn]; [|apply Hmax1; [done|unfold placed; by rewrite Hother]].
      assert (gen_ltb g1 g0 = false) as Hle.
      { apply Hmax1; [done|]. unfold placed. rewrite Hother; [by eexists|done|]. intros [_ ->]. done. }
      specialize (Hmax0 g Hg Hp). destruct (gen_ltb g1 g) eqn:Hlt; [|done].
      apply gen_ltb_false in Hmax0 as [Hmax0|]; [|congruence]. by rewrite (gen_ltb_trans _ _ _ Hlt Hmax0) in Hle.
Qed.

Lemma kv_get_deleted (s : S) ws k : Forall (fun w => w.2 = None) ws -> kv_get (apply_writes s ws) k = None \/ kv_get (apply_writes s ws) k = kv_get s k.
Proof.
  unfold apply_writes. intros Hall. revert s. induction Hall as [|[k' o] ws Ho _ IH]; intros s; [by right|]. cbn in Ho. subst o.
  cbn [fold_left]. destruct (IH (write s (k', None))) as [->|Heq]; [by left|]. rewrite Heq. unfold write. cbn [fst snd].
  rewrite kv_get_remove. case_decide; auto.
Qed.

Lemma canonical_deleted (s : S) ws : Forall (fun w => w.2 = None) ws -> canonical s -> canonical (apply_writes s ws).
Proof.
  intros Hall Hc k v Hk Hpre. destruct (kv_get_deleted s ws k Hall) as [Hn|Heq]; [congruence|]. apply (Hc k v); [by rewrite <- Heq|done].
Qed.

(** A removal that acts for an earlier life of a cell, such as one by a runtime
    back from the dead, changes what no reader sees: whatever it read and however
    its calls are answered, the placement of that cell and of every other one
    reads as before, as long as the life it names is not the newest. *)
Theorem stale_removal_unseen (h : History (S := S)) answer began sri g (s0 : S) w0 g0 v0 :
  is_sri sri -> is_gen g -> h !! 0%nat = Some (s0, w0) -> canonical s0 -> newest_row s0 sri g0 v0 -> g ≠ g0 ->
  exists s' w' h', (remove_placement answer began sri g h).2 = (s', w') :: h' /\
    forall sri', is_sri sri' -> get_placement all_done s' sri' = get_placement all_done s0 sri'.
Proof.
  intros Hsri Hg Hhd Hc Hnew Hne. unfold remove_placement, write_tx_in.
  destruct h as [|st h]; [done|]. injection Hhd as ->. destruct (_ !! began) as [[s w]|] eqn:Hb; [|by exists s0, w0, h].
  pose proof (do_remove_run answer sri g s) as Hrun. destruct (do_remove answer sri g (begin s)) as [r t].
  destruct (refuses _ _); [by exists s0, w0, h|]. eexists _, _, _. split; [done|]. intros sri' Hsri'.
  assert (rt_writes t ∈ [[]; [(generation_key sri g, None)]; [(generation_key sri g, None); (placement_claim_key sri, None)]]) as Hw.
  { destruct r; [rewrite Hrun; set_solver|done]. }
  assert (Forall (fun w : str * option bytes => w.2 = None) (rt_writes t) /\
    forall k, k ∈ map fst (rt_writes t) -> k = generation_key sri g \/ k = placement_claim_key sri) as [Hdel Hkeys].
  { clear Hrun. rewrite !elem_of_cons, elem_of_nil in Hw. destruct Hw as [->|[->|[->|[]]]];
      (split; [by repeat constructor|cbn [map fst]; set_solver]). }
  apply get_placement_same; [by apply canonical_deleted|done..|]. intros g1 v1. symmetry.
  apply (newest_row_without s0 _ sri g g0 v0); [done..| |by apply kv_get_deleted].
  intros k Hk1 Hk2. apply kv_get_writes. intros Hin. by destruct (Hkeys _ Hin).
Qed.

(** ** The instance registry *)

Definition deletes (sri : Sri) (gens : list Gen) : list (str * option bytes) := map (fun g => (generation_key sri g, None)) gens.

Lemma remove_row_run answer sri g (t : RowTx (S := S)) : let '(r, t') := remove_row answer sri g t in
  match r with
  | Ok _ => rt_writes t' = rt_writes t ++ deletes sri [g]
  | Err _ => rt_writes t' = rt_writes t \/ rt_writes t' = rt_writes t ++ deletes sri [g]
  end.
Proof.
  unfold remove_row, newest_generation, generations, get_key, list_keys, delete_key, write_key, mbind, calls_bind, mret, calls_ret, lift_res, call.
  cbn -[mapM_res generation_key]. repeat (case_match; cbn -[mapM_res generation_key]; simplify_eq); cbn [rt_writes] in *; auto.
Qed.

Lemma remove_rows_run answer sri older : forall (t : RowTx (S := S)), let '(r, t') := remove_rows answer sri older t in
  match r with
  | Ok _ => rt_writes t' = rt_writes t ++ deletes sri older
  | Err _ => exists n, rt_writes t' = rt_writes t ++ deletes sri (take n older)
  end.
Proof.
  induction older as [|g older IH]; intros t; cbn; [by rewrite app_nil_r|]. unfold mbind, calls_bind.
  pose proof (remove_row_run answer sri g t) as Hrun. destruct (remove_row answer sri g t) as [[o|e] t1].
  - specialize (IH t1). destruct (remove_rows answer sri older t1) as [[u|e] t']; rewrite Hrun in IH.
    + by rewrite IH, <- app_assoc.
    + destruct IH as [n ->]. exists (Datatypes.S n). by rewrite <- app_assoc.
  - destruct Hrun as [-> | ->]; [exists 0%nat; by rewrite app_nil_r|by exists 1%nat].
Qed.

Lemma deletes_deleted sri gens : Forall (fun w : str * option bytes => w.2 = None) (deletes sri gens).
Proof. apply Forall_forall. by intros w (g & -> & _)%list_elem_of_fmap. Qed.

Lemma placed_deleted (s : S) sri gens sri' g : is_sri sri -> Forall is_gen gens -> is_sri sri' -> is_gen g ->
  placed (apply_writes s (deletes sri gens)) sri' g <-> placed s sri' g /\ ~ (sri = sri' /\ g ∈ gens).
Proof.
  intros Hs Hgens Hs' Hg. unfold apply_writes, deletes. revert s. induction Hgens as [|g0 gens Hg0 _ IH]; intros s; cbn [map fold_left].
  - set_solver.
  - rewrite IH. unfold placed at 1, write. cbn [fst snd]. rewrite kv_get_remove. case_decide as Heq.
    + apply generation_key_inj in Heq as [-> ->]; [|done..]. split; [by intros [[] _]|]. intros [_ []]. set_solver.
    + split; intros [Hp Hn]; (split; [done|]); intros [-> Hin]; apply Hn; (split; [done|]); [|by right].
      apply elem_of_cons in Hin as [->|]; done.
Qed.

(** An insertion that succeeds removes the older generations among those it saw and
    writes its own. *)
Lemma insert_run answer record (s : S) t : do_insert_registry_entry answer record (begin s) = (Ok tt, t) ->
  exists gens v, sees s (ci_sri record) gens /\ to_allocvec (instance_row record) = Some v /\
    rt_writes t = deletes (ci_sri record) (List.filter (fun g => gen_ltb g (ci_gen record)) gens) ++
      [(generation_key (ci_sri record) (ci_gen record), Some v)].
Proof.
  unfold do_insert_registry_entry, write_registry_entry, generations, list_keys, mbind, calls_bind, lift_res, call at 1.
  cbn -[mapM_res generation_key remove_rows put_row]. destruct (answer 0%nat); [|done..]. cbn -[mapM_res generation_key remove_rows put_row].
  destruct (mapM_res _ _) as [gens|] eqn:Hgens; [|done].
  match goal with |- context [remove_rows answer _ ?l ?t0] => pose proof (remove_rows_run answer (ci_sri record) l t0) as Hrun;
    destruct (remove_rows answer (ci_sri record) l t0) as [[u|] t1]; [|done] end.
  destruct (to_allocvec (instance_row record)) as [v|] eqn:Hv; [|done]. cbn -[generation_key]. unfold put_row, write_key, call.
  destruct (answer (rt_calls t1)); intros [= <-]; cbn. exists gens, v. by rewrite Hrun.
Qed.

Lemma writes_app (s : S) ws ws' : apply_writes s (ws ++ ws') = apply_writes (apply_writes s ws) ws'.
Proof. apply fold_left_app. Qed.

Lemma writes_put (s : S) k v : apply_writes s [(k, Some v)] = kv_insert s k v.
Proof. done. Qed.

(** A removal whose calls are carried out. *)
Lemma remove_done sri g (s : S) : canonical s -> is_sri sri -> rt_writes (remove_row all_done sri g (begin s)).2 = deletes sri [g].
Proof.
  intros Hc Hsri. destruct (sees_all s sri Hc Hsri) as [gens Hgens]. unfold sees in Hgens.
  unfold remove_row, newest_generation, generations, get_key, list_keys, delete_key, write_key, mbind, calls_bind, mret, calls_ret, lift_res, call.
  cbn -[mapM_res generation_key generations_of parse_generation_key]. by rewrite Hgens.
Qed.

Lemma remove_instance_done sri g (s : S) w h : canonical s -> is_sri sri ->
  (remove_instance (Ok None) all_done 0 sri g ((s, w) :: h)).2 =
    (apply_writes s (deletes sri [g]), map fst (deletes sri [g])) :: (s, w) :: h.
Proof.
  intros Hc Hsri. unfold remove_instance, write_tx_in. cbn [lookup list_lookup take].
  pose proof (remove_done sri g s Hc Hsri) as Hw. destruct (remove_row all_done sri g (begin s)) as [r t]. cbn [snd] in Hw.
  cbn [map]. by rewrite refuses_nothing, Hw.
Qed.

(** Inserting a record leaves no older life of the cell in the registry that
    could come back into view: the generations left are its own and the newer
    ones; without a newer one readers see the record, and removing it then leaves
    the cell without any. *)
Theorem insert_leaves_no_older answer record (s0 : S) w0 h h' : is_sri (ci_sri record) -> is_gen (ci_gen record) -> canonical s0 ->
  insert_registry_entry answer 0 record ((s0, w0) :: h) = (Ok tt, h') ->
  exists s' w', h' = (s', w') :: (s0, w0) :: h /\ canonical s' /\
    (forall g, is_gen g -> placed s' (ci_sri record) g <->
      g = ci_gen record \/ (placed s0 (ci_sri record) g /\ gen_ltb (ci_gen record) g = true)) /\
    ((forall g, is_gen g -> placed s0 (ci_sri record) g -> gen_ltb (ci_gen record) g = false) ->
      get_instance all_done s' (ci_sri record) = Ok (Some record) /\
      exists s'' w'', (remove_instance (Ok None) all_done 0 (ci_sri record) (ci_gen record) h').2 = (s'', w'') :: h' /\
        get_instance all_done s'' (ci_sri record) = Ok None).
Proof.
  intros Hs Hg Hc (s & w & s1 & w1 & t & [= <- <-] & [= <- <-] & Hrun & _ & ->)%write_tx_ok.
  apply insert_run in Hrun as (gens & v & Hsees & Hv & Hw).
  assert (forall g, g ∈ gens <-> is_gen g /\ placed s0 (ci_sri record) g) as Hgens by (intros g; by apply sees_placed).
  set (older := List.filter _ gens) in Hw. assert (Forall is_gen older) as Hold.
  { apply Forall_forall. intros g [Hin _]%elem_of_filterb. by apply Hgens. }
  rewrite Hw, writes_app, writes_put. eexists _, _. split; [done|].
  set (s' := kv_insert _ _ _). assert (canonical s') as Hc'.
  { apply canonical_insert; [done..|]. apply canonical_deleted; [apply deletes_deleted|done]. }
  assert (forall g, is_gen g -> placed s' (ci_sri record) g <->
    g = ci_gen record \/ (placed s0 (ci_sri record) g /\ gen_ltb (ci_gen record) g = true)) as Hleft.
  { intros g Hg'. unfold s'. rewrite placed_insert, placed_deleted by done. unfold older. rewrite elem_of_filterb, Hgens.
    split; [|intros [->|[Hp Hlt]]; [by left|]].
    - intros [[_ ->]|[Hp Hn]]; [by left|]. destruct (gen_ltb g (ci_gen record)) eqn:Hlt; [by destruct Hn|].
      apply gen_ltb_false in Hlt as [Hlt| ->]; auto.
    - right. split; [done|]. intros (_ & _ & Hlt'). pose proof (gen_ltb_trans _ _ _ Hlt Hlt') as Hbad. by rewrite gen_ltb_irrefl in Hbad. }
  split_and!; [done..|]. intros Hnewest.
  assert (forall g, is_gen g -> placed s' (ci_sri record) g -> g = ci_gen record) as Honly.
  { intros g Hg' [->|[Hp Hlt]]%Hleft; [done| |done]. by rewrite Hnewest in Hlt. }
  split.
  - rewrite get_instance_newest with (g := ci_gen record) (v := v) (row := instance_row record); [by destruct record|done..| |by apply from_to].
    apply newest_row_only; [done|unfold s'; by rewrite kv_get_insert_eq|done].
  - eexists _, _. split; [by apply remove_instance_done|]. apply get_instance_none; [|done|].
    + apply canonical_deleted; [apply deletes_deleted|done].
    + intros g Hg'. rewrite placed_deleted by (try done; by constructor). intros [Hp Hn]. apply Hn. split; [done|].
      rewrite (Honly g Hg' Hp). by left.
Qed.

End Life.

Import MapKv.

(** ** Samples

    Identifiers printed as thirty-two digits, a commit check that refuses what it must,
    and a serialisation of two placements and one instance. *)

#[local] Instance sample_text : SriText := {
  sri_str s := hex_digits 32 s;
  sri_parse t := if (length t =? 32)%nat then from_str_radix_16 128 t else None;
}.

#[local] Instance sample_check : CommitCheck := {
  refuses reads since := existsb (fun k => existsb (fun ks => bool_decide (k ∈ ks)) since) reads;
}.
#[local] Instance sample_check_laws : CommitCheckLaws.
Proof.
  split; [|intros reads; by induction reads]. intros reads since Hc k Hk ks Hks Hin. apply not_true_iff_false in Hc. apply Hc, existsb_exists.
  exists k. split; [by apply list_elem_of_In|]. apply existsb_exists. exists ks. split; [by apply list_elem_of_In|].
  by apply bool_decide_eq_true_2.
Qed.

Lemma hex_digits_no_slash n z : slash ∉ hex_digits n z.
Proof.
  revert z. induction n as [|n IH]; intros z; cbn [hex_digits]; [by intros ?%elem_of_nil|].
  rewrite elem_of_app, list_elem_of_singleton. intros [Hin|Heq]; [by apply IH in Hin|].
  pose proof (hex_value_char (z mod 16) (Z.mod_pos_bound z 16 eq_refl)) as Hv. by rewrite <- Heq in Hv.
Qed.

#[local] Instance sample_text_laws : SriTextLaws.
Proof.
  split; [|intros s; apply hex_digits_no_slash]. intros s Hs. cbn [sri_parse sri_str sample_text].
  rewrite hex_digits_length. cbn [Nat.eqb]. by apply from_str_radix_digits.
Qed.

#[local] Instance PlacementKind_eq_dec : EqDecision PlacementKind. Proof. solve_decision. Defined.
#[local] Instance PlacementRow_eq_dec : EqDecision PlacementRow. Proof. solve_decision. Defined.
#[local] Instance SpawnLineage_eq_dec : EqDecision SpawnLineage. Proof. solve_decision. Defined.
#[local] Instance InstanceRow_eq_dec : EqDecision InstanceRow. Proof. solve_decision. Defined.

Definition placeholder_row : PlacementRow := mkPlacementRow Placeholder None.
Definition wasm_row : PlacementRow := mkPlacementRow (Wasm 7) None.
Definition sample_instance_row : InstanceRow := mkInstanceRow [x05] (mkLineage None None false None None None).

#[local] Instance sample_placement_codec : Postcard PlacementRow := {
  to_allocvec r := if decide (r = placeholder_row) then Some [x00] else if decide (r = wasm_row) then Some [x01] else None;
  from_bytes b := if decide (b = [x00]) then Some placeholder_row else if decide (b = [x01]) then Some wasm_row else None;
}.
#[local] Instance sample_placement_laws : PostcardLaws PlacementRow.
Proof. split. intros r b. cbn. repeat case_decide; congruence. Qed.

#[local] Instance sample_instance_codec : Postcard InstanceRow := {
  to_allocvec r := if decide (r = sample_instance_row) then Some [x02] else None;
  from_bytes b := if decide (b = [x02]) then Some sample_instance_row else None;
}.
#[local] Instance sample_instance_laws : PostcardLaws InstanceRow.
Proof. split. intros r b. cbn. repeat case_decide; congruence. Qed.

Definition sample_gen : Gen := mkGen 100 3.
Definition sample_claim : PlacementEntry := mkPlacement 42 Placeholder None sample_gen.
Definition sample_published : PlacementEntry := mkPlacement 42 (Wasm 7) None sample_gen.
Definition sample_start : History (S := MapKv.store) := [(∅, [])].
Definition sample_claimed : History (S := MapKv.store) := (claim_placement all_done 0 sample_claim sample_start).2.

Lemma sample_valid : op_valid (OpClaim sample_claim) /\ op_valid (OpCommit sample_published).
Proof. cbn [op_valid pe_sri pe_gen sample_claim sample_published]. unfold is_sri, is_gen, is_u64. cbn [g_time g_id sample_gen]. lia. Qed.

Lemma sample_reached : reached sample_start /\ reached sample_claimed.
Proof.
  assert (reached sample_start) as Hs by by apply reached_start. split; [done|].
  apply (reached_op sample_start all_done 0 (OpClaim sample_claim) Hs), sample_valid.
Qed.

Lemma fst_returned {A B} (x : A * B) a : x.1 = a -> x = (a, x.2).
Proof. by destruct x; intros <-. Qed.

Lemma claim_exclusive_witness : exists s' w', claim_placement all_done 0 sample_claim sample_start = (Ok Claimed, (s', w') :: sample_start) /\
  get_placement all_done s' 42 = Ok (Some sample_claim).
Proof.
  destruct (claim_exclusive sample_start (proj1 sample_reached)) as [_ Hc].
  assert (claim_placement all_done 0 sample_claim sample_start = (Ok Claimed, sample_claimed)) as Hrun
    by (apply fst_returned; vm_compute; reflexivity).
  destruct (Hc all_done 0%nat sample_claim sample_claimed (proj1 sample_valid) Hrun) as (s0 & w0 & s' & w' & _ & Hh & _ & Hget).
  exists s', w'. split; [|exact Hget]. rewrite <- Hh. exact Hrun.
Defined.

Lemma commit_fenced_witness : exists s' w', (commit_placement all_done 1 sample_published sample_claimed).1 = Err RowConflict /\
  commit_placement all_done 0 sample_published sample_claimed = (Ok Applied, (s', w') :: sample_claimed) /\
  get_placement all_done s' 42 = Ok (Some sample_published).
Proof.
  assert (commit_placement all_done 0 sample_published sample_claimed =
    (Ok Applied, (commit_placement all_done 0 sample_published sample_claimed).2)) as Hrun
    by (apply fst_returned; vm_compute; reflexivity).
  destruct (commit_fenced sample_claimed _ all_done 0 sample_published Applied (proj2 sample_reached) (proj2 sample_valid) Hrun)
    as (s0 & w0 & s' & w' & _ & Hh & _ & Hget).
  exists s', w'. split; [vm_compute; reflexivity|]. split; [|exact Hget]. rewrite Hrun at 1. by rewrite Hh.
Defined.

Definition older_gen : Gen := mkGen 50 3.
Definition sample_two : MapKv.store :=
  kv_insert (kv_insert ∅ (generation_key 42 older_gen) [x00]) (generation_key 42 sample_gen) [x01].
Definition sample_older : MapKv.store := kv_insert ∅ (generation_key 42 older_gen) [x02].
Definition sample_record : CellInstance := mkInstance 42 [x05] sample_gen (mkLineage None None false None None None).

Lemma sample_sri : is_sri 42.
Proof. unfold is_sri. lia. Qed.
Lemma sample_gens : is_gen sample_gen /\ is_gen older_gen.
Proof. unfold is_gen, is_u64. cbn [g_time g_id sample_gen older_gen]. lia. Qed.
Lemma canonical_empty : canonical (∅ : MapKv.store).
Proof. intros k v Hk. done. Qed.
Lemma sample_older_canonical v : canonical (kv_insert (∅ : MapKv.store) (generation_key 42 older_gen) v).
Proof. apply canonical_insert; [apply sample_sri|apply sample_gens|apply canonical_empty]. Qed.
Lemma sample_older_placed v g : is_gen g -> placed (kv_insert (∅ : MapKv.store) (generation_key 42 older_gen) v) 42 g -> g = older_gen.
Proof. intros Hg. rewrite placed_insert by (try apply sample_sri; try apply sample_gens; done). intros [[_ <-]|[? ?]]; done. Qed.

Lemma sample_two_newest : canonical sample_two /\ newest_row sample_two 42 sample_gen [x01].
Proof.
  split; [apply canonical_insert; [apply sample_sri|apply sample_gens|apply sample_older_canonical]|].
  split; [apply sample_gens|]. split; [apply kv_get_insert_eq|]. intros g Hg. unfold sample_two.
  rewrite placed_insert by (try apply sample_sri; try apply sample_gens; done).
  intros [[_ <-]| ->%sample_older_placed]; [done|done|done].
Qed.

Lemma stale_removal_unseen_witness : exists s' w' h',
  (remove_placement all_done 0 42 older_gen [(sample_two, [])]).2 = (s', w') :: h' /\
  get_placement all_done s' 42 = Ok (Some sample_published).
Proof.
  destruct (stale_removal_unseen [(sample_two, [])] all_done 0 42 older_gen sample_two [] sample_gen [x01] sample_sri (proj2 sample_gens)
    eq_refl (proj1 sample_two_newest) (proj2 sample_two_newest)) as (s' & w' & h' & Hh & Hget); [done|].
  exists s', w', h'. split; [exact Hh|]. rewrite (Hget 42 sample_sri). vm_compute. reflexivity.
Defined.

Lemma insert_leaves_no_older_witness : exists s' w',
  insert_registry_entry all_done 0 sample_record [(sample_older, [])] = (Ok tt, [(s', w'); (sample_older, [])]) /\
  get_instance all_done s' 42 = Ok (Some sample_record).
Proof.
  assert (insert_registry_entry all_done 0 sample_record [(sample_older, [])] =
    (Ok tt, (insert_registry_entry all_done 0 sample_record [(sample_older, [])]).2)) as Hrun
    by (apply fst_returned; vm_compute; reflexivity).
  destruct (insert_leaves_no_older all_done sample_record sample_older [] [] _ sample_sri (proj1 sample_gens)
    (sample_older_canonical [x02]) Hrun) as (s' & w' & Hh & _ & _ & Hnew).
  exists s', w'. rewrite Hrun, Hh. split; [done|]. apply Hnew. intros g Hg ->%sample_older_placed; [|done]. done.
Defined.

(** An insertion whose last call is refused reports a failure, and commits the
    removal of the older generation before it: the cell had an instance, and has
    none. *)
Theorem failed_insert_loses :
  let answer n := if decide (n = 4%nat) then Declined else Done in
  let run := insert_registry_entry answer 0 sample_record [(sample_older, [])] in
  run.1 = Err RowDb /\
  get_instance all_done sample_older 42 = Ok (Some (mkInstance 42 [x05] older_gen (mkLineage None None false None None None))) /\
  match run.2 with (s', _) :: _ => get_instance all_done s' 42 = Ok None | [] => False end.
Proof. vm_compute. split_and!; reflexivity. Qed.
