(* ===== verification/Exec.v ===== *)
(** * The execution runtime's supervision

    [src/swarm/sorg-execution]: which cells a runtime hosts, what it does when
    one of them ends, the pass that checks each of them against the rows
    ([event_loop/supervision_pass.rs]), and the sweep of what an earlier process
    of the same node left behind ([supervision/startup.rs]).

    A cell's handle is its entry of [cells]: dropping it ends the cell.  What a
    pass reads is a record of answers, by the number of the read where one could
    be read twice; what it sends is the reports it returns. *)

From S2P Require Import Prelude Bytes Domain Store Supervision Hygiene Skew.
From Stdlib Require Import ZArith Lia Strings.Byte.
From stdpp Require Import base list option gmap sets.

Local Open Scope Z_scope.

Module Exec.

(** ** Reports of deaths *)

Inductive Report :=
  | CellLost (parent cell : Sri) (local_name : option str) (reason : LostReason)
  | RecordRoot (cell : Sri) (gen_id : Gen) (reason : LostReason).

Definition report_cell_death (cell : Sri) (gen_id : Gen) (parent : option Sri) (detached : bool) (local_name : option str)
    (reason : LostReason) : option Report :=
  if detached then None
  else match parent with
       | Some parent => Some (CellLost parent cell local_name reason)
       | None => Some (RecordRoot cell gen_id reason)
       end.

(** ** The runtime *)

Inductive CleanupAction := ReleaseCell (sri : Sri) (g : Gen) | RemoveInstance (sri : Sri) (g : Gen).
#[export] Instance CleanupAction_eq_dec : EqDecision CleanupAction. Proof. solve_decision. Defined.

Record Runtime := mkRuntime {
  ex_id : RuntimeId;
  ex_cells : gset Sri;
  ex_timing : SupervisionTiming;
  ex_meta : gmap Sri WatchedCell;
  ex_fencing : FencingState;
  ex_tracker : Tracker;
  ex_skew : ClockSkewWatch;
  ex_cleanup : list CleanupAction;
  ex_sweep_done : bool;
}.

Definition runtime_new (id : RuntimeId) (now : Instant) : Runtime :=
  mkRuntime id ∅ TIMING_DEFAULT ∅ [] (tk_new now) skew_new [] false.

Definition set_hosted (cells : gset Sri) (meta : gmap Sri WatchedCell) (fencing : FencingState) (rt : Runtime) : Runtime :=
  mkRuntime (ex_id rt) cells (ex_timing rt) meta fencing (ex_tracker rt) (ex_skew rt) (ex_cleanup rt) (ex_sweep_done rt).
Definition set_fencing (fencing : FencingState) (rt : Runtime) : Runtime := set_hosted (ex_cells rt) (ex_meta rt) fencing rt.
Definition set_cleanup (cleanup : list CleanupAction) (rt : Runtime) : Runtime :=
  mkRuntime (ex_id rt) (ex_cells rt) (ex_timing rt) (ex_meta rt) (ex_fencing rt) (ex_tracker rt) (ex_skew rt) cleanup (ex_sweep_done rt).
Definition set_watch (tracker : Tracker) (skew : ClockSkewWatch) (rt : Runtime) : Runtime :=
  mkRuntime (ex_id rt) (ex_cells rt) (ex_timing rt) (ex_meta rt) (ex_fencing rt) tracker skew (ex_cleanup rt) (ex_sweep_done rt).
Definition set_sweep (done : bool) (rt : Runtime) : Runtime :=
  mkRuntime (ex_id rt) (ex_cells rt) (ex_timing rt) (ex_meta rt) (ex_fencing rt) (ex_tracker rt) (ex_skew rt) (ex_cleanup rt) done.
Definition push_cleanup (actions : list CleanupAction) (rt : Runtime) : Runtime := set_cleanup (ex_cleanup rt ++ actions) rt.

(** ** Deploying, undeploying, ending *)

(** [deploy_cell_inner], from where the cell runs: its task is started by [run_cell]. *)
Definition deploy_cell (sri : Sri) (g : Gen) (lineage : SpawnLineage) (rt : Runtime) : Runtime :=
  set_hosted ({[sri]} ∪ ex_cells rt) (<[sri := mkWatched sri g lineage]> (ex_meta rt)) (ex_fencing rt) rt.

Definition kill_local (sri : Sri) (rt : Runtime) : Runtime :=
  set_hosted (ex_cells rt ∖ {[sri]}) (delete sri (ex_meta rt)) (forget sri (ex_fencing rt)) rt.

Inductive UndeployError := NotHosted | HostedAs (g : Gen).

Definition undeploy_cell (sri : Sri) (g : Gen) (rt : Runtime) : res UndeployError unit * Runtime :=
  match wc_gen <$> ex_meta rt !! sri with
  | None => (Err NotHosted, rt)
  | Some hosted => if bool_decide (hosted ≠ g) then (Err (HostedAs hosted), rt) else (Ok tt, kill_local sri rt)
  end.

Definition exit_is_crash (hosted : option Gen) (exited : Gen) : bool :=
  match hosted with None => true | Some hosted => bool_decide (hosted = exited) end.

Definition handle_cell_exited (sri : Sri) (g : Gen) (rt : Runtime) : option Report * Runtime :=
  if negb (bool_decide (sri ∈ ex_cells rt)) then (None, rt)
  else
    let meta := ex_meta rt !! sri in
    if negb (exit_is_crash (wc_gen <$> meta) g) then (None, rt)
    else
      let rt := kill_local sri rt in
      match meta with
      | None => (None, rt)
      | Some m =>
          (report_cell_death sri (wc_gen m) (ln_parent (wc_lineage m)) (ln_detached (wc_lineage m)) (ln_local_name (wc_lineage m)) Crashed,
           push_cleanup [ReleaseCell sri (wc_gen m); RemoveInstance sri (wc_gen m)] rt)
      end.

(** ** What an earlier process left *)

Definition select_remnants (cells : list PlacementEntry) (my_exec : RuntimeId) (hosted : gset Sri) : list (Sri * Gen) :=
  map (fun c => (pe_sri c, pe_gen c)) (List.filter (fun c =>
    match pe_kind c with Wasm runtime => bool_decide (runtime = my_exec) | _ => false end &&
    negb (bool_decide (pe_sri c ∈ hosted))) cells).

(** The rows as a sweep reads them, and which of its reports and of its removals of
    placements and instances succeed. *)
Record SweepInput := mkSweep {
  si_placements : option (list PlacementEntry);
  si_instance : Sri -> res unit (option CellInstance);
  si_sent : Sri -> bool;
  si_released : Sri -> bool;
  si_removed : Sri -> bool;
}.

Definition death_of (i : CellInstance) (sri : Sri) : option Report :=
  report_cell_death sri (ci_gen i) (ln_parent (ci_lineage i)) (ln_detached (ci_lineage i)) (ln_local_name (ci_lineage i)) Crashed.

(** One remnant: [None] is [continue] after a failure. *)
Definition sweep_remnant (inp : SweepInput) (remnant : Sri * Gen) : option (list Report * list CleanupAction) :=
  let '(sri, g) := remnant in
  match si_instance inp sri with
  | Err _ => None
  | Ok None => Some ([], [ReleaseCell sri g])
  | Ok (Some instance) =>
      match death_of instance sri with
      | Some report => if si_sent inp sri then Some ([report], [ReleaseCell sri g; RemoveInstance sri (ci_gen instance)]) else None
      | None => Some ([], [ReleaseCell sri g; RemoveInstance sri (ci_gen instance)])
      end
  end.

Definition sweep_step (inp : SweepInput) (st : bool * list Report * Runtime) (remnant : Sri * Gen) : bool * list Report * Runtime :=
  let '(complete, reports, rt) := st in
  match sweep_remnant inp remnant with
  | Some (sent, owed) => (complete, reports ++ sent, push_cleanup owed rt)
  | None => (false, reports, rt)
  end.

Definition startup_sweep (inp : SweepInput) (rt : Runtime) : bool * list Report * Runtime :=
  match si_placements inp with
  | None => (false, [], rt)
  | Some cells => fold_left (sweep_step inp) (select_remnants cells (ex_id rt) (ex_cells rt)) (true, [], rt)
  end.

(** [sweep_previous_incarnation], before the runtime is available: the reports sent and
    the rows removed, an instance's only after its placement's. *)
Definition boot_remnant (inp : SweepInput) (remnant : Sri * Gen) : list Report * list CleanupAction :=
  let '(sri, g) := remnant in
  match si_instance inp sri with
  | Err _ => ([], [])
  | Ok instance =>
      let note :=
        match instance with
        | Some i => if negb (ln_detached (ci_lineage i))
                    then (fun parent => CellLost parent sri (ln_local_name (ci_lineage i)) Crashed) <$> ln_parent (ci_lineage i)
                    else None
        | None => None
        end in
      let released :=
        if si_released inp sri
        then ReleaseCell sri g ::
               match instance with Some i => if si_removed inp sri then [RemoveInstance sri (ci_gen i)] else [] | None => [] end
        else [] in
      match note with
      | Some note => if si_sent inp sri then ([note], released) else ([], [])
      | None => ([], released)
      end
  end.

Definition sweep_previous_incarnation (inp : SweepInput) (my_exec : RuntimeId) : list Report * list CleanupAction :=
  match si_placements inp with
  | None => ([], [])
  | Some cells =>
      fold_left (fun '(reports, released) remnant =>
        let '(sent, gone) := boot_remnant inp remnant in (reports ++ sent, released ++ gone))
      (select_remnants cells my_exec ∅) ([], [])
  end.

(** ** The pass *)

(** Every owed cleanup is tried, what fails is kept; the actions carried out and the rest. *)
Fixpoint try_all (succeeds : nat -> bool) (n : nat) (pending : list CleanupAction) : list CleanupAction * list CleanupAction :=
  match pending with
  | [] => ([], [])
  | action :: pending =>
      let '(done, kept) := try_all succeeds (Datatypes.S n) pending in
      if succeeds n then (action :: done, kept) else (done, action :: kept)
  end.
Definition drain_cleanup (succeeds : nat -> bool) (rt : Runtime) : list CleanupAction * Runtime :=
  let '(done, kept) := try_all succeeds 0 (ex_cleanup rt) in (done, set_cleanup kept rt).

Record VerifyInput := mkVerify {
  vi_sweep : SweepInput;
  vi_cleaned : nat -> bool;
  vi_local_ms : option Z;
  vi_scan_at : Instant;
  vi_leases : option (list (RuntimeId * NodeLease));
  vi_leases_at : Instant;
  vi_now : Instant;
  vi_placement : nat -> Sri -> res unit (option PlacementEntry);
}.

(** The rows read so far in a pass. *)
Abbreviation RowCache := (gmap Z (RowRead RowFacts)) (only parsing).

Definition facts_of (my_exec : RuntimeId) (r : res unit (option PlacementEntry)) : RowRead RowFacts :=
  match r with
  | Ok (Some entry) => ROk (default my_exec (host (pe_kind entry)), pe_gen entry)
  | Ok None => RAbsent
  | Err _ => RFailed
  end.

Definition read_row (inp : VerifyInput) (my_exec : RuntimeId) (sri : Sri) (cache : RowCache) : RowRead RowFacts * RowCache :=
  match cache !! sri with
  | Some hit => (hit, cache)
  | None => let read := facts_of my_exec (vi_placement inp (size cache) sri) in (read, <[sri := read]> cache)
  end.

Definition parent_expired (now : Instant) (timing : SupervisionTiming) (tracker : Tracker) (grace_ms : option Z)
    (row : RowRead RowFacts) : option bool :=
  match row with
  | ROk (node, _) =>
      let tolerance :=
        match from_millis <$> grace_ms with
        | Some grace => grace
        | None => default (tm_ttl timing) (tk_ttl_of tracker node)
        end in
      Some (match tk_stale_for tracker node now with Some stale => tolerance <? stale | None => false end)
  | _ => None
  end.

Definition gather (inp : VerifyInput) (rt : Runtime) (cell : WatchedCell) (cache : RowCache) : Evidence * RowCache :=
  let '(self_row, cache) := read_row inp (ex_id rt) (wc_sri cell) cache in
  match ln_parent (wc_lineage cell), ln_detached (wc_lineage cell) with
  | Some parent, false =>
      let '(row, cache) := read_row inp (ex_id rt) parent cache in
      (mkEvidence self_row row (parent_expired (vi_now inp) (ex_timing rt) (ex_tracker rt) (ln_grace_ms (wc_lineage cell)) row), cache)
  | _, _ => (mkEvidence self_row RFailed None, cache)
  end.

Definition verify_cell (inp : VerifyInput) (st : Runtime * RowCache) (cell : WatchedCell) : Runtime * RowCache :=
  let '(rt, cache) := st in
  let '(ev, cache) := gather inp rt cell cache in
  let '(verdict, fencing) := evaluate (ex_id rt) cell ev (ex_fencing rt) in
  let rt := set_fencing fencing rt in
  match verdict with
  | Kill _ => (push_cleanup [ReleaseCell (wc_sri cell) (wc_gen cell); RemoveInstance (wc_sri cell) (wc_gen cell)]
                 (kill_local (wc_sri cell) rt), cache)
  | Keep => (rt, cache)
  end.

Definition watch_leases (inp : VerifyInput) (rt : Runtime) : option SkewReport * Runtime :=
  match vi_leases inp with
  | Some leases =>
      let tracker := observe_all leases (vi_leases_at inp) (ex_tracker rt) in
      let '(report, skew) := sample (ex_id rt) (vi_local_ms inp) (vi_scan_at inp)
        (map (fun e : RuntimeId * NodeLease => (e.1, nl_seq e.2, nl_ttl_ms e.2)) leases) (ex_skew rt) in
      (report, set_watch tracker skew rt)
  | None => (None, rt)
  end.

Definition verify_pass (inp : VerifyInput) (rt : Runtime) : list Report * list CleanupAction * option SkewReport * Runtime :=
  let '(reports, rt) :=
    if ex_sweep_done rt then ([], rt)
    else let '(done, reports, rt) := startup_sweep (vi_sweep inp) rt in (reports, set_sweep done rt) in
  let '(cleaned, rt) := drain_cleanup (vi_cleaned inp) rt in
  let '(skewed, rt) := watch_leases inp rt in
  let watched := map snd (map_to_list (ex_meta rt)) in
  (reports, cleaned, skewed, (fold_left (verify_cell inp) watched (rt, ∅)).1).

(** ** The event loop *)

Inductive Event :=
  | CellDeployed (sri : Sri) (g : Gen) (lineage : SpawnLineage)
  | CellUndeploy (sri : Sri) (g : Gen)
  | CellExited (sri : Sri) (g : Gen)
  | VerifyPass (inp : VerifyInput).

Definition process_event (event : Event) (rt : Runtime) : Runtime :=
  match event with
  | CellDeployed sri g lineage => deploy_cell sri g lineage rt
  | CellUndeploy sri g => (undeploy_cell sri g rt).2
  | CellExited sri g => (handle_cell_exited sri g rt).2
  | VerifyPass inp => (verify_pass inp rt).2
  end.

End Exec.
