(* ===== verification/ExecFacts.v ===== *)
(** * What the execution runtime's supervision rests on

    A pass decides each hosted cell by its own history of reads, whatever else
    it hosts; rows are released only of cells that are not hosted; and a root
    swept when its node restarts is given up by the orchestrator. *)

From S2P Require Import Prelude Bytes Domain Kv Store Supervision SupervisionFacts Hygiene Skew Exec WatchFacts RestartFacts SupervisionLoop.
From Stdlib Require Import ZArith Lia Strings.Byte.
From stdpp Require Import base list option gmap sets.

Local Open Scope Z_scope.

Import Exec.

(** ** What a runtime hosts *)

Record hosting (rt : Runtime) : Prop := mkHosting {
  ho_cells : ex_cells rt = dom (ex_meta rt);
  ho_sri : forall sri w, ex_meta rt !! sri = Some w -> wc_sri w = sri;
}.

Lemma hosting_kill sri rt : hosting rt -> hosting (kill_local sri rt).
Proof.
  intros [Hc Hs]. split; cbn; [by rewrite dom_delete_L, Hc|]. intros sri' w [_ Hw]%lookup_delete_Some. by apply Hs.
Qed.

Lemma hosting_same rt rt' : ex_cells rt' = ex_cells rt -> ex_meta rt' = ex_meta rt -> hosting rt -> hosting rt'.
Proof. intros Hc Hm [Hcells Hs]. split; [by rewrite Hc, Hm|]. by rewrite Hm. Qed.

Lemma hosting_deploy sri g lineage rt : hosting rt -> hosting (deploy_cell sri g lineage rt).
Proof.
  intros [Hc Hs]. split; cbn; [by rewrite dom_insert_L, Hc|]. intros sri' w [[<- <-]|[_ Hw]]%lookup_insert_Some; [done|by apply Hs].
Qed.

(** ** The rows a pass reads *)

(** The answers of a pass as a function of the cell. *)
Definition rows_of (cache : RowCache) (sri : Sri) : RowRead RowFacts := default RFailed (cache !! sri).

Definition evidence_of (inp : VerifyInput) (rt : Runtime) (rows : Sri -> RowRead RowFacts) (cell : WatchedCell) : Evidence :=
  match ln_parent (wc_lineage cell), ln_detached (wc_lineage cell) with
  | Some parent, false =>
      mkEvidence (rows (wc_sri cell)) (rows parent)
        (parent_expired (vi_now inp) (ex_timing rt) (ex_tracker rt) (ln_grace_ms (wc_lineage cell)) (rows parent))
  | _, _ => mkEvidence (rows (wc_sri cell)) RFailed None
  end.

(** Every entry is the answer to a read of that row in this pass. *)
Definition cache_ok (inp : VerifyInput) (me : RuntimeId) (cache : RowCache) : Prop :=
  forall sri read, cache !! sri = Some read -> exists n, read = facts_of me (vi_placement inp n sri).

Lemma read_row_spec inp me sri cache : cache_ok inp me cache -> exists read cache', read_row inp me sri cache = (read, cache') /\
  cache ⊆ cache' /\ cache' !! sri = Some read /\ cache_ok inp me cache'.
Proof.
  intros Hok. unfold read_row. cbn zeta. destruct (cache !! sri) as [hit|] eqn:Hc; [by exists hit, cache|].
  eexists _, _. split; [done|]. split_and!.
  - by apply insert_subseteq.
  - by rewrite lookup_insert_eq.
  - intros sri' read [[<- <-]|[_ Hr]]%lookup_insert_Some; [by eexists|by apply Hok].
Qed.

Lemma rows_of_some cache cache' sri read : cache' ⊆ cache -> cache' !! sri = Some read -> rows_of cache sri = read.
Proof. intros Hsub Hr. unfold rows_of. by rewrite (lookup_weaken _ _ _ _ Hr Hsub). Qed.

(** The rows a cell is decided by. *)
Definition reads (cell : WatchedCell) (sri : Sri) : Prop :=
  sri = wc_sri cell \/ (ln_parent (wc_lineage cell) = Some sri /\ ln_detached (wc_lineage cell) = false).

Lemma gather_spec inp rt cell cache : cache_ok inp (ex_id rt) cache -> exists ev cache', gather inp rt cell cache = (ev, cache') /\
  cache ⊆ cache' /\ cache_ok inp (ex_id rt) cache' /\ (forall sri, reads cell sri -> is_Some (cache' !! sri)) /\
  forall later, cache' ⊆ later -> ev = evidence_of inp rt (rows_of later) cell.
Proof.
  intros Hok. unfold gather, evidence_of, reads.
  destruct (read_row_spec inp (ex_id rt) (wc_sri cell) cache Hok) as (self & c1 & -> & Hsub & Hself & Hok1).
  assert (forall later, c1 ⊆ later -> rows_of later (wc_sri cell) = self) as Hs by (intros; by eapply rows_of_some).
  destruct (ln_parent _) as [parent|]; [destruct (ln_detached _)|].
  - eexists _, _. split_and!; [done..| |]; [by intros sri [->|[_ ?]]; [eexists|]|]. intros later Hl. by rewrite Hs.
  - destruct (read_row_spec inp (ex_id rt) parent c1 Hok1) as (row & c2 & -> & Hsub2 & Hrow & Hok2).
    eexists _, _. split_and!; [done|by trans c1|done| |].
    { intros sri [->|[[= <-] _]]; [|by eexists]. eexists. by eapply lookup_weaken. }
    intros later Hl.
    rewrite Hs by (by trans c2). by rewrite (rows_of_some _ _ _ _ Hl Hrow).
  - eexists _, _. split_and!; [done..| |]; [by intros sri [->|[? _]]; [eexists|]|]. intros later Hl. by rewrite Hs.
Qed.

(** ** The loop over the hosted cells *)

Definition killed (v : Verdict) : bool := match v with Kill _ => true | Keep => false end.

Definition release_of (c : WatchedCell) : list CleanupAction :=
  [ReleaseCell (wc_sri c) (wc_gen c); RemoveInstance (wc_sri c) (wc_gen c)].

Lemma verify_cell_cache inp rt cache c : cache_ok inp (ex_id rt) cache ->
  ex_id (verify_cell inp (rt, cache) c).1 = ex_id rt /\
  (verify_cell inp (rt, cache) c).2 = (gather inp rt c cache).2 /\
  cache ⊆ (gather inp rt c cache).2 /\ cache_ok inp (ex_id rt) (gather inp rt c cache).2 /\
  forall sri, reads c sri -> is_Some ((gather inp rt c cache).2 !! sri).
Proof.
  intros Hok. destruct (gather_spec inp rt c cache Hok) as (ev & cache' & Hg & Hsub & Hok' & Hreads & _). unfold verify_cell. rewrite Hg.
  destruct (evaluate _ _ _ _) as [[|why] st]; done.
Qed.

Lemma verify_loop_cache inp watched : forall rt cache, cache_ok inp (ex_id rt) cache ->
  let final := (fold_left (verify_cell inp) watched (rt, cache)).2 in
  cache ⊆ final /\ cache_ok inp (ex_id rt) final /\ forall c sri, c ∈ watched -> reads c sri -> is_Some (final !! sri).
Proof.
  induction watched as [|c watched IH]; intros rt cache Hok; [split_and!; [done..|]; by intros c sri ?%elem_of_nil|]. cbn [fold_left].
  destruct (verify_cell_cache inp rt cache c Hok) as (Hid & Hcache & Hsub & Hok' & Hreads).
  destruct (verify_cell inp (rt, cache) c) as [rt1 cache1]. cbn [fst snd] in *. subst cache1. rewrite <- Hid in Hok'.
  destruct (IH rt1 _ Hok') as (Hsub2 & Hok2 & Hreads2). rewrite Hid in Hok2. split_and!; [by etrans|done|].
  intros c' sri [->|Hc]%elem_of_cons Hr; [|by eapply Hreads2]. destruct (Hreads _ Hr) as [read Hread].
  exists read. by eapply lookup_weaken.
Qed.

Section Pass.
Context (inp : VerifyInput) (rt0 : Runtime) (rows : Sri -> RowRead RowFacts).

(** What a pass decides of a cell, from its history and what was read of it. *)
Definition verdict_of (past : Sri -> list (WatchedCell * Evidence)) (c : WatchedCell) : Verdict :=
  decision (ex_id rt0) c (evidence_of inp rt0 rows c) (past (wc_sri c)).

Definition dead (past : Sri -> list (WatchedCell * Evidence)) (watched : list WatchedCell) : list WatchedCell :=
  List.filter (fun c => killed (verdict_of past c)) watched.

(** The history of a cell after the pass. *)
Definition then_past (past : Sri -> list (WatchedCell * Evidence)) (c : WatchedCell) : list (WatchedCell * Evidence) :=
  match verdict_of past c with Keep => (c, evidence_of inp rt0 rows c) :: past (wc_sri c) | Kill _ => [] end.

(** What the loop leaves alone. *)
Definition same_watch (rt : Runtime) : Prop :=
  ex_id rt = ex_id rt0 /\ ex_timing rt = ex_timing rt0 /\ ex_tracker rt = ex_tracker rt0 /\ ex_skew rt = ex_skew rt0 /\
  ex_sweep_done rt = ex_sweep_done rt0.

Lemma evidence_same rt c : same_watch rt -> evidence_of inp rt rows c = evidence_of inp rt0 rows c.
Proof. intros (_ & Ht & Hk & _). unfold evidence_of. by rewrite Ht, Hk. Qed.

Lemma counts_ext st past past' : (forall sri, past sri = past' sri) -> counts st past -> counts st past'.
Proof. intros Heq Hc sri row. by rewrite <- Heq. Qed.

Lemma verify_cell_spec rt cache c past cache' : same_watch rt -> counts (ex_fencing rt) past ->
  (gather inp rt c cache).2 = cache' -> (gather inp rt c cache).1 = evidence_of inp rt rows c ->
  exists rt', verify_cell inp (rt, cache) c = (rt', cache') /\ same_watch rt' /\
    counts (ex_fencing rt') (upd past (wc_sri c) (then_past past c)) /\
    (forall sri, ex_meta rt' !! sri = if killed (verdict_of past c) && bool_decide (sri = wc_sri c) then None else ex_meta rt !! sri) /\
    (hosting rt -> hosting rt') /\
    ex_cleanup rt' = ex_cleanup rt ++ if killed (verdict_of past c) then release_of c else [].
Proof.
  intros Hsame Hcounts Hcache Hev. unfold verify_cell. destruct (gather inp rt c cache) as [ev cache2]. cbn [fst snd] in *. subst ev cache2.
  rewrite evidence_same by done. pose proof Hsame as (Hid & _).
  destruct (evaluate_decides (ex_id rt) c (evidence_of inp rt0 rows c) (ex_fencing rt) past Hcounts) as (st & -> & Hst).
  rewrite Hid in Hst |- *. fold (verdict_of past c) in Hst |- *. unfold then_past. destruct (verdict_of past c) as [|why]; eexists; (split; [done|]).
  - split_and!; [done|done|done|by apply hosting_same|by rewrite app_nil_r].
  - split_and!; [done| | |intros Hh; apply (hosting_same (kill_local (wc_sri c) (set_fencing st rt))); [done..|]; by apply hosting_kill, (hosting_same rt)|done].
    + eapply counts_ext, counts_forget, Hst. intros sri. unfold upd. by case_bool_decide.
    + intros sri. cbn. case_bool_decide as Hs; [by rewrite Hs, lookup_delete_eq|by rewrite lookup_delete_ne].
Qed.

(** The loop: what is read, and what each cell comes to. *)
Lemma verify_loop watched : forall rt cache past later, NoDup (map wc_sri watched) -> same_watch rt -> counts (ex_fencing rt) past ->
  cache_ok inp (ex_id rt0) cache ->
  (fold_left (verify_cell inp) watched (rt, cache)).2 ⊆ later -> rows = rows_of later ->
  let rt' := (fold_left (verify_cell inp) watched (rt, cache)).1 in
  same_watch rt' /\
  (exists past', counts (ex_fencing rt') past' /\ (forall c, c ∈ watched -> past' (wc_sri c) = then_past past c) /\
    forall sri, sri ∉ map wc_sri watched -> past' sri = past sri) /\
  (forall sri, ex_meta rt' !! sri = if bool_decide (sri ∈ map wc_sri (dead past watched)) then None else ex_meta rt !! sri) /\
  (hosting rt -> hosting rt') /\
  ex_cleanup rt' = ex_cleanup rt ++ concat (map release_of (dead past watched)).
Proof.
  induction watched as [|c watched IH]; intros rt cache past later Hnd Hsame Hcounts Hok Hsub Hrows; cbn zeta.
  { split_and!; [done| |done|done|by rewrite app_nil_r]. exists past. split_and!; [done| |done]. by intros c ?%elem_of_nil. }
  cbn [map] in Hnd. apply NoDup_cons in Hnd as [Hfresh Hnd]. cbn [fold_left] in Hsub |- *.
  pose proof Hsame as (Hid & _). rewrite <- Hid in Hok.
  destruct (gather_spec inp rt c cache Hok) as (ev & cache1 & Hg & _ & Hok1 & _ & Hev).
  destruct (verify_cell_cache inp rt cache c Hok) as (Hid1 & Hcache1 & _). rewrite Hg in Hcache1. cbn [snd] in Hcache1.
  assert (cache1 ⊆ later) as Hlater.
  { etrans; [|exact Hsub]. destruct (verify_cell inp (rt, cache) c) as [rt1 c1]. cbn [fst snd] in *. subst c1.
    rewrite <- Hid1 in Hok1. by apply verify_loop_cache. }
  destruct (verify_cell_spec rt cache c past cache1) as (rt1 & Hrun & Hsame1 & Hcounts1 & Hmeta1 & Hhost1 & Hclean1); [done..| | |].
  { by rewrite Hg. } { rewrite Hg, Hrows. by apply Hev. }
  rewrite Hrun in Hsub |- *. rewrite Hid in Hok1.
  set (past1 := upd past (wc_sri c) (then_past past c)) in *.
  assert (forall c', c' ∈ watched -> past1 (wc_sri c') = past (wc_sri c')) as Hpast.
  { intros c' Hin. apply upd_other. intros Heq. apply Hfresh. rewrite Heq. apply list_elem_of_fmap. eauto. }
  assert (dead past1 watched = dead past watched) as Hdead.
  { apply filter_ext_in. intros c' Hin%list_elem_of_In. unfold verdict_of. by rewrite Hpast. }
  destruct (IH rt1 cache1 past1 later Hnd Hsame1 Hcounts1 Hok1 Hsub Hrows) as (Hs & (past' & Hc' & Hin' & Hout') & Hm & Hh & Hcl).
  unfold dead. cbn [List.filter]. fold (dead past watched). split_and!; [done| |..].
  - exists past'. split_and!; [done| |].
    + intros c' [->|Hc]%elem_of_cons; [rewrite Hout' by done; apply upd_same|]. rewrite Hin' by done.
      unfold then_past, verdict_of. by rewrite Hpast.
    + intros sri [Hne Hn]%not_elem_of_cons. rewrite Hout' by done. by apply upd_other.
  - intros sri. rewrite Hm, Hmeta1, Hdead. destruct (killed (verdict_of past c)); cbn [andb map]; [|done].
    destruct (decide (sri = wc_sri c)) as [->|Hne].
    + rewrite (bool_decide_eq_true_2 (wc_sri c = wc_sri c)) by done. rewrite (bool_decide_eq_true_2 (_ ∈ _ :: _)) by by left.
      by case_bool_decide.
    + rewrite (bool_decide_eq_false_2 (sri = wc_sri c)) by done. erewrite bool_decide_ext; [done|]. set_solver.
  - auto.
  - rewrite Hcl, Hclean1, Hdead. destruct (killed (verdict_of past c)); cbn [map concat]; by rewrite <- ?app_assoc, ?app_nil_r.
Qed.

End Pass.

(** ** The pass *)

(** The runtime when the loop over its cells begins: swept, with what was owed tried
    and the leases seen. *)
Definition swept (inp : VerifyInput) (rt : Runtime) : Runtime :=
  if ex_sweep_done rt then rt else let '(complete, _, rt) := startup_sweep (vi_sweep inp) rt in set_sweep complete rt.
Definition prepared (inp : VerifyInput) (rt : Runtime) : Runtime :=
  (watch_leases inp (drain_cleanup (vi_cleaned inp) (swept inp rt)).2).2.
Definition watched_of (rt : Runtime) : list WatchedCell := map snd (map_to_list (ex_meta rt)).

Lemma verify_pass_prepared inp rt : verify_pass inp rt =
  ((verify_pass inp rt).1.1.1, (drain_cleanup (vi_cleaned inp) (swept inp rt)).1, (verify_pass inp rt).1.2,
   (fold_left (verify_cell inp) (watched_of (prepared inp rt)) (prepared inp rt, ∅)).1).
Proof.
  unfold verify_pass, prepared, swept. destruct (ex_sweep_done rt).
  - destruct (drain_cleanup _ rt) as [cleaned rt1]. cbn [fst snd]. by destruct (watch_leases inp rt1).
  - destruct (startup_sweep _ rt) as [[complete reports] rt0]. destruct (drain_cleanup _ _) as [cleaned rt1]. cbn [fst snd].
    by destruct (watch_leases inp rt1).
Qed.

Lemma verify_pass_snd inp rt :
  (verify_pass inp rt).2 = (fold_left (verify_cell inp) (watched_of (prepared inp rt)) (prepared inp rt, ∅)).1.
Proof. by rewrite verify_pass_prepared. Qed.

(** What sweeping and draining leave alone. *)
Definition same_hosted (rt rt' : Runtime) : Prop :=
  ex_id rt' = ex_id rt /\ ex_cells rt' = ex_cells rt /\ ex_meta rt' = ex_meta rt /\ ex_fencing rt' = ex_fencing rt /\
  ex_timing rt' = ex_timing rt.

#[export] Instance same_hosted_preorder : PreOrder same_hosted.
Proof. split; [by intros rt|]. intros a b c (?&?&?&?&?) (?&?&?&?&?). repeat split; congruence. Qed.

Lemma sweep_step_spec inp st remnant :
  same_hosted st.2 (sweep_step inp st remnant).2 /\
  forall a, a ∈ ex_cleanup (sweep_step inp st remnant).2 -> a ∈ ex_cleanup st.2 \/
    exists sent owed, sweep_remnant inp remnant = Some (sent, owed) /\ a ∈ owed.
Proof.
  destruct st as [[complete reports] rt]. unfold sweep_step. destruct (sweep_remnant inp remnant) as [[sent owed]|]; cbn [snd]; [|split; [done|by left]].
  split; [done|]. intros a [Ha|Ha]%elem_of_app; eauto.
Qed.

Lemma sweep_fold inp remnants : forall st,
  let st' := fold_left (sweep_step inp) remnants st in
  same_hosted st.2 st'.2 /\
  forall a, a ∈ ex_cleanup st'.2 -> a ∈ ex_cleanup st.2 \/
    exists remnant sent owed, remnant ∈ remnants /\ sweep_remnant inp remnant = Some (sent, owed) /\ a ∈ owed.
Proof.
  induction remnants as [|remnant remnants IH]; intros st; [split; [done|by left]|]. cbn [fold_left].
  destruct (sweep_step_spec inp st remnant) as [Hsame1 Hclean1]. destruct (IH (sweep_step inp st remnant)) as [Hsame Hclean].
  split; [by etrans|]. intros a [[Ha|(s & o & Hs & Ha)]%Hclean1|(r & s & o & Hin & Hs & Ha)]%Hclean; [by left|right..].
  - exists remnant, s, o. split_and!; [by left|done..].
  - exists r, s, o. split_and!; [by right|done..].
Qed.

(** A sweep owes nothing of a hosted cell. *)
Definition about (a : CleanupAction) : Sri * Gen := match a with ReleaseCell sri g | RemoveInstance sri g => (sri, g) end.

Lemma sweep_remnant_about inp remnant sent owed a : sweep_remnant inp remnant = Some (sent, owed) -> a ∈ owed -> (about a).1 = remnant.1.
Proof.
  unfold sweep_remnant. destruct remnant as [sri g]. intros Hs Ha. repeat (case_match; simplify_eq/=); set_solver.
Qed.

Lemma swept_spec inp rt : same_hosted rt (swept inp rt) /\
  forall a, a ∈ ex_cleanup (swept inp rt) -> a ∈ ex_cleanup rt \/ (about a).1 ∉ ex_cells rt.
Proof.
  unfold swept. destruct (ex_sweep_done rt); [split; [done|by left]|]. unfold startup_sweep.
  destruct (si_placements _) as [cells|]; [|split; [done|by left]].
  destruct (sweep_fold (vi_sweep inp) (select_remnants cells (ex_id rt) (ex_cells rt)) (true, [], rt)) as [Hsame Hclean].
  cbn [snd] in *. destruct (fold_left _ _ _) as [[complete reports] rt1]. cbn [snd] in *.
  split; [by destruct Hsame as (?&?&?&?&?)|]. intros a [Ha|(r & sent & owed & Hin & Hs & Ha)]%Hclean; [by left|]. right.
  rewrite (sweep_remnant_about _ _ _ _ _ Hs Ha). apply list_elem_of_fmap in Hin as (c & -> & [_ Hc]%elem_of_filterb). cbn [fst].
  apply andb_true_iff in Hc as [_ Hc]. by apply negb_true_iff, bool_decide_eq_false in Hc.
Qed.

Lemma try_all_spec succeeds pending : forall n a, let '(carried, kept) := try_all succeeds n pending in
  (a ∈ carried \/ a ∈ kept) <-> a ∈ pending.
Proof.
  induction pending as [|x pending IH]; intros n a; cbn [try_all]; [set_solver|].
  specialize (IH (Datatypes.S n) a). destruct (try_all succeeds (Datatypes.S n) pending) as [carried kept].
  destruct (succeeds n); set_solver.
Qed.

Lemma prepared_spec inp rt : same_hosted rt (prepared inp rt) /\
  (forall a, a ∈ ex_cleanup (prepared inp rt) -> a ∈ ex_cleanup (swept inp rt)) /\
  forall a, a ∈ (drain_cleanup (vi_cleaned inp) (swept inp rt)).1 -> a ∈ ex_cleanup (swept inp rt).
Proof.
  destruct (swept_spec inp rt) as [Hsame _]. unfold prepared, drain_cleanup.
  pose proof (try_all_spec (vi_cleaned inp) (ex_cleanup (swept inp rt)) 0) as Htry.
  destruct (try_all _ 0 _) as [carried kept]. cbn [fst snd]. split_and!.
  - etrans; [exact Hsame|]. unfold watch_leases. destruct (vi_leases inp); [|done]. by destruct (sample _ _ _ _ _).
  - intros a Ha. apply Htry. right. revert Ha. unfold watch_leases. destruct (vi_leases inp); [|done]. by destruct (sample _ _ _ _ _).
  - intros a Ha. apply Htry. by left.
Qed.

Lemma hosting_prepared inp rt : hosting rt -> hosting (prepared inp rt).
Proof. destruct (prepared_spec inp rt) as [(_ & Hc & Hm & _) _]. by apply hosting_same. Qed.

Lemma watched_elem rt c : hosting rt -> c ∈ watched_of rt <-> ex_meta rt !! wc_sri c = Some c.
Proof.
  intros [_ Hs]. unfold watched_of. rewrite list_elem_of_fmap. split.
  - intros ([sri w] & -> & Hw%elem_of_map_to_list). cbn [snd]. by rewrite (Hs _ _ Hw).
  - intros Hw. exists (wc_sri c, c). split; [done|]. by apply elem_of_map_to_list.
Qed.

Lemma watched_nodup rt : hosting rt -> NoDup (map wc_sri (watched_of rt)).
Proof.
  intros [_ Hs]. unfold watched_of. rewrite map_map.
  erewrite map_ext_in; [apply NoDup_fst_map_to_list|]. intros [sri w] Hin%list_elem_of_In%elem_of_map_to_list. by apply Hs.
Qed.

(** The rows as a pass read them. *)
Definition pass_rows (inp : VerifyInput) (rt : Runtime) : Sri -> RowRead RowFacts :=
  rows_of (fold_left (verify_cell inp) (watched_of (prepared inp rt)) (prepared inp rt, ∅)).2.

(** The history of each cell's reads since it was last killed, undeployed or lost,
    along a run. *)
Definition note_event (event : Event) (rt : Runtime) (past : Sri -> list (WatchedCell * Evidence)) : Sri -> list (WatchedCell * Evidence) :=
  match event with
  | CellDeployed _ _ _ => past
  | CellUndeploy sri g => if is_ok (undeploy_cell sri g rt).1 then upd past sri [] else past
  | CellExited sri g =>
      if bool_decide (sri ∈ ex_cells rt) && exit_is_crash (wc_gen <$> ex_meta rt !! sri) g then upd past sri [] else past
  | VerifyPass inp => fun sri =>
      match ex_meta rt !! sri with
      | Some w => then_past inp (prepared inp rt) (pass_rows inp rt) past w
      | None => past sri
      end
  end.

Fixpoint run (events : list Event) (rt : Runtime) (past : Sri -> list (WatchedCell * Evidence)) : Runtime * (Sri -> list (WatchedCell * Evidence)) :=
  match events with
  | [] => (rt, past)
  | e :: events => run events (process_event e rt) (note_event e rt past)
  end.

Definition pass_verdict (inp : VerifyInput) (rt : Runtime) (past : Sri -> list (WatchedCell * Evidence)) (w : WatchedCell) : Verdict :=
  decision (ex_id rt) w (evidence_of inp (prepared inp rt) (pass_rows inp rt) w) (past (wc_sri w)).

Lemma pass_spec inp rt past : hosting rt -> counts (ex_fencing rt) past ->
  let rt' := (verify_pass inp rt).2 in
  hosting rt' /\ counts (ex_fencing rt') (note_event (VerifyPass inp) rt past) /\
  (forall sri, ex_meta rt' !! sri =
    match ex_meta rt !! sri with Some w => if killed (pass_verdict inp rt past w) then None else Some w | None => None end) /\
  (forall a, a ∈ ex_cleanup rt' <-> a ∈ ex_cleanup (prepared inp rt) \/
    exists w, ex_meta rt !! wc_sri w = Some w /\ killed (pass_verdict inp rt past w) = true /\ a ∈ release_of w).
Proof.
  intros Hhost Hcounts. destruct (prepared_spec inp rt) as [(Hid & Hcells & Hmeta & Hf & Ht) _].
  pose proof (hosting_prepared inp rt Hhost) as Hhost1. cbn zeta. rewrite verify_pass_snd.
  destruct (verify_loop inp (prepared inp rt) (pass_rows inp rt) (watched_of (prepared inp rt)) (prepared inp rt) ∅ past
    (fold_left (verify_cell inp) (watched_of (prepared inp rt)) (prepared inp rt, ∅)).2)
    as (_ & (past' & Hc' & Hin & Hout) & Hm & Hh & Hcl); [by apply watched_nodup|done|by rewrite Hf|by intros sri read|done..|].
  assert (forall w, killed (verdict_of inp (prepared inp rt) (pass_rows inp rt) past w) = killed (pass_verdict inp rt past w)) as Hv.
  { intros w. unfold verdict_of, pass_verdict. by rewrite Hid. }
  assert (forall w, w ∈ dead inp (prepared inp rt) (pass_rows inp rt) past (watched_of (prepared inp rt)) <->
    ex_meta rt !! wc_sri w = Some w /\ killed (pass_verdict inp rt past w) = true) as Hdead.
  { intros w. unfold dead. rewrite elem_of_filterb, watched_elem, Hmeta, Hv by done. done. }
  split_and!; [by apply Hh| | |].
  - eapply counts_ext, Hc'. intros sri. cbn [note_event]. rewrite <- Hmeta. destruct (ex_meta (prepared inp rt) !! sri) as [w|] eqn:Hw.
    + rewrite <- (ho_sri _ Hhost1 _ _ Hw). apply Hin. apply watched_elem; [done|]. by rewrite (ho_sri _ Hhost1 _ _ Hw).
    + apply Hout. intros (w & -> & Hin')%list_elem_of_fmap. apply watched_elem in Hin'; [|done]. congruence.
  - intros sri. rewrite Hm, Hmeta. destruct (ex_meta rt !! sri) as [w|] eqn:Hw; [|by case_bool_decide].
    pose proof (ho_sri _ Hhost _ _ Hw) as Hsri. destruct (killed (pass_verdict inp rt past w)) eqn:Hk.
    + rewrite bool_decide_eq_true_2; [done|]. apply list_elem_of_fmap. exists w. split; [done|]. apply Hdead. by rewrite Hsri.
    + rewrite bool_decide_eq_false_2; [done|]. intros (w' & Heq & [Hw' Hk']%Hdead)%list_elem_of_fmap. congruence.
  - intros a. rewrite Hcl, elem_of_app, (list_elem_of_In (concat _)), in_concat. setoid_rewrite in_map_iff. apply or_iff_compat_l. split.
    + intros (l & (w & <- & [Hw Hk]%list_elem_of_In%Hdead) & Ha%list_elem_of_In). eauto.
    + intros (w & Hw & Hk & Ha). exists (release_of w). split; [|by apply list_elem_of_In]. exists w. split; [done|].
      apply list_elem_of_In, Hdead. done.
Qed.

(** ** Runs *)

Lemma event_spec e rt past : hosting rt -> counts (ex_fencing rt) past ->
  hosting (process_event e rt) /\ counts (ex_fencing (process_event e rt)) (note_event e rt past).
Proof.
  intros Hh Hc. destruct e as [sri g lineage|sri g|sri g|inp]; cbn [process_event note_event].
  - split; [by apply hosting_deploy|done].
  - unfold undeploy_cell. destruct (wc_gen <$> ex_meta rt !! sri) as [hosted|]; [|done].
    case_bool_decide; cbn [fst snd is_ok]; [done|]. split; [by apply hosting_kill|by apply counts_forget].
  - unfold handle_cell_exited. case_bool_decide; cbn [negb andb]; [|done]. destruct (exit_is_crash _ g); cbn [negb snd]; [|done].
    destruct (ex_meta rt !! sri) as [m|]; cbn [snd]; (split; [|by apply counts_forget]).
    + eapply hosting_same, (hosting_kill sri rt Hh); done.
    + by apply hosting_kill.
  - destruct (pass_spec inp rt past Hh Hc) as (? & ? & _). done.
Qed.

Lemma run_spec events : forall rt past, hosting rt -> counts (ex_fencing rt) past ->
  hosting (run events rt past).1 /\ counts (ex_fencing (run events rt past).1) (run events rt past).2.
Proof.
  induction events as [|e events IH]; intros rt past Hh Hc; cbn [run fst snd]; [done|].
  destruct (event_spec e rt past Hh Hc). by apply IH.
Qed.

Lemma runtime_new_ok id now : hosting (runtime_new id now) /\ counts (ex_fencing (runtime_new id now)) (fun _ => []).
Proof. split; [split; [done|]; intros sri w Hw; cbn in Hw; by rewrite lookup_empty in Hw|done]. Qed.

(** C6. A runtime's passes decide each hosted cell by itself.  After any deploys,
    undeploys, exits and passes, a pass ends exactly the cells whose own history
    of reads calls for it, and keeps the others with what it knew of them; every
    row it goes by was read once in this pass, and the rows of the ended cells
    are owed to the cleanup, with what was owed before, or found to be left over
    in this pass, and failed. *)
Theorem pass_decides_by_history id now events inp :
  let '(rt, past) := run events (runtime_new id now) (fun _ => []) in
  let rt' := (verify_pass inp rt).2 in
  (forall sri, ex_meta rt' !! sri =
    match ex_meta rt !! sri with Some w => if killed (pass_verdict inp rt past w) then None else Some w | None => None end) /\
  ex_cells rt' = dom (ex_meta rt') /\
  (forall w sri, ex_meta rt !! wc_sri w = Some w -> reads w sri ->
    exists n, pass_rows inp rt sri = facts_of (ex_id rt) (vi_placement inp n sri)) /\
  (forall a, a ∈ ex_cleanup rt' <-> a ∈ ex_cleanup (prepared inp rt) \/
    exists w, ex_meta rt !! wc_sri w = Some w /\ killed (pass_verdict inp rt past w) = true /\ a ∈ release_of w).
Proof.
  destruct (runtime_new_ok id now) as [Hh0 Hc0]. destruct (run_spec events _ _ Hh0 Hc0) as [Hh Hc].
  destruct (run events _ _) as [rt past]. cbn [fst snd] in *. destruct (pass_spec inp rt past Hh Hc) as (Hh' & _ & Hm & Hcl).
  split_and!; [done|by apply ho_cells| |done]. intros w sri Hw Hr.
  destruct (prepared_spec inp rt) as [(Hid & _ & Hmeta & _) _].
  destruct (verify_loop_cache inp (watched_of (prepared inp rt)) (prepared inp rt) ∅) as (_ & Hok & Hreads); [by intros ? ?|].
  destruct (Hreads w sri) as [read Hread]; [|done|].
  - apply watched_elem; [by apply hosting_prepared|]. by rewrite Hmeta.
  - unfold pass_rows, rows_of. rewrite Hread. cbn. rewrite <- Hid. by apply Hok in Hread.
Qed.

(** ** What is released *)

(** No generation is owed that is hosted. *)
Definition unowed (rt : Runtime) : Prop := forall a w, a ∈ ex_cleanup rt -> ex_meta rt !! (about a).1 = Some w -> wc_gen w ≠ (about a).2.

(** A deploy brings a generation of its own. *)
Definition fresh (e : Event) (rt : Runtime) : Prop :=
  match e with CellDeployed sri g _ => forall a, a ∈ ex_cleanup rt -> about a ≠ (sri, g) | _ => True end.
Fixpoint fresh_run (events : list Event) (rt : Runtime) : Prop :=
  match events with [] => True | e :: events => fresh e rt /\ fresh_run events (process_event e rt) end.

Lemma unowed_kill sri rt owed : (forall a, a ∈ owed -> (about a).1 = sri) -> unowed rt -> unowed (push_cleanup owed (kill_local sri rt)).
Proof.
  intros Howed Hun a w Ha Hw. cbn in Ha, Hw. apply lookup_delete_Some in Hw as [Hne Hw].
  apply elem_of_app in Ha as [Ha|Ha]; [by apply Hun|]. by rewrite Howed in Hne.
Qed.

Lemma unowed_swept inp rt : hosting rt -> unowed rt -> forall a w, a ∈ ex_cleanup (swept inp rt) -> ex_meta rt !! (about a).1 = Some w ->
  wc_gen w ≠ (about a).2.
Proof.
  intros Hh Hun a w Ha Hw. destruct (swept_spec inp rt) as [_ Hs]. apply Hs in Ha as [Ha|Hn]; [by apply Hun|].
  exfalso. apply Hn. rewrite (ho_cells _ Hh). by apply elem_of_dom_2 in Hw.
Qed.

Lemma unowed_event e rt past : hosting rt -> counts (ex_fencing rt) past -> fresh e rt -> unowed rt -> unowed (process_event e rt).
Proof.
  intros Hh Hc Hfresh Hun. destruct e as [sri g lineage|sri g|sri g|inp]; cbn [process_event].
  - intros a w Ha Hw. cbn in Ha, Hw. apply lookup_insert_Some in Hw as [[Heq <-]|[_ Hw]]; [|by apply Hun]. cbn. intros ->. apply (Hfresh a Ha).
    rewrite Heq. by destruct (about a).
  - unfold undeploy_cell. destruct (wc_gen <$> _) as [hosted|]; [|done]. case_bool_decide; [done|]. cbn [snd].
    intros a w Ha Hw. cbn in Ha, Hw. apply lookup_delete_Some in Hw as [_ Hw]. by apply Hun.
  - unfold handle_cell_exited. destruct (negb _); [done|]. destruct (negb _); [done|].
    destruct (ex_meta rt !! sri) as [m|]; cbn [snd]; [|intros a w Ha Hw; cbn in Ha, Hw; apply lookup_delete_Some in Hw as [_ Hw]; by apply Hun].
    apply unowed_kill; [|done]. intros a Ha. rewrite !elem_of_cons, elem_of_nil in Ha. by destruct Ha as [->|[->|[]]].
  - destruct (pass_spec inp rt past Hh Hc) as (_ & _ & Hm & Hcl). intros a w Ha Hw. rewrite Hm in Hw.
    destruct (ex_meta rt !! (about a).1) as [w'|] eqn:Hw'; [|done]. destruct (killed (pass_verdict inp rt past w')) eqn:Hk; [done|].
    injection Hw as <-. apply Hcl in Ha as [Ha|(w2 & Hw2 & Hk2 & Ha)].
    + destruct (prepared_spec inp rt) as (_ & Hsub & _). apply (unowed_swept inp rt Hh Hun a); auto.
    + assert (about a = (wc_sri w2, wc_gen w2)) as Hab.
      { unfold release_of in Ha. rewrite !elem_of_cons, elem_of_nil in Ha. by destruct Ha as [->|[->|[]]]. }
      rewrite Hab in Hw'. cbn [fst] in Hw'. congruence.
Qed.

(** C38. A runtime removes no row of a cell it hosts: along any run whose deploys
    bring generations of their own, none of the placements and instances a pass
    removes, for a cell that crashed, was fenced or was left by an earlier
    process, is of a generation hosted when the pass begins. *)
Theorem hosted_rows_kept id now events inp : fresh_run events (runtime_new id now) ->
  let rt := (run events (runtime_new id now) (fun _ => [])).1 in
  forall a, a ∈ (verify_pass inp rt).1.1.2 -> forall w, ex_meta rt !! wc_sri w = Some w -> about a ≠ (wc_sri w, wc_gen w).
Proof.
  destruct (runtime_new_ok id now) as [Hh0 Hc0]. intros Hfresh.
  assert (unowed (runtime_new id now)) as Hun0 by (intros a w ?%elem_of_nil; done).
  assert (hosting (run events (runtime_new id now) (fun _ => [])).1 /\ unowed (run events (runtime_new id now) (fun _ => [])).1) as [Hh Hun].
  { revert Hh0 Hc0 Hun0 Hfresh. generalize (fun _ : Sri => [] : list (WatchedCell * Evidence)). generalize (runtime_new id now).
    induction events as [|e events IH]; intros rt past Hh Hc Hun; cbn [run fresh_run fst]; [done|]. intros [Hf Hfs].
    destruct (event_spec e rt past Hh Hc) as [Hh' Hc']. apply IH; [done..| |done]. by apply (unowed_event e rt past). }
  cbn zeta. set (rt := (run events _ _).1) in *. intros a Ha w Hw Heq. rewrite verify_pass_prepared in Ha. cbn [fst snd] in Ha.
  destruct (prepared_spec inp rt) as (_ & _ & Hsub). apply Hsub in Ha.
  apply (unowed_swept inp rt Hh Hun a w Ha); rewrite Heq; done.
Qed.

(** A cell that crashed and was deployed anew is hosted as its second life. *)
Definition sample_sweep : SweepInput := mkSweep (Some []) (fun _ => Ok None) (fun _ => true) (fun _ => true) (fun _ => true).
Definition present_verify : VerifyInput :=
  mkVerify sample_sweep (fun _ => true) None 0 (Some []) 0 0 (fun _ sri => Ok (Some (mkPlacement sri (Wasm 2) None (mkGen 2 1)))).
Definition sample_events : list Event :=
  [CellDeployed 7 (mkGen 1 1) (sample_lineage None); CellExited 7 (mkGen 1 1); CellDeployed 7 (mkGen 2 1) (sample_lineage None)].

Lemma hosted_rows_kept_witness :
  let rt := (run sample_events (runtime_new 2 0) (fun _ => [])).1 in
  (verify_pass present_verify rt).1.1.2 = [ReleaseCell 7 (mkGen 1 1); RemoveInstance 7 (mkGen 1 1)] /\
  about (ReleaseCell 7 (mkGen 1 1)) ≠ (7, mkGen 2 1) /\ ex_meta (verify_pass present_verify rt).2 !! 7 = Some (mkWatched 7 (mkGen 2 1) (sample_lineage None)).
Proof.
  cbn zeta. assert ((verify_pass present_verify (run sample_events (runtime_new 2 0) (fun _ => [])).1).1.1.2 =
    [ReleaseCell 7 (mkGen 1 1); RemoveInstance 7 (mkGen 1 1)]) as Hrun by (vm_compute; reflexivity).
  split; [exact Hrun|]. split; [|vm_compute; reflexivity].
  apply (hosted_rows_kept 2 0 sample_events present_verify) with (w := mkWatched 7 (mkGen 2 1) (sample_lineage None)).
  - cbn [fresh_run sample_events fresh]. split; [by intros a ?%elem_of_nil|]. split; [done|]. split; [|done].
    intros a Ha. change (a ∈ [ReleaseCell 7 (mkGen 1 1); RemoveInstance 7 (mkGen 1 1)]) in Ha. rewrite !elem_of_cons, elem_of_nil in Ha. by destruct Ha as [->|[->|[]]].
  - rewrite Hrun. by left.
  - vm_compute. reflexivity.
Defined.

(** ** A node that restarts *)

(** The rows as a sweep that meets no failure reads them. *)
Definition sweep_of (r : Rows) : SweepInput :=
  mkSweep (Some (rw_placements r)) (fun sri => Ok (List.find (fun i => ci_sri i =? sri) (rw_instances r)))
    (fun _ => true) (fun _ => true) (fun _ => true).

Definition apply_report (r : Rows) (report : Report) : Rows :=
  match report with
  | CellLost parent cell local_name reason => apply_hygiene r (EmitLost parent cell local_name reason, true)
  | RecordRoot cell g reason => apply_hygiene r (RecordDeath cell g reason, true)
  end.
Definition apply_cleanup (r : Rows) (a : CleanupAction) : Rows :=
  match a with
  | ReleaseCell sri g => apply_hygiene r (RemovePlacement sri g, true)
  | RemoveInstance sri g => apply_hygiene r (Hygiene.RemoveInstance sri g, true)
  end.

(** The rows after a sweep, with the node's lease renewed. *)
Definition after_sweep (reports : list Report) (released : list CleanupAction) (r : Rows) : Rows :=
  let r := fold_left apply_cleanup released (fold_left apply_report reports r) in
  mkRows [(2, mkLease [] 8 45000)] (rw_placements r) (rw_instances r) (rw_specs r) (rw_deaths r).

(** A root is given up when its node restarts.  The sweep a runtime makes before
    it is available releases the rows of the root its earlier process ran and
    reports no death of it; the orchestrator's passes, all of whose changes
    succeed, do not redeploy it although its policy always restarts it, and the
    second of them drops its spec as that of a root removed on purpose.  The
    sweep of the runtime's first pass on the same rows does report the death, and
    the pass after it redeploys the root. *)
Theorem boot_sweep_gives_up_root :
  let pass now := leader_pass sample_id_str TIMING_DEFAULT now (fun _ => true) (fun _ => Deployed) in
  let '(reports, released) := sweep_previous_incarnation (sweep_of lost_rows) 2 in
  let '(ops1, st1) := pass (from_secs 20) (after_sweep reports released lost_rows, lost_watcher) in
  let '(ops2, st2) := pass (from_secs 30) st1 in
  let '(_, reports', rt) := startup_sweep (sweep_of lost_rows) (runtime_new 2 0) in
  rp_restart_type (cd_restart sample_spec) = Always /\
  reports = [] /\ released = [ReleaseCell 7 (mkGen 1 1); RemoveInstance 7 (mkGen 1 1)] /\
  ops1 = [] /\ ops2 = [EraseSpec 7] /\ rw_specs st2.1 = [] /\
  reports' = [RecordRoot 7 (mkGen 1 1) Crashed] /\
  (pass (from_secs 20) (after_sweep reports' (ex_cleanup rt) lost_rows, lost_watcher)).1 = [Deploy sample_spec; ClearDeath 7].
Proof. vm_compute. repeat split; reflexivity. Qed.

(** A cell deployed over another of its name inherits the missing read of the other:
    one missing read of its own row then ends it. *)
Definition absent_verify : VerifyInput :=
  mkVerify sample_sweep (fun _ => true) None 0 (Some []) 0 0 (fun _ _ => Ok None).

Theorem successor_inherits_absence :
  let lineage := sample_lineage None in
  let hosted events := map_to_list (ex_meta (run events (runtime_new 2 0) (fun _ => [])).1) in
  hosted [CellDeployed 7 (mkGen 2 1) lineage; VerifyPass absent_verify] = [(7, mkWatched 7 (mkGen 2 1) lineage)] /\
  hosted [CellDeployed 7 (mkGen 1 1) lineage; VerifyPass absent_verify; CellDeployed 7 (mkGen 2 1) lineage; VerifyPass absent_verify] = [].
Proof. vm_compute. split; reflexivity. Qed.
