(* ===== verification/Text.v ===== *)
(** * Text

    Rust's [&str] as the code generators of the signal layer use it: sequences
    of characters (Unicode scalar values), with the searches, splits and
    replacements the sources call.  Characters up to 127 are classified here;
    what the Unicode tables say of the others is a parameter, as are the
    identifier parser of the [syn] crate and the identifiers [proc_macro2]
    makes. *)

From S2P Require Import Prelude.
From Stdlib Require Import ZArith Lia Strings.String Strings.Ascii.
From stdpp Require Import base list option sets countable.

Local Open Scope Z_scope.

(** Equality by evaluation, without normalising the type it is stated at. *)
Ltac vm_refl := match goal with |- _ = ?b => vm_cast_no_check (eq_refl b) end.

Abbreviation text := (list Z).

(** A literal of the source, character by character. *)
Definition lit (s : string) : text :=
  map (fun c => Z.of_N (N_of_ascii c)) (list_ascii_of_string s).
Arguments lit s%_string.

(** The tables of the standard library for characters above 127. *)
Class Unicode := {
  wide_alphabetic : Z -> bool;
  wide_numeric : Z -> bool;
  wide_upper : Z -> text;
}.

(** [syn::parse_str::<syn::Ident>(s).is_ok()], and whether
    [proc_macro2::Ident::new(s, _)] returns; it panics otherwise. *)
Class Syn := { parse_ident : text -> bool; ident_new_ok : text -> bool }.

Definition char_dot : Z := 46.
Definition char_dash : Z := 45.
Definition char_underscore : Z := 95.

Definition ascii_lower (c : Z) : bool := (97 <=? c) && (c <=? 122).
Definition ascii_upper (c : Z) : bool := (65 <=? c) && (c <=? 90).
Definition ascii_digit (c : Z) : bool := (48 <=? c) && (c <=? 57).

(** A name of ASCII letters, digits and underscores that does not start with a
    digit, the lone underscore left out *)
Definition plain_ident (s : text) : bool :=
  match s with
  | [] => false
  | c :: rest =>
      (ascii_lower c || ascii_upper c || (c =? char_underscore))
      && forallb (fun c => ascii_lower c || ascii_upper c || ascii_digit c || (c =? char_underscore)) rest
      && negb (bool_decide (s = [char_underscore]))
  end.

(** What [Ident::new] documents: a legal variable name is accepted. *)
Class IdentLaws `{Syn} := { ident_new_plain : forall s, plain_ident s = true -> ident_new_ok s = true }.

Section Chars.
Context `{Unicode}.

(** [char::is_alphabetic] *)
Definition is_alphabetic (c : Z) : bool :=
  if c <? 128 then ascii_lower c || ascii_upper c else wide_alphabetic c.

(** [char::is_alphanumeric] *)
Definition is_alphanumeric (c : Z) : bool :=
  if c <? 128 then ascii_lower c || ascii_upper c || ascii_digit c
  else wide_alphabetic c || wide_numeric c.

Definition upper_char (c : Z) : text :=
  if c <? 128 then [if ascii_lower c then c - 32 else c] else wide_upper c.

(** [str::to_uppercase] *)
Definition to_uppercase (s : text) : text := flat_map upper_char s.

Lemma dot_not_alphanumeric : is_alphanumeric char_dot = false.
Proof. done. Qed.

Lemma dot_not_alphabetic : is_alphabetic char_dot = false.
Proof. done. Qed.

Lemma underscore_not_alphanumeric : is_alphanumeric char_underscore = false.
Proof. done. Qed.
End Chars.

(** [c.to_uppercase()] on the first character of a word *)
Definition capitalize `{Unicode} (w : text) : text :=
  match w with [] => [] | c :: w => upper_char c ++ w end.

(** [s.split([a, b])] *)
Fixpoint split_on (seps : list Z) (s : text) : list text :=
  match s with
  | [] => [[]]
  | c :: s =>
      match split_on seps s with
      | w :: ws => if existsb (Z.eqb c) seps then [] :: w :: ws else (c :: w) :: ws
      | [] => []
      end
  end.

(** [s.contains(c)] *)
Definition contains_char (c : Z) (s : text) : bool := existsb (Z.eqb c) s.

(** [s.replace(a, b)] for single characters *)
Definition replace_char (a b : Z) (s : text) : text :=
  map (fun c => if c =? a then b else c) s.

(** [s.split_once(c)]: what is before and after the first [c] *)
Fixpoint split_once (c : Z) (s : text) : option (text * text) :=
  match s with
  | [] => None
  | x :: s =>
      if x =? c then Some ([], s)
      else match split_once c s with
           | Some (a, b) => Some (x :: a, b)
           | None => None
           end
  end.

(** [s.strip_prefix(p)] *)
Fixpoint strip_text (p s : text) : option text :=
  match p, s with
  | [], _ => Some s
  | a :: p, b :: s => if a =? b then strip_text p s else None
  | _ :: _, [] => None
  end.

(** [s.starts_with(c)] *)
Definition starts_with_char (c : Z) (s : text) : bool :=
  match s with x :: _ => x =? c | [] => false end.

Definition text_eqb (a b : text) : bool := bool_decide (a = b).

Lemma text_eqb_spec a b : text_eqb a b = true <-> a = b.
Proof. apply bool_decide_eq_true. Qed.

Lemma text_eqb_false a b : text_eqb a b = false <-> a <> b.
Proof. apply bool_decide_eq_false. Qed.

Lemma text_eqb_refl a : text_eqb a a = true.
Proof. by apply text_eqb_spec. Qed.
Lemma text_eqb_sym a b : text_eqb a b = text_eqb b a.
Proof. unfold text_eqb. by apply bool_decide_ext. Qed.

Lemma contains_char_spec c s : contains_char c s = true <-> c ∈ s.
Proof.
  unfold contains_char. rewrite existsb_exists. setoid_rewrite Z.eqb_eq.
  setoid_rewrite <-list_elem_of_In. naive_solver.
Qed.

(** A text splits at a character exactly if it contains it, and then it is
    the two halves around the first one. *)
Lemma split_once_some c s a b :
  split_once c s = Some (a, b) <-> s = a ++ c :: b /\ c ∉ a.
Proof.
  revert a. induction s as [|x s IH]; intros a; cbn.
  - split; [done|]. intros [H _]. by destruct a.
  - destruct (Z.eqb_spec x c) as [->|Hx].
    + split.
      * intros [= <- <-]. split; [done|]. apply not_elem_of_nil.
      * intros [He Hn]. destruct a as [|y a]; [by injection He as <-|].
        injection He as -> ->. set_solver.
    + split.
      * destruct (split_once c s) as [[a' b']|]; [|done]. intros [= <- <-].
        destruct (proj1 (IH a') eq_refl) as [-> Hn]. split; [done|]. set_solver.
      * intros [He Hn]. destruct a as [|y a]; injection He as -> He; [done|].
        rewrite (proj2 (IH a)); [done|]. split; [done|]. set_solver.
Qed.

Lemma split_once_none c s : split_once c s = None <-> contains_char c s = false.
Proof.
  split.
  - intros H. destruct (contains_char c s) eqn:E; [|done].
    apply contains_char_spec in E.
    apply list_elem_of_split_l in E as (a & b & -> & Hn).
    by rewrite (proj2 (split_once_some c _ a b)) in H.
  - intros H. destruct (split_once c s) as [[a b]|] eqn:E; [|done].
    apply split_once_some in E as [-> _].
    assert (contains_char c (a ++ c :: b) = true); [|congruence].
    apply contains_char_spec. set_solver.
Qed.

Lemma strip_text_some p s r : strip_text p s = Some r <-> s = p ++ r.
Proof.
  revert s. induction p as [|a p IH]; intros s; cbn.
  - naive_solver.
  - destruct s as [|b s]; [split; done|]. destruct (Z.eqb_spec a b) as [->|Hn].
    + rewrite IH. naive_solver.
    + split; [done|]. intros [= -> _]. done.
Qed.

(** For an owner without a dot, [s] starts with [owner.] exactly if its first
    part is [owner]: the two ways the sources take a reference apart agree. *)
Lemma strip_owner owner s f :
  char_dot ∉ owner ->
  strip_text (owner ++ [char_dot]) s = Some f <-> split_once char_dot s = Some (owner, f).
Proof.
  intros Hn. rewrite strip_text_some, split_once_some, <-(assoc_L (++)). cbn.
  naive_solver.
Qed.
