(* ===== verification/Signal.v ===== *)
(** * Slots and registries of the signal layer

    [sdk/signal-layer/signal-layer-core/src/lib.rs]: the slots a source task
    publishes into and a cell reads from, the byte interface at the boundary
    of the WebAssembly runtime, and the registries that resolve names to
    handles.  A slot of the source is a static behind a critical section, so
    every operation is one step on its content; a registry holds references to
    the statics, which are named here.  The postcard crate is a parameter. *)

From S2P Require Import Prelude Bytes Text.
From Stdlib Require Import ZArith Lia.
From stdpp Require Import base list option sets.

Local Open Scope Z_scope.

Inductive TapError :=
  | NotFound
  | WrongKind
  | BufferTooSmall
  | Empty
  | RegistryFull
  | Duplicate
  | Decode.

(** [postcard::to_slice] into a buffer of a given length (the bytes used) and
    [postcard::take_from_bytes] (the value and the bytes after it), for the
    values of one wire type. *)
Class Wire (T : Type) := {
  to_slice : T -> nat -> option bytes;
  take_from_bytes : bytes -> option (T * bytes);
}.

Class WireLaws (T : Type) `{Wire T} := {
  to_slice_fits : forall v n b, to_slice v n = Some b -> (length b <= n)%nat;
  to_slice_more : forall v n m b, to_slice v n = Some b -> (n <= m)%nat -> to_slice v m = Some b;
  take_to_slice : forall v n b r, to_slice v n = Some b -> take_from_bytes (b ++ r) = Some (v, r);
}.

(** ** Retained slots: the latest value and its time *)

Definition RetainedSlot (T : Type) : Type := option (Z * T).

Definition retained_new {T} : RetainedSlot T := None.
Definition retained_update {T} (ts : Z) (val : T) (s : RetainedSlot T) : RetainedSlot T := Some (ts, val).
Definition retained_clear {T} (s : RetainedSlot T) : RetainedSlot T := None.
Definition retained_read {T} (s : RetainedSlot T) : option (Z * T) := s.

(** ** Batch slots: a ring of [N] that counts what it drops *)

Record BatchSlot (T : Type) := mkBatchSlot { buf : list T; dropped : Z }.
Arguments mkBatchSlot {T}. Arguments buf {T}. Arguments dropped {T}.

Definition batch_new {T} : BatchSlot T := mkBatchSlot [] 0.

(** [u32::saturating_add] *)
Definition saturating_add_u32 (a b : Z) : Z := Z.min (a + b) u32_max.

(** [heapless::Deque::push_back] and [heapless::Vec::push] give the value back
    when the storage is full. *)
Definition push_bounded {T} (N : nat) (x : T) (l : list T) : option (list T) :=
  if (length l <? N)%nat then Some (l ++ [x]) else None.

Definition batch_push {T} (N : nat) (val : T) (s : BatchSlot T) : BatchSlot T :=
  let s := if (length (buf s) =? N)%nat
           then mkBatchSlot (tail (buf s)) (saturating_add_u32 (dropped s) 1) else s in
  mkBatchSlot (default (buf s) (push_bounded N val (buf s))) (dropped s).

(** [drain(out)]: what is written to the front of [out], and the slot left *)
Definition batch_drain {T} (out_len : nat) (s : BatchSlot T) : list T * BatchSlot T :=
  let count := Nat.min out_len (length (buf s)) in
  (take count (buf s), mkBatchSlot (drop count (buf s)) (dropped s)).

(** ** Event slots: a small queue that overwrites its oldest *)

Definition EVENT_CAPACITY : nat := 8.

Definition EventSlot (T : Type) : Type := list T.

Definition event_new {T} : EventSlot T := [].

Definition event_emit {T} (val : T) (q : EventSlot T) : EventSlot T :=
  let q := if (length q =? EVENT_CAPACITY)%nat then tail q else q in
  default q (push_bounded EVENT_CAPACITY val q).

Definition event_take {T} (q : EventSlot T) : option T * EventSlot T :=
  match q with [] => (None, []) | x :: q => (Some x, q) end.

(** ** The byte interface *)

Section Bytes.
Context {T : Type} `{Wire T}.

(** [AnyRetained::read_bytes]: the time and the bytes written into the buffer *)
Definition read_bytes (s : RetainedSlot T) (buf_len : nat) : res TapError (Z * bytes) :=
  match retained_read s with
  | None => Err Empty
  | Some (ts, val) => match to_slice val buf_len with
                      | Some b => Ok (ts, b)
                      | None => Err BufferTooSmall
                      end
  end.

(** [AnyEvent::take_bytes] *)
Definition take_bytes (q : EventSlot T) (buf_len : nat) : res TapError bytes * EventSlot T :=
  match event_take q with
  | (None, q) => (Err Empty, q)
  | (Some val, q) => (match to_slice val buf_len with
                      | Some b => Ok b
                      | None => Err BufferTooSmall
                      end, q)
  end.

(** [AnyWritable::write_bytes] *)
Definition write_bytes (ts : Z) (b : bytes) (s : RetainedSlot T) : res TapError unit * RetainedSlot T :=
  match take_from_bytes b with
  | None => (Err Decode, s)
  | Some (val, rest) =>
      match rest with
      | [] => (Ok tt, retained_update ts val s)
      | _ :: _ => (Err Decode, s)
      end
  end.
End Bytes.

(** ** Registries *)

Definition MAX_TAPS : nat := 16.
Definition MAX_OUTLETS : nat := 8.

Inductive TapKind := KRetained | KEvent | KBatch.

#[export] Instance TapKind_eq_dec : EqDecision TapKind.
Proof. solve_decision. Defined.

(** An entry is a reference to a static slot of its kind. *)
Inductive SlotEntry :=
  | Retained (static : text)
  | Event (static : text)
  | Batch (static : text).

Definition slot_kind (e : SlotEntry) : TapKind :=
  match e with Retained _ => KRetained | Event _ => KEvent | Batch _ => KBatch end.

Inductive OutletEntry := ORetained (static : text).

Section Registry.
Context {E : Type}.

(** [slots] of [TapRegistry] and of [OutletRegistry]: names with their entries *)
Definition Registry : Type := list (text * E).

Definition registry_new : Registry := [].

Fixpoint resolve_from (i : nat) (name : text) (r : Registry) : option nat :=
  match r with
  | [] => None
  | (n, _) :: r => if text_eqb n name then Some i else resolve_from (Datatypes.S i) name r
  end.

Definition resolve (name : text) (r : Registry) : option nat := resolve_from 0 name r.

Definition register (capacity : nat) (name : text) (slot : E) (r : Registry) : res TapError (nat * Registry) :=
  match resolve name r with
  | Some _ => Err Duplicate
  | None =>
      let handle := length r in
      match push_bounded capacity (name, slot) r with
      | Some r' => Ok (handle, r')
      | None => Err RegistryFull
      end
  end.

Definition get (handle : nat) (r : Registry) : option E := snd <$> r !! handle.
Definition name_at (handle : nat) (r : Registry) : option text := fst <$> r !! handle.
End Registry.
Arguments Registry : clear implicits.

Definition TapRegistry := Registry SlotEntry.
Definition OutletRegistry := Registry OutletEntry.

Definition register_tap (name : text) (slot : SlotEntry) (r : TapRegistry) := register MAX_TAPS name slot r.
Definition register_outlet (name : text) (slot : OutletEntry) (r : OutletRegistry) := register MAX_OUTLETS name slot r.

(** ** Bounded queues *)

Lemma push_bounded_some {T} N (x : T) l l' :
  push_bounded N x l = Some l' <-> (length l < N)%nat /\ l' = l ++ [x].
Proof. unfold push_bounded. destruct (Nat.ltb_spec (length l) N); naive_solver lia. Qed.

Lemma push_bounded_room {T} N (x : T) l :
  (length l < N)%nat -> push_bounded N x l = Some (l ++ [x]).
Proof. intros. by apply push_bounded_some. Qed.

(** The last [n] of a list. *)
Definition last_n {T} (n : nat) (l : list T) : list T := drop (length l - n) l.

Lemma last_n_all {T} n (l : list T) : (length l <= n)%nat -> last_n n l = l.
Proof. intros. unfold last_n. by replace (length l - n)%nat with 0%nat by lia. Qed.

Lemma last_n_length {T} n (l : list T) : length (last_n n l) = Nat.min n (length l).
Proof. unfold last_n. rewrite length_drop. lia. Qed.

Lemma last_n_last_n_app {T} n (l k : list T) : last_n n (last_n n l ++ k) = last_n n (l ++ k).
Proof.
  unfold last_n at 1 3. rewrite !length_app, last_n_length. unfold last_n.
  destruct (decide (length l <= n)%nat).
  - replace (length l - n)%nat with 0%nat by lia. rewrite drop_0. f_equal. lia.
  - destruct (decide (length k <= n)%nat).
    + rewrite !drop_app_le by (rewrite ?length_drop; lia). rewrite drop_drop. do 2 f_equal. lia.
    + rewrite !drop_app_ge by (rewrite ?length_drop; lia). f_equal. rewrite length_drop. lia.
Qed.

Lemma event_emit_last {T} (v : T) q :
  (length q <= EVENT_CAPACITY)%nat -> event_emit v q = last_n EVENT_CAPACITY (q ++ [v]).
Proof.
  intros Hq. unfold event_emit, last_n. rewrite length_app. cbn [length].
  destruct (Nat.eqb_spec (length q) EVENT_CAPACITY) as [He|He].
  - destruct q as [|x q]; [done|]. cbn [tail]. cbn [length] in He.
    rewrite push_bounded_room by lia. cbn [default app length].
    by replace (Datatypes.S (length q) + 1 - EVENT_CAPACITY)%nat with 1%nat by lia.
  - rewrite push_bounded_room by lia. cbn [default].
    by replace (length q + 1 - EVENT_CAPACITY)%nat with 0%nat by lia.
Qed.

Lemma event_emit_bound {T} (v : T) q :
  (length q <= EVENT_CAPACITY)%nat -> (length (event_emit v q) <= EVENT_CAPACITY)%nat.
Proof. intros. rewrite event_emit_last, last_n_length by done. lia. Qed.

Lemma event_emit_elem {T} (v x : T) q : x ∈ event_emit v q -> x = v \/ x ∈ q.
Proof.
  unfold event_emit. set (q' := if (length q =? EVENT_CAPACITY)%nat then tail q else q).
  assert (forall y, y ∈ q' -> y ∈ q) as Hq.
  { intros y. unfold q'. case_match; [|done]. destruct q; [done|]. set_solver. }
  destruct (push_bounded EVENT_CAPACITY v q') as [l|] eqn:Hp; cbn.
  - apply push_bounded_some in Hp as [_ ->]. intros [Hx| ->%list_elem_of_singleton]%elem_of_app; [|by left]. right. by apply Hq.
  - right. by apply Hq.
Qed.

(** What is emitted without a take in between: the newest eight remain. *)
Lemma emits_keep_newest {T} (vs : list T) q :
  (length q <= EVENT_CAPACITY)%nat ->
  foldl (fun q v => event_emit v q) q vs = last_n EVENT_CAPACITY (q ++ vs).
Proof.
  revert q. induction vs as [|v vs IH]; intros q Hq; cbn [foldl].
  - by rewrite app_nil_r, last_n_all.
  - rewrite IH by by apply event_emit_bound. rewrite event_emit_last by done.
    rewrite last_n_last_n_app. by rewrite <-(assoc_L (++)).
Qed.

(** ** Registries *)

Lemma resolve_from_shift {E} i name (r : Registry E) :
  resolve_from i name r = (fun k => (i + k)%nat) <$> resolve_from 0 name r.
Proof.
  revert i. induction r as [|[n e] r IH]; intros i; cbn; [done|].
  case_match; [cbn; f_equal; lia|]. rewrite (IH (Datatypes.S i)), (IH 1%nat).
  destruct (resolve_from 0 name r); cbn; [f_equal; lia|done].
Qed.

Lemma resolve_cons {E} name n (e : E) r :
  resolve name ((n, e) :: r) = if text_eqb n name then Some 0%nat else Datatypes.S <$> resolve name r.
Proof.
  unfold resolve. cbn. case_match; [done|]. by rewrite resolve_from_shift.
Qed.

Lemma resolve_none {E} name (r : Registry E) : resolve name r = None <-> name ∉ map fst r.
Proof.
  induction r as [|[n e] r IH]; [set_solver|]. rewrite resolve_cons. cbn.
  destruct (text_eqb n name) eqn:Hn.
  - apply text_eqb_spec in Hn as ->. set_solver.
  - apply text_eqb_false in Hn. destruct (resolve name r); cbn; set_solver.
Qed.

Lemma resolve_some {E} name (r : Registry E) h :
  resolve name r = Some h -> fst <$> r !! h = Some name.
Proof.
  revert h. induction r as [|[n e] r IH]; intros h; [done|]. rewrite resolve_cons.
  destruct (text_eqb n name) eqn:Hn.
  - apply text_eqb_spec in Hn as ->. by intros [= <-].
  - destruct (resolve name r) as [k|]; [|done]. intros [= <-]. by apply IH.
Qed.

(** With distinct names, the handle of an entry is its position. *)
Lemma resolve_nodup {E} name (r : Registry E) h :
  NoDup (map fst r) -> fst <$> r !! h = Some name -> resolve name r = Some h.
Proof.
  revert h. induction r as [|[n e] r IH]; intros h Hnd Hh; [done|].
  cbn in Hnd. apply NoDup_cons in Hnd as [Hn Hnd]. rewrite resolve_cons.
  destruct h as [|h]; cbn in Hh.
  - injection Hh as ->. by rewrite text_eqb_refl.
  - rewrite (IH h) by done. destruct (text_eqb n name) eqn:He; [|done].
    apply text_eqb_spec in He as ->. exfalso. apply Hn.
    apply fmap_Some in Hh as ([m e'] & Hl & ->). apply list_elem_of_lookup_2 in Hl.
    by apply (list_elem_of_fmap_2 fst) in Hl.
Qed.

Lemma register_ok {E} N name (e : E) r h r' :
  register N name e r = Ok (h, r') <->
  name ∉ map fst r /\ (length r < N)%nat /\ h = length r /\ r' = r ++ [(name, e)].
Proof.
  unfold register. destruct (resolve name r) eqn:Hr.
  - split; [done|]. intros [Hn _]. apply resolve_none in Hn. congruence.
  - apply resolve_none in Hr. destruct (push_bounded N (name, e) r) eqn:Hp.
    + apply push_bounded_some in Hp as [? ->]. naive_solver.
    + split; [done|]. intros (_ & Hl & _). by rewrite push_bounded_room in Hp.
Qed.

(** Registering a list of fresh, distinct names that fits never fails, and
    leaves the entries in order. *)
Lemma register_all {E} N (es r : Registry E) :
  NoDup (map fst (r ++ es)) -> (length (r ++ es) <= N)%nat ->
  foldM (fun r ne => snd <$> register N ne.1 ne.2 r) es r = Ok (r ++ es).
Proof.
  revert r. induction es as [|[n e] es IH]; intros r Hnd Hl; cbn.
  - by rewrite app_nil_r.
  - rewrite (proj2 (register_ok N n e r (length r) (r ++ [(n, e)]))).
    + cbn. rewrite IH; by rewrite <-(assoc_L (++)).
    + rewrite map_app in Hnd. cbn in Hnd. rewrite length_app in Hl. cbn in Hl.
      repeat split; [|lia]. apply NoDup_app in Hnd as (_ & Hd & _). set_solver.
Qed.

(** ** What a reader gets

    Emissions and takes in any order: what was emitted splits into what has
    left the queue and what is still in it. *)

Section Queues.
Context {T : Type}.
Implicit Types (v : T).

Inductive EventOp := Emit (v : T) | Take.

Definition emitted (o : EventOp) : list T := match o with Emit v => [v] | Take => [] end.

(** What the takes returned, and the queue left. *)
Fixpoint event_run (ops : list EventOp) (q : EventSlot T) : list T * EventSlot T :=
  match ops with
  | [] => ([], q)
  | Emit v :: ops => event_run ops (event_emit v q)
  | Take :: ops =>
      let '(x, q) := event_take q in
      let '(out, q) := event_run ops q in
      (option_list x ++ out, q)
  end.

(** Emissions that find the queue full. *)
Fixpoint event_overflows (ops : list EventOp) (q : EventSlot T) : nat :=
  match ops with
  | [] => 0
  | Emit v :: ops => (if (length q =? EVENT_CAPACITY)%nat then 1 else 0) + event_overflows ops (event_emit v q)
  | Take :: ops => event_overflows ops (event_take q).2
  end.

Lemma event_emit_cases v q :
  (length q <= EVENT_CAPACITY)%nat ->
  if (length q =? EVENT_CAPACITY)%nat then exists x q', q = x :: q' /\ event_emit v q = q' ++ [v]
  else event_emit v q = q ++ [v].
Proof.
  intros Hq. unfold event_emit. destruct (length q =? EVENT_CAPACITY)%nat eqn:E.
  - apply Nat.eqb_eq in E. destruct q as [|x q]; [done|]. exists x, q. split; [done|].
    cbn [tail]. rewrite push_bounded_room; [done|]. cbn in E. lia.
  - apply Nat.eqb_neq in E. by rewrite push_bounded_room by lia.
Qed.

Lemma event_run_accounts ops q :
  (length q <= EVENT_CAPACITY)%nat ->
  exists gone, q ++ flat_map emitted ops = gone ++ (event_run ops q).2 /\
    (event_run ops q).1 `sublist_of` gone /\ (length (event_run ops q).2 <= EVENT_CAPACITY)%nat /\
    length gone = (length (event_run ops q).1 + event_overflows ops q)%nat.
Proof.
  revert q. induction ops as [|[v|] ops IH]; intros q Hq; cbn [event_run event_overflows flat_map].
  - exists []. rewrite app_nil_r. by split_and!.
  - pose proof (event_emit_cases v q Hq) as Hv.
    destruct (IH (event_emit v q) (event_emit_bound _ _ Hq)) as (gone & Hg & Hs & Hb & Hl).
    destruct (length q =? EVENT_CAPACITY)%nat.
    + destruct Hv as (x & q' & -> & He). exists (x :: gone). rewrite He in *. cbn [emitted].
      rewrite app_assoc, <-app_comm_cons, <-app_comm_cons. rewrite Hg. split_and!; [done|by constructor|done|].
      cbn [length]. lia.
    + exists gone. rewrite Hv in *. cbn [emitted]. by rewrite app_assoc.
  - destruct q as [|x q]; cbn [event_take].
    + destruct (IH [] Hq) as (gone & Hg). exists gone. destruct (event_run ops []). exact Hg.
    + destruct (IH q) as (gone & Hg & Hs & Hb & Hl); [cbn in Hq; lia|]. exists (x :: gone).
      destruct (event_run ops q) as [out q']. cbn in *. split_and!; [by rewrite Hg|by constructor|done|lia].
Qed.
End Queues.
Arguments EventOp : clear implicits.

(** However emissions and takes interleave, an event slot loses nothing
    but what an emission into a full queue pushes out: of the values emitted,
    the newest are in the queue, the older ones were taken, in their order and
    once each, or are as many as the emissions that found the queue full. *)
Theorem event_slot_accounts {T} (ops : list (EventOp T)) :
  exists gone, flat_map emitted ops = gone ++ (event_run ops event_new).2 /\
    (event_run ops event_new).1 `sublist_of` gone /\
    (length (event_run ops event_new).2 <= EVENT_CAPACITY)%nat /\
    length gone = (length (event_run ops event_new).1 + event_overflows ops event_new)%nat.
Proof. apply (event_run_accounts ops event_new). unfold EVENT_CAPACITY. cbn. lia. Qed.

Section Batches.
Context {T : Type} (N : nat).

Inductive BatchOp := Push (v : T) | Drain (out_len : nat).

Definition pushed (o : BatchOp) : list T := match o with Push v => [v] | Drain _ => [] end.

Fixpoint batch_run (ops : list BatchOp) (s : BatchSlot T) : list T * BatchSlot T :=
  match ops with
  | [] => ([], s)
  | Push v :: ops => batch_run ops (batch_push N v s)
  | Drain n :: ops =>
      let '(l, s) := batch_drain n s in
      let '(out, s) := batch_run ops s in
      (l ++ out, s)
  end.

(** Push: either the value goes in and nothing goes out, or one value goes
    out of the ring, which with no storage is the value itself. *)
Lemma batch_push_cases (v : T) (s : BatchSlot T) :
  (length (buf s) <= N)%nat ->
  (length (buf (batch_push N v s)) <= N)%nat /\
  ((buf (batch_push N v s) = buf s ++ [v] /\ dropped (batch_push N v s) = dropped s) \/
   (exists x, x :: buf (batch_push N v s) = buf s ++ [v] /\
     dropped (batch_push N v s) = saturating_add_u32 (dropped s) 1)).
Proof.
  intros Hs. destruct s as [b d]. unfold batch_push. cbn [buf dropped] in *.
  destruct (length b =? N)%nat eqn:E; cbn [buf dropped].
  - apply Nat.eqb_eq in E. destruct b as [|x b]; cbn [tail length] in *.
    + subst N. cbn. split; [lia|right]. by exists v.
    + rewrite push_bounded_room by lia. cbn. rewrite length_app. cbn. split; [lia|right]. by exists x.
  - apply Nat.eqb_neq in E. rewrite push_bounded_room by lia. cbn. rewrite length_app. cbn. split; [lia|by left].
Qed.

Lemma batch_run_accounts ops (s : BatchSlot T) lost :
  (length (buf s) <= N)%nat -> dropped s = Z.min (Z.of_nat lost) u32_max ->
  exists gone, buf s ++ flat_map pushed ops = gone ++ buf (batch_run ops s).2 /\
    (batch_run ops s).1 `sublist_of` gone /\ (length (buf (batch_run ops s).2) <= N)%nat /\
    dropped (batch_run ops s).2 = Z.min (Z.of_nat (lost + length gone - length (batch_run ops s).1)) u32_max.
Proof.
  revert s lost. induction ops as [|[v|n] ops IH]; intros s lost Hs Hd; cbn [batch_run flat_map pushed].
  - exists []. cbn [fst snd]. rewrite app_nil_r. split_and!; [done|done|done|]. rewrite Hd. f_equal. cbn. lia.
  - destruct (batch_push_cases v s Hs) as [Hb [[He Hx]|(x & He & Hx)]].
    + destruct (IH _ lost Hb) as (gone & Hg & Hr); [congruence|]. exists gone.
      rewrite app_assoc, <-He. done.
    + destruct (IH _ (Datatypes.S lost) Hb) as (gone & Hg & Hsub & Hl & Hr).
      { rewrite Hx, Hd. unfold saturating_add_u32, u32_max. lia. }
      exists (x :: gone). rewrite app_assoc, <-He, <-app_comm_cons, Hg.
      split_and!; [done|by constructor|done|]. rewrite Hr. cbn [length]. f_equal. f_equal. lia.
  - cbn [batch_drain]. unfold batch_drain. set (k := Nat.min n (length (buf s))).
    destruct (IH (mkBatchSlot (drop k (buf s)) (dropped s)) lost) as (gone & Hg & Hsub & Hl & Hr).
    { cbn. rewrite length_drop. lia. } { done. }
    cbn [buf dropped] in *. destruct (batch_run ops _) as [out s']. cbn [fst snd] in *.
    exists (take k (buf s) ++ gone). split_and!; [|by apply sublist_app|done|].
    + by rewrite <-app_assoc, <-Hg, (app_assoc (take _ _)), take_drop.
    + rewrite Hr, !length_app. f_equal. f_equal. lia.
Qed.
End Batches.
Arguments BatchOp : clear implicits.

(** However pushes and drains interleave, a batch slot of any size keeps
    the newest values, hands out the others in their order and once each, and
    its count of dropped values is the number of those it never handed out, up
    to the largest 32-bit number. *)
Theorem batch_slot_accounts {T} N (ops : list (BatchOp T)) :
  exists gone, flat_map pushed ops = gone ++ buf (batch_run N ops batch_new).2 /\
    (batch_run N ops batch_new).1 `sublist_of` gone /\
    (length (buf (batch_run N ops batch_new).2) <= N)%nat /\
    dropped (batch_run N ops batch_new).2 =
      Z.min (Z.of_nat (length gone - length (batch_run N ops batch_new).1)) u32_max.
Proof. apply (batch_run_accounts N ops batch_new 0); cbn; [lia|done]. Qed.

(** ** Bytes *)

(** Bytes a cell encodes and writes are read back: the slot then holds the
    value and the time of the write, and a read into a buffer at least as large
    gives the same bytes.  One byte too many, and nothing is written. *)
Theorem written_bytes_read_back {T} `{WireLaws T} (v : T) (n m : nat) ts b x r (s : RetainedSlot T) :
  to_slice v n = Some b -> (n <= m)%nat ->
  (exists s', write_bytes ts b s = (Ok tt, s') /\ retained_read s' = Some (ts, v) /\ read_bytes s' m = Ok (ts, b)) /\
  write_bytes ts (b ++ x :: r) s = (Err Decode, s).
Proof.
  intros Hb Hm. pose proof (take_to_slice v n b [] Hb) as Ht. rewrite app_nil_r in Ht.
  unfold write_bytes, read_bytes. rewrite Ht, (take_to_slice v n b (x :: r) Hb). split; [|done].
  eexists. split; [done|]. split; [done|]. cbn. by rewrite (to_slice_more v n m b Hb Hm).
Qed.

(** A buffer that is too small leaves a retained value where it is, but an
    event is gone. *)
Lemma small_buffer {T} `{Wire T} (v : T) ts q n :
  to_slice v n = None ->
  read_bytes (Some (ts, v)) n = Err BufferTooSmall /\ take_bytes (v :: q) n = (Err BufferTooSmall, q).
Proof. intros Hn. unfold read_bytes, take_bytes. cbn. by rewrite Hn. Qed.

Module SampleWire.

(** One byte for a boolean. *)
#[export] Instance bool_wire : Wire bool := {
  to_slice := fun v n => match n with O => None | _ => Some [if v then Byte.x01 else Byte.x00] end;
  take_from_bytes := fun b => match b with Byte.x00 :: r => Some (false, r) | Byte.x01 :: r => Some (true, r) | _ => None end;
}.

#[export] Instance bool_wire_laws : WireLaws bool.
Proof.
  split; cbn.
  - intros v [|n] b; intros [= <-]. cbn. lia.
  - intros v [|n] [|m] b; intros [= <-] Hle; [lia|done].
  - intros v [|n] b r; intros [= <-]. by destruct v.
Qed.
End SampleWire.
Import SampleWire.

Lemma written_bytes_read_back_witness :
  exists s', write_bytes 5 [Byte.x01] (Some (4, false)) = (Ok tt, s') /\ read_bytes s' 3 = Ok (5, [Byte.x01]).
Proof.
  destruct (written_bytes_read_back true 1 3 5 [Byte.x01] Byte.x00 [] (Some (4, false)))
    as [(s' & Hw & _ & Hr) _]; [reflexivity|lia|].
  exists s'. split; [exact Hw|exact Hr].
Defined.
