(* ===== verification/Board.v ===== *)
(** * Board manifests

    [sdk/signal-layer/pipeline-backend-api/src/manifest.rs], the checks of a
    manifest by itself ([pipeline-codegen/src/manifest.rs]), those of the ESP
    backend and the set of pins it hands to cells
    ([esp-codegen/src/backend.rs]).  The theorems say what an accepted board
    guarantees about who owns a pin.  YAML is read by a third-party crate: its
    values are a parameter, with the accessors the sources call. *)

From S2P Require Import Prelude Text.
From Stdlib Require Import ZArith Lia Strings.String.
From stdpp Require Import base list option sets.

Local Open Scope Z_scope.

(** [serde_yaml::Value] and its accessors; [F] and [F32] stand for [f64] and
    [f32], with [0.0] and [as f32]. *)
Class Yaml := {
  Value : Type;
  F64 : Type;
  F32 : Type;
  f64_zero : F64;
  f64_as_f32 : F64 -> F32;
  f64_is_finite : F64 -> bool;
  f32_is_finite : F32 -> bool;
  as_i64 : Value -> option Z;
  as_u64 : Value -> option Z;
  as_f64 : Value -> option F64;
  as_bool : Value -> option bool;
  as_str : Value -> option text;
}.

(** What the accessors for integers document. *)
Class YamlLaws `{Yaml} := {
  as_i64_range : forall v n, as_i64 v = Some n -> - 2 ^ 63 <= n < 2 ^ 63;
  as_u64_range : forall v n, as_u64 v = Some n -> 0 <= n < 2 ^ 64;
  as_u64_of_i64 : forall v n, as_i64 v = Some n -> 0 <= n -> as_u64 v = Some n;
}.

(** [IndexMap<String, V>]: entries in the order of their insertion *)
Definition IndexMap (V : Type) : Type := list (text * V).

Fixpoint im_get {V} (k : text) (l : IndexMap V) : option V :=
  match l with
  | [] => None
  | (n, v) :: l => if text_eqb n k then Some v else im_get k l
  end.

Definition im_contains {V} (k : text) (l : IndexMap V) : bool :=
  match im_get k l with Some _ => true | None => false end.

Inductive BusTransport := I2c | Spi.

#[export] Instance BusTransport_eq_dec : EqDecision BusTransport.
Proof. solve_decision. Defined.

Record BusConfig := mkBusConfig {
  transport : BusTransport;
  bc_pins : IndexMap Z;
  freq_khz : Z;
  mode : Z;
}.

Record GpioConfig := mkGpioConfig { general_purpose : list Z }.

Section Manifest.
Context `{Yaml}.

Record DeviceEntry := mkDeviceEntry {
  de_id : text;
  driver : text;
  bus : text;
  de_pins : IndexMap Z;
  hardware : IndexMap Value;
}.

Record BoardManifest := mkBoardManifest {
  bm_id : text;
  chip : text;
  buses : IndexMap BusConfig;
  gpios : GpioConfig;
  devices : list DeviceEntry;
}.

(** ** Errors, one constructor for each message *)

Inductive IdentError :=
  | IdentEmpty
  | IdentStart (s : text)
  | IdentChar (s : text) (bad : Z)
  | IdentKeyword (s : text).

Inductive BoardError :=
  | BusId (e : IdentError)
  | DeviceId (e : IdentError)
  | DeviceDriver (device : text) (e : IdentError)
  | PinOnTwoBuses (pin : Z) (prev now : text * text)
  | BusFrequency (bus : text)
  | SpiMode (bus : text) (mode : Z)
  | BusPinExported (pin : Z) (role : text * text)
  | UnknownBus (device bus : text)
  | DevicePinExported (device pin_name : text) (pin : Z)
  | SpiNeedsCs (device : text)
  | PinClaimedTwice (pin : Z) (prev now : text * text)
  | DuplicateDevice (device : text).

(** ** [validate_rust_ident] *)

Context `{Unicode} `{Syn}.

Definition validate_rust_ident (s : text) : res IdentError unit :=
  match replace_char char_dash char_underscore s with
  | [] => Err IdentEmpty
  | first :: chars =>
      if negb (is_alphabetic first) && negb (first =? char_underscore) then Err (IdentStart s)
      else match List.find (fun c => negb (is_alphanumeric c) && negb (c =? char_underscore)) chars with
           | Some bad => Err (IdentChar s bad)
           | None => if parse_ident (first :: chars) then Ok tt else Err (IdentKeyword s)
           end
  end.

Definition ident_errors {E} (f : IdentError -> E) (s : text) : list E :=
  match validate_rust_ident s with Ok _ => [] | Err e => [f e] end.

(** ** [validate_manifest] *)

(** [IndexMap<u8, String>::insert]: the value there was, and the map after *)
Fixpoint pin_insert (pin : Z) (o : text * text) (m : list (Z * (text * text)))
    : option (text * text) * list (Z * (text * text)) :=
  match m with
  | [] => (None, [(pin, o)])
  | (p, v) :: m =>
      if p =? pin then (Some v, (p, o) :: m)
      else let '(prev, m') := pin_insert pin o m in (prev, (p, v) :: m')
  end.

(** The loop that claims pins for owners, reporting a pin claimed again. *)
Definition claim_pins (clash : Z -> text * text -> text * text -> BoardError)
    (st : list (Z * (text * text)) * list BoardError) (claims : list (Z * (text * text)))
    : list (Z * (text * text)) * list BoardError :=
  foldl (fun '(m, errors) '(pin, o) =>
    let '(prev, m') := pin_insert pin o m in
    (m', errors ++ match prev with Some prev => [clash pin prev o] | None => [] end)) st claims.

Definition bus_claims (bus_id : text) (b : BusConfig) : list (Z * (text * text)) :=
  map (fun '(role, pin) => (pin, (bus_id, role))) (bc_pins b).

Definition device_claims (d : DeviceEntry) : list (Z * (text * text)) :=
  map (fun '(pin_name, pin) => (pin, (de_id d, pin_name))) (de_pins d).

Definition bus_step (st : list (Z * (text * text)) * list BoardError) (e : text * BusConfig)
    : list (Z * (text * text)) * list BoardError :=
  let '(bus_id, b) := e in
  let '(m, errors) := claim_pins PinOnTwoBuses st (bus_claims bus_id b) in
  (m, errors
      ++ (if freq_khz b =? 0 then [BusFrequency bus_id] else [])
      ++ match transport b with
         | Spi => if 3 <? mode b then [SpiMode bus_id (mode b)] else []
         | I2c => []
         end).

Definition exported (m : BoardManifest) (pin : Z) : bool :=
  bool_decide (pin ∈ general_purpose (gpios m)).

Definition device_errors (m : BoardManifest) (d : DeviceEntry) : list BoardError :=
  (match bus d with
   | [] => []
   | _ :: _ => if im_contains (bus d) (buses m) then [] else [UnknownBus (de_id d) (bus d)]
   end)
  ++ flat_map (fun '(pin_name, pin) => if exported m pin then [DevicePinExported (de_id d) pin_name pin] else []) (de_pins d)
  ++ match im_get (bus d) (buses m) with
     | Some b => match transport b with
                 | Spi => if im_contains (lit "cs") (de_pins d) then [] else [SpiNeedsCs (de_id d)]
                 | I2c => []
                 end
     | None => []
     end.

(** [for x in l { if !seen.insert(x) { errors.push(..) } }]: the repeated ones *)
Fixpoint repeated (seen l : list text) : list text :=
  match l with
  | [] => []
  | x :: l => if bool_decide (x ∈ seen) then x :: repeated seen l else repeated (x :: seen) l
  end.

Definition validate_manifest (m : BoardManifest) : list BoardError :=
  let errors := flat_map (fun e => ident_errors BusId e.1) (buses m)
    ++ flat_map (fun d => ident_errors DeviceId (de_id d)
                           ++ ident_errors (DeviceDriver (de_id d)) (driver d)) (devices m) in
  let '(bus_pins, errors) := foldl bus_step ([], errors) (buses m) in
  let errors := errors
    ++ flat_map (fun '(pin, role) => if exported m pin then [BusPinExported pin role] else []) bus_pins
    ++ flat_map (device_errors m) (devices m) in
  let '(_, errors) := claim_pins PinClaimedTwice ([], errors) (flat_map device_claims (devices m)) in
  errors ++ map DuplicateDevice (repeated [] (map de_id (devices m))).
End Manifest.

(** ** The ESP backend *)

(** [CHIP_LAYOUTS]: chip, slots of [wasm_runtime::Pins], and the GPIOs in them *)
Definition CHIP_LAYOUTS : list (text * nat * list Z) :=
  [ (lit "esp32c5", 25%nat, [0; 1; 6; 8; 9; 10; 23; 24]);
    (lit "esp32c6", 28%nat, [0; 1; 2; 3; 10; 11; 14; 18; 19; 20; 21; 22; 23; 27]);
    (lit "esp32c61", 30%nat, [0; 1; 2; 22; 23; 24; 25; 26; 27; 28; 29]) ].

Definition layout_slots (slots : nat) (usable : list Z) : list (option Z) :=
  map (fun pin => if bool_decide (pin ∈ usable) then Some pin else None) (map Z.of_nat (seq 0 slots)).

Definition chip_pin_layout (c : text) : option (list (option Z)) :=
  match List.find (fun '(name, _, _) => text_eqb name c) CHIP_LAYOUTS with
  | Some (_, slots, usable) => Some (layout_slots slots usable)
  | None => None
  end.

Inductive EspError :=
  | I2cBusId (bus : text)
  | SpiBusId (bus : text)
  | SpiBusPin (bus pin : text)
  | ChipLayout (chip : text)
  | PinNotInLayout (pin : Z) (chip : text).

Section Esp.
Context `{Yaml}.

Definition esp_bus_errors (e : text * BusConfig) : list EspError :=
  let '(bus_id, b) := e in
  match transport b with
  | I2c => if negb (text_eqb bus_id (lit "i2c0")) && negb (text_eqb bus_id (lit "i2c1"))
           then [I2cBusId bus_id] else []
  | Spi => (if negb (text_eqb bus_id (lit "spi2")) && negb (text_eqb bus_id (lit "spi3"))
            then [SpiBusId bus_id] else [])
           ++ flat_map (fun required => if im_contains required (bc_pins b) then [] else [SpiBusPin bus_id required])
                [lit "sclk"; lit "mosi"]
  end.

(** [Esp32Backend::validate_manifest] *)
Definition esp_validate_manifest (m : BoardManifest) : list EspError :=
  let errors := flat_map esp_bus_errors (buses m) in
  match chip_pin_layout (chip m) with
  | None => errors ++ [ChipLayout (chip m)]
  | Some layout =>
      errors ++ flat_map (fun pin => if bool_decide (Some pin ∈ layout) then [] else [PinNotInLayout pin (chip m)])
                  (general_purpose (gpios m))
  end.

(** The pins buses and devices claim. *)
Definition reserved_pins (m : BoardManifest) : list Z :=
  flat_map (fun e => map snd (bc_pins e.2)) (buses m) ++ flat_map (fun d => map snd (de_pins d)) (devices m).

(** The slots [emit_pipeline_pins_macro] fills: the pins cells get.  [None] is
    its [expect] on a chip without a layout. *)
Definition emit_pipeline_pins_macro (m : BoardManifest) : option (list (option Z)) :=
  match chip_pin_layout (chip m) with
  | None => None
  | Some layout =>
      Some (map (fun slot => match slot with
                             | Some pin => if negb (bool_decide (pin ∈ reserved_pins m)) && exported m pin
                                           then Some pin else None
                             | None => None
                             end) layout)
  end.
End Esp.

(** ** Accepted boards *)

Section BoardFacts.
Context `{Yaml} `{Unicode} `{Syn}.

Lemma ident_ok_no_dot s : validate_rust_ident s = Ok tt -> char_dot ∉ s.
Proof.
  unfold validate_rust_ident. intros Hv Hd.
  assert (char_dot ∈ replace_char char_dash char_underscore s) as Hr.
  { unfold replace_char. apply list_elem_of_fmap. by exists char_dot. }
  destruct (replace_char char_dash char_underscore s) as [|c cs]; [by apply elem_of_nil in Hr|].
  destruct (negb (is_alphabetic c) && negb (c =? char_underscore)) eqn:Hc; [done|].
  destruct (List.find _ cs) eqn:Hf; [done|].
  apply elem_of_cons in Hr as [<-|Hr]; [by rewrite dot_not_alphabetic in Hc|].
  apply List.find_none with (x := char_dot) in Hf; [|by apply list_elem_of_In].
  by rewrite dot_not_alphanumeric in Hf.
Qed.

Lemma ident_errors_nil {E} (f : IdentError -> E) s :
  ident_errors f s = [] <-> validate_rust_ident s = Ok tt.
Proof.
  unfold ident_errors. destruct (validate_rust_ident s) as [[]|]; naive_solver.
Qed.

Lemma flat_map_nil {A B} (f : A -> list B) l :
  flat_map f l = [] <-> forall x, x ∈ l -> f x = [].
Proof.
  induction l as [|a l IH]; cbn; [set_solver|]. rewrite app_nil, IH. set_solver.
Qed.

Lemma repeated_nil seen l :
  repeated seen l = [] <-> NoDup l /\ forall x, x ∈ l -> x ∉ seen.
Proof.
  revert seen. induction l as [|x l IH]; intros seen; cbn.
  - split; [|done]. intros _. split; [constructor|]. set_solver.
  - case_bool_decide as Hx.
    + split; [done|]. intros [_ Hn]. exfalso. apply (Hn x); set_solver.
    + rewrite IH, NoDup_cons. set_solver.
Qed.

Lemma pin_insert_none pin o m prev m' :
  pin_insert pin o m = (prev, m') ->
  (prev = None <-> pin ∉ map fst m) /\ (prev = None -> m' = m ++ [(pin, o)]).
Proof.
  revert prev m'. induction m as [|[p v] m IH]; intros prev m'; cbn.
  - intros [= <- <-]. set_solver.
  - destruct (Z.eqb_spec p pin) as [->|Hp].
    + intros [= <- <-]. set_solver.
    + destruct (pin_insert pin o m) as [prev1 m1]. intros [= <- <-].
      destruct (IH _ _ eq_refl) as [I1 I2]. split.
      * rewrite I1. set_solver.
      * intros Hn. by rewrite (I2 Hn).
Qed.

Lemma claim_pins_cons clash m errors pin o claims :
  claim_pins clash (m, errors) ((pin, o) :: claims) =
  claim_pins clash ((pin_insert pin o m).2,
    errors ++ match (pin_insert pin o m).1 with Some prev => [clash pin prev o] | None => [] end) claims.
Proof. unfold claim_pins. cbn [foldl]. by destruct (pin_insert pin o m). Qed.

Lemma claim_pins_errors clash m errors claims :
  (claim_pins clash (m, errors) claims).2 = [] -> errors = [].
Proof.
  revert m errors. induction claims as [|[pin o] claims IH]; intros m errors; [done|].
  rewrite claim_pins_cons. intros Hn%IH. by apply app_nil in Hn as [-> _].
Qed.

(** The claiming loop reports nothing exactly if no pin is claimed twice, and
    then every claim is in the map. *)
Lemma claim_pins_nil clash m errors claims :
  NoDup (map fst m) ->
  (claim_pins clash (m, errors) claims).2 = [] <->
  errors = [] /\ NoDup (map fst (m ++ claims)) /\ (claim_pins clash (m, errors) claims).1 = m ++ claims.
Proof.
  revert m errors. induction claims as [|[pin o] claims IH]; intros m errors Hm.
  - cbn. rewrite app_nil_r. naive_solver.
  - rewrite claim_pins_cons. destruct (pin_insert pin o m) as [prev m'] eqn:Hi. cbn [fst snd].
    destruct (pin_insert_none _ _ _ _ _ Hi) as [Hn Ha]. destruct prev as [prev|].
    + split.
      * intros Hf%claim_pins_errors. by destruct errors.
      * intros (_ & Hnd & _). exfalso. rewrite map_app in Hnd. apply NoDup_app in Hnd as (_ & Hd & _).
        destruct (decide (pin ∈ map fst m)) as [Hin|Hin]; [|apply Hn in Hin; done].
        apply (Hd _ Hin). cbn. set_solver.
    + rewrite (Ha eq_refl), app_nil_r. rewrite (IH (m ++ [(pin, o)]) errors).
      * by rewrite <-(assoc_L (++)).
      * rewrite map_app. cbn. apply NoDup_app. split; [done|]. split; [|apply NoDup_singleton].
        pose proof (proj1 Hn eq_refl). set_solver.
Qed.

Lemma claim_pins_inv clash errors claims m' :
  claim_pins clash ([], errors) claims = (m', []) -> errors = [] /\ NoDup (map fst claims).
Proof.
  intros Hc. destruct (proj1 (claim_pins_nil clash [] errors claims ltac:(constructor))) as (? & ? & _);
    [by rewrite Hc|done].
Qed.

(** The pins the buses of a manifest claim, with the bus and the role. *)
Definition all_bus_claims (bs : IndexMap BusConfig) : list (Z * (text * text)) :=
  flat_map (fun e => bus_claims e.1 e.2) bs.

Lemma bus_steps_errors st bs : (foldl bus_step st bs).2 = [] -> st.2 = [].
Proof.
  revert st. induction bs as [|[id b] bs IH]; intros [m errors]; [done|]. cbn [foldl].
  intros Hn%IH. unfold bus_step in Hn.
  destruct (claim_pins _ _ _) as [m1 e1] eqn:Hc. cbn in Hn. apply app_nil in Hn as [-> _].
  apply (claim_pins_errors PinOnTwoBuses m errors (bus_claims id b)). by rewrite Hc.
Qed.

Lemma bus_steps_nil m errors bs :
  NoDup (map fst m) ->
  (foldl bus_step (m, errors) bs).2 = [] ->
  NoDup (map fst (m ++ all_bus_claims bs)) /\
  (foldl bus_step (m, errors) bs).1 = m ++ all_bus_claims bs.
Proof.
  revert m errors. induction bs as [|[id b] bs IH]; intros m errors Hm.
  - cbn. by rewrite app_nil_r.
  - cbn [foldl]. unfold bus_step at 2 4. cbn [all_bus_claims flat_map fst snd].
    destruct (claim_pins PinOnTwoBuses (m, errors) (bus_claims id b)) as [m1 e1] eqn:Hc. intros Hf.
    pose proof (claim_pins_nil PinOnTwoBuses m errors (bus_claims id b) Hm) as Hcl. rewrite Hc in Hcl. cbn in Hcl.
    pose proof (bus_steps_errors _ _ Hf) as He. cbn in He. apply app_nil in He as [-> _].
    destruct (proj1 Hcl eq_refl) as (_ & Hnd & ->).
    destruct (IH _ _ Hnd Hf) as [I1 I2]. by rewrite (assoc_L (++)).
Qed.

(** What an accepted manifest guarantees. *)
Lemma accepted_manifest m :
  validate_manifest m = [] ->
  (forall b, b ∈ map fst (buses m) -> validate_rust_ident b = Ok tt) /\
  (forall d, d ∈ devices m -> validate_rust_ident (de_id d) = Ok tt /\ validate_rust_ident (driver d) = Ok tt) /\
  NoDup (map fst (all_bus_claims (buses m))) /\
  (forall pin, pin ∈ map fst (all_bus_claims (buses m)) -> exported m pin = false) /\
  (forall d, d ∈ devices m -> device_errors m d = []) /\
  NoDup (map fst (flat_map device_claims (devices m))) /\
  NoDup (map de_id (devices m)).
Proof.
  unfold validate_manifest. destruct (foldl bus_step _ (buses m)) as [bp e1] eqn:Hb.
  destruct (claim_pins PinClaimedTwice _ _) as [dp e2] eqn:Hd. intros [-> Hr]%app_nil.
  apply map_eq_nil, repeated_nil in Hr as [Hid _].
  apply claim_pins_inv in Hd as [He Hdev]. apply app_nil in He as [-> He]. apply app_nil in He as [Hbp Hde].
  assert ((foldl bus_step ([], flat_map (fun e => ident_errors BusId e.1) (buses m) ++
    flat_map (fun d => ident_errors DeviceId (de_id d) ++ ident_errors (DeviceDriver (de_id d)) (driver d)) (devices m))
    (buses m)).2 = []) as Hz by by rewrite Hb.
  destruct (bus_steps_nil [] _ _ ltac:(constructor) Hz) as [Hnd Hbp1].
  rewrite Hb in Hbp1. cbn in Hbp1, Hnd. subst bp.
  apply bus_steps_errors in Hz. cbn in Hz. apply app_nil in Hz as [Z1 Z2].
  pose proof (proj1 (flat_map_nil _ _) Hbp) as Fb. pose proof (proj1 (flat_map_nil _ _) Hde) as Fd.
  pose proof (proj1 (flat_map_nil _ _) Z1) as F1. pose proof (proj1 (flat_map_nil _ _) Z2) as F2.
  split_and!; try done.
  - intros b (e & -> & He)%list_elem_of_fmap. by eapply ident_errors_nil, F1.
  - intros d Hin. specialize (F2 _ Hin). apply app_nil in F2 as [A B].
    split; eapply ident_errors_nil; eassumption.
  - intros pin ([p o] & -> & Hin)%list_elem_of_fmap. specialize (Fb _ Hin). cbn in *.
    by destruct (exported m p).
Qed.

Lemma accepted_ids_distinct m : validate_manifest m = [] -> NoDup (map de_id (devices m)).
Proof. intros Hm%accepted_manifest. apply Hm. Qed.

Lemma reserved_claims m :
  reserved_pins m = map fst (all_bus_claims (buses m) ++ flat_map device_claims (devices m)).
Proof.
  unfold reserved_pins, all_bus_claims. rewrite map_app. f_equal.
  - induction (buses m) as [|[id b] l IH]; cbn; [done|]. rewrite map_app, IH. f_equal.
    unfold bus_claims. rewrite map_map. apply map_ext. by intros [].
  - induction (devices m) as [|d l IH]; cbn; [done|]. rewrite map_app, IH. f_equal.
    unfold device_claims. rewrite map_map. apply map_ext. by intros [].
Qed.

(** On an accepted board no exported pin is claimed by a bus or a device. *)
Lemma reserved_not_exported m pin :
  validate_manifest m = [] -> pin ∈ reserved_pins m -> exported m pin = false.
Proof.
  intros Hv. destruct (accepted_manifest m Hv) as (_ & _ & _ & Hb & Hd & _).
  rewrite reserved_claims, map_app. intros [Hp|Hp]%elem_of_app; [by apply Hb|].
  apply list_elem_of_fmap in Hp as ([p o] & -> & Hp). apply list_elem_of_In, in_flat_map in Hp as (d & Hin & Hp).
  apply list_elem_of_In in Hin. specialize (Hd _ Hin). unfold device_errors in Hd.
  apply app_nil in Hd as [_ Hd]. apply app_nil in Hd as [Hd _].
  pose proof (proj1 (flat_map_nil _ _) Hd) as Fd. clear Hd.
  unfold device_claims in Hp. apply in_map_iff in Hp as ([n q] & [= <- <-] & Hq).
  apply list_elem_of_In in Hq. specialize (Fd _ Hq). cbn in Fd |- *. by destruct (exported m q).
Qed.

(** ** Layouts *)

Lemma layout_slots_lookup slots usable i s :
  layout_slots slots usable !! i = Some s ->
  s = if bool_decide (Z.of_nat i ∈ usable) then Some (Z.of_nat i) else None.
Proof.
  unfold layout_slots. rewrite !list_lookup_fmap. intros (z & (k & Hk & ->)%fmap_Some & ->)%fmap_Some.
  apply lookup_seq in Hk as [-> _]. done.
Qed.

(** A slot of a layout holds nothing, or the GPIO of its own number. *)
Lemma layout_index c layout i pin :
  chip_pin_layout c = Some layout -> layout !! i = Some (Some pin) -> pin = Z.of_nat i.
Proof.
  unfold chip_pin_layout. destruct (List.find _ _) as [[[n slots] usable]|]; [|done].
  intros [= <-] Hs%layout_slots_lookup. case_bool_decide; congruence.
Qed.
End BoardFacts.

(** ** Concrete parameters, to evaluate the checks *)
Module SampleParams.
Inductive yaml := YInt (n : Z) | YBool (b : bool) | YStr (s : text) | YNull.

#[export] Instance sample_yaml : Yaml := {
  Value := yaml;
  F64 := Z;
  F32 := Z;
  f64_zero := 0;
  f64_as_f32 := fun z => z;
  f64_is_finite := fun z => Z.abs z <? 2 ^ 1024;
  f32_is_finite := fun z => Z.abs z <? 2 ^ 128;
  as_i64 := fun v => match v with
                     | YInt n => if (- 2 ^ 63 <=? n) && (n <? 2 ^ 63) then Some n else None
                     | _ => None
                     end;
  as_u64 := fun v => match v with YInt n => if (0 <=? n) && (n <? 2 ^ 64) then Some n else None | _ => None end;
  as_f64 := fun v => match v with YInt n => Some n | _ => None end;
  as_bool := fun v => match v with YBool b => Some b | _ => None end;
  as_str := fun v => match v with YStr s => Some s | _ => None end;
}.

#[export] Instance sample_yaml_laws : YamlLaws.
Proof.
  split.
  - intros [n| | |] k; cbn [as_i64 sample_yaml]; [|done..].
    destruct (Z.leb_spec (- 2 ^ 63) n), (Z.ltb_spec n (2 ^ 63)); cbn [andb]; [|done..]. intros [= <-]. lia.
  - intros [n| | |] k; cbn [as_u64 sample_yaml]; [|done..].
    destruct (Z.leb_spec 0 n), (Z.ltb_spec n (2 ^ 64)); cbn [andb]; [|done..]. intros [= <-]. lia.
  - intros [n| | |] k; cbn [as_i64 as_u64 sample_yaml]; [|done..].
    destruct (Z.leb_spec (- 2 ^ 63) n), (Z.ltb_spec n (2 ^ 63)); cbn [andb]; [|done..]. intros [= <-] ?.
    destruct (Z.leb_spec 0 n), (Z.ltb_spec n (2 ^ 64)); cbn [andb]; [done|lia..].
Qed.

#[export] Instance sample_unicode : Unicode := {
  wide_alphabetic := fun _ => false;
  wide_numeric := fun _ => false;
  wide_upper := fun c => [c];
}.

#[export] Instance sample_syn : Syn := {
  parse_ident := fun s =>
    negb (bool_decide (s ∈ [lit "type"; lit "match"; lit "move"; lit "fn"; lit "_"]))
    && forallb (fun c => is_alphanumeric c || (c =? char_underscore)) s;
  ident_new_ok := plain_ident;
}.

#[export] Instance sample_ident_laws : IdentLaws.
Proof. by split. Qed.

(** A board with an I2C bus, a sensor with a ready pin and a relay. *)
Definition board (drdy : Z) : BoardManifest :=
  mkBoardManifest (lit "demo") (lit "esp32c6")
    [(lit "i2c0", mkBusConfig I2c [(lit "scl", 10); (lit "sda", 11)] 400 0)]
    (mkGpioConfig [0; 1; 2; 3])
    [ mkDeviceEntry (lit "thermo") (lit "bme280") (lit "i2c0") [(lit "drdy", drdy)] [];
      mkDeviceEntry (lit "relay") (lit "gpio-relay") [] [(lit "out", 19)] [] ].
End SampleParams.

Section Exclusive.
Context `{Yaml} `{Unicode} `{Syn}.

(** C26. On a board both checks accept, cells get exactly the pins the manifest
    exports, each in the slot of its own number, and none of them is wired to
    a bus or a device; no two buses or roles of a bus share a pin, and no two
    devices or roles of a device do. *)
Theorem cell_pins_exact m :
  validate_manifest m = [] -> esp_validate_manifest m = [] ->
  (exists slots, emit_pipeline_pins_macro m = Some slots /\
    (forall i pin, slots !! i = Some (Some pin) <-> pin = Z.of_nat i /\ pin ∈ general_purpose (gpios m)) /\
    (forall pin, pin ∈ general_purpose (gpios m) -> Some pin ∈ slots /\ pin ∉ reserved_pins m)) /\
  NoDup (map fst (all_bus_claims (buses m))) /\
  NoDup (map fst (flat_map device_claims (devices m))).
Proof.
  intros Hv He. destruct (accepted_manifest m Hv) as (_ & _ & Hb & _ & _ & Hd & _).
  split; [|done]. unfold esp_validate_manifest, emit_pipeline_pins_macro in *.
  destruct (chip_pin_layout (chip m)) as [layout|] eqn:Hl; [|by apply app_nil in He as [_ He]].
  apply app_nil in He as [_ He]. pose proof (proj1 (flat_map_nil _ _) He) as Hg. cbn beta in Hg.
  eexists; split; [done|].
  assert (forall pin, pin ∈ general_purpose (gpios m) ->
            Some pin ∈ layout /\ pin ∉ reserved_pins m /\ exported m pin = true) as Hgp.
  { intros pin Hp. specialize (Hg _ Hp). case_bool_decide; [|done].
    assert (exported m pin = true) by by apply bool_decide_eq_true. split_and!; [done| |done].
    intros Hr%reserved_not_exported; [congruence|done]. }
  assert (forall i pin, layout !! i = Some (Some pin) -> pin ∈ general_purpose (gpios m) ->
    map (fun slot => match slot with
      | Some pin => if negb (bool_decide (pin ∈ reserved_pins m)) && exported m pin then Some pin else None
      | None => None end) layout !! i = Some (Some pin)) as Hslot.
  { intros i pin Hi Hp. destruct (Hgp _ Hp) as (_ & Hr & Hx). rewrite list_lookup_fmap, Hi. cbn.
    rewrite bool_decide_eq_false_2, Hx by done. done. }
  split.
  - intros i pin. split.
    + rewrite list_lookup_fmap. intros ([p|] & Hp & Heq)%fmap_Some; [|done].
      pose proof (layout_index _ _ _ _ Hl Hp) as ->.
      destruct (negb _ && exported m (Z.of_nat i)) eqn:Hx; [|done]. injection Heq as ->.
      apply andb_prop in Hx as [_ Hx]. split; [done|]. by apply bool_decide_eq_true in Hx.
    + intros [-> Hp]. apply Hslot; [|done]. destruct (Hgp _ Hp) as [(j & Hj)%list_elem_of_lookup _].
      pose proof (layout_index _ _ _ _ Hl Hj). by assert (j = i) as -> by lia.
  - intros pin Hp. destruct (Hgp _ Hp) as ((j & Hj)%list_elem_of_lookup & Hr & _). split; [|done].
    apply list_elem_of_lookup. exists j. by apply Hslot.
Qed.
End Exclusive.

Import SampleParams.

Lemma cell_pins_exact_witness :
  (exists slots, emit_pipeline_pins_macro (board 20) = Some slots /\
    (forall i pin, slots !! i = Some (Some pin) <-> pin = Z.of_nat i /\ pin ∈ [0; 1; 2; 3]) /\
    (forall pin, pin ∈ [0; 1; 2; 3] -> Some pin ∈ slots /\ pin ∉ reserved_pins (board 20))) /\
  NoDup (map fst (all_bus_claims (buses (board 20)))) /\
  NoDup (map fst (flat_map device_claims (devices (board 20)))).
Proof. apply (cell_pins_exact (board 20)); vm_compute; reflexivity. Defined.

(** A board is accepted whose sensor claims the pin of a bus: the checks
    compare bus pins with each other and with the exported ones, and device
    pins with each other and with the exported ones, but not the two with each
    other. *)
Theorem bus_pin_claimed_by_device :
  validate_manifest (board 11) = [] /\
  esp_validate_manifest (board 11) = [] /\
  (11, (lit "i2c0", lit "sda")) ∈ all_bus_claims (buses (board 11)) /\
  (11, (lit "thermo", lit "drdy")) ∈ flat_map device_claims (devices (board 11)).
Proof. split_and!; [vm_compute; reflexivity..| |]; apply list_elem_of_In; vm_compute; tauto. Qed.
