(* ===== verification/Pipeline.v ===== *)
(** * Pipelines and their validation

    [sdk/signal-layer/pipeline-codegen/src/{pipeline,validate}.rs] and the
    descriptors of drivers and steps ([pipeline-backend-api/src/descriptor.rs]):
    the pipeline file, and every check of
    [validate_pipeline_against_manifest], in its order.  An error is a value
    that carries what its message interpolates. *)

From S2P Require Import Prelude Text Board.
From Stdlib Require Import ZArith Lia Strings.String.
From stdpp Require Import base list option sets gmap sorting.

Local Open Scope Z_scope.

(** ** Descriptors *)

Record DriverOutput := mkDriverOutput { do_name : text; do_type : text }.
Record DriverInput := mkDriverInput { di_name : text; di_type : text }.
Record RequiredBus := mkRequiredBus { rb_transport : BusTransport }.
Inductive OutputMode := Digital | Pwm.
Record DriverWrite := mkDriverWrite { command_type : text; dw_mode : OutputMode }.
Record Requires := mkRequires { rq_buses : list RequiredBus; optional_pins : list text }.
Inductive Scope := Hardware | Application.

#[export] Instance Scope_eq_dec : EqDecision Scope.
Proof. solve_decision. Defined.

(** ** Pipeline files *)

Inductive TapKind := TRetained | TEvent | TBatch.
Inductive TapStreamKind := StreamSignal | StreamMetric.

#[export] Instance TapKind_eq_dec : EqDecision TapKind.
Proof. solve_decision. Defined.

Record Tap := mkTap {
  tap_name : text;
  tap_kind : TapKind;
  tap_type : text;
  tap_source : text;
  stream_kind : TapStreamKind;
}.

Definition KNOWN_RUST_TYPES : list text :=
  [lit "u8"; lit "u16"; lit "u32"; lit "u64"; lit "usize"; lit "f32"; lit "f64"; lit "bool"].

Definition VALIDATE_MAX_TAPS : nat := 16.
Definition AUTO_TAPS : nat := 1.
Definition VALIDATE_MAX_OUTLETS : nat := 8.

Definition OUTLET_ERROR_FIELD : text := lit "error".
Definition OUTLET_ERROR_TYPE : text := lit "OutletFault".

Section Pipelines.
Context `{Yaml}.

Record ConfigField := mkConfigField {
  scope : Scope;
  rust_type : option text;
  cf_default : Value;
}.

Record DriverSchema := mkDriverSchema {
  config_schema : IndexMap ConfigField;
  outputs : list DriverOutput;
  inputs : list DriverInput;
  requires : Requires;
  writes : option DriverWrite;
}.

Record Source := mkSource { src_id : text; src_device : text; src_config : IndexMap Value }.

Record Outlet := mkOutlet {
  out_name : text;
  out_type : text;
  out_device : text;
  out_input : option text;
  out_config : IndexMap Value;
}.

Record Step := mkStep { step_id : text; op : text; input : text; step_config : IndexMap Value }.

Record PipelineFile := mkPipelineFile {
  pipeline_id : text;
  sources : list Source;
  steps : list Step;
  taps : list Tap;
  outlets : list Outlet;
}.

(** ** Config values *)

Inductive ValueError :=
  | Negative (n : Z) (type_name : text)
  | TooLarge (n : Z) (type_name : text) (max : Z)
  | NotInteger (type_name : text)
  | NotFloat
  | NotBool
  | NotVariant (enum_type : text)
  | BadVariant (s enum_type : text).

Definition check_uint (v : Value) (max : Z) (type_name : text) : res ValueError unit :=
  match as_i64 v with
  | Some n =>
      if n <? 0 then Err (Negative n type_name)
      else if max <? n then Err (TooLarge n type_name max)
      else Ok tt
  | None =>
      match as_u64 v with
      | Some n => if max <? n then Err (TooLarge n type_name max) else Ok tt
      | None => Err (NotInteger type_name)
      end
  end.

Definition u16_max : Z := 65535.

Context `{Syn}.

Definition validate_config_value (v : Value) (rt : text) (pointer_width : Z) : res ValueError unit :=
  if text_eqb rt (lit "u8") then check_uint v u8_max (lit "u8")
  else if text_eqb rt (lit "u16") then check_uint v u16_max (lit "u16")
  else if text_eqb rt (lit "u32") then check_uint v u32_max (lit "u32")
  else if text_eqb rt (lit "u64") then check_uint v u64_max (lit "u64")
  else if text_eqb rt (lit "usize") then
    if 64 <=? pointer_width then check_uint v u64_max (lit "usize")
    else check_uint v u32_max (lit "usize (32-bit target)")
  else if text_eqb rt (lit "f32") || text_eqb rt (lit "f64") then
    match as_f64 v with Some _ => Ok tt | None => Err NotFloat end
  else if text_eqb rt (lit "bool") then
    match as_bool v with Some _ => Ok tt | None => Err NotBool end
  else
    match as_str v with
    | None => Err (NotVariant rt)
    | Some s => if parse_ident s then Ok tt else Err (BadVariant s rt)
    end.

(** ** Errors of a pipeline *)

Inductive PipelineError :=
  | PipelineId (e : IdentError)
  | SourceId (e : IdentError)
  | StepId (e : IdentError)
  | StepOp (step : text) (e : IdentError)
  | TapName (e : IdentError)
  | TooManyTaps (n reserved limit : nat)
  | TapReserved (tap : text)
  | DuplicateTap (tap : text)
  | DuplicateSource (source : text)
  | SourceDevice (source device : text)
  | SourceHardwareField (source key : text)
  | DeviceApplicationField (device key : text)
  | BusMismatch (source device : text) (req found : BusTransport)
  | UndeclaredPin (device pin : text)
  | FieldType (driver field rust_type : text)
  | FieldDefault (driver field : text) (e : ValueError)
  | FieldValue (scope : Scope) (owner field : text) (e : ValueError)
  | StepUnknownKey (step key : text)
  | TooManyOutlets (n : nat)
  | OutletName (e : IdentError)
  | OutletReserved (outlet : text)
  | DuplicateOutlet (outlet : text)
  | SingleWriter (outlet device : text)
  | OutletDevice (outlet device : text)
  | NotOutputCapable (outlet device driver : text)
  | OutletType (outlet declared driver consumes : text)
  | OutletHardwareField (outlet key : text)
  | FeedForwardType (outlet input actual expected : text)
  | FeedForwardUnresolved (outlet input : text)
  | OutletCollides (outlet : text)
  | FeedbackOnFeedForward (tap outlet : text)
  | ErrorTapKind (tap source : text)
  | StatusTapKind (tap source : text)
  | NoStatusOutput (tap outlet field : text)
  | ManyErrorTaps (outlet : text) (count : nat)
  | StepInputType (step expected actual : text)
  | TapType (tap declared actual : text)
  | StepCycle (cycle_steps : list text).

(** ** Lookups *)

Fixpoint im_insert {V} (k : text) (v : V) (l : IndexMap V) : IndexMap V :=
  match l with
  | [] => [(k, v)]
  | (n, w) :: l => if text_eqb n k then (n, v) :: l else (n, w) :: im_insert k v l
  end.

(** [device_map]: of several devices with an id, the last *)
Definition device_map (m : BoardManifest) : IndexMap DeviceEntry :=
  foldl (fun acc d => im_insert (de_id d) d acc) [] (devices m).

(** [manifest.devices.iter().find(|d| d.id == id)], and the like *)
Definition find_device (id : text) (m : BoardManifest) : option DeviceEntry :=
  List.find (fun d => text_eqb (de_id d) id) (devices m).
Definition find_source (id : text) (p : PipelineFile) : option Source :=
  List.find (fun s => text_eqb (src_id s) id) (sources p).
Definition find_outlet (name : text) (p : PipelineFile) : option Outlet :=
  List.find (fun o => text_eqb (out_name o) name) (outlets p).
Definition find_step (id : text) (p : PipelineFile) : option Step :=
  List.find (fun n => text_eqb (step_id n) id) (steps p).
Definition find_output (name : text) (s : DriverSchema) : option DriverOutput :=
  List.find (fun o => text_eqb (do_name o) name) (outputs s).

Context (driver_schemas step_schemas : IndexMap DriverSchema).

(** The type of the status or reading [field] of a device. *)
Definition device_output (m : BoardManifest) (device field : text) : option text :=
  d ← find_device device m;
  schema ← im_get (driver d) driver_schemas;
  do_type <$> find_output field schema.

Fixpoint producer_type_bounded (depth : nat) (reference : text) (p : PipelineFile) (m : BoardManifest) : option text :=
  match depth with
  | O => None
  | Datatypes.S depth =>
      match split_once char_dot reference with
      | Some (owner_id, field) =>
          match find_source owner_id p with
          | Some src => device_output m (src_device src) field
          | None =>
              match find_outlet owner_id p with
              | Some outlet =>
                  if text_eqb field OUTLET_ERROR_FIELD then Some OUTLET_ERROR_TYPE
                  else device_output m (out_device outlet) field
              | None => None
              end
          end
      | None =>
          step ← find_step reference p;
          schema ← im_get (op step) step_schemas;
          match outputs schema with
          | o :: _ => Some (do_type o)
          | [] => producer_type_bounded depth (input step) p m
          end
      end
  end.

Definition producer_type (reference : text) (p : PipelineFile) (m : BoardManifest) : option text :=
  producer_type_bounded (length (steps p) + 1) reference p m.

(** ** Sources *)

Context `{Unicode}.

Definition has_scope (s : Scope) (schema : DriverSchema) (key : text) : bool :=
  match im_get key (config_schema schema) with
  | Some f => bool_decide (scope f = s)
  | None => false
  end.

(** The rust_type of a field and the values set for it. *)
Definition field_errors (src : Source) (device : DeviceEntry) (pointer_width : Z) (field : text * ConfigField)
    : list PipelineError :=
  let '(field_name, def) := field in
  match rust_type def with
  | None => []
  | Some rt =>
      let is_primitive := bool_decide (rt ∈ KNOWN_RUST_TYPES) in
      if negb is_primitive && negb (parse_ident rt) then [FieldType (driver device) field_name rt]
      else
        (if is_primitive then []
         else match validate_config_value (cf_default def) rt pointer_width with
              | Ok _ => []
              | Err e => [FieldDefault (driver device) field_name e]
              end)
        ++ (let value_opt := match scope def with
                             | Hardware => im_get field_name (hardware device)
                             | Application => im_get field_name (src_config src)
                             end in
            match value_opt with
            | None => []
            | Some v => match validate_config_value v rt pointer_width with
                        | Ok _ => []
                        | Err e => [FieldValue (scope def)
                                     (match scope def with Hardware => de_id device | Application => src_id src end)
                                     field_name e]
                        end
            end)
  end.

Definition source_errors (m : BoardManifest) (pointer_width : Z) (src : Source) : list PipelineError :=
  match im_get (src_device src) (device_map m) with
  | None => [SourceDevice (src_id src) (src_device src)]
  | Some device =>
      match im_get (driver device) driver_schemas with
      | None => []
      | Some schema =>
          flat_map (fun e => if has_scope Hardware schema e.1 then [SourceHardwareField (src_id src) e.1] else []) (src_config src)
          ++ flat_map (fun e => if has_scope Application schema e.1 then [DeviceApplicationField (de_id device) e.1] else []) (hardware device)
          ++ match im_get (bus device) (buses m) with
             | None => []
             | Some b => flat_map (fun req => if bool_decide (rb_transport req = transport b) then []
                                              else [BusMismatch (src_id src) (de_id device) (rb_transport req) (transport b)])
                           (rq_buses (requires schema))
             end
          ++ (let bus_is_spi := match im_get (bus device) (buses m) with
                                | Some b => bool_decide (transport b = Spi)
                                | None => false
                                end in
              flat_map (fun e => if bus_is_spi && text_eqb e.1 (lit "cs") then []
                                 else if bool_decide (e.1 ∈ optional_pins (requires schema)) then []
                                 else [UndeclaredPin (de_id device) e.1]) (de_pins device))
          ++ flat_map (field_errors src device pointer_width) (config_schema schema)
      end
  end.

Definition step_config_errors (step : Step) : list PipelineError :=
  match im_get (op step) step_schemas with
  | None => []
  | Some schema => flat_map (fun e => if im_contains e.1 (config_schema schema) then []
                                      else [StepUnknownKey (step_id step) e.1]) (step_config step)
  end.

(** ** Outlets *)

Definition outlet_errors (p : PipelineFile) (m : BoardManifest) (seen driven : list text) (o : Outlet) : list PipelineError :=
  ident_errors OutletName (out_name o)
  ++ (if starts_with_char char_underscore (out_name o) then [OutletReserved (out_name o)] else [])
  ++ (if bool_decide (out_name o ∈ seen) then [DuplicateOutlet (out_name o)] else [])
  ++ (if bool_decide (out_device o ∈ driven) then [SingleWriter (out_name o) (out_device o)] else [])
  ++ match im_get (out_device o) (device_map m) with
     | None => [OutletDevice (out_name o) (out_device o)]
     | Some device =>
         match im_get (driver device) driver_schemas with
         | None => []
         | Some schema =>
             match writes schema with
             | None => [NotOutputCapable (out_name o) (out_device o) (driver device)]
             | Some w => if text_eqb (command_type w) (out_type o) then []
                         else [OutletType (out_name o) (out_type o) (driver device) (command_type w)]
             end
             ++ flat_map (fun e => if has_scope Hardware schema e.1 then [OutletHardwareField (out_name o) e.1] else []) (out_config o)
             ++ flat_map (fun e => if has_scope Application schema e.1 then [DeviceApplicationField (de_id device) e.1] else []) (hardware device)
         end
         ++ match out_input o with
            | None => []
            | Some i => match producer_type i p m with
                        | Some actual => if text_eqb actual (out_type o) then []
                                         else [FeedForwardType (out_name o) i actual (out_type o)]
                        | None => [FeedForwardUnresolved (out_name o) i]
                        end
            end
     end.

(** The loop over the outlets, with the names and devices seen so far. *)
Fixpoint outlets_loop (p : PipelineFile) (m : BoardManifest) (seen driven : list text) (l : list Outlet) : list PipelineError :=
  match l with
  | [] => []
  | o :: l => outlet_errors p m seen driven o ++ outlets_loop p m (out_name o :: seen) (out_device o :: driven) l
  end.

(** ** Feedback taps *)

Definition feedback_errors (p : PipelineFile) (m : BoardManifest) (t : Tap) : list PipelineError :=
  match split_once char_dot (tap_source t) with
  | None => []
  | Some (owner, field) =>
      match find_outlet owner p with
      | None => []
      | Some o =>
          match out_input o with
          | Some _ => [FeedbackOnFeedForward (tap_name t) owner]
          | None =>
              if text_eqb field OUTLET_ERROR_FIELD then
                if bool_decide (tap_kind t = TEvent) then [] else [ErrorTapKind (tap_name t) (tap_source t)]
              else
                (if bool_decide (tap_kind t = TRetained) then [] else [StatusTapKind (tap_name t) (tap_source t)])
                ++ match device_output m (out_device o) field with
                   | Some _ => []
                   | None => [NoStatusOutput (tap_name t) owner field]
                   end
          end
      end
  end.

Definition error_tap_errors (p : PipelineFile) (o : Outlet) : list PipelineError :=
  let err_src := out_name o ++ [char_dot] ++ OUTLET_ERROR_FIELD in
  let count := length (List.filter (fun t => text_eqb (tap_source t) err_src) (taps p)) in
  if (1 <? count)%nat then [ManyErrorTaps (out_name o) count] else [].

(** ** Types *)

Definition check_type_compatibility (p : PipelineFile) (m : BoardManifest) : list PipelineError :=
  flat_map (fun step =>
    match im_get (op step) step_schemas with
    | None => []
    | Some schema =>
        match inputs schema with
        | [] => []
        | i :: _ => match producer_type (input step) p m with
                    | None => []
                    | Some actual => if text_eqb actual (di_type i) then []
                                     else [StepInputType (step_id step) (di_type i) actual]
                    end
        end
    end) (steps p)
  ++ flat_map (fun t =>
       match producer_type (tap_source t) p m with
       | None => []
       | Some actual => if text_eqb actual (tap_type t) then [] else [TapType (tap_name t) (tap_type t) actual]
       end) (taps p).

(** ** Cycles among the steps, by Kahn's algorithm *)

(** The order of [String]s. *)
Fixpoint text_leb (a b : text) : bool :=
  match a, b with
  | [], _ => true
  | _ :: _, [] => false
  | x :: a, y :: b => if x =? y then text_leb a b else x <? y
  end.

(** The order in which a [HashMap] is iterated: some order of its keys. *)
Context (hash_order : gmap text nat -> list text).

(** A step whose input is the output of a step. *)
Definition feeding (p : PipelineFile) (s : Step) : bool :=
  negb (contains_char char_dot (input s)) && bool_decide (input s ∈ map step_id (steps p)).

Definition graph_step (p : PipelineFile) (g : gmap text (list text) * gmap text nat) (s : Step)
    : gmap text (list text) * gmap text nat :=
  let '(dependents, in_degree) := g in
  let in_degree := <[step_id s := default 0%nat (in_degree !! step_id s)]> in_degree in
  if feeding p s then
    (<[input s := default [] (dependents !! input s) ++ [step_id s]]> dependents,
     <[step_id s := Datatypes.S (default 0%nat (in_degree !! step_id s))]> in_degree)
  else (dependents, in_degree).

(** [for &dep in deps { .. }]; [None] is a panic: of [unwrap] on a missing
    entry or of the subtraction below zero *)
Fixpoint release (deps : list text) (in_degree : gmap text nat) (queue : list text)
    : option (gmap text nat * list text) :=
  match deps with
  | [] => Some (in_degree, queue)
  | dep :: deps =>
      match in_degree !! dep with
      | Some (Datatypes.S deg) =>
          release deps (<[dep := deg]> in_degree) (if (deg =? 0)%nat then queue ++ [dep] else queue)
      | _ => None
      end
  end.

(** [while let Some(id) = queue.pop_front()] *)
Fixpoint kahn (fuel : nat) (dependents : gmap text (list text)) (in_degree : gmap text nat)
    (queue : list text) (processed : nat) : option (gmap text nat * nat) :=
  match fuel with
  | O => None
  | Datatypes.S fuel =>
      match queue with
      | [] => Some (in_degree, processed)
      | id :: queue =>
          match release (default [] (dependents !! id)) in_degree queue with
          | Some (in_degree, queue) => kahn fuel dependents in_degree queue (Datatypes.S processed)
          | None => None
          end
      end
  end.

Definition check_step_graph_cycles (p : PipelineFile) : option (list PipelineError) :=
  let '(dependents, in_degree) := foldl (graph_step p) (∅, ∅) (steps p) in
  let queue := List.filter (fun id => bool_decide (in_degree !! id = Some 0%nat)) (hash_order in_degree) in
  match kahn (Datatypes.S (length (steps p))) dependents in_degree queue 0 with
  | None => None
  | Some (in_degree, processed) =>
      if (processed <? length (steps p))%nat then
        let cycle_steps := List.filter (fun id => negb (bool_decide (in_degree !! id = Some 0%nat))) (hash_order in_degree) in
        Some [StepCycle (merge_sort (fun a b => Is_true (text_leb a b)) cycle_steps)]
      else Some []
  end.

(** ** The whole check *)

Definition validate_pipeline_against_manifest (p : PipelineFile) (m : BoardManifest) (pointer_width : Z)
    : option (list PipelineError) :=
  let reserved := match sources p with [] => 0%nat | _ :: _ => AUTO_TAPS end in
  let user_tap_limit := (VALIDATE_MAX_TAPS - reserved)%nat in
  let cell_outlet_count := length (List.filter (fun o => match out_input o with None => true | Some _ => false end) (outlets p)) in
  let errors :=
    ident_errors PipelineId (pipeline_id p)
    ++ flat_map (fun s => ident_errors SourceId (src_id s)) (sources p)
    ++ flat_map (fun s => ident_errors StepId (step_id s) ++ ident_errors (StepOp (step_id s)) (op s)) (steps p)
    ++ flat_map (fun t => ident_errors TapName (tap_name t)) (taps p)
    ++ (if (user_tap_limit <? length (taps p))%nat then [TooManyTaps (length (taps p)) reserved user_tap_limit] else [])
    ++ flat_map (fun t => if starts_with_char char_underscore (tap_name t) then [TapReserved (tap_name t)] else []) (taps p)
    ++ map DuplicateTap (repeated [] (map tap_name (taps p)))
    ++ map DuplicateSource (repeated [] (map src_id (sources p)))
    ++ flat_map (source_errors m pointer_width) (sources p)
    ++ flat_map step_config_errors (steps p)
    ++ (if (VALIDATE_MAX_OUTLETS <? cell_outlet_count)%nat then [TooManyOutlets cell_outlet_count] else [])
    ++ outlets_loop p m [] [] (outlets p)
    ++ flat_map (fun o => if existsb (fun s => text_eqb (src_id s) (out_name o)) (sources p)
                          then [OutletCollides (out_name o)] else []) (outlets p)
    ++ flat_map (feedback_errors p m) (taps p)
    ++ flat_map (error_tap_errors p) (outlets p)
    ++ check_type_compatibility p m in
  match check_step_graph_cycles p with
  | Some cycles => Some (errors ++ cycles)
  | None => None
  end.
End Pipelines.
