(* ===== verification/PipelineFacts.v ===== *)
(** * What validation guarantees

    The cycle check is exact: it reports nothing exactly if the ids of the
    steps are distinct and no step feeds itself through others.  What an
    accepted pipeline guarantees is collected in [accepted_pipeline], for the
    files about the code generated from it. *)

From S2P Require Import Prelude Text Board Pipeline.
From Stdlib Require Import ZArith Lia Strings.String.
From stdpp Require Import base list option sets gmap sorting.

Local Open Scope Z_scope.

Section Kahn.
Context `{Yaml}.
Implicit Types p : PipelineFile.

Abbreviation ids p := (map step_id (steps p)).

(** The step [b] takes the output of the step [a]. *)
Definition feeds p (a b : text) : Prop :=
  exists s, s ∈ steps p /\ feeding p s = true /\ input s = a /\ step_id s = b.

Lemma feeding_in p s : feeding p s = true -> input s ∈ ids p.
Proof. unfold feeding. intros [_ Hi]%andb_prop. by apply bool_decide_eq_true in Hi. Qed.

(** The edges into [x] that do not come from [done_]. *)
Definition open_edges (l : list Step) p (done_ : list text) (x : text) : nat :=
  length (filter (fun s => feeding p s = true /\ step_id s = x /\ input s ∉ done_) l).

(** The edges from [a], as the steps they lead to. *)
Definition edges_from (l : list Step) p (a : text) : list text :=
  map step_id (filter (fun s => feeding p s = true /\ input s = a) l).

Definition count (x : text) (l : list text) : nat := length (filter (x =.) l).

Lemma count_cons x y l : count x (y :: l) = ((if decide (x = y) then 1 else 0) + count x l)%nat.
Proof. unfold count. rewrite filter_cons. case_decide; by cbn. Qed.

Lemma count_pos x l : (0 < count x l)%nat <-> x ∈ l.
Proof.
  induction l as [|y l IH]; [cbn; set_solver by lia|].
  rewrite count_cons, elem_of_cons, <-IH. case_decide as Hd; cbn; [naive_solver lia|].
  split; [by right|]. by intros [?|?].
Qed.

Lemma open_edges_cons s l p done_ x :
  open_edges (s :: l) p done_ x =
  ((if decide (feeding p s = true /\ step_id s = x /\ input s ∉ done_) then 1 else 0) + open_edges l p done_ x)%nat.
Proof. unfold open_edges. rewrite filter_cons. case_decide; by cbn. Qed.

(** What the two maps hold after the loop over the steps. *)
Lemma graph_maps l p dep deg :
  let g := foldl (graph_step p) (dep, deg) l in
  (forall a, default [] (g.1 !! a) = default [] (dep !! a) ++ edges_from l p a) /\
  (forall x, default 0%nat (g.2 !! x) = default 0%nat (deg !! x) + open_edges l p [] x)%nat /\
  (forall x, is_Some (g.2 !! x) <-> x ∈ map step_id l \/ is_Some (deg !! x)).
Proof.
  revert dep deg. induction l as [|s l IH]; intros dep deg; cbn zeta.
  - split_and!; intros; cbn; [by rewrite app_nil_r|lia|]. set_solver.
  - cbn [foldl]. unfold graph_step at 2 4 6. destruct (feeding p s) eqn:Hf;
      match goal with |- context [foldl _ (?d, ?i) l] => destruct (IH d i) as (I1 & I2 & I3) end;
      split_and!; intros x.
    + rewrite I1. unfold edges_from. rewrite filter_cons. destruct (decide (input s = x)) as [<-|Hx].
      * rewrite lookup_insert_eq, decide_True by done. cbn. by rewrite <-(assoc_L (++)).
      * rewrite lookup_insert_ne, decide_False by naive_solver. done.
    + rewrite I2, open_edges_cons. destruct (decide (step_id s = x)) as [<-|Hx].
      * rewrite !lookup_insert_eq. cbn [default]. rewrite decide_True by (split_and!; [done..|set_solver]).
        unfold default, id. lia.
      * rewrite !lookup_insert_ne by done. rewrite decide_False by naive_solver. lia.
    + rewrite I3. cbn [map]. rewrite elem_of_cons. destruct (decide (step_id s = x)) as [<-|Hx].
      * rewrite lookup_insert_eq. naive_solver.
      * rewrite !lookup_insert_ne by done. naive_solver.
    + rewrite I1. unfold edges_from. rewrite filter_cons, decide_False by naive_solver congruence. done.
    + rewrite I2, open_edges_cons. rewrite (decide_False (P := feeding p s = true /\ _)) by naive_solver congruence.
      destruct (decide (step_id s = x)) as [<-|Hx]; [by rewrite lookup_insert_eq|by rewrite lookup_insert_ne].
    + rewrite I3. cbn [map]. rewrite elem_of_cons. destruct (decide (step_id s = x)) as [<-|Hx].
      * rewrite lookup_insert_eq. naive_solver.
      * rewrite !lookup_insert_ne by done. naive_solver.
Qed.

(** Releasing the edges of a step: the degrees go down by them, and the steps
    that reach zero join the queue, each once. *)
Lemma release_spec deps deg queue :
  (forall x, x ∈ deps -> (count x deps <= default 0 (deg !! x))%nat) ->
  exists deg' new, release deps deg queue = Some (deg', queue ++ new) /\
    (forall x, default 0%nat (deg' !! x) = default 0 (deg !! x) - count x deps)%nat /\
    (forall x, is_Some (deg' !! x) <-> is_Some (deg !! x)) /\
    NoDup new /\ (forall x, x ∈ new <-> x ∈ deps /\ default 0%nat (deg !! x) = count x deps).
Proof.
  revert deg queue. induction deps as [|d deps IH]; intros deg queue Hle; cbn [release].
  - exists deg, []. rewrite app_nil_r. split_and!; [done| |done|constructor|set_solver].
    intros x. cbn. lia.
  - pose proof (Hle d ltac:(set_solver)) as Hd. rewrite count_cons, decide_True in Hd by done.
    destruct (deg !! d) as [[|k]|] eqn:Hdeg; cbn in Hd; [lia| |lia].
    destruct (IH (<[d:=k]> deg) (if (k =? 0)%nat then queue ++ [d] else queue)) as (deg' & new & R1 & R2 & R3 & R4 & R5).
    { intros x Hx. destruct (decide (x = d)) as [->|Hn].
      - rewrite lookup_insert_eq. cbn. lia.
      - rewrite lookup_insert_ne by done. pose proof (Hle x ltac:(set_solver)) as Hl.
        rewrite count_cons, decide_False in Hl by done. lia. }
    exists deg', (if (k =? 0)%nat then d :: new else new). split_and!.
    + rewrite R1. destruct (k =? 0)%nat; [|done]. by rewrite <-(assoc_L (++)).
    + intros x. rewrite R2, count_cons. destruct (decide (x = d)) as [->|Hn].
      * rewrite lookup_insert_eq, Hdeg. cbn. lia.
      * rewrite lookup_insert_ne by done. lia.
    + intros x. rewrite R3. destruct (decide (x = d)) as [->|Hn].
      * rewrite lookup_insert_eq, Hdeg. naive_solver.
      * by rewrite lookup_insert_ne.
    + destruct (Nat.eqb_spec k 0) as [->|Hk]; [|done]. apply NoDup_cons. split; [|done].
      rewrite R5, lookup_insert_eq. cbn. intros [Hin Hc]. apply count_pos in Hin. lia.
    + intros x. assert (x ∈ (if (k =? 0)%nat then d :: new else new) <-> (x = d /\ k = 0%nat) \/ x ∈ new) as ->.
      { destruct (Nat.eqb_spec k 0); set_solver. }
      rewrite R5, elem_of_cons, count_cons. destruct (decide (x = d)) as [->|Hn].
      * rewrite lookup_insert_eq, Hdeg. cbn. pose proof (count_pos d deps) as Hc. split.
        -- intros [[_ ->]|[? ->]]; (split; [by left|lia]).
        -- intros [_ Hk]. destruct (decide (k = 0%nat)); [by left|]. right. split; [apply Hc|]; lia.
      * rewrite lookup_insert_ne by done. naive_solver.
Qed.

Lemma open_edges_zero l p done_ x :
  open_edges l p done_ x = 0%nat <->
  forall s, s ∈ l -> feeding p s = true -> step_id s = x -> input s ∈ done_.
Proof.
  induction l as [|s l IH]; [set_solver|]. rewrite open_edges_cons. case_decide as Hd.
  - split; [lia|]. intros Hall. exfalso. destruct Hd as (? & ? & Hn). apply Hn, (Hall s); [set_solver|done..].
  - cbn. rewrite IH. split; [|set_solver]. intros Hall s' [->|Hs]%elem_of_cons ? ?; [|by apply Hall].
    destruct (decide (input s ∈ done_)); naive_solver.
Qed.

(** Taking [a] up removes exactly the edges from [a]. *)
Lemma open_edges_snoc l p done_ a x :
  a ∉ done_ ->
  open_edges l p done_ x = (open_edges l p (done_ ++ [a]) x + count x (edges_from l p a))%nat.
Proof.
  intros Ha. unfold edges_from. induction l as [|s l IH]; [done|].
  rewrite !open_edges_cons, IH, filter_cons.
  destruct (decide (feeding p s = true /\ step_id s = x)) as [[Hf Hx]|Hn].
  - destruct (decide (input s = a)) as [Hi|Hi].
    + rewrite (decide_True (P := feeding p s = true /\ step_id s = x /\ input s ∉ done_)) by (by subst).
      rewrite (decide_False (P := _ /\ _ /\ input s ∉ done_ ++ [a])) by set_solver.
      rewrite (decide_True (P := _ /\ input s = a)) by done. cbn [map].
      rewrite count_cons, decide_True by done. lia.
    + rewrite (decide_False (P := _ /\ input s = a)) by naive_solver.
      destruct (decide (input s ∈ done_)) as [Hd|Hd].
      * rewrite !decide_False by set_solver. lia.
      * rewrite !decide_True by set_solver. lia.
  - rewrite !(decide_False (P := _ /\ _ /\ _)) by naive_solver.
    case_decide as Hc; [|lia]. cbn [map]. rewrite count_cons, decide_False by naive_solver. lia.
Qed.

(** Invariant of the loop: [popped] were taken up, [queue] are to be. *)
Record kahn_inv p (popped queue : list text) (deg : gmap text nat) : Prop := {
  ki_nodup : NoDup (popped ++ queue);
  ki_ids : forall x, x ∈ popped ++ queue -> x ∈ ids p;
  ki_deg : forall x, default 0%nat (deg !! x) = open_edges (steps p) p popped x;
  ki_dom : forall x, is_Some (deg !! x) <-> x ∈ ids p;
  ki_zero : forall x, x ∈ ids p -> x ∈ popped ++ queue <-> open_edges (steps p) p popped x = 0%nat;
  ki_acc : forall x, x ∈ popped ++ queue -> Acc (feeds p) x;
}.

Lemma kahn_step p popped a queue deg :
  kahn_inv p popped (a :: queue) deg ->
  exists deg' queue', release (edges_from (steps p) p a) deg queue = Some (deg', queue') /\
    kahn_inv p (popped ++ [a]) queue' deg'.
Proof.
  intros [N I D M Z A].
  assert (a ∉ popped) as Ha by (apply NoDup_app in N as (_ & N & _); set_solver).
  destruct (release_spec (edges_from (steps p) p a) deg queue) as (deg' & new & R1 & R2 & R3 & R4 & R5).
  { intros x _. rewrite D, (open_edges_snoc _ _ popped a) by done. lia. }
  assert (forall x, x ∈ new <-> x ∈ edges_from (steps p) p a /\ open_edges (steps p) p (popped ++ [a]) x = 0%nat) as Hnew.
  { intros x. rewrite R5, D, (open_edges_snoc _ _ popped a) by done. intuition lia. }
  assert (forall x, x ∈ new -> x ∈ ids p) as Hids.
  { intros x [Hx _]%Hnew. unfold edges_from in Hx. apply list_elem_of_fmap in Hx as (s & -> & [_ Hs]%list_elem_of_filter).
    apply list_elem_of_fmap. eauto. }
  exists deg', (queue ++ new). split; [done|].
  assert ((popped ++ [a]) ++ queue ++ new = (popped ++ a :: queue) ++ new) as Hap by by rewrite <-!(assoc_L (++)).
  split; rewrite ?Hap.
  - apply NoDup_app. split_and!; [done| |done]. intros x Hx [Hd Hc]%Hnew. apply count_pos in Hd.
    pose proof (proj1 (Z x (I _ Hx)) Hx) as H0. rewrite (open_edges_snoc _ _ popped a) in H0 by done. lia.
  - intros x [Hx|Hx]%elem_of_app; auto.
  - intros x. rewrite R2, D, (open_edges_snoc _ _ popped a) by done. lia.
  - intros x. by rewrite R3.
  - intros x Hx. rewrite elem_of_app, Hnew, (Z x Hx), (open_edges_snoc _ _ popped a) by done.
    rewrite <-(count_pos x). destruct (decide (count x (edges_from (steps p) p a) = 0%nat)); intuition lia.
  - intros x [Hx|[_ Hx]%Hnew]%elem_of_app; [auto|]. constructor. intros y (s & Hs & Hf & <- & <-).
    apply A. apply (proj1 (open_edges_zero _ _ _ _) Hx) in Hf; [set_solver|done..].
Qed.

Lemma kahn_runs p dependents fuel popped queue deg :
  (forall a, default [] (dependents !! a) = edges_from (steps p) p a) ->
  kahn_inv p popped queue deg -> (length (steps p) < fuel + length popped)%nat ->
  exists deg' popped', kahn fuel dependents deg queue (length popped) = Some (deg', length popped') /\
    kahn_inv p popped' [] deg'.
Proof.
  intros Hdep. revert popped queue deg. induction fuel as [|fuel IH]; intros popped queue deg Hi Hf.
  - exfalso. assert (length (popped ++ queue) <= length (ids p))%nat as Hl.
    { apply submseteq_length, NoDup_submseteq; [apply (ki_nodup _ _ _ _ Hi)|apply (ki_ids _ _ _ _ Hi)]. }
    rewrite length_app, length_map in Hl. lia.
  - destruct queue as [|a queue]; cbn [kahn].
    + exists deg, popped. done.
    + destruct (kahn_step _ _ _ _ _ Hi) as (deg1 & queue1 & Hr & Hi1). rewrite Hdep, Hr.
      destruct (IH _ _ _ Hi1) as (deg' & popped' & Hk & ?).
      { rewrite length_app. cbn. lia. }
      exists deg', popped'. split; [|done]. rewrite <-Hk. f_equal. rewrite length_app. cbn. lia.
Qed.

(** When the queue is empty, all steps were taken up exactly if their ids are
    distinct and no step feeds itself. *)
Lemma popped_all p popped deg :
  kahn_inv p popped [] deg ->
  (length (steps p) <= length popped)%nat <-> NoDup (ids p) /\ well_founded (feeds p).
Proof.
  intros [N I _ _ Z A]. rewrite app_nil_r in *. rewrite <-(length_map step_id (steps p)). split.
  - intros Hl. assert (popped ≡ₚ ids p) as Hp.
    { apply submseteq_length_Permutation; [by apply NoDup_submseteq|done]. }
    split; [by rewrite <-Hp|]. intros x. destruct (decide (x ∈ ids p)) as [Hx|Hx].
    + apply A. by rewrite Hp.
    + constructor. intros y (s & Hs & _ & _ & <-). exfalso. apply Hx, list_elem_of_fmap. eauto.
  - intros [Hn Hwf]. apply submseteq_length, NoDup_submseteq; [done|].
    intros x. induction x as [x IH] using (well_founded_ind Hwf). intros Hx.
    apply Z; [done|]. apply open_edges_zero. intros s Hs Hf <-. apply IH; [|by apply feeding_in].
    by exists s.
Qed.
End Kahn.

(** Iterating a [HashMap] gives each key once. *)
Class HashOrder (hash_order : gmap text nat -> list text) : Prop := {
  hash_order_nodup : forall m, NoDup (hash_order m);
  hash_order_elem : forall m x, x ∈ hash_order m <-> is_Some (m !! x);
}.

Section Cycles.
Context `{Yaml} (hash_order : gmap text nat -> list text) `{!HashOrder hash_order}.
Implicit Types p : PipelineFile.

(** The check ends without a panic, and it reports nothing exactly if all
    steps were taken up. *)
Lemma cycles_exact p :
  exists errors, check_step_graph_cycles hash_order p = Some errors /\
    (errors = [] <-> NoDup (map step_id (steps p)) /\ well_founded (feeds p)).
Proof.
  unfold check_step_graph_cycles.
  pose proof (graph_maps (steps p) p ∅ ∅) as Hg. cbn zeta in Hg.
  destruct (foldl (graph_step p) (∅, ∅) (steps p)) as [dep deg] eqn:Hfold. cbn [fst snd] in Hg.
  destruct Hg as (G1 & G2 & G3).
  assert (forall a, default [] (dep !! a) = edges_from (steps p) p a) as Hdep by (intros a; by rewrite G1).
  assert (forall x, is_Some (deg !! x) <-> x ∈ map step_id (steps p)) as Hdom.
  { intros x. rewrite G3, lookup_empty. split; [|by left]. intros [?|[? ?]]; done. }
  assert (forall x, deg !! x = Some 0%nat <-> x ∈ map step_id (steps p) /\ open_edges (steps p) p [] x = 0%nat) as Hzero.
  { intros x. specialize (G2 x). rewrite lookup_empty in G2. cbn in G2. rewrite <-G2, <-Hdom.
    destruct (deg !! x); cbn; [naive_solver|]. split; [done|]. intros [[? ?] _]. done. }
  set (queue := List.filter _ _).
  assert (forall x, x ∈ queue <-> deg !! x = Some 0%nat) as Hq.
  { intros x. unfold queue. rewrite list_elem_of_In, filter_In, <-list_elem_of_In, bool_decide_eq_true, (hash_order_elem (hash_order := hash_order)).
    naive_solver. }
  destruct (kahn_runs p dep (Datatypes.S (length (steps p))) [] queue deg) as (deg' & popped & Hk & Hi); [done| |cbn; lia|].
  { split; cbn [app].
    - apply NoDup_ListNoDup, List.NoDup_filter, NoDup_ListNoDup, (hash_order_nodup (hash_order := hash_order)).
    - intros x Hx%Hq. by apply Hzero in Hx as [? _].
    - intros x. rewrite G2, lookup_empty. done.
    - done.
    - intros x Hx. rewrite Hq, Hzero. naive_solver.
    - intros x Hx%Hq. apply Hzero in Hx as [_ Hx]. constructor. intros y (s & Hs & Hf & <- & <-).
      pose proof (proj1 (open_edges_zero _ _ _ _) Hx s Hs Hf eq_refl) as Hn. by apply elem_of_nil in Hn. }
  cbn [length] in Hk. rewrite Hk. pose proof (popped_all _ _ _ Hi) as Hp.
  destruct (Nat.ltb_spec (length popped) (length (steps p))) as [Hl|Hl]; eexists; (split; [done|]).
  - rewrite <-Hp. split; [done|lia].
  - rewrite <-Hp. done.
Qed.

(** C15. The search for cycles among the steps never panics, for every order in
    which its hash maps are iterated, and it accepts a pipeline exactly if no
    two steps have the same id and no step takes, through other steps, its own
    output. *)
Theorem check_step_graph_cycles_exact p :
  is_Some (check_step_graph_cycles hash_order p) /\
  (check_step_graph_cycles hash_order p = Some [] <->
   NoDup (map step_id (steps p)) /\ well_founded (feeds p)).
Proof.
  destruct (cycles_exact p) as (errors & He & Hn). rewrite He. split; [eauto|].
  rewrite <-Hn. naive_solver.
Qed.
End Cycles.

(** ** Accepted pipelines *)

Section Accepted.
Context `{Yaml} `{Syn} `{Unicode}.
Context (drivers kinds : IndexMap DriverSchema) (hash_order : gmap text nat -> list text) `{!HashOrder hash_order}.
Implicit Types (p : PipelineFile) (m : BoardManifest).

Lemma outlet_errors_seen p m seen driven o :
  outlet_errors drivers kinds p m seen driven o = [] ->
  out_name o ∉ seen /\ out_device o ∉ driven /\ outlet_errors drivers kinds p m [] [] o = [].
Proof.
  unfold outlet_errors. intros (-> & (-> & (Hs & (Hd & ->)%app_nil)%app_nil)%app_nil)%app_nil.
  case_bool_decide; [done|]. case_bool_decide; [done|].
  rewrite !bool_decide_eq_false_2 by apply not_elem_of_nil. done.
Qed.

Lemma outlets_loop_nil p m seen driven l :
  outlets_loop drivers kinds p m seen driven l = [] ->
  NoDup (map out_name l) /\ (forall o, o ∈ l -> out_name o ∉ seen) /\
  NoDup (map out_device l) /\ (forall o, o ∈ l -> out_device o ∉ driven) /\
  (forall o, o ∈ l -> outlet_errors drivers kinds p m [] [] o = []).
Proof.
  revert seen driven. induction l as [|o l IH]; intros seen driven; cbn [outlets_loop].
  - intros _. split_and!; try constructor; set_solver.
  - intros (Ho & Hl)%app_nil. apply outlet_errors_seen in Ho as (Hs & Hd & Ho).
    destruct (IH _ _ Hl) as (I1 & I2 & I3 & I4 & I5). cbn [map].
    split_and!.
    + apply NoDup_cons. split; [|done]. intros (o' & He & Hin)%list_elem_of_fmap. apply (I2 _ Hin). set_solver.
    + intros o' [->|Hin]%elem_of_cons; [done|]. specialize (I2 _ Hin). set_solver.
    + apply NoDup_cons. split; [|done]. intros (o' & He & Hin)%list_elem_of_fmap. apply (I4 _ Hin). set_solver.
    + intros o' [->|Hin]%elem_of_cons; [done|]. specialize (I4 _ Hin). set_solver.
    + intros o' [->|Hin]%elem_of_cons; auto.
Qed.

Definition cell_driven (o : Outlet) : bool := match out_input o with None => true | Some _ => false end.

(** What validation guarantees, check by check. *)
Record accepted p m (width : Z) : Prop := {
  ac_source_ids : forall s, s ∈ sources p -> validate_rust_ident (src_id s) = Ok tt;
  ac_step_ids : forall s, s ∈ steps p -> validate_rust_ident (step_id s) = Ok tt;
  ac_tap_names : forall t, t ∈ taps p -> validate_rust_ident (tap_name t) = Ok tt;
  ac_tap_count : (length (taps p) <= VALIDATE_MAX_TAPS - match sources p with [] => 0 | _ :: _ => AUTO_TAPS end)%nat;
  ac_tap_reserved : forall t, t ∈ taps p -> starts_with_char char_underscore (tap_name t) = false;
  ac_taps_nodup : NoDup (map tap_name (taps p));
  ac_sources_nodup : NoDup (map src_id (sources p));
  ac_sources : forall s, s ∈ sources p -> source_errors drivers m width s = [];
  ac_steps : forall s, s ∈ steps p -> step_config_errors kinds s = [];
  ac_outlet_count : (length (List.filter cell_driven (outlets p)) <= VALIDATE_MAX_OUTLETS)%nat;
  ac_outlets_nodup : NoDup (map out_name (outlets p));
  ac_single_writer : NoDup (map out_device (outlets p));
  ac_outlets : forall o, o ∈ outlets p -> outlet_errors drivers kinds p m [] [] o = [];
  ac_no_collision : forall o s, o ∈ outlets p -> s ∈ sources p -> src_id s <> out_name o;
  ac_feedback : forall t, t ∈ taps p -> feedback_errors drivers p m t = [];
  ac_types : check_type_compatibility drivers kinds p m = [];
  ac_steps_nodup : NoDup (map step_id (steps p));
  ac_acyclic : well_founded (feeds p);
}.

Lemma flat_nil {A B} (f : A -> list B) l : flat_map f l = [] -> forall x, x ∈ l -> f x = [].
Proof. apply flat_map_nil. Qed.

Lemma validate_accepted p m width :
  validate_pipeline_against_manifest drivers kinds hash_order p m width = Some [] -> accepted p m width.
Proof.
  unfold validate_pipeline_against_manifest. destruct (cycles_exact hash_order p) as (cyc & -> & Hc).
  intros [= Hall]. repeat match goal with Hx : _ ++ _ = [] |- _ => apply app_nil in Hx as [? ?] end.
  repeat match goal with Hx : flat_map _ _ = [] |- _ => pose proof (flat_nil _ _ Hx); clear Hx end.
  repeat match goal with Hx : map _ (repeated _ _) = [] |- _ => apply map_eq_nil, repeated_nil in Hx as [? _] end.
  match goal with Hx : outlets_loop _ _ _ _ _ _ _ = [] |- _ => apply outlets_loop_nil in Hx as (? & _ & ? & _ & ?) end.
  destruct (proj1 Hc ltac:(assumption)).
  split; try assumption; cbn beta in *.
  - intros s Hs. eapply ident_errors_nil. eauto.
  - intros s Hs. eapply ident_errors_nil.
    match goal with Hx : forall x, x ∈ steps p -> ident_errors _ _ ++ _ = [] |- _ => apply (proj1 (app_nil _ _) (Hx _ Hs)) end.
  - intros t Ht. eapply ident_errors_nil. eauto.
  - match goal with Hx : (if (?a <? ?b)%nat then [TooManyTaps _ _ _] else []) = [] |- _ =>
      destruct (Nat.ltb_spec a b); [done|] end. lia.
  - intros t Ht. match goal with Hx : forall x, x ∈ taps p -> (if starts_with_char _ _ then _ else _) = [] |- _ => specialize (Hx _ Ht) end.
    by destruct (starts_with_char _ _).
  - match goal with Hx : (if (?a <? ?b)%nat then [TooManyOutlets _] else []) = [] |- _ =>
      destruct (Nat.ltb_spec a b); [done|] end. done.
  - intros o s Ho Hs He. match goal with Hx : forall x, x ∈ outlets p -> (if existsb _ _ then _ else _) = [] |- _ => specialize (Hx _ Ho); rename Hx into Hcol end.
    rewrite (proj2 (existsb_exists _ _)) in Hcol; [done|]. exists s. split; [by apply list_elem_of_In|].
    by apply text_eqb_spec.
Qed.
End Accepted.

(** ** A pipeline, to evaluate the checks *)
Module SamplePipeline.
Import SampleParams.

Definition keys_order (m : gmap text nat) : list text := (map_to_list m).*1.

#[export] Instance keys_order_laws : HashOrder keys_order.
Proof.
  split; intros m.
  - apply NoDup_fst_map_to_list.
  - intros x. unfold keys_order. rewrite list_elem_of_fmap. split.
    + intros ([k v] & -> & Hk). exists v. by apply elem_of_map_to_list in Hk.
    + intros [v Hv]. exists (x, v). split; [done|]. by apply elem_of_map_to_list.
Qed.

Definition field (s : Scope) (rt : string) (d : yaml) : ConfigField := mkConfigField s (Some (lit rt)) d.

(** A sensor that gives a temperature, and a relay driven by on and off. *)
Definition drivers : IndexMap DriverSchema :=
  [ (lit "bme280", mkDriverSchema [(lit "i2c_addr", field Hardware "u8" (YInt 118))]
      [mkDriverOutput (lit "temp") (lit "f32")] [] (mkRequires [mkRequiredBus I2c] [lit "drdy"]) None);
    (lit "gpio-relay", mkDriverSchema [] [] [] (mkRequires [] [lit "out"])
      (Some (mkDriverWrite (lit "DigitalState") Digital))) ].

(** A step that averages, one that passes every n-th value, and one that
    turns a value into a command. *)
Definition step_kinds : IndexMap DriverSchema :=
  [ (lit "moving-average", mkDriverSchema [(lit "window", field Application "u8" (YInt 8))]
      [mkDriverOutput (lit "value") (lit "f32")] [mkDriverInput (lit "value") (lit "f32")] (mkRequires [] []) None);
    (lit "cadence", mkDriverSchema [(lit "every", field Application "u32" (YInt 1))] [] [] (mkRequires [] []) None);
    (lit "hysteresis", mkDriverSchema [] [mkDriverOutput (lit "command") (lit "DigitalState")]
      [mkDriverInput (lit "value") (lit "f32")] (mkRequires [] []) None) ].

Definition thermo : Source := mkSource (lit "thermo") (lit "thermo") [].
Definition average (id : string) (i : string) : Step := mkStep (lit id) (lit "moving-average") (lit i) [].
Definition every (id i : string) : Step := mkStep (lit id) (lit "cadence") (lit i) [].
Definition control (id i : string) : Step := mkStep (lit id) (lit "hysteresis") (lit i) [].
Definition tap (name : string) (k : TapKind) (ty : string) (source : string) : Tap :=
  mkTap (lit name) k (lit ty) (lit source) StreamMetric.
Definition relay (i : option string) : Outlet :=
  mkOutlet (lit "heater") (lit "DigitalState") (lit "relay") (lit <$> i) [].

(** The temperature is averaged, thinned out and controls the heater. *)
Definition pipeline : PipelineFile :=
  mkPipelineFile (lit "climate") [thermo]
    [control "ctl" "slow"; every "slow" "avg"; average "avg" "thermo.temp"]
    [tap "raw" TRetained "f32" "thermo.temp"; tap "mean" TRetained "f32" "avg"; tap "switched" TEvent "DigitalState" "ctl"]
    [relay (Some "ctl"%string)].

Definition validate (p : PipelineFile) : option (list PipelineError) :=
  validate_pipeline_against_manifest drivers step_kinds keys_order p (board 20) 32.

Lemma pipeline_accepted : validate pipeline = Some [].
Proof. vm_compute. reflexivity. Qed.
End SamplePipeline.

Import SamplePipeline.

Lemma check_step_graph_cycles_exact_witness :
  let p := pipeline in
  is_Some (check_step_graph_cycles keys_order p) /\
  (check_step_graph_cycles keys_order p = Some [] <->
   NoDup (map step_id (steps p)) /\ well_founded (feeds p)).
Proof. apply (check_step_graph_cycles_exact keys_order pipeline). Defined.
