(* ===== verification/Codegen.v ===== *)
(** * The code generator of the signal layer

    [sdk/signal-layer/pipeline-codegen/src/emit/*.rs]: what is generated from
    a board and a pipeline.  The generated Rust is not kept as tokens but as
    the statements it consists of: which slots are declared and registered,
    what each source task does with a sample ([SourceTask]), what each sink
    task is built from, and which tasks are spawned with which pins.  Types,
    imports and the text of the scaffolding come from a backend and are left
    out, but for the identifiers the generator makes itself: [Ident::new] panics
    on a text that is no identifier, and so does a suffixed literal of a float
    that is not finite; these panics are errors of their own here.
    [SourceTask.v] and [SinkTask.v] say what the statements do. *)

From S2P Require Import Prelude Text Signal Board Pipeline.
From Stdlib Require Import ZArith Lia Strings.String.
From stdpp Require Import base list option sets.

Local Open Scope Z_scope.

(** ** Identifiers *)

(** The names, as text *)
Definition snake_name (s : text) : text := replace_char char_dash char_underscore s.

Section Names.
Context `{Unicode}.

Definition tap_static_name (name : text) : text :=
  lit "TAP_" ++ replace_char char_dash char_underscore (to_uppercase name).

Definition outlet_static_name (name : text) : text :=
  lit "OUTLET_" ++ replace_char char_dash char_underscore (to_uppercase name).

Definition bus_static_name (bus_id : text) : text :=
  replace_char char_dash char_underscore (to_uppercase bus_id) ++ lit "_BUS".

Definition pascal_case (s : text) : text :=
  concat (map capitalize (List.filter (fun w => match w with [] => false | _ :: _ => true end)
    (split_on [char_dash; char_underscore] s))).
End Names.

Definition HEALTH_TAP : text := lit "_signal_layer_health".
Definition HEALTH_STATIC : text := lit "TAP__SIGNAL_LAYER_HEALTH".

(** ** Generated statements *)

(** [readings.f], or the [Option] a step gave *)
Inductive Expr := Reading (field : text) | OutVar (var : text).

Inductive Stmt :=
  | TapUpdate (static : text) (field : text)           (* TAP.update(ts, readings.f); *)
  | TapEmit (static : text) (field : text)             (* TAP.emit(readings.f); *)
  | LetStep (out : option text) (node : text) (e : Expr)
      (* let out = node.step(readings.f);  or  let out = var.and_then(|inp| node.step(inp));
         without a variable, let _ = .. *)
  | IfSomeWrite (var : text) (writes : list (bool * text))
      (* if let Some(v) = var { TAP.update(ts, v); .. TAP.emit(v); .. }, [true] for an update *)
  | ApplyReading (driver_var : text) (field : text)    (* driver.apply(readings.f, ts.0) *)
  | ApplyVar (driver_var : text) (var : text).         (* if let Some(v) = var { driver.apply(v, ts.0) } *)

Inductive CodegenError :=
  | BatchTap (tap : text)
  | MissingRustType (field : text)
  | EnumNotString (enum_type : text)
  | NoDevice (owner device : text)
  | NoBus (owner bus : text)
  | NoWrites (outlet : text)
  | NoOutputPin (outlet : text)
  | PinNotWired (outlet pin : text)
  | NotReachable (input source : text)
  | ZeroCadence (outlet : text)
  | NoStatusOutputs (outlet : text)
  | IdentPanic (name : text)   (* a panic of [Ident::new] *)
  | FloatPanic                 (* a panic of [Literal::f32_suffixed] or [f64_suffixed] *)
  | WalkUnfinished. (* the walk's bound, which it never reaches *)

Section Codegen.
Context `{Yaml} `{Syn} `{Unicode}.
Implicit Types (p : PipelineFile) (m : BoardManifest).

(** ** Identifiers as tokens *)

Definition ident_new (s : text) : res CodegenError text := if ident_new_ok s then Ok s else Err (IdentPanic s).

Definition snake_ident (s : text) : res CodegenError text := ident_new (snake_name s).
Definition tap_static_ident (name : text) : res CodegenError text := ident_new (tap_static_name name).
Definition outlet_static_ident (name : text) : res CodegenError text := ident_new (outlet_static_name name).
Definition bus_static_ident (bus_id : text) : res CodegenError text := ident_new (bus_static_name bus_id).

Definition known_types : list text :=
  map lit ["f32"; "f64"; "u8"; "u16"; "u32"; "u64"; "i32"; "i64"; "bool"; "usize"; "ThresholdAlarm"; "DriverHealth";
           "HealthEvent"; "DigitalState"; "PwmDuty"; "OutletFault"]%string.

Definition rust_type_tokens (type_name : text) : res CodegenError text :=
  if bool_decide (type_name ∈ known_types) then Ok type_name else ident_new type_name.

(** The crate, the type and the config type of a driver or of a step's op *)
Definition driver_idents (driver : text) : res CodegenError unit :=
  _ ← snake_ident (driver ++ lit "-driver");
  _ ← ident_new (pascal_case driver);
  _ ← ident_new (pascal_case driver ++ lit "Config");
  Ok tt.
Definition step_idents (op : text) : res CodegenError unit :=
  _ ← snake_ident op;
  _ ← ident_new (pascal_case op ++ lit "State");
  _ ← ident_new (pascal_case op ++ lit "Config");
  Ok tt.

(** ** Literals for config values *)

Inductive Literal :=
  | LUnsigned (type_name : text) (v : Z)
  | LF32 (v : F32)
  | LF64 (v : F64)
  | LBool (b : bool)
  | LVariant (enum_type variant : text).

(** [value.as_u64().unwrap_or(0) as uN]; the generator's [usize] is 64 bits. *)
Definition uint_literal (bits : Z) (type_name : text) (v : Value) : Literal :=
  LUnsigned type_name (wrap bits (default 0 (as_u64 v))).

Definition config_value_tokens (v : Value) (rt : text) : res CodegenError Literal :=
  if text_eqb rt (lit "u8") then Ok (uint_literal 8 rt v)
  else if text_eqb rt (lit "u16") then Ok (uint_literal 16 rt v)
  else if text_eqb rt (lit "u32") then Ok (uint_literal 32 rt v)
  else if text_eqb rt (lit "u64") then Ok (uint_literal 64 rt v)
  else if text_eqb rt (lit "usize") then Ok (uint_literal 64 rt v)
  else if text_eqb rt (lit "f32") then
    let f := f64_as_f32 (default f64_zero (as_f64 v)) in if f32_is_finite f then Ok (LF32 f) else Err FloatPanic
  else if text_eqb rt (lit "f64") then
    let f := default f64_zero (as_f64 v) in if f64_is_finite f then Ok (LF64 f) else Err FloatPanic
  else if text_eqb rt (lit "bool") then Ok (LBool (default false (as_bool v)))
  else match as_str v with
       | Some s => ty ← ident_new rt; variant ← ident_new s; Ok (LVariant ty variant)
       | None => Err (EnumNotString rt)
       end.

(** The value of a field: hardware fields from the board, application fields
    from the pipeline, the descriptor's default otherwise. *)
Definition field_value (hw app : IndexMap Value) (name : text) (def : ConfigField) : Value :=
  default (cf_default def) (match scope def with
                            | Hardware => im_get name hw
                            | Application => im_get name app
                            end).

Definition config_field (value : Value) (field : text * ConfigField) : res CodegenError (text * Literal) :=
  field_ident ← snake_ident field.1;
  rt ← ok_or (MissingRustType field.1) (rust_type field.2);
  l ← config_value_tokens value rt;
  Ok (field_ident, l).

Definition config_fields (hw app : IndexMap Value) (fields : IndexMap ConfigField) : res CodegenError (list (text * Literal)) :=
  mapM_res (fun f => config_field (field_value hw app f.1 f.2) f) fields.

(** ** Which source an input comes from *)

Fixpoint root_source_loop (n : nat) (cur : text) p : option text :=
  match n with
  | O => None
  | Datatypes.S n =>
      match split_once char_dot cur with
      | Some (src, _) => Some src
      | None => step ← find_step cur p; root_source_loop n (input step) p
      end
  end.

Definition input_root_source (i : text) p : option text := root_source_loop (Datatypes.S (length (steps p))) i p.

Definition owned_outlets_for_source (source_id : text) p : list Outlet :=
  List.filter (fun o => match out_input o with
                        | Some i => bool_decide (input_root_source i p = Some source_id)
                        | None => false
                        end) (outlets p).

(** ** Slots and their registration *)

Definition emit_tap_statics p : res CodegenError (list (text * TapKind * text)) :=
  users ← mapM_res (fun t =>
    static_name ← tap_static_ident (tap_name t);
    ty ← rust_type_tokens (tap_type t);
    match tap_kind t with
    | TBatch => Err (BatchTap (tap_name t))
    | k => Ok (static_name, k, ty)
    end) (taps p);
  Ok (match sources p with [] => [] | _ :: _ => [(HEALTH_STATIC, TEvent, lit "HealthEvent")] end ++ users).

Definition tap_entry (t : Tap) : res CodegenError (text * SlotEntry) :=
  static_name ← tap_static_ident (tap_name t);
  match tap_kind t with
  | TRetained => Ok (tap_name t, Retained static_name)
  | TEvent => Ok (tap_name t, Event static_name)
  | TBatch => Err (BatchTap (tap_name t))
  end.

(** The calls of [registry.register] in the generated [register_taps]. *)
Definition emit_register_taps p : res CodegenError (list (text * SlotEntry)) :=
  users ← mapM_res tap_entry (taps p);
  Ok (match sources p with [] => [] | _ :: _ => [(HEALTH_TAP, Event HEALTH_STATIC)] end ++ users).

Definition is_cell_driven (o : Outlet) : bool := match out_input o with None => true | Some _ => false end.

Definition emit_outlet_statics p : res CodegenError (list (text * text)) :=
  mapM_res (fun o =>
    static_name ← outlet_static_ident (out_name o);
    ty ← rust_type_tokens (out_type o);
    Ok (static_name, ty)) (List.filter is_cell_driven (outlets p)).

Definition outlet_entry (o : Outlet) : res CodegenError (text * OutletEntry) :=
  static_name ← outlet_static_ident (out_name o);
  Ok (out_name o, ORetained static_name).

Definition emit_register_outlets p : res CodegenError (list (text * OutletEntry)) :=
  mapM_res outlet_entry (List.filter is_cell_driven (outlets p)).

(** The generated [register_taps] and [register_outlets], which stop at the
    first error, and the setup functions, which panic on it ([None]). *)
Definition register_taps (calls : list (text * SlotEntry)) (r : TapRegistry) : res TapError TapRegistry :=
  foldM (fun r c => snd <$> register_tap c.1 c.2 r) calls r.
Definition register_outlets (calls : list (text * OutletEntry)) (r : OutletRegistry) : res TapError OutletRegistry :=
  foldM (fun r c => snd <$> register_outlet c.1 c.2 r) calls r.

Definition setup_tap_registry (calls : list (text * SlotEntry)) : option (nat * TapRegistry) :=
  match register_taps calls registry_new with Ok r => Some (length r, r) | Err _ => None end.
Definition setup_outlet_registry (calls : list (text * OutletEntry)) : option (nat * OutletRegistry) :=
  match register_outlets calls registry_new with Ok r => Some (length r, r) | Err _ => None end.

(** ** The steps of a source task *)

Record NodeInit := mkNodeInit { ni_var : text; ni_op : text; ni_config : list (text * Literal) }.

(** What the walk over the steps has emitted: [TokenStream]s that grow, the
    output variables by step id, and the steps left for the next round. *)
Record Walk := mkWalk {
  wk_inits : list NodeInit;
  wk_chain : list Stmt;
  wk_clears : list text;
  wk_vars : IndexMap text;
  wk_next : list Step;
}.

(** The writes of the taps on a step's output, [true] for a retained tap. *)
Definition tap_write (t : Tap) : res CodegenError (bool * text) :=
  static_name ← tap_static_ident (tap_name t);
  match tap_kind t with
  | TRetained => Ok (true, static_name)
  | TEvent => Ok (false, static_name)
  | TBatch => Err (BatchTap (tap_name t))
  end.

Definition step_tap_writes p (id : text) : res CodegenError (list (bool * text)) :=
  mapM_res tap_write (List.filter (fun t => text_eqb (tap_source t) id) (taps p)).

Definition retained_statics (ws : list (bool * text)) : list text :=
  map snd (List.filter fst ws).

(** [readings.f] if the input is a field of this source, else the output of a
    step emitted before *)
Definition resolve_input (source_prefix : text) (vars : IndexMap text) (i : text) : option (res CodegenError Expr) :=
  match strip_text source_prefix i with
  | Some field => Some (f ← snake_ident field; Ok (Reading f))
  | None => (fun v => Ok (OutVar v)) <$> im_get i vars
  end.

Definition node_var (id : text) : text := snake_name (id ++ lit "_node").
Definition out_var (id : text) : text := snake_name (id ++ lit "_out").

Definition walk_step p (kinds : IndexMap DriverSchema) (source_prefix : text) (consumed : list text)
    (w : Walk) (step : Step) : res CodegenError Walk :=
  match resolve_input source_prefix (wk_vars w) (input step) with
  | None => Ok (mkWalk (wk_inits w) (wk_chain w) (wk_clears w) (wk_vars w) (wk_next w ++ [step]))
  | Some e =>
      e ← e;
      _ ← step_idents (op step);
      step_var ← ident_new (node_var (step_id step));
      let schema_fields := match im_get (op step) kinds with Some s => config_schema s | None => [] end in
      cfg ← mapM_res (fun f => config_field (default (cf_default f.2) (im_get f.1 (step_config step))) f) schema_fields;
      writes ← step_tap_writes p (step_id step);
      let inits := wk_inits w ++ [mkNodeInit step_var (op step) cfg] in
      let clears := wk_clears w ++ retained_statics writes in
      let needs_out_var := bool_decide (step_id step ∈ consumed) || match writes with [] => false | _ :: _ => true end in
      if needs_out_var then
        v ← ident_new (out_var (step_id step));
        Ok (mkWalk inits
              (wk_chain w ++ [LetStep (Some v) step_var e]
               ++ match writes with [] => [] | _ :: _ => [IfSomeWrite v writes] end)
              clears (im_insert (step_id step) v (wk_vars w)) (wk_next w))
      else
        Ok (mkWalk inits (wk_chain w ++ [LetStep None step_var e]) clears (wk_vars w) (wk_next w))
  end.

(** The rounds over the remaining steps, until one makes no progress. *)
Fixpoint walk_loop (fuel : nat) p kinds (source_prefix : text) (consumed : list text) (remaining : list Step) (w : Walk)
    : res CodegenError Walk :=
  match fuel with
  | O => Err WalkUnfinished
  | Datatypes.S fuel =>
      let before := length remaining in
      w ← foldM (walk_step p kinds source_prefix consumed) remaining
            (mkWalk (wk_inits w) (wk_chain w) (wk_clears w) (wk_vars w) []);
      if (length (wk_next w) =? before)%nat then Ok w
      else walk_loop fuel p kinds source_prefix consumed (wk_next w) w
  end.

(** ** Feed-forward outlets of a source task *)

Record OutletInit := mkOutletInit {
  oi_driver : text;
  oi_device : text;
  oi_config : list (text * Literal);
  oi_pin : text;
  oi_params : list text;
}.

Definition default_schema : DriverSchema := mkDriverSchema [] [] [] (mkRequires [] []) None.

Definition schema_of (drivers : IndexMap DriverSchema) (d : DeviceEntry) : DriverSchema :=
  default default_schema (im_get (driver d) drivers).

Definition device_pin (device pin_name : text) : text := snake_name (device ++ [char_underscore] ++ pin_name).

Definition wired_or_fail (outlet : text) (pins : IndexMap Z) (mk : text -> text) (names : list text) : res CodegenError (list text) :=
  mapM_res (fun pin_name => if im_contains pin_name pins then ident_new (mk pin_name) else Err (PinNotWired outlet pin_name)) names.

Definition emit_owned_outlet m (drivers : IndexMap DriverSchema) (o : Outlet) : res CodegenError OutletInit :=
  odevice ← ok_or (NoDevice (out_name o) (out_device o)) (find_device (out_device o) m);
  let oschema := schema_of drivers odevice in
  _ ← ok_or (NoWrites (out_name o)) (writes oschema);
  _ ← driver_idents (driver odevice);
  driver_var ← snake_ident (de_id odevice ++ lit "_driver");
  _ ← snake_ident (de_id odevice ++ lit "_cfg");
  cfg ← config_fields (hardware odevice) (out_config o) (config_schema oschema);
  params ← wired_or_fail (out_name o) (de_pins odevice) (device_pin (de_id odevice)) (optional_pins (requires oschema));
  first_pin ← ok_or (NoOutputPin (out_name o)) (head (optional_pins (requires oschema)));
  pin_arg ← ident_new (device_pin (de_id odevice) first_pin);
  Ok (mkOutletInit driver_var (de_id odevice) cfg pin_arg params).

(** The application of a feed-forward outlet, after the steps. *)
Definition emit_apply (source_id : text) (vars : IndexMap text) (driver_var i : text) : res CodegenError Stmt :=
  match strip_text (source_id ++ [char_dot]) i with
  | Some field => f ← snake_ident field; Ok (ApplyReading driver_var f)
  | None => match im_get i vars with
            | Some v => Ok (ApplyVar driver_var v)
            | None => Err (NotReachable i source_id)
            end
  end.

(** ** Source tasks *)

Record SourceTask := mkSourceTask {
  st_source : text;
  st_index : Z;
  st_config : list (text * Literal);
  st_interval_ms : Z;
  st_pins : list (text * bool);
  st_params : list text;
  st_nodes : list NodeInit;
  st_outlets : list OutletInit;
  st_tap_writes : list Stmt;
  st_clears : list text;
  st_chain : list Stmt;
}.

Definition DEFAULT_SAMPLE_INTERVAL_MS : Z := 1000.
Definition SAMPLE_INTERVAL : text := lit "sample_interval_ms".

Definition sample_interval (source : Source) (schema : DriverSchema) : Z :=
  match im_get SAMPLE_INTERVAL (src_config source) ≫= as_u64 with
  | Some ms => ms
  | None => match im_get SAMPLE_INTERVAL (config_schema schema) ≫= (fun f => as_u64 (cf_default f)) with
            | Some ms => ms
            | None => DEFAULT_SAMPLE_INTERVAL_MS
            end
  end.

(** The writes of the taps on this source's own fields. *)
Definition direct_write (source_prefix : text) (t : Tap) : res CodegenError (list Stmt) :=
  match strip_text source_prefix (tap_source t) with
  | None => Ok []
  | Some field =>
      static_name ← tap_static_ident (tap_name t);
      f ← snake_ident field;
      match tap_kind t with
      | TRetained => Ok [TapUpdate static_name f]
      | TEvent => Ok [TapEmit static_name f]
      | TBatch => Err (BatchTap (tap_name t))
      end
  end.

Definition direct_clears (ws : list Stmt) : list text :=
  flat_map (fun w => match w with TapUpdate static _ => [static] | _ => [] end) ws.

(** The identifiers of the pins struct, which is built if a pin is wired *)
Definition pins_idents (driver : text) (optional wired : list text) : res CodegenError unit :=
  match wired with
  | [] => Ok tt
  | _ :: _ => _ ← ident_new (pascal_case driver ++ lit "Pins"); _ ← mapM_res snake_ident optional; Ok tt
  end.

Definition task_fn (source_id : text) : text := snake_name (source_id ++ lit "_task").
Definition sink_task_fn (device_id : text) : text := snake_name (device_id ++ lit "_sink_task").

(** The inputs of steps and of this source's outlets that are steps. *)
Definition consumed_by_downstream p (owned : list Outlet) : list text :=
  List.filter (fun i => negb (contains_char char_dot i)) (map input (steps p) ++ omap out_input owned).

Definition emit_source_task (source : Source) (source_idx : Z) (device : DeviceEntry) (schema : DriverSchema)
    p m (drivers kinds : IndexMap DriverSchema) : res CodegenError SourceTask :=
  _ ← ident_new (task_fn (src_id source));
  _ ← driver_idents (driver device);
  cfg ← config_fields (hardware device) (src_config source)
          (List.filter (fun f => negb (text_eqb f.1 SAMPLE_INTERVAL)) (config_schema schema));
  let optional := optional_pins (requires schema) in
  let wired := List.filter (fun n => im_contains n (de_pins device)) optional in
  pin_params ← mapM_res snake_ident wired;
  _ ← pins_idents (driver device) optional wired;
  let source_prefix := src_id source ++ [char_dot] in
  direct ← mapM_res (direct_write source_prefix) (taps p);
  let tap_writes := concat direct in
  let owned := owned_outlets_for_source (src_id source) p in
  outlet_inits ← mapM_res (emit_owned_outlet m drivers) owned;
  w ← walk_loop (Datatypes.S (length (steps p))) p kinds source_prefix (consumed_by_downstream p owned) (steps p)
        (mkWalk [] [] [] [] []);
  applies ← mapM_res (fun oi => emit_apply (src_id source) (wk_vars w) (oi_driver oi.2) (default [] (out_input oi.1)))
              (zip owned outlet_inits);
  Ok (mkSourceTask (src_id source) source_idx cfg (sample_interval source schema)
        (map (fun n => (snake_name n, bool_decide (n ∈ wired))) optional)
        (pin_params ++ flat_map oi_params outlet_inits)
        (wk_inits w) outlet_inits tap_writes (direct_clears tap_writes ++ wk_clears w)
        (wk_chain w ++ applies)).

(** ** Sink tasks *)

Record SinkTask := mkSinkTask {
  sk_device : text;
  sk_outlet : text;
  sk_config : list (text * Literal);
  sk_interval_ms : Z;
  sk_params : list text;
  sk_status : list (text * text);
  sk_error : option text;
  sk_poll : bool;
}.

Definition DEFAULT_WRITE_INTERVAL_MS : Z := 100.

Definition status_update (outlet_prefix : text) (t : Tap) : res CodegenError (list (text * text)) :=
  match strip_text outlet_prefix (tap_source t) with
  | Some field =>
      if text_eqb field OUTLET_ERROR_FIELD then Ok []
      else tap_static ← tap_static_ident (tap_name t); f ← snake_ident field; Ok [(tap_static, f)]
  | None => Ok []
  end.

Definition emit_sink_task (o : Outlet) (device : DeviceEntry) (schema : DriverSchema) p : res CodegenError SinkTask :=
  _ ← ok_or (NoWrites (out_name o)) (writes schema);
  _ ← ident_new (sink_task_fn (de_id device));
  _ ← driver_idents (driver device);
  outlet_static ← outlet_static_ident (out_name o);
  cfg ← config_fields (hardware device) (out_config o) (config_schema schema);
  let interval_ms := default DEFAULT_WRITE_INTERVAL_MS (im_get (lit "write_interval_ms") (out_config o) ≫= as_u64) in
  if interval_ms =? 0 then Err (ZeroCadence (out_name o)) else
  params ← wired_or_fail (out_name o) (de_pins device) snake_name (optional_pins (requires schema));
  let outlet_prefix := out_name o ++ [char_dot] in
  updates ← mapM_res (status_update outlet_prefix) (taps p);
  let status_updates := concat updates in
  error_static ← match List.find (fun t => text_eqb (tap_source t) (outlet_prefix ++ OUTLET_ERROR_FIELD)) (taps p) with
                 | Some t => e ← tap_static_ident (tap_name t); Ok (Some e)
                 | None => Ok None
                 end;
  let has_outputs := match outputs schema with [] => false | _ :: _ => true end in
  let hybrid := match status_updates with [] => false | _ :: _ => true end in
  if hybrid && negb has_outputs then Err (NoStatusOutputs (out_name o)) else
  Ok (mkSinkTask (de_id device) outlet_static cfg interval_ms params status_updates error_static
        (has_outputs && (hybrid || match error_static with Some _ => true | None => false end))).

(** ** Buses and spawning *)

Definition used_bus_ids p m : res CodegenError (list text) :=
  bs ← mapM_res (fun s => bus <$> ok_or (NoDevice (src_id s) (src_device s)) (find_device (src_device s) m)) (sources p);
  Ok (foldl (fun seen b => if bool_decide (b ∈ seen) then seen else seen ++ [b]) [] bs).

Definition emit_bus_statics p m : res CodegenError (list text) :=
  ids ← used_bus_ids p m;
  mapM_res (fun b => _ ← ok_or (NoBus [] b) (im_get b (buses m)); bus_static_ident b) ids.

(** A spawned task and the fields of [peripherals] it is passed after its bus. *)
Record Spawn := mkSpawn { sp_task : text; sp_pins : list text }.

Definition wired_args (d : DeviceEntry) (schema : DriverSchema) : res CodegenError (list text) :=
  mapM_res (fun n => ident_new (device_pin (de_id d) n))
    (List.filter (fun n => im_contains n (de_pins d)) (optional_pins (requires schema))).

Definition bus_init m (b : text) : res CodegenError unit :=
  _ ← bus_static_ident b;
  _ ← snake_ident b;
  _ ← snake_ident (b ++ lit "_mutex");
  _ ← ok_or (NoBus [] b) (im_get b (buses m));
  Ok tt.

Definition spawn_source p m (drivers : IndexMap DriverSchema) (source : Source) : res CodegenError Spawn :=
  d ← ok_or (NoDevice (src_id source) (src_device source)) (find_device (src_device source) m);
  task ← ident_new (task_fn (src_id source));
  _ ← snake_ident (bus d ++ lit "_mutex");
  bus_cfg ← ok_or (NoBus (src_id source) (bus d)) (im_get (bus d) (buses m));
  _ ← match transport bus_cfg with I2c => Ok [] | Spi => snake_ident (de_id d ++ lit "_cs") end;
  args ← wired_args d (schema_of drivers d);
  outlet_args ← mapM_res (fun o =>
    od ← ok_or (NoDevice (out_name o) (out_device o)) (find_device (out_device o) m);
    wired_args od (schema_of drivers od)) (owned_outlets_for_source (src_id source) p);
  Ok (mkSpawn task (args ++ concat outlet_args)).

Definition spawn_sink m (drivers : IndexMap DriverSchema) (o : Outlet) : res CodegenError Spawn :=
  d ← ok_or (NoDevice (out_name o) (out_device o)) (find_device (out_device o) m);
  task ← ident_new (sink_task_fn (de_id d));
  args ← wired_args d (schema_of drivers d);
  Ok (mkSpawn task args).

Definition emit_spawn_sources p m (drivers : IndexMap DriverSchema) : res CodegenError (list Spawn) :=
  used ← used_bus_ids p m;
  _ ← mapM_res (bus_init m) used;
  s1 ← mapM_res (spawn_source p m drivers) (sources p);
  s2 ← mapM_res (spawn_sink m drivers) (List.filter is_cell_driven (outlets p));
  Ok (s1 ++ s2).

(** ** The generated file *)

Record Generated := mkGenerated {
  gen_tap_statics : list (text * TapKind * text);
  gen_outlet_statics : list (text * text);
  gen_bus_statics : list text;
  gen_sources : list SourceTask;
  gen_sinks : list SinkTask;
  gen_spawns : list Spawn;
  gen_register_taps : list (text * SlotEntry);
  gen_register_outlets : list (text * OutletEntry);
}.

Definition generate_source p m (drivers kinds : IndexMap DriverSchema) (e : nat * Source) : res CodegenError SourceTask :=
  let '(source_idx, source) := e in
  device ← ok_or (NoDevice (src_id source) (src_device source)) (find_device (src_device source) m);
  _ ← ok_or (NoBus (src_id source) (bus device)) (im_get (bus device) (buses m));
  emit_source_task source (wrap 8 (Z.of_nat source_idx)) device (schema_of drivers device) p m drivers kinds.

Definition generate_sink p m (drivers : IndexMap DriverSchema) (o : Outlet) : res CodegenError SinkTask :=
  device ← ok_or (NoDevice (out_name o) (out_device o)) (find_device (out_device o) m);
  emit_sink_task o device (schema_of drivers device) p.

Definition generate_tokens m p (drivers kinds : IndexMap DriverSchema) : res CodegenError Generated :=
  tap_statics ← emit_tap_statics p;
  outlet_statics ← emit_outlet_statics p;
  bus_statics ← emit_bus_statics p m;
  source_tasks ← mapM_res (generate_source p m drivers kinds) (imap (fun i s => (i, s)) (sources p));
  sink_tasks ← mapM_res (generate_sink p m drivers) (List.filter is_cell_driven (outlets p));
  spawns ← emit_spawn_sources p m drivers;
  regs ← emit_register_taps p;
  outlet_regs ← emit_register_outlets p;
  Ok (mkGenerated tap_statics outlet_statics bus_statics source_tasks sink_tasks spawns regs outlet_regs).
End Codegen.
