(* ===== verification/CodegenFacts.v ===== *)
(** * What the code generator emits

    Facts about [Codegen.v]: the registrations of an accepted pipeline never
    fail and every name resolves to its slot; the walk over the steps emits
    every step its source feeds, once and after the steps it depends on, so
    no feed-forward outlet is found unreachable, and generation fails for an
    accepted pipeline only where validation leaves a question open. *)

From S2P Require Import Prelude Text Signal Board Pipeline PipelineFacts Codegen.
From Stdlib Require Import ZArith Lia Strings.String.
From stdpp Require Import base list option sets gmap.

Local Open Scope Z_scope.

(** ** Index maps and searches *)

Lemma im_get_insert {V} k k' (v : V) l :
  im_get k' (im_insert k v l) = if decide (k = k') then Some v else im_get k' l.
Proof.
  induction l as [|[n w] l IH]; cbn.
  - unfold text_eqb. case_bool_decide; case_decide; done.
  - destruct (text_eqb n k) eqn:Hn; cbn.
    + apply text_eqb_spec in Hn as ->. unfold text_eqb. case_bool_decide; case_decide; done.
    + apply text_eqb_false in Hn. rewrite IH. unfold text_eqb. case_bool_decide; case_decide; congruence.
Qed.

Lemma find_by_key {A} (f : A -> text) k l x :
  List.find (fun a => text_eqb (f a) k) l = Some x -> x ∈ l /\ f x = k.
Proof.
  intros [Hin He]%find_some. split; [by apply list_elem_of_In|]. by apply text_eqb_spec.
Qed.

Lemma find_by_key_none {A} (f : A -> text) k l :
  List.find (fun a => text_eqb (f a) k) l = None <-> k ∉ map f l.
Proof.
  split.
  - intros Hn (x & -> & Hx)%list_elem_of_fmap. apply list_elem_of_In in Hx.
    apply (find_none _ _ Hn) in Hx. by rewrite text_eqb_refl in Hx.
  - intros Hn. destruct (List.find _ l) eqn:Hf; [|done]. apply find_by_key in Hf as [Hin <-].
    exfalso. apply Hn. by apply list_elem_of_fmap_2.
Qed.

Lemma find_by_key_nodup {A} (f : A -> text) l x :
  NoDup (map f l) -> x ∈ l -> List.find (fun a => text_eqb (f a) (f x)) l = Some x.
Proof.
  intros Hn Hx. destruct (List.find _ l) as [y|] eqn:Hf.
  - apply find_by_key in Hf as [Hy He]. f_equal.
    induction l as [|z l IH]; [by apply elem_of_nil in Hx|]. cbn in Hn. apply NoDup_cons in Hn as [Hz Hn].
    apply elem_of_cons in Hx as [->|Hx], Hy as [->|Hy]; [done| | |by apply IH].
    + exfalso. apply Hz. rewrite <-He. by apply list_elem_of_fmap_2.
    + exfalso. apply Hz. rewrite He. by apply list_elem_of_fmap_2.
  - exfalso. apply find_by_key_none in Hf. apply Hf. by apply list_elem_of_fmap_2.
Qed.

Lemma mapM_res_elem {E A B} (f : A -> res E B) l ys y :
  mapM_res f l = Ok ys -> y ∈ ys -> exists x, x ∈ l /\ f x = Ok y.
Proof.
  intros Hf%mapM_res_ok. induction Hf as [|x z l ys Hx _ IH]; [intros H%elem_of_nil; done|].
  intros [->|Hy]%elem_of_cons; [exists x; set_solver|]. destruct (IH Hy) as (x' & ? & ?). exists x'. set_solver.
Qed.

Lemma mapM_res_fmap {E A B C} (f : A -> res E B) (g : B -> C) (h : A -> C) l ys :
  (forall x y, x ∈ l -> f x = Ok y -> g y = h x) -> mapM_res f l = Ok ys -> map g ys = map h l.
Proof.
  intros Hgh Hf%mapM_res_ok. induction Hf as [|x z l ys Hx _ IH]; [done|]. cbn. f_equal.
  - apply Hgh; [set_solver|done].
  - apply IH. intros. apply Hgh; [set_solver|done].
Qed.

Lemma mapM_res_err {E A B} (f : A -> res E B) (P : E -> Prop) l e :
  (forall a e, a ∈ l -> f a = Err e -> P e) -> mapM_res f l = Err e -> P e.
Proof.
  revert e. induction l as [|a l IH]; intros e Hf; cbn; [done|].
  destruct (f a) eqn:Ha; cbn; [|intros [= <-]; eapply Hf; [|done]; set_solver].
  destruct (mapM_res f l); cbn; [done|]. intros [= <-]. apply IH; [|done]. intros a' e' Hin. apply Hf. set_solver.
Qed.

(** The error of a sequence is that of its first part or of its rest. *)
Lemma res_bind_err {E A B} (r : res E A) (f : A -> res E B) (P : E -> Prop) e :
  (r ≫= f) = Err e -> (forall e, r = Err e -> P e) -> (forall a e, r = Ok a -> f a = Err e -> P e) -> P e.
Proof. destruct r; cbn; naive_solver. Qed.

Lemma foldM_err {E S A} (f : S -> A -> res E S) (P : E -> Prop) l s e :
  (forall s a e, f s a = Err e -> P e) -> foldM f l s = Err e -> P e.
Proof.
  intros Hf. revert s. induction l as [|a l IH]; intros s; cbn; [done|].
  destruct (f s a) eqn:Ha; cbn; [apply IH|]. intros [= <-]. by eapply Hf.
Qed.

(** An identifier that was made is the text it was made from. *)
Section Idents.
Context `{Syn} `{Unicode}.

Lemma ident_new_eq s x : ident_new s = Ok x -> x = s.
Proof. unfold ident_new. destruct (ident_new_ok s); by intros [= <-]. Qed.
Lemma snake_ident_eq s x : snake_ident s = Ok x -> x = snake_name s.
Proof. apply ident_new_eq. Qed.
Lemma tap_static_eq s x : tap_static_ident s = Ok x -> x = tap_static_name s.
Proof. apply ident_new_eq. Qed.
Lemma outlet_static_eq s x : outlet_static_ident s = Ok x -> x = outlet_static_name s.
Proof. apply ident_new_eq. Qed.
Lemma idents_map (f : text -> text) l xs : mapM_res (fun n => ident_new (f n)) l = Ok xs -> xs = map f l.
Proof.
  intros Hx. rewrite <-(mapM_res_fmap (fun n => ident_new (f n)) id f l xs); [symmetry; apply map_id| |done].
  intros n y _ Hy. by apply ident_new_eq in Hy.
Qed.
End Idents.

Section Registration.
Context `{Yaml} `{Syn} `{Unicode}.
Context (drivers kinds : IndexMap DriverSchema) (hash_order : gmap text nat -> list text) `{!HashOrder hash_order}.
Implicit Types (p : PipelineFile) (m : BoardManifest).

Definition entry_of_tap (t : Tap) : SlotEntry :=
  match tap_kind t with
  | TRetained => Retained (tap_static_name (tap_name t))
  | TEvent => Event (tap_static_name (tap_name t))
  | TBatch => Batch (tap_static_name (tap_name t))
  end.

Lemma tap_entry_ok t e : tap_entry t = Ok e -> e = (tap_name t, entry_of_tap t).
Proof.
  unfold tap_entry, entry_of_tap. intros (x & ->%tap_static_eq & He)%res_bind_ok. destruct (tap_kind t); by simplify_eq.
Qed.

(** The calls of the generated registration are the health tap of a pipeline
    with sources and the taps of the file, in order. *)
Lemma register_calls p calls :
  emit_register_taps p = Ok calls ->
  calls = match sources p with [] => [] | _ :: _ => [(HEALTH_TAP, Event HEALTH_STATIC)] end
          ++ map (fun t => (tap_name t, entry_of_tap t)) (taps p).
Proof.
  unfold emit_register_taps. intros (users & Hu & [= <-])%res_bind_ok. f_equal.
  rewrite <-(mapM_res_fmap tap_entry id (fun t => (tap_name t, entry_of_tap t)) (taps p) users).
  - symmetry. apply map_id.
  - intros t e _ He. by apply tap_entry_ok in He.
  - done.
Qed.

Lemma calls_distinct p m width calls :
  accepted drivers kinds p m width -> emit_register_taps p = Ok calls ->
  NoDup (map fst calls) /\ (length calls <= MAX_TAPS)%nat.
Proof.
  intros Ha ->%register_calls. pose proof (ac_tap_count _ _ _ _ _ Ha) as Hc.
  assert (map fst (map (fun t => (tap_name t, entry_of_tap t)) (taps p)) = map tap_name (taps p)) as Hm
    by (rewrite map_map; by apply map_ext).
  pose proof (ac_taps_nodup _ _ _ _ _ Ha) as Hn. unfold VALIDATE_MAX_TAPS, AUTO_TAPS, MAX_TAPS in *.
  destruct (sources p); cbn [map app fst length]; rewrite Hm, length_map; [split; [done|lia]|].
  split; [|lia]. apply NoDup_cons. split; [|done]. intros (t & He & Ht)%list_elem_of_fmap.
  pose proof (ac_tap_reserved _ _ _ _ _ Ha _ Ht) as Hr. by rewrite <-He in Hr.
Qed.

Lemma outlet_calls p outs :
  emit_register_outlets p = Ok outs ->
  outs = map (fun o => (out_name o, ORetained (outlet_static_name (out_name o)))) (List.filter is_cell_driven (outlets p)).
Proof.
  intros Ho. rewrite <-(mapM_res_fmap outlet_entry id _ (List.filter is_cell_driven (outlets p)) outs); [symmetry; apply map_id| |exact Ho].
  intros o e _. unfold outlet_entry. intros (x & ->%outlet_static_eq & [= <-])%res_bind_ok. done.
Qed.

Lemma outlet_calls_distinct p m width outs :
  accepted drivers kinds p m width -> emit_register_outlets p = Ok outs ->
  NoDup (map fst outs) /\ (length outs <= MAX_OUTLETS)%nat.
Proof.
  intros Ha ->%outlet_calls. rewrite map_map, length_map. cbn [fst]. split.
  - pose proof (ac_outlets_nodup _ _ _ _ _ Ha) as Hn. revert Hn.
    induction (outlets p) as [|o l IH]; cbn [map List.filter]; [done|]. intros [Ho Hn]%NoDup_cons.
    destruct (is_cell_driven o); [|auto]. cbn [map]. apply NoDup_cons. split; [|auto].
    intros (o' & He & Hin)%list_elem_of_fmap. apply Ho. rewrite He. apply list_elem_of_fmap_2.
    apply list_elem_of_In in Hin. apply filter_In in Hin as [Hin _]. by apply list_elem_of_In.
  - apply (ac_outlet_count _ _ _ _ _ Ha).
Qed.

(** C12. The code generated from an accepted pipeline registers without an
    error, so that neither setup function panics on a full registry or a
    duplicate; afterwards every tap of the file, and the health tap of a
    pipeline with sources, resolves to a handle of its own slot, and so does
    exactly every outlet that no step drives. *)
Theorem generated_registries_complete p m width calls outs :
  validate_pipeline_against_manifest drivers kinds hash_order p m width = Some [] ->
  emit_register_taps p = Ok calls -> emit_register_outlets p = Ok outs ->
  (exists r, setup_tap_registry calls = Some (length calls, r) /\
    (forall t, t ∈ taps p -> exists h, resolve (tap_name t) r = Some h /\ Signal.get h r = Some (entry_of_tap t)) /\
    (sources p <> [] -> exists h, resolve HEALTH_TAP r = Some h /\ Signal.get h r = Some (Event HEALTH_STATIC))) /\
  (exists r, setup_outlet_registry outs = Some (length outs, r) /\
    (forall o, o ∈ outlets p ->
      (exists h, resolve (out_name o) r = Some h /\ Signal.get h r = Some (ORetained (outlet_static_name (out_name o))))
      <-> out_input o = None)).
Proof.
  intros Hv Hc Ho'. pose proof (validate_accepted _ _ _ _ _ _ Hv) as Ha.
  destruct (calls_distinct _ _ _ _ Ha Hc) as [Hn Hl]. destruct (outlet_calls_distinct _ _ _ _ Ha Ho') as [On Ol].
  pose proof (outlet_calls _ _ Ho') as Houts.
  assert (forall E (r : list (text * E)) n e, NoDup (map fst r) -> (n, e) ∈ r ->
    exists h, resolve n r = Some h /\ Signal.get h r = Some e) as Hres.
  { intros E r n e Hnd (h & Hh)%list_elem_of_lookup. exists h. split.
    - apply resolve_nodup; [done|]. apply fmap_Some. by exists (n, e).
    - apply fmap_Some. by exists (n, e). }
  split.
  - exists calls. unfold setup_tap_registry.
    assert (register_taps calls registry_new = Ok calls) as -> by by apply (register_all MAX_TAPS calls registry_new).
    split_and!; [done| |].
    + intros t Ht. apply Hres; [done|]. rewrite (register_calls _ _ Hc). apply elem_of_app. right.
      by apply (list_elem_of_fmap_2 (fun t => (tap_name t, entry_of_tap t))).
    + intros Hs. apply Hres; [done|]. rewrite (register_calls _ _ Hc). destruct (sources p); [done|]. set_solver.
  - exists outs. unfold setup_outlet_registry.
    assert (register_outlets outs registry_new = Ok outs) as ->
      by by apply (register_all MAX_OUTLETS outs registry_new).
    split; [done|].
    intros o Ho. split.
    + intros (h & Hh & _). apply resolve_some, fmap_Some in Hh as ([n e] & Hh & He). cbn in He. subst n.
      apply list_elem_of_lookup_2 in Hh. rewrite Houts in Hh.
      apply list_elem_of_fmap in Hh as (o' & [= He _] & Hin). apply list_elem_of_In, filter_In in Hin as [Hin Hcd].
      apply list_elem_of_In in Hin.
      pose proof (find_by_key_nodup out_name _ _ (ac_outlets_nodup _ _ _ _ _ Ha) Ho) as F1.
      pose proof (find_by_key_nodup out_name _ _ (ac_outlets_nodup _ _ _ _ _ Ha) Hin) as F2.
      rewrite He in F1. rewrite F1 in F2. injection F2 as ->. unfold is_cell_driven in Hcd. by destruct (out_input o').
    + intros Hi. apply Hres; [done|]. rewrite Houts.
      apply (list_elem_of_fmap_2 (fun o => (out_name o, ORetained (outlet_static_name (out_name o))))).
      apply list_elem_of_In, filter_In. split; [by apply list_elem_of_In|]. unfold is_cell_driven. by rewrite Hi.
Qed.
End Registration.

(** ** Errors *)

Section Errors.
Context `{Yaml} `{Syn} `{IdentLaws} `{Unicode}.

(** Errors that generation can still give: what validation does not look at. *)
Definition open_error (e : CodegenError) : Prop :=
  match e with
  | NoDevice _ _ | NotReachable _ _ | NoStatusOutputs _ | WalkUnfinished => False
  | IdentPanic name => plain_ident name = false
  | _ => True
  end.

Lemma ident_new_open s e : ident_new s = Err e -> open_error e.
Proof.
  unfold ident_new. destruct (ident_new_ok s) eqn:Hs; [done|]. intros [= <-]. cbn.
  destruct (plain_ident s) eqn:Hp; [|done]. apply ident_new_plain in Hp. congruence.
Qed.
Lemma idents_open (f : text -> text) l e : mapM_res (fun n => ident_new (f n)) l = Err e -> open_error e.
Proof. apply (mapM_res_err _ open_error). intros n e' _. apply ident_new_open. Qed.
Lemma type_open s e : rust_type_tokens s = Err e -> open_error e.
Proof. unfold rust_type_tokens. case_bool_decide; [done|apply ident_new_open]. Qed.
Lemma driver_idents_open d e : driver_idents d = Err e -> open_error e.
Proof.
  unfold driver_idents. intros He. do 3 (eapply (res_bind_err _ _ open_error); [exact He|intros ?; apply ident_new_open|];
    clear e He; intros ? e _ He). done.
Qed.
Lemma step_idents_open o e : step_idents o = Err e -> open_error e.
Proof.
  unfold step_idents. intros He. do 3 (eapply (res_bind_err _ _ open_error); [exact He|intros ?; apply ident_new_open|];
    clear e He; intros ? e _ He). done.
Qed.

Lemma config_field_open v f e : config_field v f = Err e -> open_error e.
Proof.
  unfold config_field. intros He. eapply (res_bind_err _ _ open_error); [exact He|intros ?; apply ident_new_open|].
  clear e He. intros fi e _ He. eapply (res_bind_err _ _ open_error); [exact He|destruct (rust_type f.2); cbn; naive_solver|].
  clear e He. intros rt e _ He. eapply (res_bind_err _ _ open_error); [exact He| |done]. clear e He. intros e.
  unfold config_value_tokens. repeat (destruct (text_eqb _ _); [try done; cbn; destruct (_ : bool); naive_solver|]).
  destruct (as_str v); cbn [from_option]; [|by intros [= <-]]. intros He.
  do 2 (eapply (res_bind_err _ _ open_error); [exact He|intros ?; apply ident_new_open|]; clear e He; intros ? e _ He). done.
Qed.

Lemma config_fields_open hw app fs e : config_fields hw app fs = Err e -> open_error e.
Proof. apply (mapM_res_err _ open_error). intros f e' _. apply config_field_open. Qed.

Lemma wired_or_fail_open o pins mk names e : wired_or_fail o pins mk names = Err e -> open_error e.
Proof. apply (mapM_res_err _ open_error). intros n e' _. case_match; [apply ident_new_open|]. by intros [= <-]. Qed.

Lemma tap_write_open t e : tap_write t = Err e -> open_error e.
Proof.
  unfold tap_write. intros He. eapply (res_bind_err _ _ open_error); [exact He|intros ?; apply ident_new_open|].
  intros x e1 _. destruct (tap_kind t); naive_solver.
Qed.
Lemma direct_write_open sp t e : direct_write sp t = Err e -> open_error e.
Proof.
  unfold direct_write. destruct (strip_text _ _); [|done]. intros He.
  do 2 (eapply (res_bind_err _ _ open_error); [exact He|intros ?; apply ident_new_open|]; clear e He; intros ? e _ He).
  destruct (tap_kind t); naive_solver.
Qed.
Lemma pins_idents_open d optional wired e : pins_idents d optional wired = Err e -> open_error e.
Proof.
  unfold pins_idents. destruct wired; [done|]. intros He.
  eapply (res_bind_err _ _ open_error); [exact He|intros ?; apply ident_new_open|]. clear e He. intros ? e _ He.
  eapply (res_bind_err _ _ open_error); [exact He|intros ?; apply (idents_open snake_name)|done].
Qed.
Lemma status_update_open op t e : status_update op t = Err e -> open_error e.
Proof.
  unfold status_update. destruct (strip_text _ _); [|done]. destruct (text_eqb _ _); [done|]. intros He.
  do 2 (eapply (res_bind_err _ _ open_error); [exact He|intros ?; apply ident_new_open|]; clear e He; intros ? e _ He). done.
Qed.
Lemma wired_args_open d schema e : wired_args d schema = Err e -> open_error e.
Proof. apply (idents_open (device_pin (de_id d))). Qed.
End Errors.

(** ** The walk over the steps *)

Section WalkFacts.
Context `{Yaml} `{Syn} `{Unicode}.
Context (p : PipelineFile) (kinds : IndexMap DriverSchema) (prefix : text) (consumed : list text).
Implicit Types (w : Walk) (s : Step) (E : list Step).

(** The taps on the output of a step, as they are written. *)
Definition writes_of s : list (bool * text) :=
  map (fun t => (bool_decide (tap_kind t = TRetained), tap_static_name (tap_name t)))
    (List.filter (fun t => text_eqb (tap_source t) (step_id s)) (taps p)).

(** The step has an output variable: a step or an outlet uses it, or a tap. *)
Definition has_var s : bool :=
  bool_decide (step_id s ∈ consumed) || match writes_of s with [] => false | _ :: _ => true end.

Definition input_expr s : Expr :=
  match strip_text prefix (input s) with
  | Some field => Reading (snake_name field)
  | None => OutVar (out_var (input s))
  end.

(** The statements of one step. *)
Definition step_stmts s : list Stmt :=
  LetStep (if has_var s then Some (out_var (step_id s)) else None) (node_var (step_id s)) (input_expr s)
  :: match writes_of s with [] => [] | _ :: _ => [IfSomeWrite (out_var (step_id s)) (writes_of s)] end.

(** [s] takes a field of the source, or the output of a step of [E]. *)
Definition fed_by E s : Prop :=
  is_Some (strip_text prefix (input s)) \/
  exists s', s' ∈ E /\ step_id s' = input s /\ has_var s' = true.

(** [w] has emitted the steps [E], in this order. *)
Record walked E w : Prop := {
  wd_vars : forall i v, im_get i (wk_vars w) = Some v <->
              exists s, s ∈ E /\ step_id s = i /\ has_var s = true /\ v = out_var i;
  wd_order : forall E1 s E2, E = E1 ++ s :: E2 -> fed_by E1 s;
  wd_chain : wk_chain w = flat_map step_stmts E;
  wd_clears : wk_clears w = flat_map (fun s => retained_statics (writes_of s)) E;
  wd_inits : Forall2 (fun s ni => ni_var ni = node_var (step_id s) /\ ni_op ni = op s) E (wk_inits w);
}.

Lemma step_tap_writes_ok s ws : step_tap_writes p (step_id s) = Ok ws -> ws = writes_of s.
Proof.
  unfold step_tap_writes, writes_of. intros Hw.
  erewrite <-(mapM_res_fmap tap_write id (fun t => (bool_decide (tap_kind t = TRetained), tap_static_name (tap_name t)))); [|..|exact Hw].
  - symmetry. apply map_id.
  - intros t y _. unfold tap_write. intros (x & ->%tap_static_eq & Hx)%res_bind_ok. destruct (tap_kind t); by simplify_eq.
Qed.

Lemma walked_resolve E w i :
  walked E w ->
  resolve_input prefix (wk_vars w) i =
  match strip_text prefix i with
  | Some field => Some (f ← snake_ident field; Ok (Reading f))
  | None => match im_get i (wk_vars w) with Some _ => Some (Ok (OutVar (out_var i))) | None => None end
  end.
Proof.
  intros Hw. unfold resolve_input. destruct (strip_text prefix i); [done|].
  destruct (im_get i (wk_vars w)) as [v|] eqn:Hv; [|done]. cbn.
  apply (wd_vars _ _ Hw) in Hv as (s & _ & _ & _ & ->). done.
Qed.

Lemma walked_fed E w s :
  walked E w -> is_Some (resolve_input prefix (wk_vars w) (input s)) <-> fed_by E s.
Proof.
  intros Hw. rewrite (walked_resolve E) by done. unfold fed_by. destruct (strip_text prefix (input s)).
  - split; [by left; eauto|by eauto].
  - destruct (im_get (input s) (wk_vars w)) as [v|] eqn:Hv.
    + apply (wd_vars _ _ Hw) in Hv as (s' & ? & ? & ? & _). split; [|by eauto]. right. eauto.
    + split; [intros [? ?]; done|]. intros [[? ?]|(s' & ? & ? & ?)]; [done|].
      assert (im_get (input s) (wk_vars w) = Some (out_var (input s))); [|congruence].
      apply (wd_vars _ _ Hw). eauto 6.
Qed.

Lemma order_snoc E s :
  (forall E1 s' E2, E = E1 ++ s' :: E2 -> fed_by E1 s') -> fed_by E s ->
  forall E1 s' E2, E ++ [s] = E1 ++ s' :: E2 -> fed_by E1 s'.
Proof.
  intros Ho Hs E1 s' E2 He. destruct E2 as [|s2 E2 _] using rev_ind.
  - by apply app_inj_tail in He as [-> ->].
  - rewrite app_comm_cons, (assoc_L (++)) in He. apply app_inj_tail in He as [-> _]. by eapply Ho.
Qed.

(** One step of the walk either emits the step or leaves it for later. *)
Lemma walk_step_spec E w s w' :
  walked E w -> walk_step p kinds prefix consumed w s = Ok w' ->
  (fed_by E s /\ walked (E ++ [s]) w' /\ wk_next w' = wk_next w) \/
  (~ fed_by E s /\ walked E w' /\ wk_vars w' = wk_vars w /\ wk_next w' = wk_next w ++ [s]).
Proof.
  intros Hw. unfold walk_step. pose proof (walked_fed E w s Hw) as Hf.
  rewrite (walked_resolve E w) in * by done.
  assert (forall w1, wk_inits w1 = wk_inits w -> wk_chain w1 = wk_chain w -> wk_clears w1 = wk_clears w ->
            wk_vars w1 = wk_vars w -> walked E w1) as Hsame.
  { intros w1 E1 E2 E3 E4. destruct Hw. split; by rewrite ?E1, ?E2, ?E3, ?E4. }
  destruct (match strip_text prefix (input s) with Some _ => _ | None => _ end) as [e|] eqn:He.
  - intros (e' & He' & Hx)%res_bind_ok. assert (e' = input_expr s) as ->.
    { unfold input_expr. destruct (strip_text prefix (input s)) as [f|].
      - injection He as <-. apply res_bind_ok in He' as (x & ->%snake_ident_eq & He'). congruence.
      - destruct (im_get (input s) (wk_vars w)); congruence. }
    apply res_bind_ok in Hx as (_ & _ & Hx). apply res_bind_ok in Hx as (sv & ->%ident_new_eq & Hx).
    apply res_bind_ok in Hx as (cfg & _ & Hx). apply res_bind_ok in Hx as (ws & ->%step_tap_writes_ok & Hx).
    left. assert (fed_by E s) as Hs by (apply Hf; eauto). split; [done|].
    assert (Forall2 (fun s ni => ni_var ni = node_var (step_id s) /\ ni_op ni = op s) (E ++ [s])
              (wk_inits w ++ [mkNodeInit (node_var (step_id s)) (op s) cfg])) as Hin.
    { apply Forall2_app; [apply (wd_inits _ _ Hw)|]. by repeat constructor. }
    unfold has_var in *. fold (has_var s) in Hx.
    destruct (has_var s) eqn:Hv; [apply res_bind_ok in Hx as (ov & ->%ident_new_eq & Hx)|]; injection Hx as <-; (split; [|done]); split; cbn [wk_vars wk_chain wk_clears wk_inits].
    all: try (apply order_snoc; [apply (wd_order _ _ Hw)|done]).
    all: try done.
    all: rewrite ?flat_map_app, <-?(wd_chain _ _ Hw), <-?(wd_clears _ _ Hw); cbn [flat_map]; rewrite ?app_nil_r.
    all: try done.
    all: try (unfold step_stmts; rewrite Hv; done).
    + intros i v. rewrite im_get_insert. setoid_rewrite elem_of_app. setoid_rewrite list_elem_of_singleton.
      case_decide as Hi.
      * subst i. split; [intros [= <-]; exists s; auto|]. intros (s' & _ & _ & _ & ->). done.
      * rewrite (wd_vars _ _ Hw). split.
        -- intros (s' & ? & ? & ? & ?). exists s'. auto.
        -- intros (s' & [?| ->] & ? & ? & ?); [|congruence]. exists s'. auto.
    + intros i v. rewrite (wd_vars _ _ Hw). setoid_rewrite elem_of_app. setoid_rewrite list_elem_of_singleton.
      split; [intros (s' & ? & ? & ? & ?); exists s'; auto|].
      intros (s' & [?| ->] & ? & Hh & ?); [|congruence]. exists s'. auto.
    + unfold step_stmts. rewrite Hv. unfold has_var in Hv. apply orb_false_iff in Hv as [_ Hv].
      by destruct (writes_of s).
  - intros [= <-]. right. split_and!; [|by apply Hsame|done|done].
    intros Hc%Hf. by destruct Hc.
Qed.

(** One round over the remaining steps. *)
Lemma round_spec remaining E w w' :
  walked E w -> foldM (walk_step p kinds prefix consumed) remaining w = Ok w' ->
  exists new left_, walked (E ++ new) w' /\ wk_next w' = wk_next w ++ left_ /\
    remaining ≡ₚ new ++ left_ /\ (new = [] -> forall s, s ∈ left_ -> ~ fed_by E s).
Proof.
  revert E w. induction remaining as [|s remaining IH]; intros E w Hw; cbn [foldM].
  - intros [= <-]. exists [], []. rewrite !app_nil_r. split_and!; [done..|]. intros _ s Hs. by apply elem_of_nil in Hs.
  - intros (w1 & Hs & Hrest)%res_bind_ok.
    destruct (walk_step_spec _ _ _ _ Hw Hs) as [(Hf & Hw1 & Hn)|(Hf & Hw1 & Hv & Hn)].
    + destruct (IH _ _ Hw1 Hrest) as (new & left_ & I1 & I2 & I3 & _).
      exists (s :: new), left_. split_and!; [by rewrite <-(assoc_L (++)) in I1|by rewrite I2, Hn|by rewrite I3|done].
    + destruct (IH _ _ Hw1 Hrest) as (new & left_ & I1 & I2 & I3 & I4).
      exists new, (s :: left_). split_and!.
      * done.
      * by rewrite I2, Hn, <-(assoc_L (++)).
      * rewrite I3. by rewrite Permutation_middle.
      * intros Hnew s' [->|Hin]%elem_of_cons; [done|]. by apply I4.
Qed.

Lemma walk_step_open `{!IdentLaws} w s e : walk_step p kinds prefix consumed w s = Err e -> open_error e.
Proof.
  unfold walk_step. destruct (resolve_input _ _ _) as [r|] eqn:Hr; [|done]. intros He.
  eapply (res_bind_err _ _ open_error); [exact He| |].
  { intros e1 ->. clear He. unfold resolve_input in Hr. destruct (strip_text _ _); [|destruct (im_get _ _); cbn in Hr; congruence]. injection Hr as Hr.
    eapply (res_bind_err _ _ open_error); [exact Hr|intros ?; apply ident_new_open|done]. }
  clear e He. intros x e _ He. eapply (res_bind_err _ _ open_error); [exact He|intros ?; apply step_idents_open|].
  clear e He. intros ? e _ He. eapply (res_bind_err _ _ open_error); [exact He|intros ?; apply ident_new_open|].
  clear e He. intros sv e _ He. eapply (res_bind_err _ _ open_error); [exact He| |].
  - intros e1. apply (mapM_res_err _ open_error). intros f e2 _. apply config_field_open.
  - intros cfg e1 _ He1. eapply (res_bind_err _ _ open_error); [exact He1| |].
    + intros e2. apply (mapM_res_err _ open_error). intros t e3 _. apply tap_write_open.
    + intros ws e2 _. cbn zeta beta. destruct (bool_decide (step_id s ∈ consumed) || match ws with [] => false | _ :: _ => true end); [|done].
      intros Hv. eapply (res_bind_err _ _ open_error); [exact Hv|intros ?; apply ident_new_open|done].
Qed.

(** The walk ends within its bound; the steps it leaves are fed by nothing it
    has emitted. *)
Lemma walk_loop_spec fuel remaining E w :
  walked E w -> (length remaining < fuel)%nat ->
  match walk_loop fuel p kinds prefix consumed remaining w with
  | Ok w' => exists E', walked E' w' /\ E ++ remaining ≡ₚ E' ++ wk_next w' /\
               (forall s, s ∈ wk_next w' -> ~ fed_by E' s)
  | Err e => exists w' s, walk_step p kinds prefix consumed w' s = Err e
  end.
Proof.
  revert remaining E w. induction fuel as [|fuel IH]; intros remaining E w Hw Hl; [lia|]. cbn [walk_loop].
  assert (walked E (mkWalk (wk_inits w) (wk_chain w) (wk_clears w) (wk_vars w) [])) as Hw0 by (destruct Hw; by split).
  destruct (foldM _ remaining _) as [w1|e] eqn:Hr; cbn.
  - destruct (round_spec _ _ _ _ Hw0 Hr) as (new & left_ & R1 & R2 & R3 & R4). cbn in R2.
    assert (length remaining = length new + length left_)%nat as Hlen by by rewrite R3, length_app.
    destruct (Nat.eqb_spec (length (wk_next w1)) (length remaining)) as [He|He].
    + assert (new = []) as -> by (apply length_zero_iff_nil; rewrite R2 in He; lia).
      exists E. rewrite app_nil_r in R1. split_and!; [done|by rewrite R2, R3|]. rewrite R2. intros s Hs. by apply R4.
    + rewrite R2 in *. specialize (IH left_ (E ++ new) w1 R1 ltac:(lia)).
      destruct (walk_loop fuel _ _ _ _ left_ w1); [|done]. destruct IH as (E' & ? & Hp & ?).
      exists E'. split_and!; [done| |done]. by rewrite <-Hp, R3, (assoc_L (++)).
  - eapply (foldM_err _ (fun e => exists w' s, walk_step p kinds prefix consumed w' s = Err e)); [|exact Hr]. eauto.
Qed.

Lemma walked_nil : walked [] (mkWalk [] [] [] [] []).
Proof.
  split; try done.
  - intros i v. split; [done|]. intros (s & Hs & _). by apply elem_of_nil in Hs.
  - intros [|? ?] ? ?; done.
Qed.
End WalkFacts.

(** ** Generating from an accepted pipeline *)

Abbreviation prefix_of sid := (sid ++ [char_dot]).
Abbreviation consumed_of p sid := (consumed_by_downstream p (owned_outlets_for_source sid p)).

Section Generation.
Context `{Yaml} `{Syn} `{Unicode}.
Context (drivers kinds : IndexMap DriverSchema) (hash_order : gmap text nat -> list text) `{!HashOrder hash_order}.
Implicit Types (p : PipelineFile) (m : BoardManifest).

(** Every step on the way from a source to a reference is emitted in the
    source's task. *)
Lemma rooted_emitted p sid owned E w n i :
  char_dot ∉ sid ->
  walked p (sid ++ [char_dot]) (consumed_by_downstream p owned) E w ->
  steps p ≡ₚ E ++ wk_next w ->
  (forall s, s ∈ wk_next w -> ~ fed_by p (sid ++ [char_dot]) (consumed_by_downstream p owned) E s) ->
  root_source_loop n i p = Some sid ->
  is_Some (strip_text (sid ++ [char_dot]) i) \/
  (contains_char char_dot i = false /\ exists s, s ∈ E /\ find_step i p = Some s).
Proof.
  intros Hd Hw Hp Hleft. revert i. induction n as [|n IH]; intros i; cbn [root_source_loop]; [done|].
  destruct (split_once char_dot i) as [[src f]|] eqn:Hs.
  - intros [= ->]. left. exists f. by apply strip_owner.
  - apply split_once_none in Hs. destruct (find_step i p) as [s|] eqn:Hf; cbn; [|done]. intros Hr%IH. right.
    split; [done|]. exists s. split; [|done].
    pose proof (find_by_key step_id _ _ _ Hf) as [Hin _]. rewrite Hp in Hin.
    apply elem_of_app in Hin as [Hin|Hin]; [done|]. exfalso. apply (Hleft _ Hin).
    destruct Hr as [Hr|(Hnd & s' & Hs' & Hf')]; [by left|]. right. exists s'.
    apply (find_by_key step_id) in Hf' as [_ He]. split_and!; [done..|]. unfold has_var.
    rewrite bool_decide_eq_true_2; [done|]. unfold consumed_by_downstream. rewrite He.
    apply list_elem_of_In, filter_In. rewrite Hnd. split; [|done]. apply in_app_iff. left.
    apply in_map, list_elem_of_In. rewrite Hp. set_solver.
Qed.

(** An outlet a source drives has a value to apply: a reading, if its field is an
    identifier, or the variable of an emitted step. *)
Lemma owned_apply_ok p sid E w o d e :
  char_dot ∉ sid ->
  let owned := owned_outlets_for_source sid p in
  walked p (sid ++ [char_dot]) (consumed_by_downstream p owned) E w ->
  steps p ≡ₚ E ++ wk_next w ->
  (forall s, s ∈ wk_next w -> ~ fed_by p (sid ++ [char_dot]) (consumed_by_downstream p owned) E s) ->
  o ∈ owned -> emit_apply sid (wk_vars w) d (default [] (out_input o)) = Err e -> exists name, ident_new name = Err e.
Proof.
  intros Hd owned Hw Hp Hleft Ho. unfold owned, owned_outlets_for_source in Ho.
  apply list_elem_of_In, filter_In in Ho as [Ho Hr]. destruct (out_input o) as [i|] eqn:Hi; [|done].
  apply bool_decide_eq_true in Hr. cbn [from_option]. unfold id, emit_apply.
  assert (forall f, (x ← snake_ident f; Ok (ApplyReading d x)) = Err e -> exists name, ident_new name = Err e) as Hfield.
  { intros f. unfold snake_ident. destruct (ident_new (snake_name f)) eqn:Hi'; cbn; [done|]. intros [= <-]. eauto. }
  destruct (rooted_emitted _ _ _ _ _ _ _ Hd Hw Hp Hleft Hr) as [[f ->]|(Hnd & s & Hs & Hf)]; [apply Hfield|].
  destruct (strip_text _ i); [apply Hfield|]. apply (find_by_key step_id) in Hf as [_ He].
  rewrite (proj2 (wd_vars _ _ _ _ _ Hw i (out_var i))); [done|]. exists s. split_and!; [done..| |done].
  unfold has_var. rewrite bool_decide_eq_true_2; [done|]. unfold consumed_by_downstream.
  apply list_elem_of_In, filter_In. rewrite He, Hnd. split; [|done]. apply in_app_iff. right.
  apply list_elem_of_In, list_elem_of_omap. exists o. split; [|done]. apply list_elem_of_In. apply filter_In.
  rewrite Hi, bool_decide_eq_true_2; done.
Qed.

Lemma device_map_get m k d :
  im_get k (device_map m) = Some d -> d ∈ devices m /\ de_id d = k.
Proof.
  unfold device_map. assert (forall acc l, im_get k (foldl (fun acc d => im_insert (de_id d) d acc) acc l) = Some d ->
    (d ∈ l /\ de_id d = k) \/ im_get k acc = Some d) as Hg.
  { intros acc l. revert acc. induction l as [|e l IH]; intros acc; cbn; [by right|].
    intros [[Hd He]|Hx]%IH; [left; set_solver|]. rewrite im_get_insert in Hx.
    case_decide; [|by right]. left. injection Hx as ->. set_solver. }
  intros [?|?]%Hg; done.
Qed.

Lemma found_device m k d : im_get k (device_map m) = Some d -> exists d', find_device k m = Some d'.
Proof.
  intros [Hd <-]%device_map_get. destruct (find_device (de_id d) m) eqn:Hf; [by eauto|].
  apply find_by_key_none in Hf. exfalso. apply Hf. by apply list_elem_of_fmap_2.
Qed.

Lemma source_device_found p m width s :
  accepted drivers kinds p m width -> s ∈ sources p -> exists d, find_device (src_device s) m = Some d.
Proof.
  intros Ha Hs. pose proof (ac_sources _ _ _ _ _ Ha _ Hs) as He. unfold source_errors in He.
  destruct (im_get (src_device s) (device_map m)) eqn:Hd; [|done]. by eapply found_device.
Qed.

Lemma outlet_device_found p m width o :
  accepted drivers kinds p m width -> o ∈ outlets p -> exists d, find_device (out_device o) m = Some d.
Proof.
  intros Ha Ho. pose proof (ac_outlets _ _ _ _ _ Ha _ Ho) as He. unfold outlet_errors in He.
  repeat (apply app_nil in He as [_ He]).
  destruct (im_get (out_device o) (device_map m)) eqn:Hd; [|done]. by eapply found_device.
Qed.


(** The writes of the taps on the fields of a source. *)
Definition direct_stmts (sp : text) (t : Tap) : list Stmt :=
  match strip_text sp (tap_source t) with
  | None => []
  | Some field => [if bool_decide (tap_kind t = TRetained)
                   then TapUpdate (tap_static_name (tap_name t)) (snake_name field)
                   else TapEmit (tap_static_name (tap_name t)) (snake_name field)]
  end.

Lemma direct_writes_ok sp (ts : list Tap) ws :
  mapM_res (direct_write sp) ts = Ok ws -> concat ws = flat_map (direct_stmts sp) ts.
Proof.
  intros Hw. rewrite flat_map_concat_map. f_equal.
  rewrite <-(mapM_res_fmap (direct_write sp) id (direct_stmts sp) ts ws).
  - symmetry. apply map_id.
  - intros t y _. unfold direct_write, direct_stmts. destruct (strip_text _ _); [|by intros [= <-]].
    intros (x & ->%tap_static_eq & Hx)%res_bind_ok. apply res_bind_ok in Hx as (f & ->%snake_ident_eq & Hx).
    destruct (tap_kind t); by simplify_eq.
  - done.
Qed.

(** The parts of an emitted source task. *)
Lemma emit_source_task_ok source idx device schema p m t :
  emit_source_task source idx device schema p m drivers kinds = Ok t ->
  exists E w inits, walked p (prefix_of (src_id source)) (consumed_of p (src_id source)) E w /\
    steps p ≡ₚ E ++ wk_next w /\
    (forall s, s ∈ wk_next w -> ~ fed_by p (prefix_of (src_id source)) (consumed_of p (src_id source)) E s) /\
    st_nodes t = wk_inits w /\
    st_tap_writes t = flat_map (direct_stmts (prefix_of (src_id source))) (taps p) /\
    st_clears t = direct_clears (st_tap_writes t) ++ wk_clears w /\
    st_outlets t = inits /\
    mapM_res (emit_owned_outlet m drivers) (owned_outlets_for_source (src_id source) p) = Ok inits /\
    st_params t = map snake_name (List.filter (fun n => im_contains n (de_pins device)) (optional_pins (requires schema)))
                  ++ flat_map oi_params inits /\
    exists applies, st_chain t = wk_chain w ++ applies /\
      Forall2 (fun oi st => emit_apply (src_id source) (wk_vars w) (oi_driver oi.2) (default [] (out_input oi.1)) = Ok st)
        (zip (owned_outlets_for_source (src_id source) p) inits) applies.
Proof.
  unfold emit_source_task. intros (? & _ & Hx)%res_bind_ok. apply res_bind_ok in Hx as (? & _ & Hx).
  apply res_bind_ok in Hx as (cfg & _ & Hx). cbn zeta in Hx. apply res_bind_ok in Hx as (pins & ->%(idents_map snake_name) & Hx).
  apply res_bind_ok in Hx as (? & _ & Hx). apply res_bind_ok in Hx as (direct & Hd & Hx). apply res_bind_ok in Hx as (inits & Hi & Hx).
  apply res_bind_ok in Hx as (w & Hw & Hx). apply res_bind_ok in Hx as (applies & Ha & Hx).
  injection Hx as <-.
  pose proof (walk_loop_spec p kinds (prefix_of (src_id source)) (consumed_of p (src_id source))
    (Datatypes.S (length (steps p))) (steps p) [] _ (walked_nil _ _ _) ltac:(lia)) as Hl.
  rewrite Hw in Hl. destruct Hl as (E & Hwd & Hp & Hleft). exists E, w, inits. cbn.
  split_and!; [done..|by apply direct_writes_ok|done|done|done|done|].
  exists applies. split; [done|]. by apply mapM_res_ok.
Qed.

Lemma emit_owned_outlet_err `{!IdentLaws} m o e d :
  find_device (out_device o) m = Some d -> emit_owned_outlet m drivers o = Err e -> open_error e.
Proof.
  intros Hd. unfold emit_owned_outlet. rewrite Hd. cbn [ok_or]. intros He.
  eapply (res_bind_err _ _ open_error); [exact He|done|]. clear He. intros d' e1 [= <-] He.
  eapply (res_bind_err _ _ open_error); [exact He|intros e2; destruct (writes _); naive_solver|]. clear He. intros wr e2 _ He.
  eapply (res_bind_err _ _ open_error); [exact He|intros ?; apply driver_idents_open|]. clear e2 He. intros ? e2 _ He.
  do 2 (eapply (res_bind_err _ _ open_error); [exact He|intros ?; apply ident_new_open|]; clear e2 He; intros ? e2 _ He).
  eapply (res_bind_err _ _ open_error); [exact He|intros e3; apply config_fields_open|]. clear He. intros cfg e3 _ He.
  eapply (res_bind_err _ _ open_error); [exact He|intros e4; apply wired_or_fail_open|]. clear He. intros ps e4 _ He.
  eapply (res_bind_err _ _ open_error); [exact He|intros e5; destruct (head _); cbn; naive_solver|]. clear He. intros fp e5 _ He.
  eapply (res_bind_err _ _ open_error); [exact He|intros ?; apply ident_new_open|done].
Qed.

Lemma zip_fst {A B} (l : list A) (k : list B) x : x ∈ zip l k -> x.1 ∈ l.
Proof. destruct x as [a b]. intros Hx. by eapply elem_of_zip_l. Qed.

(** Emitting a source task of an accepted pipeline fails only for what
    validation does not look at. *)
Lemma emit_source_task_err `{!IdentLaws} source idx device schema p m width e :
  accepted drivers kinds p m width -> source ∈ sources p ->
  emit_source_task source idx device schema p m drivers kinds = Err e -> open_error e.
Proof.
  intros Ha Hs. assert (char_dot ∉ src_id source) as Hdot
    by by apply ident_ok_no_dot, (ac_source_ids _ _ _ _ _ Ha).
  unfold emit_source_task. intros He.
  eapply (res_bind_err _ _ open_error); [exact He|intros ?; apply ident_new_open|]. clear e He. intros ? e _ He.
  eapply (res_bind_err _ _ open_error); [exact He|intros ?; apply driver_idents_open|]. clear e He. intros ? e _ He.
  eapply (res_bind_err _ _ open_error); [exact He|intros e1; apply config_fields_open|]. clear He. cbn zeta. intros cfg e1 _ He.
  eapply (res_bind_err _ _ open_error); [exact He|intros ?; apply (idents_open snake_name)|]. clear e1 He. intros pins e1 _ He.
  eapply (res_bind_err _ _ open_error); [exact He|intros ?; apply pins_idents_open|]. clear e1 He. intros ? e1 _ He.
  eapply (res_bind_err _ _ open_error); [exact He| |].
  { intros e2. apply (mapM_res_err _ open_error). intros t e3 _. apply direct_write_open. }
  clear He. intros direct e2 _ He. eapply (res_bind_err _ _ open_error); [exact He| |].
  { intros e3. apply (mapM_res_err _ open_error). intros o e4 Ho.
    assert (o ∈ outlets p) as Hin.
    { apply list_elem_of_In, filter_In in Ho as [Ho _]. by apply list_elem_of_In. }
    destruct (outlet_device_found _ _ _ _ Ha Hin) as [d Hd]. by apply (emit_owned_outlet_err _ _ _ d). }
  clear He. intros inits e3 _ He.
  pose proof (walk_loop_spec p kinds (prefix_of (src_id source)) (consumed_of p (src_id source))
    (Datatypes.S (length (steps p))) (steps p) [] _ (walked_nil _ _ _) ltac:(lia)) as Hl.
  eapply (res_bind_err _ _ open_error); [exact He|intros e4 Hw; rewrite Hw in Hl; destruct Hl as (w' & s & Hl); by apply walk_step_open in Hl|].
  clear He. intros w e4 Hw He. rewrite Hw in Hl. destruct Hl as (E & Hwd & Hp & Hleft). cbn in Hp.
  eapply (res_bind_err _ _ open_error); [exact He| |done].
  intros e5. apply (mapM_res_err _ open_error). intros oi e6 Hoi%zip_fst Hap.
  destruct (owned_apply_ok p (src_id source) E w oi.1 (oi_driver oi.2) e6 Hdot Hwd Hp Hleft Hoi Hap) as [name Hname].
  by apply ident_new_open in Hname.
Qed.

Lemma outlet_name_no_dot p m width o :
  accepted drivers kinds p m width -> o ∈ outlets p -> char_dot ∉ out_name o.
Proof.
  intros Ha Ho. apply ident_ok_no_dot. pose proof (ac_outlets _ _ _ _ _ Ha _ Ho) as He.
  unfold outlet_errors in He. apply app_nil in He as [He _]. by apply ident_errors_nil in He.
Qed.

(** The driver behind a status tap of an accepted pipeline has outputs. *)
Lemma status_has_outputs p m width o t field d :
  accepted drivers kinds p m width -> o ∈ outlets p -> out_input o = None -> t ∈ taps p ->
  strip_text (prefix_of (out_name o)) (tap_source t) = Some field -> field <> OUTLET_ERROR_FIELD ->
  find_device (out_device o) m = Some d -> outputs (schema_of drivers d) <> [].
Proof.
  intros Ha Ho Hi Ht Hs Hf Hd. apply strip_owner in Hs; [|by eapply outlet_name_no_dot].
  pose proof (ac_feedback _ _ _ _ _ Ha _ Ht) as He. unfold feedback_errors in He. rewrite Hs in He.
  assert (find_outlet (out_name o) p = Some o) as Hfo
    by (apply (find_by_key_nodup out_name); [apply (ac_outlets_nodup _ _ _ _ _ Ha)|done]).
  rewrite Hfo, Hi in He. rewrite (proj2 (text_eqb_false _ _) Hf) in He. apply app_nil in He as [_ He].
  unfold device_output in He. rewrite Hd in He. cbn in He. unfold schema_of.
  destruct (im_get (driver d) drivers) as [sc|]; cbn in He |- *; [|done].
  unfold find_output in He. by destruct (outputs sc).
Qed.

Lemma generate_sink_err `{!IdentLaws} p m width o e :
  accepted drivers kinds p m width -> o ∈ outlets p -> out_input o = None ->
  generate_sink p m drivers o = Err e -> open_error e.
Proof.
  intros Ha Ho Hi. destruct (outlet_device_found _ _ _ _ Ha Ho) as [d Hd].
  unfold generate_sink. rewrite Hd. cbn [ok_or mbind res_bind]. unfold emit_sink_task. intros He.
  eapply (res_bind_err _ _ open_error); [exact He|intros e1; destruct (writes _); naive_solver|]. clear He. intros wr e1 _ He.
  eapply (res_bind_err _ _ open_error); [exact He|intros ?; apply ident_new_open|]. clear e1 He. intros ? e1 _ He.
  eapply (res_bind_err _ _ open_error); [exact He|intros ?; apply driver_idents_open|]. clear e1 He. intros ? e1 _ He.
  eapply (res_bind_err _ _ open_error); [exact He|intros ?; apply ident_new_open|]. clear e1 He. intros ? e1 _ He.
  eapply (res_bind_err _ _ open_error); [exact He|intros e2; apply config_fields_open|]. clear He. cbn zeta. intros cfg e2 _ He.
  destruct (_ =? 0); [by injection He as <-|].
  eapply (res_bind_err _ _ open_error); [exact He|intros e3; apply wired_or_fail_open|]. clear He. intros ps e3 _ He.
  eapply (res_bind_err _ _ open_error); [exact He|intros ?; apply (mapM_res_err _ open_error); intros t ? _; apply status_update_open|].
  clear He. intros updates e4 Hup He.
  eapply (res_bind_err _ _ open_error); [exact He| |].
  { intros e5. destruct (List.find _ _); [|done]. intros Hx.
    eapply (res_bind_err _ _ open_error); [exact Hx|intros ?; apply ident_new_open|done]. }
  clear He. intros err e5 _ He. destruct (concat updates) as [|st rest] eqn:Hst; [done|].
  destruct (outputs (schema_of drivers d)) eqn:Hout; [|done]. exfalso.
  assert (st ∈ concat updates) as Hin by (rewrite Hst; set_solver).
  apply list_elem_of_In, in_concat in Hin as (u & Hu & Hin). apply list_elem_of_In in Hu.
  destruct (mapM_res_elem _ _ _ _ Hup Hu) as (t & Ht & Hx). unfold status_update in Hx.
  destruct (strip_text _ _) as [field|] eqn:Hs; [|by injection Hx as <-].
  destruct (text_eqb field OUTLET_ERROR_FIELD) eqn:Hf; [by injection Hx as <-|].
  apply text_eqb_false in Hf. by eapply status_has_outputs.
Qed.

Lemma used_bus_ids_err p m width e :
  accepted drivers kinds p m width -> used_bus_ids p m = Err e -> open_error e.
Proof.
  intros Ha He. unfold used_bus_ids in He. eapply (res_bind_err _ _ open_error); [exact He| |done].
  intros e1. apply (mapM_res_err _ open_error). intros s e2 Hs.
  destruct (source_device_found _ _ _ _ Ha Hs) as [d ->]. done.
Qed.

Lemma spawn_err `{!IdentLaws} p m width e :
  accepted drivers kinds p m width -> emit_spawn_sources p m drivers = Err e -> open_error e.
Proof.
  intros Ha He. unfold emit_spawn_sources in He.
  eapply (res_bind_err _ _ open_error); [exact He|intros e1; by eapply used_bus_ids_err|]. clear He. intros used e1 _ He.
  eapply (res_bind_err _ _ open_error); [exact He| |].
  { intros e2. apply (mapM_res_err _ open_error). intros b e3 _ Hx. unfold bus_init in Hx.
    do 3 (eapply (res_bind_err _ _ open_error); [exact Hx|intros ?; apply ident_new_open|]; clear e3 Hx; intros ? e3 _ Hx).
    eapply (res_bind_err _ _ open_error); [exact Hx|destruct (im_get b (buses m)); cbn; naive_solver|done]. }
  clear He. intros bs e2 _ He. eapply (res_bind_err _ _ open_error); [exact He| |].
  { intros e3. apply (mapM_res_err _ open_error). intros s e4 Hs. unfold spawn_source.
    destruct (source_device_found _ _ _ _ Ha Hs) as [d ->]. cbn [ok_or mbind res_bind]. intros Hx.
    do 2 (eapply (res_bind_err _ _ open_error); [exact Hx|intros ?; apply ident_new_open|]; clear e4 Hx; intros ? e4 _ Hx).
    eapply (res_bind_err _ _ open_error); [exact Hx|destruct (im_get (bus d) (buses m)); cbn; naive_solver|]. clear e4 Hx. intros bc e4 _ Hx.
    eapply (res_bind_err _ _ open_error); [exact Hx|destruct (transport bc); [done|intros ?; apply ident_new_open]|]. clear e4 Hx. intros ? e4 _ Hx.
    eapply (res_bind_err _ _ open_error); [exact Hx|intros ?; apply wired_args_open|]. clear e4 Hx. intros ? e4 _ Hx.
    eapply (res_bind_err _ _ open_error); [exact Hx| |done].
    intros e5. apply (mapM_res_err _ open_error). intros o e6 Ho.
    apply list_elem_of_In, filter_In in Ho as [Ho _]. apply list_elem_of_In in Ho.
    destruct (outlet_device_found _ _ _ _ Ha Ho) as [od ->]. apply wired_args_open. }
  clear He. intros s1 e3 _ He. eapply (res_bind_err _ _ open_error); [exact He| |done].
  intros e4. apply (mapM_res_err _ open_error). intros o e5 Ho.
  apply list_elem_of_In, filter_In in Ho as [Ho _]. apply list_elem_of_In in Ho. unfold spawn_sink.
  destruct (outlet_device_found _ _ _ _ Ha Ho) as [od ->]. cbn [ok_or mbind res_bind]. intros Hx.
  eapply (res_bind_err _ _ open_error); [exact Hx|intros ?; apply ident_new_open|]. clear e5 Hx. intros ? e5 _ Hx.
  eapply (res_bind_err _ _ open_error); [exact Hx|intros ?; apply wired_args_open|done].
Qed.

(** The statics and the registrations. *)
Lemma statics_open `{!IdentLaws} p e : emit_tap_statics p = Err e \/ emit_outlet_statics p = Err e -> open_error e.
Proof.
  intros [He|He].
  - unfold emit_tap_statics in He. eapply (res_bind_err _ _ open_error); [exact He| |done]. clear e He. intros e.
    apply (mapM_res_err _ open_error). intros t e1 _ He.
    eapply (res_bind_err _ _ open_error); [exact He|intros ?; apply ident_new_open|]. clear e1 He. intros x e1 _ He.
    eapply (res_bind_err _ _ open_error); [exact He|intros ?; apply type_open|]. clear e1 He. intros y e1 _ He.
    destruct (tap_kind t); naive_solver.
  - revert He. apply (mapM_res_err _ open_error). intros o e1 _ He.
    eapply (res_bind_err _ _ open_error); [exact He|intros ?; apply ident_new_open|]. clear e1 He. intros x e1 _ He.
    eapply (res_bind_err _ _ open_error); [exact He|intros ?; apply type_open|done].
Qed.
Lemma registers_open `{!IdentLaws} p e : emit_register_taps p = Err e \/ emit_register_outlets p = Err e -> open_error e.
Proof.
  intros [He|He].
  - unfold emit_register_taps in He. eapply (res_bind_err _ _ open_error); [exact He| |done]. clear e He. intros e.
    apply (mapM_res_err _ open_error). intros t e1 _ He. unfold tap_entry in He.
    eapply (res_bind_err _ _ open_error); [exact He|intros ?; apply ident_new_open|]. clear e1 He. intros x e1 _ He.
    destruct (tap_kind t); naive_solver.
  - revert He. apply (mapM_res_err _ open_error). intros o e1 _ He. unfold outlet_entry in He.
    eapply (res_bind_err _ _ open_error); [exact He|intros ?; apply ident_new_open|done].
Qed.

End Generation.

Import SampleParams SamplePipeline.

Lemma generated_registries_complete_witness :
  exists calls r, emit_register_taps pipeline = Ok calls /\ setup_tap_registry calls = Some (4%nat, r).
Proof.
  assert (exists calls, emit_register_taps pipeline = Ok calls /\ length calls = 4%nat) as (calls & Hc & Hl)
    by (eexists; split; vm_compute; reflexivity).
  assert (exists outs, emit_register_outlets pipeline = Ok outs) as (outs & Ho) by (eexists; vm_compute; reflexivity).
  destruct (generated_registries_complete drivers step_kinds keys_order pipeline (board 20) 32 calls outs pipeline_accepted Hc Ho)
    as [(r & Hr & _) _].
  exists calls, r. rewrite <-Hl. split; assumption.
Defined.

(** A pipeline with a batch tap, which is accepted. *)
Definition batch_pipeline : PipelineFile :=
  mkPipelineFile (lit "climate") [thermo] [] [tap "raw" TBatch "f32" "thermo.temp"] [].

