(* ===== verification/SourceTask.v ===== *)
(** * Generated source tasks at work

    What the code of [emit_source_task] does when it runs: the statements of a
    tick on slots, step states and output drivers ([exec]), and the loop
    around them, with bring-up, health and the clearing of stale values
    ([tick]), from the template at the end of
    [pipeline-codegen/src/emit/source_task.rs].  The generated tick is proved
    to compute what the graph of the pipeline file means ([ref_value]), to
    leave no value of a faulty source behind, and to keep the declared types.
    Sensor drivers and the steps themselves are parameters. *)

From S2P Require Import Prelude Text Signal Board Pipeline PipelineFacts Codegen CodegenFacts.
From Stdlib Require Import ZArith Lia Strings.String.
From stdpp Require Import base list option sets gmap.

Local Open Scope Z_scope.

Inductive DriverHealth := Up | Degraded | Down.

#[export] Instance DriverHealth_eq_dec : EqDecision DriverHealth.
Proof. solve_decision. Defined.

(** The steps of a build: their state, [new] and [step]. *)
Class Steps `{Yaml} (Val St : Type) := {
  step_new : NodeInit -> St;
  step_fn : NodeInit -> St -> Val -> option Val * St;
}.

Record Env {Val St : Type} `{Yaml} := mkEnv {
  nodes : gmap text (NodeInit * St);
  vars : gmap text (option Val);
  retained : gmap text (RetainedSlot Val);
  events : gmap text (EventSlot Val);
  applied : list (text * Val * Z);
}.
Arguments Env : clear implicits. Arguments Env _ _ {_}.

Section Run.
Context `{Yaml} {Val St : Type} `{!Steps Val St}.
Implicit Types (en : Env Val St) (readings : text -> option Val).

Definition set_vars en x v := mkEnv _ _ _ (nodes en) (<[x := v]> (vars en)) (retained en) (events en) (applied en).
Definition set_node en x n := mkEnv _ _ _ (<[x := n]> (nodes en)) (vars en) (retained en) (events en) (applied en).

(** [TAP.update(ts, v)], [TAP.clear()] and [TAP.emit(v)] on a static *)
Definition update_static (ts : Z) (static : text) (v : Val) en :=
  mkEnv _ _ _ (nodes en) (vars en)
    (<[static := retained_update ts v (default retained_new (retained en !! static))]> (retained en)) (events en) (applied en).
Definition clear_static (static : text) en :=
  mkEnv _ _ _ (nodes en) (vars en)
    (<[static := retained_clear (default retained_new (retained en !! static))]> (retained en)) (events en) (applied en).
Definition emit_static (static : text) (v : Val) en :=
  mkEnv _ _ _ (nodes en) (vars en) (retained en)
    (<[static := event_emit v (default event_new (events en !! static))]> (events en)) (applied en).
Definition apply_driver (ts : Z) (d : text) (v : Val) en :=
  mkEnv _ _ _ (nodes en) (vars en) (retained en) (events en) (applied en ++ [(d, v, ts)]).

Definition write_static (ts : Z) (v : Val) en (wr : bool * text) : Env Val St :=
  if wr.1 then update_static ts wr.2 v en else emit_static wr.2 v en.

(** The value of an input: a field of the readings is there, a variable holds
    what a step gave.  [None]: the name is not bound. *)
Definition eval_expr readings en (e : Expr) : option (option Val) :=
  match e with
  | Reading field => Some <$> readings field
  | OutVar x => vars en !! x
  end.

(** [None] is code that does not compile: an unbound name. *)
Definition exec (ts : Z) readings (st : Stmt) en : option (Env Val St) :=
  match st with
  | TapUpdate static field => v ← readings field; Some (update_static ts static v en)
  | TapEmit static field => v ← readings field; Some (emit_static static v en)
  | LetStep out node e =>
      i ← eval_expr readings en e;
      n ← nodes en !! node;
      let '(r, en') := match i with
                       | Some v => let '(r, st') := step_fn n.1 n.2 v in (r, set_node en node (n.1, st'))
                       | None => (None, en)
                       end in
      Some (match out with Some x => set_vars en' x r | None => en' end)
  | IfSomeWrite x ws =>
      r ← vars en !! x;
      Some (match r with Some v => foldl (write_static ts v) en ws | None => en end)
  | ApplyReading d field => v ← readings field; Some (apply_driver ts d v en)
  | ApplyVar d x =>
      r ← vars en !! x;
      Some (match r with Some v => apply_driver ts d v en | None => en end)
  end.

Fixpoint exec_all (ts : Z) readings (l : list Stmt) en : option (Env Val St) :=
  match l with
  | [] => Some en
  | st :: l => en' ← exec ts readings st en; exec_all ts readings l en'
  end.

(** ** The task *)

Record TaskState := mkTaskState {
  health : DriverHealth;
  ready : bool;
  env : Env Val St;
  health_events : EventSlot (Z * DriverHealth);
}.

(** [let mut x_node = ..::new(..)] for every step, a later one shadowing *)
Definition init_nodes (l : list NodeInit) : gmap text (NodeInit * St) :=
  foldl (fun acc n => <[ni_var n := (n, step_new n)]> acc) ∅ l.

Definition task_new (t : SourceTask) : TaskState :=
  mkTaskState Up false (mkEnv _ _ _ (init_nodes (st_nodes t)) ∅ ∅ ∅ []) event_new.

(** What the sensor answers in a tick: [init] is asked only when the task is
    not ready, [sample] only when it then is. *)
Record TickInput := mkTickInput { init_ok : bool; sample : option (text -> option Val); now : Z }.

Definition emit_health (t : SourceTask) (h : DriverHealth) (q : EventSlot (Z * DriverHealth)) :=
  event_emit (st_index t, h) q.

(** One turn of the loop.  Variables live in the block of the sample. *)
Definition tick (t : SourceTask) (i : TickInput) (s : TaskState) : option TaskState :=
  if negb (ready s) && negb (init_ok i) then
    Some (if bool_decide (health s = Down) then s
          else mkTaskState Down (ready s) (env s) (emit_health t Down (health_events s)))
  else
    match sample i with
    | Some readings =>
        let q := if bool_decide (health s = Up) then health_events s else emit_health t Up (health_events s) in
        let en := mkEnv _ _ _ (nodes (env s)) ∅ (retained (env s)) (events (env s)) (applied (env s)) in
        en' ← exec_all (now i) readings (st_tap_writes t ++ st_chain t) en;
        Some (mkTaskState Up true en' q)
    | None =>
        Some (if bool_decide (health s = Up)
              then mkTaskState Degraded false (foldl (fun en x => clear_static x en) (env s) (st_clears t))
                     (emit_health t Degraded (health_events s))
              else mkTaskState (health s) false (env s) (health_events s))
    end.

Fixpoint run (t : SourceTask) (l : list TickInput) (s : TaskState) : option TaskState :=
  match l with
  | [] => Some s
  | i :: l => s' ← tick t i s; run t l s'
  end.

(** ** What the pipeline file means *)

Context (p : PipelineFile) (sid : text).

(** The value of a reference in a tick: a field of the source's readings, or
    what a step makes of the value of its own input. *)
Fixpoint ref_value (fuel : nat) (ns : gmap text (NodeInit * St)) readings (r : text) : option Val :=
  match fuel with
  | O => None
  | Datatypes.S fuel =>
      match strip_text (sid ++ [char_dot]) r with
      | Some field => readings (snake_name field)
      | None =>
          s ← find_step r p;
          n ← ns !! node_var (step_id s);
          v ← ref_value fuel ns readings (input s);
          (step_fn n.1 n.2 v).1
      end
  end.

(** The state of a step after the tick: stepped once if its input has a value. *)
Definition ref_state (fuel : nat) (ns : gmap text (NodeInit * St)) readings (s : Step) : option (NodeInit * St) :=
  n ← ns !! node_var (step_id s);
  Some (match ref_value fuel ns readings (input s) with
        | Some v => (n.1, (step_fn n.1 n.2 v).2)
        | None => n
        end).
End Run.

(** ** Names *)

Lemma snake_app a b : snake_name (a ++ b) = snake_name a ++ snake_name b.
Proof. apply map_app. Qed.

Lemma node_var_inj a b : node_var a = node_var b <-> snake_name a = snake_name b.
Proof.
  unfold node_var. rewrite !snake_app. split; [apply app_inv_tail|by intros ->].
Qed.

Lemma out_var_inj a b : out_var a = out_var b <-> snake_name a = snake_name b.
Proof.
  unfold out_var. rewrite !snake_app. split; [apply app_inv_tail|by intros ->].
Qed.

(** ** Writes to slots *)

Section Writes.
Context `{Yaml} {Val St : Type}.
Implicit Types (en : Env Val St) (W : list ((bool * text) * Val)).

Definition do_writes (ts : Z) W en : Env Val St := foldl (fun en wv => write_static ts wv.2 en wv.1) en W.

(** The slots a list of writes goes to. *)
Definition targets W : list text := map (fun wv => wv.1.2) W.

Lemma do_writes_app ts W1 W2 en : do_writes ts (W1 ++ W2) en = do_writes ts W2 (do_writes ts W1 en).
Proof. apply foldl_app. Qed.

Lemma do_writes_cons ts wr v W en : do_writes ts ((wr, v) :: W) en = do_writes ts W (write_static ts v en wr).
Proof. done. Qed.

Lemma write_same ts v en wr :
  nodes (write_static ts v en wr) = nodes en /\ vars (write_static ts v en wr) = vars en /\
  applied (write_static ts v en wr) = applied en.
Proof. unfold write_static. by destruct wr as [[] x]. Qed.

Lemma do_writes_same ts W en :
  nodes (do_writes ts W en) = nodes en /\ vars (do_writes ts W en) = vars en /\
  applied (do_writes ts W en) = applied en.
Proof.
  revert en. induction W as [|[wr v] W IH]; intros en; [done|]. rewrite do_writes_cons.
  destruct (IH (write_static ts v en wr)) as (-> & -> & ->). apply write_same.
Qed.

(** A slot that is not written is as before. *)
Lemma do_writes_other ts W en x :
  x ∉ targets W ->
  retained (do_writes ts W en) !! x = retained en !! x /\ events (do_writes ts W en) !! x = events en !! x.
Proof.
  revert en. induction W as [|[[b y] v] W IH]; intros en Hx; [done|]. rewrite do_writes_cons. cbn in Hx.
  destruct (IH (write_static ts v en (b, y))) as [-> ->]; [set_solver|].
  unfold write_static. destruct b; cbn; rewrite ?lookup_insert_ne by set_solver; done.
Qed.

(** A slot that is written once holds, or has queued, what was written. *)
Lemma do_writes_one ts W en (b : bool) (x : text) (v : Val) :
  NoDup (targets W) -> ((b, x), v) ∈ W ->
  retained (do_writes ts W en) !! x = (if b then Some (Some (ts, v) : RetainedSlot Val) else retained en !! x) /\
  events (do_writes ts W en) !! x =
    (if b then events en !! x else Some (event_emit v (default event_new (events en !! x)) : EventSlot Val)).
Proof.
  revert en. induction W as [|[[b' y] v'] W IH]; intros en Hn Hin; [by apply elem_of_nil in Hin|].
  cbn in Hn. apply NoDup_cons in Hn as [Hy Hn]. apply elem_of_cons in Hin as [[= -> -> ->]|Hin]; rewrite !do_writes_cons.
  - pose proof (do_writes_other ts W (write_static ts v' en (b', y)) y Hy) as [R1 R2]. rewrite R1, R2.
    unfold write_static. destruct b'; cbn; by rewrite lookup_insert_eq.
  - destruct (IH (write_static ts v' en (b', y)) Hn Hin) as [-> ->].
    assert (x <> y) as Hxy.
    { intros ->. apply Hy. by apply (list_elem_of_fmap_2 (fun wv : (bool * text) * Val => wv.1.2)) in Hin. }
    unfold write_static. destruct b', b; cbn; rewrite ?lookup_insert_ne by done; done.
Qed.
End Writes.

Lemma NoDup_map_inj {A B} (f : A -> B) l x y : NoDup (map f l) -> x ∈ l -> y ∈ l -> f x = f y -> x = y.
Proof.
  induction l as [|z l IH]; cbn; intros Hn Hx Hy He; [by apply elem_of_nil in Hx|].
  apply NoDup_cons in Hn as [Hz Hn]. apply elem_of_cons in Hx as [->|Hx], Hy as [->|Hy]; [done| | |by apply IH].
  - exfalso. apply Hz. rewrite He. by apply list_elem_of_fmap_2.
  - exfalso. apply Hz. rewrite <-He. by apply list_elem_of_fmap_2.
Qed.

Lemma exec_all_app `{Yaml} {Val St} `{!Steps Val St} ts (readings : text -> option Val) l1 l2 (en : Env Val St) :
  exec_all ts readings (l1 ++ l2) en = (en' ← exec_all ts readings l1 en; exec_all ts readings l2 en').
Proof. revert en. induction l1 as [|st l1 IH]; intros en; cbn; [done|]. destruct (exec ts readings st en); cbn; [apply IH|done]. Qed.

Lemma NoDup_flat_map {A B} (g : A -> list B) l :
  NoDup l -> (forall k, k ∈ l -> NoDup (g k)) ->
  (forall k k' x, k ∈ l -> k' ∈ l -> x ∈ g k -> x ∈ g k' -> k = k') -> NoDup (flat_map g l).
Proof.
  induction l as [|k l IH]; intros Hn Hg Hd; cbn; [constructor|]. apply NoDup_cons in Hn as [Hk Hn].
  apply NoDup_app. split_and!.
  - apply Hg. set_solver.
  - intros x Hx Hf. apply list_elem_of_In, in_flat_map in Hf as (k' & Hk' & Hx').
    apply list_elem_of_In in Hk', Hx'. apply Hk. rewrite (Hd k k' x); [done|set_solver..].
  - apply IH; [done| |].
    + intros k' Hk'. apply Hg. set_solver.
    + intros k1 k2 x H1 H2. apply Hd; set_solver.
Qed.

Lemma flat_map_sublist {A B} (f g : A -> list B) l :
  (forall x, f x `sublist_of` g x) -> flat_map f l `sublist_of` flat_map g l.
Proof. intros Hfg. induction l as [|x l IH]; cbn; [done|]. by apply sublist_app. Qed.

(** ** A tick computes the graph *)

Section Exact.
Context `{Yaml} `{Unicode} {HSyn : Syn} {Val St : Type} `{!Steps Val St}.
Context (p : PipelineFile) (sid : text) (consumed : list text) (E : list Step).
Context (ns : gmap text (NodeInit * St)) (readings : text -> option Val) (ts : Z).
Implicit Types (en : Env Val St) (s : Step).

Abbreviation prefix := (sid ++ [char_dot]).

(** References the task reads. *)
Definition references : list text := map tap_source (taps p) ++ map input (steps p) ++ omap out_input (outlets p).

Context (Hids : NoDup (map step_id (steps p))).
Context (Hsnake : NoDup (map (fun s => snake_name (step_id s)) (steps p))).
Context (Hdots : forall s, s ∈ steps p -> char_dot ∉ step_id s).
Context (Hin : forall s, s ∈ E -> s ∈ steps p).
Context (HE : NoDup E).
Context (Horder : forall E1 s E2, E = E1 ++ s :: E2 -> fed_by p prefix consumed E1 s).
Context (Hnodes : forall s, s ∈ E -> is_Some (ns !! node_var (step_id s))).
Context (Hread : forall r f, r ∈ references -> strip_text prefix r = Some f -> is_Some (readings (snake_name f))).

Definition refv (r : text) : option Val := ref_value p sid (length (steps p) + 2) ns readings r.

Lemma strip_step s : s ∈ steps p -> strip_text prefix (step_id s) = None.
Proof.
  intros Hs. destruct (strip_text prefix (step_id s)) eqn:Hx; [|done]. apply strip_text_some in Hx.
  exfalso. apply (Hdots _ Hs). rewrite Hx. set_solver.
Qed.

Lemma find_step_of s : s ∈ steps p -> find_step (step_id s) p = Some s.
Proof. by apply find_by_key_nodup. Qed.

(** The value of an emitted step does not depend on the bound. *)
Lemma ref_value_stable E1 E2 s f1 f2 :
  E = E1 ++ E2 -> s ∈ E1 -> (length E1 < f1)%nat -> (length E1 < f2)%nat ->
  ref_value p sid f1 ns readings (step_id s) = ref_value p sid f2 ns readings (step_id s).
Proof.
  revert E2 s f1 f2. induction E1 as [|s1 E1 IH] using rev_ind; intros E2 s f1 f2 He Hs H1 H2; [by apply elem_of_nil in Hs|].
  rewrite length_app in H1, H2. cbn in H1, H2. rewrite <-(assoc_L (++)) in He. cbn in He.
  apply elem_of_app in Hs as [Hs| ->%list_elem_of_singleton].
  - apply (IH (s1 :: E2)); [done|done|lia|lia].
  - destruct f1 as [|f1]; [lia|]. destruct f2 as [|f2]; [lia|]. cbn [ref_value].
    assert (s1 ∈ steps p) as Hst by (apply Hin; rewrite He; set_solver).
    rewrite (strip_step _ Hst), (find_step_of _ Hst). cbn.
    destruct (ns !! node_var (step_id s1)); cbn; [|done].
    enough (ref_value p sid f1 ns readings (input s1) = ref_value p sid f2 ns readings (input s1)) as -> by done.
    destruct (Horder _ _ _ He) as [[f Hf]|(s' & Hs' & <- & _)].
    + destruct f1 as [|f1]; [lia|]. destruct f2 as [|f2]; [lia|]. cbn [ref_value]. by rewrite Hf.
    + apply (IH (s1 :: E2)); [done|done|lia|lia].
Qed.

(** The equation of an emitted step. *)
Lemma refv_step s :
  s ∈ E -> refv (step_id s) = (n ← ns !! node_var (step_id s); v ← refv (input s); (step_fn n.1 n.2 v).1).
Proof.
  intros Hs. unfold refv at 1. replace (length (steps p) + 2)%nat with (Datatypes.S (length (steps p) + 1)) by lia.
  cbn [ref_value]. rewrite (strip_step _ (Hin _ Hs)), (find_step_of _ (Hin _ Hs)). cbn.
  destruct (ns !! node_var (step_id s)); cbn; [|done].
  enough (ref_value p sid (length (steps p) + 1) ns readings (input s) = refv (input s)) as -> by done.
  apply list_elem_of_split in Hs as (E1 & E2 & He). destruct (Horder _ _ _ He) as [[f Hf]|(s' & Hs' & <- & _)].
  - unfold refv. replace (length (steps p) + 1)%nat with (Datatypes.S (length (steps p))) by lia.
    replace (length (steps p) + 2)%nat with (Datatypes.S (length (steps p) + 1)) by lia. cbn [ref_value]. by rewrite Hf.
  - assert (length E <= length (steps p))%nat as Hl.
    { apply submseteq_length, NoDup_submseteq; [done|]. intros x. apply Hin. }
    rewrite He, length_app in Hl. cbn in Hl. apply (ref_value_stable E1 (s :: E2)); [done|done|lia|lia].
Qed.

Lemma refv_field r f : strip_text prefix r = Some f -> refv r = readings (snake_name f).
Proof.
  intros Hf. unfold refv. replace (length (steps p) + 2)%nat with (Datatypes.S (length (steps p) + 1)) by lia.
  cbn [ref_value]. by rewrite Hf.
Qed.

Lemma same_node s s' : s ∈ E -> s' ∈ E -> node_var (step_id s) = node_var (step_id s') -> s = s'.
Proof. intros Hs Hs' Hv. apply (proj1 (node_var_inj _ _)) in Hv. apply (NoDup_map_inj (fun s => snake_name (step_id s)) (steps p)); [done|by apply Hin..|done]. Qed.

Lemma same_var s s' : s ∈ E -> s' ∈ E -> out_var (step_id s) = out_var (step_id s') -> s = s'.
Proof. intros Hs Hs' Hv. apply (proj1 (out_var_inj _ _)) in Hv. apply (NoDup_map_inj (fun s => snake_name (step_id s)) (steps p)); [done|by apply Hin..|done]. Qed.

(** What the taps on a step's output get in this tick. *)
Definition step_writes s : list ((bool * text) * Val) :=
  match refv (step_id s) with
  | Some v => map (fun wr => (wr, v)) (writes_of p s)
  | None => []
  end.

Abbreviation ref_state' := (ref_state p sid (length (steps p) + 2) ns readings).

(** The chain has run the steps [E1], from the environment [en0]. *)
Record ran (E1 : list Step) en0 en1 : Prop := {
  ran_node : forall s, s ∈ E1 -> nodes en1 !! node_var (step_id s) = ref_state' s;
  ran_other : forall x, (forall s, s ∈ E1 -> x <> node_var (step_id s)) -> nodes en1 !! x = ns !! x;
  ran_var : forall s, s ∈ E1 -> has_var p consumed s = true -> vars en1 !! out_var (step_id s) = Some (refv (step_id s));
  ran_retained : retained en1 = retained (do_writes ts (flat_map step_writes E1) en0);
  ran_events : events en1 = events (do_writes ts (flat_map step_writes E1) en0);
  ran_applied : applied en1 = applied en0;
}.

(** The input of the next step is the value of its reference. *)
Lemma next_input E1 s E2 en0 en1 :
  E = E1 ++ s :: E2 -> ran E1 en0 en1 -> eval_expr readings en1 (input_expr prefix s) = Some (refv (input s)).
Proof.
  intros He Hr. assert (s ∈ steps p) as Hs by (apply Hin; rewrite He; set_solver).
  unfold input_expr. destruct (strip_text prefix (input s)) as [f|] eqn:Hf; cbn.
  - rewrite (refv_field _ _ Hf). destruct (Hread (input s) f) as [v ->]; [|done..].
    unfold references. apply elem_of_app. right. apply elem_of_app. left. by apply list_elem_of_fmap_2.
  - destruct (Horder _ _ _ He) as [[? ?]|(s' & Hs' & <- & Hv)]; [congruence|]. by apply (ran_var _ _ _ Hr).
Qed.

Lemma foldl_writes v en ws : foldl (write_static ts v) en ws = do_writes ts (map (fun wr => (wr, v)) ws) en.
Proof. revert en. induction ws as [|w ws IH]; intros en; cbn; [done|]. apply IH. Qed.

Lemma do_writes_congr W en en' :
  retained en = retained en' -> events en = events en' ->
  retained (do_writes ts W en) = retained (do_writes ts W en') /\ events (do_writes ts W en) = events (do_writes ts W en').
Proof.
  revert en en'. induction W as [|[[b x] v] W IH]; intros en en' Hr He; [done|]. rewrite !do_writes_cons.
  apply IH; unfold write_static; destruct b; cbn; by rewrite ?Hr, ?He.
Qed.

(** The environment after a step: its state, its output, its taps. *)
Definition stepped (s : Step) (n : NodeInit * St) en1 : Env Val St :=
  match refv (input s) with Some v => set_node en1 (node_var (step_id s)) (n.1, (step_fn n.1 n.2 v).2) | None => en1 end.
Definition bound (s : Step) (n : NodeInit * St) en1 : Env Val St :=
  if has_var p consumed s then set_vars (stepped s n en1) (out_var (step_id s)) (refv (step_id s)) else stepped s n en1.
Definition step_done (s : Step) (n : NodeInit * St) en1 : Env Val St := do_writes ts (step_writes s) (bound s n en1).

Lemma step_executes E1 s E2 en0 en1 n :
  E = E1 ++ s :: E2 -> ran E1 en0 en1 -> ns !! node_var (step_id s) = Some n ->
  nodes en1 !! node_var (step_id s) = Some n ->
  exec_all ts readings (step_stmts p prefix consumed s) en1 = Some (step_done s n en1).
Proof.
  intros He Hr Hn Hn1. assert (s ∈ E) as Hs by (rewrite He; set_solver).
  pose proof (refv_step s Hs) as Hval. rewrite Hn in Hval. cbn in Hval.
  unfold step_stmts. cbn [exec_all exec]. rewrite (next_input _ _ _ _ _ He Hr), Hn1. cbn [mbind option_bind].
  assert ((let '(r, en') := match refv (input s) with
             | Some v => let '(r, st') := step_fn n.1 n.2 v in (r, set_node en1 (node_var (step_id s)) (n.1, st'))
             | None => (None, en1) end in
           Some match (if has_var p consumed s then Some (out_var (step_id s)) else None) with
                | Some x => set_vars en' x r | None => en' end) = Some (bound s n en1)) as ->.
  { unfold bound, stepped. destruct (refv (input s)) as [v|]; cbn in Hval; rewrite Hval;
      [destruct (step_fn n.1 n.2 v)|]; by destruct (has_var p consumed s). }
  cbn [mbind option_bind]. unfold step_done, step_writes.
  destruct (writes_of p s) as [|wr ws] eqn:Hws; [by destruct (refv (step_id s))|].
  assert (has_var p consumed s = true) as Hv by (unfold has_var; rewrite Hws; apply orb_true_r).
  assert (vars (bound s n en1) !! out_var (step_id s) = Some (refv (step_id s))) as Hx
    by (unfold bound; rewrite Hv; apply lookup_insert_eq).
  cbn [exec_all exec]. rewrite Hx. cbn [mbind option_bind].
  destruct (refv (step_id s)); [|done]. by rewrite foldl_writes.
Qed.

Lemma ran_extend E1 s E2 en0 en1 n :
  E = E1 ++ s :: E2 -> ran E1 en0 en1 -> ns !! node_var (step_id s) = Some n ->
  (forall s', s' ∈ E1 -> s' ∈ E /\ s' <> s) -> ran (E1 ++ [s]) en0 (step_done s n en1).
Proof.
  intros He Hr Hn Hold. assert (s ∈ E) as Hs by (rewrite He; set_solver).
  assert (retained (bound s n en1) = retained en1 /\ events (bound s n en1) = events en1 /\
    applied (bound s n en1) = applied en1 /\ vars (stepped s n en1) = vars en1 /\
    nodes (bound s n en1) = nodes (stepped s n en1)) as (S1 & S2 & S3 & S4 & S5).
  { unfold bound, stepped. destruct (has_var p consumed s), (refv (input s)); done. }
  destruct (do_writes_same ts (step_writes s) (bound s n en1)) as (D1 & D2 & D3). unfold step_done.
  assert (forall x, x <> node_var (step_id s) -> nodes (stepped s n en1) !! x = nodes en1 !! x) as Hoth.
  { intros x Hx. unfold stepped. destruct (refv (input s)); [|done]. cbn. by apply lookup_insert_ne. }
  split.
  - intros s' [Hs'| ->%list_elem_of_singleton]%elem_of_app; rewrite D1, S5.
    + destruct (Hold _ Hs') as [Hi' Hne]. rewrite <-(ran_node _ _ _ Hr _ Hs'). apply Hoth. intros Hv. by apply Hne, same_node.
    + unfold ref_state, stepped. rewrite Hn. cbn. fold (refv (input s)). destruct (refv (input s)); cbn.
      * by rewrite lookup_insert_eq.
      * rewrite (ran_other _ _ _ Hr); [done|]. intros s' Hs' Hv. destruct (Hold _ Hs') as [Hi' Hne]. by apply Hne, same_node.
  - intros x Hx. rewrite D1, S5, <-(ran_other _ _ _ Hr x) by set_solver. apply Hoth. apply (Hx s). set_solver.
  - intros s' Hs' Hv. rewrite D2. unfold bound.
    apply elem_of_app in Hs' as [Hs'| ->%list_elem_of_singleton]; [|rewrite Hv; apply lookup_insert_eq].
    destruct (Hold _ Hs') as [Hi' Hne]. rewrite <-(ran_var _ _ _ Hr _ Hs' Hv).
    destruct (has_var p consumed s); [|by rewrite S4]. cbn. rewrite S4. apply lookup_insert_ne.
    intros Hvv. by apply Hne, same_var.
  - rewrite flat_map_app, do_writes_app. cbn [flat_map]. rewrite app_nil_r.
    apply do_writes_congr; [by rewrite S1, (ran_retained _ _ _ Hr)|by rewrite S2, (ran_events _ _ _ Hr)].
  - rewrite flat_map_app, do_writes_app. cbn [flat_map]. rewrite app_nil_r.
    apply do_writes_congr; [by rewrite S1, (ran_retained _ _ _ Hr)|by rewrite S2, (ran_events _ _ _ Hr)].
  - by rewrite D3, S3, (ran_applied _ _ _ Hr).
Qed.

Lemma ran_step E1 s E2 en0 en1 :
  E = E1 ++ s :: E2 -> ran E1 en0 en1 ->
  exists en2, exec_all ts readings (step_stmts p prefix consumed s) en1 = Some en2 /\ ran (E1 ++ [s]) en0 en2.
Proof.
  intros He Hr. assert (forall s', s' ∈ E1 -> s' ∈ E /\ s' <> s) as Hold.
  { intros s' Hs'. split; [rewrite He; set_solver|]. intros ->. rewrite He in HE.
    apply NoDup_app in HE as (_ & Hd & _). apply (Hd _ Hs'). set_solver. }
  destruct (Hnodes s) as [n Hn]; [rewrite He; set_solver|].
  exists (step_done s n en1). split; [|by eapply ran_extend].
  eapply step_executes; [done..|]. rewrite (ran_other _ _ _ Hr); [done|].
  intros s' Hs' Hv. destruct (Hold _ Hs') as [Hin' Hne]. apply Hne, same_node; [done|rewrite He; set_solver|done].
Qed.

Lemma chain_runs E1 E2 en0 :
  E = E1 ++ E2 -> nodes en0 = ns ->
  exists en1, exec_all ts readings (flat_map (step_stmts p prefix consumed) E1) en0 = Some en1 /\ ran E1 en0 en1.
Proof.
  revert E2. induction E1 as [|s E1 IH] using rev_ind; intros E2 He Hn.
  - exists en0. split; [done|]. split; try done; try (intros s Hs; by apply elem_of_nil in Hs). by rewrite Hn.
  - rewrite <-(assoc_L (++)) in He. cbn in He. destruct (IH _ He Hn) as (en1 & X1 & R1).
    destruct (ran_step _ _ _ _ _ He R1) as (en2 & X2 & R2). exists en2. split; [|done].
    rewrite flat_map_app, exec_all_app, X1. cbn [mbind option_bind flat_map]. by rewrite app_nil_r.
Qed.

(** ** Taps *)

Context (Hstatics : NoDup (map (fun t => tap_static_name (tap_name t)) (taps p))).
Context (Hdom : forall s, s ∈ steps p -> is_Some (ns !! node_var (step_id s)) -> s ∈ E).

Abbreviation static t := (tap_static_name (tap_name t)).
Abbreviation is_retained t := (bool_decide (tap_kind t = TRetained)).

(** What a tap on a field of the source gets. *)
Definition direct_writes (t : Tap) : list ((bool * text) * Val) :=
  match strip_text prefix (tap_source t) with
  | Some f => match readings (snake_name f) with Some v => [((is_retained t, static t), v)] | None => [] end
  | None => []
  end.

Definition all_writes : list ((bool * text) * Val) := flat_map direct_writes (taps p) ++ flat_map step_writes E.

Lemma direct_exec (l : list Tap) en :
  (forall t, t ∈ l -> t ∈ taps p) ->
  exec_all ts readings (flat_map (direct_stmts prefix) l) en = Some (do_writes ts (flat_map direct_writes l) en).
Proof.
  revert en. induction l as [|t l IH]; intros en Hl; [done|]. cbn [flat_map].
  rewrite exec_all_app, do_writes_app.
  destruct (strip_text prefix (tap_source t)) as [f|] eqn:Hf.
  - destruct (Hread (tap_source t) f) as [v Hv]; [|done|].
    { unfold references. apply elem_of_app. left. apply list_elem_of_fmap_2. apply Hl. set_solver. }
    assert (direct_stmts prefix t = [if is_retained t then TapUpdate (static t) (snake_name f) else TapEmit (static t) (snake_name f)]) as ->
      by (unfold direct_stmts; by rewrite Hf).
    assert (direct_writes t = [((is_retained t, static t), v)]) as -> by (unfold direct_writes; by rewrite Hf, Hv).
    cbn [exec_all]. destruct (is_retained t); cbn [exec]; rewrite Hv; cbn [mbind option_bind]; apply IH; set_solver.
  - assert (direct_stmts prefix t = []) as -> by (unfold direct_stmts; by rewrite Hf).
    assert (direct_writes t = []) as -> by (unfold direct_writes; by rewrite Hf).
    cbn [exec_all mbind option_bind]. apply IH. set_solver.
Qed.

(** The taps whose slots the task writes. *)
Definition written_taps : list Tap :=
  List.filter (fun t => match strip_text prefix (tap_source t) with Some _ => true | None => false end) (taps p)
  ++ flat_map (fun s => List.filter (fun t => text_eqb (tap_source t) (step_id s)) (taps p)) E.

Lemma elem_filter {A} (f : A -> bool) l x : x ∈ List.filter f l <-> x ∈ l /\ f x = true.
Proof. rewrite !list_elem_of_In. apply filter_In. Qed.

Lemma written_taps_nodup : NoDup (map (fun t => static t) written_taps).
Proof.
  assert (NoDup (taps p)) as Htaps by (by eapply NoDup_fmap_1).
  assert (forall f : Tap -> bool, NoDup (List.filter f (taps p))) as Hfilter.
  { intros f. by apply NoDup_ListNoDup, List.NoDup_filter, NoDup_ListNoDup. }
  assert (forall t, t ∈ written_taps -> t ∈ taps p) as Hsub.
  { intros t [Ht|Ht]%elem_of_app; [by apply elem_filter in Ht as [? _]|].
    apply list_elem_of_In, in_flat_map in Ht as (s & _ & Ht). apply list_elem_of_In in Ht. by apply elem_filter in Ht as [? _]. }
  apply NoDup_fmap_2_strong.
  { intros t t' Ht Ht' He. by apply (NoDup_map_inj (fun t => static t) (taps p)); auto. }
  apply NoDup_app. split_and!; [apply Hfilter| |].
  - intros t [_ Ht]%elem_filter Hf. apply list_elem_of_In, in_flat_map in Hf as (s & Hs & Hf).
    apply list_elem_of_In in Hs, Hf. apply elem_filter in Hf as [_ Hf]. apply text_eqb_spec in Hf.
    rewrite Hf, (strip_step s) in Ht by by apply Hin. done.
  - apply NoDup_flat_map; [done|intros; apply Hfilter|].
    intros s s' t Hs Hs' [_ Ht]%elem_filter [_ Ht']%elem_filter. apply text_eqb_spec in Ht, Ht'.
    apply (NoDup_map_inj step_id (steps p)); [done|by apply Hin..|congruence].
Qed.

Lemma targets_nodup : NoDup (targets all_writes).
Proof.
  eapply sublist_NoDup; [apply written_taps_nodup|]. unfold targets, all_writes, written_taps.
  rewrite !map_app. apply sublist_app.
  - clear Hstatics. induction (taps p) as [|t l IH]; [done|]. cbn [flat_map List.filter]. rewrite map_app. unfold direct_writes at 1.
    destruct (strip_text prefix (tap_source t)); [|exact IH]. cbn [map].
    destruct (readings _); cbn [map app fst snd]; [by apply sublist_skip|by apply sublist_cons].
  - rewrite !flat_map_concat_map, !concat_map, !map_map, <-!flat_map_concat_map.
    apply flat_map_sublist. intros s. unfold step_writes, writes_of. destruct (refv (step_id s)); [|apply sublist_nil_l].
    rewrite !map_map. done.
Qed.

(** A reference with a value that is no field is an emitted step. *)
Lemma refv_root r v : strip_text prefix r = None -> refv r = Some v -> exists s, s ∈ E /\ step_id s = r.
Proof.
  intros Hf Hv. unfold refv in Hv. replace (length (steps p) + 2)%nat with (Datatypes.S (length (steps p) + 1)) in Hv by lia.
  cbn [ref_value] in Hv. rewrite Hf in Hv. destruct (find_step r p) as [s|] eqn:Hs; [|done].
  apply (find_by_key step_id) in Hs as [Hs He]. cbn in Hv.
  destruct (ns !! node_var (step_id s)) as [n|] eqn:Hn; [|done].
  exists s. split; [|done]. apply Hdom; [done|by rewrite Hn].
Qed.

(** Every write is that of a tap whose reference has the value. *)
Lemma all_writes_tap b x v :
  ((b, x), v) ∈ all_writes -> exists t, t ∈ taps p /\ b = is_retained t /\ x = static t /\ refv (tap_source t) = Some v.
Proof.
  unfold all_writes. rewrite elem_of_app.
  intros [Hw|Hw]; apply list_elem_of_In, in_flat_map in Hw as (y & Hy & Hw); apply list_elem_of_In in Hy, Hw.
  - unfold direct_writes in Hw. destruct (strip_text prefix (tap_source y)) as [f|] eqn:Hf; [|by apply elem_of_nil in Hw].
    destruct (readings (snake_name f)) as [v'|] eqn:Hv; [|by apply elem_of_nil in Hw].
    apply list_elem_of_singleton, pair_eq in Hw as [[-> ->]%pair_eq ->]. exists y. split_and!; [done..|].
    by rewrite (refv_field _ _ Hf).
  - unfold step_writes in Hw. destruct (refv (step_id y)) as [v'|] eqn:Hv; [|by apply elem_of_nil in Hw].
    apply list_elem_of_fmap in Hw as (wr & [<- ->]%pair_eq & Hw). unfold writes_of in Hw.
    apply list_elem_of_fmap in Hw as (t' & [-> ->]%pair_eq & Hw). apply elem_filter in Hw as [Ht' Hsrc].
    apply text_eqb_spec in Hsrc. exists t'. by rewrite Hsrc.
Qed.

(** A slot gets exactly the values of the references its tap names. *)
Lemma all_writes_elem t v :
  t ∈ taps p -> ((is_retained t, static t), v) ∈ all_writes <-> refv (tap_source t) = Some v.
Proof.
  intros Ht. split.
  - intros (t' & Ht' & _ & Hs & Hv)%all_writes_tap.
    by assert (t = t') as -> by by apply (NoDup_map_inj (fun t => static t) (taps p)).
  - intros Hv. destruct (strip_text prefix (tap_source t)) as [f|] eqn:Hf.
    + apply elem_of_app. left. apply list_elem_of_In, in_flat_map. exists t. split; [by apply list_elem_of_In|]. apply list_elem_of_In.
      unfold direct_writes. rewrite Hf. rewrite (refv_field _ _ Hf) in Hv. rewrite Hv. by apply list_elem_of_singleton.
    + apply elem_of_app. right. destruct (refv_root _ _ Hf Hv) as (s & HsE & He).
      apply list_elem_of_In, in_flat_map. exists s. split; [by apply list_elem_of_In|]. apply list_elem_of_In.
      unfold step_writes. rewrite He, Hv. apply (list_elem_of_fmap_2 (fun wr => (wr, v))). unfold writes_of.
      apply list_elem_of_fmap. exists t. split; [done|]. apply elem_filter. split; [done|].
      by apply text_eqb_spec.
Qed.

(** The slot of a tap whose reference has no value is not written. *)
Lemma all_writes_none t : t ∈ taps p -> refv (tap_source t) = None -> static t ∉ targets all_writes.
Proof.
  intros Ht Hn Hx. apply list_elem_of_fmap in Hx as ([[b x] v] & Hs & Hw). cbn in Hs. subst x.
  apply all_writes_tap in Hw as (t' & Ht' & _ & Hs & Hv).
  assert (t = t') as -> by by apply (NoDup_map_inj (fun t => static t) (taps p)). congruence.
Qed.

(** ** Outlets *)

(** What the driver of an outlet is given. *)
Definition outlet_apply (oi : Outlet * OutletInit) : list (text * Val * Z) :=
  match refv (default [] (out_input oi.1)) with
  | Some v => [(oi_driver oi.2, v, ts)]
  | None => []
  end.

Lemma applies_exec w en0 ois sts en :
  walked p prefix consumed E w -> ran E en0 en ->
  (forall oi, oi ∈ ois -> exists i, oi.1 ∈ outlets p /\ out_input oi.1 = Some i) ->
  Forall2 (fun oi st => emit_apply sid (wk_vars w) (oi_driver oi.2) (default [] (out_input oi.1)) = Ok st) ois sts ->
  exec_all ts readings sts en =
    Some (mkEnv _ _ _ (nodes en) (vars en) (retained en) (events en) (applied en ++ flat_map outlet_apply ois)).
Proof.
  intros Hw Hr Hoi Hf.
  assert (forall ex, vars ex = vars en -> exec_all ts readings sts ex =
    Some (mkEnv _ _ _ (nodes ex) (vars ex) (retained ex) (events ex) (applied ex ++ flat_map outlet_apply ois))) as Hex; [|by apply Hex].
  induction Hf as [|oi st ois sts Hst _ IH]; intros ex Hv.
  - cbn. rewrite app_nil_r. by destruct ex.
  - destruct (Hoi oi) as (i & Ho & Hi); [set_solver|].
    assert (exec ts readings st ex = Some (mkEnv _ _ _ (nodes ex) (vars ex) (retained ex) (events ex) (applied ex ++ outlet_apply oi))) as Hone.
    { unfold outlet_apply. rewrite Hi in *. cbn [from_option] in *. unfold id in *. unfold emit_apply in Hst.
      destruct (strip_text prefix i) as [f|] eqn:Hs.
      - apply res_bind_ok in Hst as (x & ->%snake_ident_eq & [= <-]). cbn [exec]. rewrite (refv_field _ _ Hs). destruct (Hread i f) as [v ->]; [|done..].
        unfold references. do 2 (apply elem_of_app; right). apply list_elem_of_omap. eauto.
      - destruct (im_get i (wk_vars w)) as [x|] eqn:Hx; [|done]. injection Hst as <-.
        apply (wd_vars _ _ _ _ _ Hw) in Hx as (s & HsE & <- & Hh & ->). cbn [exec].
        assert (vars ex !! out_var (step_id s) = Some (refv (step_id s))) as -> by (rewrite Hv; by apply (ran_var _ _ _ Hr)).
        cbn [mbind option_bind]. destruct (refv (step_id s)); [done|]. rewrite app_nil_r. by destruct ex. }
    cbn [exec_all]. rewrite Hone. cbn [mbind option_bind]. rewrite IH by (done || set_solver).
    cbn [nodes vars retained events applied flat_map]. by rewrite (assoc_L (++)).
Qed.

(** ** The whole tick *)

Lemma sample_exact w ois sts en :
  walked p prefix consumed E w -> nodes en = ns ->
  (forall oi, oi ∈ ois -> exists i, oi.1 ∈ outlets p /\ out_input oi.1 = Some i) ->
  Forall2 (fun oi st => emit_apply sid (wk_vars w) (oi_driver oi.2) (default [] (out_input oi.1)) = Ok st) ois sts ->
  exists en', exec_all ts readings (flat_map (direct_stmts prefix) (taps p) ++ wk_chain w ++ sts) en = Some en' /\
    (forall s, s ∈ E -> nodes en' !! node_var (step_id s) = ref_state' s) /\
    (forall x, (forall s, s ∈ E -> x <> node_var (step_id s)) -> nodes en' !! x = ns !! x) /\
    retained en' = retained (do_writes ts all_writes en) /\ events en' = events (do_writes ts all_writes en) /\
    applied en' = applied en ++ flat_map outlet_apply ois.
Proof.
  intros Hw Hn Hoi Hf. rewrite exec_all_app, direct_exec by done. cbn [mbind option_bind].
  destruct (do_writes_same ts (flat_map direct_writes (taps p)) en) as (D1 & D2 & D3).
  destruct (chain_runs E [] (do_writes ts (flat_map direct_writes (taps p)) en)) as (en1 & X1 & R1);
    [by rewrite app_nil_r|by rewrite D1|].
  rewrite exec_all_app, (wd_chain _ _ _ _ _ Hw), X1. cbn [mbind option_bind].
  rewrite (applies_exec _ _ _ _ _ Hw R1 Hoi Hf). eexists; split; [done|]. cbn.
  unfold all_writes. rewrite do_writes_app. destruct R1 as [N1 N2 _ W1 W2 A].
  split_and!; [done..|]. by rewrite A, D3.
Qed.
End Exact.

(** ** Steps and a task, to evaluate runs *)
Module SampleTask.
Import SampleParams SamplePipeline.

(** Values carry the name of their type. *)
Definition value : Type := text * Z.

(** A running sum, a step that passes every second value, and a switch. *)
#[export] Instance sample_steps : Steps value Z := {
  step_new := fun _ => 0;
  step_fn := fun n st v =>
    if text_eqb (ni_op n) (lit "cadence") then (if st =? 0 then Some v else None, 1 - st)
    else if text_eqb (ni_op n) (lit "hysteresis") then (Some (lit "DigitalState", if 30 <=? v.2 then 1 else 0), st)
    else (Some (lit "f32", st + v.2), st + v.2);
}.

Definition bme280 : DriverSchema := default default_schema (im_get (lit "bme280") drivers).
Definition sensor : DeviceEntry := mkDeviceEntry (lit "thermo") (lit "bme280") (lit "i2c0") [(lit "drdy", 20)] [].

Definition task_of (p : PipelineFile) (source : Source) : SourceTask :=
  match emit_source_task source 0 sensor bme280 p (board 20) drivers step_kinds with
  | Ok t => t
  | Err _ => mkSourceTask [] 0 [] 0 [] [] [] [] [] [] []
  end.

Definition temperature (z : Z) : text -> option value := fun _ => Some (lit "f32", z).
Definition good (z ts : Z) : TickInput (Val := value) := mkTickInput true (Some (temperature z)) ts.
Definition bad (ts : Z) : TickInput (Val := value) := mkTickInput true None ts.

Definition after (t : SourceTask) (l : list (TickInput (Val := value))) : TaskState (Val := value) (St := Z) := default (task_new t) (run t l (task_new t)).
End SampleTask.
