(* ===== verification/SourceTaskFacts.v ===== *)
(** * Runs of generated source tasks

    A tick of a generated task computes what the pipeline file means, and a
    task that is not healthy holds no value.  The first needs that names stay
    distinct when they become identifiers, which validation does not check:
    [CodegenValues] has an accepted pipeline where they do not. *)

From S2P Require Import Prelude Text Signal Board Pipeline PipelineFacts Codegen CodegenFacts SourceTask.
From Stdlib Require Import ZArith Lia Strings.String.
From stdpp Require Import base list option sets gmap.

Local Open Scope Z_scope.

Section Nodes.
Context `{Yaml} {Val St : Type} `{!Steps Val St}.

Definition same_nodes (a b : Env Val St) : Prop := forall x, is_Some (nodes a !! x) <-> is_Some (nodes b !! x).

Lemma write_nodes ts v (en : Env Val St) ws : nodes (foldl (write_static ts v) en ws) = nodes en.
Proof.
  revert en. induction ws as [|wr ws IH]; intros en; cbn; [done|]. rewrite IH. by destruct (write_same ts v en wr).
Qed.

(** No statement declares or drops a step. *)
Lemma exec_same_nodes ts readings st (en en' : Env Val St) :
  exec ts readings st en = Some en' -> same_nodes en' en.
Proof.
  destruct st as [x f|x f|out node e|x ws|d f|d x]; cbn [exec].
  - intros (v & _ & [= <-])%bind_Some. done.
  - intros (v & _ & [= <-])%bind_Some. done.
  - intros (i & _ & (n & Hn & Hx)%bind_Some)%bind_Some. intros y.
    assert (forall st', is_Some (nodes (set_node en node (n.1, st')) !! y) <-> is_Some (nodes en !! y)) as Hset.
    { intros st'. cbn. destruct (decide (y = node)) as [->|Hne].
      - rewrite lookup_insert_eq, Hn. naive_solver.
      - by rewrite lookup_insert_ne. }
    destruct i as [v|]; [destruct (step_fn n.1 n.2 v) as [r st'] eqn:Hs|]; injection Hx as <-; destruct out; cbn [set_vars nodes]; done.
  - intros (r & _ & [= <-])%bind_Some. destruct r; [|done]. intros y. by rewrite write_nodes.
  - intros (v & _ & [= <-])%bind_Some. done.
  - intros (r & _ & [= <-])%bind_Some. by destruct r.
Qed.

Lemma exec_all_same_nodes ts readings l (en en' : Env Val St) :
  exec_all ts readings l en = Some en' -> same_nodes en' en.
Proof.
  revert en. induction l as [|st l IH]; intros en; cbn [exec_all]; [by intros [= <-]|].
  intros (en1 & H1%exec_same_nodes & H2%IH)%bind_Some. intros x. by rewrite (H2 x), (H1 x).
Qed.

Lemma clears_nodes xs (en : Env Val St) : nodes (foldl (fun en x => clear_static x en) en xs) = nodes en.
Proof. revert en. induction xs as [|x xs IH]; intros en; cbn; [done|]. by rewrite IH. Qed.

Lemma tick_same_nodes t i s s' : tick t i s = Some s' -> same_nodes (env s') (env s).
Proof.
  unfold tick. case_match; [intros [= <-]; by case_bool_decide|]. destruct (sample i) as [readings|].
  - intros (en & Hx%exec_all_same_nodes & [= <-])%bind_Some. done.
  - intros [= <-]. case_bool_decide; [|done]. cbn. intros x. by rewrite clears_nodes.
Qed.

Lemma init_nodes_dom (l : list NodeInit) x : is_Some (init_nodes (St := St) l !! x) <-> x ∈ map ni_var l.
Proof.
  unfold init_nodes. assert (forall acc : gmap text (NodeInit * St),
    is_Some (foldl (fun acc n => <[ni_var n := (n, step_new n)]> acc) acc l !! x) <-> x ∈ map ni_var l \/ is_Some (acc !! x)) as Hf.
  { induction l as [|n l IH]; intros acc; cbn; [set_solver|]. rewrite IH, elem_of_cons.
    destruct (decide (x = ni_var n)) as [->|Hne].
    - rewrite lookup_insert_eq. naive_solver.
    - rewrite lookup_insert_ne by done. naive_solver. }
  rewrite Hf, lookup_empty. split; [|by left]. intros [?|[? ?]]; done.
Qed.

Lemma run_nodes t l s x :
  run t l (task_new t) = Some s -> is_Some (nodes (env s) !! x) <-> x ∈ map ni_var (st_nodes t).
Proof.
  assert (forall s0, run t l s0 = Some s -> same_nodes (env s) (env s0)) as Hrun.
  { induction l as [|i l IH]; intros s0; cbn; [by intros [= <-]|].
    intros (s1 & H1%tick_same_nodes & H2%IH)%bind_Some. intros y. by rewrite (H2 y), (H1 y). }
  intros Hr. rewrite (Hrun _ Hr x). apply init_nodes_dom.
Qed.
End Nodes.

Section Refinement.
Context `{Yaml} `{Syn} `{Unicode} {Val St : Type} `{!Steps Val St}.
Context (drivers kinds : IndexMap DriverSchema) (hash_order : gmap text nat -> list text) `{!HashOrder hash_order}.

(** The slots of a tap after a tick in which its reference has the value [v]. *)
Definition slots_after (t : Tap) (ts : Z) (v : option Val) (en : Env Val St)
    : option (RetainedSlot Val) * option (EventSlot Val) :=
  let x := tap_static_name (tap_name t) in
  match v with
  | None => (retained en !! x, events en !! x)
  | Some v => if bool_decide (tap_kind t = TRetained) then (Some (Some (ts, v)), events en !! x)
              else (retained en !! x, Some (event_emit v (default event_new (events en !! x))))
  end.

(** Names that stay distinct as identifiers of the generated code. *)
Definition distinct_idents (p : PipelineFile) : Prop :=
  NoDup (map (fun s => snake_name (step_id s)) (steps p)) /\
  NoDup (map (fun t => tap_static_name (tap_name t)) (taps p)).

(** The steps [E] a task has emitted, and its state on them. *)
Record task_steps (p : PipelineFile) (E : list Step) (ns : gmap text (NodeInit * St)) : Prop := {
  ts_in : forall s, s ∈ E -> s ∈ steps p;
  ts_nodup : NoDup E;
  ts_nodes : forall s, s ∈ E -> is_Some (ns !! node_var (step_id s));
  ts_dom : forall s, s ∈ steps p -> is_Some (ns !! node_var (step_id s)) -> s ∈ E;
}.

Lemma task_steps_of (p : PipelineFile) (sid : text) (E : list Step) w (t : SourceTask) hist s :
  NoDup (map (fun s => snake_name (step_id s)) (steps p)) ->
  walked p (prefix_of sid) (consumed_of p sid) E w -> steps p ≡ₚ E ++ wk_next w -> st_nodes t = wk_inits w ->
  run t hist (task_new t) = Some s -> task_steps p E (nodes (env s)).
Proof.
  intros Hsn Hw Hp Hn Hr.
  assert (NoDup (steps p)) as Hnd by by eapply NoDup_fmap_1.
  assert (map ni_var (wk_inits w) = map (fun s => node_var (step_id s)) E) as Hvars.
  { pose proof (wd_inits _ _ _ _ _ Hw) as Hf. clear - Hf. induction Hf as [|s0 n E0 l [Hv _] _ IH]; [done|]. cbn. by rewrite Hv, IH. }
  assert (forall s0, is_Some (nodes (env s) !! node_var (step_id s0)) <-> node_var (step_id s0) ∈ map (fun s => node_var (step_id s)) E) as Hdom.
  { intros s0. rewrite (run_nodes _ _ _ _ Hr), Hn, Hvars. done. }
  assert (forall s, s ∈ E -> s ∈ steps p) as Hin by (intros x Hx; rewrite Hp; set_solver).
  split.
  - done.
  - rewrite Hp in Hnd. by apply NoDup_app in Hnd as (? & _ & _).
  - intros s0 Hs0. apply Hdom. by apply (list_elem_of_fmap_2 (fun s => node_var (step_id s))).
  - intros s0 Hs0 Hx%Hdom. apply list_elem_of_fmap in Hx as (s1 & Hv & Hs1). apply (proj1 (node_var_inj _ _)) in Hv.
    by rewrite (NoDup_map_inj (fun s => snake_name (step_id s)) (steps p) s0 s1 Hsn Hs0 (Hin _ Hs1) Hv).
Qed.

Lemma owned_input p sid (oi : Outlet * OutletInit) inits :
  oi ∈ zip (owned_outlets_for_source sid p) inits -> exists i, oi.1 ∈ outlets p /\ out_input oi.1 = Some i.
Proof.
  intros Hz%zip_fst. apply elem_filter in Hz as [Ho Hi]. destruct (out_input oi.1) as [i|]; [eauto|done].
Qed.

(** One tick with a sample, from any state a run reaches. *)
Lemma tick_exact p m width source idx device schema t hist s i readings :
  accepted drivers kinds p m width ->
  distinct_idents p -> source ∈ sources p ->
  emit_source_task source idx device schema p m drivers kinds = Ok t ->
  run t hist (task_new t) = Some s -> ready s || init_ok i = true -> sample i = Some readings ->
  (forall r f, r ∈ references p -> strip_text (src_id source ++ [char_dot]) r = Some f -> is_Some (readings (snake_name f))) ->
  let value := ref_value p (src_id source) (length (steps p) + 2) (nodes (env s)) readings in
  exists s', tick t i s = Some s' /\ health s' = Up /\ ready s' = true /\
    (forall st, st ∈ steps p -> nodes (env s') !! node_var (step_id st) =
       ref_state p (src_id source) (length (steps p) + 2) (nodes (env s)) readings st) /\
    (forall tp, tp ∈ taps p ->
       (retained (env s') !! tap_static_name (tap_name tp), events (env s') !! tap_static_name (tap_name tp)) =
       slots_after tp (now i) (value (tap_source tp)) (env s)) /\
    applied (env s') = applied (env s) ++
      flat_map (fun oi => match value (default [] (out_input oi.1)) with Some v => [(oi_driver oi.2, v, now i)] | None => [] end)
        (zip (owned_outlets_for_source (src_id source) p) (st_outlets t)).
Proof.
  intros Hv [Hsn Hst] Hsrc He Hrun Hready Hsample Hread. cbn zeta.
  destruct (emit_source_task_ok _ _ _ _ _ _ _ _ _ He) as (E & w & inits & Hw & Hp & _ & Hn & Htw & _ & Hout & _ & _ & applies & Hch & Happ).
  destruct (task_steps_of _ _ _ _ _ _ _ Hsn Hw Hp Hn Hrun) as [Tin Tnd Tno Tdom].
  assert (forall s, s ∈ steps p -> char_dot ∉ step_id s) as Hdots by (intros x Hx; by apply ident_ok_no_dot, (ac_step_ids _ _ _ _ _ Hv)).
  pose proof (ac_steps_nodup _ _ _ _ _ Hv) as Hids.
  destruct (sample_exact p (src_id source) (consumed_of p (src_id source)) E (nodes (env s)) readings (now i)
    Hids Hsn Hdots Tin Tnd (wd_order _ _ _ _ _ Hw) Tno Hread Hst Tdom w (zip (owned_outlets_for_source (src_id source) p) inits) applies
    (mkEnv _ _ _ (nodes (env s)) ∅ (retained (env s)) (events (env s)) (applied (env s))) Hw eq_refl
    (fun oi => owned_input p (src_id source) oi inits) Happ) as (en' & X & N1 & N2 & W1 & W2 & A).
  eexists. split.
  { unfold tick. assert (negb (ready s) && negb (init_ok i) = false) as -> by by destruct (ready s), (init_ok i).
    rewrite Hsample, Htw, Hch, X. done. }
  cbn [health ready env]. split_and!; [done|done| | |].
  - intros st Hs. destruct (nodes (env s) !! node_var (step_id st)) eqn:Hx; [by apply N1, Tdom; [|rewrite Hx]|].
    rewrite N2; [unfold ref_state; by rewrite Hx|]. intros s1 Hs1 Heq. destruct (Tno _ Hs1) as [n Hn1]. congruence.
  - intros tp Htp. rewrite W1, W2. unfold slots_after.
    pose proof (targets_nodup p (src_id source) (consumed_of p (src_id source)) E (nodes (env s)) readings
      Hids Hsn Hdots Tin Tnd (wd_order _ _ _ _ _ Hw) Tno Hread Hst) as Hnd.
    pose proof (fun v => all_writes_elem p (src_id source) E (nodes (env s)) readings Hst Tdom tp v Htp) as Hel.
    unfold refv in Hel. destruct (ref_value _ _ _ _ _ (tap_source tp)) as [v|] eqn:Hval.
    + destruct (do_writes_one (now i) _ (mkEnv _ _ _ (nodes (env s)) ∅ (retained (env s)) (events (env s)) (applied (env s)))
        _ _ _ Hnd (proj2 (Hel v) eq_refl)) as [-> ->]. by case_bool_decide.
    + destruct (do_writes_other (now i) (all_writes p (src_id source) E (nodes (env s)) readings)
        (mkEnv _ _ _ (nodes (env s)) ∅ (retained (env s)) (events (env s)) (applied (env s))) (tap_static_name (tap_name tp))) as [-> ->]; [|done].
      by apply all_writes_none.
  - rewrite A, Hout. done.
Qed.

(** C8. Whatever happened before, when a task generated from an accepted
    pipeline, whose names stay distinct as identifiers, gets a sample with the
    fields the pipeline refers to, the tick runs to its end and computes what
    the file means: every step whose input has a value is stepped once, on its
    own state, whatever the order of the steps in the file; every tap of this
    source holds, or queues, exactly the value of the reference it names, and
    is left alone if that has none, as are the taps of other sources; and
    every outlet the source feeds is given the value of its input. *)
Theorem tick_computes_graph p m width source idx device schema t hist s i readings :
  validate_pipeline_against_manifest drivers kinds hash_order p m width = Some [] ->
  distinct_idents p -> source ∈ sources p ->
  emit_source_task source idx device schema p m drivers kinds = Ok t ->
  run t hist (task_new t) = Some s -> ready s || init_ok i = true -> sample i = Some readings ->
  (forall r f, r ∈ references p -> strip_text (src_id source ++ [char_dot]) r = Some f -> is_Some (readings (snake_name f))) ->
  let value := ref_value p (src_id source) (length (steps p) + 2) (nodes (env s)) readings in
  exists s', tick t i s = Some s' /\ health s' = Up /\ ready s' = true /\
    (forall st, st ∈ steps p -> nodes (env s') !! node_var (step_id st) =
       ref_state p (src_id source) (length (steps p) + 2) (nodes (env s)) readings st) /\
    (forall tp, tp ∈ taps p ->
       (retained (env s') !! tap_static_name (tap_name tp), events (env s') !! tap_static_name (tap_name tp)) =
       slots_after tp (now i) (value (tap_source tp)) (env s)) /\
    applied (env s') = applied (env s) ++
      flat_map (fun oi => match value (default [] (out_input oi.1)) with Some v => [(oi_driver oi.2, v, now i)] | None => [] end)
        (zip (owned_outlets_for_source (src_id source) p) (st_outlets t)).
Proof. intros Hv%validate_accepted; [|done]. by apply tick_exact with (m := m) (width := width) (idx := idx) (device := device) (schema := schema) (hist := hist). Qed.
End Refinement.

(** ** A faulty source holds no value *)

Section Stale.
Context `{Yaml} `{Unicode} {HSyn : Syn} {Val St : Type} `{!Steps Val St}.
Implicit Types (en : Env Val St) (t : SourceTask).

Definition held en (x : text) : Prop := is_Some (default retained_new (retained en !! x)).

(** The retained slots a statement can write. *)
Definition updates (st : Stmt) : list text :=
  match st with
  | TapUpdate x _ => [x]
  | IfSomeWrite _ ws => retained_statics ws
  | _ => []
  end.

Lemma held_update ts x v en y : held (update_static ts x v en) y -> y = x \/ held en y.
Proof.
  unfold held. cbn. destruct (decide (x = y)) as [->|Hne]; [by left|]. rewrite lookup_insert_ne by done. by right.
Qed.

Lemma held_writes ts v ws en y :
  held (foldl (write_static ts v) en ws) y -> y ∈ retained_statics ws \/ held en y.
Proof.
  revert en. induction ws as [|[[] x] ws IH]; intros en; cbn [foldl]; [by right| |].
  - intros [Hy|[->|Hy]%held_update]%IH; [left|left|by right]; unfold retained_statics; cbn; set_solver.
  - intros [Hy|Hy]%IH; [by left|by right].
Qed.

Lemma exec_held ts readings st en en' y :
  exec ts readings st en = Some en' -> held en' y -> y ∈ updates st \/ held en y.
Proof.
  destruct st as [x f|x f|out node e|x ws|d f|d x]; cbn [exec updates].
  - intros (v & _ & [= <-])%bind_Some [->|Hy]%held_update; [set_solver|by right].
  - intros (v & _ & [= <-])%bind_Some. by right.
  - intros (i & _ & (n & _ & Hx)%bind_Some)%bind_Some.
    destruct i as [v|]; [destruct (step_fn n.1 n.2 v)|]; injection Hx as <-; destruct out; by right.
  - intros (r & _ & [= <-])%bind_Some. destruct r; [apply held_writes|by right].
  - intros (v & _ & [= <-])%bind_Some. by right.
  - intros (r & _ & [= <-])%bind_Some. destruct r; by right.
Qed.

Lemma exec_all_held ts readings l en en' y :
  exec_all ts readings l en = Some en' -> held en' y -> y ∈ flat_map updates l \/ held en y.
Proof.
  revert en. induction l as [|st l IH]; intros en; cbn [exec_all]; [intros [= <-]; by right|].
  intros (en1 & H1 & H2)%bind_Some Hy. cbn [flat_map]. rewrite elem_of_app.
  destruct (IH _ H2 Hy) as [?|Hy1]; [by left; right|]. destruct (exec_held _ _ _ _ _ _ H1 Hy1); [by left; left|by right].
Qed.

Lemma clears_held xs en y : held (foldl (fun en x => clear_static x en) en xs) y -> y ∉ xs /\ held en y.
Proof.
  revert en. induction xs as [|x xs IH]; intros en; cbn [foldl]; [set_solver|].
  intros [Hn Hy]%IH. unfold held in Hy. cbn in Hy. destruct (decide (x = y)) as [->|Hne].
  - rewrite lookup_insert_eq in Hy. by destruct Hy.
  - rewrite lookup_insert_ne in Hy by done. set_solver.
Qed.

(** The emitted task clears every retained slot it writes. *)
Lemma emitted_clears drivers kinds source idx device schema p m t :
  emit_source_task source idx device schema p m drivers kinds = Ok t ->
  forall y, y ∈ flat_map updates (st_tap_writes t ++ st_chain t) -> y ∈ st_clears t.
Proof.
  intros He. destruct (emit_source_task_ok _ _ _ _ _ _ _ _ _ He)
    as (E & w & inits & Hw & _ & _ & _ & Htw & Hcl & _ & _ & _ & applies & Hch & Happ).
  intros y. rewrite Hch, Hcl, Htw, (wd_chain _ _ _ _ _ Hw), (wd_clears _ _ _ _ _ Hw), !flat_map_app, !elem_of_app.
  assert (forall A B (f : A -> list B) l x, x ∈ flat_map f l <-> exists a, a ∈ l /\ x ∈ f a) as Hfm.
  { intros A B f l x. rewrite list_elem_of_In, in_flat_map. by setoid_rewrite <-list_elem_of_In. }
  intros [Hy|[Hy|Hy]].
  - left. apply Hfm in Hy as (st & Hst & Hy). apply Hfm. exists st. split; [done|].
    apply Hfm in Hst as (tp & _ & Hst). unfold direct_stmts in Hst. destruct (strip_text _ _); [|by apply elem_of_nil in Hst].
    apply list_elem_of_singleton in Hst as ->. by case_bool_decide.
  - right. apply Hfm in Hy as (st & Hst & Hy). apply Hfm in Hst as (s & Hs & Hst). apply Hfm. exists s. split; [done|].
    unfold step_stmts in Hst. apply elem_of_cons in Hst as [->|Hst]; [by apply elem_of_nil in Hy|].
    destruct (writes_of p s) as [|wr ws]; [by apply elem_of_nil in Hst|]. by apply list_elem_of_singleton in Hst as ->.
  - exfalso. apply Hfm in Hy as (st & Hst & Hy). apply list_elem_of_lookup in Hst as (k & Hk).
    destruct (Forall2_lookup_r _ _ _ _ _ Happ Hk) as (oi & _ & Ha). unfold emit_apply in Ha.
    destruct (strip_text _ _); [apply res_bind_ok in Ha as (x & _ & Ha)|destruct (im_get _ _)]; try done;
      injection Ha as <-; by apply elem_of_nil in Hy.
Qed.

(** Only slots that are cleared hold values, and only while the task is up. *)
Lemma tick_keeps_clear t i s s' :
  (forall y, y ∈ flat_map updates (st_tap_writes t ++ st_chain t) -> y ∈ st_clears t) ->
  (forall y, held (env s) y -> y ∈ st_clears t) /\ (health s <> Up \/ ready s = false -> forall y, ~ held (env s) y) ->
  tick t i s = Some s' ->
  (forall y, held (env s') y -> y ∈ st_clears t) /\ (health s' <> Up \/ ready s' = false -> forall y, ~ held (env s') y).
Proof.
  intros Hc [I1 I2]. unfold tick. destruct (negb (ready s) && negb (init_ok i)) eqn:Hd.
  - apply andb_prop in Hd as [Hd _]. intros [= <-].
    assert (ready s = false) as Hrd by by destruct (ready s).
    case_bool_decide; cbn [env health ready]; (split; [done|]); intros _; apply I2; by right.
  - destruct (sample i) as [readings|].
    + intros (en & Hx & [= <-])%bind_Some. cbn [env health ready]. split; [|intros [?|?]; done].
      intros y Hy. destruct (exec_all_held _ _ _ _ _ _ Hx Hy) as [Hu|Hh]; [by apply Hc|by apply I1].
    + intros [= <-]. case_bool_decide as Hup; cbn [env health ready].
      * split; [intros y [_ Hy]%clears_held; by apply I1|]. intros _ y [Hn Hy]%clears_held. by apply Hn, I1.
      * split; [done|]. intros _. apply I2. by left.
Qed.

(** C22. In every run of a generated task, whenever the source is not healthy,
    or has to be brought up again, none of the retained slots the task writes
    holds a value, so that a reader is told there is none instead of being
    given one from before the fault. *)
Theorem faulty_source_holds_nothing drivers kinds source idx device schema p m t hist s :
  emit_source_task source idx device schema p m drivers kinds = Ok t ->
  run t hist (task_new t) = Some s -> health s <> Up \/ ready s = false ->
  forall x, retained_read (default retained_new (retained (env s) !! x)) = None.
Proof.
  intros He Hr Hbad x. pose proof (emitted_clears _ _ _ _ _ _ _ _ _ He) as Hc.
  enough ((forall y, held (env s) y -> y ∈ st_clears t) /\
          (health s <> Up \/ ready s = false -> forall y, ~ held (env s) y)) as [_ Hn].
  { specialize (Hn Hbad x). unfold held in Hn. destruct (default retained_new (retained (env s) !! x)); [|done].
    exfalso. apply Hn. eauto. }
  assert (forall s0 : TaskState, (forall y, held (env s0) y -> y ∈ st_clears t) /\
      (health s0 <> Up \/ ready s0 = false -> forall y, ~ held (env s0) y) ->
    run t hist s0 = Some s ->
    (forall y, held (env s) y -> y ∈ st_clears t) /\
    (health s <> Up \/ ready s = false -> forall y, ~ held (env s) y)) as Hrun.
  { clear Hr Hbad. induction hist as [|i hist IH]; intros s0 Hs0; cbn [run]; [by intros [= <-]|].
    intros (s1 & H1 & H2)%bind_Some. eapply IH; [|exact H2]. by eapply tick_keeps_clear. }
  apply (Hrun (task_new t)); [|done]. split; [|intros _]; intros y [? Hy]; cbn in Hy; by rewrite lookup_empty in Hy.
Qed.
End Stale.

Import SampleParams SamplePipeline SampleTask.

Lemma sample_distinct : distinct_idents pipeline.
Proof. split; apply (bool_decide_unpack _); vm_compute; exact I. Qed.

Lemma tick_computes_graph_witness :
  exists s', tick (task_of pipeline thermo) (good 35 7) (task_new (task_of pipeline thermo)) = Some s' /\ health s' = Up.
Proof.
  destruct (tick_computes_graph drivers step_kinds keys_order pipeline (board 20) 32 thermo 0 sensor bme280
    (task_of pipeline thermo) [] (task_new (task_of pipeline thermo)) (good 35 7) (temperature 35)) as (s' & Ht & Hh & _).
  - exact pipeline_accepted.
  - exact sample_distinct.
  - apply list_elem_of_singleton. reflexivity.
  - vm_refl.
  - reflexivity.
  - reflexivity.
  - reflexivity.
  - intros r f _ _. eexists. reflexivity.
  - exists s'. split; [exact Ht|exact Hh].
Defined.

Lemma some_default {A} (o : option A) d : is_Some o -> o = Some (default d o).
Proof. by intros [x ->]. Qed.

(** After a good sample and a failed one. *)
Definition after_fault := after (task_of pipeline thermo) [good 35 7; bad 8].

Lemma faulty_source_holds_nothing_witness :
  health after_fault = Degraded /\
  retained_read (default retained_new (retained (env after_fault) !! lit "TAP_RAW")) = None.
Proof.
  assert (health after_fault = Degraded) as Hh by (vm_compute; reflexivity).
  split; [exact Hh|].
  apply (faulty_source_holds_nothing drivers step_kinds thermo 0 sensor bme280 pipeline (board 20)
    (task_of pipeline thermo) [good 35 7; bad 8] after_fault).
  - vm_refl.
  - apply some_default, is_Some_alt. vm_compute. exact I.
  - left. rewrite Hh. discriminate.
Defined.
