(* ===== verification/SourceTypes.v ===== *)
(** * Types in generated source tasks

    The descriptors of drivers and steps are promises about code that is not
    generated ([Contract]).  If they are kept, every value a task generated
    from an accepted pipeline puts into a slot or gives to an output driver
    has the type the pipeline declares for it, in every run. *)

From S2P Require Import Prelude Text Signal Board Pipeline PipelineFacts Codegen CodegenFacts SourceTask SourceTaskFacts.
From Stdlib Require Import ZArith Lia Strings.String.
From stdpp Require Import base list option sets gmap.

Local Open Scope Z_scope.

(** The step accepts inputs of the type [ti]; it gives values of [output_type]. *)
Definition accepts `{Yaml} (schema : DriverSchema) (ti : text) : Prop :=
  match inputs schema with i :: _ => di_type i = ti | [] => True end.

Definition output_type `{Yaml} (schema : DriverSchema) (ti : text) : text :=
  match outputs schema with o :: _ => do_type o | [] => ti end.

(** What the descriptors of steps promise: a state may depend on the type of
    the inputs, as that of a step that repeats its last value does. *)
Class Contract `{Yaml} (Val St : Type) `{!Steps Val St} (kinds : IndexMap DriverSchema) := {
  has_type : Val -> text -> Prop;
  state_ok : NodeInit -> text -> St -> Prop;
  new_ok : forall n schema ti, im_get (ni_op n) kinds = Some schema -> accepts schema ti -> state_ok n ti (step_new n);
  step_ok : forall n schema ti st v, im_get (ni_op n) kinds = Some schema -> accepts schema ti ->
    state_ok n ti st -> has_type v ti ->
    state_ok n ti (step_fn n st v).2 /\ forall o, (step_fn n st v).1 = Some o -> has_type o (output_type schema ti);
}.

Section Types.
Context `{Yaml} `{Syn} `{Unicode} {Val St : Type} `{!Steps Val St}.
Context (drivers kinds : IndexMap DriverSchema) `{!Contract Val St kinds}.
Context (hash_order : gmap text nat -> list text) `{!HashOrder hash_order}.
Implicit Types (p : PipelineFile) (m : BoardManifest).

(** What the descriptor of a sensor promises of its readings. *)
Definition readings_typed (schema : DriverSchema) (readings : text -> option Val) : Prop :=
  forall o v, o ∈ outputs schema -> readings (snake_name (do_name o)) = Some v -> has_type v (do_type o).

(** A longer search finds no other type. *)
Lemma producer_type_unique d1 d2 r p m a b :
  producer_type_bounded drivers kinds d1 r p m = Some a ->
  producer_type_bounded drivers kinds d2 r p m = Some b -> a = b.
Proof.
  revert d2 r. induction d1 as [|d1 IH]; intros d2 r; [done|]. destruct d2 as [|d2]; [done|]. cbn [producer_type_bounded].
  destruct (split_once char_dot r) as [[o f]|].
  - intros Ha Hb. congruence.
  - destruct (find_step r p) as [s|]; [|done]. cbn. destruct (im_get (op s) kinds) as [sc|]; [|done]. cbn.
    destruct (outputs sc); [|congruence]. apply IH.
Qed.

Section Source.
Context (p : PipelineFile) (m : BoardManifest) (width : Z) (source : Source) (device : DeviceEntry) (schema : DriverSchema).
Context (Hacc : accepted drivers kinds p m width) (Hsrc : source ∈ sources p).
Context (Hdev : find_device (src_device source) m = Some device) (Hschema : im_get (driver device) drivers = Some schema).
Context (Hres : forall s, s ∈ steps p -> is_Some (producer_type drivers kinds (input s) p m)).

Context (Hkinds : forall s, s ∈ steps p -> is_Some (im_get (op s) kinds)).

Abbreviation sid := (src_id source).

Lemma sid_no_dot : char_dot ∉ sid.
Proof. by apply ident_ok_no_dot, (ac_source_ids _ _ _ _ _ Hacc). Qed.

(** The states of the steps suit the types of their inputs. *)
Definition states_ok (ns : gmap text (NodeInit * St)) : Prop :=
  forall s n ti, s ∈ steps p -> ns !! node_var (step_id s) = Some n ->
    producer_type drivers kinds (input s) p m = Some ti -> ni_op n.1 = op s /\ state_ok n.1 ti n.2.

Lemma step_accepts s sc ti :
  s ∈ steps p -> im_get (op s) kinds = Some sc -> producer_type drivers kinds (input s) p m = Some ti -> accepts sc ti.
Proof.
  intros Hs Hsc Hti. pose proof (ac_types _ _ _ _ _ Hacc) as Ht. unfold check_type_compatibility in Ht.
  apply app_nil in Ht as [Ht _]. pose proof (proj1 (flat_map_nil _ _) Ht s Hs) as Hx. cbn beta in Hx.
  rewrite Hsc in Hx. unfold accepts. destruct (inputs sc) as [|i l]; [done|]. rewrite Hti in Hx.
  destruct (text_eqb ti (di_type i)) eqn:He; [|done]. by apply text_eqb_spec in He.
Qed.

(** The value of a reference has the type of its producer. *)
Lemma ref_value_typed fuel ns readings r v d ty :
  states_ok ns -> readings_typed schema readings ->
  ref_value p sid fuel ns readings r = Some v -> producer_type_bounded drivers kinds d r p m = Some ty -> has_type v ty.
Proof.
  intros Hns Hrd. revert r v d ty. induction fuel as [|fuel IH]; intros r v d ty; [done|].
  destruct d as [|d]; [done|]. cbn [ref_value producer_type_bounded].
  destruct (strip_text (prefix_of sid) r) as [f|] eqn:Hf.
  - apply strip_owner in Hf; [|apply sid_no_dot]. rewrite Hf.
    assert (find_source sid p = Some source) as ->
      by (apply (find_by_key_nodup src_id); [apply (ac_sources_nodup _ _ _ _ _ Hacc)|done]).
    unfold device_output. rewrite Hdev. cbn. rewrite Hschema. cbn. intros Hv (o & Ho & ->)%fmap_Some.
    apply (find_by_key do_name) in Ho as [Ho <-]. by apply (Hrd o).
  - destruct (find_step r p) as [s|] eqn:Hs; [|done]. cbn.
    destruct (ns !! node_var (step_id s)) as [n|] eqn:Hn; [|done]. cbn.
    destruct (ref_value p sid fuel ns readings (input s)) as [vi|] eqn:Hvi; [|done]. cbn. intros Hv.
    pose proof (find_by_key step_id _ _ _ Hs) as [Hin He]. subst r.
    assert (split_once char_dot (step_id s) = None) as ->.
    { apply split_once_none. destruct (contains_char char_dot (step_id s)) eqn:Hc; [|done].
      apply contains_char_spec in Hc. exfalso. revert Hc. by apply ident_ok_no_dot, (ac_step_ids _ _ _ _ _ Hacc). }
    destruct (Hres s Hin) as [ti Hti]. destruct (Hns s n ti Hin Hn Hti) as [Hop Hst].
    pose proof (IH _ _ _ _ Hvi Hti) as Hvt. destruct (im_get (op s) kinds) as [sc|] eqn:Hsc; [|done]. cbn.
    pose proof (step_accepts _ _ _ Hin Hsc Hti) as Hacc'. rewrite <-Hop in Hsc.
    destruct (step_ok n.1 sc ti n.2 vi Hsc Hacc' Hst Hvt) as [_ Ho]. specialize (Ho _ Hv). unfold output_type in Ho.
    destruct (outputs sc) as [|o l]; [|by intros [= <-]]. intros Hty.
    by rewrite (producer_type_unique _ _ _ _ _ _ _ Hty Hti).
Qed.

Lemma states_ok_step ns ns' readings :
  states_ok ns -> readings_typed schema readings ->
  (forall s, s ∈ steps p -> ns' !! node_var (step_id s) = ref_state p sid (length (steps p) + 2) ns readings s) ->
  states_ok ns'.
Proof.
  intros Hns Hrd Hns' s n ti Hs Hn Hti. rewrite (Hns' s Hs) in Hn. unfold ref_state in Hn.
  destruct (ns !! node_var (step_id s)) as [n0|] eqn:Hn0; [|done]. cbn in Hn.
  destruct (Hns s n0 ti Hs Hn0 Hti) as [Hop Hst].
  destruct (ref_value p sid (length (steps p) + 2) ns readings (input s)) as [v|] eqn:Hv; injection Hn as <-; [|done].
  cbn. split; [done|]. destruct (Hkinds s Hs) as [sc Hsc].
  pose proof (step_accepts _ _ _ Hs Hsc Hti) as Ha. rewrite <-Hop in Hsc.
  apply (step_ok n0.1 sc ti n0.2 v Hsc Ha Hst). by eapply ref_value_typed.
Qed.

(** ** Runs *)

Context (idx : Z) (t : SourceTask) (Hidents : distinct_idents p).
Context (Ht : emit_source_task source idx device schema p m drivers kinds = Ok t).

(** The value types of the slots and outlets of a task. *)
Record typed_task (s : TaskState) : Prop := {
  tt_states : states_ok (nodes (env s));
  tt_retained : forall tp ts v, tp ∈ taps p -> is_Some (producer_type drivers kinds (tap_source tp) p m) ->
    retained (env s) !! tap_static_name (tap_name tp) = Some (Some (ts, v) : RetainedSlot Val) -> has_type v (tap_type tp);
  tt_events : forall tp v, tp ∈ taps p -> is_Some (producer_type drivers kinds (tap_source tp) p m) ->
    v ∈ default event_new (events (env s) !! tap_static_name (tap_name tp)) -> has_type v (tap_type tp);
  tt_applied : forall d v ts, (d, v, ts) ∈ applied (env s) ->
    exists oi, oi ∈ zip (owned_outlets_for_source sid p) (st_outlets t) /\ d = oi_driver oi.2 /\ has_type v (out_type oi.1);
}.

Lemma tap_typed tp ty : tp ∈ taps p -> producer_type drivers kinds (tap_source tp) p m = Some ty -> ty = tap_type tp.
Proof.
  intros Htp Hty. pose proof (ac_types _ _ _ _ _ Hacc) as Hc. unfold check_type_compatibility in Hc.
  apply app_nil in Hc as [_ Hc]. pose proof (proj1 (flat_map_nil _ _) Hc tp Htp) as Hx. cbn beta in Hx.
  rewrite Hty in Hx. destruct (text_eqb ty (tap_type tp)) eqn:He; [|done]. by apply text_eqb_spec in He.
Qed.

Lemma outlet_typed o i :
  o ∈ outlets p -> out_input o = Some i -> producer_type drivers kinds i p m = Some (out_type o).
Proof.
  intros Ho Hi. pose proof (ac_outlets _ _ _ _ _ Hacc _ Ho) as He. unfold outlet_errors in He.
  repeat (apply app_nil in He as [_ He]). destruct (im_get (out_device o) (device_map m)); [|done].
  apply app_nil in He as [_ He]. rewrite Hi in He. destruct (producer_type drivers kinds i p m) as [a|]; [|done].
  destruct (text_eqb a (out_type o)) eqn:Ha; [|done]. apply text_eqb_spec in Ha. by rewrite Ha.
Qed.

Lemma init_nodes_lookup (l : list NodeInit) x n :
  init_nodes (St := St) l !! x = Some n -> n.1 ∈ l /\ ni_var n.1 = x /\ n.2 = step_new n.1.
Proof.
  unfold init_nodes. assert (forall acc : gmap text (NodeInit * St),
    foldl (fun acc n => <[ni_var n := (n, step_new n)]> acc) acc l !! x = Some n ->
    (n.1 ∈ l /\ ni_var n.1 = x /\ n.2 = step_new n.1) \/ acc !! x = Some n) as Hf; [|by intros [?|?]%Hf].
  induction l as [|n0 l IH]; intros acc; cbn; [by right|]. intros [(? & ? & ?)|Hx]%IH; [left; set_solver|].
  destruct (decide (ni_var n0 = x)) as [<-|Hne].
  - rewrite lookup_insert_eq in Hx. injection Hx as <-. left. cbn. set_solver.
  - rewrite lookup_insert_ne in Hx by done. by right.
Qed.

Lemma typed_new : typed_task (task_new t).
Proof.
  split; cbn [task_new env nodes retained events applied].
  - intros s n ti Hs (Hin & Hvar & Hst)%init_nodes_lookup Hti.
    destruct (emit_source_task_ok _ _ _ _ _ _ _ _ _ Ht) as (E & w & inits & Hw & Hp & _ & Hn & _).
    rewrite Hn in Hin. apply list_elem_of_lookup in Hin as (k & Hk).
    destruct (Forall2_lookup_r _ _ _ _ _ (wd_inits _ _ _ _ _ Hw) Hk) as (s' & Hs' & Hv' & Hop).
    assert (s' ∈ steps p) as Hin' by (rewrite Hp; apply list_elem_of_lookup_2 in Hs'; set_solver).
    rewrite Hvar in Hv'. apply (proj1 (node_var_inj _ _)) in Hv'.
    assert (s = s') as <- by by apply (NoDup_map_inj (fun s => snake_name (step_id s)) (steps p)); [apply Hidents|..].
    split; [done|]. rewrite Hst. destruct (Hkinds s Hs) as [sc Hsc]. apply (new_ok _ sc).
    + by rewrite Hop.
    + by eapply step_accepts.
  - intros tp ts v _ _. by rewrite lookup_empty.
  - intros tp v _ _. rewrite lookup_empty. intros Hv. by apply elem_of_nil in Hv.
  - intros d v ts Hv. by apply elem_of_nil in Hv.
Qed.

(** A tick without a sample writes no value. *)
Lemma quiet_tick i s s' :
  tick t i s = Some s' -> (exists readings, sample i = Some readings /\ ready s || init_ok i = true) \/
  (nodes (env s') = nodes (env s) /\ events (env s') = events (env s) /\ applied (env s') = applied (env s) /\
   forall x w, retained (env s') !! x = Some (Some w : RetainedSlot Val) -> retained (env s) !! x = Some (Some w : RetainedSlot Val)).
Proof.
  unfold tick. destruct (negb (ready s) && negb (init_ok i)) eqn:Hd.
  - intros [= <-]. right. by case_bool_decide.
  - destruct (sample i) as [readings|].
    + intros _. left. exists readings. split; [done|]. by destruct (ready s), (init_ok i).
    + intros [= <-]. right. case_bool_decide; [|done]. cbn [env].
      assert (forall xs (en : Env Val St), let en' := foldl (fun en x => clear_static x en) en xs in
        nodes en' = nodes en /\ events en' = events en /\ applied en' = applied en /\
        forall x w, retained en' !! x = Some (Some w : RetainedSlot Val) -> retained en !! x = Some (Some w : RetainedSlot Val)) as Hc; [|apply Hc].
      induction xs as [|y xs IH]; intros en; cbn; [done|].
      destruct (IH (clear_static y en)) as (-> & -> & -> & Hx). split_and!; [done..|].
      intros x w Hw%Hx. cbn in Hw. destruct (decide (y = x)) as [->|Hne].
      * by rewrite lookup_insert_eq in Hw.
      * by rewrite lookup_insert_ne in Hw.
Qed.

(** A sample with the fields the pipeline refers to, of the declared types. *)
Definition good_sample (i : TickInput) : Prop :=
  forall readings, sample i = Some readings -> readings_typed schema readings /\
    forall r f, r ∈ references p -> strip_text (prefix_of sid) r = Some f -> is_Some (readings (snake_name f)).

Lemma typed_tick hist i s s' :
  run t hist (task_new t) = Some s -> good_sample i -> typed_task s -> tick t i s = Some s' -> typed_task s'.
Proof.
  intros Hrun Hgood [T1 T2 T3 T4] Htick.
  destruct (quiet_tick _ _ _ Htick) as [(readings & Hsample & Hready)|(E1 & E2 & E3 & E4)].
  - destruct (Hgood _ Hsample) as [Hty Hread].
    destruct (tick_exact drivers kinds hash_order p m width source idx device schema t hist s i readings
      Hacc Hidents Hsrc Ht Hrun Hready Hsample Hread) as (s1 & Htick1 & _ & _ & N & W & A).
    rewrite Htick in Htick1. injection Htick1 as <-.
    assert (forall tp v, tp ∈ taps p -> is_Some (producer_type drivers kinds (tap_source tp) p m) ->
      ref_value p sid (length (steps p) + 2) (nodes (env s)) readings (tap_source tp) = Some v -> has_type v (tap_type tp)) as Hv.
    { intros tp v Htp [ty Hp] Hval. rewrite <-(tap_typed _ _ Htp Hp). by eapply ref_value_typed. }
    split.
    + by apply (states_ok_step (nodes (env s)) _ readings).
    + intros tp ts v Htp Hp Hx. pose proof (W tp Htp) as Hw. unfold slots_after in Hw.
      destruct (ref_value _ _ _ _ _ (tap_source tp)) as [v0|] eqn:Hval; [case_bool_decide|]; injection Hw as Hw _; rewrite Hw in Hx.
      * injection Hx as _ ->. by apply Hv.
      * by apply (T2 tp ts).
      * by apply (T2 tp ts).
    + intros tp v Htp Hp Hx. pose proof (W tp Htp) as Hw. unfold slots_after in Hw.
      destruct (ref_value _ _ _ _ _ (tap_source tp)) as [v0|] eqn:Hval; [case_bool_decide|]; injection Hw as _ Hw; rewrite Hw in Hx.
      * by apply (T3 tp).
      * cbn [from_option] in Hx. unfold id in Hx. apply event_emit_elem in Hx as [->|Hx]; [by apply Hv|by apply (T3 tp)].
      * by apply (T3 tp).
    + intros d v ts. rewrite A, elem_of_app. intros [Hd|Hd]; [by apply (T4 d v ts)|].
      apply list_elem_of_In, in_flat_map in Hd as (oi & Hoi & Hd). apply list_elem_of_In in Hoi, Hd.
      destruct (owned_input _ _ _ _ Hoi) as (i0 & Ho & Hi0). rewrite Hi0 in Hd. cbn [from_option] in Hd. unfold id in Hd.
      destruct (ref_value _ _ _ _ _ i0) as [v0|] eqn:Hval; [|by apply elem_of_nil in Hd].
      apply list_elem_of_singleton in Hd as [= -> -> _]. exists oi. split_and!; [done..|].
      eapply ref_value_typed; [done..|exact Hval|]. by eapply outlet_typed.
  - split.
    + by rewrite E1.
    + intros tp ts v Htp Hp Hx%E4. by apply (T2 tp ts).
    + rewrite E2. done.
    + rewrite E3. done.
Qed.

Lemma run_app l1 l2 (s0 : TaskState) : run t (l1 ++ l2) s0 = (s1 ← run t l1 s0; run t l2 s1).
Proof. revert s0. induction l1 as [|i l1 IH]; intros s0; cbn; [done|]. destruct (tick t i s0); cbn; [apply IH|done]. Qed.

Lemma typed_run hist s : (forall i, i ∈ hist -> good_sample i) -> run t hist (task_new t) = Some s -> typed_task s.
Proof.
  revert s. induction hist as [|i hist IH] using rev_ind; intros s Hg.
  - intros [= <-]. apply typed_new.
  - rewrite run_app. intros (s1 & Hr & Hx)%bind_Some. cbn in Hx. apply bind_Some in Hx as (s2 & Ht2 & [= <-]).
    apply (typed_tick hist i s1 s2 Hr (Hg i ltac:(set_solver))); [|done]. apply IH; [|done]. intros i' Hi'. apply Hg. set_solver.
Qed.
End Source.

(** If the drivers and steps keep what their descriptors declare, then in
    every run of the task generated for a source of an accepted pipeline whose
    references all resolve, every value in a slot and every value given to an
    output driver has the type the pipeline declares for the tap or outlet. *)
Lemma generated_values_typed p m width source device schema idx t hist s :
  validate_pipeline_against_manifest drivers kinds hash_order p m width = Some [] ->
  source ∈ sources p -> find_device (src_device source) m = Some device -> im_get (driver device) drivers = Some schema ->
  (forall s, s ∈ steps p -> is_Some (im_get (op s) kinds) /\ is_Some (producer_type drivers kinds (input s) p m)) ->
  (forall tp, tp ∈ taps p -> is_Some (producer_type drivers kinds (tap_source tp) p m)) ->
  distinct_idents p ->
  emit_source_task source idx device schema p m drivers kinds = Ok t ->
  (forall i, i ∈ hist -> good_sample p source schema i) ->
  run t hist (task_new t) = Some s ->
  (forall tp, tp ∈ taps p ->
    (forall ts v, retained_read (default retained_new (retained (env s) !! tap_static_name (tap_name tp))) = Some (ts, v) ->
      has_type v (tap_type tp)) /\
    (forall v, v ∈ default event_new (events (env s) !! tap_static_name (tap_name tp)) -> has_type v (tap_type tp))) /\
  (forall d v ts, (d, v, ts) ∈ applied (env s) -> exists oi,
    oi ∈ zip (owned_outlets_for_source (src_id source) p) (st_outlets t) /\ d = oi_driver oi.2 /\ has_type v (out_type oi.1)).
Proof.
  intros Hv%validate_accepted Hsrc Hd Hsc Hst Htp Hid He Hg Hr; [|done].
  destruct (typed_run p m width source device schema Hv Hsrc Hd Hsc (fun s Hs => proj2 (Hst s Hs)) (fun s Hs => proj1 (Hst s Hs))
    idx t Hid He hist s Hg Hr) as [_ T2 T3 T4].
  split; [|done]. intros tp Hin. split; [|intros v; by apply T3; [|apply Htp]].
  intros ts v Hx. apply (T2 tp ts); [done|by apply Htp|].
  destruct (retained (env s) !! tap_static_name (tap_name tp)) as [r|]; [|done]. by rewrite <-Hx.
Qed.
End Types.
