(* ===== verification/SinkTask.v ===== *)
(** * Generated sink tasks at work

    The loop [emit_sink_task] generates for an outlet that cells write
    ([pipeline-codegen/src/emit/sink_task.rs]): apply the latest command when
    its time differs from that of the last one applied, then read the device
    back.  Runs interleave it with the writes of cells, which go through the
    byte interface of the slot.  The output driver is a parameter: what it
    answers comes with each turn. *)

From S2P Require Import Prelude Bytes Text Signal Board Pipeline Codegen.
From Stdlib Require Import ZArith Lia Strings.String.
From stdpp Require Import base list option sets gmap sorting.

Local Open Scope Z_scope.

Inductive OutletFault := WriteFailed | ReadFailed.

Section Sink.
Context `{Yaml} {Val : Type} `{Wire Val}.

Record SinkState := mkSinkState {
  slot : RetainedSlot Val;
  last_ts : option Z;
  done_cmds : list (Z * Val);
  status : gmap text (RetainedSlot Val);
  faults : EventSlot OutletFault;
}.

Definition sink_new : SinkState := mkSinkState retained_new None [] ∅ event_new.

(** What the driver answers in a turn: whether [apply] succeeds, and what
    [read_status] gives. *)
Record SinkInput := mkSinkInput { sk_now : Z; apply_ok : bool; status_read : option (text -> option Val) }.

Definition fault (t : SinkTask) (f : OutletFault) (q : EventSlot OutletFault) : EventSlot OutletFault :=
  match sk_error t with Some _ => event_emit f q | None => q end.

(** The part that applies the latest command. *)
Definition apply_latest (t : SinkTask) (i : SinkInput) (s : SinkState) : SinkState :=
  match retained_read (slot s) with
  | Some (slot_ts, cmd) =>
      if bool_decide (last_ts s = Some slot_ts) then s
      else if apply_ok i
           then mkSinkState (slot s) (Some slot_ts) (done_cmds s ++ [(slot_ts, cmd)]) (status s) (faults s)
           else mkSinkState (slot s) (last_ts s) (done_cmds s) (status s) (fault t WriteFailed (faults s))
  | None => s
  end.

(** The status taps, from a real read of the device; [None]: a field the
    driver does not have, which does not compile. *)
Fixpoint update_status (ts : Z) (readings : text -> option Val) (l : list (text * text)) (m : gmap text (RetainedSlot Val))
    : option (gmap text (RetainedSlot Val)) :=
  match l with
  | [] => Some m
  | (static, field) :: l =>
      v ← readings field;
      update_status ts readings l (<[static := retained_update ts v (default retained_new (m !! static))]> m)
  end.

Definition readback (t : SinkTask) (i : SinkInput) (s : SinkState) : option SinkState :=
  if sk_poll t then
    match status_read i with
    | Some readings =>
        m ← update_status (sk_now i) readings (sk_status t) (status s);
        Some (mkSinkState (slot s) (last_ts s) (done_cmds s) m (faults s))
    | None => Some (mkSinkState (slot s) (last_ts s) (done_cmds s) (status s) (fault t ReadFailed (faults s)))
    end
  else Some s.

Definition sink_tick (t : SinkTask) (i : SinkInput) (s : SinkState) : option SinkState :=
  readback t i (apply_latest t i s).

(** A cell writes bytes at a time, or the task takes a turn. *)
Inductive SinkEvent := CellWrite (ts : Z) (b : bytes) | Turn (i : SinkInput).

Definition sink_step (t : SinkTask) (e : SinkEvent) (s : SinkState) : option SinkState :=
  match e with
  | CellWrite ts b => Some (mkSinkState (write_bytes ts b (slot s)).2 (last_ts s) (done_cmds s) (status s) (faults s))
  | Turn i => sink_tick t i s
  end.

Fixpoint sink_run (t : SinkTask) (l : list SinkEvent) (s : SinkState) : option SinkState :=
  match l with
  | [] => Some s
  | e :: l => s' ← sink_step t e s; sink_run t l s'
  end.

(** ** Facts *)

(** The commands cells have written, with their times: what decodes. *)
Definition written (e : SinkEvent) : list (Z * Val) :=
  match e with
  | CellWrite ts b => match take_from_bytes b with Some (v, []) => [(ts, v)] | _ => [] end
  | Turn _ => []
  end.

Definition commands (l : list SinkEvent) : list (Z * Val) := flat_map written l.

Lemma readback_same t i s s' :
  readback t i s = Some s' -> slot s' = slot s /\ last_ts s' = last_ts s /\ done_cmds s' = done_cmds s.
Proof.
  unfold readback. destruct (sk_poll t); [|by intros [= <-]]. destruct (status_read i); [|by intros [= <-]].
  by intros (m & _ & [= <-])%bind_Some.
Qed.

Lemma write_slot ts b (s : RetainedSlot Val) :
  (write_bytes ts b s).2 = match take_from_bytes b with Some (v, []) => Some (ts, v) | _ => s end.
Proof. unfold write_bytes. by destruct (take_from_bytes b) as [[v []]|]. Qed.

(** The slot holds the newest command; what was applied are commands in their
    order, the newest of them at [last_ts]. *)
Record sink_inv (l : list SinkEvent) (s : SinkState) : Prop := {
  si_slot : slot s = last (commands l);
  si_done : done_cmds s `sublist_of` commands l;
  si_last : last_ts s = fst <$> last (done_cmds s);
}.

(** Times of commands grow. *)
Definition growing (l : list SinkEvent) : Prop := StronglySorted Z.lt (map fst (commands l)).

Lemma commands_app l k : commands (l ++ k) = commands l ++ commands k.
Proof. apply flat_map_app. Qed.

Lemma last_in {A} (l : list A) x : last l = Some x -> x ∈ l.
Proof. intros Hl. apply last_Some in Hl as (l' & ->). set_solver. Qed.

(** Only the last command of a growing list has its time. *)
Lemma growing_last l ts v v' :
  StronglySorted Z.lt (map fst (l : list (Z * Val))) -> last l = Some (ts, v) -> (ts, v') ∈ l -> v' = v.
Proof.
  intros Hs (l' & ->)%last_Some [Hin|Hin]%elem_of_app; [|by apply list_elem_of_singleton in Hin as [= ->]].
  exfalso. rewrite map_app in Hs. cbn in Hs. apply StronglySorted_app in Hs as (Hlt & _ & _).
  specialize (Hlt ts ts). enough (ts < ts) by lia. apply Hlt; [|set_solver].
  by apply (list_elem_of_fmap_2 fst) in Hin.
Qed.

Lemma sublist_singleton {A} (l : list A) x : l `sublist_of` [x] -> l = [] \/ l = [x].
Proof.
  intros Hs. apply sublist_cons_r in Hs as [Hs|(l' & -> & Hs)]; apply sublist_nil_r in Hs as ->; auto.
Qed.

(** Applying the latest command keeps the invariant, and if the driver takes
    it the device has it. *)
Lemma apply_latest_inv t i l s :
  growing l -> sink_inv l s ->
  sink_inv l (apply_latest t i s) /\
  (apply_ok i = true -> last (done_cmds (apply_latest t i s)) = last (commands l)).
Proof.
  intros Hg [I1 I2 I3]. unfold apply_latest. rewrite I1. unfold retained_read.
  destruct (last (commands l)) as [[ts cmd]|] eqn:Hl.
  - case_bool_decide as Hts.
    + split; [by split; rewrite ?Hl|]. intros _. rewrite I3 in Hts.
      destruct (last (done_cmds s)) as [[ts' v']|] eqn:Hd; [|done]. injection Hts as ->. do 2 f_equal.
      eapply growing_last; [exact Hg|done|]. eapply elem_of_sublist; [by apply last_in in Hd|done].
    + destruct (apply_ok i); [|split; [by split; rewrite ?Hl|done]].
      split; [|intros _; cbn; by rewrite last_snoc]. split; cbn [slot done_cmds last_ts].
      * by rewrite Hl.
      * apply last_Some in Hl as (C & HC). rewrite HC in I2 |- *.
        apply sublist_app_r in I2 as (d1 & d2 & Hd & H1 & H2).
        apply sublist_singleton in H2 as [->| ->]; [rewrite app_nil_r in Hd; rewrite Hd; by apply sublist_app|].
        exfalso. apply Hts. rewrite I3, Hd, last_snoc. done.
      * by rewrite last_snoc.
  - split; [by split; rewrite ?Hl|]. intros _. apply last_None in Hl. rewrite Hl in I2. by apply sublist_nil_r in I2 as ->.
Qed.

Lemma sink_step_inv t l e s s' :
  growing (l ++ [e]) -> sink_inv l s -> sink_step t e s = Some s' -> sink_inv (l ++ [e]) s'.
Proof.
  intros Hg Hi. destruct e as [ts b|i]; cbn [sink_step].
  - intros [= <-]. destruct Hi as [I1 I2 I3]. split; cbn [slot done_cmds last_ts]; rewrite ?commands_app.
    + rewrite write_slot, I1. cbn. destruct (take_from_bytes b) as [[v [|]]|]; rewrite ?app_nil_r; [|done..]. by rewrite last_snoc.
    + by apply sublist_inserts_r.
    + done.
  - assert (commands (l ++ [Turn i]) = commands l) as Hc by (rewrite commands_app; cbn; by rewrite app_nil_r).
    unfold growing in Hg. rewrite Hc in Hg. destruct (apply_latest_inv t i l s Hg Hi) as [[I1 I2 I3] _].
    intros (S1 & S2 & S3)%readback_same. split; by rewrite ?Hc, ?S1, ?S2, ?S3.
Qed.

Lemma sink_run_app t l k s : sink_run t (l ++ k) s = (s' ← sink_run t l s; sink_run t k s').
Proof. revert s. induction l as [|e l IH]; intros s; cbn; [done|]. destruct (sink_step t e s); cbn; [apply IH|done]. Qed.

Lemma growing_prefix l k : growing (l ++ k) -> growing l.
Proof. unfold growing. rewrite commands_app, map_app. by intros (_ & ? & _)%StronglySorted_app. Qed.

Lemma sink_run_inv t l s : growing l -> sink_run t l sink_new = Some s -> sink_inv l s.
Proof.
  revert s. induction l as [|e l IH] using rev_ind; intros s Hg.
  - intros [= <-]. by split.
  - rewrite sink_run_app. intros (s1 & Hr & Hx)%bind_Some. cbn in Hx. apply bind_Some in Hx as (s2 & Hs & [= <-]).
    eapply sink_step_inv; [done| |exact Hs]. apply IH; [by eapply growing_prefix|done].
Qed.

Lemma sublist_sorted {A} (R : A -> A -> Prop) k l : k `sublist_of` l -> StronglySorted R l -> StronglySorted R k.
Proof.
  intros Hs. induction Hs as [|x k l Hs IH|x k l Hs IH]; [done| |]; intros [Hl Hx]%StronglySorted_inv; [|auto].
  constructor; [auto|]. rewrite Forall_forall in Hx |- *. intros y Hy. apply Hx. by eapply elem_of_sublist.
Qed.

(** C13. However the writes of cells and the turns of a sink task interleave and
    whatever the driver answers, if the times of the commands grow, then after
    a turn in which the driver's [apply] returns [Ok] the command it was last given
    is the latest one written; and the commands that were applied are commands that were
    written, in their order and each at most once. *)
Theorem latest_command_applied t l i s s' :
  growing l -> sink_run t l sink_new = Some s -> sink_tick t i s = Some s' ->
  done_cmds s' `sublist_of` commands l /\ StronglySorted Z.lt (map fst (done_cmds s')) /\
  (apply_ok i = true -> last (done_cmds s') = last (commands l)).
Proof.
  intros Hg Hr%sink_run_inv Ht; [|done]. destruct (apply_latest_inv t i l s Hg Hr) as [[_ I2 _] Hl].
  apply readback_same in Ht as (_ & _ & ->). split_and!; [done| |done].
  eapply sublist_sorted; [|exact Hg]. clear -I2. induction I2; cbn; by constructor.
Qed.

(** A command written in the same millisecond as the one applied last is
    never applied, however many turns follow: the sink compares the times of
    commands and not the commands. *)
Theorem same_time_command_lost t ts b1 b2 c1 c2 i is_ s :
  take_from_bytes b1 = Some (c1, []) -> take_from_bytes b2 = Some (c2, []) -> apply_ok i = true ->
  sink_run t ([CellWrite ts b1; Turn i; CellWrite ts b2] ++ map Turn is_) sink_new = Some s ->
  slot s = Some (ts, c2) /\ done_cmds s = [(ts, c1)].
Proof.
  intros H1 H2 Hok. rewrite sink_run_app. intros (s3 & H3 & Hr)%bind_Some.
  assert (slot s3 = Some (ts, c2) /\ last_ts s3 = Some ts /\ done_cmds s3 = [(ts, c1)]) as Hs3.
  { cbn [sink_run sink_step] in H3. apply bind_Some in H3 as (s1 & [= <-] & H3).
    apply bind_Some in H3 as (s2 & Ht & H3). apply readback_same in Ht as (T1 & T2 & T3).
    unfold apply_latest in T1, T2, T3. rewrite write_slot, H1 in T1, T2, T3. cbn in T1, T2, T3. rewrite Hok in T1, T2, T3.
    cbn in T1, T2, T3. apply bind_Some in H3 as (s4 & [= <-] & [= <-]). cbn [slot last_ts done_cmds].
    by rewrite write_slot, H2. }
  clear H3. revert s3 Hs3 Hr. induction is_ as [|j is_ IH]; intros s3 (S1 & S2 & S3); cbn [map sink_run].
  - intros [= <-]. done.
  - intros (s4 & (T1 & T2 & T3)%readback_same & Hr)%bind_Some. eapply IH; [|exact Hr].
    unfold apply_latest in T1, T2, T3. rewrite S1 in T1, T2, T3. cbn in T1, T2, T3.
    rewrite bool_decide_eq_true_2 in T1, T2, T3 by done. by rewrite T1, T2, T3.
Qed.
End Sink.

Import SampleParams SampleWire.

(** A sink without read-back, and turns of it. *)
Definition heater : Codegen.SinkTask := mkSinkTask (lit "relay") (lit "OUTLET_HEATER") [] 100 [] [] None false.
Definition turn (now : Z) : SinkInput (Val := bool) := mkSinkInput now true None.
Definition switched : list (SinkEvent (Val := bool)) :=
  [CellWrite 3 [Byte.x01]; Turn (turn 4); CellWrite 7 [Byte.x05]; CellWrite 8 [Byte.x00]].

Lemma latest_command_applied_witness :
  exists s s', sink_run heater switched sink_new = Some s /\ sink_tick heater (turn 9) s = Some s' /\ last (done_cmds s') = Some (8, false).
Proof.
  eexists _, _. split; [vm_compute; reflexivity|]. split; [vm_compute; reflexivity|].
  refine (proj2 (proj2 (latest_command_applied heater switched (turn 9) _ _ _ _ _)) _).
  - unfold growing. vm_compute. repeat constructor.
  - vm_compute. reflexivity.
  - vm_compute. reflexivity.
  - reflexivity.
Defined.

Lemma same_time_command_lost_witness :
  exists s, sink_run heater ([CellWrite 3 [Byte.x01]; Turn (turn 3); CellWrite 3 [Byte.x00]] ++ map Turn [turn 4; turn 5])
      sink_new = Some s /\ done_cmds s = [(3, true)].
Proof.
  eexists. split; [vm_compute; reflexivity|].
  refine (proj2 (same_time_command_lost heater 3 [Byte.x01] [Byte.x00] true false (turn 3) [turn 4; turn 5] _ _ _ _ _)).
  - reflexivity.
  - reflexivity.
  - reflexivity.
  - vm_compute. reflexivity.
Defined.
