(* ===== verification/CodegenValues.v ===== *)
(** * Values and pins in generated code, and what acceptance leaves open

    The config values of a source reach its driver as they are written; the
    values of a step need not.  Every task is spawned with the pins its
    function takes.  At the end, accepted pipelines whose generated code does
    not do what the file says. *)

From S2P Require Import Prelude Text Signal Board Pipeline PipelineFacts Codegen CodegenFacts SourceTask SourceTaskFacts.
From Stdlib Require Import ZArith Lia Strings.String.
From stdpp Require Import base list option sets gmap.

Local Open Scope Z_scope.

Section Literals.
Context `{YamlLaws} `{Syn} `{Unicode}.

(** The literal stands for the value written in the file. *)
Definition denotes (v : Value) (rt : text) (l : Literal) : Prop :=
  match l with
  | LUnsigned ty n => ty = rt /\ as_u64 v = Some n
  | LF32 f => exists d, as_f64 v = Some d /\ f = f64_as_f32 d
  | LF64 f => as_f64 v = Some f
  | LBool b => as_bool v = Some b
  | LVariant ty s => ty = rt /\ as_str v = Some s /\ parse_ident s = true
  end.

(** The literal is in the range of its type on a target of a pointer width, and a
    float is finite. *)
Definition fits (width : Z) (l : Literal) : Prop :=
  match l with
  | LUnsigned ty n => 0 <= n /\
      n < 2 ^ (if text_eqb ty (lit "u8") then 8 else if text_eqb ty (lit "u16") then 16
               else if text_eqb ty (lit "u32") then 32 else if text_eqb ty (lit "u64") then 64
               else if 64 <=? width then 64 else 32)
  | LF32 f => f32_is_finite f = true
  | LF64 f => f64_is_finite f = true
  | _ => True
  end.

Lemma check_uint_ok v max ty :
  check_uint v max ty = Ok tt -> exists n, as_u64 v = Some n /\ 0 <= n <= max.
Proof.
  unfold check_uint. destruct (as_i64 v) as [n|] eqn:Hi.
  - destruct (Z.ltb_spec n 0); [done|]. destruct (Z.ltb_spec max n); [done|]. intros _. exists n.
    split; [by apply as_u64_of_i64|lia].
  - destruct (as_u64 v) as [n|] eqn:Hu; [|done]. destruct (Z.ltb_spec max n); [done|]. intros _. exists n.
    apply as_u64_range in Hu. split; [done|lia].
Qed.

(** What was checked is not cut off. *)
Lemma uint_literal_exact bits rt v n :
  as_u64 v = Some n -> 0 <= n < 2 ^ bits -> uint_literal bits rt v = LUnsigned rt n.
Proof. intros Hn Hr. unfold uint_literal, wrap. rewrite Hn. cbn. by rewrite Z.mod_small. Qed.

Lemma validated_literal v rt width l :
  validate_config_value v rt width = Ok tt -> config_value_tokens v rt = Ok l -> denotes v rt l /\ fits width l.
Proof.
  unfold validate_config_value, config_value_tokens.
  assert (forall bits max ty w, max < 2 ^ bits -> check_uint v max ty = Ok tt -> max < 2 ^ w ->
    @Ok CodegenError _ (uint_literal bits rt v) = Ok l -> exists n, l = LUnsigned rt n /\ as_u64 v = Some n /\ 0 <= n /\ n < 2 ^ w) as Hint.
  { intros bits max ty w Hm (n & Hn & Hr)%check_uint_ok Hw. exists n. rewrite (uint_literal_exact bits rt v n Hn) in *; [|lia].
    split_and!; [congruence|done|lia|lia]. }
  destruct (text_eqb rt (lit "u8")) eqn:E8.
  { intros Hc Hl. destruct (Hint 8 u8_max _ 8 eq_refl Hc eq_refl Hl) as (n & -> & Hn). cbn [denotes fits]. rewrite E8. naive_solver. }
  destruct (text_eqb rt (lit "u16")) eqn:E16.
  { intros Hc Hl. destruct (Hint 16 u16_max _ 16 eq_refl Hc eq_refl Hl) as (n & -> & Hn). cbn [denotes fits]. rewrite E8, E16. naive_solver. }
  destruct (text_eqb rt (lit "u32")) eqn:E32.
  { intros Hc Hl. destruct (Hint 32 u32_max _ 32 eq_refl Hc eq_refl Hl) as (n & -> & Hn). cbn [denotes fits]. rewrite E8, E16, E32. naive_solver. }
  destruct (text_eqb rt (lit "u64")) eqn:E64.
  { intros Hc Hl. destruct (Hint 64 u64_max _ 64 eq_refl Hc eq_refl Hl) as (n & -> & Hn). cbn [denotes fits].
    rewrite E8, E16, E32, E64. naive_solver. }
  destruct (text_eqb rt (lit "usize")).
  { intros Hc Hl. destruct (64 <=? width) eqn:Ew.
    - destruct (Hint 64 u64_max _ 64 eq_refl Hc eq_refl Hl) as (n & -> & Hn). cbn [denotes fits].
      rewrite E8, E16, E32, E64, Ew. naive_solver.
    - destruct (Hint 64 u32_max _ 32 eq_refl Hc eq_refl Hl) as (n & -> & Hn). cbn [denotes fits].
      rewrite E8, E16, E32, E64, Ew. naive_solver. }
  destruct (text_eqb rt (lit "f32")); cbn [orb].
  { destruct (as_f64 v) as [d|] eqn:Hd; [|done]. intros _. cbn. destruct (f32_is_finite _) eqn:Hf; [|done]. intros [= <-]. cbn. eauto. }
  destruct (text_eqb rt (lit "f64")).
  { destruct (as_f64 v) as [d|] eqn:Hd; [|done]. intros _. cbn. destruct (f64_is_finite _) eqn:Hf; [|done]. intros [= <-]. cbn. eauto. }
  destruct (text_eqb rt (lit "bool")).
  { destruct (as_bool v) as [b|] eqn:Hb; [|done]. intros _ [= <-]. done. }
  destruct (as_str v) as [x|] eqn:Hx; [|done]. destruct (parse_ident x) eqn:Hp; [|done]. intros _ Hl.
  apply res_bind_ok in Hl as (ty & ->%ident_new_eq & Hl). apply res_bind_ok in Hl as (variant & ->%ident_new_eq & [= <-]).
  by cbn.
Qed.

Context (drivers kinds : IndexMap DriverSchema).
Context (hash_order : gmap text nat -> list text) `{!HashOrder hash_order}.
Implicit Types (p : PipelineFile) (m : BoardManifest).

(** The lookups of the generator and of the validation agree on a board
    without repeated device ids. *)
Lemma device_lookups_agree m k d :
  NoDup (map de_id (devices m)) -> find_device k m = Some d -> im_get k (device_map m) = Some d.
Proof.
  intros Hn Hf. destruct (im_get k (device_map m)) as [d'|] eqn:Hg.
  - apply (device_map_get hash_order) in Hg as [Hd <-]. f_equal.
    apply (find_by_key_nodup de_id _ _ Hn) in Hd. unfold find_device in Hf. congruence.
  - exfalso. apply find_by_key in Hf as [Hd <-]. revert Hg. unfold device_map.
    assert (forall l acc, (d ∈ l \/ is_Some (im_get (de_id d) acc)) ->
      is_Some (im_get (de_id d) (foldl (fun acc d => im_insert (de_id d) d acc) acc l))) as Hall.
    { induction l as [|x l IH]; intros acc Hin; cbn.
      - destruct Hin as [Hin|Hin]; [by apply elem_of_nil in Hin|done].
      - apply IH. rewrite im_get_insert. destruct Hin as [[->|Hin]%elem_of_cons|Hin].
        + right. rewrite decide_True by done. done.
        + by left.
        + right. case_decide; done. }
    intros Hg. destruct (Hall (devices m) [] (or_introl Hd)) as [x Hx]. congruence.
Qed.

Lemma field_errors_nil src device width name def rt v :
  field_errors src device width (name, def) = [] -> rust_type def = Some rt ->
  match scope def with Hardware => im_get name (hardware device) | Application => im_get name (src_config src) end = Some v ->
  validate_config_value v rt width = Ok tt.
Proof.
  unfold field_errors. intros He Hrt Hv. rewrite Hrt, Hv in He.
  destruct (negb _ && negb _); [done|]. apply app_nil in He as [_ He].
  by destruct (validate_config_value v rt width) as [[]|e].
Qed.

End Literals.

(** ** Pins *)

Section Spawn.
Context `{Yaml} `{Syn} `{Unicode}.
Implicit Types (p : PipelineFile) (m : BoardManifest).

(** An argument of a spawn against the parameter it is passed for: the field
    of the peripherals named after the device and its pin, for the parameter
    named after the pin. *)
Definition passed_for (arg param : text) : Prop :=
  exists device pin, arg = device_pin device pin /\ (param = snake_name pin \/ param = device_pin device pin).

Lemma passed_for_own device ns : Forall2 passed_for (map (device_pin device) ns) (map snake_name ns).
Proof. induction ns as [|n ns IH]; constructor; [|done]. exists device, n. by split; [|left]. Qed.

Lemma passed_for_outlet device ns : Forall2 passed_for (map (device_pin device) ns) (map (device_pin device) ns).
Proof. induction ns as [|n ns IH]; constructor; [|done]. exists device, n. by split; [|right]. Qed.

(** All pins are wired, so none is left out. *)
Lemma wired_or_fail_ok outlet pins mk ns ps :
  wired_or_fail outlet pins mk ns = Ok ps ->
  ps = map mk ns /\ List.filter (fun n => im_contains n pins) ns = ns.
Proof.
  unfold wired_or_fail. intros Hw%mapM_res_ok.
  induction Hw as [|n q ns ps Hn _ [-> IH]]; [done|]. cbn. destruct (im_contains n pins); [|done].
  apply ident_new_eq in Hn as ->. by rewrite IH.
Qed.

Lemma wired_args_eq d schema args :
  wired_args d schema = Ok args ->
  args = map (device_pin (de_id d)) (List.filter (fun n => im_contains n (de_pins d)) (optional_pins (requires schema))).
Proof. apply idents_map. Qed.

Lemma outlet_args_match m (drivers : IndexMap DriverSchema) os inits args :
  mapM_res (emit_owned_outlet m drivers) os = Ok inits ->
  mapM_res (fun o => od ← ok_or (NoDevice (out_name o) (out_device o)) (find_device (out_device o) m);
                     wired_args od (schema_of drivers od)) os = Ok args ->
  Forall2 passed_for (concat args) (flat_map oi_params inits).
Proof.
  intros Hi%mapM_res_ok Ha%mapM_res_ok. revert args Ha.
  induction Hi as [|o oi os inits Ho _ IH]; intros args Ha; inversion Ha as [|? a ? args' Hx Hr]; subst; [constructor|].
  cbn. apply Forall2_app; [|by apply IH]. unfold emit_owned_outlet in Ho.
  destruct (find_device (out_device o) m) as [d|]; [|done]. cbn [ok_or mbind res_bind] in Ho, Hx. apply wired_args_eq in Hx as ->.
  do 5 (apply res_bind_ok in Ho as (? & _ & Ho)).
  apply res_bind_ok in Ho as (ps & [-> Hf]%wired_or_fail_ok & Ho). do 2 (apply res_bind_ok in Ho as (? & _ & Ho)). injection Ho as <-.
  cbn [oi_params]. rewrite Hf. apply passed_for_outlet.
Qed.

Lemma source_args_match p m drivers kinds i s t sp :
  generate_source p m drivers kinds (i, s) = Ok t -> spawn_source p m drivers s = Ok sp ->
  sp_task sp = task_fn (st_source t) /\ Forall2 passed_for (sp_pins sp) (st_params t).
Proof.
  unfold generate_source, spawn_source. intros (d & -> & Ht)%res_bind_ok. cbn [mbind res_bind].
  apply res_bind_ok in Ht as (b & Hb & Ht). intros (task & ->%ident_new_eq & Hs)%res_bind_ok.
  do 3 (apply res_bind_ok in Hs as (? & _ & Hs)). apply res_bind_ok in Hs as (own & ->%wired_args_eq & Hs).
  apply res_bind_ok in Hs as (args & Ha & [= <-]).
  unfold emit_source_task in Ht. do 3 (apply res_bind_ok in Ht as (? & _ & Ht)).
  apply res_bind_ok in Ht as (pins & ->%(idents_map snake_name) & Ht). do 2 (apply res_bind_ok in Ht as (? & _ & Ht)).
  apply res_bind_ok in Ht as (inits & Hi & Ht). repeat (apply res_bind_ok in Ht as (? & _ & Ht)). injection Ht as <-.
  cbn. split; [done|]. apply Forall2_app; [apply passed_for_own|by eapply outlet_args_match].
Qed.

Lemma sink_args_match p m drivers o t sp :
  generate_sink p m drivers o = Ok t -> spawn_sink m drivers o = Ok sp ->
  sp_task sp = sink_task_fn (sk_device t) /\ Forall2 passed_for (sp_pins sp) (sk_params t).
Proof.
  unfold generate_sink, spawn_sink. intros (d & -> & Ht)%res_bind_ok. cbn [mbind res_bind].
  intros (task & ->%ident_new_eq & Hs)%res_bind_ok. apply res_bind_ok in Hs as (args & ->%wired_args_eq & [= <-]).
  unfold emit_sink_task in Ht. do 5 (apply res_bind_ok in Ht as (? & _ & Ht)).
  cbn zeta in Ht. destruct (_ =? 0); [done|]. apply res_bind_ok in Ht as (ps & [-> Hf]%wired_or_fail_ok & Ht).
  do 2 (apply res_bind_ok in Ht as (? & _ & Ht)). destruct (_ && negb _); [done|]. injection Ht as <-. cbn. split; [done|].
  rewrite Hf. apply passed_for_own.
Qed.

Lemma Forall2_joint {A B C} (f : A -> res CodegenError B) (g : A -> res CodegenError C) (P : C -> B -> Prop) l bs cs :
  (forall a b c, f a = Ok b -> g a = Ok c -> P c b) -> mapM_res f l = Ok bs -> mapM_res g l = Ok cs -> Forall2 P cs bs.
Proof.
  intros HP Hf%mapM_res_ok Hg%mapM_res_ok. revert cs Hg.
  induction Hf as [|a b l bs Ha _ IH]; intros cs Hg; inversion Hg; subst; constructor; eauto.
Qed.

Lemma imap_snd {A} (l : list A) : snd <$> imap (fun i s => (i, s)) l = l.
Proof. rewrite fmap_imap. transitivity (imap (const (@id A)) l); [done|]. by rewrite imap_const, list_fmap_id. Qed.

(** In every generated file each task is spawned once, in the order of the
    tasks, with as many arguments as its function has parameters, each the
    board pin its parameter is named for. *)
Theorem spawned_pins_match p m drivers kinds g :
  generate_tokens m p drivers kinds = Ok g ->
  exists s1 s2, gen_spawns g = s1 ++ s2 /\
    Forall2 (fun sp t => sp_task sp = task_fn (st_source t) /\ Forall2 passed_for (sp_pins sp) (st_params t)) s1 (gen_sources g) /\
    Forall2 (fun sp t => sp_task sp = sink_task_fn (sk_device t) /\ Forall2 passed_for (sp_pins sp) (sk_params t)) s2 (gen_sinks g).
Proof.
  unfold generate_tokens. intros (? & _ & Hg)%res_bind_ok. do 2 (apply res_bind_ok in Hg as (? & _ & Hg)).
  apply res_bind_ok in Hg as (ts & Hts & Hg). apply res_bind_ok in Hg as (ks & Hks & Hg).
  apply res_bind_ok in Hg as (sps & Hsp & Hg). do 2 (apply res_bind_ok in Hg as (? & _ & Hg)). injection Hg as <-. cbn.
  unfold emit_spawn_sources in Hsp. apply res_bind_ok in Hsp as (? & _ & Hsp). apply res_bind_ok in Hsp as (? & _ & Hsp).
  apply res_bind_ok in Hsp as (s1 & Hs1 & Hsp). apply res_bind_ok in Hsp as (s2 & Hs2 & [= <-]).
  exists s1, s2. split_and!; [done| |].
  - apply (Forall2_joint (generate_source p m drivers kinds) (fun e => spawn_source p m drivers e.2) _
      (imap (fun i s => (i, s)) (sources p))); [|done|].
    + intros [i s] b c. apply source_args_match.
    + apply mapM_res_ok in Hs1. apply mapM_res_ok. rewrite <-(imap_snd (sources p)) in Hs1. by apply Forall2_fmap_l in Hs1.
  - by eapply (Forall2_joint (generate_sink p m drivers) (spawn_sink m drivers)); [intros ? ? ?; apply sink_args_match|..].
Qed.
End Spawn.

Import SampleParams SamplePipeline SampleTask.

(** The sample board with an address for its sensor. *)
Definition board_at (addr : Z) : BoardManifest :=
  mkBoardManifest (lit "demo") (lit "esp32c6")
    [(lit "i2c0", mkBusConfig I2c [(lit "scl", 10); (lit "sda", 11)] 400 0)]
    (mkGpioConfig [0; 1; 2; 3])
    [ mkDeviceEntry (lit "thermo") (lit "bme280") (lit "i2c0") [(lit "drdy", 20)] [(lit "i2c_addr", YInt addr)];
      mkDeviceEntry (lit "relay") (lit "gpio-relay") [] [(lit "out", 19)] [] ].

Definition sensor_at (addr : Z) : DeviceEntry :=
  mkDeviceEntry (lit "thermo") (lit "bme280") (lit "i2c0") [(lit "drdy", 20)] [(lit "i2c_addr", YInt addr)].

Definition task_at (addr : Z) : SourceTask :=
  match emit_source_task thermo 0 (sensor_at addr) bme280 pipeline (board_at addr) drivers step_kinds with
  | Ok t => t
  | Err _ => mkSourceTask [] 0 [] 0 [] [] [] [] [] [] []
  end.


Lemma spawned_pins_match_witness :
  exists g s1 s2, generate_tokens (board 20) pipeline drivers step_kinds = Ok g /\ gen_spawns g = s1 ++ s2 /\
    Forall2 (fun sp t => sp_task sp = task_fn (st_source t) /\ Forall2 passed_for (sp_pins sp) (st_params t)) s1 (gen_sources g).
Proof.
  destruct (generate_tokens (board 20) pipeline drivers step_kinds) as [g|e] eqn:Hg.
  - destruct (spawned_pins_match pipeline (board 20) drivers step_kinds g Hg) as (s1 & s2 & Hs & Hp & _).
    exists g, s1, s2. split; [reflexivity|]. split; [exact Hs|exact Hp].
  - exfalso. assert (match generate_tokens (board 20) pipeline drivers step_kinds with Ok _ => True | Err _ => False end) as Hc
      by (vm_compute; exact I). rewrite Hg in Hc. exact Hc.
Defined.

(** ** What acceptance leaves open *)

(** Two steps whose ids become one identifier. *)
Definition twins : PipelineFile :=
  mkPipelineFile (lit "twins") [thermo] [average "avg-1" "thermo.temp"; average "avg_1" "thermo.temp"]
    [tap "first" TRetained "f32" "avg-1"; tap "second" TRetained "f32" "avg_1"] [].

(** Steps whose ids differ in a hyphen and an underscore are accepted, but
    share one state in the generated task: of two sums over the same readings
    the second counts every reading twice, where the file means both to be
    equal. *)
Theorem colliding_steps_share_state :
  validate twins = Some [] /\
  (retained (env (after (task_of twins thermo) [good 35 7])) !! lit "TAP_FIRST") = Some (Some (7, (lit "f32", 35)) : RetainedSlot value) /\
  (retained (env (after (task_of twins thermo) [good 35 7])) !! lit "TAP_SECOND") = Some (Some (7, (lit "f32", 70)) : RetainedSlot value) /\
  forall id, id ∈ [lit "avg-1"; lit "avg_1"] ->
    ref_value twins (lit "thermo") 3 (nodes (env (task_new (task_of twins thermo)))) (temperature 35) id = Some (lit "f32", 35).
Proof.
  split; [vm_refl|]. split; [vm_refl|]. split; [vm_refl|].
  intros id Hid. repeat (apply elem_of_cons in Hid as [->|Hid]; [vm_refl|]). by apply elem_of_nil in Hid.
Qed.

(** Two taps whose names become one identifier: the generated file declares
    one static twice. *)
Definition same_static : PipelineFile :=
  mkPipelineFile (lit "same") [thermo] []
    [tap "a-b" TRetained "f32" "thermo.temp"; tap "A_b" TRetained "f32" "thermo.temp"] [].

Lemma colliding_taps_accepted :
  validate same_static = Some [] /\
  map (fun t => tap_static_name (tap_name t)) (taps same_static) = [lit "TAP_A_B"; lit "TAP_A_B"].
Proof. split; vm_refl. Qed.

(** A step that reads from nothing is accepted and not generated, so the tap
    on it is never written. *)
Definition dangling : PipelineFile :=
  mkPipelineFile (lit "lost") [thermo] [average "avg" "nowhere.temp"] [tap "mean" TRetained "f32" "avg"] [].

Lemma dangling_step_accepted :
  validate dangling = Some [] /\ st_nodes (task_of dangling thermo) = [] /\
  st_chain (task_of dangling thermo) = [] /\ st_tap_writes (task_of dangling thermo) = [].
Proof. split_and!; vm_refl. Qed.

(** A value a step's descriptor declares to be a byte. *)
Definition wide_window : PipelineFile :=
  mkPipelineFile (lit "cut") [thermo]
    [mkStep (lit "avg") (lit "moving-average") (lit "thermo.temp") [(lit "window", YInt 300)]]
    [tap "mean" TRetained "f32" "avg"] [].

Lemma step_value_cut :
  validate wide_window = Some [] /\
  map ni_config (st_nodes (task_of wide_window thermo)) = [[(lit "window", LUnsigned (lit "u8") 44)]].
Proof. split; vm_refl. Qed.

(** The number of sources is not limited, and the number a source reports its
    health under is a byte. *)
Definition crowd (n : nat) : PipelineFile :=
  mkPipelineFile (lit "crowd") (map (fun i => mkSource (lit "s" ++ replicate i 97) (lit "thermo") []) (seq 0 n)) [] [] [].

Lemma source_count_unlimited : validate (crowd 20) = Some [].
Proof. vm_refl. Qed.

Lemma source_index_wraps p m ds ks s t : generate_source p m ds ks (256%nat, s) = Ok t -> st_index t = 0.
Proof.
  unfold generate_source. intros (d & _ & Ht)%res_bind_ok. apply res_bind_ok in Ht as (b & _ & Ht).
  unfold emit_source_task in Ht. repeat (apply res_bind_ok in Ht as (? & _ & Ht)). by injection Ht as <-.
Qed.

(** Field names, types, variants and floats are not checked where they become tokens:
    a tap on a field that is no identifier, a tap on an unknown source with a type
    that is none, and a float too large for its type are accepted and make the
    generator panic. *)
Definition odd_field : PipelineFile :=
  mkPipelineFile (lit "odd") [thermo] [] [tap "raw" TRetained "f32" "thermo.a b"] [].
Definition odd_type : PipelineFile :=
  mkPipelineFile (lit "odd") [thermo] [] [tap "raw" TRetained "Vec<u8>" "nowhere.value"] [].

Lemma odd_names_panic :
  validate odd_field = Some [] /\ generate_tokens (board 20) odd_field drivers step_kinds = Err (IdentPanic (lit "a b")) /\
  validate odd_type = Some [] /\ generate_tokens (board 20) odd_type drivers step_kinds = Err (IdentPanic (lit "Vec<u8>")).
Proof. split_and!; vm_refl. Qed.

Lemma large_float_panics :
  validate_config_value (YInt (10 ^ 39)) (lit "f32") 32 = Ok tt /\ config_value_tokens (YInt (10 ^ 39)) (lit "f32") = Err FloatPanic.
Proof. split; vm_refl. Qed.

(** An outlet driven by the status of another. *)
Definition feedback_drivers : IndexMap DriverSchema :=
  [ (lit "gpio-output-feedback", mkDriverSchema [] [mkDriverOutput (lit "state") (lit "DigitalState")] []
      (mkRequires [] [lit "out"]) (Some (mkDriverWrite (lit "DigitalState") Digital))) ].

Definition feedback_board : BoardManifest :=
  mkBoardManifest (lit "demo") (lit "esp32c6") [] (mkGpioConfig [0; 1])
    [ mkDeviceEntry (lit "fan-out") (lit "gpio-output-feedback") [] [(lit "out", 18)] [];
      mkDeviceEntry (lit "lamp-out") (lit "gpio-output-feedback") [] [(lit "out", 19)] [] ].

Definition chained : PipelineFile :=
  mkPipelineFile (lit "chained") [] [] []
    [ mkOutlet (lit "fan") (lit "DigitalState") (lit "fan-out") None [];
      mkOutlet (lit "lamp") (lit "DigitalState") (lit "lamp-out") (Some (lit "fan.state")) [] ].

Lemma outlet_of_outlet_never_driven :
  validate_manifest feedback_board = [] /\
  validate_pipeline_against_manifest feedback_drivers [] keys_order chained feedback_board 32 = Some [] /\
  match generate_tokens feedback_board chained feedback_drivers [] with
  | Ok g => length (gen_sources g) = 0%nat /\ map sk_device (gen_sinks g) = [lit "fan-out"]
  | Err _ => False
  end.
Proof. split; [vm_refl|]. split; [vm_refl|]. vm_compute. split; reflexivity. Qed.
