(* ===== verification/Float.v ===== *)
(** * Floating-point numbers

    The [f32] and [f64] of the sources as the IEEE 754 numbers of the Standard
    Library's [SpecFloat], at their widths, with the operations of Rust's
    [core] the signal modules use: arithmetic rounded to nearest, casts,
    comparisons, [min], [max] and [clamp].  All NaNs are one.  Of two zeros
    [min] and [max] may return either in Rust; here the first. *)

From S2P Require Import Prelude.
From Stdlib Require Import ZArith Lia Floats.SpecFloat.
From stdpp Require Import base list option.

Local Open Scope Z_scope.

Definition f32 : Type := spec_float.
Definition f64 : Type := spec_float.

Definition f32_add : f32 -> f32 -> f32 := SFadd 24 128.
Definition f32_sub : f32 -> f32 -> f32 := SFsub 24 128.
Definition f32_mul : f32 -> f32 -> f32 := SFmul 24 128.
Definition f32_div : f32 -> f32 -> f32 := SFdiv 24 128.
Definition f64_add : f64 -> f64 -> f64 := SFadd 53 1024.
Definition f64_sub : f64 -> f64 -> f64 := SFsub 53 1024.
Definition f64_mul : f64 -> f64 -> f64 := SFmul 53 1024.
Definition f64_div : f64 -> f64 -> f64 := SFdiv 53 1024.

(** [i as f32] and [f32::from(i)] for an integer, and the same for [f64] *)
Definition f32_of_Z (z : Z) : f32 := binary_normalize 24 128 z 0 false.
Definition f64_of_Z (z : Z) : f64 := binary_normalize 53 1024 z 0 false.

(** Literals: the quotient of two integers a float holds exactly, rounded once. *)
Definition f32_ratio (n d : Z) : f32 := f32_div (f32_of_Z n) (f32_of_Z d).
Definition f64_ratio (n d : Z) : f64 := f64_div (f64_of_Z n) (f64_of_Z d).

Definition f64_of_f32 (x : f32) : f64 := x.

(** [x as f32] *)
Definition f64_to_f32 (x : f64) : f32 :=
  match x with
  | S754_finite s m e => binary_normalize 24 128 (if s then Zneg m else Zpos m) e false
  | _ => x
  end.

(** Truncation towards zero; [None] for infinities and NaN *)
Definition trunc (x : spec_float) : option Z :=
  match x with
  | S754_zero _ => Some 0
  | S754_finite s m e =>
      let a := if 0 <=? e then Zpos m * 2 ^ e else Zpos m / 2 ^ (- e) in
      Some (if s then - a else a)
  | _ => None
  end.

(** [x as uN]: NaN is 0, and what does not fit saturates *)
Definition f32_as_uint (max : Z) (x : f32) : Z :=
  match trunc x with
  | Some z => Z.max 0 (Z.min max z)
  | None => match x with S754_infinity false => max | _ => 0 end
  end.

Definition is_nan (x : spec_float) : bool := match x with S754_nan => true | _ => false end.

Definition flt (a b : spec_float) : bool := SFltb a b.
Definition fle (a b : spec_float) : bool := SFleb a b.
Definition fgt (a b : spec_float) : bool := flt b a.
Definition fge (a b : spec_float) : bool := fle b a.
Definition feq (a b : spec_float) : bool := SFeqb a b.

(** [max] and [min]: the other operand if one is NaN *)
Definition fmax (a b : spec_float) : spec_float :=
  if is_nan a then b else if is_nan b then a else if flt a b then b else a.
Definition fmin (a b : spec_float) : spec_float :=
  if is_nan a then b else if is_nan b then a else if flt b a then b else a.

(** [clamp]: panics ([None]) unless [lo <= hi], so also if one is NaN; a NaN
    stays a NaN *)
Definition fclamp (x lo hi : spec_float) : option spec_float :=
  if fle lo hi then
    let x := if flt x lo then lo else x in
    Some (if fgt x hi then hi else x)
  else None.

Definition infinity : spec_float := S754_infinity false.
Definition neg_infinity : spec_float := S754_infinity true.
Definition neg_zero : spec_float := S754_zero true.

(** [iter().sum()]: starts from minus zero, the neutral element *)
Definition f32_sum (l : list f32) : f32 := foldl f32_add neg_zero l.

(** ** Order

    The place of a number: its sign with infinities outermost, its exponent,
    its mantissa, compared in this order. *)

Definition place (x : spec_float) : Z * Z * Z :=
  match x with
  | S754_infinity true => (-2, 0, 0)
  | S754_finite true m e => (-1, - e, Zneg m)
  | S754_zero _ | S754_nan => (0, 0, 0)
  | S754_finite false m e => (1, e, Zpos m)
  | S754_infinity false => (2, 0, 0)
  end.

Definition place_cmp (a b : Z * Z * Z) : comparison :=
  match a.1.1 ?= b.1.1 with
  | Eq => match a.1.2 ?= b.1.2 with Eq => a.2 ?= b.2 | r => r end
  | r => r
  end.

Lemma compare_places a b :
  SFcompare a b = if is_nan a || is_nan b then None else Some (place_cmp (place a) (place b)).
Proof.
  destruct a as [[]|[]| |[] ma ea], b as [[]|[]| |[] mb eb]; try reflexivity; cbn.
  - unfold place_cmp. cbn. rewrite Z.compare_opp, (Z.compare_antisym ea eb).
    destruct (ea ?= eb); cbn; try done.
Qed.

Definition place_le (a b : Z * Z * Z) : Prop :=
  a.1.1 < b.1.1 \/ (a.1.1 = b.1.1 /\ (a.1.2 < b.1.2 \/ (a.1.2 = b.1.2 /\ a.2 <= b.2))).

Lemma place_cmp_le a b : place_cmp a b <> Gt <-> place_le a b.
Proof.
  destruct a as [[a1 a2] a3], b as [[b1 b2] b3]. unfold place_cmp, place_le. cbn.
  destruct (Z.compare_spec a1 b1), (Z.compare_spec a2 b2), (Z.compare_spec a3 b3); split; intros; try done; lia.
Qed.

Lemma fle_spec a b : fle a b = true <-> is_nan a = false /\ is_nan b = false /\ place_le (place a) (place b).
Proof.
  unfold fle, SFleb. rewrite compare_places, <-place_cmp_le.
  destruct (is_nan a), (is_nan b); cbn; [naive_solver..|]. destruct (place_cmp _ _); naive_solver.
Qed.

Lemma flt_spec a b : flt a b = true <-> is_nan a = false /\ is_nan b = false /\ ~ place_le (place b) (place a).
Proof.
  unfold flt, SFltb. rewrite compare_places.
  destruct (is_nan a) eqn:Ha, (is_nan b) eqn:Hb; cbn; [naive_solver..|].
  destruct (place a) as [[a1 a2] a3], (place b) as [[b1 b2] b3]. unfold place_cmp, place_le. cbn.
  destruct (Z.compare_spec a1 b1), (Z.compare_spec a2 b2), (Z.compare_spec a3 b3); split; intros; try done; lia.
Qed.

Lemma fle_refl a : is_nan a = false -> fle a a = true.
Proof. intros Ha. apply fle_spec. unfold place_le. split_and!; [done..|lia]. Qed.

Lemma fle_trans a b c : fle a b = true -> fle b c = true -> fle a c = true.
Proof. rewrite !fle_spec. unfold place_le. intros (Ha & Hb & Hab) (_ & Hc & Hbc). split_and!; [done..|]. lia. Qed.

(** Numbers are in one order or the other. *)
Lemma fle_or_flt a b : is_nan a = false -> is_nan b = false -> fle a b = negb (flt b a).
Proof.
  intros Ha Hb. destruct (flt b a) eqn:Hl; cbn.
  - apply flt_spec in Hl as (_ & _ & Hl). apply not_true_iff_false. rewrite fle_spec. naive_solver.
  - apply fle_spec. split_and!; [done..|]. apply not_true_iff_false in Hl. rewrite flt_spec in Hl.
    assert (~ ~ place_le (place a) (place b)) as Hd by naive_solver. unfold place_le in *. lia.
Qed.

Lemma flt_fle a b : flt a b = true -> fle a b = true.
Proof. rewrite flt_spec, fle_spec. unfold place_le. intros (? & ? & ?). split_and!; [done..|]. lia. Qed.

Lemma flt_not_fge a b : flt a b = true -> fge a b = false.
Proof. unfold fge. rewrite flt_spec. intros (Ha & Hb & Hn). apply not_true_iff_false. rewrite fle_spec. naive_solver. Qed.

(** *** [min], [max] and [clamp] *)

Lemma fmin_le a b : is_nan b = false -> fle (fmin a b) b = true.
Proof.
  intros Hb. unfold fmin. destruct (is_nan a) eqn:Ha; [by apply fle_refl|]. rewrite Hb.
  destruct (flt b a) eqn:Hl; [by apply fle_refl|]. by rewrite fle_or_flt, Hl.
Qed.

Lemma fmin_le_l a b : is_nan a = false -> fle (fmin a b) a = true.
Proof.
  intros Ha. unfold fmin. rewrite Ha. destruct (is_nan b) eqn:Hb; [by apply fle_refl|].
  destruct (flt b a) eqn:Hl; [by apply flt_fle|by apply fle_refl].
Qed.

Lemma fmin_one_of a b : fmin a b = a \/ (fmin a b = b /\ is_nan b = false) \/ (is_nan a = true /\ fmin a b = b).
Proof. unfold fmin. destruct (is_nan a); [auto|]. destruct (is_nan b); [auto|]. destruct (flt b a); auto. Qed.

Lemma fmax_ge a b : is_nan b = false -> fle b (fmax a b) = true.
Proof.
  intros Hb. unfold fmax. destruct (is_nan a) eqn:Ha; [by apply fle_refl|]. rewrite Hb.
  destruct (flt a b) eqn:Hl; [by apply fle_refl|]. by rewrite fle_or_flt, Hl.
Qed.

Lemma fmax_ge_l a b : is_nan a = false -> fle a (fmax a b) = true.
Proof.
  intros Ha. unfold fmax. rewrite Ha. destruct (is_nan b) eqn:Hb; [by apply fle_refl|].
  destruct (flt a b) eqn:Hl; [by apply flt_fle|by apply fle_refl].
Qed.

Lemma fclamp_range x lo hi y :
  fclamp x lo hi = Some y -> (is_nan x = true /\ y = x) \/ (fle lo y = true /\ fle y hi = true).
Proof.
  unfold fclamp. destruct (fle lo hi) eqn:Hr; [|done]. intros [= <-]. destruct (is_nan x) eqn:Hx.
  - left. destruct x; try done. split; [done|]. by destruct hi.
  - right. pose proof Hr as (Hlo & Hhi & _)%fle_spec. unfold fgt. destruct (flt x lo) eqn:Hl.
    + destruct (flt hi lo) eqn:Hc; [|split; [by apply fle_refl|done]].
      split; [done|by apply fle_refl].
    + destruct (flt hi x) eqn:Hc; [split; [done|by apply fle_refl]|].
      by rewrite !fle_or_flt, Hl, Hc.
Qed.

Lemma fclamp_total x lo hi : fle lo hi = true -> is_Some (fclamp x lo hi).
Proof. intros Hr. unfold fclamp. rewrite Hr. eauto. Qed.
