(* ===== verification/Steps.v ===== *)
(** * The processing steps

    [signal-modules/steps/*/src/lib.rs]: averages, extrema, thresholds,
    hysteresis, the fan curve and the cadence step, on IEEE numbers, against
    what each is to compute from the history of its inputs; and that together
    they keep the types their descriptors declare, which is what the source
    tasks rely on. *)

From S2P Require Import Prelude Text Signal Board Pipeline PipelineFacts Codegen CodegenFacts SourceTask SourceTaskFacts SourceTypes Float.
From Stdlib Require Import ZArith Lia Strings.String Floats.SpecFloat.
From stdpp Require Import base list option sets gmap.

Local Open Scope Z_scope.

(** ** The steps *)

Record MovingAverageConfig := mkMovingAverageConfig { ma_cfg_window : Z }.
Definition MAX_WINDOW : Z := 64.

Record MovingAverageState := mkMovingAverageState { ma_buf : list f32; ma_idx : Z; ma_count : Z; ma_window : Z }.

Definition moving_average_new (cfg : MovingAverageConfig) : MovingAverageState :=
  mkMovingAverageState (replicate (Z.to_nat MAX_WINDOW) (S754_zero false)) 0 0 (Z.max 1 (Z.min MAX_WINDOW (ma_cfg_window cfg))).

(** [None]: an index out of bounds, which panics *)
Definition moving_average_step (s : MovingAverageState) (input : f32) : option (option f32 * MovingAverageState) :=
  if ma_idx s <? Z.of_nat (length (ma_buf s)) then
    let buf := <[Z.to_nat (ma_idx s) := input]> (ma_buf s) in
    let idx := (ma_idx s + 1) mod ma_window s in
    let count := if ma_count s <? ma_window s then ma_count s + 1 else ma_count s in
    let s' := mkMovingAverageState buf idx count (ma_window s) in
    if count =? ma_window s then
      if ma_window s <=? Z.of_nat (length buf) then
        Some (Some (f32_div (f32_sum (take (Z.to_nat (ma_window s)) buf)) (f32_of_Z (ma_window s))), s')
      else None
    else Some (None, s')
  else None.

Definition min_value_new : f32 := infinity.
Definition min_value_step (min : f32) (value : f32) : option f32 * f32 := let min := fmin min value in (Some min, min).
Definition max_value_new : f32 := neg_infinity.
Definition max_value_step (max : f32) (value : f32) : option f32 * f32 := let max := fmax max value in (Some max, max).

Record ThresholdAlarm := mkThresholdAlarm { al_value : f32; al_threshold : f32 }.
Record ThresholdTriggerConfig := mkThresholdTriggerConfig { tc_threshold : f32; tc_fire_below : bool }.
Record ThresholdTriggerState := mkThresholdTriggerState { tt_threshold : f32; tt_fire_below : bool; tt_active : bool }.

Definition threshold_trigger_new (cfg : ThresholdTriggerConfig) : ThresholdTriggerState :=
  mkThresholdTriggerState (tc_threshold cfg) (tc_fire_below cfg) false.

Definition threshold_trigger_step (s : ThresholdTriggerState) (value : f32) : option ThresholdAlarm * ThresholdTriggerState :=
  let in_trigger_region := if tt_fire_below s then flt value (tt_threshold s) else fgt value (tt_threshold s) in
  let edge := in_trigger_region && negb (tt_active s) in
  (if edge then Some (mkThresholdAlarm value (tt_threshold s)) else None,
   mkThresholdTriggerState (tt_threshold s) (tt_fire_below s) in_trigger_region).

Record HysteresisConfig := mkHysteresisConfig { hc_on : f32; hc_off : f32 }.
Record HysteresisState := mkHysteresisState { on_threshold : f32; off_threshold : f32; hy_on : bool }.

Definition hysteresis_new (cfg : HysteresisConfig) : HysteresisState :=
  mkHysteresisState (fmax (hc_on cfg) (hc_off cfg)) (fmin (hc_on cfg) (hc_off cfg)) false.

(** The command is the [on] of a [DigitalState]. *)
Definition hysteresis_step (s : HysteresisState) (value : f32) : option bool * HysteresisState :=
  if negb (hy_on s) && fge value (on_threshold s)
  then (Some true, mkHysteresisState (on_threshold s) (off_threshold s) true)
  else if hy_on s && fle value (off_threshold s)
  then (Some false, mkHysteresisState (on_threshold s) (off_threshold s) false)
  else (None, s).

Record FanCurveConfig := mkFanCurveConfig { in_min : f32; in_max : f32; out_min : f32; out_max : f32 }.

(** The duty of a [PwmDuty]; [None]: the clamp panics *)
Definition fan_curve_step (c : FanCurveConfig) (value : f32) : option f32 :=
  let span := f32_sub (in_max c) (in_min c) in
  t ← (if feq span (f32_of_Z 0) then Some (if fge value (in_max c) then f32_of_Z 1 else f32_of_Z 0)
       else fclamp (f32_div (f32_sub value (in_min c)) span) (f32_of_Z 0) (f32_of_Z 1));
  Some (f32_add (out_min c) (f32_mul t (f32_sub (out_max c) (out_min c)))).

Inductive CadenceMode := Decimate | SampleHold.
Record CadenceConfig := mkCadenceConfig { cc_every : Z; cc_mode : CadenceMode }.
Record CadenceState (T : Type) := mkCadenceState { cd_every : Z; cd_count : Z; cd_mode : CadenceMode; cd_held : option T }.
Arguments mkCadenceState {T}. Arguments cd_every {T}. Arguments cd_count {T}. Arguments cd_mode {T}. Arguments cd_held {T}.

Definition cadence_new {T} (cfg : CadenceConfig) : CadenceState T := mkCadenceState (cc_every cfg) 0 (cc_mode cfg) None.

(** [None]: the count overflows its 32 bits, which panics *)
Definition cadence_step {T} (s : CadenceState T) (input : T) : option (option T * CadenceState T) :=
  if cd_every s <=? 1 then Some (Some input, s)
  else
    let is_sample := cd_count s =? 0 in
    if cd_count s + 1 <=? u32_max then
      let count := (cd_count s + 1) mod cd_every s in
      Some (match cd_mode s with
            | Decimate => (if is_sample then Some input else None, mkCadenceState (cd_every s) count Decimate (cd_held s))
            | SampleHold =>
                if is_sample then (Some input, mkCadenceState (cd_every s) count SampleHold (Some input))
                else (cd_held s, mkCadenceState (cd_every s) count SampleHold (cd_held s))
            end)
    else None.

(** ** Histories *)

Section Run.
Context {S I O : Type} (step : S -> I -> option (option O * S)).

(** The outputs for a list of inputs, and the state after it; [None]: a panic *)
Fixpoint outputs_of (vs : list I) (s : S) : option (list (option O) * S) :=
  match vs with
  | [] => Some ([], s)
  | v :: vs => '(o, s) ← step s v; '(os, s) ← outputs_of vs s; Some (o :: os, s)
  end.

Lemma outputs_snoc vs v s :
  outputs_of (vs ++ [v]) s = ('(os, s) ← outputs_of vs s; '(o, s) ← step s v; Some (os ++ [o], s)).
Proof.
  revert s. induction vs as [|w vs IH]; intros s; cbn.
  - destruct (step s v) as [[o s']|]; done.
  - destruct (step s w) as [[o s']|]; cbn; [|done]. rewrite IH.
    destruct (outputs_of vs s') as [[os s'']|]; cbn; [|done]. by destruct (step s'' v) as [[o' s3]|].
Qed.

(** What holds of the outputs so far and the state after every history. *)
Lemma outputs_inv (P : list I -> list (option O) -> S -> Prop) s0 vs :
  P [] [] s0 ->
  (forall vs os s v, P vs os s -> exists o s', step s v = Some (o, s') /\ P (vs ++ [v]) (os ++ [o]) s') ->
  exists os s, outputs_of vs s0 = Some (os, s) /\ P vs os s.
Proof.
  intros H0 Hs. induction vs as [|v vs IH] using rev_ind; [by exists [], s0|].
  destruct IH as (os & s & Hr & HP). destruct (Hs _ _ _ v HP) as (o & s' & Hv & HP').
  exists (os ++ [o]), s'. rewrite outputs_snoc, Hr. cbn. by rewrite Hv.
Qed.
End Run.

(** A step that cannot panic. *)
Definition pure_step {S I O} (step : S -> I -> option O * S) (s : S) (v : I) : option (option O * S) := Some (step s v).

Lemma lookup_snoc_lt {A} (l : list A) x k : (k < length l)%nat -> (l ++ [x]) !! k = l !! k.
Proof. intros Hk. by apply lookup_app_l. Qed.

Lemma lookup_snoc_eq {A} (l : list A) x k : k = length l -> (l ++ [x]) !! k = Some x.
Proof. intros ->. apply list_lookup_middle. done. Qed.

(** ** Cadence *)

(** What is to come out for the [k]-th input. *)
Definition cadence_at {T} (cfg : CadenceConfig) (vs : list T) (k : nat) : option T :=
  if cc_every cfg <=? 1 then vs !! k
  else
    let r := (k mod Z.to_nat (cc_every cfg))%nat in
    match cc_mode cfg with
    | Decimate => if (r =? 0)%nat then vs !! k else None
    | SampleHold => vs !! (k - r)%nat
    end.

Lemma mod_le_self k n : (k mod n <= k)%nat.
Proof. apply Nat.Div0.mod_le. Qed.

Lemma cadence_at_snoc {T} cfg (vs : list T) v k :
  (k < length vs)%nat -> cadence_at cfg (vs ++ [v]) k = cadence_at cfg vs k.
Proof.
  intros Hk. unfold cadence_at. pose proof (mod_le_self k (Z.to_nat (cc_every cfg))).
  destruct (cc_every cfg <=? 1); [by apply lookup_snoc_lt|].
  destruct (cc_mode cfg); [case_match; [by apply lookup_snoc_lt|done]|apply lookup_snoc_lt; lia].
Qed.

(** The next output: the input, or what the previous one left. *)
Lemma cadence_at_next {T} cfg (vs : list T) v :
  1 < cc_every cfg ->
  cadence_at cfg (vs ++ [v]) (length vs) =
    match cc_mode cfg with
    | Decimate => if (length vs mod Z.to_nat (cc_every cfg) =? 0)%nat then Some v else None
    | SampleHold => if (length vs mod Z.to_nat (cc_every cfg) =? 0)%nat then Some v else cadence_at cfg vs (length vs - 1)
    end.
Proof.
  intros Hgt. unfold cadence_at. rewrite (proj2 (Z.leb_gt _ _) Hgt).
  set (n := Z.to_nat (cc_every cfg)). assert (1 < n)%nat as Hn by lia.
  rewrite (lookup_snoc_eq vs v (length vs)) by done.
  destruct (cc_mode cfg); [done|]. destruct (Nat.eqb_spec (length vs mod n) 0) as [Hz|Hz].
  - rewrite Hz, Nat.sub_0_r. by rewrite lookup_snoc_eq.
  - pose proof (mod_le_self (length vs) n). pose proof (Nat.mod_upper_bound (length vs) n ltac:(lia)).
    assert ((length vs - 1) mod n = length vs mod n - 1)%nat as ->.
    { symmetry. apply (Nat.mod_unique _ _ (length vs / n)); [lia|]. pose proof (Nat.div_mod_eq (length vs) n). lia. }
    rewrite lookup_snoc_lt by lia. f_equal. lia.
Qed.

(** The state after a history. *)
Definition cadence_after {T} (cfg : CadenceConfig) (vs : list T) (s : CadenceState T) : Prop :=
  cd_every s = cc_every cfg /\ cd_mode s = cc_mode cfg /\
  (1 < cc_every cfg -> cd_count s = Z.of_nat (length vs mod Z.to_nat (cc_every cfg))) /\
  (1 < cc_every cfg -> cc_mode cfg = SampleHold -> vs <> [] -> cd_held s = cadence_at cfg vs (length vs - 1)).

Lemma cadence_next {T} cfg (vs : list T) s v :
  0 <= cc_every cfg <= u32_max -> cadence_after cfg vs s ->
  exists s', cadence_step s v = Some (cadence_at cfg (vs ++ [v]) (length vs), s') /\ cadence_after cfg (vs ++ [v]) s'.
Proof.
  intros Hr (He & Hm & Hc & Hh). unfold cadence_step. rewrite He, Hm.
  destruct (Z.leb_spec (cc_every cfg) 1) as [Hle|Hgt].
  { exists s. split; [|unfold cadence_after; split_and!; [done..|lia|lia]].
    unfold cadence_at. rewrite (proj2 (Z.leb_le _ _) Hle). by rewrite lookup_snoc_eq. }
  specialize (Hc Hgt). set (n := Z.to_nat (cc_every cfg)) in *.
  assert (1 < n)%nat as Hn by lia. pose proof (Nat.mod_upper_bound (length vs) n ltac:(lia)) as Hlt.
  rewrite (proj2 (Z.leb_le (cd_count s + 1) u32_max)) by lia.
  assert ((cd_count s + 1) mod cc_every cfg = Z.of_nat (length (vs ++ [v]) mod n)) as Hcount.
  { rewrite Hc, length_app. cbn [length]. rewrite !Nat2Z.inj_mod, Nat2Z.inj_add. unfold n. rewrite Z2Nat.id by lia.
    by rewrite Zplus_mod_idemp_l. }
  pose proof (cadence_at_next cfg vs v Hgt) as Hat. fold n in Hat.
  rewrite Hat, Hc. assert ((Z.of_nat (length vs mod n) =? 0) = (length vs mod n =? 0)%nat) as ->.
  { destruct (Nat.eqb_spec (length vs mod n) 0), (Z.eqb_spec (Z.of_nat (length vs mod n)) 0); try done; lia. }
  rewrite Hc in Hcount.
  assert (forall held, (cc_mode cfg = SampleHold -> held = cadence_at cfg (vs ++ [v]) (length vs)) ->
    cadence_after cfg (vs ++ [v]) (mkCadenceState (cc_every cfg) ((Z.of_nat (length vs mod n) + 1) mod cc_every cfg) (cc_mode cfg) held)) as Hafter.
  { intros held Hheld. unfold cadence_after. cbn. split_and!; [done|done|by intros|]. intros _ Hs _. rewrite (Hheld Hs).
    rewrite length_app. cbn. f_equal. lia. }
  destruct (cc_mode cfg) eqn:Hmode; [eexists; split; [done|]; by apply Hafter|].
  destruct (length vs mod n =? 0)%nat eqn:Hz.
  - eexists. split; [done|]. apply Hafter. intros _. by rewrite Hat.
  - assert (vs <> []) as Hne by (intros ->; cbn in Hz; by rewrite Nat.Div0.mod_0_l in Hz).
    rewrite (Hh Hgt eq_refl Hne). eexists. split; [done|]. apply Hafter. intros _. by rewrite Hat.
Qed.

(** A cadence step never panics, and its output for the k-th input is what
    its settings describe: every input if [every] is 0 or 1, otherwise the
    inputs whose number is a multiple of [every], and between them nothing or
    the last of them. *)
Theorem cadence_exact {T} cfg (vs : list T) :
  0 <= cc_every cfg <= u32_max ->
  exists os s, outputs_of cadence_step vs (cadence_new cfg) = Some (os, s) /\ length os = length vs /\
    forall k, (k < length vs)%nat -> os !! k = Some (cadence_at cfg vs k).
Proof.
  intros Hr.
  destruct (outputs_inv cadence_step (fun vs os s => cadence_after cfg vs s /\ length os = length vs /\
    forall k, (k < length vs)%nat -> os !! k = Some (cadence_at cfg vs k)) (cadence_new cfg) vs) as (os & s & Ho & _ & Hl & Hk).
  - split; [|split; [done|cbn; lia]]. unfold cadence_after. cbn. split_and!; [done|done| |done].
    intros. by rewrite Nat.Div0.mod_0_l.
  - intros ws os s v (Ha & Hl & Hk). destruct (cadence_next cfg ws s v Hr Ha) as (s' & Hs & Ha').
    eexists _, s'. split; [exact Hs|]. split; [done|]. rewrite !length_app, Hl. split; [done|]. cbn. intros k Hlt.
    destruct (decide (k = length ws)) as [->|Hne].
    + by rewrite lookup_snoc_eq.
    + rewrite lookup_snoc_lt, cadence_at_snoc by lia. apply Hk. lia.
  - by exists os, s.
Qed.

(** ** Moving average *)

(** The last [w] inputs as the ring holds them: the place of an input is its
    number modulo [w]. *)
Definition ring (w : nat) (vs : list f32) : list f32 :=
  let l := last_n w vs in
  let r := (length vs mod w)%nat in
  drop (w - r) l ++ take (w - r) l.

Definition average_at (w : nat) (vs : list f32) (k : nat) : option f32 :=
  if (Datatypes.S k <? w)%nat then None
  else Some (f32_div (f32_sum (ring w (take (Datatypes.S k) vs))) (f32_of_Z (Z.of_nat w))).

Lemma mod_of_place q w i : (i < w)%nat -> ((q * w + i) mod w = i)%nat.
Proof. intros Hi. symmetry. apply (Nat.mod_unique _ _ q); lia. Qed.

Lemma mod_distinct w j n : (j < n < j + w)%nat -> (j mod w <> n mod w)%nat.
Proof.
  intros Hj Hm. pose proof (Nat.div_mod_eq n w). pose proof (Nat.div_mod_eq j w).
  destruct (decide (n / w <= j / w)%nat); nia.
Qed.

Lemma ring_lookup w vs i :
  (i < w)%nat -> (w <= length vs)%nat ->
  exists j, (length vs - w <= j < length vs)%nat /\ (j mod w = i)%nat /\ ring w vs !! i = vs !! j.
Proof.
  intros Hi Hl. unfold ring, last_n. set (r := (length vs mod w)%nat). set (q := (length vs / w)%nat).
  assert (length vs = q * w + r)%nat as Hd by (unfold q, r; pose proof (Nat.div_mod_eq (length vs) w); lia).
  assert (r < w)%nat as Hr by (unfold r; apply Nat.mod_upper_bound; lia). clearbody r q.
  assert (q <> 0)%nat as Hq by (intros ->; lia).
  destruct (decide (i < r)%nat) as [Hlt|Hge].
  - exists (q * w + i)%nat. split; [lia|]. split; [by apply mod_of_place|].
    rewrite lookup_app_l by (rewrite !length_drop; lia). rewrite !lookup_drop. f_equal. lia.
  - exists ((q - 1) * w + i)%nat. split; [nia|]. split; [by apply mod_of_place|].
    rewrite lookup_app_r by (rewrite !length_drop; lia). rewrite !length_drop.
    rewrite lookup_take_lt by lia. rewrite lookup_drop. f_equal. nia.
Qed.

(** The state after a history: the ring holds the newest inputs. *)
Record average_after (w : nat) (vs : list f32) (s : MovingAverageState) : Prop := {
  aa_window : ma_window s = Z.of_nat w;
  aa_len : length (ma_buf s) = Z.to_nat MAX_WINDOW;
  aa_idx : ma_idx s = Z.of_nat (length vs mod w);
  aa_count : ma_count s = Z.of_nat (Nat.min (length vs) w);
  aa_buf : forall j, (length vs - w <= j < length vs)%nat -> ma_buf s !! (j mod w)%nat = vs !! j;
}.

Lemma filled_ring w vs s :
  (0 < w <= Z.to_nat MAX_WINDOW)%nat -> average_after w vs s -> (w <= length vs)%nat -> take w (ma_buf s) = ring w vs.
Proof.
  intros Hw Ha Hl. apply list_eq_same_length with w.
  - unfold ring, last_n. rewrite length_app, length_take, !length_drop.
    pose proof (Nat.mod_upper_bound (length vs) w ltac:(lia)). lia.
  - rewrite length_take, (aa_len _ _ _ Ha). lia.
  - intros i x y Hi Hx Hy. destruct (ring_lookup w vs i Hi Hl) as (j & Hj & Hm & Hr).
    rewrite lookup_take_lt in Hx by lia. rewrite <-Hm, (aa_buf _ _ _ Ha j Hj) in Hx. congruence.
Qed.

Lemma average_next w vs s v :
  (0 < w <= Z.to_nat MAX_WINDOW)%nat -> average_after w vs s ->
  exists s', moving_average_step s v = Some (average_at w (vs ++ [v]) (length vs), s') /\ average_after w (vs ++ [v]) s'.
Proof.
  intros Hw Ha. destruct Ha as [Hwin Hlen Hidx Hcnt Hbuf] eqn:HaE.
  pose proof (Nat.mod_upper_bound (length vs) w ltac:(lia)) as Hlt. unfold MAX_WINDOW in *.
  unfold moving_average_step. rewrite Hidx, Hlen, Hwin, Hcnt.
  rewrite (proj2 (Z.ltb_lt _ _)) by lia. rewrite length_insert, Hlen.
  set (s' := mkMovingAverageState _ _ _ _).
  assert (average_after w (vs ++ [v]) s') as Ha'.
  { split; cbn [ma_window ma_buf ma_idx ma_count s'].
    - done.
    - by rewrite length_insert.
    - rewrite length_app. cbn [length]. rewrite !Nat2Z.inj_mod, Nat2Z.inj_add. by rewrite Zplus_mod_idemp_l.
    - rewrite length_app. cbn [length]. destruct (Z.ltb_spec (Z.of_nat (Nat.min (length vs) w)) (Z.of_nat w)); lia.
    - intros j Hj. rewrite length_app in Hj. cbn [length] in Hj. rewrite Nat2Z.id.
      destruct (decide (j = length vs)) as [->|Hne].
      + rewrite list_lookup_insert_eq by lia. by rewrite lookup_snoc_eq.
      + rewrite list_lookup_insert_ne.
        * rewrite lookup_snoc_lt by lia. apply Hbuf. lia.
        * intros Hm. by apply (mod_distinct w j (length vs)); [lia..|]. }
  exists s'. split; [|done]. unfold average_at. rewrite (take_ge (vs ++ [v])) by (rewrite length_app; cbn; lia).
  pose proof (aa_count _ _ _ Ha') as Hc'. cbn [ma_count s'] in Hc'. rewrite Hc', length_app. cbn [length].
  destruct (Nat.ltb_spec (Datatypes.S (length vs)) w) as [Hs|Hs].
  - rewrite (proj2 (Z.eqb_neq _ _)) by lia. done.
  - rewrite (proj2 (Z.eqb_eq _ _)) by lia. rewrite (proj2 (Z.leb_le _ _)) by lia. rewrite Nat2Z.id.
    pose proof (filled_ring w (vs ++ [v]) s' ltac:(unfold MAX_WINDOW; lia) Ha' ltac:(rewrite length_app; cbn; lia)) as Hring.
    cbn [ma_buf s'] in Hring. by rewrite Hring.
Qed.

(** A moving average never panics, whatever its window is set to.  With the
    window clamped to 1..64 it emits nothing for the first inputs until the
    window is full, and then for every input the sum of exactly the last
    inputs of the window, added in the order of the ring, over their number. *)
Theorem moving_average_exact cfg vs :
  0 <= ma_cfg_window cfg ->
  let w := Z.to_nat (Z.max 1 (Z.min MAX_WINDOW (ma_cfg_window cfg))) in
  exists os s, outputs_of moving_average_step vs (moving_average_new cfg) = Some (os, s) /\ length os = length vs /\
    forall k, (k < length vs)%nat -> os !! k = Some (average_at w vs k).
Proof.
  intros Hcfg w. assert (0 < w <= Z.to_nat MAX_WINDOW)%nat as Hw by (unfold w, MAX_WINDOW; lia).
  destruct (outputs_inv moving_average_step (fun vs os s => average_after w vs s /\ length os = length vs /\
    forall k, (k < length vs)%nat -> os !! k = Some (average_at w vs k)) (moving_average_new cfg) vs)
    as (os & s & Ho & _ & Hl & Hk).
  - split; [|split; [done|cbn; lia]]. split; cbn [moving_average_new ma_window ma_buf ma_idx ma_count length].
    + unfold w. lia.
    + by rewrite length_replicate.
    + by rewrite Nat.Div0.mod_0_l.
    + done.
    + lia.
  - intros ws os s v (Ha & Hl & Hk). destruct (average_next w ws s v Hw Ha) as (s' & Hs & Ha').
    eexists _, s'. split; [exact Hs|]. split; [done|]. rewrite !length_app, Hl. split; [done|]. cbn. intros k Hlt.
    destruct (decide (k = length ws)) as [->|Hne]; [by rewrite lookup_snoc_eq|].
    rewrite lookup_snoc_lt by lia. rewrite Hk by lia. unfold average_at. by rewrite take_app_le by lia.
  - by exists os, s.
Qed.

(** ** Hysteresis *)

(** Where the last input outside the band left the output. *)
Definition outside (hi lo v : f32) : bool := fge v hi || fle v lo.
Definition switched_on (hi lo : f32) (vs : list f32) : bool :=
  match last (List.filter (outside hi lo) vs) with Some v => fge v hi | None => false end.

Lemma switched_on_snoc hi lo vs v :
  switched_on hi lo (vs ++ [v]) = if outside hi lo v then fge v hi else switched_on hi lo vs.
Proof.
  unfold switched_on. rewrite List.filter_app. cbn. destruct (outside hi lo v).
  - by rewrite last_snoc.
  - by rewrite app_nil_r.
Qed.

Lemma bounds_ordered a b :
  is_nan a = false -> is_nan b = false -> feq a b = false -> flt (fmin a b) (fmax a b) = true.
Proof.
  intros Ha Hb He. unfold fmin, fmax. rewrite Ha, Hb.
  assert (flt b a = true \/ flt a b = true) as Hd.
  { unfold feq, SFeqb, flt, SFltb in *. rewrite !compare_places in *. rewrite Ha, Hb in *. cbn in *.
    destruct (place a) as [[a1 a2] a3], (place b) as [[b1 b2] b3]. unfold place_cmp in *. cbn in *.
    rewrite (Z.compare_antisym a1 b1), (Z.compare_antisym a2 b2), (Z.compare_antisym a3 b3).
    destruct (a1 ?= b1), (a2 ?= b2), (a3 ?= b3); cbn in *; auto. }
  destruct (flt b a) eqn:H1, (flt a b) eqn:H2; [|done..|by destruct Hd].
  apply flt_fle in H1. apply flt_not_fge in H2. unfold fge in H2. congruence.
Qed.

(** With two different thresholds, in either order, the output after any
    inputs is on exactly if the last input outside the band between them was
    at or above the higher one; a command is emitted exactly for the inputs at
    which this changes, and it is the new state.  NaN inputs are inside. *)
Theorem hysteresis_exact cfg vs :
  is_nan (hc_on cfg) = false -> is_nan (hc_off cfg) = false -> feq (hc_on cfg) (hc_off cfg) = false ->
  let hi := fmax (hc_on cfg) (hc_off cfg) in
  let lo := fmin (hc_on cfg) (hc_off cfg) in
  exists os s, outputs_of (pure_step hysteresis_step) vs (hysteresis_new cfg) = Some (os, s) /\
    hy_on s = switched_on hi lo vs /\ length os = length vs /\
    forall k, (k < length vs)%nat -> os !! k = Some (
      let now := switched_on hi lo (take (Datatypes.S k) vs) in
      if Bool.eqb (switched_on hi lo (take k vs)) now then None else Some now).
Proof.
  intros Hon Hoff Hne hi lo. pose proof (bounds_ordered _ _ Hon Hoff Hne) as Hlt. fold lo hi in Hlt.
  destruct (outputs_inv (pure_step hysteresis_step) (fun vs os s => s = mkHysteresisState hi lo (switched_on hi lo vs) /\
    length os = length vs /\ forall k, (k < length vs)%nat -> os !! k = Some (
      let now := switched_on hi lo (take (Datatypes.S k) vs) in
      if Bool.eqb (switched_on hi lo (take k vs)) now then None else Some now)) (hysteresis_new cfg) vs)
    as (os & s & Ho & -> & Hl & Hk).
  - split; [done|]. split; [done|cbn; lia].
  - intros ws os s v (-> & Hl & Hk). unfold pure_step. eexists _, _. split; [apply f_equal, surjective_pairing|].
    assert (fge v hi = true -> fle v lo = false) as Hex.
    { intros H1. apply not_true_iff_false. intros H2. apply flt_not_fge in Hlt. unfold fge in *.
      rewrite (fle_trans _ _ _ H1 H2) in Hlt. done. }
    rewrite switched_on_snoc. unfold outside, hysteresis_step. cbn [hy_on on_threshold off_threshold].
    split; [destruct (switched_on hi lo ws), (fge v hi), (fle v lo); cbn; try done; by specialize (Hex eq_refl)|].
    rewrite !length_app, Hl. split; [done|]. cbn [length]. intros k Hkl.
    destruct (decide (k = length ws)) as [->|Hn].
    + rewrite lookup_snoc_eq by done. rewrite (take_ge (ws ++ [v]) (Datatypes.S (length ws))) by (rewrite length_app; cbn; lia).
      rewrite take_app_length, switched_on_snoc. unfold outside. cbn zeta. f_equal.
      destruct (switched_on hi lo ws), (fge v hi), (fle v lo); cbn; try done; by specialize (Hex eq_refl).
    + rewrite lookup_snoc_lt by lia. rewrite !take_app_le by lia. apply Hk. lia.
  - by exists os, (mkHysteresisState hi lo (switched_on hi lo vs)).
Qed.

(** With one threshold for both, an input at it switches at every sample. *)
Lemma equal_thresholds_chatter x s :
  is_nan x = false -> on_threshold s = x -> off_threshold s = x ->
  hysteresis_step s x = (Some (negb (hy_on s)), mkHysteresisState x x (negb (hy_on s))).
Proof.
  intros Hx Hon Hoff. unfold hysteresis_step, fge. rewrite Hon, Hoff, (fle_refl x Hx). by destruct (hy_on s).
Qed.

(** ** Thresholds *)

Definition in_region (cfg : ThresholdTriggerConfig) (v : f32) : bool :=
  if tc_fire_below cfg then flt v (tc_threshold cfg) else fgt v (tc_threshold cfg).

(** A threshold trigger emits an alarm exactly for the inputs that are in
    the trigger region while the input before them, if there is one, is not,
    and the alarm carries the input and the threshold. *)
Theorem threshold_trigger_exact cfg vs :
  exists os s, outputs_of (pure_step threshold_trigger_step) vs (threshold_trigger_new cfg) = Some (os, s) /\
    length os = length vs /\
    forall k v, vs !! k = Some v -> os !! k = Some (
      if in_region cfg v && negb (match k with O => false | Datatypes.S j => from_option (in_region cfg) false (vs !! j) end)
      then Some (mkThresholdAlarm v (tc_threshold cfg)) else None).
Proof.
  destruct (outputs_inv (pure_step threshold_trigger_step) (fun vs os s =>
    s = mkThresholdTriggerState (tc_threshold cfg) (tc_fire_below cfg) (from_option (in_region cfg) false (last vs)) /\
    length os = length vs /\
    forall k v, vs !! k = Some v -> os !! k = Some (
      if in_region cfg v && negb (match k with O => false | Datatypes.S j => from_option (in_region cfg) false (vs !! j) end)
      then Some (mkThresholdAlarm v (tc_threshold cfg)) else None)) (threshold_trigger_new cfg) vs)
    as (os & s & Ho & _ & Hl & Hk).
  - done.
  - intros ws os s v (-> & Hl & Hk). unfold pure_step, threshold_trigger_step. cbn [tt_threshold tt_fire_below tt_active].
    fold (in_region cfg v). eexists _, _. split; [done|]. split; [by rewrite last_snoc|].
    rewrite !length_app, Hl. split; [done|]. intros k x Hx. pose proof (lookup_lt_Some _ _ _ Hx) as Hlt.
    rewrite length_app in Hlt. cbn in Hlt. destruct (decide (k = length ws)) as [->|Hn].
    + rewrite lookup_snoc_eq in Hx by done. injection Hx as <-. rewrite lookup_snoc_eq by done.
      destruct ws as [|w ws]; [done|]. cbn [length]. rewrite last_lookup. cbn [length pred].
      by rewrite (lookup_snoc_lt (w :: ws)) by (cbn; lia).
    + rewrite lookup_snoc_lt in Hx by lia. rewrite lookup_snoc_lt by lia. rewrite (Hk _ _ Hx).
      destruct k; [done|]. by rewrite lookup_snoc_lt by lia.
  - by exists os, s.
Qed.

(** ** Extrema *)

(** The running minimum is at or below every number seen, and one of them. *)
Lemma min_value_exact vs :
  exists os s, outputs_of (pure_step min_value_step) vs min_value_new = Some (os, s) /\
    (forall v, v ∈ vs -> is_nan v = false -> fle s v = true) /\ is_nan s = false /\ (s = infinity \/ s ∈ vs) /\
    last os = match vs with [] => None | _ :: _ => Some (Some s) end.
Proof.
  apply (outputs_inv (pure_step min_value_step) (fun vs os s =>
    (forall v, v ∈ vs -> is_nan v = false -> fle s v = true) /\ is_nan s = false /\ (s = infinity \/ s ∈ vs) /\
    last os = match vs with [] => None | _ :: _ => Some (Some s) end)).
  - split_and!; [intros v Hv; by apply elem_of_nil in Hv|done|by left|done].
  - intros ws os s v (Hle & Hn & Hs & _). eexists _, _. split; [done|]. cbn.
    assert (is_nan (fmin s v) = false) as Hn'.
    { destruct (fmin_one_of s v) as [->|[[-> ?]|[? _]]]; [done|done|congruence]. }
    split_and!; [|done| |by rewrite last_snoc; destruct ws].
    + intros x [Hx| ->%list_elem_of_singleton]%elem_of_app Hxn; [|by apply fmin_le].
      eapply fle_trans; [by apply fmin_le_l|by apply Hle].
    + destruct (fmin_one_of s v) as [->|[[-> _]|[? _]]]; [set_solver|right; set_solver|congruence].
Qed.

(** ** The fan curve *)

(** Whatever its settings and input, it does not panic. *)
Lemma fan_curve_total c v : is_Some (fan_curve_step c v).
Proof.
  unfold fan_curve_step. destruct (feq _ _); [by eexists|].
  destruct (fclamp_total (f32_div (f32_sub v (in_min c)) (f32_sub (in_max c) (in_min c))) (f32_of_Z 0) (f32_of_Z 1)) as [t ->];
    [by vm_compute|]. by eexists.
Qed.

(** What a cadence step emits or holds, it was given. *)
Lemma cadence_keeps {T} (P : T -> Prop) s v o s' :
  (forall x, cd_held s = Some x -> P x) -> P v -> cadence_step s v = Some (o, s') ->
  (forall x, cd_held s' = Some x -> P x) /\ (forall x, o = Some x -> P x).
Proof.
  intros Hh Hv. unfold cadence_step. destruct (cd_every s <=? 1); [intros [= <- <-]; naive_solver|].
  destruct (_ <=? u32_max); [|done]. intros [= Hs].
  destruct (cd_mode s), (cd_count s =? 0); injection Hs as <- <-; cbn; naive_solver.
Qed.

(** ** The steps in a pipeline

    Values carry what their Rust types distinguish; readings of other types
    than [f32] pass through cadence steps only. *)

Inductive value :=
  | VF32 (x : f32)
  | VDigital (on : bool)
  | VPwm (duty : f32)
  | VAlarm (a : ThresholdAlarm)
  | VOther (ty : text).

Definition value_type (v : value) : text :=
  match v with
  | VF32 _ => lit "f32"
  | VDigital _ => lit "DigitalState"
  | VPwm _ => lit "PwmDuty"
  | VAlarm _ => lit "ThresholdAlarm"
  | VOther ty => ty
  end.

Inductive step_state :=
  | SAverage (s : MovingAverageState)
  | SMin (min : f32)
  | SMax (max : f32)
  | STrigger (s : ThresholdTriggerState)
  | SHysteresis (s : HysteresisState)
  | SFan (c : FanCurveConfig)
  | SCadence (s : CadenceState value)
  | SUnknown.

Section Repo.
Context `{Yaml} (f32_literal : F32 -> f32) (config_of : text -> IndexMap ConfigField).

(** The fields of the config a node is created with. *)
Definition uint_field (name : string) (n : NodeInit) : Z :=
  match im_get (lit name) (ni_config n) with Some (LUnsigned _ v) => v | _ => 0 end.
Definition f32_field (name : string) (n : NodeInit) : f32 :=
  match im_get (lit name) (ni_config n) with Some (LF32 v) => f32_literal v | _ => S754_zero false end.
Definition bool_field (name : string) (n : NodeInit) : bool :=
  match im_get (lit name) (ni_config n) with Some (LBool b) => b | _ => false end.
Definition mode_field (n : NodeInit) : CadenceMode :=
  match im_get (lit "mode") (ni_config n) with
  | Some (LVariant _ v) => if text_eqb v (lit "SampleHold") then SampleHold else Decimate
  | _ => Decimate
  end.

Definition node_new (n : NodeInit) : step_state :=
  if text_eqb (ni_op n) (lit "moving-average") then SAverage (moving_average_new (mkMovingAverageConfig (uint_field "window" n)))
  else if text_eqb (ni_op n) (lit "min-value") then SMin min_value_new
  else if text_eqb (ni_op n) (lit "max-value") then SMax max_value_new
  else if text_eqb (ni_op n) (lit "threshold-trigger")
    then STrigger (threshold_trigger_new (mkThresholdTriggerConfig (f32_field "threshold" n) (bool_field "fire_below" n)))
  else if text_eqb (ni_op n) (lit "hysteresis")
    then SHysteresis (hysteresis_new (mkHysteresisConfig (f32_field "on_threshold" n) (f32_field "off_threshold" n)))
  else if text_eqb (ni_op n) (lit "fan-curve")
    then SFan (mkFanCurveConfig (f32_field "in_min" n) (f32_field "in_max" n) (f32_field "out_min" n) (f32_field "out_max" n))
  else if text_eqb (ni_op n) (lit "cadence")
    then SCadence (cadence_new (mkCadenceConfig (uint_field "every" n) (mode_field n)))
  else SUnknown.

(** A step on a value it is typed for; a panic would leave the state. *)
Definition node_step (st : step_state) (v : value) : option value * step_state :=
  match st, v with
  | SAverage s, VF32 x =>
      match moving_average_step s x with Some (o, s) => (VF32 <$> o, SAverage s) | None => (None, st) end
  | SMin m, VF32 x => let '(o, m) := min_value_step m x in (VF32 <$> o, SMin m)
  | SMax m, VF32 x => let '(o, m) := max_value_step m x in (VF32 <$> o, SMax m)
  | STrigger s, VF32 x => let '(o, s) := threshold_trigger_step s x in (VAlarm <$> o, STrigger s)
  | SHysteresis s, VF32 x => let '(o, s) := hysteresis_step s x in (VDigital <$> o, SHysteresis s)
  | SFan c, VF32 x => (VPwm <$> fan_curve_step c x, SFan c)
  | SCadence s, v => match cadence_step s v with Some (o, s) => (o, SCadence s) | None => (None, st) end
  | _, _ => (None, st)
  end.

#[local] Instance repo_steps : Steps value step_state := { step_new := node_new; step_fn := fun _ => node_step }.

(** The types of the descriptors ([descriptor.yaml] of each step). *)
Definition step_descriptor (name : string) (ins outs : list string) : text * DriverSchema :=
  (lit name, mkDriverSchema (config_of (lit name)) (map (fun t => mkDriverOutput (lit "out") (lit t)) outs)
               (map (fun t => mkDriverInput (lit "value") (lit t)) ins) (mkRequires [] []) None).

Definition repo_kinds : IndexMap DriverSchema :=
  [ step_descriptor "moving-average" ["f32"%string] ["f32"%string];
    step_descriptor "min-value" ["f32"%string] ["f32"%string];
    step_descriptor "max-value" ["f32"%string] ["f32"%string];
    step_descriptor "threshold-trigger" ["f32"%string] ["ThresholdAlarm"%string];
    step_descriptor "hysteresis" ["f32"%string] ["DigitalState"%string];
    step_descriptor "fan-curve" ["f32"%string] ["PwmDuty"%string];
    step_descriptor "cadence" [] [] ].

(** What a state is of, and that a held value has the type of the inputs. *)
Definition state_name (st : step_state) : text :=
  match st with
  | SAverage _ => lit "moving-average"
  | SMin _ => lit "min-value"
  | SMax _ => lit "max-value"
  | STrigger _ => lit "threshold-trigger"
  | SHysteresis _ => lit "hysteresis"
  | SFan _ => lit "fan-curve"
  | SCadence _ => lit "cadence"
  | SUnknown => []
  end.

Definition node_ok (n : NodeInit) (ti : text) (st : step_state) : Prop :=
  state_name st = ni_op n /\ match st with SCadence s => forall v, cd_held s = Some v -> value_type v = ti | _ => True end.

Lemma node_new_ok n schema ti :
  im_get (ni_op n) repo_kinds = Some schema -> node_ok n ti (node_new n).
Proof.
  unfold repo_kinds, step_descriptor, node_new, node_ok. cbn [im_get map]. rewrite !(text_eqb_sym _ (ni_op n)).
  repeat match goal with |- context [text_eqb (ni_op n) ?k] =>
    destruct (text_eqb (ni_op n) k) eqn:?; [intros _; split; [symmetry; by apply text_eqb_spec|done]|] end.
  done.
Qed.

Lemma node_step_ok n schema ti st v :
  im_get (ni_op n) repo_kinds = Some schema -> accepts schema ti -> node_ok n ti st -> value_type v = ti ->
  node_ok n ti (node_step st v).2 /\ forall o, (node_step st v).1 = Some o -> value_type o = output_type schema ti.
Proof.
  intros Hk Hacc [Hname Hheld] <-. unfold node_ok. rewrite <-Hname in *.
  destruct st as [s|s|s|s|s|c|s|]; [..|done]; vm_compute in Hk; injection Hk as <-; unfold output_type; cbn [outputs].
  1-6: destruct v; try done; cbn [node_step].
  - destruct (moving_average_step s x) as [[[y|] s']|]; cbn; (split; [done|]); naive_solver.
  - cbn. split; [done|]. naive_solver.
  - cbn. split; [done|]. naive_solver.
  - destruct (threshold_trigger_step s x) as [[y|] s']; cbn; (split; [done|]); naive_solver.
  - destruct (hysteresis_step s x) as [[y|] s']; cbn; (split; [done|]); naive_solver.
  - destruct (fan_curve_step c x) as [y|]; cbn; (split; [done|]); naive_solver.
  - cbn [node_step]. destruct (cadence_step s v) as [[o s']|] eqn:Hs; cbn [fst snd]; [|done].
    destruct (cadence_keeps (fun x => value_type x = value_type v) s v o s' Hheld eq_refl Hs) as [Hh Ho].
    split; [by split|exact Ho].
Qed.

#[local] Instance repo_contract : Contract value step_state repo_kinds.
Proof.
  refine {| has_type := fun v ty => value_type v = ty; state_ok := node_ok |}.
  - intros n schema ti Hk _. by eapply node_new_ok.
  - intros n schema ti st v. apply node_step_ok.
Defined.

Context `{Syn} `{Unicode} (drivers : IndexMap DriverSchema).
Context (hash_order : gmap text nat -> list text) `{!HashOrder hash_order}.

(** C36. With the processing steps of the repository, in every run of the task
    generated for a source of an accepted pipeline, whose steps are of known
    kinds, whose steps' inputs and taps' sources all resolve and whose names stay
    distinct as identifiers, every value in a slot and every value given to an
    output driver has the type the pipeline declares for the tap or outlet, if the
    readings have the fields the pipeline refers to, of the types the sensor's
    descriptor declares. *)
Theorem repo_values_typed p m width source device schema idx t hist s :
  validate_pipeline_against_manifest drivers repo_kinds hash_order p m width = Some [] ->
  source ∈ sources p -> find_device (src_device source) m = Some device -> im_get (driver device) drivers = Some schema ->
  (forall s, s ∈ steps p -> is_Some (im_get (op s) repo_kinds) /\ is_Some (producer_type drivers repo_kinds (input s) p m)) ->
  (forall tp, tp ∈ taps p -> is_Some (producer_type drivers repo_kinds (tap_source tp) p m)) ->
  distinct_idents p ->
  emit_source_task source idx device schema p m drivers repo_kinds = Ok t ->
  (forall i, i ∈ hist -> forall readings, sample i = Some readings ->
    (forall o v, o ∈ outputs schema -> readings (snake_name (do_name o)) = Some v -> value_type v = do_type o) /\
    forall r f, r ∈ references p -> strip_text (prefix_of (src_id source)) r = Some f -> is_Some (readings (snake_name f))) ->
  run t hist (task_new t) = Some s ->
  (forall tp, tp ∈ taps p ->
    (forall ts v, retained_read (default retained_new (retained (env s) !! tap_static_name (tap_name tp))) = Some (ts, v) ->
      value_type v = tap_type tp) /\
    (forall v, v ∈ default event_new (events (env s) !! tap_static_name (tap_name tp)) -> value_type v = tap_type tp)) /\
  (forall d v ts, (d, v, ts) ∈ applied (env s) -> exists oi,
    oi ∈ zip (owned_outlets_for_source (src_id source) p) (st_outlets t) /\ d = oi_driver oi.2 /\ value_type v = out_type oi.1).
Proof. exact (generated_values_typed drivers repo_kinds hash_order p m width source device schema idx t hist s). Qed.
End Repo.

(** ** Samples *)

Module SampleSteps.
Import SampleParams SamplePipeline.

Definition numbers (l : list Z) : list f32 := map f32_of_Z l.

(** The config fields of the descriptors the sample pipeline uses. *)
Definition sample_config (name : text) : IndexMap ConfigField :=
  if text_eqb name (lit "moving-average") then [(lit "window", field Application "usize" (YInt 2))]
  else if text_eqb name (lit "cadence")
    then [(lit "every", field Application "u32" (YInt 1)); (lit "mode", field Application "CadenceMode" (YStr (lit "Decimate")))]
  else if text_eqb name (lit "hysteresis")
    then [(lit "on_threshold", field Application "f32" (YInt 30)); (lit "off_threshold", field Application "f32" (YInt 25))]
  else [].

Definition sample_kinds : IndexMap DriverSchema := repo_kinds sample_config.
Definition sensor : DeviceEntry := mkDeviceEntry (lit "thermo") (lit "bme280") (lit "i2c0") [(lit "drdy", 20)] [].
Definition bme280 : DriverSchema := default default_schema (im_get (lit "bme280") drivers).

Definition climate : SourceTask :=
  match emit_source_task thermo 0 sensor bme280 pipeline (board 20) drivers sample_kinds with
  | Ok t => t
  | Err _ => mkSourceTask [] 0 [] 0 [] [] [] [] [] [] []
  end.

Definition reading (z ts : Z) : TickInput (Val := value) := mkTickInput true (Some (fun _ => Some (VF32 (f32_of_Z z)))) ts.

#[export] Instance sample_repo_steps : Steps value step_state := repo_steps f32_of_Z.

Definition climate_after (l : list (TickInput (Val := value))) : TaskState (Val := value) (St := step_state) :=
  default (task_new climate) (run climate l (task_new climate)).
End SampleSteps.
Import SampleParams SamplePipeline SampleSteps.

Lemma cadence_exact_witness :
  exists os s, outputs_of cadence_step [10; 11; 12; 13; 14] (cadence_new (mkCadenceConfig 3 SampleHold)) = Some (os, s) /\ os !! 4%nat = Some (Some 13).
Proof.
  destruct (cadence_exact (mkCadenceConfig 3 SampleHold) [10; 11; 12; 13; 14]) as (os & s & Ho & _ & Hk).
  - unfold u32_max. cbn. lia.
  - exists os, s. split; [exact Ho|]. rewrite Hk; [reflexivity|]. cbn. lia.
Defined.

Lemma moving_average_exact_witness :
  exists os s, outputs_of moving_average_step (numbers [1; 2; 3; 6]) (moving_average_new (mkMovingAverageConfig 3)) = Some (os, s) /\ os !! 1%nat = Some None /\ os !! 3%nat = Some (Some (f32_ratio 11 3)).
Proof.
  destruct (moving_average_exact (mkMovingAverageConfig 3) (numbers [1; 2; 3; 6])) as (os & s & Ho & _ & Hk).
  - cbn. lia.
  - exists os, s. split; [exact Ho|]. split; rewrite Hk; try (vm_compute; reflexivity); cbn; lia.
Defined.

Lemma hysteresis_exact_witness :
  exists os s, outputs_of (pure_step hysteresis_step) (numbers [31; 27; 25]) (hysteresis_new (mkHysteresisConfig (f32_of_Z 25) (f32_of_Z 30))) = Some (os, s) /\ hy_on s = false.
Proof.
  destruct (hysteresis_exact (mkHysteresisConfig (f32_of_Z 25) (f32_of_Z 30)) (numbers [31; 27; 25])) as (os & s & Ho & Hon & _).
  - vm_compute. reflexivity.
  - vm_compute. reflexivity.
  - vm_compute. reflexivity.
  - exists os, s. split; [exact Ho|]. rewrite Hon. vm_compute. reflexivity.
Defined.

Lemma repo_values_typed_witness :
  exists r, retained_read (default retained_new (retained (env (climate_after [reading 20 7; reading 35 9]))
    !! tap_static_name (lit "mean"))) = Some r /\ value_type r.2 = lit "f32".
Proof.
  assert (is_Some (retained_read (default retained_new (retained (env (climate_after [reading 20 7; reading 35 9]))
    !! tap_static_name (lit "mean"))))) as [[ts v] Hr] by (apply is_Some_alt; vm_compute; exact I).
  exists (ts, v). split; [exact Hr|]. revert Hr.
  refine (proj1 (proj1 (repo_values_typed f32_of_Z sample_config drivers keys_order pipeline (board 20) 32 thermo sensor bme280 0
    climate [reading 20 7; reading 35 9] (climate_after [reading 20 7; reading 35 9])
    _ _ _ _ _ _ _ _ _ _) (tap "mean" TRetained "f32" "avg") _) ts v).
  - vm_refl.
  - apply list_elem_of_singleton. reflexivity.
  - vm_refl.
  - vm_refl.
  - intros s Hs. unfold pipeline in Hs. cbn [steps taps] in Hs.
    repeat (apply elem_of_cons in Hs as [->|Hs]; [split; apply is_Some_alt; vm_compute; exact I|]). by apply not_elem_of_nil in Hs.
  - intros s Hs. unfold pipeline in Hs. cbn [steps taps] in Hs.
    repeat (apply elem_of_cons in Hs as [->|Hs]; [apply is_Some_alt; vm_compute; exact I|]). by apply not_elem_of_nil in Hs.
  - exact sample_distinct.
  - vm_refl.
  - intros i Hi. repeat (apply elem_of_cons in Hi as [->|Hi]; [|]); [| |by apply not_elem_of_nil in Hi];
      (intros rd [= <-]; split; [|by intros; eexists]; intros o w Ho [= <-];
       apply list_elem_of_singleton in Ho as ->; reflexivity).
  - apply some_default, is_Some_alt. vm_compute. exact I.
  - apply elem_of_cons. right. apply elem_of_cons. by left.
Defined.
