(* ===== verification/Outputs.v ===== *)
(** * Output drivers

    [signal-modules/drivers/{gpio-output,gpio-output-feedback,pwm-output}]:
    a relay with its protective interval, the relay with a feedback line, and
    a PWM channel with its duty limits.  The pin and the channel of
    [embedded-hal] are parameters: every write comes with the answer it gets,
    and what was written is returned.  At the end the relay is joined with the
    sink task and with a hysteresis step. *)

From S2P Require Import Prelude Bytes Text Signal Board Codegen SinkTask Float Steps.
From Stdlib Require Import ZArith Lia Strings.String Floats.SpecFloat.
From stdpp Require Import base list option sets gmap.

Local Open Scope Z_scope.

(** [u64::saturating_sub] *)
Definition u64_saturating_sub (a b : Z) : Z := Z.max 0 (a - b).

(** ** Relay *)

Record GpioOutputConfig := mkGpioOutputConfig { gc_active_low : bool; gc_min_switch_interval_ms : Z }.

Record GpioOutput := mkGpioOutput {
  active_low : bool;
  min_switch_interval_ms : Z;
  state_on : option bool;
  last_switch_ms : option Z;
}.

Definition gpio_new (cfg : GpioOutputConfig) : GpioOutput :=
  mkGpioOutput (gc_active_low cfg) (gc_min_switch_interval_ms cfg) None None.

(** The level [drive] sets. *)
Definition level_high (g : GpioOutput) (on : bool) : bool := xorb on (active_low g).

(** Each operation is given the pin's answer and returns whether it succeeded,
    the driver, and the level it set, if it set one. *)
Definition gpio_init (pin_ok : bool) (g : GpioOutput) : bool * GpioOutput * option bool :=
  if pin_ok then (true, mkGpioOutput (active_low g) (min_switch_interval_ms g) (Some false) None, Some (level_high g false))
  else (false, g, Some (level_high g false)).

Definition gpio_apply (on : bool) (now_ms : Z) (pin_ok : bool) (g : GpioOutput) : bool * GpioOutput * option bool :=
  if bool_decide (state_on g = Some on) then (true, g, None)
  else if match last_switch_ms g with
          | Some last => u64_saturating_sub now_ms last <? min_switch_interval_ms g
          | None => false
          end then (true, g, None)
  else if pin_ok
       then (true, mkGpioOutput (active_low g) (min_switch_interval_ms g) (Some on) (Some now_ms), Some (level_high g on))
       else (false, g, Some (level_high g on)).

(** ** Relay with feedback *)

Record GpioOutputFeedback := mkGpioOutputFeedback { gf_output : GpioOutput; feedback_active_low : bool }.

Definition feedback_new (cfg : GpioOutputConfig) (fb_low : bool) : GpioOutputFeedback :=
  mkGpioOutputFeedback (gpio_new cfg) fb_low.

Definition feedback_init (pin_ok : bool) (f : GpioOutputFeedback) : bool * GpioOutputFeedback * option bool :=
  let '(ok, g, w) := gpio_init pin_ok (gf_output f) in (ok, mkGpioOutputFeedback g (feedback_active_low f), w).

Definition feedback_apply (on : bool) (now_ms : Z) (pin_ok : bool) (f : GpioOutputFeedback) : bool * GpioOutputFeedback * option bool :=
  let '(ok, g, w) := gpio_apply on now_ms pin_ok (gf_output f) in (ok, mkGpioOutputFeedback g (feedback_active_low f), w).

(** [read_status], of what the feedback pin reads ([None]: it fails) *)
Definition read_status (is_high : option bool) (f : GpioOutputFeedback) : option bool :=
  level ← is_high; Some (xorb level (feedback_active_low f)).

(** ** PWM *)

Record PwmOutputConfig := mkPwmOutputConfig { pc_min_duty : f32; pc_max_duty : f32; pc_min_update_interval_ms : Z }.

Record PwmOutput := mkPwmOutput { min_duty : f32; max_duty : f32; min_update_interval_ms : Z; last_update_ms : option Z }.

Definition pwm_new (cfg : PwmOutputConfig) : PwmOutput :=
  let '(lo, hi) := if fle (pc_min_duty cfg) (pc_max_duty cfg) then (pc_min_duty cfg, pc_max_duty cfg)
                   else (pc_max_duty cfg, pc_min_duty cfg) in
  mkPwmOutput lo hi (pc_min_update_interval_ms cfg) None.

Definition u16_max : Z := 65535.

(** [write_duty]: the raw value for a channel of resolution [max] *)
Definition raw_duty (max : Z) (duty : f32) : Z :=
  f32_as_uint u16_max (f32_add (f32_mul duty (f32_of_Z max)) (f32_ratio 1 2)).

(** [drive]: [None] is a panic of [clamp] *)
Definition pwm_drive (max : Z) (duty : f32) (p : PwmOutput) : option Z :=
  d ← fclamp duty (min_duty p) (max_duty p);
  d ← fclamp d (f32_of_Z 0) (f32_of_Z 1);
  Some (raw_duty max d).

Definition pwm_init (max : Z) (ok : bool) (p : PwmOutput) : bool * PwmOutput * option Z :=
  (ok, if ok then mkPwmOutput (min_duty p) (max_duty p) (min_update_interval_ms p) None else p,
   Some (raw_duty max (f32_of_Z 0))).

Definition pwm_apply (max : Z) (duty : f32) (now_ms : Z) (ok : bool) (p : PwmOutput) : option (bool * PwmOutput * option Z) :=
  if match last_update_ms p with
     | Some last => u64_saturating_sub now_ms last <? min_update_interval_ms p
     | None => false
     end then Some (true, p, None)
  else
    raw ← pwm_drive max duty p;
    Some (ok, if ok then mkPwmOutput (min_duty p) (max_duty p) (min_update_interval_ms p) (Some now_ms) else p, Some raw).

(** ** The protective interval *)

Inductive RelayOp := RInit (pin_ok : bool) | RApply (on : bool) (now_ms : Z) (pin_ok : bool).

Definition relay_step (o : RelayOp) (g : GpioOutput) : bool * GpioOutput * option bool :=
  match o with RInit ok => gpio_init ok g | RApply on now ok => gpio_apply on now ok g end.

(** The switches of a run: the time and the level of each write of a command
    that succeeded, newest first; bring-up begins anew. *)
Fixpoint relay_run (ops : list RelayOp) (g : GpioOutput) (switches : list (Z * bool)) : GpioOutput * list (Z * bool) :=
  match ops with
  | [] => (g, switches)
  | o :: ops =>
      let '(ok, g', w) := relay_step o g in
      relay_run ops g' (match o, ok, w with
                        | RInit _, true, _ => []
                        | RApply _ now _, true, Some l => (now, l) :: switches
                        | _, _, _ => switches
                        end)
  end.

(** Neighbouring switches alternate and are the interval apart. *)
Fixpoint spaced (interval : Z) (l : list (Z * bool)) : Prop :=
  match l with
  | (t2, b2) :: (((t1, b1) :: _) as r) => b2 = negb b1 /\ interval <= u64_saturating_sub t2 t1 /\ spaced interval r
  | _ => True
  end.

(** What the driver remembers of the switches. *)
Definition remembers (g : GpioOutput) (sw : list (Z * bool)) : Prop :=
  last_switch_ms g = fst <$> head sw /\
  match sw with (_, b) :: _ => exists on, state_on g = Some on /\ b = level_high g on | [] => True end.

Lemma relay_step_spaced o g sw :
  remembers g sw -> spaced (min_switch_interval_ms g) sw ->
  let '(g', sw') := relay_run [o] g sw in
  remembers g' sw' /\ spaced (min_switch_interval_ms g') sw' /\ active_low g' = active_low g /\
  min_switch_interval_ms g' = min_switch_interval_ms g.
Proof.
  intros [Hl Hb] Hs. destruct o as [ok|on now ok]; cbn [relay_run relay_step].
  - unfold gpio_init. destruct ok; cbn; [|done]. repeat split.
  - unfold gpio_apply. case_bool_decide as Hon; [done|].
    match goal with |- context [if ?b then (true, g, None) else _] => destruct b eqn:Ht end; [done|].
    destruct ok; [|done]. cbn. split; [split; [done|by exists on]|]. split; [|done].
    destruct sw as [|[t b] sw]; [done|]. destruct Hb as (on' & Hst & ->). cbn in Hl. rewrite Hl in Ht.
    split; [|split; [apply Z.ltb_ge in Ht; lia|done]].
    unfold level_high. destruct on, on', (active_low g); cbn; congruence.
Qed.

(** Whatever bring-ups and commands a relay driver gets, at whatever times
    and however the pin answers: since the last successful bring-up the levels
    it has set for commands alternate, neighbouring ones at least the protective
    interval apart, and the level last set is the one for the state it holds. *)
Theorem relay_protected cfg ops :
  let '(g, sw) := relay_run ops (gpio_new cfg) [] in
  spaced (gc_min_switch_interval_ms cfg) sw /\
  match sw with (_, b) :: _ => exists on, state_on g = Some on /\ b = xorb on (gc_active_low cfg) | [] => True end.
Proof.
  assert (forall ops g sw, remembers g sw -> spaced (min_switch_interval_ms g) sw ->
    let '(g', sw') := relay_run ops g sw in remembers g' sw' /\ spaced (min_switch_interval_ms g) sw' /\
    active_low g' = active_low g) as Hrun.
  { clear. induction ops as [|o ops IH]; intros g sw Hr Hs; [done|]. pose proof (relay_step_spaced o g sw Hr Hs) as Ho.
    cbn [relay_run] in *. destruct (relay_step o g) as [[ok g'] w]. destruct Ho as (Hr' & Hs' & Ha & Hi).
    specialize (IH _ _ Hr' Hs'). rewrite Ha, Hi in IH. exact IH. }
  specialize (Hrun ops (gpio_new cfg) [] ltac:(done) I). destruct (relay_run ops (gpio_new cfg) []) as [g sw].
  destruct Hrun as ([_ Hb] & Hs & Ha). split; [exact Hs|]. destruct sw as [|[t b] sw]; [done|].
  destruct Hb as (on & Hon & ->). exists on. split; [done|]. unfold level_high. by rewrite Ha.
Qed.

(** ** Duty limits *)

(** With limits that are numbers, in either order, a command never panics, and
    a duty that is a number is driven within the limits and within 0 and 1. *)
Lemma pwm_apply_total cfg max duty now ok last :
  is_nan (pc_min_duty cfg) = false -> is_nan (pc_max_duty cfg) = false ->
  let p := mkPwmOutput (min_duty (pwm_new cfg)) (max_duty (pwm_new cfg)) (pc_min_update_interval_ms cfg) last in
  is_Some (pwm_apply max duty now ok p) /\
  (is_nan duty = false -> exists d e, pwm_drive max duty p = Some (raw_duty max e) /\
    fle (min_duty p) d = true /\ fle d (max_duty p) = true /\ fle (f32_of_Z 0) e = true /\ fle e (f32_of_Z 1) = true /\
    fclamp d (f32_of_Z 0) (f32_of_Z 1) = Some e).
Proof.
  intros Hlo Hhi p.
  assert (fle (min_duty p) (max_duty p) = true) as Hle.
  { unfold p, pwm_new. destruct (fle (pc_min_duty cfg) (pc_max_duty cfg)) eqn:Hc; cbn; [done|].
    rewrite fle_or_flt in Hc by done. apply flt_fle. by destruct (flt _ _). }
  destruct (fclamp_total duty _ _ Hle) as [d Hd].
  destruct (fclamp_total d (f32_of_Z 0) (f32_of_Z 1)) as [e He]; [by vm_compute|].
  assert (pwm_drive max duty p = Some (raw_duty max e)) as Hdrive.
  { unfold pwm_drive. rewrite Hd. cbn [mbind option_bind]. by rewrite He. }
  split.
  - unfold pwm_apply. rewrite Hdrive. case_match; by eexists.
  - intros Hn. exists d, e. split; [done|].
    destruct (fclamp_range _ _ _ _ Hd) as [[? _]|[Hd1 Hd2]]; [congruence|].
    destruct (fclamp_range _ _ _ _ He) as [[Hdn _]|[He1 He2]]; [|done].
    apply fle_spec in Hd1 as (_ & Hdn' & _). congruence.
Qed.

(** A limit that is not a number makes every command panic. *)
Lemma nan_limit_panics cfg max duty now ok :
  is_nan (pc_min_duty cfg) = true -> pwm_apply max duty now ok (pwm_new cfg) = None.
Proof.
  intros Hn. unfold pwm_apply, pwm_drive, pwm_new. destruct (pc_min_duty cfg); try done.
  cbn. unfold fclamp. assert (fle (pc_max_duty cfg) S754_nan = false) as ->; [|done]. by destruct (pc_max_duty cfg) as [[]|[]| |[]].
Qed.

(** ** Relays and commands

    The sink task of an outlet with a relay: its driver's answer to a due
    command is that of the relay. *)

Section Composed.
Context `{Yaml} `{Wire bool}.

Definition relay_turn (t : SinkTask) (now : Z) (pin_ok : bool) (x : SinkState (Val := bool) * GpioOutput)
    : option (SinkState (Val := bool) * GpioOutput) :=
  let '(s, g) := x in
  let '(ok, g') := match retained_read (slot s) with
                   | Some (slot_ts, on) =>
                       if bool_decide (last_ts s = Some slot_ts) then (true, g)
                       else let '(ok, g', _) := gpio_apply on now pin_ok g in (ok, g')
                   | None => (true, g)
                   end in
  s' ← sink_tick t (mkSinkInput now ok None) s;
  Some (s', g').

Inductive RelayEvent := CmdWritten (ts : Z) (b : bytes) | SinkTurn (now : Z) (pin_ok : bool).

Definition relay_event (t : SinkTask) (e : RelayEvent) (x : SinkState * GpioOutput) : option (SinkState * GpioOutput) :=
  match e with
  | CmdWritten ts b => s' ← sink_step t (CellWrite ts b) x.1; Some (s', x.2)
  | SinkTurn now ok => relay_turn t now ok x
  end.

Fixpoint relay_events (t : SinkTask) (l : list RelayEvent) (x : SinkState * GpioOutput) : option (SinkState * GpioOutput) :=
  match l with
  | [] => Some x
  | e :: l => x' ← relay_event t e x; relay_events t l x'
  end.

(** What a sink has marked as applied is not given to the driver again. *)
Lemma settled_turns t turns s g ts cmd :
  slot s = Some (ts, cmd) -> last_ts s = Some ts ->
  exists s', relay_events t (map (fun x => SinkTurn x.1 x.2) turns) (s, g) = Some (s', g) /\
    slot s' = Some (ts, cmd) /\ last_ts s' = Some ts /\ done_cmds s' = done_cmds s.
Proof.
  revert s. induction turns as [|[now ok] turns IH]; intros s Hs Hl; [by exists s|].
  cbn [map relay_events relay_event]. unfold relay_turn. cbn [fst snd]. rewrite Hs. cbn [retained_read].
  rewrite bool_decide_eq_true_2 by done. unfold sink_tick, apply_latest. rewrite Hs. cbn [retained_read].
  rewrite bool_decide_eq_true_2 by done. unfold readback. cbn [status_read].
  destruct (sk_poll t); cbn [mbind option_bind]; [|by apply IH].
  destruct (IH (mkSinkState (slot s) (last_ts s) (done_cmds s) (status s) (fault t ReadFailed (faults s))) Hs Hl) as (s' & Hr & Hrest).
  by exists s'.
Qed.

(** A command that is due goes to the relay, and if it answers so is done. *)
Lemma due_turn t now s g ts cmd g' w :
  slot s = Some (ts, cmd) -> last_ts s <> Some ts -> sk_poll t = false -> gpio_apply cmd now true g = (true, g', w) ->
  relay_turn t now true (s, g) =
    Some (mkSinkState (Some (ts, cmd)) (Some ts) (done_cmds s ++ [(ts, cmd)]) (status s) (faults s), g').
Proof.
  intros Hs Hl Hp Hg. unfold relay_turn. rewrite Hs. cbn [retained_read]. rewrite bool_decide_eq_false_2 by done.
  rewrite Hg. unfold sink_tick, apply_latest, readback. rewrite Hs. cbn [retained_read].
  rewrite bool_decide_eq_false_2 by done. cbn [apply_ok]. by rewrite Hp.
Qed.

(** C40. A command that reaches a relay within its protective interval is lost.
    When a fresh relay without polling is switched on and, within the interval,
    off, the driver drops the second command and reports success, the sink task
    takes it for applied, and however many turns follow, the relay stays on, while
    the outlet holds the other command. *)
Theorem hasty_command_lost t low interval ts1 ts2 b1 b2 now1 now2 turns :
  take_from_bytes b1 = Some (true, []) -> take_from_bytes b2 = Some (false, []) ->
  ts1 <> ts2 -> u64_saturating_sub now2 now1 < interval -> sk_poll t = false ->
  exists s g, relay_events t ([CmdWritten ts1 b1; SinkTurn now1 true; CmdWritten ts2 b2; SinkTurn now2 true]
      ++ map (fun x => SinkTurn x.1 x.2) turns)
      (sink_new, (gpio_init true (gpio_new (mkGpioOutputConfig low interval))).1.2) = Some (s, g) /\
    slot s = Some (ts2, false) /\ last (done_cmds s) = Some (ts2, false) /\ state_on g = Some true.
Proof.
  intros Hb1 Hb2 Hts Hi Hp.
  set (s2 := mkSinkState (Some (ts2, false)) (Some ts2) [(ts1, true); (ts2, false)] ∅ event_new).
  set (g2 := mkGpioOutput low interval (Some true) (Some now1)).
  destruct (settled_turns t turns s2 g2 ts2 false eq_refl eq_refl) as (s' & Hr & Hs & Hl & Hd).
  exists s', g2. split; [|split; [done|split; [by rewrite Hd|done]]].
  set (g0 := (gpio_init true (gpio_new (mkGpioOutputConfig low interval))).1.2).
  set (s1 := mkSinkState (Some (ts1, true)) (Some ts1) [(ts1, true)] ∅ event_new).
  assert (relay_turn t now1 true (mkSinkState (Some (ts1, true)) None [] ∅ event_new, g0) = Some (s1, g2)) as T1
    by (rewrite (due_turn t now1 _ _ ts1 true g2 (Some (level_high g0 true))); done).
  assert (relay_turn t now2 true (mkSinkState (Some (ts2, false)) (Some ts1) [(ts1, true)] ∅ event_new, g2) = Some (s2, g2)) as T2.
  { rewrite (due_turn t now2 _ _ ts2 false g2 None); [done|done|cbn; congruence|done|]. unfold gpio_apply. cbn.
    by rewrite (proj2 (Z.ltb_lt _ _) Hi). }
  cbn [app relay_events relay_event sink_step fst snd]. unfold write_bytes. rewrite Hb1.
  cbn [snd mbind option_bind sink_new slot last_ts done_cmds status faults]. unfold retained_update. rewrite T1.
  cbn [mbind option_bind fst snd s1 slot last_ts done_cmds status faults]. rewrite Hb2.
  cbn [snd mbind option_bind]. by rewrite T2.
Qed.
End Composed.

(** ** Relays and a hysteresis step

    In a feed-forward path the relay gets a command only when the step emits
    one ([emit_apply]). *)

Definition controlled (on_off : HysteresisState * GpioOutput) (v : f32) (now : Z) : HysteresisState * GpioOutput :=
  let '(h, g) := on_off in
  match hysteresis_step h v with
  | (Some on, h) => (h, (gpio_apply on now true g).1.2)
  | (None, h) => (h, g)
  end.

Definition controlled_run (l : list (f32 * Z)) (x : HysteresisState * GpioOutput) : HysteresisState * GpioOutput :=
  foldl (fun x i => controlled x i.1 i.2) x l.

(** Once the off command was dropped, no input below the upper threshold
    switches the relay off again. *)
Lemma dropped_edge_stuck h g l :
  hy_on h = false -> (forall i, i ∈ l -> fge i.1 (on_threshold h) = false) -> controlled_run l (h, g) = (h, g).
Proof.
  intros Hh. induction l as [|[v now] l IH]; intros Hl; [done|]. unfold controlled_run in *. cbn [foldl fst snd].
  assert (controlled (h, g) v now = (h, g)) as ->.
  { unfold controlled, hysteresis_step. rewrite Hh. cbn [negb andb].
    pose proof (Hl (v, now) ltac:(set_solver)) as Hv. cbn in Hv. by rewrite Hv. }
  apply IH. intros i Hi. apply Hl. set_solver.
Qed.

Import SampleParams SampleWire SampleSteps.

(** Three readings: on at the first, off at the second, 400 ms later, with a
    protective interval of a second. *)
Lemma dropped_edge_reached :
  let h := hysteresis_new (mkHysteresisConfig (f32_of_Z 30) (f32_of_Z 25)) in
  let g := (gpio_init true (gpio_new (mkGpioOutputConfig false 1000))).1.2 in
  let '(h', g') := controlled_run [(f32_of_Z 31, 5000); (f32_of_Z 20, 5400); (f32_of_Z 19, 7000)] (h, g) in
  hy_on h' = false /\ state_on g' = Some true.
Proof. vm_compute. split; reflexivity. Qed.

Lemma hasty_command_lost_witness :
  exists s g, relay_events heater ([CmdWritten 3 [Byte.x01]; SinkTurn 100 true; CmdWritten 150 [Byte.x00]; SinkTurn 200 true]
      ++ map (fun x => SinkTurn x.1 x.2) [(300, true); (9000, true)])
      (sink_new, (gpio_init true (gpio_new (mkGpioOutputConfig true 1000))).1.2) = Some (s, g) /\
    slot s = Some (150, false) /\ last (done_cmds s) = Some (150, false) /\ state_on g = Some true.
Proof.
  apply (hasty_command_lost heater true 1000 3 150 [Byte.x01] [Byte.x00] 100 200 [(300, true); (9000, true)]).
  - reflexivity.
  - reflexivity.
  - discriminate.
  - reflexivity.
  - reflexivity.
Defined.
