(* ===== verification/Drivers.v ===== *)
(** * Sensor drivers

    [signal-modules/drivers/*/src/lib.rs] for the sensors: what each driver
    puts on its bus, what it makes of the answers, and its errors.  The I2C and
    SPI devices of [embedded-hal] are a parameter, a function that answers a
    transaction after the transactions before it; timer waits, which only let
    time pass between transactions, are left out.  Integer arithmetic that
    would overflow, a slice or an index out of range and a division by zero are
    a panic, and so an outcome of its own; a poll loop runs on fuel, and counts
    as a panic too if it uses all of it. *)

From S2P Require Import Prelude Bytes Float.
From Stdlib Require Import ZArith Lia Strings.Byte Floats.SpecFloat.
From stdpp Require Import base list option.

Local Open Scope Z_scope.

(** ** Buses *)

Inductive BusTx :=
  | I2cWrite (addr : Z) (b : list Z)
  | I2cWriteRead (addr : Z) (b : list Z) (n : nat)
  | SpiWrite (b : list Z)
  | SpiTransfer (b : list Z).

(** How a call ends. *)
Inductive outcome (Er A : Type) := Done (a : A) | Failed (e : Er) | Panicked.
Arguments Done {Er A}. Arguments Failed {Er A}. Arguments Panicked {Er A}.

Inductive pin_wait := WentLow | PinFailed | TimedOut.

Section Drivers.
Context {BE : Type}.

(** The bytes that fill the buffer of a transaction, by their index. *)
Definition Buffer : Type := nat -> byte.
Context (answer : list BusTx -> BusTx -> res BE Buffer).

(** How a wait for a pin to go low ends, within its timeout. *)
Context (wait_for_low : list BusTx -> pin_wait).

(** A method of a driver [D]: it may change the driver and uses the bus. *)
Definition M (D Er A : Type) : Type := D * list BusTx -> outcome Er A * (D * list BusTx).

#[local] Instance M_ret {D Er} : MRet (M D Er) := fun A a s => (Done a, s).
#[local] Instance M_bind {D Er} : MBind (M D Er) := fun A B f m s =>
  match m s with
  | (Done a, s) => f a s
  | (Failed e, s) => (Failed e, s)
  | (Panicked, s) => (Panicked, s)
  end.

Section Method.
Context {D Er : Type}.

Definition self : M D Er D := fun s => (Done s.1, s).
Definition set_self (d : D) : M D Er unit := fun s => (Done tt, (d, s.2)).
Definition throw {A} (e : Er) : M D Er A := fun s => (Failed e, s).
Definition or_panic {A} (o : option A) : M D Er A := fun s => (match o with Some a => Done a | None => Panicked end, s).

(** A transaction, with its error in the driver's ([Bus]). *)
Definition transact (bus_error : BE -> Er) (x : BusTx) : M D Er Buffer := fun s =>
  (match answer s.2 x with Ok b => Done b | Err e => Failed (bus_error e) end, (s.1, s.2 ++ [x])).

(** The same where the caller looks at the error itself *)
Definition try_transact (x : BusTx) : M D Er (res BE Buffer) := fun s => (Done (answer s.2 x), (s.1, s.2 ++ [x])).
Definition pin_low : M D Er pin_wait := fun s => (Done (wait_for_low s.2), s).
End Method.

(** ** Machine integers *)

Definition u8_at (r : Buffer) (i : nat) : Z := b2z (r i).
Definition u16_be (r : Buffer) (i : nat) : Z := u8_at r i * 256 + u8_at r (i + 1).
Definition u16_le (r : Buffer) (i : nat) : Z := u8_at r i + u8_at r (i + 1) * 256.
Definition i16_be (r : Buffer) (i : nat) : Z := to_signed 16 (u16_be r i).
Definition i16_le (r : Buffer) (i : nat) : Z := to_signed 16 (u16_le r i).

(** The result of an operation on [i64]; [None] if it overflows *)
Definition i64 (z : Z) : option Z := if (- 2 ^ 63 <=? z) && (z <? 2 ^ 63) then Some z else None.

(** [i64::checked_div] *)
Definition checked_div (a b : Z) : option Z := if b =? 0 then None else i64 (Z.quot a b).

(** The results of operations on [u32] and [u64], and of [/] on [u64] *)
Definition u32 (z : Z) : option Z := if (0 <=? z) && (z <? 2 ^ 32) then Some z else None.
Definition u64 (z : Z) : option Z := if (0 <=? z) && (z <? 2 ^ 64) then Some z else None.
Definition u64_div (a b : Z) : option Z := if b =? 0 then None else Some (a / b).

(** [&l[..n]], [&l[a..n]] *)
Definition slice_to {A} (l : list A) (n : nat) : option (list A) := if (n <=? length l)%nat then Some (take n l) else None.
Definition slice {A} (l : list A) (a n : nat) : option (list A) :=
  if ((a <=? n) && (n <=? length l))%nat then Some (drop a (take n l)) else None.

(** The bytes of a buffer of this length *)
Definition buffer_bytes (r : Buffer) (n : nat) : list Z := u8_at r <$> seq 0 n.

(** Enough for every poll loop *)
Definition LOOP_FUEL : nat := 200.

(** [x << n] on [i64], which drops what does not fit *)
Definition i64_shl (x n : Z) : Z := to_signed 64 (wrap 64 (Z.shiftl x n)).

(** ** BMP180 *)

Inductive Oversampling180 := Single | Oss2 | Oss4 | Oss8.
Definition oss_bits (o : Oversampling180) : Z := match o with Single => 0 | Oss2 => 1 | Oss4 => 2 | Oss8 => 3 end.

Record Bmp180Config := mkBmp180Config { c180_addr : Z; c180_oss : Oversampling180 }.
Record Bmp180Readings := mkBmp180Readings { r180_temperature : f32; r180_pressure : f32 }.

Inductive Bmp180Error :=
  | Bus180 (e : BE)
  | InvalidId180 (id : Z)
  | InvalidCalibration180
  | UndefinedCompensation.

Record Calibration180 := mkCalibration180 {
  ac1 : Z; ac2 : Z; ac3 : Z; ac4 : Z; ac5 : Z; ac6 : Z; b1 : Z; b2 : Z; mc : Z; md : Z;
}.

Record Bmp180 := mkBmp180 { d180_cfg : Bmp180Config; d180_cal : Calibration180 }.

Definition bmp180_new (cfg : Bmp180Config) : Bmp180 := mkBmp180 cfg (mkCalibration180 0 0 0 0 0 0 0 0 0 0).

(** A word that reads as all zeros or all ones. *)
Definition bad_word (r : Buffer) (w : nat) : bool :=
  ((u8_at r (2 * w) =? 0) && (u8_at r (2 * w + 1) =? 0)) || ((u8_at r (2 * w) =? 255) && (u8_at r (2 * w + 1) =? 255)).

Definition calibration180 (r : Buffer) : Calibration180 :=
  mkCalibration180 (i16_be r 0) (i16_be r 2) (i16_be r 4) (u16_be r 6) (u16_be r 8) (u16_be r 10)
    (i16_be r 12) (i16_be r 14) (i16_be r 18) (i16_be r 20).

Definition bmp180_init : M Bmp180 Bmp180Error unit :=
  d ← self;
  let addr := c180_addr (d180_cfg d) in
  id ← transact Bus180 (I2cWriteRead addr [0xD0] 1);
  if negb (u8_at id 0 =? 0x55) then throw (InvalidId180 (u8_at id 0)) else
  raw ← transact Bus180 (I2cWriteRead addr [0xAA] 22);
  if existsb (bad_word raw) (seq 0 11) then throw InvalidCalibration180 else
  set_self (mkBmp180 (d180_cfg d) (calibration180 raw)).

(** [None]: an overflow; [Some None]: the algorithm has no result *)
Definition compensate_temperature180 (ut : Z) (cal : Calibration180) : option (option (Z * f32)) :=
  d ← i64 (ut - ac6 cal);
  p ← i64 (d * ac5 cal);
  let x1 := Z.shiftr p 15 in
  n ← i64 (mc cal * 2048);
  s ← i64 (x1 + md cal);
  match checked_div n s with
  | None => Some None
  | Some x2 =>
      b5 ← i64 (x1 + x2);
      r ← i64 (b5 + 8);
      Some (Some (b5, f32_div (f32_of_Z (Z.shiftr r 4)) (f32_of_Z 10)))
  end.

Definition compensate_pressure180 (up b5 oss : Z) (cal : Calibration180) : option (option f32) :=
  b6 ← i64 (b5 - 4000);
  sq ← i64 (b6 * b6);
  p1 ← i64 (b2 cal * Z.shiftr sq 12);
  p2 ← i64 (ac2 cal * b6);
  x3 ← i64 (Z.shiftr p1 11 + Z.shiftr p2 11);
  a4 ← i64 (ac1 cal * 4);
  sum ← i64 (a4 + x3);
  sum2 ← i64 (i64_shl sum oss + 2);
  let b3 := Z.shiftr sum2 2 in
  p3 ← i64 (ac3 cal * b6);
  p4 ← i64 (b1 cal * Z.shiftr sq 12);
  s5 ← i64 (Z.shiftr p3 13 + Z.shiftr p4 16);
  s6 ← i64 (s5 + 2);
  s7 ← i64 (Z.shiftr s6 2 + 32768);
  p5 ← i64 (ac4 cal * s7);
  let b4 := Z.shiftr p5 15 in
  d ← i64 (up - b3);
  b7 ← i64 (d * Z.shiftr 50000 oss);
  p ← (if b7 <? 0x80000000
       then n ← i64 (b7 * 2); Some (checked_div n b4)
       else match checked_div b7 b4 with
            | None => Some None
            | Some q => r ← i64 (q * 2); Some (Some r)
            end);
  match p with
  | None => Some None
  | Some p =>
      if (- 2 ^ 31 <=? p) && (p <? 2 ^ 31) then
        x1 ← i64 (Z.shiftr p 8 * Z.shiftr p 8);
        x1 ← i64 (x1 * 3038);
        x2 ← i64 (-7357 * p);
        s ← i64 (Z.shiftr x1 16 + Z.shiftr x2 16);
        s ← i64 (s + 3791);
        r ← i64 (p + Z.shiftr s 4);
        Some (Some (f32_div (f32_of_Z r) (f32_of_Z 100)))
      else Some None
  end.

Definition bmp180_sample : M Bmp180 Bmp180Error Bmp180Readings :=
  d ← self;
  let addr := c180_addr (d180_cfg d) in
  let oss := oss_bits (c180_oss (d180_cfg d)) in
  _ ← transact Bus180 (I2cWrite addr [0xF4; 0x2E]);
  raw ← transact Bus180 (I2cWriteRead addr [0xF6] 2);
  let ut := u16_be raw 0 in
  let press_cmd := Z.lor 0x34 (Z.shiftl oss 6) in
  _ ← transact Bus180 (I2cWrite addr [0xF4; press_cmd]);
  raw3 ← transact Bus180 (I2cWriteRead addr [0xF6] 3);
  let raw_p := Z.shiftr (Z.lor (Z.lor (Z.shiftl (u8_at raw3 0) 16) (Z.shiftl (u8_at raw3 1) 8)) (u8_at raw3 2)) (8 - oss) in
  t ← or_panic (compensate_temperature180 ut (d180_cal d));
  match t with
  | None => throw UndefinedCompensation
  | Some (b5, temperature) =>
      p ← or_panic (compensate_pressure180 raw_p b5 oss (d180_cal d));
      match p with
      | None => throw UndefinedCompensation
      | Some pressure => mret (mkBmp180Readings temperature pressure)
      end
  end.

(** ** BME280 *)

Inductive Oversampling280 := X1 | X2 | X4 | X8 | X16.
Definition osrs_bits (o : Oversampling280) : Z := match o with X1 => 1 | X2 => 2 | X4 => 3 | X8 => 4 | X16 => 5 end.
Definition samples (o : Oversampling280) : Z := match o with X1 => 1 | X2 => 2 | X4 => 4 | X8 => 8 | X16 => 16 end.

Inductive Filter280 := FilterOff | Filter2 | Filter4 | Filter8 | Filter16.
Definition filter_bits (f : Filter280) : Z :=
  match f with FilterOff => 0 | Filter2 => 1 | Filter4 => 2 | Filter8 => 3 | Filter16 => 4 end.

Inductive Standby := Ms0_5 | Ms62_5 | Ms125 | Ms250 | Ms500 | Ms1000 | Ms10 | Ms20.
Definition standby_bits (t : Standby) : Z :=
  match t with Ms0_5 => 0 | Ms62_5 => 1 | Ms125 => 2 | Ms250 => 3 | Ms500 => 4 | Ms1000 => 5 | Ms10 => 6 | Ms20 => 7 end.

Record Bme280Config := mkBme280Config {
  c280_addr : Z; osrs_t : Oversampling280; osrs_p : Oversampling280; osrs_h : Oversampling280; c280_filter : Filter280; t_sb : Standby;
}.

Definition measurement_time_max_us (c : Bme280Config) : option Z :=
  t ← u64 (2300 * samples (osrs_t c));
  base ← u64 (1250 + t);
  p ← u64 (2300 * samples (osrs_p c));
  p ← u64 (p + 575);
  base ← u64 (base + p);
  h ← u64 (2300 * samples (osrs_h c));
  h ← u64 (h + 575);
  u64 (base + h).

Record Bme280Readings := mkBme280Readings { r280_temperature : f32; r280_pressure : f32; r280_humidity : f32 }.

Inductive Bme280Error :=
  | Bus280 (e : BE)
  | InvalidId280 (id : Z)
  | InvalidCalibration280
  | NotReady280.

Record Calibration280 := mkCalibration280 {
  dig_t1 : Z; dig_t2 : Z; dig_t3 : Z;
  dig_p1 : Z; dig_p2 : Z; dig_p3 : Z; dig_p4 : Z; dig_p5 : Z; dig_p6 : Z; dig_p7 : Z; dig_p8 : Z; dig_p9 : Z;
  dig_h1 : Z; dig_h2 : Z; dig_h3 : Z; dig_h4 : Z; dig_h5 : Z; dig_h6 : Z;
}.

Record Bme280 := mkBme280 { d280_cfg : Bme280Config; d280_cal : Calibration280 }.

Definition bme280_new (cfg : Bme280Config) : Bme280 :=
  mkBme280 cfg (mkCalibration280 0 0 0 0 0 0 0 0 0 0 0 0 0 0 0 0 0 0).

(** The loop of [wait_for_conversion], with the polls left *)
Fixpoint status_polls (fuel : nat) (polls_left : Z) (addr : Z) : M Bme280 Bme280Error unit :=
  match fuel with
  | O => or_panic None
  | Datatypes.S fuel =>
      status ← transact Bus280 (I2cWriteRead addr [0xF3] 1);
      polls_left ← or_panic (u64 (polls_left - 1));
      if (Z.land (u8_at status 0) 8 =? 0) || (polls_left =? 0) then mret tt else status_polls fuel polls_left addr
  end.

(** [u64::div_ceil] *)
Definition div_ceil (a b : Z) : option Z :=
  q ← u64_div a b;
  if 0 <? a mod b then u64 (q + 1) else Some q.

Definition STATUS_POLL_MS : Z := 1.

Definition wait_for_conversion : M Bme280 Bme280Error unit :=
  d ← self;
  us ← or_panic (measurement_time_max_us (d280_cfg d));
  polls_left ← or_panic (div_ceil us (STATUS_POLL_MS * 1000));
  status_polls LOOP_FUEL polls_left (c280_addr (d280_cfg d)).

Definition calibration280 (tp h1 h : Buffer) : Calibration280 :=
  mkCalibration280 (u16_le tp 0) (i16_le tp 2) (i16_le tp 4)
    (u16_le tp 6) (i16_le tp 8) (i16_le tp 10) (i16_le tp 12) (i16_le tp 14) (i16_le tp 16) (i16_le tp 18) (i16_le tp 20) (i16_le tp 22)
    (u8_at h1 0) (i16_le h 0) (u8_at h 2)
    (Z.lor (Z.shiftl (to_signed 8 (u8_at h 3)) 4) (Z.land (u8_at h 4) 0x0F))
    (Z.lor (Z.shiftl (to_signed 8 (u8_at h 5)) 4) (Z.shiftr (u8_at h 4) 4))
    (to_signed 8 (u8_at h 6)).

Definition idle_word (w : Z) : bool := (w =? 0) || (w =? 0xFFFF).

Definition bme280_init : M Bme280 Bme280Error unit :=
  d ← self;
  let cfg := d280_cfg d in
  let addr := c280_addr cfg in
  id ← transact Bus280 (I2cWriteRead addr [0xD0] 1);
  if negb (u8_at id 0 =? 0x60) then throw (InvalidId280 (u8_at id 0)) else
  tp ← transact Bus280 (I2cWriteRead addr [0x88] 24);
  if idle_word (u16_le tp 0) || idle_word (u16_le tp 6) then throw InvalidCalibration280 else
  h1 ← transact Bus280 (I2cWriteRead addr [0xA1] 1);
  h2_6 ← transact Bus280 (I2cWriteRead addr [0xE1] 7);
  let ctrl_hum := Z.land (osrs_bits (osrs_h cfg)) 7 in
  let config_reg := Z.lor (Z.shiftl (standby_bits (t_sb cfg)) 5) (Z.shiftl (filter_bits (c280_filter cfg)) 2) in
  let ctrl_meas := Z.lor (Z.lor (Z.shiftl (osrs_bits (osrs_t cfg)) 5) (Z.shiftl (osrs_bits (osrs_p cfg)) 2)) 3 in
  _ ← transact Bus280 (I2cWrite addr [0xF2; ctrl_hum]);
  _ ← transact Bus280 (I2cWrite addr [0xF5; config_reg]);
  _ ← transact Bus280 (I2cWrite addr [0xF4; ctrl_meas]);
  _ ← wait_for_conversion;
  set_self (mkBme280 cfg (calibration280 tp h1 h2_6)).

Record RawSample := mkRawSample { adc_p : Z; adc_t : Z; adc_h : Z }.

Definition is_reset_pattern (r : RawSample) : bool :=
  (adc_p r =? 0x80000) && (adc_t r =? 0x80000) && (adc_h r =? 0x8000).

Definition read_raw : M Bme280 Bme280Error RawSample :=
  d ← self;
  raw ← transact Bus280 (I2cWriteRead (c280_addr (d280_cfg d)) [0xF7] 8);
  mret (mkRawSample
    (Z.lor (Z.lor (Z.shiftl (u8_at raw 0) 12) (Z.shiftl (u8_at raw 1) 4)) (Z.shiftr (u8_at raw 2) 4))
    (Z.lor (Z.lor (Z.shiftl (u8_at raw 3) 12) (Z.shiftl (u8_at raw 4) 4)) (Z.shiftr (u8_at raw 5) 4))
    (Z.lor (Z.shiftl (u8_at raw 6) 8) (u8_at raw 7))).

Definition compensate_temperature280 (adc : Z) (cal : Calibration280) : f64 * f32 :=
  let t := f64_of_Z adc in
  let t1 := f64_of_Z (dig_t1 cal) in
  let var1 := f64_mul (f64_sub (f64_div t (f64_of_Z 16384)) (f64_div t1 (f64_of_Z 1024))) (f64_of_Z (dig_t2 cal)) in
  let var2 := f64_sub (f64_div t (f64_of_Z 131072)) (f64_div t1 (f64_of_Z 8192)) in
  let var2 := f64_mul (f64_mul var2 var2) (f64_of_Z (dig_t3 cal)) in
  let t_fine := f64_add var1 var2 in
  (t_fine, f64_to_f32 (f64_div t_fine (f64_of_Z 5120))).

Definition compensate_pressure280 (adc : Z) (t_fine : f64) (cal : Calibration280) : f32 :=
  let n := f64_of_Z in
  let p := n adc in
  let var1 := f64_sub (f64_div t_fine (n 2)) (n 64000) in
  let var2 := f64_div (f64_mul (f64_mul var1 var1) (n (dig_p6 cal))) (n 32768) in
  let var2 := f64_add var2 (f64_mul (f64_mul var1 (n (dig_p5 cal))) (n 2)) in
  let var2 := f64_add (f64_div var2 (n 4)) (f64_mul (n (dig_p4 cal)) (n 65536)) in
  let var3 := f64_div (f64_mul (f64_mul (n (dig_p3 cal)) var1) var1) (n 524288) in
  let var1 := f64_div (f64_add var3 (f64_mul (n (dig_p2 cal)) var1)) (n 524288) in
  let var1 := f64_mul (f64_add (n 1) (f64_div var1 (n 32768))) (n (dig_p1 cal)) in
  if feq var1 (n 0) then f32_of_Z 0 else
  let pressure := f64_sub (n 1048576) p in
  let pressure := f64_div (f64_mul (f64_sub pressure (f64_div var2 (n 4096))) (n 6250)) var1 in
  let var1 := f64_div (f64_mul (f64_mul (n (dig_p9 cal)) pressure) pressure) (n 2147483648) in
  let var2 := f64_div (f64_mul pressure (n (dig_p8 cal))) (n 32768) in
  f64_to_f32 (f64_div (f64_add pressure (f64_div (f64_add (f64_add var1 var2) (n (dig_p7 cal))) (n 16))) (n 100)).

(** Before the clamp to 0..100 *)
Definition humidity_unclamped (adc : Z) (t_fine : f64) (cal : Calibration280) : f64 :=
  let n := f64_of_Z in
  let h := n adc in
  let x := f64_sub t_fine (n 76800) in
  let a := f64_sub h (f64_add (f64_mul (n (dig_h4 cal)) (n 64)) (f64_mul (f64_div (n (dig_h5 cal)) (n 16384)) x)) in
  let c := f64_add (n 1) (f64_mul (f64_div (n (dig_h3 cal)) (n 67108864)) x) in
  let b := f64_add (n 1) (f64_mul (f64_mul (f64_div (n (dig_h6 cal)) (n 67108864)) x) c) in
  let h := f64_mul a (f64_mul (f64_div (n (dig_h2 cal)) (n 65536)) b) in
  f64_mul h (f64_sub (n 1) (f64_div (f64_mul (n (dig_h1 cal)) h) (n 524288))).

Definition compensate_humidity280 (adc : Z) (t_fine : f64) (cal : Calibration280) : option f32 :=
  h ← fclamp (humidity_unclamped adc t_fine cal) (f64_of_Z 0) (f64_of_Z 100);
  Some (f64_to_f32 h).

Definition bme280_sample : M Bme280 Bme280Error Bme280Readings :=
  raw ← read_raw;
  raw ← (if is_reset_pattern raw then
           _ ← wait_for_conversion;
           raw ← read_raw;
           if is_reset_pattern raw then throw NotReady280 else mret raw
         else mret raw);
  d ← self;
  let '(t_fine, temperature) := compensate_temperature280 (adc_t raw) (d280_cal d) in
  let pressure := compensate_pressure280 (adc_p raw) t_fine (d280_cal d) in
  humidity ← or_panic (compensate_humidity280 (adc_h raw) t_fine (d280_cal d));
  mret (mkBme280Readings temperature pressure humidity).

(** ** ADS1115 *)

Inductive FullScale1115 := Mv256 | Mv512 | Mv1024 | Mv2048 | Mv4096 | Mv6144.
Inductive DataRate := Sps8 | Sps16 | Sps32 | Sps64 | Sps128 | Sps250 | Sps475 | Sps860.

Definition rate_bits (r : DataRate) : Z :=
  match r with Sps8 => 0 | Sps16 => 1 | Sps32 => 2 | Sps64 => 3 | Sps128 => 4 | Sps250 => 5 | Sps475 => 6 | Sps860 => 7 end.
Definition sps (r : DataRate) : Z :=
  match r with Sps8 => 8 | Sps16 => 16 | Sps32 => 32 | Sps64 => 64 | Sps128 => 128 | Sps250 => 250 | Sps475 => 475 | Sps860 => 860 end.

Definition conversion_wait_ms (r : DataRate) : option Z := q ← u64_div 1000 (sps r); u64 (q + 1).

(** The gain bits, and the size of a count in mV *)
Definition pga (fs : FullScale1115) : Z * f32 :=
  match fs with
  | Mv256 => (0x0A00, f32_ratio 1 128)
  | Mv512 => (0x0800, f32_ratio 1 64)
  | Mv1024 => (0x0600, f32_ratio 1 32)
  | Mv2048 => (0x0400, f32_ratio 1 16)
  | Mv4096 => (0x0200, f32_ratio 1 8)
  | Mv6144 => (0x0000, f32_ratio 3 16)
  end.

Record Ads1115Config := mkAds1115Config { c1115_addr : Z; fs_mv : FullScale1115; data_rate : DataRate }.
Record Ads1115Readings := mkAds1115Readings { ain0 : f32; ain1 : f32; ain2 : f32; ain3 : f32 }.

Inductive Ads1115Error := Bus1115 (e : BE) | ConversionTimeout.

Record Ads1115 := mkAds1115 { a_addr : Z; pga_bits : Z; dr_bits : Z; wait_ms : Z; lsb_mv : f32 }.

(** [None] is a panic. *)
Definition ads1115_new (cfg : Ads1115Config) : option Ads1115 :=
  let '(pga_bits, lsb_mv) := pga (fs_mv cfg) in
  wait_ms ← conversion_wait_ms (data_rate cfg);
  Some (mkAds1115 (c1115_addr cfg) pga_bits (Z.shiftl (rate_bits (data_rate cfg)) 5) wait_ms lsb_mv).

Definition ads1115_init : M Ads1115 Ads1115Error unit :=
  d ← self; _ ← transact Bus1115 (I2cWriteRead (a_addr d) [1] 2); mret tt.

Definition MUX : list Z := [0x4000; 0x5000; 0x6000; 0x7000].
Definition MAX_OS_POLLS : Z := 16.

(** The poll of the OS bit *)
Fixpoint os_polls (fuel : nat) (polls : Z) (addr : Z) : M Ads1115 Ads1115Error unit :=
  match fuel with
  | O => or_panic None
  | Datatypes.S fuel =>
      status ← transact Bus1115 (I2cWriteRead addr [1] 2);
      if negb (Z.land (u16_be status 0) 0x8000 =? 0) then mret tt else
      polls ← or_panic (u32 (polls + 1));
      if MAX_OS_POLLS <=? polls then throw ConversionTimeout else os_polls fuel polls addr
  end.

Definition channel_config (d : Ads1115) (mux : Z) : Z :=
  Z.lor (Z.lor (Z.lor (Z.lor (Z.lor 0x8000 mux) (pga_bits d)) 0x0100) (dr_bits d)) 3.

Definition read_channel (ch : nat) : M Ads1115 Ads1115Error f32 :=
  d ← self;
  mux ← or_panic (MUX !! ch);
  let cfg := channel_config d mux in
  _ ← transact Bus1115 (I2cWrite (a_addr d) [1; Z.shiftr cfg 8; Z.land cfg 0xFF]);
  _ ← os_polls LOOP_FUEL 0 (a_addr d);
  raw ← transact Bus1115 (I2cWriteRead (a_addr d) [0] 2);
  mret (f32_div (f32_mul (f32_of_Z (i16_be raw 0)) (lsb_mv d)) (f32_of_Z 1000)).

Definition ads1115_sample : M Ads1115 Ads1115Error Ads1115Readings :=
  a ← read_channel 0; b ← read_channel 1; c ← read_channel 2; d ← read_channel 3;
  mret (mkAds1115Readings a b c d).

(** ** VEML7700 *)

Inductive Gain := GainX1 | GainX2 | OneEighth | OneFourth.
Inductive IntegrationTime := Ms25 | Ms50 | Ms100 | Ms200 | Ms400 | Ms800.

Definition gain_bits (g : Gain) : Z := match g with GainX1 => 0 | GainX2 => 1 | OneEighth => 2 | OneFourth => 3 end.
Definition it_bits (i : IntegrationTime) : Z :=
  match i with Ms25 => 12 | Ms50 => 8 | Ms100 => 0 | Ms200 => 1 | Ms400 => 2 | Ms800 => 3 end.
Definition it_ms (i : IntegrationTime) : Z :=
  match i with Ms25 => 25 | Ms50 => 50 | Ms100 => 100 | Ms200 => 200 | Ms400 => 400 | Ms800 => 800 end.

Definition settle_ms (i : IntegrationTime) : option Z := t ← u64 (2 * it_ms i); u64 (t + 3).

Definition lsb_lux (g : Gain) (i : IntegrationTime) : f32 :=
  let gain_ratio := match g with
                    | GainX1 => f32_of_Z 1 | GainX2 => f32_of_Z 2 | OneEighth => f32_ratio 1 8 | OneFourth => f32_ratio 1 4
                    end in
  f32_mul (f32_mul (f32_ratio 36 10000) (f32_div (f32_of_Z 2) gain_ratio)) (f32_div (f32_of_Z 800) (f32_of_Z (it_ms i))).

Definition correct_lux (lux : f64) : f64 :=
  if fle lux (f64_of_Z 1000) then lux else
  f64_mul (f64_add (f64_mul (f64_add (f64_mul (f64_sub (f64_mul (f64_ratio 60135 (10 ^ 17)) lux) (f64_ratio 93924 (10 ^ 13))) lux)
    (f64_ratio 81488 (10 ^ 9))) lux) (f64_ratio 10023 10000)) lux.

Inductive Veml7700Error := Bus7700 (e : BE).
Record Veml7700Config := mkVeml7700Config { c7700_addr : Z; c7700_gain : Gain; integration_time : IntegrationTime }.
Record Veml7700Readings := mkVeml7700Readings { lux : f32 }.
Record Veml7700 := mkVeml7700 { d7700_cfg : Veml7700Config; d7700_lsb : f32 }.

Definition veml7700_new (cfg : Veml7700Config) : Veml7700 :=
  mkVeml7700 cfg (lsb_lux (c7700_gain cfg) (integration_time cfg)).

Definition veml7700_init : M Veml7700 Veml7700Error unit :=
  d ← self;
  let conf := Z.lor (Z.shiftl (gain_bits (c7700_gain (d7700_cfg d))) 11) (Z.shiftl (it_bits (integration_time (d7700_cfg d))) 6) in
  _ ← transact Bus7700 (I2cWrite (c7700_addr (d7700_cfg d)) [0; Z.land conf 0xFF; Z.shiftr conf 8]);
  _ ← or_panic (settle_ms (integration_time (d7700_cfg d)));
  mret tt.

Definition veml7700_sample : M Veml7700 Veml7700Error Veml7700Readings :=
  d ← self;
  raw ← transact Bus7700 (I2cWriteRead (c7700_addr (d7700_cfg d)) [4] 2);
  mret (mkVeml7700Readings (f64_to_f32 (correct_lux (f64_mul (f64_of_Z (u16_le raw 0)) (f64_of_f32 (d7700_lsb d)))))).

(** ** CCS811 *)

Inductive MeasMode := Every1s | Every10s | Every60s.
Definition meas_bits (m : MeasMode) : Z := match m with Every1s => 1 | Every10s => 2 | Every60s => 3 end.

Definition meas_mode_register (m : MeasMode) (irq : bool) : Z :=
  let reg := Z.shiftl (meas_bits m) 4 in if irq then Z.lor reg 0x08 else reg.

Record Ccs811Config := mkCcs811Config { c811_addr : Z; c811_mode : MeasMode }.
Record Ccs811Readings := mkCcs811Readings { eco2 : f32; tvoc : f32 }.

Inductive Ccs811Error :=
  | Bus811 (e : BE) | InvalidId811 (id : Z) | NoValidFirmware | SensorError | NotReady811 | Timeout811 | Pin811.

(** [d811_nint]: whether the interrupt pin is wired *)
Record Ccs811 := mkCcs811 { d811_cfg : Ccs811Config; d811_nint : bool }.

Definition ccs811_new_with_pins (cfg : Ccs811Config) (nint : bool) : Ccs811 := mkCcs811 cfg nint.
Definition ccs811_new (cfg : Ccs811Config) : Ccs811 := mkCcs811 cfg false.

Definition init_sensor (addr meas_mode_reg : Z) : M Ccs811 Ccs811Error unit :=
  _ ← transact Bus811 (I2cWrite addr [0xFF; 0x11; 0xE5; 0x72; 0x8A]);
  hw_id ← transact Bus811 (I2cWriteRead addr [0x20] 1);
  if negb (u8_at hw_id 0 =? 0x81) then throw (InvalidId811 (u8_at hw_id 0)) else
  status ← transact Bus811 (I2cWriteRead addr [0x00] 1);
  if Z.land (u8_at status 0) 0x10 =? 0 then throw NoValidFirmware else
  _ ← (if Z.land (u8_at status 0) 0x80 =? 0
       then _ ← transact Bus811 (I2cWrite addr [0xF4]); mret tt
       else mret tt);
  _ ← transact Bus811 (I2cWrite addr [0x01; meas_mode_reg]);
  mret tt.

Definition ccs811_init : M Ccs811 Ccs811Error unit :=
  d ← self;
  init_sensor (c811_addr (d811_cfg d)) (meas_mode_register (c811_mode (d811_cfg d)) (d811_nint d)).

Definition read_alg_result (addr : Z) : M Ccs811 Ccs811Error Ccs811Readings :=
  result ← transact Bus811 (I2cWriteRead addr [0x02] 8);
  let status := u8_at result 4 in
  if negb (Z.land status 0x01 =? 0) then throw SensorError else
  if Z.land status 0x08 =? 0 then throw NotReady811 else
  mret (mkCcs811Readings (f32_of_Z (u16_be result 0)) (f32_of_Z (u16_be result 2))).

Definition ccs811_sample : M Ccs811 Ccs811Error Ccs811Readings :=
  d ← self;
  _ ← (if d811_nint d then
         w ← pin_low;
         match w with WentLow => mret tt | PinFailed => throw Pin811 | TimedOut => throw Timeout811 end
       else mret tt);
  read_alg_result (c811_addr (d811_cfg d)).

(** ** WSEN-ITDS *)

Inductive FullScaleItds := G2 | G4 | G8 | G16.
Inductive OdrItds := Hz1_6 | Hz12_5 | Hz25 | Hz50 | Hz100 | Hz200 | Hz400 | Hz800 | Hz1600.
Definition odr_bits (o : OdrItds) : Z :=
  match o with
  | Hz1_6 => 1 | Hz12_5 => 2 | Hz25 => 3 | Hz50 => 4 | Hz100 => 5 | Hz200 => 6 | Hz400 => 7 | Hz800 => 8 | Hz1600 => 9
  end.
Inductive PowerMode := Low | Normal | High.
Definition power_bits (p : PowerMode) : Z := match p with Low => 0 | Normal => 1 | High => 2 end.

Record WsenItdsConfig := mkWsenItdsConfig {
  itds_addr : Z; full_scale_g : FullScaleItds; itds_odr : OdrItds; power_mode : PowerMode;
}.
Record WsenItdsReadings := mkWsenItdsReadings { itds_x : f32; itds_y : f32; itds_z : f32 }.
Inductive WsenItdsError := BusItds (e : BE) | InvalidIdItds (id : Z) | DataReadyTimeoutItds.
Record WsenItds := mkWsenItds { itds_cfg : WsenItdsConfig; sensitivity : f32 }.

Definition fs_config (fs : FullScaleItds) : Z * f32 :=
  match fs with
  | G2 => (0x00, f32_ratio 61 1000000)
  | G4 => (0x10, f32_ratio 122 1000000)
  | G8 => (0x20, f32_ratio 244 1000000)
  | G16 => (0x30, f32_ratio 488 1000000)
  end.

Definition wsen_new (cfg : WsenItdsConfig) : WsenItds := mkWsenItds cfg (fs_config (full_scale_g cfg)).2.

Definition DRDY_WAIT_PERIODS : Z := 2.

(** The poll of DRDY, with the periods waited *)
Fixpoint drdy_polls (fuel : nat) (waited : Z) (addr : Z) : M WsenItds WsenItdsError unit :=
  match fuel with
  | O => or_panic None
  | Datatypes.S fuel =>
      status ← transact BusItds (I2cWriteRead addr [0x27] 1);
      if negb (Z.land (u8_at status 0) 0x01 =? 0) then mret tt else
      if DRDY_WAIT_PERIODS <=? waited then throw DataReadyTimeoutItds else
      waited ← or_panic (u32 (waited + 1));
      drdy_polls fuel waited addr
  end.

Definition wsen_init : M WsenItds WsenItdsError unit :=
  d ← self;
  let cfg := itds_cfg d in
  let fs_bits := (fs_config (full_scale_g cfg)).1 in
  let addr := itds_addr cfg in
  id ← transact BusItds (I2cWriteRead addr [0x0F] 1);
  if negb (u8_at id 0 =? 0x44) then throw (InvalidIdItds (u8_at id 0)) else
  _ ← transact BusItds (I2cWrite addr [0x21; Z.lor 0x04 0x08]);
  _ ← transact BusItds (I2cWrite addr [0x25; fs_bits]);
  let ctrl_1 := Z.lor (Z.shiftl (odr_bits (itds_odr cfg)) 4) (Z.shiftl (power_bits (power_mode cfg)) 2) in
  _ ← transact BusItds (I2cWrite addr [0x20; ctrl_1]);
  drdy_polls LOOP_FUEL 0 addr.

Definition wsen_sample : M WsenItds WsenItdsError WsenItdsReadings :=
  d ← self;
  raw ← transact BusItds (I2cWriteRead (itds_addr (itds_cfg d)) [0x28] 6);
  let axis i := f32_mul (f32_of_Z (i16_le raw i)) (sensitivity d) in
  mret (mkWsenItdsReadings (axis 0%nat) (axis 2%nat) (axis 4%nat)).

(** ** LSM6DSO32 *)

Inductive OdrLsm :=
  | PowerDown | Odr12_5 | Odr26 | Odr52 | Odr104 | Odr208 | Odr416 | Odr833 | Odr1_66k | Odr3_33k | Odr6_66k.
Definition odr_field (o : OdrLsm) : Z :=
  match o with
  | PowerDown => 0 | Odr12_5 => 1 | Odr26 => 2 | Odr52 => 3 | Odr104 => 4 | Odr208 => 5 | Odr416 => 6 | Odr833 => 7
  | Odr1_66k => 8 | Odr3_33k => 9 | Odr6_66k => 10
  end.

Inductive AccelScale := AccelG4 | AccelG8 | AccelG16 | AccelG32.
Definition accel_fs_bits (a : AccelScale) : Z := match a with AccelG4 => 0 | AccelG32 => 1 | AccelG8 => 2 | AccelG16 => 3 end.
Definition sensitivity_mg (a : AccelScale) : f32 :=
  match a with
  | AccelG4 => f32_ratio 122 1000 | AccelG8 => f32_ratio 244 1000 | AccelG16 => f32_ratio 488 1000 | AccelG32 => f32_ratio 976 1000
  end.

Inductive GyroScale := Dps125 | Dps250 | Dps500 | Dps1000 | Dps2000.
Definition gyro_fs_bits (g : GyroScale) : Z := match g with Dps125 => 2 | Dps250 => 0 | Dps500 => 4 | Dps1000 => 8 | Dps2000 => 12 end.
Definition sensitivity_mdps (g : GyroScale) : f32 :=
  match g with
  | Dps125 => f32_ratio 4375 1000 | Dps250 => f32_ratio 875 100 | Dps500 => f32_ratio 175 10
  | Dps1000 => f32_of_Z 35 | Dps2000 => f32_of_Z 70
  end.

Record Lsm6dso32Config := mkLsm6dso32Config {
  accel_odr : OdrLsm; gyro_odr : OdrLsm; accel_scale : AccelScale; gyro_scale : GyroScale;
}.
Record Lsm6dso32Readings := mkLsm6dso32Readings {
  lsm_accel_x : f32; lsm_accel_y : f32; lsm_accel_z : f32; lsm_gyro_x : f32; lsm_gyro_y : f32; lsm_gyro_z : f32; lsm_temperature : f32;
}.
Inductive Lsm6dso32Error := BusLsm (e : BE) | InvalidIdLsm (id : Z) | DataReadyTimeoutLsm.
Record Lsm6dso32 := mkLsm6dso32 { lsm_cfg : Lsm6dso32Config }.

Definition lsm_new (cfg : Lsm6dso32Config) : Lsm6dso32 := mkLsm6dso32 cfg.

Definition ctrl1_xl (o : OdrLsm) (a : AccelScale) : Z := Z.lor (Z.shiftl (odr_field o) 4) (Z.shiftl (accel_fs_bits a) 2).
Definition ctrl2_g (o : OdrLsm) (g : GyroScale) : Z := Z.lor (Z.shiftl (odr_field o) 4) (gyro_fs_bits g).

Definition ready_mask (cfg : Lsm6dso32Config) : Z :=
  let mask := match accel_odr cfg with PowerDown => 0 | _ => Z.lor 0x01 0x04 end in
  match gyro_odr cfg with PowerDown => mask | _ => Z.lor mask 0x02 end.

Definition read_reg_tx (reg : Z) : BusTx := SpiTransfer [Z.lor reg 0x80; 0x00].
Definition write_reg (reg val : Z) : M Lsm6dso32 Lsm6dso32Error unit :=
  _ ← transact BusLsm (SpiWrite [Z.land reg 0x7F; val]); mret tt.

Definition WHO_AM_I_RETRIES : Z := 2.
Definition READY_MAX_POLLS : Z := 25.

Fixpoint who_am_i (fuel : nat) (attempt : Z) : M Lsm6dso32 Lsm6dso32Error unit :=
  match fuel with
  | O => or_panic None
  | Datatypes.S fuel =>
      r ← try_transact (read_reg_tx 0x0F);
      let again := attempt ← or_panic (u32 (attempt + 1)); who_am_i fuel attempt in
      match r with
      | Ok rx =>
          if u8_at rx 1 =? 0x6C then mret tt else
          if WHO_AM_I_RETRIES <=? attempt then throw (InvalidIdLsm (u8_at rx 1)) else again
      | Err e => if WHO_AM_I_RETRIES <=? attempt then throw (BusLsm e) else again
      end
  end.

Fixpoint ready_polls (fuel : nat) (polls : Z) (mask : Z) : M Lsm6dso32 Lsm6dso32Error unit :=
  match fuel with
  | O => or_panic None
  | Datatypes.S fuel =>
      rx ← transact BusLsm (read_reg_tx 0x1E);
      if Z.land (u8_at rx 1) mask =? mask then mret tt else
      if READY_MAX_POLLS <=? polls then throw DataReadyTimeoutLsm else
      polls ← or_panic (u32 (polls + 1));
      ready_polls fuel polls mask
  end.

Definition lsm_init : M Lsm6dso32 Lsm6dso32Error unit :=
  d ← self;
  let cfg := lsm_cfg d in
  _ ← who_am_i LOOP_FUEL 0;
  _ ← write_reg 0x12 0x01;
  _ ← write_reg 0x12 (Z.lor 0x40 0x04);
  _ ← write_reg 0x10 (ctrl1_xl (accel_odr cfg) (accel_scale cfg));
  _ ← write_reg 0x11 (ctrl2_g (gyro_odr cfg) (gyro_scale cfg));
  ready_polls LOOP_FUEL 0 (ready_mask cfg).

(** [read_burst] into a buffer of [n] bytes: the byte that answers the address is
    dropped, so register [i] is byte [i + 1]. *)
Definition read_burst (reg : Z) (n : nat) : M Lsm6dso32 Lsm6dso32Error Buffer :=
  let len := (n + 1)%nat in
  _ ← or_panic (slice_to (replicate 15 0) len);
  tx ← or_panic (slice_to (Z.lor reg 0x80 :: replicate 14 0) len);
  rx ← transact BusLsm (SpiTransfer tx);
  part ← or_panic (slice (buffer_bytes rx 15) 1 len);
  _ ← or_panic (if (length part =? n)%nat then Some tt else None);
  mret (fun i => rx (i + 1)%nat).

Definition lsm_sample : M Lsm6dso32 Lsm6dso32Error Lsm6dso32Readings :=
  d ← self;
  raw ← read_burst 0x20 14;
  let a_scale := f32_div (sensitivity_mg (accel_scale (lsm_cfg d))) (f32_of_Z 1000) in
  let g_scale := f32_div (sensitivity_mdps (gyro_scale (lsm_cfg d))) (f32_of_Z 1000) in
  let scaled i k := f32_mul (f32_of_Z (i16_le raw i)) k in
  mret (mkLsm6dso32Readings (scaled 8%nat a_scale) (scaled 10%nat a_scale) (scaled 12%nat a_scale)
    (scaled 2%nat g_scale) (scaled 4%nat g_scale) (scaled 6%nat g_scale)
    (f32_add (f32_div (f32_of_Z (i16_le raw 0)) (f32_of_Z 256)) (f32_of_Z 25))).

(** ** The synthetic sources *)

Record SimSourceConfig := mkSimSourceConfig { sim_start : f32; sim_step : f32; sim_max : f32 }.
Record SimSource := mkSimSource { sim_cfg : SimSourceConfig; sim_next : f32 }.
Inductive SimSourceError := BusSim (e : BE).

Definition sim_new (cfg : SimSourceConfig) : SimSource := mkSimSource cfg (sim_start cfg).
Definition sim_init : M SimSource SimSourceError unit := mret tt.
Definition sim_sample : M SimSource SimSourceError f32 :=
  d ← self;
  let advanced := f32_add (sim_next d) (sim_step (sim_cfg d)) in
  _ ← set_self (mkSimSource (sim_cfg d) (if fgt advanced (sim_max (sim_cfg d)) then sim_start (sim_cfg d) else advanced));
  mret (sim_next d).

Record SpiLoopbackReadings := mkSpiLoopbackReadings { echo_ok : f32; loop_counter : f32 }.
Inductive SpiLoopbackError := BusLoop (e : BE).
Record SpiLoopback := mkSpiLoopback { loop_len : nat; loop_count : Z }.

Definition MAX_TRANSFER : nat := 32.
Definition loopback_new (transfer_len : Z) : SpiLoopback :=
  mkSpiLoopback (Nat.min (Nat.max (Z.to_nat transfer_len) 1) MAX_TRANSFER) 0.

Definition loopback_init : M SpiLoopback SpiLoopbackError unit :=
  d ← self;
  _ ← or_panic (slice_to (replicate MAX_TRANSFER 0) (loop_len d));
  tx ← or_panic (slice_to (replicate MAX_TRANSFER 0) (loop_len d));
  _ ← transact BusLoop (SpiTransfer tx);
  mret tt.

(** The bytes count up from the low byte of the counter. *)
Definition pattern (counter : Z) (len : nat) : list Z :=
  (fun i => wrap 8 (Z.land counter 0xFF + Z.of_nat i)) <$> seq 0 len.

Definition loopback_sample : M SpiLoopback SpiLoopbackError SpiLoopbackReadings :=
  d ← self;
  let len := loop_len d in
  let counter := wrap 16 (loop_count d + 1) in
  _ ← set_self (mkSpiLoopback len counter);
  let zeros := replicate MAX_TRANSFER 0 in
  filled ← or_panic (slice_to zeros len);
  let tx := pattern counter (length filled) ++ drop len zeros in
  _ ← or_panic (slice_to zeros len);
  sent ← or_panic (slice_to tx len);
  rx ← transact BusLoop (SpiTransfer sent);
  got ← or_panic (slice_to (buffer_bytes rx MAX_TRANSFER) len);
  sent ← or_panic (slice_to tx len);
  let matched := bool_decide (got = sent) in
  mret (mkSpiLoopbackReadings (f32_of_Z (if matched then 1 else 0)) (f32_of_Z counter)).

(** ** The arithmetic of the BMP180

    The datasheet's formulas over the integers, for comparison: [None] where
    they divide by zero or the pressure does not fit its [long]. *)

Definition div_formula (a b : Z) : option Z := if b =? 0 then None else Some (Z.quot a b).

Definition temperature_formula (ut : Z) (cal : Calibration180) : option (Z * f32) :=
  let x1 := Z.shiftr ((ut - ac6 cal) * ac5 cal) 15 in
  x2 ← div_formula (mc cal * 2048) (x1 + md cal);
  Some (x1 + x2, f32_div (f32_of_Z (Z.shiftr (x1 + x2 + 8) 4)) (f32_of_Z 10)).

Definition pressure_formula (up b5 oss : Z) (cal : Calibration180) : option f32 :=
  let b6 := b5 - 4000 in
  let x3 := Z.shiftr (b2 cal * Z.shiftr (b6 * b6) 12) 11 + Z.shiftr (ac2 cal * b6) 11 in
  let b3 := Z.shiftr ((ac1 cal * 4 + x3) * 2 ^ oss + 2) 2 in
  let x3 := Z.shiftr (Z.shiftr (ac3 cal * b6) 13 + Z.shiftr (b1 cal * Z.shiftr (b6 * b6) 12) 16 + 2) 2 in
  let b4 := Z.shiftr (ac4 cal * (x3 + 32768)) 15 in
  let b7 := (up - b3) * Z.shiftr 50000 oss in
  p ← (if b7 <? 2 ^ 31 then div_formula (b7 * 2) b4 else q ← div_formula b7 b4; Some (q * 2));
  if (- 2 ^ 31 <=? p) && (p <? 2 ^ 31) then
    let x1 := Z.shiftr (Z.shiftr p 8 * Z.shiftr p 8 * 3038) 16 in
    let x2 := Z.shiftr (-7357 * p) 16 in
    Some (f32_div (f32_of_Z (p + Z.shiftr (x1 + x2 + 3791) 4)) (f32_of_Z 100))
  else None.

(** The calibration words at their widths *)
Definition i16_word (z : Z) : Prop := - 2 ^ 15 <= z < 2 ^ 15.
Definition u16_word (z : Z) : Prop := 0 <= z < 2 ^ 16.

Record cal180_ok (c : Calibration180) : Prop := {
  ac1_ok : i16_word (ac1 c); ac2_ok : i16_word (ac2 c); ac3_ok : i16_word (ac3 c);
  ac4_ok : u16_word (ac4 c); ac5_ok : u16_word (ac5 c); ac6_ok : u16_word (ac6 c);
  b1_ok : i16_word (b1 c); b2_ok : i16_word (b2 c); mc_ok : i16_word (mc c); md_ok : i16_word (md c);
}.

Lemma abs_mul a b A B : Z.abs a <= A -> Z.abs b <= B -> Z.abs (a * b) <= A * B.
Proof. intros. rewrite Z.abs_mul. apply Z.mul_le_mono_nonneg; lia. Qed.

Lemma abs_shr a n A : 0 <= n -> Z.abs a <= A * 2 ^ n -> Z.abs (Z.shiftr a n) <= A.
Proof.
  intros Hn Ha. rewrite Z.shiftr_div_pow2 by done.
  assert (0 < 2 ^ n) by lia.
  assert (- A <= a / 2 ^ n) by (apply Z.div_le_lower_bound; lia).
  assert (a / 2 ^ n <= A) by (apply Z.div_le_upper_bound; lia). lia.
Qed.

Lemma abs_quot a b : Z.abs (Z.quot a b) <= Z.abs a.
Proof.
  destruct (decide (b = 0)) as [->|Hb]; [rewrite Z.quot_0_r_ext by done; lia|].
  rewrite <- Z.quot_abs by done. apply Z.quot_le_upper_bound; nia.
Qed.

Lemma i64_fits z : Z.abs z < 2 ^ 63 -> i64 z = Some z.
Proof. intros Hz. unfold i64. rewrite (proj2 (Z.leb_le _ _)), (proj2 (Z.ltb_lt _ _)) by lia. done. Qed.

Lemma bind_i64 {A} z (k : Z -> option A) : Z.abs z < 2 ^ 63 -> (i64 z ≫= k) = k z.
Proof. intros Hz. by rewrite i64_fits. Qed.

Lemma checked_div_formula a b : Z.abs a < 2 ^ 63 -> checked_div a b = div_formula a b.
Proof.
  intros Ha. unfold checked_div, div_formula. destruct (b =? 0); [done|].
  pose proof (abs_quot a b). apply i64_fits. lia.
Qed.

Lemma div_formula_abs a b q : div_formula a b = Some q -> Z.abs q <= Z.abs a.
Proof. unfold div_formula. destruct (b =? 0); [done|]. intros [= <-]. apply abs_quot. Qed.

Lemma i64_shl_fits x n : 0 <= n -> Z.abs (x * 2 ^ n) < 2 ^ 63 -> i64_shl x n = x * 2 ^ n.
Proof. intros Hn Hx. unfold i64_shl. rewrite Z.shiftl_mul_pow2 by done. apply to_signed_wrap; lia. Qed.

(** [B5] stays below 2^27. *)
Lemma temperature_exact ut cal :
  u16_word ut -> cal180_ok cal ->
  compensate_temperature180 ut cal = Some (temperature_formula ut cal) /\
  forall b5 t, temperature_formula ut cal = Some (b5, t) -> Z.abs b5 <= 2 ^ 27.
Proof.
  intros Hut []. unfold i16_word, u16_word in *. unfold compensate_temperature180, temperature_formula.
  assert (Z.abs ((ut - ac6 cal) * ac5 cal) <= 2 ^ 16 * 2 ^ 16) by (apply abs_mul; lia).
  rewrite !bind_i64 by lia. cbv zeta.
  assert (Z.abs (Z.shiftr ((ut - ac6 cal) * ac5 cal) 15) <= 2 ^ 17) by (apply abs_shr; lia).
  set (x1 := Z.shiftr _ 15) in *. rewrite !bind_i64 by lia. rewrite checked_div_formula by lia.
  destruct (div_formula _ _) as [x2|] eqn:E; [|done]. apply div_formula_abs in E.
  do 2 (rewrite bind_i64 by lia). cbn [mbind option_bind]. split; [reflexivity|].
  intros b5 t [Hb _]%(inj Some)%pair_equal_spec. lia.
Qed.

(** What follows [p] in the pressure formula *)
Definition finish180 (p : Z) : option (option f32) :=
  if (- 2 ^ 31 <=? p) && (p <? 2 ^ 31) then
    x1 ← i64 (Z.shiftr p 8 * Z.shiftr p 8);
    x1 ← i64 (x1 * 3038);
    x2 ← i64 (-7357 * p);
    s ← i64 (Z.shiftr x1 16 + Z.shiftr x2 16);
    s ← i64 (s + 3791);
    r ← i64 (p + Z.shiftr s 4);
    Some (Some (f32_div (f32_of_Z r) (f32_of_Z 100)))
  else Some None.

Lemma finish180_exact p :
  finish180 p = Some (if (- 2 ^ 31 <=? p) && (p <? 2 ^ 31) then
    Some (f32_div (f32_of_Z (p + Z.shiftr (Z.shiftr (Z.shiftr p 8 * Z.shiftr p 8 * 3038) 16 + Z.shiftr (-7357 * p) 16 + 3791) 4)) (f32_of_Z 100))
    else None).
Proof.
  unfold finish180. destruct (_ && _) eqn:E; [|done]. apply andb_true_iff in E as [E1%Z.leb_le E2%Z.ltb_lt].
  assert (Z.abs (Z.shiftr p 8) <= 2 ^ 23) by (apply abs_shr; lia).
  assert (Z.abs (Z.shiftr p 8 * Z.shiftr p 8) <= 2 ^ 23 * 2 ^ 23) by (apply abs_mul; lia).
  assert (Z.abs (Z.shiftr (Z.shiftr p 8 * Z.shiftr p 8 * 3038) 16) <= 2 ^ 42) by (apply abs_shr; lia).
  assert (Z.abs (Z.shiftr (-7357 * p) 16) <= 2 ^ 28) by (apply abs_shr; lia).
  rewrite bind_i64 by lia. rewrite bind_i64 by lia. rewrite bind_i64 by lia. rewrite bind_i64 by lia. rewrite bind_i64 by lia.
  rewrite bind_i64; [done|].
  set (s := Z.shiftr _ 16 + _ + _). assert (Z.abs (Z.shiftr s 4) <= 2 ^ 43) by (apply abs_shr; lia). lia.
Qed.

(** Names a subterm of the goal and keeps of it only its bound. *)
Ltac bounded x e H B tac :=
  assert (H : Z.abs e <= B) by tac; set (x := e) in *; clearbody x.

Lemma shifted_bounds up sm o :
  0 <= up < 2 ^ 24 -> Z.abs sm <= 2 ^ 47 + 2 ^ 33 ->
  let b3 := Z.shiftr (sm * 2 ^ oss_bits o + 2) 2 in
  Z.abs (sm * 2 ^ oss_bits o) <= 2 ^ 51 /\ Z.abs b3 <= 2 ^ 50 /\ Z.abs ((up - b3) * Z.shiftr 50000 (oss_bits o)) <= 2 ^ 62 - 1.
Proof.
  intros Hup Hsm b3. assert (Hk : 0 <= oss_bits o <= 3) by (destruct o; cbn; lia).
  assert (Hb : Z.abs b3 <= (2 ^ 45 + 2 ^ 31 + 1) * 2 ^ oss_bits o)
    by (apply abs_shr; [lia|]; destruct o; cbn; lia).
  clearbody b3. split_and!; [destruct o; cbn; lia|destruct o; cbn in *; lia|].
  assert (Hm : Z.abs ((up - b3) * Z.shiftr 50000 (oss_bits o))
    <= (2 ^ 24 + (2 ^ 45 + 2 ^ 31 + 1) * 2 ^ oss_bits o) * Z.shiftr 50000 (oss_bits o))
    by (apply abs_mul; [lia|destruct o; vm_compute; discriminate]).
  etransitivity; [exact Hm|]. destruct o; vm_compute; discriminate.
Qed.

Lemma pressure_exact up b5 o cal :
  0 <= up < 2 ^ 24 -> Z.abs b5 <= 2 ^ 27 -> cal180_ok cal ->
  compensate_pressure180 up b5 (oss_bits o) cal = Some (pressure_formula up b5 (oss_bits o) cal).
Proof.
  intros Hup Hb5 [? ? ? ? _ _ ? ? _ _]. unfold i16_word, u16_word in *. unfold compensate_pressure180, pressure_formula.
  rewrite bind_i64 by lia. cbv zeta.
  bounded b6 (b5 - 4000) H6 (2 ^ 27 + 4000) lia. clear Hb5.
  bounded q (b6 * b6) Hq ((2 ^ 27 + 4000) * (2 ^ 27 + 4000)) ltac:(by apply abs_mul). rewrite bind_i64 by lia.
  bounded sq (Z.shiftr q 12) Hsq (2 ^ 43) ltac:(apply abs_shr; lia). clear q Hq.
  bounded p1 (b2 cal * sq) Hp1 (2 ^ 15 * 2 ^ 43) ltac:(apply abs_mul; lia).
  bounded p2 (ac2 cal * b6) Hp2 (2 ^ 15 * (2 ^ 27 + 4000)) ltac:(apply abs_mul; lia).
  bounded p3 (ac3 cal * b6) Hp3 (2 ^ 15 * (2 ^ 27 + 4000)) ltac:(apply abs_mul; lia).
  bounded p4 (b1 cal * sq) Hp4 (2 ^ 15 * 2 ^ 43) ltac:(apply abs_mul; lia).
  clear H6 Hsq b6 sq.
  do 2 (rewrite bind_i64 by lia).
  bounded s1 (Z.shiftr p1 11) Hs1 (2 ^ 47) ltac:(apply abs_shr; lia).
  bounded s2 (Z.shiftr p2 11) Hs2 (2 ^ 32) ltac:(apply abs_shr; lia). clear p1 p2 Hp1 Hp2.
  do 3 (rewrite bind_i64 by lia).
  bounded sm (ac1 cal * 4 + (s1 + s2)) Hsum (2 ^ 47 + 2 ^ 33) lia. clear s1 s2 Hs1 Hs2.
  destruct (shifted_bounds up sm o Hup Hsum) as (Hshl & Hb3 & Hb7).
  rewrite i64_shl_fits by (destruct o; cbn in *; lia). rewrite bind_i64 by lia.
  set (b3 := Z.shiftr (sm * 2 ^ oss_bits o + 2) 2) in *. clearbody b3. clear sm Hsum Hshl.
  do 2 (rewrite bind_i64 by lia).
  bounded s3 (Z.shiftr p3 13) Hs3 (2 ^ 30) ltac:(apply abs_shr; lia).
  bounded s4 (Z.shiftr p4 16) Hs4 (2 ^ 42) ltac:(apply abs_shr; lia). clear p3 p4 Hp3 Hp4.
  do 2 (rewrite bind_i64 by lia).
  bounded y (Z.shiftr (s3 + s4 + 2) 2) Hy (2 ^ 41) ltac:(apply abs_shr; lia). clear s3 s4 Hs3 Hs4.
  rewrite bind_i64 by lia.
  bounded p5 (ac4 cal * (y + 32768)) Hp5 (2 ^ 16 * (2 ^ 41 + 32768)) ltac:(apply abs_mul; lia).
  do 2 (rewrite bind_i64 by lia). rewrite bind_i64 by lia.
  set (b7 := (up - b3) * _) in *. clearbody b7. change 0x80000000 with (2 ^ 31). clear y Hy Hp5.
  destruct (b7 <? 2 ^ 31).
  - rewrite bind_i64, checked_div_formula by lia. destruct (div_formula _ _) as [p|]; [|reflexivity].
    apply finish180_exact.
  - rewrite checked_div_formula by lia. destruct (div_formula _ _) as [p|] eqn:E; [|reflexivity].
    apply div_formula_abs in E. cbn [mbind option_bind]. rewrite i64_fits by lia. apply finish180_exact.
Qed.

(** ** Safety of a method

    From a driver in [I] it does not panic, leaves the driver in [I], puts at
    most [n] transactions on the bus and, if it is done, returns a [Q]. *)

Section Safe.
Context {D Er : Type} (I : D -> Prop).

Definition safe {A} (n : nat) (m : M D Er A) (Q : A -> Prop) : Prop := forall s, I s.1 ->
  I (m s).2.1 /\
  (exists t, (m s).2.2 = s.2 ++ t /\ (length t <= n)%nat) /\
  match (m s).1 with Done a => Q a | Failed _ => True | Panicked => False end.

Lemma safe_quiet {A} (m : M D Er A) (Q : A -> Prop) n :
  (forall s, I s.1 -> I (m s).2.1 /\ (m s).2.2 = s.2 /\ match (m s).1 with Done a => Q a | Failed _ => True | Panicked => False end) ->
  safe n m Q.
Proof.
  intros Hm s Hs. destruct (Hm s Hs) as (? & Ht & ?). split_and!; [done| |done].
  exists []. rewrite app_nil_r. split; [done|cbn; lia].
Qed.

Lemma safe_ret {A} n (a : A) (Q : A -> Prop) : Q a -> safe n (mret a) Q.
Proof. intros. by apply safe_quiet. Qed.
Lemma safe_throw {A} n e (Q : A -> Prop) : safe n (throw e) Q.
Proof. by apply safe_quiet. Qed.
Lemma safe_self n : safe n self I.
Proof. by apply safe_quiet. Qed.
Lemma safe_set_self n d (Q : unit -> Prop) : I d -> Q tt -> safe n (set_self d) Q.
Proof. intros. by apply safe_quiet. Qed.
Lemma safe_or_panic {A} n (o : option A) (Q : A -> Prop) : (exists a, o = Some a /\ Q a) -> safe n (or_panic o) Q.
Proof. intros (a & -> & Ha). by apply safe_quiet. Qed.
Lemma safe_pin_low n : safe n pin_low (fun _ => True).
Proof. by apply safe_quiet. Qed.

Lemma safe_transact e x n : safe (Datatypes.S n) (transact e x) (fun _ => True).
Proof.
  intros s Hs. cbn. split_and!; [done|exists [x]; split; [done|cbn; lia]|]. by destruct (answer s.2 x).
Qed.
Lemma safe_try_transact x n : safe (Datatypes.S n) (try_transact x) (fun _ => True).
Proof. intros s Hs. cbn. split_and!; [done|exists [x]; split; [done|cbn; lia]|done]. Qed.

Lemma safe_bind {A B} n1 n2 n (m : M D Er A) (f : A -> M D Er B) P Q :
  safe n1 m P -> (forall a, P a -> safe n2 (f a) Q) -> (n1 + n2 <= n)%nat -> safe n (m ≫= f) Q.
Proof.
  intros Hm Hf Hn s Hs. destruct (Hm s Hs) as (Hi & (t & Ht & Hl) & Ho). unfold mbind, M_bind.
  destruct (m s) as [[a|e|] s'] eqn:E; cbn in *; [|split_and!; [done|exists t; split; [done|lia]|done]|done].
  destruct (Hf a Ho s' Hi) as (? & (u & Hu & Hul) & ?). split_and!; [done| |done].
  exists (t ++ u). rewrite Hu, Ht, app_assoc, length_app. split; [done|lia].
Qed.

(** With one transaction in front *)
Lemma safe_after {B} n e x (f : Buffer -> M D Er B) Q :
  (forall b, safe n (f b) Q) -> safe (Datatypes.S n) (transact e x ≫= f) Q.
Proof. intros Hf. eapply (safe_bind 1 n); [apply safe_transact|by intros|lia]. Qed.
Lemma safe_read_self {B} n (f : D -> M D Er B) Q : (forall d, I d -> safe n (f d) Q) -> safe n (self ≫= f) Q.
Proof. intros Hf. eapply (safe_bind 0 n); [apply safe_self|done|lia]. Qed.

(** An operation that does not panic *)
Lemma safe_checked {A B} n (o : option A) a (f : A -> M D Er B) Q :
  o = Some a -> safe n (f a) Q -> safe n (or_panic o ≫= f) Q.
Proof. intros -> Hf. exact Hf. Qed.

(** The calls of a driver's task: for each, whether it is [init], how it
    ended, and the transactions it made. *)
Context {R : Type} (init : M D Er unit) (sample : M D Er R).

Definition forget {A} (o : outcome Er A) : outcome Er unit :=
  match o with Done _ => Done tt | Failed e => Failed e | Panicked => Panicked end.

Fixpoint calls (l : list bool) (s : D * list BusTx) : list (bool * outcome Er unit * nat) :=
  match l with
  | [] => []
  | is_init :: l =>
      let '(o, s') := if is_init then init s else let '(o, s') := sample s in (forget o, s') in
      (is_init, o, (length s'.2 - length s.2)%nat) :: calls l s'
  end.

(** No call panics or makes more transactions than its bound. *)
Definition well_behaved (n_init n_sample : nat) (l : list (bool * outcome Er unit * nat)) : Prop :=
  Forall (fun '(is_init, o, n) => o <> Panicked /\ (n <= if is_init : bool then n_init else n_sample)%nat) l.

Lemma calls_well_behaved n_init n_sample QI QS d :
  I d -> safe n_init init QI -> safe n_sample sample QS ->
  forall l t, well_behaved n_init n_sample (calls l (d, t)).
Proof.
  intros Hd Hi Hs l. revert d Hd. induction l as [|[] l IH]; intros d Hd t; cbn; [constructor|..].
  - destruct (Hi (d, t) Hd) as (Hd' & (u & Hu & Hl) & Ho). destruct (init (d, t)) as [o [d' t']]. cbn in *.
    constructor; [|by apply IH]. subst t'. rewrite length_app. split; [by destruct o|lia].
  - destruct (Hs (d, t) Hd) as (Hd' & (u & Hu & Hl) & Ho). destruct (sample (d, t)) as [o [d' t']]. cbn in *.
    constructor; [|by apply IH]. subst t'. rewrite length_app. split; [by destruct o|lia].
Qed.
End Safe.

Ltac method :=
  repeat (cbv zeta; match goal with
  | |- safe _ _ (mret _) _ => apply safe_ret; try done
  | |- safe _ _ (throw _) _ => apply safe_throw
  | |- safe _ _ (self ≫= _) _ => apply safe_read_self; intros
  | |- safe _ _ (transact _ _ ≫= _) _ => apply safe_after; intros
  | |- safe _ _ (if ?b then _ else _) _ => destruct b eqn:?
  end).

Definition always {A : Type} (_ : A) : Prop := True.

(** *** BMP180 *)

Lemma u16_be_word r i : u16_word (u16_be r i).
Proof. unfold u16_word, u16_be, u8_at. pose proof (b2z_range (r i)). pose proof (b2z_range (r (i + 1)%nat)). lia. Qed.
Lemma u16_le_word r i : u16_word (u16_le r i).
Proof. unfold u16_word, u16_le, u8_at. pose proof (b2z_range (r i)). pose proof (b2z_range (r (i + 1)%nat)). lia. Qed.
Lemma to_signed_word z : u16_word z -> i16_word (to_signed 16 z).
Proof. unfold u16_word, i16_word, to_signed. intros. repeat case_match; lia. Qed.
Lemma i16_be_word r i : i16_word (i16_be r i).
Proof. apply to_signed_word, u16_be_word. Qed.

Definition d180_ok (d : Bmp180) : Prop := cal180_ok (d180_cal d).

Lemma calibration180_ok r : cal180_ok (calibration180 r).
Proof. constructor; (apply i16_be_word || apply u16_be_word). Qed.

Lemma new180_ok cfg : d180_ok (bmp180_new cfg).
Proof. constructor; cbn; unfold i16_word, u16_word; lia. Qed.

Lemma init180_safe : safe d180_ok 2 bmp180_init always.
Proof. unfold bmp180_init. method. apply safe_set_self; [apply calibration180_ok|done]. Qed.

Lemma raw_p_bound r k : 0 <= k ->
  0 <= Z.shiftr (Z.lor (Z.lor (Z.shiftl (u8_at r 0) 16) (Z.shiftl (u8_at r 1) 8)) (u8_at r 2)) k < 2 ^ 24.
Proof.
  intros Hk. unfold u8_at. pose proof (b2z_range (r 0%nat)). pose proof (b2z_range (r 1%nat)). pose proof (b2z_range (r 2%nat)).
  assert (Hl : forall a b, 0 <= a < 2 ^ 24 -> 0 <= b < 2 ^ 24 -> 0 <= Z.lor a b < 2 ^ 24).
  { intros a b Ha Hb. split; [apply Z.lor_nonneg; lia|].
    destruct (decide (Z.lor a b = 0)) as [->|]; [lia|]. apply Z.log2_lt_pow2; [pose proof (Z.lor_nonneg a b); lia|].
    rewrite Z.log2_lor by lia. destruct (decide (a = 0)), (decide (b = 0)); subst; cbn;
      repeat (rewrite Z.log2_lt_pow2 in * by lia); try lia;
      apply Z.max_lub_lt; try (apply Z.log2_lt_pow2; lia); cbn; lia. }
  rewrite !Z.shiftl_mul_pow2 by lia. rewrite Z.shiftr_div_pow2 by done.
  assert (Hz : 0 <= Z.lor (Z.lor (b2z (r 0%nat) * 2 ^ 16) (b2z (r 1%nat) * 2 ^ 8)) (b2z (r 2%nat)) < 2 ^ 24)
    by (apply Hl; [apply Hl|]; lia).
  assert (0 < 2 ^ k) by lia. split; [apply Z.div_pos; lia|].
  eapply Z.le_lt_trans; [apply Z.div_le_upper_bound with (q := Z.lor (Z.lor (b2z (r 0%nat) * 2 ^ 16) (b2z (r 1%nat) * 2 ^ 8)) (b2z (r 2%nat))); nia|lia].
Qed.

Lemma sample180_safe : safe d180_ok 4 bmp180_sample always.
Proof.
  unfold bmp180_sample. method.
  destruct (temperature_exact (u16_be b0 0) (d180_cal d)) as [Ht Hb]; [apply u16_be_word|done|].
  eapply (safe_bind _ 0 0); [apply safe_or_panic; by rewrite Ht; eexists; split; [|exact eq_refl]| |lia].
  intros ? <-. destruct (temperature_formula _ _) as [[b5 t]|] eqn:E; [|method].
  eapply (safe_bind _ 0 0 0 _ _ always); [apply safe_or_panic| |lia].
  - rewrite pressure_exact; [eexists; by split|apply raw_p_bound; by destruct (c180_oss _)|by eapply Hb|done].
  - intros [] _; method.
Qed.

(** *** The others, in any state *)

Lemma u32_fits z : 0 <= z < 2 ^ 32 -> u32 z = Some z.
Proof. intros Hz. unfold u32. rewrite (proj2 (Z.leb_le _ _)), (proj2 (Z.ltb_lt _ _)) by lia. done. Qed.
Lemma u64_fits z : 0 <= z < 2 ^ 64 -> u64 z = Some z.
Proof. intros Hz. unfold u64. rewrite (proj2 (Z.leb_le _ _)), (proj2 (Z.ltb_lt _ _)) by lia. done. Qed.

Lemma slice_to_fits {A} (l : list A) n : (n <= length l)%nat -> slice_to l n = Some (take n l).
Proof. intros Hn. unfold slice_to. by rewrite (proj2 (Nat.leb_le _ _)). Qed.

Lemma safe_mono {D Er A} (I : D -> Prop) n n' (m : M D Er A) Q : safe I n m Q -> (n <= n')%nat -> safe I n' m Q.
Proof. intros Hm Hn s Hs. destruct (Hm s Hs) as (? & (t & ? & ?) & ?). split_and!; [done|exists t; split; [done|lia]|done]. Qed.

Lemma status_polls_safe I fuel : forall n addr, (n < fuel)%nat -> Z.of_nat n < 2 ^ 63 ->
  safe I (Datatypes.S n) (status_polls fuel (Z.of_nat n + 1) addr) always.
Proof.
  induction fuel as [|fuel IH]; intros n addr Hn Hb; [lia|]. cbn [status_polls]. apply safe_after. intros b.
  eapply safe_checked; [apply u64_fits; lia|]. destruct (_ || _) eqn:E; [method|]. apply orb_false_iff in E as [_ E%Z.eqb_neq].
  destruct n as [|n]; [lia|]. replace (Z.of_nat (Datatypes.S n) + 1 - 1) with (Z.of_nat n + 1) by lia. apply IH; lia.
Qed.

(** At most 113 polls, the longest measurement in milliseconds *)
Lemma polls_bound c : exists us k, measurement_time_max_us c = Some us /\
  div_ceil us (STATUS_POLL_MS * 1000) = Some (Z.of_nat k + 1) /\ (k <= 112)%nat.
Proof.
  assert (Hs : forall o, 1 <= samples o <= 16) by (intros []; cbn; lia).
  pose proof (Hs (osrs_t c)). pose proof (Hs (osrs_p c)). pose proof (Hs (osrs_h c)). clear Hs.
  assert (Hb : forall A z (k : Z -> option A), 0 <= z < 2 ^ 64 -> (u64 z ≫= k) = k z) by (intros A z k Hz; by rewrite u64_fits).
  unfold measurement_time_max_us. do 7 (rewrite Hb by lia). rewrite u64_fits by lia.
  set (us := _ + _). assert (9300 <= us <= 112800) as Hus by (subst us; lia). clearbody us.
  pose proof (Z.div_mod us 1000 ltac:(lia)). pose proof (Z.mod_pos_bound us 1000 ltac:(lia)).
  exists us. unfold div_ceil, u64_div, STATUS_POLL_MS. change (1 * 1000) with 1000. cbn [Z.eqb].
  change (Some (us / 1000) ≫= ?k) with (k (us / 1000)). cbv beta. destruct (Z.ltb_spec 0 (us mod 1000)).
  - exists (Z.to_nat (us / 1000)). rewrite u64_fits by lia. split_and!; [done|f_equal; lia|lia].
  - exists (Z.to_nat (us / 1000 - 1)). split_and!; [done|f_equal; lia|lia].
Qed.
Lemma wait_keeps_safe I : safe I 113 wait_for_conversion always.
Proof.
  unfold wait_for_conversion. method. destruct (polls_bound (d280_cfg d)) as (us & k & -> & Hp & Hk).
  eapply safe_checked; [done|]. eapply safe_checked; [exact Hp|].
  eapply safe_mono; [apply status_polls_safe; unfold LOOP_FUEL; lia|lia].
Qed.
Lemma wait_safe : safe always 113 wait_for_conversion always.
Proof. apply wait_keeps_safe. Qed.

Lemma init280_safe : safe always 120 bme280_init always.
Proof.
  unfold bme280_init. method. eapply (safe_bind _ 113 0); [apply wait_safe| |lia].
  intros ? _. by apply safe_set_self.
Qed.

Lemma read_raw_safe : safe always 1 read_raw always.
Proof. unfold read_raw. method. Qed.

Lemma humidity_some adc t cal : exists h, compensate_humidity280 adc t cal = Some h.
Proof. eexists. unfold compensate_humidity280, fclamp. cbn [mbind option_bind]. reflexivity. Qed.

Lemma sample280_safe : safe always 115 bme280_sample always.
Proof.
  unfold bme280_sample. eapply (safe_bind _ 1 114); [apply read_raw_safe| |lia]. intros raw _.
  eapply (safe_bind _ 114 0 _ _ _ always); [|clear raw; intros raw _|lia].
  - destruct (is_reset_pattern raw); [|method].
    eapply (safe_bind _ 113 1); [apply wait_safe|intros ? _|lia].
    eapply (safe_bind _ 1 0); [apply read_raw_safe|intros ? _; method|lia].
  - method. destruct (compensate_temperature280 _ _) as [t temp].
    destruct (humidity_some (adc_h raw) t (d280_cal d)) as [h Hh].
    eapply (safe_bind _ 0 0 0 _ _ always); [apply safe_or_panic; rewrite Hh; by exists h|intros ? _; method|lia].
Qed.

Lemma os_polls_safe fuel : forall n polls addr, (n <= fuel)%nat -> 0 <= polls -> MAX_OS_POLLS - polls = Z.of_nat n -> (0 < n)%nat ->
  safe always n (os_polls fuel polls addr) always.
Proof.
  unfold MAX_OS_POLLS. induction fuel as [|fuel IH]; intros [|n] polls addr Hf Hp Hn Hl; try lia. cbn [os_polls]. method.
  eapply safe_checked; [apply u32_fits; lia|]. method. unfold MAX_OS_POLLS in *. apply IH; lia.
Qed.

Lemma read_channel_safe ch : (ch < 4)%nat -> safe always 18 (read_channel ch) always.
Proof.
  intros Hch. unfold read_channel. method.
  eapply (safe_bind _ 0 18 _ _ _ always); [apply safe_or_panic|intros mux _; method|lia].
  - destruct (lookup_lt_is_Some_2 MUX ch) as [m Hm]; [cbn; lia|]. by exists m.
  - eapply (safe_bind _ 16 1); [apply (os_polls_safe LOOP_FUEL 16); unfold LOOP_FUEL, MAX_OS_POLLS; lia|intros ? _; method|lia].
Qed.

Lemma ads_sample_safe : safe always 72 ads1115_sample always.
Proof.
  unfold ads1115_sample. eapply (safe_bind _ 18 54); [apply read_channel_safe; lia|intros ? _|lia].
  eapply (safe_bind _ 18 36); [apply read_channel_safe; lia|intros ? _|lia].
  eapply (safe_bind _ 18 18); [apply read_channel_safe; lia|intros ? _|lia].
  eapply (safe_bind _ 18 0); [apply read_channel_safe; lia|intros ? _; method|lia].
Qed.

Lemma init811_safe : safe always 5 ccs811_init always.
Proof.
  unfold ccs811_init, init_sensor. method;
    (eapply (safe_bind _ 1 1 _ _ _ always); [method|intros ? _; method|lia]).
Qed.

Lemma sample811_safe : safe always 1 ccs811_sample always.
Proof.
  unfold ccs811_sample, read_alg_result. method.
  eapply (safe_bind _ 0 1 _ _ _ always); [|intros ? _; method|lia].
  destruct (d811_nint d); [|method]. eapply (safe_bind _ 0 0); [apply safe_pin_low|intros [] _; method|lia].
Qed.

Lemma drdy_polls_safe fuel : forall n waited addr, (n < fuel)%nat -> 0 <= waited -> DRDY_WAIT_PERIODS - waited = Z.of_nat n ->
  safe always (Datatypes.S n) (drdy_polls fuel waited addr) always.
Proof.
  unfold DRDY_WAIT_PERIODS. induction fuel as [|fuel IH]; intros n waited addr Hf Hp Hn; [lia|]. cbn [drdy_polls]. method.
  unfold DRDY_WAIT_PERIODS in *. destruct n as [|n]; [lia|]. eapply safe_checked; [apply u32_fits; lia|]. apply IH; lia.
Qed.
Lemma wsen_init_safe : safe always 7 wsen_init always.
Proof. unfold wsen_init. method. apply (drdy_polls_safe LOOP_FUEL 2); unfold LOOP_FUEL, DRDY_WAIT_PERIODS; lia. Qed.

Lemma who_am_i_safe fuel : forall n attempt, (n < fuel)%nat -> 0 <= attempt -> WHO_AM_I_RETRIES - attempt = Z.of_nat n ->
  safe always (Datatypes.S n) (who_am_i fuel attempt) always.
Proof.
  unfold WHO_AM_I_RETRIES. induction fuel as [|fuel IH]; intros n attempt Hf Hp Hn; [lia|]. cbn [who_am_i].
  eapply (safe_bind _ 1 n); [apply safe_try_transact| |lia].
  intros [rx|e] _; method; unfold WHO_AM_I_RETRIES in *; (destruct n as [|n]; [lia|]);
    (eapply safe_checked; [apply u32_fits; lia|apply IH; lia]).
Qed.
Lemma ready_polls_safe fuel : forall n polls mask, (n < fuel)%nat -> 0 <= polls -> READY_MAX_POLLS - polls = Z.of_nat n ->
  safe always (Datatypes.S n) (ready_polls fuel polls mask) always.
Proof.
  unfold READY_MAX_POLLS. induction fuel as [|fuel IH]; intros n polls mask Hf Hp Hn; [lia|]. cbn [ready_polls]. method.
  unfold READY_MAX_POLLS in *. destruct n as [|n]; [lia|]. eapply safe_checked; [apply u32_fits; lia|]. apply IH; lia.
Qed.
Lemma write_reg_safe reg val : safe always 1 (write_reg reg val) always.
Proof. unfold write_reg. method. Qed.
Lemma lsm_init_safe : safe always 33 lsm_init always.
Proof.
  unfold lsm_init. method.
  eapply (safe_bind _ 3 30); [apply (who_am_i_safe LOOP_FUEL 2); unfold LOOP_FUEL, WHO_AM_I_RETRIES; lia|intros ? _|lia].
  eapply (safe_bind _ 1 29); [apply write_reg_safe|intros ? _|lia].
  eapply (safe_bind _ 1 28); [apply write_reg_safe|intros ? _|lia].
  eapply (safe_bind _ 1 27); [apply write_reg_safe|intros ? _|lia].
  eapply (safe_bind _ 1 26); [apply write_reg_safe|intros ? _|lia].
  apply (ready_polls_safe LOOP_FUEL 25); unfold LOOP_FUEL, READY_MAX_POLLS; lia.
Qed.
Lemma read_burst_safe : safe always 1 (read_burst 0x20 14) always.
Proof.
  unfold read_burst. cbv zeta. do 2 (eapply safe_checked; [by vm_compute|]). method.
  eapply safe_checked; [reflexivity|]. eapply safe_checked; [reflexivity|]. method.
Qed.
Lemma lsm_sample_safe : safe always 1 lsm_sample always.
Proof. unfold lsm_sample. method. eapply (safe_bind _ 1 0); [apply read_burst_safe|intros ? _; method|lia]. Qed.

Lemma veml_init_safe : safe always 1 veml7700_init always.
Proof. unfold veml7700_init. method. destruct (integration_time _); (eapply safe_checked; [reflexivity|method]). Qed.

Lemma sim_sample_safe : safe always 0 sim_sample always.
Proof. unfold sim_sample. method. eapply (safe_bind _ 0 0); [by apply (safe_set_self _ _ _ always)|intros ? _; method|lia]. Qed.

(** The length of a transfer is clamped to the arrays. *)
Definition loop_ok (d : SpiLoopback) : Prop := (loop_len d <= MAX_TRANSFER)%nat.

Lemma loopback_init_safe : safe loop_ok 1 loopback_init always.
Proof.
  unfold loopback_init. apply safe_read_self. intros d Hd. unfold loop_ok in Hd.
  do 2 (eapply safe_checked; [apply slice_to_fits; by rewrite length_replicate|]). method.
Qed.
Lemma loopback_sample_safe : safe loop_ok 1 loopback_sample always.
Proof.
  unfold loopback_sample. apply safe_read_self. intros d Hd. cbv zeta. unfold loop_ok in Hd.
  eapply (safe_bind _ 0 1); [by apply (safe_set_self _ _ _ always)|intros _ _|lia].
  eapply safe_checked; [apply slice_to_fits; by rewrite length_replicate|].
  eapply safe_checked; [apply slice_to_fits; by rewrite length_replicate|].
  rewrite length_take, length_replicate, Nat.min_l by done.
  assert (length (pattern (wrap 16 (loop_count d + 1)) (loop_len d) ++ drop (loop_len d) (replicate MAX_TRANSFER 0)) = MAX_TRANSFER) as Hl.
  { unfold pattern. rewrite length_app, length_fmap, length_seq, length_drop, length_replicate. lia. }
  eapply safe_checked; [apply slice_to_fits; by rewrite Hl|]. method.
  eapply safe_checked; [apply slice_to_fits; unfold buffer_bytes; by rewrite length_fmap, length_seq|].
  eapply safe_checked; [apply slice_to_fits; by rewrite Hl|]. method.
Qed.

(** C9. Whatever a bus answers, and in whatever order [init] and [sample] of a
    sensor driver are called from its [new], no call panics: no checked integer
    operation overflows, no slice, index or copy is out of range, no division is
    by zero and no [clamp] has its bounds swapped.  And every poll loop ends, with
    each call making at most a fixed number of bus transactions.  Of the nine
    drivers, those of the CCS811 and of the synthetic source have no operation that
    could panic, and only the bound is of interest. *)
Theorem drivers_never_panic (l : list bool) (t : list BusTx) :
  (forall cfg, well_behaved 2 4 (calls bmp180_init bmp180_sample l (bmp180_new cfg, t))) /\
  (forall cfg, well_behaved 120 115 (calls bme280_init bme280_sample l (bme280_new cfg, t))) /\
  (forall cfg, exists d, ads1115_new cfg = Some d /\ well_behaved 1 72 (calls ads1115_init ads1115_sample l (d, t))) /\
  (forall cfg, well_behaved 1 1 (calls veml7700_init veml7700_sample l (veml7700_new cfg, t))) /\
  (forall cfg nint, well_behaved 5 1 (calls ccs811_init ccs811_sample l (ccs811_new_with_pins cfg nint, t))) /\
  (forall cfg, well_behaved 7 1 (calls wsen_init wsen_sample l (wsen_new cfg, t))) /\
  (forall cfg, well_behaved 33 1 (calls lsm_init lsm_sample l (lsm_new cfg, t))) /\
  (forall cfg, well_behaved 0 0 (calls sim_init sim_sample l (sim_new cfg, t))) /\
  (forall len, well_behaved 1 1 (calls loopback_init loopback_sample l (loopback_new len, t))).
Proof.
  split_and!; intros.
  - apply (calls_well_behaved d180_ok _ _ _ _ always always); [apply new180_ok|apply init180_safe|apply sample180_safe].
  - apply (calls_well_behaved always _ _ _ _ always always); [done|apply init280_safe|apply sample280_safe].
  - assert (exists w, conversion_wait_ms (data_rate cfg) = Some w) as [w Hw] by (destruct (data_rate cfg); by eexists).
    unfold ads1115_new. destruct (pga (fs_mv cfg)) as [bits lsb]. rewrite Hw. eexists. split; [reflexivity|].
    apply (calls_well_behaved always _ _ _ _ always always); [done|unfold ads1115_init; method|apply ads_sample_safe].
  - apply (calls_well_behaved always _ _ _ _ always always); [done|apply veml_init_safe|unfold veml7700_sample; method].
  - apply (calls_well_behaved always _ _ _ _ always always); [done|apply init811_safe|apply sample811_safe].
  - apply (calls_well_behaved always _ _ _ _ always always); [done|apply wsen_init_safe|unfold wsen_sample; method].
  - apply (calls_well_behaved always _ _ _ _ always always); [done|apply lsm_init_safe|apply lsm_sample_safe].
  - apply (calls_well_behaved always _ _ _ _ always always); [done|unfold sim_init; method|apply sim_sample_safe].
  - apply (calls_well_behaved loop_ok _ _ _ _ always always); [unfold loop_ok, loopback_new; cbn; lia|apply loopback_init_safe|apply loopback_sample_safe].
Qed.

(** C14. On the calibration words and raw readings a BMP180 can send, whatever
    they are, the checked 64-bit computation of temperature and pressure gives
    exactly the datasheet's formula over the integers, and an undefined
    compensation only where that formula divides by zero or leaves its 32-bit
    range. *)
Theorem bmp180_compensation_exact (r raw raw3 : Buffer) (o : Oversampling180) :
  let cal := calibration180 r in
  let up := Z.shiftr (Z.lor (Z.lor (Z.shiftl (u8_at raw3 0) 16) (Z.shiftl (u8_at raw3 1) 8)) (u8_at raw3 2)) (8 - oss_bits o) in
  compensate_temperature180 (u16_be raw 0) cal = Some (temperature_formula (u16_be raw 0) cal) /\
  forall b5 t, temperature_formula (u16_be raw 0) cal = Some (b5, t) ->
    compensate_pressure180 up b5 (oss_bits o) cal = Some (pressure_formula up b5 (oss_bits o) cal).
Proof.
  cbv zeta. destruct (temperature_exact (u16_be raw 0) (calibration180 r)) as [Ht Hb]; [apply u16_be_word|apply calibration180_ok|].
  split; [done|]. intros b5 t E. apply pressure_exact; [apply raw_p_bound; by destruct o|by eapply Hb|apply calibration180_ok].
Qed.

(** ** What an [init] leaves behind *)

(** A transaction at a known point of the transcript *)
Lemma run_transact {D Er A} (d : D) t e x (f : Buffer -> M D Er A) :
  (transact e x ≫= f) (d, t) =
  match answer t x with Ok b => f b (d, t ++ [x]) | Err e' => (Failed (e e'), (d, t ++ [x])) end.
Proof. unfold mbind, M_bind, transact. cbn [fst snd]. by destruct (answer t x). Qed.

Lemma run_self {D Er A} (d : D) t (f : D -> M D Er A) : (self ≫= f) (d, t) = f d (d, t).
Proof. done. Qed.

(** A wait for the conversion only reads the status. *)
Lemma wait_transcript d t : exists k o, wait_for_conversion (d, t)
  = (o, (d, t ++ replicate k (I2cWriteRead (c280_addr (d280_cfg d)) [0xF3] 1))).
Proof.
  unfold wait_for_conversion. rewrite run_self.
  destruct (polls_bound (d280_cfg d)) as (us & k & -> & Hp & _).
  unfold mbind, M_bind, or_panic. rewrite Hp. clear.
  generalize (Z.of_nat k + 1). revert t. induction LOOP_FUEL as [|fuel IH]; intros t n; cbn [status_polls].
  { exists 0%nat, Panicked. cbn. by rewrite app_nil_r. }
  rewrite run_transact. destruct (answer t _) as [b|e]; [|by exists 1%nat, (Failed (Bus280 e))].
  unfold mbind, M_bind, or_panic. destruct (u64 (n - 1)) as [m|]; [|by exists 1%nat, Panicked].
  destruct (_ || _); [by exists 1%nat, (Done tt)|]. destruct (IH (t ++ [I2cWriteRead (c280_addr (d280_cfg d)) [0xF3] 1]) m) as (k' & o & ->).
  exists (Datatypes.S k'), o. cbn [replicate]. by rewrite <-app_assoc.
Qed.

(** The reads and writes of an [init], in order *)
Definition id_read (addr : Z) : BusTx := I2cWriteRead addr [0xD0] 1.
Definition cal_read180 (addr : Z) : BusTx := I2cWriteRead addr [0xAA] 22.
Definition cal_read280 (addr : Z) : BusTx := I2cWriteRead addr [0x88] 24.
Definition h1_read (addr : Z) : BusTx := I2cWriteRead addr [0xA1] 1.
Definition h_read (addr : Z) : BusTx := I2cWriteRead addr [0xE1] 7.
Definition config_writes (c : Bme280Config) : list BusTx :=
  [I2cWrite (c280_addr c) [0xF2; osrs_bits (osrs_h c)];
   I2cWrite (c280_addr c) [0xF5; standby_bits (t_sb c) * 32 + filter_bits (c280_filter c) * 4];
   I2cWrite (c280_addr c) [0xF4; osrs_bits (osrs_t c) * 32 + osrs_bits (osrs_p c) * 4 + 3]].

Lemma init180_result d t :
  let addr := c180_addr (d180_cfg d) in
  match bmp180_init (d, t) with
  | (Done _, s) => exists id raw, answer t (id_read addr) = Ok id /\ u8_at id 0 = 0x55 /\
      answer (t ++ [id_read addr]) (cal_read180 addr) = Ok raw /\ (forall w, (w < 11)%nat -> bad_word raw w = false) /\
      s = (mkBmp180 (d180_cfg d) (calibration180 raw), t ++ [id_read addr; cal_read180 addr])
  | (_, s) => s.1 = d
  end.
Proof.
  intros addr. unfold bmp180_init. rewrite run_self. cbv zeta. fold addr.
  rewrite run_transact. destruct (answer t _) as [id|e] eqn:Ei; [|done].
  destruct (u8_at id 0 =? 0x55) eqn:E55; cbn [negb]; [|done]. apply Z.eqb_eq in E55.
  rewrite run_transact. destruct (answer (t ++ _) _) as [raw|e] eqn:Er; [|done].
  destruct (existsb _ _) eqn:Ew; [done|]. cbn. exists id, raw. rewrite <-app_assoc. split_and!; try done.
  intros w Hw. destruct (bad_word raw w) eqn:Eb; [|done]. rewrite <- Ew. symmetry. apply existsb_exists.
  exists w. split; [apply in_seq; lia|done].
Qed.

Lemma init280_result d t :
  let c := d280_cfg d in
  let addr := c280_addr c in
  match bme280_init (d, t) with
  | (Done _, s) => exists id tp h1 h k, answer t (id_read addr) = Ok id /\ u8_at id 0 = 0x60 /\
      answer (t ++ [id_read addr]) (cal_read280 addr) = Ok tp /\
      idle_word (u16_le tp 0) = false /\ idle_word (u16_le tp 6) = false /\
      answer (t ++ [id_read addr; cal_read280 addr]) (h1_read addr) = Ok h1 /\
      answer (t ++ [id_read addr; cal_read280 addr; h1_read addr]) (h_read addr) = Ok h /\
      s = (mkBme280 c (calibration280 tp h1 h),
           t ++ [id_read addr; cal_read280 addr; h1_read addr; h_read addr] ++ config_writes c ++ replicate k (I2cWriteRead addr [0xF3] 1))
  | (_, s) => s.1 = d
  end.
Proof.
  intros c addr. unfold bme280_init. rewrite run_self. cbv zeta. fold c. fold addr.
  rewrite run_transact. destruct (answer t _) as [id|e] eqn:Ei; [|done].
  destruct (u8_at id 0 =? 0x60) eqn:E60; cbn [negb]; [|done]. apply Z.eqb_eq in E60.
  rewrite run_transact. destruct (answer (t ++ _) _) as [tp|e] eqn:Et; [|done].
  destruct (_ || _) eqn:Ew; [done|]. apply orb_false_iff in Ew as [Ew1 Ew2]. rewrite <-app_assoc. cbn [app].
  rewrite run_transact. destruct (answer _ (I2cWriteRead addr [0xA1] 1)) as [h1|e] eqn:E1; [|done]. rewrite <-app_assoc. cbn [app].
  rewrite run_transact. destruct (answer _ (I2cWriteRead addr [0xE1] 7)) as [h|e] eqn:Eh; [|done].
  do 3 (rewrite run_transact; match goal with |- context [answer _ (I2cWrite ?a ?b)] => destruct (answer _ (I2cWrite a b)) as [?|?]; [|done] end).
  unfold mbind, M_bind. match goal with |- context [wait_for_conversion (d, ?u)] => destruct (wait_transcript d u) as (k & o & ->) end.
  destruct o as [u| |]; [|done|done]. cbn. exists id, tp, h1, h, k. split_and!; try done. f_equal. rewrite <-!app_assoc. cbn [app].
  do 5 f_equal. unfold config_writes. subst c addr. destruct (d280_cfg d) as [addr [] [] [] [] []]; reflexivity.
Qed.

End Drivers.

(** ** The datasheet's example

    The calibration of figure 4 of the BMP180 datasheet, a bus that answers
    with it, and the readings the figure gives: 15.0 degrees and 699.64 hPa. *)

Module SampleBus.
Definition bytes (l : list Z) : Buffer := fun i => z2b (nth i l 0).

Definition words (l : list Z) : list Z := flat_map (fun w => [wrap 8 (Z.shiftr w 8); wrap 8 w]) l.

Definition example_calibration : Buffer :=
  bytes (words [408; -72; -14383; 32741; 32757; 23153; 6190; 4; -32768; -8711; 2868]).

(** The temperature result is read first, so after two commands of a sample
    the pressure is. *)
Definition bus (past : list BusTx) (x : BusTx) : res unit Buffer :=
  match x with
  | I2cWriteRead _ [0xD0] _ => Ok (bytes [0x55])
  | I2cWriteRead _ [0xAA] _ => Ok example_calibration
  | I2cWriteRead _ [0xF6] 2 => Ok (bytes (words [27898]))
  | I2cWriteRead _ [0xF6] _ => Ok (bytes [0x5D; 0x23; 0x00])
  | _ => Ok (bytes [])
  end.

Definition config : Bmp180Config := mkBmp180Config 0x77 Single.

Lemma example_temperature :
  temperature_formula 27898 (calibration180 example_calibration) = Some (2400, f32_ratio 150 10).
Proof. vm_compute. reflexivity. Qed.

Lemma example_pressure :
  pressure_formula 23843 2400 0 (calibration180 example_calibration) = Some (f32_ratio 69964 100).
Proof. vm_compute. reflexivity. Qed.

Lemma example_run :
  (bmp180_sample bus (bmp180_init bus (bmp180_new config, [])).2).1 = Done (mkBmp180Readings (f32_ratio 150 10) (f32_ratio 69964 100)).
Proof. vm_compute. reflexivity. Qed.
End SampleBus.
